(* ===== verification/_CoqProject ===== *)
-Q . S2P
Prelude.v
Sql.v
Float64.v
Jitter.v
Json.v
Errors.v
Requeue.v
Jobs.v
JobQueue.v
QueueInvariants.v
QueueTheorems.v
QueueSweeps.v
Deliveries.v
DeliveryTheorems.v
EventLog.v
EventTheorems.v
Costs.v
Checkpoints.v
SourceHealth.v
SourceHealthTheorems.v
WorkflowSpec.v
PlanTheorems.v
WorkflowStore.v
Cancel.v
WorkflowEngine.v
WorkflowTheorems.v
WorkflowSafety.v
Filters.v
Simhash.v
Records.v
ChangePlan.v
Datasets.v
BatchTheorems.v
DatasetTheorems.v
FeedTheorems.v
Robots.v
Frontier.v
Materiality.v
Revisit.v
Pages.v
CrawlState.v
Crawl.v
CrawlSteps.v
CrawlInvariants.v
CrawlTheorems.v
Triggers.v
TriggerFire.v
HopTheorems.v
TriggerTheorems.v
TriggerCache.v
Schedules.v
Scheduler.v
SchedulerTheorems.v
Vcr.v
Yields.v
Worker.v
ClaimLoop.v
WorkerTheorems.v
Catalog.v
Reconcile.v
ReconcileTheorems.v
Search.v
Fanout.v
FanoutTheorems.v
EventBus.v
EventBusTheorems.v
Governor.v
TierMemory.v
TierMemoryTheorems.v
Recipes.v
Markdown.v
Fetcher.v
FetcherTheorems.v
Cassette.v
Caches.v
HttpEngine.v
HttpTheorems.v
Metered.v
Transactions.v
