(* ===== verification/Prelude.v ===== *)
(** * Pumper: a verification library for the durable runtime

    Pumper runs scraping jobs: a server accepts them, a worker claims them from a
    SQLite-backed queue, engines fetch, rows land in versioned datasets, and what
    happened is published through a durable event log, webhooks, triggers and a cost
    ledger; a scheduler fires jobs on cron lines, a crawler walks sites under their
    robots rules, and a workflow engine composes jobs into plans.  This library models
    the part of that program that decides, the statements of the store and the pure and
    stateful code around them, and proves what each part promises.  Definitions keep the
    names of the Rust functions they translate.

    ** The parts, and the files that model them

    Shared foundations.
    - Prelude: record update, [result], machine integers, durations and stored
      timestamps, integer parsing, string search, tactics.
    - Sql: a table is the list of its rows in rowid order, and a statement is one
      atomic function on it ([select_where], [update_where], [order_by] ..).  Ties
      that SQL leaves open are resolved by table order, over which every theorem
      quantifies.
    - Float64: IEEE binary64 through [SpecFloat], the order on doubles, and rounding
      of integers to 53 bits.  Json: [serde_json::Value], objects as the sorted
      association lists a [BTreeMap] iterates.

    The job queue ([crates/core/src/storage.rs], [job.rs], [error.rs], [jitter.rs]).
    - Errors: the error enum and the two predicates that route a failure.
    - Requeue: the attempt ladder and the retry policy.  Jitter: the LCG fraction and
      the delay it adds, and the LRU bookkeeping of [lru.rs].
    - Jobs: the row and the requests.  JobQueue: one function per method of
      [Storage] on the [jobs] table; a method of several statements is composed of
      one function per statement.
    - QueueInvariants: the queue as a state machine whose steps are those statements,
      a failure's decision and its write being two steps that others can come
      between; the invariant and that every step keeps it.
    - QueueTheorems, QueueSweeps: the properties.

    The worker ([crates/server/src/worker.rs]).
    - Cancel: the intents and tokens by which a cancel and a shutdown drain tell a
      running task apart ([claim_user_cancel], [resolve_cancel], the cancel door of
      [routes/jobs.rs]).  Vcr: which runs a cassette can stand for ([vcr.rs]).
    - Yields: what a finished run says it produced, and the schedules an app declares,
      applied after its run ([app.rs]).
    - Worker: one run from its claim to its verdict ([begin], [conclude] and its
      arms), the executor's report, expiry and reaping, over the queue's statements
      and a trace of what the worker announces.  Each store call may fail: [up] says
      which do.  ClaimLoop: the caps of the claim loop and the drain's windows.
    - WorkerTheorems: the worker as a transition system over the queue.
    - Search: the documents a result and its revisions become, the saved searches and
      the views they materialize ([search.rs]).  Fanout: what a landed result sets off
      ([finalize_fanout]): the index, the health and contract gates, the events, the
      triggers, the alerts.  FanoutTheorems: the properties.

    Delivery ([storage.rs], [crates/server/src/webhook.rs], [subscriptions.rs]).
    - Deliveries: the delivery log, its retry ladder, the HTTP attempt loop, the sink
      addresses, the replay gate and the drain.  DeliveryTheorems: the properties.
    - EventLog: the event log, subscriptions, watches, selectors and the outbox drain
      that turns events into deliveries.  EventTheorems: the properties.
    - EventBus: the sequence, the replay ring and the queue owed to the log
      ([events.rs]), resuming a client from either and the live loops of the streams
      ([routes/events.rs]).  EventBusTheorems: the bus, its log and its flushers as a
      transition system, and the properties.

    Money ([costs.rs], and retention in [storage.rs]).
    - Costs: the ledger, imputation, the budget verdict, the in-memory running total
      and [prune_ledgers]; the properties.
    - Checkpoints: the fenced checkpoint statements and the executor registry, with
      their property.

    Schedules and triggers ([crates/server/src/scheduler.rs], [triggers.rs]).
    - Schedules: the schedules table and its decision ledger.  Scheduler: the due
      decision, misfires, admission, one step, one pass ([reconcile_one], [reconcile]).
      SchedulerTheorems: the properties, under the laws a cron line obeys.
    - Filters: the JSON-path predicates.  Triggers: the data of an edge, its decisions
      and its create door.  TriggerFire: the tables, the evaluation cache and the
      three doors that fire hops.  TriggerCache: that cache under concurrent
      mutations.  HopTheorems, TriggerTheorems: the properties.
    - Catalog: the declared sources and their contracts ([catalog.rs]).  Reconcile:
      the two reconcilers that move managed schedules to a declaration, the catalog's
      and the peers' ([config.rs]).  ReconcileTheorems: the properties.

    Datasets ([crates/core/src/datasets.rs], [simhash.rs], [resilience/]).
    - Records: the rows, trust and its floor, the removal guard.  ChangePlan: the
      verdicts of a batch.  Datasets: every statement on records and revisions, and
      the readers.  Simhash: fingerprints, the banded index and that
      it answers what a scan would.
    - BatchTheorems, DatasetTheorems, FeedTheorems: the properties.
    - SourceHealth: the health ladder of a source ([Resilience::observe]).
      SourceHealthTheorems: an abstract ladder and its refinement.

    The crawler ([crates/core/src/crawl.rs], [materiality.rs]).
    - Robots, Frontier, Materiality, Revisit, Pages, CrawlState: one file per part of
      the crawl, the matcher's exactness and the frontier's fairness with them; the checkpoint and the sitemaps are CrawlState's.  Crawl: its loop, over a trace of what the outside sees.
    - CrawlSteps, CrawlInvariants: the loop as a small transition system,
      and the invariants over its steps.  CrawlTheorems: the properties.

    Fetching ([governor.rs], [tiers.rs], [fetcher.rs], [recipes.rs], [vcr.rs], [cache.rs],
    [app.rs], [crates/engine-http/src/lib.rs]).
    - Governor: the per-host slots and the learned penalties, and the governor as a
      transition system whose steps are its locked sections.
    - TierMemory: what is remembered of a host, its write-behind and its restore, the
      host-weather import.  TierMemoryTheorems: the properties.
    - Recipes: the JSON API behind a page.  Markdown: the visible text of a page.
      Fetcher: the ladder of tiers, over the engines as functions of their requests and
      the shared governor.  FetcherTheorems: the properties.
    - Cassette: recording a run and answering from it, and that a recording replays.
      Caches: the response cache, its freshness model, the cache of research answers.
    - HttpEngine: the session profiles, their jars and the write-behind of a jar (a
      transition system over its tasks), the pooled clients, the attempts of one request
      under its end-to-end budget, and the cache in front.  HttpTheorems: the properties.
    - Metered: [AppContext::fetch] and [research], the door every paid call goes through:
      the learned route, the ceiling, the ladder, the ledger row and its mirror; then the
      properties.

    Workflows ([crates/server/src/workflow.rs], and the workflow half of [storage.rs]).
    - WorkflowSpec: parsing and checking a plan, the join barrier, the run verdict,
      the params template and the budget envelope.
    - PlanTheorems: the cycle check, accepted plans, the barrier, the envelope and the
      template.
    - WorkflowStore: the plan, run and cell tables.  WorkflowEngine: opening,
      advancing, cancelling and scheduling runs, over the queue's own enqueue and
      cancel statements.
    - WorkflowTheorems: the advance loop.  WorkflowSafety: interleaved statements on
      a cell, and the step whose job never reports.

    ** What the groups of theorems show

    - The queue: no two running jobs share a target, attempts stay in their budget,
      one verdict lands per attempt, and every operation refines the abstract
      [lifecycle] of a row.  Then each operation's behaviour.
    - The worker: every pass is a sequence of the queue's own statements, so those
      guarantees survive it whatever the store answers; a result fans out once; a
      superseded attempt is silent, but for one unfenced statement; what a failure
      announces; caps hold; an answered cancel is kept.
    - Fan-out: exactly the deltas a run may announce reach its hooks, nothing leaves for
      a source whose health suppresses it, an alert is sent once, the index follows the
      store.
    - Events: each emitted event is landed, in flight, queued or counted as shed; a
      resumed stream misses and repeats nothing; a row of the log reads back.
    - Delivery: the attempt loop and its sleep bound, the ladder, what a drain sends,
      an outbox that hands off every matching event in order.
    - Money: the running total equals the ledger, the three answers of the ceiling,
      what retention may not take.
    - Schedules: each firing is on time, missed or not due as the set of firings says;
      a schedule never stacks runs.  Reconcilers reach their declaration in one apply,
      and re-planning is empty.
    - Triggers: every edge leaves a row, cascades are bounded, the cache is coherent.
    - Datasets: the set-shaped batch is the row-by-row one, the history mirrors the
      records, removals are exact, a forward drain reads each revision once, the
      banded index answers what a scan would.
    - Source health: [observe] refines the ladder; a quarantine takes three trips.
    - The crawler: each address asked once within its budgets and delays, nothing
      buried by a checkpoint, no host starved, the inner loop ends, a resume restores.
    - Fetching: one winner after every loss and each tier asked at most once; spend a
      failed call reports reaches the caller; slots keep their distance whatever comes
      between them; a browser pin is three losses in a row; an import only adds caution;
      penalties survive a restart; a recorded fetch replays; a flusher never leaves a
      login behind; one request keeps its attempts, its budget and the server's wait; no
      answer of a session reaches the shared cache; the model is asked under the job's
      ceiling only, and every call leaves its receipt in the ledger and the mirror alike.
    - Workflows: an exact cycle check, well-formed accepted plans, a barrier that
      never deadlocks, an advance loop that ends, cells claimed and closed once.
    - Where the code and its comments part, the theorem states what the code does:
      the crash loop that never dies, the NaN totals, the parked job whose spend is
      pruned, the cancelled step that holds its run open, the late commit a drain
      skips, the leftmost robots match, the peer row whose removal is not noticed.

    ** Modelling choices

    - Time and randomness are arguments: a method takes the instant it reads (in
      stored microseconds, so SQL's text comparison is integer comparison) and the
      ids it draws.
    - Code outside the repository is a parameter, a class each: SQLite's [julianday],
      [SUM] and JSON filters ([Sqlite], [SqlSum], [SqliteJson]); [serde_json]'s
      rendering, parsing, pointers and equality ([JsonRender], [JsonParse],
      [JsonPointer], [JsonEq]); [chrono]'s and [uuid]'s texts ([TimeRender],
      [UuidText]); Unicode's tables ([Unicode], [UnicodeAlphanumeric]); SHA-256
      ([Sha256]); the cron, [url], HTML, [regex], math and TOML libraries ([CronLib],
      [UrlLib], [UrlJoin], [HtmlLib], [RegexLib], [RegexCaptures], [MathLib],
      [TomlCatalog]); form encoding, the HTML tree and its Markdown
      ([FormUrlEncoded], [HtmlTree], [ToMarkdown]); the line of a cassette entry
      ([CassetteCodec]); the engines and the recipe source of a fetch ([Engines],
      [RecipeSource]); the cookie jar, the client builder, the character encodings, the
      HTTP dates and the standard hasher ([CookieLib], [ClientBuilder], [EncodingLib],
      [HttpDates], [DefaultHasher]).  The JSON Schema validator, the plugin host, the
      network as a function of what is sent, and what an app answers are arguments.
    - A failing database is modelled in the worker only, where the code decides on it;
      elsewhere a statement takes effect and answers.  The refusals the schema makes
      (primary and unique keys) are modelled, and so is a process that stops between
      two statements.
    - Error messages that no code reads back are constructors carrying what the
      message interpolates.
    - Fuel.  [visit] recurses to one more than the number of steps, and
      [find_cycle_exact] shows it never runs out.  [interpolate], [words_of],
      [replace_all] and [strip_while] take at most one round per character.  [advance]
      has one round more than the loop's own ceiling, and [advance_settles] shows the
      loop returns within it.  [top_up_fuel] is twice the frontier and two, and
      [top_up_ends] shows it is enough.  [walk_yields] descends to the code's own
      [MAX_YIELD_DEPTH].  [make_room], [evict] and [read_log] free a place, shed an event
      or pass a row each round, and get one round more than there are of them.  The drains bound themselves as the code does.

    ** Not modelled

    The engines but the HTTP one (browser, Claude, WASM, search, remote, archive) and the
    apps are I/O around third-party libraries; the HTTP and MCP surfaces parse requests
    and render answers over the statements modelled here; [run_report] renders one.
    In the worker's trace, what [finalize] fans a result out to is one entry; Fanout
    models it on its own.
    The derived dataset specs only log their failures and never change the write that set
    them off; the detectors behind a source's score enter [observe] as its argument;
    extraction and induction read a tree a third-party parser builds; completeness, JSON
    salvage, backup, lineage and the validation of the whole configuration are reports and
    parsers beside the runtime.  Of the webhook sender, the signature, the secret lookup,
    the file append and the concurrency gate are left out; of the chokepoint, the external
    cost sink and the X-ray pass over a render. *)

From Stdlib Require Export ZArith Lia Sorting.Permutation.
From Stdlib Require Export Strings.Ascii.
From stdpp Require Export base tactics option list sorting strings sets.

#[global] Open Scope Z_scope.

(** ** Functional record update

    [r <| f := v |>] rebuilds [r] with its field [f] replaced; [r <| f ::= g |>]
    applies [g] to it.  A record opts in with one [Eta] instance that lists its
    projections; the setter of a projection is computed from that instance. *)

Class Eta (R : Type) := eta : R → R.

Class Upd {R E : Type} (proj : R → E) := upd : (E → E) → R → R.
#[global] Hint Mode Upd - - ! : typeclass_instances.
Arguments upd {R E} proj {_} _ _ /.

Ltac solve_upd :=
  match goal with
  | |- @Upd ?R ?E ?proj =>
      let e := eval hnf in (@eta R _) in
      match eval pattern proj in e with
      | ?h _ => let t := constr:(λ (g : E → E), h (λ r : R, g (proj r))) in
                let t := eval cbv beta in t in exact t
      end
  end.
#[global] Hint Extern 1 (Upd _) => solve_upd : typeclass_instances.

Declare Scope pumper_scope.
Delimit Scope pumper_scope with pumper.
#[global] Open Scope pumper_scope.
Notation "r <| f := v |>" := (upd f (λ _, v) r)
  (at level 1, f at level 0, left associativity) : pumper_scope.
Notation "r <| f ::= g |>" := (upd f g r)
  (at level 1, f at level 0, left associativity) : pumper_scope.

(** ** Fallible results: Rust's [Result<T, E>] *)

Inductive result (E A : Type) : Type :=
| Ok (a : A)
| Err (e : E).
Arguments Ok {E A} a.
Arguments Err {E A} e.

#[global] Instance result_ret {E} : MRet (result E) := λ A a, Ok a.
#[global] Instance result_bind {E} : MBind (result E) :=
  λ A B k m, match m with Ok a => k a | Err e => Err e end.
#[global] Instance result_fmap {E} : FMap (result E) :=
  λ A B f m, match m with Ok a => Ok (f a) | Err e => Err e end.

Definition is_ok {E A} (r : result E A) : bool :=
  match r with Ok _ => true | Err _ => false end.

(** [Iterator::map(..).collect::<Result<Vec<_>, _>>()]: the first error wins. *)
Definition collect_ok {E A B} (f : A → result E B) : list A → result E (list B) :=
  fix collect l :=
    match l with
    | [] => Ok []
    | x :: l => y ← f x; ys ← collect l; mret (y :: ys)
    end.

Lemma collect_ok_map {E A B} (f : A → result E B) (g : B → A) l :
  (∀ x, x ∈ l → f (g x) = Ok x) → collect_ok f (map g l) = Ok l.
Proof.
  induction l as [|x l IH]; intros Hf; [done|]. cbn. rewrite Hf by left. cbn.
  rewrite IH; [done|]. intros y Hy. apply Hf. by right.
Qed.

Lemma collect_ok_all {E A B} (f : A → result E B) (P : B → Prop) l l' :
  (∀ x y, f x = Ok y → P y) → collect_ok f l = Ok l' → ∀ y, y ∈ l' → P y.
Proof.
  intros Hf. revert l'. induction l as [|x l IH]; intros l' Hc y Hy; cbn in Hc.
  { injection Hc as <-. by apply not_elem_of_nil in Hy. }
  destruct (f x) as [z|e] eqn:E1; cbn in Hc; [|done].
  destruct (collect_ok f l) as [zs|e] eqn:E2; cbn in Hc; [|done]. injection Hc as <-.
  apply elem_of_cons in Hy as [->|Hy]; [by eapply Hf|by eapply IH].
Qed.

Lemma collect_ok_Forall2 {E A B} (f : A → result E B) l ys :
  collect_ok f l = Ok ys → Forall2 (λ x y, f x = Ok y) l ys.
Proof.
  revert ys. induction l as [|x l IH]; intros ys H; cbn in H; [injection H as <-; constructor|].
  destruct (f x) as [y|] eqn:Ex; cbn in H; [|done].
  destruct (collect_ok f l) as [zs|] eqn:El; cbn in H; [|done].
  injection H as <-. constructor; auto.
Qed.

Lemma collect_ok_Err {E A B} (f : A → result E B) l e :
  collect_ok f l = Err e → ∃ x, x ∈ l ∧ f x = Err e.
Proof.
  induction l as [|x l IH]; cbn; [done|].
  destruct (f x) as [y|e'] eqn:Ex; cbn.
  - destruct (collect_ok f l) as [zs|] eqn:El; cbn; [done|]. intros [= ->].
    destruct IH as (x' & Hin & Hx); [done|]. exists x'. split; [by right|done].
  - intros [= ->]. exists x. split; [left|done].
Qed.


(** ** Boolean predicates over lists *)

Lemma elem_of_filter_bool {A} (p : A → bool) l x : x ∈ List.filter p l ↔ x ∈ l ∧ p x = true.
Proof. by rewrite !list_elem_of_In, List.filter_In. Qed.
Lemma existsb_map {A B} (f : A → B) (p : B → bool) l :
  existsb p (map f l) = existsb (λ x, p (f x)) l.
Proof. induction l as [|x l IH]; cbn; [done|]. by rewrite IH. Qed.
Lemma existsb_ext {A} (p q : A → bool) l : (∀ x, p x = q x) → existsb p l = existsb q l.
Proof. intros H. induction l as [|x l IH]; cbn; [done|]. by rewrite H, IH. Qed.

(** ** [slice::chunks] *)

Fixpoint chunks_from {A} (fuel n : nat) (l : list A) : list (list A) :=
  match fuel, l with
  | S fuel, _ :: _ => take n l :: chunks_from fuel n (drop n l)
  | _, _ => []
  end.
Definition chunks {A} (n : nat) (l : list A) : list (list A) := chunks_from (length l) n l.

Lemma concat_chunks_from {A} fuel n (l : list A) :
  (0 < n)%nat → (length l ≤ fuel)%nat → concat (chunks_from fuel n l) = l.
Proof.
  intros Hn. revert l. induction fuel as [|fuel IH]; intros [|x l] Hl; cbn in *; try done; [lia|].
  rewrite IH, take_drop; [done|]. rewrite length_drop. cbn. lia.
Qed.

Lemma concat_chunks {A} n (l : list A) : (0 < n)%nat → concat (chunks n l) = l.
Proof. intros. by apply concat_chunks_from. Qed.

Lemma foldl_chunks {A B} n (f : B → A → B) (l : list A) b :
  (0 < n)%nat → foldl (foldl f) b (chunks n l) = foldl f b l.
Proof.
  intros Hn. rewrite <- (concat_chunks n l Hn) at 2. generalize (chunks n l). clear l. intros cs.
  revert b. induction cs as [|c cs IH]; intros b; cbn; [done|]. by rewrite foldl_app, IH.
Qed.

(** ** Machine integers: values in [Z], wrap-around and saturation explicit *)

Definition u64_max : Z := 2 ^ 64 - 1.
Definition i64_max : Z := 2 ^ 63 - 1.
Definition wrap_u64 (z : Z) : Z := z mod 2 ^ 64.
Definition wrap_u32 (z : Z) : Z := z mod 2 ^ 32.
Definition saturating_mul_u64 (a b : Z) : Z := Z.min (a * b) u64_max.
Definition saturating_pow_u64 (a e : Z) : Z := Z.min (a ^ e) u64_max.

Lemma wrap_u64_bounds z : 0 ≤ wrap_u64 z < 2 ^ 64.
Proof. apply Z.mod_pos_bound. lia. Qed.
Lemma wrap_u32_small z : 0 ≤ z < 2 ^ 32 → wrap_u32 z = z.
Proof. apply Z.mod_small. Qed.

(** A [std::time::Duration] is its number of nanoseconds. *)
Abbreviation Duration := Z (only parsing).
Definition from_secs (s : Z) : Duration := s * 10 ^ 9.
Definition as_secs (d : Duration) : Z := d / 10 ^ 9.

Lemma as_secs_from_secs s : as_secs (from_secs s) = s.
Proof. apply Z.div_mul. lia. Qed.

(** A stored timestamp is its microsecond count since the Unix epoch: [ts]
    writes fixed-width RFC 3339 text with microsecond precision, so the store's
    text comparison is comparison of these integers. *)
Abbreviation timestamp := Z (only parsing).
Definition seconds (s : Z) : Z := s * 10 ^ 6.
Definition days (d : Z) : Z := d * (86400 * 10 ^ 6).

(** ** Tactics *)

(** Turn boolean tests in the context into the propositions they decide. *)
Ltac breflect_in H :=
  repeat (rewrite ?andb_true_iff, ?orb_true_iff, ?negb_true_iff,
            ?bool_decide_eq_true, ?bool_decide_eq_false,
            ?Z.leb_le, ?Z.ltb_lt, ?Z.eqb_eq, ?Z.leb_gt, ?Z.ltb_ge, ?Z.eqb_neq,
            ?String.eqb_eq, ?String.eqb_neq, ?orb_false_iff, ?andb_false_iff,
            ?negb_false_iff in H).
Ltac breflect :=
  repeat (rewrite ?andb_true_iff, ?orb_true_iff, ?negb_true_iff,
            ?bool_decide_eq_true, ?bool_decide_eq_false,
            ?Z.leb_le, ?Z.ltb_lt, ?Z.eqb_eq, ?Z.leb_gt, ?Z.ltb_ge, ?Z.eqb_neq,
            ?String.eqb_eq, ?String.eqb_neq, ?orb_false_iff, ?andb_false_iff,
            ?negb_false_iff in *).

(** Case analysis on every [if] of the goal, keeping the test's equation. *)
Ltac case_if :=
  match goal with
  | |- context [if ?b then _ else _] => destruct b eqn:?
  end.

(** ** Options *)

Definition is_some {A} (o : option A) : bool :=
  match o with Some _ => true | None => false end.

(** SQL's [COALESCE]: the first non-null argument. *)
Definition coalesce {A} (o : option A) (d : A) : A := default d o.
Definition coalesce_opt {A} (o d : option A) : option A :=
  match o with Some _ => o | None => d end.

Lemma is_some_true {A} (o : option A) : is_some o = true ↔ is_Some o.
Proof. destruct o; cbn; split; try done; intros [? [=]]. Qed.

(** ** Parsing integers

    [str::parse] at a signed width: an optional sign, then at least one decimal
    digit, refused on overflow. *)
Definition digit_of (a : Ascii.ascii) : option Z :=
  let n := Z.of_N (Ascii.N_of_ascii a) in
  if (48 <=? n) && (n <=? 57) then Some (n - 48) else None.
Fixpoint parse_digits (s : string) (acc : Z) : option Z :=
  match s with
  | EmptyString => Some acc
  | String a s => d ← digit_of a; parse_digits s (acc * 10 + d)
  end.
Definition parse_signed (width : Z) (s : string) : option Z :=
  let bounded (z : Z) :=
    if (- 2 ^ (width - 1) <=? z) && (z <? 2 ^ (width - 1)) then Some z else None in
  match s with
  | EmptyString => None
  | String "+"%char EmptyString | String "-"%char EmptyString => None
  | String "+"%char s => z ← parse_digits s 0; bounded z
  | String "-"%char s => z ← parse_digits s 0; bounded (- z)
  | s => z ← parse_digits s 0; bounded z
  end.

(** [str::trim] on a header value: visible ASCII, blanks and tabs. *)
Definition is_blank (a : Ascii.ascii) : bool :=
  bool_decide (a = " "%char ∨ a = "009"%char).
Fixpoint trim_start (s : string) : string :=
  match s with
  | String a s' => if is_blank a then trim_start s' else s
  | EmptyString => EmptyString
  end.
Fixpoint trim_end (s : string) : string :=
  match s with
  | EmptyString => EmptyString
  | String a s' =>
      match trim_end s' with
      | EmptyString => if is_blank a then EmptyString else String a EmptyString
      | t => String a t
      end
  end.
Definition trim (s : string) : string := trim_end (trim_start s).

(** [str::parse::<usize>] on a 64-bit target. *)
Definition parse_usize (s : string) : option Z :=
  let bounded (z : Z) := if z <=? u64_max then Some z else None in
  match s with
  | EmptyString | String "+"%char EmptyString => None
  | String "+"%char s | s => z ← parse_digits s 0; bounded z
  end.

(** ** String searching: [strip_prefix], [split_once], [contains] *)

Fixpoint strip_prefix (p s : string) : option string :=
  match p, s with
  | EmptyString, _ => Some s
  | String a p, String b s => if Ascii.eqb a b then strip_prefix p s else None
  | String _ _, EmptyString => None
  end.
Fixpoint split_once (sep s : string) : option (string * string) :=
  match strip_prefix sep s with
  | Some rest => Some (EmptyString, rest)
  | None =>
      match s with
      | EmptyString => None
      | String a s => '(l, r) ← split_once sep s; Some (String a l, r)
      end
  end.
Definition contains (needle s : string) : bool := is_some (split_once needle s).

(** [str::split] at one character: never empty. *)
Fixpoint split_on (c : Ascii.ascii) (s : string) : list string :=
  match s with
  | EmptyString => [EmptyString]
  | String a s =>
      if Ascii.eqb a c then EmptyString :: split_on c s
      else match split_on c s with
           | p :: ps => String a p :: ps
           | [] => [String a EmptyString]
           end
  end.
Definition strip_suffix (p s : string) : option string :=
  String.rev <$> strip_prefix (String.rev p) (String.rev s).

(** [str::trim] on UTF-8 text: the encodings of the [White_Space] characters. *)
Definition utf8 (bytes : list N) : string :=
  foldr (λ b s, String (Ascii.ascii_of_N b) s) EmptyString bytes.
Definition white_space : list string :=
  map utf8
    ([[9]; [10]; [11]; [12]; [13]; [32]; [194; 133]; [194; 160]; [225; 154; 128]]
     ++ map (λ b, [226; 128; b]) [128; 129; 130; 131; 132; 133; 134; 135; 136; 137; 138;
                                  168; 169; 175]
     ++ [[226; 129; 159]; [227; 128; 128]])%N.
Definition strip_any (ps : list string) (s : string) : option string :=
  foldr (λ p rest, match strip_prefix p s with Some r => Some r | None => rest end) None ps.
Fixpoint strip_while (fuel : nat) (ps : list string) (s : string) : string :=
  match fuel, strip_any ps s with
  | S fuel, Some rest => strip_while fuel ps rest
  | _, _ => s
  end.
Definition str_trim (s : string) : string :=
  let head := strip_while (String.length s) white_space s in
  String.rev
    (strip_while (String.length head) (map String.rev white_space) (String.rev head)).

(** [s.chars().all(..)] for a class of ASCII characters. *)
Fixpoint all_chars (p : Ascii.ascii → bool) (s : string) : bool :=
  match s with EmptyString => true | String a s => p a && all_chars p s end.
Definition in_range (lo hi : Z) (a : Ascii.ascii) : bool :=
  let n := Z.of_N (Ascii.N_of_ascii a) in (lo <=? n) && (n <=? hi).
Definition is_ascii_alphanumeric (a : Ascii.ascii) : bool :=
  in_range 48 57 a || in_range 65 90 a || in_range 97 122 a.

(** Text between double quotes. *)
Definition quoted (s : string) : string :=
  (String "034"%char EmptyString +:+ s +:+ String "034"%char EmptyString)%string.

Lemma strip_prefix_app p s : strip_prefix p (p +:+ s) = Some s.
Proof.
  induction p as [|a p IH]; [done|].
  change (strip_prefix (String a p) (String a p +:+ s))
    with (if Ascii.eqb a a then strip_prefix p (p +:+ s) else None).
  by rewrite Ascii.eqb_refl.
Qed.

(** A separator is found where it was put, if its first character does not occur
    before it. *)
Lemma split_once_app a sep l r :
  all_chars (λ b, negb (Ascii.eqb a b)) l = true →
  split_once (String a sep) (l +:+ String a sep +:+ r) = Some (l, r).
Proof.
  intros Hl. induction l as [|b l IH].
  - change (match strip_prefix (String a sep) (String a sep +:+ r) with
            | Some rest => Some (EmptyString, rest)
            | None => '(x, y) ← split_once (String a sep) (sep +:+ r); Some (String a x, y)
            end = Some (EmptyString, r)).
    by rewrite strip_prefix_app.
  - change (negb (Ascii.eqb a b) && all_chars (λ b, negb (Ascii.eqb a b)) l = true) in Hl.
    apply andb_true_iff in Hl as [Hb Hl]. apply negb_true_iff in Hb.
    change (match (if Ascii.eqb a b then strip_prefix sep (l +:+ String a sep +:+ r) else None) with
            | Some rest => Some (EmptyString, rest)
            | None => '(x, y) ← split_once (String a sep) (l +:+ String a sep +:+ r);
                      Some (String b x, y)
            end = Some (String b l, r)).
    by rewrite Hb, IH.
Qed.

Lemma split_once_None a sep s :
  all_chars (λ b, negb (Ascii.eqb a b)) s = true → split_once (String a sep) s = None.
Proof.
  induction s as [|b s IH]; intros Hs; [done|].
  change (negb (Ascii.eqb a b) && all_chars (λ b, negb (Ascii.eqb a b)) s = true) in Hs.
  apply andb_true_iff in Hs as [Hb Hs]. apply negb_true_iff in Hb.
  change (match (if Ascii.eqb a b then strip_prefix sep s else None) with
          | Some rest => Some (EmptyString, rest)
          | None => '(x, y) ← split_once (String a sep) s; Some (String b x, y)
          end = None).
  by rewrite Hb, IH.
Qed.

Lemma all_chars_weaken (p q : Ascii.ascii → bool) s :
  (∀ a, p a = true → q a = true) → all_chars p s = true → all_chars q s = true.
Proof.
  intros Hpq. induction s as [|a s IH]; [done|]. cbn. rewrite !andb_true_iff. naive_solver.
Qed.

Lemma rev_app_append s t u :
  String.rev_app (s +:+ t) u = String.rev_app t (String.rev_app s u).
Proof. revert u. induction s as [|a s IH]; intros u; [done|]. apply IH. Qed.

Lemma string_append_assoc (s t u : string) : ((s +:+ t) +:+ u = s +:+ (t +:+ u))%string.
Proof.
  induction s as [|a s IH]; [done|].
  change (String a ((s +:+ t) +:+ u) = String a (s +:+ (t +:+ u))). by rewrite IH.
Qed.

Lemma string_append_nil (s : string) : (s +:+ EmptyString = s)%string.
Proof.
  induction s as [|a s IH]; [done|].
  change (String a (s +:+ EmptyString) = String a s). by rewrite IH.
Qed.

Lemma rev_app_rev s t : String.rev_app s t = (String.rev s +:+ t)%string.
Proof.
  unfold String.rev. revert t. induction s as [|a s IH]; intros t; [done|]. cbn.
  by rewrite (IH (String a t)), (IH (String a EmptyString)), string_append_assoc.
Qed.

Lemma string_rev_append s t : String.rev (s +:+ t) = (String.rev t +:+ String.rev s)%string.
Proof. unfold String.rev at 1. by rewrite rev_app_append, rev_app_rev. Qed.

Lemma string_rev_rev s : String.rev (String.rev s) = s.
Proof.
  induction s as [|a s IH]; [done|].
  change (String.rev (String a s)) with (String.rev_app s (String a EmptyString)).
  rewrite rev_app_rev, string_rev_append, IH. done.
Qed.

Lemma strip_suffix_app p s : strip_suffix p (s +:+ p) = Some s.
Proof.
  unfold strip_suffix. rewrite string_rev_append, strip_prefix_app.
  change (Some (String.rev (String.rev s)) = Some s). by rewrite string_rev_rev.
Qed.

Lemma all_chars_append p s t : all_chars p (s +:+ t) = all_chars p s && all_chars p t.
Proof.
  induction s as [|a s IH]; [done|].
  change (p a && all_chars p (s +:+ t) = p a && all_chars p s && all_chars p t).
  by rewrite IH, andb_assoc.
Qed.

Lemma all_chars_rev p s : all_chars p (String.rev s) = all_chars p s.
Proof.
  induction s as [|a s IH]; [done|].
  change (String.rev (String a s)) with (String.rev_app s (String a EmptyString)).
  rewrite rev_app_rev, all_chars_append, IH. cbn. by rewrite andb_true_r, andb_comm.
Qed.

(** Printable ASCII: nothing in it is trimmed. *)
Definition graphic (a : Ascii.ascii) : bool := in_range 33 126 a.

Lemma strip_any_graphic ps s :
  forallb (λ p, match p with String b _ => negb (graphic b) | EmptyString => false end) ps = true →
  all_chars graphic s = true → strip_any ps s = None.
Proof.
  intros Hps Hs. unfold strip_any. induction ps as [|p ps IH]; [done|]. cbn in *.
  apply andb_true_iff in Hps as [Hp Hps]. rewrite (IH Hps).
  destruct p as [|b p]; [done|]. destruct s as [|a s]; [done|]. cbn in *.
  apply andb_true_iff in Hs as [Ha _]. destruct (Ascii.eqb_spec b a) as [->|]; [|done].
  by rewrite Ha in Hp.
Qed.

Lemma strip_while_graphic fuel ps s :
  forallb (λ p, match p with String b _ => negb (graphic b) | EmptyString => false end) ps = true →
  all_chars graphic s = true → strip_while fuel ps s = s.
Proof. intros Hps Hs. destruct fuel; [done|]. cbn. by rewrite strip_any_graphic. Qed.

Lemma str_trim_graphic s : all_chars graphic s = true → str_trim s = s.
Proof.
  intros Hs. unfold str_trim. rewrite (strip_while_graphic _ white_space) by done.
  rewrite (strip_while_graphic _ (map String.rev white_space)); [|done|by rewrite all_chars_rev].
  apply string_rev_rev.
Qed.

(** Joining with a separator and splitting at it. *)
Lemma split_on_plain c s :
  all_chars (λ a, negb (Ascii.eqb a c)) s = true → split_on c s = [s].
Proof.
  induction s as [|a s IH]; [done|]. cbn. intros [Ha Hs]%andb_true_iff.
  apply negb_true_iff in Ha. by rewrite Ha, IH.
Qed.

Lemma split_on_app c s t :
  all_chars (λ a, negb (Ascii.eqb a c)) s = true →
  split_on c (s +:+ String c t) = s :: split_on c t.
Proof.
  induction s as [|a s IH]; intros Hs.
  - change ((if Ascii.eqb c c then EmptyString :: split_on c t
             else match split_on c t with
                  | p :: ps => String c p :: ps | [] => [String c EmptyString] end)
            = EmptyString :: split_on c t). by rewrite Ascii.eqb_refl.
  - change (negb (Ascii.eqb a c) && all_chars (λ a, negb (Ascii.eqb a c)) s = true) in Hs.
    apply andb_true_iff in Hs as [Ha Hs]. apply negb_true_iff in Ha.
    change ((if Ascii.eqb a c then EmptyString :: split_on c (s +:+ String c t)
             else match split_on c (s +:+ String c t) with
                  | p :: ps => String a p :: ps | [] => [String a EmptyString] end)
            = String a s :: split_on c t). by rewrite Ha, IH.
Qed.

Lemma split_on_concat c s l :
  Forall (λ s, all_chars (λ a, negb (Ascii.eqb a c)) s = true) (s :: l) →
  split_on c (String.concat (String c EmptyString) (s :: l)) = s :: l.
Proof.
  revert s. induction l as [|t l IH]; intros s Hall.
  - cbn. apply split_on_plain. by inversion Hall.
  - inversion Hall as [|?? Hs Hl]; subst.
    change (String.concat (String c EmptyString) (s :: t :: l))
      with (s +:+ String c (String.concat (String c EmptyString) (t :: l)))%string.
    by rewrite split_on_app, IH.
Qed.

Lemma all_chars_concat p sep l :
  all_chars p sep = true → Forall (λ s, all_chars p s = true) l →
  all_chars p (String.concat sep l) = true.
Proof.
  intros Hsep Hall. induction Hall as [|s l Hs Hl IH]; [done|]. destruct l as [|t l]; [done|].
  change (String.concat sep (s :: t :: l))
    with (s +:+ sep +:+ String.concat sep (t :: l))%string.
  by rewrite !all_chars_append, Hs, Hsep, IH.
Qed.

(** ** The byte-wise order on strings *)

Lemma string_compare_refl s : String.compare s s = Eq.
Proof.
  induction s as [|a s IH]; cbn; [done|].
  unfold Ascii.compare. by rewrite N.compare_refl.
Qed.

Lemma string_compare_eq s t : String.compare s t = Eq ↔ s = t.
Proof. split; [apply String.compare_eq_iff|]. intros ->. apply string_compare_refl. Qed.

Lemma string_ltb_trans s t u :
  String.ltb s t = true → String.ltb t u = true → String.ltb s u = true.
Proof.
  unfold String.ltb. revert t u.
  induction s as [|a s IH]; intros [|b t] [|c u]; cbn; try done.
  unfold Ascii.compare.
  destruct (N.compare_spec (Ascii.N_of_ascii a) (Ascii.N_of_ascii b)) as [E1|E1|E1],
    (N.compare_spec (Ascii.N_of_ascii b) (Ascii.N_of_ascii c)) as [E2|E2|E2]; try done;
  destruct (N.compare_spec (Ascii.N_of_ascii a) (Ascii.N_of_ascii c)) as [E3|E3|E3];
    try done; try (exfalso; lia).
  apply IH.
Qed.

Lemma string_ltb_irrefl s : String.ltb s s = false.
Proof. unfold String.ltb. by rewrite string_compare_refl. Qed.
