(* ===== verification/Sql.v ===== *)
(** * Sql: the statements of the store, as functions on tables

    A table is the list of its rows in rowid order.  Each statement of
    [crates/core/src/storage.rs] is one atomic function on that list, built from
    the combinators below: [WHERE] is a boolean predicate, [ORDER BY] a stable
    sort (the ties SQL leaves open are resolved in table order; every theorem
    quantifies over the table, hence over every resolution), [LIMIT] a prefix. *)

From S2P Require Import Prelude.

Section statements.
Context {A : Type}.
Implicit Types (p : A → bool) (f : A → A) (t : list A).

(** [SELECT * FROM t WHERE p] *)
Definition select_where p t : list A := List.filter p t.

(** [UPDATE t SET .. WHERE p] *)
Definition update_where p f t : list A := map (λ r, if p r then f r else r) t.

(** [.. RETURNING *] of the same update. *)
Definition returning p f t : list A := map f (select_where p t).

(** [DELETE FROM t WHERE p] *)
Definition delete_where p t : list A := List.filter (λ r, negb (p r)) t.

(** [rows_affected()] of a statement guarded by [p]. *)
Definition rows_affected p t : Z := Z.of_nat (length (select_where p t)).

(** [LIMIT n]: SQLite reads a negative limit as "no limit". *)
Definition sql_limit (n : Z) t : list A :=
  if n <? 0 then t else take (Z.to_nat n) t.

(** [ORDER BY], for the comparison [le]. *)
Fixpoint insert_by (le : A → A → bool) (x : A) t : list A :=
  match t with
  | [] => [x]
  | y :: t' => if le x y then x :: t else y :: insert_by le x t'
  end.
Definition order_by (le : A → A → bool) t : list A :=
  foldr (insert_by le) [] t.
End statements.

(** Lookup by primary key: the first row that carries it. *)
Definition lookup_by {A K} `{EqDecision K} (key : A → K) (k : K) (t : list A) : option A :=
  List.find (λ r, bool_decide (key r = k)) t.

(** ** What the statements do to membership *)

Section membership.
Context {A : Type}.
Implicit Types (p : A → bool) (f : A → A) (t : list A) (r : A).

Lemma elem_of_select p t r : r ∈ select_where p t ↔ r ∈ t ∧ p r = true.
Proof. unfold select_where. by rewrite !list_elem_of_In, List.filter_In. Qed.

Lemma elem_of_delete p t r : r ∈ delete_where p t ↔ r ∈ t ∧ p r = false.
Proof.
  unfold delete_where. by rewrite !list_elem_of_In, List.filter_In, negb_true_iff.
Qed.

Lemma elem_of_update p f t r :
  r ∈ update_where p f t ↔ ∃ r0, r0 ∈ t ∧ r = if p r0 then f r0 else r0.
Proof.
  unfold update_where. rewrite list_elem_of_In, in_map_iff.
  split; intros (r0 & H1 & H2); exists r0; rewrite ?list_elem_of_In in *; auto.
Qed.

Lemma update_where_none p f t : (∀ r, r ∈ t → p r = false) → update_where p f t = t.
Proof.
  intros H. unfold update_where. induction t as [|r t IH]; [done|]. cbn.
  rewrite H by set_solver. f_equal. apply IH. set_solver.
Qed.

Lemma update_where_app p f t t' :
  update_where p f (t ++ t') = update_where p f t ++ update_where p f t'.
Proof. apply map_app. Qed.

Lemma update_where_ext p q f t :
  (∀ r, r ∈ t → p r = q r) → update_where p f t = update_where q f t.
Proof.
  intros H. apply List.map_ext_in. intros r Hr. rewrite H; [done|].
  by apply list_elem_of_In.
Qed.

Lemma length_update_where p f t : length (update_where p f t) = length t.
Proof. apply List.length_map. Qed.

Lemma map_update_where {K} (key : A → K) p f t :
  (∀ r, key (f r) = key r) → map key (update_where p f t) = map key t.
Proof.
  intros H. unfold update_where. rewrite List.map_map. apply List.map_ext.
  intros r. by case_if.
Qed.

Lemma select_where_and p q t :
  select_where (λ r, p r && q r) t = select_where q (select_where p t).
Proof.
  unfold select_where. induction t as [|r t IH]; [done|]. cbn.
  destruct (p r); cbn; [|done]. by rewrite IH.
Qed.

Lemma select_where_all p t : (∀ r, r ∈ t → p r = true) → select_where p t = t.
Proof.
  unfold select_where. induction t as [|r t IH]; intros H; [done|]. cbn.
  rewrite H by left. f_equal. apply IH. set_solver.
Qed.

Lemma select_where_none p t : (∀ r, r ∈ t → p r = false) → select_where p t = [].
Proof.
  unfold select_where. induction t as [|r t IH]; intros H; [done|]. cbn.
  rewrite H by left. apply IH. set_solver.
Qed.

Lemma length_select_where p t : (length (select_where p t) ≤ length t)%nat.
Proof.
  unfold select_where. induction t as [|r t IH]; cbn; [lia|]. case_if; cbn; lia.
Qed.

Lemma rows_affected_cons p r t :
  rows_affected p (r :: t) = (if p r then 1 else 0) + rows_affected p t.
Proof. unfold rows_affected, select_where. cbn [List.filter]. destruct (p r); cbn [length]; lia. Qed.

Lemma rows_affected_0 p t : rows_affected p t = 0 ↔ (∀ r, r ∈ t → p r = false).
Proof.
  unfold rows_affected. split.
  - intros H r Hr. destruct (p r) eqn:E; [|done].
    assert (r ∈ select_where p t) as Hs by by apply elem_of_select.
    destruct (select_where p t); [by apply not_elem_of_nil in Hs|cbn in H; lia].
  - intros H. destruct (select_where p t) as [|r l] eqn:E; [done|].
    assert (r ∈ select_where p t) as Hs by (rewrite E; left).
    apply elem_of_select in Hs as [Hr Hp]. by rewrite H in Hp.
Qed.

(** A write that makes [q] false of the rows it touches, all of which had it. *)
Lemma rows_affected_closing p q f t :
  (∀ r, p r = true → q r = true ∧ q (f r) = false) →
  rows_affected q (update_where p f t) = rows_affected q t - rows_affected p t.
Proof.
  intros H. induction t as [|r t IH]; [done|].
  change (update_where p f (r :: t)) with ((if p r then f r else r) :: update_where p f t).
  rewrite !rows_affected_cons, IH. destruct (p r) eqn:E; [|lia].
  destruct (H r E) as [-> ->]. lia.
Qed.

Lemma rows_affected_keeping p q f t :
  (∀ r, p r = true → q (f r) = q r) →
  rows_affected q (update_where p f t) = rows_affected q t.
Proof.
  intros H. induction t as [|r t IH]; [done|].
  change (update_where p f (r :: t)) with ((if p r then f r else r) :: update_where p f t).
  rewrite !rows_affected_cons, IH. destruct (p r) eqn:E; [|done]. by rewrite H.
Qed.

Lemma rows_affected_pos p t : 0 < rows_affected p t ↔ ∃ r, r ∈ t ∧ p r = true.
Proof.
  split.
  - intros H. destruct (select_where p t) as [|r l] eqn:E.
    + unfold rows_affected in H. rewrite E in H. cbn in H. lia.
    + exists r. apply elem_of_select. rewrite E. left.
  - intros (r & Hr & Hp). assert (rows_affected p t ≠ 0) as Hn.
    { rewrite rows_affected_0. intros H. by rewrite H in Hp. }
    unfold rows_affected in *. lia.
Qed.

Lemma elem_of_sql_limit n t r : r ∈ sql_limit n t → r ∈ t.
Proof.
  unfold sql_limit. case_if; [done|]. intros H.
  rewrite <- (take_drop (Z.to_nat n) t). apply elem_of_app. by left.
Qed.

Lemma length_sql_limit n t :
  0 ≤ n → Z.of_nat (length (sql_limit n t)) = Z.min n (Z.of_nat (length t)).
Proof.
  intros Hn. unfold sql_limit. rewrite (proj2 (Z.ltb_ge n 0)) by done.
  rewrite length_take. lia.
Qed.
End membership.

(** ** Lookup by key *)

Section lookup.
Context {A K : Type} `{EqDecision K} (key : A → K).
Implicit Types (t : list A) (r : A) (k : K).

Lemma lookup_by_Some t k r : lookup_by key k t = Some r → r ∈ t ∧ key r = k.
Proof.
  intros H. apply List.find_some in H as [H1 H2].
  rewrite list_elem_of_In. by apply bool_decide_eq_true in H2.
Qed.

Lemma lookup_by_None t k : lookup_by key k t = None ↔ k ∉ map key t.
Proof.
  split.
  - intros H Hk. apply list_elem_of_In, in_map_iff in Hk as (r & <- & Hr).
    apply (List.find_none _ _ H) in Hr. by apply bool_decide_eq_false in Hr.
  - intros H. destruct (lookup_by key k t) as [r|] eqn:E; [|done].
    apply lookup_by_Some in E as [Hr <-]. exfalso. apply H.
    apply list_elem_of_In, in_map, list_elem_of_In, Hr.
Qed.

Lemma lookup_by_elem t r : NoDup (map key t) → r ∈ t → lookup_by key (key r) t = Some r.
Proof.
  induction t as [|r0 t IH]; intros Hnd Hr; [by apply not_elem_of_nil in Hr|].
  cbn in Hnd. apply NoDup_cons in Hnd as [Hni Hnd].
  unfold lookup_by. cbn. case_if; breflect.
  - apply elem_of_cons in Hr as [->|Hr]; [done|]. exfalso. apply Hni.
    rewrite Heqb. apply list_elem_of_In, in_map, list_elem_of_In, Hr.
  - apply elem_of_cons in Hr as [->|Hr]; [done|]. by apply IH.
Qed.

Lemma lookup_by_unique t r1 r2 :
  NoDup (map key t) → r1 ∈ t → r2 ∈ t → key r1 = key r2 → r1 = r2.
Proof.
  intros Hnd H1 H2 He. apply (lookup_by_elem _ _ Hnd) in H1, H2. congruence.
Qed.

Lemma lookup_by_update p f t k :
  (∀ r, key (f r) = key r) →
  lookup_by key k (update_where p f t)
    = (λ r, if p r then f r else r) <$> lookup_by key k t.
Proof.
  intros Hf. unfold lookup_by, update_where.
  induction t as [|r t IH]; [done|]. cbn.
  replace (bool_decide (key (if p r then f r else r) = k))
    with (bool_decide (key r = k)) by (apply bool_decide_ext; case_if; by rewrite ?Hf).
  by destruct (bool_decide (key r = k)).
Qed.

Lemma lookup_by_app t1 t2 k :
  lookup_by key k (t1 ++ t2)
    = match lookup_by key k t1 with Some r => Some r | None => lookup_by key k t2 end.
Proof.
  unfold lookup_by. induction t1 as [|r t1 IH]; [done|]. cbn. by case_if.
Qed.
End lookup.

(** ** Sorting *)

Section sorting.
Context {A : Type} (le : A → A → bool).
Implicit Types (t : list A) (r : A).

Lemma insert_by_perm x t : insert_by le x t ≡ₚ x :: t.
Proof.
  induction t as [|y t IH]; [done|]. cbn. case_if; [done|]. rewrite IH. constructor.
Qed.

Lemma order_by_perm t : order_by le t ≡ₚ t.
Proof. induction t as [|x t IH]; [done|]. cbn. by rewrite insert_by_perm, IH. Qed.

Lemma elem_of_order_by t r : r ∈ order_by le t ↔ r ∈ t.
Proof. by rewrite order_by_perm. Qed.

Lemma length_order_by t : length (order_by le t) = length t.
Proof. by rewrite order_by_perm. Qed.

Context (le_total : ∀ x y, le x y = true ∨ le y x = true).
Context (le_trans : ∀ x y z, le x y = true → le y z = true → le x z = true).

Definition sorted_by t : Prop := StronglySorted (λ x y, le x y = true) t.

Lemma insert_by_sorted x t : sorted_by t → sorted_by (insert_by le x t).
Proof.
  induction 1 as [|y t Ht IH Hy]; cbn; [repeat constructor|].
  case_if.
  - constructor; [by constructor|]. constructor; [done|].
    eapply Forall_impl; [exact Hy|]. cbn. intros z Hz. by apply (le_trans x y z).
  - constructor; [done|]. rewrite insert_by_perm. constructor; [|done].
    by destruct (le_total x y); congruence.
Qed.

Lemma order_by_sorted t : sorted_by (order_by le t).
Proof. induction t as [|x t IH]; [constructor|]. by apply insert_by_sorted. Qed.

(** The first row of a sorted selection precedes every other one. *)
Lemma order_by_head t x l :
  order_by le t = x :: l → x ∈ t ∧ ∀ y, y ∈ t → le x y = true.
Proof.
  intros E. pose proof (order_by_sorted t) as Hs. split.
  - apply elem_of_order_by. rewrite E. left.
  - intros y Hy. apply elem_of_order_by in Hy. rewrite E in Hs, Hy.
    inversion Hs as [|?? _ Hall]; subst. apply elem_of_cons in Hy as [->|Hy].
    + by destruct (le_total x x).
    + by eapply Forall_forall in Hall.
Qed.
End sorting.

(** A row that no other row precedes comes first wherever it was written. *)
Lemma order_by_snoc {A} (le : A → A → bool) (t : list A) (r : A) :
  (∀ x, x ∈ t → le x r = false) → order_by le (t ++ [r]) = r :: order_by le t.
Proof.
  induction t as [|x t IH]; intros H; [done|].
  change (insert_by le x (order_by le (t ++ [r])) = r :: insert_by le x (order_by le t)).
  rewrite IH by (intros; apply H; by right). cbn. by rewrite (H x) by left.
Qed.

Lemma head_order_by_None {A} (le : A → A → bool) t : head (order_by le t) = None ↔ t = [].
Proof.
  split.
  - destruct (order_by le t) eqn:E; [|done]. intros _. apply Permutation_nil.
    by rewrite <- (order_by_perm le t), E.
  - by intros ->.
Qed.

(** *** Sorting a selection *)

Section sorted_selection.
Context {A : Type}.
Implicit Types (le : A → A → bool) (t : list A).

Lemma order_by_ext le le' t :
  (∀ x y, x ∈ t → y ∈ t → le x y = le' x y) → order_by le t = order_by le' t.
Proof.
  assert (∀ x l, (∀ y, y ∈ l → le x y = le' x y) → insert_by le x l = insert_by le' x l) as Hi.
  { intros x l. induction l as [|y l IH]; intros Hy; [done|]. cbn.
    rewrite (Hy y), IH by set_solver. done. }
  induction t as [|x t IH]; intros He; [done|].
  change (insert_by le x (order_by le t) = insert_by le' x (order_by le' t)).
  rewrite <- IH by (intros; apply He; by right).
  apply Hi. intros y Hy. apply elem_of_order_by in Hy. apply He; [left|by right].
Qed.

Context (le : A → A → bool).
Context (le_total : ∀ x y, le x y = true ∨ le y x = true).
Context (le_trans : ∀ x y z, le x y = true → le y z = true → le x z = true).

Lemma insert_by_head x l : Forall (λ y, le x y = true) l → insert_by le x l = x :: l.
Proof. destruct 1 as [|y l Hy _]; [done|]. cbn. by rewrite Hy. Qed.

Lemma filter_insert_by p x l :
  sorted_by le l →
  List.filter p (insert_by le x l)
    = if p x then insert_by le x (List.filter p l) else List.filter p l.
Proof.
  induction 1 as [|y l Hl IH Hy]; cbn; [done|].
  destruct (le x y) eqn:E; cbn.
  - destruct (p x); [|done]. symmetry. apply insert_by_head.
    destruct (p y); [constructor; [done|]|]; apply Forall_forall; intros z Hz;
      apply elem_of_select in Hz as [Hz _];
      eapply Forall_forall in Hy; eauto.
  - rewrite IH. destruct (p x), (p y); cbn; by rewrite ?E.
Qed.

Lemma filter_order_by p t :
  order_by le (List.filter p t) = List.filter p (order_by le t).
Proof.
  induction t as [|x t IH]; [done|].
  change (order_by le (x :: t)) with (insert_by le x (order_by le t)).
  rewrite filter_insert_by by by apply order_by_sorted.
  rewrite <- IH. cbn. by destruct (p x).
Qed.
End sorted_selection.

(** *** Limited, sorted selections *)

Section limited.
Context {A K : Type} (key : A → K) (le : A → A → bool) (p : A → bool).
Implicit Types (t : list A).

Lemma NoDup_select_keys t : NoDup (map key t) → NoDup (map key (select_where p t)).
Proof.
  intros Hnd. eapply sublist_NoDup; [exact Hnd|]. clear. unfold select_where.
  induction t as [|x t IH]; [constructor|]. cbn. case_if; by constructor.
Qed.

Lemma NoDup_limited_keys n t :
  NoDup (map key t) → NoDup (map key (sql_limit n (order_by le (select_where p t)))).
Proof.
  intros Hnd. assert (NoDup (map key (order_by le (select_where p t)))) as Ho.
  { change (NoDup (key <$> order_by le (select_where p t))). rewrite order_by_perm.
    by apply NoDup_select_keys. }
  unfold sql_limit. case_if; [done|].
  rewrite <- (take_drop (Z.to_nat n) (order_by _ _)), List.map_app in Ho.
  by apply NoDup_app in Ho as [? _].
Qed.

Lemma elem_of_limited n t r :
  r ∈ sql_limit n (order_by le (select_where p t)) → r ∈ t ∧ p r = true.
Proof. intros H. apply elem_of_sql_limit in H. by apply elem_of_order_by, elem_of_select in H. Qed.

(** A limited selection that is not full is the whole selection. *)
Lemma limited_complete n t r :
  0 ≤ n → Z.of_nat (length (sql_limit n (order_by le (select_where p t)))) ≠ n →
  r ∈ t → p r = true → r ∈ sql_limit n (order_by le (select_where p t)).
Proof.
  intros Hn Hl Hr Hp. rewrite length_sql_limit in Hl by done. unfold sql_limit.
  rewrite (proj2 (Z.ltb_ge n 0)), take_ge by lia.
  by apply elem_of_order_by, elem_of_select.
Qed.
End limited.

Create Rewrite HintDb sql.
#[export] Hint Rewrite @elem_of_select @elem_of_delete @elem_of_update
  @elem_of_order_by : sql.
