(* ===== verification/Float64.v ===== *)
(** * Float64: the [f64] arithmetic the program performs

    Two views.  [f64] is IEEE-754 binary64 as [SpecFloat] specifies it, used
    where NaN, infinities and signs matter (budgets).  [round53] is the rounding
    of a non-negative integer to 53 significant bits, ties to even: products of
    non-negative dyadics (the jitter of the two retry ladders) only need that. *)

From Stdlib Require Export SpecFloat.
From stdpp Require Import pretty.
From S2P Require Import Prelude.

(** ** Binary64 *)

Abbreviation f64 := spec_float.
Definition f64_of_Z (z : Z) : f64 := binary_normalize 53 1024 z 0 false.
Definition f64_zero : f64 := S754_zero false.
Definition f64_add : f64 → f64 → f64 := SFadd 53 1024.
Definition f64_sub : f64 → f64 → f64 := SFsub 53 1024.
Definition f64_mul : f64 → f64 → f64 := SFmul 53 1024.
Definition f64_div : f64 → f64 → f64 := SFdiv 53 1024.
Definition f64_le : f64 → f64 → bool := SFleb.
Definition f64_lt : f64 → f64 → bool := SFltb.
Definition f64_gt (a b : f64) : bool := SFltb b a.

Definition is_nan (x : f64) : bool :=
  match x with S754_nan => true | _ => false end.
Definition is_finite (x : f64) : bool :=
  match x with S754_zero _ | S754_finite _ _ _ => true | _ => false end.

(** [f64::max] and [f64::min]: when one argument is NaN, the other is returned. *)
Definition f64_max (a b : f64) : f64 :=
  if is_nan a then b else if is_nan b then a else if f64_le b a then a else b.
Definition f64_min (a b : f64) : f64 :=
  if is_nan a then b else if is_nan b then a else if f64_le a b then a else b.

(** [Iterator::sum::<f64>()] folds from the left, starting at negative zero. *)
Definition f64_sum (l : list f64) : f64 := foldl f64_add (S754_zero true) l.

Lemma f64_le_refl x : is_nan x = false → f64_le x x = true.
Proof.
  destruct x as [s|s| |s m e]; try done; intros _; [by destruct s..|].
  unfold f64_le, SFleb, SFcompare. rewrite Z.compare_refl.
  change (Pcompare m m Eq) with (m ?= m)%positive. rewrite Pos.compare_refl.
  by destruct s.
Qed.

Lemma f64_min_le_r a b : is_nan b = false → f64_le (f64_min a b) b = true.
Proof.
  intros Hb. unfold f64_min. rewrite Hb.
  destruct (is_nan a); [by apply f64_le_refl|].
  case_if; [done|by apply f64_le_refl].
Qed.

Lemma SFcompare_antisym a b :
  SFcompare b a = match SFcompare a b with
                  | Some c => Some (CompOpp c)
                  | None => None
                  end.
Proof.
  destruct a as [[]|[]| |[] ma ea], b as [[]|[]| |[] mb eb]; try done; cbn;
    change (Pcompare ma mb Eq) with (ma ?= mb)%positive;
    change (Pcompare mb ma Eq) with (mb ?= ma)%positive;
    rewrite (Z.compare_antisym ea eb), (Pos.compare_antisym ma mb);
    by destruct (ea ?= eb), (ma ?= mb)%positive.
Qed.

Lemma f64_gt_le a b : f64_le a b = true → f64_gt a b = false.
Proof.
  unfold f64_le, f64_gt, SFleb, SFltb. rewrite (SFcompare_antisym a b).
  by destruct (SFcompare a b) as [[]|].
Qed.

Lemma f64_gt_not_le a b : is_finite a = true → f64_le a b = false → is_nan b = false → f64_gt a b = true.
Proof.
  unfold f64_le, f64_gt, SFleb, SFltb. rewrite (SFcompare_antisym a b).
  destruct (SFcompare a b) as [[]|] eqn:E; try done.
  by destruct a as [| | |[]], b as [[]|[]| |[]].
Qed.

Lemma f64_min_le_l a b : is_nan a = false → is_nan b = false → f64_le (f64_min a b) a = true.
Proof.
  intros Ha Hb. unfold f64_min. rewrite Ha, Hb. destruct (f64_le a b) eqn:E.
  - by apply f64_le_refl.
  - unfold f64_le, SFleb in *. rewrite (SFcompare_antisym a b).
    destruct (SFcompare a b) as [[]|] eqn:Ec; try done.
    by destruct a as [| | |[]], b as [[]|[]| |[]].
Qed.

Lemma f64_min_cases a b : f64_min a b = a ∨ f64_min a b = b.
Proof. unfold f64_min. destruct (is_nan a), (is_nan b); auto. case_if; auto. Qed.

(** *** Sums of non-negative numbers *)

(** Neither NaN nor negative (nor the negative zero). *)
Definition f64_nonneg (x : f64) : bool :=
  match x with
  | S754_zero false | S754_finite false _ _ | S754_infinity false => true
  | _ => false
  end.

Lemma iter_pos_ind {A} (f : A → A) (P : A → Prop) n x :
  (∀ y, P y → P (f y)) → P x → P (SpecFloat.iter_pos f n x).
Proof. intros Hf. revert x. induction n as [n IH|n IH|]; cbn; intros x Hx; auto. Qed.

Lemma shr_m_nonneg m e l m' e' :
  0 ≤ m → shr_fexp 53 1024 m e l = (m', e') → 0 ≤ shr_m m'.
Proof.
  intros Hm. unfold shr_fexp, shr.
  assert (0 ≤ shr_m (shr_record_of_loc m l)) as H0 by by destruct l as [|[]].
  destruct (_ - e) as [|p|p]; intros [= <- _]; try done.
  apply (iter_pos_ind shr_1 (λ r, 0 ≤ shr_m r)); [|done].
  intros [n r s] Hn. cbn in Hn. destruct n as [|[]|]; cbn; lia.
Qed.

Lemma binary_round_aux_nonneg m e l :
  0 ≤ m → f64_nonneg (binary_round_aux 53 1024 false m e l) = true.
Proof.
  intros Hm. unfold binary_round_aux. destruct (shr_fexp 53 1024 m e l) as [r e1] eqn:E1.
  pose proof (shr_m_nonneg _ _ _ _ _ Hm E1) as H1.
  destruct (shr_fexp 53 1024 _ e1 loc_Exact) as [r2 e2] eqn:E2.
  apply shr_m_nonneg in E2.
  - destruct (shr_m r2); [done| |lia]. by case_if.
  - unfold round_nearest_even. destruct (loc_of_shr_record r) as [|[]]; try lia. case_if; lia.
Qed.

Lemma f64_add_nonneg a b :
  f64_nonneg a = true → f64_nonneg b = true → f64_nonneg (f64_add a b) = true.
Proof.
  destruct a as [[]|[]| |[] ma ea], b as [[]|[]| |[] mb eb]; try done. intros _ _.
  unfold f64_add, SFadd, cond_Zopp. cbn zeta.
  generalize (fst (shl_align ma ea (Z.min ea eb))), (fst (shl_align mb eb (Z.min ea eb))).
  intros x y. change (Z.pos x + Z.pos y) with (Z.pos (x + y)).
  unfold binary_normalize, binary_round. destruct (shl_align _ _ _) as [mz ez].
  by apply binary_round_aux_nonneg.
Qed.

Lemma f64_add_zero a c :
  f64_nonneg a = true → is_finite c = true → f64_le c f64_zero = true →
  f64_lt c f64_zero = false → f64_add a c = a.
Proof. by destruct a as [[]|[]| |[]], c as [[]|[]| |[]]. Qed.

Lemma f64_max_nonneg a : f64_nonneg a = true → f64_max a f64_zero = a.
Proof. by destruct a as [[]|[]| |[]]. Qed.

Lemma f64_max_zero a :
  is_nan (f64_max a f64_zero) = false ∧ f64_lt (f64_max a f64_zero) f64_zero = false.
Proof. by destruct a as [[]|[]| |[]]. Qed.

(** ** Rounding non-negative integers to 53 bits *)

Definition round53 (n : Z) : Z :=
  let d := Z.log2 n - 52 in
  if d <=? 0 then n
  else
    let q := n / 2 ^ d in
    let r := n mod 2 ^ d in
    let up := (2 ^ (d - 1) <? r) || ((2 ^ (d - 1) =? r) && Z.odd q) in
    (if up then q + 1 else q) * 2 ^ d.

(** A 53-bit integer is a fixed point of the rounding. *)
Lemma round53_small n : n < 2 ^ 53 → round53 n = n.
Proof.
  intros H. unfold round53. destruct (Z.leb_spec (Z.log2 n - 52) 0); [done|].
  exfalso. assert (0 < n) by (destruct (Z.le_gt_cases n 0); [|done];
    rewrite Z.log2_nonpos in *; lia).
  assert (Z.log2 n < 53) by (apply Z.log2_lt_pow2; lia). lia.
Qed.

Lemma round53_shape n : 0 < n → ∃ c e, 0 ≤ c ≤ 2 ^ 53 ∧ 0 ≤ e ∧ round53 n = c * 2 ^ e.
Proof.
  intros Hn. unfold round53. set (d := Z.log2 n - 52).
  destruct (Z.leb_spec d 0) as [Hd|Hd].
  - exists n, 0. assert (n < 2 ^ 53); [|lia].
    destruct (Z.log2_spec n Hn). eapply Z.lt_le_trans; [done|].
    apply Z.pow_le_mono_r; lia.
  - assert (0 ≤ n / 2 ^ d < 2 ^ 53) as Hq.
    { split; [apply Z.div_pos; lia|]. apply Z.div_lt_upper_bound; [lia|].
      rewrite <- Z.pow_add_r by lia. destruct (Z.log2_spec n Hn).
      eapply Z.lt_le_trans; [done|]. apply Z.pow_le_mono_r; lia. }
    case_if; [exists (n / 2 ^ d + 1), d | exists (n / 2 ^ d), d]; split_and!; lia.
Qed.

(** Rounding never passes a representable bound. *)
Lemma round53_le n c e :
  0 ≤ n → 0 ≤ c ≤ 2 ^ 53 → 0 ≤ e → n ≤ c * 2 ^ e → round53 n ≤ c * 2 ^ e.
Proof.
  intros Hn Hc He Hle. unfold round53. set (d := Z.log2 n - 52).
  destruct (Z.leb_spec d 0) as [Hd|Hd]; [done|].
  assert (0 < n) as Hn0.
  { destruct (Z.eq_dec n 0) as [->|]; [cbn in d; lia|lia]. }
  assert (0 < 2 ^ d) as Hpd by (apply Z.pow_pos_nonneg; lia).
  pose proof (Z.div_mod n (2 ^ d) ltac:(lia)) as Hdm.
  pose proof (Z.mod_pos_bound n (2 ^ d) Hpd) as Hr.
  assert (∃ k, c * 2 ^ e = k * 2 ^ d) as [k Hk].
  { destruct (Z.le_gt_cases d e) as [Hde|Hde].
    - exists (c * 2 ^ (e - d)). rewrite <- Z.mul_assoc, <- Z.pow_add_r by lia.
      do 2 f_equal. lia.
    - assert (2 ^ 53 * 2 ^ e ≤ 2 ^ (Z.log2 n)) as H1.
      { rewrite <- Z.pow_add_r by lia. apply Z.pow_le_mono_r; lia. }
      destruct (Z.log2_spec n Hn0) as [H2 _].
      exists (2 ^ 52). rewrite <- Z.pow_add_r by lia.
      replace (52 + d) with (Z.log2 n) by lia. nia. }
  assert (n / 2 ^ d ≤ k) as Hqk by (apply Z.div_le_upper_bound; lia).
  case_if; [|nia].
  assert (n mod 2 ^ d ≠ 0) as Hr0.
  { apply orb_true_iff in Heqb as [Hb|Hb]; [apply Z.ltb_lt in Hb|
      apply andb_true_iff in Hb as [Hb _]; apply Z.eqb_eq in Hb];
    pose proof (Z.pow_pos_nonneg 2 (d - 1) ltac:(lia) ltac:(lia)); lia. }
  assert (n / 2 ^ d < k) by nia. nia.
Qed.

(** ** The order of finite and infinite doubles

    [ORDER BY] on a REAL expression: a NaN result is SQL's NULL, which sorts
    below every number.  [f64_key] places a double on a lexicographic scale on
    which [SFleb] is the order, which makes the comparison total and transitive. *)

Definition f64_key (x : f64) : Z * Z * Z :=
  match x with
  | S754_nan => (-3, 0, 0)
  | S754_infinity true => (-2, 0, 0)
  | S754_finite true m e => (-1, - e, Z.neg m)
  | S754_zero _ => (0, 0, 0)
  | S754_finite false m e => (1, e, Z.pos m)
  | S754_infinity false => (2, 0, 0)
  end.

Definition lex_le (a b : Z * Z * Z) : bool :=
  let '(a1, a2, a3) := a in
  let '(b1, b2, b3) := b in
  (a1 <? b1) || ((a1 =? b1) && ((a2 <? b2) || ((a2 =? b2) && (a3 <=? b3)))).

Definition real_le (a b : f64) : bool := lex_le (f64_key a) (f64_key b).

Lemma real_le_total a b : real_le a b = true ∨ real_le b a = true.
Proof.
  unfold real_le, lex_le. destruct (f64_key a) as [[??]?], (f64_key b) as [[??]?].
  rewrite !orb_true_iff, !andb_true_iff, !orb_true_iff, !andb_true_iff,
    !Z.ltb_lt, !Z.eqb_eq, !Z.leb_le. lia.
Qed.

Lemma real_le_trans a b c : real_le a b = true → real_le b c = true → real_le a c = true.
Proof.
  unfold real_le, lex_le.
  destruct (f64_key a) as [[??]?], (f64_key b) as [[??]?], (f64_key c) as [[??]?].
  rewrite !orb_true_iff, !andb_true_iff, !orb_true_iff, !andb_true_iff,
    !Z.ltb_lt, !Z.eqb_eq, !Z.leb_le. lia.
Qed.

(** On numbers the scale is IEEE comparison. *)
Lemma real_le_leb a b :
  is_nan a = false → is_nan b = false → real_le a b = f64_le a b.
Proof.
  intros Ha Hb. apply eq_true_iff_eq. unfold real_le, lex_le, f64_le, SFleb.
  destruct a as [[]|[]| |[] ma ea], b as [[]|[]| |[] mb eb]; try done; cbn;
    try (split; [done|]; try done; intros; lia).
  all: change (Pcompare ma mb Eq) with (ma ?= mb)%positive.
  all: destruct (Z.compare_spec ea eb), (Pos.compare_spec ma mb); cbn;
    rewrite ?orb_true_iff, ?andb_true_iff, ?orb_true_iff, ?andb_true_iff,
      ?Z.ltb_lt, ?Z.eqb_eq, ?Z.leb_le; split; try done; try lia; intros _; lia.
Qed.

(** ** Durations *)

(** [Duration::from_secs_f64], to the nearest nanosecond, ties to even. *)
Definition div_ties_even (n d : Z) : Z :=
  let q := n / d in
  match Z.compare (2 * (n mod d)) d with
  | Lt => q
  | Gt => q + 1
  | Eq => if Z.even q then q else q + 1
  end.
Definition from_secs_f64 (x : f64) : Duration :=
  match x with
  | S754_finite false m e =>
      if 0 <=? e then Zpos m * 2 ^ e * 10 ^ 9 else div_ties_even (Zpos m * 10 ^ 9) (2 ^ (- e))
  | _ => 0
  end.
Lemma from_secs_nonneg x : 0 ≤ from_secs_f64 x.
Proof.
  destruct x as [| | |[] m e]; cbn; try done. case_if.
  - apply Z.mul_nonneg_nonneg; [|done]. apply Z.mul_nonneg_nonneg; [done|by apply Z.pow_nonneg].
  - unfold div_ties_even. breflect_in Heqb. assert (0 < 2 ^ (- e)) by (apply Z.pow_pos_nonneg; lia).
    assert (0 ≤ Z.pos m * 10 ^ 9 / 2 ^ (- e)) by (apply Z.div_pos; lia).
    destruct (Z.compare _ _); [case_if|..]; lia.
Qed.

(** [try_from_secs_f64]: [from_secs_f64] panics where this answers none. *)
Definition try_from_secs_f64 (x : f64) : option Duration :=
  match x with
  | S754_zero _ => Some 0
  | S754_finite false _ _ =>
      let d := from_secs_f64 x in if d <? 2 ^ 64 * 10 ^ 9 then Some d else None
  | _ => None
  end.
Definition as_secs_f64 (d : Duration) : f64 :=
  f64_add (f64_of_Z (as_secs d)) (f64_div (f64_of_Z (d mod 10 ^ 9)) (f64_of_Z (10 ^ 9))).
Definition mul_f64 (d : Duration) (x : f64) : option Duration := try_from_secs_f64 (f64_mul x (as_secs_f64 d)).
(** [saturating_mul]: a duration has at most [u64::MAX] seconds and a fraction. *)
Definition DURATION_MAX : Duration := 2 ^ 64 * 10 ^ 9 - 1.
Definition saturating_mul_duration (d : Duration) (n : Z) : Duration := Z.min (d * n) DURATION_MAX.

(** [{:.digits}], correctly rounded, ties to even *)
Fixpoint fixed_width (k : nat) (n : Z) : string :=
  match k with O => EmptyString | S k => fixed_width k (n / 10) +:+ pretty (n mod 10) end.
Definition f64_fixed (digits : nat) (x : f64) : string :=
  let sign (s : bool) := (if s then "-" else "")%string in
  let shown (n : Z) := (pretty (n / 10 ^ Z.of_nat digits) +:+ "." +:+ fixed_width digits n)%string in
  match x with
  | S754_nan => "NaN"%string
  | S754_infinity s => (sign s +:+ "inf")%string
  | S754_zero s => (sign s +:+ shown 0)%string
  | S754_finite s m e =>
      let scaled := Zpos m * 10 ^ Z.of_nat digits in
      let n := if 0 <=? e then scaled * 2 ^ e else div_ties_even scaled (2 ^ (- e)) in
      (sign s +:+ shown n)%string
  end.
Lemma f64_fixed_rounds :
  map (f64_fixed 2) [f64_of_Z 3; f64_div (f64_of_Z 1) (f64_of_Z 8); f64_div (f64_of_Z (-5)) (f64_of_Z 1000); f64_zero]
  = ["3.00"; "0.12"; "-0.01"; "0.00"]%string.
Proof. vm_compute. reflexivity. Qed.

Lemma try_from_secs_nonneg x d : try_from_secs_f64 x = Some d → 0 ≤ d.
Proof.
  destruct x as [s|s| |[] m e]; try done; [by intros [= <-]|]. cbn -[from_secs_f64 Z.ltb].
  destruct (_ <? _); [|done]. intros [= <-]. apply (from_secs_nonneg (S754_finite false m e)).
Qed.
