(* ===== verification/Jitter.v ===== *)
(** * Jitter: deterministic jitter and LRU bookkeeping

    [crates/core/src/jitter.rs] and [crates/core/src/lru.rs], the two helpers the
    retry ladders, the governor and the engine pools share. *)

From S2P Require Import Prelude Float64.

(** ** jitter.rs *)

(** [lcg_fraction seed] is the [f64] [n / 2^31] for the numerator [n] computed
    here: [scrambled >> 33] has at most 31 bits, so the conversion and the
    division by a power of two are exact and [.min(1.0)] never acts. *)
Definition lcg_fraction (seed : Z) : Z :=
  let scrambled := wrap_u64 (wrap_u64 (seed * 6364136223846793005) + 1442695040888963407) in
  Z.shiftr scrambled 33.

(** [(lcg_fraction(seed) * (base as f64) * 0.25) as i64], the spread both retry
    ladders add to a delay of [base] seconds.  The product of two non-negative
    doubles is rounded once; scaling by the power of two 1/4 is exact, and the
    cast truncates. *)
Definition jitter_secs (seed base : Z) : Z :=
  Z.min (round53 (lcg_fraction seed * round53 base) / 2 ^ 33) i64_max.

Lemma lcg_fraction_bounds seed : 0 ≤ lcg_fraction seed < 2 ^ 31.
Proof.
  unfold lcg_fraction. rewrite Z.shiftr_div_pow2 by lia.
  match goal with |- context [wrap_u64 ?z] => pose proof (wrap_u64_bounds z) end.
  split; [apply Z.div_pos; lia|apply Z.div_lt_upper_bound; lia].
Qed.

Lemma round53_nonneg n : 0 ≤ n → 0 ≤ round53 n.
Proof.
  intros Hn. destruct (Z.eq_dec n 0) as [->|]; [done|].
  destruct (round53_shape n) as (c & e & Hc & He & ->); [lia|].
  apply Z.mul_nonneg_nonneg; [lia|]. by apply Z.pow_nonneg.
Qed.

(** The spread is at most a quarter of the delay (as the double it was cast to). *)
Lemma jitter_secs_bounds seed base :
  0 ≤ base → 0 ≤ jitter_secs seed base ≤ round53 base / 4.
Proof.
  intros Hb. unfold jitter_secs.
  pose proof (lcg_fraction_bounds seed) as Hs. pose proof (round53_nonneg base Hb) as Hr.
  set (s := lcg_fraction seed) in *. set (b := round53 base) in *.
  assert (0 ≤ s * b) as Hsb by nia.
  split.
  { apply Z.min_glb; [|done]. apply Z.div_pos; [by apply round53_nonneg|done]. }
  etransitivity; [apply Z.le_min_l|].
  destruct (Z.eq_dec base 0) as [->|Hb0].
  { subst b. cbn. rewrite Z.mul_0_r. done. }
  assert (∃ c e, 0 ≤ c ≤ 2 ^ 53 ∧ 0 ≤ e ∧ b = c * 2 ^ e) as (c & e & Hc & He & Hbe).
  { subst b. apply round53_shape. lia. }
  assert (round53 (s * b) ≤ 2 ^ 31 * b) as Hle.
  { replace (2 ^ 31 * b) with (c * 2 ^ (e + 31)) by (rewrite Z.pow_add_r, Hbe by lia; ring).
    apply round53_le; [done|done|lia|].
    rewrite Z.pow_add_r, Z.mul_assoc, <- Hbe by lia. nia. }
  apply Z.div_le_lower_bound; [done|].
  pose proof (Z.mul_div_le (round53 (s * b)) (2 ^ 33) ltac:(lia)). lia.
Qed.

Lemma jitter_secs_quarter seed base :
  0 ≤ base < 2 ^ 53 → 0 ≤ jitter_secs seed base ≤ base / 4.
Proof.
  intros Hb. pose proof (jitter_secs_bounds seed base ltac:(lia)) as H.
  by rewrite (round53_small base) in H by lia.
Qed.

(** The rounding agrees with binary64 multiplication where both are computed. *)
Definition f64_jitter (seed base : Z) : f64 :=
  f64_mul (f64_mul (SFdiv 53 1024 (f64_of_Z (lcg_fraction seed)) (f64_of_Z (2 ^ 31)))
             (f64_of_Z base))
    (SFdiv 53 1024 (f64_of_Z 1) (f64_of_Z 4)).
Definition f64_trunc (x : f64) : Z :=
  match x with
  | S754_finite false m e => Z.shiftl (Z.pos m) e
  | _ => 0
  end.

Example jitter_agrees_with_binary64 :
  map (λ sb, f64_trunc (f64_jitter sb.1 sb.2))
      [(1, 3600); (42, 10); (2, 86400 * 365 * 40); (99, 2 ^ 52 + 12345); (123456789, 640)]
  = map (λ sb, jitter_secs sb.1 sb.2)
      [(1, 3600); (42, 10); (2, 86400 * 365 * 40); (99, 2 ^ 52 + 12345); (123456789, 640)].
Proof. vm_compute. reflexivity. Qed.

(** ** lru.rs: the order is the deque, least recently used first *)

Definition lru_touch (order : list string) (key : string) : list string :=
  List.filter (λ k, negb (String.eqb k key)) order ++ [key].

(** The eviction loop: pop the front while more than [cap] (floored at 1) keys
    remain.  Returns the remaining order and the evicted keys. *)
Fixpoint lru_evict (cap : nat) (order : list string) : list string * list string :=
  match order with
  | [] => ([], [])
  | old :: rest =>
      if (Nat.max cap 1 <? length order)%nat then
        let '(order', evicted) := lru_evict cap rest in (order', old :: evicted)
      else (order, [])
  end.

Definition lru_touch_evict (order : list string) (key : string) (cap : nat)
    : list string * list string :=
  lru_evict cap (lru_touch order key).

Lemma elem_of_lru_touch order key k :
  k ∈ lru_touch order key ↔ k ∈ order ∨ k = key.
Proof.
  unfold lru_touch. rewrite elem_of_app, list_elem_of_singleton.
  rewrite (list_elem_of_In (List.filter _ _) k), List.filter_In, negb_true_iff,
    <- list_elem_of_In, String.eqb_neq.
  destruct (decide (k = key)); naive_solver.
Qed.

Lemma NoDup_lru_touch order key : NoDup order → NoDup (lru_touch order key).
Proof.
  intros H. unfold lru_touch. apply NoDup_app. split_and!.
  - apply NoDup_ListNoDup, List.NoDup_filter. by apply NoDup_ListNoDup.
  - intros k Hk Hs. apply list_elem_of_singleton in Hs as ->.
    apply list_elem_of_In, List.filter_In in Hk as [_ Hk].
    by rewrite String.eqb_refl in Hk.
  - apply NoDup_singleton.
Qed.

(** Eviction splits the order: the evicted keys are exactly its front, and what
    remains is its last [max cap 1] keys. *)
Lemma lru_evict_split cap order :
  let '(kept, evicted) := lru_evict cap order in
  order = evicted ++ kept ∧ (length kept ≤ Nat.max cap 1)%nat ∧
  (evicted ≠ [] → length kept = Nat.max cap 1).
Proof.
  induction order as [|old rest IH]; [cbn; split_and!; try done; lia|].
  cbn [lru_evict]. destruct (Nat.ltb_spec (Nat.max cap 1) (length (old :: rest))) as [H|H].
  - destruct (lru_evict cap rest) as [kept evicted]. destruct IH as (-> & Hle & Hev).
    split_and!; [done|done|]. intros _. destruct evicted; [cbn in *; lia|by apply Hev].
  - split_and!; [done|done|done].
Qed.
