(* ===== verification/Json.v ===== *)
(** * Json: [serde_json::Value] and [BTreeMap], as the program observes them

    An object is the ascending, duplicate-free association list a
    [BTreeMap<String, _>] iterates ([serde_json] is built without
    [preserve_order]). *)

From S2P Require Import Prelude Float64.

Inductive Number : Type :=
| PosInt (n : Z)
| NegInt (n : Z)
| Float (x : f64).

Inductive Json : Type :=
| JNull
| JBool (b : bool)
| JNumber (n : Number)
| JString (s : string)
| JArray (items : list Json)
| JObject (fields : list (string * Json)).

(** The textual rendering of a value ([Value::to_string]) is [serde_json]'s; the
    development is generic in it. *)
Class JsonRender := json_render : Json → string.

(** ** Accessors *)

Definition as_object (v : Json) : option (list (string * Json)) :=
  match v with JObject o => Some o | _ => None end.
Definition as_str (v : Json) : option string :=
  match v with JString s => Some s | _ => None end.
Definition as_i64 (v : Json) : option Z :=
  match v with
  | JNumber (PosInt n) => if n <=? i64_max then Some n else None
  | JNumber (NegInt n) => Some n
  | _ => None
  end.
Definition as_f64 (v : Json) : option f64 :=
  match v with
  | JNumber (PosInt n) | JNumber (NegInt n) => Some (f64_of_Z n)
  | JNumber (Float x) => Some x
  | _ => None
  end.

(** ** [BTreeMap<String, V>] as a sorted association list *)

Definition map_get {V} (k : string) (m : list (string * V)) : option V :=
  snd <$> List.find (λ kv, String.eqb (fst kv) k) m.

(** [Value::get] with a string key. *)
Definition json_get (k : string) (v : Json) : option Json :=
  match v with JObject o => map_get k o | _ => None end.

Definition map_keys {V} (m : list (string * V)) : list string := map fst m.

Fixpoint map_insert {V} (k : string) (v : V) (m : list (string * V)) : list (string * V) :=
  match m with
  | [] => [(k, v)]
  | (k', v') :: m' =>
      match String.compare k k' with
      | Lt => (k, v) :: m
      | Eq => (k, v) :: m'
      | Gt => (k', v') :: map_insert k v m'
      end
  end.

Definition map_of_list {V} (l : list (string * V)) : list (string * V) :=
  foldl (λ m kv, map_insert kv.1 kv.2 m) [] l.

Lemma map_get_insert {V} k k' (v : V) m :
  map_get k' (map_insert k v m) = if String.eqb k k' then Some v else map_get k' m.
Proof.
  unfold map_get. induction m as [|[k0 v0] m IH]; cbn.
  { by case_if. }
  destruct (String.compare k k0) eqn:E; cbn.
  - apply string_compare_eq in E as ->. by case_if.
  - by case_if.
  - destruct (String.eqb k0 k') eqn:E0; [|done].
    apply String.eqb_eq in E0 as ->. case_if; [|done].
    apply String.eqb_eq in Heqb as ->. by rewrite string_compare_refl in E.
Qed.

Lemma elem_of_keys_insert {V} k k' (v : V) m :
  k' ∈ map_keys (map_insert k v m) ↔ k' = k ∨ k' ∈ map_keys m.
Proof.
  unfold map_keys. induction m as [|[k0 v0] m IH]; cbn.
  { set_solver. }
  destruct (String.compare k k0) eqn:E; cbn.
  - apply string_compare_eq in E as ->. set_solver.
  - set_solver.
  - rewrite !elem_of_cons, IH. set_solver.
Qed.

Lemma map_get_Some_elem {V} k (v : V) m : map_get k m = Some v → (k, v) ∈ m.
Proof.
  unfold map_get. rewrite fmap_Some. intros ([k0 v0] & H & ->).
  apply List.find_some in H as [H He]. apply String.eqb_eq in He. cbn in *. subst.
  by apply list_elem_of_In.
Qed.

Lemma map_get_is_Some {V} k (m : list (string * V)) :
  is_Some (map_get k m) ↔ k ∈ map_keys m.
Proof.
  unfold map_get, map_keys. induction m as [|[k0 v0] m IH]; cbn.
  - split; [by intros [? [=]]|set_solver].
  - destruct (String.eqb_spec k0 k) as [->|Hne]; cbn.
    + split; [set_solver|eauto].
    + rewrite IH. set_solver.
Qed.

Lemma map_get_None {V} k (m : list (string * V)) : map_get k m = None ↔ k ∉ map_keys m.
Proof. rewrite <- map_get_is_Some, eq_None_not_Some. done. Qed.

Lemma map_get_elem {V} k (v : V) m :
  NoDup (map_keys m) → (k, v) ∈ m → map_get k m = Some v.
Proof.
  unfold map_get, map_keys. induction m as [|[k0 v0] m IH]; cbn; [set_solver|].
  rewrite NoDup_cons. intros [Hni Hnd] Hel. destruct (String.eqb_spec k0 k) as [->|Hne].
  - cbn. apply elem_of_cons in Hel as [[= ->]|Hel]; [done|]. exfalso. apply Hni.
    apply list_elem_of_In, in_map_iff. exists (k, v). by rewrite <- list_elem_of_In.
  - apply elem_of_cons in Hel as [[= -> ->]|Hel]; [done|]. by apply IH.
Qed.

Lemma sorted_keys_insert {V} k (v : V) m :
  StronglySorted (λ a b, String.ltb a b = true) (map_keys m) →
  StronglySorted (λ a b, String.ltb a b = true) (map_keys (map_insert k v m)).
Proof.
  induction m as [|[k0 v0] m IH]; cbn; intros Hs; [repeat constructor|].
  inversion Hs as [|?? Hs' Hall]; subst.
  destruct (String.compare k k0) eqn:E; cbn.
  - apply string_compare_eq in E as ->. by constructor.
  - constructor; [done|]. constructor; [unfold String.ltb; by rewrite E|].
    eapply Forall_impl; [exact Hall|]. intros b Hb. eapply string_ltb_trans; [|exact Hb].
    unfold String.ltb. by rewrite E.
  - constructor; [by apply IH|]. apply Forall_forall. intros b Hb.
    apply elem_of_keys_insert in Hb as [->|Hb].
    + unfold String.ltb. by rewrite String.compare_antisym, E.
    + by eapply Forall_forall in Hall.
Qed.

Lemma map_get_map_of_list {V} k (l : list (string * V)) :
  NoDup (map_keys l) → map_get k (map_of_list l) = map_get k l.
Proof.
  intros Hnd. unfold map_of_list.
  assert (∀ m, map_get k (foldl (λ m kv, map_insert kv.1 kv.2 m) m l)
    = match map_get k l with Some v => Some v | None => map_get k m end) as Hm.
  { induction l as [|[k' v] l IH]; intros m; [done|].
    assert (map_get k ((k', v) :: l) = if String.eqb k' k then Some v else map_get k l) as ->.
    { unfold map_get. cbn. by case_if. }
    apply NoDup_cons in Hnd as [Hni Hnd]. cbn [foldl fst snd].
    rewrite (IH Hnd), map_get_insert. cbn in Hni |- *.
    destruct (String.eqb_spec k' k) as [->|]; [|done].
    by rewrite (proj2 (map_get_None k l) Hni). }
  rewrite Hm. by destruct (map_get k l).
Qed.

Lemma sorted_NoDup_keys {V} (m : list (string * V)) :
  StronglySorted (λ a b, String.ltb a b = true) (map_keys m) → NoDup (map_keys m).
Proof.
  induction (map_keys m) as [|k l IH]; intros Hs; [constructor|].
  inversion Hs as [|?? Hs' Hall]; subst. constructor; [|by apply IH].
  intros Hin. rewrite Forall_forall in Hall. specialize (Hall k Hin).
  by rewrite string_ltb_irrefl in Hall.
Qed.

Lemma NoDup_map_of_list {V} (l : list (string * V)) : NoDup (map_keys (map_of_list l)).
Proof.
  apply sorted_NoDup_keys. unfold map_of_list.
  assert (StronglySorted (λ a b, String.ltb a b = true) (map_keys (@nil (string * V)))) as Hs by constructor.
  revert Hs. generalize (@nil (string * V)). induction l as [|[k s] l IH]; intros m Hs; [done|].
  by apply IH, sorted_keys_insert.
Qed.

(** ** More accessors *)

Definition as_bool (v : Json) : option bool :=
  match v with JBool b => Some b | _ => None end.
Definition as_array (v : Json) : option (list Json) :=
  match v with JArray items => Some items | _ => None end.
Definition as_u64 (v : Json) : option Z :=
  match v with JNumber (PosInt n) => Some n | _ => None end.
(** [Value::from] of an unsigned integer. *)
Definition JUint (n : Z) : Json := JNumber (PosInt n).
Definition JNat (n : nat) : Json := JUint (Z.of_nat n).

(** [json!({..})] over the given members. *)
Definition json_object (fields : list (string * Json)) : Json := JObject (map_of_list fields).

(** [serde_json::Value::pointer] (RFC 6901) is the library's. *)
Class JsonPointer := json_pointer : string → Json → option Json.
(** [serde_json::from_str], and the equality of values. *)
Class JsonParse := json_parse : string → option Json.
Class JsonEq := json_eqb : Json → Json → bool.

Definition map_remove {V} (k : string) (m : list (string * V)) : list (string * V) :=
  List.filter (λ kv, negb (String.eqb (fst kv) k)) m.

Lemma map_get_remove {V} k k' (m : list (string * V)) :
  map_get k' (map_remove k m) = if String.eqb k k' then None else map_get k' m.
Proof.
  unfold map_get, map_remove. induction m as [|[k0 v0] m IH]; cbn; [by case_if|].
  destruct (String.eqb_spec k0 k) as [->|Hne]; cbn.
  - rewrite IH. by destruct (String.eqb_spec k k').
  - destruct (String.eqb_spec k0 k') as [->|Hne']; cbn; [|exact IH].
    destruct (String.eqb_spec k k') as [->|]; done.
Qed.
