(* ===== verification/Errors.v ===== *)
(** * Errors: the typed failures of [crates/core/src/error.rs]

    The error enum, what each variant reports about money already spent, and the
    two independent predicates the runtime routes on: is a failure terminal for
    the job, and did it originate in pumper itself. *)

From S2P Require Import Prelude Float64 Json.

(** ** Spend certainty *)

Inductive SpendCertainty : Type := Billed | Unmetered | UnknownSpend | Free.
#[global] Instance SpendCertainty_eq_dec : EqDecision SpendCertainty.
Proof. solve_decision. Defined.

Module SpendCertainty.
Definition ALL : list SpendCertainty := [Billed; Unmetered; UnknownSpend; Free].

Definition as_str (c : SpendCertainty) : string :=
  match c with
  | Billed => "billed"
  | Unmetered => "unmetered"
  | UnknownSpend => "unknown"
  | Free => "free"
  end.

Definition parse (s : string) : option SpendCertainty :=
  List.find (λ c, String.eqb (as_str c) s) ALL.

Definition is_uncertain (c : SpendCertainty) : bool :=
  match c with Unmetered | UnknownSpend => true | _ => false end.

Definition from_amount (cost_usd : f64) : SpendCertainty :=
  if f64_gt cost_usd f64_zero then Billed else Free.
End SpendCertainty.

(** ** Claude failures and the ledger row each must leave *)

Inductive ClaudeFailure : Type :=
| Spawn
| Timeout
| NonZeroExit
| CliError
| Unparseable
| PromptUndelivered
| WaitFailed
| Interrupted
| PipeFailure.
#[global] Instance ClaudeFailure_eq_dec : EqDecision ClaudeFailure.
Proof. solve_decision. Defined.

Module ClaudeFailure.
Definition ALL : list ClaudeFailure :=
  [Spawn; Timeout; NonZeroExit; CliError; Unparseable; PromptUndelivered;
   WaitFailed; Interrupted; PipeFailure].

Definition as_str (c : ClaudeFailure) : string :=
  match c with
  | Spawn => "spawn"
  | Timeout => "timeout"
  | NonZeroExit => "nonzero_exit"
  | CliError => "is_error"
  | Unparseable => "unparseable"
  | PromptUndelivered => "prompt_undelivered"
  | WaitFailed => "wait_failed"
  | Interrupted => "interrupted"
  | PipeFailure => "pipe_failure"
  end.

Definition unreported_certainty (c : ClaudeFailure) : SpendCertainty :=
  match c with
  | Spawn => Free
  | Timeout | CliError | Unparseable | PromptUndelivered => Unmetered
  | NonZeroExit | WaitFailed | Interrupted | PipeFailure => UnknownSpend
  end.
End ClaudeFailure.

Record ClaudeSpend : Type := mkClaudeSpend {
  cost_usd : option f64;
  class : ClaudeFailure;
}.

Module ClaudeSpend.
Definition unreported (class : ClaudeFailure) : ClaudeSpend := mkClaudeSpend None class.
Definition reported (class : ClaudeFailure) (cost : f64) : ClaudeSpend :=
  mkClaudeSpend (Some cost) class.

Definition ledger_event (s : ClaudeSpend) : option (f64 * SpendCertainty * string) :=
  match cost_usd s with
  | Some cost =>
      Some (cost, Billed, ("failed_spend (" +:+ ClaudeFailure.as_str (class s) +:+ ")")%string)
  | None =>
      let certainty := ClaudeFailure.unreported_certainty (class s) in
      match class s with
      | Spawn => None
      | Timeout => Some (f64_zero, certainty, "unmetered_timeout"%string)
      | NonZeroExit | CliError | Unparseable | PromptUndelivered | WaitFailed
      | Interrupted | PipeFailure =>
          Some (f64_zero, certainty,
                ("failed_spend_unreported (" +:+ ClaudeFailure.as_str (class s) +:+ ")")%string)
      end
  end.
End ClaudeSpend.

(** ** Plugin failures *)

Inductive PluginFailure : Type :=
| Unknown | Disabled | MissingExport | Trap | MalformedOutput | Host.
#[global] Instance PluginFailure_eq_dec : EqDecision PluginFailure.
Proof. solve_decision. Defined.

Definition plugin_as_str (k : PluginFailure) : string :=
  match k with
  | Unknown => "unknown_plugin"
  | Disabled => "plugins_disabled"
  | MissingExport => "missing_export"
  | Trap => "trap"
  | MalformedOutput => "malformed_output"
  | Host => "host_error"
  end.

(** ** Causes *)

(** A [Box<dyn std::error::Error>] is what its consumers can ask it: its
    rendering, and the renderings of its [source()] chain. *)
Record DynError : Type := mkDynError { dyn_display : string; dyn_sources : list string }.

Record CauseValue : Type := mkCause { kind : string; error : DynError }.
Abbreviation Cause := (option CauseValue).

(** [sqlx::Error], as far as the classification reads it: the driver's pool
    timeout, a database error with its (extended) result code, anything else. *)
Inductive SqlxError : Type :=
| PoolTimedOut (display : string)
| Database (code : option string) (display : string)
| SqlxOther (display : string).

Inductive Error : Type :=
| Http (message : string) (retry_after : option Duration) (cause : Cause)
| Browser (message : string) (cause : Cause)
| Claude (message : string) (spend : ClaudeSpend)
| Storage (e : SqlxError)
| Profile (message : string)
| Transact (message : string)
| Parse (message : string) (cause : Cause)
| Config (message : string) (cause : Cause)
| App (message : string)
| Plugin (plugin : string) (k : PluginFailure) (message : string)
| BudgetExhausted (message : string)
| ReplayMiss (message : string)
| BadRequest (message : string)
| SourceDrift (message : string)
| Schema (message : string)
| AwaitingInput (request : Json)
| IoError (display : string)
| JsonError (display : string)
| Other (display : string).

(** ** Constructors and accessors *)

Definition http (message : string) : Error := Http message None None.
Definition http_from (message : string) (cause : CauseValue) : Error :=
  Http message None (Some cause).
Definition http_after (message : string) (retry_after : Duration) : Error :=
  Http message (Some retry_after) None.
Definition browser_from (message : string) (cause : CauseValue) : Error :=
  Browser message (Some cause).
Definition parse_from (message : string) (cause : CauseValue) : Error :=
  Parse message (Some cause).
Definition config_from (message : string) (cause : CauseValue) : Error :=
  Config message (Some cause).
Definition claude (class : ClaudeFailure) (message : string) : Error :=
  Claude message (ClaudeSpend.unreported class).
Definition claude_spent (class : ClaudeFailure) (cost : option f64) (message : string) : Error :=
  Claude message (mkClaudeSpend cost class).

Definition cause_value (e : Error) : option CauseValue :=
  match e with
  | Http _ _ cause | Browser _ cause | Parse _ cause | Config _ cause => cause
  | _ => None
  end.
Definition cause_kind (e : Error) : option string := kind <$> cause_value e.
Definition cause_chain (e : Error) : option string :=
  c ← cause_value e;
  Some (String.concat ": " (dyn_display (error c) :: dyn_sources (error c))).

Definition stated_retry_after (e : Error) : option Duration :=
  match e with Http _ retry_after _ => retry_after | _ => None end.
Definition plugin_failure (e : Error) : option PluginFailure :=
  match e with Plugin _ k _ => Some k | _ => None end.
Definition awaited_request (e : Error) : option Json :=
  match e with AwaitingInput request => Some request | _ => None end.
Definition claude_spend (e : Error) : option ClaudeSpend :=
  match e with Claude _ spend => Some spend | _ => None end.

(** [Display], as the [#[error("..")]] attributes spell it. *)
Definition sqlx_display (e : SqlxError) : string :=
  match e with
  | PoolTimedOut d | Database _ d | SqlxOther d => d
  end.
Definition error_display `{JsonRender} (e : Error) : string :=
  match e with
  | Http message _ _ => "http engine: " +:+ message
  | Browser message _ => "browser engine: " +:+ message
  | Claude message _ => "claude engine: " +:+ message
  | Storage e => "storage: " +:+ sqlx_display e
  | Profile m => "profile: " +:+ m
  | Transact m => "transact: " +:+ m
  | Parse message _ => "parse: " +:+ message
  | Config message _ => "config: " +:+ message
  | App m => "app: " +:+ m
  | Plugin plugin k message =>
      "plugin '" +:+ plugin +:+ "' (" +:+ plugin_as_str k +:+ "): " +:+ message
  | BudgetExhausted m => "budget: " +:+ m
  | ReplayMiss m => "vcr replay miss: " +:+ m
  | BadRequest m => "bad request: " +:+ m
  | SourceDrift m => "source drift: " +:+ m
  | Schema m => "schema: " +:+ m
  | AwaitingInput request => "awaiting external input: " +:+ json_render request
  | IoError d => "io: " +:+ d
  | JsonError d => "json: " +:+ d
  | Other d => d
  end%string.

(** ** The two routing predicates *)

Definition is_terminal_for_job (e : Error) : bool :=
  match e with
  | BudgetExhausted _ | Transact _ | BadRequest _ | ReplayMiss _ | SourceDrift _
  | Schema _ => true
  | _ => false
  end.

Definition is_router_failure (e : Error) : bool :=
  match e with
  | Config _ _ => true
  | Transact _ | ReplayMiss _ => true
  | Schema _ => true
  | AwaitingInput _ => false
  | Plugin _ k _ =>
      match k with Unknown | Disabled | MissingExport => true | _ => false end
  | Http _ _ _ | Browser _ _ | Claude _ _ | Profile _ | Parse _ _ | App _
  | SourceDrift _ | BudgetExhausted _ | BadRequest _ | IoError _ | JsonError _
  | Other _ => false
  | Storage _ => false
  end.

(** ** Store contention *)

Definition parse_i32 (s : string) : option Z := parse_signed 32 s.

Definition sqlite_primary_code (code : option string) : option Z :=
  c ← code; z ← parse_i32 c; Some (Z.land z 255).

Definition is_store_contention (e : Error) : bool :=
  match e with
  | Storage (PoolTimedOut _) => true
  | Storage (Database code _) =>
      match sqlite_primary_code code with
      | Some c => (c =? 5) || (c =? 6)
      | None => false
      end
  | _ => false
  end.

(** ** Lemmas *)

Lemma SpendCertainty_parse_as_str c : SpendCertainty.parse (SpendCertainty.as_str c) = Some c.
Proof. by destruct c. Qed.

Lemma SpendCertainty_as_str_parse s c :
  SpendCertainty.parse s = Some c → SpendCertainty.as_str c = s.
Proof. intros H. apply List.find_some in H as [_ H]. by apply String.eqb_eq in H. Qed.

Lemma ClaudeFailure_ALL_complete c : c ∈ ClaudeFailure.ALL.
Proof. destruct c; cbn; set_solver. Qed.

Lemma router_failure_not_contention e :
  is_store_contention e = true → is_router_failure e = false.
Proof. by destruct e as [| | |[]| | | | | |? []| | | | | | | | |]. Qed.
