(* ===== verification/Requeue.v ===== *)
(** * Requeue: when a failed job runs again

    The retry policy of [crates/core/src/storage.rs]: the attempt ladder, the
    three opinions that override it, and what a failure hands to the store. *)

From S2P Require Import Prelude Float64 Json Errors.

(** What a failure tells [Storage::fail]: a typed error, or only a sentence. *)
Inductive FailReason : Type :=
| Typed (e : Error)
| Text (s : string).

Definition reason_text `{JsonRender} (r : FailReason) : string :=
  match r with Typed e => error_display e | Text s => s end.
Definition reason_error (r : FailReason) : option Error :=
  match r with Typed e => Some e | Text _ => None end.

(** [10 * 2^attempts] seconds, capped at an hour.  [attempts] is an [i64]; the
    cast to [u32] keeps its low 32 bits. *)
Definition ladder_delay (attempts : Z) : Duration :=
  from_secs
    (Z.min (saturating_mul_u64 10 (saturating_pow_u64 2 (wrap_u32 (Z.max attempts 0)))) 3600).

Inductive Requeue : Type :=
| After (delay : Duration) (reason : string)
| Never (reason : string).

Definition REQUEUE_REASON_LADDER : string := "attempt ladder".
Definition REQUEUE_REASON_STATED : string := "server-stated wait".
Definition REQUEUE_REASON_CONTENTION : string := "store contention".
Definition REQUEUE_REASON_OURS : string := "ours-class failure (no attempt can differ)".
Definition CONTENTION_DELAY : Duration := from_secs 1.

Definition requeue_after (error : Error) (attempts : Z) (stated : option Duration) : Requeue :=
  let ladder := ladder_delay attempts in
  if is_router_failure error then Never REQUEUE_REASON_OURS
  else
    let contention_or_ladder :=
      if is_store_contention error then After CONTENTION_DELAY REQUEUE_REASON_CONTENTION
      else After ladder REQUEUE_REASON_LADDER in
    match stated with
    | Some stated =>
        if ladder <? stated then After stated REQUEUE_REASON_STATED
        else contention_or_ladder
    | None => contention_or_ladder
    end.

Definition RECOVERY_SWEEP_LIMIT : Z := 1000.
Definition RECOVERY_REASON_BOOT : string := "interrupted at boot (executor gone)".
Definition RECOVERY_REASON_LEASE : string := "lease expired (heartbeat stale)".
Definition RECOVERY_REASON_DRAIN : string := "drain deadline reached (shutdown)".

(** ** The ladder *)

Lemma wrap_u32_attempts a : a < 2 ^ 32 → wrap_u32 (Z.max a 0) = Z.max a 0.
Proof. intros H. apply wrap_u32_small. lia. Qed.

Lemma ladder_delay_bounds a : from_secs 10 ≤ ladder_delay a ≤ from_secs 3600.
Proof.
  unfold ladder_delay, saturating_mul_u64, saturating_pow_u64, from_secs, u64_max.
  assert (1 ≤ 2 ^ wrap_u32 (Z.max a 0)) as H.
  { change 1 with (2 ^ 0). apply Z.pow_le_mono_r; [lia|].
    unfold wrap_u32. apply Z.mod_pos_bound. lia. }
  lia.
Qed.

Lemma ladder_delay_closed_form a :
  0 ≤ a < 2 ^ 32 → ladder_delay a = from_secs (Z.min (10 * 2 ^ a) 3600).
Proof.
  intros Ha. unfold ladder_delay. rewrite wrap_u32_attempts, Z.max_l by lia.
  unfold saturating_mul_u64, saturating_pow_u64, u64_max. f_equal.
  pose proof (Z.pow_pos_nonneg 2 a ltac:(lia) ltac:(lia)). lia.
Qed.

Lemma ladder_delay_mono a b : a ≤ b → b < 2 ^ 32 → ladder_delay a ≤ ladder_delay b.
Proof.
  intros Hab Hb. destruct (Z.le_gt_cases 0 a) as [Ha|Ha].
  - rewrite !ladder_delay_closed_form by lia.
    pose proof (Z.pow_le_mono_r 2 a b ltac:(lia) Hab). unfold from_secs. lia.
  - assert (ladder_delay a = from_secs 10) as ->.
    { unfold ladder_delay. rewrite Z.max_r by lia. reflexivity. }
    apply ladder_delay_bounds.
Qed.

(** ** The policy, by cases *)

Lemma requeue_after_never e a s r :
  requeue_after e a s = Never r ↔ is_router_failure e = true ∧ r = REQUEUE_REASON_OURS.
Proof.
  unfold requeue_after. destruct (is_router_failure e); [naive_solver|].
  destruct s as [s|], (is_store_contention e); repeat case_if; naive_solver.
Qed.

Lemma requeue_after_delay e a s d r :
  requeue_after e a s = After d r →
  (d = ladder_delay a ∧ r = REQUEUE_REASON_LADDER ∧ is_store_contention e = false)
  ∨ (s = Some d ∧ ladder_delay a < d ∧ r = REQUEUE_REASON_STATED)
  ∨ (d = CONTENTION_DELAY ∧ is_store_contention e = true ∧ r = REQUEUE_REASON_CONTENTION).
Proof.
  unfold requeue_after. destruct (is_router_failure e); [done|].
  destruct s as [s|], (is_store_contention e) eqn:?; repeat case_if; breflect; naive_solver.
Qed.
