(* ===== verification/Jobs.v ===== *)
(** * Jobs: the row of the [jobs] table and the options that create it

    [crates/core/src/job.rs] and the request types of
    [crates/core/src/storage.rs]. *)

From S2P Require Import Prelude Float64 Json.

Inductive JobStatus : Type := Queued | Running | Waiting | Succeeded | Failed | Cancelled.
#[global] Instance JobStatus_eq_dec : EqDecision JobStatus.
Proof. solve_decision. Defined.

Module JobStatus.
Definition as_str (s : JobStatus) : string :=
  match s with
  | Queued => "queued"
  | Running => "running"
  | Waiting => "waiting"
  | Succeeded => "succeeded"
  | Failed => "failed"
  | Cancelled => "cancelled"
  end.

Definition parse (s : string) : option JobStatus :=
  if String.eqb s "queued" then Some Queued
  else if String.eqb s "running" then Some Running
  else if String.eqb s "waiting" then Some Waiting
  else if String.eqb s "succeeded" then Some Succeeded
  else if String.eqb s "failed" then Some Failed
  else if String.eqb s "cancelled" then Some Cancelled
  else None.

Definition is_terminal (s : JobStatus) : bool :=
  match s with Succeeded | Failed | Cancelled => true | _ => false end.

Definition eqb (s t : JobStatus) : bool := bool_decide (s = t).
End JobStatus.

Lemma JobStatus_parse_as_str s : JobStatus.parse (JobStatus.as_str s) = Some s.
Proof. by destruct s. Qed.

Lemma JobStatus_as_str_parse t s : JobStatus.parse t = Some s → JobStatus.as_str s = t.
Proof.
  unfold JobStatus.parse.
  repeat case_if; intros [= <-]; symmetry; by apply String.eqb_eq.
Qed.

(** ** Ids: a UUID is its 128-bit value; [Uuid::as_bytes] is big-endian. *)

Abbreviation Uuid := Z (only parsing).
Definition uuid_bytes (u : Uuid) : list Z :=
  map (λ i, Z.land (Z.shiftr u (8 * (15 - Z.of_nat i))) 255) (seq 0 16).

(** ** The row *)

Module Job.
(** Every column of the table.  The program's [Job] struct is this row read
    through [JOB_COLUMNS]; the columns it leaves out are the ones only
    statements read ([idempotency_key], [source_job_id], [principal_id], the
    workflow ids and [heartbeat_at]). *)
Record t : Type := mk {
  id : Uuid;
  app : string;
  params : Json;
  status : JobStatus;
  attempts : Z;
  max_attempts : Z;
  priority : Z;
  callback_url : option string;
  callback_secret : option string;
  budget_usd : option f64;
  idempotency_key : option string;
  schedule_id : option string;
  trigger_id : option string;
  source_job_id : option string;
  target_key : option string;
  principal_id : option string;
  workflow_run_id : option string;
  workflow_step : option string;
  root_id : option string;
  result : option Json;
  error : option string;
  requeue_reason : option string;
  cause_kind : option string;
  input_request : option Json;
  waiting_since : option timestamp;
  waiting_expires_at : option timestamp;
  resumed_input : option Json;
  executor_id : option string;
  created_at : timestamp;
  available_at : timestamp;
  started_at : option timestamp;
  finished_at : option timestamp;
  heartbeat_at : option timestamp;
}.

#[global] Instance eta_job : Eta t := λ r,
  mk (id r) (app r) (params r) (status r) (attempts r) (max_attempts r) (priority r)
    (callback_url r) (callback_secret r) (budget_usd r) (idempotency_key r)
    (schedule_id r) (trigger_id r) (source_job_id r) (target_key r) (principal_id r)
    (workflow_run_id r) (workflow_step r) (root_id r) (result r) (error r)
    (requeue_reason r) (cause_kind r) (input_request r) (waiting_since r)
    (waiting_expires_at r) (resumed_input r) (executor_id r) (created_at r)
    (available_at r) (started_at r) (finished_at r) (heartbeat_at r).
End Job.

(** ** Requests *)

Module Opts.
(** [EnqueueOptions] *)
Record t : Type := mk {
  params : Json;
  max_attempts : Z;
  delay_secs : Z;
  priority : Z;
  callback_url : option string;
  callback_secret : option string;
  budget_usd : option f64;
  idempotency_key : option string;
  schedule_id : option string;
  trigger_id : option string;
  source_job_id : option string;
  target_key : option string;
  workflow_run_id : option string;
  workflow_step : option string;
  root_id : option string;
}.

#[global] Instance eta_opts : Eta t := λ r,
  mk (params r) (max_attempts r) (delay_secs r) (priority r) (callback_url r)
    (callback_secret r) (budget_usd r) (idempotency_key r) (schedule_id r)
    (trigger_id r) (source_job_id r) (target_key r) (workflow_run_id r)
    (workflow_step r) (root_id r).

(** [EnqueueOptions::default()] *)
Definition default : t :=
  mk JNull 0 0 0 None None None None None None None None None None None.
End Opts.

Module Query.
(** [JobQuery]: the list filter; the window is half-open, [[since, until)]. *)
Record t : Type := mk {
  app : option string;
  status : option JobStatus;
  schedule_id : option string;
  trigger_id : option string;
  target_key : option string;
  since : option timestamp;
  until : option timestamp;
}.
#[global] Instance eta_query : Eta t := λ r,
  mk (app r) (status r) (schedule_id r) (trigger_id r) (target_key r) (since r) (until r).

Definition all : t := mk None None None None None None None.
Definition for_app (a : string) : t := all <| app := Some a |>.
End Query.

(** [RecoverySweep] *)
Module Sweep.
Record t : Type := mk {
  requeued : Z;
  failed : Z;
  skipped : Z;
  truncated : bool;
  verdicts : list (Uuid * string * JobStatus);
}.
#[global] Instance eta_sweep : Eta t := λ r,
  mk (requeued r) (failed r) (skipped r) (truncated r) (verdicts r).
Definition default : t := mk 0 0 0 false [].
Definition verdicted (s : t) : Z := requeued s + failed s.
End Sweep.
