(* ===== verification/JobQueue.v ===== *)
(** * JobQueue: the durable job queue of [crates/core/src/storage.rs]

    One function per method of [Storage] that reads or writes the [jobs] table.
    A method returns the new table and the value the Rust method returns.  The
    wall clock ([Utc::now()], in stored microseconds) and fresh UUIDs are
    arguments.  A method that issues several statements is composed of one
    function per statement, so that other writers can be interleaved between
    them. *)

From S2P Require Import Prelude Sql Float64 Jitter Json Errors Requeue Jobs.

(** SQLite's [julianday] on a stored timestamp, a REAL. *)
Class Sqlite := julianday : timestamp → f64.

Abbreviation table := (list Job.t).

Definition by_id (id : Uuid) (r : Job.t) : bool := Job.id r =? id.

(** [WHERE id = ? AND status = 'running' AND attempts = ?]: the fence every
    verdict of a worker carries. *)
Definition running_at (id : Uuid) (attempt : Z) (r : Job.t) : bool :=
  by_id id r && JobStatus.eqb (Job.status r) Running && (Job.attempts r =? attempt).

Definition get (id : Uuid) (t : table) : option Job.t := lookup_by Job.id id t.

Definition get_by_idempotency_key (key : string) (t : table) : option Job.t :=
  List.find (λ r, bool_decide (Job.idempotency_key r = Some key)) t.

(** ** Enqueue *)

Definition new_row (id : Uuid) (app : string) (opts : Opts.t) (principal_id : option string)
    (created : timestamp) : Job.t :=
  Job.mk id app (Opts.params opts) Queued 0 (Z.max (Opts.max_attempts opts) 1)
    (Opts.priority opts) (Opts.callback_url opts) (Opts.callback_secret opts)
    (Opts.budget_usd opts) (Opts.idempotency_key opts) (Opts.schedule_id opts)
    (Opts.trigger_id opts) (Opts.source_job_id opts) (Opts.target_key opts) principal_id
    (Opts.workflow_run_id opts) (Opts.workflow_step opts) (Opts.root_id opts)
    None None None None None None None None None
    created (created + seconds (Opts.delay_secs opts)) None None None.

(** The [INSERT]: refused by the primary key, or by the unique index on
    non-null idempotency keys. *)
Definition conflicts (r r' : Job.t) : bool :=
  (Job.id r' =? Job.id r)
  || match Job.idempotency_key r with
     | Some k => bool_decide (Job.idempotency_key r' = Some k)
     | None => false
     end.
Definition insert_job (r : Job.t) (t : table) : option table :=
  if existsb (conflicts r) t then None else Some (t ++ [r]).

Definition unique_violation : Error :=
  Storage (Database (Some "2067") "UNIQUE constraint failed").

(** The insert and its race arm: on a refused insert the winner's row is read
    back by its key. *)
Definition enqueue_insert (r : Job.t) (t : table) : table * result Error (Job.t * bool) :=
  match insert_job r t with
  | Some t' =>
      match get (Job.id r) t' with
      | Some job => (t', Ok (job, true))
      | None => (t', Err (Storage (SqlxOther "RowNotFound")))
      end
  | None =>
      match Job.idempotency_key r with
      | Some key =>
          match get_by_idempotency_key key t with
          | Some existing => (t, Ok (existing, false))
          | None => (t, Err unique_violation)
          end
      | None => (t, Err unique_violation)
      end
  end.

Definition enqueue_dedup_as (id : Uuid) (now : timestamp) (app : string) (opts : Opts.t)
    (principal_id : option string) (t : table) : table * result Error (Job.t * bool) :=
  let go := enqueue_insert (new_row id app opts principal_id now) t in
  match Opts.idempotency_key opts with
  | Some key =>
      match get_by_idempotency_key key t with
      | Some existing => (t, Ok (existing, false))
      | None => go
      end
  | None => go
  end.
Definition enqueue_dedup id now app opts t := enqueue_dedup_as id now app opts None t.
Definition enqueue id now app opts (t : table) : table * result Error Job.t :=
  let '(t', r) := enqueue_dedup id now app opts t in (t', fst <$> r).

(** ** Claim *)

(** [TARGET_EXCLUSION]: a null key is never held; a key is held while a running
    row carries it. *)
Definition target_free (t : table) (r : Job.t) : bool :=
  match Job.target_key r with
  | None => true
  | Some k =>
      negb (existsb (λ r', JobStatus.eqb (Job.status r') Running
                           && bool_decide (Job.target_key r' = Some k)) t)
  end.

Definition due (now : timestamp) (r : Job.t) : bool :=
  JobStatus.eqb (Job.status r) Queued && (Job.available_at r <=? now).

Definition claimable (now : timestamp) (blocked : list string) (t : table) (r : Job.t) : bool :=
  due now r && negb (bool_decide (Job.app r ∈ blocked)) && target_free t r.

Section claim.
Context `{Sqlite}.

(** [priority + (julianday(now) - julianday(created_at)) * 86400.0 / coeff] *)
Definition effective_priority (aging_coeff : f64) (now : timestamp) (r : Job.t) : f64 :=
  f64_add (f64_of_Z (Job.priority r))
    (SFdiv 53 1024
       (f64_mul (f64_sub (julianday now) (julianday (Job.created_at r))) (f64_of_Z 86400))
       aging_coeff).

(** [ORDER BY <expr> DESC, created_at] *)
Definition claim_before (aging_coeff : f64) (now : timestamp) (r1 r2 : Job.t) : bool :=
  if f64_gt aging_coeff f64_zero then
    let e1 := effective_priority aging_coeff now r1 in
    let e2 := effective_priority aging_coeff now r2 in
    if real_le e1 e2 then
      real_le e2 e1 && (Job.created_at r1 <=? Job.created_at r2)
    else true
  else
    (Job.priority r2 <? Job.priority r1)
    || ((Job.priority r1 =? Job.priority r2) && (Job.created_at r1 <=? Job.created_at r2)).

Definition claim_row (now : timestamp) (r : Job.t) : Job.t :=
  r <| Job.status := Running |> <| Job.attempts ::= Z.succ |>
    <| Job.started_at := Some now |> <| Job.heartbeat_at := Some now |>.

(** [UPDATE .. WHERE id = (SELECT id .. LIMIT 1) RETURNING ..], one statement. *)
Definition claim_by (pick : table → list Job.t) (stamp : Job.t → Job.t) (t : table)
    : table * option Job.t :=
  match head (pick t) with
  | None => (t, None)
  | Some r => (update_where (by_id (Job.id r)) stamp t, Some (stamp r))
  end.

Definition claim_next (now : timestamp) (blocked : list string) (aging_coeff : f64)
    (t : table) : table * option Job.t :=
  claim_by (λ t, order_by (claim_before aging_coeff now)
                   (select_where (claimable now blocked t) t))
    (claim_row now) t.

Definition claim_next_for_executor (now : timestamp) (executor_id : string)
    (eligible blocked : list string) (aging_coeff : f64) (t : table)
    : table * option Job.t :=
  match eligible with
  | [] => (t, None)
  | _ =>
      claim_by (λ t, order_by (claim_before aging_coeff now)
                       (select_where
                          (λ r, claimable now blocked t r
                                && bool_decide (Job.app r ∈ eligible)) t))
        (λ r, (claim_row now r) <| Job.executor_id := Some executor_id |>) t
  end.
End claim.

(** ** The executor plane *)

Definition job_claimed_by (id : Uuid) (attempt : Z) (executor_id : string) (t : table) : bool :=
  existsb (λ r, running_at id attempt r
                && bool_decide (Job.executor_id r = Some executor_id)) t.

(** A guarded [UPDATE] and whether it landed ([rows_affected() > 0]). *)
Definition guarded (p : Job.t → bool) (f : Job.t → Job.t) (t : table) : table * bool :=
  (update_where p f t, 0 <? rows_affected p t).

Definition heartbeat (now : timestamp) (id : Uuid) (attempt : Z) (t : table) : table * bool :=
  guarded (running_at id attempt) (λ r, r <| Job.heartbeat_at := Some now |>) t.

Definition heartbeat_from (now : timestamp) (id : Uuid) (attempt : Z) (executor_id : string)
    (t : table) : table * bool :=
  guarded (λ r, running_at id attempt r
                && bool_decide (Job.executor_id r = Some executor_id))
    (λ r, r <| Job.heartbeat_at := Some now |>) t.

(** [SELECT app, COUNT( * ) .. GROUP BY app] over the rows of [p]. *)
Definition group_count (p : Job.t → bool) (key : Job.t → string) (t : table)
    : list (string * Z) :=
  foldr (λ r m, map_insert (key r) (coalesce (map_get (key r) m) 0 + 1) m) []
    (select_where p t).

Definition executor_running_counts (t : table) : list (string * Z) :=
  group_count (λ r, JobStatus.eqb (Job.status r) Running && is_some (Job.executor_id r))
    Job.app t.

(** ** Verdicts of a running attempt *)

Definition complete (now : timestamp) (id : Uuid) (attempt : Z) (result : Json) (t : table)
    : table * bool :=
  guarded (running_at id attempt)
    (λ r, r <| Job.status := Succeeded |> <| Job.result := Some result |>
            <| Job.error := None |> <| Job.finished_at := Some now |>) t.

Definition fail_permanently_because (now : timestamp) (id : Uuid) (attempt : Z)
    (error : string) (why cause_kind : option string) (t : table) : table * bool :=
  guarded (running_at id attempt)
    (λ r, r <| Job.status := Failed |> <| Job.error := Some error |>
            <| Job.finished_at := Some now |>
            <| Job.requeue_reason ::= coalesce_opt why |>
            <| Job.cause_kind ::= coalesce_opt cause_kind |>) t.
Definition fail_permanently now id attempt error (t : table) : table * bool :=
  fail_permanently_because now id attempt error None None t.

(** The seed of the jitter: the id's bytes folded over the attempt number. *)
Definition jitter_seed (id : Uuid) (attempts : Z) : Z :=
  foldl (λ a b, wrap_u64 (wrap_u64 (a * 31) + b)) (Z.max attempts 0) (uuid_bytes id).

(** What [fail] decides from the row it read, before its one write. *)
Inductive FailPlan : Type :=
| PlanRequeue (error : string) (delay_secs : Z) (why : string) (cause_kind : option string)
| PlanPermanent (error : string) (why cause_kind : option string).

Definition fail_plan `{JsonRender} (job : Job.t) (attempt : Z) (reason : FailReason)
    : option FailPlan :=
  if negb (JobStatus.eqb (Job.status job) Running) || negb (Job.attempts job =? attempt) then
    None
  else
    let error := reason_text reason in
    let cause := reason_error reason ≫= Errors.cause_kind in
    let verdict :=
      match reason_error reason with
      | Some e => requeue_after e (Job.attempts job) (stated_retry_after e)
      | None => After (ladder_delay (Job.attempts job)) REQUEUE_REASON_LADDER
      end in
    match verdict with
    | Never why => Some (PlanPermanent error (Some why) cause)
    | After delay why =>
        if Job.attempts job <? Job.max_attempts job then
          let backoff_secs := as_secs delay in
          let jitter := jitter_secs (jitter_seed (Job.id job) (Job.attempts job)) backoff_secs in
          Some (PlanRequeue error (backoff_secs + jitter) why cause)
        else Some (PlanPermanent error None None)
    end.

Definition requeue_row (now : timestamp) (error : string) (delay_secs : Z) (why : string)
    (cause : option string) (r : Job.t) : Job.t :=
  r <| Job.status := Queued |> <| Job.error := Some error |>
    <| Job.available_at := now + seconds delay_secs |>
    <| Job.requeue_reason := Some why |> <| Job.cause_kind := cause |>.

(** The one write of [fail], again behind the fence. *)
Definition fail_apply (now : timestamp) (id : Uuid) (attempt : Z) (plan : FailPlan) (t : table)
    : table * option JobStatus :=
  match plan with
  | PlanPermanent error why cause =>
      let '(t', ok) := fail_permanently_because now id attempt error why cause t in
      (t', if ok then Some Failed else None)
  | PlanRequeue error delay_secs why cause =>
      let '(t', ok) := guarded (running_at id attempt)
                         (requeue_row now error delay_secs why cause) t in
      (t', if ok then Some Queued else None)
  end.

Definition fail `{JsonRender} (now : timestamp) (id : Uuid) (attempt : Z) (reason : FailReason)
    (t : table) : table * option JobStatus :=
  match get id t with
  | None => (t, None)
  | Some job =>
      match fail_plan job attempt reason with
      | None => (t, None)
      | Some plan => fail_apply now id attempt plan t
      end
  end.

(** ** Control doors *)

Definition cancel (now : timestamp) (id : Uuid) (t : table) : table * option string :=
  let p r := by_id id r && (JobStatus.eqb (Job.status r) Queued
                            || JobStatus.eqb (Job.status r) Waiting) in
  let f r := r <| Job.status := Cancelled |> <| Job.finished_at := Some now |> in
  (update_where p f t, Job.app <$> head (returning p f t)).

Definition cancel_running (now : timestamp) (id : Uuid) (attempt : Z) (t : table)
    : table * bool :=
  guarded (running_at id attempt)
    (λ r, r <| Job.status := Cancelled |> <| Job.finished_at := Some now |>) t.

(** A guarded update followed by a read of the refreshed row. *)
Definition guarded_get (id : Uuid) (p : Job.t → bool) (f : Job.t → Job.t) (t : table)
    : table * option Job.t :=
  if rows_affected p t =? 0 then (update_where p f t, None)
  else let t' := update_where p f t in (t', get id t').

(** [status = 'queued', error = NULL, finished_at = NULL, available_at = now,
    max_attempts = MAX(max_attempts, attempts + 1)] *)
Definition rearm (now : timestamp) (r : Job.t) : Job.t :=
  r <| Job.status := Queued |> <| Job.error := None |> <| Job.finished_at := None |>
    <| Job.available_at := now |>
    <| Job.max_attempts := Z.max (Job.max_attempts r) (Job.attempts r + 1) |>.

Definition reset (now : timestamp) (id : Uuid) (t : table) : table * option Job.t :=
  guarded_get id (λ r, by_id id r && JobStatus.eqb (Job.status r) Running) (rearm now) t.

Definition await_input (now : timestamp) (id : Uuid) (attempt : Z) (request : Json)
    (expires_at : option timestamp) (t : table) : table * bool :=
  guarded (running_at id attempt)
    (λ r, r <| Job.status := Waiting |> <| Job.input_request := Some request |>
            <| Job.waiting_since := Some now |> <| Job.waiting_expires_at := expires_at |>
            <| Job.resumed_input := None |> <| Job.error := None |>) t.

Definition resume (now : timestamp) (id : Uuid) (input : Json) (t : table)
    : table * option Job.t :=
  guarded_get id (λ r, by_id id r && JobStatus.eqb (Job.status r) Waiting)
    (λ r, (rearm now r) <| Job.resumed_input := Some input |>
                      <| Job.waiting_expires_at := None |>) t.

(** [WHERE id IN (SELECT id .. ORDER BY .. LIMIT ..)] *)
Definition id_in (sel : list Job.t) (r : Job.t) : bool :=
  bool_decide (Job.id r ∈ map Job.id sel).

Definition expired (now : timestamp) (r : Job.t) : bool :=
  JobStatus.eqb (Job.status r) Waiting
  && match Job.waiting_expires_at r with Some e => e <=? now | None => false end.

Definition expire_waiting (now : timestamp) (reason : string) (cap : Z) (t : table)
    : table * list (Uuid * string) :=
  let sel := sql_limit (Z.max cap 0)
               (order_by (λ a b, coalesce (Job.waiting_expires_at a) 0
                                 <=? coalesce (Job.waiting_expires_at b) 0)
                  (select_where (expired now) t)) in
  let f r := r <| Job.status := Failed |> <| Job.error := Some reason |>
               <| Job.finished_at := Some now |> in
  (update_where (id_in sel) f t,
   map (λ r, (Job.id r, Job.app r)) (returning (id_in sel) f t)).

Definition retry (now : timestamp) (id : Uuid) (t : table) : table * option Job.t :=
  guarded_get id (λ r, by_id id r && (JobStatus.eqb (Job.status r) Failed
                                      || JobStatus.eqb (Job.status r) Cancelled))
    (rearm now) t.

Definition retry_bulk (now : timestamp) (status : JobStatus) (app : option string) (cap : Z)
    (t : table) : table * list (Uuid * string) :=
  let sel := sql_limit (Z.max cap 0)
               (order_by (λ a b, Job.created_at a <=? Job.created_at b)
                  (select_where (λ r, JobStatus.eqb (Job.status r) status
                                      && match app with
                                         | Some a => String.eqb (Job.app r) a
                                         | None => true
                                         end) t)) in
  (update_where (id_in sel) (rearm now) t,
   map (λ r, (Job.id r, Job.app r)) (returning (id_in sel) (rearm now) t)).

(** ** Reads *)

Definition opt_match {A} `{EqDecision A} (o : option A) (x : option A) : bool :=
  match o with Some a => bool_decide (x = Some a) | None => true end.

(** [push_job_filters]: one conjunct per predicate supplied. *)
Definition job_filters (q : Query.t) (r : Job.t) : bool :=
  opt_match (Query.app q) (Some (Job.app r))
  && opt_match (Query.status q) (Some (Job.status r))
  && opt_match (Query.schedule_id q) (Job.schedule_id r)
  && opt_match (Query.trigger_id q) (Job.trigger_id r)
  && opt_match (Query.target_key q) (Job.target_key r)
  && match Query.since q with Some s => s <=? Job.created_at r | None => true end
  && match Query.until q with Some u => Job.created_at r <? u | None => true end.

(** The keyset clause of [job_query_builder]. *)
Definition after_cursor (after : option (timestamp * Uuid)) (r : Job.t) : bool :=
  match after with
  | None => true
  | Some (ts, id) =>
      (Job.created_at r <? ts) || ((Job.created_at r =? ts) && (Job.id r <? id))
  end.

(** [ORDER BY created_at DESC, id DESC] *)
Definition newest_first (a b : Job.t) : bool :=
  (Job.created_at b <? Job.created_at a)
  || ((Job.created_at a =? Job.created_at b) && (Job.id b <=? Job.id a)).
(** [ORDER BY created_at DESC] *)
Definition newest_created (a b : Job.t) : bool := Job.created_at b <=? Job.created_at a.

Definition job_query_builder (q : Query.t) (after : option (timestamp * Uuid))
    (order_and_limit : option Z) (t : table) : list Job.t :=
  let rows := select_where (λ r, job_filters q r && after_cursor after r) t in
  match order_and_limit with
  | None => rows
  | Some limit =>
      sql_limit limit
        (order_by (if is_some after then newest_first else newest_created) rows)
  end.

Definition list_jobs (q : Query.t) (limit : Z) (t : table) : list Job.t :=
  job_query_builder q None (Some limit) t.
Definition list_page (q : Query.t) (after : option (timestamp * Uuid)) (limit : Z) (t : table)
    : list Job.t :=
  job_query_builder q after (Some limit) t.

Definition status_counts_filtered (q : Query.t) (t : table) : list (string * Z) :=
  group_count (λ _, true) (λ r, JobStatus.as_str (Job.status r))
    (job_query_builder q None None t).
Definition status_counts (t : table) : list (string * Z) :=
  group_count (λ _, true) (λ r, JobStatus.as_str (Job.status r)) t.
Definition failure_counts (t : table) : list (string * Z) :=
  group_count (λ r, JobStatus.eqb (Job.status r) Failed) Job.app t.

Definition held_by_target (now : timestamp) (t : table) : Z :=
  rows_affected (λ r, due now r && negb (target_free t r)) t.

Definition latest_job_for_schedule (schedule_id : string) (t : table)
    : option (Uuid * JobStatus) :=
  (λ r, (Job.id r, Job.status r)) <$>
    head (order_by newest_first
            (select_where (λ r, bool_decide (Job.schedule_id r = Some schedule_id)) t)).

(** ** Recovery *)

(** [started_at ASC, id ASC]; a null start sorts first. *)
Definition opt_ts_le (a b : option timestamp) : bool :=
  match a, b with
  | None, _ => true
  | Some _, None => false
  | Some x, Some y => x <=? y
  end.
Definition started_order (a b : Job.t) : bool :=
  if bool_decide (Job.started_at a = Job.started_at b) then Job.id a <=? Job.id b
  else opt_ts_le (Job.started_at a) (Job.started_at b).

(** [COALESCE(heartbeat_at, started_at, created_at)] *)
Definition lease_stamp (r : Job.t) : timestamp :=
  coalesce (coalesce_opt (Job.heartbeat_at r) (Job.started_at r)) (Job.created_at r).
Definition lease_order (a b : Job.t) : bool :=
  (lease_stamp a <? lease_stamp b)
  || ((lease_stamp a =? lease_stamp b) && (Job.id a <=? Job.id b)).

Section recovery.
Context `{JsonRender}.

(** The wall clock of a sweep: the time of its [i]-th verdict, and whether the
    sweep's time budget is spent before it. *)
Variable clock : nat → timestamp.
Variable over_budget : nat → bool.

(** [issue_recovery_verdicts]: every scanned row goes through [fail]. *)
Fixpoint issue_recovery_verdicts (i : nat) (rows : list Job.t) (reason : string)
    (sweep : Sweep.t) (t : table) : table * Sweep.t :=
  match rows with
  | [] => (t, sweep)
  | job :: rows =>
      if over_budget i then (t, sweep <| Sweep.truncated := true |>)
      else
        let '(t', verdict) := fail (clock i) (Job.id job) (Job.attempts job) (Text reason) t in
        let sweep' :=
          match verdict with
          | Some status =>
              (match status with
               | Failed => sweep <| Sweep.failed ::= Z.succ |>
               | _ => sweep <| Sweep.requeued ::= Z.succ |>
               end) <| Sweep.verdicts ::= λ v, v ++ [(Job.id job, Job.app job, status)] |>
          | None => sweep <| Sweep.skipped ::= Z.succ |>
          end in
        issue_recovery_verdicts (S i) rows reason sweep' t'
  end.

Definition recover_stuck_with_reason (reason : string) (t : table) : table * Sweep.t :=
  let rows := sql_limit RECOVERY_SWEEP_LIMIT
                (order_by started_order
                   (select_where (λ r, JobStatus.eqb (Job.status r) Running) t)) in
  let truncated := Z.of_nat (length rows) =? RECOVERY_SWEEP_LIMIT in
  let '(t', sweep) := issue_recovery_verdicts 0 rows reason Sweep.default t in
  (t', sweep <| Sweep.truncated ::= λ b, b || truncated |>).

Definition recover_stuck (t : table) : table * Sweep.t :=
  recover_stuck_with_reason RECOVERY_REASON_BOOT t.

Definition reap_stale (now : timestamp) (stale_secs : Z) (t : table)
    : table * list (Uuid * string * JobStatus) :=
  let cutoff := now - seconds stale_secs in
  let rows := sql_limit RECOVERY_SWEEP_LIMIT
                (order_by lease_order
                   (select_where (λ r, JobStatus.eqb (Job.status r) Running
                                       && (lease_stamp r <? cutoff)) t)) in
  let '(t', sweep) := issue_recovery_verdicts 0 rows RECOVERY_REASON_LEASE Sweep.default t in
  (t', Sweep.verdicts sweep).
End recovery.

(** ** The walk of the keyset pages

    [keyset_cursor] of [crates/server/src/routes/error.rs]: a full page answers the
    cursor of its last item, a short one none. *)
Definition keyset_cursor {A B} (items : list A) (limit : Z) (encode : A → B) : option B :=
  if Z.of_nat (length items) =? limit then encode <$> last items else None.

(** What a client of [GET /jobs] reads that follows [next_cursor] to the end. *)
Fixpoint walk_jobs (fuel : nat) (q : Query.t) (after : option (timestamp * Uuid)) (limit : Z)
    (t : table) : list Job.t :=
  match fuel with
  | O => []
  | S fuel =>
      let items := list_page q after limit t in
      items ++ match keyset_cursor items limit (λ j, (Job.created_at j, Job.id j)) with
               | Some cursor => walk_jobs fuel q (Some cursor) limit t
               | None => []
               end
  end.
