(* ===== verification/QueueInvariants.v ===== *)
(** * QueueInvariants: the job queue as a concurrent state machine

    Any number of workers, sweeps, executors and API doors issue the statements
    of [JobQueue] in any order.  [op] lists those statements; [exec] runs one.
    [Storage::fail] reads the row and writes it in two statements, so its decision
    is a pending plan that any other operation may overtake.  [reachable] closes
    the empty store under every interleaving, and [inv] is the invariant from
    which the queue's guarantees follow. *)

From S2P Require Import Prelude Sql Float64 Json Errors Requeue Jobs JobQueue.

#[global] Instance FailPlan_eq_dec : EqDecision FailPlan.
Proof. solve_decision. Defined.

Record sys : Type := mkSys { jobs : table; pending : list (Uuid * Z * FailPlan) }.
#[global] Instance eta_sys : Eta sys := λ s, mkSys (jobs s) (pending s).
Definition empty_store : sys := mkSys [] [].

Inductive op : Type :=
| OpEnqueue (id : Uuid) (now : timestamp) (app : string) (opts : Opts.t)
    (principal : option string)
| OpClaim (now : timestamp) (blocked : list string) (aging : f64)
| OpClaimExecutor (now : timestamp) (executor : string) (eligible blocked : list string)
    (aging : f64)
| OpHeartbeat (now : timestamp) (id : Uuid) (attempt : Z)
| OpHeartbeatFrom (now : timestamp) (id : Uuid) (attempt : Z) (executor : string)
| OpComplete (now : timestamp) (id : Uuid) (attempt : Z) (result : Json)
| OpFailPermanently (now : timestamp) (id : Uuid) (attempt : Z) (error : string)
| OpFailRead (id : Uuid) (attempt : Z) (reason : FailReason)
| OpFailWrite (now : timestamp) (i : nat)
| OpCancel (now : timestamp) (id : Uuid)
| OpCancelRunning (now : timestamp) (id : Uuid) (attempt : Z)
| OpReset (now : timestamp) (id : Uuid)
| OpAwaitInput (now : timestamp) (id : Uuid) (attempt : Z) (request : Json)
    (expires_at : option timestamp)
| OpResume (now : timestamp) (id : Uuid) (input : Json)
| OpExpireWaiting (now : timestamp) (reason : string) (cap : Z)
| OpRetry (now : timestamp) (id : Uuid)
| OpRetryBulk (now : timestamp) (cancelled : bool) (app : option string) (cap : Z).

Section machine.
Context `{JsonRender, Sqlite}.

Definition exec (o : op) (s : sys) : sys :=
  match o with
  | OpEnqueue id now app opts principal =>
      s <| jobs ::= λ t, (enqueue_dedup_as id now app opts principal t).1 |>
  | OpClaim now blocked aging => s <| jobs ::= λ t, (claim_next now blocked aging t).1 |>
  | OpClaimExecutor now ex eligible blocked aging =>
      s <| jobs ::= λ t, (claim_next_for_executor now ex eligible blocked aging t).1 |>
  | OpHeartbeat now id attempt => s <| jobs ::= λ t, (heartbeat now id attempt t).1 |>
  | OpHeartbeatFrom now id attempt ex =>
      s <| jobs ::= λ t, (heartbeat_from now id attempt ex t).1 |>
  | OpComplete now id attempt r => s <| jobs ::= λ t, (complete now id attempt r t).1 |>
  | OpFailPermanently now id attempt e =>
      s <| jobs ::= λ t, (fail_permanently now id attempt e t).1 |>
  | OpFailRead id attempt reason =>
      match get id (jobs s) with
      | Some job =>
          match fail_plan job attempt reason with
          | Some plan => s <| pending ::= λ l, l ++ [(id, attempt, plan)] |>
          | None => s
          end
      | None => s
      end
  | OpFailWrite now i =>
      match pending s !! i with
      | Some (id, attempt, plan) =>
          s <| jobs ::= λ t, (fail_apply now id attempt plan t).1 |>
            <| pending ::= λ l, delete i l |>
      | None => s
      end
  | OpCancel now id => s <| jobs ::= λ t, (cancel now id t).1 |>
  | OpCancelRunning now id attempt =>
      s <| jobs ::= λ t, (cancel_running now id attempt t).1 |>
  | OpReset now id => s <| jobs ::= λ t, (reset now id t).1 |>
  | OpAwaitInput now id attempt req ex =>
      s <| jobs ::= λ t, (await_input now id attempt req ex t).1 |>
  | OpResume now id input => s <| jobs ::= λ t, (resume now id input t).1 |>
  | OpExpireWaiting now reason cap =>
      s <| jobs ::= λ t, (expire_waiting now reason cap t).1 |>
  | OpRetry now id => s <| jobs ::= λ t, (retry now id t).1 |>
  | OpRetryBulk now cancelled app cap =>
      s <| jobs ::= λ t,
             (retry_bulk now (if cancelled then Cancelled else Failed) app cap t).1 |>
  end.

Definition run (ops : list op) (s : sys) : sys := foldl (λ s o, exec o s) s ops.

Inductive reachable : sys → Prop :=
| reach_init : reachable empty_store
| reach_step o s : reachable s → reachable (exec o s).

Lemma reachable_run ops s : reachable s → reachable (run ops s).
Proof.
  revert s. induction ops as [|o ops IH]; intros s Hs; [done|].
  apply IH. by constructor.
Qed.
End machine.

(** ** The abstract lifecycle of one job

    The state of a job is its status, its attempt number and its attempt budget. *)

Abbreviation shape := (JobStatus * Z * Z)%type (only parsing).
Definition shape_of (r : Job.t) : shape := (Job.status r, Job.attempts r, Job.max_attempts r).

Inductive lifecycle : shape → shape → Prop :=
| lc_claim a m : lifecycle (Queued, a, m) (Running, a + 1, m)
| lc_succeed a m : lifecycle (Running, a, m) (Succeeded, a, m)
| lc_fail a m : lifecycle (Running, a, m) (Failed, a, m)
| lc_requeue a m : a < m → lifecycle (Running, a, m) (Queued, a, m)
| lc_park a m : lifecycle (Running, a, m) (Waiting, a, m)
| lc_expire a m : lifecycle (Waiting, a, m) (Failed, a, m)
| lc_cancel st a m : st = Queued ∨ st = Waiting ∨ st = Running →
    lifecycle (st, a, m) (Cancelled, a, m)
| lc_rearm st a m : st = Running ∨ st = Waiting ∨ st = Failed ∨ st = Cancelled →
    lifecycle (st, a, m) (Queued, a, Z.max m (a + 1)).

(** The columns no operation after the insert ever writes. *)
Definition identity (r : Job.t) :=
  (Job.id r, Job.app r, Job.params r, Job.priority r, Job.budget_usd r,
   Job.idempotency_key r, Job.schedule_id r, Job.trigger_id r, Job.target_key r,
   Job.workflow_run_id r, Job.workflow_step r, Job.created_at r).

Definition evolves (r r' : Job.t) : Prop :=
  identity r = identity r' ∧ (shape_of r = shape_of r' ∨ lifecycle (shape_of r) (shape_of r')).

Definition fresh_row (r : Job.t) : Prop :=
  Job.status r = Queued ∧ Job.attempts r = 0 ∧ 1 ≤ Job.max_attempts r.

(** A table evolves by moving rows along the lifecycle and appending fresh ones. *)
Definition table_evolves (t t' : table) : Prop :=
  ∃ moved fresh, t' = moved ++ fresh ∧ Forall2 evolves t moved ∧ Forall fresh_row fresh.

Lemma evolves_refl r : evolves r r.
Proof. split; auto. Qed.
#[export] Hint Resolve evolves_refl : core.

(** ** Row invariants *)

Definition row_ok (r : Job.t) : Prop :=
  0 ≤ Job.attempts r ≤ Job.max_attempts r ∧
  (Job.status r = Queued → Job.attempts r < Job.max_attempts r) ∧
  (Job.status r = Running → 1 ≤ Job.attempts r).

Lemma lifecycle_row_ok r r' : evolves r r' → row_ok r → row_ok r'.
Proof.
  intros [_ [He|Hl]]; unfold row_ok, shape_of in *.
  - injection He as -> -> ->. done.
  - remember (Job.status r, Job.attempts r, Job.max_attempts r) as x.
    remember (Job.status r', Job.attempts r', Job.max_attempts r') as y.
    destruct Hl; injection Heqx as ???; injection Heqy as ???; subst;
      intros (? & Hq & Hr); repeat split; intros; try congruence; try lia;
      try (specialize (Hq ltac:(congruence)); lia).
Qed.

Lemma evolves_attempts r r' : evolves r r' → Job.attempts r ≤ Job.attempts r'.
Proof.
  intros [_ [He|Hl]]; unfold shape_of in *; [injection He; lia|].
  inversion Hl; subst; lia.
Qed.

(** A row that is running at the same attempt before and after is untouched in
    its budget. *)
Lemma evolves_running_max r r' :
  evolves r r' → Job.status r' = Running → Job.attempts r' = Job.attempts r →
  Job.status r = Running ∧ Job.max_attempts r' = Job.max_attempts r.
Proof.
  intros [_ [He|Hl]] Hr Ha; unfold shape_of in *; [injection He; split; congruence|].
  inversion Hl; subst; try congruence; lia.
Qed.

(** ** The store invariant *)

Definition keys_unique (t : table) : Prop :=
  ∀ r1 r2 k, r1 ∈ t → r2 ∈ t → Job.idempotency_key r1 = Some k →
    Job.idempotency_key r2 = Some k → Job.id r1 = Job.id r2.

(** Two running rows never carry the same target. *)
Definition targets_exclusive (t : table) : Prop :=
  ∀ r1 r2 k, r1 ∈ t → r2 ∈ t → Job.status r1 = Running → Job.status r2 = Running →
    Job.target_key r1 = Some k → Job.target_key r2 = Some k → Job.id r1 = Job.id r2.

Definition is_requeue (p : FailPlan) : bool :=
  match p with PlanRequeue _ _ _ _ => true | PlanPermanent _ _ _ => false end.

(** A pending decision: its row exists, the row's attempt never falls behind the
    one the decision was taken at, and while the row still runs that attempt a
    requeue decision leaves it inside its budget. *)
Definition plan_ok (t : table) (d : Uuid * Z * FailPlan) : Prop :=
  let '(id, attempt, plan) := d in
  ∃ r, r ∈ t ∧ Job.id r = id ∧ attempt ≤ Job.attempts r ∧
    (Job.status r = Running → Job.attempts r = attempt → is_requeue plan = true →
     attempt < Job.max_attempts r).

Record inv (s : sys) : Prop := {
  inv_ids : NoDup (map Job.id (jobs s));
  inv_keys : keys_unique (jobs s);
  inv_rows : ∀ r, r ∈ jobs s → row_ok r;
  inv_targets : targets_exclusive (jobs s);
  inv_plans : ∀ d, d ∈ pending s → plan_ok (jobs s) d;
}.

(** *** Updates that move rows along the lifecycle *)

(** An update starts no second run of a target: a row it sets running was
    already running, or is the only row it touches and its target was free. *)
Definition starts_safely (p : Job.t → bool) (f : Job.t → Job.t) (t : table) : Prop :=
  (∀ r, r ∈ t → p r = true → Job.status (f r) = Running → Job.status r = Running) ∨
  (∃ id, ∀ r, r ∈ t → p r = true → Job.id r = id ∧ target_free t r = true).

Lemma target_free_spec t r :
  target_free t r = true ↔
  ∀ r' k, r' ∈ t → Job.status r' = Running → Job.target_key r = Some k →
    Job.target_key r' ≠ Some k.
Proof.
  unfold target_free. destruct (Job.target_key r) as [k0|]; [|naive_solver].
  rewrite negb_true_iff, <- not_true_iff_false, existsb_exists. split.
  - intros Hn r' k Hr' Hrun [= <-] Hk. apply Hn. exists r'.
    rewrite <- list_elem_of_In. split; [done|]. unfold JobStatus.eqb. by breflect.
  - intros Hf (r' & Hr' & Ht). apply list_elem_of_In in Hr'.
    unfold JobStatus.eqb in Ht. breflect_in Ht. destruct Ht. by apply (Hf r' k0).
Qed.

Section updates.
Variables (p : Job.t → bool) (f : Job.t → Job.t) (t : table).
Hypothesis moves : ∀ r, r ∈ t → p r = true → evolves r (f r).

Let step_row (r : Job.t) : Job.t := if p r then f r else r.

Lemma step_row_evolves r : r ∈ t → evolves r (step_row r).
Proof. unfold step_row. intros Hr. destruct (p r) eqn:E; auto. Qed.

Lemma step_row_identity r : r ∈ t → identity (step_row r) = identity r.
Proof. intros Hr. symmetry. apply (step_row_evolves r Hr). Qed.

Lemma update_evolves : table_evolves t (update_where p f t).
Proof.
  exists (update_where p f t), []. rewrite app_nil_r. split_and!; [done| |by constructor].
  unfold update_where. rewrite <- (List.map_id t) at 1.
  rewrite Forall2_fmap. apply Forall_Forall2_diag, Forall_forall.
  intros r Hr. by apply step_row_evolves.
Qed.

Lemma update_ids : map Job.id (update_where p f t) = map Job.id t.
Proof.
  unfold update_where. rewrite List.map_map. apply List.map_ext_in. intros r Hr.
  apply list_elem_of_In in Hr. pose proof (step_row_identity r Hr) as Hi.
  unfold identity in Hi. by injection Hi.
Qed.

Lemma update_keys_unique : keys_unique t → keys_unique (update_where p f t).
Proof.
  intros Hu r1 r2 k H1 H2 Hk1 Hk2.
  apply elem_of_update in H1 as (a & Ha & ->), H2 as (b & Hb & ->).
  pose proof (step_row_identity a Ha) as Ia. pose proof (step_row_identity b Hb) as Ib.
  unfold identity, step_row in *. injection Ia as Ia1 ? ? ? ? Ia6. injection Ib as Ib1 ? ? ? ? Ib6.
  rewrite Ia1, Ib1. apply (Hu a b k); congruence.
Qed.

Lemma update_rows_ok :
  (∀ r, r ∈ t → row_ok r) → ∀ r, r ∈ update_where p f t → row_ok r.
Proof.
  intros Hok r Hr. apply elem_of_update in Hr as (a & Ha & ->).
  eapply lifecycle_row_ok; [by apply (step_row_evolves a)|]. by apply Hok.
Qed.

Lemma update_plan_ok d : plan_ok t d → plan_ok (update_where p f t) d.
Proof.
  destruct d as [[id attempt] plan]. intros (r & Hr & Hid & Hle & Hb).
  pose proof (step_row_evolves r Hr) as He.
  exists (step_row r). split_and!.
  - apply elem_of_update. by exists r.
  - pose proof (step_row_identity r Hr) as Hi. unfold identity in Hi. injection Hi. congruence.
  - pose proof (evolves_attempts _ _ He). lia.
  - intros Hrun Ha Hq. pose proof (evolves_attempts _ _ He).
    destruct (evolves_running_max _ _ He Hrun ltac:(lia)) as [Hrun0 ->].
    apply Hb; [done|lia|done].
Qed.

Lemma update_targets :
  starts_safely p f t → targets_exclusive t → targets_exclusive (update_where p f t).
Proof.
  intros Hs Hx r1 r2 k H1 H2 R1 R2 K1 K2.
  apply elem_of_update in H1 as (a & Ha & ->), H2 as (b & Hb & ->).
  pose proof (step_row_identity a Ha) as Ia. pose proof (step_row_identity b Hb) as Ib.
  unfold identity, step_row in *.
  injection Ia as Ia1 ? ? ? ? ? ? ? Ia9. injection Ib as Ib1 ? ? ? ? ? ? ? Ib9.
  rewrite Ia1, Ib1. rewrite Ia9 in K1. rewrite Ib9 in K2.
  destruct Hs as [Hs|[id0 Hs]].
  - apply (Hx a b k); try done; [destruct (p a) eqn:E|destruct (p b) eqn:E]; eauto.
  - destruct (p a) eqn:Ea, (p b) eqn:Eb.
    + destruct (Hs a Ha Ea), (Hs b Hb Eb). congruence.
    + destruct (Hs a Ha Ea) as [_ Hf]. rewrite target_free_spec in Hf.
      exfalso. by apply (Hf b k).
    + destruct (Hs b Hb Eb) as [_ Hf]. rewrite target_free_spec in Hf.
      exfalso. by apply (Hf a k).
    + by apply (Hx a b k).
Qed.
End updates.

Lemma inv_update p f s :
  inv s → (∀ r, r ∈ jobs s → p r = true → evolves r (f r)) → starts_safely p f (jobs s) →
  inv (s <| jobs ::= update_where p f |>).
Proof.
  intros [I1 I2 I3 I4 I5] Hm Hs. constructor; cbn.
  - by rewrite update_ids.
  - by apply update_keys_unique.
  - by apply update_rows_ok.
  - by apply update_targets.
  - intros d Hd. apply update_plan_ok; auto.
Qed.

(** ** Every operation is one statement

    A statement leaves the table alone, moves some rows along the lifecycle, or
    appends one fresh row that violates neither unique index. *)

Inductive stmt (t : table) : table → Prop :=
| stmt_same : stmt t t
| stmt_update p f :
    (∀ r, r ∈ t → p r = true → evolves r (f r)) → starts_safely p f t →
    stmt t (update_where p f t)
| stmt_insert r :
    fresh_row r → existsb (conflicts r) t = false → stmt t (t ++ [r]).

Lemma stmt_table_evolves t t' : stmt t t' → table_evolves t t'.
Proof.
  destruct 1 as [|p f Hm _|r Hr _].
  - exists t, []. rewrite app_nil_r. split_and!; [done| |constructor].
    apply Forall_Forall2_diag, Forall_forall. auto.
  - by apply update_evolves.
  - exists t, [r]. split_and!; [done| |by apply Forall_singleton].
    apply Forall_Forall2_diag, Forall_forall. auto.
Qed.

Lemma no_conflict r t :
  existsb (conflicts r) t = false →
  (∀ r', r' ∈ t → Job.id r' ≠ Job.id r ∧
     ∀ k, Job.idempotency_key r = Some k → Job.idempotency_key r' ≠ Some k).
Proof.
  intros Hc r' Hr'. assert (conflicts r r' = false) as Hn.
  { apply not_true_iff_false. intros Ht. rewrite <- not_true_iff_false in Hc.
    apply Hc, existsb_exists. exists r'. by rewrite <- list_elem_of_In. }
  unfold conflicts in Hn. apply orb_false_iff in Hn as [Hn1 Hn2]. breflect_in Hn1.
  split; [done|]. intros k Hk. rewrite Hk in Hn2. by apply bool_decide_eq_false in Hn2.
Qed.

Lemma stmt_inv t t' l :
  stmt t t' → inv (mkSys t l) → inv (mkSys t' l).
Proof.
  intros [|p f Hm Hs|r (Hq & Ha & Hmax) Hc] Hi; [done|by apply (inv_update p f (mkSys t l))|].
  pose proof (no_conflict r t Hc) as Hn.
  destruct Hi as [I1 I2 I3 I4 I5]. cbn in *. constructor; cbn.
  - rewrite List.map_app. apply NoDup_app. split_and!; [done| |apply NoDup_singleton].
    intros i Hi. apply list_elem_of_In, in_map_iff in Hi as (r' & <- & Hr').
    apply list_elem_of_In in Hr'. cbn. rewrite list_elem_of_singleton. by apply Hn.
  - intros r1 r2 k H1 H2 K1 K2. apply elem_of_app in H1, H2.
    rewrite list_elem_of_singleton in H1, H2.
    destruct H1 as [H1| ->], H2 as [H2| ->]; [by eapply I2| | |done];
      exfalso; [by apply (proj2 (Hn r1 H1) k)|by apply (proj2 (Hn r2 H2) k)].
  - intros r1 H1. apply elem_of_app in H1. rewrite list_elem_of_singleton in H1.
    destruct H1 as [H1| ->]; [by apply I3|]. unfold row_ok.
    repeat split; intros; try lia; congruence.
  - intros r1 r2 k H1 H2 R1 R2 K1 K2. apply elem_of_app in H1, H2.
    rewrite list_elem_of_singleton in H1, H2.
    destruct H1 as [H1| ->], H2 as [H2| ->]; [by eapply I4|congruence..].
  - intros [[id attempt] plan] Hd. destruct (I5 _ Hd) as (r1 & H1 & Hrest).
    exists r1. split; [|done]. apply elem_of_app. by left.
Qed.

(** *** Statements that start no run *)

Lemma stmt_move p f t :
  (∀ r, r ∈ t → p r = true → evolves r (f r) ∧ Job.status (f r) ≠ Running) →
  stmt t (update_where p f t).
Proof.
  intros H. apply stmt_update; [by intros r Hr Hp; apply H|].
  left. intros r Hr Hp Hrun. by destruct (H r Hr Hp).
Qed.

(** A selection by primary key picks only rows of the selection. *)
Lemma id_in_elem t sel r :
  NoDup (map Job.id t) → (∀ x, x ∈ sel → x ∈ t) → r ∈ t → id_in sel r = true → r ∈ sel.
Proof.
  unfold id_in. intros Hnd Hsub Hr Hin. apply bool_decide_eq_true in Hin.
  apply list_elem_of_In, in_map_iff in Hin as (x & Hx & Hin). apply list_elem_of_In in Hin.
  by rewrite (lookup_by_unique Job.id t r x Hnd Hr (Hsub x Hin) (eq_sym Hx)).
Qed.

Lemma running_at_spec id attempt r :
  running_at id attempt r = true ↔
  Job.id r = id ∧ Job.status r = Running ∧ Job.attempts r = attempt.
Proof. unfold running_at, by_id, JobStatus.eqb. breflect. tauto. Qed.

Ltac evolve c :=
  split; [split; [reflexivity|right]; unfold shape_of; cbn;
    repeat match goal with H : Job.status _ = _ |- _ => rewrite H end; c | done].

Lemma rearm_moves now r :
  Job.status r = Running ∨ Job.status r = Waiting ∨ Job.status r = Failed
    ∨ Job.status r = Cancelled →
  evolves r (rearm now r) ∧ Job.status (rearm now r) ≠ Running.
Proof.
  intros H. split; [|done]. split; [reflexivity|right]. by apply lc_rearm.
Qed.

(** *** Claims *)

Lemma claimable_spec now blocked t r :
  claimable now blocked t r = true ↔
  Job.status r = Queued ∧ Job.available_at r ≤ now ∧ Job.app r ∉ blocked ∧
  target_free t r = true.
Proof. unfold claimable, due, JobStatus.eqb. breflect. tauto. Qed.

Lemma claim_by_stmt pick stamp t :
  NoDup (map Job.id t) →
  (∀ r, r ∈ pick t → r ∈ t ∧ Job.status r = Queued ∧ target_free t r = true) →
  (∀ r, Job.status r = Queued → evolves r (stamp r)) →
  stmt t (claim_by pick stamp t).1.
Proof.
  intros Hnd Hpick Hstamp. unfold claim_by.
  destruct (pick t) as [|r l] eqn:E; cbn; [constructor|].
  destruct (Hpick r) as (Hr & Hq & Hf); [set_solver|].
  assert (∀ x, x ∈ t → by_id (Job.id r) x = true → x = r) as Hx.
  { intros x Hx Hp. unfold by_id in Hp. breflect_in Hp.
    by apply (lookup_by_unique Job.id t). }
  apply stmt_update.
  - intros x Hin Hp. rewrite (Hx x Hin Hp). by apply Hstamp.
  - right. exists (Job.id r). intros x Hin Hp. by rewrite (Hx x Hin Hp).
Qed.

Lemma claim_row_evolves now r : Job.status r = Queued → evolves r (claim_row now r).
Proof.
  intros Hq. split; [reflexivity|right]. unfold shape_of. cbn. rewrite Hq. constructor.
Qed.

Lemma claim_next_stmt `{Sqlite} now blocked aging t :
  NoDup (map Job.id t) → stmt t (claim_next now blocked aging t).1.
Proof.
  intros Hnd. apply claim_by_stmt; [done| |apply claim_row_evolves].
  intros r Hr. autorewrite with sql in Hr. rewrite claimable_spec in Hr. naive_solver.
Qed.

Lemma claim_next_for_executor_stmt `{Sqlite} now ex eligible blocked aging t :
  NoDup (map Job.id t) → stmt t (claim_next_for_executor now ex eligible blocked aging t).1.
Proof.
  intros Hnd. unfold claim_next_for_executor. destruct eligible as [|a l]; [constructor|].
  apply claim_by_stmt; [done| |].
  - intros r Hr. autorewrite with sql in Hr.
    rewrite andb_true_iff, claimable_spec in Hr. naive_solver.
  - intros r Hq. split; [reflexivity|right]. unfold shape_of. cbn. rewrite Hq. constructor.
Qed.

(** *** Enqueue *)

Lemma fresh_new_row id app opts principal now : fresh_row (new_row id app opts principal now).
Proof. unfold fresh_row. cbn. split_and!; [done..|lia]. Qed.

Lemma enqueue_insert_stmt r t : fresh_row r → stmt t (enqueue_insert r t).1.
Proof.
  intros Hr. unfold enqueue_insert, insert_job.
  destruct (existsb (conflicts r) t) eqn:Hc; cbn.
  - repeat case_match; constructor.
  - case_match; by constructor.
Qed.

Lemma enqueue_dedup_as_stmt id now app opts principal t :
  stmt t (enqueue_dedup_as id now app opts principal t).1.
Proof.
  unfold enqueue_dedup_as.
  repeat case_match; try constructor; apply enqueue_insert_stmt, fresh_new_row.
Qed.

(** *** The fenced verdicts and the doors *)

Lemma running_move id attempt f t :
  (∀ r, Job.status r = Running → Job.attempts r = attempt →
     evolves r (f r) ∧ Job.status (f r) ≠ Running) →
  stmt t (guarded (running_at id attempt) f t).1.
Proof.
  intros Hf. apply stmt_move. intros r _ Hp. apply running_at_spec in Hp as (_ & Hs & Ha).
  by apply Hf.
Qed.

Lemma guarded_get_fst id p f t : (guarded_get id p f t).1 = update_where p f t.
Proof. unfold guarded_get. by case_if. Qed.

Lemma heartbeat_stmt p now t :
  (∀ r, r ∈ t → p r = true → Job.status r = Running) →
  stmt t (update_where p (λ r, r <| Job.heartbeat_at := Some now |>) t).
Proof.
  intros Hp. apply stmt_update; [|left; auto].
  intros r Hr _. split; [reflexivity|left; reflexivity].
Qed.

Lemma fail_permanently_because_stmt now id attempt e why c t :
  stmt t (fail_permanently_because now id attempt e why c t).1.
Proof. apply running_move. intros r Hs _. evolve constructor. Qed.

Lemma fail_apply_stmt now id attempt plan t :
  NoDup (map Job.id t) → plan_ok t (id, attempt, plan) →
  stmt t (fail_apply now id attempt plan t).1.
Proof.
  intros Hnd (r0 & Hr0 & Hid & Hle & Hb).
  destruct plan as [e d w c|e w c]; cbn; [|apply fail_permanently_because_stmt].
  apply stmt_move. intros r Hr Hp. apply running_at_spec in Hp as (Hi & Hs & Ha).
  assert (r = r0) as -> by (apply (lookup_by_unique Job.id t); congruence).
  specialize (Hb Hs Ha eq_refl). split; [split; [reflexivity|right]|done]. unfold shape_of. cbn. rewrite Hs. constructor. lia.
Qed.

(** [fail] as the two statements it is. *)
Lemma fail_plan_ok `{JsonRender} id attempt reason t job plan :
  get id t = Some job → fail_plan job attempt reason = Some plan →
  plan_ok t (id, attempt, plan).
Proof.
  intros Hget Hp. apply lookup_by_Some in Hget as [Hin Hid].
  exists job. unfold fail_plan in Hp.
  destruct (negb _ || negb _) eqn:E; [done|]. unfold JobStatus.eqb in E. breflect_in E.
  destruct E as [E1 E2]. split_and!; [done..|lia|]. intros _ _ Hq.
  repeat (case_match; simplify_eq/=; try done); breflect; lia.
Qed.

Lemma fail_stmt `{JsonRender} now id attempt reason t :
  NoDup (map Job.id t) → stmt t (fail now id attempt reason t).1.
Proof.
  intros Hnd. unfold fail. destruct (get id t) as [job|] eqn:Hget; [|constructor].
  destruct (fail_plan job attempt reason) as [plan|] eqn:Hp; [|constructor].
  apply fail_apply_stmt; [done|]. by eapply fail_plan_ok.
Qed.

Lemma select_update_stmt n le p f t :
  NoDup (map Job.id t) →
  (∀ r, p r = true → evolves r (f r) ∧ Job.status (f r) ≠ Running) →
  stmt t (update_where (id_in (sql_limit n (order_by le (select_where p t)))) f t).
Proof.
  intros Hnd Hf. apply stmt_move. intros r Hr Hin.
  apply (id_in_elem t) in Hin; [|done| |done].
  - apply Hf. apply elem_of_limited in Hin. tauto.
  - intros x Hx. apply elem_of_limited in Hx. tauto.
Qed.

Section exec.
Context `{JsonRender, Sqlite}.

Lemma exec_stmt o s : inv s → stmt (jobs s) (jobs (exec o s)).
Proof.
  intros Hi. pose proof (inv_ids s Hi) as Hnd.
  destruct o; cbn -[guarded update_where enqueue_dedup_as claim_next claim_next_for_executor
                    complete fail_permanently_because guarded_get].
  - apply enqueue_dedup_as_stmt.
  - by apply claim_next_stmt.
  - by apply claim_next_for_executor_stmt.
  - apply heartbeat_stmt. intros r _ Hp. by apply running_at_spec in Hp as (_ & ? & _).
  - apply heartbeat_stmt. intros r _ Hp. apply andb_true_iff in Hp as [Hp _].
    by apply running_at_spec in Hp as (_ & ? & _).
  - apply running_move. intros r Hs _. evolve constructor.
  - apply fail_permanently_because_stmt.
  - repeat case_match; constructor.
  - destruct (pending s !! i) as [[[id attempt] plan]|] eqn:Hl; [|constructor].
    cbn -[fail_apply]. apply fail_apply_stmt; [done|].
    apply (inv_plans s Hi). by eapply list_elem_of_lookup_2.
  - apply stmt_move. intros r _ Hp. unfold by_id, JobStatus.eqb in Hp. breflect_in Hp.
    destruct Hp as [_ [Hs|Hs]]; evolve ltac:(constructor; auto).
  - apply running_move. intros r Hs _. evolve ltac:(apply lc_cancel; auto).
  - unfold reset. rewrite guarded_get_fst. apply stmt_move. intros r _ Hp.
    unfold by_id, JobStatus.eqb in Hp. breflect_in Hp. apply rearm_moves. tauto.
  - apply running_move. intros r Hs _. evolve constructor.
  - unfold resume. rewrite guarded_get_fst. apply stmt_move. intros r _ Hp.
    unfold by_id, JobStatus.eqb in Hp. breflect_in Hp.
    destruct Hp as [_ Hs].
    split; [split; [reflexivity|right]|done]. unfold shape_of. cbn. rewrite Hs. apply lc_rearm. tauto.
  - apply select_update_stmt; [done|]. intros r Hp. unfold expired, JobStatus.eqb in Hp.
    breflect_in Hp. destruct Hp as [Hs _]. evolve constructor.
  - unfold retry. rewrite guarded_get_fst. apply stmt_move. intros r _ Hp.
    unfold by_id, JobStatus.eqb in Hp. breflect_in Hp. apply rearm_moves. tauto.
  - apply select_update_stmt; [done|]. intros r Hp. unfold JobStatus.eqb in Hp.
    breflect_in Hp. apply rearm_moves. destruct cancelled; tauto.
Qed.

(** The pending plans of a step: those already there, or the plan of a read. *)
Lemma exec_pending o s d :
  inv s → d ∈ pending (exec o s) →
  d ∈ pending s ∨ (jobs (exec o s) = jobs s ∧ plan_ok (jobs s) d).
Proof.
  intros Hi Hd. destruct o; cbn in Hd; auto.
  - destruct (get id (jobs s)) as [job|] eqn:Hg; [|by left].
    destruct (fail_plan job attempt reason) as [plan|] eqn:Hp; [|by left].
    cbn in Hd. apply elem_of_app in Hd as [Hd|Hd]; [by left|]. right.
    apply list_elem_of_singleton in Hd as ->. cbn. rewrite Hg, Hp.
    split; [done|]. by eapply fail_plan_ok.
  - destruct (pending s !! i) as [[[id attempt] plan]|] eqn:Hl; [|by left].
    left. cbn in Hd. eapply elem_of_submseteq; [exact Hd|].
    apply submseteq_delete.
Qed.

Lemma exec_inv o s : inv s → inv (exec o s).
Proof.
  intros Hi. pose proof (exec_stmt o s Hi) as Hs.
  assert (inv (mkSys (jobs (exec o s)) (pending s))) as Hj.
  { apply (stmt_inv _ _ _ Hs). by destruct s. }
  destruct Hj as [J1 J2 J3 J4 J5]. cbn in *. constructor; try done.
  intros d Hd. destruct (exec_pending o s d Hi Hd) as [Hd'|[-> Hd']]; [by apply J5|done].
Qed.

Lemma reachable_inv s : reachable s → inv s.
Proof.
  induction 1 as [|o s _ IH]; [|by apply exec_inv].
  constructor; cbn; [apply NoDup_nil_2|..]; repeat intro; exfalso;
    eapply not_elem_of_nil; eassumption.
Qed.

Lemma reachable_table_evolves o s :
  reachable s → table_evolves (jobs s) (jobs (exec o s)).
Proof. intros Hr. by apply stmt_table_evolves, exec_stmt, reachable_inv. Qed.
End exec.
