(* ===== verification/QueueTheorems.v ===== *)
(** * QueueTheorems: what the job queue guarantees

    The guarantees of [JobQueue] under every interleaving of the operations of
    [QueueInvariants], and the functional behaviour of each operation. *)

From S2P Require Import Prelude Sql Float64 Jitter Json Errors Requeue Jobs JobQueue.
From S2P Require Import QueueInvariants.

(** Concrete parameters of the witnesses. *)
Definition plain_render : JsonRender := λ _, "{}"%string.
Definition plain_julianday : Sqlite := λ t, f64_of_Z t.
Definition sample_opts (key target : option string) : Opts.t :=
  Opts.default <| Opts.idempotency_key := key |> <| Opts.target_key := target |>
    <| Opts.max_attempts := 3 |>.
Definition sample_run (ops : list op) : sys :=
  @run plain_render plain_julianday ops empty_store.

Lemma sample_reachable ops : @reachable plain_render plain_julianday (sample_run ops).
Proof. apply reachable_run. constructor. Qed.

(** ** Verdicts *)

(** The attempt that a verdict statement settles, when it lands. *)
Definition verdict_lands `{JsonRender, Sqlite} (o : op) (s : sys) : option (Uuid * Z) :=
  match o with
  | OpComplete now id attempt r =>
      if (complete now id attempt r (jobs s)).2 then Some (id, attempt) else None
  | OpFailPermanently now id attempt e =>
      if (fail_permanently now id attempt e (jobs s)).2 then Some (id, attempt) else None
  | OpFailWrite now i =>
      match pending s !! i with
      | Some (id, attempt, plan) =>
          if is_some (fail_apply now id attempt plan (jobs s)).2 then Some (id, attempt)
          else None
      | None => None
      end
  | OpCancelRunning now id attempt =>
      if (cancel_running now id attempt (jobs s)).2 then Some (id, attempt) else None
  | OpAwaitInput now id attempt req ex =>
      if (await_input now id attempt req ex (jobs s)).2 then Some (id, attempt) else None
  | _ => None
  end.

(** An attempt is settled once its row exists, has reached it, and is not
    running it. *)
Definition settled (id : Uuid) (attempt : Z) (t : table) : Prop :=
  ∃ r, r ∈ t ∧ Job.id r = id ∧ attempt ≤ Job.attempts r ∧
    (Job.status r = Running → attempt < Job.attempts r).

Lemma settled_evolves id attempt t t' :
  table_evolves t t' → settled id attempt t → settled id attempt t'.
Proof.
  intros (moved & fresh & -> & Hm & _) (r & Hr & Hid & Hle & Hrun).
  apply list_elem_of_lookup_1 in Hr as [i Hi].
  destruct (Forall2_lookup_l _ _ _ _ _ Hm Hi) as (r' & Hi' & He).
  pose proof (evolves_attempts _ _ He) as Ha.
  exists r'. split_and!.
  - apply elem_of_app. left. by eapply list_elem_of_lookup_2.
  - destruct He as [He _]. unfold identity in He. injection He. congruence.
  - lia.
  - intros Hr'. destruct (Z.eq_dec (Job.attempts r') (Job.attempts r)) as [E|E]; [|lia].
    destruct (evolves_running_max _ _ He Hr' E) as [Hs _]. specialize (Hrun Hs). lia.
Qed.

Lemma settled_blocks id attempt t :
  NoDup (map Job.id t) → settled id attempt t → rows_affected (running_at id attempt) t = 0.
Proof.
  intros Hnd (r & Hr & Hid & Hle & Hrun). apply rows_affected_0. intros x Hx.
  apply not_true_iff_false. rewrite running_at_spec. intros (Hi & Hs & Ha).
  assert (x = r) as -> by (apply (lookup_by_unique Job.id t); congruence).
  specialize (Hrun Hs). lia.
Qed.

Lemma guarded_lands_settles id attempt f t :
  (∀ r, Job.status r = Running → Job.attempts r = attempt →
     evolves r (f r) ∧ Job.status (f r) ≠ Running) →
  (guarded (running_at id attempt) f t).2 = true →
  settled id attempt (guarded (running_at id attempt) f t).1.
Proof.
  intros Hf Hl. unfold guarded in *. cbn in *. apply Z.ltb_lt, rows_affected_pos in Hl.
  destruct Hl as (r & Hr & Hp). pose proof Hp as Hp'.
  apply running_at_spec in Hp' as (Hi & Hs & Ha). destruct (Hf r Hs Ha) as [He Hn].
  exists (f r). split_and!; [| |pose proof (evolves_attempts _ _ He); lia|done].
  - apply elem_of_update. exists r. by rewrite Hp.
  - destruct He as [He _]. unfold identity in He. injection He. congruence.
Qed.

Lemma guarded_requeue_settles now id attempt e d w c t :
  (guarded (running_at id attempt) (requeue_row now e d w c) t).2 = true →
  settled id attempt (guarded (running_at id attempt) (requeue_row now e d w c) t).1.
Proof.
  unfold guarded. cbn. intros Hl. apply Z.ltb_lt, rows_affected_pos in Hl.
  destruct Hl as (r & Hr & Hp). pose proof Hp as Hp'.
  apply running_at_spec in Hp' as (Hi & Hs & Ha).
  exists (requeue_row now e d w c r). split_and!; [|done|cbn; lia|done].
  apply elem_of_update. exists r. by rewrite Hp.
Qed.

Lemma fail_apply_settles now id attempt plan t :
  is_some (fail_apply now id attempt plan t).2 = true →
  settled id attempt (fail_apply now id attempt plan t).1.
Proof.
  destruct plan as [e d w c|e w c]; cbn -[guarded]; intros Hl.
  - rewrite (surjective_pairing (guarded _ _ _)) in *. cbn -[guarded] in *.
    apply guarded_requeue_settles. by case_match.
  - unfold fail_permanently_because in *.
    rewrite (surjective_pairing (guarded _ _ _)) in *. cbn -[guarded] in *.
    apply guarded_lands_settles; [|by case_match].
    intros r Hs _. evolve constructor.
Qed.

Section machine.
Context `{JsonRender, Sqlite}.

Lemma verdict_lands_settles o s id attempt :
  verdict_lands o s = Some (id, attempt) → settled id attempt (jobs (exec o s)).
Proof.
  destruct o; cbn -[guarded complete fail_permanently fail_apply cancel_running await_input];
    try done; intros Hv; repeat (case_match; simplify_eq); cbn -[fail_apply];
    try (apply guarded_lands_settles; [|done]; intros r Hs _).
  - evolve constructor.
  - evolve constructor.
  - by apply fail_apply_settles.
  - evolve ltac:(apply lc_cancel; auto).
  - evolve constructor.
Qed.

Lemma settled_no_verdict o s id attempt :
  NoDup (map Job.id (jobs s)) → settled id attempt (jobs s) →
  verdict_lands o s ≠ Some (id, attempt).
Proof.
  intros Hnd Hs. pose proof (settled_blocks _ _ _ Hnd Hs) as H0'.
  assert (∀ f, (guarded (running_at id attempt) f (jobs s)).2 = false) as Hg.
  { intros f. unfold guarded. cbn. by rewrite H0'. }
  destruct o; cbn -[guarded]; try done; intros Hv.
  - unfold complete in Hv. case_match eqn:E; simplify_eq. by rewrite Hg in E.
  - unfold fail_permanently, fail_permanently_because in Hv.
    case_match eqn:E; simplify_eq. by rewrite Hg in E.
  - destruct (pending s !! i) as [[[id0 a0] plan]|]; [|done].
    case_match eqn:E; simplify_eq. destruct plan; cbn -[guarded] in E;
      unfold fail_permanently_because in E;
      rewrite (surjective_pairing (guarded _ _ _)), Hg in E; done.
  - unfold cancel_running in Hv. case_match eqn:E; simplify_eq. by rewrite Hg in E.
  - unfold await_input in Hv. case_match eqn:E; simplify_eq. by rewrite Hg in E.
Qed.

Lemma settled_run ops s id attempt :
  reachable s → settled id attempt (jobs s) → settled id attempt (jobs (run ops s)).
Proof.
  revert s. induction ops as [|o ops IH]; intros s Hs Hd; [done|].
  apply (IH (exec o s)); [by constructor|].
  eapply settled_evolves; [by apply reachable_table_evolves|done].
Qed.

(** C1: mutual exclusion of targets.  Whatever workers, executors, sweeps and
    doors do, in whatever interleaving, two running jobs never hold the same
    target key. *)
Theorem running_targets_exclusive s r1 r2 k :
  reachable s → r1 ∈ jobs s → r2 ∈ jobs s →
  Job.status r1 = Running → Job.status r2 = Running →
  Job.target_key r1 = Some k → Job.target_key r2 = Some k → r1 = r2.
Proof.
  intros Hs H1 H2 R1 R2 K1 K2. pose proof (reachable_inv s Hs) as Hi.
  apply (lookup_by_unique Job.id (jobs s)); [apply (inv_ids s Hi)|done..|].
  by apply (inv_targets s Hi r1 r2 k).
Qed.

(** C2: the attempt budget.  No interleaving starts an attempt past a job's
    [max_attempts]: attempts stay within the budget, and a queued job always
    has an attempt left, so the claim that runs it is one it was granted. *)
Theorem attempts_within_budget s r :
  reachable s → r ∈ jobs s →
  0 ≤ Job.attempts r ≤ Job.max_attempts r ∧
  (Job.status r = Queued → Job.attempts r < Job.max_attempts r) ∧
  (Job.status r = Running → 1 ≤ Job.attempts r).
Proof. intros Hs Hr. by apply (inv_rows s (reachable_inv s Hs)). Qed.

(** C3: one verdict per attempt.  Once a verdict (completion, failure, requeue,
    cancellation or parking) lands for an attempt of a job, no later verdict for
    that attempt lands, whatever runs in between: a worker that was declared
    dead cannot overwrite what its successor decided. *)
Theorem one_verdict_per_attempt s o o' ops id attempt :
  reachable s → verdict_lands o s = Some (id, attempt) →
  verdict_lands o' (run ops (exec o s)) ≠ Some (id, attempt).
Proof.
  intros Hs Hv. assert (reachable (exec o s)) as Hs' by by constructor.
  apply settled_no_verdict.
  - apply (inv_ids _ (reachable_inv _ (reachable_run ops _ Hs'))).
  - by apply settled_run, verdict_lands_settles.
Qed.

(** C4: refinement of the lifecycle.  Every operation, from every reachable
    state, only moves rows along the edges of [lifecycle], leaves their identity
    columns alone, deletes none, and appends rows that are queued at attempt 0
    with a positive budget. *)
Theorem exec_refines_lifecycle o s :
  reachable s →
  ∃ moved fresh, jobs (exec o s) = moved ++ fresh ∧
    Forall2 (λ r r', identity r = identity r' ∧
               (shape_of r = shape_of r' ∨ lifecycle (shape_of r) (shape_of r')))
      (jobs s) moved ∧
    Forall fresh_row fresh.
Proof. intros Hs. by apply reachable_table_evolves. Qed.
End machine.

(** Two jobs for one target, both asked to run. *)
Definition sample_ops : list op :=
  [OpEnqueue 1 0 "scrape" (sample_opts None (Some "example.com")) None;
   OpEnqueue 2 1 "scrape" (sample_opts (Some "k") (Some "example.com")) None;
   OpClaim 5 [] f64_zero; OpClaim 6 [] f64_zero].
Definition sample_row : Job.t :=
  claim_row 5 (new_row 1 "scrape" (sample_opts None (Some "example.com")) None 0).

Lemma sample_row_first : jobs (sample_run sample_ops) !! 0%nat = Some sample_row.
Proof. vm_compute. reflexivity. Qed.

Lemma running_targets_exclusive_witness :
  Forall (λ r, Job.status r = Running → Job.target_key r = Some "example.com"%string →
               r = sample_row) (jobs (sample_run sample_ops)).
Proof.
  apply Forall_forall. intros r Hr Hs Hk.
  refine (@running_targets_exclusive plain_render plain_julianday _ r sample_row
            "example.com" (sample_reachable sample_ops) Hr _ Hs _ Hk _);
    [|reflexivity..].
  apply (list_elem_of_lookup_2 _ 0), sample_row_first.
Defined.

Lemma attempts_within_budget_witness :
  1 ≤ Job.attempts sample_row ∧ Job.attempts sample_row ≤ Job.max_attempts sample_row.
Proof.
  destruct (@attempts_within_budget plain_render plain_julianday _ sample_row
              (sample_reachable sample_ops)) as ((? & ?) & _ & Hr).
  - apply (list_elem_of_lookup_2 _ 0), sample_row_first.
  - split; [by apply Hr|done].
Defined.

(** Worker one completes attempt 1; its rival's failure of the same attempt, and
    a second completion after a retry, are both refused. *)
Lemma one_verdict_per_attempt_witness :
  verdict_lands (H := plain_render) (H0 := plain_julianday)
    (OpComplete 9 1 1 JNull)
    (@run plain_render plain_julianday [OpCancel 8 2]
       (@exec plain_render plain_julianday (OpFailPermanently 7 1 1 "boom")
          (sample_run sample_ops))) ≠ Some (1, 1).
Proof.
  apply (@one_verdict_per_attempt plain_render plain_julianday (sample_run sample_ops)
           (OpFailPermanently 7 1 1 "boom") _ _ 1 1 (sample_reachable sample_ops)).
  vm_compute. reflexivity.
Defined.

Lemma exec_refines_lifecycle_witness :
  ∃ moved fresh,
    jobs (@exec plain_render plain_julianday (OpReset 9 1) (sample_run sample_ops))
      = moved ++ fresh ∧
    Forall2 (λ r r', identity r = identity r' ∧
               (shape_of r = shape_of r' ∨ lifecycle (shape_of r) (shape_of r')))
      (jobs (sample_run sample_ops)) moved ∧ Forall fresh_row fresh.
Proof.
  apply (@exec_refines_lifecycle plain_render plain_julianday _ _
           (sample_reachable sample_ops)).
Defined.

(** ** What each queue operation does

    The functional behaviour of the operations of [JobQueue], every branch
    included: idempotent enqueue, the choice a claim makes, the outcome of a
    failure, parking and resuming, and expiry. *)

(** ** Enqueue *)

Lemma get_by_key_Some key t r :
  get_by_idempotency_key key t = Some r → r ∈ t ∧ Job.idempotency_key r = Some key.
Proof.
  intros H. apply List.find_some in H as [H1 H2].
  rewrite list_elem_of_In. by apply bool_decide_eq_true in H2.
Qed.

Lemma get_by_key_None key t :
  get_by_idempotency_key key t = None → ∀ r, r ∈ t → Job.idempotency_key r ≠ Some key.
Proof.
  intros H r Hr. apply list_elem_of_In in Hr. apply (List.find_none _ _ H) in Hr.
  by apply bool_decide_eq_false in Hr.
Qed.

Lemma key_conflict r t key r' :
  Job.idempotency_key r = Some key → r' ∈ t → Job.idempotency_key r' = Some key →
  existsb (conflicts r) t = true.
Proof.
  intros Hk Hr' Hk'. apply existsb_exists. exists r'. rewrite <- list_elem_of_In.
  split; [done|]. unfold conflicts. rewrite Hk. apply orb_true_iff. right.
  by apply bool_decide_eq_true.
Qed.

(** The early read of [enqueue_dedup_as] is only an optimisation: the insert's
    race arm alone gives the same table and the same answer. *)
Lemma enqueue_race_arm id now app opts principal t :
  enqueue_dedup_as id now app opts principal t
    = enqueue_insert (new_row id app opts principal now) t.
Proof.
  unfold enqueue_dedup_as. destruct (Opts.idempotency_key opts) as [key|] eqn:Hk; [|done].
  destruct (get_by_idempotency_key key t) as [r|] eqn:Hg; [|done].
  pose proof (get_by_key_Some _ _ _ Hg) as [Hr Hrk].
  unfold enqueue_insert, insert_job. rewrite (key_conflict _ t key r) by done.
  cbn. by rewrite Hk, Hg.
Qed.

(** What an enqueue does to the table, with or without a key. *)
Lemma enqueue_dedup_as_cases id now app opts principal t t' r :
  enqueue_dedup_as id now app opts principal t = (t', r) →
  match r with
  | Ok (job, true) => t' = t ++ [job] ∧ job = new_row id app opts principal now
  | Ok (job, false) => t' = t ∧ is_Some (Opts.idempotency_key opts)
  | Err _ => t' = t
  end.
Proof.
  rewrite enqueue_race_arm. set (row := new_row id app opts principal now).
  unfold enqueue_insert, insert_job.
  destruct (existsb (conflicts row) t) eqn:Ex.
  - change (Job.idempotency_key row) with (Opts.idempotency_key opts).
    destruct (Opts.idempotency_key opts) as [key|]; [|by intros [= <- <-]].
    destruct (get_by_idempotency_key key t) as [existing|]; intros [= <- <-]; eauto.
  - assert (get (Job.id row) (t ++ [row]) = Some row) as ->; [|by intros [= <- <-]].
    unfold get. rewrite lookup_by_app.
    assert (lookup_by Job.id (Job.id row) t = None) as ->.
    { destruct (lookup_by Job.id (Job.id row) t) as [r0|] eqn:E; [|done].
      apply lookup_by_Some in E as [Hin He]. apply not_true_iff_false in Ex. exfalso.
      apply Ex, existsb_exists. exists r0. split; [by apply list_elem_of_In|].
      unfold conflicts. by rewrite He, Z.eqb_refl. }
    unfold lookup_by. cbn. by rewrite bool_decide_eq_true_2.
Qed.

Lemma fresh_id_conflict r t :
  Job.id r ∉ map Job.id t → existsb (conflicts r) t = true →
  ∃ key r', Job.idempotency_key r = Some key ∧ r' ∈ t ∧ Job.idempotency_key r' = Some key.
Proof.
  intros Hf Hc. apply existsb_exists in Hc as (r' & Hr' & Hc). unfold conflicts in Hc.
  breflect_in Hc. destruct Hc as [Hc|Hc].
  - exfalso. apply Hf. rewrite <- Hc. apply list_elem_of_In, in_map, Hr'.
  - destruct (Job.idempotency_key r) as [key|] eqn:Hk; [|done].
    apply bool_decide_eq_true in Hc. exists key, r'. by rewrite list_elem_of_In.
Qed.

(** idempotent enqueue.  With a fresh id, enqueue always answers a job.  If a
    row already carries the idempotency key the store is untouched and the answer
    is such a row, not created; otherwise exactly one row is appended, the answer
    is that row, and it is created. *)
Theorem enqueue_idempotent id now app opts principal t :
  id ∉ map Job.id t →
  ∃ job (created : bool),
    enqueue_dedup_as id now app opts principal t
      = (if created then t ++ [job] else t, Ok (job, created)) ∧
    (created = true → job = new_row id app opts principal now ∧
       ∀ key r, Opts.idempotency_key opts = Some key → r ∈ t →
         Job.idempotency_key r ≠ Some key) ∧
    (created = false → job ∈ t ∧
       ∃ key, Opts.idempotency_key opts = Some key ∧ Job.idempotency_key job = Some key).
Proof.
  intros Hid. rewrite enqueue_race_arm. set (row := new_row id app opts principal now).
  unfold enqueue_insert, insert_job. destruct (existsb (conflicts row) t) eqn:Hc.
  - destruct (fresh_id_conflict row t Hid Hc) as (key & r & Hk & Hr & Hrk).
    rewrite Hk. destruct (get_by_idempotency_key key t) as [job|] eqn:Hg.
    + apply get_by_key_Some in Hg as [Hin Hjk]. exists job, false. split; [done|].
      split; [done|]. intros _. split; [done|]. by exists key.
    + exfalso. by apply (get_by_key_None _ _ Hg r).
  - assert (get (Job.id row) (t ++ [row]) = Some row) as ->.
    { unfold get. rewrite lookup_by_app, (proj2 (lookup_by_None Job.id t _) Hid).
      unfold lookup_by. cbn. by rewrite bool_decide_true. }
    exists row, true. split; [done|]. split; [|done]. intros _. split; [done|].
    intros key r Hk Hr. by apply (no_conflict row t Hc r Hr).
Qed.

Definition keyed_opts : Opts.t :=
  Opts.default <| Opts.idempotency_key := Some "k"%string |>.
Definition keyed_row : Job.t := new_row 1 "app" keyed_opts None 0.

Lemma enqueue_idempotent_witness :
  ∃ job (created : bool),
    enqueue_dedup_as 2 5 "app" keyed_opts None [keyed_row]
      = (if created then [keyed_row; job] else [keyed_row], Ok (job, created)) ∧
    created = false ∧ job = keyed_row.
Proof.
  destruct (enqueue_idempotent 2 5 "app" keyed_opts None [keyed_row])
    as (job & created & He & Hc & Hn).
  - set_solver.
  - exists job, created. split; [done|]. destruct created.
    + destruct (Hc eq_refl) as [_ Hk].
      exfalso. apply (Hk "k"%string keyed_row); [done|set_solver|done].
    + destruct (Hn eq_refl) as [Hj _]. set_solver.
Defined.

(** ** Claim *)

Lemma update_by_id_split f t r :
  NoDup (map Job.id t) → r ∈ t →
  ∃ l1 l2, t = l1 ++ r :: l2 ∧ update_where (by_id (Job.id r)) f t = l1 ++ f r :: l2.
Proof.
  intros Hnd Hr. apply list_elem_of_split in Hr as (l1 & l2 & ->). exists l1, l2.
  split; [done|]. rewrite List.map_app in Hnd. cbn in Hnd.
  apply NoDup_app in Hnd as (_ & Hd & Hnd). apply NoDup_cons in Hnd as [Hni _].
  assert (∀ l x, x ∈ l → Job.id x ∈ map Job.id l) as Hmap.
  { intros l x Hx. by apply list_elem_of_In, in_map, list_elem_of_In. }
  unfold update_where. rewrite List.map_app. cbn. unfold by_id at 2. rewrite Z.eqb_refl.
  f_equal; [|f_equal]; apply update_where_none; intros x Hx; apply Z.eqb_neq; intros He.
  - apply (Hd (Job.id r)); [rewrite <- He; by apply Hmap|left].
  - apply Hni. rewrite <- He. by apply Hmap.
Qed.

Section guarantees.
Context `{Sqlite}.

Lemma claim_before_total aging now r1 r2 :
  claim_before aging now r1 r2 = true ∨ claim_before aging now r2 r1 = true.
Proof.
  unfold claim_before. case_if.
  - destruct (real_le (effective_priority aging now r1) (effective_priority aging now r2)) eqn:E1,
      (real_le (effective_priority aging now r2) (effective_priority aging now r1)) eqn:E2;
      auto; cbn; rewrite !Z.leb_le; lia.
  - breflect. lia.
Qed.

Lemma claim_before_trans aging now r1 r2 r3 :
  claim_before aging now r1 r2 = true → claim_before aging now r2 r3 = true →
  claim_before aging now r1 r3 = true.
Proof.
  unfold claim_before. case_if; [|breflect; lia].
  set (e1 := effective_priority aging now r1). set (e2 := effective_priority aging now r2).
  set (e3 := effective_priority aging now r3).
  pose proof (real_le_trans e1 e2 e3). pose proof (real_le_trans e2 e3 e1).
  pose proof (real_le_trans e3 e1 e2). pose proof (real_le_trans e1 e3 e2).
  pose proof (real_le_trans e2 e1 e3). pose proof (real_le_trans e3 e2 e1).
  pose proof (real_le_total e1 e2). pose proof (real_le_total e2 e3).
  destruct (real_le e1 e2) eqn:?, (real_le e2 e1) eqn:?, (real_le e2 e3) eqn:?,
    (real_le e3 e2) eqn:?, (real_le e1 e3) eqn:?, (real_le e3 e1) eqn:?; cbn;
    rewrite ?Z.leb_le; intuition (try done; try lia).
Qed.

Lemma claim_by_spec pick stamp t :
  match claim_by pick stamp t with
  | (t', None) => t' = t ∧ pick t = []
  | (t', Some job) =>
      ∃ r l, pick t = r :: l ∧ job = stamp r ∧
        t' = update_where (by_id (Job.id r)) stamp t
  end.
Proof. unfold claim_by. destruct (pick t) as [|r l] eqn:E; cbn; [done|]. by exists r, l. Qed.

(** what a claim takes.  [claim_next] answers nothing, and changes nothing,
    exactly when no row is claimable: queued, due, not of a blocked app, its
    target free.  Otherwise it takes a claimable row that no claimable row
    precedes in the claim order, starts its next attempt, and touches no other
    row. *)
Theorem claim_next_takes_first now blocked aging t :
  NoDup (map Job.id t) →
  match claim_next now blocked aging t with
  | (t', None) => t' = t ∧ ∀ r, r ∈ t → claimable now blocked t r = false
  | (t', Some job) =>
      ∃ r, r ∈ t ∧ claimable now blocked t r = true ∧
        (∀ r', r' ∈ t → claimable now blocked t r' = true →
           claim_before aging now r r' = true) ∧
        job = claim_row now r ∧
        ∃ l1 l2, t = l1 ++ r :: l2 ∧ t' = l1 ++ claim_row now r :: l2
  end.
Proof.
  intros Hnd. unfold claim_next.
  pose proof (claim_by_spec (λ t, order_by (claim_before aging now)
    (select_where (claimable now blocked t) t)) (claim_row now) t) as Hc.
  destruct (claim_by _ _ _) as [t' [job|]].
  - destruct Hc as (r & l & Hp & -> & ->).
    destruct (order_by_head (claim_before aging now) (claim_before_total aging now)
                (claim_before_trans aging now) _ _ _ Hp) as [Hr Hmin].
    apply elem_of_select in Hr as [Hr Hcl]. exists r. split_and!; [done..| |done|].
    + intros r' Hr' Hcl'. apply Hmin, elem_of_select. done.
    + by apply update_by_id_split.
  - destruct Hc as [-> Hp]. split; [done|]. intros r Hr.
    destruct (claimable now blocked t r) eqn:E; [|done].
    assert (r ∈ order_by (claim_before aging now) (select_where (claimable now blocked t) t))
      as Hin by by apply elem_of_order_by, elem_of_select.
    rewrite Hp in Hin. by apply not_elem_of_nil in Hin.
Qed.

(** an executor's claim is its own.  The claimed job is of an app the
    executor serves; the row is fenced to that executor and that attempt, so no
    other executor's check-in or heartbeat for it lands. *)
Theorem executor_claim_fenced now ex eligible blocked aging t t' job :
  NoDup (map Job.id t) →
  claim_next_for_executor now ex eligible blocked aging t = (t', Some job) →
  Job.app job ∈ eligible ∧ Job.app job ∉ blocked ∧
  job_claimed_by (Job.id job) (Job.attempts job) ex t' = true ∧
  ∀ ex', ex' ≠ ex →
    job_claimed_by (Job.id job) (Job.attempts job) ex' t' = false ∧
    ∀ now', heartbeat_from now' (Job.id job) (Job.attempts job) ex' t' = (t', false).
Proof.
  intros Hnd Hc. unfold claim_next_for_executor in Hc. destruct eligible as [|a l0]; [done|].
  pose proof (claim_by_spec (λ t, order_by (claim_before aging now)
    (select_where (λ r, claimable now blocked t r && bool_decide (Job.app r ∈ a :: l0)) t))
    (λ r, (claim_row now r) <| Job.executor_id := Some ex |>) t) as Hs.
  rewrite Hc in Hs. destruct Hs as (r & l & Hp & -> & ->).
  set (job := (claim_row now r) <| Job.executor_id := Some ex |>).
  set (t' := update_where _ _ t).
  assert (r ∈ t ∧ claimable now blocked t r = true ∧ Job.app r ∈ a :: l0) as (Hr & Hcl & Ha).
  { assert (r ∈ r :: l) as Hin by left. rewrite <- Hp in Hin.
    autorewrite with sql in Hin. breflect_in Hin. tauto. }
  apply claimable_spec in Hcl as (_ & _ & Hb & _).
  assert (∀ x, x ∈ t' → running_at (Job.id job) (Job.attempts job) x = true → x = job) as Hu.
  { intros x Hx Hrun. apply running_at_spec in Hrun as (Hi & _ & _). cbn in Hi.
    apply elem_of_update in Hx as (x0 & Hx0 & ->). unfold by_id in *.
    destruct (Job.id x0 =? Job.id r) eqn:E.
    - apply Z.eqb_eq in E. by rewrite (lookup_by_unique Job.id t x0 r).
    - apply Z.eqb_neq in E. congruence. }
  assert (job ∈ t') as Hj.
  { apply elem_of_update. exists r. split; [done|]. unfold by_id. by rewrite Z.eqb_refl. }
  assert (∀ ex' x, ex' ≠ ex → x ∈ t' →
    running_at (Job.id job) (Job.attempts job) x
      && bool_decide (Job.executor_id x = Some ex') = false) as Hno.
  { intros ex' x Hex Hx. apply not_true_iff_false. intros Ht. breflect_in Ht.
    destruct Ht as [Hrun He]. rewrite (Hu x Hx Hrun) in He. cbn in He. congruence. }
  split_and!; [done|done| |].
  - apply existsb_exists. exists job. rewrite <- list_elem_of_In. split; [done|].
    apply andb_true_iff. split; [|by apply bool_decide_eq_true].
    by apply running_at_spec.
  - intros ex' Hex. split.
    + apply not_true_iff_false. intros Ht. apply existsb_exists in Ht as (x & Hx & Ht).
      apply list_elem_of_In in Hx. by rewrite Hno in Ht.
    + intros now'. unfold heartbeat_from, guarded. f_equal.
      * apply update_where_none. auto.
      * rewrite (proj2 (rows_affected_0 _ _)); [done|]. auto.
Qed.
End guarantees.

(** Three queued jobs: the due one of highest priority is taken. *)
Definition claim_table : table :=
  [new_row 1 "a" (Opts.default <| Opts.priority := 1 |>) None 0;
   new_row 2 "b" (Opts.default <| Opts.priority := 7 |>) None 3;
   new_row 3 "b" (Opts.default <| Opts.priority := 9 |> <| Opts.delay_secs := 60 |>) None 1].

Lemma claim_next_takes_first_witness :
  ∃ r, r ∈ claim_table ∧ Job.id r = 2 ∧
    (@claim_next (λ t, f64_of_Z t) 10 [] f64_zero claim_table).2 = Some (claim_row 10 r).
Proof.
  pose proof (@claim_next_takes_first (λ t, f64_of_Z t) 10 [] f64_zero claim_table) as Hc.
  destruct (@claim_next (λ t, f64_of_Z t) 10 [] f64_zero claim_table) as [t' o] eqn:E.
  vm_compute in E. injection E as <- <-.
  destruct Hc as (r & Hr & _ & _ & He & _); [by apply (bool_decide_unpack _); vm_compute|].
  exists r. split; [done|]. split; [|by rewrite He].
  replace (Job.id r) with (Job.id (claim_row 10 r)) by done. rewrite <- He. reflexivity.
Defined.

Lemma executor_claim_fenced_witness :
  ∃ t' job,
    @claim_next_for_executor (λ t, f64_of_Z t) 10 "ex1" ["a"%string] [] f64_zero claim_table
      = (t', Some job) ∧ Job.id job = 1 ∧ job_claimed_by 1 1 "ex2" t' = false.
Proof.
  eexists _, _. split; [reflexivity|]. split; [reflexivity|].
  refine (proj1 (proj2 (proj2 (proj2 (@executor_claim_fenced (λ t, f64_of_Z t) 10 "ex1"
    ["a"%string] [] f64_zero claim_table _ _ _ eq_refl))) "ex2"%string _)).
  - by apply (bool_decide_unpack _); vm_compute.
  - done.
Defined.

(** ** The outcome of a failure *)

Lemma get_update id p f t :
  (∀ r, Job.id (f r) = Job.id r) →
  get id (update_where p f t) = (λ r, if p r then f r else r) <$> get id t.
Proof. apply lookup_by_update. Qed.

Lemma get_running_at id t r :
  get id t = Some r → Job.status r = Running → running_at id (Job.attempts r) r = true.
Proof. intros Hg Hs. apply lookup_by_Some in Hg as [_ Hid]. by apply running_at_spec. Qed.

Lemma guarded_landed id attempt f t r :
  get id t = Some r → running_at id attempt r = true → (∀ x, Job.id (f x) = Job.id x) →
  (guarded (running_at id attempt) f t).2 = true ∧
  get id (guarded (running_at id attempt) f t).1 = Some (f r).
Proof.
  intros Hg Hp Hf. unfold guarded. cbn [fst snd]. split.
  - apply Z.ltb_lt, rows_affected_pos. exists r. split; [|done].
    by apply lookup_by_Some in Hg as [? _].
  - rewrite get_update, Hg by done. cbn. by rewrite Hp.
Qed.

Section failures.
Context `{JsonRender}.

(** The policy's answer for a failure at attempt [a]. *)
Definition policy (reason : FailReason) (a : Z) : Requeue :=
  match reason_error reason with
  | Some e => requeue_after e a (stated_retry_after e)
  | None => After (ladder_delay a) REQUEUE_REASON_LADDER
  end.

(** the outcome of a failure.  A failure that finds its attempt running
    either fails the job for good or queues it again.  It fails for good exactly
    when the policy gave up or the attempt budget is spent; otherwise the row is
    queued with the policy's reason, at the same attempt, and becomes due no
    sooner than the policy's delay and at most a quarter of it later. *)
Theorem fail_outcome now id reason t r :
  get id t = Some r → Job.status r = Running →
  ∃ t' st r', fail now id (Job.attempts r) reason t = (t', Some st) ∧
    get id t' = Some r' ∧ Job.status r' = st ∧ Job.attempts r' = Job.attempts r ∧
    Job.max_attempts r' = Job.max_attempts r ∧ Job.error r' = Some (reason_text reason) ∧
    match policy reason (Job.attempts r) with
    | Never why =>
        st = Failed ∧ Job.requeue_reason r' = Some why ∧ Job.finished_at r' = Some now
    | After delay why =>
        if Job.attempts r <? Job.max_attempts r then
          st = Queued ∧ Job.requeue_reason r' = Some why ∧
          Job.cause_kind r' = (reason_error reason ≫= cause_kind) ∧
          (0 ≤ as_secs delay < 2 ^ 53 →
           now + seconds (as_secs delay) ≤ Job.available_at r'
           ≤ now + seconds (as_secs delay + as_secs delay / 4))
        else st = Failed ∧ Job.finished_at r' = Some now
    end.
Proof.
  intros Hg Hs. pose proof (get_running_at id t r Hg Hs) as Hp.
  unfold fail, fail_plan. rewrite Hg. unfold JobStatus.eqb.
  rewrite (bool_decide_true (Job.status r = Running)), Z.eqb_refl by done. cbn [negb orb].
  fold (policy reason (Job.attempts r)).
  destruct (policy reason (Job.attempts r)) as [delay why|why]; [case_if|];
    unfold fail_apply, fail_permanently_because;
    match goal with |- context [guarded _ ?f t] =>
      destruct (guarded_landed id _ f t r Hg Hp ltac:(done)) as [Hl Hr'];
      rewrite (surjective_pairing (guarded _ f t)), Hl end;
    (eexists _, _, _; split; [reflexivity|]; split; [exact Hr'|]);
    cbn -[jitter_secs jitter_seed as_secs seconds].
  - split_and!; try done. intros Hd.
    pose proof (jitter_secs_quarter (jitter_seed (Job.id r) (Job.attempts r)) _ Hd).
    unfold seconds. lia.
  - done.
  - done.
Qed.
End failures.

Definition running_row : Job.t := claim_row 5 keyed_row.

Lemma fail_outcome_witness :
  ∃ r', get 1 (@fail (λ _, ""%string) 100 1 1 (Text "boom") [running_row]).1 = Some r' ∧
    Job.status r' = Failed.
Proof.
  destruct (@fail_outcome (λ _, ""%string) 100 1 (Text "boom") [running_row] running_row)
    as (t' & st & r' & He & Hg & Hs & _ & _ & _ & Hv); [reflexivity|reflexivity|].
  change (Job.attempts running_row) with 1 in He. exists r'. rewrite He. split; [done|].
  destruct Hv as [Hv _]. congruence.
Defined.

(** the retry policy.  It gives up exactly on a failure no attempt can
    change; otherwise the delay is never shorter than the attempt ladder, unless
    the store itself was contended, and it is longer only when the server stated
    a longer wait, which is then honoured in full. *)
Theorem requeue_policy e a stated :
  match requeue_after e a stated with
  | Never why => is_router_failure e = true ∧ why = REQUEUE_REASON_OURS
  | After d why =>
      is_router_failure e = false ∧
      (ladder_delay a ≤ d ∨ (is_store_contention e = true ∧ d = CONTENTION_DELAY)) ∧
      (ladder_delay a < d → stated = Some d ∧ why = REQUEUE_REASON_STATED) ∧
      (∀ w, stated = Some w → ladder_delay a < w → d = w)
  end.
Proof.
  pose proof (ladder_delay_bounds a) as Hl. unfold CONTENTION_DELAY, from_secs in *.
  destruct (requeue_after e a stated) as [d why|why] eqn:E.
  - assert (is_router_failure e = false) as Hr.
    { destruct (is_router_failure e) eqn:Hr; [|done].
      unfold requeue_after in E. by rewrite Hr in E. }
    assert (∀ w, stated = Some w → ladder_delay a < w → d = w) as Hw.
    { intros w -> Hlt. unfold requeue_after in E. rewrite Hr in E.
      apply Z.ltb_lt in Hlt. rewrite Hlt in E. by injection E. }
    split; [done|].
    apply requeue_after_delay in E as [(-> & -> & _)|[(-> & Hlt & ->)|(-> & Hc & ->)]];
      (split; [|split; [|done]]).
    + by left.
    + lia.
    + left. lia.
    + done.
    + by right.
    + unfold CONTENTION_DELAY, from_secs. lia.
  - by apply requeue_after_never in E.
Qed.

(** the attempt ladder.  Within the range of attempt numbers the cast to
    [u32] preserves, the delay is [min(10 * 2^attempts, 3600)] seconds: the
    saturating arithmetic never wraps, the delay grows with the attempt, and it
    stays between ten seconds and an hour. *)
Theorem ladder_delay_ladder a b :
  0 ≤ a ≤ b → b < 2 ^ 32 →
  ladder_delay a = from_secs (Z.min (10 * 2 ^ a) 3600) ∧
  from_secs 10 ≤ ladder_delay a ≤ ladder_delay b ∧ ladder_delay b ≤ from_secs 3600.
Proof.
  intros Ha Hb. split; [apply ladder_delay_closed_form; lia|].
  pose proof (ladder_delay_bounds a). pose proof (ladder_delay_bounds b).
  pose proof (ladder_delay_mono a b ltac:(lia) Hb). lia.
Qed.

Lemma ladder_delay_ladder_witness : ladder_delay 3 = from_secs 80.
Proof. exact (proj1 (ladder_delay_ladder 3 9 ltac:(lia) ltac:(lia))). Defined.

(** ** Parking, resuming and the operator's doors *)

Lemma guarded_get_hit id p f t r :
  get id t = Some r → p r = true → (∀ x, Job.id (f x) = Job.id x) →
  guarded_get id p f t = (update_where p f t, Some (f r)).
Proof.
  intros Hg Hp Hf. unfold guarded_get.
  assert (0 < rows_affected p t).
  { apply rows_affected_pos. exists r. by apply lookup_by_Some in Hg as [? _]. }
  rewrite (proj2 (Z.eqb_neq _ _)) by lia.
  rewrite get_update, Hg by done. cbn. by rewrite Hp.
Qed.

Lemma guarded_get_miss id p f t :
  (∀ r, r ∈ t → p r = false) → guarded_get id p f t = (t, None).
Proof.
  intros Hp. unfold guarded_get.
  by rewrite (proj2 (rows_affected_0 p t) Hp), update_where_none.
Qed.

Lemma get_id id t r : get id t = Some r → by_id id r = true.
Proof. intros Hg. apply lookup_by_Some in Hg as [_ Hid]. by apply Z.eqb_eq. Qed.

(** parking costs no budget.  An attempt that parks and is resumed comes back
    queued, due at once, at the attempt it parked at, carrying the operator's
    input and no deadline; at least one more attempt is granted and none that
    remained is lost; and a second resume finds nothing to do. *)
Theorem park_resume_keeps_budget now now' id request expires input t r :
  NoDup (map Job.id t) → get id t = Some r → Job.status r = Running →
  let '(t1, parked) := await_input now id (Job.attempts r) request expires t in
  let '(t2, resumed) := resume now' id input t1 in
  parked = true ∧
  (∃ r2, resumed = Some r2 ∧ get id t2 = Some r2 ∧ Job.status r2 = Queued ∧
     Job.available_at r2 = now' ∧ Job.attempts r2 = Job.attempts r ∧
     Job.attempts r2 < Job.max_attempts r2 ∧ Job.max_attempts r ≤ Job.max_attempts r2 ∧
     Job.resumed_input r2 = Some input ∧ Job.waiting_expires_at r2 = None ∧
     Job.input_request r2 = Some request) ∧
  ∀ now3 input3, resume now3 id input3 t2 = (t2, None).
Proof.
  intros Hnd Hg Hs. pose proof (get_running_at id t r Hg Hs) as Hp.
  destruct (await_input now id (Job.attempts r) request expires t) as [t1 parked] eqn:E1.
  pose proof E1 as Ea. unfold await_input in E1.
  match type of E1 with guarded _ ?f _ = _ =>
    destruct (guarded_landed id _ f t r Hg Hp ltac:(done)) as [Hl Hr1] end.
  rewrite E1 in Hl, Hr1. cbn [fst snd] in Hl, Hr1.
  assert (NoDup (map Job.id t1)) as Hnd1.
  { injection E1 as <- _. by rewrite map_update_where. }
  set (p2 := λ r, by_id id r && JobStatus.eqb (Job.status r) Waiting).
  match type of Hr1 with _ = Some ?r1 => assert (p2 r1 = true) as Hp2 end.
  { apply andb_true_iff. split; [by apply (get_id id t1)|done]. }
  unfold resume at 1. fold p2. rewrite (guarded_get_hit id p2 _ t1 _ Hr1 Hp2) by done.
  set (t2 := update_where p2 _ t1). split; [done|].
  eassert (get id t2 = Some _) as Hr2.
  { unfold t2. rewrite get_update, Hr1 by done. cbn [fmap option_fmap option_map].
    rewrite Hp2. reflexivity. }
  split.
  - eexists. split; [reflexivity|]. split; [exact Hr2|]. cbn. split_and!; try done; lia.
  - intros now3 input3. unfold resume. apply guarded_get_miss. intros x Hx.
    apply not_true_iff_false. intros Hw. apply andb_true_iff in Hw as [Hi Hw].
    assert (NoDup (map Job.id t2)) as Hnd2 by (unfold t2; by rewrite map_update_where).
    apply Z.eqb_eq in Hi. pose proof (lookup_by_elem Job.id t2 x Hnd2 Hx) as Hx2.
    rewrite Hi in Hx2. unfold get in Hr2. rewrite Hr2 in Hx2. injection Hx2 as <-. done.
Qed.

Lemma park_resume_keeps_budget_witness :
  (resume 30 1 (JBool true) (await_input 20 1 1 JNull (Some 99) [running_row]).1).2 ≠ None.
Proof.
  pose proof (park_resume_keeps_budget 20 30 1 JNull (Some 99) (JBool true)
                [running_row] running_row) as Hp.
  change (Job.attempts running_row) with 1 in Hp.
  destruct (await_input 20 1 1 JNull (Some 99) [running_row]) as [t1 parked].
  cbn [fst]. destruct (resume 30 1 (JBool true) t1) as [t2 resumed].
  destruct Hp as (_ & (r2 & -> & _) & _); [|reflexivity..|done].
  by apply NoDup_singleton.
Defined.

(** the doors that re-arm.  [reset] and [retry] each find their row or change
    nothing; a row they find comes back queued, due now, its error and finish
    cleared, with an attempt left to claim. *)
Theorem rearm_doors now id t r :
  get id t = Some r → NoDup (map Job.id t) →
  let rearmed t' o :=
    ∃ r', o = Some r' ∧ get id t' = Some r' ∧ Job.status r' = Queued ∧
      Job.available_at r' = now ∧ Job.error r' = None ∧ Job.finished_at r' = None ∧
      Job.attempts r' = Job.attempts r ∧
      Job.max_attempts r' = Z.max (Job.max_attempts r) (Job.attempts r + 1) in
  (if JobStatus.eqb (Job.status r) Running
   then rearmed (reset now id t).1 (reset now id t).2
   else reset now id t = (t, None)) ∧
  (if JobStatus.eqb (Job.status r) Failed || JobStatus.eqb (Job.status r) Cancelled
   then rearmed (retry now id t).1 (retry now id t).2
   else retry now id t = (t, None)).
Proof.
  intros Hg Hnd rearmed. pose proof (get_id id t r Hg) as Hi.
  assert (∀ (q : Job.t → bool),
    if q r then rearmed (guarded_get id (λ r, by_id id r && q r) (rearm now) t).1
                        (guarded_get id (λ r, by_id id r && q r) (rearm now) t).2
    else guarded_get id (λ r, by_id id r && q r) (rearm now) t = (t, None)) as Hdoor.
  { intros q. destruct (q r) eqn:Hq.
    - rewrite (guarded_get_hit id _ _ t r Hg) by (done || by rewrite Hi, Hq). cbn [fst snd].
      eexists. split; [reflexivity|]. split; [|done].
      rewrite get_update, Hg by done. cbn -[by_id rearm]. by rewrite Hi, Hq.
    - apply guarded_get_miss. intros x Hx. destruct (by_id id x) eqn:E; [|done]. cbn.
      apply Z.eqb_eq in E. pose proof (lookup_by_elem Job.id t x Hnd Hx) as Hx'.
      rewrite E in Hx'. unfold get in Hg. rewrite Hg in Hx'. by injection Hx' as <-. }
  split; [apply (Hdoor (λ r, JobStatus.eqb (Job.status r) Running))|].
  apply (Hdoor (λ r, JobStatus.eqb (Job.status r) Failed
                     || JobStatus.eqb (Job.status r) Cancelled)).
Qed.

Lemma rearm_doors_witness : reset 9 1 [keyed_row] = ([keyed_row], None).
Proof.
  refine (proj1 (rearm_doors 9 1 [keyed_row] keyed_row _ _)); [done|].
  by apply NoDup_singleton.
Defined.
