(* ===== verification/QueueSweeps.v ===== *)
(** * QueueSweeps: the queue's bulk operations and lists

    Keyset pagination, the expiry of parked jobs, the bulk retry, and the two
    recovery sweeps. *)

From S2P Require Import Prelude Sql Float64 Jitter Json Errors Requeue Jobs JobQueue.
From S2P Require Import QueueInvariants.

(** ** Keyset pagination *)

Lemma newest_first_total a b : newest_first a b = true ∨ newest_first b a = true.
Proof. unfold newest_first. breflect. lia. Qed.
Lemma newest_first_trans a b c :
  newest_first a b = true → newest_first b c = true → newest_first a c = true.
Proof. unfold newest_first. breflect. lia. Qed.

Lemma after_cursor_spec x z :
  after_cursor (Some (Job.created_at x, Job.id x)) z = negb (newest_first z x).
Proof.
  unfold after_cursor, newest_first. apply eq_true_iff_eq. breflect. lia.
Qed.

(** The whole list a filter selects, newest first. *)
Definition listing (q : Query.t) (t : table) : list Job.t :=
  order_by newest_first (select_where (job_filters q) t).

Lemma NoDup_listing q t : NoDup (map Job.id t) → NoDup (map Job.id (listing q t)).
Proof.
  intros Hnd. change (NoDup (Job.id <$> listing q t)). unfold listing.
  rewrite order_by_perm. by apply NoDup_select_keys.
Qed.

Lemma suffix_after q t l0 x l :
  NoDup (map Job.id t) → listing q t = l0 ++ x :: l →
  order_by newest_first
    (select_where (λ r, job_filters q r
                        && after_cursor (Some (Job.created_at x, Job.id x)) r) t) = l.
Proof.
  intros Hnd Hl. set (aft := after_cursor _).
  rewrite select_where_and. unfold select_where at 1.
  rewrite (filter_order_by _ newest_first_total newest_first_trans).
  fold (listing q t). pose proof (NoDup_listing q t Hnd) as Hnl. rewrite Hl in *.
  pose proof (order_by_sorted _ newest_first_total newest_first_trans
                (select_where (job_filters q) t)) as Hs.
  fold (listing q t) in Hs. rewrite Hl in Hs.
  assert (∀ y, y ∈ l0 ++ [x] → aft y = false) as Hpre.
  { intros y Hy. unfold aft. rewrite after_cursor_spec, negb_false_iff.
    apply elem_of_app in Hy as [Hy|Hy].
    - unfold sorted_by in Hs. eapply (StronglySorted_app_1_elem_of _ l0 _ y x) in Hs; [done|done|left].
    - apply list_elem_of_singleton in Hy as ->. by destruct (newest_first_total x x). }
  assert (∀ y, y ∈ l → aft y = true) as Hsuf.
  { intros y Hy. unfold aft. rewrite after_cursor_spec, negb_true_iff.
    apply StronglySorted_app_1_r in Hs. inversion Hs as [|?? _ Hall]; subst.
    eapply Forall_forall in Hall; [|exact Hy]. apply not_true_iff_false. intros Hc.
    assert (Job.id y = Job.id x) as He.
    { unfold newest_first in *. breflect_in Hall. breflect_in Hc. lia. }
    rewrite List.map_app in Hnl. apply NoDup_app in Hnl as (_ & _ & Hnl). cbn in Hnl.
    apply NoDup_cons in Hnl as [Hni _]. apply Hni. rewrite <- He.
    by apply list_elem_of_In, in_map, list_elem_of_In. }
  replace (l0 ++ x :: l) with ((l0 ++ [x]) ++ l) by by rewrite <- app_assoc.
  rewrite List.filter_app. fold (select_where aft (l0 ++ [x])) (select_where aft l).
  by rewrite select_where_none, select_where_all.
Qed.

Lemma list_page_after q limit t l0 x l :
  NoDup (map Job.id t) → 0 ≤ limit → listing q t = l0 ++ x :: l →
  list_page q (Some (Job.created_at x, Job.id x)) limit t = take (Z.to_nat limit) l.
Proof.
  intros Hnd Hlim Hl. unfold list_page, job_query_builder. cbn [is_some].
  rewrite (suffix_after q t l0 x l) by done. unfold sql_limit.
  by rewrite (proj2 (Z.ltb_ge limit 0)).
Qed.

(** No two matching rows were created in the same microsecond. *)
Definition distinct_created (q : Query.t) (t : table) : Prop :=
  ∀ r1 r2, r1 ∈ t → r2 ∈ t → job_filters q r1 = true → job_filters q r2 = true →
    Job.created_at r1 = Job.created_at r2 → Job.id r1 = Job.id r2.

Lemma list_page_first q limit t :
  0 ≤ limit → distinct_created q t →
  list_page q None limit t = take (Z.to_nat limit) (listing q t).
Proof.
  intros Hlim Hd. unfold list_page, job_query_builder. cbn [is_some].
  rewrite select_where_and. unfold sql_limit. rewrite (proj2 (Z.ltb_ge limit 0)) by done.
  f_equal. unfold listing.
  assert (select_where (after_cursor None) (select_where (job_filters q) t)
          = select_where (job_filters q) t) as ->.
  { by apply select_where_all. }
  apply order_by_ext. intros a b Ha Hb. apply elem_of_select in Ha as [Ha Pa], Hb as [Hb Pb].
  unfold newest_first, newest_created. apply eq_true_iff_eq. breflect.
  pose proof (Hd a b Ha Hb Pa Pb). lia.
Qed.

Lemma walk_from fuel q limit t after l :
  NoDup (map Job.id t) → 1 ≤ limit → (length l < fuel)%nat →
  (∃ l0, listing q t = l0 ++ l) →
  list_page q after limit t = take (Z.to_nat limit) l →
  walk_jobs fuel q after limit t = l.
Proof.
  intros Hnd Hlim. revert after l. induction fuel as [|fuel IH]; intros after l Hf [l0 Hl] Hp;
    [lia|]. cbn [walk_jobs]. rewrite Hp. unfold keyset_cursor.
  destruct (Z.eqb_spec (Z.of_nat (length (take (Z.to_nat limit) l))) limit) as [E|E].
  - rewrite length_take in E. set (k := Z.to_nat limit) in *.
    destruct (last (take k l)) as [x|] eqn:Hx; cbn.
    + apply last_Some in Hx as [p Hx]. assert (l = p ++ x :: drop k l) as Hpl.
      { rewrite <- (take_drop k l) at 1. by rewrite Hx, <- app_assoc. }
      rewrite (IH _ (drop k l)); [by rewrite take_drop|rewrite length_drop; lia| |].
      * exists (l0 ++ p ++ [x]). rewrite Hl, Hpl at 1. by rewrite <- !app_assoc.
      * apply (list_page_after q limit t (l0 ++ p)); [done|lia|].
        rewrite Hl, Hpl at 1. by rewrite <- !app_assoc.
    + apply last_None in Hx. apply (f_equal length) in Hx. rewrite length_take in Hx.
      cbn in Hx. lia.
  - rewrite app_nil_r. apply take_ge. rewrite length_take in E. lia.
Qed.

(** pagination.  When no two matching rows share a creation microsecond, a
    client that follows the cursors reads every matching row exactly once, newest
    first, whatever the page size. *)
Theorem walk_reads_the_listing q limit t fuel :
  NoDup (map Job.id t) → distinct_created q t → 1 ≤ limit → (length t < fuel)%nat →
  walk_jobs fuel q None limit t = order_by newest_first (select_where (job_filters q) t).
Proof.
  intros Hnd Hd Hlim Hf. apply walk_from; [done|done| |by exists []|].
  - unfold listing. rewrite length_order_by.
    pose proof (length_select_where (job_filters q) t). lia.
  - apply list_page_first; [lia|done].
Qed.

Definition page_row (id : Uuid) (created : timestamp) : Job.t :=
  new_row id "app" Opts.default None created.

Lemma walk_reads_the_listing_witness :
  map Job.id (walk_jobs 4 Query.all None 1 [page_row 1 10; page_row 2 30; page_row 3 20])
    = [2; 3; 1].
Proof.
  rewrite (walk_reads_the_listing Query.all 1 [page_row 1 10; page_row 2 30; page_row 3 20]).
  - reflexivity.
  - by apply (bool_decide_unpack _); vm_compute.
  - intros r1 r2 H1 H2 _ _.
    repeat (apply elem_of_cons in H1 as [->|H1]);
      repeat (apply elem_of_cons in H2 as [->|H2]); cbn;
      try (by apply not_elem_of_nil in H1); try (by apply not_elem_of_nil in H2); lia.
  - lia.
  - cbn. lia.
Defined.

(** pagination with ties.  The first page is ordered by creation time alone,
    so rows created in one microsecond can appear on it in any order, while its
    cursor assumes they are ordered by id: here row 3 is never listed, and row 1
    is listed twice. *)
Theorem walk_skips_a_tied_row :
  ∃ t r, NoDup (map Job.id t) ∧ r ∈ t ∧ job_filters Query.all r = true ∧
    (∀ fuel, r ∉ walk_jobs fuel Query.all None 2 t).
Proof.
  exists [page_row 1 10; page_row 2 10; page_row 3 10], (page_row 3 10). split_and!.
  - by apply (bool_decide_unpack _); vm_compute.
  - set_solver.
  - done.
  - intros [|[|fuel]]; cbn; intros Hin; repeat (apply elem_of_cons in Hin as [Hin|Hin]);
      try done; by apply not_elem_of_nil in Hin.
Qed.

(** ** Recovery *)

Lemma guarded_frame id attempt f t :
  (∀ x, Job.id (f x) = Job.id x) →
  map Job.id (guarded (running_at id attempt) f t).1 = map Job.id t ∧
  ∀ id', id' ≠ id → get id' (guarded (running_at id attempt) f t).1 = get id' t.
Proof.
  intros Hf. unfold guarded. cbn [fst]. split; [by apply map_update_where|].
  intros id' Hne. unfold get. rewrite lookup_by_update by done.
  destruct (lookup_by Job.id id' t) as [x|] eqn:E; [|done]. cbn.
  apply lookup_by_Some in E as [_ Hx]. unfold running_at, by_id.
  by rewrite (proj2 (Z.eqb_neq _ _)) by congruence.
Qed.

Section recovery.
Context `{JsonRender}.

(** The verdict the ladder gives an interrupted attempt. *)
Definition interrupted_status (r : Job.t) : JobStatus :=
  if Job.attempts r <? Job.max_attempts r then Queued else Failed.

Lemma fail_text now reason t r :
  get (Job.id r) t = Some r → Job.status r = Running →
  ∃ t' r', fail now (Job.id r) (Job.attempts r) (Text reason) t
             = (t', Some (interrupted_status r)) ∧
    get (Job.id r) t' = Some r' ∧ Job.status r' = interrupted_status r ∧
    map Job.id t' = map Job.id t ∧ (∀ id, id ≠ Job.id r → get id t' = get id t).
Proof.
  intros Hg Hs. assert (running_at (Job.id r) (Job.attempts r) r = true) as Hp.
  { by apply running_at_spec. }
  unfold fail, fail_plan. rewrite Hg. unfold JobStatus.eqb, interrupted_status.
  rewrite (bool_decide_true (Job.status r = Running)), Z.eqb_refl by done.
  cbn [negb orb reason_error]. case_if; unfold fail_apply, fail_permanently_because;
    match goal with |- context [guarded ?p ?f t] =>
      assert (0 < rows_affected p t) as Ha
        by (apply rows_affected_pos; exists r; split; [by apply lookup_by_Some in Hg as [? _]|done]);
      destruct (guarded_frame (Job.id r) (Job.attempts r) f t ltac:(done)) as [Hi Hf];
      exists (guarded p f t).1, (f r);
      split; [unfold guarded; cbn [fst snd]; by rewrite (proj2 (Z.ltb_lt _ _) Ha)|];
      split; [|done];
      unfold guarded; cbn [fst]; unfold get; rewrite lookup_by_update by done;
      unfold get in Hg; rewrite Hg; cbn -[running_at]; by rewrite Hp
    end.
Qed.

Variable clock : nat → timestamp.
Variable over_budget : nat → bool.

Definition judged (r : Job.t) : Uuid * string * JobStatus :=
  (Job.id r, Job.app r, interrupted_status r).

(** A sweep judges a prefix of the rows it was given. *)
Lemma verdicts_prefix rows i reason sweep t :
  NoDup (map Job.id rows) →
  (∀ r, r ∈ rows → get (Job.id r) t = Some r ∧ Job.status r = Running) →
  ∃ k t', issue_recovery_verdicts clock over_budget i rows reason sweep t
      = (t', sweep
               <| Sweep.requeued ::= λ n, n + rows_affected
                    (λ r, JobStatus.eqb (interrupted_status r) Queued) (take k rows) |>
               <| Sweep.failed ::= λ n, n + rows_affected
                    (λ r, JobStatus.eqb (interrupted_status r) Failed) (take k rows) |>
               <| Sweep.truncated ::= λ b, b || (k <? length rows)%nat |>
               <| Sweep.verdicts ::= λ l, l ++ map judged (take k rows) |>) ∧
    (k ≤ length rows)%nat ∧ map Job.id t' = map Job.id t ∧
    (∀ r, r ∈ take k rows → ∃ r', get (Job.id r) t' = Some r' ∧
                                 Job.status r' = interrupted_status r) ∧
    (∀ id, id ∉ map Job.id (take k rows) → get id t' = get id t).
Proof.
  revert i sweep t. induction rows as [|r rows IH]; intros i sweep t Hnd Hrows.
  { exists 0%nat, t. split_and!; try done; [|set_solver]. destruct sweep; cbn.
    by rewrite !Z.add_0_r, orb_false_r, app_nil_r. }
  cbn [issue_recovery_verdicts]. destruct (over_budget i).
  { exists 0%nat, t. split_and!; try done; [|cbn; lia|set_solver]. destruct sweep; cbn.
    by rewrite !Z.add_0_r, orb_true_r, app_nil_r. }
  cbn in Hnd. apply NoDup_cons in Hnd as [Hni Hnd].
  destruct (Hrows r ltac:(left)) as [Hg Hs].
  destruct (fail_text (clock i) reason t r Hg Hs) as (t1 & r1 & -> & Hg1 & Hs1 & Hi1 & Hf1).
  set (sw := (match interrupted_status r with
              | Failed => sweep <| Sweep.failed ::= Z.succ |>
              | _ => sweep <| Sweep.requeued ::= Z.succ |> end)
             <| Sweep.verdicts ::= _ |>).
  destruct (IH (S i) sw t1 Hnd) as (k & t2 & -> & Hk & Hi2 & Hj2 & Hf2).
  { intros x Hx. destruct (Hrows x ltac:(by right)) as [Hgx Hsx]. split; [|done].
    rewrite Hf1; [done|]. intros He. apply Hni. rewrite <- He.
    by apply list_elem_of_In, in_map, list_elem_of_In. }
  exists (S k), t2. split_and!.
  - f_equal. subst sw. destruct sweep. cbn [take]. rewrite !rows_affected_cons.
    generalize (rows_affected (λ r, JobStatus.eqb (interrupted_status r) Queued) (take k rows)).
    generalize (rows_affected (λ r, JobStatus.eqb (interrupted_status r) Failed) (take k rows)).
    intros nf nq. cbn. unfold judged at 2, interrupted_status.
    case_if; cbn; rewrite <- app_assoc; cbn; f_equal; try done;
      change (JobStatus.eqb _ _) with true; lia.
  - cbn. lia.
  - congruence.
  - intros x Hx. cbn in Hx. apply elem_of_cons in Hx as [->|Hx]; [|by apply Hj2].
    exists r1. rewrite Hf2; [done|]. intros Hin. apply Hni.
    apply list_elem_of_In, in_map_iff in Hin as (y & <- & Hy).
    apply list_elem_of_In in Hy. apply list_elem_of_In, in_map, list_elem_of_In.
    rewrite <- (take_drop k rows). apply elem_of_app. by left.
  - intros id Hid. cbn in Hid. rewrite not_elem_of_cons in Hid.
    rewrite Hf2 by tauto. apply Hf1. tauto.
Qed.

Lemma sweep_rows_running n le p t r :
  NoDup (map Job.id t) → (∀ x, p x = true → Job.status x = Running) →
  r ∈ sql_limit n (order_by le (select_where p t)) →
  get (Job.id r) t = Some r ∧ Job.status r = Running.
Proof.
  intros Hnd Hp Hr. apply elem_of_limited in Hr as [Hr Hpr]. split; [|by apply Hp].
  by apply lookup_by_elem.
Qed.

Lemma verdict_counts l :
  rows_affected (λ r, JobStatus.eqb (interrupted_status r) Queued) l
  + rows_affected (λ r, JobStatus.eqb (interrupted_status r) Failed) l = Z.of_nat (length l).
Proof.
  induction l as [|r l IH]; [done|]. rewrite !rows_affected_cons. cbn [length].
  assert ((if JobStatus.eqb (interrupted_status r) Queued then 1 else 0)
          + (if JobStatus.eqb (interrupted_status r) Failed then 1 else 0) = 1).
  { unfold interrupted_status. by destruct (Job.attempts r <? Job.max_attempts r). }
  lia.
Qed.

(** crash recovery.  The boot sweep skips nothing, judges each running job
    by the attempt ladder (queued while its budget lasts, failed otherwise),
    reports exactly those verdicts, and leaves every other row alone.  Unless it
    says it was truncated, no job is left running. *)
Theorem recover_stuck_settles reason t :
  NoDup (map Job.id t) →
  let '(t', sweep) := recover_stuck_with_reason clock over_budget reason t in
  Sweep.skipped sweep = 0 ∧
  Sweep.requeued sweep + Sweep.failed sweep = Z.of_nat (length (Sweep.verdicts sweep)) ∧
  (∀ id app st, (id, app, st) ∈ Sweep.verdicts sweep →
     ∃ r r', get id t = Some r ∧ Job.status r = Running ∧ get id t' = Some r' ∧
       Job.status r' = st ∧
       st = if Job.attempts r <? Job.max_attempts r then Queued else Failed) ∧
  (∀ r, r ∈ t → Job.status r ≠ Running → get (Job.id r) t' = Some r) ∧
  (Sweep.truncated sweep = false → ∀ r, r ∈ t' → Job.status r ≠ Running).
Proof.
  intros Hnd. unfold recover_stuck_with_reason.
  set (p := λ r, JobStatus.eqb (Job.status r) Running).
  set (rows := sql_limit _ _).
  assert (∀ r, r ∈ rows → get (Job.id r) t = Some r ∧ Job.status r = Running) as Hrun.
  { intros r. apply sweep_rows_running; [done|]. intros x Hx. unfold p in Hx.
    by apply bool_decide_eq_true in Hx. }
  assert (Z.of_nat (length rows) ≠ RECOVERY_SWEEP_LIMIT →
          ∀ r, r ∈ t → Job.status r = Running → r ∈ rows) as Hall.
  { intros Hn r Hr Hs. apply limited_complete; [done|exact Hn|done|].
    unfold p. by apply bool_decide_eq_true. }
  assert (NoDup (map Job.id rows)) as Hndr by by apply NoDup_limited_keys.
  clearbody rows.
  destruct (verdicts_prefix rows 0 reason Sweep.default t) as (k & t' & -> & Hk & Hi & Hj & Hf).
  { done. }
  { done. }
  assert (∀ x, x ∈ take k rows → x ∈ rows) as Htake.
  { intros x Hx. rewrite <- (take_drop k rows). apply elem_of_app. by left. }
  cbn -[rows_affected]. split_and!.
  - done.
  - rewrite List.length_map, <- verdict_counts. lia.
  - intros id app st Hv. apply list_elem_of_In, in_map_iff in Hv as (r & Hr & Hin).
    apply list_elem_of_In in Hin. unfold judged in Hr. injection Hr as <- <- <-.
    destruct (Hrun r (Htake r Hin)) as [Hg Hs]. destruct (Hj r Hin) as (r' & Hg' & Hs').
    by exists r, r'.
  - intros r Hr Hs. rewrite Hf; [by apply lookup_by_elem|]. intros Hin.
    apply list_elem_of_In, in_map_iff in Hin as (x & Hx & Hin). apply list_elem_of_In in Hin.
    destruct (Hrun x (Htake x Hin)) as [Hg Hsx]. apply Hs.
    rewrite Hx in Hg. unfold get in Hg. rewrite lookup_by_elem in Hg by done. congruence.
  - intros Htr r Hr Hs. apply orb_false_iff in Htr as [Htr Hlim]. apply Z.eqb_neq in Hlim.
    apply Nat.ltb_ge in Htr. rewrite take_ge in Hf, Hj by done.
    assert (NoDup (map Job.id t')) as Hnd' by by rewrite Hi.
    pose proof (lookup_by_elem Job.id t' r Hnd' Hr) as Hg'. fold (get (Job.id r) t') in Hg'.
    destruct (decide (Job.id r ∈ map Job.id rows)) as [Hin|Hin].
    + apply list_elem_of_In, in_map_iff in Hin as (x & Hx & Hin).
      apply list_elem_of_In in Hin. destruct (Hj x Hin) as (r' & Hg1 & Hs1).
      rewrite Hx, Hg' in Hg1. injection Hg1 as <-. rewrite Hs in Hs1.
      unfold interrupted_status in Hs1. by case_match.
    + rewrite (Hf _ Hin) in Hg'. apply Hin. apply lookup_by_Some in Hg' as [Hr0 _].
      apply list_elem_of_In, in_map, list_elem_of_In. by apply Hall.
Qed.
End recovery.

Lemma recover_stuck_settles_witness :
  let t := [claim_row 5 (page_row 1 0); page_row 2 0] in
  (recover_stuck_with_reason (H := λ _, ""%string) (λ _, 50) (λ _, false) "boot" t).1 !! 1%nat
    = Some (page_row 2 0) ∧
  Sweep.skipped (recover_stuck_with_reason (H := λ _, ""%string) (λ _, 50) (λ _, false)
                   "boot" t).2 = 0.
Proof.
  intros t.
  pose proof (@recover_stuck_settles (λ _, ""%string) (λ _, 50) (λ _, false) "boot" t) as Hr.
  split; [vm_compute; reflexivity|].
  destruct (recover_stuck_with_reason _ _ _ t) as [t' sweep].
  apply Hr. by apply (bool_decide_unpack _); vm_compute.
Defined.

(** ** Expiry of parked jobs and the bulk retry *)

Section bulk.
Context (n : Z) (le : Job.t → Job.t → bool) (p : Job.t → bool) (f : Job.t → Job.t).
Context (t : table) (Hnd : NoDup (map Job.id t)) (Hf : ∀ r, Job.id (f r) = Job.id r).

Let sel : list Job.t := sql_limit n (order_by le (select_where p t)).

Lemma bulk_selected r : r ∈ t → id_in sel r = true ↔ r ∈ sel.
Proof.
  intros Hr. split.
  - intros Hi. apply (id_in_elem t); [done| |done|done].
    intros x Hx. by apply elem_of_limited in Hx as [? _].
  - intros Hs. unfold id_in. apply bool_decide_eq_true.
    by apply list_elem_of_In, in_map, list_elem_of_In.
Qed.

Lemma bulk_selection : select_where (id_in sel) t ≡ₚ sel.
Proof.
  assert (∀ l : list Job.t, NoDup (map Job.id l) → NoDup l) as Hm.
  { intros l. apply (NoDup_fmap_1 Job.id). }
  apply NoDup_Permutation.
  - apply Hm. by apply NoDup_select_keys.
  - apply Hm. by apply NoDup_limited_keys.
  - intros r. rewrite elem_of_select. split.
    + intros [Hr Hi]. by apply bulk_selected.
    + intros Hs. pose proof Hs as Hr. apply elem_of_limited in Hr as [Hr _].
      split; [done|]. by apply bulk_selected.
Qed.

Lemma length_bulk :
  0 ≤ n → Z.of_nat (length (returning (id_in sel) f t)) = Z.min n (rows_affected p t).
Proof.
  intros Hn. unfold returning. rewrite List.length_map, bulk_selection.
  unfold sel. rewrite length_sql_limit, length_order_by by done. done.
Qed.

Lemma elem_of_bulk r' :
  r' ∈ returning (id_in sel) f t ↔ ∃ r, r ∈ sel ∧ r ∈ t ∧ p r = true ∧ r' = f r.
Proof.
  unfold returning. rewrite list_elem_of_In, in_map_iff. split.
  - intros (r & <- & Hr). apply list_elem_of_In, elem_of_select in Hr as [Hr Hi].
    apply bulk_selected in Hi; [|done]. exists r.
    pose proof Hi as Hp. apply elem_of_limited in Hp as [_ Hp]. done.
  - intros (r & Hs & Hr & Hp & ->). exists r. split; [done|].
    apply list_elem_of_In, elem_of_select. split; [done|]. by apply bulk_selected.
Qed.

Lemma get_bulk r :
  r ∈ t → get (Job.id r) (update_where (id_in sel) f t) = Some (if id_in sel r then f r else r).
Proof.
  intros Hr. unfold get. rewrite lookup_by_update by done.
  by rewrite (lookup_by_elem Job.id t r).
Qed.

Lemma bulk_all r :
  0 ≤ n → rows_affected p t ≤ n → r ∈ t → p r = true → id_in sel r = true.
Proof.
  intros Hn Hl Hr Hp. apply bulk_selected; [done|]. unfold sel, sql_limit.
  rewrite (proj2 (Z.ltb_ge n 0)) by done. unfold rows_affected in Hl.
  rewrite take_ge by (rewrite length_order_by; lia).
  by apply elem_of_order_by, elem_of_select.
Qed.
End bulk.

(** expiry.  The sweep fails only parked jobs whose deadline has passed, with
    the given reason, answers exactly those, at most [cap] of them, and leaves
    every other row alone; when [cap] covers them no expired job is left parked.  A
    job parked without a deadline never expires. *)
Theorem expire_waiting_exact now reason cap t :
  NoDup (map Job.id t) → 0 ≤ cap →
  let '(t', gone) := expire_waiting now reason cap t in
  Z.of_nat (length gone) = Z.min cap (rows_affected (expired now) t) ∧
  (∀ id app, (id, app) ∈ gone →
     ∃ r d r', get id t = Some r ∧ Job.app r = app ∧ Job.status r = Waiting ∧
       Job.waiting_expires_at r = Some d ∧ d ≤ now ∧ get id t' = Some r' ∧
       Job.status r' = Failed ∧ Job.error r' = Some reason) ∧
  (∀ r, r ∈ t → (Job.id r, Job.app r) ∉ gone → get (Job.id r) t' = Some r) ∧
  (rows_affected (expired now) t ≤ cap → ∀ r, r ∈ t' → expired now r = false).
Proof.
  intros Hnd Hcap. unfold expire_waiting. rewrite Z.max_l by done.
  match goal with |- context [sql_limit cap (order_by ?le _)] => set (ord := le) end.
  match goal with |- context [update_where _ ?g t] => set (f := g) end.
  assert (∀ r, Job.id (f r) = Job.id r) as Hf by done.
  set (sel := sql_limit _ _). split_and!.
  - rewrite List.length_map. by apply length_bulk.
  - intros id app Hg. apply list_elem_of_In, in_map_iff in Hg as (x & Hx & Hin).
    injection Hx as <- <-. apply list_elem_of_In in Hin.
    apply elem_of_bulk in Hin as (r & Hs & Hr & Hp & ->); [|done].
    unfold expired, JobStatus.eqb in Hp.
    destruct (Job.waiting_expires_at r) as [d|] eqn:Hd; breflect_in Hp;
      destruct Hp as [Hw Hp]; [|done].
    exists r, d, (f r). rewrite Hf.
    split_and!; try done; [by apply lookup_by_elem|].
    unfold sel. rewrite get_bulk by done. by rewrite (proj2 (bulk_selected _ _ _ _ Hnd _ Hr)).
  - intros r Hr Hg. unfold sel. rewrite get_bulk by done. case_if; [|done]. exfalso. apply Hg.
    apply bulk_selected in Heqb; [|done|done].
    apply list_elem_of_In, in_map_iff. exists (f r). split; [done|].
    apply list_elem_of_In, elem_of_bulk; [done|]. exists r. split_and!; [done..| |done].
    by apply elem_of_limited in Heqb as [_ ?].
  - intros Hle r' Hr'. apply elem_of_update in Hr' as (r & Hr & ->). case_if; [done|].
    apply not_true_iff_false. intros Hp. subst sel. rewrite bulk_all in Heqb; done.
Qed.

Lemma expire_waiting_exact_witness :
  let parked id d := (page_row id 0) <| Job.status := Waiting |> <| Job.waiting_expires_at := d |> in
  (expire_waiting 50 "late" 1 [parked 1 (Some 40); parked 2 (Some 30); parked 3 None]).2
    = [(2, "app"%string)] ∧
  ∀ r, r ∈ (expire_waiting 50 "late" 9 [parked 1 (Some 40); parked 2 (Some 30); parked 3 None]).1 →
    expired 50 r = false.
Proof.
  intros parked. split; [vm_compute; reflexivity|].
  pose proof (expire_waiting_exact 50 "late" 9
    [parked 1 (Some 40); parked 2 (Some 30); parked 3 None]) as He.
  destruct (expire_waiting _ _ _ _) as [t' gone].
  apply He; [by apply (bool_decide_unpack _); vm_compute|done|by vm_compute].
Defined.

(** bulk retry.  It re-arms the oldest jobs of the status (and app) asked
    for, at most [cap], and answers exactly those it re-armed; a row it does not
    answer is untouched. *)
Theorem retry_bulk_exact now status app cap t :
  NoDup (map Job.id t) → 0 ≤ cap →
  let asked r := JobStatus.eqb (Job.status r) status
                 && match app with Some a => String.eqb (Job.app r) a | None => true end in
  let '(t', retried) := retry_bulk now status app cap t in
  Z.of_nat (length retried) = Z.min cap (rows_affected asked t) ∧
  (∀ r, r ∈ t → (Job.id r, Job.app r) ∈ retried →
     asked r = true ∧ get (Job.id r) t' = Some (rearm now r)) ∧
  (∀ r, r ∈ t → (Job.id r, Job.app r) ∉ retried → get (Job.id r) t' = Some r).
Proof.
  intros Hnd Hcap asked. unfold retry_bulk. rewrite Z.max_l by done. fold asked.
  match goal with |- context [sql_limit cap (order_by ?le _)] => set (ord := le) end.
  set (sel := sql_limit _ _). assert (∀ r, Job.id (rearm now r) = Job.id r) as Hf by done.
  split_and!.
  - rewrite List.length_map. by apply length_bulk.
  - intros r Hr Hg. apply list_elem_of_In, in_map_iff in Hg as (x & Hx & Hin).
    injection Hx as Hid _. apply list_elem_of_In in Hin.
    apply elem_of_bulk in Hin as (r0 & Hs & Hr0 & Hp & ->); [|done].
    assert (r0 = r) as -> by by apply (lookup_by_unique Job.id t).
    split; [done|]. unfold sel. rewrite get_bulk by done.
    by rewrite (proj2 (bulk_selected _ _ _ _ Hnd _ Hr)).
  - intros r Hr Hg. unfold sel. rewrite get_bulk by done. case_if; [|done]. exfalso. apply Hg.
    apply bulk_selected in Heqb; [|done|done].
    apply list_elem_of_In, in_map_iff. exists (rearm now r). split; [done|].
    apply list_elem_of_In, elem_of_bulk; [done|]. exists r. split_and!; [done..| |done].
    by apply elem_of_limited in Heqb as [_ ?].
Qed.

Lemma retry_bulk_exact_witness :
  let failed id c := (page_row id c) <| Job.status := Failed |> in
  ∃ t', retry_bulk 50 Failed None 1 [failed 1 9; failed 2 4] = (t', [(2, "app"%string)]) ∧
    get 1 t' = Some (failed 1 9).
Proof.
  intros failed.
  pose proof (retry_bulk_exact 50 Failed None 1 [failed 1 9; failed 2 4]) as He.
  eexists. split; [vm_compute; reflexivity|].
  destruct (retry_bulk _ _ _ _ _) as [t' retried] eqn:E. vm_compute in E.
  injection E as <- <-. destruct He as (_ & _ & He);
    [by apply (bool_decide_unpack _); vm_compute|done|].
  apply (He (failed 1 9)); [left|]. vm_compute. intros Hin.
  by apply list_elem_of_singleton in Hin.
Defined.
