(* ===== verification/Deliveries.v ===== *)
(** * Deliveries: the webhook delivery log and its retry ladder

    The [webhook_deliveries] half of [crates/core/src/storage.rs] and the driver
    of [crates/server/src/webhook.rs]: the in-process send loop, the outcome
    write, the replay gate and the drain that walks the dead-letter ladder. *)

From S2P Require Import Prelude Sql Float64 Jitter Json JobQueue.

(** ** The row *)

Module Delivery.
Record t : Type := mk {
  id : string;
  kind : string;
  ref_id : string;
  url : string;
  event : string;
  body : string;
  status : string;
  attempts : Z;
  last_error : option string;
  created_at : timestamp;
  updated_at : timestamp;
  retry_count : Z;
  next_retry_at : option timestamp;
}.
#[global] Instance eta_delivery : Eta t := λ r,
  mk (id r) (kind r) (ref_id r) (url r) (event r) (body r) (status r) (attempts r)
    (last_error r) (created_at r) (updated_at r) (retry_count r) (next_retry_at r).
End Delivery.

Abbreviation log := (list Delivery.t).

Definition has_id (id : string) (r : Delivery.t) : bool := String.eqb (Delivery.id r) id.
Definition in_status (st : string) (r : Delivery.t) : bool := String.eqb (Delivery.status r) st.

(** ** The store *)

Definition create_delivery (id : string) (now : timestamp) (kind ref_id url event body : string)
    (t : log) : log :=
  t ++ [Delivery.mk id kind ref_id url event body "pending" 0 None now now 0 None].

Definition finish_delivery (now : timestamp) (id : string) (delivered : bool) (attempts : Z)
    (last_error : option string) (t : log) : log :=
  update_where (has_id id)
    (λ r, r <| Delivery.status := (if delivered then "delivered" else "failed")%string |>
            <| Delivery.attempts ::= λ a, a + attempts |>
            <| Delivery.last_error := last_error |> <| Delivery.next_retry_at := None |>
            <| Delivery.updated_at := now |>) t.

Definition mark_dead (now : timestamp) (id : string) (attempts : Z) (last_error : option string)
    (t : log) : log :=
  update_where (has_id id)
    (λ r, r <| Delivery.status := "dead"%string |>
            <| Delivery.attempts ::= λ a, a + attempts |>
            <| Delivery.last_error := last_error |> <| Delivery.next_retry_at := None |>
            <| Delivery.updated_at := now |>) t.
Definition kill_delivery := mark_dead.

(** The jitter's seed: the id's bytes folded over the retry count. *)
Definition delivery_seed (id : string) (retry_count : Z) : Z :=
  foldl (λ a c, wrap_u64 (wrap_u64 (a * 31) + Z.of_N (Ascii.N_of_ascii c)))
    (wrap_u64 retry_count) (String.list_ascii_of_string id).

(** Seconds until the next retry of a row at [retry_count]. *)
Definition backoff (id : string) (retry_count : Z) (backoff_secs : list Z) : Z :=
  let idx := Z.min (wrap_u64 retry_count) (Z.of_nat (length backoff_secs) - 1) in
  let base := Z.max (nth (Z.to_nat idx) backoff_secs 0) 1 in
  base + jitter_secs (delivery_seed id retry_count) base.

Definition fail_delivery (now : timestamp) (id : string) (attempts : Z)
    (last_error : option string) (max_retries : Z) (backoff_secs : list Z) (t : log) : log :=
  match lookup_by Delivery.id id t with
  | None => t
  | Some row =>
      let retry_count := Delivery.retry_count row in
      if (max_retries <=? retry_count) || (length backoff_secs =? 0)%nat then
        mark_dead now id attempts last_error t
      else
        update_where (has_id id)
          (λ r, r <| Delivery.status := "failed"%string |>
                  <| Delivery.attempts ::= λ a, a + attempts |>
                  <| Delivery.last_error := last_error |>
                  <| Delivery.next_retry_at :=
                       Some (now + seconds (backoff id retry_count backoff_secs)) |>
                  <| Delivery.updated_at := now |>) t
  end.

Definition delivery_due (now : timestamp) (r : Delivery.t) : bool :=
  in_status "failed" r
  && match Delivery.next_retry_at r with Some at' => at' <=? now | None => false end.

Definition retry_order (a b : Delivery.t) : bool :=
  coalesce (Delivery.next_retry_at a) 0 <=? coalesce (Delivery.next_retry_at b) 0.

Definition due_deliveries (now : timestamp) (limit : Z) (t : log) : list Delivery.t :=
  sql_limit limit (order_by retry_order (select_where (delivery_due now) t)).

Definition claim_pending (now : timestamp) (r : Delivery.t) : Delivery.t :=
  r <| Delivery.status := "pending"%string |> <| Delivery.retry_count ::= Z.succ |>
    <| Delivery.next_retry_at := None |> <| Delivery.updated_at := now |>.

Definition begin_delivery_retry (now : timestamp) (id : string) (t : log) : log * bool :=
  let p r := has_id id r && in_status "failed" r in
  (update_where p (claim_pending now) t, 0 <? rows_affected p t).

Definition replayable (force : bool) (r : Delivery.t) : bool :=
  in_status "failed" r || in_status "dead" r || (force && in_status "delivered" r).

Definition begin_delivery_replay (now : timestamp) (id : string) (force : bool) (t : log)
    : log * bool :=
  let p r := has_id id r && replayable force r in
  (update_where p (claim_pending now) t, 0 <? rows_affected p t).

Definition RECLAIMED : string := "interrupted: reclaimed after no delivery outcome was recorded".

Definition reclaim_stale_deliveries (now : timestamp) (older_than_secs : Z) (t : log)
    : log * Z :=
  let cutoff := now - seconds (Z.max older_than_secs 1) in
  let p r := in_status "pending" r && (Delivery.updated_at r <? cutoff) in
  (update_where p
     (λ r, r <| Delivery.status := "failed"%string |> <| Delivery.next_retry_at := Some now |>
             <| Delivery.last_error := Some RECLAIMED |> <| Delivery.updated_at := now |>) t,
   rows_affected p t).

(** *** Health and lists *)

Module Health.
Record t : Type := mk {
  pending : Z;
  delivered : Z;
  failed : Z;
  dead : Z;
  attempts : Z;
  oldest_undelivered : option timestamp;
}.
End Health.

Definition opt_min (a : option Z) (x : Z) : option Z :=
  match a with Some y => Some (Z.min y x) | None => Some x end.

Definition delivery_health (t : log) : Health.t :=
  let count st := rows_affected (in_status st) t in
  Health.mk (count "pending"%string) (count "delivered"%string) (count "failed"%string)
    (count "dead"%string)
    (foldr (λ r n, Delivery.attempts r + n) 0 t)
    (foldl (λ m r, opt_min m (Delivery.created_at r)) None
       (select_where (λ r, in_status "pending" r || in_status "failed" r) t)).

(** [(now - at).num_seconds()] truncates toward zero. *)
Definition oldest_undelivered_secs (h : Health.t) (now : timestamp) : Z :=
  match Health.oldest_undelivered h with
  | Some at' => Z.max (Z.quot (now - at') (seconds 1)) 0
  | None => 0
  end.

Definition status_is (status : option string) (r : Delivery.t) : bool :=
  match status with Some s => in_status s r | None => true end.

Definition without_body (r : Delivery.t) : Delivery.t := r <| Delivery.body := ""%string |>.

Definition delivery_after (after : option (timestamp * string)) (r : Delivery.t) : bool :=
  match after with
  | None => true
  | Some (ts, id) =>
      (Delivery.created_at r <? ts)
      || ((Delivery.created_at r =? ts) && String.ltb (Delivery.id r) id)
  end.

(** [ORDER BY created_at DESC, id DESC] and [ORDER BY created_at DESC] *)
Definition delivery_newest (a b : Delivery.t) : bool :=
  (Delivery.created_at b <? Delivery.created_at a)
  || ((Delivery.created_at a =? Delivery.created_at b)
      && String.leb (Delivery.id b) (Delivery.id a)).
Definition delivery_newest_created (a b : Delivery.t) : bool :=
  Delivery.created_at b <=? Delivery.created_at a.

Definition list_deliveries (status : option string) (limit : Z) (t : log) : list Delivery.t :=
  map without_body
    (sql_limit limit (order_by delivery_newest_created (select_where (status_is status) t))).

Definition list_deliveries_page (status : option string) (after : option (timestamp * string))
    (limit : Z) (t : log) : list Delivery.t :=
  map without_body
    (sql_limit limit (order_by delivery_newest
       (select_where (λ r, status_is status r && delivery_after after r) t))).

Definition of_ref (kind ref_id : string) (r : Delivery.t) : bool :=
  String.eqb (Delivery.kind r) kind && String.eqb (Delivery.ref_id r) ref_id.

Definition list_deliveries_for_ref_page (kind ref_id : string) (status : option string)
    (after : option (timestamp * string)) (limit : Z) (t : log) : list Delivery.t :=
  map without_body
    (sql_limit limit (order_by delivery_newest
       (select_where (λ r, of_ref kind ref_id r && status_is status r && delivery_after after r)
          t))).

Definition latest_delivery_for_ref (kind ref_id : string) (t : log)
    : option (string * string * timestamp) :=
  (λ r, (Delivery.id r, Delivery.status r, Delivery.updated_at r)) <$>
    head (order_by delivery_newest (select_where (of_ref kind ref_id) t)).

Definition get_delivery (id : string) (t : log) : option Delivery.t :=
  lookup_by Delivery.id id t.

(** ** The driver *)

Definition MAX_ATTEMPTS : nat := 3.
Definition RETRY_AFTER_INPROC_CAP : Duration := from_secs 5.
Definition DRAIN_BACKOFF_SECS : list Z := [30; 60; 300; 1800; 7200].
Definition DRAIN_MAX_RETRIES : Z := 5.
Definition DRAIN_BATCH : Z := 20.
Definition STALE_PENDING_SECS : Z := 600.

Inductive DeliveryClass : Type := Success | Transient | Permanent.
#[global] Instance DeliveryClass_eq_dec : EqDecision DeliveryClass.
Proof. solve_decision. Defined.

Definition classify_status (status : Z) : DeliveryClass :=
  if (200 <=? status) && (status <=? 299) then Success
  else if status =? 429 then Transient
  else if (400 <=? status) && (status <=? 499) then Permanent
  else Transient.

Definition parse_retry_after (value : string) : option Duration :=
  secs ← parse_signed 64 (trim value); if 0 <=? secs then Some (from_secs secs) else None.

(** [(delivered, attempts, last_error, permanent)] *)
Definition outcome : Type := bool * Z * option string * bool.

(** What one POST came back with: a status and the text of its [Retry-After]
    header when it has one that is text, or a transport error. *)
Inductive Response : Type :=
| HttpStatus (status : Z) (retry_after : option string)
| SendError (e : string).

Section http.
(** The receiver, by attempt; and how the [http] crate renders a status. *)
Variable send : nat → Response.
Variable status_display : Z → string.

(** The send loop from [attempt] on; [slept] sums the sleeps between attempts. *)
Fixpoint deliver_from (remaining attempt : nat) (next_sleep slept : Duration)
    (last_error : option string) : outcome * Duration :=
  match remaining with
  | O => ((false, Z.of_nat MAX_ATTEMPTS, last_error, false), slept)
  | S remaining =>
      let slept := if (0 <? Z.of_nat attempt) && negb (next_sleep =? 0)
                   then slept + next_sleep else slept in
      let linear := from_secs (2 * (Z.of_nat attempt + 1)) in
      match send attempt with
      | HttpStatus status retry_after =>
          match classify_status status with
          | Success => ((true, Z.of_nat attempt + 1, None, false), slept)
          | Permanent =>
              ((false, Z.of_nat attempt + 1,
                Some ("non-2xx (permanent): " +:+ status_display status)%string, true), slept)
          | Transient =>
              let next := match retry_after ≫= parse_retry_after with
                          | Some ra => Z.min ra RETRY_AFTER_INPROC_CAP
                          | None => linear
                          end in
              deliver_from remaining (S attempt) next slept
                (Some ("non-2xx: " +:+ status_display status)%string)
          end
      | SendError e =>
          deliver_from remaining (S attempt) linear slept (Some ("send error: " +:+ e)%string)
      end
  end.
Definition deliver_http : outcome * Duration := deliver_from MAX_ATTEMPTS 0 0 0 None.
End http.

(** A plugin sink's answer, or the error running it met. *)
Definition plugin_delivery_outcome `{JsonRender} (answer : result string Json) : outcome :=
  match answer with
  | Err e => (false, 1, Some ("plugin sink failed: " +:+ e)%string, false)
  | Ok value =>
      let field k := json_get k value in
      match field "delivered"%string with
      | Some (JBool true) => (true, 1, None, false)
      | Some (JBool false) =>
          let permanent := match field "permanent"%string with
                           | Some (JBool b) => b | _ => false end in
          let error := coalesce (field "error"%string ≫= as_str)
                         "the connector reported delivered=false"%string in
          (false, 1, Some error, permanent)
      | _ =>
          (false, 1,
           Some ("plugin sink returned a malformed result (want {" +:+ quoted "delivered"
                 +:+ ": bool}): " +:+ json_render value)%string, false)
      end
  end.

(** *** Sinks *)

Definition FILE_SINK_SCHEME : string := "file://".
Definition PLUGIN_SINK_PREFIX : string := "plugin:".
Definition PLUGIN_SINK_SCHEME : string := "plugin://".
Definition TARGET : string := "?target=".

Definition file_sink_url (watch_id : string) : string :=
  (FILE_SINK_SCHEME +:+ watch_id +:+ ".ndjson")%string.

Definition plugin_sink_url (name target : string) : string :=
  if String.eqb target "" then (PLUGIN_SINK_SCHEME +:+ name)%string
  else (PLUGIN_SINK_SCHEME +:+ name +:+ TARGET +:+ target)%string.

(** The names both sinks accept: [A-Za-z0-9._-], no [..]. *)
Definition valid_name (name : string) : bool :=
  negb (String.eqb name "") && negb (contains ".." name)
  && all_chars (λ c, is_ascii_alphanumeric c
                     || bool_decide (c = "-"%char ∨ c = "_"%char ∨ c = "."%char)) name.

Definition plugin_sink_route (url : string) : option (string * option string) :=
  rest ← strip_prefix PLUGIN_SINK_SCHEME url;
  let '(name, target) :=
    match split_once TARGET rest with
    | Some (name, target) => (name, if String.eqb target "" then None else Some target)
    | None => (rest, None)
    end in
  if valid_name name then Some (name, target) else None.

(** The file inside the sinks directory, by name. *)
Definition file_sink_path (url : string) : option string :=
  name ← strip_prefix FILE_SINK_SCHEME url; if valid_name name then Some name else None.

(** [sink_route]; the Slack summary is an argument. *)
Definition sink_route (slack_summary : Json → Json) (sink url ref_id : string)
    (secret : option string) (payload : Json) : string * option string * Json :=
  if String.eqb sink "file" then (file_sink_url ref_id, None, payload)
  else match strip_prefix PLUGIN_SINK_PREFIX sink with
       | Some name => (plugin_sink_url name url, None, payload)
       | None =>
           if String.eqb sink "slack" then (url, secret, slack_summary payload)
           else (url, secret, payload)
       end.

(** *** Outcomes, replay and drain *)

Definition log_outcome (now : timestamp) (id : string) (o : outcome) (t : log) : log :=
  let '(delivered, attempts, last_error, permanent) := o in
  if delivered then finish_delivery now id true attempts last_error t
  else if permanent then kill_delivery now id attempts last_error t
  else fail_delivery now id attempts last_error DRAIN_MAX_RETRIES DRAIN_BACKOFF_SECS t.

Inductive ReplayGate : Type := Allowed | InFlight | NotReplayable.

Definition replay_gate (status : string) (force : bool) : ReplayGate :=
  if String.eqb status "failed" || String.eqb status "dead" then Allowed
  else if String.eqb status "delivered" then (if force then Allowed else NotReplayable)
  else if String.eqb status "pending" then InFlight
  else NotReplayable.

(** The claims of one drain pass: stranded rows reclaimed, the due rows read once,
    each claimed in turn.  The claimed deliveries are sent by [replay]. *)
Fixpoint drain_claims (now : timestamp) (due : list Delivery.t) (t : log)
    : log * list Delivery.t :=
  match due with
  | [] => (t, [])
  | d :: due =>
      let '(t, claimed) := begin_delivery_retry now (Delivery.id d) t in
      let '(t, sent) := drain_claims now due t in
      (t, if claimed then d :: sent else sent)
  end.

Definition drain_due (now : timestamp) (t : log) : log * list Delivery.t :=
  let '(t, _) := reclaim_stale_deliveries now STALE_PENDING_SECS t in
  drain_claims now (due_deliveries now DRAIN_BATCH t) t.
