(* ===== verification/DeliveryTheorems.v ===== *)
(** * DeliveryTheorems: what the delivery log guarantees *)

From S2P Require Import Prelude Sql Float64 Jitter Json JobQueue Deliveries.

(** ** Updates by id *)

Lemma has_id_spec id r : has_id id r = true ↔ Delivery.id r = id.
Proof. apply String.eqb_eq. Qed.
Lemma in_status_spec st r : in_status st r = true ↔ Delivery.status r = st.
Proof. apply String.eqb_eq. Qed.

Lemma get_update_delivery id p f t :
  (∀ r, Delivery.id (f r) = Delivery.id r) →
  get_delivery id (update_where p f t) = (λ r, if p r then f r else r) <$> get_delivery id t.
Proof. apply lookup_by_update. Qed.

Lemma get_delivery_id id t r : get_delivery id t = Some r → r ∈ t ∧ has_id id r = true.
Proof. intros H. apply lookup_by_Some in H. by rewrite has_id_spec. Qed.

Lemma has_id_other id id' t r : id' ≠ id → get_delivery id' t = Some r → has_id id r = false.
Proof.
  intros Hne Hg. apply get_delivery_id in Hg as [_ Hg]. apply has_id_spec in Hg.
  apply not_true_iff_false. rewrite has_id_spec. congruence.
Qed.

(** ** The in-process loop *)

Definition attempt_class (r : Response) : DeliveryClass :=
  match r with HttpStatus status _ => classify_status status | SendError _ => Transient end.

Definition attempt_error (status_display : Z → string) (r : Response) : string :=
  match r with
  | HttpStatus status _ =>
      match classify_status status with
      | Permanent => "non-2xx (permanent): " +:+ status_display status
      | _ => "non-2xx: " +:+ status_display status
      end
  | SendError e => "send error: " +:+ e
  end%string.

(** one delivery makes at most three sends, and its outcome is that of the
    first attempt whose answer settles it: a 2xx delivers, a 4xx other than 429 is
    permanent and stops the loop; when all three are transient the outcome is a
    retryable failure that carries the last error. *)
Theorem deliver_http_first_settles send status_display :
  (deliver_http send status_display).1 =
  let settles i := match attempt_class (send i) with Transient => false | _ => true end in
  match List.find settles [0; 1; 2]%nat with
  | Some i =>
      match attempt_class (send i) with
      | Success => (true, Z.of_nat i + 1, None, false)
      | _ => (false, Z.of_nat i + 1, Some (attempt_error status_display (send i)), true)
      end
  | None => (false, 3, Some (attempt_error status_display (send 2%nat)), false)
  end.
Proof.
  unfold deliver_http, MAX_ATTEMPTS. cbn -[classify_status parse_retry_after Z.min].
  unfold attempt_error, attempt_class.
  repeat (cbn -[classify_status parse_retry_after Z.min];
    match goal with
    | H : send ?i = _ |- context [send ?i] => rewrite H
    | H : classify_status ?x = _ |- context [classify_status ?x] => rewrite H
    | |- context [match send ?i with _ => _ end] => destruct (send i) as [?|?] eqn:?
    | |- context [match classify_status ?x with _ => _ end] => destruct (classify_status x) eqn:?
    end); reflexivity.
Qed.

Lemma parse_retry_after_nonneg v d : parse_retry_after v = Some d → 0 ≤ d.
Proof.
  unfold parse_retry_after. destruct (parse_signed 64 (trim v)) as [s|]; [|done]. cbn.
  case_if; [|done]. breflect_in Heqb. intros [= <-]. unfold from_secs. lia.
Qed.

Lemma next_sleep_bounds attempt ra :
  (attempt < 3)%nat →
  let next := match ra ≫= parse_retry_after with
              | Some d => Z.min d RETRY_AFTER_INPROC_CAP
              | None => from_secs (2 * (Z.of_nat attempt + 1))
              end in
  0 ≤ next ≤ from_secs (Z.max 5 (2 * (Z.of_nat attempt + 1))).
Proof.
  intros Ha. unfold RETRY_AFTER_INPROC_CAP, from_secs. cbn zeta.
  destruct (ra ≫= parse_retry_after) as [d|] eqn:E; [|lia].
  destruct ra as [v|]; [|done]. cbn in E. apply parse_retry_after_nonneg in E. lia.
Qed.

Lemma deliver_from_slept send status_display remaining attempt next slept e :
  (remaining + attempt = 3)%nat → 0 ≤ next ≤ from_secs 5 →
  let total := (deliver_from send status_display remaining attempt next slept e).2 in
  slept ≤ total ≤ slept + (if (attempt =? 0)%nat then from_secs 10
                           else from_secs (5 * Z.of_nat remaining)).
Proof.
  revert attempt next slept e.
  induction remaining as [|n IH]; intros attempt next slept e Hn Hnext; cbn -[from_secs Z.mul Z.of_nat].
  { case_if; unfold from_secs; lia. }
  set (slept1 := if _ && _ then slept + next else slept).
  assert (slept ≤ slept1 ≤ slept + (if (attempt =? 0)%nat then 0 else next)) as Hs1.
  { subst slept1. destruct (Nat.eqb_spec attempt 0) as [->|Hne]; [change (0 <? Z.of_nat 0) with false; cbn; lia|].
    rewrite (proj2 (Z.ltb_lt 0 (Z.of_nat attempt))) by lia. cbn. destruct (next =? 0); cbn; lia. }
  assert (∀ next' e', 0 ≤ next' ≤ from_secs 5 →
    let total := (deliver_from send status_display n (S attempt) next' slept1 e').2 in
    slept1 ≤ total ≤ slept1 + from_secs (5 * Z.of_nat n)) as Hrec.
  { intros next' e' Hn'. apply (IH (S attempt) next' slept1 e'); [lia|done]. }
  assert (from_secs (5 * Z.of_nat n) + (if (attempt =? 0)%nat then 0 else next)
          ≤ (if (attempt =? 0)%nat then from_secs 10 else from_secs (5 * Z.of_nat (S n)))) as Hsum.
  { unfold from_secs in *. destruct (Nat.eqb_spec attempt 0); lia. }
  assert (0 ≤ (if (attempt =? 0)%nat then from_secs 10 else from_secs (5 * Z.of_nat (S n))) ) as Hpos.
  { unfold from_secs. case_if; lia. }
  assert (0 ≤ from_secs (5 * Z.of_nat n)) by (unfold from_secs; lia).
  destruct (send attempt) as [status ra|err].
  - pose proof (next_sleep_bounds attempt ra ltac:(lia)) as Hb.
    destruct (classify_status status); cbn [snd]; [lia| |lia].
    destruct n as [|n]; [cbn [deliver_from snd]; lia|].
    assert (attempt < 2)%nat by lia.
    match goal with |- context [deliver_from _ _ _ _ ?nx _ ?e'] =>
      pose proof (Hrec nx e' ltac:(unfold from_secs in *; lia)) end.
    cbn zeta in *. lia.
  - destruct n as [|n]; [cbn [deliver_from snd]; lia|].
    match goal with |- context [deliver_from _ _ _ _ ?nx _ ?e'] =>
      pose proof (Hrec nx e' ltac:(unfold from_secs in *; lia)) end.
    cbn zeta in *. lia.
Qed.

(** how long a delivery sleeps.  Between its sends one delivery sleeps at most
    ten seconds, which a receiver's [Retry-After] can make it sleep: with three
    sends of fifteen seconds that is 55 seconds, far below the age at which a
    pending row is taken for stranded. *)
Theorem deliver_http_sleep_bound :
  (∀ send status_display, 0 ≤ (deliver_http send status_display).2 ≤ from_secs 10) ∧
  (∃ send, ∀ status_display, (deliver_http send status_display).2 = from_secs 10) ∧
  3 * 15 + 10 < STALE_PENDING_SECS.
Proof.
  split_and!; [| |done].
  - intros send sd. apply (deliver_from_slept send sd 3 0 0 0 None); [done|].
    unfold from_secs. lia.
  - exists (λ _, HttpStatus 503 (Some "5"%string)). intros sd. vm_compute. reflexivity.
Qed.

(** ** The dead-letter ladder *)

Lemma fail_delivery_row now id attempts e max backs t r :
  get_delivery id t = Some r →
  get_delivery id (fail_delivery now id attempts e max backs t) =
    Some (if (max <=? Delivery.retry_count r) || (length backs =? 0)%nat
          then r <| Delivery.status := "dead"%string |>
                 <| Delivery.attempts ::= λ a, a + attempts |>
                 <| Delivery.last_error := e |> <| Delivery.next_retry_at := None |>
                 <| Delivery.updated_at := now |>
          else r <| Delivery.status := "failed"%string |>
                 <| Delivery.attempts ::= λ a, a + attempts |>
                 <| Delivery.last_error := e |>
                 <| Delivery.next_retry_at :=
                      Some (now + seconds (backoff id (Delivery.retry_count r) backs)) |>
                 <| Delivery.updated_at := now |>).
Proof.
  intros Hg. unfold fail_delivery. fold (get_delivery id t). rewrite Hg.
  pose proof (proj2 (get_delivery_id id t r Hg)) as Hi.
  case_if; unfold mark_dead; rewrite get_update_delivery, Hg by done; cbn -[backoff has_id];
    by rewrite Hi.
Qed.

Lemma backoff_bounds id c backs i base :
  0 ≤ c → backs !! i = Some base → Z.min c (Z.of_nat (length backs) - 1) = Z.of_nat i →
  c < 2 ^ 64 → 1 ≤ base < 2 ^ 53 →
  base ≤ backoff id c backs ≤ base + base / 4.
Proof.
  intros Hc Hi Hmin Hc64 Hb. unfold backoff, wrap_u64. rewrite (Z.mod_small c) by lia.
  rewrite Hmin, Nat2Z.id. rewrite (nth_lookup_Some _ _ 0 _ Hi), Z.max_l by lia.
  pose proof (jitter_secs_quarter (delivery_seed id c) base ltac:(lia)). lia.
Qed.

(** the ladder's next step.  A retryable outcome on a row that has used up its
    five background retries makes it dead, with nothing scheduled; otherwise it is
    failed and due again after the ladder's delay for its retry count, at least the
    delay and at most a quarter more.  Neither spends a retry. *)
Theorem retryable_outcome_climbs now id attempts e t r :
  get_delivery id t = Some r → 0 ≤ Delivery.retry_count r < 2 ^ 64 →
  ∃ r', get_delivery id (log_outcome now id (false, attempts, e, false) t) = Some r' ∧
    Delivery.retry_count r' = Delivery.retry_count r ∧
    Delivery.attempts r' = Delivery.attempts r + attempts ∧
    match DRAIN_BACKOFF_SECS !! Z.to_nat (Delivery.retry_count r) with
    | None => Delivery.status r' = "dead"%string ∧ Delivery.next_retry_at r' = None
    | Some base =>
        Delivery.status r' = "failed"%string ∧
        ∃ due, Delivery.next_retry_at r' = Some due ∧
          now + seconds base ≤ due ≤ now + seconds (base + base / 4)
    end.
Proof.
  intros Hg Hc. cbn [log_outcome]. rewrite (fail_delivery_row now id attempts e _ _ t r Hg).
  eexists. split; [reflexivity|]. set (c := Delivery.retry_count r) in *.
  change (length DRAIN_BACKOFF_SECS =? 0)%nat with false. rewrite orb_false_r.
  unfold DRAIN_MAX_RETRIES. destruct (Z.leb_spec 5 c) as [Hd|Hd].
  - rewrite (lookup_ge_None_2 DRAIN_BACKOFF_SECS) by (cbn; lia). done.
  - destruct (DRAIN_BACKOFF_SECS !! Z.to_nat c) as [base|] eqn:Hb;
      [|apply lookup_ge_None in Hb; cbn in Hb; lia].
    split_and!; [done..|]. eexists. split; [reflexivity|].
    assert (1 ≤ base < 2 ^ 53) as Hbase.
    { apply list_elem_of_lookup_2 in Hb. unfold DRAIN_BACKOFF_SECS in Hb.
      repeat (apply elem_of_cons in Hb as [->|Hb]; [lia|]). by apply not_elem_of_nil in Hb. }
    pose proof (backoff_bounds id c DRAIN_BACKOFF_SECS (Z.to_nat c) base ltac:(lia) Hb
                  ltac:(cbn; lia) ltac:(lia) Hbase).
    unfold seconds. lia.
Qed.

Definition sample_delivery (st : string) (count : Z) : Delivery.t :=
  Delivery.mk "d1" "job" "j1" "https://example.com" "job.terminal" "{}" st 3 None 0 100 count None.

Lemma retryable_outcome_climbs_witness :
  ∃ r', get_delivery "d1" (log_outcome 200 "d1" (false, 3, None, false)
                             [sample_delivery "pending" 5]) = Some r' ∧
    Delivery.status r' = "dead"%string.
Proof.
  destruct (retryable_outcome_climbs 200 "d1" 3 None [sample_delivery "pending" 5]
              (sample_delivery "pending" 5)) as (r' & Hg & _ & _ & Hd & _);
    [reflexivity|cbn; lia|].
  by exists r'.
Defined.

(** ** The drain *)

Lemma begin_delivery_retry_get now id t id' :
  get_delivery id' (begin_delivery_retry now id t).1 =
    (λ r, if String.eqb id' id && in_status "failed" r then claim_pending now r else r)
      <$> get_delivery id' t.
Proof.
  cbn [begin_delivery_retry fst]. rewrite get_update_delivery by done.
  destruct (get_delivery id' t) as [r|] eqn:Hg; [|done].
  apply get_delivery_id in Hg as [_ Hi]. apply has_id_spec in Hi. cbn. unfold has_id.
  by rewrite Hi.
Qed.

Lemma drain_claims_spec now due t :
  NoDup (map Delivery.id due) →
  (∀ d, d ∈ due → get_delivery (Delivery.id d) t = Some d ∧ in_status "failed" d = true) →
  (drain_claims now due t).2 = due ∧
  ∀ id, get_delivery id (drain_claims now due t).1 =
    if bool_decide (id ∈ map Delivery.id due) then claim_pending now <$> get_delivery id t
    else get_delivery id t.
Proof.
  revert t. induction due as [|d due IH]; intros t Hnd Hdue.
  { split; [done|]. intros id. by rewrite bool_decide_false by apply not_elem_of_nil. }
  cbn in Hnd. apply NoDup_cons in Hnd as [Hni Hnd].
  destruct (Hdue d ltac:(left)) as [Hg Hf].
  assert ((begin_delivery_retry now (Delivery.id d) t).2 = true) as Hclaim.
  { cbn [begin_delivery_retry snd]. apply Z.ltb_lt, rows_affected_pos. exists d.
    apply get_delivery_id in Hg as [Hin Hi]. by rewrite Hi, Hf. }
  pose proof (begin_delivery_retry_get now (Delivery.id d) t) as Hget.
  cbn [drain_claims]. destruct (begin_delivery_retry now (Delivery.id d) t) as [t1 b].
  cbn [fst snd] in Hclaim, Hget. subst b.
  destruct (IH t1 Hnd) as [Hs Ht].
  { intros x Hx. destruct (Hdue x ltac:(by right)) as [Hgx Hfx]. split; [|done].
    rewrite Hget, Hgx. cbn. rewrite (proj2 (String.eqb_neq _ _)); [done|]. intros He.
    apply Hni. rewrite <- He. by apply list_elem_of_In, in_map, list_elem_of_In. }
  destruct (drain_claims now due t1) as [t2 sent]. cbn [fst snd] in Hs, Ht |- *. subst sent.
  split; [done|]. intros id. rewrite Ht, Hget.
  destruct (decide (id = Delivery.id d)) as [->|Hne].
  - rewrite bool_decide_false by done. rewrite bool_decide_true by left.
    rewrite Hg. cbn. by rewrite String.eqb_refl, Hf.
  - rewrite (proj2 (String.eqb_neq _ _) Hne). cbn.
    replace (bool_decide (id ∈ Delivery.id d :: map Delivery.id due))
      with (bool_decide (id ∈ map Delivery.id due))
      by (apply bool_decide_ext; rewrite elem_of_cons; naive_solver).
    by destruct (get_delivery id t).
Qed.

(** one drain pass.  Each delivery it sends is sent once, was failed and due
    (or was stranded in flight past the reclaim age), and is now in flight with one
    retry spent; at most twenty are sent; a dead or delivered row is never touched. *)
Theorem drain_sends_due_once now t :
  NoDup (map Delivery.id t) →
  let '(t', sent) := drain_due now t in
  NoDup (map Delivery.id sent) ∧ Z.of_nat (length sent) ≤ DRAIN_BATCH ∧
  (∀ d, d ∈ sent → ∃ r r', get_delivery (Delivery.id d) t = Some r ∧
     get_delivery (Delivery.id d) t' = Some r' ∧
     Delivery.status r' = "pending"%string ∧
     Delivery.retry_count r' = Delivery.retry_count r + 1 ∧
     ((Delivery.status r = "failed"%string ∧ ∃ due, Delivery.next_retry_at r = Some due ∧ due ≤ now)
      ∨ (Delivery.status r = "pending"%string ∧
         Delivery.updated_at r < now - seconds STALE_PENDING_SECS))) ∧
  (∀ id r, get_delivery id t = Some r →
     Delivery.status r = "dead"%string ∨ Delivery.status r = "delivered"%string →
     get_delivery id t' = Some r).
Proof.
  intros Hnd. unfold drain_due.
  destruct (reclaim_stale_deliveries now STALE_PENDING_SECS t) as [t1 n] eqn:Er.
  unfold reclaim_stale_deliveries in Er. injection Er as Ht1 _.
  change (Z.max STALE_PENDING_SECS 1) with STALE_PENDING_SECS in Ht1.
  match type of Ht1 with update_where ?p ?f t = _ => set (pr := p) in Ht1; set (fr := f) in Ht1 end.
  assert (∀ id, get_delivery id t1 = (λ r, if pr r then fr r else r) <$> get_delivery id t) as Hg1.
  { intros id. subst t1. by apply get_update_delivery. }
  assert (NoDup (map Delivery.id t1)) as Hnd1 by (subst t1; by rewrite map_update_where).
  set (due := due_deliveries now DRAIN_BATCH t1).
  assert (∀ d, d ∈ due → get_delivery (Delivery.id d) t1 = Some d ∧ in_status "failed" d = true
              ∧ ∃ at', Delivery.next_retry_at d = Some at' ∧ at' ≤ now) as Hdue.
  { intros d Hd. apply elem_of_limited in Hd as [Hd Hp]. unfold delivery_due in Hp.
    apply andb_true_iff in Hp as [Hf Hat]. split; [by apply lookup_by_elem|]. split; [done|].
    destruct (Delivery.next_retry_at d) as [at'|]; [|done]. exists at'.
    by rewrite Z.leb_le in Hat. }
  destruct (drain_claims_spec now due t1) as [Hsent Hget].
  { by apply NoDup_limited_keys. }
  { intros d Hd. destruct (Hdue d Hd) as (? & ? & _). done. }
  destruct (drain_claims now due t1) as [t' sent]. cbn [fst snd] in Hsent, Hget. subst sent.
  split_and!.
  - by apply NoDup_limited_keys.
  - unfold due, due_deliveries. rewrite length_sql_limit by done. lia.
  - intros d Hd. destruct (Hdue d Hd) as (Hgd & Hf & at' & Hat & Hle).
    pose proof Hgd as Hgr. rewrite Hg1 in Hgr.
    destruct (get_delivery (Delivery.id d) t) as [r|] eqn:Hgt; [|done]. cbn in Hgr.
    injection Hgr as Hgr. exists r, (claim_pending now d). split; [done|].
    assert (Delivery.id d ∈ map Delivery.id due) as Hin
      by by apply list_elem_of_In, in_map, list_elem_of_In.
    split; [by rewrite Hget, bool_decide_true, Hgd by done|]. split; [done|]. subst d.
    destruct (pr r) eqn:Hpr; (split; [cbn; lia|]).
    + right. unfold pr in Hpr. apply andb_true_iff in Hpr as [Hs Hu].
      apply in_status_spec in Hs. apply Z.ltb_lt in Hu. done.
    + left. apply in_status_spec in Hf. split; [done|]. by exists at'.
  - intros id r Hgr Hst. assert (pr r = false) as Hpr.
    { unfold pr, in_status. destruct Hst as [-> | ->]; done. }
    rewrite Hget. rewrite Hg1, Hgr. cbn. rewrite Hpr. case_if; [|done]. exfalso.
    apply bool_decide_eq_true in Heqb. apply list_elem_of_In, in_map_iff in Heqb as (d & Hid & Hd).
    apply list_elem_of_In in Hd. destruct (Hdue d Hd) as (Hgd & Hf & _).
    rewrite Hid, Hg1, Hgr in Hgd. cbn in Hgd. rewrite Hpr in Hgd. injection Hgd as <-.
    apply in_status_spec in Hf. destruct Hst; congruence.
Qed.

Lemma drain_sends_due_once_witness :
  let t := [sample_delivery "dead" 5] in
  get_delivery "d1" (drain_due (seconds 9000) t).1 = Some (sample_delivery "dead" 5).
Proof.
  intros t. pose proof (drain_sends_due_once (seconds 9000) t) as Hd.
  destruct (drain_due (seconds 9000) t) as [t' sent].
  apply Hd; [by apply NoDup_singleton|reflexivity|by left].
Defined.

(** *** Deliveries interrupted again and again *)

(** A drain pass every [step] seconds, the process dying before each outcome. *)
Fixpoint crash_loop (n : nat) (start step : Z) (t : log) : log :=
  match n with
  | O => t
  | S n => (drain_due (start + seconds (step * (Z.of_nat n + 1))) (crash_loop n start step t)).1
  end.

Lemma drain_due_stranded now r :
  Delivery.status r = "pending"%string ->
  Delivery.updated_at r < now - seconds STALE_PENDING_SECS →
  (drain_due now [r]).1
    = [claim_pending now
         (r <| Delivery.status := "failed"%string |> <| Delivery.next_retry_at := Some now |>
            <| Delivery.last_error := Some RECLAIMED |> <| Delivery.updated_at := now |>)].
Proof.
  intros Hs Hu. unfold drain_due, reclaim_stale_deliveries.
  change (Z.max STALE_PENDING_SECS 1) with STALE_PENDING_SECS.
  set (r1 := _ <| Delivery.updated_at := now |>).
  match goal with |- context [update_where ?p ?f [r]] =>
    assert (update_where p f [r] = [r1]) as ->;
      [change ([if p r then f r else r] = [r1]); cbv beta;
       by rewrite (proj2 (in_status_spec _ r) Hs), (proj2 (Z.ltb_lt _ _) Hu)|] end.
  assert (due_deliveries now DRAIN_BATCH [r1] = [r1]) as ->.
  { unfold due_deliveries, select_where. cbn [List.filter].
    assert (delivery_due now r1 = true) as ->; [apply Z.leb_refl|done]. }
  cbn [drain_claims begin_delivery_retry]. cbn [fst update_where map].
  by rewrite (proj2 (has_id_spec _ r1) eq_refl).
Qed.

(** a delivery that is interrupted every time is never given up.  The retry
    cap is only read when an outcome is written, so a row whose process dies before
    each outcome is reclaimed and sent again after any number of passes, its retry
    count growing past every limit. *)
Theorem crash_loop_never_dead n start step r :
  Delivery.status r = "pending"%string → Delivery.updated_at r ≤ start →
  STALE_PENDING_SECS < step →
  ∃ r', crash_loop n start step [r] = [r'] ∧ Delivery.status r' = "pending"%string ∧
    Delivery.retry_count r' = Delivery.retry_count r + Z.of_nat n.
Proof.
  intros Hs Hu Hstep.
  cut (∃ r', crash_loop n start step [r] = [r'] ∧ Delivery.status r' = "pending"%string ∧
         Delivery.updated_at r' ≤ start + seconds (step * Z.of_nat n) ∧
         Delivery.retry_count r' = Delivery.retry_count r + Z.of_nat n).
  { intros (r' & H1 & H2 & _ & H4). by exists r'. }
  induction n as [|n (r' & Hl & Hs' & Hu' & Hc)].
  { exists r. unfold seconds. split_and!; [done|done|lia|lia]. }
  cbn [crash_loop]. rewrite Hl, drain_due_stranded; [|done|unfold seconds in *; lia].
  eexists. split; [reflexivity|]. cbn -[seconds Z.of_nat]. split_and!; [done| |lia].
  unfold seconds. lia.
Qed.

Lemma crash_loop_never_dead_witness :
  ∃ r', crash_loop 100 100 700 [sample_delivery "pending" 0] = [r'] ∧
    Delivery.status r' = "pending"%string ∧ Delivery.retry_count r' = 100.
Proof.
  apply (crash_loop_never_dead 100 100 700 (sample_delivery "pending" 0));
    [done|cbn; lia|unfold STALE_PENDING_SECS; lia].
Defined.

(** ** Manual replay *)

(** the replay gate decides as the claim does.  For a row of the log, the
    route's gate allows a replay exactly when the store's guarded claim would take
    the row, and a row it reports in flight is one no claim takes. *)
Theorem replay_gate_agrees_with_claim now id force t r :
  NoDup (map Delivery.id t) → get_delivery id t = Some r →
  (replay_gate (Delivery.status r) force = Allowed ↔
   (begin_delivery_replay now id force t).2 = true) ∧
  (replay_gate (Delivery.status r) force = InFlight →
   begin_delivery_replay now id force t = (t, false) ∧
   begin_delivery_retry now id t = (t, false)).
Proof.
  intros Hnd Hg. pose proof (get_delivery_id id t r Hg) as [Hin Hid].
  assert (∀ x, x ∈ t → has_id id x = true → x = r) as Hu.
  { intros x Hx Hxi. apply has_id_spec in Hxi, Hid.
    apply (lookup_by_unique Delivery.id t); congruence. }
  assert (∀ q : Delivery.t → bool,
    (0 <? rows_affected (λ r, has_id id r && q r) t) = q r ∧
    (q r = false → ∀ f, update_where (λ r, has_id id r && q r) f t = t)) as Hq.
  { intros q. destruct (q r) eqn:E.
    - split; [|done]. apply Z.ltb_lt, rows_affected_pos. exists r. by rewrite Hid, E.
    - assert (∀ x, x ∈ t → has_id id x && q x = false) as Hno.
      { intros x Hx. destruct (has_id id x) eqn:Hxi; [|done]. cbn. by rewrite (Hu x). }
      split; [by rewrite (proj2 (rows_affected_0 _ _) Hno)|]. intros _ f.
      by apply update_where_none. }
  destruct (Hq (replayable force)) as [H1 H2], (Hq (in_status "failed")) as [H3 H4].
  unfold begin_delivery_replay, begin_delivery_retry. rewrite H1, H3. cbn [snd].
  unfold replayable, in_status, replay_gate in *.
  destruct (String.eqb_spec (Delivery.status r) "failed") as [E1|E1]; cbn [orb];
    [by destruct force|].
  destruct (String.eqb_spec (Delivery.status r) "dead") as [E2|E2]; cbn [orb];
    [by destruct force|].
  destruct (String.eqb_spec (Delivery.status r) "delivered") as [E3|E3].
  - by destruct force.
  - rewrite andb_false_r in *. split; [by case_if|]. intros _.
    split; f_equal; [apply H2|apply H4]; rewrite ?andb_false_r;
      by rewrite ?(proj2 (String.eqb_neq _ _) E1), ?(proj2 (String.eqb_neq _ _) E2),
        ?(proj2 (String.eqb_neq _ _) E3).
Qed.

Lemma replay_gate_agrees_with_claim_witness :
  (begin_delivery_replay 5 "d1" false [sample_delivery "dead" 5]).2 = true.
Proof.
  apply (replay_gate_agrees_with_claim 5 "d1" false [sample_delivery "dead" 5]
           (sample_delivery "dead" 5)); [by apply NoDup_singleton|reflexivity|reflexivity].
Defined.

(** ** Sinks *)

Lemma valid_name_chars name a :
  valid_name name = true → In a [ "?"%char; "/"%char; ":"%char ] →
  all_chars (λ b, negb (Ascii.eqb a b)) name = true.
Proof.
  intros Hv Ha. unfold valid_name in Hv. apply andb_true_iff in Hv as [_ Hv].
  eapply all_chars_weaken; [|exact Hv]. intros c Hc. apply negb_true_iff, Ascii.eqb_neq.
  intros <-. cbn in Ha. destruct Ha as [<-|[<-|[<-|[]]]]; by vm_compute in Hc.
Qed.

(** a sink's address survives the log.  The pseudo-URL of a plugin sink, read
    back from its delivery row, names the module and the target it was built from,
    whatever the target contains, so a drain or a replay reaches the destination
    the first send did; and no URL a row can carry resolves to a file name or a
    module name with a path separator in it. *)
Theorem sink_urls_round_trip :
  (∀ name target, valid_name name = true →
     plugin_sink_route (plugin_sink_url name target)
       = Some (name, if String.eqb target "" then None else Some target)) ∧
  (∀ id, valid_name (id +:+ ".ndjson") = true →
     file_sink_path (file_sink_url id) = Some (id +:+ ".ndjson")%string) ∧
  (∀ url name, file_sink_path url = Some name →
     all_chars (λ b, negb (Ascii.eqb "/" b)) name = true ∧ contains ".." name = false) ∧
  (∀ url name target, plugin_sink_route url = Some (name, target) →
     all_chars (λ b, negb (Ascii.eqb "/" b)) name = true ∧ contains ".." name = false).
Proof.
  assert (∀ name, valid_name name = true →
    all_chars (λ b, negb (Ascii.eqb "/" b)) name = true ∧ contains ".." name = false) as Hsafe.
  { intros name Hv. split; [apply valid_name_chars; cbn; auto|].
    unfold valid_name in Hv. destruct (contains ".." name); [|done].
    by rewrite andb_false_r in Hv. }
  split_and!.
  - intros name target Hv. pose proof (valid_name_chars name "?"%char Hv ltac:(cbn; auto)) as Hq.
    unfold plugin_sink_url, plugin_sink_route, TARGET. destruct (String.eqb_spec target "") as [->|Ht].
    + rewrite strip_prefix_app. cbn [mbind option_bind].
      rewrite (split_once_None "?"%char "target=" name Hq). by rewrite Hv.
    + rewrite strip_prefix_app. cbn [mbind option_bind].
      rewrite (split_once_app "?"%char "target=" name target Hq).
      rewrite (proj2 (String.eqb_neq _ _) Ht). by rewrite Hv.
  - intros id Hv. unfold file_sink_url, file_sink_path. rewrite strip_prefix_app. cbn [mbind option_bind].
    by rewrite Hv.
  - intros url name Hp. unfold file_sink_path in Hp. apply bind_Some in Hp as (n & _ & Hp).
    case_match eqn:Hv; [|done]. injection Hp as <-. auto.
  - intros url name target Hp. unfold plugin_sink_route in Hp.
    apply bind_Some in Hp as (rest & _ & Hp). destruct (split_once TARGET rest) as [[n tg]|];
      case_match eqn:Hv; try done; injection Hp as <- _; auto.
Qed.
