(* ===== verification/EventLog.v ===== *)
(** * EventLog: the durable event log, its subscribers and the outbox drain

    The event, subscription and watch statements of [crates/core/src/storage.rs],
    and [crates/server/src/subscriptions.rs]: selectors and the one drain that
    walks every cursor. *)

From S2P Require Import Prelude Sql Float64 Json JobQueue Deliveries.

(** The rendering of a timestamp is [chrono]'s. *)
Class TimeRender := render_ts : timestamp → string.

(** ** The log *)

Module NewEvent.
Record t : Type := mk {
  seq : Z; kind : string; app : string; subject_id : string; payload : Json }.
End NewEvent.

Module EventRecord.
Record t : Type := mk {
  seq : Z; kind : string; app : string; subject_id : string; payload : Json;
  created_at : timestamp }.
End EventRecord.

Abbreviation events := (list EventRecord.t).

(** [INSERT OR IGNORE]: the sequence is the primary key. *)
Definition insert_event (now : timestamp) (ev : NewEvent.t) (t : events) : events * Z :=
  if is_some (lookup_by EventRecord.seq (NewEvent.seq ev) t) then (t, 0)
  else (t ++ [EventRecord.mk (NewEvent.seq ev) (NewEvent.kind ev) (NewEvent.app ev)
                (NewEvent.subject_id ev) (NewEvent.payload ev) now], 1).

Fixpoint append_events (now : timestamp) (evs : list NewEvent.t) (t : events) : events * Z :=
  match evs with
  | [] => (t, 0)
  | ev :: evs =>
      let '(t, n) := insert_event now ev t in
      let '(t, landed) := append_events now evs t in
      (t, n + landed)
  end.

Definition max_event_seq (t : events) : Z :=
  coalesce (foldl (λ m r, match m with
                          | Some x => Some (Z.max x (EventRecord.seq r))
                          | None => Some (EventRecord.seq r)
                          end) None t) 0.
Definition count_events (t : events) : Z := Z.of_nat (length t).

Definition opt_is (o : option string) (s : string) : bool :=
  match o with Some x => String.eqb s x | None => true end.

Definition by_seq (a b : EventRecord.t) : bool := EventRecord.seq a <=? EventRecord.seq b.

Definition events_after (after : Z) (kind app : option string) (limit : Z) (t : events)
    : events :=
  sql_limit limit
    (order_by by_seq
       (select_where (λ r, (after <? EventRecord.seq r) && opt_is kind (EventRecord.kind r)
                           && opt_is app (EventRecord.app r)) t)).

Definition prune_events (now : timestamp) (d : Z) (t : events) : events * Z :=
  if d <=? 0 then (t, 0)
  else let p r := EventRecord.created_at r <? now - days d in
       (delete_where p t, rows_affected p t).

(** ** Subscriptions and watches *)

Module Subscription.
Record t : Type := mk {
  id : string; name : option string; selector : Json; sink : string; url : string;
  secret : option string; cursor_seq : Z; enabled : bool; principal_id : option string;
  created_at : timestamp; last_delivered_at : option timestamp; last_error : option string }.
#[global] Instance eta_subscription : Eta t := λ r,
  mk (id r) (name r) (selector r) (sink r) (url r) (secret r) (cursor_seq r) (enabled r)
    (principal_id r) (created_at r) (last_delivered_at r) (last_error r).
End Subscription.

Module Watch.
Record t : Type := mk {
  id : string; app : string; dataset : string; url : string; secret : option string;
  sink : string; enabled : bool; cursor_seq : Z; created_at : timestamp }.
#[global] Instance eta_watch : Eta t := λ r,
  mk (id r) (app r) (dataset r) (url r) (secret r) (sink r) (enabled r) (cursor_seq r)
    (created_at r).

Definition covers (w : t) (ds : string) : bool :=
  String.eqb (dataset w) "*" || String.eqb (dataset w) ds.
End Watch.

Definition create_subscription (id : string) (now : timestamp) (name : option string)
    (selector : Json) (sink url : string) (secret : option string) (from_seq : Z)
    (principal_id : option string) (t : list Subscription.t)
    : list Subscription.t * result string Subscription.t :=
  let t' := t ++ [Subscription.mk id name selector sink url secret from_seq true principal_id
                    now None None] in
  (t', match lookup_by Subscription.id id t' with Some s => Ok s | None => Err "RowNotFound"%string end).

Definition sub_is (id : string) (s : Subscription.t) : bool := String.eqb (Subscription.id s) id.
Definition watch_is (id : string) (w : Watch.t) : bool := String.eqb (Watch.id w) id.

(** [ORDER BY created_at DESC, id DESC] *)
Definition sub_newest (a b : Subscription.t) : bool :=
  (Subscription.created_at b <? Subscription.created_at a)
  || ((Subscription.created_at a =? Subscription.created_at b)
      && String.leb (Subscription.id b) (Subscription.id a)).
Definition list_subscriptions (enabled_only : bool) (t : list Subscription.t)
    : list Subscription.t :=
  order_by sub_newest (select_where (λ s, negb enabled_only || Subscription.enabled s) t).

Definition set_subscription_enabled (id : string) (on : bool) (t : list Subscription.t)
    : list Subscription.t * bool :=
  (update_where (sub_is id) (λ s, s <| Subscription.enabled := on |>) t,
   0 <? rows_affected (sub_is id) t).
Definition delete_subscription (id : string) (t : list Subscription.t)
    : list Subscription.t * bool :=
  (delete_where (sub_is id) t, 0 <? rows_affected (sub_is id) t).

(** The monotonic fence. *)
Definition advance_subscription_cursor (now : timestamp) (id : string) (seq : Z)
    (t : list Subscription.t) : list Subscription.t * bool :=
  let p s := sub_is id s && (Subscription.cursor_seq s <? seq) in
  (update_where p
     (λ s, s <| Subscription.cursor_seq := seq |>
             <| Subscription.last_delivered_at := Some now |>
             <| Subscription.last_error := None |>) t,
   0 <? rows_affected p t).

Definition record_subscription_error (id error : string) (t : list Subscription.t)
    : list Subscription.t :=
  update_where (sub_is id) (λ s, s <| Subscription.last_error := Some error |>) t.

Definition create_watch (id : string) (now : timestamp) (app dataset url : string)
    (secret : option string) (sink : string) (from_seq : Z) (t : list Watch.t)
    : list Watch.t * result string Watch.t :=
  let t' := t ++ [Watch.mk id app dataset url secret sink true (Z.max from_seq 0) now] in
  (t', match lookup_by Watch.id id t' with Some w => Ok w | None => Err "RowNotFound"%string end).

(** [ORDER BY created_at ASC, id ASC] *)
Definition watch_oldest (a b : Watch.t) : bool :=
  (Watch.created_at a <? Watch.created_at b)
  || ((Watch.created_at a =? Watch.created_at b) && String.leb (Watch.id a) (Watch.id b)).
Definition enabled_watches_all (t : list Watch.t) : list Watch.t :=
  order_by watch_oldest (select_where Watch.enabled t).
Definition enabled_watches (app : string) (t : list Watch.t) : list Watch.t :=
  select_where (λ w, String.eqb (Watch.app w) app && Watch.enabled w) t.

Definition set_watch_enabled (id : string) (on : bool) (t : list Watch.t)
    : list Watch.t * bool :=
  (update_where (watch_is id) (λ w, w <| Watch.enabled := on |>) t,
   0 <? rows_affected (watch_is id) t).
Definition delete_watch (id : string) (t : list Watch.t) : list Watch.t * bool :=
  (delete_where (watch_is id) t, 0 <? rows_affected (watch_is id) t).

Definition advance_watch_cursor (id : string) (seq : Z) (t : list Watch.t)
    : list Watch.t * bool :=
  let p w := watch_is id w && (Watch.cursor_seq w <? seq) in
  (update_where p (λ w, w <| Watch.cursor_seq := seq |>) t, 0 <? rows_affected p t).

(** ** Selectors *)

Record SelectorFilter : Type := mkFilter { pointer : string; equals : Json }.

Module Selector.
Record t : Type := mk {
  kinds : list string; app : option string; dataset : option string;
  filters : list SelectorFilter }.
Definition default : t := mk [] None None [].
End Selector.

(** The refusals of [parse_selector], one constructor per message. *)
Inductive SelectorError : Type :=
| NotAnObject (v : Json)
| UnknownField (key : string)
| KindNotString (item : Json)
| EmptyKind
| KindsNotArray (v : Json)
| NotAString (field : string) (v : Json)
| FilterNeedsPointer (item : Json)
| PointerWithoutSlash (p : string)
| FilterNeedsEquals (item : Json)
| FiltersNotArray (v : Json).

Definition optional_str (v : option Json) (field : string)
    : result SelectorError (option string) :=
  match v with
  | None | Some JNull => Ok None
  | Some (JString s) => Ok (if String.eqb s "" then None else Some s)
  | Some other => Err (NotAString field other)
  end.

Definition parse_kind (item : Json) : result SelectorError string :=
  match as_str item with
  | None => Err (KindNotString item)
  | Some k => if String.eqb k "" then Err EmptyKind else Ok k
  end.

Definition parse_filter (item : Json) : result SelectorError SelectorFilter :=
  match json_get "pointer" item ≫= as_str with
  | None => Err (FilterNeedsPointer item)
  | Some p =>
      if negb (is_some (strip_prefix "/" p)) then Err (PointerWithoutSlash p)
      else match json_get "equals" item with
           | None => Err (FilterNeedsEquals item)
           | Some v => Ok (mkFilter p v)
           end
  end.

Definition SELECTOR_FIELDS : list string := ["kinds"; "app"; "dataset"; "filters"]%string.

Definition parse_selector (v : Json) : result SelectorError Selector.t :=
  match v with
  | JNull => Ok Selector.default
  | JObject obj =>
      match List.find (λ k, negb (bool_decide (k ∈ SELECTOR_FIELDS))) (map_keys obj) with
      | Some key => Err (UnknownField key)
      | None =>
          kinds ← match map_get "kinds" obj with
                  | None | Some JNull => Ok []
                  | Some (JArray items) => collect_ok parse_kind items
                  | Some other => Err (KindsNotArray other)
                  end;
          app ← optional_str (map_get "app" obj) "selector.app";
          dataset ← optional_str (map_get "dataset" obj) "selector.dataset";
          filters ← match map_get "filters" obj with
                    | None | Some JNull => Ok []
                    | Some (JArray items) => collect_ok parse_filter items
                    | Some other => Err (FiltersNotArray other)
                    end;
          Ok (Selector.mk kinds app dataset filters)
      end
  | other => Err (NotAnObject other)
  end.

Definition filter_json (f : SelectorFilter) : Json :=
  JObject (map_insert "equals" (equals f) (map_insert "pointer" (JString (pointer f)) []))%string.

Definition to_json (s : Selector.t) : Json :=
  let out := [] in
  let out := match Selector.kinds s with
             | [] => out
             | ks => map_insert "kinds"%string (JArray (map JString ks)) out
             end in
  let out := match Selector.app s with
             | Some a => map_insert "app"%string (JString a) out | None => out end in
  let out := match Selector.dataset s with
             | Some d => map_insert "dataset"%string (JString d) out | None => out end in
  let out := match Selector.filters s with
             | [] => out
             | fs => map_insert "filters"%string (JArray (map filter_json fs)) out
             end in
  JObject out.

Definition DATASET_CHANGED : string := "dataset.changed".
Definition watch_selector (w : Watch.t) : Selector.t :=
  Selector.mk [DATASET_CHANGED] (Some (Watch.app w)) (Some (Watch.dataset w)) [].

Section matching.
Context `{JsonPointer, JsonEq}.

Definition event_names_dataset (event : EventRecord.t) (dataset : string) : bool :=
  String.eqb (EventRecord.subject_id event) dataset
  || match json_pointer "/result/dataset" (EventRecord.payload event) ≫= as_str with
     | Some d => String.eqb d dataset
     | None => false
     end.

Definition matches (s : Selector.t) (event : EventRecord.t) : bool :=
  (bool_decide (Selector.kinds s = []) || bool_decide (EventRecord.kind event ∈ Selector.kinds s))
  && match Selector.app s with
     | Some a => String.eqb a "*" || String.eqb a (EventRecord.app event)
     | None => true
     end
  && match Selector.dataset s with
     | Some d => String.eqb d "*" || event_names_dataset event d
     | None => true
     end
  && forallb (λ f, match json_pointer (pointer f) (EventRecord.payload event) with
                   | Some v => json_eqb v (equals f)
                   | None => false
                   end) (Selector.filters s).
End matching.

(** ** The outbox *)

(** One drain target: a subscription row, or a watch adapted onto its shape. *)
Module Target.
Record t : Type := mk {
  id : string; delivery_kind : string; selector : Selector.t; sink : string;
  url : string; secret : option string; cursor : Z; is_watch : bool }.

Definition from_subscription (s : Subscription.t) (sel : Selector.t) : t :=
  mk (Subscription.id s) "subscription" sel (Subscription.sink s) (Subscription.url s)
    (Subscription.secret s) (Subscription.cursor_seq s) false.
Definition from_watch (w : Watch.t) : t :=
  mk (Watch.id w) "change" (watch_selector w) (Watch.sink w) (Watch.url w) (Watch.secret w)
    (Watch.cursor_seq w) true.
End Target.

(** The tables a drain writes. *)
Record outbox : Type := mkOutbox {
  subs : list Subscription.t;
  watches : list Watch.t;
  deliveries : log }.
#[global] Instance eta_outbox : Eta outbox := λ o, mkOutbox (subs o) (watches o) (deliveries o).

Definition MAX_PAGES_PER_TICK : nat := 20.

Definition load_targets (o : outbox) : list Target.t :=
  flat_map (λ s, match parse_selector (Subscription.selector s) with
                 | Ok sel => [Target.from_subscription s sel]
                 | Err _ => []
                 end) (list_subscriptions true (subs o))
  ++ map Target.from_watch (enabled_watches_all (watches o)).

Definition advance (now : timestamp) (target : Target.t) (seq : Z) (o : outbox) : outbox :=
  if seq <=? Target.cursor target then o
  else if Target.is_watch target
  then o <| watches ::= λ t, (advance_watch_cursor (Target.id target) seq t).1 |>
  else o <| subs ::= λ t, (advance_subscription_cursor now (Target.id target) seq t).1 |>.

Section drain.
Context `{JsonPointer, JsonEq, JsonRender, TimeRender}.
Variables (now : timestamp) (slack_summary : Json → Json).
(** A fresh delivery id; whether the store accepts the row; whether a read of
    the log answers, by page. *)
Variable new_id : Target.t → EventRecord.t → string.
Variable insert : Target.t → EventRecord.t → result string unit.
Variable read_ok : Target.t → nat → bool.

Definition delivery_payload (target : Target.t) (event : EventRecord.t) : Json :=
  if Target.is_watch target then
    let body := coalesce (json_pointer "/result" (EventRecord.payload event))
                  (EventRecord.payload event) in
    match body with
    | JObject map => JObject (map_insert "watch_id" (JString (Target.id target)) map)
    | body => body
    end
  else
    JObject (map_of_list
      [("subscription_id", JString (Target.id target));
       ("seq", JNumber (if (EventRecord.seq event <? 0)%Z then NegInt (EventRecord.seq event)
                        else PosInt (EventRecord.seq event)));
       ("kind", JString (EventRecord.kind event));
       ("app", JString (EventRecord.app event));
       ("subject_id", JString (EventRecord.subject_id event));
       ("created_at", JString (render_ts (EventRecord.created_at event)));
       ("payload", EventRecord.payload event)]%string).

(** [dispatch_logged]'s durable half: the delivery row. *)
Definition dispatch (target : Target.t) (event : EventRecord.t) (o : outbox)
    : outbox * result string unit :=
  let '(url, _, body) := sink_route slack_summary (Target.sink target) (Target.url target)
                           (Target.id target) (Target.secret target)
                           (delivery_payload target event) in
  match insert target event with
  | Err e => (o, Err e)
  | Ok tt =>
      (o <| deliveries ::= create_delivery (new_id target event) now
                             (Target.delivery_kind target) (Target.id target) url
                             (EventRecord.kind event) (json_render body) |>, Ok tt)
  end.

(** The events of one page, in order, up to the first that could not be handed
    off; answers the last sequence reached, and the error that stopped it. *)
Fixpoint drain_page (target : Target.t) (page : events) (reached : Z) (o : outbox)
    : outbox * Z * option string :=
  match page with
  | [] => (o, reached, None)
  | event :: page =>
      if matches (Target.selector target) event then
        match dispatch target event o with
        | (o, Err e) => (o, reached, Some e)
        | (o, Ok tt) => drain_page target page (EventRecord.seq event) o
        end
      else drain_page target page (EventRecord.seq event) o
  end.

Fixpoint drain_pages (pages n : nat) (target : Target.t) (batch cursor : Z) (t : events)
    (o : outbox) : outbox :=
  match pages with
  | O => o
  | S pages =>
      if negb (read_ok target n) then o
      else
        match events_after cursor None None batch t with
        | [] => o
        | page =>
            match drain_page target page cursor o with
            | (o, reached, Some e) =>
                (advance now target reached o)
                  <| subs ::= record_subscription_error (Target.id target) e |>
            | (o, reached, None) =>
                let o := advance now target reached o in
                if Z.of_nat (length page) <? batch then o
                else drain_pages pages (S n) target batch reached t o
            end
        end
  end.

Definition drain_target (outbox_batch : Z) (target : Target.t) (t : events) (o : outbox)
    : outbox :=
  drain_pages MAX_PAGES_PER_TICK 0 target (Z.max outbox_batch 1) (Target.cursor target) t o.

Definition drain (outbox_batch : Z) (t : events) (o : outbox) : outbox :=
  foldl (λ o target, drain_target outbox_batch target t o) o (load_targets o).
End drain.
