(* ===== verification/EventTheorems.v ===== *)
(** * EventTheorems: what the event log and its outbox guarantee *)

From S2P Require Import Prelude Sql Float64 Json JobQueue Deliveries EventLog.

#[local] Arguments lookup_by : simpl never.
#[local] Arguments update_where : simpl never.

(** ** Appending *)

Lemma insert_event_spec now ev t :
  NoDup (map EventRecord.seq t) →
  let '(t', n) := insert_event now ev t in
  ∃ fresh, t' = t ++ fresh ∧ n = Z.of_nat (length fresh) ∧
    NoDup (map EventRecord.seq t') ∧ NewEvent.seq ev ∈ map EventRecord.seq t'.
Proof.
  intros Hnd. unfold insert_event.
  destruct (lookup_by EventRecord.seq (NewEvent.seq ev) t) as [r|] eqn:Hl; cbn [is_some].
  - exists []. rewrite app_nil_r. split_and!; try done.
    apply lookup_by_Some in Hl as [Hr <-]. by apply list_elem_of_In, in_map, list_elem_of_In.
  - apply lookup_by_None in Hl. eexists. split_and!; [reflexivity|done| |].
    + rewrite List.map_app. apply NoDup_app. split_and!; [done| |apply NoDup_singleton].
      intros s Hs. cbn. rewrite list_elem_of_singleton. congruence.
    + rewrite List.map_app. apply elem_of_app. right. left.
Qed.

Lemma append_events_spec now evs t :
  NoDup (map EventRecord.seq t) →
  let '(t', n) := append_events now evs t in
  ∃ fresh, t' = t ++ fresh ∧ n = Z.of_nat (length fresh) ∧
    NoDup (map EventRecord.seq t') ∧
    ∀ ev, ev ∈ evs → NewEvent.seq ev ∈ map EventRecord.seq t'.
Proof.
  revert t. induction evs as [|ev evs IH]; intros t Hnd; cbn.
  { exists []. rewrite app_nil_r. split_and!; try done. intros ev He. by apply not_elem_of_nil in He. }
  pose proof (insert_event_spec now ev t Hnd) as Hi.
  destruct (insert_event now ev t) as [t1 n1]. destruct Hi as (f1 & -> & -> & Hnd1 & Hin).
  specialize (IH (t ++ f1) Hnd1). destruct (append_events now evs (t ++ f1)) as [t2 n2].
  destruct IH as (f2 & -> & -> & Hnd2 & Hin2). exists (f1 ++ f2). rewrite <- app_assoc in *.
  split_and!; [done|rewrite length_app; lia|done|].
  intros e He. apply elem_of_cons in He as [->|He]; [|by apply Hin2].
  rewrite List.map_app in Hin. rewrite !List.map_app. set_solver.
Qed.

Lemma append_events_known now evs t :
  (∀ ev, ev ∈ evs → NewEvent.seq ev ∈ map EventRecord.seq t) → append_events now evs t = (t, 0).
Proof.
  induction evs as [|ev evs IH]; intros Hk; [done|]. cbn. unfold insert_event.
  destruct (lookup_by EventRecord.seq (NewEvent.seq ev) t) as [r|] eqn:Hl.
  - cbn. by rewrite IH by (intros e He; apply Hk; by right).
  - apply lookup_by_None in Hl. exfalso. apply Hl, Hk. left.
Qed.

(** appending is idempotent.  A batch only adds rows at the end of the log,
    one per sequence it did not hold, and never a second row for a sequence; the
    count it answers is the rows that landed; and appending the batch again, as
    after a retried flush, changes nothing. *)
Theorem append_events_idempotent now now' evs t :
  NoDup (map EventRecord.seq t) →
  let '(t', landed) := append_events now evs t in
  (∃ fresh, t' = t ++ fresh ∧ landed = Z.of_nat (length fresh)) ∧
  NoDup (map EventRecord.seq t') ∧
  (∀ ev, ev ∈ evs → NewEvent.seq ev ∈ map EventRecord.seq t') ∧
  append_events now' evs t' = (t', 0).
Proof.
  intros Hnd. pose proof (append_events_spec now evs t Hnd) as Ha.
  destruct (append_events now evs t) as [t' n]. destruct Ha as (f & Ht & Hn & Hnd' & Hin).
  split_and!; [by exists f|done|done|]. by apply append_events_known.
Qed.

Definition sample_event (seq : Z) (kind : string) : NewEvent.t :=
  NewEvent.mk seq kind "app" "subject" JNull.

Lemma append_events_idempotent_witness :
  let t := (append_events 5 [sample_event 1 "a"; sample_event 1 "b"; sample_event 2 "c"] []).1 in
  append_events 9 [sample_event 1 "a"; sample_event 1 "b"; sample_event 2 "c"] t = (t, 0).
Proof.
  intros t. subst t. pose proof (append_events_idempotent 5 9
    [sample_event 1 "a"; sample_event 1 "b"; sample_event 2 "c"] [] (NoDup_nil_2)) as Ha.
  destruct (append_events 5 _ []) as [t' n]. apply Ha.
Defined.

(** ** The order of the log *)

Definition pending_after (cursor : Z) (t : events) : events :=
  order_by by_seq (select_where (λ r, cursor <? EventRecord.seq r) t).

Lemma by_seq_total a b : by_seq a b = true ∨ by_seq b a = true.
Proof. unfold by_seq. breflect. lia. Qed.
Lemma by_seq_trans a b c : by_seq a b = true → by_seq b c = true → by_seq a c = true.
Proof. unfold by_seq. breflect. lia. Qed.

Lemma events_after_all cursor batch t :
  0 ≤ batch → events_after cursor None None batch t = take (Z.to_nat batch) (pending_after cursor t).
Proof.
  intros Hb. unfold events_after, sql_limit, pending_after.
  rewrite (proj2 (Z.ltb_ge batch 0)) by done. f_equal. f_equal.
  unfold select_where. apply List.filter_ext. intros r. cbn. by rewrite !andb_true_r.
Qed.

(** Dropping the events up to a reached sequence leaves those after it. *)
Lemma pending_after_suffix cursor t l0 x l :
  NoDup (map EventRecord.seq t) → pending_after cursor t = l0 ++ x :: l →
  pending_after (EventRecord.seq x) t = l.
Proof.
  intros Hnd Hl. unfold pending_after in *.
  pose proof (order_by_sorted _ by_seq_total by_seq_trans
                (select_where (λ r, cursor <? EventRecord.seq r) t)) as Hs.
  assert (NoDup (map EventRecord.seq (order_by by_seq
            (select_where (λ r, cursor <? EventRecord.seq r) t)))) as Hndl.
  { change (NoDup (EventRecord.seq <$> order_by by_seq
             (select_where (λ r, cursor <? EventRecord.seq r) t))).
    rewrite order_by_perm. by apply NoDup_select_keys. }
  assert (cursor < EventRecord.seq x) as Hx.
  { assert (x ∈ order_by by_seq (select_where (λ r, cursor <? EventRecord.seq r) t)) as Hin
      by (rewrite Hl; set_solver).
    apply elem_of_order_by, elem_of_select in Hin as [_ Hin]. by apply Z.ltb_lt. }
  assert (select_where (λ r, EventRecord.seq x <? EventRecord.seq r) t
          = select_where (λ r, EventRecord.seq x <? EventRecord.seq r)
              (select_where (λ r, cursor <? EventRecord.seq r) t)) as ->.
  { rewrite <- select_where_and. unfold select_where. apply List.filter_ext. intros r.
    apply eq_true_iff_eq. breflect. lia. }
  unfold select_where at 1.
  rewrite (filter_order_by _ by_seq_total by_seq_trans). rewrite Hl in *.
  replace (l0 ++ x :: l) with ((l0 ++ [x]) ++ l) in * by by rewrite <- app_assoc.
  rewrite List.filter_app.
  fold (select_where (λ r, EventRecord.seq x <? EventRecord.seq r) (l0 ++ [x]))
    (select_where (λ r, EventRecord.seq x <? EventRecord.seq r) l).
  unfold sorted_by in Hs. rewrite select_where_none, select_where_all; [done| |].
  - intros y Hy. apply Z.ltb_lt.
    eapply (StronglySorted_app_1_elem_of _ _ _ x y) in Hs; [|set_solver|done].
    unfold by_seq in Hs. apply Z.leb_le in Hs.
    rewrite List.map_app in Hndl. apply NoDup_app in Hndl as (_ & Hd & _).
    assert (EventRecord.seq x ≠ EventRecord.seq y); [|lia]. intros He.
    apply (Hd (EventRecord.seq x)).
    + rewrite List.map_app. apply elem_of_app. right. left.
    + rewrite He. by apply list_elem_of_In, in_map, list_elem_of_In.
  - intros y Hy. apply Z.ltb_ge. apply StronglySorted_app_1_l in Hs.
    apply elem_of_app in Hy as [Hy|Hy]; [|apply list_elem_of_singleton in Hy as ->; lia].
    eapply (StronglySorted_app_1_elem_of _ _ _ y x) in Hs; [|done|left].
    unfold by_seq in Hs. by apply Z.leb_le.
Qed.

(** ** The outbox *)

(** The stored cursor of a target. *)
Definition stored_cursor (target : Target.t) (o : outbox) : option Z :=
  if Target.is_watch target
  then Watch.cursor_seq <$> lookup_by Watch.id (Target.id target) (watches o)
  else Subscription.cursor_seq <$> lookup_by Subscription.id (Target.id target) (subs o).

Lemma advance_stored now target seq o c :
  Target.cursor target ≤ c → stored_cursor target o = Some c →
  stored_cursor target (advance now target seq o)
    = Some (if seq <=? Target.cursor target then c else Z.max c seq).
Proof.
  intros Hc Hs. unfold advance. case_if; [done|]. unfold stored_cursor in *.
  destruct (Target.is_watch target) eqn:Hw; cbn.
  - rewrite lookup_by_update by done.
    destruct (lookup_by Watch.id (Target.id target) (watches o)) as [w|] eqn:Hl; [|done].
    cbn in *. injection Hs as <-. apply lookup_by_Some in Hl as [_ Hid].
    unfold watch_is. rewrite (proj2 (String.eqb_eq _ _) Hid). cbn.
    destruct (Z.ltb_spec (Watch.cursor_seq w) seq); cbn; f_equal; lia.
  - rewrite lookup_by_update by done.
    destruct (lookup_by Subscription.id (Target.id target) (subs o)) as [w|] eqn:Hl; [|done].
    cbn in *. injection Hs as <-. apply lookup_by_Some in Hl as [_ Hid].
    unfold sub_is. rewrite (proj2 (String.eqb_eq _ _) Hid). cbn.
    destruct (Z.ltb_spec (Subscription.cursor_seq w) seq); cbn; f_equal; lia.
Qed.

Lemma record_error_stored target id e o :
  stored_cursor target (o <| subs ::= record_subscription_error id e |>) = stored_cursor target o.
Proof.
  unfold stored_cursor. destruct (Target.is_watch target); [done|]. cbn.
  unfold record_subscription_error. rewrite lookup_by_update by done.
  destruct (lookup_by _ _ (subs o)) as [s|]; [|done]. cbn. by destruct (sub_is id s).
Qed.

Lemma advance_deliveries now target seq o : deliveries (advance now target seq o) = deliveries o.
Proof. unfold advance. by repeat case_if. Qed.

Section drain.
Context `{JsonPointer, JsonEq, JsonRender, TimeRender}.
Variables (now : timestamp) (slack_summary : Json → Json).
Variable new_id : Target.t → EventRecord.t → string.
Variable insert : Target.t → EventRecord.t → result string unit.
Variable read_ok : Target.t → nat → bool.

(** The delivery row an event is handed off as. *)
Definition delivery_of (target : Target.t) (ev : EventRecord.t) : Delivery.t :=
  let '(url, _, body) := sink_route slack_summary (Target.sink target) (Target.url target)
                           (Target.id target) (Target.secret target)
                           (delivery_payload target ev) in
  Delivery.mk (new_id target ev) (Target.delivery_kind target) (Target.id target) url
    (EventRecord.kind ev) (json_render body) "pending" 0 None now now 0 None.

Definition reached_by (cursor : Z) (l : events) : Z :=
  match last l with Some ev => EventRecord.seq ev | None => cursor end.

Lemma reached_by_cons c ev l : reached_by c (ev :: l) = reached_by (EventRecord.seq ev) l.
Proof. unfold reached_by. rewrite last_cons. by destruct (last l). Qed.

Lemma dispatch_ok target ev o :
  insert target ev = Ok tt →
  dispatch now slack_summary new_id insert target ev o
    = (o <| deliveries ::= λ t, t ++ [delivery_of target ev] |>, Ok tt).
Proof.
  intros Hi. unfold dispatch, delivery_of. destruct (sink_route _ _ _ _ _ _) as [[u s] b].
  by rewrite Hi.
Qed.

Lemma dispatch_err target ev o e :
  insert target ev = Err e → dispatch now slack_summary new_id insert target ev o = (o, Err e).
Proof.
  intros Hi. unfold dispatch. destruct (sink_route _ _ _ _ _ _) as [[u s] b]. by rewrite Hi.
Qed.

(** A page is handed off up to its first refused row. *)
Lemma drain_page_spec target page cursor o :
  ∃ k, (k ≤ length page)%nat ∧
    let '(o', reached, err) :=
      drain_page now slack_summary new_id insert target page cursor o in
    o' = o <| deliveries ::= λ t, t ++ map (delivery_of target)
                (List.filter (matches (Target.selector target)) (take k page)) |> ∧
    reached = reached_by cursor (take k page) ∧
    match err with
    | None => k = length page
    | Some e => ∃ ev, page !! k = Some ev ∧ matches (Target.selector target) ev = true ∧
                      insert target ev = Err e
    end.
Proof.
  revert cursor o. induction page as [|ev page IH]; intros cursor o.
  { exists 0%nat. split; [lia|]. cbn. split_and!; try done.
    destruct o; cbn. by rewrite app_nil_r. }
  cbn [drain_page]. destruct (matches (Target.selector target) ev) eqn:Hm.
  - destruct (insert target ev) as [[]|e] eqn:Hi.
    + rewrite dispatch_ok by done. set (o1 := _ <| deliveries ::= _ |>).
      destruct (IH (EventRecord.seq ev) o1) as (k & Hk & Hr).
      exists (S k). split; [cbn; lia|].
      destruct (drain_page _ _ _ _ _ page _ o1) as [[o' reached] err].
      destruct Hr as (-> & -> & He). split_and!.
      * subst o1. destruct o. cbn. rewrite Hm. cbn. by rewrite <- app_assoc.
      * cbn. by rewrite reached_by_cons.
      * destruct err; [done|]. cbn. lia.
    + rewrite (dispatch_err _ _ _ e) by done. exists 0%nat. split; [lia|].
      split_and!; [destruct o; cbn; by rewrite app_nil_r|done|]. by exists ev.
  - destruct (IH (EventRecord.seq ev) o) as (k & Hk & Hr).
    exists (S k). split; [cbn; lia|].
    destruct (drain_page _ _ _ _ _ page _ o) as [[o' reached] err].
    destruct Hr as (-> & -> & He). split_and!.
    * cbn. by rewrite Hm.
    * cbn. by rewrite reached_by_cons.
    * destruct err; [done|]. cbn. lia.
Qed.

Lemma reached_by_ge cursor t l :
  (∀ ev, ev ∈ l → ev ∈ pending_after cursor t) → cursor ≤ reached_by cursor l.
Proof.
  intros Hl. unfold reached_by. destruct (last l) as [ev|] eqn:E; [|lia].
  apply last_Some_elem_of, Hl in E. apply elem_of_order_by, elem_of_select in E as [_ E].
  apply Z.ltb_lt in E. lia.
Qed.

Lemma advance_reached target reached o cursor :
  Target.cursor target ≤ cursor → cursor ≤ reached → stored_cursor target o = Some cursor →
  stored_cursor target (advance now target reached o) = Some reached.
Proof.
  intros Hc Hr Hs. rewrite (advance_stored now target reached o cursor) by done.
  case_if; breflect; f_equal; lia.
Qed.

Lemma drain_pages_spec pages n target batch cursor t o :
  NoDup (map EventRecord.seq t) → 1 ≤ batch → Target.cursor target ≤ cursor →
  stored_cursor target o = Some cursor →
  let all := pending_after cursor t in
  let o' := drain_pages now slack_summary new_id insert read_ok pages n target batch cursor t o in
  ∃ k, (k ≤ length all)%nat ∧
    deliveries o' = deliveries o ++ map (delivery_of target)
                      (List.filter (matches (Target.selector target)) (take k all)) ∧
    stored_cursor target o' = Some (reached_by cursor (take k all)) ∧
    ((∀ ev, insert target ev = Ok tt) → (∀ i, read_ok target i = true) →
     Z.of_nat (length all) ≤ Z.of_nat pages * batch → k = length all).
Proof.
  intros Hnd Hb. revert n cursor o.
  induction pages as [|pages IH]; intros n cursor o Hc Hs all o'; subst o'; cbn [drain_pages].
  { exists 0%nat. split_and!; [lia|cbn; by rewrite app_nil_r|done|]. intros _ _ Hl. lia. }
  destruct (read_ok target n) eqn:Hread; cbn [negb];
    [|exists 0%nat; split_and!; [lia|cbn; by rewrite app_nil_r|done|];
      intros _ Hall; by rewrite Hall in Hread].
  rewrite events_after_all by lia. fold all. set (b := Z.to_nat batch).
  destruct (drain_page_spec target (take b all) cursor o) as (k & Hk & Hpage).
  rewrite length_take in Hk. assert (take k (take b all) = take k all) as Htk.
  { rewrite take_take. f_equal. lia. }
  rewrite Htk in Hpage.
  assert (cursor ≤ reached_by cursor (take k all)) as Hreach.
  { apply (reached_by_ge cursor t). intros ev He. fold all. rewrite <- (take_drop k all).
    apply elem_of_app. by left. }
  destruct (take b all) as [|ev0 page0] eqn:Hp.
  { exists 0%nat. split_and!; [lia|cbn; by rewrite app_nil_r|done|]. intros _ _ _.
    destruct all; [done|]. unfold b in Hp. destruct (Z.to_nat batch) eqn:E; [lia|done]. }
  rewrite <- Hp in *. destruct (drain_page _ _ _ _ _ _ _ _) as [[o1 reached] err].
  destruct Hpage as (-> & -> & Herr). set (o1 := o <| deliveries ::= _ |>).
  assert (stored_cursor target o1 = Some cursor) as Hs1 by done.
  destruct err as [e|].
  - exists k. split_and!; [lia| | |].
    + cbn. by rewrite advance_deliveries.
    + rewrite record_error_stored. by apply (advance_reached _ _ _ cursor).
    + intros Hins. destruct Herr as (ev & _ & _ & He). by rewrite Hins in He.
  - rewrite length_take in Herr. rewrite length_take.
    set (o2 := advance now target _ o1).
    assert (stored_cursor target o2 = Some (reached_by cursor (take k all))) as Hs2
      by by apply (advance_reached _ _ _ cursor).
    assert (deliveries o2 = deliveries o1) as Hd2 by apply advance_deliveries.
    destruct (Z.ltb_spec (Z.of_nat (b `min` length all)) batch) as [Hlt|Hge].
    + exists k. split_and!; [lia|by rewrite Hd2|done|]. intros _ _ _. lia.
    + assert (k = b) as -> by lia.
      assert (∃ l0 x, take b all = l0 ++ [x]) as (l0 & x & Hx).
      { destruct (exists_last (l := take b all)) as (l' & x & Hx); [by rewrite Hp|].
        by exists l', x. }
      assert (reached_by cursor (take b all) = EventRecord.seq x) as Hre.
      { unfold reached_by. by rewrite Hx, last_snoc. }
      assert (pending_after (reached_by cursor (take b all)) t = drop b all) as Hrest.
      { rewrite Hre. apply (pending_after_suffix cursor t l0); [done|]. fold all.
        rewrite <- (take_drop b all) at 1. by rewrite Hx, <- app_assoc. }
      destruct (IH (S n) (reached_by cursor (take b all)) o2) as (k' & Hk' & Hd' & Hs' & Hall);
        [lia|done|]. rewrite Hrest in *. exists (b + k')%nat.
      rewrite length_drop in Hk', Hall.
      assert (take (b + k') all = take b all ++ take k' (drop b all)) as Hsplit.
      { rewrite <- (take_drop b (take (b + k') all)), take_take, <- take_drop_commute.
        do 2 f_equal. lia. }
      split_and!; [lia| | |].
      * rewrite Hd', Hd2, Hsplit, List.filter_app, List.map_app. cbn. by rewrite app_assoc.
      * rewrite Hs', Hsplit. f_equal. unfold reached_by. rewrite last_app.
        by destruct (last (take k' (drop b all))).
      * intros Hi Hr Hl. rewrite Hall; [lia|done..|lia].
Qed.

(** the outbox hands off at least once and skips nothing.  One drain of a
    target reads the log in sequence order from the stored cursor: the delivery
    rows it writes are exactly those of the matching events among the events it
    passed, in order, and the cursor it stores is the last event it passed, so
    the next drain resumes at the first event not handed off.  When the store
    answers, everything is handed off that fits in twenty pages. *)
Theorem drain_target_hands_off batch target t o :
  NoDup (map EventRecord.seq t) → stored_cursor target o = Some (Target.cursor target) →
  let all := pending_after (Target.cursor target) t in
  let o' := drain_target now slack_summary new_id insert read_ok batch target t o in
  ∃ passed rest, all = passed ++ rest ∧
    deliveries o' = deliveries o ++ map (delivery_of target)
                      (List.filter (matches (Target.selector target)) passed) ∧
    stored_cursor target o' = Some (reached_by (Target.cursor target) passed) ∧
    pending_after (reached_by (Target.cursor target) passed) t = rest ∧
    ((∀ ev, insert target ev = Ok tt) → (∀ i, read_ok target i = true) →
     Z.of_nat (length all) ≤ 20 * Z.max batch 1 → rest = []).
Proof.
  intros Hnd Hs all o'.
  destruct (drain_pages_spec MAX_PAGES_PER_TICK 0 target (Z.max batch 1) (Target.cursor target)
              t o Hnd ltac:(lia) ltac:(lia) Hs) as (k & Hk & Hd & Hst & Hall).
  fold all in Hk, Hd, Hst, Hall. exists (take k all), (drop k all).
  split_and!; [by rewrite take_drop|done|done| |].
  - unfold reached_by. destruct (last (take k all)) as [x|] eqn:Hx.
    + apply last_Some in Hx as [l0 Hx].
      apply (pending_after_suffix (Target.cursor target) t l0); [done|]. fold all.
      rewrite <- (take_drop k all) at 1. by rewrite Hx, <- app_assoc.
    + apply last_None in Hx. fold all. rewrite <- (take_drop k all) at 1. by rewrite Hx.
  - intros Hi Hr Hl. rewrite Hall; [|done..]. apply drop_all.
Qed.
End drain.

Definition sample_sub : Subscription.t :=
  Subscription.mk "s1" None JNull "webhook" "https://example.com" None 1 true None 0 None None.
Definition sample_log : events :=
  (append_events 5 [sample_event 1 "a"; sample_event 3 "a"; sample_event 2 "b"] []).1.
Definition sample_target : Target.t :=
  Target.from_subscription sample_sub (Selector.mk ["a"%string] None None []).

Lemma drain_target_hands_off_witness :
  stored_cursor sample_target
    (@drain_target (λ _ _, None) (λ _ _, true) (λ _, "{}"%string) (λ _, ""%string) 9 (λ v, v)
       (λ _ _, "d"%string) (λ _ _, Ok tt) (λ _ _, true) 2 sample_target sample_log
       (mkOutbox [sample_sub] [] [])) = Some 3.
Proof.
  destruct (@drain_target_hands_off (λ _ _, None) (λ _ _, true) (λ _, "{}"%string)
    (λ _, ""%string) 9 (λ v, v) (λ _ _, "d"%string) (λ _ _, Ok tt) (λ _ _, true) 2 sample_target
    sample_log (mkOutbox [sample_sub] [] [])) as (passed & rest & Ha & _ & Hs & _ & Hr).
  - by apply (bool_decide_unpack _); vm_compute.
  - reflexivity.
  - rewrite Hs. rewrite Hr, app_nil_r in Ha; [|done..|vm_compute; discriminate].
    rewrite <- Ha. vm_compute. reflexivity.
Defined.

(** ** Selectors *)

(** What [parse_selector] accepts into each field. *)
Definition well_formed (s : Selector.t) : Prop :=
  (∀ k, k ∈ Selector.kinds s → k ≠ ""%string) ∧ Selector.app s ≠ Some ""%string ∧
  Selector.dataset s ≠ Some ""%string ∧
  ∀ f, f ∈ Selector.filters s → is_some (strip_prefix "/" (pointer f)) = true.

Lemma to_json_fields s :
  ∃ obj, to_json s = JObject obj ∧
    List.find (λ k, negb (bool_decide (k ∈ SELECTOR_FIELDS))) (map_keys obj) = None ∧
    map_get "kinds" obj = match Selector.kinds s with
                          | [] => None | ks => Some (JArray (map JString ks)) end ∧
    map_get "app" obj = JString <$> Selector.app s ∧
    map_get "dataset" obj = JString <$> Selector.dataset s ∧
    map_get "filters" obj = match Selector.filters s with
                            | [] => None | fs => Some (JArray (map filter_json fs)) end.
Proof.
  destruct s as [ks app ds fs]. eexists. split; [reflexivity|]. cbn [Selector.kinds
    Selector.app Selector.dataset Selector.filters].
  destruct ks, app, ds, fs; split_and!; reflexivity.
Qed.

Lemma parse_selector_accepts v s :
  parse_selector v = Ok s → well_formed s.
Proof.
  intros Hp. unfold parse_selector in Hp.
  destruct v as [| | | | |obj]; try done.
  { injection Hp as <-. split_and!; try done; intros x Hx; by apply not_elem_of_nil in Hx. }
  destruct (List.find _ (map_keys obj)); [done|].
  assert (∀ o f x, optional_str o f = Ok x → x ≠ Some ""%string) as Hopt.
  { intros o f x Ho. unfold optional_str in Ho.
    destruct o as [[| | |str| |]|]; try done; injection Ho as <-; try done.
    destruct (String.eqb_spec str "") as [|Hne]; [done|congruence]. }
  destruct (match map_get "kinds" obj with None => _ | _ => _ end) as [ks|] eqn:Hk; [|done].
  cbn in Hp. destruct (optional_str (map_get "app" obj) _) as [app|] eqn:Happ; [|done].
  cbn in Hp. destruct (optional_str (map_get "dataset" obj) _) as [ds|] eqn:Hds; [|done].
  cbn in Hp. destruct (match map_get "filters" obj with None => _ | _ => _ end) as [fs|] eqn:Hf;
    [|done]. cbn in Hp. injection Hp as <-.
  split_and!; cbn; [|by eapply Hopt|by eapply Hopt|].
  - destruct (map_get "kinds" obj) as [[| | | |items|]|]; try done; simplify_eq;
      try (intros k Hin; by apply not_elem_of_nil in Hin).
    eapply collect_ok_all; [|exact Hk]. intros x y Hx. unfold parse_kind in Hx.
    destruct (as_str x) as [str|]; [|done].
    destruct (String.eqb_spec str "") as [|Hne]; [done|]. congruence.
  - destruct (map_get "filters" obj) as [[| | | |items|]|]; try done; simplify_eq;
      try (intros k Hin; by apply not_elem_of_nil in Hin).
    eapply collect_ok_all; [|exact Hf]. intros x y Hx. unfold parse_filter in Hx.
    destruct (json_get "pointer" x ≫= as_str) as [p|]; [|done].
    destruct (is_some (strip_prefix "/" p)) eqn:Hsl; cbn in Hx; [|done].
    destruct (json_get "equals" x); [|done]. by injection Hx as <-.
Qed.

(** a selector survives its storage.  Every selector the parser accepts is
    read back unchanged from the JSON it is stored as, and has no empty kind, no
    empty name and no filter without a JSON pointer; so a subscription matches what
    its creator asked for. *)
Theorem selector_round_trip v s :
  parse_selector v = Ok s → parse_selector (to_json s) = Ok s ∧ well_formed s.
Proof.
  intros Hp. apply parse_selector_accepts in Hp. split; [|done].
  destruct Hp as (Hk & Ha & Hd & Hf).
  destruct (to_json_fields s) as (obj & -> & Hkeys & H1 & H2 & H3 & H4).
  unfold parse_selector. rewrite Hkeys, H1, H2, H3, H4.
  assert (∀ o f, o ≠ Some ""%string → optional_str (JString <$> o) f = Ok o) as Hopt.
  { intros [str|] f Ho; [|done]. cbn. destruct (String.eqb_spec str "") as [->|]; [|done].
    done. }
  assert (collect_ok parse_kind (map JString (Selector.kinds s)) = Ok (Selector.kinds s)) as Hks.
  { apply collect_ok_map. intros k Hin. unfold parse_kind. cbn.
    by rewrite (proj2 (String.eqb_neq _ _) (Hk k Hin)). }
  assert (collect_ok parse_filter (map filter_json (Selector.filters s)) = Ok (Selector.filters s))
    as Hfs.
  { apply collect_ok_map. intros [p e] Hin. specialize (Hf _ Hin). cbn -[strip_prefix is_some] in Hf.
    unfold parse_filter.
    change (json_get "pointer" (filter_json (mkFilter p e)) ≫= as_str) with (Some p).
    change (json_get "equals" (filter_json (mkFilter p e))) with (Some e). cbv iota beta.
    by rewrite Hf. }
  destruct s as [ks app ds fs].
  cbn [Selector.kinds Selector.app Selector.dataset Selector.filters] in *.
  destruct ks, fs; cbv iota beta; rewrite ?Hks; cbn [mbind result_bind];
    rewrite !Hopt by done; cbn [mbind result_bind]; by rewrite ?Hfs.
Qed.

Lemma selector_round_trip_witness :
  let s := Selector.mk ["job.failed"%string] None (Some "*"%string)
             [mkFilter "/app" (JString "crawl")] in
  parse_selector (to_json s) = Ok s.
Proof. intros s. apply (selector_round_trip (to_json s) s). reflexivity. Defined.
