(* ===== verification/Costs.v ===== *)
(** * Costs: the cost ledger, the budget ceiling and ledger retention

    [crates/core/src/costs.rs], and [prune_ledgers] of
    [crates/core/src/storage.rs] with the retention it enforces; then what they guarantee. *)

From S2P Require Import Prelude Sql Float64 Json Errors Jobs JobQueue Deliveries.

(** SQLite's [SUM] over REAL values (compensated summation). *)
Class SqlSum := sql_sum : list f64 → f64.

Module CostEvent.
Record t : Type := mk {
  job_id : Uuid;
  app : string;
  engine : string;
  url : option string;
  cost_usd : f64;
  spend_certainty : SpendCertainty;
  detail : option string;
  created_at : timestamp;
  principal_id : option string;
}.
End CostEvent.
Abbreviation cost_events := (list CostEvent.t).

Definition total_certainty (uncertain_calls : Z) : string :=
  if 0 <? uncertain_calls then "at_least" else "exact".
Definition headroom_certainty (uncertain_calls : Z) : string :=
  if 0 <? uncertain_calls then "at_most" else "exact".

(** ** What a report reads *)

Record CostSummary : Type := mkCostSummary {
  summary_app : string;
  summary_engine : string;
  calls : Z;
  summary_cost_usd : f64;
  unmetered_calls : Z;
  unknown_calls : Z;
}.
Definition summary_uncertain_calls (s : CostSummary) : Z := unmetered_calls s + unknown_calls s.

Module CostRollup.
Record t : Type := mk { billed_usd : f64; unmetered_calls : Z; unknown_calls : Z }.
#[global] Instance eta_rollup : Eta t := λ r,
  mk (billed_usd r) (unmetered_calls r) (unknown_calls r).
Definition default : t := mk f64_zero 0 0.
Definition uncertain_calls (r : t) : Z := unmetered_calls r + unknown_calls r.
Definition certainty (r : t) : string := total_certainty (uncertain_calls r).
End CostRollup.

Definition roll_up (events : cost_events) : CostRollup.t :=
  foldl (λ out e,
    (match CostEvent.spend_certainty e with
     | Unmetered => out <| CostRollup.unmetered_calls ::= Z.succ |>
     | UnknownSpend => out <| CostRollup.unknown_calls ::= Z.succ |>
     | Billed | Free => out
     end) <| CostRollup.billed_usd ::= λ b, f64_add b (CostEvent.cost_usd e) |>)
    CostRollup.default events.

(** ** What the ceiling reads *)

Definition impute_uncertain (billed_usd : f64) (billed_calls uncertain_calls : Z) : option f64 :=
  if billed_calls <? 0 then None
  else if uncertain_calls <=? 0 then Some f64_zero
  else if negb (is_finite billed_usd) || f64_lt billed_usd f64_zero || (billed_calls =? 0)
  then None
  else
    let mean := SFdiv 53 1024 billed_usd (f64_of_Z billed_calls) in
    let imputed := f64_mul mean (f64_of_Z uncertain_calls) in
    if is_finite imputed then Some imputed else None.

Inductive BudgetImputation : Type := WindowMean | Off.

Module JobSpend.
Record t : Type := mk { billed_usd : f64; billed_calls : Z; uncertain_calls : Z }.
#[global] Instance eta_spend : Eta t := λ r,
  mk (billed_usd r) (billed_calls r) (uncertain_calls r).
Definition default : t := mk f64_zero 0 0.

Definition count (certainty : SpendCertainty) (out : t) : t :=
  match certainty with
  | Billed => out <| billed_calls ::= Z.succ |>
  | Unmetered | UnknownSpend => out <| uncertain_calls ::= Z.succ |>
  | Free => out
  end.

Definition from_events (events : cost_events) : t :=
  foldl (λ out e,
    (count (CostEvent.spend_certainty e) out)
      <| billed_usd ::= λ b, f64_add b (CostEvent.cost_usd e) |>) default events.

Definition imputed_usd (policy : BudgetImputation) (s : t) : option f64 :=
  match policy with
  | Off => Some f64_zero
  | WindowMean => impute_uncertain (billed_usd s) (billed_calls s) (uncertain_calls s)
  end.

Definition charged_usd (policy : BudgetImputation) (s : t) : option f64 :=
  imputed ← imputed_usd policy s;
  let charged := f64_add (f64_max (billed_usd s) f64_zero) imputed in
  if is_finite charged then Some charged else None.
End JobSpend.

Inductive BudgetVerdict : Type :=
| Unlimited
| Headroom (usd : f64)
| Unpriceable (uncertain_calls : Z).

Definition budget_verdict (budget_usd : option f64) (spend : JobSpend.t)
    (policy : BudgetImputation) : BudgetVerdict :=
  match budget_usd with
  | Some budget =>
      if is_finite budget then
        match JobSpend.charged_usd policy spend with
        | Some charged => Headroom (f64_max (f64_sub budget charged) f64_zero)
        | None => Unpriceable (JobSpend.uncertain_calls spend)
        end
      else Unlimited
  | None => Unlimited
  end.

(** ** The in-memory mirror

    The counters are atomics; [add]'s compare-exchange loop makes each addition
    one atomic step on the total, which is the step modelled. *)
Module SpentTotal.
Record t : Type := mk {
  usd : f64; billed_calls : Z; uncertain_calls : Z; imputation : BudgetImputation }.
#[global] Instance eta_total : Eta t := λ r,
  mk (usd r) (billed_calls r) (uncertain_calls r) (imputation r).

Definition from_spend (s : JobSpend.t) (imputation : BudgetImputation) : t :=
  mk (f64_max (JobSpend.billed_usd s) f64_zero) (Z.max (JobSpend.billed_calls s) 0)
    (Z.max (JobSpend.uncertain_calls s) 0) imputation.
Definition new (seed_usd : f64) : t :=
  from_spend (JobSpend.default <| JobSpend.billed_usd := seed_usd |>) WindowMean.

Definition spend (s : t) : JobSpend.t :=
  JobSpend.mk (usd s) (billed_calls s) (uncertain_calls s).
Definition verdict (budget_usd : option f64) (s : t) : BudgetVerdict :=
  budget_verdict budget_usd (spend s) (imputation s).

Definition add (delta_usd : f64) (s : t) : t :=
  if negb (is_finite delta_usd) || f64_le delta_usd f64_zero then s
  else s <| usd ::= λ cur, f64_add cur delta_usd |>.

Definition add_call (delta_usd : f64) (certainty : SpendCertainty) (s : t) : t :=
  let s := add delta_usd s in
  match certainty with
  | Billed => s <| billed_calls ::= Z.succ |>
  | Unmetered | UnknownSpend => s <| uncertain_calls ::= Z.succ |>
  | Free => s
  end.
End SpentTotal.

(** ** The ledger *)

(** [CostLedger::record]: the principal is copied from the job's row. *)
Definition record (now : timestamp) (job_id : Uuid) (app engine : string) (url : option string)
    (cost_usd : f64) (certainty : SpendCertainty) (detail : option string) (jobs : table)
    (t : cost_events) : cost_events :=
  t ++ [CostEvent.mk job_id app engine url cost_usd certainty detail now
          (get job_id jobs ≫= Job.principal_id)].

Definition of_job (job_id : Uuid) (e : CostEvent.t) : bool := CostEvent.job_id e =? job_id.
Definition job_events (job_id : Uuid) (t : cost_events) : cost_events :=
  select_where (of_job job_id) t.

Section ledger.
Context `{SqlSum}.

(** [SUM] over no rows is NULL, read back as [0.0]. *)
Definition sum_cost (t : cost_events) : f64 :=
  match t with [] => f64_zero | _ => sql_sum (map CostEvent.cost_usd t) end.

Definition job_total (job_id : Uuid) (t : cost_events) : f64 := sum_cost (job_events job_id t).

Definition has_certainty (cs : list SpendCertainty) (e : CostEvent.t) : bool :=
  bool_decide (CostEvent.spend_certainty e ∈ cs).

Definition job_spend (job_id : Uuid) (t : cost_events) : JobSpend.t :=
  let rows := job_events job_id t in
  JobSpend.mk (sum_cost rows) (rows_affected (has_certainty [Billed]) rows)
    (rows_affected (has_certainty [Unmetered; UnknownSpend]) rows).

Definition newer (since : option timestamp) (e : CostEvent.t) : bool :=
  match since with Some s => s <? CostEvent.created_at e | None => true end.

(** [GROUP BY app, engine ORDER BY app, engine] *)
Definition pair_le (a b : string * string) : bool :=
  match String.compare a.1 b.1 with
  | Lt => true | Gt => false | Eq => String.leb a.2 b.2
  end.
Definition group_of (k : string * string) (e : CostEvent.t) : bool :=
  String.eqb (CostEvent.app e) k.1 && String.eqb (CostEvent.engine e) k.2.

Definition summary_filtered (app : option string) (since : option timestamp)
    (certainty : option SpendCertainty) (principal : option (option string)) (t : cost_events)
    : list CostSummary :=
  let rows := select_where (λ e, opt_match app (Some (CostEvent.app e)) && newer since e
                                 && match principal with
                                    | Some p => bool_decide (CostEvent.principal_id e = p)
                                    | None => true
                                    end) t in
  let keys := order_by pair_le
                (remove_dups (map (λ e, (CostEvent.app e, CostEvent.engine e)) rows)) in
  let keys := select_where (λ k, match certainty with
                                 | Some c => existsb (λ e, group_of k e && has_certainty [c] e) rows
                                 | None => true
                                 end) keys in
  map (λ k, let g := select_where (group_of k) rows in
            mkCostSummary k.1 k.2 (Z.of_nat (length g)) (sum_cost g)
              (rows_affected (has_certainty [Unmetered]) g)
              (rows_affected (has_certainty [UnknownSpend]) g)) keys.
Definition summary app since (t : cost_events) := summary_filtered app since None None t.

Definition principal_total_since (principal_id : string) (since : timestamp) (t : cost_events)
    : f64 :=
  sum_cost (select_where (λ e, bool_decide (CostEvent.principal_id e = Some principal_id)
                               && (since <? CostEvent.created_at e)) t).
End ledger.

(** ** Ledger retention *)

Module LedgerRetention.
Record t : Type := mk {
  cost_event_days : Z;
  delivered_webhook_days : Z;
  dead_webhook_days : Z;
  job_yield_days : Z;
  saved_search_seen_days : Z;
}.
Definition default : t := mk 0 0 0 0 0.
#[global] Instance t_eq_dec : EqDecision t.
Proof. solve_decision. Defined.
Definition any_enabled (r : t) : bool := negb (bool_decide (r = default)).
End LedgerRetention.

Module LedgerPruned.
Record t : Type := mk {
  cost_events : Z; webhook_deliveries : Z; job_yield : Z; saved_search_seen : Z }.
Definition total (p : t) : Z :=
  cost_events p + webhook_deliveries p + job_yield p + saved_search_seen p.
End LedgerPruned.

(** A [job_yield] or [saved_search_seen] row, by the column its prune reads. *)
Record aged : Type := mkAged { aged_key : string * string; aged_at : timestamp }.

Record ledgers : Type := mkLedgers {
  cost_rows : cost_events;
  delivery_rows : log;
  yield_rows : list aged;
  seen_rows : list aged;
}.

(** [DELETE .. WHERE p] under a day count that is on. *)
Definition prune_when {A} (on : Z) (p : timestamp → A → bool) (now : timestamp) (t : list A)
    : list A * Z :=
  if 0 <? on then let q := p (now - days on) in (delete_where q t, rows_affected q t) else (t, 0).

Definition live_job (jobs : table) (e : CostEvent.t) : bool :=
  existsb (λ j, (Job.id j =? CostEvent.job_id e)
                && (JobStatus.eqb (Job.status j) Queued || JobStatus.eqb (Job.status j) Running))
    jobs.

Definition prune_ledgers (now : timestamp) (retention : LedgerRetention.t) (jobs : table)
    (l : ledgers) : ledgers * LedgerPruned.t :=
  let '(costs, n1) :=
    prune_when (LedgerRetention.cost_event_days retention)
      (λ cutoff e, (CostEvent.created_at e <? cutoff) && negb (live_job jobs e)) now
      (cost_rows l) in
  let '(dels, n2) :=
    prune_when (LedgerRetention.delivered_webhook_days retention)
      (λ cutoff r, in_status "delivered" r && (Delivery.created_at r <? cutoff)) now
      (delivery_rows l) in
  let '(dels, n3) :=
    prune_when (LedgerRetention.dead_webhook_days retention)
      (λ cutoff r, in_status "dead" r && (Delivery.created_at r <? cutoff)) now dels in
  let '(yields, n4) :=
    prune_when (LedgerRetention.job_yield_days retention)
      (λ cutoff r, aged_at r <? cutoff) now (yield_rows l) in
  let '(seen, n5) :=
    prune_when (LedgerRetention.saved_search_seen_days retention)
      (λ cutoff r, aged_at r <? cutoff) now (seen_rows l) in
  (mkLedgers costs dels yields seen, LedgerPruned.mk n1 (n2 + n3) n4 n5).

(** [claim_unseen]: insert-or-ignore of each document, answering those that landed. *)
Fixpoint claim_unseen (now : timestamp) (search_id : string) (doc_ids : list string)
    (t : list aged) : list aged * list string :=
  match doc_ids with
  | [] => (t, [])
  | doc :: doc_ids =>
      if existsb (λ r, bool_decide (aged_key r = (search_id, doc))) t
      then claim_unseen now search_id doc_ids t
      else
        let '(t, unseen) :=
          claim_unseen now search_id doc_ids (t ++ [mkAged (search_id, doc) now]) in
        (t, doc :: unseen)
  end.

(** ** What the ledger and the ceiling guarantee *)

(** ** The mirror *)

(** A cost an engine reports: finite and not negative. *)
Definition reported (e : CostEvent.t) : bool :=
  is_finite (CostEvent.cost_usd e) && negb (f64_lt (CostEvent.cost_usd e) f64_zero).

(** The meter records each call in the ledger and in the running total. *)
Definition meter (s : SpentTotal.t) (e : CostEvent.t) : SpentTotal.t :=
  SpentTotal.add_call (CostEvent.cost_usd e) (CostEvent.spend_certainty e) s.

Definition spend_step (out : JobSpend.t) (e : CostEvent.t) : JobSpend.t :=
  (JobSpend.count (CostEvent.spend_certainty e) out)
    <| JobSpend.billed_usd ::= λ b, f64_add b (CostEvent.cost_usd e) |>.

Definition sane (s : JobSpend.t) : Prop :=
  f64_nonneg (JobSpend.billed_usd s) = true ∧ 0 ≤ JobSpend.billed_calls s ∧
  0 ≤ JobSpend.uncertain_calls s.

Lemma reported_spec e :
  reported e = true →
  is_finite (CostEvent.cost_usd e) = true ∧ f64_lt (CostEvent.cost_usd e) f64_zero = false.
Proof. unfold reported. by rewrite andb_true_iff, negb_true_iff. Qed.

Lemma f64_add_reported a e :
  f64_nonneg a = true → reported e = true → f64_nonneg (f64_add a (CostEvent.cost_usd e)) = true.
Proof.
  intros Ha He. apply reported_spec in He as [Hf Hl].
  destruct (f64_le (CostEvent.cost_usd e) f64_zero) eqn:E; [by rewrite f64_add_zero|].
  apply f64_add_nonneg; [done|]. by destruct (CostEvent.cost_usd e) as [[]|[]| |[]].
Qed.

Lemma spend_step_sane s e : sane s → reported e = true → sane (spend_step s e).
Proof.
  intros (Hb & Hc & Hu) He. unfold sane, spend_step. destruct s as [b c u]. cbn in *.
  pose proof (f64_add_reported b e Hb He).
  destruct (CostEvent.spend_certainty e); cbn; split_and!; try done; lia.
Qed.

Lemma meter_spend s e :
  f64_nonneg (SpentTotal.usd s) = true → reported e = true →
  SpentTotal.spend (meter s e) = spend_step (SpentTotal.spend s) e ∧
  SpentTotal.imputation (meter s e) = SpentTotal.imputation s.
Proof.
  intros Hs He. pose proof (reported_spec e He) as [Hf Hl].
  unfold meter, SpentTotal.add_call, SpentTotal.add, spend_step. rewrite Hf. cbn [negb orb].
  destruct s as [u b c i]. change (f64_nonneg u = true) in Hs.
  destruct (f64_le (CostEvent.cost_usd e) f64_zero) eqn:E.
  - pose proof (f64_add_zero u _ Hs Hf E Hl) as Hz.
    destruct (CostEvent.spend_certainty e); (split; [|done]);
      unfold SpentTotal.spend; cbn -[f64_add]; by rewrite Hz.
  - by destruct (CostEvent.spend_certainty e).
Qed.

Lemma foldl_meter l s :
  sane (SpentTotal.spend s) → (∀ e, e ∈ l → reported e = true) →
  SpentTotal.spend (foldl meter s l) = foldl spend_step (SpentTotal.spend s) l ∧
  SpentTotal.imputation (foldl meter s l) = SpentTotal.imputation s.
Proof.
  revert s. induction l as [|e l IH]; intros s Hs Hl; [done|]. cbn.
  destruct (meter_spend s e) as [H1 H2]; [apply Hs|apply Hl; left|].
  destruct (IH (meter s e)) as [H3 H4].
  - rewrite H1. apply spend_step_sane; [done|apply Hl; left].
  - intros x Hx. apply Hl. by right.
  - by rewrite H3, H4, H1, H2.
Qed.

Lemma foldl_spend_sane l s :
  sane s → (∀ e, e ∈ l → reported e = true) → sane (foldl spend_step s l).
Proof.
  revert s. induction l as [|e l IH]; intros s Hs Hl; [done|]. cbn. apply IH.
  - apply spend_step_sane; [done|apply Hl; left].
  - intros x Hx. apply Hl. by right.
Qed.

(** the running total is the ledger.  Seeded from the events of earlier
    attempts and advanced by each call it meters, the in-memory total holds exactly
    the dollars and the counts a fresh read of the whole ledger gives, so the
    ceiling decides as if it re-read the ledger before every call; and its dollars
    are never negative and never NaN. *)
Theorem running_total_mirrors_ledger policy budget earlier later :
  (∀ e, e ∈ earlier ++ later → reported e = true) →
  let total := foldl meter (SpentTotal.from_spend (JobSpend.from_events earlier) policy) later in
  SpentTotal.spend total = JobSpend.from_events (earlier ++ later) ∧
  SpentTotal.verdict budget total
    = budget_verdict budget (JobSpend.from_events (earlier ++ later)) policy ∧
  f64_nonneg (SpentTotal.usd total) = true.
Proof.
  intros Hall total.
  assert (sane (JobSpend.from_events earlier)) as (Hb & Hc & Hu).
  { apply foldl_spend_sane; [done|]. intros e He. apply Hall. set_solver. }
  set (s0 := SpentTotal.from_spend (JobSpend.from_events earlier) policy) in *.
  assert (SpentTotal.spend s0 = JobSpend.from_events earlier) as Hs0.
  { unfold s0, SpentTotal.from_spend, SpentTotal.spend. cbn.
    rewrite f64_max_nonneg, !Z.max_l by done. by destruct (JobSpend.from_events earlier). }
  destruct (foldl_meter later s0) as [H1 H2].
  { by rewrite Hs0. }
  { intros e He. apply Hall. set_solver. }
  assert (SpentTotal.spend total = JobSpend.from_events (earlier ++ later)) as Ht.
  { unfold total. rewrite H1, Hs0. unfold JobSpend.from_events. by rewrite foldl_app. }
  split; [done|]. split.
  - unfold SpentTotal.verdict. by rewrite Ht; unfold total; rewrite H2.
  - change (SpentTotal.usd total) with (JobSpend.billed_usd (SpentTotal.spend total)).
    rewrite Ht. apply (foldl_spend_sane (earlier ++ later)); [done|]. done.
Qed.

Definition cost_event (usd : Z) (c : SpendCertainty) : CostEvent.t :=
  CostEvent.mk 1 "app" "claude" None (f64_of_Z usd) c None 0 None.

Lemma running_total_mirrors_ledger_witness :
  SpentTotal.verdict (Some (f64_of_Z 10))
    (foldl meter (SpentTotal.from_spend (JobSpend.from_events [cost_event 3 Billed]) WindowMean)
       [cost_event 0 Unmetered])
  = Headroom (f64_of_Z 4).
Proof.
  assert (∀ e, e ∈ [cost_event 3 Billed] ++ [cost_event 0 Unmetered] → reported e = true) as Hr.
  { intros e He. repeat (apply elem_of_cons in He as [->|He]; [reflexivity|]).
    by apply not_elem_of_nil in He. }
  destruct (running_total_mirrors_ledger WindowMean (Some (f64_of_Z 10)) [cost_event 3 Billed]
              [cost_event 0 Unmetered] Hr) as (_ & Hv & _).
  rewrite Hv. vm_compute. reflexivity.
Defined.

(** ** The ceiling *)

(** the ceiling's three answers.  There is no ceiling exactly when no finite
    budget is set.  Under the mean policy, calls nobody could price with no priced
    call to estimate from are unpriceable: blindness is never read as headroom.
    A headroom is never negative and never NaN.  But a sum that is not a number,
    with nothing uncertain beside it, is read as zero spend, and grants the whole
    budget. *)
Theorem budget_verdict_cases policy spend :
  (∀ budget, budget_verdict budget spend policy = Unlimited ↔
     match budget with Some b => is_finite b = false | None => True end) ∧
  (∀ b, is_finite b = true → 0 < JobSpend.uncertain_calls spend →
     JobSpend.billed_calls spend = 0 →
     budget_verdict (Some b) spend WindowMean = Unpriceable (JobSpend.uncertain_calls spend)) ∧
  (∀ budget h, budget_verdict budget spend policy = Headroom h →
     is_nan h = false ∧ f64_lt h f64_zero = false) ∧
  (∀ b k, is_finite b = true → 0 ≤ k →
     budget_verdict (Some b) (JobSpend.mk S754_nan k 0) policy
       = Headroom (f64_max (f64_sub b f64_zero) f64_zero)).
Proof.
  split_and!.
  - intros [b|]; [|done]. cbn. destruct (is_finite b); [|done]. by case_match.
  - intros b Hb Hu Hc. unfold budget_verdict. rewrite Hb.
    unfold JobSpend.charged_usd, JobSpend.imputed_usd, impute_uncertain.
    rewrite Hc. change (0 <? 0) with false. change (0 =? 0) with true.
    rewrite (proj2 (Z.leb_gt _ _) Hu), orb_true_r. done.
  - intros [b|] h Hv; [|done]. unfold budget_verdict in Hv. destruct (is_finite b); [|done].
    case_match; [|done]. injection Hv as <-. apply f64_max_zero.
  - intros b k Hb Hk. unfold budget_verdict. rewrite Hb.
    unfold JobSpend.charged_usd, JobSpend.imputed_usd, impute_uncertain.
    destruct policy; cbn -[f64_sub f64_max]; [|done].
    by rewrite (proj2 (Z.ltb_ge k 0)).
Qed.

(** ** Retention *)

Lemma prune_when_keeps {A} on (p : timestamp → A → bool) now t (r : A) :
  r ∈ t → (∀ c, p c r = false) → r ∈ (prune_when on p now t).1.
Proof.
  intros Hr Hp. unfold prune_when. case_if; [|done]. cbn. by apply elem_of_delete.
Qed.

Lemma length_delete_where {A} (p : A → bool) t :
  Z.of_nat (length (delete_where p t)) = Z.of_nat (length t) - rows_affected p t.
Proof.
  unfold delete_where. induction t as [|r t IH]; [done|].
  rewrite rows_affected_cons. cbn [List.filter length].
  destruct (p r); cbn [negb length]; lia.
Qed.

Lemma prune_when_count {A} on (p : timestamp → A → bool) now t :
  Z.of_nat (length (prune_when on p now t).1) + (prune_when on p now t).2 = Z.of_nat (length t).
Proof.
  unfold prune_when. case_if; cbn [fst snd]; [rewrite length_delete_where|]; lia.
Qed.

Definition ledger_rows (l : ledgers) : Z :=
  Z.of_nat (length (cost_rows l)) + Z.of_nat (length (delivery_rows l))
  + Z.of_nat (length (yield_rows l)) + Z.of_nat (length (seen_rows l)).

(** what a prune may not take.  Whatever the retention, it keeps every cost
    event of a queued or running job and every delivery still pending or on the
    retry ladder; a table whose day count is zero is left as it is; and the total
    it reports is exactly the number of rows that are gone. *)
Theorem prune_ledgers_spares_live_rows now retention jobs l :
  let '(l', pruned) := prune_ledgers now retention jobs l in
  (∀ e j, e ∈ cost_rows l → j ∈ jobs → Job.id j = CostEvent.job_id e →
     Job.status j = Queued ∨ Job.status j = Running → e ∈ cost_rows l') ∧
  (∀ d, d ∈ delivery_rows l →
     Delivery.status d = "pending"%string ∨ Delivery.status d = "failed"%string →
     d ∈ delivery_rows l') ∧
  (LedgerRetention.any_enabled retention = false → l' = l) ∧
  LedgerPruned.total pruned = ledger_rows l - ledger_rows l'.
Proof.
  unfold prune_ledgers.
  repeat match goal with |- context [prune_when ?on ?p now ?t] =>
    pose proof (λ r, @prune_when_keeps _ on p now t r);
    pose proof (prune_when_count on p now t);
    destruct (prune_when on p now t) as [? ?] eqn:? end.
  cbn [fst snd] in *. cbn [cost_rows delivery_rows].
  split_and!.
  - intros e j He Hj Hid Hst. match goal with H : ∀ r, r ∈ cost_rows l → _ |- _ => apply H end;
      [done|]. intros c. assert (live_job jobs e = true) as ->; [|by rewrite andb_false_r].
    apply existsb_exists. exists j. rewrite <- list_elem_of_In. split; [done|].
    apply andb_true_iff. split; [by apply Z.eqb_eq|]. unfold JobStatus.eqb. breflect. tauto.
  - intros d Hd Hst.
    assert (in_status "delivered" d = false ∧ in_status "dead" d = false) as [H1' H2'].
    { unfold in_status. destruct Hst as [-> | ->]; done. }
    match goal with H : ∀ r, r ∈ ?x → _ → r ∈ ?y |- d ∈ ?y => apply H end;
      [|intros c; by rewrite H2'].
    match goal with H : ∀ r, r ∈ delivery_rows l → _ |- _ => apply H end; [done|].
    intros c. by rewrite H1'.
  - intros Hoff. unfold LedgerRetention.any_enabled in Hoff.
    apply negb_false_iff, bool_decide_eq_true in Hoff as ->. destruct l.
    unfold prune_when in *. cbn in *. by simplify_eq.
  - unfold LedgerPruned.total, ledger_rows. cbn. lia.
Qed.

(** the prune forgets what a parked job spent.  It spares queued and running
    jobs only, so the old cost events of a job waiting for input are deleted, and
    when the job resumes its ceiling grants the whole budget again. *)
Theorem prune_forgets_parked_spend `{SqlSum} retention now j e budget policy :
  Job.status j = Waiting → CostEvent.job_id e = Job.id j →
  0 < LedgerRetention.cost_event_days retention →
  CostEvent.created_at e < now - days (LedgerRetention.cost_event_days retention) →
  is_finite budget = true →
  cost_rows (prune_ledgers now retention [j] (mkLedgers [e] [] [] [])).1 = [] ∧
  budget_verdict (Some budget)
    (job_spend (Job.id j)
       (cost_rows (prune_ledgers now retention [j] (mkLedgers [e] [] [] [])).1)) policy
    = Headroom (f64_max (f64_sub budget f64_zero) f64_zero).
Proof.
  intros Hs Hid Hd Hold Hb.
  assert (cost_rows (prune_ledgers now retention [j] (mkLedgers [e] [] [] [])).1 = []) as Hc.
  { unfold prune_ledgers. cbn [cost_rows delivery_rows yield_rows seen_rows].
    unfold prune_when at 1. rewrite (proj2 (Z.ltb_lt _ _) Hd).
    repeat match goal with |- context [prune_when ?on ?p ?n ?t] =>
      destruct (prune_when on p n t) as [? ?] end.
    cbn [fst cost_rows]. unfold delete_where. cbn [List.filter].
    rewrite (proj2 (Z.ltb_lt _ _) Hold). unfold live_job, JobStatus.eqb. cbn [existsb].
    by rewrite Hs, andb_false_r. }
  rewrite Hc. split; [done|]. unfold budget_verdict. rewrite Hb. by destruct policy.
Qed.

Lemma prune_forgets_parked_spend_witness :
  let j := (new_row 1 "app" Opts.default None 0) <| Job.status := Waiting |> in
  let e := cost_event 9 Billed in
  let r := LedgerRetention.mk 1 0 0 0 0 in
  budget_verdict (Some (f64_of_Z 10)) (@job_spend f64_sum 1 [e]) WindowMean = Headroom (f64_of_Z 1) ∧
  cost_rows (prune_ledgers (days 2) r [j] (mkLedgers [e] [] [] [])).1 = [].
Proof.
  intros j e r. split; [vm_compute; reflexivity|].
  by apply (@prune_forgets_parked_spend f64_sum r (days 2) j e (f64_of_Z 10) WindowMean).
Defined.
