(* ===== verification/Checkpoints.v ===== *)
(** * Checkpoints: a job's saved state, and the executors' registry

    The checkpoint and executor statements of [crates/core/src/storage.rs]. *)

From S2P Require Import Prelude Sql Float64 Json Errors Jobs JobQueue.

Module Checkpoint.
Record t : Type := mk {
  job_id : Uuid; state : string; attempt : Z; resume_failures : Z; updated_at : timestamp }.
#[global] Instance eta_checkpoint : Eta t := λ r,
  mk (job_id r) (state r) (attempt r) (resume_failures r) (updated_at r).
End Checkpoint.
Abbreviation checkpoints := (list Checkpoint.t).

Definition MAX_CHECKPOINT_BYTES : Z := 8 * 1024 * 1024.

Definition of_job (id : Uuid) (c : Checkpoint.t) : bool := Checkpoint.job_id c =? id.

(** [INSERT .. SELECT .. ON CONFLICT(job_id) DO UPDATE] *)
Definition upsert_checkpoint (now : timestamp) (id : Uuid) (blob : string) (attempt : Z)
    (t : checkpoints) : checkpoints :=
  if is_some (lookup_by Checkpoint.job_id id t) then
    update_where (of_job id)
      (λ c, c <| Checkpoint.state := blob |> <| Checkpoint.attempt := attempt |>
              <| Checkpoint.updated_at := now |>) t
  else t ++ [Checkpoint.mk id blob attempt 0 now].

(** [Error::App("checkpoint too large: {bytes} bytes (cap {MAX_CHECKPOINT_BYTES})")] *)
Inductive CheckpointError : Type := CheckpointTooLarge (bytes : Z).

Section checkpoints.
Context `{JsonRender, JsonParse}.

Definition save_checkpoint (now : timestamp) (id : Uuid) (attempt : Z) (state : Json)
    (jobs : table) (t : checkpoints) : checkpoints * result CheckpointError bool :=
  let blob := json_render state in
  if MAX_CHECKPOINT_BYTES <? Z.of_nat (String.length blob) then
    (t, Err (CheckpointTooLarge (Z.of_nat (String.length blob))))
  else if 0 <? rows_affected (running_at id attempt) jobs
  then (upsert_checkpoint now id blob attempt t, Ok true)
  else (t, Ok false).

Definition load_checkpoint (id : Uuid) (t : checkpoints) : option (Json * Z) :=
  c ← lookup_by Checkpoint.job_id id t;
  v ← json_parse (Checkpoint.state c);
  Some (v, Checkpoint.resume_failures c).
End checkpoints.

Definition bump_checkpoint_resumes (id : Uuid) (t : checkpoints) : checkpoints * Z :=
  let f c := c <| Checkpoint.resume_failures ::= Z.succ |> in
  (update_where (of_job id) f t,
   coalesce (Checkpoint.resume_failures <$> head (returning (of_job id) f t)) 0).

Definition clear_checkpoint (id : Uuid) (t : checkpoints) : checkpoints :=
  delete_where (of_job id) t.

(** ** Executors *)

Module Executor.
Record t : Type := mk {
  id : string; capabilities : list string; first_seen_at : timestamp;
  last_poll_at : timestamp; claimed_total : Z }.
#[global] Instance eta_executor : Eta t := λ r,
  mk (id r) (capabilities r) (first_seen_at r) (last_poll_at r) (claimed_total r).
End Executor.

Definition record_executor_poll (now : timestamp) (id : string) (capabilities : list string)
    (claimed : bool) (t : list Executor.t) : list Executor.t :=
  let n := if claimed then 1 else 0 in
  if is_some (lookup_by Executor.id id t) then
    update_where (λ e, String.eqb (Executor.id e) id)
      (λ e, e <| Executor.capabilities := capabilities |> <| Executor.last_poll_at := now |>
              <| Executor.claimed_total ::= λ c, c + n |>) t
  else t ++ [Executor.mk id capabilities now now n].

(** Each executor with the number of jobs it is running, newest poll first. *)
Definition list_executors (jobs : table) (t : list Executor.t) : list (Executor.t * Z) :=
  map (λ e, (e, rows_affected (λ j, bool_decide (Job.executor_id j = Some (Executor.id e))
                                    && JobStatus.eqb (Job.status j) Running) jobs))
    (order_by (λ a b, Executor.last_poll_at b <=? Executor.last_poll_at a) t).

(** ** Fencing and round trip *)

#[local] Arguments lookup_by : simpl never.
#[local] Arguments update_where : simpl never.

Lemma upsert_lookup now id blob attempt t :
  lookup_by Checkpoint.job_id id (upsert_checkpoint now id blob attempt t)
    = Some (Checkpoint.mk id blob attempt
              (coalesce (Checkpoint.resume_failures <$> lookup_by Checkpoint.job_id id t) 0) now).
Proof.
  unfold upsert_checkpoint. destruct (lookup_by Checkpoint.job_id id t) as [c|] eqn:Hl.
  - cbn [is_some]. rewrite lookup_by_update, Hl by done. cbn.
    apply lookup_by_Some in Hl as [_ Hid]. unfold of_job. by rewrite Hid, Z.eqb_refl.
  - cbn [is_some]. rewrite lookup_by_app, Hl. unfold lookup_by. cbn. by rewrite bool_decide_true.
Qed.

Lemma upsert_lookup_ne now id id' blob attempt t :
  id' ≠ id →
  lookup_by Checkpoint.job_id id' (upsert_checkpoint now id blob attempt t)
    = lookup_by Checkpoint.job_id id' t.
Proof.
  intros Hne. unfold upsert_checkpoint. case_if.
  - rewrite lookup_by_update by done.
    destruct (lookup_by Checkpoint.job_id id' t) as [c|] eqn:Hl; [|done]. cbn.
    apply lookup_by_Some in Hl as [_ Hid]. unfold of_job.
    by rewrite (proj2 (Z.eqb_neq _ _)) by congruence.
  - rewrite lookup_by_app. unfold lookup_by at 2. cbn. rewrite bool_decide_false by done.
    by destruct (lookup_by Checkpoint.job_id id' t).
Qed.

(** checkpoints are fenced by the attempt.  A save lands exactly when its
    attempt is the one running, and then a load gives the saved state back with the
    restore count it already had; a save of a stale attempt, or one over the size
    cap, changes nothing; no save touches another job's checkpoint; and clearing
    leaves nothing to load. *)
Theorem checkpoint_fenced `{JsonRender, JsonParse} now id attempt state jobs t :
  json_parse (json_render state) = Some state →
  let small := Z.of_nat (String.length (json_render state)) <=? MAX_CHECKPOINT_BYTES in
  let live := existsb (running_at id attempt) jobs in
  let '(t', answer) := save_checkpoint now id attempt state jobs t in
  (small && live = true →
     answer = Ok true ∧
     load_checkpoint id t' = Some (state,
       coalesce (Checkpoint.resume_failures <$> lookup_by Checkpoint.job_id id t) 0)) ∧
  (small && live = false →
     t' = t ∧ answer = (if small then Ok false
                        else Err (CheckpointTooLarge
                                    (Z.of_nat (String.length (json_render state)))))) ∧
  (∀ id', id' ≠ id → load_checkpoint id' t' = load_checkpoint id' t) ∧
  load_checkpoint id (clear_checkpoint id t') = None.
Proof.
  intros Hrt small live.
  assert (live = (0 <? rows_affected (running_at id attempt) jobs)) as Hlive.
  { apply eq_true_iff_eq. unfold live.
    rewrite existsb_exists, Z.ltb_lt, rows_affected_pos. by setoid_rewrite list_elem_of_In. }
  assert (∀ t', load_checkpoint id (clear_checkpoint id t') = None) as Hclear.
  { intros t'. unfold load_checkpoint.
    rewrite (proj2 (lookup_by_None Checkpoint.job_id (clear_checkpoint id t') id)); [done|].
    intros Hin. apply list_elem_of_In, in_map_iff in Hin as (c & Hc & Hin).
    apply list_elem_of_In, elem_of_delete in Hin as [_ Hn]. unfold of_job in Hn.
    by apply Z.eqb_neq in Hn. }
  unfold save_checkpoint. rewrite <- Hlive. unfold small. rewrite Z.leb_antisym.
  destruct (MAX_CHECKPOINT_BYTES <? _); cbn [negb andb]; [done|].
  destruct live; [|done]. split_and!; try done.
  - intros _. split; [done|]. unfold load_checkpoint. rewrite upsert_lookup.
    cbn [mbind option_bind Checkpoint.state Checkpoint.resume_failures]. by rewrite Hrt.
  - intros id' Hne. unfold load_checkpoint. by rewrite upsert_lookup_ne.
Qed.

Lemma checkpoint_fenced_witness :
  let jobs := [claim_row 5 (new_row 1 "app" Opts.default None 0)] in
  let t := [Checkpoint.mk 1 "old" 1 2 0] in
  @load_checkpoint (λ _, Some JNull) 1
    (@save_checkpoint (λ _, "null"%string) 9 1 1 JNull jobs t).1 = Some (JNull, 2).
Proof.
  intros jobs t.
  pose proof (@checkpoint_fenced (λ _, "null"%string) (λ _, Some JNull) 9 1 1 JNull jobs t
                eq_refl) as Hc. cbv zeta in Hc.
  destruct (@save_checkpoint (λ _, "null"%string) 9 1 1 JNull jobs t) as [t' answer].
  destruct Hc as (Hok & _). destruct Hok as [_ Hl]; [vm_compute; reflexivity|]. exact Hl.
Defined.
