(* ===== verification/SourceHealth.v ===== *)
(** * SourceHealth: the health ladder of a source

    [crates/core/src/resilience/]: the states and verdicts of [mod.rs], the pure
    decisions of [detect.rs] (the ladder, recovery, arming, retirement), and the
    [sources] and [source_runs] tables of [store.rs] with the run that moves them
    ([Resilience::observe]).  The score of a run, which the sketches and detectors
    compute, is an argument. *)

From S2P Require Import Prelude Sql Float64 Json Errors Jobs JobQueue.

(** ** States and verdicts *)

Inductive SourceState : Type :=
| Healthy | Suspect | Degraded | Quarantined | Probation | Retired | Unknown.
#[global] Instance source_state_eq_dec : EqDecision SourceState.
Proof. solve_decision. Defined.

Module SourceState.
Definition as_str (s : SourceState) : string :=
  match s with
  | Healthy => "healthy" | Suspect => "suspect" | Degraded => "degraded"
  | Quarantined => "quarantined" | Probation => "probation" | Retired => "retired"
  | Unknown => "unknown"
  end.
Definition parse (s : string) : SourceState :=
  if String.eqb s "healthy" then Healthy
  else if String.eqb s "suspect" then Suspect
  else if String.eqb s "degraded" then Degraded
  else if String.eqb s "quarantined" then Quarantined
  else if String.eqb s "probation" then Probation
  else if String.eqb s "retired" then Retired
  else Unknown.
Definition trust (s : SourceState) : option string :=
  match s with
  | Healthy | Suspect | Retired | Unknown => None
  | Degraded | Probation => Some "provisional"
  | Quarantined => Some "quarantined"
  end%string.
Definition suppresses_pushes (s : SourceState) : bool :=
  match s with Degraded | Quarantined | Retired => true | _ => false end.
Definition suppresses_removals (s : SourceState) : bool :=
  match s with Degraded | Quarantined | Retired => true | _ => false end.
Definition skips_search_index (s : SourceState) : bool :=
  match s with Degraded | Quarantined | Retired => true | _ => false end.
Definition diverts_writes (s : SourceState) : bool :=
  match s with Quarantined => true | _ => false end.
End SourceState.

Inductive RunVerdict : Type :=
| VOk | Inconclusive | ContentEmpty | BelowCohort | GoldenOk | Broken | SelfInflicted.
#[global] Instance run_verdict_eq_dec : EqDecision RunVerdict.
Proof. solve_decision. Defined.

Module RunVerdict.
Definition as_str (v : RunVerdict) : string :=
  match v with
  | VOk => "ok" | Inconclusive => "inconclusive" | ContentEmpty => "content_empty"
  | BelowCohort => "below_cohort" | GoldenOk => "golden_ok" | Broken => "broken"
  | SelfInflicted => "self_inflicted"
  end.
Definition parse (s : string) : RunVerdict :=
  if String.eqb s "ok" then VOk
  else if String.eqb s "content_empty" then ContentEmpty
  else if String.eqb s "below_cohort" then BelowCohort
  else if String.eqb s "golden_ok" then GoldenOk
  else if String.eqb s "broken" then Broken
  else if String.eqb s "self_inflicted" then SelfInflicted
  else Inconclusive.
Definition judged (v : RunVerdict) : bool :=
  match v with VOk | GoldenOk | Broken | SelfInflicted => true | _ => false end.
Definition JUDGED_SQL : list string := ["ok"; "golden_ok"; "broken"; "self_inflicted"]%string.
Definition baselines (v : RunVerdict) : bool := match v with VOk => true | _ => false end.
End RunVerdict.

Inductive Diagnosis : Type :=
| MarkupDrift | ContentChanged | FieldLoss | SilentRebind | ValueDomainDrift
| InvariantBreak | DiagSelfInflicted | Ambiguous.
Definition Diagnosis_as_str (d : Diagnosis) : string :=
  match d with
  | MarkupDrift => "markup_drift" | ContentChanged => "content_changed"
  | FieldLoss => "field_loss" | SilentRebind => "silent_rebind"
  | ValueDomainDrift => "value_domain_drift" | InvariantBreak => "invariant_break"
  | DiagSelfInflicted => "self_inflicted" | Ambiguous => "ambiguous"
  end.

Record CohortDrift : Type := mkDrift { d_text : f64; d_dom : f64; d_value : f64; compared : Z }.
Record Reason : Type := mkReason {
  test : string; field : option string; value : f64; threshold : f64 }.
Inductive CohortAdequacy : Type := Full | Shrunken | Chronic.

(** The verdict of one run. *)
Module RunEvaluation.
Record t : Type := mk {
  verdict : RunVerdict; diagnosis : option Diagnosis; score : f64; reasons : list Reason;
  drift : option CohortDrift; statistical_coverage : bool; adequacy : CohortAdequacy }.
End RunEvaluation.

Module FetchHealth.
Record t : Type := mk { attempted : Z; ok : Z; permanent : Z; roster : option Z }.
Definition rate (f : t) : f64 :=
  if attempted f =? 0 then f64_of_Z 1
  else SFdiv 53 1024 (f64_of_Z (ok f)) (f64_of_Z (attempted f)).
End FetchHealth.

(** The configuration this component reads ([ResilienceConfig]). *)
Module Cfg.
Record t : Type := mk {
  enabled : bool; enforce : bool; degrade_score : f64; quarantine_score : f64;
  recovery_runs : Z; enforce_sources : list string; auto_retire : list string }.
End Cfg.

Definition tripped (cfg : Cfg.t) (e : RunEvaluation.t) : bool :=
  RunVerdict.judged (RunEvaluation.verdict e)
  && f64_le (Cfg.degrade_score cfg) (RunEvaluation.score e).
Definition severe (cfg : Cfg.t) (e : RunEvaluation.t) : bool :=
  RunVerdict.judged (RunEvaluation.verdict e)
  && f64_le (Cfg.quarantine_score cfg) (RunEvaluation.score e).

(** ** The ladder *)

Module Recovery.
Record t : Type := mk { clean_streak : Z; required : Z }.
Definition earned (r : t) : bool := (0 <? required r) && (required r <=? clean_streak r).
Definition none : t := mk 0 (2 ^ 32 - 1).
End Recovery.

Definition consecutive_clean (newest_first_scores : list f64) (degrade_score : f64) : Z :=
  (fix go l := match l with
               | s :: l => if f64_lt s degrade_score then 1 + go l else 0
               | [] => 0
               end) newest_first_scores.

Definition next_state (current : SourceState) (tripped severe : bool) (trips_of_last3 : Z)
    (recovery : Recovery.t) : SourceState :=
  match current with
  | Healthy => if tripped then Suspect else Healthy
  | Suspect =>
      if negb tripped then Healthy
      else if 2 <=? trips_of_last3 then Degraded else Suspect
  | Degraded =>
      if negb tripped then Suspect
      else if severe || (3 <=? trips_of_last3) then Quarantined else Degraded
  | Quarantined =>
      if negb tripped && Recovery.earned recovery then Probation else Quarantined
  | Probation =>
      if tripped then Quarantined
      else if Recovery.earned recovery then Healthy else Probation
  | Retired => Retired
  | Unknown => if tripped then Suspect else Healthy
  end.

(** ** Arming *)

Definition source_id (app dataset : string) : string := (app +:+ "/" +:+ dataset)%string.

Definition QUARANTINE_SUFFIX : string := "@q".
Definition write_dataset (dataset : string) (state : SourceState) : string :=
  if SourceState.diverts_writes state && negb (is_some (strip_suffix QUARANTINE_SUFFIX dataset))
  then (dataset +:+ QUARANTINE_SUFFIX)%string
  else dataset.

Definition enforcement_armed (enforce : bool) (enforce_sources : list string) (source_id : string)
    : bool :=
  enforce || existsb (λ s, String.eqb s source_id) enforce_sources.
Definition enforcement_armed_anywhere (enforce : bool) (enforce_sources : list string) : bool :=
  enforce || negb (bool_decide (enforce_sources = [])).
Definition unseen_armed_sources (enforce_sources known : list string) : list string :=
  foldl (λ out want,
           if negb (existsb (λ k, String.eqb k want) known)
              && negb (existsb (λ o, String.eqb o want) out)
           then out ++ [want] else out) [] enforce_sources.

Definition armed_source (cfg : Cfg.t) (source_id : string) : bool :=
  Cfg.enabled cfg && enforcement_armed (Cfg.enforce cfg) (Cfg.enforce_sources cfg) source_id.
Definition armed (cfg : Cfg.t) (app dataset : string) : bool :=
  armed_source cfg (source_id app dataset).
Definition enforcing (cfg : Cfg.t) : bool := Cfg.enabled cfg && Cfg.enforce cfg.
Definition enforcing_any (cfg : Cfg.t) : bool :=
  Cfg.enabled cfg && enforcement_armed_anywhere (Cfg.enforce cfg) (Cfg.enforce_sources cfg).

(** ** Retirement *)

(** [0.9f64] *)
Definition RETIRE_RATIO : f64 := S754_finite false 8106479329266893 (-53).
Definition RETIRE_RUNS : nat := 3.
Definition RETIRE_CADENCE_SPAN : Z := 2.
Definition RETIRE_FALLBACK_SPAN_DAYS : Z := 14.
Definition RETIRED_REASON : string := "permanent fetch failure".

Definition retirement_enrolled (auto_retire : list string) (source_id : string)
    (state : SourceState) : bool :=
  negb (bool_decide (state = Retired)) && existsb (λ s, String.eqb s source_id) auto_retire.

Module RetireRun.
Record t : Type := mk { attempted : Z; permanent : Z; roster : option Z; at_ : timestamp }.

Definition current (fetch : FetchHealth.t) (at_ : timestamp) : t :=
  mk (FetchHealth.attempted fetch) (FetchHealth.permanent fetch) (FetchHealth.roster fetch) at_.

(** [u32::try_from] *)
Definition u32_of (z : Z) : option Z := if (0 <=? z) && (z <? 2 ^ 32) then Some z else None.
Definition stored (permanent roster : option Z) (at_ : timestamp) : t :=
  let roster := roster ≫= u32_of in
  mk (default 0 roster) (default 0 (permanent ≫= u32_of))
    (match permanent with Some _ => roster | None => None end) at_.

Definition dead (r : t) : bool :=
  match roster r with
  | None => false
  | Some roster =>
      (0 <? attempted r) && (0 <? roster)
      && f64_le (f64_mul RETIRE_RATIO (f64_of_Z (attempted r))) (f64_of_Z (permanent r))
      && f64_le (f64_mul RETIRE_RATIO (f64_of_Z roster)) (f64_of_Z (attempted r))
  end.
End RetireRun.

(** Durations of this component are microseconds, like its timestamps. *)
Definition retirement_due (runs : list RetireRun.t) (cadence : option Z) : bool :=
  if bool_decide (length runs < RETIRE_RUNS)%nat then false
  else
    let window := take RETIRE_RUNS runs in
    if negb (forallb RetireRun.dead window) then false
    else
      match map RetireRun.at_ window with
      | [] => false
      | at_ :: ats =>
          let newest := foldl Z.max at_ ats in
          let oldest := foldl Z.min at_ ats in
          let needed :=
            match cadence with
            | Some c => if 0 <? c then c * RETIRE_CADENCE_SPAN else days RETIRE_FALLBACK_SPAN_DAYS
            | None => days RETIRE_FALLBACK_SPAN_DAYS
            end in
          needed <=? newest - oldest
      end.

(** The median of the gaps, in whole seconds: the gaps are integers below [2^53],
    so the sums and halves the code takes in [f64] are exact. *)
Definition median_secs (gaps : list Z) : option Z :=
  let sorted := order_by Z.leb gaps in
  let mid := (length sorted / 2)%nat in
  match sorted with
  | [] => None
  | _ => if Nat.even (length sorted)
         then a ← sorted !! (mid - 1)%nat; b ← sorted !! mid; Some ((a + b) / 2)
         else sorted !! mid
  end.
Fixpoint gaps_of (sorted : list timestamp) : list Z :=
  match sorted with
  | a :: ((b :: _) as rest) => (b - a) / 10 ^ 6 :: gaps_of rest
  | _ => []
  end.
Definition cadence_from_firings (fired : list timestamp) : option Z :=
  seconds <$> median_secs (List.filter (λ g, 0 <? g) (gaps_of (order_by Z.leb fired))).

(** ** The store *)

Module SourceRow.
Record t : Type := mk {
  id : string; app : string; dataset : string; state : string; degradation_score : f64;
  state_since : timestamp; state_reason : option string; last_verdict : option string;
  last_verdict_at : option timestamp; tripped_of_last3 : Z; created_at : timestamp;
  updated_at : timestamp }.
#[global] Instance eta_source : Eta t := λ r,
  mk (id r) (app r) (dataset r) (state r) (degradation_score r) (state_since r)
    (state_reason r) (last_verdict r) (last_verdict_at r) (tripped_of_last3 r)
    (created_at r) (updated_at r).
End SourceRow.

(** A row of [source_runs]; its key is the pair of ids. *)
Module SourceRun.
Record t : Type := mk {
  source_id : string; job_id : Uuid; docs : Z; fetch_ok_rate : f64;
  drift : option CohortDrift; verdict : string; diagnosis : option string; score : f64;
  reasons : list Reason; state_after : string; build_id : option string;
  created_at : timestamp; fetch_permanent : option Z; fetch_roster : option Z }.
End SourceRun.

Module Health.
Record t : Type := mk { sources : list SourceRow.t; runs : list SourceRun.t }.
#[global] Instance eta_health : Eta t := λ h, mk (sources h) (runs h).
End Health.

(** One run, as an app reports it: its documents enter through the evaluation. *)
Module RunReport.
Record t : Type := mk {
  job_id : Uuid; dataset : string; docs : Z; fetch : FetchHealth.t; build_id : option string }.
End RunReport.

Definition is_source (id : string) (r : SourceRow.t) : bool := String.eqb (SourceRow.id r) id.
Definition source (id : string) (h : Health.t) : option SourceRow.t :=
  lookup_by SourceRow.id id (Health.sources h).

Definition ensure_source (now : timestamp) (app dataset : string) (h : Health.t)
    : Health.t * option SourceRow.t :=
  let id := source_id app dataset in
  let h :=
    if is_some (source id h) then h
    else h <| Health.sources ::= λ t,
                t ++ [SourceRow.mk id app dataset "healthy" f64_zero now None None None 0 now now] |>
  in (h, source id h).

(** A source with no row is healthy. *)
Definition stored_state (app dataset : string) (h : Health.t) : SourceState :=
  match source (source_id app dataset) h with
  | Some r => SourceState.parse (SourceRow.state r)
  | None => Healthy
  end.

Definition set_state_manual (now : timestamp) (id : string) (state : SourceState)
    (reason : string) (h : Health.t) : Health.t * bool :=
  (h <| Health.sources ::=
      update_where (is_source id)
        (λ r, r <| SourceRow.state := SourceState.as_str state |>
                <| SourceRow.state_since := now |> <| SourceRow.state_reason := Some reason |>
                <| SourceRow.tripped_of_last3 := 0 |> <| SourceRow.updated_at := now |>) |>,
   0 <? rows_affected (is_source id) (Health.sources h)).

Definition run_newest (a b : SourceRun.t) : bool :=
  SourceRun.created_at b <=? SourceRun.created_at a.

(** [verdict IN ('ok', ..)] *)
Definition judged_row (id : string) (r : SourceRun.t) : bool :=
  String.eqb (SourceRun.source_id r) id
  && bool_decide (SourceRun.verdict r ∈ RunVerdict.JUDGED_SQL).

Definition recent_trips (id : string) (n : Z) (degrade_score : f64) (t : list SourceRun.t) : Z :=
  rows_affected (f64_le degrade_score)
    (map SourceRun.score (sql_limit n (order_by run_newest (select_where (judged_row id) t)))).

Definition clean_streak_before (id : string) (since : timestamp) (degrade_score : f64) (limit : Z)
    (t : list SourceRun.t) : Z :=
  consecutive_clean
    (map SourceRun.score
       (sql_limit limit
          (order_by run_newest
             (select_where (λ r, judged_row id r && (since <? SourceRun.created_at r)) t))))
    degrade_score.

Definition retire_history (id : string) (since : timestamp) (limit : Z) (t : list SourceRun.t)
    : list RetireRun.t :=
  map (λ r, RetireRun.stored (SourceRun.fetch_permanent r) (SourceRun.fetch_roster r)
              (SourceRun.created_at r))
    (sql_limit limit
       (order_by run_newest
          (select_where (λ r, String.eqb (SourceRun.source_id r) id
                              && (since <? SourceRun.created_at r)) t))).

Definition schedule_cadence (job_id : Uuid) (jobs : table) : option Z :=
  let schedule := get job_id jobs ≫= Job.schedule_id in
  cadence_from_firings
    (map Job.created_at
       (sql_limit 8
          (order_by newest_created
             (select_where (λ j, is_some (Job.schedule_id j)
                                 && bool_decide (Job.schedule_id j = schedule)) jobs)))).

(** [INSERT OR REPLACE INTO source_runs] and [UPDATE sources], one transaction. *)
Definition commit_run (now : timestamp) (id : string) (report : RunReport.t)
    (eval : RunEvaluation.t) (state : SourceState) (state_changed : bool) (trips : Z)
    (state_reason : option string) (h : Health.t) : Health.t :=
  let roster := FetchHealth.roster (RunReport.fetch report) in
  let run :=
    SourceRun.mk id (RunReport.job_id report) (RunReport.docs report)
      (FetchHealth.rate (RunReport.fetch report)) (RunEvaluation.drift eval)
      (RunVerdict.as_str (RunEvaluation.verdict eval))
      (Diagnosis_as_str <$> RunEvaluation.diagnosis eval) (RunEvaluation.score eval)
      (RunEvaluation.reasons eval) (SourceState.as_str state) (RunReport.build_id report) now
      (match roster with
       | Some _ => Some (FetchHealth.permanent (RunReport.fetch report))
       | None => None
       end) roster in
  h <| Health.runs ::= λ t,
        delete_where (λ r, String.eqb (SourceRun.source_id r) id
                           && (SourceRun.job_id r =? RunReport.job_id report)) t ++ [run] |>
    <| Health.sources ::=
        update_where (is_source id)
          (λ r, let r := if state_changed
                         then r <| SourceRow.state_since := now |>
                                <| SourceRow.state_reason := state_reason |>
                         else r in
                r <| SourceRow.state := SourceState.as_str state |>
                  <| SourceRow.degradation_score := RunEvaluation.score eval |>
                  <| SourceRow.last_verdict :=
                       Some (RunVerdict.as_str (RunEvaluation.verdict eval)) |>
                  <| SourceRow.last_verdict_at := Some now |>
                  <| SourceRow.tripped_of_last3 := trips |>
                  <| SourceRow.updated_at := now |>) |>.

(** ** The service *)

(** [Resilience::state] and [enforced_state]; a database error is not modelled. *)
Definition state (cfg : Cfg.t) (app dataset : string) (h : Health.t) : SourceState :=
  if Cfg.enabled cfg then stored_state app dataset h else Healthy.
Definition enforced_state (cfg : Cfg.t) (app dataset : string) (h : Health.t) : SourceState :=
  if armed cfg app dataset then state cfg app dataset h else Healthy.

Definition retires (cfg : Cfg.t) (now : timestamp) (id : string) (source : SourceRow.t)
    (run : RunReport.t) (jobs : table) (h : Health.t) : bool :=
  if negb (retirement_enrolled (Cfg.auto_retire cfg) id (SourceState.parse (SourceRow.state source)))
  then false
  else
    let current := RetireRun.current (RunReport.fetch run) now in
    if negb (RetireRun.dead current) then false
    else
      retirement_due
        (current :: retire_history id (SourceRow.state_since source)
                      (Z.of_nat RETIRE_RUNS - 1) (Health.runs h))
        (schedule_cadence (RunReport.job_id run) jobs).

(** The rung a judged run leads to, with the trips it counts. *)
Definition climb (cfg : Cfg.t) (id : string) (source : SourceRow.t) (eval : RunEvaluation.t)
    (h : Health.t) : SourceState * Z :=
  let previous := SourceState.parse (SourceRow.state source) in
  if RunVerdict.judged (RunEvaluation.verdict eval) then
    let is_tripped := tripped cfg eval in
    let prior := recent_trips id 2 (Cfg.degrade_score cfg) (Health.runs h) in
    let trips := prior + (if is_tripped then 1 else 0) in
    let clean_streak :=
      if is_tripped then 0
      else clean_streak_before id (SourceRow.state_since source) (Cfg.degrade_score cfg)
             (Cfg.recovery_runs cfg) (Health.runs h) + 1 in
    (next_state previous is_tripped (severe cfg eval) trips
       (Recovery.mk clean_streak (Cfg.recovery_runs cfg)), trips)
  else (previous, SourceRow.tripped_of_last3 source).

Module SourceVerdict.
Record t : Type := mk { source_id : string; eval : RunEvaluation.t; state : SourceState;
                        previous_state : SourceState }.
End SourceVerdict.

(** [clock] is the instant of each of the three clock reads. *)
Definition observe (cfg : Cfg.t) (clock : nat → timestamp) (app : string) (run : RunReport.t)
    (eval : RunEvaluation.t) (jobs : table) (h : Health.t)
    : Health.t * option SourceVerdict.t :=
  if negb (Cfg.enabled cfg) then (h, None)
  else
    let id := source_id app (RunReport.dataset run) in
    match ensure_source (clock 0%nat) app (RunReport.dataset run) h with
    | (h, None) => (h, None)
    | (h, Some src) =>
        let previous := SourceState.parse (SourceRow.state src) in
        let retire := retires cfg (clock 1%nat) id src run jobs h in
        let '(rung, trips) := climb cfg id src eval h in
        let '(state, reason) :=
          if retire then (Retired, Some RETIRED_REASON) else (rung, None) in
        (commit_run (clock 2%nat) id run eval state (negb (bool_decide (state = previous))) trips
           reason h,
         Some (SourceVerdict.mk id eval state previous))
    end.
