(* ===== verification/SourceHealthTheorems.v ===== *)
(** * SourceHealthTheorems: what moves a source on the health ladder

    An abstract ladder that remembers only which judged runs tripped, the proof
    that [observe] over the two tables refines it, and what holds of the ladder:
    how much evidence a quarantine takes, and what leads out of it. *)

From S2P Require Import Prelude Sql Float64 Json Errors Jobs JobQueue SourceHealth.

#[local] Arguments lookup_by : simpl never.
#[local] Arguments update_where : simpl never.
#[local] Arguments select_where : simpl never.

(** ** The abstract ladder *)

(** A rung: the state, whether each judged run tripped (newest first), and how many
    of them came after the state was entered. *)
Module Rung.
Record t : Type := mk { state : SourceState; hist : list bool; since : nat }.
End Rung.

Definition trips (l : list bool) : nat := length (List.filter id l).
Fixpoint clean_prefix (l : list bool) : nat :=
  match l with false :: l => S (clean_prefix l) | _ => 0 end.

Definition rung_step (required : nat) (tr sev : bool) (ρ : Rung.t) : Rung.t :=
  let streak :=
    if tr then 0%nat
    else S (clean_prefix (take required (take (Rung.since ρ) (Rung.hist ρ)))) in
  let s := next_state (Rung.state ρ) tr sev (Z.of_nat (trips (take 3 (tr :: Rung.hist ρ))))
             (Recovery.mk (Z.of_nat streak) (Z.of_nat required)) in
  Rung.mk s (tr :: Rung.hist ρ)
    (if decide (s = Rung.state ρ) then S (Rung.since ρ) else 0).

(** ** Lemmas on the tables *)

Lemma state_round_trip s : SourceState.parse (SourceState.as_str s) = s.
Proof. by destruct s. Qed.

Lemma judged_sql v : bool_decide (RunVerdict.as_str v ∈ RunVerdict.JUDGED_SQL) = RunVerdict.judged v.
Proof. by destruct v. Qed.

Lemma run_newest_total a b : run_newest a b = true ∨ run_newest b a = true.
Proof. unfold run_newest. breflect. lia. Qed.
Lemma run_newest_trans a b c :
  run_newest a b = true → run_newest b c = true → run_newest a c = true.
Proof. unfold run_newest. breflect. lia. Qed.

Lemma trips_cons b l : trips (b :: l) = ((if b then 1 else 0) + trips l)%nat.
Proof. by destruct b. Qed.

Lemma trips_take n l : (trips (take n l) ≤ trips l)%nat.
Proof.
  revert n. induction l as [|b l IH]; intros [|n]; cbn [take]; try (cbn; lia).
  rewrite !trips_cons. specialize (IH n). lia.
Qed.

Lemma trips_rows deg (l : list SourceRun.t) :
  rows_affected (f64_le deg) (map SourceRun.score l)
    = Z.of_nat (trips (map (λ r, f64_le deg (SourceRun.score r)) l)).
Proof.
  induction l as [|r l IH]; [done|]. cbn [map].
  rewrite rows_affected_cons, IH, trips_cons. case_if; lia.
Qed.

Lemma f64_lt_le a b : is_nan a = false → is_nan b = false → f64_lt a b = negb (f64_le b a).
Proof.
  intros Ha Hb. unfold f64_lt, f64_le, SFltb, SFleb. rewrite (SFcompare_antisym a b).
  destruct (SFcompare a b) as [[]|] eqn:E; try done.
  by destruct a as [| | |[]], b as [[]|[]| |[]].
Qed.

Lemma consecutive_clean_prefix deg (l : list SourceRun.t) :
  is_nan deg = false → Forall (λ r, is_nan (SourceRun.score r) = false) l →
  consecutive_clean (map SourceRun.score l) deg
    = Z.of_nat (clean_prefix (map (λ r, f64_le deg (SourceRun.score r)) l)).
Proof.
  intros Hd. induction 1 as [|r l Hr Hl IH]; [done|].
  change ((if f64_lt (SourceRun.score r) deg
           then 1 + consecutive_clean (map SourceRun.score l) deg else 0)
    = Z.of_nat (clean_prefix (f64_le deg (SourceRun.score r)
                              :: map (λ r, f64_le deg (SourceRun.score r)) l))).
  rewrite f64_lt_le, IH by done. destruct (f64_le deg (SourceRun.score r)); cbn; lia.
Qed.

(** The rows a source was judged on, newest first. *)
Definition judged_rows (id : string) (t : list SourceRun.t) : list SourceRun.t :=
  order_by run_newest (select_where (judged_row id) t).

Lemma judged_rows_snoc id t r :
  Forall (λ r', SourceRun.created_at r' < SourceRun.created_at r) t →
  judged_rows id (t ++ [r])
    = if judged_row id r then r :: judged_rows id t else judged_rows id t.
Proof.
  intros Hnew. unfold judged_rows, select_where. rewrite List.filter_app.
  cbn [List.filter]. destruct (judged_row id r); [|by rewrite app_nil_r].
  apply order_by_snoc. intros x [Hx _]%elem_of_select.
  eapply Forall_forall in Hnew; [|exact Hx]. unfold run_newest. cbn in Hnew. breflect. lia.
Qed.

Lemma judged_since id since t :
  order_by run_newest
    (select_where (λ r, judged_row id r && (since <? SourceRun.created_at r)) t)
    = List.filter (λ r, since <? SourceRun.created_at r) (judged_rows id t).
Proof.
  rewrite select_where_and. unfold select_where at 1, judged_rows.
  apply (filter_order_by _ run_newest_total run_newest_trans).
Qed.

Lemma sql_limit_take {A} n (l : list A) : sql_limit (Z.of_nat n) l = take n l.
Proof. unfold sql_limit. rewrite (proj2 (Z.ltb_ge _ 0)) by lia. by rewrite Nat2Z.id. Qed.

(** ** The abstraction *)

(** The tables at a time no row is younger than, and the rung they stand for. *)
Record represents (cfg : Cfg.t) (id : string) (T : timestamp) (h : Health.t) (row : SourceRow.t)
    (ρ : Rung.t) : Prop := {
  rep_source : source id h = Some row;
  rep_state : SourceState.parse (SourceRow.state row) = Rung.state ρ;
  rep_entered : SourceRow.state_since row ≤ T;
  rep_times : Forall (λ r, SourceRun.created_at r ≤ T) (Health.runs h);
  rep_scores : Forall (λ r, is_nan (SourceRun.score r) = false) (judged_rows id (Health.runs h));
  rep_hist : map (λ r, f64_le (Cfg.degrade_score cfg) (SourceRun.score r))
               (judged_rows id (Health.runs h)) = Rung.hist ρ;
  rep_since : List.filter (λ r, SourceRow.state_since row <? SourceRun.created_at r)
                (judged_rows id (Health.runs h))
              = take (Rung.since ρ) (judged_rows id (Health.runs h));
}.

(** The rung [observe] decides on is the abstract one. *)
Lemma climb_rung cfg id T h row ρ eval :
  is_nan (Cfg.degrade_score cfg) = false → 0 ≤ Cfg.recovery_runs cfg →
  represents cfg id T h row ρ → RunVerdict.judged (RunEvaluation.verdict eval) = true →
  fst (climb cfg id row eval h)
    = Rung.state (rung_step (Z.to_nat (Cfg.recovery_runs cfg)) (tripped cfg eval)
                    (severe cfg eval) ρ).
Proof.
  intros Hd Hr [Hsrc Hst Hent Htm Hsc Hh Hsi] Hj. unfold climb. rewrite Hj. cbn [fst].
  unfold rung_step. cbn [Rung.state]. rewrite Hst.
  rewrite <- (Z2Nat.id (Cfg.recovery_runs cfg)) at 1 2 by done.
  set (req := Z.to_nat (Cfg.recovery_runs cfg)).
  unfold clean_streak_before. rewrite judged_since, Hsi, sql_limit_take.
  rewrite consecutive_clean_prefix by (done || by do 2 apply Forall_take).
  unfold recent_trips. fold (judged_rows id (Health.runs h)).
  change 2 with (Z.of_nat 2). rewrite sql_limit_take, trips_rows, <- Hh.
  rewrite !firstn_map. cbn [take]. rewrite trips_cons, !firstn_map.
  f_equal; [case_if; lia|]. f_equal. case_if; lia.
Qed.

(** ** One run *)

Lemma commit_source now id report eval st changed trips reason h row :
  source id h = Some row →
  source id (commit_run now id report eval st changed trips reason h)
    = Some ((if changed
             then row <| SourceRow.state_since := now |> <| SourceRow.state_reason := reason |>
             else row)
            <| SourceRow.state := SourceState.as_str st |>
            <| SourceRow.degradation_score := RunEvaluation.score eval |>
            <| SourceRow.last_verdict := Some (RunVerdict.as_str (RunEvaluation.verdict eval)) |>
            <| SourceRow.last_verdict_at := Some now |>
            <| SourceRow.tripped_of_last3 := trips |> <| SourceRow.updated_at := now |>).
Proof.
  intros Hs. unfold source, commit_run. cbn.
  rewrite (lookup_by_update SourceRow.id) by by destruct changed.
  unfold source in Hs. rewrite Hs. cbn.
  apply lookup_by_Some in Hs as [_ Hid]. unfold is_source. rewrite Hid, String.eqb_refl. done.
Qed.

Definition fresh_run (id : string) (job : Uuid) (t : list SourceRun.t) : Prop :=
  ∀ r, r ∈ t → SourceRun.source_id r = id → SourceRun.job_id r ≠ job.

Lemma commit_runs now id report eval st changed trips reason h :
  fresh_run id (RunReport.job_id report) (Health.runs h) →
  ∃ run, Health.runs (commit_run now id report eval st changed trips reason h)
           = Health.runs h ++ [run]
         ∧ SourceRun.created_at run = now ∧ SourceRun.score run = RunEvaluation.score eval
         ∧ judged_row id run = RunVerdict.judged (RunEvaluation.verdict eval).
Proof.
  intros Hf. eexists. split; [|split; [|split]].
  - unfold commit_run. cbn. f_equal. unfold delete_where.
    apply (select_where_all (λ r, negb _)). intros r Hr. breflect.
    destruct (decide (SourceRun.source_id r = id)); [right; by apply Hf|by left].
  - done.
  - done.
  - unfold judged_row. cbn. by rewrite String.eqb_refl, judged_sql.
Qed.

(** Keeping the relation when the newest row is written: the state did not change. *)
Lemma filter_none {A} (p : A → bool) l : Forall (λ x, p x = false) l → List.filter p l = [].
Proof. induction 1 as [|x l Hx _ IH]; [done|]. cbn. by rewrite Hx. Qed.

Lemma elem_of_judged_rows id t r : r ∈ judged_rows id t → r ∈ t.
Proof. unfold judged_rows. intros H. by apply elem_of_order_by, elem_of_select in H as [? _]. Qed.

(** Writing a run newer than every row, with the state it leads to. *)
Lemma commit_represents cfg id T h row ρ now report eval st trips reason :
  is_nan (RunEvaluation.score eval) = false → T < now →
  fresh_run id (RunReport.job_id report) (Health.runs h) →
  represents cfg id T h row ρ →
  let j := RunVerdict.judged (RunEvaluation.verdict eval) in
  let changed := negb (bool_decide (st = Rung.state ρ)) in
  ∃ row', represents cfg id now (commit_run now id report eval st changed trips reason h) row'
    (Rung.mk st
       (if j then f64_le (Cfg.degrade_score cfg) (RunEvaluation.score eval) :: Rung.hist ρ
        else Rung.hist ρ)
       (if changed then 0 else if j then S (Rung.since ρ) else Rung.since ρ)).
Proof.
  intros Hnan Hnow Hf [Hsrc Hst Hent Htm Hsc Hh Hsi] j changed.
  destruct (commit_runs now id report eval st changed trips reason h Hf)
    as (run & Hruns & Hat & Hscore & Hjudged). fold j in Hjudged.
  eexists. pose proof (commit_source now id report eval st changed trips reason h row Hsrc) as Hs'.
  assert (Forall (λ r, SourceRun.created_at r < SourceRun.created_at run) (Health.runs h)) as Hlt.
  { eapply Forall_impl; [exact Htm|]. cbn. intros. lia. }
  assert (judged_rows id (Health.runs (commit_run now id report eval st changed trips reason h))
          = (if j then [run] else []) ++ judged_rows id (Health.runs h)) as Hrows.
  { rewrite Hruns, judged_rows_snoc, Hjudged by done. by destruct j. }
  split; [exact Hs'|..].
  - cbn. destruct changed; apply state_round_trip.
  - cbn. destruct changed; cbn; lia.
  - rewrite Hruns. apply Forall_app. split; [|repeat constructor; lia].
    eapply Forall_impl; [exact Hlt|]. cbn. lia.
  - rewrite Hrows. apply Forall_app. split; [|done]. destruct j; [|done].
    repeat constructor. by rewrite Hscore.
  - rewrite Hrows, map_app, Hh. destruct j; [|done]. cbn. by rewrite Hscore.
  - rewrite Hrows, List.filter_app. cbn [SourceRow.state_since].
    destruct changed; cbn.
    + rewrite (filter_none _ (judged_rows id (Health.runs h))).
      * destruct j; cbn; [|done]. by rewrite Hat, Z.ltb_irrefl.
      * apply Forall_forall. intros r Hr%elem_of_judged_rows.
        eapply Forall_forall in Htm; [|exact Hr]. cbn in Htm. breflect. lia.
    + rewrite Hsi. destruct j; cbn; [|done].
      by rewrite Hat, (proj2 (Z.ltb_lt (SourceRow.state_since row) now)) by lia.
Qed.

Lemma if_negb_decide {A} (P : Prop) `{Decision P} (a b : A) :
  (if negb (bool_decide P) then a else b) = (if decide P then b else a).
Proof. case_bool_decide; by destruct (decide P). Qed.

(** What one run does to the ladder. *)
Definition ladder_after (cfg : Cfg.t) (eval : RunEvaluation.t) (ρ : Rung.t) : Rung.t :=
  if RunVerdict.judged (RunEvaluation.verdict eval)
  then rung_step (Z.to_nat (Cfg.recovery_runs cfg)) (tripped cfg eval) (severe cfg eval) ρ
  else ρ.

(** The conditions under which a run is one more row of the history. *)
Definition next_run (cfg : Cfg.t) (id : string) (T now : timestamp) (report : RunReport.t)
    (eval : RunEvaluation.t) (h : Health.t) : Prop :=
  T < now ∧ is_nan (RunEvaluation.score eval) = false
  ∧ fresh_run id (RunReport.job_id report) (Health.runs h).

(** A configuration that judges [id] and never retires it by itself. *)
Definition on_ladder (cfg : Cfg.t) (id : string) : Prop :=
  Cfg.enabled cfg = true ∧ is_nan (Cfg.degrade_score cfg) = false
  ∧ 0 < Cfg.recovery_runs cfg ∧ id ∉ Cfg.auto_retire cfg.

Lemma not_enrolled cfg id st : id ∉ Cfg.auto_retire cfg →
  retirement_enrolled (Cfg.auto_retire cfg) id st = false.
Proof.
  intros Hn. unfold retirement_enrolled. apply andb_false_iff. right.
  apply not_true_iff_false. intros (s & Hs & He)%existsb_exists.
  apply String.eqb_eq in He as ->. by apply Hn, list_elem_of_In.
Qed.

Lemma observe_step cfg app clock report eval jobs T h row ρ :
  let id := source_id app (RunReport.dataset report) in
  on_ladder cfg id → represents cfg id T h row ρ →
  next_run cfg id T (clock 2%nat) report eval h →
  ∃ h' v row', observe cfg clock app report eval jobs h = (h', Some v)
    ∧ represents cfg id (clock 2%nat) h' row' (ladder_after cfg eval ρ)
    ∧ SourceVerdict.state v = Rung.state (ladder_after cfg eval ρ)
    ∧ SourceVerdict.previous_state v = Rung.state ρ.
Proof.
  intros id (Hen & Hd & Hr & Hni) Hrep (Hnow & Hnan & Hf).
  pose proof Hrep as [Hsrc Hst _ _ _ _ _].
  unfold observe. rewrite Hen. cbn [negb]. unfold ensure_source. fold id.
  rewrite Hsrc. cbn [is_some]. rewrite Hsrc, Hst. unfold retires.
  rewrite Hst, not_enrolled by done. cbn [negb].
  destruct (climb cfg id row eval h) as [st tr] eqn:Ec.
  assert (st = Rung.state (ladder_after cfg eval ρ)) as Hst'.
  { unfold ladder_after. destruct (RunVerdict.judged _) eqn:Ej.
    - rewrite <- (climb_rung cfg id T h row ρ eval) by (done || lia). by rewrite Ec.
    - unfold climb in Ec. rewrite Ej, Hst in Ec. by inversion Ec. }
  destruct (commit_represents cfg id T h row ρ (clock 2%nat) report eval st tr None
              Hnan Hnow Hf Hrep) as [row' Hrep'].
  do 2 eexists. exists row'. split; [reflexivity|]. cbn. split; [|done].
  replace (ladder_after cfg eval ρ) with
    (Rung.mk st
       (if RunVerdict.judged (RunEvaluation.verdict eval)
        then f64_le (Cfg.degrade_score cfg) (RunEvaluation.score eval) :: Rung.hist ρ
        else Rung.hist ρ)
       (if negb (bool_decide (st = Rung.state ρ)) then 0%nat
        else if RunVerdict.judged (RunEvaluation.verdict eval)
             then S (Rung.since ρ) else Rung.since ρ)); [done|].
  rewrite Hst'. unfold ladder_after, tripped. destruct (RunVerdict.judged _) eqn:Ej.
  - unfold rung_step. cbn [andb Rung.state]. f_equal.
    apply if_negb_decide.
  - rewrite bool_decide_eq_true_2 by done. by destruct ρ.
Qed.

(** ** Sequences of runs *)

(** The runs of one source observed since [h0], newest first. *)
Inductive observed (cfg : Cfg.t) (app dataset : string) (T0 : timestamp) (h0 : Health.t)
    : list RunEvaluation.t → timestamp → Health.t → Prop :=
| observed_nil : observed cfg app dataset T0 h0 [] T0 h0
| observed_run evals T h clock report eval jobs h' v :
    observed cfg app dataset T0 h0 evals T h →
    RunReport.dataset report = dataset →
    next_run cfg (source_id app dataset) T (clock 2%nat) report eval h →
    observe cfg clock app report eval jobs h = (h', Some v) →
    observed cfg app dataset T0 h0 (eval :: evals) (clock 2%nat) h'.

Definition ladder (cfg : Cfg.t) (evals : list RunEvaluation.t) (ρ : Rung.t) : Rung.t :=
  foldr (ladder_after cfg) ρ evals.

Lemma ladder_cons cfg e evals ρ :
  ladder cfg (e :: evals) ρ = ladder_after cfg e (ladder cfg evals ρ).
Proof. done. Qed.

Lemma observed_represents cfg app dataset T0 h0 ρ0 row0 evals T h :
  on_ladder cfg (source_id app dataset) →
  represents cfg (source_id app dataset) T0 h0 row0 ρ0 →
  observed cfg app dataset T0 h0 evals T h →
  ∃ row, represents cfg (source_id app dataset) T h row (ladder cfg evals ρ0).
Proof.
  intros Hon Hrep0. induction 1 as [|evals T h clock report eval jobs h' v Hob [row IH] <- Hn Ho].
  - by exists row0.
  - destruct (observe_step cfg app clock report eval jobs T h row _ Hon IH Hn)
      as (h2 & v2 & row' & Ho' & Hrep' & _). rewrite Ho in Ho'. inversion Ho'; subst. by exists row'.
Qed.

Lemma represents_state cfg app dataset T h row ρ :
  represents cfg (source_id app dataset) T h row ρ → stored_state app dataset h = Rung.state ρ.
Proof. intros [Hs Hst _ _ _ _ _]. unfold stored_state. by rewrite Hs. Qed.

(** A source seen for the first time. *)
Lemma first_sight cfg app dataset now h :
  source (source_id app dataset) h = None →
  Forall (λ r, SourceRun.source_id r ≠ source_id app dataset
               ∧ SourceRun.created_at r ≤ now) (Health.runs h) →
  ∃ row, represents cfg (source_id app dataset) now (fst (ensure_source now app dataset h)) row
           (Rung.mk Healthy [] 0).
Proof.
  intros Hn Hruns. set (id := source_id app dataset).
  assert (judged_rows id (Health.runs h) = []) as Hj.
  { unfold judged_rows. rewrite select_where_none; [done|]. intros r Hr.
    eapply Forall_forall in Hruns as [Hne _]; [|exact Hr]. unfold judged_row.
    apply andb_false_iff. left. by apply String.eqb_neq. }
  unfold ensure_source. fold id in Hn |- *. rewrite Hn. cbn [is_some fst].
  eexists. split; cbn; rewrite ?Hj; try done.
  - unfold source in *. cbn. rewrite lookup_by_app, Hn. unfold lookup_by. cbn.
    by rewrite bool_decide_eq_true_2.
  - done.
  - cbn. lia.
  - eapply Forall_impl; [exact Hruns|]. by intros r [_ ?].
Qed.

(** ** What the ladder keeps *)

(** Which of the judged runs tripped, newest first. *)
Definition judged_trips (cfg : Cfg.t) (evals : list RunEvaluation.t) : list bool :=
  map (tripped cfg) (List.filter (λ e, RunVerdict.judged (RunEvaluation.verdict e)) evals).

Lemma ladder_hist cfg evals ρ :
  Rung.hist (ladder cfg evals ρ) = judged_trips cfg evals ++ Rung.hist ρ.
Proof.
  induction evals as [|e evals IH]; [done|]. rewrite ladder_cons. unfold judged_trips in *.
  cbn [List.filter]. unfold ladder_after. destruct (RunVerdict.judged _); [|done].
  cbn [map app]. rewrite <- IH. done.
Qed.

Definition rung_inv (ρ : Rung.t) : Prop :=
  match Rung.state ρ with
  | Degraded => (2 ≤ trips (take 3 (Rung.hist ρ)))%nat
  | Quarantined | Probation => (3 ≤ trips (Rung.hist ρ))%nat
  | Retired | Unknown => False
  | Healthy | Suspect => True
  end.

Lemma trips_take_S n b l : trips (take (S n) (b :: l)) = ((if b then 1 else 0) + trips (take n l))%nat.
Proof. apply trips_cons. Qed.

Lemma trips_take_le n l : (trips (take (S n) l) ≤ S (trips (take n l)))%nat.
Proof.
  revert n. induction l as [|b l IH]; intros [|n]; [cbn; lia..| |].
  - rewrite trips_take_S. destruct b, l; unfold trips; cbn; lia.
  - rewrite !trips_take_S. specialize (IH n). lia.
Qed.

Lemma rung_step_inv required tr sev ρ : rung_inv ρ → rung_inv (rung_step required tr sev ρ).
Proof.
  unfold rung_inv, rung_step. cbn [Rung.state Rung.hist].
  pose proof (trips_take 3 (Rung.hist ρ)) as H3. pose proof (trips_take_le 2 (Rung.hist ρ)) as H2.
  pose proof (trips_cons tr (Rung.hist ρ)) as Hc.
  pose proof (trips_take_S 2 tr (Rung.hist ρ)) as Ht. rewrite Ht.
  destruct (Rung.state ρ); cbn [next_state]; destruct tr; cbn [negb andb]; intros Hinv;
    repeat case_if; try done; breflect; try lia.
Qed.

Lemma ladder_inv cfg evals ρ : rung_inv ρ → rung_inv (ladder cfg evals ρ).
Proof.
  intros Hinv. induction evals as [|e evals IH]; [done|]. rewrite ladder_cons. unfold ladder_after.
  destruct (RunVerdict.judged _); [by apply rung_step_inv|done].
Qed.


(** No verdict gates anything early: a source observed since its first sight is degraded
    only if two of its last three judged runs tripped, its writes are diverted (or it is on
    probation) only if at least three judged runs tripped, and the ladder never retires it. *)
Theorem quarantine_needs_three_trips cfg app dataset now h evals T h' :
  on_ladder cfg (source_id app dataset) →
  source (source_id app dataset) h = None →
  Forall (λ r, SourceRun.source_id r ≠ source_id app dataset
               ∧ SourceRun.created_at r ≤ now) (Health.runs h) →
  observed cfg app dataset now (fst (ensure_source now app dataset h)) evals T h' →
  let s := stored_state app dataset h' in
  (s = Degraded → (2 ≤ trips (take 3 (judged_trips cfg evals)))%nat)
  ∧ (SourceState.diverts_writes s = true ∨ s = Probation →
     (3 ≤ trips (judged_trips cfg evals))%nat)
  ∧ s ≠ Retired ∧ s ≠ Unknown.
Proof.
  intros Hon Hn Hr Hob s. destruct (first_sight cfg app dataset now h Hn Hr) as [row0 Hrep].
  destruct (observed_represents _ _ _ _ _ _ _ _ _ _ Hon Hrep Hob) as [row Hrep'].
  subst s. rewrite (represents_state _ _ _ _ _ _ _ Hrep').
  assert (rung_inv (ladder cfg evals (Rung.mk Healthy [] 0))) as Hinv by by apply ladder_inv.
  unfold rung_inv in Hinv. rewrite ladder_hist, app_nil_r in Hinv.
  destruct (Rung.state _); naive_solver.
Qed.

(** ** The way back *)

Definition clean_step (required : nat) : Rung.t → Rung.t := rung_step required false false.

Lemma rung_step_clean required sev ρ : rung_step required false sev ρ = clean_step required ρ.
Proof. unfold clean_step, rung_step. by destruct (Rung.state ρ). Qed.

Lemma clean_prefix_repeat required n since l :
  (n ≤ since)%nat →
  (Nat.min required n ≤ clean_prefix (take required (take since (repeat false n ++ l))))%nat.
Proof.
  revert required since. induction n as [|n IH]; intros [|required] [|since] Hn;
    cbn; try lia. apply le_n_S, IH. lia.
Qed.

Definition rung_above (s : SourceState) : SourceState :=
  match s with Quarantined => Probation | _ => Healthy end.

Lemma climbs_out required m : ∀ n ρ l,
  Rung.state ρ = Quarantined ∨ Rung.state ρ = Probation →
  Rung.hist ρ = repeat false n ++ l → (n ≤ Rung.since ρ)%nat →
  (0 < required ≤ n + m)%nat → (0 < m)%nat →
  ∃ j, (0 < j ≤ m)%nat ∧ Rung.state (Nat.iter j (clean_step required) ρ) = rung_above (Rung.state ρ)
       ∧ Rung.since (Nat.iter j (clean_step required) ρ) = 0%nat.
Proof.
  induction m as [|m IH]; intros n ρ l Hs Hh Hn Hreq Hm; [lia|].
  set (streak := S (clean_prefix (take required (take (Rung.since ρ) (Rung.hist ρ))))).
  pose proof (clean_prefix_repeat required n (Rung.since ρ) l Hn) as Hp. rewrite <- Hh in Hp.
  set (cp := clean_prefix _) in *.
  assert (clean_step required ρ
    = let s := if bool_decide (required ≤ streak)%nat then rung_above (Rung.state ρ)
               else Rung.state ρ in
      Rung.mk s (false :: Rung.hist ρ) (if decide (s = Rung.state ρ) then S (Rung.since ρ) else 0))
    as Hstep.
  { unfold clean_step, rung_step. cbv beta iota zeta. fold cp. change (S cp) with streak.
    assert (Recovery.earned (Recovery.mk (Z.of_nat streak) (Z.of_nat required))
            = bool_decide (required ≤ streak)%nat) as He.
    { unfold Recovery.earned. cbn. apply eq_true_iff_eq. breflect. lia. }
    destruct Hs as [-> | ->]; cbn [next_state negb andb]; rewrite He; reflexivity. }
  destruct (decide (required ≤ streak)%nat) as [Hle|Hgt].
  - exists 1%nat. split; [lia|]. cbn [Nat.iter nat_rect]. rewrite Hstep.
    rewrite bool_decide_eq_true_2 by done. cbn.
    split; [done|]. by destruct Hs as [-> | ->].
  - rewrite bool_decide_eq_false_2 in Hstep by done. cbn in Hstep.
    rewrite decide_True in Hstep by done.
    destruct (IH (S n) (clean_step required ρ) l) as (j & Hj & H1 & H2);
      rewrite ?Hstep; cbn [Rung.state Rung.hist Rung.since]; try done; try lia.
    { by rewrite Hh. }
    exists (S j). split; [lia|]. rewrite Nat.iter_succ_r.
    split; [|done]. rewrite H1, Hstep. done.
Qed.

Lemma healthy_stays required n ρ :
  Rung.state ρ = Healthy → Rung.state (Nat.iter n (clean_step required) ρ) = Healthy.
Proof.
  intros Hs. induction n as [|n IH]; [done|].
  change (Nat.iter (S n) (clean_step required) ρ)
    with (clean_step required (Nat.iter n (clean_step required) ρ)).
  unfold clean_step at 1, rung_step. cbn [Rung.state]. by rewrite IH.
Qed.

Lemma quarantine_recovers required k ρ :
  (0 < required)%nat → (2 * required ≤ k)%nat → Rung.state ρ = Quarantined →
  Rung.state (Nat.iter k (clean_step required) ρ) = Healthy.
Proof.
  intros Hreq Hk Hs.
  destruct (climbs_out required required 0 ρ (Rung.hist ρ)) as (i & Hi & Hsi & Hzi);
    [by left|done|lia..|]. rewrite Hs in Hsi.
  set (ρ1 := Nat.iter i (clean_step required) ρ) in *.
  destruct (climbs_out required required 0 ρ1 (Rung.hist ρ1)) as (j & Hj & Hsj & _);
    [by right|done|lia..|]. rewrite Hsi in Hsj.
  replace k with ((k - (i + j)) + (j + i))%nat by lia.
  rewrite !Nat.iter_add. fold ρ1. by apply healthy_stays.
Qed.

Lemma ladder_clean cfg evals ρ :
  Forall (λ e, RunVerdict.judged (RunEvaluation.verdict e) = true ∧ tripped cfg e = false) evals →
  ladder cfg evals ρ
    = Nat.iter (length evals) (clean_step (Z.to_nat (Cfg.recovery_runs cfg))) ρ.
Proof.
  induction 1 as [|e evals [Hj Ht] _ IH]; [done|]. rewrite ladder_cons.
  unfold ladder_after. rewrite Hj, Ht, rung_step_clean, IH. done.
Qed.

(** A quarantine is never for ever: after it, [2 * recovery_runs] judged runs that do not
    trip put the source back to healthy, whatever came before. *)
Theorem clean_runs_recover cfg app dataset now h evals T1 h1 clean T2 h2 :
  on_ladder cfg (source_id app dataset) →
  source (source_id app dataset) h = None →
  Forall (λ r, SourceRun.source_id r ≠ source_id app dataset
               ∧ SourceRun.created_at r ≤ now) (Health.runs h) →
  observed cfg app dataset now (fst (ensure_source now app dataset h)) evals T1 h1 →
  stored_state app dataset h1 = Quarantined →
  observed cfg app dataset T1 h1 clean T2 h2 →
  Forall (λ e, RunVerdict.judged (RunEvaluation.verdict e) = true ∧ tripped cfg e = false) clean →
  2 * Cfg.recovery_runs cfg ≤ Z.of_nat (length clean) →
  stored_state app dataset h2 = Healthy.
Proof.
  intros Hon Hn Hr Hob Hq Hob2 Hclean Hlen.
  destruct (first_sight cfg app dataset now h Hn Hr) as [row0 Hrep].
  destruct (observed_represents _ _ _ _ _ _ _ _ _ _ Hon Hrep Hob) as [row1 Hrep1].
  destruct (observed_represents _ _ _ _ _ _ _ _ _ _ Hon Hrep1 Hob2) as [row2 Hrep2].
  rewrite (represents_state _ _ _ _ _ _ _ Hrep1) in Hq.
  rewrite (represents_state _ _ _ _ _ _ _ Hrep2), ladder_clean by done.
  destruct Hon as (_ & _ & Hrec & _). apply quarantine_recovers; [lia..|done].
Qed.

(** ** Retirement *)

Lemma next_state_retired s tr sev k r : next_state s tr sev k r = Retired ↔ s = Retired.
Proof. destruct s, tr; cbn; repeat case_if; split; done. Qed.

Lemma retirement_due_spec runs cadence :
  retirement_due runs cadence = true →
  (RETIRE_RUNS ≤ length runs)%nat ∧ Forall (λ r, RetireRun.dead r = true) (take RETIRE_RUNS runs)
  ∧ ∃ newest oldest,
      newest ∈ map RetireRun.at_ (take RETIRE_RUNS runs)
      ∧ oldest ∈ map RetireRun.at_ (take RETIRE_RUNS runs)
      ∧ match cadence with
        | Some c => if 0 <? c then c * RETIRE_CADENCE_SPAN else days RETIRE_FALLBACK_SPAN_DAYS
        | None => days RETIRE_FALLBACK_SPAN_DAYS
        end ≤ newest - oldest.
Proof.
  unfold retirement_due. intros H. case_bool_decide; [done|].
  destruct (forallb RetireRun.dead (take RETIRE_RUNS runs)) eqn:Ed; [|done]. cbn [negb] in H.
  split; [lia|]. split.
  { rewrite forallb_forall in Ed. apply Forall_forall. intros r Hr. by apply Ed, list_elem_of_In. }
  destruct (map RetireRun.at_ (take RETIRE_RUNS runs)) as [|a l]; [done|].
  exists (foldl Z.max a l), (foldl Z.min a l). breflect_in H. split; [|split; [|done]].
  - clear. revert a. induction l as [|b l IH]; intros a; [left|]. cbn [foldl].
    destruct (Z.max_spec a b) as [[_ ->]|[_ ->]];
      [pose proof (IH b)|pose proof (IH a)]; set_solver.
  - clear. revert a. induction l as [|b l IH]; intros a; [left|]. cbn [foldl].
    destruct (Z.min_spec a b) as [[_ ->]|[_ ->]];
      [pose proof (IH b)|pose proof (IH a)]; set_solver.
Qed.

(** A run retires a source only if the source is listed, and this run and the two newest
    recorded since the state was entered were all dead, at least two cadence intervals apart (or
    fourteen days, with no cadence); and no run, whatever its verdict, brings a retired source
    back. *)
Theorem retirement_takes_dead_runs cfg clock app report eval jobs h row h' v :
  let id := source_id app (RunReport.dataset report) in
  source id h = Some row →
  observe cfg clock app report eval jobs h = (h', Some v) →
  (SourceVerdict.previous_state v = Retired → SourceVerdict.state v = Retired)
  ∧ (SourceVerdict.previous_state v ≠ Retired → SourceVerdict.state v = Retired →
    let runs := RetireRun.current (RunReport.fetch report) (clock 1%nat)
                :: retire_history id (SourceRow.state_since row) 2 (Health.runs h) in
    id ∈ Cfg.auto_retire cfg
    ∧ (3 ≤ length runs)%nat ∧ Forall (λ r, RetireRun.dead r = true) (take 3 runs)
    ∧ ∃ newest oldest,
        newest ∈ map RetireRun.at_ (take 3 runs) ∧ oldest ∈ map RetireRun.at_ (take 3 runs)
        ∧ match schedule_cadence (RunReport.job_id report) jobs with
          | Some c => if 0 <? c then c * 2 else days 14
          | None => days 14
          end ≤ newest - oldest).
Proof.
  intros id Hsrc Hob. unfold observe in Hob. destruct (Cfg.enabled cfg); [|done].
  cbn [negb] in Hob. unfold ensure_source in Hob. fold id in Hob.
  rewrite Hsrc in Hob. cbn [is_some] in Hob. rewrite Hsrc in Hob.
  destruct (climb cfg id row eval h) as [st tr] eqn:Ec.
  set (prev := SourceState.parse (SourceRow.state row)) in *.
  assert (st = Retired ↔ prev = Retired) as Hclimb.
  { unfold climb in Ec. fold prev in Ec. destruct (RunVerdict.judged _); inversion Ec; subst;
      [apply next_state_retired|done]. }
  unfold retires in Hob. fold prev in Hob.
  destruct (retirement_enrolled _ _ prev) eqn:Een; cbn [negb] in Hob; cycle 1.
  { inversion Hob; subst. cbn [SourceVerdict.previous_state SourceVerdict.state]. tauto. }
  apply andb_true_iff in Een as [Hne Hin]. breflect_in Hne.
  apply existsb_exists in Hin as (s & Hs & ->%String.eqb_eq). apply list_elem_of_In in Hs.
  destruct (RetireRun.dead (RetireRun.current _ _)) eqn:Ed; cbn [negb] in Hob; cycle 1.
  { inversion Hob; subst. cbn [SourceVerdict.previous_state SourceVerdict.state]. tauto. }
  destruct (retirement_due _ _) eqn:Edue; inversion Hob; subst; cbn [SourceVerdict.previous_state SourceVerdict.state]; [|tauto].
  split; [done|]. intros _ _. split; [done|]. exact (retirement_due_spec _ _ Edue).
Qed.

(** ** Witnesses *)

Lemma fresh_run_compute id job t :
  forallb (λ r, negb (String.eqb (SourceRun.source_id r) id && (SourceRun.job_id r =? job))) t = true →
  fresh_run id job t.
Proof.
  intros H r Hr He Hj. rewrite forallb_forall in H. apply list_elem_of_In, H in Hr.
  by rewrite He, Hj, String.eqb_refl, Z.eqb_refl in Hr.
Qed.

Definition demo_cfg (retire : list string) : Cfg.t :=
  Cfg.mk true false (f64_of_Z 1) (f64_of_Z 2) 1 [] retire.
Definition demo_eval (score : Z) : RunEvaluation.t :=
  RunEvaluation.mk (if 0 <? score then Broken else VOk) None (f64_of_Z score) [] None true Full.
Definition demo_report (k : Z) : RunReport.t :=
  RunReport.mk k "prices" 30 (FetchHealth.mk 10 0 10 (Some 10)) None.
Definition demo_start : Health.t := fst (ensure_source 0 "shop" "prices" (Health.mk [] [])).
Definition demo_observe (k score : Z) (h : Health.t) : Health.t :=
  fst (observe (demo_cfg []) (λ _, k) "shop" (demo_report k) (demo_eval score) [] h).

Lemma demo_observed evals T k score h v :
  T < k →
  observed (demo_cfg []) "shop" "prices" 0 demo_start evals T h →
  is_nan (f64_of_Z score) = false →
  fresh_run "shop/prices" k (Health.runs h) →
  snd (observe (demo_cfg []) (λ _, k) "shop" (demo_report k) (demo_eval score) [] h) = Some v →
  observed (demo_cfg []) "shop" "prices" 0 demo_start (demo_eval score :: evals) k
    (demo_observe k score h).
Proof.
  intros HT Hob Hnan Hf Hv. apply (observed_run _ _ _ _ _ evals T h (λ _, k) (demo_report k)
    (demo_eval score) [] _ v Hob); [done|done|].
  unfold demo_observe. rewrite <- Hv. by destruct (observe _ _ _ _ _ _ _).
Qed.

(** Three broken runs. *)
Definition demo_broken : Health.t :=
  demo_observe 3 1 (demo_observe 2 1 (demo_observe 1 1 demo_start)).

Lemma demo_broken_observed :
  observed (demo_cfg []) "shop" "prices" 0 demo_start [demo_eval 1; demo_eval 1; demo_eval 1] 3
    demo_broken.
Proof.
  unfold demo_broken.
  eapply (demo_observed _ 2); [lia| |done|by apply fresh_run_compute|by vm_compute].
  eapply (demo_observed _ 1); [lia| |done|by apply fresh_run_compute|by vm_compute].
  eapply (demo_observed _ 0); [lia|constructor|done|by apply fresh_run_compute|by vm_compute].
Qed.

Lemma demo_on_ladder : on_ladder (demo_cfg []) "shop/prices".
Proof. unfold on_ladder. cbn. split_and!; done || set_solver. Qed.


Lemma quarantine_needs_three_trips_witness :
  stored_state "shop" "prices" demo_broken = Quarantined
  ∧ (3 ≤ trips (judged_trips (demo_cfg []) [demo_eval 1; demo_eval 1; demo_eval 1]))%nat.
Proof.
  split; [by vm_compute|].
  pose proof (quarantine_needs_three_trips (demo_cfg []) "shop" "prices" 0 (Health.mk [] []) _ _ _
                demo_on_ladder eq_refl (Forall_nil_2 _) demo_broken_observed) as (_ & H & _).
  apply H. left. by vm_compute.
Defined.

Lemma clean_runs_recover_witness :
  stored_state "shop" "prices" demo_broken = Quarantined
  ∧ stored_state "shop" "prices" (demo_observe 5 0 (demo_observe 4 0 demo_broken)) = Healthy.
Proof.
  split; [by vm_compute|].
  eapply (clean_runs_recover (demo_cfg []) "shop" "prices" 0 (Health.mk [] []) _ _ _
            [demo_eval 0; demo_eval 0] 5 _
            demo_on_ladder eq_refl (Forall_nil_2 _) demo_broken_observed).
  - by vm_compute.
  - eapply (observed_run _ _ _ _ _ [demo_eval 0] 4 (demo_observe 4 0 demo_broken) (λ _, 5) (demo_report 5) _ []);
      [|done|split_and!; [lia|done|apply fresh_run_compute; vm_compute; reflexivity]
       |vm_compute; reflexivity].
    eapply (observed_run _ _ _ _ _ [] 3 demo_broken (λ _, 4) (demo_report 4) _ []);
      [apply observed_nil|done
       |split_and!; [lia|done|apply fresh_run_compute; vm_compute; reflexivity]
       |vm_compute; reflexivity].
  - repeat constructor.
  - cbn. lia.
Defined.

(** A source whose pages have been gone for three runs, each eight days after the last. *)
Definition demo_dead : Health.t :=
  let step k h := fst (observe (demo_cfg ["shop/prices"]) (λ _, days (8 * k)) "shop"
                         (demo_report k) (RunEvaluation.mk Inconclusive None f64_zero [] None
                                            false Full) [] h) in
  step 2 (step 1 demo_start).

Lemma retirement_takes_dead_runs_witness :
  match source "shop/prices" demo_dead,
        observe (demo_cfg ["shop/prices"]) (λ _, days 24) "shop" (demo_report 3)
          (RunEvaluation.mk Inconclusive None f64_zero [] None false Full) [] demo_dead with
  | Some row, (h', Some v) =>
      SourceVerdict.state v = Retired ∧ "shop/prices" ∈ ["shop/prices"]
      ∧ (3 ≤ length (RetireRun.current (FetchHealth.mk 10 0 10 (Some 10%Z)) (days 24)
                     :: retire_history "shop/prices" (SourceRow.state_since row) 2
                          (Health.runs demo_dead)))%nat
  | _, _ => False
  end.
Proof.
  destruct (source "shop/prices" demo_dead) as [row|] eqn:Hs; [|by vm_compute in Hs].
  destruct (observe _ _ _ _ _ _ _) as [h' [v|]] eqn:Ho; [|by vm_compute in Ho].
  destruct (retirement_takes_dead_runs (demo_cfg ["shop/prices"]%string) _ "shop" (demo_report 3) _ _ _ row h' v Hs Ho) as [_ H].
  assert ((SourceVerdict.previous_state v, SourceVerdict.state v) = (Healthy, Retired)) as He.
  { change v with (default v (snd (h', Some v))). rewrite <- Ho. by vm_compute. }
  inversion He as [[Hp Hr]]. rewrite Hp in H. specialize (H ltac:(done)).
  destruct (H Hr) as (Hin & Hl & _). by split_and!.
Defined.
