(* ===== verification/WorkflowSpec.v ===== *)
(** * WorkflowSpec: the plan language of [crates/server/src/workflow.rs]

    The spec parser and its graph check, the join barrier and the run verdict,
    the params template and the budget envelope.  [Value::to_string] is the class
    [JsonRender] of Json.v; error messages are constructors that carry what the
    message interpolates. *)

From S2P Require Import Prelude Float64 Json.

Definition MAX_STEPS : Z := 100.
Definition ADVANCE_ROUNDS_PER_STEP : nat := 3.
Definition STEP_IDEMPOTENCY_PREFIX : string := "wf".

(** ** The plan *)

Inductive OnFailure : Type := FailFast | Continue.
#[global] Instance OnFailure_eq_dec : EqDecision OnFailure.
Proof. solve_decision. Defined.

Definition OnFailure_parse (s : string) : option OnFailure :=
  if String.eqb s "fail_fast" then Some FailFast
  else if String.eqb s "continue" then Some Continue
  else None.

Module StepSpec.
Record t : Type := mk {
  app : string; params : Json; after : list string; budget_usd : option f64;
  priority : option Z; max_attempts : option Z }.
End StepSpec.

Abbreviation steps_map := (list (string * StepSpec.t)).

Module WorkflowSpec.
Record t : Type := mk {
  steps : steps_map; budget_usd : option f64; on_failure : OnFailure }.
End WorkflowSpec.

Inductive StepState : Type := Pending | Queued | Succeeded | Failed | Cancelled | Skipped.
#[global] Instance StepState_eq_dec : EqDecision StepState.
Proof. solve_decision. Defined.

Module StepState.
Definition as_str (s : StepState) : string :=
  match s with
  | Pending => "pending"
  | Queued => "queued"
  | Succeeded => "succeeded"
  | Failed => "failed"
  | Cancelled => "cancelled"
  | Skipped => "skipped"
  end.

Definition parse (s : string) : option StepState :=
  if String.eqb s "pending" then Some Pending
  else if String.eqb s "queued" then Some Queued
  else if String.eqb s "succeeded" then Some Succeeded
  else if String.eqb s "failed" then Some Failed
  else if String.eqb s "cancelled" then Some Cancelled
  else if String.eqb s "skipped" then Some Skipped
  else None.

Definition is_open (s : StepState) : bool :=
  match s with Pending | Queued => true | _ => false end.

Definition is_bad_ending (s : StepState) : bool :=
  match s with Failed | Cancelled | Skipped => true | _ => false end.

Lemma parse_as_str s : parse (as_str s) = Some s.
Proof. by destruct s. Qed.
End StepState.

Abbreviation states_map := (list (string * StepState)).

(** ** The cycle check

    [visit] threads the set [done] and restores [path] and [on_path] on every
    return that finds nothing, so the two are passed by value.  [None] is the
    recursion bound running out, which [find_cycle_spec] shows it never does. *)

Definition visit_deps (visit : string → list string → option (option (list string) * list string))
    (steps : steps_map) : list string → list string → option (option (list string) * list string) :=
  fix deps l done :=
    match l with
    | [] => Some (None, done)
    | dep :: l =>
        match map_get dep steps with
        | None => deps l done
        | Some _ =>
            r ← visit dep done;
            match r with
            | (Some cycle, done) => Some (Some cycle, done)
            | (None, done) => deps l done
            end
        end
    end.

Fixpoint visit (fuel : nat) (steps : steps_map) (node : string) (done path on_path : list string)
    : option (option (list string) * list string) :=
  match fuel with
  | O => None
  | S fuel =>
      if bool_decide (node ∈ done) then Some (None, done)
      else if bool_decide (node ∈ on_path) then
        let start := default 0%nat (fst <$> list_find (λ n, n = node) path) in
        Some (Some (drop start path ++ [node]), done)
      else
        let on_path := node :: on_path in
        let path := path ++ [node] in
        r ← match map_get node steps with
            | None => Some (None, done)
            | Some spec =>
                visit_deps (λ dep done, visit fuel steps dep done path on_path) steps
                  (StepSpec.after spec) done
            end;
        match r with
        | (Some cycle, done) => Some (Some cycle, done)
        | (None, done) =>
            match map_get node steps with
            | Some _ => Some (None, node :: done)
            | None => Some (None, done)
            end
        end
  end.

Fixpoint find_cycle_from (fuel : nat) (steps : steps_map) (starts done : list string)
    : option (option (list string)) :=
  match starts with
  | [] => Some None
  | start :: starts =>
      r ← visit fuel steps start done [] [];
      match r with
      | (Some cycle, _) => Some (Some cycle)
      | (None, done) => find_cycle_from fuel steps starts done
      end
  end.

Definition find_cycle (steps : steps_map) : option (list string) :=
  default None (find_cycle_from (S (length steps)) steps (map_keys steps) []).

(** ** Parsing a plan *)

Inductive SpecError : Type :=
| SpecNotObject
| OnFailureUnknown (s : string)
| OnFailureNotString
| BadBudget (pointer : string)
| StepsNotObject
| NoSteps
| TooManySteps (n : Z)
| BlankStepName
| StepNotObject (name : string)
| StepWithoutApp (name : string)
| AfterAnyOf (step : string)
| AfterShape (step : string)
| AfterEntry (step : string)
| SelfDependency (name : string)
| UnknownDependency (name dep : string)
| DependencyCycle (cycle : list string)
| OverEnvelope (declared envelope : f64).

Definition after_entry (item : Json) : option string :=
  match as_str item with
  | Some s => if String.eqb (str_trim s) EmptyString then None else Some s
  | None => None
  end.

Definition parse_after (raw : option Json) (step : string) : result SpecError (list string) :=
  let entries items := collect_ok (λ item, match after_entry item with
                                           | Some s => Ok s
                                           | None => Err (AfterEntry step)
                                           end) items in
  match raw with
  | None | Some JNull => Ok []
  | Some (JArray items) => entries items
  | Some (JObject obj) =>
      if is_some (map_get "any_of" obj) then Err (AfterAnyOf step)
      else match map_get "all_of" obj with
           | Some (JArray items) => entries items
           | _ => Err (AfterShape step)
           end
  | Some _ => Err (AfterShape step)
  end.

Definition parse_budget (raw : option Json) (pointer : string) : result SpecError (option f64) :=
  match raw with
  | None | Some JNull => Ok None
  | Some v =>
      match as_f64 v with
      | Some b => if is_finite b && f64_gt b f64_zero then Ok (Some b) else Err (BadBudget pointer)
      | None => Err (BadBudget pointer)
      end
  end.

(** A field whose error is reported and whose value then defaults. *)
Definition or_report {A} (d : A) (r : result SpecError A) : list SpecError * A :=
  match r with Ok a => ([], a) | Err e => ([e], d) end.

Definition parse_on_failure (raw : option Json) : list SpecError * OnFailure :=
  match raw with
  | None | Some JNull => ([], FailFast)
  | Some (JString s) =>
      match OnFailure_parse s with
      | Some v => ([], v)
      | None => ([OnFailureUnknown s], FailFast)
      end
  | Some _ => ([OnFailureNotString], FailFast)
  end.

Definition parse_step (name : string) (raw : Json) : list SpecError * option StepSpec.t :=
  if String.eqb (str_trim name) EmptyString then ([BlankStepName], None)
  else match as_object raw with
  | None => ([StepNotObject name], None)
  | Some step_obj =>
      match map_get "app" step_obj ≫= as_str with
      | None => ([StepWithoutApp name], None)
      | Some app =>
          let params := default (JObject []) (map_get "params" step_obj) in
          let '(e1, after) := or_report [] (parse_after (map_get "after" step_obj) name) in
          let '(e2, budget_usd) :=
            or_report None (parse_budget (map_get "budget_usd" step_obj)
                              ("spec/steps/" +:+ name +:+ "/budget_usd")) in
          (e1 ++ e2,
           Some (StepSpec.mk app params after budget_usd
                   (map_get "priority" step_obj ≫= as_i64)
                   (map_get "max_attempts" step_obj ≫= as_i64)))
      end
  end.

Fixpoint parse_steps (obj : list (string * Json)) (steps : steps_map)
    : list SpecError * steps_map :=
  match obj with
  | [] => ([], steps)
  | (name, raw) :: obj =>
      let '(e, step) := parse_step name raw in
      let steps := match step with Some s => map_insert name s steps | None => steps end in
      let '(es, steps) := parse_steps obj steps in
      (e ++ es, steps)
  end.

Definition dep_errors (steps : steps_map) : list SpecError :=
  flat_map (λ kv,
    flat_map (λ dep,
      if String.eqb dep (fst kv) then [SelfDependency (fst kv)]
      else if is_some (map_get dep steps) then []
      else [UnknownDependency (fst kv) dep]) (StepSpec.after (snd kv))) steps.

Definition cycle_errors (steps : steps_map) : list SpecError :=
  match find_cycle steps with Some cycle => [DependencyCycle cycle] | None => [] end.

Definition declared_sum (steps : steps_map) : f64 :=
  f64_sum (omap (λ kv, StepSpec.budget_usd (snd kv)) steps).

Definition envelope_errors (budget_usd : option f64) (steps : steps_map) : list SpecError :=
  match budget_usd with
  | Some envelope =>
      if f64_gt (declared_sum steps) envelope
      then [OverEnvelope (declared_sum steps) envelope] else []
  | None => []
  end.

Definition count_errors (steps_obj : list (string * Json)) : list SpecError :=
  (if bool_decide (steps_obj = []) then [NoSteps] else []) ++
  (let n := Z.of_nat (length steps_obj) in if MAX_STEPS <? n then [TooManySteps n] else []).

Definition parse_spec (doc : Json) : result (list SpecError) WorkflowSpec.t :=
  match as_object doc with
  | None => Err [SpecNotObject]
  | Some obj =>
      let '(e1, on_failure) := parse_on_failure (map_get "on_failure" obj) in
      let '(e2, budget_usd) :=
        or_report None (parse_budget (map_get "budget_usd" obj) "spec/budget_usd") in
      match map_get "steps" obj ≫= as_object with
      | None => Err (e1 ++ e2 ++ [StepsNotObject])
      | Some steps_obj =>
          let '(e3, steps) := parse_steps steps_obj [] in
          let errors := e1 ++ e2 ++ count_errors steps_obj ++ e3 ++ dep_errors steps
                          ++ cycle_errors steps ++ envelope_errors budget_usd steps in
          match errors with
          | [] => Ok (WorkflowSpec.mk steps budget_usd on_failure)
          | _ => Err errors
          end
      end
  end.

(** ** The join barrier *)

Definition state_is (states : states_map) (s : StepState) (name : string) : bool :=
  bool_decide (map_get name states = Some s).
Definition ended_badly (states : states_map) (name : string) : bool :=
  match map_get name states with Some s => StepState.is_bad_ending s | None => false end.

Definition ready_steps (spec : WorkflowSpec.t) (states : states_map) : list string :=
  omap (λ kv,
    if state_is states Pending (fst kv)
       && forallb (state_is states Succeeded) (StepSpec.after (snd kv))
    then Some (fst kv) else None) (WorkflowSpec.steps spec).

Definition cascade_skips (spec : WorkflowSpec.t) (states : states_map)
    : list (string * string) :=
  match List.filter (ended_badly states) (map_keys (WorkflowSpec.steps spec)) with
  | [] => []
  | first_bad :: _ =>
      omap (λ kv,
        if state_is states Pending (fst kv) then
          match WorkflowSpec.on_failure spec with
          | FailFast =>
              Some (fst kv, "on_failure = fail_fast: step '" +:+ first_bad
                             +:+ "' ended badly, so this step never started")
          | Continue =>
              match List.filter (ended_badly states) (StepSpec.after (snd kv)) with
              | [] => None
              | blocking =>
                  Some (fst kv, "join barrier can never be satisfied: "
                                 +:+ String.concat ", " blocking +:+ " ended badly")
              end
          end
        else None) (WorkflowSpec.steps spec)
  end%string.

Definition names_in (states : states_map) (s : StepState) : list string :=
  map fst (List.filter (λ kv, bool_decide (snd kv = s)) states).

Definition run_verdict (states : states_map) : option (string * option string) :=
  if existsb (λ kv, StepState.is_open (snd kv)) states then None
  else
    let failed := names_in states Failed in
    let skipped := names_in states Skipped in
    let cancelled := names_in states Cancelled in
    let part label names :=
      match names with [] => [] | _ => [label +:+ String.concat ", " names] end in
    match failed, skipped, cancelled with
    | [], [], [] => Some ("succeeded", None)
    | [], [], _ => Some ("cancelled", Some ("cancelled: " +:+ String.concat ", " cancelled))
    | _, _, _ =>
        Some ("failed", Some (String.concat "; "
                                (part "failed: " failed ++ part "never ran: " skipped)))
    end%string.

(** ** The params template *)

Inductive TemplateError : Type :=
| Unterminated (s : string)
| UnsupportedReference (expr : string)
| NamesNoStep (expr : string)
| NotTheResult (expr step : string)
| NoResultYet (expr step : string)
| PathMiss (expr walked key : string).

Abbreviation results_map := (list (string * Json)).

(** One path segment below a value. *)
Definition step_into (cursor : Json) (key : string) : option Json :=
  match cursor with
  | JObject obj => map_get key obj
  | JArray items =>
      i ← parse_usize key;
      if i <? Z.of_nat (length items) then items !! Z.to_nat i else None
  | _ => None
  end.

Fixpoint walk (expr walked : string) (cursor : Json) (keys : list string)
    : result TemplateError Json :=
  match keys with
  | [] => Ok cursor
  | key :: keys =>
      match step_into cursor key with
      | None => Err (PathMiss expr walked key)
      | Some next => walk expr (walked +:+ "." +:+ key) next keys
      end
  end%string.

Definition resolve (expr : string) (results : results_map) : result TemplateError Json :=
  match split_on "."%char expr with
  | "steps" :: parts =>
      match parts with
      | [] => Err (NamesNoStep expr)
      | step :: parts =>
          if String.eqb step EmptyString then Err (NamesNoStep expr)
          else match parts with
          | "result" :: keys =>
              match map_get step results with
              | None => Err (NoResultYet expr step)
              | Some root => walk expr ("steps." +:+ step +:+ ".result") root keys
              end
          | _ => Err (NotTheResult expr step)
          end
      end
  | _ => Err (UnsupportedReference expr)
  end%string.

Section Templates.
Context `{JsonRender}.

Definition text_of (v : Json) : string :=
  match v with JString text => text | other => json_render other end.

(** Every round consumes an opening token, so the length of the text bounds the
    rounds. *)
Fixpoint interpolate_from (fuel : nat) (s out rest : string) (results : results_map)
    : result TemplateError Json :=
  match fuel, split_once "{{" rest with
  | S fuel, Some (before, after) =>
      match split_once "}}" after with
      | None => Err (Unterminated s)
      | Some (expr, rest) =>
          value ← resolve (str_trim expr) results;
          interpolate_from fuel s (out +:+ before +:+ text_of value) rest results
      end
  | _, _ => Ok (JString (out +:+ rest))
  end%string.

Definition interpolate (s : string) (results : results_map) : result TemplateError Json :=
  if contains "{{" s then interpolate_from (String.length s) s EmptyString s results
  else Ok (JString s).

Definition render_string (s : string) (results : results_map) : result TemplateError Json :=
  match strip_prefix "{{" s with
  | None => interpolate s results
  | Some rest =>
      match strip_suffix "}}" rest with
      | Some expr =>
          if contains "}}" expr then interpolate s results
          else resolve (str_trim expr) results
      | None => interpolate s results
      end
  end.

Fixpoint render_params (template : Json) (results : results_map)
    : result TemplateError Json :=
  match template with
  | JString s => render_string s results
  | JArray items => vs ← collect_ok (λ v, render_params v results) items; Ok (JArray vs)
  | JObject obj =>
      (fix fields (obj : list (string * Json)) (out : list (string * Json)) :=
         match obj with
         | [] => Ok (JObject out)
         | (k, v) :: obj =>
             v' ← render_params v results; fields obj (map_insert k v' out)
         end) obj []
  | other => Ok other
  end.
End Templates.

Fixpoint has_template (v : Json) : bool :=
  match v with
  | JString s => contains "{{" s
  | JArray items => existsb has_template items
  | JObject obj => existsb (λ kv, has_template (snd kv)) obj
  | _ => false
  end.

(** ** The budget envelope *)

Inductive EnvelopeError : Type := EnvelopeExhausted (envelope spent : f64).

Definition step_budget (step_budget_usd run_budget_usd : option f64) (spent_usd : f64)
    : result EnvelopeError (option f64) :=
  match run_budget_usd with
  | None => Ok step_budget_usd
  | Some envelope =>
      let remaining := f64_sub envelope (f64_max spent_usd f64_zero) in
      if negb (is_finite remaining) || f64_le remaining f64_zero
      then Err (EnvelopeExhausted envelope spent_usd)
      else Ok (Some (match step_budget_usd with
                     | Some step => f64_min step remaining
                     | None => remaining
                     end))
  end.
