(* ===== verification/PlanTheorems.v ===== *)
(** * PlanTheorems: what a plan that parses is worth

    The cycle check is exact, an accepted plan is well formed and loses no step,
    a well-formed plan never deadlocks, a template either substitutes the value
    it names or refuses, and the budget envelope. *)

From stdpp Require Import relations.
From S2P Require Import Prelude Float64 Json WorkflowSpec.

(** ** The dependency graph *)

Definition depends (steps : steps_map) (n d : string) : Prop :=
  ∃ spec, map_get n steps = Some spec ∧ d ∈ StepSpec.after spec ∧ d ∈ map_keys steps.

Definition acyclic (steps : steps_map) : Prop := ∀ n, ¬ tc (depends steps) n n.

(** Consecutive names depend on each other. *)
Fixpoint chain (steps : steps_map) (l : list string) : Prop :=
  match l with
  | n :: (d :: _) as l' => depends steps n d ∧ chain steps l'
  | _ => True
  end.

Definition is_cycle (steps : steps_map) (c : list string) : Prop :=
  ∃ n p, c = n :: p ++ [n] ∧ chain steps c.

(** The order [done] grows in: a name comes after everything it depends on. *)
Fixpoint topological (steps : steps_map) (l : list string) : Prop :=
  match l with
  | [] => True
  | n :: l => (∀ d, depends steps n d → d ∈ l) ∧ topological steps l
  end.

Section graph.
Context (steps : steps_map).

Lemma chain_snoc p n d :
  chain steps (p ++ [n]) → depends steps n d → chain steps (p ++ [n; d]).
Proof.
  induction p as [|a [|b p] IH]; cbn; [naive_solver..|].
  intros [Ha Hp] Hd. split; [done|]. by apply IH.
Qed.

Lemma chain_app_r l1 l2 : chain steps (l1 ++ l2) → chain steps l2.
Proof.
  induction l1 as [|a l1 IH]; [done|]. cbn. destruct (l1 ++ l2) eqn:E.
  - apply app_eq_nil in E as [-> ->]. done.
  - intros [_ Hc]. by apply IH.
Qed.

Lemma chain_tc n p d : chain steps (n :: p ++ [d]) → tc (depends steps) n d.
Proof.
  revert n. induction p as [|a p IH]; intros n; cbn.
  - intros [Hd _]. by apply tc_once.
  - intros [Hd Hc]. eapply tc_l; [exact Hd|]. by apply IH.
Qed.

Lemma is_cycle_not_acyclic c : is_cycle steps c → ¬ acyclic steps.
Proof. intros (n & p & -> & Hc) Ha. eapply Ha, chain_tc, Hc. Qed.

Lemma topological_closed l n d :
  topological steps l → n ∈ l → depends steps n d → d ∈ l.
Proof.
  induction l as [|a l IH]; cbn; [set_solver|]. intros [Ha Hl] Hn Hd.
  apply elem_of_cons in Hn as [->|Hn]; right; auto.
Qed.

Lemma topological_tc l n d :
  topological steps l → n ∈ l → tc (depends steps) n d → d ∈ l.
Proof.
  intros Hl Hn Htc. induction Htc as [n d Hd|n m d Hd _ IH];
    [|apply IH]; by eapply topological_closed.
Qed.

Lemma topological_no_cycle l n :
  topological steps l → n ∈ l → ¬ tc (depends steps) n n.
Proof.
  induction l as [|a l IH]; cbn; [set_solver|]. intros [Ha Hl] Hn Htc.
  assert (n ∈ l) as Hin; [|by apply (IH Hl Hin)].
  apply elem_of_cons in Hn as [->|Hn]; [|done].
  inversion Htc as [? ? Hd|? m ? Hd Htc']; subst; [by apply Ha|].
  eapply topological_tc; [done|by apply Ha|done].
Qed.

(** Among the members of a topological order that satisfy [P], one depends on
    no other. *)
Lemma topological_minimal (P : string → Prop) `{∀ n, Decision (P n)} l :
  topological steps l → Exists P l →
  ∃ m, m ∈ l ∧ P m ∧ ∀ d, depends steps m d → ¬ P d.
Proof.
  induction l as [|a l IH]; intros Hl He; [by inversion He|].
  cbn in Hl. destruct Hl as [Ha Hl]. destruct (decide (Exists P l)) as [Hin|Hni].
  - destruct (IH Hl Hin) as (m & Hm & HP & Hmin). exists m. set_solver.
  - inversion He as [? ? HP|]; subst; [|done]. exists a. split_and!; [set_solver|done|].
    intros d Hd HPd. apply Hni, Exists_exists. eauto.
Qed.

(** ** The cycle check is exact *)

Definition path_to (path : list string) (node : string) : Prop :=
  NoDup path ∧ (∀ n, n ∈ path → n ∈ map_keys steps) ∧ chain steps (path ++ [node]).

Lemma path_to_length path node : path_to path node → (length path ≤ length steps)%nat.
Proof.
  intros (Hnd & Hsub & _). unfold map_keys in Hsub.
  rewrite <- (List.length_map fst steps). by apply submseteq_length, NoDup_submseteq.
Qed.

(** What a visit that must reach [goal] leaves behind. *)
Definition visited (goal done : list string)
    (o : option (option (list string) * list string)) : Prop :=
  match o with
  | None => False
  | Some (Some c, _) => is_cycle steps c
  | Some (None, done') =>
      topological steps done' ∧ done ⊆ done' ∧
      ∀ n, n ∈ goal → n ∈ map_keys steps → n ∈ done'
  end.

Lemma visit_deps_visited v l done :
  (∀ dep done, dep ∈ l → dep ∈ map_keys steps → topological steps done →
     visited [dep] done (v dep done)) →
  topological steps done → visited l done (visit_deps v steps l done).
Proof.
  revert done. induction l as [|dep l IH]; intros done Hv Hd; cbn; [set_solver|].
  assert (∀ done, topological steps done →
    visited l done (visit_deps v steps l done)) as IH' by (intros; apply IH; set_solver).
  destruct (map_get dep steps) as [spec|] eqn:E.
  - assert (dep ∈ map_keys steps) as Hk by (apply map_get_is_Some; eauto).
    specialize (Hv dep done ltac:(set_solver) Hk Hd).
    destruct (v dep done) as [[[c|] done1]|]; cbn in *; try done.
    destruct Hv as (Ht & Hsub & Hin). specialize (IH' done1 Ht). unfold visited in *.
    fold (visit_deps v steps). destruct (visit_deps v steps l done1) as [[[c|] done2]|];
      [done| |done]. set_solver.
  - apply map_get_None in E. specialize (IH' done Hd). unfold visited in *.
    fold (visit_deps v steps). destruct (visit_deps v steps l done) as [[[c|] done2]|];
      [done| |done]. set_solver.
Qed.

Lemma visit_visited fuel node done path on_path :
  (length steps < fuel + length path)%nat →
  node ∈ map_keys steps → path_to path node → (∀ n, n ∈ on_path ↔ n ∈ path) →
  topological steps done → visited [node] done (visit fuel steps node done path on_path).
Proof.
  revert node done path on_path.
  induction fuel as [|fuel IH]; intros node done path on_path Hf Hk Hp Hon Ht.
  { apply path_to_length in Hp. lia. }
  cbn [visit]. case_bool_decide as Hdone.
  { split_and!; [done..|]. by intros n ->%list_elem_of_singleton. }
  case_bool_decide as Hpath.
  { apply Hon in Hpath. destruct Hp as (_ & _ & Hc).
    destruct (list_find_elem_of (λ n, n = node) path node Hpath eq_refl) as [[j x] Hj].
    rewrite Hj. cbn. apply list_find_Some in Hj as (Hj & -> & _).
    exists node, (drop (S j) path). rewrite (drop_S _ _ _ Hj). split; [done|].
    rewrite <- (take_drop j path), <- app_assoc in Hc. apply chain_app_r in Hc.
    by rewrite (drop_S _ _ _ Hj) in Hc. }
  pose proof Hk as (spec & Hspec)%map_get_is_Some. rewrite Hspec.
  assert (visited (StepSpec.after spec) done
    (visit_deps (λ dep done, visit fuel steps dep done (path ++ [node]) (node :: on_path))
       steps (StepSpec.after spec) done)) as Hv.
  { apply visit_deps_visited; [|done]. intros dep done' Hdep Hdk Ht'.
    destruct Hp as (Hnd & Hsub & Hc). apply IH; try done.
    - rewrite length_app. cbn. lia.
    - split_and!.
      + apply NoDup_app. split_and!; [done| |apply NoDup_singleton].
        intros n Hn ->%list_elem_of_singleton. by apply Hpath, Hon.
      + intros n [Hn| ->%list_elem_of_singleton]%elem_of_app; auto.
      + rewrite <- app_assoc. apply chain_snoc; [done|]. by exists spec.
    - intros n. rewrite elem_of_cons, elem_of_app, list_elem_of_singleton, Hon. tauto. }
  destruct (visit_deps _ _ _ _) as [[[c|] done']|]; cbn in *; try done.
  destruct Hv as (Ht' & Hsub & Hin). split_and!; [|done| |].
  - intros d (spec' & Hspec' & Hd & Hdk). simplify_eq. auto.
  - intros n Hn. right. auto.
  - intros n ->%list_elem_of_singleton _. left.
Qed.

Lemma find_cycle_from_visited starts done :
  (∀ n, n ∈ starts → n ∈ map_keys steps) → topological steps done →
  match find_cycle_from (S (length steps)) steps starts done with
  | None => False
  | Some (Some c) => is_cycle steps c
  | Some None => ∃ l, topological steps l ∧ done ⊆ l ∧ starts ⊆ l
  end.
Proof.
  revert done. induction starts as [|n starts IH]; intros done Hk Ht; [cbn; set_solver|].
  assert (path_to [] n) as Hp by (split_and!; [constructor|set_solver|done]).
  pose proof (visit_visited (S (length steps)) n done [] [] ltac:(cbn; lia)
    (Hk n ltac:(set_solver)) Hp ltac:(done) Ht) as Hv.
  cbn [find_cycle_from]. destruct (visit _ _ _ _ _ _) as [[[c|] done']|]; cbn in *; try done.
  destruct Hv as (Ht' & Hsub & Hin). specialize (IH done' ltac:(set_solver) Ht').
  destruct (find_cycle_from _ _ _ _) as [[c|]|]; try done.
  destruct IH as (l & Hl & H1 & H2). exists l. set_solver.
Qed.

Lemma find_cycle_None :
  find_cycle steps = None → ∃ l, topological steps l ∧ ∀ n, n ∈ map_keys steps → n ∈ l.
Proof.
  unfold find_cycle. intros E.
  pose proof (find_cycle_from_visited (map_keys steps) [] ltac:(done) I) as Hv.
  destruct (find_cycle_from _ _ _ _) as [[c|]|]; try done.
  destruct Hv as (l & Hl & _ & H2). by exists l.
Qed.

Lemma find_cycle_None_acyclic : find_cycle steps = None → acyclic steps.
Proof.
  intros (l & Hl & Hin)%find_cycle_None n Htc.
  eapply topological_no_cycle; [exact Hl| |exact Htc]. apply Hin.
  inversion Htc as [? ? (spec & Hs & _)|? ? ? (spec & Hs & _)]; subst;
    apply map_get_is_Some; eauto.
Qed.

Lemma find_cycle_Some c : find_cycle steps = Some c → is_cycle steps c.
Proof.
  unfold find_cycle. intros E.
  pose proof (find_cycle_from_visited (map_keys steps) [] ltac:(done) I) as Hv.
  destruct (find_cycle_from _ _ _ _) as [[c'|]|]; cbn in *; by simplify_eq.
Qed.

(** The cycle check is exact. It returns nothing exactly when no step depends
    on itself through any number of barriers, and the path it returns is a real
    cycle: each name waits on the next and the last is the first. The depth it
    recurses to never exceeds the number of steps. *)
Theorem find_cycle_exact :
  (find_cycle steps = None ↔ acyclic steps) ∧
  (∀ c, find_cycle steps = Some c → is_cycle steps c) ∧
  find_cycle_from (S (length steps)) steps (map_keys steps) [] ≠ None.
Proof.
  split_and!.
  - split; [apply find_cycle_None_acyclic|]. intros Ha.
    destruct (find_cycle steps) as [c|] eqn:E; [|done].
    by apply find_cycle_Some, is_cycle_not_acyclic in E.
  - apply find_cycle_Some.
  - pose proof (find_cycle_from_visited (map_keys steps) [] ltac:(done) I) as Hv.
    by intros E; rewrite E in Hv.
Qed.
End graph.

(** ** What an accepted plan is *)

Definition good_budget (b : option f64) : Prop :=
  ∀ x, b = Some x → is_finite x = true ∧ f64_gt x f64_zero = true.

Record well_formed (spec : WorkflowSpec.t) : Prop := {
  wf_nonempty : WorkflowSpec.steps spec ≠ [];
  wf_bounded : Z.of_nat (length (WorkflowSpec.steps spec)) ≤ MAX_STEPS;
  wf_sorted : StronglySorted (λ a b, String.ltb a b = true) (map_keys (WorkflowSpec.steps spec));
  wf_steps : ∀ name step, map_get name (WorkflowSpec.steps spec) = Some step →
    str_trim name ≠ EmptyString ∧ good_budget (StepSpec.budget_usd step) ∧
    ∀ dep, dep ∈ StepSpec.after step → dep ∈ map_keys (WorkflowSpec.steps spec) ∧ dep ≠ name;
  wf_acyclic : acyclic (WorkflowSpec.steps spec);
  wf_budget : good_budget (WorkflowSpec.budget_usd spec);
  wf_envelope : ∀ envelope, WorkflowSpec.budget_usd spec = Some envelope →
    f64_gt (declared_sum (WorkflowSpec.steps spec)) envelope = false;
}.

Lemma parse_budget_good raw pointer b : parse_budget raw pointer = Ok b → good_budget b.
Proof.
  unfold parse_budget. intros H x ->. repeat case_match; simplify_eq. by apply andb_true_iff.
Qed.

Lemma parse_step_clean name raw step :
  parse_step name raw = ([], step) →
  ∃ s, step = Some s ∧ str_trim name ≠ EmptyString ∧ good_budget (StepSpec.budget_usd s).
Proof.
  unfold parse_step. destruct (String.eqb_spec (str_trim name) EmptyString) as [|Hname]; [done|].
  destruct (as_object raw) as [obj|]; [|done]. destruct (map_get "app" obj ≫= as_str); [|done].
  destruct (parse_after _ _) as [after|]; cbn; [|by case_match].
  destruct (parse_budget _ _) as [b|] eqn:Eb; [|done]. intros [= <-].
  eexists. split; [done|]. split; [done|]. by eapply parse_budget_good.
Qed.

Lemma length_map_insert {V} k (v : V) m : (length (map_insert k v m) ≤ S (length m))%nat.
Proof. induction m as [|[k' v'] m IH]; cbn; [done|]. case_match; cbn; lia. Qed.

Lemma parse_steps_clean obj m m' :
  parse_steps obj m = ([], m') →
  (∀ k raw, (k, raw) ∈ obj → fst (parse_step k raw) = [] ∧ k ∈ map_keys m') ∧
  (∀ k, k ∈ map_keys m → k ∈ map_keys m') ∧
  (∀ k s, map_get k m' = Some s →
     map_get k m = Some s ∨ ∃ raw, (k, raw) ∈ obj ∧ parse_step k raw = ([], Some s)) ∧
  (StronglySorted (λ a b, String.ltb a b = true) (map_keys m) →
   StronglySorted (λ a b, String.ltb a b = true) (map_keys m')) ∧
  (length m' ≤ length obj + length m)%nat.
Proof.
  revert m. induction obj as [|[k raw] obj IH]; intros m; cbn.
  { intros [= <-]. split_and!; [set_solver|done|auto|done|lia]. }
  destruct (parse_step k raw) as [e step] eqn:Es.
  destruct (parse_steps obj _) as [es m1] eqn:E. intros [= [-> ->]%app_eq_nil <-].
  destruct (parse_step_clean _ _ _ Es) as (s & -> & _ & _).
  destruct (IH _ E) as (H1 & H2 & H3 & H4 & H5). split_and!.
  - intros k' raw' [[= -> ->]|Hin]%elem_of_cons; [|by apply H1].
    split; [by rewrite Es|]. apply H2, elem_of_keys_insert. by left.
  - intros k' Hk. apply H2, elem_of_keys_insert. by right.
  - intros k' s' [Hs|(raw' & Hin & Hp)]%H3; [|right; exists raw'; set_solver].
    rewrite map_get_insert in Hs. destruct (String.eqb_spec k k') as [->|]; [|by left].
    simplify_eq. right. exists raw. set_solver.
  - intros Hs. by apply H4, sorted_keys_insert.
  - pose proof (length_map_insert k s m). lia.
Qed.

Lemma dep_errors_nil steps name step dep :
  dep_errors steps = [] → map_get name steps = Some step → dep ∈ StepSpec.after step →
  dep ∈ map_keys steps ∧ dep ≠ name.
Proof.
  intros He Hs Hd. apply map_get_Some_elem in Hs.
  assert (∀ e, e ∉ dep_errors steps) as Hno by (rewrite He; set_solver).
  unfold dep_errors in Hno.
  assert (∀ e, e ∈ (if String.eqb dep name then [SelfDependency name]
                    else if is_some (map_get dep steps) then []
                    else [UnknownDependency name dep]) → False) as Hdep.
  { intros e Hin. apply (Hno e). apply list_elem_of_In, in_flat_map. exists (name, step).
    split; [by apply list_elem_of_In|]. apply in_flat_map. exists dep.
    split; by apply list_elem_of_In. }
  destruct (String.eqb_spec dep name) as [->|Hne]; [exfalso; eapply Hdep; by left|].
  split; [|done]. apply map_get_is_Some, is_some_true.
  destruct (is_some (map_get dep steps)); [done|]. exfalso. eapply Hdep. by left.
Qed.

Lemma parse_spec_accepts doc spec :
  parse_spec doc = Ok spec →
  well_formed spec ∧
  ∃ obj entries, doc = JObject obj ∧ map_get "steps" obj = Some (JObject entries) ∧
    (∀ name raw, (name, raw) ∈ entries → name ∈ map_keys (WorkflowSpec.steps spec)) ∧
    ∀ name step, map_get name (WorkflowSpec.steps spec) = Some step →
      ∃ raw, (name, raw) ∈ entries ∧ parse_step name raw = ([], Some step).
Proof.
  unfold parse_spec. destruct doc as [| | | | |obj]; try done. cbn [as_object].
  destruct (parse_on_failure _) as [e1 on_failure].
  destruct (or_report _ _) as [e2 budget] eqn:E2.
  destruct (map_get "steps" obj) as [[| | | | |entries]|] eqn:Es; try done. cbn.
  destruct (parse_steps entries []) as [e3 steps] eqn:E3.
  destruct (e1 ++ e2 ++ _) eqn:Eall; [|done]. intros [= <-].
  apply app_eq_nil in Eall as [-> Eall]. apply app_eq_nil in Eall as [-> Eall].
  apply app_eq_nil in Eall as [Ec Eall]. apply app_eq_nil in Eall as [-> Eall].
  apply app_eq_nil in Eall as [Ed Eall]. apply app_eq_nil in Eall as [Ey Ee].
  destruct (parse_steps_clean _ _ _ E3) as (H1 & _ & H3 & H4 & H5).
  unfold count_errors in Ec. apply app_eq_nil in Ec as [Ec1 Ec2].
  case_bool_decide; [done|]. cbn in Ec2. case_match; [done|]. breflect.
  assert (∀ name step, map_get name steps = Some step →
    ∃ raw, (name, raw) ∈ entries ∧ parse_step name raw = ([], Some step)) as Hread.
  { by intros name step [|]%H3. }
  split; [constructor; cbn|].
  - intros ->. destruct entries as [|[k raw] entries]; [done|].
    destruct (H1 k raw ltac:(left)) as [_ Hin]. by apply not_elem_of_nil in Hin.
  - cbn in H5. lia.
  - apply H4. constructor.
  - intros name step Hs. destruct (Hread _ _ Hs) as (raw & _ & Hp).
    destruct (parse_step_clean _ _ _ Hp) as (s & [= <-] & Hn & Hb). split_and!; try done.
    intros dep Hd. by eapply dep_errors_nil.
  - apply find_cycle_None_acyclic. unfold cycle_errors in Ey. by case_match.
  - destruct (parse_budget _ _) eqn:Eb; simplify_eq/=. by eapply parse_budget_good.
  - intros envelope ->. unfold envelope_errors in Ee. by case_match.
  - exists obj, entries. split_and!; try done. intros name raw Hin. by eapply H1.
Qed.

Lemma parse_spec_refuses doc errors : parse_spec doc = Err errors → errors ≠ [].
Proof.
  unfold parse_spec. destruct (as_object doc) as [obj|]; [|by intros [= <-]].
  destruct (parse_on_failure _) as [e1 on_failure], (or_report _ _) as [e2 budget].
  destruct (map_get "steps" obj ≫= as_object) as [entries|].
  - destruct (parse_steps entries []) as [e3 steps].
    destruct (e1 ++ e2 ++ _) eqn:E; [done|]. by intros [= <-].
  - intros [= <-] [_ [_ [=]]%app_eq_nil]%app_eq_nil.
Qed.

(** C38: A plan is either accepted well formed or refused with at least one error.
    Accepted means: between one and a hundred steps, every step named and read
    without error from the entry of that name, no entry dropped, every barrier
    naming another step of the plan, no dependency cycle, every budget a positive
    finite number, and the declared step budgets within the envelope. *)
Theorem parse_spec_well_formed doc :
  match parse_spec doc with
  | Ok spec =>
      well_formed spec ∧
      ∃ obj entries, doc = JObject obj ∧ map_get "steps" obj = Some (JObject entries) ∧
        (∀ name raw, (name, raw) ∈ entries → name ∈ map_keys (WorkflowSpec.steps spec)) ∧
        ∀ name step, map_get name (WorkflowSpec.steps spec) = Some step →
          ∃ raw, (name, raw) ∈ entries ∧ parse_step name raw = ([], Some step)
  | Err errors => errors ≠ []
  end.
Proof.
  destruct (parse_spec doc) as [spec|errors] eqn:E;
    [by apply parse_spec_accepts|by eapply parse_spec_refuses].
Qed.

(** ** The barrier never deadlocks *)

Section barrier.
Context (spec : WorkflowSpec.t) (states : states_map).
Hypothesis Hwf : well_formed spec.
Hypothesis Hcover : ∀ n, n ∈ map_keys states ↔ n ∈ map_keys (WorkflowSpec.steps spec).

Lemma elem_of_steps n step :
  (n, step) ∈ WorkflowSpec.steps spec ↔ map_get n (WorkflowSpec.steps spec) = Some step.
Proof.
  split; [|apply map_get_Some_elem].
  apply map_get_elem, sorted_NoDup_keys, wf_sorted, Hwf.
Qed.

Lemma elem_of_ready n :
  n ∈ ready_steps spec states ↔
  map_get n states = Some Pending ∧
  ∃ step, map_get n (WorkflowSpec.steps spec) = Some step ∧
    ∀ dep, dep ∈ StepSpec.after step → map_get dep states = Some Succeeded.
Proof.
  unfold ready_steps, state_is. rewrite list_elem_of_omap. split.
  - intros ([n' step] & Hin & Hb). cbn in Hb. case_match eqn:E; [|done]. simplify_eq.
    apply andb_true_iff in E as [Hp Ha]. apply bool_decide_eq_true in Hp.
    split; [done|]. exists step. split; [by apply elem_of_steps|]. intros dep Hd.
    rewrite forallb_forall in Ha. apply list_elem_of_In, Ha in Hd.
    by apply bool_decide_eq_true in Hd.
  - intros (Hp & step & Hs & Ha). exists (n, step). split; [by apply elem_of_steps|]. cbn.
    rewrite bool_decide_eq_true_2 by done. cbn. rewrite (proj2 (forallb_forall _ _)); [done|].
    intros dep Hd. apply bool_decide_eq_true, Ha. by apply list_elem_of_In.
Qed.

(** A pending step one of whose barrier names ended badly is skipped now. *)
Lemma blocked_step_skipped n step dep :
  map_get n (WorkflowSpec.steps spec) = Some step → map_get n states = Some Pending →
  dep ∈ StepSpec.after step → ended_badly states dep = true →
  cascade_skips spec states ≠ [].
Proof.
  intros Hs Hp Hd Hb. unfold cascade_skips.
  assert (dep ∈ List.filter (ended_badly states) (map_keys (WorkflowSpec.steps spec))) as Hbad.
  { apply list_elem_of_In, filter_In. split; [|done]. apply list_elem_of_In.
    eapply wf_steps in Hs as (_ & _ & Hs); [|done]. by apply Hs. }
  destruct (List.filter _ (map_keys _)) as [|bad rest]; [by apply not_elem_of_nil in Hbad|].
  clear Hbad. intros Hnil. apply elem_of_steps in Hs.
  assert (∀ x, x ∉ @nil (string * string)) as Hno by (intros x; apply not_elem_of_nil).
  rewrite <- Hnil in Hno. assert (dep ∈ List.filter (ended_badly states) (StepSpec.after step))
    as Hbl by (apply list_elem_of_In, filter_In; by rewrite <- list_elem_of_In).
  destruct (WorkflowSpec.on_failure spec) eqn:Ef;
    [|destruct (List.filter _ (StepSpec.after step)) as [|b bs] eqn:El;
      [by apply not_elem_of_nil in Hbl|]];
    eapply Hno; apply list_elem_of_omap; exists (n, step); (split; [exact Hs|]); cbn;
    unfold state_is; rewrite bool_decide_eq_true_2 by done; [done|].
  by rewrite El.
Qed.

Lemma barrier_progress n :
  (∀ n, map_get n states ≠ Some Queued) → map_get n states = Some Pending →
  ready_steps spec states ≠ [] ∨ cascade_skips spec states ≠ [].
Proof.
  intros Hq Hn. destruct (find_cycle (WorkflowSpec.steps spec)) as [c|] eqn:Ec.
  { by apply find_cycle_Some, is_cycle_not_acyclic in Ec; destruct Hwf. }
  destruct (find_cycle_None _ Ec) as (l & Hl & Hkeys).
  destruct (topological_minimal (WorkflowSpec.steps spec)
    (λ n, map_get n states = Some Pending) l Hl) as (m & Hm & Hmp & Hmin).
  { apply Exists_exists. exists n. split; [|done]. apply Hkeys, Hcover, map_get_is_Some. eauto. }
  assert (m ∈ map_keys (WorkflowSpec.steps spec)) as (step & Hstep)%map_get_is_Some.
  { apply Hcover, map_get_is_Some. eauto. }
  destruct (wf_steps _ Hwf _ _ Hstep) as (_ & _ & Hdeps).
  destruct (decide (Forall (λ dep, map_get dep states = Some Succeeded) (StepSpec.after step)))
    as [Ha|Ha].
  - left. intros Hnil. apply (not_elem_of_nil m). rewrite <- Hnil. apply elem_of_ready.
    split; [done|]. exists step. split; [done|]. by apply Forall_forall.
  - right. apply not_Forall_Exists, Exists_exists in Ha as (dep & Hd & Hns); [|apply _].
    destruct (Hdeps dep Hd) as [Hk _].
    assert (is_Some (map_get dep states)) as [s Hs] by by apply map_get_is_Some, Hcover.
    eapply blocked_step_skipped; [done..|]. unfold ended_badly. rewrite Hs.
    specialize (Hmin dep ltac:(by exists step)). specialize (Hq dep). by destruct s.
Qed.
End barrier.

Lemma run_verdict_None states :
  run_verdict states = None → ∃ n s, (n, s) ∈ states ∧ StepState.is_open s = true.
Proof.
  unfold run_verdict. case_match eqn:E; [|by repeat case_match]. intros _.
  apply existsb_exists in E as ([n s] & Hin & Hs). exists n, s. by rewrite list_elem_of_In.
Qed.

Lemma names_in_nil states s : names_in states s = [] ↔ ∀ n, (n, s) ∉ states.
Proof.
  unfold names_in. split.
  - intros E n Hin. apply map_eq_nil in E. apply (not_elem_of_nil (n, s)). rewrite <- E.
    apply list_elem_of_In, filter_In. rewrite <- list_elem_of_In.
    split; [done|]. by apply bool_decide_eq_true.
  - intros Hno. destruct (List.filter _ states) as [|[n s'] l] eqn:E; [done|].
    assert ((n, s') ∈ List.filter (λ kv, bool_decide (snd kv = s)) states) as Hin
      by (rewrite E; left).
    apply list_elem_of_In, filter_In in Hin as [Hin Hs]. cbn in Hs.
    apply bool_decide_eq_true in Hs as ->. apply list_elem_of_In in Hin. by apply Hno in Hin.
Qed.

Lemma run_verdict_Some states verdict err :
  NoDup (map_keys states) → run_verdict states = Some (verdict, err) →
  (∀ n s, map_get n states = Some s → StepState.is_open s = false) ∧
  (verdict = "succeeded"%string ↔ ∀ n s, map_get n states = Some s → s = Succeeded).
Proof.
  intros Hnd. unfold run_verdict. destruct (existsb _ states) eqn:Eo; [done|]. intros Hv.
  assert (∀ n s, map_get n states = Some s → StepState.is_open s = false) as Hclosed.
  { intros n s Hs. apply map_get_Some_elem, list_elem_of_In in Hs.
    destruct (StepState.is_open s) eqn:Es; [|done]. exfalso.
    rewrite (proj2 (existsb_exists _ _)) in Eo; [done|]. by exists (n, s). }
  split; [done|].
  assert (verdict = "succeeded"%string ↔ names_in states Failed = [] ∧
            names_in states Skipped = [] ∧ names_in states Cancelled = []) as ->.
  { destruct (names_in states Failed), (names_in states Skipped), (names_in states Cancelled);
      injection Hv as <- <-; naive_solver. }
  rewrite !names_in_nil. split.
  - intros (Hf & Hs & Hc) n s Hn. specialize (Hclosed _ _ Hn). apply map_get_Some_elem in Hn.
    destruct s; [done..| | |]; exfalso; naive_solver.
  - intros Hall. split_and!; intros n Hin; apply map_get_elem in Hin; try done;
      by apply Hall in Hin.
Qed.

(** C39: The barrier never deadlocks. Whenever a run of a well-formed plan has no
    step in flight, either its verdict is decided, or some step is ready, or some
    step is to be skipped: the advance loop always has a move. A step is ready
    exactly when it is pending and everything it waits for has succeeded, and the
    verdict is [succeeded] exactly when every step is. *)
Theorem barrier_never_deadlocks spec states
    (Hwf : well_formed spec)
    (Hnd : NoDup (map_keys states))
    (Hcover : ∀ n, n ∈ map_keys states ↔ n ∈ map_keys (WorkflowSpec.steps spec)) :
  (∀ n, n ∈ ready_steps spec states ↔
     map_get n states = Some Pending ∧
     ∃ step, map_get n (WorkflowSpec.steps spec) = Some step ∧
       ∀ dep, dep ∈ StepSpec.after step → map_get dep states = Some Succeeded) ∧
  match run_verdict states with
  | None =>
      (∃ n, map_get n states = Some Queued) ∨
      ready_steps spec states ≠ [] ∨ cascade_skips spec states ≠ []
  | Some (verdict, _) =>
      (∀ n s, map_get n states = Some s → StepState.is_open s = false) ∧
      (verdict = "succeeded"%string ↔ ∀ n s, map_get n states = Some s → s = Succeeded)
  end.
Proof.
  split; [by apply elem_of_ready|].
  destruct (run_verdict states) as [[verdict err]|] eqn:E.
  - by eapply run_verdict_Some.
  - apply run_verdict_None in E as (n & s & Hin & Hopen).
    apply map_get_elem in Hin; [|done].
    destruct (decide (Exists (λ n, map_get n states = Some Queued) (map_keys states))) as [He|He].
    { left. apply Exists_exists in He as (m & _ & Hm). by exists m. }
    right. assert (∀ n, map_get n states ≠ Some Queued) as Hq.
    { intros m Hm. apply He, Exists_exists. exists m. split; [|done].
      apply map_get_is_Some. eauto. }
    apply (barrier_progress spec states Hwf Hcover n); [done|].
    destruct s; try done. by apply Hq in Hin.
Qed.

(** A diamond: [d] joins [b] and [c], which both read [a]. *)
Definition diamond : Json :=
  let step fields := JObject (("app", JString "scrape") :: fields)%string in
  let names l := JArray (map JString l) in
  JObject
    [("on_failure", JString "continue");
     ("steps", JObject
        [("a", step []); ("b", JObject [("after", names ["a"]); ("app", JString "scrape")]);
         ("c", JObject [("after", names ["a"]); ("app", JString "scrape")]);
         ("d", JObject [("after", JObject [("all_of", names ["b"; "c"])]);
                        ("app", JString "scrape")])])]%string.

Definition diamond_plan : WorkflowSpec.t :=
  match parse_spec diamond with
  | Ok spec => spec
  | Err _ => WorkflowSpec.mk [] None FailFast
  end.

Lemma diamond_well_formed : well_formed diamond_plan.
Proof. eapply (parse_spec_accepts diamond). reflexivity. Qed.

Lemma barrier_never_deadlocks_witness :
  let states := [("a", Succeeded); ("b", Failed); ("c", Succeeded); ("d", Pending)]%string in
  run_verdict states = None ∧ ready_steps diamond_plan states = [] ∧
  ((∃ n, map_get n states = Some Queued) ∨
   ready_steps diamond_plan states ≠ [] ∨ cascade_skips diamond_plan states ≠ []).
Proof.
  intros states. split; [reflexivity|]. split; [reflexivity|].
  apply (barrier_never_deadlocks diamond_plan states diamond_well_formed); cbn; [|done].
  apply (bool_decide_unpack _). vm_compute. exact I.
Defined.

(** ** The budget envelope and the params template *)

(** ** The envelope *)

Definition remaining (envelope spent : f64) : f64 := f64_sub envelope (f64_max spent f64_zero).

(** What a step's job may spend. A run with an envelope never grants a step
    more than what is left of it, nor more than the step's own cap, and grants
    nothing once what is left is not a positive finite amount; a run without an
    envelope passes the step's own budget through. The guard against a corrupted
    total does not hold: a NaN total reads as nothing spent and grants the whole
    envelope. And the clamp is against what is already spent, not against what other
    steps were granted: two steps started in the same round are each granted the
    whole remainder. *)
Theorem step_budget_clamps step run spent :
  match step_budget step run spent with
  | Ok None => run = None ∧ step = None
  | Ok (Some granted) =>
      (run = None ∧ step = Some granted) ∨
      ∃ envelope, run = Some envelope ∧
        is_finite (remaining envelope spent) = true ∧
        f64_gt (remaining envelope spent) f64_zero = true ∧
        f64_le granted (remaining envelope spent) = true ∧
        ∀ cap, step = Some cap → is_nan cap = false → f64_le granted cap = true
  | Err _ =>
      ∃ envelope, run = Some envelope ∧
        (is_finite (remaining envelope spent) = false ∨
         f64_gt (remaining envelope spent) f64_zero = false)
  end ∧
  (∀ envelope, is_finite envelope = true → f64_gt envelope f64_zero = true →
     step_budget None (Some envelope) S754_nan = Ok (Some envelope)) ∧
  (∀ envelope granted, step_budget None (Some envelope) spent = Ok (Some granted) →
     granted = remaining envelope spent).
Proof.
  split_and!.
  - unfold step_budget. destruct run as [envelope|]; [|destruct step; auto].
    fold (remaining envelope spent). destruct (is_finite (remaining envelope spent)) eqn:Ef; cbn.
    2:{ eauto. }
    destruct (f64_le (remaining envelope spent) f64_zero) eqn:El; cbn.
    { exists envelope. split; [done|]. right. by apply f64_gt_le. }
    assert (is_nan (remaining envelope spent) = false) as Hn by by destruct (remaining _ _).
    right. exists envelope. rewrite (f64_gt_not_le _ _ Ef El) by done. split_and!; try done.
    + destruct step; [by apply f64_min_le_r|by apply f64_le_refl].
    + intros cap -> Hcap. by apply f64_min_le_l.
  - intros envelope Hf Hg. unfold step_budget. by destruct envelope as [| | |[] m e].
  - intros envelope granted. unfold step_budget. case_match; [done|]. by intros [= <-].
Qed.

(** ** Templates *)

Section json_induction.
Context (P : Json → Prop).
Hypothesis Hnull : P JNull.
Hypothesis Hbool : ∀ b, P (JBool b).
Hypothesis Hnumber : ∀ n, P (JNumber n).
Hypothesis Hstring : ∀ s, P (JString s).
Hypothesis Harray : ∀ items, Forall P items → P (JArray items).
Hypothesis Hobject : ∀ fields, Forall (λ kv, P (snd kv)) fields → P (JObject fields).

Fixpoint Json_nested_ind (v : Json) : P v :=
  match v with
  | JNull => Hnull
  | JBool b => Hbool b
  | JNumber n => Hnumber n
  | JString s => Hstring s
  | JArray items =>
      Harray items ((fix all (l : list Json) : Forall P l :=
        match l with
        | [] => Forall_nil_2 P
        | v :: l => Forall_cons_2 P v l (Json_nested_ind v) (all l)
        end) items)
  | JObject fields =>
      Hobject fields ((fix all (l : list (string * Json)) : Forall (λ kv, P (snd kv)) l :=
        match l with
        | [] => Forall_nil_2 _
        | kv :: l => Forall_cons_2 (λ kv, P (snd kv)) kv l (Json_nested_ind (snd kv)) (all l)
        end) fields)
  end.
End json_induction.

(** Every object of the value lists its keys as a [BTreeMap] does. *)
Fixpoint keys_sorted (v : Json) : Prop :=
  match v with
  | JArray items => foldr (λ v rest, keys_sorted v ∧ rest) True items
  | JObject fields =>
      StronglySorted (λ a b, String.ltb a b = true) (map_keys fields) ∧
      foldr (λ kv rest, keys_sorted (snd kv) ∧ rest) True fields
  | _ => True
  end.

Lemma map_insert_last {V} k (v : V) m :
  (∀ k', k' ∈ map_keys m → String.ltb k' k = true) → map_insert k v m = m ++ [(k, v)].
Proof.
  induction m as [|[k' v'] m IH]; intros Hlt; [done|]. cbn.
  assert (String.compare k k' = Gt) as ->.
  { rewrite String.compare_antisym. specialize (Hlt k' ltac:(left)). unfold String.ltb in Hlt.
    by destruct (String.compare k' k). }
  f_equal. apply IH. intros k0 Hk. apply Hlt. by right.
Qed.

Section rendering.
Context `{JsonRender} (results : results_map).

Lemma render_string_plain s :
  contains "{{" s = false → render_string s results = Ok (JString s).
Proof.
  intros Hc. unfold render_string, interpolate. rewrite Hc.
  destruct (strip_prefix "{{" s) as [rest|] eqn:E; [|done].
  unfold contains in Hc. destruct s as [|a s]; [done|].
  cbn [split_once] in Hc. by rewrite E in Hc.
Qed.

Lemma render_plain v :
  keys_sorted v → has_template v = false → render_params v results = Ok v.
Proof.
  induction v as [|b|n|s|items IH|fields IH] using Json_nested_ind; intros Hs Ht; try done.
  - by apply render_string_plain.
  - cbn in *. assert (collect_ok (λ v, render_params v results) items = Ok items) as ->; [|done].
    induction IH as [|v items Hv _ IHl]; [done|]. cbn in *.
    apply orb_false_iff in Ht as [Ht1 Ht2]. destruct Hs as [Hs1 Hs2].
    rewrite Hv by done. cbn. by rewrite IHl.
  - cbn in *. destruct Hs as [Hsort Hs]. change fields with ([] ++ fields) at 2.
    change fields with ([] ++ fields) in Hsort. generalize dependent (@nil (string * Json)).
    induction IH as [|[k v] fields Hv _ IHl]; intros out Hsort; [by rewrite app_nil_r|].
    cbn in *. apply orb_false_iff in Ht as [Ht1 Ht2]. destruct Hs as [Hs1 Hs2].
    rewrite Hv by done. cbn. rewrite map_insert_last.
    + rewrite (IHl Hs2 Ht2 (out ++ [(k, v)])); by rewrite <- app_assoc.
    + intros k' Hk'. unfold map_keys in Hsort. rewrite map_app in Hsort.
      apply StronglySorted_app in Hsort as [Hlt _]. apply Hlt; [done|left].
Qed.

(** *** References *)

(** A path segment: printable ASCII without the characters the syntax uses. *)
Definition segment (s : string) : bool :=
  negb (String.eqb s EmptyString) &&
  all_chars (λ a, graphic a && negb (Ascii.eqb a ".") && negb (Ascii.eqb "{" a)
                  && negb (Ascii.eqb "}" a))%char s.

(** [steps.STEP.result.K1.K2...] and the value it names. *)
Definition reference (step : string) (keys : list string) : string :=
  String.concat "." ("steps" :: step :: "result" :: keys)%string.

Definition descend (root : Json) (keys : list string) : option Json :=
  foldl (λ cursor key, v ← cursor; step_into v key) (Some root) keys.

Definition named (step : string) (keys : list string) : option Json :=
  root ← map_get step results; descend root keys.

Lemma descend_None keys : foldl (λ cursor key, v ← cursor; step_into v key) None keys = None.
Proof. by induction keys. Qed.

Lemma walk_descend expr walked root keys :
  match descend root keys with
  | Some v => walk expr walked root keys = Ok v
  | None => ∃ w key, key ∈ keys ∧ walk expr walked root keys = Err (PathMiss expr w key)
  end.
Proof.
  unfold descend. revert walked root. induction keys as [|key keys IH]; intros walked root; [done|].
  cbn. destruct (step_into root key) as [next|] eqn:E; cbn.
  - specialize (IH (walked +:+ "." +:+ key)%string next). case_match; [done|].
    destruct IH as (w & k & Hk & Hw). exists w, k. split; [by right|done].
  - rewrite descend_None. exists walked, key. split; [left|done].
Qed.

Lemma segment_parts s :
  segment s = true →
  s ≠ EmptyString ∧ all_chars graphic s = true ∧
  all_chars (λ a, negb (Ascii.eqb a "."%char)) s = true ∧
  all_chars (λ a, negb (Ascii.eqb "{"%char a)) s = true ∧
  all_chars (λ a, negb (Ascii.eqb "}"%char a)) s = true.
Proof.
  unfold segment. intros [Hs Ha]%andb_true_iff. split_and!.
  { intros ->. done. }
  all: eapply all_chars_weaken; [|exact Ha]; intros a; cbn; rewrite !andb_true_iff; tauto.
Qed.

Context (step : string) (keys : list string).
Hypothesis Hsegs : forallb segment (step :: keys) = true.

Lemma reference_chars p :
  (∀ s, segment s = true → all_chars p s = true) → all_chars p "."%string = true →
  all_chars p (reference step keys) = true.
Proof.
  intros Hp Hdot. apply all_chars_concat; [done|].
  cbn in Hsegs. apply andb_true_iff in Hsegs as [Hs Hk].
  constructor; [by apply Hp|]. constructor; [by apply Hp|]. constructor; [by apply Hp|].
  apply Forall_forall. intros k Hin. apply Hp. rewrite forallb_forall in Hk.
  by apply Hk, list_elem_of_In.
Qed.

Lemma reference_trim : str_trim (reference step keys) = reference step keys.
Proof.
  apply str_trim_graphic, reference_chars; [|done]. by intros s (_ & Hs & _)%segment_parts.
Qed.

Lemma reference_no_close : all_chars (λ a, negb (Ascii.eqb "}"%char a)) (reference step keys) = true.
Proof. apply reference_chars; [|done]. by intros s (_ & _ & _ & _ & Hs)%segment_parts. Qed.

Lemma resolve_reference :
  match named step keys with
  | Some v => resolve (reference step keys) results = Ok v
  | None => is_ok (resolve (reference step keys) results) = false
  end.
Proof.
  unfold resolve, named, reference.
  assert (Forall (λ s, all_chars (λ a, negb (Ascii.eqb a "."%char)) s = true)
    ("steps" :: step :: "result" :: keys)%string) as Hdots.
  { cbn in Hsegs. apply andb_true_iff in Hsegs as [Hs Hk]. repeat (constructor; [try done|]).
    - by apply segment_parts.
    - apply Forall_forall. intros k Hin. rewrite forallb_forall in Hk.
      by apply segment_parts, Hk, list_elem_of_In. }
  rewrite split_on_concat by done.
  destruct (String.eqb_spec step EmptyString) as [->|_]; [done|].
  destruct (map_get step results) as [root|]; [|done]. cbn.
  match goal with |- context [walk ?e ?w root keys] =>
    pose proof (walk_descend e w root keys) as Hw end.
  destruct (descend root keys); [done|]. destruct Hw as (? & ? & _ & ->). done.
Qed.

Lemma render_whole :
  render_string ("{{" +:+ reference step keys +:+ "}}")%string results
  = resolve (reference step keys) results.
Proof.
  unfold render_string. rewrite strip_prefix_app, strip_suffix_app.
  unfold contains. rewrite split_once_None by apply reference_no_close.
  by rewrite reference_trim.
Qed.

(** A reference inside a longer text: [before] starts the text and opens nothing,
    [after] opens nothing. *)
Lemma render_embedded before after v :
  before ≠ EmptyString → all_chars (λ a, negb (Ascii.eqb "{"%char a)) before = true →
  contains "{{" after = false → named step keys = Some v →
  render_string (before +:+ "{{" +:+ reference step keys +:+ "}}" +:+ after)%string results
  = Ok (JString (before +:+ text_of v +:+ after)%string).
Proof.
  intros Hne Hb Ha Hv. set (body := ("{{" +:+ reference step keys +:+ "}}" +:+ after)%string).
  pose proof resolve_reference as Hr. rewrite Hv in Hr.
  assert (split_once "{{" (before +:+ body)%string
          = Some (before, reference step keys +:+ "}}" +:+ after)%string) as Hopen
    by by apply (split_once_app "{"%char "{"%string).
  assert (split_once "}}" (reference step keys +:+ "}}" +:+ after)%string
          = Some (reference step keys, after)) as Hclose
    by exact (split_once_app "}"%char "}"%string _ _ reference_no_close).
  unfold render_string. assert (strip_prefix "{{" (before +:+ body)%string = None) as ->.
  { destruct before as [|a before]; [done|].
    change (negb (Ascii.eqb "{" a) && all_chars (λ a, negb (Ascii.eqb "{" a)) before = true)%char in Hb.
    apply andb_true_iff in Hb as [Hb _]. apply negb_true_iff in Hb.
    change ((if Ascii.eqb "{" a then strip_prefix "{" (before +:+ body)%string else None) = None)%char.
    by rewrite Hb. }
  unfold interpolate, contains at 1. rewrite Hopen.
  change (interpolate_from (String.length (before +:+ body)) (before +:+ body) EmptyString
            (before +:+ body) results = Ok (JString (before +:+ text_of v +:+ after)))%string.
  destruct before as [|a before]; [done|].
  change (String.length (String a before +:+ body)) with (S (String.length (before +:+ body))).
  cbn [interpolate_from]. rewrite Hopen, Hclose, reference_trim, Hr.
  cbn [mbind result_bind]. unfold contains in Ha.
  destruct (split_once "{{" after) eqn:E; [done|].
  destruct (String.length (before +:+ body)); cbn [interpolate_from]; rewrite ?E;
    by rewrite !string_append_assoc.
Qed.
End rendering.

(** Rendering a step's params. A document without a template token is returned
    as it is. A string that is one reference becomes the JSON value it names, type
    and all; a reference inside a longer string is replaced by the value's text; and
    a reference to nothing is refused. *)
Theorem render_params_substitutes `{JsonRender} results v step keys before after
    (Hsegs : forallb segment (step :: keys) = true)
    (Hsorted : keys_sorted v)
    (Hbefore : before ≠ EmptyString
               ∧ all_chars (λ a, negb (Ascii.eqb "{"%char a)) before = true)
    (Hafter : contains "{{" after = false) :
  let token := ("{{" +:+ reference step keys +:+ "}}")%string in
  (has_template v = false → render_params v results = Ok v) ∧
  match named results step keys with
  | Some found =>
      render_params (JString token) results = Ok found ∧
      render_params (JString (before +:+ token +:+ after)) results
      = Ok (JString (before +:+ text_of found +:+ after))
  | None =>
      is_ok (render_params (JString token) results) = false ∧
      is_ok (render_params (JObject [("nested", JArray [JString token])]) results) = false
  end%string.
Proof.
  intros token. split; [by apply render_plain|].
  pose proof (resolve_reference results step keys Hsegs) as Hr.
  pose proof (render_whole results step keys Hsegs) as Hw. fold token in Hw.
  destruct (named results step keys) as [found|] eqn:En.
  - split; [cbn [render_params]; by rewrite Hw|].
    unfold token. cbn [render_params]. rewrite !string_append_assoc.
    by apply render_embedded; try done; apply Hbefore.
  - cbn [render_params collect_ok]. rewrite Hw.
    by destruct (resolve (reference step keys) results).
Qed.

Lemma render_params_substitutes_witness :
  let R : JsonRender := λ _, EmptyString in
  let results := [("fetch", JObject [("rows", JArray [JString "x"; JString "y"])])]%string in
  render_params (JString "{{steps.fetch.result.rows.1}}") results = Ok (JString "y") ∧
  render_params (JString "got {{steps.fetch.result.rows.1}}!") results = Ok (JString "got y!").
Proof.
  intros R results.
  apply (render_params_substitutes results JNull "fetch" ["rows"; "1"]%string "got " "!");
    [reflexivity|exact I|split; [discriminate|reflexivity]|reflexivity].
Defined.
