(* ===== verification/WorkflowStore.v ===== *)
(** * WorkflowStore: plans, runs and step cells

    The workflow statements of [crates/core/src/storage.rs].  A plan's spec is
    kept as the JSON document its text parses to; a job id is its UUID.  Error
    columns hold [Note]: text, or the refusal the text was rendered from. *)

From S2P Require Import Prelude Sql Float64 Json Errors Jobs JobQueue Costs WorkflowSpec.

(** Why a step could not be enqueued ([enqueue_step]'s [Err]). *)
Inductive StepError : Type :=
| NotInSpec (step : string)
| TemplateRefused (e : TemplateError)
| NotRegistered (step app : string)
| ParamsRefused (message : string)
| EnvelopeRefused (e : EnvelopeError)
| EnqueueRefused (e : Error).

Inductive Note : Type :=
| Text (s : string)
| Refusal (e : StepError)
| SpecNoLongerValid (errors : list SpecError).

(** ** Rows *)

Module WorkflowDef.
Record t : Type := mk {
  id : string; name : string; spec : Json; cron : option string; enabled : bool;
  created_at : timestamp }.
End WorkflowDef.

Module WorkflowRun.
Record t : Type := mk {
  id : string; def_id : string; status : string; budget_usd : option f64; spent_usd : f64;
  idempotency_key : option string; principal_id : option string; root_id : string;
  error : option Note; started_at : timestamp; finished_at : option timestamp }.
#[global] Instance eta_run : Eta t := λ r,
  mk (id r) (def_id r) (status r) (budget_usd r) (spent_usd r) (idempotency_key r)
    (principal_id r) (root_id r) (error r) (started_at r) (finished_at r).
End WorkflowRun.

Module WorkflowStepRow.
Record t : Type := mk {
  run_id : string; step : string; job_id : option Uuid; depends_on : list string;
  status : string; result : option Json; error : option Note;
  finished_at : option timestamp }.
#[global] Instance eta_cell : Eta t := λ r,
  mk (run_id r) (step r) (job_id r) (depends_on r) (status r) (result r) (error r)
    (finished_at r).
End WorkflowStepRow.

Abbreviation defs := (list WorkflowDef.t).
Abbreviation runs := (list WorkflowRun.t).
Abbreviation cells := (list WorkflowStepRow.t).

Module NewWorkflowRun.
Record t : Type := mk {
  def_id : string; budget_usd : option f64; idempotency_key : option string;
  principal_id : option string }.
End NewWorkflowRun.

(** ** Plans *)

Definition by_name (a b : WorkflowDef.t) : bool :=
  String.leb (WorkflowDef.name a) (WorkflowDef.name b).

(** [WHERE id = ?1 OR name = ?1] *)
Definition get_workflow (id_or_name : string) (t : defs) : option WorkflowDef.t :=
  List.find (λ d, String.eqb (WorkflowDef.id d) id_or_name
                  || String.eqb (WorkflowDef.name d) id_or_name) t.

(** The id is the primary key and the name is unique. *)
Definition create_workflow (id : string) (now : timestamp) (name : string) (spec : Json)
    (cron : option string) (t : defs) : defs * result Error WorkflowDef.t :=
  if existsb (λ d, String.eqb (WorkflowDef.id d) id || String.eqb (WorkflowDef.name d) name) t
  then (t, Err unique_violation)
  else
    let t := t ++ [WorkflowDef.mk id name spec cron true now] in
    (t, match get_workflow id t with
        | Some d => Ok d
        | None => Err (Storage (SqlxOther "RowNotFound"))
        end).

Definition list_workflows (t : defs) : defs := order_by by_name t.

Definition scheduled_workflows (t : defs) : defs :=
  order_by by_name (select_where (λ d, WorkflowDef.enabled d && is_some (WorkflowDef.cron d)) t).

Definition delete_workflow (id : string) (t : defs) : defs * bool :=
  let p d := String.eqb (WorkflowDef.id d) id in
  (delete_where p t, 0 <? rows_affected p t).

(** ** Runs *)

Definition run_is (id : string) (r : WorkflowRun.t) : bool := String.eqb (WorkflowRun.id r) id.

Definition workflow_run_by_key (key : string) (t : runs) : option WorkflowRun.t :=
  List.find (λ r, bool_decide (WorkflowRun.idempotency_key r = Some key)) t.

Definition get_workflow_run (id : string) (t : runs) : option WorkflowRun.t :=
  lookup_by WorkflowRun.id id t.

Definition insert_run (r : WorkflowRun.t) (t : runs) : option runs :=
  if existsb (λ r', run_is (WorkflowRun.id r) r'
                    || match WorkflowRun.idempotency_key r with
                       | Some k => bool_decide (WorkflowRun.idempotency_key r' = Some k)
                       | None => false
                       end) t
  then None else Some (t ++ [r]).

(** The insert and its race arm: on a refused insert the winner's row is read back
    by its key. *)
Definition insert_run_or_winner (r : WorkflowRun.t) (t : runs)
    : runs * result Error (WorkflowRun.t * bool) :=
  match insert_run r t with
  | Some t =>
      (t, match get_workflow_run (WorkflowRun.id r) t with
          | Some run => Ok (run, true)
          | None => Err (Storage (SqlxOther "RowNotFound"))
          end)
  | None =>
      (t, match key ← WorkflowRun.idempotency_key r; workflow_run_by_key key t with
          | Some existing => Ok (existing, false)
          | None => Err unique_violation
          end)
  end.

Definition create_workflow_run (id : string) (now : timestamp) (new : NewWorkflowRun.t)
    (t : runs) : runs * result Error (WorkflowRun.t * bool) :=
  match key ← NewWorkflowRun.idempotency_key new; workflow_run_by_key key t with
  | Some existing => (t, Ok (existing, false))
  | None =>
      insert_run_or_winner
        (WorkflowRun.mk id (NewWorkflowRun.def_id new) "running" (NewWorkflowRun.budget_usd new)
           f64_zero (NewWorkflowRun.idempotency_key new) (NewWorkflowRun.principal_id new) id
           None now None) t
  end.

(** [ORDER BY started_at DESC, id DESC] *)
Definition run_newest (a b : WorkflowRun.t) : bool :=
  (WorkflowRun.started_at b <? WorkflowRun.started_at a)
  || ((WorkflowRun.started_at a =? WorkflowRun.started_at b)
      && String.leb (WorkflowRun.id b) (WorkflowRun.id a)).
Definition of_def (def_id : string) (r : WorkflowRun.t) : bool :=
  String.eqb (WorkflowRun.def_id r) def_id.

Definition list_workflow_runs (def_id : string) (limit : Z) (t : runs) : runs :=
  sql_limit (Z.min (Z.max limit 1) 500) (order_by run_newest (select_where (of_def def_id) t)).

Definition latest_workflow_run (def_id : string) (t : runs) : option (string * string) :=
  r ← head (order_by run_newest (select_where (of_def def_id) t));
  Some (WorkflowRun.id r, WorkflowRun.status r).

Definition finish_workflow_run (now : timestamp) (id status : string) (error : option Note)
    (t : runs) : runs * bool :=
  let p r := run_is id r && String.eqb (WorkflowRun.status r) "running" in
  (update_where p
     (λ r, r <| WorkflowRun.status := status |> <| WorkflowRun.error := error |>
             <| WorkflowRun.finished_at := Some now |>) t,
   0 <? rows_affected p t).

(** The ledger rows of a run's jobs, summed by SQLite. *)
Definition refresh_workflow_spend `{SqlSum} (id : string) (ledger : cost_events) (jobs : table)
    (t : runs) : runs * f64 :=
  let of_run (e : CostEvent.t) :=
    existsb (λ j, (Job.id j =? CostEvent.job_id e)
                  && bool_decide (Job.workflow_run_id j = Some id)) jobs in
  let spent := match select_where of_run ledger with
               | [] => f64_zero
               | events => sql_sum (map CostEvent.cost_usd events)
               end in
  (update_where (run_is id) (λ r, r <| WorkflowRun.spent_usd := spent |>) t, spent).

(** ** Cells *)

Definition cell_is (run_id step : string) (c : WorkflowStepRow.t) : bool :=
  String.eqb (WorkflowStepRow.run_id c) run_id && String.eqb (WorkflowStepRow.step c) step.
Definition in_run (run_id : string) (c : WorkflowStepRow.t) : bool :=
  String.eqb (WorkflowStepRow.run_id c) run_id.
Definition has_status (status : string) (c : WorkflowStepRow.t) : bool :=
  String.eqb (WorkflowStepRow.status c) status.
(** [status IN ('pending', 'queued')] *)
Definition is_open_cell (c : WorkflowStepRow.t) : bool :=
  has_status "pending" c || has_status "queued" c.

(** One transaction: every cell lands or none does. *)
Definition insert_workflow_steps (run_id : string) (steps : list (string * list string))
    (t : cells) : cells * result Error unit :=
  let insert t (cell : string * list string) :=
    t ← t;
    if existsb (cell_is run_id (fst cell)) t then None
    else Some (t ++ [WorkflowStepRow.mk run_id (fst cell) None (snd cell) "pending" None None
                       None]) in
  match foldl insert (Some t) steps with
  | Some t' => (t', Ok tt)
  | None => (t, Err unique_violation)
  end.

Definition by_step (a b : WorkflowStepRow.t) : bool :=
  String.leb (WorkflowStepRow.step a) (WorkflowStepRow.step b).

Definition workflow_steps (run_id : string) (t : cells) : cells :=
  order_by by_step (select_where (in_run run_id) t).

Definition workflow_step_for_job (id : Uuid) (t : cells) : option (string * string) :=
  c ← List.find (λ c, bool_decide (WorkflowStepRow.job_id c = Some id)) t;
  Some (WorkflowStepRow.run_id c, WorkflowStepRow.step c).

Definition claim_workflow_step (run_id step : string) (t : cells) : cells * bool :=
  let p c := cell_is run_id step c && has_status "pending" c in
  (update_where p (λ c, c <| WorkflowStepRow.status := "queued"%string |>) t,
   0 <? rows_affected p t).

Definition set_workflow_step_job (run_id step : string) (job_id : Uuid) (t : cells) : cells :=
  update_where (cell_is run_id step) (λ c, c <| WorkflowStepRow.job_id := Some job_id |>) t.

Definition finish_workflow_step (now : timestamp) (run_id step status : string)
    (result : option Json) (error : option Note) (t : cells) : cells * bool :=
  let p c := cell_is run_id step c && is_open_cell c in
  (update_where p
     (λ c, c <| WorkflowStepRow.status := status |> <| WorkflowStepRow.result := result |>
             <| WorkflowStepRow.error := error |>
             <| WorkflowStepRow.finished_at := Some now |>) t,
   0 <? rows_affected p t).

Definition open_workflow_steps (run_id : string) (t : cells) : list (string * option Uuid) :=
  map (λ c, (WorkflowStepRow.step c, WorkflowStepRow.job_id c))
    (order_by by_step (select_where (λ c, in_run run_id c && is_open_cell c) t)).

(** ** The run's jobs *)

Definition workflow_run_job_ids (run_id : string) (jobs : table) : list Uuid :=
  map Job.id
    (order_by (λ a b, (Job.created_at a <? Job.created_at b)
                      || ((Job.created_at a =? Job.created_at b) && (Job.id a <=? Job.id b)))
       (select_where (λ j, bool_decide (Job.workflow_run_id j = Some run_id)) jobs)).

Definition job_chain_ids (id : Uuid) (jobs : table) : option string * option string :=
  match get id jobs with
  | Some j => (Job.workflow_run_id j, Job.root_id j)
  | None => (None, None)
  end.
