(* ===== verification/Cancel.v ===== *)
(** * Cancel: what a fired cancellation token means

    The handshake of [crates/server/src/worker.rs] between the cancel door and the task that
    runs a job: the intents, the token registry, the drain that fires every token, and the
    door of [routes/jobs.rs].  Each step is one critical section of the code. *)

From stdpp Require Import gmap.
From S2P Require Import Prelude Sql Float64 Json Errors Jobs.

Inductive CancelKind : Type := User | ShutdownSuspend.

Definition cancel_kind (user_requested shutting_down : bool) : CancelKind :=
  match user_requested, shutting_down with
  | true, _ => User
  | false, true => ShutdownSuspend
  | false, false => User
  end.

(** [CANCEL_INTENTS] *)
Abbreviation intents := (list (Uuid * CancelKind)) (only parsing).
Definition intent_of (id : Uuid) (l : intents) : option CancelKind :=
  snd <$> List.find (λ it, fst it =? id) l.

(** The first entry of the job becomes a user's. *)
Fixpoint mark_user (id : Uuid) (l : intents) : intents :=
  match l with
  | [] => []
  | (job, kind) :: l => if job =? id then (job, User) :: l else (job, kind) :: mark_user id l
  end.
Definition claim_user_cancel (id : Uuid) (l : intents) : intents * CancelKind :=
  match intent_of id l with
  | Some ShutdownSuspend => (l, ShutdownSuspend)
  | Some User => (mark_user id l, User)
  | None => (l ++ [(id, User)], User)
  end.

Definition forget_cancel_intent (id : Uuid) (l : intents) : intents :=
  List.filter (λ it, negb (fst it =? id)) l.

Definition resolve_cancel (id : Uuid) (shutting_down : bool) (l : intents) : intents * CancelKind :=
  let claimed := existsb (λ it, (fst it =? id) && match snd it with User => true | _ => false end) l in
  let kind := cancel_kind claimed shutting_down in
  let l := forget_cancel_intent id l in
  (match kind with ShutdownSuspend => l ++ [(id, ShutdownSuspend)] | User => l end, kind).

(** The registry ([job_cancels]): the attempt whose token is registered, and the tokens fired. *)
Module Tokens.
Record t : Type := mk {
  registry : gmap Uuid Z; fired : gset (Uuid * Z); noted : intents }.
#[global] Instance eta_tokens : Eta t := λ s, mk (registry s) (fired s) (noted s).
Definition empty : t := mk ∅ ∅ [].
End Tokens.

(** The spawn body: an overlapping re-claim overwrites the entry. *)
Definition register (id : Uuid) (attempt : Z) (s : Tokens.t) : Tokens.t :=
  s <| Tokens.registry ::= <[id := attempt]> |>.

(** [DELETE /jobs/{id}] of a job that is not queued. *)
Definition cancel_door (id : Uuid) (s : Tokens.t) : Tokens.t * option CancelKind :=
  match Tokens.registry s !! id with
  | None => (s, None)
  | Some attempt =>
      let '(noted, kind) := claim_user_cancel id (Tokens.noted s) in
      (s <| Tokens.noted := noted |> <| Tokens.fired ::= union {[(id, attempt)]} |>, Some kind)
  end.

(** Phase two of the drain. *)
Definition fire_all (s : Tokens.t) : Tokens.t :=
  s <| Tokens.fired ::= union (list_to_set (map_to_list (Tokens.registry s))) |>.

(** The task of a run whose token fired decides what that means. *)
Definition resolve (id : Uuid) (shutting_down : bool) (s : Tokens.t) : Tokens.t * CancelKind :=
  let '(noted, kind) := resolve_cancel id shutting_down (Tokens.noted s) in
  (s <| Tokens.noted := noted |>, kind).

(** The end of the spawn body. *)
Definition cleanup (id : Uuid) (attempt : Z) (s : Tokens.t) : Tokens.t :=
  let s :=
    if bool_decide (Tokens.registry s !! id = Some attempt)
    then s <| Tokens.registry ::= delete id |> else s in
  s <| Tokens.noted ::= forget_cancel_intent id |>.

(** ** The steps *)

Inductive CancelStep : Type :=
| Register (id : Uuid) (attempt : Z)
| Door (id : Uuid)
| Drain
| Resolve (id : Uuid) (shutting_down : bool)
| Cleanup (id : Uuid) (attempt : Z).
Definition cancel_step (o : CancelStep) (s : Tokens.t) : Tokens.t :=
  match o with
  | Register id attempt => register id attempt s
  | Door id => (cancel_door id s).1
  | Drain => fire_all s
  | Resolve id shutting_down => (resolve id shutting_down s).1
  | Cleanup id attempt => cleanup id attempt s
  end.
Definition cancel_steps (os : list CancelStep) (s : Tokens.t) : Tokens.t :=
  foldl (λ s o, cancel_step o s) s os.

(** ** The intent of one job *)

Lemma intent_app id l l' :
  intent_of id (l ++ l') = match intent_of id l with Some k => Some k | None => intent_of id l' end.
Proof. unfold intent_of. induction l as [|[j k] l IH]; [done|]. cbn. by destruct (j =? id). Qed.

Lemma intent_forget id id' l :
  intent_of id (forget_cancel_intent id' l) = if id' =? id then None else intent_of id l.
Proof.
  unfold intent_of, forget_cancel_intent. induction l as [|[j k] l IH]; cbn; [by destruct (id' =? id)|].
  destruct (Z.eqb_spec j id') as [->|Hne]; cbn; rewrite ?IH.
  - destruct (Z.eqb_spec id' id) as [->|Hne]; cbn; [done|]. done.
  - destruct (Z.eqb_spec j id) as [->|Hne']; cbn; [|done]. by rewrite (proj2 (Z.eqb_neq id' id)).
Qed.

Lemma intent_mark id id' l :
  intent_of id (mark_user id' l)
  = if id' =? id then (λ _, User) <$> intent_of id l else intent_of id l.
Proof.
  unfold intent_of. induction l as [|[j k] l IH]; cbn; [by destruct (id' =? id)|].
  destruct (Z.eqb_spec j id') as [->|Hne]; cbn.
  - by destruct (Z.eqb_spec id' id) as [->|Hne].
  - destruct (Z.eqb_spec j id) as [->|Hne']; cbn; [by rewrite (proj2 (Z.eqb_neq id' id))|exact IH].
Qed.

Lemma intent_claim id id' l :
  intent_of id (claim_user_cancel id' l).1
  = if id' =? id then Some (default User (intent_of id l)) else intent_of id l.
Proof.
  unfold claim_user_cancel. destruct (Z.eqb_spec id' id) as [->|Hne].
  - destruct (intent_of id l) as [[]|] eqn:E; cbn [fst from_option].
    + by rewrite intent_mark, Z.eqb_refl, E.
    + exact E.
    + rewrite intent_app, E. unfold intent_of. cbn. by rewrite Z.eqb_refl.
  - destruct (intent_of id' l) as [[]|]; cbn [fst]; [|done|].
    + by rewrite intent_mark, (proj2 (Z.eqb_neq id' id)).
    + rewrite intent_app. unfold intent_of at 2. cbn. rewrite (proj2 (Z.eqb_neq id' id)) by done.
      by destruct (intent_of id l).
Qed.

(** Every entry of a job says the same, so the first decides. *)
Definition single (l : intents) : Prop := NoDup (map fst l).

Lemma single_forget id l : single l → single (forget_cancel_intent id l).
Proof.
  unfold single, forget_cancel_intent. induction l as [|[j k] l IH]; cbn; [done|].
  intros [Hni Hnd]%NoDup_cons. destruct (negb (j =? id)); cbn; [|by apply IH].
  constructor; [|by apply IH]. intros Hin. apply Hni.
  apply list_elem_of_In, in_map_iff in Hin as (it & <- & Hin). apply filter_In in Hin as [Hin _].
  by apply list_elem_of_In, in_map.
Qed.
Lemma forget_none id l : id ∉ map fst (forget_cancel_intent id l).
Proof.
  intros Hin. apply list_elem_of_In, in_map_iff in Hin as (it & <- & Hin).
  apply filter_In in Hin as [_ Hn]. by rewrite Z.eqb_refl in Hn.
Qed.
Lemma single_add id k l : id ∉ map fst l → single l → single (l ++ [(id, k)]).
Proof.
  unfold single. rewrite map_app. intros Hni Hs. apply NoDup_app. split_and!; [done| |repeat constructor; set_solver].
  intros j Hj ->%list_elem_of_singleton. done.
Qed.
Lemma mark_fst id l : map fst (mark_user id l) = map fst l.
Proof. induction l as [|[j k] l IH]; cbn; [done|]. destruct (j =? id); cbn; by rewrite ?IH. Qed.
Lemma intent_None id l : intent_of id l = None → id ∉ map fst l.
Proof.
  unfold intent_of. intros H Hin. apply list_elem_of_In, in_map_iff in Hin as (it & <- & Hin).
  destruct (List.find _ l) eqn:E; [done|]. apply (List.find_none _ _ E) in Hin. by rewrite Z.eqb_refl in Hin.
Qed.
Lemma single_claim id l : single l → single (claim_user_cancel id l).1.
Proof.
  intros Hs. unfold claim_user_cancel. destruct (intent_of id l) as [[]|] eqn:E; cbn; [|done|].
  - unfold single. by rewrite mark_fst.
  - apply single_add; [by apply intent_None|done].
Qed.
Lemma single_step o s : single (Tokens.noted s) → single (Tokens.noted (cancel_step o s)).
Proof.
  intros Hs. destruct o as [id a|id| |id sd|id a]; cbn; [done| |done| |].
  - unfold cancel_door. destruct (Tokens.registry s !! id); [|done].
    pose proof (single_claim id _ Hs) as Hc. by destruct (claim_user_cancel id _).
  - unfold resolve, resolve_cancel. destruct (cancel_kind _ _); cbn; [by apply single_forget|].
    apply single_add; [apply forget_none|by apply single_forget].
  - unfold cleanup. case_if; by apply single_forget.
Qed.

(** What the task decides is read off the job's entry. *)
Lemma claimed_intent id l : single l →
  existsb (λ it : Uuid * CancelKind, (fst it =? id) && match snd it with User => true | _ => false end) l
  = match intent_of id l with Some User => true | _ => false end.
Proof.
  unfold intent_of. induction l as [|[j k] l IH]; [done|]. intros [Hni Hs]%NoDup_cons. cbn.
  destruct (Z.eqb_spec j id) as [->|Hne]; cbn; [|by apply IH].
  destruct k; [done|]. apply not_true_iff_false. intros (it & Hin & Hit)%existsb_exists.
  apply andb_true_iff in Hit as [Hit%Z.eqb_eq _]. apply Hni. cbn. rewrite <- Hit.
  by apply list_elem_of_In, in_map.
Qed.
Lemma resolve_kind id sd s :
  single (Tokens.noted s) →
  (resolve id sd s).2
  = cancel_kind (match intent_of id (Tokens.noted s) with Some User => true | _ => false end) sd.
Proof. intros Hs. unfold resolve, resolve_cancel. cbn. by rewrite claimed_intent. Qed.
#[local] Arguments intent_of : simpl never.
#[local] Arguments forget_cancel_intent : simpl never.
Lemma resolve_intent id id' sd s :
  intent_of id (Tokens.noted (resolve id' sd s).1)
  = if id' =? id then match (resolve id' sd s).2 with ShutdownSuspend => Some ShutdownSuspend | User => None end
    else intent_of id (Tokens.noted s).
Proof.
  unfold resolve, resolve_cancel. destruct (cancel_kind _ sd) eqn:E; cbn.
  - rewrite intent_forget. by destruct (id' =? id).
  - rewrite intent_app, intent_forget. unfold intent_of at 2. cbn. destruct (id' =? id); [done|].
    by destruct (intent_of id (Tokens.noted s)).
Qed.

(** ** The handshake *)

(** A step that neither ends the run nor decides for it. *)
Definition leaves_open (id : Uuid) (o : CancelStep) : bool :=
  match o with
  | Resolve id' _ | Cleanup id' _ => negb (id' =? id)
  | _ => true
  end.

Lemma open_keeps_intent id k o s :
  leaves_open id o = true → intent_of id (Tokens.noted s) = Some k →
  intent_of id (Tokens.noted (cancel_step o s)) = Some k.
Proof.
  intros Ho Hk. destruct o as [id' a|id'| |id' sd|id' a]; cbn [cancel_step leaves_open] in *; try exact Hk.
  - unfold cancel_door. destruct (Tokens.registry s !! id'); [|done].
    pose proof (intent_claim id id' (Tokens.noted s)) as Hc. rewrite Hk in Hc.
    destruct (claim_user_cancel id' _) as [noted kind]. cbn in *. rewrite Hc. by destruct (id' =? id).
  - rewrite resolve_intent. apply negb_true_iff in Ho. by rewrite Ho.
  - unfold cleanup. apply negb_true_iff in Ho. case_if; cbn; by rewrite intent_forget, Ho.
Qed.
Lemma open_keeps_intents id k os s :
  forallb (leaves_open id) os = true → intent_of id (Tokens.noted s) = Some k →
  intent_of id (Tokens.noted (cancel_steps os s)) = Some k.
Proof.
  revert s. induction os as [|o os IH]; intros s; [done|]. cbn [forallb].
  intros [Ho Hos]%andb_true_iff Hk. apply IH; [done|]. by apply open_keeps_intent.
Qed.
Lemma single_steps os s : single (Tokens.noted s) → single (Tokens.noted (cancel_steps os s)).
Proof. revert s. induction os as [|o os IH]; intros s Hs; [done|]. by apply IH, single_step. Qed.

Lemma door_intent id s s' k :
  cancel_door id s = (s', Some k) → intent_of id (Tokens.noted s') = Some k.
Proof.
  unfold cancel_door. destruct (Tokens.registry s !! id) as [a|]; [|done].
  pose proof (intent_claim id id (Tokens.noted s)) as Hc. rewrite Z.eqb_refl in Hc.
  revert Hc. unfold claim_user_cancel. destruct (intent_of id (Tokens.noted s)) as [[]|] eqn:E; cbn;
    intros Hc [= <- <-]; cbn; exact Hc.
Qed.

(** C13: The cancel door keeps its word: whatever runs between them, a run whose cancellation
    the door granted to an operator decides it was cancelled, even inside a shutdown, as long
    as no task of the job ends in between; and once a run has committed to a suspend, a door
    that reaches it before its task ends says so instead of promising a cancellation. *)
Theorem cancel_answer_is_kept prior id s :
  let s0 := cancel_steps prior Tokens.empty in
  (∀ os shutting_down,
     cancel_door id s0 = (s, Some User) → forallb (leaves_open id) os = true →
     (resolve id shutting_down (cancel_steps os s)).2 = User)
  ∧ (∀ os shutting_down,
       resolve id shutting_down s0 = (s, ShutdownSuspend) → forallb (leaves_open id) os = true →
       ∀ k, (cancel_door id (cancel_steps os s)).2 = Some k → k = ShutdownSuspend).
Proof.
  intros s0. assert (single (Tokens.noted s0)) as Hs0 by (apply single_steps; constructor).
  split; intros os sd Hs Hos.
  - pose proof (door_intent _ _ _ _ Hs) as Hi. rewrite resolve_kind.
    + by rewrite (open_keeps_intents id User os s Hos Hi).
    + apply single_steps. pose proof (single_step (Door id) s0 Hs0) as Hd. cbn in Hd. by rewrite Hs in Hd.
  - pose proof (resolve_intent id id sd s0) as Hi. rewrite Hs, Z.eqb_refl in Hi. cbn in Hi.
    intros k Hk. pose proof (open_keeps_intents id _ os s Hos Hi) as Hi'.
    destruct (cancel_door id (cancel_steps os s)) as [s' k'] eqn:Hd. cbn in Hk. subst k'.
    unfold cancel_door in Hd. destruct (Tokens.registry (cancel_steps os s) !! id); [|done].
    unfold claim_user_cancel in Hd. rewrite Hi' in Hd. by injection Hd as _ <-.
Qed.

(** An operator's cancel of a run the drain is about to suspend. *)
Lemma cancel_answer_is_kept_witness :
  let s := (cancel_door 7 (cancel_steps [Register 7 1] Tokens.empty)).1 in
  (cancel_door 7 (cancel_steps [Register 7 1] Tokens.empty)).2 = Some User
  ∧ (resolve 7 true (cancel_steps [Drain] s)).2 = User.
Proof.
  cbn zeta. split; [reflexivity|].
  destruct (cancel_answer_is_kept [Register 7 1] 7
              (cancel_door 7 (cancel_steps [Register 7 1] Tokens.empty)).1) as [Hk _].
  apply (Hk [Drain] true); reflexivity.
Defined.

(** The intent is the job's, not the attempt's: a superseded attempt that ends drops the
    cancellation the door granted against its successor, which a shutdown then suspends. *)
Lemma stale_task_drops_the_cancel :
  let s := cancel_steps [Register 7 1; Register 7 2] Tokens.empty in
  (cancel_door 7 s).2 = Some User
  ∧ (resolve 7 true (cancel_steps [Door 7; Cleanup 7 1] s)).2 = ShutdownSuspend.
Proof. split; vm_compute; reflexivity. Qed.
