(* ===== verification/WorkflowEngine.v ===== *)
(** * WorkflowEngine: opening, advancing, cancelling and scheduling runs

    The engine half of [crates/server/src/workflow.rs], with [merge_params] and
    [cancel_job] of [routes/jobs.rs] and the app lookups of [mcp/mod.rs].  The
    registered apps are an interface ([App]); a JSON Schema validator, the cron
    library and the random job ids are parameters. *)

From S2P Require Import Prelude Sql Float64 Json Errors Jobs JobQueue Costs WorkflowSpec.
From S2P Require Import Cancel WorkflowStore.

(** What the engine asks of a registered app ([ScrapeApp]). *)
Record App : Type := mkApp {
  default_params : Json;
  params_schema : option Json;
  app_target_key : Json → option string;
}.

(** What the event bus carries: a run's transition under the plan's name, a job's
    under its app's. *)
Inductive BusEvent : Type :=
| RunEvent (run_id name status : string)
| JobEvent (id : Uuid) (app status : string).

(** The tables a run lives in, the events published for it, the cancellation
    tokens fired, the worker wake-ups, and how many job ids were drawn. *)
Module World.
Record t : Type := mk {
  jobs : table; ledger : cost_events; defs : list WorkflowDef.t;
  runs : list WorkflowRun.t; cells : list WorkflowStepRow.t;
  published : list BusEvent; fired : list Uuid; wakeups : nat;
  drawn : nat }.
#[global] Instance eta_world : Eta t := λ w,
  mk (jobs w) (ledger w) (defs w) (runs w) (cells w) (published w) (fired w) (wakeups w)
    (drawn w).
End World.
Abbreviation world := World.t.

(** ** [routes/jobs.rs] and [mcp/mod.rs] *)

Definition merge_params (defaults : Json) (over : option Json) : Json :=
  match defaults, over with
  | defaults, None => defaults
  | JObject base, Some (JObject top) =>
      JObject (foldl (λ m kv, map_insert (fst kv) (snd kv) m) base top)
  | _, Some over => over
  end.

Section engine.
Context `{JsonRender, SqlSum}.
(** The registry, the schema validator (an error text, or nothing), the n-th
    random job and run ids, and the instant a call runs at. *)
Context (registry : string → option App) (validate_params : Json → Json → option string)
  (new_v4 : nat → Uuid) (new_run_id : nat → string) (now : timestamp).

Definition validate_app_params (app : string) (params : Json) : result string unit :=
  match registry app with
  | None => Ok tt
  | Some entry =>
      match params_schema entry with
      | None => Ok tt
      | Some schema =>
          match validate_params schema params with
          | None => Ok tt
          | Some message => Err message
          end
      end
  end.

Definition target_key_for (app : string) (params : Json) : option string :=
  entry ← registry app; app_target_key entry params.

(** ** Reading the cells *)

Definition states_of (rows : cells) : states_map :=
  map_of_list
    (map (λ r, (WorkflowStepRow.step r,
                default Pending (StepState.parse (WorkflowStepRow.status r)))) rows).

Definition results_of (rows : cells) : results_map :=
  map_of_list
    (map (λ r, (WorkflowStepRow.step r, default JNull (WorkflowStepRow.result r)))
       (select_where (has_status "succeeded") rows)).

Definition emit (run_id name status : string) (w : world) : world :=
  w <| World.published ::= λ l, l ++ [RunEvent run_id name ("workflow." +:+ status)] |>.

(** ** Writes on the world *)

Definition finish_step (run_id step status : string) (result : option Json)
    (error : option Note) (w : world) : world * bool :=
  let '(cells, landed) :=
    finish_workflow_step now run_id step status result error (World.cells w) in
  (w <| World.cells := cells |>, landed).

Definition finish_run (run_id status : string) (error : option Note) (w : world)
    : world * bool :=
  let '(runs, landed) := finish_workflow_run now run_id status error (World.runs w) in
  (w <| World.runs := runs |>, landed).

(** ** Enqueueing a step *)

(** Everything decided before the claim. *)
Definition prepare_step (run : WorkflowRun.t) (spec : WorkflowSpec.t) (step : string)
    (results : results_map) : result StepError (StepSpec.t * Json * option f64) :=
  match map_get step (WorkflowSpec.steps spec) with
  | None => Err (NotInSpec step)
  | Some step_spec =>
      match render_params (StepSpec.params step_spec) results with
      | Err e => Err (TemplateRefused e)
      | Ok params =>
          match registry (StepSpec.app step_spec) with
          | None => Err (NotRegistered step (StepSpec.app step_spec))
          | Some app =>
              let params := merge_params (default_params app) (Some params) in
              match validate_app_params (StepSpec.app step_spec) params with
              | Err message => Err (ParamsRefused message)
              | Ok _ =>
                  match step_budget (StepSpec.budget_usd step_spec)
                          (WorkflowRun.budget_usd run) (WorkflowRun.spent_usd run) with
                  | Err e => Err (EnvelopeRefused e)
                  | Ok budget => Ok (step_spec, params, budget)
                  end
              end
          end
      end
  end.

Definition step_key (run_id step : string) : string :=
  (STEP_IDEMPOTENCY_PREFIX +:+ ":" +:+ run_id +:+ ":" +:+ step)%string.

Definition step_opts (run : WorkflowRun.t) (step : string) (step_spec : StepSpec.t)
    (params : Json) (budget : option f64) : Opts.t :=
  Opts.mk params (Z.min (Z.max (default 1 (StepSpec.max_attempts step_spec)) 1) 25) 0
    (default 0 (StepSpec.priority step_spec)) None None budget
    (Some (step_key (WorkflowRun.id run) step)) None None None
    (target_key_for (StepSpec.app step_spec) params)
    (Some (WorkflowRun.id run)) (Some step) (Some (WorkflowRun.root_id run)).

(** The job of a claimed step. *)
Definition enqueue_step_job (run : WorkflowRun.t) (step : string) (step_spec : StepSpec.t)
    (params : Json) (budget : option f64) (w : world) : world * result StepError Uuid :=
  let '(jobs, r) :=
    enqueue_dedup_as (new_v4 (World.drawn w)) now (StepSpec.app step_spec)
      (step_opts run step step_spec params budget) (WorkflowRun.principal_id run)
      (World.jobs w) in
  (w <| World.jobs := jobs |> <| World.drawn ::= S |>,
   match r with Ok (job, _) => Ok (Job.id job) | Err e => Err (EnqueueRefused e) end).

Definition enqueue_step (run : WorkflowRun.t) (spec : WorkflowSpec.t) (step : string)
    (results : results_map) (w : world) : world * result StepError bool :=
  match prepare_step run spec step results with
  | Err e => (w, Err e)
  | Ok (step_spec, params, budget) =>
      let '(cells, claimed) := claim_workflow_step (WorkflowRun.id run) step (World.cells w) in
      let w := w <| World.cells := cells |> in
      if claimed then
        let '(w, r) := enqueue_step_job run step step_spec params budget w in
        match r with
        | Err e => (w, Err e)
        | Ok job_id =>
            (w <| World.cells ::= set_workflow_step_job (WorkflowRun.id run) step job_id |>,
             Ok true)
        end
      else (w, Ok false)
  end.

(** ** Advancing a run *)

(** Closes the steps of a cascade; whether any cell changed. *)
Fixpoint skip_steps (run_id : string) (skips : list (string * string)) (w : world)
    : world * bool :=
  match skips with
  | [] => (w, false)
  | (step, reason) :: skips =>
      let '(w, landed) := finish_step run_id step "skipped" None (Some (Text reason)) w in
      let '(w, changed) := skip_steps run_id skips w in
      (w, landed || changed)
  end.

(** Enqueues the ready steps: whether any was enqueued, whether any failed at its
    own door. *)
Fixpoint start_steps (run : WorkflowRun.t) (spec : WorkflowSpec.t) (results : results_map)
    (ready : list string) (w : world) : world * (bool * bool) :=
  match ready with
  | [] => (w, (false, false))
  | step :: ready =>
      let '(w, r) := enqueue_step run spec step results w in
      let '(w, enqueued, failed) :=
        match r with
        | Ok b => (w, b, false)
        | Err e =>
            let '(w, landed) :=
              finish_step (WorkflowRun.id run) step "failed" None (Some (Refusal e)) w in
            (w, false, landed)
        end in
      let '(w, (any_enqueued, any_failed)) := start_steps run spec results ready w in
      (w, (enqueued || any_enqueued, failed || any_failed))
  end.

Inductive AdvanceError : Type := NoTerminatingProgress (rounds : nat).

(** One turn of the loop: it returns, or goes round again. *)
Definition advance_round (run_id : string) (rounds : nat) (w : world)
    : world * option (result AdvanceError unit) :=
  match get_workflow_run run_id (World.runs w) with
  | None => (w, Some (Ok tt))
  | Some run =>
      if negb (String.eqb (WorkflowRun.status run) "running") then (w, Some (Ok tt))
      else match get_workflow (WorkflowRun.def_id run) (World.defs w) with
      | None =>
          (fst (finish_run run_id "failed"
                  (Some (Text "the workflow definition was deleted while this run was open")) w),
           Some (Ok tt))
      | Some def =>
          match parse_spec (WorkflowDef.spec def) with
          | Err errs =>
              (emit run_id (WorkflowDef.name def) "failed"
                 (fst (finish_run run_id "failed" (Some (SpecNoLongerValid errs)) w)),
               Some (Ok tt))
          | Ok spec =>
              if bool_decide (length (WorkflowSpec.steps spec) * ADVANCE_ROUNDS_PER_STEP + 4
                              < rounds)%nat
              then (w, Some (Err (NoTerminatingProgress rounds)))
              else
                let rows := workflow_steps run_id (World.cells w) in
                let states := states_of rows in
                let results := results_of rows in
                let '(w, changed) := skip_steps run_id (cascade_skips spec states) w in
                if changed then (w, None)
                else
                  let '(w, (enqueued_any, failed_any)) :=
                    start_steps run spec results (ready_steps spec states) w in
                  if failed_any then (w, None)
                  else if enqueued_any then (w <| World.wakeups ::= S |>, Some (Ok tt))
                  else
                    match run_verdict states with
                    | None => (w, Some (Ok tt))
                    | Some (status, error) =>
                        let '(w, landed) := finish_run run_id status (Text <$> error) w in
                        ((if landed then emit run_id (WorkflowDef.name def) status w else w),
                         Some (Ok tt))
                    end
          end
      end
  end.

(** The loop: [None] is the fuel running out. *)
Fixpoint advance_loop (fuel : nat) (rounds : nat) (run_id : string) (w : world)
    : world * option (result AdvanceError unit) :=
  match fuel with
  | O => (w, None)
  | S fuel =>
      match advance_round run_id (S rounds) w with
      | (w, Some r) => (w, Some r)
      | (w, None) => advance_loop fuel (S rounds) run_id w
      end
  end.

(** A spec has at most [MAX_STEPS] steps, so the loop's own ceiling is at most
    [3 * MAX_STEPS + 4] rounds. *)
Definition advance_fuel : nat := Z.to_nat MAX_STEPS * ADVANCE_ROUNDS_PER_STEP + 5.

Definition advance (run_id : string) (w : world) : world * option (result AdvanceError unit) :=
  advance_loop advance_fuel 0 run_id w.

(** ** Opening a run *)

Inductive StartError : Type :=
| SpecRefused (errors : list SpecError)
| StoreFailed (e : Error)
| AdvanceFailed (e : AdvanceError).

Definition start_run (def : WorkflowDef.t) (budget_usd : option f64)
    (idempotency_key principal_id : option string) (w : world)
    : world * option (result StartError (WorkflowRun.t * bool)) :=
  match parse_spec (WorkflowDef.spec def) with
  | Err errs => (w, Some (Err (SpecRefused errs)))
  | Ok spec =>
      let '(runs, r) :=
        create_workflow_run (new_run_id (World.drawn w)) now
          (NewWorkflowRun.mk (WorkflowDef.id def)
             (coalesce_opt budget_usd (WorkflowSpec.budget_usd spec)) idempotency_key
             principal_id) (World.runs w) in
      let w := w <| World.runs := runs |> <| World.drawn ::= S |> in
      match r with
      | Err e => (w, Some (Err (StoreFailed e)))
      | Ok (run, false) => (w, Some (Ok (run, false)))
      | Ok (run, true) =>
          let run_id := WorkflowRun.id run in
          let '(cells, r) :=
            insert_workflow_steps run_id
              (map (λ kv, (fst kv, StepSpec.after (snd kv))) (WorkflowSpec.steps spec))
              (World.cells w) in
          match r with
          | Err e => (w, Some (Err (StoreFailed e)))
          | Ok _ =>
              let w := emit run_id (WorkflowDef.name def) "running"
                         (w <| World.cells := cells |>) in
              match advance run_id w with
              | (w, None) => (w, None)
              | (w, Some (Err e)) => (w, Some (Err (AdvanceFailed e)))
              | (w, Some (Ok _)) =>
                  (w, Some (Ok (default run (get_workflow_run run_id (World.runs w)), true)))
              end
          end
      end
  end.

(** ** The worker hook *)

Definition on_step_terminal (job : Job.t) (w : world) : world :=
  if negb (JobStatus.is_terminal (Job.status job)) then w
  else match workflow_step_for_job (Job.id job) (World.cells w) with
  | None => w
  | Some (run_id, step) =>
      let status :=
        match Job.status job with
        | Jobs.Succeeded => Succeeded
        | Jobs.Cancelled => Cancelled
        | _ => Failed
        end in
      let '(w, landed) :=
        finish_step run_id step (StepState.as_str status) (Job.result job)
          (Text <$> Job.error job) w in
      if landed then
        let '(runs, _) :=
          refresh_workflow_spend run_id (World.ledger w) (World.jobs w) (World.runs w) in
        fst (advance run_id (w <| World.runs := runs |>))
      else w
  end.

(** ** Cancelling *)

(** [DELETE /jobs/{id}]: a queued job is cancelled here; a running one has its
    token fired ([live] is the token registry and the intent the claim answers);
    anything else is refused. *)
Definition cancel_job (live : Uuid → option CancelKind) (id : Uuid) (w : world)
    : world * bool :=
  let '(jobs, cancelled) := cancel now id (World.jobs w) in
  let w := w <| World.jobs := jobs |> in
  match cancelled with
  | Some app => (w <| World.published ::= λ l, l ++ [JobEvent id app "cancelled"] |>, true)
  | None =>
      match live id with
      | Some _ => (w <| World.fired ::= cons id |>, true)
      | None => (w, false)
      end
  end.

Fixpoint cancel_steps (live : Uuid → option CancelKind) (run_id : string)
    (open : list (string * option Uuid)) (w : world) : world * nat :=
  match open with
  | [] => (w, O)
  | (step, job_id) :: open =>
      let '(w, hit) :=
        match job_id with
        | Some id => cancel_job live id w
        | None => (w, false)
        end in
      let w := fst (finish_step run_id step "cancelled" None
                      (Some (Text "the workflow run was cancelled")) w) in
      let '(w, n) := cancel_steps live run_id open w in
      (w, ((if hit then 1 else 0) + n)%nat)
  end.

Definition cancel_run (live : Uuid → option CancelKind) (run_id : string) (w : world)
    : world * nat :=
  let '(w, n) := cancel_steps live run_id (open_workflow_steps run_id (World.cells w)) w in
  let w := fst (finish_run run_id "cancelled" (Some (Text "cancelled by request")) w) in
  let w :=
    match get_workflow_run run_id (World.runs w) with
    | None => w
    | Some run =>
        match get_workflow (WorkflowRun.def_id run) (World.defs w) with
        | None => w
        | Some def => emit run_id (WorkflowDef.name def) "cancelled" w
        end
    end in
  (w, n).

(** ** Scheduled plans *)

(** [cron_due cron since now]: the expression does not parse, or whether its first
    firing after [since] is at or before [now]. *)
Context (cron_due : string → timestamp → timestamp → option bool).

Definition fires (def : WorkflowDef.t) (last_pass : option timestamp) (w : world) : bool :=
  match WorkflowDef.cron def, last_pass with
  | Some cron, Some since =>
      match cron_due cron since now with
      | Some true =>
          match latest_workflow_run (WorkflowDef.id def) (World.runs w) with
          | Some (_, status) => negb (String.eqb status "running")
          | None => true
          end
      | _ => false
      end
  | _, _ => false
  end.

Definition reconcile_scheduled (last_pass : option timestamp) (w : world) : world :=
  foldl (λ w def, if fires def last_pass w then fst (start_run def None None None w) else w)
    w (scheduled_workflows (World.defs w)).
End engine.
