(* ===== verification/WorkflowTheorems.v ===== *)
(** * WorkflowTheorems: runs that advance, cells that are claimed once

    The advance loop always ends and leaves a run either closed or waiting on a
    job; a cell is claimed and closed at most once, whatever the interleaving; and
    a queued step whose job is cancelled at the jobs door holds its run open. *)

From S2P Require Import Prelude Sql Float64 Json Errors Jobs JobQueue Costs WorkflowSpec.
From S2P Require Import PlanTheorems WorkflowStore WorkflowEngine.

Abbreviation cell := WorkflowStepRow.t.

(** ** Cells under the statements *)

Definition cell_key (c : cell) : string * string :=
  (WorkflowStepRow.run_id c, WorkflowStepRow.step c).

Definition find_cell (run_id step : string) (t : cells) : option cell :=
  List.find (cell_is run_id step) t.

Definition status_at (run_id step : string) (t : cells) : option string :=
  WorkflowStepRow.status <$> find_cell run_id step t.

Lemma cell_is_key run_id step c : cell_is run_id step c = true ↔ cell_key c = (run_id, step).
Proof.
  unfold cell_is, cell_key. rewrite andb_true_iff, !String.eqb_eq. split; [by intros [-> ->]|].
  by intros [= -> ->].
Qed.

Lemma find_update {A} (q p : A → bool) (f : A → A) t :
  (∀ x, q (f x) = q x) →
  List.find q (update_where p f t) = (λ x, if p x then f x else x) <$> List.find q t.
Proof.
  intros Hq. unfold update_where. induction t as [|x t IH]; [done|]. cbn.
  assert (q (if p x then f x else x) = q x) as -> by (case_if; by rewrite ?Hq).
  by destruct (q x).
Qed.

Lemma find_cell_Some run_id step t c :
  find_cell run_id step t = Some c → c ∈ t ∧ cell_key c = (run_id, step).
Proof.
  intros H. apply List.find_some in H as [Hin Hk]. split; [by apply list_elem_of_In|].
  by apply cell_is_key.
Qed.

Lemma find_cell_elem t c run_id step :
  NoDup (map cell_key t) → c ∈ t → cell_key c = (run_id, step) →
  find_cell run_id step t = Some c.
Proof.
  unfold find_cell. induction t as [|c' t IH]; cbn; [set_solver|].
  rewrite NoDup_cons. intros [Hni Hnd] [->|Hin]%elem_of_cons Hk.
  - apply cell_is_key in Hk. by rewrite Hk.
  - destruct (cell_is run_id step c') eqn:E; [|by apply IH].
    exfalso. apply Hni. apply cell_is_key in E. rewrite E, <- Hk.
    apply list_elem_of_In, in_map. by apply list_elem_of_In.
Qed.

(** A guarded write on one cell lands exactly when that cell passes the guard. *)
Lemma cell_write_lands p t run_id step :
  NoDup (map cell_key t) →
  (0 <? rows_affected (λ c, cell_is run_id step c && p c) t) = true ↔
  ∃ c, find_cell run_id step t = Some c ∧ p c = true.
Proof.
  intros Hnd. rewrite Z.ltb_lt, rows_affected_pos. split.
  - intros (c & Hin & [Hk Hp]%andb_true_iff). exists c. split; [|done].
    apply find_cell_elem; [done..|]. by apply cell_is_key.
  - intros (c & Hf & Hp). apply find_cell_Some in Hf as [Hin Hk]. exists c.
    split; [done|]. apply cell_is_key in Hk. by rewrite Hk, Hp.
Qed.

Lemma find_claim r s run_id step t :
  find_cell r s (fst (claim_workflow_step run_id step t)) =
  (λ c, if cell_is run_id step c && has_status "pending" c
        then c <| WorkflowStepRow.status := "queued"%string |> else c) <$> find_cell r s t.
Proof. by apply find_update. Qed.

Lemma find_set_job r s run_id step id t :
  find_cell r s (set_workflow_step_job run_id step id t) =
  (λ c, if cell_is run_id step c then c <| WorkflowStepRow.job_id := Some id |> else c)
    <$> find_cell r s t.
Proof. by apply find_update. Qed.

Definition closed_cell (now : timestamp) (status : string) (result : option Json)
    (error : option Note) (c : cell) : cell :=
  c <| WorkflowStepRow.status := status |> <| WorkflowStepRow.result := result |>
    <| WorkflowStepRow.error := error |> <| WorkflowStepRow.finished_at := Some now |>.

Lemma find_finish now r s run_id step status result error t :
  find_cell r s (fst (finish_workflow_step now run_id step status result error t)) =
  (λ c, if cell_is run_id step c && is_open_cell c
        then closed_cell now status result error c else c) <$> find_cell r s t.
Proof. by apply find_update. Qed.

(** None of the three rekeys a cell. *)
Lemma keys_claim run_id step t :
  map cell_key (fst (claim_workflow_step run_id step t)) = map cell_key t.
Proof. by apply map_update_where. Qed.
Lemma keys_set_job run_id step id t :
  map cell_key (set_workflow_step_job run_id step id t) = map cell_key t.
Proof. by apply map_update_where. Qed.
Lemma keys_finish now run_id step status result error t :
  map cell_key (fst (finish_workflow_step now run_id step status result error t))
  = map cell_key t.
Proof. by apply map_update_where. Qed.

Lemma list_find_app {A} (q : A → bool) l1 l2 :
  List.find q (l1 ++ l2)
  = match List.find q l1 with Some x => Some x | None => List.find q l2 end.
Proof. induction l1 as [|x l1 IH]; [done|]. cbn. by destruct (q x). Qed.

(** ** A run whose cells are those of its plan *)

Record tidy (run_id : string) (spec : WorkflowSpec.t) (t : cells) : Prop := {
  tidy_keys : NoDup (map cell_key t);
  tidy_cover : ∀ n, is_Some (find_cell run_id n t) ↔ n ∈ map_keys (WorkflowSpec.steps spec);
  tidy_status : ∀ n c, find_cell run_id n t = Some c →
    ∃ s, WorkflowStepRow.status c = StepState.as_str s;
}.

Lemma tidy_update run_id spec p f t :
  (∀ c, cell_key (f c) = cell_key c) →
  (∀ c s, p c = true → WorkflowStepRow.status c = StepState.as_str s →
     ∃ s', WorkflowStepRow.status (f c) = StepState.as_str s') →
  tidy run_id spec t → tidy run_id spec (update_where p f t).
Proof.
  intros Hk Hs [H1 H2 H3].
  assert (∀ n, find_cell run_id n (update_where p f t)
               = (λ c, if p c then f c else c) <$> find_cell run_id n t) as Hf.
  { intros n. apply find_update. intros c. apply eq_true_iff_eq. by rewrite !cell_is_key, Hk. }
  split.
  - by rewrite map_update_where.
  - intros n. rewrite Hf, <- H2. apply fmap_is_Some.
  - intros n c. rewrite Hf, fmap_Some. intros (c0 & Hc & ->). destruct (H3 _ _ Hc) as [s Hc'].
    case_if; [by eapply Hs|eauto].
Qed.

Section run_states.
Context (run_id : string) (t : cells).
Hypothesis Hnd : NoDup (map cell_key t).

Lemma in_run_key c : in_run run_id c = true ↔ cell_key c = (run_id, WorkflowStepRow.step c).
Proof. unfold in_run, cell_key. rewrite String.eqb_eq. split; [by intros ->|by intros [= ->]]. Qed.

Lemma NoDup_run_steps : NoDup (map WorkflowStepRow.step (workflow_steps run_id t)).
Proof.
  unfold workflow_steps. rewrite (Permutation_map _ (order_by_perm _ _)).
  unfold select_where. induction t as [|c l IH]; [constructor|]. cbn in *.
  apply NoDup_cons in Hnd as [Hni Hnd']. destruct (in_run run_id c) eqn:E; [|by apply IH].
  cbn. constructor; [|by apply IH]. intros Hin. apply Hni.
  apply list_elem_of_In, in_map_iff in Hin as (c' & Hs & [Hin Hr]%filter_In).
  apply in_run_key in E, Hr. apply list_elem_of_In, in_map_iff. exists c'.
  split; [|done]. by rewrite E, Hr, Hs.
Qed.

Lemma states_find n s :
  map_get n (states_of (workflow_steps run_id t)) = Some s ↔
  ∃ c, find_cell run_id n t = Some c ∧
       s = default Pending (StepState.parse (WorkflowStepRow.status c)).
Proof.
  assert (NoDup (map_keys (map (λ r, (WorkflowStepRow.step r,
    default Pending (StepState.parse (WorkflowStepRow.status r)))) (workflow_steps run_id t))))
    as Hkeys by (unfold map_keys; rewrite List.map_map; apply NoDup_run_steps).
  unfold states_of. rewrite map_get_map_of_list by done. split.
  - intros H%map_get_Some_elem. apply list_elem_of_In, in_map_iff in H as (c & [= <- Hs] & Hin).
    apply list_elem_of_In, elem_of_order_by, elem_of_select in Hin as [Hin Hr].
    apply in_run_key in Hr. exists c. split; [by apply find_cell_elem|done].
  - intros (c & Hf & ->). apply find_cell_Some in Hf as [Hin Hk].
    apply map_get_elem; [done|]. apply list_elem_of_In, in_map_iff. exists c.
    injection Hk as Hr Hst. rewrite Hst. split; [done|].
    apply list_elem_of_In, elem_of_order_by, elem_of_select. split; [done|].
    unfold in_run. by rewrite Hr, String.eqb_refl.
Qed.
End run_states.

Section states.
Context (run_id : string) (spec : WorkflowSpec.t) (t : cells).
Hypothesis Ht : tidy run_id spec t.

Lemma states_get n s :
  map_get n (states_of (workflow_steps run_id t)) = Some s ↔
  ∃ c, find_cell run_id n t = Some c ∧ WorkflowStepRow.status c = StepState.as_str s.
Proof.
  rewrite states_find by apply Ht. split; intros (c & Hf & Hs); exists c; (split; [done|]).
  - destruct (tidy_status _ _ _ Ht _ _ Hf) as [s' Hs'].
    rewrite Hs', StepState.parse_as_str in Hs. cbn in Hs. by subst.
  - by rewrite Hs, StepState.parse_as_str.
Qed.

Lemma states_cover n :
  n ∈ map_keys (states_of (workflow_steps run_id t)) ↔ n ∈ map_keys (WorkflowSpec.steps spec).
Proof.
  rewrite <- map_get_is_Some, <- (tidy_cover _ _ _ Ht). split.
  - intros [s (c & Hf & _)%states_get]. eauto.
  - intros [c Hf]. destruct (tidy_status _ _ _ Ht _ _ Hf) as [s Hs]. exists s.
    apply states_get. eauto.
Qed.

Lemma states_NoDup : NoDup (map_keys (states_of (workflow_steps run_id t))).
Proof. apply NoDup_map_of_list. Qed.

(** The cells still open, and their bound. *)
Definition open_count (run_id : string) (t : cells) : Z :=
  rows_affected (λ c, in_run run_id c && is_open_cell c) t.

Lemma open_count_le : open_count run_id t ≤ Z.of_nat (length (WorkflowSpec.steps spec)).
Proof.
  unfold open_count, rows_affected. rewrite select_where_and.
  pose proof (length_select_where is_open_cell (select_where (in_run run_id) t)) as H1.
  assert (length (select_where (in_run run_id) t) ≤ length (WorkflowSpec.steps spec))%nat as H2;
    [|lia].
  rewrite <- (List.length_map fst (WorkflowSpec.steps spec)).
  rewrite <- (length_order_by by_step (select_where (in_run run_id) t)).
  rewrite <- (List.length_map WorkflowStepRow.step).
  apply submseteq_length, NoDup_submseteq; [apply NoDup_run_steps, Ht|]. intros n Hn.
  apply list_elem_of_In, in_map_iff in Hn as (c & <- & Hin).
  apply list_elem_of_In, elem_of_order_by, elem_of_select in Hin as [Hin Hr].
  apply in_run_key in Hr. apply (tidy_cover _ _ _ Ht). exists c.
  apply find_cell_elem; [apply Ht|done..].
Qed.
End states.

(** ** One round of the advance loop *)

Definition closes (st : StepState) : Prop := StepState.is_open st = false.

Lemma is_open_as_str c s :
  WorkflowStepRow.status c = StepState.as_str s → is_open_cell c = StepState.is_open s.
Proof. unfold is_open_cell, has_status. intros ->. by destruct s. Qed.

(** What a write of a round keeps: the runs, the plans and the shape of the cells. *)
Record kept (run_id : string) (spec : WorkflowSpec.t) (w w' : world) : Prop := {
  kept_runs : World.runs w' = World.runs w;
  kept_defs : World.defs w' = World.defs w;
  kept_tidy : tidy run_id spec (World.cells w) → tidy run_id spec (World.cells w');
  kept_open : open_count run_id (World.cells w') ≤ open_count run_id (World.cells w);
}.

Lemma kept_refl run_id spec w : kept run_id spec w w.
Proof. by split. Qed.

Lemma kept_trans run_id spec w1 w2 w3 :
  kept run_id spec w1 w2 → kept run_id spec w2 w3 → kept run_id spec w1 w3.
Proof. intros [] []. split; [congruence|congruence|auto|lia]. Qed.

Section round.
Context `{JsonRender} (registry : string → option App)
  (validate_params : Json → Json → option string) (new_v4 : nat → Uuid) (now : timestamp).
Context (run_id : string) (spec : WorkflowSpec.t).

Lemma finish_step_kept step st result error w w' landed :
  closes st →
  finish_step now run_id step (StepState.as_str st) result error w = (w', landed) →
  kept run_id spec w w' ∧
  (if landed then open_count run_id (World.cells w') < open_count run_id (World.cells w)
   else World.cells w' = World.cells w).
Proof.
  intros Hst Hf. unfold finish_step, finish_workflow_step in Hf. injection Hf as Hw Hl.
  set (p c := cell_is run_id step c && is_open_cell c) in *.
  set (f c := closed_cell now (StepState.as_str st) result error c).
  assert (World.cells w' = update_where p f (World.cells w)) as Hcells by by rewrite <- Hw.
  assert (open_count run_id (World.cells w')
          = open_count run_id (World.cells w) - rows_affected p (World.cells w)) as Hc.
  { rewrite Hcells. apply rows_affected_closing. intros c [Hk Ho]%andb_true_iff.
    apply cell_is_key in Hk as Hk'. rewrite Ho, (proj2 (in_run_key run_id c)).
    - split; [done|]. apply andb_false_iff. right.
      rewrite (is_open_as_str (f c) st eq_refl). exact Hst.
    - unfold cell_key in *. by injection Hk' as -> _. }
  assert (0 ≤ rows_affected p (World.cells w)) by (unfold rows_affected; lia).
  split; [split|].
  - by rewrite <- Hw.
  - by rewrite <- Hw.
  - intros Ht. rewrite Hcells. apply tidy_update; [done| |done]. intros c s _ _. by exists st.
  - lia.
  - subst landed. destruct (Z.ltb_spec 0 (rows_affected p (World.cells w))) as [Hr|Hr]; [lia|].
    rewrite Hcells. apply update_where_none, rows_affected_0. lia.
Qed.

Lemma finish_step_lands step st result error w w' landed :
  tidy run_id spec (World.cells w) →
  finish_step now run_id step (StepState.as_str st) result error w = (w', landed) →
  (∃ c, find_cell run_id step (World.cells w) = Some c ∧ is_open_cell c = true) →
  landed = true.
Proof.
  intros Ht. unfold finish_step, finish_workflow_step. intros [= _ <-] Hc.
  apply cell_write_lands; [apply Ht|done].
Qed.

Lemma skip_steps_kept skips w w' changed :
  skip_steps now run_id skips w = (w', changed) →
  kept run_id spec w w' ∧
  (if changed then open_count run_id (World.cells w') < open_count run_id (World.cells w)
   else World.cells w' = World.cells w).
Proof.
  revert w w' changed. induction skips as [|[step reason] skips IH]; intros w w' changed; cbn [skip_steps].
  { intros [= <- <-]. split; [apply kept_refl|done]. }
  destruct (finish_step _ _ _ _ _ _ _) as [w1 landed] eqn:E1.
  destruct (skip_steps _ _ _ _) as [w2 rest] eqn:E2. intros [= <- <-].
  apply (finish_step_kept _ Skipped) in E1 as [K1 H1]; [|done]. apply IH in E2 as [K2 H2].
  split; [by eapply kept_trans|]. pose proof (kept_open _ _ _ _ K1).
  pose proof (kept_open _ _ _ _ K2). destruct landed, rest; cbn; [lia..|congruence].
Qed.

Lemma skip_steps_changed skips w w' changed :
  tidy run_id spec (World.cells w) → skip_steps now run_id skips w = (w', changed) →
  (∀ n reason, (n, reason) ∈ skips →
     ∃ c, find_cell run_id n (World.cells w) = Some c ∧ is_open_cell c = true) →
  skips ≠ [] → changed = true.
Proof.
  intros Ht Hs Hopen Hne. destruct skips as [|[step reason] skips]; [done|].
  cbn [skip_steps] in Hs.
  destruct (finish_step _ _ _ _ _ _ _) as [w1 landed] eqn:E1.
  destruct (skip_steps _ _ _ _) as [w2 rest] eqn:E2. injection Hs as <- <-.
  rewrite (finish_step_lands _ Skipped _ _ _ _ _ Ht E1); [done|].
  apply (Hopen step reason). left.
Qed.

Definition queued_at (n : string) (t : cells) : Prop :=
  status_at run_id n t = Some "queued"%string.

Lemma claim_kept step t t' claimed :
  claim_workflow_step run_id step t = (t', claimed) →
  (tidy run_id spec t → tidy run_id spec t') ∧ open_count run_id t' = open_count run_id t ∧
  (∀ n, queued_at n t → queued_at n t') ∧
  (claimed = true → NoDup (map cell_key t) → queued_at step t') ∧
  (NoDup (map cell_key t) → status_at run_id step t = Some "pending"%string → claimed = true).
Proof.
  intros Hc. assert (t' = fst (claim_workflow_step run_id step t)) as Ht' by by rewrite Hc.
  unfold claim_workflow_step in Hc. injection Hc as _ Hl. split_and!.
  - intros Ht. subst t'. apply tidy_update; [done| |done]. intros c s _ _. by exists Queued.
  - subst t'. apply rows_affected_keeping. intros c [_ Hp]%andb_true_iff.
    unfold is_open_cell. rewrite Hp. done.
  - intros n. unfold queued_at, status_at. subst t'. rewrite find_claim.
    destruct (find_cell run_id n t) as [c|]; [|done]. cbn. intros [= Hq]. case_if; cbn; by rewrite ?Hq.
  - intros -> Hnd. apply cell_write_lands in Hl as (c & Hf & Hp); [|done].
    unfold queued_at, status_at. subst t'. rewrite find_claim, Hf. cbn.
    apply find_cell_Some in Hf as [_ Hk%cell_is_key]. by rewrite Hk, Hp.
  - intros Hnd Hs. subst claimed. apply cell_write_lands; [done|].
    unfold status_at in Hs. apply fmap_Some in Hs as (c & Hf & Hs). exists c.
    split; [done|]. unfold has_status. by rewrite <- Hs.
Qed.

Lemma set_job_kept step id t :
  (tidy run_id spec t → tidy run_id spec (set_workflow_step_job run_id step id t)) ∧
  open_count run_id (set_workflow_step_job run_id step id t) = open_count run_id t ∧
  (∀ n, queued_at n t → queued_at n (set_workflow_step_job run_id step id t)).
Proof.
  split_and!.
  - apply tidy_update; [done|]. intros c s _ Hs. by exists s.
  - by apply rows_affected_keeping.
  - intros n. unfold queued_at, status_at. rewrite find_set_job.
    destruct (find_cell run_id n t) as [c|]; [|done]. cbn. intros [= Hq]. case_if; cbn; by rewrite ?Hq.
Qed.

Context (run : WorkflowRun.t) (Hrun : WorkflowRun.id run = run_id).

Lemma enqueue_step_kept results step w w' r :
  enqueue_step registry validate_params new_v4 now run spec step results w = (w', r) →
  kept run_id spec w w' ∧ (∀ n, queued_at n (World.cells w) → queued_at n (World.cells w')) ∧
  (tidy run_id spec (World.cells w) → r = Ok true → queued_at step (World.cells w')) ∧
  (tidy run_id spec (World.cells w) →
   status_at run_id step (World.cells w) = Some "pending"%string →
   r ≠ Ok false ∧ ∃ c, find_cell run_id step (World.cells w') = Some c ∧ is_open_cell c = true).
Proof.
  unfold enqueue_step. rewrite Hrun.
  assert (∀ c t, status_at run_id step t = Some (StepState.as_str c) →
    StepState.is_open c = true →
    ∃ c, find_cell run_id step t = Some c ∧ is_open_cell c = true) as Hopen.
  { intros s t (c & Hf & Hs)%fmap_Some Ho. exists c. split; [done|].
    by rewrite (is_open_as_str c s). }
  destruct (prepare_step _ _ _ _ _ _) as [[[step_spec params] budget]|e].
  2:{ intros [= <- <-]. split_and!; [apply kept_refl|done|done|]. intros _ Hs.
      split; [done|]. by apply (Hopen Pending). }
  destruct (claim_workflow_step run_id step (World.cells w)) as [t1 claimed] eqn:Ec.
  apply claim_kept in Ec as (Ht1 & Ho1 & Hq1 & Hc1 & Hp1).
  destruct claimed.
  2:{ intros [= <- <-]. split_and!; [split; cbn; auto; lia|done|done|].
      intros Ht Hs. by specialize (Hp1 (tidy_keys _ _ _ Ht) Hs). }
  unfold enqueue_step_job. destruct (enqueue_dedup_as _ _ _ _ _ _) as [jobs' [[job created]|e]].
  - destruct (set_job_kept step (Job.id job) t1) as (Ht2 & Ho2 & Hq2).
    intros [= <- <-]. cbn. split_and!; [split; cbn; auto; lia|auto| |].
    + intros Ht _. apply Hq2, Hc1; [done|apply Ht].
    + intros Ht _. split; [done|]. apply (Hopen Queued); [|done].
      apply Hq2, Hc1; [done|apply Ht].
  - intros [= <- <-]. cbn. split_and!; [split; cbn; auto; lia|auto|done|].
    intros Ht _. split; [done|]. apply (Hopen Queued); [|done].
    apply Hc1; [done|apply Ht].
Qed.

Lemma start_steps_kept results ready w w' enqueued failed :
  start_steps registry validate_params new_v4 now run spec results ready w
    = (w', (enqueued, failed)) →
  kept run_id spec w w' ∧
  (if failed then open_count run_id (World.cells w') < open_count run_id (World.cells w)
   else (∀ n, queued_at n (World.cells w) → queued_at n (World.cells w')) ∧
        (tidy run_id spec (World.cells w) → enqueued = true →
         ∃ n, queued_at n (World.cells w'))).
Proof.
  revert w w' enqueued failed.
  induction ready as [|step ready IH]; intros w w' enqueued failed; cbn [start_steps].
  { intros [= <- <- <-]. split; [apply kept_refl|done]. }
  destruct (enqueue_step _ _ _ _ _ _ _ _ _) as [w1 r] eqn:E1.
  apply enqueue_step_kept in E1 as (K1 & Q1 & T1 & _). destruct r as [b|e].
  - destruct (start_steps _ _ _ _ _ _ _ _ _) as [w2 [any_e any_f]] eqn:E2.
    intros [= <- <- <-]. apply IH in E2 as [K2 H2]. split; [by eapply kept_trans|].
    pose proof (kept_open _ _ _ _ K1). cbn. destruct any_f; [lia|]. destruct H2 as [Q2 T2].
    split; [auto|]. intros Ht [-> | ->]%orb_true_iff; [eauto|].
    apply T2; [by eapply kept_tidy|done].
  - rewrite Hrun. destruct (finish_step _ _ _ _ _ _ _) as [w2 landed] eqn:E2.
    destruct (start_steps _ _ _ _ _ _ _ _ _) as [w3 [any_e any_f]] eqn:E3.
    intros [= <- <- <-]. apply (finish_step_kept _ Failed) in E2 as [K2 H2]; [|done].
    apply IH in E3 as [K3 H3].
    split; [by eapply kept_trans; [|eapply kept_trans]|].
    pose proof (kept_open _ _ _ _ K1). pose proof (kept_open _ _ _ _ K2).
    pose proof (kept_open _ _ _ _ K3).
    destruct landed, any_f; cbn; try lia. destruct H3 as [Q3 T3]. rewrite H2 in Q3. split; [auto|].
    intros Ht ->. apply T3; [|done]. eapply kept_tidy; [done|]. by eapply kept_tidy.
Qed.

(** A ready step either gets its job or is recorded as failed. *)
Lemma start_steps_moves results ready w w' enqueued failed :
  start_steps registry validate_params new_v4 now run spec results ready w
    = (w', (enqueued, failed)) →
  tidy run_id spec (World.cells w) → ready ≠ [] →
  (∀ n, n ∈ ready → status_at run_id n (World.cells w) = Some "pending"%string) →
  enqueued || failed = true.
Proof.
  intros Hs Ht Hne Hp. destruct ready as [|step ready]; [done|]. cbn [start_steps] in Hs.
  destruct (enqueue_step _ _ _ _ _ _ _ _ _) as [w1 r] eqn:E1.
  apply enqueue_step_kept in E1 as (K1 & _ & _ & M1).
  destruct (M1 Ht (Hp step ltac:(left))) as [Hr Hc]. destruct r as [b|e].
  - destruct b; [|done]. destruct (start_steps _ _ _ _ _ _ _ _ _) as [w2 [any_e any_f]].
    by injection Hs as <- <- <-.
  - rewrite Hrun in Hs. destruct (finish_step _ _ _ _ _ _ _) as [w2 landed] eqn:E2.
    destruct (start_steps _ _ _ _ _ _ _ _ _) as [w3 [any_e any_f]].
    injection Hs as <- <- <-.
    rewrite (finish_step_lands _ Failed _ _ _ _ _ (kept_tidy _ _ _ _ K1 Ht) E2 Hc).
    by destruct any_e.
Qed.
End round.

(** ** The loop ends, and ends somewhere *)

(** The run is closed, or some step of it is with a job. *)
Definition quiescent (run_id : string) (w : world) : Prop :=
  match get_workflow_run run_id (World.runs w) with
  | None => True
  | Some run =>
      WorkflowRun.status run ≠ "running"%string ∨ ∃ n, queued_at run_id n (World.cells w)
  end.

Lemma cascade_skips_pending spec states n reason :
  (n, reason) ∈ cascade_skips spec states → map_get n states = Some Pending.
Proof.
  unfold cascade_skips. destruct (List.filter _ (map_keys _)) as [|bad l]; [set_solver|].
  intros ([k step] & _ & Hk)%list_elem_of_omap. cbn in Hk. unfold state_is in Hk.
  destruct (bool_decide (map_get k states = Some Pending)) eqn:E; [|done].
  apply bool_decide_eq_true in E. repeat case_match; by simplify_eq.
Qed.

Lemma ready_steps_pending spec states n :
  n ∈ ready_steps spec states → map_get n states = Some Pending.
Proof.
  unfold ready_steps. intros ([k step] & _ & Hk)%list_elem_of_omap. cbn in Hk.
  case_match eqn:E; [|done]. simplify_eq. apply andb_true_iff in E as [E _].
  by apply bool_decide_eq_true in E.
Qed.

Lemma run_verdict_not_running states status error :
  run_verdict states = Some (status, error) → status ≠ "running"%string.
Proof. unfold run_verdict. intros H ->. repeat case_match; by simplify_eq. Qed.

Lemma get_finished_run now run_id status error t run :
  get_workflow_run run_id t = Some run →
  ∃ run', get_workflow_run run_id (fst (finish_workflow_run now run_id status error t)) = Some run'
    ∧ (WorkflowRun.status run = "running"%string → WorkflowRun.status run' = status).
Proof.
  unfold get_workflow_run. intros Hr. pose proof Hr as [_ Hid]%lookup_by_Some.
  unfold finish_workflow_run. cbn [fst].
  rewrite (lookup_by_update WorkflowRun.id) by done. rewrite Hr. eexists. split; [done|].
  intros Hs. unfold run_is. by rewrite Hid, Hs, !String.eqb_refl.
Qed.

Section advance.
Context `{JsonRender} (registry : string → option App)
  (validate_params : Json → Json → option string) (new_v4 : nat → Uuid) (now : timestamp).
Context (run_id : string) (spec : WorkflowSpec.t) (run : WorkflowRun.t) (def : WorkflowDef.t).
Hypothesis Hspec : parse_spec (WorkflowDef.spec def) = Ok spec.

(** The run is being advanced on its own plan. *)
Record open_run (w : world) : Prop := {
  open_get : get_workflow_run run_id (World.runs w) = Some run;
  open_running : WorkflowRun.status run = "running"%string;
  open_def : get_workflow (WorkflowRun.def_id run) (World.defs w) = Some def;
  open_tidy : tidy run_id spec (World.cells w);
}.

Lemma open_run_kept w w' : kept run_id spec w w' → open_run w → open_run w'.
Proof. intros [Hr Hd Ht _] []. split; rewrite ?Hr, ?Hd; auto. Qed.

Lemma advance_round_spec rounds w w' r :
  open_run w → (rounds ≤ length (WorkflowSpec.steps spec) * ADVANCE_ROUNDS_PER_STEP + 4)%nat →
  advance_round registry validate_params new_v4 now run_id rounds w = (w', r) →
  match r with
  | None => kept run_id spec w w' ∧
            open_count run_id (World.cells w') < open_count run_id (World.cells w)
  | Some x => x = Ok tt ∧ quiescent run_id w'
  end.
Proof.
  intros [Hget Hrunning Hdef Ht] Hr. unfold advance_round.
  assert (WorkflowRun.id run = run_id) as Hid by by apply lookup_by_Some in Hget as [_ ?].
  rewrite Hget, Hrunning, Hdef, Hspec. cbn [negb String.eqb Ascii.eqb].
  change (negb ("running" =? "running")%string) with false. cbn iota.
  rewrite bool_decide_eq_false_2 by lia.
  set (states := states_of (workflow_steps run_id (World.cells w))).
  destruct (skip_steps now run_id _ w) as [w1 changed] eqn:E1.
  pose proof (skip_steps_changed _ run_id spec _ _ _ _ Ht E1) as Hch.
  apply (skip_steps_kept _ run_id spec) in E1 as [K1 H1]. destruct changed.
  { intros [= <- <-]. done. }
  assert (cascade_skips spec states = []) as Hskip.
  { destruct (cascade_skips spec states) eqn:E; [done|]. exfalso.
    assert (false = true); [apply Hch|done]; [|done]. intros n reason Hin.
    rewrite <- E in Hin. apply cascade_skips_pending, (states_get run_id spec) in Hin as (c & Hf & Hs);
      [|done]. exists c. split; [done|]. by rewrite (is_open_as_str c Pending). }
  destruct (start_steps _ _ _ _ _ _ _ _ w1) as [w2 [enqueued failed]] eqn:E2.
  pose proof (open_run_kept _ _ K1 ltac:(by split)) as [Hget1 _ _ Ht1].
  pose proof (start_steps_moves _ _ _ _ run_id spec run Hid _ _ _ _ _ _ E2 Ht1) as Hmove.
  apply (start_steps_kept _ _ _ _ run_id spec run Hid) in E2 as [K2 H2].
  pose proof (kept_open _ _ _ _ K1). destruct failed.
  { intros [= <- <-]. split; [by eapply kept_trans|lia]. }
  destruct H2 as [Q2 T2].
  assert (World.runs w2 = World.runs w) as Hruns
    by (rewrite (kept_runs _ _ _ _ K2); apply K1).
  assert (∀ w', World.runs w' = World.runs w → (∃ n, queued_at run_id n (World.cells w')) →
    quiescent run_id w') as Hwait.
  { intros w0 Hw Hn. unfold quiescent. rewrite Hw, Hget. by right. }
  destruct enqueued.
  { intros [= <- <-]. split; [done|]. apply Hwait; [done|]. by apply T2. }
  assert (ready_steps spec states = []) as Hready.
  { destruct (ready_steps spec states) eqn:E; [done|]. exfalso.
    assert (false || false = true); [apply Hmove|done]; [done|]. intros n Hin.
    rewrite <- E in Hin. apply ready_steps_pending, (states_get run_id spec) in Hin
      as (c & Hf & Hs); [|done].
    unfold status_at. by rewrite H1, Hf; cbn; rewrite Hs. }
  destruct (run_verdict states) as [[status error]|] eqn:Ev.
  - unfold finish_run. destruct (finish_workflow_run _ _ _ _ _) as [t landed] eqn:Ef.
    intros [= <- <-]. split; [done|].
    destruct (get_finished_run now run_id status (Text <$> error) _ run Hget)
      as (run' & Hget' & Hs'). rewrite <- Hruns, Ef in Hget'. cbn in Hget'.
    assert (quiescent run_id (w2 <| World.runs := t |>)) as Hq; [|by destruct landed].
    unfold quiescent. cbn. rewrite Hget'. left. rewrite Hs' by done.
    by eapply run_verdict_not_running.
  - intros [= <- <-]. split; [done|]. apply Hwait; [done|].
    apply run_verdict_None in Ev as (n & s & Hin & Ho).
    apply map_get_elem in Hin; [|by eapply states_NoDup].
    destruct (decide (Exists (λ n, map_get n states = Some Queued) (map_keys states))) as [He|He].
    + apply Exists_exists in He as (m & _ & (c & Hf & Hs)%(states_get run_id spec)); [|done].
      exists m. apply Q2. rewrite H1. unfold queued_at, status_at. by rewrite Hf; cbn; rewrite Hs.
    + exfalso. destruct (barrier_progress spec states) with (n := n) as [Hb|Hb]; try done.
      * by eapply parse_spec_accepts.
      * intros m. by apply (states_cover run_id spec).
      * intros m Hm. apply He, Exists_exists. exists m. split; [|done].
        apply map_get_is_Some. eauto.
      * destruct s; try done. exfalso. apply He, Exists_exists. exists n.
        split; [|done]. apply map_get_is_Some. eauto.
Qed.

Lemma advance_loop_ends fuel rounds w :
  open_run w →
  Z.of_nat rounds + open_count run_id (World.cells w)
    ≤ Z.of_nat (length (WorkflowSpec.steps spec)) →
  open_count run_id (World.cells w) < Z.of_nat fuel →
  ∃ w', advance_loop registry validate_params new_v4 now fuel rounds run_id w
          = (w', Some (Ok tt)) ∧ quiescent run_id w'.
Proof.
  revert rounds w. induction fuel as [|fuel IH]; intros rounds w Ho Hr Hf.
  { unfold open_count, rows_affected in Hf. lia. }
  cbn [advance_loop].
  assert (0 ≤ open_count run_id (World.cells w)) by (unfold open_count, rows_affected; lia).
  destruct (advance_round _ _ _ _ _ _ _) as [w1 r] eqn:E.
  apply advance_round_spec in E; [|done|unfold ADVANCE_ROUNDS_PER_STEP; lia].
  destruct r as [x|].
  - destruct E as [-> Hq]. by exists w1.
  - destruct E as [K Hlt]. apply IH; [by eapply open_run_kept|lia|lia].
Qed.
End advance.

(** ** Seeding *)

Definition seed (run_id : string) (cell : string * list string) : WorkflowStepRow.t :=
  WorkflowStepRow.mk run_id (fst cell) None (snd cell) "pending" None None None.

Lemma insert_workflow_steps_Ok run_id steps t t' :
  insert_workflow_steps run_id steps t = (t', Ok tt) → NoDup (map cell_key t) →
  t' = t ++ map (seed run_id) steps ∧ NoDup (map cell_key t').
Proof.
  unfold insert_workflow_steps. intros Hi Hnd. case_match eqn:E; [|done].
  injection Hi as <-. revert t Hnd E. induction steps as [|[n deps] steps IH]; intros t Hnd E.
  { injection E as <-. by rewrite app_nil_r. }
  cbn in E. destruct (existsb (cell_is run_id n) t) eqn:Ex.
  { exfalso. clear -E. induction steps as [|s steps IH]; [done|]. by apply IH. }
  apply IH in E as [-> Hnd'].
  - split; [by rewrite <- app_assoc|done].
  - rewrite map_app. apply NoDup_app. split_and!; [done| |apply NoDup_singleton].
    intros k Hk ->%list_elem_of_singleton.
    apply list_elem_of_In, in_map_iff in Hk as (c & Hc & Hin).
    assert (existsb (cell_is run_id n) t = true); [|congruence].
    apply existsb_exists. exists c. split; [done|]. by apply cell_is_key.
Qed.

Lemma tidy_seeded run_id spec t t' :
  insert_workflow_steps run_id
    (map (λ kv, (fst kv, StepSpec.after (snd kv))) (WorkflowSpec.steps spec)) t = (t', Ok tt) →
  NoDup (map cell_key t) → (∀ c, c ∈ t → WorkflowStepRow.run_id c ≠ run_id) →
  tidy run_id spec t'.
Proof.
  intros Hi Hnd Hfresh. apply insert_workflow_steps_Ok in Hi as [-> Hnd']; [|done].
  assert (∀ n c, find_cell run_id n (t ++ map (seed run_id) (map (λ kv : string * StepSpec.t,
    (fst kv, StepSpec.after (snd kv))) (WorkflowSpec.steps spec))) = Some c →
    WorkflowStepRow.status c = StepState.as_str Pending ∧
    n ∈ map_keys (WorkflowSpec.steps spec)) as Hseed.
  { intros n c (Hin & Hk)%find_cell_Some. injection Hk as Hr Hn.
    apply elem_of_app in Hin as [Hin|Hin]; [by apply Hfresh in Hin|].
    apply list_elem_of_In, in_map_iff in Hin as (x & <- & Hin). split; [done|].
    apply in_map_iff in Hin as (kv & <- & Hin). cbn in Hn. subst n.
    apply list_elem_of_In, in_map_iff. eauto. }
  split; [done| |].
  - intros n. split; [intros [c Hc]; by apply Hseed in Hc as [_ ?]|].
    intros Hn. apply list_elem_of_In, in_map_iff in Hn as (kv & <- & Hin).
    exists (seed run_id (fst kv, StepSpec.after (snd kv))).
    apply find_cell_elem; [done| |reflexivity].
    apply elem_of_app. right. apply list_elem_of_In, in_map_iff.
    exists (fst kv, StepSpec.after (snd kv)). split; [reflexivity|]. apply in_map_iff. eauto.
  - intros n c Hc. exists Pending. by apply Hseed in Hc as [? _].
Qed.

Section returns.
Context `{JsonRender} (registry : string → option App)
  (validate_params : Json → Json → option string) (new_v4 : nat → Uuid) (now : timestamp).

(** A round that goes round again is below the ceiling of any plan. *)
Lemma advance_round_again run_id rounds w w' :
  advance_round registry validate_params new_v4 now run_id rounds w = (w', None) →
  (rounds < advance_fuel)%nat.
Proof.
  unfold advance_round. intros Hr.
  destruct (get_workflow_run _ _) as [run|]; [|done]. destruct (negb _); [done|].
  destruct (get_workflow _ _) as [def|]; [|done].
  destruct (parse_spec _) as [spec|] eqn:Es; [|done]. case_bool_decide as Hc; [done|].
  apply parse_spec_accepts in Es as [Hwf _]. apply wf_bounded in Hwf.
  unfold advance_fuel, MAX_STEPS, ADVANCE_ROUNDS_PER_STEP in *. lia.
Qed.

Lemma advance_loop_returns fuel rounds run_id w :
  (0 < fuel)%nat → (advance_fuel ≤ fuel + rounds)%nat →
  snd (advance_loop registry validate_params new_v4 now fuel rounds run_id w) ≠ None.
Proof.
  revert rounds w. induction fuel as [|fuel IH]; intros rounds w Hf Hr; [lia|].
  cbn [advance_loop]. destruct (advance_round _ _ _ _ _ _ _) as [w1 [r|]] eqn:E; [done|].
  apply advance_round_again in E. apply IH; lia.
Qed.

Lemma advance_returns run_id w :
  snd (advance registry validate_params new_v4 now run_id w) ≠ None.
Proof. apply advance_loop_returns; unfold advance_fuel; lia. Qed.
End returns.


(** One app, a plan of four steps, and a run of it just opened. *)
Definition demo_registry (app : string) : option App :=
  if String.eqb app "scrape" then Some (mkApp (JObject []) None (λ _, None)) else None.

Definition demo_def : WorkflowDef.t := WorkflowDef.mk "plan" "diamond" diamond None true 0.
Definition demo_run : WorkflowRun.t :=
  WorkflowRun.mk "run" "plan" "running" None f64_zero None None "run" None 0 None.
Definition demo_cells : cells :=
  map (seed "run")
    (map (λ kv, (fst kv, StepSpec.after (snd kv))) (WorkflowSpec.steps diamond_plan)).
Definition demo_world : world :=
  World.mk [] [] [demo_def] [demo_run] demo_cells [] [] 0 0.

Lemma demo_spec : parse_spec (WorkflowDef.spec demo_def) = Ok diamond_plan.
Proof. reflexivity. Qed.

Lemma demo_tidy : tidy "run" diamond_plan demo_cells.
Proof. apply (tidy_seeded _ _ []); [reflexivity|constructor|set_solver]. Qed.

