(* ===== verification/WorkflowSafety.v ===== *)
(** * WorkflowSafety: what interleaved tasks can and cannot do to a cell

    A cell is claimed at most once and closed at most once under any interleaving
    of the statements; and a queued step whose job is cancelled at the jobs door is
    out of reach of everything the engine does afterwards. *)

From S2P Require Import Prelude Sql Float64 Json Errors Jobs JobQueue Costs WorkflowSpec.
From S2P Require Import PlanTheorems WorkflowStore WorkflowEngine WorkflowTheorems.

(** ** Interleaved statements *)

Inductive cell_op : Type :=
| OpSeed (run_id : string) (steps : list (string * list string))
| OpClaim (run_id step : string)
| OpSetJob (run_id step : string) (id : Uuid)
| OpFinish (now : timestamp) (run_id step : string) (ending : StepState)
    (result : option Json) (error : option Note).

Definition run_cell_op (op : cell_op) (t : cells) : cells * bool :=
  match op with
  | OpSeed run_id steps =>
      let '(t, r) := insert_workflow_steps run_id steps t in (t, is_ok r)
  | OpClaim run_id step => claim_workflow_step run_id step t
  | OpSetJob run_id step id => (set_workflow_step_job run_id step id t, true)
  | OpFinish now run_id step ending result error =>
      finish_workflow_step now run_id step (StepState.as_str ending) result error t
  end.

(** What each of a sequence of statements answered, and the cells they leave. *)
Fixpoint run_cell_ops (ops : list cell_op) (t : cells) : cells * list (cell_op * bool) :=
  match ops with
  | [] => (t, [])
  | op :: ops =>
      let '(t, answer) := run_cell_op op t in
      let '(t, answers) := run_cell_ops ops t in
      (t, (op, answer) :: answers)
  end.

Definition claims (run_id step : string) (op : cell_op) : bool :=
  match op with
  | OpClaim r s => String.eqb r run_id && String.eqb s step
  | _ => false
  end.
Definition finishes (run_id step : string) (op : cell_op) : bool :=
  match op with
  | OpFinish _ r s _ _ _ => String.eqb r run_id && String.eqb s step
  | _ => false
  end.

Definition won (p : cell_op → bool) (answers : list (cell_op * bool)) : Z :=
  rows_affected (λ a, p (fst a) && snd a) answers.

(** Every ending a caller writes is one. *)
Definition legitimate (op : cell_op) : Prop :=
  match op with OpFinish _ _ _ ending _ _ => closes ending | _ => True end.

(** How many claims, and how many endings, a cell still has in it. *)
Definition claims_left (run_id step : string) (t : cells) : Z :=
  match find_cell run_id step t with
  | Some c => if has_status "pending" c then 1 else 0
  | None => 1
  end.
Definition endings_left (run_id step : string) (t : cells) : Z :=
  match find_cell run_id step t with
  | Some c => if is_open_cell c then 1 else 0
  | None => 1
  end.

Section once.
Context (run_id step : string).

Lemma find_seeded r steps t t' b :
  NoDup (map cell_key t) → insert_workflow_steps r steps t = (t', b) →
  NoDup (map cell_key t') ∧
  match find_cell run_id step t with
  | Some c => find_cell run_id step t' = Some c
  | None => match find_cell run_id step t' with
            | Some c => WorkflowStepRow.status c = "pending"%string
            | None => True
            end
  end.
Proof.
  intros Hnd Hi. destruct b as [[]|e].
  - apply insert_workflow_steps_Ok in Hi as [-> Hnd']; [|done]. split; [done|].
    unfold find_cell. rewrite list_find_app. destruct (List.find _ t); [done|].
    destruct (List.find _ (map _ _)) as [c|] eqn:E; [|done].
    apply List.find_some in E as [Hin _]. by apply in_map_iff in Hin as (x & <- & _).
  - unfold insert_workflow_steps in Hi. case_match; [done|]. injection Hi as <- _.
    split; [done|]. destruct (find_cell run_id step t); done.
Qed.

(** One statement spends what its answer claims to have won. *)
Lemma run_cell_op_spends op t t' answer :
  legitimate op → NoDup (map cell_key t) → run_cell_op op t = (t', answer) →
  NoDup (map cell_key t') ∧
  (if claims run_id step op && answer then 1 else 0) + claims_left run_id step t'
    ≤ claims_left run_id step t ∧
  (if finishes run_id step op && answer then 1 else 0) + endings_left run_id step t'
    ≤ endings_left run_id step t.
Proof.
  intros Hl Hnd Hop. unfold claims_left, endings_left.
  destruct op as [r steps|r s|r s id|now r s ending result error]; cbn in Hop |- *.
  - destruct (insert_workflow_steps r steps t) as [t1 b] eqn:Ei. injection Hop as <- _.
    apply find_seeded in Ei as [Hnd' Hf]; [|done]. split; [done|].
    destruct (find_cell run_id step t) as [c|]; [by rewrite Hf|].
    destruct (find_cell run_id step t1) as [c|]; [|done].
    unfold is_open_cell, has_status. rewrite Hf. cbn. done.
  - pose proof Hop as [= _ Ha].
    assert (t' = fst (claim_workflow_step r s t)) as -> by by rewrite Hop.
    rewrite find_claim.
    split; [by rewrite keys_claim|].
    destruct (String.eqb r run_id && String.eqb s step) eqn:E; cbn.
    + breflect_in E. destruct E as [-> ->].
      destruct (find_cell run_id step t) as [c|] eqn:Ef; cbn.
      * pose proof (find_cell_Some _ _ _ _ Ef) as [_ Hk%cell_is_key]. rewrite Hk. cbn.
        destruct (has_status "pending" c) eqn:Ep; cbn.
        -- unfold is_open_cell. rewrite Ep. destruct answer; cbn; lia.
        -- rewrite ?Ep. destruct answer; [|lia]. exfalso.
           apply cell_write_lands in Ha as (c' & Hf' & Hp'); [|done]. congruence.
      * destruct answer; [|lia]. exfalso.
        apply cell_write_lands in Ha as (c' & Hf' & Hp'); [|done]. congruence.
    + destruct (find_cell run_id step t) as [c|] eqn:Ef; cbn; [|lia].
      destruct (cell_is r s c && has_status "pending" c) eqn:Eg; [|lia].
      unfold is_open_cell. apply andb_true_iff in Eg as [_ ->]. cbn. lia.
  - injection Hop as <- <-. rewrite find_set_job.
    split; [by rewrite keys_set_job|].
    destruct (find_cell run_id step t) as [c|] eqn:Ef; cbn; [|lia].
    destruct (cell_is r s c); unfold is_open_cell, has_status; cbn; lia.
  - pose proof Hop as [= _ Ha].
    assert (t' = fst (finish_workflow_step now r s (StepState.as_str ending) result error t))
      as -> by by rewrite Hop.
    rewrite find_finish.
    split; [by rewrite keys_finish|].
    assert (∀ c, is_open_cell (closed_cell now (StepState.as_str ending) result error c) = false)
      as Hclosed by (intros c; by rewrite (is_open_as_str _ ending)).
    assert (∀ c, is_open_cell c = false → has_status "pending" c = false) as Hpend.
    { intros c. unfold is_open_cell. by intros [? _]%orb_false_iff. }
    destruct (find_cell run_id step t) as [c|] eqn:Ef; cbn.
    + destruct (String.eqb r run_id && String.eqb s step) eqn:E; cbn.
      * breflect_in E. destruct E as [-> ->].
        pose proof (find_cell_Some _ _ _ _ Ef) as [_ Hk%cell_is_key]. rewrite Hk. cbn.
        destruct (is_open_cell c) eqn:Eo.
        -- rewrite Hclosed, (Hpend _ (Hclosed c)). destruct answer, (has_status "pending" c); lia.
        -- rewrite Eo. destruct answer; [|lia]. exfalso.
           apply cell_write_lands in Ha as (c' & Hf' & Hp'); [|done]. congruence.
      * destruct (cell_is r s c && is_open_cell c); [|lia]. rewrite Hclosed, (Hpend _ (Hclosed c)).
        destruct (has_status "pending" c), (is_open_cell c); lia.
    + destruct (String.eqb r run_id && String.eqb s step) eqn:E; cbn; [|lia].
      breflect_in E. destruct E as [-> ->].
      destruct answer; [|lia]. exfalso.
      apply cell_write_lands in Ha as (c' & Hf' & Hp'); [|done]. congruence.
Qed.

Lemma run_cell_ops_spend ops t t' answers :
  Forall legitimate ops → NoDup (map cell_key t) → run_cell_ops ops t = (t', answers) →
  won (claims run_id step) answers ≤ claims_left run_id step t ∧
  won (finishes run_id step) answers ≤ endings_left run_id step t.
Proof.
  intros Hl. revert t answers. induction Hl as [|op ops Hop Hl IH]; intros t answers Hnd; cbn.
  - intros [= <- <-]. unfold claims_left, endings_left, won, rows_affected. cbn.
    repeat case_match; lia.
  - destruct (run_cell_op op t) as [t1 answer] eqn:E1.
    destruct (run_cell_ops ops t1) as [t2 rest] eqn:E2. intros [= <- <-].
    apply run_cell_op_spends in E1 as (Hnd1 & Hc & Hf); [|done..].
    apply IH in E2 as [Hc2 Hf2]; [|done]. unfold won in *. rewrite !rows_affected_cons. cbn. lia.
Qed.
End once.

(** Exactly-once is a guarded update. Under any interleaving of any number of
    tasks seeding, claiming, recording and finishing cells, one cell is won by at
    most one claim and closed by at most one finish, so a join fires once and a
    step's outcome is landed once; and a cell that is already closed is never won
    by either. *)
Theorem cell_claimed_and_closed_once ops t run_id step
    (Hkeys : NoDup (map cell_key t))
    (Hops : Forall legitimate ops) :
  let answers := snd (run_cell_ops ops t) in
  won (claims run_id step) answers ≤ 1 ∧
  won (finishes run_id step) answers ≤ 1 ∧
  (∀ c, find_cell run_id step t = Some c → is_open_cell c = false →
     won (claims run_id step) answers ≤ 0 ∧ won (finishes run_id step) answers ≤ 0).
Proof.
  destruct (run_cell_ops ops t) as [t' answers] eqn:E. cbn.
  destruct (run_cell_ops_spend run_id step _ _ _ _ Hops Hkeys E) as [Hc Hf].
  unfold claims_left, endings_left in *. split_and!; [repeat case_match; lia..|].
  intros c Hfc Ho. rewrite Hfc, Ho in *. unfold is_open_cell in Ho.
  apply orb_false_iff in Ho as [Hp _]. rewrite Hp in Hc. done.
Qed.

(** Two upstreams of a join race to claim it, and the terminal event repeats. *)
Lemma cell_claimed_and_closed_once_witness :
  let ops := [OpClaim "run" "d"; OpClaim "run" "d"; OpFinish 5 "run" "d" Succeeded None None;
              OpFinish 6 "run" "d" Failed None None]%string in
  won (claims "run" "d") (snd (run_cell_ops ops demo_cells)) = 1 ∧
  won (finishes "run" "d") (snd (run_cell_ops ops demo_cells)) ≤ 1.
Proof.
  intros ops. split; [reflexivity|].
  apply (cell_claimed_and_closed_once ops demo_cells "run" "d").
  - exact (tidy_keys _ _ _ demo_tidy).
  - repeat constructor.
Defined.

(** ** A queued step whose job will never report *)

(** The cell is with job [id]. *)
Definition waits_on (run_id step : string) (id : Uuid) (t : cells) : Prop :=
  NoDup (map cell_key t) ∧
  ∃ c, find_cell run_id step t = Some c ∧ WorkflowStepRow.status c = "queued"%string ∧
       WorkflowStepRow.job_id c = Some id.

Lemma waits_on_update run_id step id p f t :
  (∀ c, cell_key (f c) = cell_key c) →
  (∀ c, cell_key c = (run_id, step) → WorkflowStepRow.status c = "queued"%string → p c = false) →
  waits_on run_id step id t → waits_on run_id step id (update_where p f t).
Proof.
  intros Hk Hp (Hnd & c & Hf & Hs & Hj). split; [by rewrite map_update_where|].
  exists c. unfold find_cell. rewrite find_update.
  2:{ intros c'. apply eq_true_iff_eq. by rewrite !cell_is_key, Hk. }
  fold (find_cell run_id step t). rewrite Hf. cbn. apply find_cell_Some in Hf as [_ Hc].
  by rewrite (Hp c Hc Hs).
Qed.

Lemma cell_is_other r s run_id step c :
  (r, s) ≠ (run_id, step) → cell_key c = (run_id, step) → cell_is r s c = false.
Proof.
  intros Hne Hk. destruct (cell_is r s c) eqn:E; [|done]. apply cell_is_key in E. congruence.
Qed.

Section stranded.
Context `{JsonRender, SqlSum} (registry : string → option App)
  (validate_params : Json → Json → option string) (new_v4 : nat → Uuid)
  (new_run_id : nat → string) (now : timestamp).
Context (run_id step : string) (id : Uuid).

Abbreviation waiting w := (waits_on run_id step id (World.cells w)).

Lemma finish_step_waiting r s status result error w :
  (r, s) ≠ (run_id, step) → waiting w →
  waiting (fst (finish_step now r s status result error w)).
Proof.
  intros Hne Hw. apply waits_on_update; [done| |done]. intros c Hk _.
  by rewrite (cell_is_other _ _ _ _ _ Hne Hk).
Qed.

Lemma skip_steps_waiting r skips w :
  (∀ n reason, (n, reason) ∈ skips → (r, n) ≠ (run_id, step)) → waiting w →
  waiting (fst (skip_steps now r skips w)).
Proof.
  revert w. induction skips as [|[n reason] skips IH]; intros w Hne Hw; [done|].
  cbn [skip_steps]. pose proof (finish_step_waiting r n "skipped" None (Some (Text reason)) w
    (Hne n reason ltac:(left)) Hw) as Hw1.
  destruct (finish_step _ _ _ _ _ _ _) as [w1 landed]. cbn in Hw1.
  specialize (IH w1 ltac:(set_solver) Hw1). by destruct (skip_steps _ _ _ _).
Qed.

Lemma enqueue_step_waiting run spec s results w :
  (WorkflowRun.id run, s) ≠ (run_id, step) → waiting w →
  waiting (fst (enqueue_step registry validate_params new_v4 now run spec s results w)).
Proof.
  intros Hne Hw. unfold enqueue_step.
  destruct (prepare_step _ _ _ _ _ _) as [[[step_spec params] budget]|e]; [|done].
  assert (waits_on run_id step id
    (fst (claim_workflow_step (WorkflowRun.id run) s (World.cells w)))) as Hw1.
  { apply waits_on_update; [done| |done]. intros c Hk _.
    by rewrite (cell_is_other _ _ _ _ _ Hne Hk). }
  destruct (claim_workflow_step _ _ _) as [t claimed]. destruct claimed; [|done].
  unfold enqueue_step_job. destruct (enqueue_dedup_as _ _ _ _ _ _) as [jobs' [[job b]|e]]; [|done].
  apply waits_on_update; [done| |done]. intros c Hk _. by apply (cell_is_other _ _ run_id step).
Qed.

Lemma start_steps_waiting run spec results ready w :
  (∀ n, n ∈ ready → (WorkflowRun.id run, n) ≠ (run_id, step)) → waiting w →
  waiting (fst (start_steps registry validate_params new_v4 now run spec results ready w)).
Proof.
  revert w. induction ready as [|n ready IH]; intros w Hne Hw; [done|]. cbn [start_steps].
  pose proof (enqueue_step_waiting run spec n results w (Hne n ltac:(left)) Hw) as Hw1.
  destruct (enqueue_step _ _ _ _ _ _ _ _ _) as [w1 [b|e]]; cbn in Hw1.
  - specialize (IH w1 ltac:(set_solver) Hw1).
    by destruct (start_steps _ _ _ _ _ _ _ _ _) as [w2 []].
  - pose proof (finish_step_waiting _ n "failed" None (Some (Refusal e)) w1
      (Hne n ltac:(left)) Hw1) as Hw2.
    destruct (finish_step _ _ _ _ _ _ _) as [w2 landed]. cbn in Hw2.
    specialize (IH w2 ltac:(set_solver) Hw2).
    by destruct (start_steps _ _ _ _ _ _ _ _ _) as [w3 []].
Qed.

Lemma waiting_not_pending w n :
  waiting w →
  map_get n (states_of (workflow_steps run_id (World.cells w))) = Some Pending → n ≠ step.
Proof.
  intros (Hnd & c & Hf & Hs & _) Hn ->. apply states_find in Hn as (c' & Hf' & Hp); [|done].
  rewrite Hf in Hf'. injection Hf' as <-. by rewrite Hs in Hp.
Qed.

Lemma advance_round_waiting r rounds w :
  waiting w →
  waiting (fst (advance_round registry validate_params new_v4 now r rounds w)).
Proof.
  intros Hw. unfold advance_round.
  destruct (get_workflow_run r (World.runs w)) as [run|] eqn:Er; [|done].
  destruct (negb _); [done|]. destruct (get_workflow _ _) as [def|]; [|done].
  destruct (parse_spec _) as [spec|]; [|done]. case_bool_decide; [done|].
  assert (WorkflowRun.id run = r) as Hid by by apply lookup_by_Some in Er as [_ ?].
  set (states := states_of (workflow_steps r (World.cells w))).
  assert (∀ n, map_get n states = Some Pending → (r, n) ≠ (run_id, step)) as Hpend.
  { intros n Hn [= -> ->]. by eapply (waiting_not_pending w). }
  pose proof (skip_steps_waiting r (cascade_skips spec states) w
    ltac:(intros n reason Hin; eapply Hpend, cascade_skips_pending, Hin) Hw) as Hw1.
  destruct (skip_steps _ _ _ _) as [w1 changed]. cbn in Hw1. destruct changed; [done|].
  pose proof (start_steps_waiting run spec (results_of (workflow_steps r (World.cells w)))
    (ready_steps spec states) w1
    ltac:(intros n Hin; rewrite Hid; eapply Hpend, ready_steps_pending, Hin) Hw1) as Hw2.
  destruct (start_steps _ _ _ _ _ _ _ _ _) as [w2 [enqueued failed]]. cbn in Hw2.
  destruct failed; [done|]. destruct enqueued; [done|].
  destruct (run_verdict states) as [[status error]|]; [|done].
  unfold finish_run. destruct (finish_workflow_run _ _ _ _ _) as [t []]; done.
Qed.

Lemma advance_waiting r w :
  waiting w → waiting (fst (advance registry validate_params new_v4 now r w)).
Proof.
  unfold advance. generalize advance_fuel, 0%nat. intros fuel.
  revert w. induction fuel as [|fuel IH]; intros w rounds Hw; [done|]. cbn [advance_loop].
  pose proof (advance_round_waiting r (S rounds) w Hw) as Hw1.
  destruct (advance_round _ _ _ _ _ _ _) as [w1 [x|]]; [done|]. by apply IH.
Qed.

Lemma on_step_terminal_waiting job w :
  Job.id job ≠ id → waiting w →
  waiting (on_step_terminal registry validate_params new_v4 now job w).
Proof.
  intros Hne Hw. unfold on_step_terminal. destruct (negb _); [done|].
  destruct (workflow_step_for_job (Job.id job) (World.cells w)) as [[r s]|] eqn:Ef; [|done].
  assert ((r, s) ≠ (run_id, step)) as Hrs.
  { intros [= -> ->]. unfold workflow_step_for_job in Ef.
    destruct (List.find _ (World.cells w)) as [c|] eqn:Efind; [|done]. cbn in Ef.
    injection Ef as Hr Hs. apply List.find_some in Efind as [Hin Hj].
    apply bool_decide_eq_true in Hj. destruct Hw as (Hnd & c' & Hf & _ & Hj').
    assert (find_cell run_id step (World.cells w) = Some c) as Hf2.
    { apply find_cell_elem; [done|by apply list_elem_of_In|]. unfold cell_key. by rewrite Hr, Hs. }
    congruence. }
  pose proof (finish_step_waiting r s (StepState.as_str
    match Job.status job with
    | Jobs.Succeeded => Succeeded | Jobs.Cancelled => Cancelled | _ => Failed end)
    (Job.result job) (Text <$> Job.error job) w Hrs Hw) as Hw1.
  destruct (finish_step _ _ _ _ _ _ _) as [w1 landed]. cbn in Hw1. destruct landed; [|done].
  destruct (refresh_workflow_spend _ _ _ _) as [runs spent]. by apply advance_waiting.
Qed.

Lemma start_run_waiting def budget key principal w :
  waiting w →
  waiting (fst (start_run registry validate_params new_v4 new_run_id now def budget key
                  principal w)).
Proof.
  intros Hw. unfold start_run. destruct (parse_spec _) as [spec|]; [|done].
  destruct (create_workflow_run _ _ _ _) as [runs [[run []]|e]]; [|done..].
  destruct (insert_workflow_steps _ _ _) as [t r] eqn:Ei. destruct r as [[]|e]; [|done].
  assert (waits_on run_id step id t) as Ht.
  { cbn in Ei. destruct Hw as (Hnd & c & Hf & Hs & Hj).
    apply (find_seeded run_id step) in Ei as [Hnd' Hf']; [|done]. rewrite Hf in Hf'.
    split; [done|]. by exists c. }
  match goal with |- context [advance _ _ _ _ ?r ?w] =>
    pose proof (advance_waiting r w Ht) as Hw2;
    destruct (advance _ _ _ _ r w) as [w2 [[[]|e]|]]; exact Hw2 end.
Qed.

(** What the program may do next, with every terminal event that is not this job's. *)
Inductive engine_call : Type :=
| Advance (run_id : string)
| StepTerminal (job : Job.t)
| Start (def : WorkflowDef.t) (budget_usd : option f64) (idempotency_key principal_id : option string).

Definition engine_step (w : world) (call : engine_call) : world :=
  match call with
  | Advance r => fst (advance registry validate_params new_v4 now r w)
  | StepTerminal job => on_step_terminal registry validate_params new_v4 now job w
  | Start def budget key principal =>
      fst (start_run registry validate_params new_v4 new_run_id now def budget key principal w)
  end.

Definition not_about (call : engine_call) : Prop :=
  match call with StepTerminal job => Job.id job ≠ id | _ => True end.

Lemma engine_steps_waiting calls w :
  Forall not_about calls → waiting w → waiting (foldl engine_step w calls).
Proof.
  intros Hc. revert w. induction Hc as [|call calls Hcall Hc IH]; intros w Hw; [done|].
  cbn. apply IH. destruct call.
  - by apply advance_waiting.
  - by apply on_step_terminal_waiting.
  - by apply start_run_waiting.
Qed.

Lemma waiting_no_verdict w :
  waiting w → run_verdict (states_of (workflow_steps run_id (World.cells w))) = None.
Proof.
  intros (Hnd & c & Hf & Hs & _). unfold run_verdict.
  assert (map_get step (states_of (workflow_steps run_id (World.cells w))) = Some Queued)
    as Hq%map_get_Some_elem%list_elem_of_In.
  { apply states_find; [done|]. exists c. by rewrite Hs. }
  rewrite (proj2 (existsb_exists _ _)); [done|]. by exists (step, Queued).
Qed.
End stranded.

(** The cancel statement on a queued job. *)
Lemma cancel_queued now id t row :
  get id t = Some row → Job.status row = Jobs.Queued →
  is_Some (snd (cancel now id t)) ∧
  (Job.status <$> get id (fst (cancel now id t))) = Some Jobs.Cancelled.
Proof.
  intros Hrow Hs. unfold get in *. pose proof Hrow as [Hin Hid]%lookup_by_Some.
  set (p r := by_id id r && (JobStatus.eqb (Job.status r) Jobs.Queued
                             || JobStatus.eqb (Job.status r) Jobs.Waiting)).
  assert (p row = true) as Hp by (unfold p, by_id; rewrite Hid, Hs, Z.eqb_refl; done).
  unfold cancel. cbn [fst snd]. fold p. split.
  - unfold returning. destruct (select_where p t) as [|r l] eqn:E; [|by eexists].
    assert (row ∈ select_where p t) as Hsel by by apply elem_of_select.
    rewrite E in Hsel. by apply not_elem_of_nil in Hsel.
  - rewrite (lookup_by_update Job.id) by done. rewrite Hrow. cbn. by rewrite Hp.
Qed.

(** Cancelling a queued step's job strands its run. The jobs door cancels a
    queued job without a terminal event, so the cell stays with a job that is
    already over: whatever runs are then started or advanced and whatever other jobs
    end, the cell remains queued and the run never reaches a verdict. *)
Theorem cancelled_queued_step_strands_run `{JsonRender, SqlSum} registry validate_params new_v4
    new_run_id now live run_id step id w c row calls
    (Hkeys : NoDup (map cell_key (World.cells w)))
    (Hcell : find_cell run_id step (World.cells w) = Some c)
    (Hqueued : WorkflowStepRow.status c = "queued"%string)
    (Hjob : WorkflowStepRow.job_id c = Some id)
    (Hrow : get id (World.jobs w) = Some row)
    (Hwaiting : Job.status row = Jobs.Queued)
    (Hcalls : Forall (not_about id) calls) :
  let w1 := fst (cancel_job now live id w) in
  let w2 := foldl (engine_step registry validate_params new_v4 new_run_id now) w1 calls in
  snd (cancel_job now live id w) = true ∧
  (Job.status <$> get id (World.jobs w1)) = Some Jobs.Cancelled ∧
  status_at run_id step (World.cells w2) = Some "queued"%string ∧
  run_verdict (states_of (workflow_steps run_id (World.cells w2))) = None.
Proof.
  intros w1 w2.
  destruct (cancel_queued now id (World.jobs w) row Hrow Hwaiting) as [[app Happ] Hget].
  assert (waits_on run_id step id (World.cells w1)) as Hw1.
  { assert (World.cells w1 = World.cells w) as ->; [|by split; [|exists c]].
    unfold w1, cancel_job. destruct (cancel _ _ _) as [jobs cancelled]. cbn.
    repeat case_match; done. }
  assert (snd (cancel_job now live id w) = true ∧
          World.jobs w1 = fst (cancel now id (World.jobs w))) as [Hans Hjobs].
  { unfold w1, cancel_job. destruct (cancel _ _ _) as [jobs cancelled]. cbn in Happ |- *.
    by subst cancelled. }
  pose proof (engine_steps_waiting registry validate_params new_v4 new_run_id now run_id step id
    calls w1 Hcalls Hw1) as Hw2. fold w2 in Hw2.
  split_and!; [done|by rewrite Hjobs| |by eapply waiting_no_verdict].
  destruct Hw2 as (_ & c2 & Hf2 & Hs2 & _). unfold status_at. by rewrite Hf2; cbn; rewrite Hs2.
Qed.

(** The opening advance of the demo run hands step [a] to job 0. *)
Lemma cancelled_queued_step_strands_run_witness :
  let R : JsonRender := λ _, EmptyString in
  let S : SqlSum := λ _, f64_zero in
  let w := fst (advance demo_registry (λ _ _, None) Z.of_nat 0 "run" demo_world) in
  let w1 := fst (cancel_job 1 (λ _, None) 0 w) in
  let w2 := foldl (engine_step demo_registry (λ _ _, None) Z.of_nat (λ _, "next"%string) 1) w1
              [Advance "run"; Start demo_def None None None; Advance "run"]%string in
  WorkflowRun.status <$> get_workflow_run "run" (World.runs w2) = Some "running"%string ∧
  (Job.status <$> get 0 (World.jobs w1)) = Some Jobs.Cancelled ∧
  status_at "run" "a" (World.cells w2) = Some "queued"%string.
Proof.
  intros R S w w1 w2. split; [vm_compute; reflexivity|].
  assert (NoDup (map cell_key (World.cells w))) as Hk.
  { apply (bool_decide_unpack _). vm_compute. exact I. }
  destruct (cancelled_queued_step_strands_run demo_registry (λ _ _, None) Z.of_nat
    (λ _, "next"%string) 1 (λ _, None) "run" "a" 0 w _ _
    [Advance "run"; Start demo_def None None None; Advance "run"]%string
    Hk eq_refl eq_refl eq_refl eq_refl eq_refl) as (_ & H1 & H2 & _).
  - repeat constructor.
  - exact (conj H1 H2).
Defined.
