(* ===== verification/Filters.v ===== *)
(** * Filters: the JSON-path predicates of the [?filter=] grammar

    [JsonFilter] of [crates/core/src/datasets.rs], its parser
    ([parse_filters] of [crates/server/src/routes/datasets.rs]), and its evaluation
    against a payload ([crates/server/src/triggers.rs]). *)

From S2P Require Import Prelude Float64 Json.

Inductive JsonFilter : Type :=
| FEq (path value : string)
| FContains (path value : string)
| FGte (path value : string)
| FLte (path value : string)
| NumGteAny (paths : list string) (value : f64).

(** [str::to_lowercase] folds by the Unicode tables. *)
Class Unicode := to_lowercase : string → string.

(** ** [str::parse::<f64>] *)

Fixpoint ascii_lower (s : string) : string :=
  match s with
  | EmptyString => EmptyString
  | String a s =>
      String (if in_range 65 90 a then Ascii.ascii_of_N (Ascii.N_of_ascii a + 32) else a)
        (ascii_lower s)
  end.

(** The double nearest to [m * 10^e]: the quotient keeps at least 64 significant
    bits and a sticky bit, so that one rounding is made. *)
Definition f64_of_decimal (neg : bool) (m e : Z) : f64 :=
  let sign (z : Z) := if neg then - z else z in
  if m =? 0 then S754_zero neg
  else if 0 <=? e then binary_normalize 53 1024 (sign (m * 10 ^ e)) 0 neg
  else
    let den := 10 ^ (- e) in
    let s := Z.max 0 (Z.log2 den - Z.log2 m + 66) in
    let q := m * 2 ^ s / den in
    let sticky := if m * 2 ^ s mod den =? 0 then 0 else 1 in
    binary_normalize 53 1024 (sign (2 * q + sticky)) (- s - 1) neg.

Definition parse_exponent (s : string) : option Z :=
  match s with
  | EmptyString | String "+"%char EmptyString | String "-"%char EmptyString => None
  | String "-"%char s => Z.opp <$> parse_digits s 0
  | String "+"%char s | s => parse_digits s 0
  end.

(** Digits, at most one point with a digit on some side of it, an exponent. *)
Definition parse_decimal (neg : bool) (s : string) : option f64 :=
  let '(mantissa, exponent) :=
    match split_once "e" s with
    | Some (m, e) => (m, parse_exponent e)
    | None => (s, Some 0)
    end in
  let '(whole, fraction) := default (mantissa, EmptyString) (split_once "." mantissa) in
  if String.eqb whole "" && String.eqb fraction "" then None
  else
    m ← parse_digits (whole +:+ fraction)%string 0;
    e ← exponent;
    Some (f64_of_decimal neg m (e - Z.of_nat (String.length fraction))).

Definition parse_f64 (s : string) : option f64 :=
  let '(neg, s) :=
    match s with
    | String "-"%char s => (true, s)
    | String "+"%char s => (false, s)
    | s => (false, s)
    end in
  let s := ascii_lower s in
  if String.eqb s "inf" || String.eqb s "infinity" then Some (S754_infinity neg)
  else if String.eqb s "nan" then Some S754_nan
  else parse_decimal neg s.

Example parse_f64_examples :
  parse_f64 "1.5" = Some (f64_add (f64_of_Z 1) (SFdiv 53 1024 (f64_of_Z 1) (f64_of_Z 2)))
  ∧ parse_f64 "0.9" = Some (S754_finite false 8106479329266893 (-53))
  ∧ parse_f64 "1e3" = Some (f64_of_Z 1000) ∧ parse_f64 "." = None
  ∧ parse_f64 "5." = Some (f64_of_Z 5) ∧ parse_f64 "1e400" = Some (S754_infinity false).
Proof. repeat split; vm_compute; reflexivity. Qed.

(** ** The grammar: [<path>:<op>:<value>] *)

Inductive FilterError : Type :=
| NotASpec (spec : string)
| BadPath (path spec : string)
| NotANumber (value spec : string)
| NoPath (spec : string)
| UnknownOp (op spec : string).

Definition check_path (spec p : string) : result FilterError unit :=
  if is_some (strip_prefix "$." p) then Ok tt else Err (BadPath p spec).

(** [spec.splitn(3, ':')] *)
Definition split_spec (spec : string) : option (string * string * string) :=
  '(path, rest) ← split_once ":" spec;
  '(op, value) ← split_once ":" rest;
  Some (path, op, value).

Definition parse_filter (spec : string) : result FilterError JsonFilter :=
  match split_spec spec with
  | None => Err (NotASpec spec)
  | Some (path, op, value) =>
      let text (f : string → string → JsonFilter) :=
        _ ← check_path spec path; Ok (f path value) in
      if String.eqb op "eq" then text FEq
      else if String.eqb op "contains" then text FContains
      else if String.eqb op "gte" then text FGte
      else if String.eqb op "lte" then text FLte
      else if String.eqb op "numgte" then
        match parse_f64 value with
        | None => Err (NotANumber value spec)
        | Some num =>
            let paths :=
              List.filter (λ p, negb (String.eqb p "")) (map str_trim (split_on "," path)) in
            match paths with
            | [] => Err (NoPath spec)
            | _ => _ ← collect_ok (check_path spec) paths; Ok (NumGteAny paths num)
            end
        end
      else Err (UnknownOp op spec)
  end.
Definition parse_filters : list string → result FilterError (list JsonFilter) :=
  collect_ok parse_filter.

(** ** Evaluation *)

(** [path.trim_start_matches("$.").split('.')], objects only. *)
Fixpoint walk_path (segs : list string) (cur : Json) : option Json :=
  match segs with
  | [] => Some cur
  | seg :: segs => next ← json_get seg cur; walk_path segs next
  end.
Definition lookup_path (payload : Json) (path : string) : option Json :=
  walk_path (split_on "." (strip_while (String.length path) ["$."%string] path)) payload.

Section evaluation.
Context `{JsonRender, Unicode}.

Definition value_text (v : Json) : option string :=
  match v with
  | JString s => Some s
  | JNumber _ => Some (json_render v)
  | JBool b => Some (if b then "true" else "false")%string
  | _ => None
  end.

Definition filter_matches (filter : JsonFilter) (payload : Json) : bool :=
  match filter with
  | FEq path value => bool_decide (lookup_path payload path ≫= value_text = Some value)
  | FContains path value =>
      match lookup_path payload path ≫= value_text with
      | Some t => contains (to_lowercase value) (to_lowercase t)
      | None => false
      end
  | FGte path value =>
      match lookup_path payload path ≫= value_text with
      | Some t => String.leb value t
      | None => false
      end
  | FLte path value =>
      match lookup_path payload path ≫= value_text with
      | Some t => String.leb t value
      | None => false
      end
  | NumGteAny paths value =>
      existsb (λ p, match lookup_path payload p ≫= as_f64 with
                    | Some n => f64_le value n
                    | None => false
                    end) paths
  end.

Definition payload_matches (filters : list JsonFilter) (payload : Json) : bool :=
  forallb (λ f, filter_matches f payload) filters.
End evaluation.
