(* ===== verification/Simhash.v ===== *)
(** * Simhash: near-duplicate fingerprints and the banded index

    The 64-bit SimHash of texts, JSON values and document shapes, the Hamming
    distance, and the banded index that answers "within [distance] bits" without a
    scan ([crates/core/src/simhash.rs]).  Hashes are [u64]s, kept in [0, 2^64).
    [char::is_alphanumeric] and [str::to_lowercase] fold by the Unicode tables,
    which stay parameters; the parsed document is [scraper]'s, seen as the list of
    its elements in tree order. *)

From stdpp Require Import gmap.
From S2P Require Import Prelude Sql Float64 Json Filters.

(** ** Tokens *)

(** The characters of a UTF-8 text, each as its bytes. *)
Fixpoint chars (s : string) : list string :=
  match s with
  | EmptyString => []
  | String a s =>
      match chars s with
      | (String b _ as c) :: cs =>
          if in_range 128 191 b then String a c :: cs else String a EmptyString :: c :: cs
      | cs => String a EmptyString :: cs
      end
  end.

Class UnicodeAlphanumeric := is_alphanumeric : string → bool.

(** [text.split(|c| !c.is_alphanumeric())] *)
Fixpoint split_words `{UnicodeAlphanumeric} (cs : list string) : list string :=
  match cs with
  | [] => [EmptyString]
  | c :: cs =>
      let words := split_words cs in
      if is_alphanumeric c then
        match words with
        | w :: ws => (c +:+ w)%string :: ws
        | [] => [c]
        end
      else EmptyString :: words
  end.

Definition tokenize `{UnicodeAlphanumeric, Unicode} (text : string) : list string :=
  map to_lowercase
    (List.filter (λ w, (2 <=? String.length w)%nat) (split_words (chars text))).

(** ** Hashes *)

(** [u64::wrapping_mul] *)
Definition wrapping_mul (a b : Z) : Z := wrap_u64 (a * b).
Definition fnv_step (hash : Z) (a : Ascii.ascii) : Z :=
  wrapping_mul (Z.lxor hash (Z.of_N (Ascii.N_of_ascii a))) 0x00000100000001b3.
Definition splitmix (hash : Z) : Z :=
  let hash := Z.lxor hash (Z.shiftr hash 30) in
  let hash := wrapping_mul hash 0xbf58476d1ce4e5b9 in
  let hash := Z.lxor hash (Z.shiftr hash 27) in
  let hash := wrapping_mul hash 0x94d049bb133111eb in
  Z.lxor hash (Z.shiftr hash 31).
Definition hash_token (token : string) : Z :=
  splitmix (foldl fnv_step 0xcbf29ce484222325 (String.list_ascii_of_string token)).

(** [i32] arithmetic wraps. *)
Definition wrap_i32 (z : Z) : Z := (z + 2 ^ 31) mod 2 ^ 32 - 2 ^ 31.

(** One vote per bit of one token's hash. *)
Definition vote (bits : list Z) (h : Z) : list Z :=
  imap (λ i b, wrap_i32 (if Z.testbit h (Z.of_nat i) then b + 1 else b - 1)) bits.

Fixpoint set_bits (bits : list Z) (i : Z) (out : Z) : Z :=
  match bits with
  | [] => out
  | b :: bits => set_bits bits (i + 1) (if 0 <? b then Z.lor out (Z.shiftl 1 i) else out)
  end.

Definition simhash_tokens (tokens : list Z) : Z :=
  match tokens with
  | [] => 0
  | _ => set_bits (foldl vote (replicate 64 0) tokens) 0 0
  end.

Definition count_ones (x : Z) : Z :=
  Z.of_nat (length (List.filter (Z.testbit x) (seqZ 0 64))).
Definition hamming (a b : Z) : Z := count_ones (Z.lxor a b).
Definition drift (a b : Z) : f64 := f64_div (f64_of_Z (hamming a b)) (f64_of_Z 64).

Section values.
Context `{JsonRender, UnicodeAlphanumeric, Unicode}.

Definition simhash (text : string) : Z := simhash_tokens (map hash_token (tokenize text)).

Fixpoint collect_text (value : Json) : string :=
  match value with
  | JString s => s +:+ " "
  | JNumber _ => json_render value +:+ " "
  | JArray a => String.concat EmptyString (map collect_text a)
  | JObject m => String.concat EmptyString (map (λ kv, collect_text kv.2) m)
  | _ => EmptyString
  end%string.

Definition simhash_value (value : Json) : Z := simhash (collect_text value).
End values.

(** ** The shape of a document *)

Definition is_ascii_alphabetic (a : Ascii.ascii) : bool := in_range 65 90 a || in_range 97 122 a.
Definition is_ascii_digit (a : Ascii.ascii) : bool := in_range 48 57 a.
Definition is_ascii_hexdigit (a : Ascii.ascii) : bool :=
  is_ascii_digit a || in_range 65 70 a || in_range 97 102 a.

(** The text before and after the last ["-"] or ["_"]. *)
Fixpoint rsplit_sep (s : string) : option (string * string) :=
  match s with
  | EmptyString => None
  | String a s =>
      match rsplit_sep s with
      | Some (stem, digest) => Some (String a stem, digest)
      | None =>
          if Ascii.eqb a "-" || Ascii.eqb a "_" then Some (EmptyString, s) else None
      end
  end.

Definition build_hash_stem (class : string) : option string :=
  '(stem, digest) ← rsplit_sep class;
  if negb (String.eqb stem "") && all_chars is_ascii_alphabetic stem
     && (6 <=? String.length digest)%nat && all_chars is_ascii_hexdigit digest
     && negb (all_chars (λ a, negb (is_ascii_digit a)) digest)
  then Some stem else None.

Module Element.
Record t : Type := mk { name : string; classes : list string; id : option string }.
End Element.

Definition class_token (class : string) : string :=
  match build_hash_stem class with
  | Some stem => stem +:+ "-#"
  | None => class
  end +:+ ".".

Definition element_shape (el : Element.t) : string :=
  Element.name el +:+ "|"
    +:+ String.concat EmptyString (map class_token (order_by String.leb (Element.classes el)))
    +:+ "|" +:+ (if is_some (Element.id el) then "#" else EmptyString).

Definition dom_simhash (elements : list Element.t) : Z :=
  simhash_tokens (map (λ el, hash_token (element_shape el)) elements).

(** ** The banded index *)

Definition MIN_BAND_BITS : Z := 10.

(** The [(shift, mask)] of the bands numbered [bands], from bit [shift] on. *)
Fixpoint segs_from (base rem : Z) (bands : list Z) (shift : Z) : list (Z * Z) :=
  match bands with
  | [] => []
  | i :: bands =>
      let width := base + (if i <? rem then 1 else 0) in
      let mask := if width =? 64 then u64_max else Z.shiftl 1 width - 1 in
      (shift, mask) :: segs_from base rem bands (shift + width)
  end.

Definition band_widths (distance : Z) : list (Z * Z) :=
  let bands := Z.min (Z.max (wrap_u32 (distance + 1)) 1) 64 in
  if 64 / bands <? MIN_BAND_BITS then []
  else segs_from (64 / bands) (64 mod bands) (seqZ 0 bands) 0.

(** [(hash >> shift) & mask] *)
Definition band_of (seg : Z * Z) (hash : Z) : Z := Z.land (Z.shiftr hash seg.1) seg.2.

Module BandedIndex.
Record t (A : Type) : Type := mk {
  distance : Z; segs : list (Z * Z); buckets : list (gmap Z (list nat));
  entries : list (Z * A) }.
Arguments mk {A}.
Arguments distance {A}.
Arguments segs {A}.
Arguments buckets {A}.
Arguments entries {A}.
End BandedIndex.
Abbreviation index := BandedIndex.t.

Section banded.
Context {A : Type}.
Implicit Types (idx : index A) (hash : Z).

Definition new_index (distance : Z) : index A :=
  let segs := band_widths distance in
  BandedIndex.mk distance segs (replicate (length segs) ∅) [].

Definition is_banded idx : bool :=
  match BandedIndex.segs idx with [] => false | _ => true end.
Definition index_len idx : nat := length (BandedIndex.entries idx).

Definition insert_index idx hash (payload : A) : index A :=
  let slot := index_len idx in
  BandedIndex.mk (BandedIndex.distance idx) (BandedIndex.segs idx)
    (zip_with (λ seg bucket,
       <[band_of seg hash := default [] (bucket !! band_of seg hash) ++ [slot]]> bucket)
       (BandedIndex.segs idx) (BandedIndex.buckets idx))
    (BandedIndex.entries idx ++ [(hash, payload)]).

(** [hamming(self.entries[s].0, hash) <= self.distance] *)
Definition near idx hash (s : nat) : bool :=
  match BandedIndex.entries idx !! s with
  | Some (h, _) => hamming h hash <=? BandedIndex.distance idx
  | None => false
  end.

(** The bucket of [hash] in each band that has one. *)
Definition own_buckets idx hash : list (list nat) :=
  omap id (zip_with (λ seg (bucket : gmap Z (list nat)), bucket !! band_of seg hash)
             (BandedIndex.segs idx) (BandedIndex.buckets idx)).

Definition is_near_dup idx hash : bool :=
  if is_banded idx then
    existsb (λ slots, existsb (near idx hash) slots) (own_buckets idx hash)
  else existsb (λ e, hamming e.1 hash <=? BandedIndex.distance idx) (BandedIndex.entries idx).

Section visiting.
Context {T : Type} (visit : nat → A → T → T * bool).

(** The visit of one slot, when it is near; [false] ends the walk. *)
Definition visit_slot idx hash (slot : nat) (acc : T) : T * bool :=
  match BandedIndex.entries idx !! slot with
  | Some (candidate, payload) =>
      if hamming candidate hash <=? BandedIndex.distance idx then visit slot payload acc
      else (acc, true)
  | None => (acc, true)
  end.

Fixpoint walk_slots idx hash (slots : list nat) (acc : T) : T :=
  match slots with
  | [] => acc
  | slot :: slots =>
      let '(acc, go) := visit_slot idx hash slot acc in
      if go then walk_slots idx hash slots acc else acc
  end.

(** The cursor past every slot up to [after]: the buckets ascend, so the partition
    point is the first slot beyond it. *)
Fixpoint partition_point (after : nat) (bucket : list nat) : list nat :=
  match bucket with
  | slot :: rest => if (slot <=? after)%nat then partition_point after rest else bucket
  | [] => []
  end.

(** The least head of the cursors ([usize::MAX] is none). *)
Definition min_head (cursors : list (list nat)) : option nat :=
  foldr (λ cursor acc,
    match cursor, acc with
    | slot :: _, Some n => Some (slot `min` n)%nat
    | slot :: _, None => Some slot
    | [], _ => acc
    end) None cursors.

Fixpoint advance_past (next : nat) (cursor : list nat) : list nat :=
  match cursor with
  | slot :: rest => if (slot =? next)%nat then advance_past next rest else cursor
  | [] => []
  end.

(** The k-way merge; each round drops its slot from every cursor. *)
Fixpoint merge (fuel : nat) idx hash (cursors : list (list nat)) (acc : T) : T :=
  match fuel with
  | O => acc
  | S fuel =>
      match min_head cursors with
      | None => acc
      | Some next =>
          let cursors := map (advance_past next) cursors in
          let '(acc, go) := visit_slot idx hash next acc in
          if go then merge fuel idx hash cursors acc else acc
      end
  end.

Definition for_each_neighbor_after idx hash (after : nat) (acc : T) : T :=
  if is_banded idx then
    merge (index_len idx) idx hash
      (List.filter (λ c, match c with [] => false | _ => true end)
         (map (partition_point after) (own_buckets idx hash))) acc
  else walk_slots idx hash (seq (after + 1) (index_len idx - (after + 1))) acc.
End visiting.

Definition dedup_sorted (l : list nat) : list nat :=
  foldr (λ s acc, match acc with s' :: _ => if (s =? s')%nat then acc else s :: acc | [] => [s] end)
    [] l.

Definition neighbors idx hash : list (nat * A) :=
  let slots :=
    if is_banded idx then
      List.filter (near idx hash)
        (dedup_sorted (order_by Nat.leb (concat (own_buckets idx hash))))
    else List.filter (near idx hash) (seq 0 (index_len idx)) in
  omap (λ s, (λ e, (s, e.2)) <$> (BandedIndex.entries idx !! s)) slots.

Definition hashes idx : list Z := map fst (BandedIndex.entries idx).
End banded.

(** ** The banded index answers exactly what a scan would *)

(** ** The pigeonhole *)

(** How many of the [n] bits from [lo] on are set in [x]. *)
Definition ones_in (x lo n : Z) : nat := length (List.filter (Z.testbit x) (seqZ lo n)).

Lemma ones_in_app x lo n m :
  0 ≤ n → 0 ≤ m → ones_in x lo (n + m) = (ones_in x lo n + ones_in x (lo + n) m)%nat.
Proof.
  intros Hn Hm. unfold ones_in. by rewrite seqZ_app, List.filter_app, length_app by done.
Qed.

Lemma ones_in_0 x lo n i : ones_in x lo n = 0%nat → lo ≤ i < lo + n → Z.testbit x i = false.
Proof.
  unfold ones_in. intros H0 Hi. apply nil_length_inv in H0.
  destruct (Z.testbit x i) eqn:E; [|done].
  assert (i ∈ List.filter (Z.testbit x) (seqZ lo n)) as Hin.
  { apply list_elem_of_In, List.filter_In. split; [|done].
    apply list_elem_of_In, elem_of_seqZ. lia. }
  rewrite H0 in Hin. by apply not_elem_of_nil in Hin.
Qed.

Lemma land_ones_bit x s w i :
  0 ≤ s → 0 ≤ w → 0 ≤ i →
  Z.testbit (Z.land (Z.shiftr x s) (Z.ones w)) i = (i <? w) && Z.testbit x (s + i).
Proof.
  intros Hs Hw Hi. rewrite Z.land_spec, Z.shiftr_spec by done. rewrite (Z.add_comm i s).
  destruct (Z.ltb_spec i w).
  - rewrite Z.ones_spec_low by lia. by rewrite andb_true_r.
  - rewrite Z.ones_spec_high by lia. by rewrite andb_false_r.
Qed.

Lemma band_differs a b s w :
  0 ≤ s → 0 ≤ w →
  Z.land (Z.shiftr a s) (Z.ones w) ≠ Z.land (Z.shiftr b s) (Z.ones w) →
  (1 ≤ ones_in (Z.lxor a b) s w)%nat.
Proof.
  intros Hs Hw Hne. destruct (ones_in (Z.lxor a b) s w) eqn:E; [|lia]. exfalso. apply Hne.
  apply Z.bits_inj'. intros i Hi. rewrite !land_ones_bit by done.
  destruct (Z.ltb_spec i w); [|done]. cbn. apply (ones_in_0 _ _ _ (s + i)) in E; [|lia].
  rewrite Z.lxor_spec in E. by apply xorb_eq.
Qed.

Definition width (base rem i : Z) : Z := base + (if i <? rem then 1 else 0).
Definition widths (base rem : Z) (bands : list Z) : Z :=
  foldr (λ i acc, width base rem i + acc) 0 bands.

Lemma widths_nonneg base rem bands : 0 ≤ base → 0 ≤ widths base rem bands.
Proof.
  intros Hb. induction bands as [|i bands IH]; cbn; [lia|].
  fold (widths base rem bands). unfold width at 1. destruct (i <? rem); lia.
Qed.

Lemma segs_differ base rem bands a b shift :
  0 < base → 0 ≤ shift → base < 64 ∨ (base = 64 ∧ rem = 0 ∧ Forall (λ i, 0 ≤ i) bands) →
  Forall (λ seg, band_of seg a ≠ band_of seg b) (segs_from base rem bands shift) →
  (length bands ≤ ones_in (Z.lxor a b) shift (widths base rem bands))%nat.
Proof.
  intros Hb Hs Hw. revert shift Hs Hw. induction bands as [|i bands IH]; cbn; intros shift Hs Hw HF; [lia|].
  apply Forall_cons in HF as [Hne HF]. fold (width base rem i) in Hne, HF.
  change (foldr _ 0 bands) with (widths base rem bands).
  assert (0 < width base rem i ≤ 64) as Hwi.
  { unfold width. destruct (Z.ltb_spec i rem); [|lia].
    destruct Hw as [|(-> & -> & Hi)]; [lia|]. apply Forall_cons in Hi. lia. }
  rewrite ones_in_app by (try apply widths_nonneg; lia).
  assert (1 ≤ ones_in (Z.lxor a b) shift (width base rem i))%nat.
  { apply band_differs; [done|lia|]. unfold band_of in Hne. cbn in Hne.
    destruct (Z.eqb_spec (width base rem i) 64) as [E|E]; [by rewrite E|].
    by rewrite Z.ones_equiv, <- Z.shiftl_1_l. }
  enough (length bands ≤ ones_in (Z.lxor a b) (shift + width base rem i) (widths base rem bands))%nat
    by lia.
  apply IH; [lia| |done]. destruct Hw as [?|(-> & -> & Hi)]; [by left|right].
  apply Forall_cons in Hi as [_ Hi]. done.
Qed.

Lemma banded_distance d :
  0 ≤ d < 2 ^ 32 - 1 → band_widths d ≠ [] → 0 ≤ d ≤ 5.
Proof.
  intros Hd Hne. unfold band_widths in Hne. rewrite wrap_u32_small in Hne by lia.
  destruct (64 / _ <? MIN_BAND_BITS) eqn:E; [done|]. apply Z.ltb_ge in E. unfold MIN_BAND_BITS in E.
  destruct (Z.le_gt_cases d 5); [lia|]. exfalso.
  assert (64 / Z.min (Z.max (d + 1) 1) 64 ≤ 64 / 7) as Hle.
  { apply Z.div_le_compat_l; lia. }
  change (64 / 7) with 9 in Hle. lia.
Qed.

(** The band arithmetic at the distances that are banded. *)
Lemma small_bands d :
  0 ≤ d ≤ 5 →
  band_widths d = segs_from (64 / (d + 1)) (64 mod (d + 1)) (seqZ 0 (d + 1)) 0
  ∧ 0 < 64 / (d + 1)
  ∧ (64 / (d + 1) < 64
     ∨ 64 / (d + 1) = 64 ∧ 64 mod (d + 1) = 0 ∧ Forall (λ i, 0 ≤ i) (seqZ 0 (d + 1)))
  ∧ widths (64 / (d + 1)) (64 mod (d + 1)) (seqZ 0 (d + 1)) = 64
  ∧ Z.of_nat (length (seqZ 0 (d + 1))) = d + 1.
Proof.
  intros Hd. assert (d = 0 ∨ 1 ≤ d) as [->|Hd1] by lia.
  - split_and!; [by vm_compute..| |by vm_compute|by vm_compute].
    right. split_and!; [by vm_compute..|]. repeat constructor. by vm_compute.
  - assert (d ∈ seqZ 1 5) as Hin by (apply elem_of_seqZ; lia). revert Hin. clear.
    change (seqZ 1 5) with [1; 2; 3; 4; 5]. rewrite !elem_of_cons.
    intros [->|[->|[->|[->|[->|[]%not_elem_of_nil]]]]]; (split_and!; [by vm_compute..| |by vm_compute|by vm_compute]);
      left; by vm_compute.
Qed.

Lemma hamming_ones a b : hamming a b = Z.of_nat (ones_in (Z.lxor a b) 0 64).
Proof. unfold hamming, count_ones, ones_in. reflexivity. Qed.

(** Two hashes within [d] bits agree on some band. *)
Lemma near_shares_band d a b :
  0 ≤ d < 2 ^ 32 - 1 → band_widths d ≠ [] → hamming a b ≤ d →
  ∃ seg, seg ∈ band_widths d ∧ band_of seg a = band_of seg b.
Proof.
  intros Hd Hne Hnear. pose proof (banded_distance d Hd Hne) as Hd'.
  destruct (decide (Exists (λ seg, band_of seg a = band_of seg b) (band_widths d))) as [He|Hno].
  { by apply Exists_exists in He. }
  apply not_Exists_Forall in Hno; [|intros ?; apply _]. exfalso.
  assert (∃ base rem bands, band_widths d = segs_from base rem bands 0 ∧ 0 < base
          ∧ (base < 64 ∨ (base = 64 ∧ rem = 0 ∧ Forall (λ i, 0 ≤ i) bands))
          ∧ widths base rem bands = 64 ∧ Z.of_nat (length bands) = d + 1)
    as (base & rem & bands & Hsegs & Hb & Hw & Hsum & Hlen).
  { exists (64 / (d + 1)), (64 mod (d + 1)), (seqZ 0 (d + 1)). by apply small_bands. }
  rewrite Hsegs in Hno. apply segs_differ in Hno; [|lia|lia|done].
  rewrite Hsum in Hno. rewrite hamming_ones in Hnear. revert Hnear Hno Hlen.
  generalize (ones_in (Z.lxor a b) 0 64). clear. lia.
Qed.

(** ** Ascending lists of slots *)

Abbreviation ascending := (StronglySorted Nat.lt).

Lemma ascending_filter (p : nat → bool) l : ascending l → ascending (List.filter p l).
Proof.
  induction 1 as [|s l Hs IH Hall]; cbn; [constructor|]. destruct (p s); [|done].
  constructor; [done|]. rewrite Forall_forall in *. intros x Hx.
  apply list_elem_of_In, List.filter_In in Hx as [Hx _]. apply Hall. by apply list_elem_of_In.
Qed.

Lemma ascending_seq i n : ascending (seq i n).
Proof.
  revert i. induction n as [|n IH]; intros i; cbn; constructor; [done|].
  apply Forall_forall. intros x Hx. apply elem_of_seq in Hx. lia.
Qed.

Lemma ascending_NoDup l : ascending l → NoDup l.
Proof.
  induction 1 as [|s l Hs IH Hall]; constructor; [|done]. intros Hin.
  rewrite Forall_forall in Hall. specialize (Hall _ Hin). lia.
Qed.

Lemma ascending_unique l l' : ascending l → ascending l' → (∀ s, s ∈ l ↔ s ∈ l') → l = l'.
Proof.
  intros H H' He. assert (AntiSymm (=) Nat.lt) by (intros ???; lia).
  eapply (StronglySorted_unique Nat.lt); [done..|].
  by apply NoDup_Permutation; [apply ascending_NoDup..|].
Qed.

Lemma elem_of_dedup_sorted l s : s ∈ dedup_sorted l ↔ s ∈ l.
Proof.
  unfold dedup_sorted. induction l as [|x l IH]; cbn; [done|].
  destruct (foldr _ [] l) as [|y acc] eqn:E; [set_solver|].
  destruct (Nat.eqb_spec x y) as [->|Hne]; set_solver.
Qed.

Lemma ascending_dedup l : StronglySorted (λ a b, Nat.leb a b = true) l → ascending (dedup_sorted l).
Proof.
  induction 1 as [|x l Hs IH Hall]; cbn; [constructor|].
  change (foldr _ [] l) with (dedup_sorted l).
  destruct (dedup_sorted l) as [|y acc] eqn:E; [repeat constructor|].
  destruct (Nat.eqb_spec x y) as [->|Hne]; [done|]. constructor; [done|].
  apply Forall_forall. intros s Hin. rewrite Forall_forall in Hall.
  assert (x ≤ y)%nat.
  { apply Nat.leb_le, Hall, elem_of_dedup_sorted. rewrite E. by left. }
  apply elem_of_cons in Hin as [->|Hin]; [lia|].
  inversion IH as [|?? _ Hy]; subst. rewrite Forall_forall in Hy. specialize (Hy _ Hin). lia.
Qed.

Lemma elem_of_partition_point after l s :
  ascending l → s ∈ partition_point after l ↔ s ∈ l ∧ (after < s)%nat.
Proof.
  induction 1 as [|x l Hs IH Hall]; cbn; [set_solver|]. rewrite Forall_forall in Hall.
  destruct (Nat.leb_spec x after).
  - rewrite IH, elem_of_cons. intuition lia.
  - rewrite elem_of_cons. split; [|tauto]. intros Hin. split; [done|].
    destruct Hin as [->|Hin]; [done|]. specialize (Hall _ Hin). lia.
Qed.

Lemma ascending_partition_point after l : ascending l → ascending (partition_point after l).
Proof.
  induction 1 as [|x l Hs IH Hall]; cbn; [constructor|].
  by destruct (x <=? after)%nat; [|constructor].
Qed.

Lemma elem_of_advance_past next l s :
  ascending l → (∀ s, s ∈ l → (next ≤ s)%nat) →
  s ∈ advance_past next l ↔ s ∈ l ∧ s ≠ next.
Proof.
  induction 1 as [|x l Hs IH Hall]; cbn; intros Hle; [set_solver|]. rewrite Forall_forall in Hall.
  destruct (Nat.eqb_spec x next) as [->|Hne].
  - rewrite IH by (intros; apply Hle; by right). rewrite elem_of_cons. naive_solver.
  - rewrite elem_of_cons. assert (next < x)%nat by (specialize (Hle x ltac:(by left)); lia).
    split; [|tauto]. intros [->|Hin]; [auto|]. specialize (Hall _ Hin). split; [auto|lia].
Qed.

Lemma ascending_advance_past next l : ascending l → ascending (advance_past next l).
Proof.
  induction 1 as [|x l Hs IH Hall]; cbn; [constructor|].
  by destruct (x =? next)%nat; [|constructor].
Qed.

Lemma min_head_None cursors : min_head cursors = None → ∀ c, c ∈ cursors → c = [].
Proof.
  induction cursors as [|[|x c] cs IH]; cbn; [set_solver| |by case_match].
  intros Hm c' [->|Hc]%elem_of_cons; [done|]. by apply IH.
Qed.

Lemma min_head_cons x c cs :
  min_head ((x :: c) :: cs)
  = Some (match min_head cs with Some n => (x `min` n)%nat | None => x end).
Proof. unfold min_head. cbn. by destruct (foldr _ None cs). Qed.

Lemma min_head_Some cursors next :
  Forall (λ c, ascending c) cursors → min_head cursors = Some next →
  (∃ c, c ∈ cursors ∧ next ∈ c) ∧ ∀ c s, c ∈ cursors → s ∈ c → (next ≤ s)%nat.
Proof.
  revert next. induction cursors as [|c cs IH]; intros next HF Hm; [done|].
  apply Forall_cons in HF as [Hc HF]. destruct c as [|x c].
  { destruct (IH _ HF Hm) as [(c & Hin & Hn) Hle]. split; [exists c; set_solver|].
    intros c' s [->|Hc']%elem_of_cons Hs; [by apply not_elem_of_nil in Hs|eauto]. }
  assert (∀ s, s ∈ x :: c → (x ≤ s)%nat) as Hx.
  { intros s [->|Hs]%elem_of_cons; [done|]. inversion Hc as [|?? _ Hall]; subst.
    rewrite Forall_forall in Hall. specialize (Hall _ Hs). lia. }
  rewrite min_head_cons in Hm. destruct (min_head cs) as [n|] eqn:E; injection Hm as <-.
  - destruct (IH _ HF eq_refl) as [(c' & Hin & Hn) Hle]. split.
    + destruct (Nat.le_ge_cases x n); [exists (x :: c); split; [by left|]|exists c'; split; [by right|]].
      * rewrite Nat.min_l by done. by left.
      * by rewrite Nat.min_r.
    + intros c0 s [->|Hc0]%elem_of_cons Hs; [specialize (Hx _ Hs)|specialize (Hle _ _ Hc0 Hs)]; lia.
  - split; [exists (x :: c); split; by left|].
    intros c0 s [->|Hc0]%elem_of_cons Hs; [by apply Hx|].
    apply (min_head_None cs E) in Hc0 as ->. by apply not_elem_of_nil in Hs.
Qed.

(** ** The index holds what was inserted *)

Section index.
Context {A : Type}.
Implicit Types (items : list (Z * A)) (idx : index A) (hash : Z).

Definition index_of (d : Z) items : index A :=
  foldl (λ idx e, insert_index idx e.1 e.2) (new_index d) items.

(** The slots whose hash has the value [v] in the band [seg]. *)
Definition slots_of (seg : Z * Z) (v : Z) items : list nat :=
  List.filter (λ s, match items !! s with Some e => band_of seg e.1 =? v | None => false end)
    (seq 0 (length items)).

Record holds (d : Z) items idx : Prop := {
  holds_distance : BandedIndex.distance idx = d;
  holds_segs : BandedIndex.segs idx = band_widths d;
  holds_entries : BandedIndex.entries idx = items;
  holds_buckets : Forall2 (λ seg (bucket : gmap Z (list nat)),
    ∀ v, default [] (bucket !! v) = slots_of seg v items) (band_widths d) (BandedIndex.buckets idx) }.

Lemma slots_of_snoc seg v items e :
  slots_of seg v (items ++ [e])
  = slots_of seg v items ++ (if band_of seg e.1 =? v then [length items] else []).
Proof.
  unfold slots_of. rewrite length_app, seq_app, List.filter_app. cbn. f_equal.
  - apply List.filter_ext_in. intros s Hs%list_elem_of_In%elem_of_seq.
    by rewrite lookup_app_l by lia.
  - rewrite list_lookup_middle by done. by destruct (_ =? v).
Qed.

Lemma index_of_holds d items : holds d items (index_of d items).
Proof.
  unfold index_of. induction items as [|e items IH] using rev_ind.
  - split; try done. cbn. induction (band_widths d); constructor; [|done].
    intros v. by rewrite lookup_empty.
  - rewrite foldl_app. cbn. revert IH. generalize (foldl (λ idx e, insert_index idx e.1 e.2)
      (new_index d) items). intros idx [Hd Hs He Hb]. destruct e as [h a].
    split; cbn; [done|done|by rewrite He|].
    unfold index_len. rewrite Hs, He. clear Hs He.
    induction Hb as [|seg bucket segs buckets Hseg Hb IH]; cbn; [constructor|].
    constructor; [|done].
    intros v. rewrite slots_of_snoc, <- Hseg. cbn.
    destruct (Z.eqb_spec (band_of seg h) v) as [<-|Hne].
    + by rewrite lookup_insert_eq.
    + by rewrite lookup_insert_ne, app_nil_r.
Qed.

Lemma elem_of_slots seg v items s :
  s ∈ slots_of seg v items ↔ ∃ e, items !! s = Some e ∧ band_of seg e.1 = v.
Proof.
  unfold slots_of. rewrite elem_of_filter_bool, elem_of_seq. split.
  - intros [Hs He]. destruct (items !! s) as [e|] eqn:E; [|done]. exists e.
    split; [done|]. by apply Z.eqb_eq.
  - intros (e & He & Hv). rewrite He. split; [|by apply Z.eqb_eq].
    apply lookup_lt_Some in He. lia.
Qed.

Section held.
Context d items idx (Hd : 0 ≤ d < 2 ^ 32 - 1) (Hidx : holds d items idx).

Lemma own_bucket_slots hash slots :
  slots ∈ own_buckets idx hash → ∃ seg, slots = slots_of seg (band_of seg hash) items.
Proof.
  destruct Hidx as [_ Hs _ Hb]. unfold own_buckets. rewrite Hs.
  rewrite list_elem_of_omap. intros (o & Ho & Hsome). cbn in Hsome. subst o.
  apply elem_of_lookup_zip_with in Ho as (i & seg & bucket & Heq & Hseg & Hbucket).
  exists seg. eapply Forall2_lookup_lr in Hb; [|done..]. specialize (Hb (band_of seg hash)).
  by rewrite <- Heq in Hb.
Qed.

Lemma own_buckets_ascend hash : Forall (λ c, ascending c) (own_buckets idx hash).
Proof.
  apply Forall_forall. intros slots Hin. apply own_bucket_slots in Hin as [seg ->].
  apply ascending_filter, ascending_seq.
Qed.

Lemma own_bucket_bound hash slots s :
  slots ∈ own_buckets idx hash → s ∈ slots → (s < length items)%nat.
Proof.
  intros Hin Hs. apply own_bucket_slots in Hin as [seg ->].
  apply elem_of_slots in Hs as (e & He & _). by eapply lookup_lt_Some.
Qed.

Lemma near_spec hash s :
  near idx hash s = true ↔ ∃ e, items !! s = Some e ∧ hamming e.1 hash ≤ d.
Proof.
  destruct Hidx as [Hdist _ He _]. unfold near. rewrite Hdist, He.
  destruct (items !! s) as [[h a]|] eqn:E; [|naive_solver].
  rewrite Z.leb_le. naive_solver.
Qed.

Lemma own_buckets_cover hash s :
  is_banded idx = true → near idx hash s = true → ∃ slots, slots ∈ own_buckets idx hash ∧ s ∈ slots.
Proof.
  intros Hbanded Hnear. apply near_spec in Hnear as (e & He & Hdist).
  assert (band_widths d ≠ []) as Hne.
  { destruct Hidx as [_ Hs _ _]. unfold is_banded in Hbanded. rewrite Hs in Hbanded.
    by destruct (band_widths d). }
  destruct (near_shares_band d _ _ Hd Hne Hdist) as (seg & Hin & Heq).
  apply list_elem_of_lookup in Hin as [i Hi].
  destruct Hidx as [_ Hs _ Hb]. unfold own_buckets. rewrite Hs.
  destruct (Forall2_lookup_l _ _ _ _ _ Hb Hi) as (bucket & Hbucket & Hslots).
  assert (s ∈ slots_of seg (band_of seg hash) items) as Hmem by (apply elem_of_slots; eauto).
  rewrite <- Hslots in Hmem. destruct (bucket !! band_of seg hash) as [slots|] eqn:El.
  - exists slots. split; [|done]. apply list_elem_of_omap. exists (Some slots). split; [|done].
    apply elem_of_lookup_zip_with. eauto 8.
  - by apply not_elem_of_nil in Hmem.
Qed.

(** ** The k-way merge visits what the scan visits *)

Section walking.
Context {T : Type} (visit : nat → A → T → T * bool) (hash : Z).

Lemma visit_far s acc : near idx hash s = false → visit_slot visit idx hash s acc = (acc, true).
Proof.
  unfold near, visit_slot. destruct (_ !! s) as [[h a]|]; [|done]. by intros ->.
Qed.

Lemma walk_far l l' acc :
  (∀ s, s ∈ l → near idx hash s = false) →
  walk_slots visit idx hash (l ++ l') acc = walk_slots visit idx hash l' acc.
Proof.
  induction l as [|s l IH]; cbn; intros Hfar; [done|].
  rewrite visit_far by (apply Hfar; by left). apply IH. intros. apply Hfar. by right.
Qed.

(** The cursors at slot [p]: ascending, at or past it, and holding every near slot from it. *)
Definition cursors_at (p : nat) (cursors : list (list nat)) : Prop :=
  Forall (λ c, ascending c) cursors
  ∧ (∀ c s, c ∈ cursors → s ∈ c → (p ≤ s < length items)%nat)
  ∧ (∀ s, (p ≤ s)%nat → near idx hash s = true → ∃ c, c ∈ cursors ∧ s ∈ c).

Lemma cursors_next p cursors next :
  cursors_at p cursors → min_head cursors = Some next →
  (p ≤ next < length items)%nat ∧ (∀ s, (p ≤ s < next)%nat → near idx hash s = false)
  ∧ cursors_at (next + 1) (map (advance_past next) cursors).
Proof.
  intros (HF & Hb & Hc) Hm. destruct (min_head_Some _ _ HF Hm) as [(c & Hin & Hn) Hle].
  pose proof HF as HF'. rewrite Forall_forall in HF'.
  pose proof (Hb _ _ Hin Hn) as Hpn. split_and!; [lia..| |].
  - intros s Hs. destruct (near idx hash s) eqn:E; [|done]. exfalso.
    destruct (Hc s ltac:(lia) E) as (c' & Hc' & Hs'). specialize (Hle _ _ Hc' Hs'). lia.
  - split_and!.
    + apply Forall_map. eapply Forall_impl; [exact HF|]. intros. by apply ascending_advance_past.
    + intros c' s Hc' Hs. apply list_elem_of_fmap in Hc' as (c0 & -> & Hc0).
      apply elem_of_advance_past in Hs as [Hs Hne]; [|by apply HF'|by intros; eapply Hle].
      specialize (Hle _ _ Hc0 Hs). specialize (Hb _ _ Hc0 Hs). lia.
    + intros s Hs Hnear. destruct (Hc s ltac:(lia) Hnear) as (c' & Hc' & Hs').
      exists (advance_past next c'). split; [by apply list_elem_of_fmap_2|].
      apply elem_of_advance_past; [by apply HF'|by intros; eapply Hle|]. split; [done|lia].
Qed.

Lemma merge_walks fuel p cursors acc :
  cursors_at p cursors → (length items - p ≤ fuel)%nat →
  merge visit fuel idx hash cursors acc
  = walk_slots visit idx hash (seq p (length items - p)) acc.
Proof.
  revert p cursors acc. induction fuel as [|fuel IH]; intros p cursors acc Hc Hfuel; cbn [merge].
  { by replace (length items - p)%nat with 0%nat by lia. }
  destruct (min_head cursors) as [next|] eqn:Hm.
  - destruct (cursors_next _ _ _ Hc Hm) as (Hn & Hfar & Hc').
    replace (length items - p)%nat with (next - p + S (length items - (next + 1)))%nat by lia.
    rewrite seq_app, walk_far.
    2: { intros s Hs. apply elem_of_seq in Hs. apply Hfar. lia. }
    replace (p + (next - p))%nat with next by lia. cbn [seq walk_slots].
    destruct (visit_slot visit idx hash next acc) as [acc' []]; [|done].
    rewrite (IH (next + 1)%nat) by (done || lia). by rewrite Nat.add_1_r.
  - rewrite <- (app_nil_r (seq _ _)), walk_far; [done|]. intros s Hs.
    destruct (near idx hash s) eqn:E; [|done]. exfalso. apply elem_of_seq in Hs.
    destruct Hc as (_ & _ & Hc). destruct (Hc s ltac:(lia) E) as (c & Hin & Hs').
    rewrite (min_head_None _ Hm c Hin) in Hs'. by apply not_elem_of_nil in Hs'.
Qed.

Lemma own_cursors after :
  is_banded idx = true →
  cursors_at (after + 1)
    (List.filter (λ c, match c with [] => false | _ => true end)
       (map (partition_point after) (own_buckets idx hash))).
Proof.
  intros Hbanded. pose proof (own_buckets_ascend hash) as HF.
  pose proof HF as HF'. rewrite Forall_forall in HF'.
  assert (∀ c, c ∈ List.filter (λ c, match c with [] => false | _ => true end)
                     (map (partition_point after) (own_buckets idx hash)) →
          ∃ slots, slots ∈ own_buckets idx hash ∧ c = partition_point after slots) as Hinv.
  { intros c Hc. apply elem_of_filter_bool in Hc as [Hc _].
    apply list_elem_of_fmap in Hc as (slots & -> & Hs). eauto. }
  split_and!.
  - apply Forall_forall. intros c Hc. apply Hinv in Hc as (slots & Hs & ->).
    by apply ascending_partition_point, HF'.
  - intros c s Hc Hs. apply Hinv in Hc as (slots & Hin & ->).
    apply elem_of_partition_point in Hs as [Hs Hlt]; [|by apply HF'].
    pose proof (own_bucket_bound _ _ _ Hin Hs). lia.
  - intros s Hs Hnear. destruct (own_buckets_cover _ _ Hbanded Hnear) as (slots & Hin & Hmem).
    assert (s ∈ partition_point after slots) as Hp.
    { apply elem_of_partition_point; [by apply HF'|]. split; [done|lia]. }
    exists (partition_point after slots). split; [|done]. apply elem_of_filter_bool. split.
    + by apply list_elem_of_fmap_2.
    + by destruct (partition_point after slots); [apply not_elem_of_nil in Hp|].
Qed.

Lemma for_each_walks after acc :
  for_each_neighbor_after visit idx hash after acc
  = walk_slots visit idx hash (seq (after + 1) (length items - (after + 1))) acc.
Proof.
  unfold for_each_neighbor_after, index_len. rewrite (holds_entries _ _ _ Hidx).
  destruct (is_banded idx) eqn:Hb; [|done]. apply merge_walks; [by apply own_cursors|lia].
Qed.
End walking.

Lemma is_near_dup_scan hash :
  is_near_dup idx hash = existsb (λ e, hamming e.1 hash <=? d) items.
Proof.
  unfold is_near_dup. rewrite (holds_entries _ _ _ Hidx), (holds_distance _ _ _ Hidx).
  destruct (is_banded idx) eqn:Hb; [|done]. apply Bool.eq_iff_eq_true. split.
  - intros (slots & _ & Hs)%List.existsb_exists. apply List.existsb_exists in Hs as (s & _ & Hs).
    apply near_spec in Hs as (e & He & Hle). apply List.existsb_exists. exists e.
    split; [by eapply list_elem_of_In, list_elem_of_lookup_2|by apply Z.leb_le].
  - intros (e & He & Hle)%List.existsb_exists. apply list_elem_of_In, list_elem_of_lookup in He as [s Hs].
    assert (near idx hash s = true) as Hnear.
    { apply near_spec. exists e. split; [done|]. by apply Z.leb_le. }
    destruct (own_buckets_cover _ _ Hb Hnear) as (slots & Hin & Hmem).
    apply List.existsb_exists. exists slots. split; [by apply list_elem_of_In|].
    apply List.existsb_exists. exists s. split; [by apply list_elem_of_In|done].
Qed.

Lemma neighbors_scan hash :
  neighbors idx hash
  = omap (λ s, (λ e, (s, e.2)) <$> (items !! s))
      (List.filter (near idx hash) (seq 0 (length items))).
Proof.
  unfold neighbors, index_len. rewrite (holds_entries _ _ _ Hidx).
  destruct (is_banded idx) eqn:Hb; [|done]. f_equal. apply ascending_unique.
  - apply ascending_filter, ascending_dedup, order_by_sorted.
    + intros x y. destruct (Nat.le_ge_cases x y); [left|right]; by apply Nat.leb_le.
    + intros x y z Hxy%Nat.leb_le Hyz%Nat.leb_le. apply Nat.leb_le. lia.
  - apply ascending_filter, ascending_seq.
  - intros s. rewrite !elem_of_filter_bool, elem_of_dedup_sorted, elem_of_order_by.
    rewrite elem_of_seq, list_elem_of_In, List.in_concat. split.
    + intros [(slots & Hin & Hs) Hnear]. split; [|done].
      apply near_spec in Hnear as (e & He & _). apply lookup_lt_Some in He. lia.
    + intros [_ Hnear]. split; [|done].
      destruct (own_buckets_cover _ _ Hb Hnear) as (slots & Hin & Hmem).
      exists slots. by rewrite <- !list_elem_of_In.
Qed.
End held.
End index.

(** The banded index is exact: built from any insertions at any distance a [u32] holds
    below its maximum, it answers the membership test, lists the neighbours and visits them
    after a slot (in order, until the visitor stops) exactly as a scan of all entries by
    Hamming distance does, though it only looks at buckets. *)
Theorem banded_index_is_exact {A} d (items : list (Z * A)) hash (Hd : 0 ≤ d < 2 ^ 32 - 1) :
  let idx := index_of d items in
  is_near_dup idx hash = existsb (λ e, hamming e.1 hash <=? d) items
  ∧ neighbors idx hash
    = omap (λ s, e ← items !! s; if hamming e.1 hash <=? d then Some (s, e.2) else None)
        (seq 0 (length items))
  ∧ ∀ T (visit : nat → A → T → T * bool) after acc,
      for_each_neighbor_after visit idx hash after acc
      = walk_slots visit idx hash (seq (after + 1) (length items - (after + 1))) acc.
Proof.
  pose proof (index_of_holds d items) as Hidx. split_and!.
  - by apply (is_near_dup_scan d).
  - rewrite (neighbors_scan _ _ _ Hd Hidx). generalize (seq 0 (length items)). intros l.
    induction l as [|s l IH]; [done|]. cbn [List.filter]. unfold near at 1.
    rewrite (holds_entries _ _ _ Hidx), (holds_distance _ _ _ Hidx). cbn.
    destruct (items !! s) as [[h a]|] eqn:E; [|done]. cbn.
    destruct (hamming h hash <=? d); [|done]. cbn. rewrite E. cbn. by rewrite IH.
  - intros. by apply (for_each_walks d).
Qed.

(** ** The fingerprint is the majority of the tokens, bit by bit *)

Definition votes_for (i : Z) (tokens : list Z) : nat :=
  length (List.filter (λ h, Z.testbit h i) tokens).

Lemma length_vote bits h : length (vote bits h) = length bits.
Proof. apply length_imap. Qed.

Lemma wrap_i32_small z : - 2 ^ 31 ≤ z < 2 ^ 31 → wrap_i32 z = z.
Proof. intros H. unfold wrap_i32. rewrite Z.mod_small by lia. lia. Qed.

Lemma voted tokens bits i b :
  bits !! i = Some b → - 2 ^ 31 < b - Z.of_nat (length tokens) →
  b + Z.of_nat (length tokens) < 2 ^ 31 →
  foldl vote bits tokens !! i
  = Some (b + 2 * Z.of_nat (votes_for (Z.of_nat i) tokens) - Z.of_nat (length tokens)).
Proof.
  revert bits b. induction tokens as [|h tokens IH]; intros bits b Hb Hlo Hhi; cbn.
  { rewrite Hb. f_equal. unfold votes_for. cbn. lia. }
  rewrite !length_cons in *.
  erewrite (IH _ (if Z.testbit h (Z.of_nat i) then b + 1 else b - 1)); cycle 1.
  - unfold vote. rewrite list_lookup_imap, Hb. cbn. f_equal. apply wrap_i32_small.
    destruct (Z.testbit _ _); lia.
  - destruct (Z.testbit _ _); lia.
  - destruct (Z.testbit _ _); lia.
  - unfold votes_for. cbn. destruct (Z.testbit h (Z.of_nat i)); rewrite ?length_cons; f_equal; lia.
Qed.

Lemma set_bits_spec bits k out j :
  0 ≤ k → 0 ≤ j →
  Z.testbit (set_bits bits k out) j
  = Z.testbit out j
    || match bits !! Z.to_nat (j - k) with Some b => (k <=? j) && (0 <? b) | None => false end.
Proof.
  revert k out. induction bits as [|b bits IH]; intros k out Hk Hj; cbn.
  { by rewrite orb_false_r. }
  rewrite IH by lia. assert (Z.testbit (Z.lor out (Z.shiftl 1 k)) j
    = Z.testbit out j || (j =? k)) as Hor.
  { rewrite Z.lor_spec, Z.shiftl_1_l, Z.pow2_bits_eqb by done. by rewrite Z.eqb_sym. }
  destruct (Z.lt_total j k) as [Hlt|[->|Hgt]].
  - rewrite (proj2 (Z.leb_gt (k + 1) j)) by lia. rewrite (proj2 (Z.leb_gt k j)) by lia.
    replace (Z.to_nat (j - k)) with 0%nat by lia. cbn.
    replace (Z.to_nat (j - (k + 1))) with 0%nat by lia. rewrite orb_false_r.
    destruct (0 <? b); rewrite ?Hor, ?(proj2 (Z.eqb_neq j k)) by lia;
      destruct (bits !! 0%nat); by rewrite ?orb_false_r.
  - rewrite (proj2 (Z.leb_gt (k + 1) k)) by lia. rewrite Z.leb_refl, Z.sub_diag.
    change (Z.to_nat 0) with 0%nat. cbn.
    replace (Z.to_nat (k - (k + 1))) with 0%nat by lia.
    destruct (0 <? b); rewrite ?Hor, ?Z.eqb_refl, ?orb_true_r; destruct (bits !! 0%nat);
      by rewrite ?orb_false_r, ?orb_true_r.
  - replace (Z.to_nat (j - k)) with (S (Z.to_nat (j - (k + 1)))) by lia. cbn.
    rewrite (proj2 (Z.leb_le (k + 1) j)), (proj2 (Z.leb_le k j)) by lia.
    by destruct (0 <? b); rewrite ?Hor, ?(proj2 (Z.eqb_neq j k)), ?orb_false_r by lia.
Qed.

Lemma length_votes tokens bits : length (foldl vote bits tokens) = length bits.
Proof.
  revert bits. induction tokens as [|h tokens IH]; intros bits; cbn; [done|].
  by rewrite IH, length_vote.
Qed.

(** A fingerprint bit is set exactly when more than half of the tokens set it in their
    hash: the fingerprint depends on how often each token occurs and not on their order, and
    no vote overflows its 32-bit counter below 2^31 tokens. *)
Theorem simhash_is_majority tokens i
    (Hlen : Z.of_nat (length tokens) < 2 ^ 31) (Hi : 0 ≤ i) :
  Z.testbit (simhash_tokens tokens) i
  = (i <? 64) && bool_decide (length tokens < 2 * votes_for i tokens)%nat.
Proof.
  destruct tokens as [|h tokens].
  { cbn. rewrite Z.bits_0, bool_decide_false by (unfold votes_for; cbn; lia). by rewrite andb_false_r. }
  unfold simhash_tokens. rewrite set_bits_spec, Z.bits_0, Z.sub_0_r by lia. cbn [orb].
  set (tokens' := h :: tokens) in *. destruct (Z.ltb_spec i 64) as [H64|H64].
  - erewrite (voted tokens' _ (Z.to_nat i) 0);
      [|apply lookup_replicate; split; [done|lia]|lia|lia].
    rewrite Z2Nat.id by done. rewrite (proj2 (Z.leb_le 0 i) Hi). cbn [andb].
    clearbody tokens'.
    destruct (Z.ltb_spec 0 (0 + 2 * Z.of_nat (votes_for i tokens') - Z.of_nat (length tokens'))).
    + symmetry. apply bool_decide_eq_true. lia.
    + symmetry. apply bool_decide_eq_false. lia.
  - rewrite (lookup_ge_None_2 (foldl vote _ _)); [done|].
    rewrite length_votes, length_replicate. lia.
Qed.

Lemma simhash_is_majority_witness :
  let tokens := map hash_token ["alpha"; "beta"; "alpha"]%string in
  Z.testbit (simhash_tokens tokens) 3 = Z.testbit (hash_token "alpha") 3
  ∧ Z.testbit (simhash_tokens tokens) 64 = false.
Proof.
  split.
  - rewrite (simhash_is_majority _ 3) by (vm_compute; split || done || intros [=]). by vm_compute.
  - rewrite (simhash_is_majority _ 64) by (vm_compute; done || intros [=]). by vm_compute.
Defined.

Lemma banded_index_is_exact_witness :
  let items := [(5, tt); (7, tt); (2 ^ 40, tt)] in
  is_near_dup (index_of 1 items) 4 = true ∧ neighbors (index_of 1 items) 4 = [(0%nat, tt)].
Proof.
  cbn zeta. destruct (banded_index_is_exact 1 [(5, tt); (7, tt); (2 ^ 40, tt)] 4) as (H1 & H2 & _).
  { split; vm_compute; done || intros [=]. }
  split; [rewrite H1|rewrite H2]; by vm_compute.
Defined.
