(* ===== verification/Records.v ===== *)
(** * Records: what a dataset stores, and what one upsert decides

    The rows of [records] and [record_revisions], the trust ladder, and the pure
    half of the batch upsert ([crates/core/src/datasets.rs]): fingerprints, declared
    derived paths, the field-level diff, the plan of a chunk and the record writes
    it collapses into. *)

From stdpp Require Import gmap.
From S2P Require Import Prelude Float64 Json SourceHealth Filters Simhash.

(** The lower-case hex SHA-256 of a text ([sha2], [hex]). *)
Class Sha256 := sha256_hex : string → string.

Inductive ChangeKind : Type := New | Changed | Unchanged.
#[global] Instance change_kind_eq_dec : EqDecision ChangeKind.
Proof. solve_decision. Defined.
Definition is_fresh (k : ChangeKind) : bool :=
  match k with New | Changed => true | Unchanged => false end.

(** ** Revisions: one entry of a record's history *)

Module Provenance.
Record t : Type := mk {
  job_id : option string; source_url : option string; artifact_sha : option string;
  rules_hash : option string }.
Definition empty : t := mk None None None None.
Definition is_empty (p : t) : bool :=
  negb (is_some (job_id p)) && negb (is_some (source_url p))
  && negb (is_some (artifact_sha p)) && negb (is_some (rules_hash p)).
Definition replayable (p : t) : bool := is_some (artifact_sha p) && is_some (rules_hash p).
End Provenance.

Module Revision.
Record t : Type := mk {
  app : string; dataset : string; key : string; revision : Z; change : string;
  data : option Json; diff : option Json; created_at : timestamp; trust : string;
  provenance : Provenance.t }.
#[global] Instance eta_revision : Eta t := λ r,
  mk (app r) (dataset r) (key r) (revision r) (change r) (data r) (diff r) (created_at r)
    (trust r) (provenance r).
End Revision.

(** A row of [record_revisions]; [rowid] is the implicit one the feed pages by. *)
Module RevisionRow.
Record t : Type := mk {
  rowid : Z; app : string; dataset : string; key : string; revision : Z; change : string;
  data : option string; diff : option string; created_at : timestamp; trust : option string;
  provenance : Provenance.t }.
#[global] Instance eta_revision_row : Eta t := λ r,
  mk (rowid r) (app r) (dataset r) (key r) (revision r) (change r) (data r) (diff r)
    (created_at r) (trust r) (provenance r).
End RevisionRow.

(** A row of [records]. *)
Module RecordRow.
Record t : Type := mk {
  app : string; dataset : string; key : string; hash : string; data : string; simhash : Z;
  first_seen : timestamp; last_seen : timestamp; updated_at : timestamp;
  removed_at : option timestamp; trust : option string }.
#[global] Instance eta_record_row : Eta t := λ r,
  mk (app r) (dataset r) (key r) (hash r) (data r) (simhash r) (first_seen r) (last_seen r)
    (updated_at r) (removed_at r) (trust r).
Definition live (r : t) : bool := negb (is_some (removed_at r)).
End RecordRow.

(** What a reader sees of it. *)
Module Record.
Record t : Type := mk {
  key : string; data : Json; first_seen : timestamp; last_seen : timestamp;
  updated_at : timestamp; removed_at : option timestamp; trust : string }.
End Record.

(** ** Trust *)

Definition TRUST_STABLE : string := "stable".

Definition trust_label (stored : option string) : string :=
  match stored with
  | Some t => if String.eqb (str_trim t) "" then TRUST_STABLE else t
  | None => TRUST_STABLE
  end.

Definition trust_rank (label : string) : Z :=
  if String.eqb label TRUST_STABLE then 0
  else if String.eqb label "provisional" then 1
  else if String.eqb label "quarantined" then 2 else 3.

(** [Iterator::max_by_key]: the last of the greatest. *)
Fixpoint max_by_rank (labels : list string) : option string :=
  match labels with
  | [] => None
  | l :: labels =>
      match max_by_rank labels with
      | Some m => Some (if trust_rank m <? trust_rank l then l else m)
      | None => Some l
      end
  end.

Definition weakest_trust (labels : list (option string)) : option string :=
  weakest ← max_by_rank (map trust_label labels);
  if String.eqb weakest TRUST_STABLE then None else Some weakest.

(** [TRUST_PREDICATE] *)
Definition trust_predicate (filter stored : option string) : bool :=
  match filter with
  | None => true
  | Some t =>
      if String.eqb t TRUST_STABLE then String.eqb (default TRUST_STABLE stored) t
      else bool_decide (stored = Some t)
  end.

(** The facts every row agrees on. *)
Definition common (values : list (option string)) : option string :=
  match values with
  | Some first :: rest =>
      if forallb (λ v, bool_decide (v = Some first)) rest then Some first else None
  | _ => None
  end.
Definition shared_provenance (rows : list (string * Json * Provenance.t)) : Provenance.t :=
  let all f := common (map (λ r, f r.2) rows) in
  Provenance.mk (all Provenance.job_id) (all Provenance.source_url)
    (all Provenance.artifact_sha) (all Provenance.rules_hash).

Definition TrustGroup : Type := option string * list (string * Json).

(** Adds an item to its group, the groups in order of first appearance. *)
Fixpoint push_group (t : option string) (item : string * Json) (groups : list TrustGroup) :
    list TrustGroup :=
  match groups with
  | [] => [(t, [item])]
  | (g, items) :: groups =>
      if bool_decide (g = t) then (g, items ++ [item]) :: groups
      else (g, items) :: push_group t item groups
  end.

(** The stamp a group carries: a blank or [stable] label is none. *)
Definition group_label (t : option string) : option string :=
  match t with
  | Some t => if String.eqb (str_trim t) "" || String.eqb t TRUST_STABLE then None else Some t
  | None => None
  end.

Definition group_by_trust (items : list (string * Json)) (trusts : list (option string)) :
    list TrustGroup :=
  foldl (λ groups it, push_group (group_label (mjoin (trusts !! it.1))) it.2 groups) []
    (imap pair items).

(** ** Reading rows back *)

Definition record_of `{JsonParse} (r : RecordRow.t) : Record.t :=
  Record.mk (RecordRow.key r) (default JNull (json_parse (RecordRow.data r)))
    (RecordRow.first_seen r) (RecordRow.last_seen r) (RecordRow.updated_at r)
    (RecordRow.removed_at r) (trust_label (RecordRow.trust r)).

Definition revision_of `{JsonParse} (r : RevisionRow.t) : Revision.t :=
  Revision.mk (RevisionRow.app r) (RevisionRow.dataset r) (RevisionRow.key r)
    (RevisionRow.revision r) (RevisionRow.change r) (RevisionRow.data r ≫= json_parse)
    (RevisionRow.diff r ≫= json_parse) (RevisionRow.created_at r)
    (trust_label (RevisionRow.trust r)) (RevisionRow.provenance r).

(** ** Removal authorisation *)

(** The sealed token: its one constructor is the module's, and it is minted by the two
    functions below. *)
Inductive RemovalGuard : Type := Sealed.
Definition for_source_state (state : SourceState) : option RemovalGuard :=
  if SourceState.suppresses_removals state then None else Some Sealed.
Definition for_self_derived_snapshot : RemovalGuard := Sealed.

Module DupPair.
Record t : Type := mk { a : string; b : string; distance : Z }.
End DupPair.

Module UpsertSummary.
Record t : Type := mk {
  new : list string; changed : list string; unchanged : Z; removed : list string }.
Definition default : t := mk [] [] 0 [].
Definition fresh_keys (s : t) : list string := new s ++ changed s.
(** [summary.new.extend(part.new); ..] *)
Definition extend (s part : t) : t :=
  mk (new s ++ new part) (changed s ++ changed part) (unchanged s + unchanged part) (removed s).
(** One verdict counted. *)
Definition count (s : t) (key : string) (kind : ChangeKind) : t :=
  match kind with
  | New => mk (new s ++ [key]) (changed s) (unchanged s) (removed s)
  | Changed => mk (new s) (changed s ++ [key]) (unchanged s) (removed s)
  | Unchanged => mk (new s) (changed s) (unchanged s + 1) (removed s)
  end.
End UpsertSummary.
