(* ===== verification/ChangePlan.v ===== *)
(** * ChangePlan: the pure half of the batch upsert

    Fingerprints over declared derived paths, the field-level diff, the verdicts of
    a chunk walked in item order, the record writes they collapse into, and the
    near-duplicate pairs of a dataset ([crates/core/src/datasets.rs]). *)

From stdpp Require Import gmap.
From S2P Require Import Prelude Sql Float64 Json Filters Simhash Records.

(** ** Derived paths *)

(** Removes the path below [value], through objects only; whether anything went. *)
Fixpoint remove_segments (segments : list string) (value : Json) : Json * bool :=
  match segments, value with
  | [segment], JObject map => (JObject (map_remove segment map), is_some (map_get segment map))
  | segment :: segments, JObject map =>
      match map_get segment map with
      | Some next =>
          let '(next, removed) := remove_segments segments next in
          (JObject (map_insert segment next map), removed)
      | None => (value, false)
      end
  | _, _ => (value, false)
  end.
Definition remove_path (value : Json) (path : string) : Json * bool :=
  remove_segments (split_on "." path) value.

Definition DerivedPaths : Type := list string.
Definition DerivedPaths_NONE : DerivedPaths := [].
Definition DerivedPaths_new (paths : list string) : DerivedPaths :=
  List.filter (λ p, negb (String.eqb p "")) paths.

Definition hash_input (derived : DerivedPaths) (value : Json) : Json :=
  match derived with
  | [] => value
  | _ =>
      let '(stripped, removed_any) :=
        foldl (λ acc path,
          let '(value, removed) := remove_path acc.1 path in (value, acc.2 || removed))
          (value, false) derived in
      if removed_any then stripped else value
  end.

(** ** Fingerprints *)

Module Fingerprint.
Record t : Type := mk { hash : string; sim : Z; json : string }.
End Fingerprint.

(** The store's state of one key, and one item's verdict; [item] and [print] are the
    ones at its index in the chunk. *)
Module KeyState.
Record t : Type := mk { hash : string; data : string; removed : bool }.
End KeyState.

Module PlannedWrite.
Record t : Type := mk {
  item : string * Json; print : Fingerprint.t; kind : ChangeKind; diff : option Json;
  revision : Z; refresh : bool }.
Definition key (p : t) : string := (item p).1.
(** Whether the record body is rewritten. *)
Definition writes_content (p : t) : bool :=
  match kind p with Unchanged => refresh p | _ => true end.
End PlannedWrite.

Definition next_revision_for (next : gmap string Z) (key : string) : Z * gmap string Z :=
  let revision := default 1 (next !! key) in (revision, <[key := revision + 1]> next).

Definition verdict (previous : option KeyState.t) (print : Fingerprint.t) : ChangeKind :=
  match previous with
  | Some p =>
      if String.eqb (KeyState.hash p) (Fingerprint.hash print) && negb (KeyState.removed p)
      then Unchanged else Changed
  | None => New
  end.

(** [x as i64] of a [u64], and back. *)
Definition as_i64_bits (x : Z) : Z := if x <? 2 ^ 63 then x else x - 2 ^ 64.
Definition as_u64_bits (x : Z) : Z := wrap_u64 x.

Section fingerprints.
Context `{JsonRender, JsonParse, JsonEq, Sha256, UnicodeAlphanumeric, Unicode}.

Definition hash_value (value : Json) : string := sha256_hex (json_render value).
Definition rules_hash (rules : Json) : string := hash_value rules.

Definition fingerprint (derived : DerivedPaths) (value : Json) : Fingerprint.t :=
  Fingerprint.mk (hash_value (hash_input derived value)) (as_i64_bits (simhash_value value))
    (json_render value).
Definition fingerprint_batch (items : list (string * Json)) (derived : DerivedPaths) :
    list Fingerprint.t :=
  map (λ it, fingerprint derived it.2) items.

(** ** The field-level diff *)

Definition diff_entry (old new : Json) : Json := json_object [("from", old); ("to", new)]%string.

(** The arm of [diff_into] that compares wholesale. *)
Definition diff_leaf (path : string) (old new : Json) (out : list (string * Json)) :
    list (string * Json) :=
  if json_eqb old new then out
  else map_insert (if String.eqb path "" then "$" else path)%string (diff_entry old new) out.

Definition sub_path (path k : string) : string :=
  if String.eqb path "" then k else (path +:+ "." +:+ k)%string.

(** The ascending union of the keys ([BTreeSet]). *)
Definition union_keys (a b : list (string * Json)) : list string :=
  map_keys (map_of_list (map (λ kv, (kv.1, tt)) (a ++ b))).

Fixpoint diff_into (old : Json) (path : string) (new : Json) (out : list (string * Json)) :
    list (string * Json) :=
  match old, new with
  | JObject a, JObject b =>
      let subs := map (λ '(k, v), (k, diff_into v)) a in
      foldl (λ out k,
        let there := default JNull (map_get k b) in
        match map_get k subs with
        | Some diff => diff (sub_path path k) there out
        | None => diff_leaf (sub_path path k) JNull there out
        end) out (union_keys a b)
  | _, _ => diff_leaf path old new out
  end.

Definition diff_values (old new : Json) : Json := JObject (diff_into old EmptyString new []).

(** ** The plan of a chunk *)

Definition plan_one (it : string * Json) (print : Fingerprint.t)
    (state : gmap string KeyState.t) (next : gmap string Z) :
    PlannedWrite.t * gmap string KeyState.t * gmap string Z :=
  let '(key, value) := it in
  let previous := state !! key in
  let kind := verdict previous print in
  let refresh :=
    match kind, previous with
    | Unchanged, Some p => negb (String.eqb (KeyState.data p) (Fingerprint.json print))
    | _, _ => false
    end in
  let diff :=
    match kind, previous with
    | Changed, Some p => Some (diff_values (default JNull (json_parse (KeyState.data p))) value)
    | _, _ => None
    end in
  let '(revision, next) :=
    match kind with Unchanged => (0, next) | _ => next_revision_for next key end in
  let plan := PlannedWrite.mk it print kind diff revision refresh in
  let state :=
    if PlannedWrite.writes_content plan
    then <[key := KeyState.mk (Fingerprint.hash print) (Fingerprint.json print) false]> state
    else state in
  (plan, state, next).

Fixpoint plan_chunk (items : list (string * Json)) (prints : list Fingerprint.t)
    (state : gmap string KeyState.t) (next : gmap string Z) : list PlannedWrite.t :=
  match items, prints with
  | it :: items, print :: prints =>
      let '(plan, state, next) := plan_one it print state next in
      plan :: plan_chunk items prints state next
  | _, _ => []
  end.
End fingerprints.

(** ** The record writes of a planned chunk *)

Module Collapse.
(** [content], [at], [unchanged_only] and [seen_unchanged]. *)
Record t : Type := mk {
  content : list PlannedWrite.t; at_ : gmap string nat; unchanged_only : list string;
  seen_unchanged : gset string }.
Definition empty : t := mk [] ∅ [] ∅.
End Collapse.

Definition collapse_step (acc : Collapse.t) (plan : PlannedWrite.t) : Collapse.t :=
  let key := PlannedWrite.key plan in
  let '(Collapse.mk content at_ unchanged_only seen) := acc in
  if PlannedWrite.writes_content plan then
    match at_ !! key with
    | Some pos => Collapse.mk (<[pos := plan]> content) at_ unchanged_only seen
    | None => Collapse.mk (content ++ [plan]) (<[key := length content]> at_) unchanged_only seen
    end
  else if is_some (at_ !! key) then acc
  else if bool_decide (key ∈ seen) then acc
  else Collapse.mk content at_ (unchanged_only ++ [key]) ({[key]} ∪ seen).

Definition collapse_record_writes (plans : list PlannedWrite.t) :
    list PlannedWrite.t * list string :=
  let acc := foldl collapse_step Collapse.empty plans in
  (Collapse.content acc,
   List.filter (λ k, negb (is_some (Collapse.at_ acc !! k))) (Collapse.unchanged_only acc)).

Definition summarize_chunk (plans : list PlannedWrite.t) : UpsertSummary.t :=
  foldl (λ s p, UpsertSummary.count s (PlannedWrite.key p) (PlannedWrite.kind p))
    UpsertSummary.default plans.

(** ** Near-duplicate pairs *)

Definition MAX_DUP_PAIRS : nat := 10000.

(** The index over the rows with a fingerprint, its payload their row number, and the
    slot each row took. *)
Definition index_rows (rows : list (string * Z)) (max_distance : Z) :
    index nat * list (option nat) :=
  foldl (λ acc it,
    let '(idx, slot_of_row) := acc in
    let '(i, (_, sim)) := it in
    if sim =? 0 then (idx, slot_of_row ++ [None])
    else (insert_index idx (as_u64_bits sim) i, slot_of_row ++ [Some (index_len idx)]))
    (new_index max_distance, []) (imap pair rows).

Definition pair_of (rows : list (string * Z)) (key : string) (sim : Z) (j : nat) : DupPair.t :=
  let '(key', sim') := default (EmptyString, 0) (rows !! j) in
  DupPair.mk key key' (hamming (as_u64_bits sim) (as_u64_bits sim')).

(** The walk of the rows in order, up to the cap. *)
Fixpoint pairs_walk (rows : list (string * Z)) (idx : index nat)
    (todo : list (option nat * (string * Z))) (pairs : list DupPair.t) : list DupPair.t :=
  match todo with
  | [] => pairs
  | (None, _) :: todo => pairs_walk rows idx todo pairs
  | (Some slot, (key, sim)) :: todo =>
      let pairs :=
        for_each_neighbor_after
          (λ _ j pairs,
             let pairs := pairs ++ [pair_of rows key sim j] in
             (pairs, (length pairs <? MAX_DUP_PAIRS)%nat))
          idx (as_u64_bits sim) slot pairs in
      if (MAX_DUP_PAIRS <=? length pairs)%nat then pairs else pairs_walk rows idx todo pairs
  end.

Definition banded_duplicate_pairs (rows : list (string * Z)) (max_distance : Z) :
    list DupPair.t :=
  let '(idx, slot_of_row) := index_rows rows max_distance in
  order_by (λ p q, DupPair.distance p <=? DupPair.distance q)
    (pairs_walk rows idx (zip slot_of_row rows) []).
