(* ===== verification/Datasets.v ===== *)
(** * Datasets: the store of records and their revisions

    Every statement of [impl Datasets] ([crates/core/src/datasets.rs]) on [records] and
    [record_revisions]: the upserts (one row, row-stamped batch, set-shaped batch), the two
    removal paths, the hard deletes, retention, and the readers.  A transaction is the
    function of its body: it commits the new tables or, on an error, leaves the old. *)

From stdpp Require Import gmap.
From S2P Require Import Prelude Sql Float64 Json SourceHealth Filters Simhash Records ChangePlan.

Module Data.
Record t : Type := mk { records : list RecordRow.t; revisions : list RevisionRow.t }.
#[global] Instance eta_data : Eta t := λ w, mk (records w) (revisions w).
End Data.

Inductive DbError : Type := UniqueViolation.

Definition UPSERT_CHUNK : nat := 500.
Definition MAX_BIND_PARAMS : nat := 900.
Definition rows_per_statement (cols fixed : nat) : nat :=
  ((MAX_BIND_PARAMS - fixed) / (cols `max` 1)) `max` 1.

(** ** [WHERE app = ?1 AND dataset = ?2 (AND key = ?3)] *)

Definition record_in (app dataset : string) (r : RecordRow.t) : bool :=
  String.eqb (RecordRow.app r) app && String.eqb (RecordRow.dataset r) dataset.
Definition record_at (app dataset key : string) (r : RecordRow.t) : bool :=
  record_in app dataset r && String.eqb (RecordRow.key r) key.
Definition revision_in (app dataset : string) (r : RevisionRow.t) : bool :=
  String.eqb (RevisionRow.app r) app && String.eqb (RevisionRow.dataset r) dataset.
Definition revision_at (app dataset key : string) (r : RevisionRow.t) : bool :=
  revision_in app dataset r && String.eqb (RevisionRow.key r) key.

(** ** Inserts, under the two primary keys *)

Definition insert_record (row : RecordRow.t) (t : list RecordRow.t) :
    result DbError (list RecordRow.t) :=
  if existsb (record_at (RecordRow.app row) (RecordRow.dataset row) (RecordRow.key row)) t
  then Err UniqueViolation else Ok (t ++ [row]).

(** SQLite's next implicit rowid. *)
Definition next_rowid (t : list RevisionRow.t) : Z :=
  foldr Z.max 0 (map RevisionRow.rowid t) + 1.

Definition insert_revision (row : RevisionRow.t) (t : list RevisionRow.t) :
    result DbError (list RevisionRow.t) :=
  if existsb (λ r, revision_at (RevisionRow.app row) (RevisionRow.dataset row)
                     (RevisionRow.key row) r
                   && (RevisionRow.revision r =? RevisionRow.revision row)) t
  then Err UniqueViolation
  else Ok (t ++ [row <| RevisionRow.rowid := next_rowid t |>]).

(** [SELECT MAX(revision) .. WHERE app, dataset, key], NULL for no row. *)
Definition max_revision (app dataset key : string) (t : list RevisionRow.t) : option Z :=
  match map RevisionRow.revision (select_where (revision_at app dataset key) t) with
  | [] => None
  | n :: ns => Some (foldl Z.max n ns)
  end.

Definition add_revision (app dataset key change : string) (data diff : option string)
    (now : timestamp) (trust : option string) (prov : option Provenance.t)
    (t : list RevisionRow.t) : result DbError (list RevisionRow.t) :=
  insert_revision
    (RevisionRow.mk 0 app dataset key (default 0 (max_revision app dataset key t) + 1) change
       data diff now trust (default Provenance.empty prov)) t.

(** ** The column writes of the two upserts *)

(** [SET last_seen = ?, trust = ?] *)
Definition touch (now : timestamp) (trust : option string) (r : RecordRow.t) : RecordRow.t :=
  r <| RecordRow.last_seen := now |> <| RecordRow.trust := trust |>.

(** [SET hash, data, simhash, last_seen, updated_at, removed_at = NULL, trust] *)
Definition write_content (print : Fingerprint.t) (now : timestamp) (trust : option string)
    (r : RecordRow.t) : RecordRow.t :=
  r <| RecordRow.hash := Fingerprint.hash print |>
    <| RecordRow.data := Fingerprint.json print |>
    <| RecordRow.simhash := Fingerprint.sim print |>
    <| RecordRow.last_seen := now |> <| RecordRow.updated_at := now |>
    <| RecordRow.removed_at := None |> <| RecordRow.trust := trust |>.

(** The row an [INSERT INTO records] makes. *)
Definition fresh_record (app dataset key : string) (print : Fingerprint.t) (now : timestamp)
    (trust : option string) : RecordRow.t :=
  RecordRow.mk app dataset key (Fingerprint.hash print) (Fingerprint.json print)
    (Fingerprint.sim print) now now now None trust.

Section writes.
Context `{JsonRender, JsonParse, JsonEq, Sha256, UnicodeAlphanumeric, Unicode}.
Implicit Types (w : Data.t) (now : timestamp) (trust : option string).

(** ** One record *)

Definition upsert_in_tx (app dataset key : string) (value : Json) (hash : string) (sim : Z)
    now trust (prov : option Provenance.t) w : result DbError (Data.t * ChangeKind) :=
  let print := Fingerprint.mk hash sim (json_render value) in
  let here := record_at app dataset key in
  match head (select_where here (Data.records w)) with
  | Some r =>
      if String.eqb (RecordRow.hash r) hash && negb (is_some (RecordRow.removed_at r)) then
        Ok (w <| Data.records ::= update_where here (touch now trust) |>, Unchanged)
      else
        let diff := diff_values (default JNull (json_parse (RecordRow.data r))) value in
        let w := w <| Data.records ::= update_where here (write_content print now trust) |> in
        revs ← add_revision app dataset key "changed" (Some (json_render value))
                 (Some (json_render diff)) now trust prov (Data.revisions w);
        Ok (w <| Data.revisions := revs |>, Changed)
  | None =>
      recs ← insert_record (fresh_record app dataset key print now trust) (Data.records w);
      revs ← add_revision app dataset key "new" (Some (json_render value)) None now trust prov
               (Data.revisions w);
      Ok (Data.mk recs revs, New)
  end.

(** The transaction around it; an error rolls back. *)
Definition upsert_stamped (app dataset key : string) (value : Json) now trust
    (prov : option Provenance.t) w : Data.t * result DbError ChangeKind :=
  match upsert_in_tx app dataset key value (hash_value value)
          (as_i64_bits (simhash_value value)) now trust prov w with
  | Ok (w', kind) => (w', Ok kind)
  | Err e => (w, Err e)
  end.
Definition upsert_trusted (app dataset key : string) (value : Json) now trust w :=
  upsert_stamped app dataset key value now trust None w.
Definition upsert (app dataset key : string) (value : Json) now w :=
  upsert_trusted app dataset key value now None w.

(** ** A batch, row by row: each row its own provenance *)

Fixpoint stamped_rows (app dataset : string) (rows : list (string * Json * Provenance.t))
    now trust (part : UpsertSummary.t) w : result DbError (Data.t * UpsertSummary.t) :=
  match rows with
  | [] => Ok (w, part)
  | (key, value, prov) :: rows =>
      '(w, kind) ← upsert_in_tx app dataset key value (hash_value value)
                     (as_i64_bits (simhash_value value)) now trust (Some prov) w;
      stamped_rows app dataset rows now trust (UpsertSummary.count part key kind) w
  end.

(** One transaction per chunk, each with its own clock reading: an error rolls back its own
    chunk, and the committed ones stay. *)
Fixpoint commit_chunks {A} (tx : timestamp → list A → Data.t → result DbError (Data.t * UpsertSummary.t))
    (clock : nat → timestamp) (n : nat) (cs : list (list A)) (summary : UpsertSummary.t) w :
    Data.t * result DbError UpsertSummary.t :=
  match cs with
  | [] => (w, Ok summary)
  | c :: cs =>
      match tx (clock n) c w with
      | Ok (w', part) => commit_chunks tx clock (S n) cs (UpsertSummary.extend summary part) w'
      | Err e => (w, Err e)
      end
  end.

Definition upsert_many_row_stamped (app dataset : string)
    (rows : list (string * Json * Provenance.t)) (clock : nat → timestamp) trust w :
    Data.t * result DbError UpsertSummary.t :=
  commit_chunks (λ now c w, stamped_rows app dataset c now trust UpsertSummary.default w) clock 0
    (chunks UPSERT_CHUNK rows) UpsertSummary.default w.

(** ** A batch, set-shaped *)

(** The keys of a chunk, each once, in order of first appearance. *)
Fixpoint unique_keys (keys : list string) (seen : gset string) : list string :=
  match keys with
  | [] => []
  | k :: keys =>
      if bool_decide (k ∈ seen) then unique_keys keys seen
      else k :: unique_keys keys ({[k]} ∪ seen)
  end.

Definition in_list (keys : list string) (k : string) : bool := bool_decide (k ∈ keys).

(** One slice of the [IN (..)] read of the current states. *)
Definition read_states_slice (app dataset : string) (t : list RecordRow.t)
    (out : gmap string KeyState.t) (slice : list string) : gmap string KeyState.t :=
  foldl (λ out r,
    <[RecordRow.key r :=
        KeyState.mk (RecordRow.hash r) (RecordRow.data r) (is_some (RecordRow.removed_at r))]> out)
    out (select_where (λ r, record_in app dataset r && in_list slice (RecordRow.key r)) t).
Definition read_key_states (app dataset : string) (keys : list string) (t : list RecordRow.t) :
    gmap string KeyState.t :=
  foldl (read_states_slice app dataset t) ∅ (chunks (rows_per_statement 1 2) keys).

(** One slice of [SELECT key, MAX(revision) .. GROUP BY key]. *)
Definition read_revisions_slice (app dataset : string) (t : list RevisionRow.t)
    (out : gmap string Z) (slice : list string) : gmap string Z :=
  foldl (λ out key,
    match max_revision app dataset key t with
    | Some n => <[key := n + 1]> out
    | None => out
    end) out slice.
Definition read_next_revisions (app dataset : string) (keys : list string)
    (t : list RevisionRow.t) : gmap string Z :=
  foldl (read_revisions_slice app dataset t) ∅ (chunks (rows_per_statement 1 2) keys).

(** [INSERT .. ON CONFLICT(app, dataset, key) DO UPDATE] of one row. *)
Definition upsert_record (app dataset : string) now trust (t : list RecordRow.t)
    (plan : PlannedWrite.t) : list RecordRow.t :=
  let key := PlannedWrite.key plan in
  let print := PlannedWrite.print plan in
  if existsb (record_at app dataset key) t
  then update_where (record_at app dataset key) (write_content print now trust) t
  else t ++ [fresh_record app dataset key print now trust].

Definition touch_slice (app dataset : string) now trust (t : list RecordRow.t)
    (slice : list string) : list RecordRow.t :=
  update_where (λ r, record_in app dataset r && in_list slice (RecordRow.key r))
    (touch now trust) t.

(** One row of the revisions' multi-row insert; a conflict fails the statement. *)
Definition insert_planned (app dataset : string) now trust (prov : option Provenance.t)
    (t : result DbError (list RevisionRow.t)) (plan : PlannedWrite.t) :
    result DbError (list RevisionRow.t) :=
  t ← t;
  insert_revision
    (RevisionRow.mk 0 app dataset (PlannedWrite.key plan) (PlannedWrite.revision plan)
       (match PlannedWrite.kind plan with New => "new" | _ => "changed" end)
       (Some (Fingerprint.json (PlannedWrite.print plan)))
       (json_render <$> PlannedWrite.diff plan) now trust (default Provenance.empty prov)) t.

Definition appends_revision (plan : PlannedWrite.t) : bool :=
  match PlannedWrite.kind plan with Unchanged => false | _ => true end.

Definition write_chunk (app dataset : string) (plans : list PlannedWrite.t) now trust
    (prov : option Provenance.t) w : result DbError Data.t :=
  let '(content, touched_only) := collapse_record_writes plans in
  let recs := foldl (foldl (upsert_record app dataset now trust)) (Data.records w)
                (chunks (rows_per_statement 10 0) content) in
  let recs := foldl (touch_slice app dataset now trust) recs
                (chunks (rows_per_statement 1 4) touched_only) in
  revs ← foldl (foldl (insert_planned app dataset now trust prov)) (Ok (Data.revisions w))
           (chunks (rows_per_statement 13 0) (List.filter appends_revision plans));
  Ok (Data.mk recs revs).

Definition upsert_chunk_in_tx (app dataset : string) (chunk : list (string * Json))
    (prints : list Fingerprint.t) now trust (prov : option Provenance.t) w :
    result DbError (Data.t * UpsertSummary.t) :=
  let keys := unique_keys (map fst chunk) ∅ in
  let state := read_key_states app dataset keys (Data.records w) in
  let next_revision := read_next_revisions app dataset keys (Data.revisions w) in
  let plans := plan_chunk chunk prints state next_revision in
  w ← write_chunk app dataset plans now trust prov w;
  Ok (w, summarize_chunk plans).

Definition upsert_many_inner (app dataset : string) (items : list (string * Json))
    (clock : nat → timestamp) trust (prov : option Provenance.t) (derived : DerivedPaths) w :
    Data.t * result DbError UpsertSummary.t :=
  commit_chunks
    (λ now c w, upsert_chunk_in_tx app dataset (map fst c) (map snd c) now trust prov w) clock 0
    (chunks UPSERT_CHUNK (zip items (fingerprint_batch items derived))) UpsertSummary.default w.

(** ** Removals *)

Definition remove_in_tx (app dataset key : string) now w : result DbError Data.t :=
  let recs := update_where (record_at app dataset key)
                (λ r, r <| RecordRow.removed_at := Some now |>) (Data.records w) in
  revs ← add_revision app dataset key "removed" None None now None None (Data.revisions w);
  Ok (Data.mk recs revs).

Fixpoint remove_all (app dataset : string) (keys : list string) now w : result DbError Data.t :=
  match keys with
  | [] => Ok w
  | key :: keys => w ← remove_in_tx app dataset key now w; remove_all app dataset keys now w
  end.

Fixpoint commit_removals (app dataset : string) (cs : list (list string)) now w :
    Data.t * option DbError :=
  match cs with
  | [] => (w, None)
  | c :: cs =>
      match remove_all app dataset c now w with
      | Ok w => commit_removals app dataset cs now w
      | Err e => (w, Some e)
      end
  end.

(** The removed keys on success; chunks committed before an error stay. *)
Definition apply_tombstones (app dataset : string) (to_remove : list string) now w :
    Data.t * result DbError (list string) :=
  match to_remove with
  | [] => (w, Ok [])
  | _ =>
      match commit_removals app dataset (chunks UPSERT_CHUNK to_remove) now w with
      | (w, None) => (w, Ok to_remove)
      | (w, Some e) => (w, Err e)
      end
  end.

Definition live_in (app dataset : string) (r : RecordRow.t) : bool :=
  record_in app dataset r && RecordRow.live r.

Definition detect_removed (app dataset : string) (present : list string) (_ : RemovalGuard)
    now w : Data.t * result DbError (list string) :=
  match present with
  | [] => (w, Ok [])
  | _ =>
      let live := map RecordRow.key (select_where (live_in app dataset) (Data.records w)) in
      apply_tombstones app dataset (List.filter (λ k, negb (in_list present k)) live) now w
  end.

Definition live_slice (app dataset : string) (t : list RecordRow.t) (slice : list string) :
    list string :=
  map RecordRow.key
    (select_where (λ r, live_in app dataset r && in_list slice (RecordRow.key r)) t).

Definition tombstone_keys (app dataset : string) (keys : list string) now w :
    Data.t * result DbError (list string) :=
  match keys with
  | [] => (w, Ok [])
  | _ =>
      let unique := unique_keys keys ∅ in
      let live := flat_map (live_slice app dataset (Data.records w))
                    (chunks (rows_per_statement 1 2) unique) in
      apply_tombstones app dataset (List.filter (in_list live) unique) now w
  end.
End writes.

(** ** Hard deletes *)

Definition delete_record (app dataset key : string) (w : Data.t) : Data.t * bool :=
  (Data.mk (delete_where (record_at app dataset key) (Data.records w))
     (delete_where (revision_at app dataset key) (Data.revisions w)),
   0 <? rows_affected (record_at app dataset key) (Data.records w)).

Module DatasetDeletion.
Record t : Type := mk {
  preview : bool; app : string; dataset : string; records : Z; revisions : Z;
  as_of : timestamp }.
#[global] Instance eta_deletion : Eta t := λ d,
  mk (preview d) (app d) (dataset d) (records d) (revisions d) (as_of d).
End DatasetDeletion.

Inductive DeleteMode : Type := PreviewMode | Execute (expect_records : option Z).

Inductive DeleteVerdict : Type :=
| Preview (d : DatasetDeletion.t)
| Deleted (d : DatasetDeletion.t)
| YieldChanged (expected : Z) (found : DatasetDeletion.t).
Definition wrote (v : DeleteVerdict) : bool := match v with Deleted _ => true | _ => false end.
Definition counts (v : DeleteVerdict) : DatasetDeletion.t :=
  match v with Preview d | Deleted d => d | YieldChanged _ found => found end.

(** The transaction's body; its tables survive only under a verdict that wrote. *)
Definition delete_body (app dataset : string) (mode : DeleteMode) (now : timestamp) (w : Data.t) :
    Data.t * DeleteVerdict :=
  let recs := record_in app dataset in
  let revs := revision_in app dataset in
  let found := DatasetDeletion.mk true app dataset (rows_affected recs (Data.records w))
                 (rows_affected revs (Data.revisions w)) now in
  match mode with
  | PreviewMode => (w, Preview found)
  | Execute expect =>
      if match expect with
         | Some expected => negb (expected =? DatasetDeletion.records found)
         | None => false
         end
      then (w, YieldChanged (default 0 expect) found)
      else
        (Data.mk (delete_where recs (Data.records w)) (delete_where revs (Data.revisions w)),
         Deleted (found <| DatasetDeletion.preview := false |>
                    <| DatasetDeletion.records := rows_affected recs (Data.records w) |>
                    <| DatasetDeletion.revisions := rows_affected revs (Data.revisions w) |>))
  end.
Definition delete_dataset_mode (app dataset : string) (mode : DeleteMode) (now : timestamp)
    (w : Data.t) : Data.t * DeleteVerdict :=
  let '(w', verdict) := delete_body app dataset mode now w in
  (if wrote verdict then w' else w, verdict).

Definition delete_dataset (app dataset : string) (now : timestamp) (w : Data.t) :
    Data.t * option Z :=
  let '(w, verdict) := delete_dataset_mode app dataset (Execute None) now w in
  (w, match verdict with Deleted d => Some (DatasetDeletion.records d) | _ => None end).

(** ** Retention of the history *)

Definition prunable_revision (older_than : timestamp) (keep : Z) (t : list RevisionRow.t)
    (r : RevisionRow.t) : bool :=
  (RevisionRow.created_at r <? older_than)
  && (keep <? rows_affected
                (λ n, revision_at (RevisionRow.app r) (RevisionRow.dataset r) (RevisionRow.key r) n
                      && (RevisionRow.revision r <=? RevisionRow.revision n)) t).
Definition prune_revisions (older_than : timestamp) (keep_min_per_key : Z) (w : Data.t) :
    Data.t * Z :=
  let prunable := prunable_revision older_than (Z.max keep_min_per_key 0) (Data.revisions w) in
  (w <| Data.revisions ::= delete_where prunable |>, rows_affected prunable (Data.revisions w)).

(** ** Readers: the history and the feed *)

Inductive FeedOrder : Type := Desc | Asc.
Definition FeedOrder_parse (raw : string) : option FeedOrder :=
  if String.eqb raw "desc" then Some Desc else if String.eqb raw "asc" then Some Asc else None.
Definition FeedOrder_as_str (o : FeedOrder) : string :=
  match o with Desc => "desc" | Asc => "asc" end.

(** [(t, n) < (t', n')], on the instant and the tiebreak. *)
Definition before (a b : timestamp * Z) : bool := (a.1 <? b.1) || ((a.1 =? b.1) && (a.2 <? b.2)).
Definition not_after (a b : timestamp * Z) : bool := negb (before b a).

Definition feed_key (r : RevisionRow.t) : timestamp * Z :=
  (RevisionRow.created_at r, RevisionRow.rowid r).
Definition history_key (r : RevisionRow.t) : timestamp * Z :=
  (RevisionRow.created_at r, RevisionRow.revision r).

Definition keyset_predicate (o : FeedOrder) (after : option (timestamp * Z)) (r : RevisionRow.t) :
    bool :=
  match after, o with
  | None, _ => true
  | Some c, Desc => before (feed_key r) c
  | Some c, Asc => before c (feed_key r)
  end.
Definition feed_order (o : FeedOrder) (a b : RevisionRow.t) : bool :=
  match o with
  | Desc => not_after (feed_key b) (feed_key a)
  | Asc => not_after (feed_key a) (feed_key b)
  end.
Definition mints_cursor (o : FeedOrder) (rows limit : Z) : bool :=
  match o with Desc => rows =? limit | Asc => 0 <? rows end.

(** [dataset = ?], [created_at > ?]: NULL matches everything. *)
Definition opt_in {A} (p : A → bool) (o : option A) : bool :=
  match o with Some a => p a | None => true end.

Definition in_feed (app : string) (dataset : option string) (since : option timestamp)
    (trust : option string) (r : RevisionRow.t) : bool :=
  String.eqb (RevisionRow.app r) app
  && opt_in (String.eqb (RevisionRow.dataset r)) dataset
  && opt_in (λ s, s <? RevisionRow.created_at r) since
  && trust_predicate trust (RevisionRow.trust r).

(** A page: its rows as readers see them, and the cursor of the next. *)
Definition RevisionPage : Type := list Revision.t * option (timestamp * Z).

Section readers.
Context `{JsonParse}.
Implicit Types (w : Data.t).

Definition history (app dataset key : string) (limit : Z) w : list Revision.t :=
  map revision_of
    (sql_limit limit
       (order_by (λ a b, RevisionRow.revision b <=? RevisionRow.revision a)
          (select_where (revision_at app dataset key) (Data.revisions w)))).

Definition changes_since (app : string) (dataset : option string) (since : option timestamp)
    (limit : Z) (trust : option string) w : list Revision.t :=
  map revision_of
    (sql_limit limit
       (order_by (λ a b, RevisionRow.created_at b <=? RevisionRow.created_at a)
          (select_where (in_feed app dataset since trust) (Data.revisions w)))).

Definition history_page (app dataset key : string) (after : option (timestamp * Z)) (limit : Z) w :
    RevisionPage :=
  let rows :=
    sql_limit limit
      (order_by (λ a b, not_after (history_key b) (history_key a))
         (select_where (λ r, revision_at app dataset key r
                             && opt_in (before (history_key r)) after) (Data.revisions w))) in
  (map revision_of rows,
   if Z.of_nat (length rows) =? limit then history_key <$> last rows else None).

Definition feed_rows (app : string) (dataset : option string) (since : option timestamp)
    (after : option (timestamp * Z)) (limit : Z) (trust : option string) (order : FeedOrder) w :
    list RevisionRow.t :=
  sql_limit limit
    (order_by (feed_order order)
       (select_where (λ r, in_feed app dataset since trust r && keyset_predicate order after r)
          (Data.revisions w))).
Definition changes_page_ordered (app : string) (dataset : option string)
    (since : option timestamp) (after : option (timestamp * Z)) (limit : Z)
    (trust : option string) (order : FeedOrder) w : RevisionPage :=
  let rows := feed_rows app dataset since after limit trust order w in
  (map revision_of rows,
   if mints_cursor order (Z.of_nat (length rows)) limit then feed_key <$> last rows else None).
Definition changes_page (app : string) (dataset : option string) (since : option timestamp)
    (after : option (timestamp * Z)) (limit : Z) (trust : option string) w : RevisionPage :=
  changes_page_ordered app dataset since after limit trust Desc w.

(** [(key, revision) > (?3, ?4)], in that order. *)
Definition key_revision_after (after : option (string * Z)) (r : RevisionRow.t) : bool :=
  match after with
  | Some (k, n) =>
      String.ltb k (RevisionRow.key r)
      || (String.eqb (RevisionRow.key r) k && (n <? RevisionRow.revision r))
  | None => true
  end.
Definition key_revision_le (a b : RevisionRow.t) : bool :=
  String.ltb (RevisionRow.key a) (RevisionRow.key b)
  || (String.eqb (RevisionRow.key a) (RevisionRow.key b)
      && (RevisionRow.revision a <=? RevisionRow.revision b)).
Definition dataset_revisions_page (app dataset : string) (after : option (string * Z)) (limit : Z)
    w : list Revision.t :=
  map revision_of
    (sql_limit limit
       (order_by key_revision_le
          (select_where (λ r, revision_in app dataset r && key_revision_after after r)
             (Data.revisions w)))).

(** ** Readers: the records *)

Definition record_count (app dataset : string) w : Z :=
  rows_affected (record_in app dataset) (Data.records w).
Definition seen (app dataset key : string) w : bool :=
  existsb (record_at app dataset key) (Data.records w).
Definition get_record (app dataset key : string) w : option Record.t :=
  record_of <$> head (select_where (record_at app dataset key) (Data.records w)).
Definition list_records (app dataset : string) (limit : Z) w : list Record.t :=
  map record_of
    (sql_limit limit
       (order_by (λ a b, RecordRow.updated_at b <=? RecordRow.updated_at a)
          (select_where (record_in app dataset) (Data.records w)))).

(** [updated_at < ? OR (updated_at = ? AND key < ?)], [ORDER BY updated_at DESC, key DESC]. *)
Definition record_before (r : RecordRow.t) (after : timestamp * string) : bool :=
  (RecordRow.updated_at r <? after.1)
  || ((RecordRow.updated_at r =? after.1) && String.ltb (RecordRow.key r) after.2).
Definition record_newest (a b : RecordRow.t) : bool :=
  (RecordRow.updated_at b <? RecordRow.updated_at a)
  || ((RecordRow.updated_at a =? RecordRow.updated_at b)
      && String.leb (RecordRow.key b) (RecordRow.key a)).

Definition records_page (visible : RecordRow.t → bool) (after : option (timestamp * string))
    (limit : Z) w : list Record.t :=
  map record_of
    (sql_limit limit
       (order_by record_newest
          (select_where (λ r, visible r && opt_in (record_before r) after) (Data.records w)))).
Definition list_page (app dataset : string) (after : option (timestamp * string)) (limit : Z)
    (trust : option string) w : list Record.t :=
  records_page (λ r, record_in app dataset r && trust_predicate trust (RecordRow.trust r))
    after limit w.

Definition duplicate_pairs (app dataset : string) (max_distance : Z) w : list DupPair.t :=
  banded_duplicate_pairs
    (map (λ r, (RecordRow.key r, RecordRow.simhash r))
       (select_where (live_in app dataset) (Data.records w))) max_distance.

(** [SELECT DISTINCT .. ORDER BY]: the map keys, ascending. *)
Definition distinct_pair_le (a b : string * string) : bool :=
  String.ltb a.1 b.1 || (String.eqb a.1 b.1 && String.leb a.2 b.2).
Definition dataset_pair (r : RecordRow.t) : string * string := (RecordRow.app r, RecordRow.dataset r).
Definition list_all_datasets w : list (string * string) :=
  order_by distinct_pair_le
    (remove_dups (map dataset_pair (select_where RecordRow.live (Data.records w)))).
Definition list_all_datasets_including_removed w : list (string * string) :=
  order_by distinct_pair_le (remove_dups (map dataset_pair (Data.records w))).
Definition datasets (app : string) w : list string :=
  order_by String.leb
    (remove_dups (map RecordRow.dataset
       (select_where (λ r, String.eqb (RecordRow.app r) app) (Data.records w)))).
End readers.

(** ** Filtered views: SQLite evaluates the pushed predicates over the stored text *)

Class SqliteJson := sql_filter : JsonFilter → string → bool.

Section views.
Context `{JsonParse, SqliteJson}.
Implicit Types (w : Data.t) (filters : list JsonFilter).

(** [push_json_filters] *)
Definition data_matches filters (r : RecordRow.t) : bool :=
  forallb (λ f, sql_filter f (RecordRow.data r)) filters.

Definition list_records_view (app dataset : string) filters
    (after : option (timestamp * string)) (limit : Z) (trust : option string)
    (include_removed : bool) w : list Record.t :=
  records_page (λ r, record_in app dataset r && (include_removed || RecordRow.live r)
                     && data_matches filters r && trust_predicate trust (RecordRow.trust r))
    after limit w.
Definition list_filtered_trust (app dataset : string) filters
    (after : option (timestamp * string)) (limit : Z) (trust : option string) w : list Record.t :=
  records_page (λ r, RecordRow.live r && record_in app dataset r && data_matches filters r
                     && trust_predicate trust (RecordRow.trust r)) after limit w.
Definition list_filtered (app dataset : string) filters (after : option (timestamp * string))
    (limit : Z) w : list Record.t :=
  list_filtered_trust app dataset filters after limit None w.
Definition count_filtered (app dataset : string) filters w : Z :=
  rows_affected (λ r, RecordRow.live r && record_in app dataset r && data_matches filters r)
    (Data.records w).
End views.

(** ** The re-index of fingerprints *)

Section reindex.
Context `{JsonRender, JsonParse, UnicodeAlphanumeric, Unicode}.

Definition fresh_simhash (r : RecordRow.t) : Z :=
  as_i64_bits (simhash_value (default JNull (json_parse (RecordRow.data r)))).
Definition reindex_row (acc : list RecordRow.t * Z) (r : RecordRow.t) : list RecordRow.t * Z :=
  if fresh_simhash r =? RecordRow.simhash r then acc
  else
    (update_where (record_at (RecordRow.app r) (RecordRow.dataset r) (RecordRow.key r))
       (λ r', r' <| RecordRow.simhash := fresh_simhash r |>) acc.1, acc.2 + 1).
Definition reindex_simhashes (w : Data.t) : Data.t * Z :=
  let '(recs, changed) := foldl reindex_row (Data.records w, 0) (Data.records w) in
  (w <| Data.records := recs |>, changed).
End reindex.

(** ** The write seam of an app run ([AppContext] in [crates/core/src/app.rs]) *)

(** Where this run writes, and the trust it stamps; [state] is what
    [enforced_state] reads now. *)
Definition write_target (dataset : string) (state : SourceState) : string * option string :=
  (write_dataset dataset state, SourceState.trust state).
Definition stamp (job_id : string) (prov : Provenance.t) : Provenance.t :=
  Provenance.mk (Some job_id) (Provenance.source_url prov) (Provenance.artifact_sha prov)
    (Provenance.rules_hash prov).

Section seam.
Context `{JsonRender, JsonParse, JsonEq, Sha256, UnicodeAlphanumeric, Unicode}.
Implicit Types (w : Data.t).

Definition upsert_many_with_provenance (app job_id dataset : string)
    (items : list (string * Json)) (prov : Provenance.t) (state : SourceState)
    (clock : nat → timestamp) w : Data.t * result DbError UpsertSummary.t :=
  let '(dataset, trust) := write_target dataset state in
  upsert_many_inner app dataset items clock trust (Some (stamp job_id prov)) DerivedPaths_NONE w.

(** The health state is read twice: once for the write, once for the removals. *)
Definition sync_many_with_provenance (app job_id dataset : string)
    (items : list (string * Json)) (prov : Provenance.t) (state state' : SourceState)
    (clock : nat → timestamp) (now : timestamp) w : Data.t * result DbError UpsertSummary.t :=
  match upsert_many_with_provenance app job_id dataset items prov state clock w with
  | (w, Err e) => (w, Err e)
  | (w, Ok summary) =>
      match for_source_state state' with
      | None => (w, Ok summary)
      | Some guard =>
          match detect_removed app dataset (map fst items) guard now w with
          | (w, Ok removed) =>
              (w, Ok (UpsertSummary.mk (UpsertSummary.new summary) (UpsertSummary.changed summary)
                        (UpsertSummary.unchanged summary) removed))
          | (w, Err e) => (w, Err e)
          end
      end
  end.
Definition sync_many (app job_id dataset : string) (items : list (string * Json))
    (state state' : SourceState) (clock : nat → timestamp) (now : timestamp) w :=
  sync_many_with_provenance app job_id dataset items Provenance.empty state state' clock now w.
End seam.
