(* ===== verification/BatchTheorems.v ===== *)
(** * BatchTheorems: the set-shaped batch upsert is the row-by-row one

    The write half: a planned chunk, collapsed into one statement per table, leaves what
    writing its plans one after another would.  The plan half: the verdicts, walked over
    one read of the store, are those of reading before every row. *)

From stdpp Require Import gmap.
From S2P Require Import Prelude Sql Float64 Json SourceHealth Filters Simhash Records ChangePlan.
From S2P Require Import Datasets.

Lemma rows_per_statement_pos cols fixed : (0 < rows_per_statement cols fixed)%nat.
Proof. unfold rows_per_statement. lia. Qed.
#[export] Hint Resolve rows_per_statement_pos : core.

(** ** The write half *)

Section collapse.
Context (app dataset : string) (now : timestamp) (trust : option string).
Implicit Types (t base : list RecordRow.t) (plan : PlannedWrite.t) (r : RecordRow.t).

Abbreviation at_key := (record_at app dataset).
Abbreviation write p := (write_content (PlannedWrite.print p) now trust).
Abbreviation fresh p :=
  (fresh_record app dataset (PlannedWrite.key p) (PlannedWrite.print p) now trust).
Abbreviation upsert_record := (upsert_record app dataset now trust).

Lemma record_at_fields key r r' :
  RecordRow.app r' = RecordRow.app r → RecordRow.dataset r' = RecordRow.dataset r →
  RecordRow.key r' = RecordRow.key r → at_key key r' = at_key key r.
Proof. unfold record_at, record_in. by intros -> -> ->. Qed.

Lemma record_at_write key p r : at_key key (write p r) = at_key key r.
Proof. by apply record_at_fields. Qed.
Lemma record_at_touch key r : at_key key (touch now trust r) = at_key key r.
Proof. by apply record_at_fields. Qed.
Lemma record_at_fresh key p : at_key key (fresh p) = String.eqb (PlannedWrite.key p) key.
Proof. unfold record_at, record_in. cbn. by rewrite !String.eqb_refl. Qed.

Lemma write_write p q r : write p (write q r) = write p r.
Proof. by destruct r. Qed.
Lemma write_touch p r : write p (touch now trust r) = write p r.
Proof. by destruct r. Qed.
Lemma touch_write p r : touch now trust (write p r) = write p r.
Proof. by destruct r. Qed.
Lemma touch_touch r : touch now trust (touch now trust r) = touch now trust r.
Proof. by destruct r. Qed.
Lemma touch_fresh p : touch now trust (fresh p) = fresh p.
Proof. done. Qed.
Lemma write_fresh p q :
  PlannedWrite.key p = PlannedWrite.key q → write p (fresh q) = fresh p.
Proof. unfold fresh_record. by intros ->. Qed.

(** One plan written on its own. *)
Definition store_step t plan : list RecordRow.t :=
  if PlannedWrite.writes_content plan then upsert_record t plan
  else update_where (at_key (PlannedWrite.key plan)) (touch now trust) t.

Definition content_for (key : string) (content : list PlannedWrite.t) : option PlannedWrite.t :=
  List.find (λ p, String.eqb (PlannedWrite.key p) key) content.

(** A base row under the collapsed writes, and the rows they insert. *)
Definition collapsed_row (content : list PlannedWrite.t) (touched : string → bool) r :
    RecordRow.t :=
  if record_in app dataset r then
    match content_for (RecordRow.key r) content with
    | Some p => write p r
    | None => if touched (RecordRow.key r) then touch now trust r else r
    end
  else r.
Definition is_new base plan : bool := negb (existsb (at_key (PlannedWrite.key plan)) base).
Definition collapsed (content : list PlannedWrite.t) (touched : string → bool) base :
    list RecordRow.t :=
  map (collapsed_row content touched) base
    ++ map (λ p, fresh p) (List.filter (is_new base) content).

Lemma content_for_Some key content p :
  content_for key content = Some p → p ∈ content ∧ PlannedWrite.key p = key.
Proof.
  intros [Hin Hk]%List.find_some. apply String.eqb_eq in Hk. by rewrite list_elem_of_In.
Qed.
Lemma content_for_None key content :
  content_for key content = None ↔ key ∉ map PlannedWrite.key content.
Proof.
  unfold content_for. induction content as [|p content IH]; cbn; [set_solver|].
  destruct (String.eqb_spec (PlannedWrite.key p) key) as [<-|Hne]; [set_solver|].
  rewrite IH. set_solver.
Qed.
Lemma content_for_app key content p :
  content_for key (content ++ [p])
  = match content_for key content with
    | Some q => Some q
    | None => if String.eqb (PlannedWrite.key p) key then Some p else None
    end.
Proof.
  unfold content_for. induction content as [|q content IH]; cbn; [done|].
  by destruct (String.eqb (PlannedWrite.key q) key).
Qed.
Lemma content_for_insert key content pos p q :
  NoDup (map PlannedWrite.key content) → content !! pos = Some q →
  PlannedWrite.key q = PlannedWrite.key p →
  content_for key (<[pos := p]> content)
  = if String.eqb (PlannedWrite.key p) key then Some p else content_for key content.
Proof.
  unfold content_for. revert pos. induction content as [|c content IH]; intros [|pos]; cbn;
    rewrite ?NoDup_cons; try done.
  - intros _ [= ->] ->. by destruct (String.eqb (PlannedWrite.key p) key).
  - intros [Hni Hnd] Hq Hk. destruct (String.eqb_spec (PlannedWrite.key c) key) as [<-|Hne].
    + destruct (String.eqb_spec (PlannedWrite.key p) (PlannedWrite.key c)) as [He|]; [|done].
      exfalso. apply Hni. rewrite <- He, <- Hk. by eapply list_elem_of_fmap_2, list_elem_of_lookup_2.
    + by apply IH.
Qed.

Lemma collapsed_row_at key content touched r :
  at_key key (collapsed_row content touched r) = at_key key r.
Proof.
  unfold collapsed_row. destruct (record_in app dataset r); [|done].
  destruct (content_for _ _); [apply record_at_write|].
  by destruct (touched _); [rewrite record_at_touch|].
Qed.

Lemma record_at_key key r :
  at_key key r = true → record_in app dataset r = true ∧ RecordRow.key r = key.
Proof. unfold record_at. intros [Hin Hk]%andb_true_iff. split; [done|by apply String.eqb_eq]. Qed.

Lemma existsb_collapsed key content touched base :
  existsb (at_key key) (collapsed content touched base)
  = existsb (at_key key) base || is_some (content_for key content).
Proof.
  unfold collapsed. rewrite List.existsb_app, existsb_map.
  rewrite (existsb_ext _ (at_key key) base) by (intros; apply collapsed_row_at).
  destruct (existsb (at_key key) base) eqn:E; [done|]. cbn. rewrite existsb_map.
  unfold content_for. induction content as [|p content IH]; cbn; [done|].
  destruct (String.eqb_spec (PlannedWrite.key p) key) as [<-|Hne].
  - unfold is_new at 1. rewrite E. cbn. by rewrite record_at_fresh, String.eqb_refl.
  - destruct (is_new base p); cbn; [|done]. rewrite record_at_fresh.
    apply String.eqb_neq in Hne as ->. done.
Qed.

(** *** One more plan *)

Lemma update_map_key key f content touched base :
  update_where (at_key key) f (map (collapsed_row content touched) base)
  = map (λ r, if at_key key r then f (collapsed_row content touched r)
              else collapsed_row content touched r) base.
Proof.
  unfold update_where. rewrite map_map. apply map_ext. intros r. by rewrite collapsed_row_at.
Qed.

Lemma collapsed_row_content key content touched r :
  at_key key r = true →
  collapsed_row content touched r
  = match content_for key content with
    | Some p => write p r
    | None => if touched key then touch now trust r else r
    end.
Proof. intros [Hin <-]%record_at_key. unfold collapsed_row. by rewrite Hin. Qed.

Lemma collapsed_row_other content touched content' touched' key r :
  at_key key r = false →
  (∀ k, k ≠ key → content_for k content' = content_for k content ∧ touched' k = touched k) →
  collapsed_row content' touched' r = collapsed_row content touched r.
Proof.
  intros Hk Hsame. unfold collapsed_row, record_at in *. destruct (record_in app dataset r); [|done].
  cbn in Hk. apply String.eqb_neq in Hk. destruct (Hsame _ Hk) as [-> ->]. done.
Qed.

Lemma fresh_not_at key content base :
  content_for key content = None →
  update_where (at_key key) (touch now trust)
    (map (λ p, fresh p) (List.filter (is_new base) content))
  = map (λ p, fresh p) (List.filter (is_new base) content) ∧
  ∀ p, update_where (at_key key) (λ r, write p r)
    (map (λ p, fresh p) (List.filter (is_new base) content))
  = map (λ p, fresh p) (List.filter (is_new base) content).
Proof.
  intros Hnone. apply content_for_None in Hnone.
  split; [|intros p]; apply update_where_none; intros r Hr;
    apply list_elem_of_fmap in Hr as (q & -> & [Hq _]%elem_of_filter_bool);
    rewrite record_at_fresh; apply String.eqb_neq; intros <-;
    apply Hnone; by apply list_elem_of_fmap_2.
Qed.

(** A plan that writes no content touches its row. *)
Lemma collapsed_touch key content touched touched' base :
  (∀ k, k ≠ key → touched' k = touched k) →
  (content_for key content = None → touched' key = true) →
  collapsed content touched' base
  = update_where (at_key key) (touch now trust) (collapsed content touched base).
Proof.
  intros Hother Hkey. unfold collapsed. rewrite update_where_app, update_map_key. f_equal.
  - apply map_ext. intros r. destruct (at_key key r) eqn:E.
    + rewrite !(collapsed_row_content key) by done. destruct (content_for key content) as [q|].
      * by rewrite touch_write.
      * rewrite Hkey by done. destruct (touched key); by rewrite ?touch_touch.
    + eapply collapsed_row_other; [done|]. intros k Hk. split; [done|by apply Hother].
  - destruct (content_for key content) as [q|] eqn:E; [|by rewrite (proj1 (fresh_not_at _ _ base E))].
    unfold update_where. rewrite map_map. apply map_ext. intros p.
    by destruct (at_key key (fresh p)).
Qed.

(** A plan that writes content upserts its row. *)
Lemma collapsed_write plan content touched content' touched' base :
  let key := PlannedWrite.key plan in
  (∀ k, content_for k content' = if String.eqb key k then Some plan else content_for k content) →
  (∀ k, k ≠ key → touched' k = touched k) →
  map (λ p, fresh p) (List.filter (is_new base) content')
  = (if existsb (at_key key) (collapsed content touched base)
     then map (λ r, if at_key key r then write plan r else r)
            (map (λ p, fresh p) (List.filter (is_new base) content))
     else map (λ p, fresh p) (List.filter (is_new base) content) ++ [fresh plan]) →
  collapsed content' touched' base = upsert_record (collapsed content touched base) plan.
Proof.
  cbn zeta. set (key := PlannedWrite.key plan). intros Hc Ht Hfresh.
  unfold Datasets.upsert_record. fold key.
  assert (map (collapsed_row content' touched') base
          = update_where (at_key key) (λ r, write plan r)
              (map (collapsed_row content touched) base)) as Hbase.
  { rewrite update_map_key. apply map_ext. intros r. destruct (at_key key r) eqn:E.
    - rewrite !(collapsed_row_content key) by done. rewrite Hc, String.eqb_refl.
      destruct (content_for key content); [by rewrite write_write|].
      destruct (touched key); by rewrite ?write_touch.
    - eapply collapsed_row_other; [done|]. intros k Hk. split; [|by apply Ht].
      rewrite Hc. by destruct (String.eqb_spec key k). }
  unfold collapsed at 1. rewrite Hbase, Hfresh.
  destruct (existsb (at_key key) (collapsed content touched base)) eqn:E.
  - unfold collapsed. by rewrite update_where_app.
  - unfold collapsed. rewrite <- app_assoc. f_equal. apply update_where_none.
    intros r Hr. unfold collapsed in E. rewrite List.existsb_app in E.
    apply orb_false_iff in E as [E _]. destruct (at_key key r) eqn:Er; [|done].
    rewrite <- E. symmetry. apply List.existsb_exists. exists r. by rewrite <- list_elem_of_In.
Qed.

(** *** The loop *)

Record collapsing (acc : Collapse.t) : Prop := {
  coll_keys : NoDup (map PlannedWrite.key (Collapse.content acc));
  coll_at : ∀ k i, Collapse.at_ acc !! k = Some i ↔
              ∃ p, Collapse.content acc !! i = Some p ∧ PlannedWrite.key p = k;
  coll_seen : ∀ k, k ∈ Collapse.seen_unchanged acc ↔ k ∈ Collapse.unchanged_only acc }.

Definition touched_of (acc : Collapse.t) (k : string) : bool :=
  in_list (Collapse.unchanged_only acc) k && negb (is_some (Collapse.at_ acc !! k)).
Abbreviation collapsed_acc acc := (collapsed (Collapse.content acc) (touched_of acc)).

Lemma at_None acc k :
  collapsing acc → Collapse.at_ acc !! k = None → content_for k (Collapse.content acc) = None.
Proof.
  intros C Hn. apply content_for_None. intros Hin. apply list_elem_of_fmap in Hin as (p & -> & Hp).
  apply list_elem_of_lookup in Hp as [i Hi].
  assert (Collapse.at_ acc !! PlannedWrite.key p = Some i) as He by (apply C; eauto).
  by rewrite Hn in He.
Qed.

Lemma map_key_insert pos plan q (content : list PlannedWrite.t) :
  content !! pos = Some q → PlannedWrite.key q = PlannedWrite.key plan →
  map PlannedWrite.key (<[pos := plan]> content) = map PlannedWrite.key content.
Proof.
  revert pos. induction content as [|c content IH]; intros [|pos]; cbn; try done.
  - by intros [= ->] ->.
  - intros Hq Hk. by rewrite IH.
Qed.

Lemma fresh_insert pos plan q content base :
  NoDup (map PlannedWrite.key content) → content !! pos = Some q →
  PlannedWrite.key q = PlannedWrite.key plan →
  map (λ p, fresh p) (List.filter (is_new base) (<[pos := plan]> content))
  = map (λ r, if at_key (PlannedWrite.key plan) r then write plan r else r)
      (map (λ p, fresh p) (List.filter (is_new base) content)).
Proof.
  revert pos. induction content as [|c content IH]; intros [|pos]; cbn; rewrite ?NoDup_cons; try done.
  - intros [Hni _] [= ->] Hk.
    assert (map (λ r, if at_key (PlannedWrite.key plan) r then write plan r else r)
              (map (λ p, fresh p) (List.filter (is_new base) content))
            = map (λ p, fresh p) (List.filter (is_new base) content)) as Hrest.
    { eapply (fresh_not_at (PlannedWrite.key plan)). apply content_for_None. by rewrite <- Hk. }
    assert (is_new base q = is_new base plan) as -> by (unfold is_new; by rewrite Hk).
    destruct (is_new base plan); cbn; rewrite Hrest; [|done].
    by rewrite record_at_fresh, Hk, String.eqb_refl.
  - intros [Hni Hnd] Hq Hk. specialize (IH pos Hnd Hq Hk).
    assert (PlannedWrite.key c ≠ PlannedWrite.key plan) as Hne.
    { intros He. apply Hni. rewrite He, <- Hk. by eapply list_elem_of_fmap_2, list_elem_of_lookup_2. }
    destruct (is_new base c); [|exact IH]. cbn [map].
    rewrite record_at_fresh. apply String.eqb_neq in Hne as ->. f_equal. exact IH.
Qed.

Lemma write_replaces acc plan pos base :
  collapsing acc → Collapse.at_ acc !! PlannedWrite.key plan = Some pos →
  let acc' := Collapse.mk (<[pos := plan]> (Collapse.content acc)) (Collapse.at_ acc)
                (Collapse.unchanged_only acc) (Collapse.seen_unchanged acc) in
  collapsing acc' ∧ collapsed_acc acc' base = upsert_record (collapsed_acc acc base) plan.
Proof.
  intros C Hpos. cbn zeta. pose proof C as [Hk Ha Hs].
  destruct (proj1 (Ha _ _) Hpos) as (q & Hq & Hkq). split.
  - split; cbn; [by erewrite map_key_insert| |done]. intros k i. rewrite Ha.
    destruct (decide (i = pos)) as [->|Hne].
    + rewrite list_lookup_insert_eq by (by eapply lookup_lt_Some). split.
      * intros (p & Hp & <-). rewrite Hq in Hp. injection Hp as <-. eauto.
      * intros (p & [= <-] & <-). eauto.
    + by rewrite list_lookup_insert_ne.
  - apply collapsed_write; cbn; [|done|].
    + intros k. by eapply content_for_insert.
    + rewrite existsb_collapsed.
      assert (is_some (content_for (PlannedWrite.key plan) (Collapse.content acc)) = true) as ->.
      { destruct (content_for _ _) eqn:E; [done|]. exfalso. apply content_for_None in E. apply E.
        rewrite <- Hkq. by eapply list_elem_of_fmap_2, list_elem_of_lookup_2. }
      rewrite orb_true_r. by eapply fresh_insert.
Qed.

Lemma write_appends acc plan base :
  collapsing acc → Collapse.at_ acc !! PlannedWrite.key plan = None →
  let acc' := Collapse.mk (Collapse.content acc ++ [plan])
                (<[PlannedWrite.key plan := length (Collapse.content acc)]> (Collapse.at_ acc))
                (Collapse.unchanged_only acc) (Collapse.seen_unchanged acc) in
  collapsing acc' ∧ collapsed_acc acc' base = upsert_record (collapsed_acc acc base) plan.
Proof.
  intros C Hpos. cbn zeta. pose proof (at_None _ _ C Hpos) as Hnone. pose proof C as [Hk Ha Hs]. split.
  - split; cbn; [| |done].
    + rewrite map_app. apply NoDup_app. apply content_for_None in Hnone.
      split_and!; [done| |apply NoDup_singleton]. intros k Hin.
      by intros ->%list_elem_of_singleton.
    + intros k i. destruct (decide (k = PlannedWrite.key plan)) as [->|Hne].
      * rewrite lookup_insert_eq. split.
        -- intros [= <-]. exists plan. by rewrite list_lookup_middle.
        -- intros (p & Hp & He). apply lookup_app_Some in Hp as [Hp|[Hle Hp]].
           ++ exfalso. apply content_for_None in Hnone. apply Hnone. rewrite <- He.
              by eapply list_elem_of_fmap_2, list_elem_of_lookup_2.
           ++ apply list_lookup_singleton_Some in Hp as [Hi _]. f_equal. lia.
      * rewrite lookup_insert_ne by done. rewrite Ha. split.
        -- intros (p & Hp & He). exists p. split; [by apply lookup_app_l_Some|done].
        -- intros (p & Hp & He). apply lookup_app_Some in Hp as [Hp|[_ Hp]]; [eauto|].
           apply list_lookup_singleton_Some in Hp as [_ ->]. done.
  - apply collapsed_write; cbn [Collapse.content].
    + intros k. rewrite content_for_app. destruct (String.eqb_spec (PlannedWrite.key plan) k) as [<-|].
      * by rewrite Hnone.
      * by destruct (content_for k _).
    + intros k Hne. unfold touched_of. cbn. by rewrite lookup_insert_ne.
    + rewrite existsb_collapsed, Hnone, orb_false_r, List.filter_app, map_app. cbn. unfold is_new at 2.
      destruct (existsb _ base); cbn; [|done]. rewrite app_nil_r.
      symmetry. by apply (fresh_not_at (PlannedWrite.key plan)).
Qed.

Lemma collapse_step_sound acc plan base :
  collapsing acc →
  collapsing (collapse_step acc plan)
  ∧ collapsed_acc (collapse_step acc plan) base = store_step (collapsed_acc acc base) plan.
Proof.
  intros C. unfold collapse_step, store_step. destruct acc as [content at_ unch seen] eqn:Eacc.
  rewrite <- Eacc in *. assert (Collapse.at_ acc = at_) as Hat by by subst.
  assert (Collapse.seen_unchanged acc = seen) as Hseen by by subst.
  destruct (PlannedWrite.writes_content plan).
  - destruct (at_ !! PlannedWrite.key plan) as [pos|] eqn:E; rewrite <- Hat in E.
    + by apply (write_replaces _ _ _ base) in E; subst.
    + by apply (write_appends _ _ base) in E; subst.
  - set (key := PlannedWrite.key plan). destruct (at_ !! key) as [pos|] eqn:E; cbn [is_some].
    + split; [done|]. apply collapsed_touch; [done|]. intros Hn. exfalso.
      rewrite <- Hat in E. apply (coll_at _ C) in E as (p & Hp & Hk).
      apply content_for_None in Hn. apply Hn. rewrite <- Hk.
      by eapply list_elem_of_fmap_2, list_elem_of_lookup_2.
    + case_bool_decide as Hin.
      * split; [done|]. apply collapsed_touch; [done|]. intros _. unfold touched_of, in_list.
        rewrite Hat, E. rewrite <- Hseen in Hin. apply (coll_seen _ C) in Hin.
        by rewrite bool_decide_true.
      * destruct C as [Hk Ha Hs]. subst acc. cbn in *. split.
        -- split; cbn; [done..|]. intros k. rewrite elem_of_union, elem_of_app, Hs.
           rewrite elem_of_singleton, list_elem_of_singleton. tauto.
        -- apply collapsed_touch; cbn.
           ++ intros k Hne. unfold touched_of, in_list. cbn. f_equal. apply bool_decide_ext.
              rewrite elem_of_app, list_elem_of_singleton. naive_solver.
           ++ intros _. unfold touched_of, in_list. cbn. rewrite E.
              rewrite bool_decide_true; [done|]. rewrite elem_of_app. right. by left.
Qed.

Lemma collapse_loop_sound plans base :
  let acc := foldl collapse_step Collapse.empty plans in
  collapsing acc ∧ collapsed_acc acc base = foldl store_step base plans.
Proof.
  cbn zeta. induction plans as [|plan plans IH] using rev_ind; cbn.
  - split; [split; cbn; [constructor|intros; rewrite lookup_empty; naive_solver|set_solver]|].
    unfold collapsed. cbn. rewrite app_nil_r. rewrite <- (map_id base) at 2.
    apply map_ext. intros r. unfold collapsed_row, touched_of. cbn.
    by destruct (record_in app dataset r).
  - rewrite !foldl_app. cbn. destruct IH as [C <-]. by apply collapse_step_sound.
Qed.

(** *** The statements of a chunk *)

Lemma upserts_collapsed content base :
  NoDup (map PlannedWrite.key content) →
  foldl upsert_record base content = collapsed content (λ _, false) base.
Proof.
  induction content as [|p content IH] using rev_ind; intros Hnd; cbn.
  { unfold collapsed. cbn. rewrite app_nil_r. rewrite <- (map_id base) at 1.
    apply map_ext. intros r. unfold collapsed_row. cbn. by destruct (record_in app dataset r). }
  rewrite map_app in Hnd. apply NoDup_app in Hnd as (Hnd & Hni & _).
  rewrite foldl_app. cbn. rewrite IH by done. symmetry.
  assert (content_for (PlannedWrite.key p) content = None) as Hnone.
  { apply content_for_None. intros Hin. apply (Hni _ Hin). by left. }
  apply collapsed_write; [|done|].
  - intros k. rewrite content_for_app. destruct (String.eqb_spec (PlannedWrite.key p) k) as [<-|].
    + by rewrite Hnone.
    + by destruct (content_for k _).
  - rewrite existsb_collapsed, Hnone, orb_false_r, List.filter_app, map_app. cbn. unfold is_new at 2.
    destruct (existsb _ base); cbn; [|done]. rewrite app_nil_r.
    symmetry. by apply (fresh_not_at (PlannedWrite.key p)).
Qed.

Lemma touch_slices base cs :
  foldl (touch_slice app dataset now trust) base cs
  = touch_slice app dataset now trust base (concat cs).
Proof.
  revert base. induction cs as [|c cs IH]; intros base; cbn.
  - unfold touch_slice. symmetry. apply update_where_none. intros r _. unfold in_list.
    by rewrite andb_false_r.
  - rewrite IH. unfold touch_slice, update_where. rewrite map_map. apply map_ext. intros r.
    assert (∀ l, record_in app dataset (touch now trust r) && in_list l (RecordRow.key (touch now trust r))
            = record_in app dataset r && in_list l (RecordRow.key r)) as Hsame by done.
    unfold in_list in *. rewrite (bool_decide_ext (_ ∈ c ++ _) _ (elem_of_app _ _ _)), bool_decide_or.
    destruct (record_in app dataset r) eqn:Ein; cbn; [|by rewrite Ein].
    destruct (bool_decide (RecordRow.key r ∈ c)); cbn; rewrite ?Hsame, ?Ein; cbn;
      by destruct (bool_decide (_ ∈ concat cs)); rewrite ?touch_touch.
Qed.

Lemma touch_collapsed content touched base :
  (∀ k, k ∈ touched → content_for k content = None) →
  touch_slice app dataset now trust (collapsed content (λ _, false) base) touched
  = collapsed content (in_list touched) base.
Proof.
  intros Hdis. unfold collapsed, touch_slice. rewrite update_where_app. f_equal.
  - unfold update_where. rewrite map_map. apply map_ext. intros r.
    assert (record_in app dataset (collapsed_row content (λ _, false) r) = record_in app dataset r
            ∧ RecordRow.key (collapsed_row content (λ _, false) r) = RecordRow.key r) as [-> ->].
    { unfold collapsed_row. destruct (record_in app dataset r) eqn:E; [|done].
      by destruct (content_for _ _). }
    unfold collapsed_row. destruct (record_in app dataset r); cbn; [|done].
    destruct (content_for (RecordRow.key r) content) eqn:E; [|done].
    unfold in_list. case_bool_decide as Hin; [|done]. by rewrite (Hdis _ Hin) in E.
  - apply update_where_none. intros r Hr.
    apply list_elem_of_fmap in Hr as (q & -> & [Hq _]%elem_of_filter_bool). cbn.
    unfold in_list. rewrite bool_decide_false; [apply andb_false_r|]. intros Hin.
    apply Hdis, content_for_None in Hin. apply Hin. by apply list_elem_of_fmap_2.
Qed.

(** The two multi-row statements on [records] do what the plans, in order, would. *)
Lemma chunk_records plans base :
  let '(content, touched_only) := collapse_record_writes plans in
  foldl (touch_slice app dataset now trust)
    (foldl (foldl upsert_record) base (chunks (rows_per_statement 10 0) content))
    (chunks (rows_per_statement 1 4) touched_only)
  = foldl store_step base plans.
Proof.
  unfold collapse_record_writes. set (acc := foldl collapse_step Collapse.empty plans).
  destruct (collapse_loop_sound plans base) as [C Hs]. fold acc in C, Hs.
  rewrite foldl_chunks, touch_slices, concat_chunks, upserts_collapsed by (auto; apply C).
  rewrite touch_collapsed, <- Hs.
  - unfold collapsed. f_equal. apply map_ext. intros r. unfold collapsed_row, touched_of.
    destruct (record_in app dataset r); [|done]. destruct (content_for _ _); [done|].
    assert (in_list (List.filter (λ k, negb (is_some (Collapse.at_ acc !! k)))
              (Collapse.unchanged_only acc)) (RecordRow.key r)
            = in_list (Collapse.unchanged_only acc) (RecordRow.key r)
              && negb (is_some (Collapse.at_ acc !! RecordRow.key r))) as ->; [|done].
    unfold in_list. destruct (negb _) eqn:E; rewrite ?andb_true_r, ?andb_false_r.
    + apply bool_decide_ext. rewrite elem_of_filter_bool. rewrite E. tauto.
    + apply bool_decide_false. rewrite elem_of_filter_bool. rewrite E. by intros [_ [=]].
  - intros k [_ Hk]%elem_of_filter_bool. apply (at_None acc); [done|].
    by destruct (Collapse.at_ acc !! k).
Qed.
End collapse.

(** ** Reading the store *)

Section reading.
Context (app dataset : string).
Implicit Types (t : list RecordRow.t) (revs : list RevisionRow.t) (keys : list string).

Definition record_lookup (key : string) t : option RecordRow.t :=
  head (select_where (record_at app dataset key) t).

Definition key_state (r : RecordRow.t) : KeyState.t :=
  KeyState.mk (RecordRow.hash r) (RecordRow.data r) (is_some (RecordRow.removed_at r)).

(** At most one row per key: the primary key of [records]. *)
Definition one_per_key t : Prop :=
  ∀ key, (length (select_where (record_at app dataset key) t) ≤ 1)%nat.

Definition state_matches keys t (state : gmap string KeyState.t) : Prop :=
  ∀ k, k ∈ keys → state !! k = key_state <$> record_lookup k t.
Definition next_matches keys revs (next : gmap string Z) : Prop :=
  ∀ k, k ∈ keys → default 1 (next !! k) = default 0 (max_revision app dataset k revs) + 1.

Lemma foldl_insert_last {A V} (key : A → string) (val : A → V) (rows : list A) out k :
  foldl (λ (out : gmap string V) r, <[key r := val r]> out) out rows !! k
  = match last (List.filter (λ r, String.eqb (key r) k) rows) with
    | Some r => Some (val r)
    | None => out !! k
    end.
Proof.
  induction rows as [|r rows IH] using rev_ind; cbn; [done|].
  rewrite foldl_app, List.filter_app. cbn. destruct (String.eqb_spec (key r) k) as [<-|Hne].
  - by rewrite lookup_insert_eq, last_snoc.
  - by rewrite lookup_insert_ne, app_nil_r.
Qed.

Lemma read_slice_lookup t out slice k :
  one_per_key t →
  read_states_slice app dataset t out slice !! k
  = if in_list slice k
    then match record_lookup k t with Some r => Some (key_state r) | None => out !! k end
    else out !! k.
Proof.
  intros H1. unfold read_states_slice.
  rewrite (foldl_insert_last RecordRow.key key_state).
  assert (List.filter (λ r, String.eqb (RecordRow.key r) k)
            (select_where (λ r, record_in app dataset r && in_list slice (RecordRow.key r)) t)
          = if in_list slice k then select_where (record_at app dataset k) t else []) as ->.
  { clear H1. unfold record_at, select_where. induction t as [|r t IH]; cbn; [by destruct (in_list slice k)|].
    destruct (String.eqb_spec (RecordRow.key r) k) as [<-|Hne]; rewrite ?andb_true_r, ?andb_false_r.
    - destruct (record_in app dataset r); cbn; rewrite ?IH; [|done].
      destruct (in_list slice (RecordRow.key r)); cbn; by rewrite ?String.eqb_refl, ?IH.
    - destruct (_ && _); cbn; [|done]. by apply String.eqb_neq in Hne as ->. }
  destruct (in_list slice k); [|done]. specialize (H1 k). unfold record_lookup.
  by destruct (select_where _ t) as [|r [|r' l]]; [..|cbn in H1; lia].
Qed.

Lemma read_key_states_matches keys t :
  one_per_key t → state_matches keys t (read_key_states app dataset keys t).
Proof.
  intros H1 k Hk. unfold read_key_states.
  rewrite <- (concat_chunks (rows_per_statement 1 2) keys) in Hk by auto.
  revert Hk. generalize (chunks (rows_per_statement 1 2) keys). intros cs Hk.
  assert (∀ cs out, foldl (read_states_slice app dataset t) out cs !! k
          = if in_list (concat cs) k
            then match record_lookup k t with Some r => Some (key_state r) | None => out !! k end
            else out !! k) as Hcs.
  { clear cs Hk. induction cs as [|c cs IH]; intros out; cbn; [done|].
    rewrite IH, read_slice_lookup by done. unfold in_list.
    rewrite (bool_decide_ext (k ∈ c ++ _) _ (elem_of_app _ _ _)), bool_decide_or.
    destruct (bool_decide (k ∈ c)), (bool_decide (k ∈ concat cs)); cbn; try done.
    by destruct (record_lookup k t). }
  rewrite Hcs. unfold in_list. rewrite bool_decide_true by done. rewrite lookup_empty.
  by destruct (record_lookup k t).
Qed.

Lemma read_next_revisions_matches keys revs :
  next_matches keys revs (read_next_revisions app dataset keys revs).
Proof.
  intros k Hk. unfold read_next_revisions.
  set (f := λ (out : gmap string Z) key,
    match max_revision app dataset key revs with Some n => <[key := n + 1]> out | None => out end).
  change (foldl (read_revisions_slice app dataset revs)) with (foldl (foldl f)).
  rewrite foldl_chunks by auto.
  assert (∀ keys out, foldl f out keys !! k
          = if in_list keys k
            then match max_revision app dataset k revs with Some n => Some (n + 1) | None => out !! k end
            else out !! k) as Hf.
  { clear. induction keys as [|key keys IH]; intros out; cbn; [done|]. rewrite IH. unfold in_list.
    change (f out key) with (match max_revision app dataset key revs with
      Some n => <[key := n + 1]> out | None => out end).
    destruct (decide (k = key)) as [<-|Hne].
    - rewrite (bool_decide_true (k ∈ k :: _)) by by left.
      destruct (max_revision app dataset k revs) eqn:E; cbn; case_bool_decide; by rewrite ?E, ?lookup_insert_eq.
    - rewrite (bool_decide_ext (k ∈ key :: keys) (k ∈ keys)) by (rewrite elem_of_cons; tauto).
      assert (match max_revision app dataset key revs with
              | Some n => <[key:=n + 1]> out | None => out end !! k = out !! k) as ->; [|done].
      destruct (max_revision app dataset key revs); [by rewrite lookup_insert_ne|done]. }
  rewrite Hf. unfold in_list. rewrite bool_decide_true by done. rewrite lookup_empty.
  by destruct (max_revision app dataset k revs).
Qed.

(** *** How the statements change what is read *)

Lemma lookup_update key key' f t :
  (∀ r, record_at app dataset key' (f r) = record_at app dataset key' r) →
  record_lookup key' (update_where (record_at app dataset key) f t)
  = (if String.eqb key key' then f else id) <$> record_lookup key' t.
Proof.
  intros Hf. unfold record_lookup. induction t as [|r t IH]; cbn; [done|].
  destruct (record_at app dataset key r) eqn:E.
  - rewrite Hf. destruct (record_at app dataset key' r) eqn:E'; cbn; [|done].
    unfold record_at in E, E'. apply andb_true_iff in E as [_ E], E' as [_ E'].
    apply String.eqb_eq in E, E'. subst. by rewrite String.eqb_refl.
  - destruct (record_at app dataset key' r) eqn:E'; cbn; [|done].
    destruct (String.eqb_spec key key') as [->|]; [by rewrite E in E'|done].
Qed.

Lemma lookup_snoc key t r :
  record_lookup key (t ++ [r])
  = match record_lookup key t with
    | Some r' => Some r'
    | None => if record_at app dataset key r then Some r else None
    end.
Proof.
  unfold record_lookup, select_where. rewrite List.filter_app. cbn.
  destruct (List.filter _ t); cbn; [by destruct (record_at _ _ _ r)|done].
Qed.

Lemma lookup_existsb key t :
  existsb (record_at app dataset key) t = is_some (record_lookup key t).
Proof.
  unfold record_lookup. induction t as [|r t IH]; cbn; [done|].
  by destruct (record_at app dataset key r).
Qed.

Lemma max_revision_snoc key revs row :
  max_revision app dataset key (revs ++ [row])
  = if revision_at app dataset key row
    then Some (match max_revision app dataset key revs with
               | Some n => Z.max n (RevisionRow.revision row)
               | None => RevisionRow.revision row
               end)
    else max_revision app dataset key revs.
Proof.
  unfold max_revision, select_where. rewrite List.filter_app, map_app. cbn.
  destruct (revision_at app dataset key row); cbn; [|by rewrite app_nil_r].
  destruct (map _ _) as [|n ns]; cbn; [done|]. by rewrite foldl_app.
Qed.

Lemma max_revision_ge key revs r :
  r ∈ revs → revision_at app dataset key r = true →
  ∃ n, max_revision app dataset key revs = Some n ∧ RevisionRow.revision r ≤ n.
Proof.
  induction revs as [|row revs IH] using rev_ind; [by intros ?%not_elem_of_nil|].
  rewrite elem_of_app, list_elem_of_singleton, max_revision_snoc. intros [Hin| ->] Hat.
  - destruct (IH Hin Hat) as (n & -> & Hle). destruct (revision_at _ _ key row); eexists;
      (split; [done|lia]).
  - rewrite Hat. eexists. split; [done|]. destruct (max_revision _ _ key revs); lia.
Qed.

Lemma insert_next_revision row revs :
  revision_at app dataset (RevisionRow.key row) row = true →
  RevisionRow.revision row = default 0 (max_revision app dataset (RevisionRow.key row) revs) + 1 →
  insert_revision row revs = Ok (revs ++ [row <| RevisionRow.rowid := next_rowid revs |>]).
Proof.
  intros Hat Hrev. unfold insert_revision.
  assert (RevisionRow.app row = app ∧ RevisionRow.dataset row = dataset) as [-> ->].
  { unfold revision_at, revision_in in Hat. apply andb_true_iff in Hat as [Hat _].
    apply andb_true_iff in Hat as [H1 H2]. split; by apply String.eqb_eq. }
  destruct (existsb _ revs) eqn:E; [|done]. exfalso.
  apply List.existsb_exists in E as (r & Hin & Hr). apply list_elem_of_In in Hin.
  apply andb_true_iff in Hr as [Hr He]. apply Z.eqb_eq in He.
  destruct (max_revision_ge _ _ _ Hin Hr) as (n & Hn & Hle). rewrite Hn in Hrev. cbn in Hrev. lia.
Qed.
End reading.

(** ** The plan half *)

Section planning.
Context `{JsonRender, JsonParse, JsonEq, Sha256, UnicodeAlphanumeric, Unicode}.
Context (app dataset : string) (now : timestamp) (trust : option string)
        (prov : option Provenance.t).
Implicit Types (t : list RecordRow.t) (revs : list RevisionRow.t) (w : Data.t).

Abbreviation at_key := (record_at app dataset).
Abbreviation store_step := (store_step app dataset now trust).
Abbreviation insert_planned := (insert_planned app dataset now trust prov).
Abbreviation state_matches := (state_matches app dataset).
Abbreviation next_matches := (next_matches app dataset).
Abbreviation record_lookup := (record_lookup app dataset).
Abbreviation add_revision key change data diff revs :=
  (add_revision app dataset key change data diff now trust prov revs).

(** One item upserted on its own, under a print whose hash may leave paths out: an
    unchanged record whose bytes moved is rewritten without a revision. *)
Definition upsert_one (it : string * Json) (print : Fingerprint.t) w :
    result DbError (Data.t * ChangeKind) :=
  let '(key, value) := it in
  let write := update_where (at_key key) (write_content print now trust) in
  match record_lookup key (Data.records w) with
  | Some r =>
      if String.eqb (RecordRow.hash r) (Fingerprint.hash print)
         && negb (is_some (RecordRow.removed_at r)) then
        if String.eqb (RecordRow.data r) (Fingerprint.json print)
        then Ok (w <| Data.records ::= update_where (at_key key) (touch now trust) |>, Unchanged)
        else Ok (w <| Data.records ::= write |>, Unchanged)
      else
        let diff := diff_values (default JNull (json_parse (RecordRow.data r))) value in
        revs ← add_revision key "changed" (Some (Fingerprint.json print))
                 (Some (json_render diff)) (Data.revisions w);
        Ok (Data.mk (write (Data.records w)) revs, Changed)
  | None =>
      revs ← add_revision key "new" (Some (Fingerprint.json print)) None (Data.revisions w);
      Ok (Data.mk (Data.records w ++ [fresh_record app dataset key print now trust]) revs, New)
  end.

Fixpoint upsert_each (items : list (string * Json)) (prints : list Fingerprint.t)
    (part : UpsertSummary.t) w : result DbError (Data.t * UpsertSummary.t) :=
  match items, prints with
  | it :: items, print :: prints =>
      '(w, kind) ← upsert_one it print w;
      upsert_each items prints (UpsertSummary.count part it.1 kind) w
  | _, _ => Ok (w, part)
  end.

Lemma write_content_row print r key :
  at_key key (write_content print now trust r) = at_key key r.
Proof. by apply record_at_fields. Qed.

Lemma state_matches_write keys t state key print :
  state_matches keys t state →
  state_matches keys
    (if existsb (at_key key) t then update_where (at_key key) (write_content print now trust) t
     else t ++ [fresh_record app dataset key print now trust])
    (<[key := KeyState.mk (Fingerprint.hash print) (Fingerprint.json print) false]> state).
Proof.
  intros Hm k Hk. specialize (Hm k Hk). rewrite lookup_existsb.
  destruct (record_lookup key t) as [r|] eqn:Er; cbn [is_some].
  - rewrite lookup_update by (intros; apply write_content_row).
    destruct (String.eqb_spec key k) as [<-|Hne].
    + by rewrite lookup_insert_eq, Er.
    + by rewrite lookup_insert_ne, option_fmap_id by done.
  - rewrite lookup_snoc. destruct (decide (key = k)) as [<-|Hne].
    + rewrite lookup_insert_eq, Er. unfold record_at, record_in. cbn. by rewrite !String.eqb_refl.
    + rewrite lookup_insert_ne, Hm by done. destruct (record_lookup k t); [done|].
      unfold record_at. cbn. apply String.eqb_neq in Hne as ->. by rewrite andb_false_r.
Qed.

Lemma state_matches_touch keys t state key :
  state_matches keys t state →
  state_matches keys (update_where (at_key key) (touch now trust) t) state.
Proof.
  intros Hm k Hk. rewrite (Hm k Hk), lookup_update by (intros; by apply record_at_fields).
  destruct (record_lookup k t); cbn; [|done]. by destruct (String.eqb key k).
Qed.

Lemma next_matches_insert keys revs next row :
  next_matches keys revs next → revision_at app dataset (RevisionRow.key row) row = true →
  RevisionRow.key row ∈ keys →
  RevisionRow.revision row = default 1 (next !! RevisionRow.key row) →
  next_matches keys (revs ++ [row])
    (<[RevisionRow.key row := RevisionRow.revision row + 1]> next).
Proof.
  intros Hm Hat Hin Hrev k Hk. rewrite max_revision_snoc.
  destruct (decide (k = RevisionRow.key row)) as [->|Hne].
  - rewrite Hat, lookup_insert_eq. cbn. rewrite (Hm _ Hin) in Hrev.
    destruct (max_revision _ _ _ revs); cbn in *; lia.
  - rewrite lookup_insert_ne by done. rewrite (Hm _ Hk).
    assert (revision_at app dataset k row = false) as ->; [|done].
    unfold revision_at. destruct (revision_in app dataset row); [|done]. cbn.
    by apply String.eqb_neq.
Qed.

(** One plan is one upsert. *)
Lemma plan_one_sound keys it print state next recs revs :
  it.1 ∈ keys → state_matches keys recs state → next_matches keys revs next →
  let '(plan, state', next') := plan_one it print state next in
  ∃ revs',
    foldl insert_planned (Ok revs) (if appends_revision plan then [plan] else []) = Ok revs'
    ∧ upsert_one it print (Data.mk recs revs)
      = Ok (Data.mk (store_step recs plan) revs', PlannedWrite.kind plan)
    ∧ PlannedWrite.key plan = it.1
    ∧ state_matches keys (store_step recs plan) state' ∧ next_matches keys revs' next'.
Proof.
  destruct it as [key value]. cbn [fst]. intros Hin Hs Hn. unfold plan_one, upsert_one.
  cbn [Data.records Data.revisions]. rewrite (Hs _ Hin).
  assert (∀ change data diff,
    let row := RevisionRow.mk 0 app dataset key (default 1 (next !! key)) change data diff now trust
                 (default Provenance.empty prov) in
    let row' := row <| RevisionRow.rowid := next_rowid revs |> in
    insert_revision row revs = Ok (revs ++ [row'])
    ∧ add_revision key change data diff revs = Ok (revs ++ [row'])
    ∧ next_matches keys (revs ++ [row']) (<[key := default 1 (next !! key) + 1]> next)) as Hrow.
  { intros change data diff row row'.
    assert (insert_revision row revs = Ok (revs ++ [row'])) as Hi.
    { apply (insert_next_revision app dataset); [|cbn; by apply Hn].
      unfold revision_at, revision_in. cbn. by rewrite !String.eqb_refl. }
    split_and!; [done| |].
    - unfold Datasets.add_revision. rewrite <- (Hn _ Hin). exact Hi.
    - apply (next_matches_insert keys revs next row'); try done.
      unfold revision_at, revision_in. cbn. by rewrite !String.eqb_refl. }
  destruct (record_lookup key recs) as [r|] eqn:Er; cbn [fmap option_fmap option_map verdict].
  - cbn [key_state KeyState.hash KeyState.removed KeyState.data].
    destruct (String.eqb _ _ && _) eqn:Ehash.
    + destruct (String.eqb (RecordRow.data r) (Fingerprint.json print)) eqn:Edata;
        cbn; exists revs; split_and!; try done.
      * by apply state_matches_touch.
      * unfold BatchTheorems.store_step, Datasets.upsert_record. cbn.
        by rewrite lookup_existsb, Er.
      * unfold BatchTheorems.store_step, Datasets.upsert_record. cbn. by apply state_matches_write.
    + edestruct (Hrow "changed"%string) as (Hi & Ha & Hnext).
      cbn. eexists. split_and!; [exact Hi|rewrite Ha; cbn| done| |exact Hnext].
      * unfold BatchTheorems.store_step, Datasets.upsert_record. cbn. by rewrite lookup_existsb, Er.
      * unfold BatchTheorems.store_step, Datasets.upsert_record. cbn. by apply state_matches_write.
  - edestruct (Hrow "new"%string) as (Hi & Ha & Hnext).
    cbn. eexists. split_and!; [exact Hi|rewrite Ha; cbn|done| |exact Hnext].
    + unfold BatchTheorems.store_step, Datasets.upsert_record. cbn. by rewrite lookup_existsb, Er.
    + unfold BatchTheorems.store_step, Datasets.upsert_record. cbn. by apply state_matches_write.
Qed.

Lemma plan_chunk_sound keys items prints state next recs revs part :
  (∀ k, k ∈ map fst items → k ∈ keys) → state_matches keys recs state →
  next_matches keys revs next →
  let plans := plan_chunk items prints state next in
  ∃ revs',
    foldl insert_planned (Ok revs) (List.filter appends_revision plans) = Ok revs'
    ∧ upsert_each items prints part (Data.mk recs revs)
      = Ok (Data.mk (foldl store_step recs plans) revs',
            foldl (λ s p, UpsertSummary.count s (PlannedWrite.key p) (PlannedWrite.kind p)) part plans).
Proof.
  revert prints state next recs revs part.
  induction items as [|it items IH]; intros prints state next recs revs part Hk Hs Hn.
  { exists revs. by destruct prints. }
  destruct prints as [|print prints]; [by exists revs|]. cbn [plan_chunk upsert_each].
  pose proof (plan_one_sound keys it print state next recs revs (Hk _ ltac:(by left)) Hs Hn) as Hone.
  destruct (plan_one it print state next) as [[plan state'] next'].
  destruct Hone as (revs1 & Hi & Hu & Hkey & Hs' & Hn').
  destruct (IH prints state' next' _ revs1
              (UpsertSummary.count part it.1 (PlannedWrite.kind plan))
              (λ k Hin, Hk k ltac:(by right)) Hs' Hn') as (revs' & Hrest & Heach).
  exists revs'. rewrite Hu. cbn. rewrite Heach, Hkey. split; [|done].
  destruct (appends_revision plan); cbn in *; by rewrite ?Hi.
Qed.

Lemma unique_keys_complete keys seen k :
  k ∈ keys → k ∈ seen ∨ k ∈ unique_keys keys seen.
Proof.
  revert seen. induction keys as [|key keys IH]; intros seen; cbn; [by intros ?%not_elem_of_nil|].
  intros [->|Hin]%elem_of_cons.
  - case_bool_decide; [by left|]. right. by left.
  - destruct (IH (if bool_decide (key ∈ seen) then seen else {[key]} ∪ seen) Hin) as [Hs|Hs];
      case_bool_decide; set_solver.
Qed.

(** A chunk in set-shaped statements is its items upserted one after another. *)
Lemma upsert_chunk_each items prints w :
  one_per_key app dataset (Data.records w) →
  upsert_chunk_in_tx app dataset items prints now trust prov w
  = upsert_each items prints UpsertSummary.default w.
Proof.
  intros Hpk. destruct w as [recs revs]. unfold upsert_chunk_in_tx. cbn zeta.
  cbn [Data.records Data.revisions] in *. set (keys := unique_keys (map fst items) ∅).
  destruct (plan_chunk_sound keys items prints
              (read_key_states app dataset keys recs) (read_next_revisions app dataset keys revs)
              recs revs UpsertSummary.default) as (revs' & Hrevs & Heach).
  - intros k Hk. destruct (unique_keys_complete _ ∅ _ Hk); [set_solver|done].
  - by apply read_key_states_matches.
  - by apply read_next_revisions_matches.
  - rewrite Heach. unfold write_chunk.
    set (plans := plan_chunk _ _ _ _) in *.
    pose proof (chunk_records app dataset now trust plans recs) as Hrecs.
    destruct (collapse_record_writes plans) as [content touched]. cbn [Data.records Data.revisions].
    rewrite Hrecs, foldl_chunks, Hrevs by auto. done.
Qed.
End planning.

(** ** The two batch doors agree *)

Lemma chunks_from_map {A B} (f : A → B) fuel n l :
  chunks_from fuel n (map f l) = map (map f) (chunks_from fuel n l).
Proof.
  revert l. induction fuel as [|fuel IH]; intros [|x l]; try done. cbn [chunks_from map].
  rewrite <- (map_cons f x l), <- IH. f_equal; [apply firstn_map|f_equal; apply skipn_map].
Qed.
Lemma chunks_map {A B} (f : A → B) n l : chunks n (map f l) = map (map f) (chunks n l).
Proof. unfold chunks. by rewrite length_map, chunks_from_map. Qed.

Lemma zip_map_r {A B} (f : A → B) l : zip l (map f l) = map (λ x, (x, f x)) l.
Proof. induction l as [|x l IH]; cbn; [done|]. by rewrite IH. Qed.

Section doors.
Context `{JsonRender, JsonParse, JsonEq, Sha256, UnicodeAlphanumeric, Unicode}.
Context (app dataset : string) (trust : option string) (prov : Provenance.t).
Implicit Types (w : Data.t) (items : list (string * Json)).

(** SHA-256 tells the texts of the batch apart, from each other and from the stored ones. *)
Definition told_apart items (recs : list RecordRow.t) : Prop :=
  (∀ it r, it ∈ items → r ∈ recs → record_in app dataset r = true →
     RecordRow.hash r = hash_value it.2 → RecordRow.data r = json_render it.2)
  ∧ (∀ it it', it ∈ items → it' ∈ items →
     hash_value it.2 = hash_value it'.2 → json_render it.2 = json_render it'.2).

Definition ready items w : Prop :=
  one_per_key app dataset (Data.records w) ∧ told_apart items (Data.records w).

Abbreviation upsert_one now := (upsert_one app dataset now trust (Some prov)).
Abbreviation plain_print value := (fingerprint DerivedPaths_NONE value).

Lemma record_lookup_elem key t r :
  record_lookup app dataset key t = Some r → r ∈ t ∧ record_at app dataset key r = true.
Proof.
  unfold record_lookup. destruct (select_where _ t) as [|x l] eqn:E; [done|]. intros [= ->].
  apply elem_of_select. rewrite E. by left.
Qed.

(** With nothing declared, the per-item reference is the transaction body of [upsert]. *)
Lemma upsert_in_tx_one items now it w :
  ready items w → it ∈ items →
  upsert_in_tx app dataset it.1 it.2 (hash_value it.2) (as_i64_bits (simhash_value it.2)) now trust
    (Some prov) w
  = upsert_one now it (plain_print it.2) w.
Proof.
  intros [_ [Hta _]] Hit. destruct it as [key value]. cbn [fst snd] in *.
  unfold upsert_in_tx, BatchTheorems.upsert_one.
  change (head (select_where (record_at app dataset key) (Data.records w)))
    with (record_lookup app dataset key (Data.records w)).
  destruct (record_lookup app dataset key (Data.records w)) as [r|] eqn:E.
  - cbn [fingerprint Fingerprint.hash hash_input DerivedPaths_NONE].
    destruct (String.eqb (RecordRow.hash r) (hash_value value)) eqn:Eh; cbn [andb]; [|done].
    destruct (negb (is_some (RecordRow.removed_at r))); [|done].
    apply record_lookup_elem in E as [Hin Hat]. apply record_at_key in Hat as [Hat _].
    apply String.eqb_eq in Eh. specialize (Hta _ _ Hit Hin Hat Eh). cbn in Hta.
    cbn [Fingerprint.json]. by rewrite Hta, String.eqb_refl.
  - unfold insert_record. cbn [fresh_record RecordRow.app RecordRow.dataset RecordRow.key].
    rewrite lookup_existsb, E. cbn. destruct (add_revision _ _ _ _ _ _ _ _ _ _); done.
Qed.

(** The rows an upsert leaves hold an old content or the item's own. *)
Lemma upsert_one_rows now it print w w' kind :
  upsert_one now it print w = Ok (w', kind) →
  ∀ r', r' ∈ Data.records w' →
    (RecordRow.hash r' = Fingerprint.hash print ∧ RecordRow.data r' = Fingerprint.json print)
    ∨ ∃ r, r ∈ Data.records w ∧ record_in app dataset r' = record_in app dataset r
        ∧ RecordRow.hash r' = RecordRow.hash r ∧ RecordRow.data r' = RecordRow.data r.
Proof.
  destruct it as [key value]. unfold BatchTheorems.upsert_one.
  set (write := update_where (record_at app dataset key) (write_content print now trust)).
  assert (∀ r', r' ∈ write (Data.records w) →
    (RecordRow.hash r' = Fingerprint.hash print ∧ RecordRow.data r' = Fingerprint.json print)
    ∨ ∃ r, r ∈ Data.records w ∧ record_in app dataset r' = record_in app dataset r
        ∧ RecordRow.hash r' = RecordRow.hash r ∧ RecordRow.data r' = RecordRow.data r) as Hwrite.
  { intros r' Hr. apply elem_of_update in Hr as (r & Hr & ->).
    destruct (record_at app dataset key r); [by left|right; eauto]. }
  destruct (record_lookup app dataset key (Data.records w)) as [r|] eqn:E.
  - destruct (_ && _); [destruct (String.eqb (RecordRow.data r) _)|].
    + intros [= <- <-] r' Hr. cbn in Hr. apply elem_of_update in Hr as (r0 & Hr & ->).
      right. exists r0. by destruct (record_at app dataset key r0).
    + intros [= <- <-] r' Hr. by apply Hwrite.
    + destruct (add_revision _ _ _ _ _ _ _ _ _ _); [|done]. intros [= <- <-] r' Hr. by apply Hwrite.
  - destruct (add_revision _ _ _ _ _ _ _ _ _ _); [|done]. intros [= <- <-] r' Hr. cbn in Hr.
    apply elem_of_app in Hr as [Hr|Hr]; [right; eauto|].
    apply list_elem_of_singleton in Hr as ->. by left.
Qed.

Lemma select_update_length key key' f t :
  (∀ r, record_at app dataset key' (f r) = record_at app dataset key' r) →
  length (select_where (record_at app dataset key') (update_where (record_at app dataset key) f t))
  = length (select_where (record_at app dataset key') t).
Proof.
  intros Hf. unfold select_where, update_where. induction t as [|r t IH]; cbn; [done|].
  assert (record_at app dataset key' (if record_at app dataset key r then f r else r)
          = record_at app dataset key' r) as -> by (by destruct (record_at app dataset key r)).
  destruct (record_at app dataset key' r); cbn; by rewrite ?IH.
Qed.

Lemma upsert_one_per_key now it print w w' kind :
  one_per_key app dataset (Data.records w) → upsert_one now it print w = Ok (w', kind) →
  one_per_key app dataset (Data.records w').
Proof.
  destruct it as [key value]. unfold BatchTheorems.upsert_one. intros Hpk Hu k.
  destruct (record_lookup app dataset key (Data.records w)) as [r|] eqn:E.
  - destruct (_ && _); [destruct (String.eqb (RecordRow.data r) _)|destruct (add_revision _ _ _ _ _ _ _ _ _ _);
      [|done]]; injection Hu as <- <-; cbn;
      rewrite select_update_length; try apply Hpk; intros; by apply record_at_fields.
  - destruct (add_revision _ _ _ _ _ _ _ _ _ _); [|done]. injection Hu as <- <-. cbn.
    unfold select_where. rewrite List.filter_app, length_app. cbn.
    destruct (record_at app dataset k _) eqn:Ek; cbn; [|rewrite Nat.add_0_r; apply Hpk].
    apply record_at_key in Ek as [_ Ek]. cbn in Ek. subst.
    unfold record_lookup, select_where in E. by destruct (List.filter _ _).
Qed.

Lemma upsert_one_ready items now it w w' kind :
  ready items w → it ∈ items → upsert_one now it (plain_print it.2) w = Ok (w', kind) →
  ready items w'.
Proof.
  intros [Hpk [Hta Hit']] Hit Hu. split; [by eapply upsert_one_per_key|]. split; [|done].
  intros it' r' Hin Hr' Hrin Hh. pose proof (upsert_one_rows _ _ _ _ _ _ Hu r' Hr') as [[Hhash Hdata]|
    (r & Hr & Hrec & Hhash & Hdata)].
  - rewrite Hdata. cbn in *. apply Hit'; [done..|]. by rewrite <- Hhash, <- Hh.
  - rewrite Hdata. apply Hta; [done|done|by rewrite <- Hrec|by rewrite <- Hhash].
Qed.

Lemma stamped_rows_each items now part w part_items :
  ready items w → (∀ it, it ∈ part_items → it ∈ items) →
  stamped_rows app dataset (map (λ it, (it.1, it.2, prov)) part_items) now trust part w
  = upsert_each app dataset now trust (Some prov) part_items
      (map (λ it, plain_print it.2) part_items) part w
  ∧ ∀ w' part', upsert_each app dataset now trust (Some prov) part_items
      (map (λ it, plain_print it.2) part_items) part w = Ok (w', part') → ready items w'.
Proof.
  revert part w. induction part_items as [|it part_items IH]; intros part w Hr Hin; cbn.
  { split; [done|]. by intros ?? [= <- <-]. }
  assert (it ∈ items) as Hit by (apply Hin; by left).
  rewrite (upsert_in_tx_one items now it w Hr Hit).
  destruct (upsert_one now it (plain_print it.2) w) as [[w1 kind]|e] eqn:Hu; cbn; [|done].
  apply IH; [by eapply upsert_one_ready|]. intros. apply Hin. by right.
Qed.

Lemma commit_chunks_agree items clock n cs summary w :
  ready items w → (∀ it, it ∈ concat cs → it ∈ items) →
  commit_chunks
    (λ now c w, upsert_chunk_in_tx app dataset (map fst c) (map snd c) now trust (Some prov) w)
    clock n (map (map (λ it, (it, plain_print it.2))) cs) summary w
  = commit_chunks (λ now c w, stamped_rows app dataset c now trust UpsertSummary.default w)
      clock n (map (map (λ it, (it.1, it.2, prov))) cs) summary w.
Proof.
  revert n summary w. induction cs as [|c cs IH]; intros n summary w Hr Hin; [done|].
  cbn [map commit_chunks]. rewrite !map_map. cbn [fst snd]. rewrite map_id.
  rewrite upsert_chunk_each by apply Hr.
  destruct (stamped_rows_each items (clock n) UpsertSummary.default w c Hr) as [-> Hready].
  { intros it Hit. apply Hin. cbn [concat]. rewrite elem_of_app. by left. }
  destruct (upsert_each _ _ _ _ _ _ _ _ w) as [[w' part]|e]; [|done].
  apply IH; [by eapply Hready|]. intros it Hit. apply Hin.
  cbn [concat]. rewrite elem_of_app. by right.
Qed.
End doors.

(** C19: The set-shaped batch upsert is the row-by-row one: two batched reads, verdicts decided
    in memory and three multi-row statements per chunk leave the same records and the same
    revisions, in the same order, with the same summary or error, as upserting the items one
    at a time - repeated keys included - when one row holds each key and SHA-256 tells the
    texts apart. *)
Theorem batch_upsert_is_row_by_row
    `{JsonRender, JsonParse, JsonEq, Sha256, UnicodeAlphanumeric, Unicode}
    app dataset items clock trust prov w
    (Hpk : one_per_key app dataset (Data.records w))
    (Hapart : told_apart app dataset items (Data.records w)) :
  upsert_many_inner app dataset items clock trust (Some prov) DerivedPaths_NONE w
  = upsert_many_row_stamped app dataset (map (λ it, (it.1, it.2, prov)) items) clock trust w.
Proof.
  unfold upsert_many_inner, upsert_many_row_stamped, fingerprint_batch.
  rewrite zip_map_r, !chunks_map. apply commit_chunks_agree with (items := items); [done|].
  intros it. by rewrite concat_chunks by (unfold UPSERT_CHUNK; lia).
Qed.

(** ** A concrete batch *)

Module BatchDemo.
(** Strings render quoted, and nothing else occurs. *)
#[local] Instance render : JsonRender := λ v,
  match v with JString s => quoted s | _ => "null" end%string.
#[local] Instance parse : JsonParse := λ s,
  if String.eqb s (quoted "one") then Some (JString "one")
  else if String.eqb s (quoted "two") then Some (JString "two") else None.
#[local] Instance eqb : JsonEq := λ a b,
  match a, b with JString s, JString t => String.eqb s t | _, _ => false end.
#[local] Instance sha : Sha256 := λ s, ("#" +:+ s)%string.
#[local] Instance alnum : UnicodeAlphanumeric := λ c, negb (String.eqb c " ").
#[local] Instance lower : Unicode := λ s, s.

Definition empty : Data.t := Data.mk [] [].
(** One key twice in the batch: new, then changed, then unchanged. *)
Definition items : list (string * Json) :=
  [("k", JString "one"); ("k", JString "two"); ("j", JString "one"); ("k", JString "two")]%string.

Lemma batch_upsert_is_row_by_row_witness :
  let clock n := 10 + Z.of_nat n in
  upsert_many_inner "app" "ds" items clock None (Some Provenance.empty) DerivedPaths_NONE empty
  = upsert_many_row_stamped "app" "ds" (map (λ it, (it.1, it.2, Provenance.empty)) items) clock
      None empty
  ∧ (upsert_many_inner "app" "ds" items clock None (Some Provenance.empty) DerivedPaths_NONE
       empty).2 = Ok (UpsertSummary.mk ["k"; "j"] ["k"] 1 [])%string.
Proof.
  split; [|by vm_compute]. apply batch_upsert_is_row_by_row.
  - intros k. cbn. lia.
  - split; [by intros ?? _ ?%not_elem_of_nil|].
    intros it it' _ _ He. unfold hash_value in He. by injection He.
Defined.
End BatchDemo.
