(* ===== verification/DatasetTheorems.v ===== *)
(** * DatasetTheorems: what the dataset store keeps true *)

From stdpp Require Import gmap.
From S2P Require Import Prelude Sql Float64 Json SourceHealth Filters Simhash Records ChangePlan.
From S2P Require Import Datasets BatchTheorems.

(** ** Rows by their primary key *)

Definition record_id (r : RecordRow.t) : string * string * string :=
  (RecordRow.app r, RecordRow.dataset r, RecordRow.key r).
Definition revision_id (r : RevisionRow.t) : string * string * string :=
  (RevisionRow.app r, RevisionRow.dataset r, RevisionRow.key r).

Abbreviation at_id id := (record_at id.1.1 id.1.2 id.2).
Abbreviation of_id id := (revision_at id.1.1 id.1.2 id.2).
Abbreviation row_at id t := (record_lookup id.1.1 id.1.2 id.2 t).
Abbreviation history_of id t := (select_where (of_id id) t).

Lemma at_id_spec id r : at_id id r = bool_decide (record_id r = id).
Proof.
  destruct id as [[a d] k]. unfold record_at, record_in, record_id. cbn.
  destruct (String.eqb_spec (RecordRow.app r) a), (String.eqb_spec (RecordRow.dataset r) d),
    (String.eqb_spec (RecordRow.key r) k); cbn; symmetry;
    (apply bool_decide_true; congruence) || (apply bool_decide_false; congruence).
Qed.
Lemma of_id_spec id r : of_id id r = bool_decide (revision_id r = id).
Proof.
  destruct id as [[a d] k]. unfold revision_at, revision_in, revision_id. cbn.
  destruct (String.eqb_spec (RevisionRow.app r) a), (String.eqb_spec (RevisionRow.dataset r) d),
    (String.eqb_spec (RevisionRow.key r) k); cbn; symmetry;
    (apply bool_decide_true; congruence) || (apply bool_decide_false; congruence).
Qed.

Lemma row_at_update id id' f t :
  (∀ r, record_id (f r) = record_id r) →
  row_at id' (update_where (at_id id) f t)
  = (if decide (id = id') then f else λ r, r) <$> row_at id' t.
Proof.
  intros Hf. unfold record_lookup, select_where, update_where.
  induction t as [|r t IH]; cbn; [done|].
  assert (at_id id' (if at_id id r then f r else r) = at_id id' r) as ->.
  { destruct (at_id id r); [|done]. by rewrite !at_id_spec, Hf. }
  destruct (at_id id' r) eqn:E; cbn; [|done]. rewrite at_id_spec in E.
  apply bool_decide_eq_true in E. rewrite at_id_spec, E.
  by destruct (decide (id = id')); case_bool_decide; congruence.
Qed.

Lemma row_at_snoc id t r :
  row_at id (t ++ [r])
  = match row_at id t with
    | Some r' => Some r'
    | None => if decide (record_id r = id) then Some r else None
    end.
Proof.
  rewrite lookup_snoc, at_id_spec. destruct (row_at id t); [done|].
  by destruct (decide (record_id r = id)); case_bool_decide.
Qed.

Lemma row_at_delete id p t :
  (∀ r, record_id r = id → p r = false) → row_at id (delete_where p t) = row_at id t.
Proof.
  intros Hp. unfold record_lookup, select_where, delete_where.
  induction t as [|r t IH]; cbn; [done|].
  destruct (at_id id r) eqn:E.
  - rewrite at_id_spec in E. apply bool_decide_eq_true in E. rewrite (Hp r E). cbn.
    by rewrite at_id_spec, bool_decide_true.
  - destruct (p r); cbn; [done|]. by rewrite E.
Qed.

Lemma row_at_deleted id p t :
  (∀ r, record_id r = id → p r = true) → row_at id (delete_where p t) = None.
Proof.
  intros Hp. unfold record_lookup, select_where, delete_where.
  induction t as [|r t IH]; cbn; [done|]. destruct (p r) eqn:E; cbn; [done|].
  rewrite at_id_spec. rewrite bool_decide_false; [done|]. intros He. by rewrite Hp in E.
Qed.

Lemma history_snoc id revs row :
  history_of id (revs ++ [row])
  = history_of id revs ++ (if decide (revision_id row = id) then [row] else []).
Proof.
  unfold select_where. rewrite List.filter_app. cbn. rewrite of_id_spec.
  by destruct (decide (revision_id row = id)); case_bool_decide.
Qed.

Lemma history_delete id p revs :
  (∀ r, revision_id r = id → p r = false) →
  history_of id (delete_where p revs) = history_of id revs.
Proof.
  intros Hp. unfold select_where, delete_where. induction revs as [|r revs IH]; cbn; [done|].
  destruct (of_id id r) eqn:E.
  - rewrite of_id_spec in E. apply bool_decide_eq_true in E. rewrite (Hp r E). cbn.
    rewrite of_id_spec, bool_decide_true by done. by rewrite IH.
  - destruct (p r); cbn; [done|]. by rewrite E.
Qed.

Lemma history_deleted id p revs :
  (∀ r, revision_id r = id → p r = true) → history_of id (delete_where p revs) = [].
Proof.
  intros Hp. unfold select_where, delete_where. induction revs as [|r revs IH]; cbn; [done|].
  destruct (p r) eqn:E; cbn; [done|]. rewrite of_id_spec, bool_decide_false; [done|].
  intros He. by rewrite Hp in E.
Qed.

(** An appended revision is the next of its key, and always lands. *)
Lemma add_revision_lands app dataset key change data diff now trust prov revs :
  ∃ row, add_revision app dataset key change data diff now trust prov revs = Ok (revs ++ [row])
    ∧ revision_id row = (app, dataset, key)
    ∧ RevisionRow.revision row = default 0 (max_revision app dataset key revs) + 1
    ∧ RevisionRow.rowid row = next_rowid revs
    ∧ RevisionRow.change row = change ∧ RevisionRow.data row = data
    ∧ RevisionRow.created_at row = now ∧ RevisionRow.trust row = trust.
Proof.
  unfold add_revision. rewrite (insert_next_revision app dataset).
  - eexists. by split_and!.
  - unfold revision_at, revision_in. cbn. by rewrite !String.eqb_refl.
  - done.
Qed.

(** ** The history mirrors the records *)

Abbreviation numbered := (StronglySorted (λ a b, RevisionRow.revision a < RevisionRow.revision b)).

(** A record and its history: none without the other, the last revision says whether it is
    tombstoned, and holds the content of a live one. *)
Definition tells (r : RecordRow.t) (l : RevisionRow.t) : Prop :=
  is_some (RecordRow.removed_at r) = String.eqb (RevisionRow.change l) "removed"
  ∧ (RecordRow.live r = true → RevisionRow.data l = Some (RecordRow.data r)).
Definition mirrored (row : option RecordRow.t) (history : list RevisionRow.t) : Prop :=
  numbered history
  ∧ match row with
    | Some r => ∃ l, last history = Some l ∧ tells r l
    | None => history = []
    end.
Definition mirrors (w : Data.t) : Prop :=
  (∀ app dataset, one_per_key app dataset (Data.records w))
  ∧ ∀ id, mirrored (row_at id (Data.records w)) (history_of id (Data.revisions w)).

Lemma numbered_snoc history l :
  numbered history → (∀ r, r ∈ history → RevisionRow.revision r < RevisionRow.revision l) →
  numbered (history ++ [l]).
Proof.
  induction 1 as [|x history Hs IH Hall]; cbn; intros Hlt; [repeat constructor|].
  constructor; [apply IH; intros; apply Hlt; by right|].
  apply Forall_app. split; [done|]. repeat constructor. apply Hlt. by left.
Qed.

Lemma mirrored_append id row r l revs :
  mirrored row (history_of id revs) → revision_id l = id →
  RevisionRow.revision l = default 0 (max_revision id.1.1 id.1.2 id.2 revs) + 1 →
  tells r l → mirrored (Some r) (history_of id (revs ++ [l])).
Proof.
  intros [Hn _] Hid Hrev Ht. rewrite history_snoc. destruct (decide _); [|done].
  split; [|exists l; by rewrite last_snoc]. apply numbered_snoc; [done|].
  intros x [Hx Hat]%elem_of_select. destruct (max_revision_ge _ _ _ _ _ Hx Hat) as (n & Hmax & Hle).
  rewrite Hmax in Hrev. cbn in Hrev. lia.
Qed.

(** An operation on one key leaves the others' rows and histories alone. *)
Definition local (id : string * string * string) (w w' : Data.t) : Prop :=
  ∀ id', id' ≠ id → row_at id' (Data.records w') = row_at id' (Data.records w)
                    ∧ history_of id' (Data.revisions w') = history_of id' (Data.revisions w).

Lemma local_mirrors id w w' :
  mirrors w → local id w w' → (∀ app dataset, one_per_key app dataset (Data.records w')) →
  mirrored (row_at id (Data.records w')) (history_of id (Data.revisions w')) → mirrors w'.
Proof.
  intros [_ Hm] Hl H1 Hid. split; [done|]. intros id'. destruct (decide (id' = id)) as [->|Hne]; [done|].
  destruct (Hl id' Hne) as [-> ->]. apply Hm.
Qed.

Lemma update_one_per_key p f t :
  (∀ r, record_id (f r) = record_id r) → (∀ app dataset, one_per_key app dataset t) →
  ∀ app dataset, one_per_key app dataset (update_where p f t).
Proof.
  intros Hf H1 app dataset key. specialize (H1 app dataset key). revert H1.
  assert (length (select_where (record_at app dataset key) (update_where p f t))
          = length (select_where (record_at app dataset key) t)) as ->; [|done].
  unfold select_where, update_where. induction t as [|r t IH]; cbn; [done|].
  assert (record_at app dataset key (if p r then f r else r) = record_at app dataset key r) as ->.
  { destruct (p r); [|done]. apply record_at_fields; specialize (Hf r); unfold record_id in Hf;
      congruence. }
  destruct (record_at app dataset key r); cbn; by rewrite IH.
Qed.

Lemma delete_one_per_key p t :
  (∀ app dataset, one_per_key app dataset t) → ∀ app dataset, one_per_key app dataset (delete_where p t).
Proof.
  intros H1 app dataset key. etransitivity; [|apply (H1 app dataset key)]. clear H1.
  unfold select_where, delete_where. induction t as [|r t IH]; cbn; [done|].
  destruct (p r); cbn; destruct (record_at app dataset key r); cbn; lia.
Qed.

Lemma snoc_one_per_key r t :
  row_at (record_id r) t = None → (∀ app dataset, one_per_key app dataset t) →
  ∀ app dataset, one_per_key app dataset (t ++ [r]).
Proof.
  intros Hn H1 app dataset key. specialize (H1 app dataset key).
  unfold select_where in *. rewrite List.filter_app, length_app. cbn.
  destruct (record_at app dataset key r) eqn:E; cbn; [|lia].
  change (record_at app dataset key) with (at_id (app, dataset, key)) in *.
  rewrite at_id_spec in E. apply bool_decide_eq_true in E. rewrite E in Hn.
  unfold record_lookup, select_where in Hn. by destruct (List.filter _ t).
Qed.

(** *** Upserts *)

Section upserts.
Context `{JsonRender, JsonParse, JsonEq, Sha256, UnicodeAlphanumeric, Unicode}.
Implicit Types (w : Data.t).

Lemma upsert_one_local app dataset now trust prov it print w w' kind :
  upsert_one app dataset now trust prov it print w = Ok (w', kind) →
  local (app, dataset, it.1) w w'.
Proof.
  destruct it as [key value]. unfold upsert_one. cbn [fst]. intros Hu id' Hne.
  assert (∀ f, (∀ r, record_id (f r) = record_id r) →
    row_at id' (update_where (record_at app dataset key) f (Data.records w))
    = row_at id' (Data.records w)) as Hrow.
  { intros f Hf. rewrite (row_at_update (app, dataset, key)) by done.
    rewrite decide_False by congruence. by destruct (row_at id' _). }
  assert (∀ change data diff revs,
    add_revision app dataset key change data diff now trust prov (Data.revisions w) = Ok revs →
    history_of id' revs = history_of id' (Data.revisions w)) as Hhist.
  { intros change data diff revs Ha.
    destruct (add_revision_lands app dataset key change data diff now trust prov (Data.revisions w))
      as (row & He & Hid & _). rewrite He in Ha. injection Ha as <-.
    rewrite history_snoc, decide_False by congruence. apply app_nil_r. }
  destruct (record_lookup app dataset key (Data.records w)) as [r|].
  - destruct (_ && _); [destruct (String.eqb (RecordRow.data r) _)|].
    + injection Hu as <- <-. split; [by apply Hrow|done].
    + injection Hu as <- <-. split; [by apply Hrow|done].
    + destruct (add_revision _ _ _ _ _ _ _ _ _ _) as [revs|] eqn:Ha; [|done]. injection Hu as <- <-.
      split; [by apply Hrow|by eapply Hhist].
  - destruct (add_revision _ _ _ _ _ _ _ _ _ _) as [revs|] eqn:Ha; [|done]. injection Hu as <- <-.
    split; [|by eapply Hhist]. cbn. rewrite row_at_snoc.
    destruct (row_at id' _); [done|]. rewrite decide_False; [done|].
    intros He. apply Hne. by rewrite <- He.
Qed.

Lemma upsert_one_rows_unique app dataset now trust prov it print w w' kind :
  (∀ app dataset, one_per_key app dataset (Data.records w)) →
  upsert_one app dataset now trust prov it print w = Ok (w', kind) →
  ∀ app dataset, one_per_key app dataset (Data.records w').
Proof.
  destruct it as [key value]. unfold upsert_one. intros H1' Hu.
  destruct (record_lookup app dataset key (Data.records w)) as [r|] eqn:E.
  - destruct (_ && _); [destruct (String.eqb (RecordRow.data r) _)|
      destruct (add_revision _ _ _ _ _ _ _ _ _ _); [|done]];
      injection Hu as <- <-; cbn; by apply update_one_per_key.
  - destruct (add_revision _ _ _ _ _ _ _ _ _ _); [|done]. injection Hu as <- <-.
    by apply snoc_one_per_key.
Qed.

(** The row and the revision an upsert leaves at its own key. *)
Lemma upsert_one_at app dataset now trust prov it w w' kind :
  mirrored (row_at (app, dataset, it.1) (Data.records w))
    (history_of (app, dataset, it.1) (Data.revisions w)) →
  (∀ r, record_lookup app dataset it.1 (Data.records w) = Some r →
     RecordRow.hash r = hash_value it.2 → RecordRow.data r = json_render it.2) →
  upsert_one app dataset now trust prov it (fingerprint DerivedPaths_NONE it.2) w = Ok (w', kind) →
  mirrored (row_at (app, dataset, it.1) (Data.records w'))
    (history_of (app, dataset, it.1) (Data.revisions w')).
Proof.
  destruct it as [key value]. cbn [fst snd]. set (id := (app, dataset, key)). intros Hm Hta.
  unfold upsert_one. change (record_lookup app dataset key) with (record_lookup id.1.1 id.1.2 id.2) in *.
  assert (∀ change data diff revs r,
    add_revision app dataset key change data diff now trust prov (Data.revisions w) = Ok revs →
    (∀ l, RevisionRow.change l = change → RevisionRow.data l = data → tells r l) →
    mirrored (Some r) (history_of id revs)) as Happend.
  { intros change data diff revs r Ha Ht.
    destruct (add_revision_lands app dataset key change data diff now trust prov (Data.revisions w))
      as (row & He & Hid & Hrev & _ & Hc & Hd & _). rewrite He in Ha. injection Ha as <-.
    eapply mirrored_append; [exact Hm|done|exact Hrev|by apply Ht]. }
  assert (∀ f, (∀ r, record_id (f r) = record_id r) →
    row_at id (update_where (record_at app dataset key) f (Data.records w))
    = f <$> row_at id (Data.records w)) as Hrow.
  { intros f Hf. rewrite (row_at_update id id) by done. by rewrite decide_True. }
  destruct (row_at id (Data.records w)) as [r|] eqn:Er.
  - destruct (_ && _) eqn:Eh.
    + apply andb_true_iff in Eh as [Eh Hlive]. apply String.eqb_eq in Eh.
      rewrite (Hta r eq_refl Eh). cbn [Fingerprint.json fingerprint]. rewrite String.eqb_refl.
      intros [= <- <-]. cbn. rewrite Hrow by done. exact Hm.
    + destruct (add_revision _ _ _ _ _ _ _ _ _ _) as [revs|] eqn:Ha; [|done]. intros [= <- <-]. cbn.
      rewrite Hrow by done. eapply Happend; [exact Ha|]. intros l Hc Hd. unfold tells.
      rewrite Hc, Hd. done.
  - destruct (add_revision _ _ _ _ _ _ _ _ _ _) as [revs|] eqn:Ha; [|done]. intros [= <- <-].
    cbn [Data.records Data.revisions]. rewrite (row_at_snoc id), Er, decide_True by done. eapply Happend; [exact Ha|].
    intros l Hc Hd. unfold tells. rewrite Hc, Hd. done.
Qed.

Lemma upsert_one_mirrors items app dataset now trust prov it w w' kind :
  mirrors w → told_apart app dataset items (Data.records w) → it ∈ items →
  upsert_one app dataset now trust prov it (fingerprint DerivedPaths_NONE it.2) w = Ok (w', kind) →
  mirrors w'.
Proof.
  intros Hm [Hta _] Hit Hu. eapply (local_mirrors (app, dataset, it.1)); [done|by eapply upsert_one_local| |].
  - eapply upsert_one_rows_unique; [apply Hm|exact Hu].
  - eapply upsert_one_at; [apply Hm| |exact Hu]. intros r Hr Hh.
    apply record_lookup_elem in Hr as [Hin Hat]. apply record_at_key in Hat as [Hat _]. by eapply Hta.
Qed.

Lemma upsert_each_mirrors app dataset now trust prov items part_items part w w' part' :
  mirrors w → ready app dataset items w → (∀ it, it ∈ part_items → it ∈ items) →
  upsert_each app dataset now trust (Some prov) part_items
    (map (λ it, fingerprint DerivedPaths_NONE it.2) part_items) part w = Ok (w', part') →
  mirrors w' ∧ ready app dataset items w'.
Proof.
  revert part w. induction part_items as [|it part_items IH]; intros part w Hm Hr Hin; cbn.
  { by intros [= <- <-]. }
  destruct (upsert_one _ _ _ _ _ it _ w) as [[w1 kind]|e] eqn:Hu; [|done]. cbn. intros He.
  assert (it ∈ items) as Hit by (apply Hin; by left).
  eapply IH; [| |intros; apply Hin; by right|exact He].
  - eapply upsert_one_mirrors; [done|apply Hr|exact Hit|exact Hu].
  - eapply upsert_one_ready; [done|exact Hit|exact Hu].
Qed.

Lemma commit_chunks_mirrors {A} (I : Data.t → Prop) tx clock n (cs : list (list A)) summary w :
  I w → (∀ now c w w' part, c ∈ cs → I w → tx now c w = Ok (w', part) → I w') →
  I (commit_chunks tx clock n cs summary w).1.
Proof.
  revert n summary w. induction cs as [|c cs IH]; intros n summary w Hw Htx; cbn; [done|].
  destruct (tx (clock n) c w) as [[w' part]|e] eqn:E; [|done].
  apply IH; [eapply Htx; [by left|exact Hw|exact E]|]. intros; eapply Htx; [by right|done..].
Qed.

Lemma chunk_of {A} n (l : list A) c x : (0 < n)%nat → c ∈ chunks n l → x ∈ c → x ∈ l.
Proof.
  intros Hn Hc Hx. rewrite <- (concat_chunks n l Hn).
  apply list_elem_of_In, in_concat. exists c. by rewrite <- !list_elem_of_In.
Qed.

Lemma batch_mirrors app dataset items clock trust prov w :
  mirrors w → told_apart app dataset items (Data.records w) →
  mirrors (upsert_many_inner app dataset items clock trust (Some prov) DerivedPaths_NONE w).1.
Proof.
  intros Hm Hta. unfold upsert_many_inner, fingerprint_batch. rewrite zip_map_r, chunks_map.
  eapply (commit_chunks_mirrors (λ w, mirrors w ∧ ready app dataset items w)).
  { split; [done|]. split; [apply Hm|done]. }
  intros now c w0 w' part Hc [Hm0 Hr] He.
  apply list_elem_of_fmap in Hc as (c0 & -> & Hc). rewrite !map_map in He. cbn [fst snd] in He.
  rewrite map_id, upsert_chunk_each in He by apply Hr.
  eapply upsert_each_mirrors; [done|done| |exact He].
  intros it Hit. eapply chunk_of; [|exact Hc|exact Hit]. unfold UPSERT_CHUNK. lia.
Qed.

Lemma stamped_mirrors app dataset items rows now trust part w w' part' :
  mirrors w ∧ ready app dataset items w →
  (∀ row, row ∈ rows → row.1 ∈ items) →
  stamped_rows app dataset rows now trust part w = Ok (w', part') →
  mirrors w' ∧ ready app dataset items w'.
Proof.
  revert part w. induction rows as [|[[key value] prov] rows IH]; intros part w [Hm Hr] Hin; cbn.
  { by intros [= <- <-]. }
  assert ((key, value) ∈ items) as Hit by (apply (Hin (key, value, prov)); by left).
  pose proof (upsert_in_tx_one app dataset trust prov items now (key, value) w Hr Hit) as Hone.
  cbn [fst snd] in Hone. rewrite Hone.
  destruct (upsert_one _ _ _ _ _ _ _ w) as [[w1 kind]|e] eqn:Hu; [|done]. cbn. intros He.
  eapply IH; [split|intros; apply Hin; by right|exact He].
  - eapply upsert_one_mirrors; [done|apply Hr|exact Hit|exact Hu].
  - eapply upsert_one_ready; [done|exact Hit|exact Hu].
Qed.

Lemma row_stamped_mirrors app dataset rows clock trust w :
  mirrors w → told_apart app dataset (map fst rows) (Data.records w) →
  mirrors (upsert_many_row_stamped app dataset rows clock trust w).1.
Proof.
  intros Hm Hta. unfold upsert_many_row_stamped.
  eapply (commit_chunks_mirrors (λ w, mirrors w ∧ ready app dataset (map fst rows) w)).
  { split; [done|]. split; [apply Hm|done]. }
  intros now c w0 w' part Hc Hr He. eapply stamped_mirrors; [exact Hr| |exact He].
  intros row Hrow. apply list_elem_of_fmap_2. eapply chunk_of; [|exact Hc|exact Hrow].
  unfold UPSERT_CHUNK. lia.
Qed.

Lemma upsert_mirrors app dataset key value now trust prov w :
  mirrors w → told_apart app dataset [(key, value)] (Data.records w) →
  mirrors (upsert_stamped app dataset key value now trust (Some prov) w).1.
Proof.
  intros Hm Hta. unfold upsert_stamped.
  pose proof (upsert_in_tx_one app dataset trust prov [(key, value)] now (key, value) w) as Hone.
  cbn [fst snd] in Hone. rewrite Hone; [|split; [apply Hm|done]|by left].
  destruct (upsert_one _ _ _ _ _ _ _ w) as [[w' kind]|e] eqn:Hu; [|done].
  eapply (upsert_one_mirrors [(key, value)]); [done|done|by left|exact Hu].
Qed.
End upserts.

(** *** Removals *)

Lemma remove_lands app dataset key now w :
  ∃ row, remove_in_tx app dataset key now w
         = Ok (Data.mk (update_where (record_at app dataset key)
                          (λ r, r <| RecordRow.removed_at := Some now |>) (Data.records w))
                 (Data.revisions w ++ [row]))
    ∧ revision_id row = (app, dataset, key)
    ∧ RevisionRow.revision row = default 0 (max_revision app dataset key (Data.revisions w)) + 1
    ∧ RevisionRow.change row = "removed"%string ∧ RevisionRow.data row = None
    ∧ RevisionRow.created_at row = now.
Proof.
  unfold remove_in_tx.
  destruct (add_revision_lands app dataset key "removed" None None now None None (Data.revisions w))
    as (row & -> & Hid & Hrev & _ & Hc & Hd & Hn & _). exists row. by split_and!.
Qed.

Lemma remove_mirrors app dataset key now w w' :
  mirrors w → is_some (record_lookup app dataset key (Data.records w)) = true →
  remove_in_tx app dataset key now w = Ok w' → mirrors w'.
Proof.
  intros Hm Hrow He. destruct (remove_lands app dataset key now w) as (row & Hr & Hid & Hrev & Hc & Hd & _).
  rewrite Hr in He. injection He as <-. set (id := (app, dataset, key)) in *.
  eapply (local_mirrors id); [done| | |].
  - intros id' Hne. cbn [Data.records Data.revisions].
    rewrite (row_at_update id) by done. rewrite history_snoc, !decide_False, app_nil_r by congruence.
    split; [|done]. by destruct (row_at id' _).
  - apply update_one_per_key; [done|apply Hm].
  - cbn [Data.records Data.revisions]. rewrite (row_at_update id id), decide_True by done.
    change (record_lookup app dataset key) with (record_lookup id.1.1 id.1.2 id.2) in Hrow.
    destruct (row_at id (Data.records w)) as [r|] eqn:Er; [|done]. cbn [fmap option_fmap option_map].
    eapply mirrored_append; [apply (proj2 Hm id)|done|exact Hrev|].
    unfold tells. by rewrite Hc.
Qed.

Definition tombstone (now : timestamp) (r : RecordRow.t) : RecordRow.t :=
  r <| RecordRow.removed_at := Some now |>.
(** The revision one removal appends. *)
Definition removal (app dataset : string) (now : timestamp) (key : string) (row : RevisionRow.t) :
    Prop :=
  revision_id row = (app, dataset, key) ∧ RevisionRow.change row = "removed"%string
  ∧ RevisionRow.data row = None ∧ RevisionRow.created_at row = now.

Lemma tombstone_update app dataset key keys now t :
  update_where (λ r, record_in app dataset r && in_list keys (RecordRow.key r)) (tombstone now)
    (update_where (record_at app dataset key) (tombstone now) t)
  = update_where (λ r, record_in app dataset r && in_list (key :: keys) (RecordRow.key r))
      (tombstone now) t.
Proof.
  unfold update_where. rewrite map_map. apply map_ext. intros r. unfold record_at, in_list.
  rewrite (bool_decide_ext (RecordRow.key r ∈ key :: keys) _ (elem_of_cons _ _ _)), bool_decide_or.
  destruct (String.eqb_spec (RecordRow.key r) key) as [He|He];
    rewrite ?(bool_decide_true _ He), ?(bool_decide_false _ He), ?andb_true_r, ?andb_false_r; [|done].
  destruct (record_in app dataset r) eqn:E; cbn; [|by rewrite E].
  assert (record_in app dataset (tombstone now r) = true) as -> by done. cbn.
  by case_bool_decide; destruct r.
Qed.

Lemma remove_all_lands app dataset keys now w :
  ∃ rows, remove_all app dataset keys now w
    = Ok (Data.mk (update_where (λ r, record_in app dataset r && in_list keys (RecordRow.key r))
                     (tombstone now) (Data.records w)) (Data.revisions w ++ rows))
    ∧ Forall2 (removal app dataset now) keys rows.
Proof.
  revert w. induction keys as [|key keys IH]; intros w; cbn.
  - exists []. split; [|constructor]. rewrite app_nil_r, update_where_none; [by destruct w|].
    intros r _. unfold in_list. by rewrite andb_false_r.
  - destruct (remove_lands app dataset key now w) as (row & Hr & Hid & _ & Hc & Hd & Hn).
    rewrite Hr. cbn. edestruct IH as (rows & He & HF). exists (row :: rows). split.
    + rewrite He. cbn [Data.records Data.revisions]. rewrite <- app_assoc. do 2 f_equal.
      apply tombstone_update.
    + constructor; [by split_and!|done].
Qed.

Lemma remove_all_app app dataset keys keys' now w :
  remove_all app dataset (keys ++ keys') now w
  = (w ← remove_all app dataset keys now w; remove_all app dataset keys' now w).
Proof.
  revert w. induction keys as [|key keys IH]; intros w; cbn; [done|].
  destruct (remove_in_tx app dataset key now w); cbn; [apply IH|done].
Qed.

Lemma commit_removals_all app dataset cs now w w' :
  remove_all app dataset (concat cs) now w = Ok w' → commit_removals app dataset cs now w = (w', None).
Proof.
  revert w. induction cs as [|c cs IH]; intros w; cbn; [by intros [= ->]|].
  rewrite remove_all_app. destruct (remove_all app dataset c now w); cbn; [apply IH|done].
Qed.

(** Tombstoning never fails: all the keys, one revision each, in the order given. *)
Lemma apply_tombstones_lands app dataset keys now w :
  ∃ rows, apply_tombstones app dataset keys now w
    = (Data.mk (update_where (λ r, record_in app dataset r && in_list keys (RecordRow.key r))
                  (tombstone now) (Data.records w)) (Data.revisions w ++ rows), Ok keys)
    ∧ Forall2 (removal app dataset now) keys rows
    ∧ remove_all app dataset keys now w = Ok (apply_tombstones app dataset keys now w).1.
Proof.
  destruct (remove_all_lands app dataset keys now w) as (rows & He & HF). exists rows.
  assert (apply_tombstones app dataset keys now w
    = (Data.mk (update_where (λ r, record_in app dataset r && in_list keys (RecordRow.key r))
                  (tombstone now) (Data.records w)) (Data.revisions w ++ rows), Ok keys)) as Ha.
  { unfold apply_tombstones. destruct keys as [|key keys].
    - cbn in He. injection He as He. by rewrite <- He.
    - rewrite (commit_removals_all _ _ _ _ _ _
        (eq_trans (f_equal (λ l, remove_all _ _ l _ _) (concat_chunks UPSERT_CHUNK _ ltac:(unfold UPSERT_CHUNK; lia))) He)).
      done. }
  rewrite Ha. by split_and!.
Qed.

Lemma remove_all_mirrors app dataset keys now w w' :
  mirrors w → (∀ k, k ∈ keys → is_some (record_lookup app dataset k (Data.records w)) = true) →
  remove_all app dataset keys now w = Ok w' → mirrors w'.
Proof.
  revert w. induction keys as [|key keys IH]; intros w Hm Hk; cbn; [by intros [= <-]|].
  destruct (remove_in_tx app dataset key now w) as [w1|] eqn:E; cbn; [|done]. apply IH.
  - eapply remove_mirrors; [done| |exact E]. apply Hk. by left.
  - intros k Hin. specialize (Hk k ltac:(by right)).
    destruct (remove_lands app dataset key now w) as (row & Hr & _). rewrite Hr in E.
    injection E as <-. cbn [Data.records].
    change (record_lookup app dataset k) with (record_lookup (app, dataset, k).1.1 (app, dataset, k).1.2 (app, dataset, k).2).
    rewrite (row_at_update (app, dataset, key)) by done. cbn in *.
    by destruct (record_lookup app dataset k (Data.records w)).
Qed.

Lemma tombstones_mirror app dataset keys now w :
  mirrors w → (∀ k, k ∈ keys → is_some (record_lookup app dataset k (Data.records w)) = true) →
  mirrors (apply_tombstones app dataset keys now w).1.
Proof.
  intros Hm Hk. destruct (apply_tombstones_lands app dataset keys now w) as (rows & _ & _ & He).
  by eapply remove_all_mirrors.
Qed.

Lemma live_row app dataset k t :
  k ∈ map RecordRow.key (select_where (live_in app dataset) t) →
  is_some (record_lookup app dataset k t) = true.
Proof.
  intros Hin. apply list_elem_of_fmap in Hin as (r & -> & Hr). apply elem_of_select in Hr as [Hr Hl].
  unfold live_in in Hl. apply andb_true_iff in Hl as [Hin _]. rewrite <- lookup_existsb.
  apply List.existsb_exists. exists r. rewrite <- list_elem_of_In. split; [done|].
  unfold record_at. by rewrite Hin, String.eqb_refl.
Qed.

Lemma detect_mirrors app dataset present guard now w :
  mirrors w → mirrors (detect_removed app dataset present guard now w).1.
Proof.
  intros Hm. unfold detect_removed. destruct present as [|p present]; [done|].
  apply tombstones_mirror; [done|]. intros k [Hk _]%elem_of_filter_bool. by apply live_row.
Qed.

Lemma tombstone_keys_mirror app dataset keys now w :
  mirrors w → mirrors (tombstone_keys app dataset keys now w).1.
Proof.
  intros Hm. unfold tombstone_keys. destruct keys as [|key keys]; [done|].
  apply tombstones_mirror; [done|]. intros k [_ Hk]%elem_of_filter_bool.
  unfold in_list in Hk. apply bool_decide_eq_true in Hk.
  apply list_elem_of_In, in_flat_map in Hk as (slice & _ & Hk). apply list_elem_of_In in Hk.
  unfold live_slice in Hk. apply list_elem_of_fmap in Hk as (r & -> & Hr).
  apply elem_of_select in Hr as [Hr [Hl _]%andb_true_iff]. apply live_row.
  apply list_elem_of_fmap_2, elem_of_select. done.
Qed.

(** *** Deletes, retention, re-index *)

Lemma record_in_id app dataset r :
  record_in app dataset r = bool_decide ((RecordRow.app r, RecordRow.dataset r) = (app, dataset)).
Proof.
  unfold record_in. destruct (String.eqb_spec (RecordRow.app r) app),
    (String.eqb_spec (RecordRow.dataset r) dataset); cbn; symmetry;
    (apply bool_decide_true; congruence) || (apply bool_decide_false; congruence).
Qed.
Lemma revision_in_id app dataset r :
  revision_in app dataset r
  = bool_decide ((RevisionRow.app r, RevisionRow.dataset r) = (app, dataset)).
Proof.
  unfold revision_in. destruct (String.eqb_spec (RevisionRow.app r) app),
    (String.eqb_spec (RevisionRow.dataset r) dataset); cbn; symmetry;
    (apply bool_decide_true; congruence) || (apply bool_decide_false; congruence).
Qed.

(** Deleting the rows and the histories of the same ids. *)
Lemma delete_mirrors (gone : string * string * string → bool) p q w :
  (∀ r, p r = gone (record_id r)) → (∀ r, q r = gone (revision_id r)) →
  mirrors w → mirrors (Data.mk (delete_where p (Data.records w)) (delete_where q (Data.revisions w))).
Proof.
  intros Hp Hq [H1 Hm]. split; [by apply delete_one_per_key|]. intros id. cbn [Data.records Data.revisions].
  destruct (gone id) eqn:E.
  - rewrite row_at_deleted, history_deleted by (intros r He; by rewrite ?Hp, ?Hq, He).
    split; [constructor|done].
  - rewrite row_at_delete, history_delete by (intros r He; by rewrite ?Hp, ?Hq, He). apply Hm.
Qed.

Lemma delete_record_mirrors app dataset key w :
  mirrors w → mirrors (delete_record app dataset key w).1.
Proof.
  apply (delete_mirrors (λ id, bool_decide (id = (app, dataset, key)))).
  - intros r. exact (at_id_spec (app, dataset, key) r).
  - intros r. exact (of_id_spec (app, dataset, key) r).
Qed.

Lemma delete_dataset_mirrors app dataset mode now w :
  mirrors w → mirrors (delete_dataset_mode app dataset mode now w).1.
Proof.
  intros Hm. unfold delete_dataset_mode, delete_body. destruct mode as [|expect]; [done|].
  destruct (match expect with Some _ => _ | None => _ end); [done|]. cbn [wrote fst].
  apply (delete_mirrors (λ id, bool_decide (id.1 = (app, dataset)))); [..|done].
  - intros r. apply record_in_id.
  - intros r. apply revision_in_id.
Qed.

Lemma history_delete_comm id p revs :
  history_of id (delete_where p revs) = delete_where p (history_of id revs).
Proof.
  unfold select_where, delete_where. induction revs as [|r revs IH]; cbn; [done|].
  destruct (p r) eqn:Ep; cbn; destruct (of_id id r); cbn; rewrite ?Ep; cbn; by rewrite ?IH.
Qed.

Lemma numbered_delete p history : numbered history → numbered (delete_where p history).
Proof.
  unfold delete_where. induction 1 as [|x history Hs IH Hall]; cbn; [constructor|].
  destruct (p x); cbn; [done|]. constructor; [done|]. rewrite Forall_forall in *.
  intros y [Hy _]%elem_of_filter_bool. by apply Hall.
Qed.

Lemma last_delete {A} (p : A → bool) l x :
  last l = Some x → p x = false → last (delete_where p l) = Some x.
Proof.
  intros Hl Hp. apply last_Some in Hl as [l' ->]. unfold delete_where.
  rewrite List.filter_app. cbn. rewrite Hp. cbn. apply last_snoc.
Qed.

Lemma numbered_last history l :
  numbered history → last history = Some l →
  select_where (λ n, RevisionRow.revision l <=? RevisionRow.revision n) history = [l].
Proof.
  intros Hn Hl. apply last_Some in Hl as [history' ->]. unfold select_where.
  rewrite List.filter_app. cbn. rewrite Z.leb_refl.
  assert (List.filter (λ n, RevisionRow.revision l <=? RevisionRow.revision n) history' = []) as ->; [|done].
  induction history' as [|x history' IH]; cbn in *; [done|].
  inversion Hn as [|?? Hn' Hall]; subst. rewrite IH by done.
  rewrite Forall_forall in Hall. specialize (Hall l ltac:(rewrite elem_of_app; right; by left)).
  by rewrite (proj2 (Z.leb_gt _ _)).
Qed.

(** How many revisions of the key are as new as [r]. *)
Definition as_new (revs : list RevisionRow.t) (r : RevisionRow.t) : Z :=
  rows_affected (λ n, RevisionRow.revision r <=? RevisionRow.revision n)
    (history_of (revision_id r) revs).

Lemma prunable_as_new older keep revs r :
  prunable_revision older keep revs r
  = (RevisionRow.created_at r <? older) && (keep <? as_new revs r).
Proof.
  unfold prunable_revision, as_new, rows_affected, select_where. cbn [revision_id fst snd].
  do 4 f_equal. induction revs as [|n revs IH]; cbn; [done|].
  destruct (revision_at _ _ _ n); cbn; [|done]. by destruct (_ <=? _); rewrite IH.
Qed.

Lemma prune_mirrors older keep w :
  1 ≤ keep → mirrors w → mirrors (prune_revisions older keep w).1.
Proof.
  intros Hkeep [H1 Hm]. split; [done|]. intros id. destruct (Hm id) as [Hn Hrow].
  unfold prune_revisions. cbn [fst upd Data.records Data.revisions]. cbn. split.
  - rewrite history_delete_comm. by apply numbered_delete.
  - rewrite history_delete_comm.
    destruct (row_at id (Data.records w)) as [r|]; [|by rewrite Hrow].
    destruct Hrow as (l & Hl & Ht). exists l. split; [|done]. apply last_delete; [done|].
    assert (revision_id l = id) as Hid.
    { apply last_Some in Hl as [h Hh]. assert (l ∈ history_of id (Data.revisions w)) as Hin.
      { rewrite Hh, elem_of_app. right. by left. }
      apply elem_of_select in Hin as [_ Hin]. rewrite of_id_spec in Hin.
      by apply bool_decide_eq_true in Hin. }
    rewrite prunable_as_new. unfold as_new, rows_affected. rewrite Hid, (numbered_last _ l) by done.
    apply andb_false_iff. right. cbn. apply Z.ltb_ge. lia.
Qed.

Section reindexing.
Context `{JsonRender, JsonParse, UnicodeAlphanumeric, Unicode}.

Lemma reindex_rows rows acc :
  (∀ app dataset, one_per_key app dataset acc.1) →
  (∀ app dataset, one_per_key app dataset (foldl reindex_row acc rows).1)
  ∧ ∀ id, ∃ sim, row_at id (foldl reindex_row acc rows).1
      = (λ r, r <| RecordRow.simhash := default (RecordRow.simhash r) sim |>) <$> row_at id acc.1.
Proof.
  revert acc. induction rows as [|r rows IH]; intros acc H1'; cbn.
  { split; [done|]. intros id. exists None. destruct (row_at id acc.1) as [[]|]; done. }
  unfold reindex_row at 2 4. destruct (_ =? _); [by apply IH|]. set (f := λ r' : RecordRow.t, _).
  destruct (IH (update_where (record_at (RecordRow.app r) (RecordRow.dataset r) (RecordRow.key r)) f
                  acc.1, acc.2 + 1)) as [Hone Hrow].
  { by apply update_one_per_key. }
  split; [done|]. intros id. destruct (Hrow id) as [sim ->]. cbn [fst].
  rewrite (row_at_update (record_id r)) by done. destruct (decide _).
  - destruct (row_at id acc.1) as [r0|]; [|by exists None].
    exists (Some (default (fresh_simhash r) sim)). by destruct r0, sim.
  - exists sim. by destruct (row_at id acc.1).
Qed.

Lemma reindex_mirrors w : mirrors w → mirrors (reindex_simhashes w).1.
Proof.
  intros [H1' Hm]. unfold reindex_simhashes.
  destruct (reindex_rows (Data.records w) (Data.records w, 0) H1') as [Hone Hrow].
  destruct (foldl reindex_row _ _) as [recs changed]. split; [done|]. intros id.
  destruct (Hrow id) as [sim Hs]. cbn in Hs |- *. rewrite Hs.
  destruct (Hm id) as [Hn Hl]. split; [done|].
  destruct (record_lookup _ _ _ (Data.records w)) as [r|]; [|done]. exact Hl.
Qed.
End reindexing.

(** *** The keys detection names *)

Lemma live_keys app dataset t k :
  k ∈ map RecordRow.key (select_where (live_in app dataset) t) ↔
  ∃ r, r ∈ t ∧ record_at app dataset k r = true ∧ RecordRow.live r = true.
Proof.
  rewrite list_elem_of_fmap. unfold live_in, record_at. split.
  - intros (r & -> & [Hr [Hi Hl]%andb_true_iff]%elem_of_select). exists r.
    by rewrite Hi, String.eqb_refl.
  - intros (r & Hr & [Hi Hk]%andb_true_iff & Hl). apply String.eqb_eq in Hk. exists r.
    split; [done|]. apply elem_of_select. by rewrite Hi, Hl.
Qed.

Lemma NoDup_live app dataset (p : string → bool) t :
  one_per_key app dataset t →
  NoDup (List.filter p (map RecordRow.key (select_where (live_in app dataset) t))).
Proof.
  intros H1. induction t as [|r t IH]; cbn; [constructor|].
  assert (one_per_key app dataset t) as H1'.
  { intros k. specialize (H1 k). unfold select_where in *. cbn in H1.
    destruct (record_at app dataset k r); cbn in H1; lia. }
  specialize (IH H1'). destruct (live_in app dataset r) eqn:El; cbn; [|done].
  destruct (p (RecordRow.key r)) eqn:Ep; [|done]. constructor; [|done].
  intros [Hin _]%elem_of_filter_bool. apply live_keys in Hin as (r' & Hr' & Hat & _).
  specialize (H1 (RecordRow.key r)). cbn in H1. unfold live_in in El.
  apply andb_true_iff in El as [Hi _].
  assert (record_at app dataset (RecordRow.key r) r = true) as Hr.
  { unfold record_at. by rewrite Hi, String.eqb_refl. }
  rewrite Hr in H1. cbn in H1.
  assert (r' ∈ select_where (record_at app dataset (RecordRow.key r)) t) as Hs by by apply elem_of_select.
  unfold select_where in *. destruct (List.filter _ t); [by apply not_elem_of_nil in Hs|cbn in H1; lia].
Qed.

(** ** Every door of the store *)

Section doors.
Context `{JsonRender, JsonParse, JsonEq, Sha256, UnicodeAlphanumeric, Unicode}.

(** One call of one writer; retention keeps at least one revision per key. *)
Inductive data_step : Data.t → Data.t → Prop :=
| step_upsert app dataset key value now trust prov w :
    told_apart app dataset [(key, value)] (Data.records w) →
    data_step w (upsert_stamped app dataset key value now trust (Some prov) w).1
| step_batch app dataset items clock trust prov w :
    told_apart app dataset items (Data.records w) →
    data_step w (upsert_many_inner app dataset items clock trust (Some prov) DerivedPaths_NONE w).1
| step_row_stamped app dataset rows clock trust w :
    told_apart app dataset (map fst rows) (Data.records w) →
    data_step w (upsert_many_row_stamped app dataset rows clock trust w).1
| step_detect app dataset present guard now w :
    data_step w (detect_removed app dataset present guard now w).1
| step_tombstone app dataset keys now w :
    data_step w (tombstone_keys app dataset keys now w).1
| step_delete_record app dataset key w : data_step w (delete_record app dataset key w).1
| step_delete_dataset app dataset mode now w :
    data_step w (delete_dataset_mode app dataset mode now w).1
| step_prune older keep w : 1 ≤ keep → data_step w (prune_revisions older keep w).1
| step_reindex w : data_step w (reindex_simhashes w).1.

Lemma data_step_mirrors w w' : mirrors w → data_step w w' → mirrors w'.
Proof.
  intros Hm. destruct 1.
  - by apply upsert_mirrors.
  - by apply batch_mirrors.
  - by apply row_stamped_mirrors.
  - by apply detect_mirrors.
  - by apply tombstone_keys_mirror.
  - by apply delete_record_mirrors.
  - by apply delete_dataset_mirrors.
  - by apply prune_mirrors.
  - by apply reindex_mirrors.
Qed.

Lemma reachable_mirrors w : rtc data_step (Data.mk [] []) w → mirrors w.
Proof.
  assert (∀ a b, rtc data_step a b → mirrors a → mirrors b) as Hrtc.
  { induction 1; [done|]. intros Hm. eauto using data_step_mirrors. }
  intros Hr. eapply Hrtc; [exact Hr|]. split.
  - intros app dataset key. cbn. lia.
  - intros id. split; [constructor|done].
Qed.

(** A record's last revision tells its state. *)
Lemma reachable_tells w app dataset key r :
  rtc data_step (Data.mk [] []) w → r ∈ Data.records w → record_at app dataset key r = true →
  ∃ l, last (select_where (revision_at app dataset key) (Data.revisions w)) = Some l
    ∧ is_some (RecordRow.removed_at r) = String.eqb (RevisionRow.change l) "removed"
    ∧ (RecordRow.live r = true → RevisionRow.data l = Some (RecordRow.data r)).
Proof.
  intros Hreach Hin Hat. destruct (reachable_mirrors w Hreach) as [Hone Hm].
  destruct (Hm (app, dataset, key)) as [_ Hrow]. specialize (Hone app dataset key). cbn [fst snd] in *.
  assert (record_lookup app dataset key (Data.records w) = Some r) as Hr.
  { unfold record_lookup. assert (r ∈ select_where (record_at app dataset key) (Data.records w)) as Hs
      by by apply elem_of_select.
    destruct (select_where _ (Data.records w)) as [|x [|y l]]; [by apply not_elem_of_nil in Hs| |cbn in Hone; lia].
    by apply list_elem_of_singleton in Hs as ->. }
  rewrite Hr in Hrow. exact Hrow.
Qed.


(** ** Removal detection *)

(** Removal detection tombstones exactly the live keys a trusted, non-empty snapshot
    leaves out: it returns them, stamps their rows and appends one [removed] revision for
    each, in that order, and touches nothing else; a run whose source is degrading only
    upserts. *)
Theorem removals_are_exact app job_id dataset present guard now w items prov state state' clock
    (Hone : one_per_key app dataset (Data.records w)) :
  let '(w', removed) := detect_removed app dataset present guard now w in
  (∃ keys rows, removed = Ok keys
     ∧ NoDup keys
     ∧ (∀ k, k ∈ keys ↔ present ≠ [] ∧ k ∉ present
          ∧ ∃ r, r ∈ Data.records w ∧ record_at app dataset k r = true ∧ RecordRow.live r = true)
     ∧ Data.records w'
       = map (λ r, if record_in app dataset r && in_list keys (RecordRow.key r)
                   then tombstone now r else r) (Data.records w)
     ∧ Data.revisions w' = Data.revisions w ++ rows
     ∧ Forall2 (removal app dataset now) keys rows)
  ∧ (SourceState.suppresses_removals state' = true →
     sync_many_with_provenance app job_id dataset items prov state state' clock now w
     = upsert_many_with_provenance app job_id dataset items prov state clock w).
Proof.
  destruct (detect_removed app dataset present guard now w) as [w' removed] eqn:E. split.
  2: { intros Hs. unfold sync_many_with_provenance, for_source_state. rewrite Hs.
       by destruct (upsert_many_with_provenance _ _ _ _ _ _ _ _) as [? []]. }
  assert (∃ keys, NoDup keys ∧ (∀ k, k ∈ keys ↔ present ≠ [] ∧ k ∉ present
      ∧ ∃ r, r ∈ Data.records w ∧ record_at app dataset k r = true ∧ RecordRow.live r = true)
    ∧ (w', removed) = apply_tombstones app dataset keys now w) as (keys & Hnd & Hkeys & He).
  { unfold detect_removed in E. destruct present as [|p present].
    - exists []. split_and!; [constructor|set_solver|by rewrite <- E].
    - eexists. split_and!; [| |by rewrite <- E].
      + apply NoDup_live. done.
      + intros k. rewrite elem_of_filter_bool. unfold in_list. rewrite negb_true_iff, bool_decide_eq_false.
        rewrite live_keys. naive_solver. }
  destruct (apply_tombstones_lands app dataset keys now w) as (rows & Ha & HF & _).
  rewrite Ha in He. injection He as -> ->. exists keys, rows. by split_and!.
Qed.
End doors.

(** ** A concrete history *)

Module DatasetDemo.
#[local] Existing Instances BatchDemo.render BatchDemo.parse BatchDemo.eqb BatchDemo.sha
  BatchDemo.alnum BatchDemo.lower.

Definition one_upsert : Data.t :=
  (upsert_stamped "app" "ds" "k" (JString "one") 10 None (Some Provenance.empty)
     (Data.mk [] [])).1.
Definition removed : Data.t := (tombstone_keys "app" "ds" ["k"; "gone"]%string 20 one_upsert).1.


Lemma removals_are_exact_witness :
  (detect_removed "app" "ds" ["other"]%string Sealed 30 one_upsert).2 = Ok ["k"%string].
Proof.
  pose proof (removals_are_exact "app" "job" "ds" ["other"]%string Sealed 30 one_upsert []
                Provenance.empty Healthy Degraded (λ _, 0)) as H.
  assert (one_per_key "app" "ds" (Data.records one_upsert)) as Hone.
  { intros k. vm_compute. destruct k as [|[[] [] [] [] [] [] [] []] [|]]; lia. }
  specialize (H Hone). clear Hone. revert H.
  destruct (detect_removed "app" "ds" ["other"]%string Sealed 30 one_upsert) as [w' res] eqn:E.
  intros [(keys & rows & -> & Hnd & Hkeys & _) _]. vm_compute in E. injection E as _ <-. done.
Defined.
End DatasetDemo.
