(* ===== verification/FeedTheorems.v ===== *)
(** * FeedTheorems: reading, retaining and deleting the history

    The forward drain of the change feed and the order it needs, what retention and the
    guarded delete may remove, the near-duplicate pairs, the trust of derived rows, and the
    two evaluators of one filter grammar. *)

From stdpp Require Import gmap.
From S2P Require Import Prelude Sql Float64 Json SourceHealth Filters Simhash Records.
From S2P Require Import ChangePlan Datasets BatchTheorems DatasetTheorems.

(** ** The forward drain *)

Lemma order_by_id {A} (le : A → A → bool) l :
  StronglySorted (λ a b, le a b = true) l → order_by le l = l.
Proof.
  unfold order_by. induction 1 as [|x l Hs IH Hall]; cbn; [done|]. rewrite IH.
  destruct l as [|y l]; cbn; [done|]. apply Forall_cons in Hall as [-> _]. done.
Qed.

Lemma before_spec a b : before a b = true ↔ a.1 < b.1 ∨ a.1 = b.1 ∧ a.2 < b.2.
Proof.
  unfold before. rewrite orb_true_iff, andb_true_iff, !Z.ltb_lt, Z.eqb_eq. done.
Qed.
Lemma before_irrefl a : before a a = false.
Proof. apply not_true_is_false. rewrite before_spec. lia. Qed.
Lemma before_trans a b c : before a b = true → before b c = true → before a c = true.
Proof. rewrite !before_spec. lia. Qed.
Lemma before_not_after a b : before a b = true → not_after a b = true.
Proof.
  unfold not_after. rewrite negb_true_iff. intros H. apply not_true_is_false.
  rewrite before_spec in H. rewrite before_spec. lia.
Qed.

Section drain.
Context `{JsonParse} (app : string) (dataset : option string) (since : option timestamp)
        (trust : option string) (limit : Z) (Hlimit : 0 < limit).
Implicit Types (w : Data.t).

(** Every stamp is later than those committed before it. *)
Abbreviation in_order := (StronglySorted (λ a b, before (feed_key a) (feed_key b) = true)).

Definition feed w : list RevisionRow.t :=
  select_where (in_feed app dataset since trust) (Data.revisions w).

(** One poll per store, each from the position of the last page that carried one. *)
Fixpoint drain_polls (ws : list Data.t) (after : option (timestamp * Z)) : list (list Revision.t) :=
  match ws with
  | [] => []
  | w :: ws =>
      let '(items, next_cursor) :=
        changes_page_ordered app dataset since after limit trust Asc w in
      items :: drain_polls ws (match next_cursor with Some c => Some c | None => after end)
  end.

(** Writers only append. *)
Inductive appended : list Data.t → Prop :=
| appended_one w : appended [w]
| appended_cons w w' ws :
    Data.revisions w `prefix_of` Data.revisions w' → appended (w' :: ws) →
    appended (w :: w' :: ws).

Lemma in_order_filter (p : RevisionRow.t → bool) l : in_order l → in_order (List.filter p l).
Proof.
  induction 1 as [|x l Hs IH Hall]; cbn; [constructor|]. destruct (p x); [|done].
  constructor; [done|]. rewrite Forall_forall in *. intros y [Hy _]%elem_of_filter_bool. by apply Hall.
Qed.

Lemma in_order_app l l' :
  in_order (l ++ l') ↔ in_order l ∧ in_order l' ∧
    ∀ x y, x ∈ l → y ∈ l' → before (feed_key x) (feed_key y) = true.
Proof.
  induction l as [|x l IH]; cbn.
  - split; [intros Ho; split_and!; [constructor|done|by intros ?? ?%not_elem_of_nil]|tauto].
  - split.
    + inversion 1 as [|?? Ho Hall]; subst. apply IH in Ho as (Hl & Hl' & Hx).
      apply Forall_app in Hall as [Ha Hb]. split_and!; [by constructor|done|].
      intros a b [->|Ha']%elem_of_cons Hb'; [|by apply Hx]. rewrite Forall_forall in Hb. by apply Hb.
    + intros (Hl & Hl' & Hx). inversion Hl as [|?? Ho Hall]; subst. constructor.
      * apply IH. split_and!; [done..|]. intros a b Ha Hb. apply Hx; [by right|done].
      * apply Forall_app. split; [done|]. apply Forall_forall. intros b Hb. apply Hx; [by left|done].
Qed.

(** A page from the last drained position is the next stretch of the feed. *)
Lemma page_next w done_ rest :
  in_order (Data.revisions w) → feed w = done_ ++ rest →
  feed_rows app dataset since (feed_key <$> last done_) limit trust Asc w
  = take (Z.to_nat limit) rest.
Proof.
  intros Ho Hf. unfold feed_rows, sql_limit. rewrite (proj2 (Z.ltb_ge limit 0)) by lia. f_equal.
  assert (in_order (feed w)) as Hof by by apply in_order_filter.
  assert (select_where (λ r, in_feed app dataset since trust r
            && keyset_predicate Asc (feed_key <$> last done_) r) (Data.revisions w) = rest) as ->.
  { transitivity (List.filter (keyset_predicate Asc (feed_key <$> last done_)) (feed w)).
    - unfold feed, select_where. clear. induction (Data.revisions w) as [|r l IH]; cbn; [done|].
      destruct (in_feed app dataset since trust r); cbn; [|done].
      destruct (keyset_predicate Asc _ r); by rewrite IH.
    - rewrite Hf in Hof |- *. apply in_order_app in Hof as (Hd & Hr & Hdr).
      rewrite List.filter_app. rewrite <- (app_nil_l rest) at 2. f_equal.
      + destruct (last done_) as [l|] eqn:El; [|by apply last_None in El as ->].
        apply last_Some in El as [d ->]. apply in_order_app in Hd as (_ & _ & Hdl).
        rewrite List.filter_app. cbn. rewrite before_irrefl. rewrite app_nil_r.
        apply (select_where_none (λ r, before (feed_key l) (feed_key r))). intros r Hin.
        specialize (Hdl r l Hin ltac:(by left)). apply not_true_is_false. intros Hb.
        pose proof (before_trans _ _ _ Hb Hdl) as Hc. by rewrite before_irrefl in Hc.
      + destruct (last done_) as [l|] eqn:El; cbn.
        * apply last_Some in El as [d ->].
          apply (select_where_all (λ r, before (feed_key l) (feed_key r))). intros r Hin.
          apply Hdr; [rewrite elem_of_app; right; by left|done].
        * apply (select_where_all (λ r, true)). done. }
  apply order_by_id. rewrite Hf in Hof. apply in_order_app in Hof as (_ & Hr & _).
  clear -Hr. induction Hr as [|x l Hs IH Hall]; constructor; [done|].
  eapply Forall_impl; [exact Hall|]. intros y Hy. cbn. by apply before_not_after.
Qed.

Lemma feed_prefix w w' :
  Data.revisions w `prefix_of` Data.revisions w' → feed w `prefix_of` feed w'.
Proof.
  intros [l Hl]. unfold feed, select_where. rewrite Hl, List.filter_app. by eexists.
Qed.

Lemma appended_last w ws wl :
  appended (w :: ws) → last (w :: ws) = Some wl → Data.revisions w `prefix_of` Data.revisions wl.
Proof.
  revert w. induction ws as [|w' ws IH]; intros w Ha Hl.
  - injection Hl as ->. done.
  - inversion Ha as [|??? Hp Ha']; subst. etransitivity; [exact Hp|]. by apply IH.
Qed.

Lemma last_take_cons {A} (done_ rest : list A) n after :
  after = last done_ →
  last (done_ ++ take n rest)
  = match last (take n rest) with Some x => Some x | None => after end.
Proof. intros ->. rewrite last_app. by destruct (last (take n rest)). Qed.

Lemma drain_from ws wl done_ :
  appended ws → last ws = Some wl → in_order (Data.revisions wl) →
  (∀ w, head ws = Some w → done_ `prefix_of` feed w) →
  let pages := drain_polls ws (feed_key <$> last done_) in
  map revision_of done_ ++ concat pages `prefix_of` map revision_of (feed wl)
  ∧ ∀ p, last pages = Some p → Z.of_nat (length p) < limit →
      map revision_of done_ ++ concat pages = map revision_of (feed wl).
Proof.
  revert done_. induction ws as [|w ws IH]; intros done_ Ha Hl Ho Hd; [done|].
  pose proof (appended_last _ _ _ Ha Hl) as Hp.
  destruct (Hd w eq_refl) as [rest Hf].
  assert (in_order (Data.revisions w)) as Ho'.
  { destruct Hp as [l Hp]. rewrite Hp in Ho. by apply in_order_app in Ho as [? _]. }
  cbn [drain_polls changes_page_ordered]. unfold changes_page_ordered.
  rewrite (page_next w done_ rest Ho' Hf). set (page := take (Z.to_nat limit) rest).
  assert (match (if mints_cursor Asc (Z.of_nat (length page)) limit then feed_key <$> last page
                 else None) with
          | Some c => Some c | None => feed_key <$> last done_ end
          = feed_key <$> last (done_ ++ page)) as Hcur.
  { rewrite last_app. unfold mints_cursor. destruct page as [|x page'] using rev_ind; [done|].
    rewrite last_snoc, length_app. cbn. rewrite (proj2 (Z.ltb_lt _ _)) by lia. done. }
  rewrite Hcur. cbn [concat].
  destruct ws as [|w' ws].
  - injection Hl as ->. cbn [drain_polls concat last]. rewrite app_nil_r, <- map_app, Hf. split.
    + exists (map revision_of (drop (Z.to_nat limit) rest)). rewrite <- map_app, <- app_assoc.
      unfold page. by rewrite take_drop.
    + intros p [= <-] Hshort. rewrite length_map in Hshort. unfold page in *.
      rewrite take_ge; [done|]. rewrite length_take in Hshort. lia.
  - inversion Ha as [|??? Hpp Ha']; subst.
    destruct (IH (done_ ++ page) Ha' Hl Ho) as [IHp IHs].
    { intros w0 [= <-]. etransitivity; [|by apply feed_prefix]. rewrite Hf.
      exists (drop (Z.to_nat limit) rest). rewrite <- app_assoc. unfold page. by rewrite take_drop. }
    rewrite map_app, <- app_assoc in IHp, IHs. split; [exact IHp|]. intros p Hlast. apply IHs.
    cbn [drain_polls] in Hlast |- *. by destruct (changes_page_ordered _ _ _ _ _ _ _ w') as [items c].
Qed.
End drain.

(** C21: The forward drain applies every revision exactly once: polling a growing feed page by
    page from the last position that carried a cursor yields a prefix of the feed, in order,
    and the whole feed once a poll comes back short - however the writers interleave with the
    polls - provided no writer commits a stamp older than one already committed. *)
Theorem forward_drain_exactly_once `{JsonParse} app dataset since trust limit ws w
    (Hlimit : 0 < limit) (Hgrow : appended ws) (Hlast : last ws = Some w)
    (Horder : StronglySorted (λ a b, before (feed_key a) (feed_key b) = true) (Data.revisions w)) :
  let pages := drain_polls app dataset since trust limit ws None in
  let whole := map revision_of (select_where (in_feed app dataset since trust) (Data.revisions w)) in
  concat pages `prefix_of` whole
  ∧ ∀ page, last pages = Some page → Z.of_nat (length page) < limit → concat pages = whole.
Proof.
  by apply (drain_from app dataset since trust limit Hlimit ws w []); [..|intros; apply prefix_nil].
Qed.

(** A fresh upsert appends one revision, stamped with the clock it was given. *)
Lemma upsert_appends `{JsonRender, JsonParse, JsonEq, Sha256, UnicodeAlphanumeric, Unicode}
    app dataset key value now trust prov w w' kind :
  upsert_stamped app dataset key value now trust prov w = (w', Ok kind) → is_fresh kind = true →
  ∃ row, Data.revisions w' = Data.revisions w ++ [row] ∧ RevisionRow.created_at row = now
    ∧ revision_id row = (app, dataset, key).
Proof.
  unfold upsert_stamped, upsert_in_tx. destruct (head _) as [r|].
  - destruct (_ && _); [by intros [= <- <-]|]. cbn [Data.revisions upd].
    edestruct (add_revision_lands app dataset key "changed") as (row & He & Hid & _ & _ & _ & _ & Hn & _).
    cbn. rewrite He. cbn. intros [= <- <-] _. by exists row.
  - destruct (insert_record _ _) as [recs|]; cbn; [|done].
    edestruct (add_revision_lands app dataset key "new") as (row & He & Hid & _ & _ & _ & _ & Hn & _).
    rewrite He. cbn. intros [= <- <-] _. by exists row.
Qed.

(** The commit order is needed, and [upsert_stamped] does not keep it: it reads its clock
    before it waits for the write lock, and a revision so stamped behind a position a forward
    drain has reached is on no later page, whatever is committed since. *)
Theorem late_commit_is_skipped
    `{JsonRender, JsonParse, JsonEq, Sha256, UnicodeAlphanumeric, Unicode}
    app dataset key value now trust prov w w' kind position
    (Hupsert : upsert_stamped app dataset key value now trust prov w = (w', Ok kind))
    (Hfresh : is_fresh kind = true) (Hlate : now < position.1) :
  ∃ row, Data.revisions w' = Data.revisions w ++ [row]
    ∧ revision_id row = (app, dataset, key)
    ∧ ∀ feed_dataset since after limit only later,
        before after position = false →
        row ∉ feed_rows app feed_dataset since (Some after) limit only Asc later.
Proof.
  destruct (upsert_appends _ _ _ _ _ _ _ _ _ _ Hupsert Hfresh) as (row & Hrow & Hn & Hid).
  exists row. split_and!; [done..|]. intros ds since after limit only later Hafter Hin.
  unfold feed_rows in Hin. apply elem_of_sql_limit, elem_of_order_by, elem_of_select in Hin as [_ Hin].
  apply andb_true_iff in Hin as [_ Hin]. cbn in Hin. apply not_true_iff_false in Hafter.
  apply Hafter. rewrite before_spec in *. unfold feed_key in Hin. cbn in Hin. lia.
Qed.

(** ** Retention *)

Lemma rows_deleted {A} (p : A → bool) t :
  rows_affected p t = Z.of_nat (length t) - Z.of_nat (length (delete_where p t)).
Proof.
  unfold rows_affected, select_where, delete_where. induction t as [|x t IH]; cbn; [done|].
  destruct (p x); cbn [negb length]; rewrite ?length_cons; lia.
Qed.

Lemma as_new_suffix old newest r :
  numbered (old ++ newest) → r ∈ newest →
  rows_affected (λ n, RevisionRow.revision r <=? RevisionRow.revision n) (old ++ newest)
  ≤ Z.of_nat (length newest).
Proof.
  intros Hn Hr. unfold rows_affected, select_where. rewrite List.filter_app.
  assert (List.filter (λ n, RevisionRow.revision r <=? RevisionRow.revision n) old = []) as ->.
  { apply (select_where_none (λ n, RevisionRow.revision r <=? RevisionRow.revision n)).
    intros n Hin. apply Z.leb_gt. induction old as [|x old IH]; [by apply not_elem_of_nil in Hin|].
    inversion Hn as [|?? Hn' Hall]; subst. apply elem_of_cons in Hin as [->|Hin]; [|by apply IH].
    rewrite Forall_forall in Hall. apply Hall. rewrite elem_of_app. by right. }
  cbn. pose proof (length_select_where (λ n, RevisionRow.revision r <=? RevisionRow.revision n) newest).
  unfold select_where in *. lia.
Qed.

(** Retention trims only what it may: a pruned revision is older than the cutoff and has
    at least the kept number of newer ones of its key, every other one stays in its place, the
    records are untouched, and the count is exact - so the newest [keep] revisions of every
    key survive. *)
Theorem prune_keeps_newest older keep w :
  let '(w', pruned) := prune_revisions older keep w in
  let keep := Z.max keep 0 in
  Data.records w' = Data.records w
  ∧ Data.revisions w'
    = List.filter (λ r, negb ((RevisionRow.created_at r <? older)
                              && (keep <? as_new (Data.revisions w) r))) (Data.revisions w)
  ∧ pruned = Z.of_nat (length (Data.revisions w)) - Z.of_nat (length (Data.revisions w'))
  ∧ ∀ app dataset key newest,
      numbered (select_where (revision_at app dataset key) (Data.revisions w)) →
      newest `suffix_of` select_where (revision_at app dataset key) (Data.revisions w) →
      Z.of_nat (length newest) ≤ keep →
      newest `suffix_of` select_where (revision_at app dataset key) (Data.revisions w').
Proof.
  unfold prune_revisions. cbn zeta. set (kept := Z.max keep 0).
  set (prunable := prunable_revision older kept (Data.revisions w)). split_and!.
  - done.
  - cbn. unfold delete_where. apply List.filter_ext. intros r. unfold prunable.
    by rewrite prunable_as_new.
  - cbn. rewrite rows_deleted. lia.
  - cbn [upd Data.revisions]. cbn. intros app dataset key newest Hn [old Hs] Hlen.
    change (revision_at app dataset key) with (of_id (app, dataset, key)) in *.
    rewrite history_delete_comm, Hs. unfold delete_where. rewrite List.filter_app.
    eexists. f_equal. apply (select_where_all (λ r, negb (prunable r))). intros r Hr.
    apply negb_true_iff. unfold prunable. rewrite prunable_as_new. apply andb_false_iff. right.
    apply Z.ltb_ge. etransitivity; [|exact Hlen]. unfold as_new.
    assert (revision_id r = (app, dataset, key)) as ->.
    { assert (r ∈ history_of (app, dataset, key) (Data.revisions w)) as Hin.
      { rewrite Hs, elem_of_app. by right. }
      apply elem_of_select in Hin as [_ Hin]. rewrite of_id_spec in Hin.
      by apply bool_decide_eq_true in Hin. }
    rewrite Hs in Hn |- *. by apply as_new_suffix.
Qed.

(** ** The guarded delete *)

(** A dataset delete does what its preview said or nothing: a preview writes nothing and
    its counts are those the execution reports; an execution expecting another count refuses
    and writes nothing; otherwise it destroys exactly the dataset's records and histories,
    and after it the dataset is empty and every other one untouched. *)
Theorem delete_does_what_was_previewed app dataset now now' expect w :
  let '(w0, previewed) := delete_dataset_mode app dataset PreviewMode now w in
  let '(w', verdict) := delete_dataset_mode app dataset (Execute expect) now' w in
  w0 = w ∧ wrote previewed = false
  ∧ DatasetDeletion.records (counts verdict) = DatasetDeletion.records (counts previewed)
  ∧ DatasetDeletion.revisions (counts verdict) = DatasetDeletion.revisions (counts previewed)
  ∧ wrote verdict = match expect with Some n => n =? record_count app dataset w | None => true end
  ∧ (wrote verdict = false → w' = w ∧ DatasetDeletion.preview (counts verdict) = true)
  ∧ (wrote verdict = true →
      DatasetDeletion.preview (counts verdict) = false
      ∧ record_count app dataset w' = 0
      ∧ (∀ r, r ∈ Data.records w' ↔ r ∈ Data.records w ∧ record_in app dataset r = false)
      ∧ (∀ r, r ∈ Data.revisions w' ↔ r ∈ Data.revisions w ∧ revision_in app dataset r = false)).
Proof.
  unfold delete_dataset_mode, delete_body. unfold record_count.
  set (recs := record_in app dataset). set (found := rows_affected recs (Data.records w)).
  cbn [DatasetDeletion.records].
  assert (match expect with Some n => n =? found | None => true end
          = negb (match expect with Some e => negb (e =? found) | None => false end)) as ->.
  { destruct expect; [by rewrite negb_involutive|done]. }
  destruct (match expect with Some e => negb (e =? found) | None => false end); cbn.
  - by split_and!.
  - split_and!; try done. intros _. split_and!; [done| |intros r; apply elem_of_delete..].
    unfold rows_affected, delete_where. rewrite select_where_none; [done|].
    by intros r [_ Hr%negb_true_iff]%elem_of_filter_bool.
Qed.

(** ** Near-duplicate pairs *)

(** The pairs of an all-pairs scan: both rows fingerprinted, [i < j], within the distance. *)
Definition scan_from (rows : list (string * Z)) (d : Z) (i : nat) (row : string * Z) : list DupPair.t :=
  omap (λ j, r ← rows !! j;
        if negb (r.2 =? 0) && (hamming (as_u64_bits r.2) (as_u64_bits row.2) <=? d)
        then Some (pair_of rows row.1 row.2 j) else None)
    (seq (i + 1) (length rows - (i + 1))).
Definition all_pairs (rows : list (string * Z)) (d : Z) : list DupPair.t :=
  concat (imap (λ i row, if row.2 =? 0 then [] else scan_from rows d i row) rows).

Lemma omap_shift {A B} (g : A → option B) (x : A) l (slots : list nat) :
  omap (λ s, (x :: l) !! s ≫= g) (S <$> slots) = omap (λ s, l !! s ≫= g) slots.
Proof. induction slots as [|s slots IH]; cbn; [done|]. by destruct (l !! s ≫= g); rewrite IH. Qed.

Lemma omap_lookups {A B} (g : A → option B) (l : list A) a :
  omap (λ s, l !! s ≫= g) (seq a (length l - a)) = omap g (drop a l).
Proof.
  revert a. induction l as [|x l IH]; intros [|a]; [done..| |].
  - specialize (IH 0%nat). rewrite Nat.sub_0_r in IH |- *. cbn [length seq drop].
    rewrite <- fmap_S_seq. cbn. change (list_fmap nat nat S) with (fmap (M := list) S).
    rewrite omap_shift, IH. by rewrite drop_0.
  - cbn [length drop Nat.sub]. by rewrite <- fmap_S_seq, omap_shift.
Qed.

#[local] Arguments MAX_DUP_PAIRS : simpl never.
#[local] Arguments Nat.ltb : simpl never.
#[local] Arguments Nat.leb : simpl never.

Section pairs.
Context (rows : list (string * Z)) (d : Z) (Hd : 0 ≤ d < 2 ^ 32 - 1).
Abbreviation numbered_rows := (imap pair rows).
Abbreviation row := (nat * (string * Z))%type.

(** The entries the fingerprinted rows make, and the slot each row takes from [n] on. *)
Definition entry_of (it : row) : option (Z * nat) :=
  if it.2.2 =? 0 then None else Some (as_u64_bits it.2.2, it.1).
Fixpoint slots_from (n : nat) (l : list row) : list (option nat) :=
  match l with
  | [] => []
  | it :: l => if it.2.2 =? 0 then None :: slots_from n l else Some n :: slots_from (S n) l
  end.

Lemma length_index_of (items : list (Z * nat)) : index_len (index_of d items) = length items.
Proof. unfold index_len. by rewrite (holds_entries _ _ _ (index_of_holds d items)). Qed.

Lemma index_rows_spec :
  index_rows rows d = (index_of d (omap entry_of numbered_rows), slots_from 0 numbered_rows).
Proof.
  unfold index_rows. generalize numbered_rows. intros l.
  enough (∀ items slots,
    foldl (λ acc (it : row), let '(idx, slot_of_row) := acc in let '(i, (_, sim)) := it in
      if sim =? 0 then (idx, slot_of_row ++ [None])
      else (insert_index idx (as_u64_bits sim) i, slot_of_row ++ [Some (index_len idx)]))
      (index_of d items, slots) l
    = (index_of d (items ++ omap entry_of l), slots ++ slots_from (length items) l)) as Hl.
  { exact (Hl [] []). }
  induction l as [|[i [k sim]] l IH]; intros items slots; cbn; [by rewrite !app_nil_r|].
  unfold entry_of at 1. cbn. destruct (sim =? 0).
  - by rewrite IH, <- app_assoc.
  - rewrite length_index_of.
    assert (insert_index (index_of d items) (as_u64_bits sim) i
            = index_of d (items ++ [(as_u64_bits sim, i)])) as ->.
    { unfold index_of. by rewrite foldl_app. }
    rewrite IH, length_app, <- !app_assoc. cbn. by rewrite Nat.add_1_r.
Qed.

(** The candidate at a later row. *)
Definition candidate (key : string) (sim : Z) (it : row) : option DupPair.t :=
  if negb (it.2.2 =? 0) && (hamming (as_u64_bits it.2.2) (as_u64_bits sim) <=? d)
  then Some (pair_of rows key sim it.1) else None.

Lemma scan_from_rows i key sim :
  scan_from rows d i (key, sim) = omap (candidate key sim) (drop (i + 1) numbered_rows).
Proof.
  rewrite <- omap_lookups, length_imap. unfold scan_from. cbn [fst snd].
  generalize (seq (i + 1) (length rows - (i + 1))). intros s.
  induction s as [|j s IH]; [done|]. cbn. rewrite list_lookup_imap.
  destruct (rows !! j) as [[k0 s0]|]; cbn; [|done]. unfold candidate. cbn.
  by destruct (_ && _); rewrite IH.
Qed.

Abbreviation push key sim :=
  (λ (_ j : nat) (pairs : list DupPair.t),
     let pairs := pairs ++ [pair_of rows key sim j] in
     (pairs, (length pairs <? MAX_DUP_PAIRS)%nat)).

(** Pushing up to the cap collects the first candidates of the slots. *)
Lemma walk_pushes (items : list (Z * nat)) key sim slots pairs :
  (length pairs < MAX_DUP_PAIRS)%nat →
  walk_slots (push key sim) (index_of d items) (as_u64_bits sim) slots pairs
  = take MAX_DUP_PAIRS (pairs ++ omap (λ s, items !! s ≫= λ e,
      if hamming e.1 (as_u64_bits sim) <=? d then Some (pair_of rows key sim e.2) else None) slots).
Proof.
  pose proof (index_of_holds d items) as Hh.
  revert pairs. induction slots as [|s slots IH]; intros pairs Hlt; cbn.
  { rewrite app_nil_r, take_ge by lia. done. }
  unfold visit_slot. rewrite (holds_entries _ _ _ Hh), (holds_distance _ _ _ Hh).
  destruct (items !! s) as [[h j]|]; cbn; [|by apply IH].
  destruct (hamming h (as_u64_bits sim) <=? d); [|by apply IH].
  rewrite length_app. cbn [length]. destruct (Nat.ltb_spec (length pairs + 1) MAX_DUP_PAIRS).
  - rewrite IH by (rewrite length_app; cbn; lia). by rewrite <- app_assoc.
  - rewrite (cons_middle _ pairs (omap _ _)), app_assoc.
    assert (length (pairs ++ [pair_of rows key sim j]) = length pairs + 1)%nat as Hl
      by by rewrite length_app.
    rewrite take_app_le, take_ge by lia. done.
Qed.

Lemma candidates_of_entries key sim (l : list row) :
  omap (λ e : Z * nat, if hamming e.1 (as_u64_bits sim) <=? d
                       then Some (pair_of rows key sim e.2) else None) (omap entry_of l)
  = omap (candidate key sim) l.
Proof.
  induction l as [|[i [k s]] l IH]; [done|]. cbn. unfold entry_of at 1, candidate at 1. cbn.
  destruct (s =? 0); cbn; [done|]. by destruct (_ <=? d); rewrite IH.
Qed.

Lemma pairs_walk_scan (pre l : list row) pairs :
  numbered_rows = pre ++ l → (length pairs < MAX_DUP_PAIRS)%nat →
  pairs_walk rows (index_of d (omap entry_of numbered_rows))
    (zip (slots_from (length (omap entry_of pre)) l) (map snd l)) pairs
  = take MAX_DUP_PAIRS (pairs ++ concat (map (λ it : row,
      if it.2.2 =? 0 then [] else scan_from rows d it.1 it.2) l)).
Proof.
  revert pre pairs. induction l as [|[i [key sim]] l IH]; intros pre pairs Hpre Hlt; cbn.
  { rewrite app_nil_r, take_ge by lia. done. }
  assert (i = length pre) as ->.
  { assert (numbered_rows !! length pre = Some (i, (key, sim))) as Hi
      by (rewrite Hpre; by rewrite list_lookup_middle).
    rewrite list_lookup_imap in Hi. destruct (rows !! length pre); [|done]. by injection Hi. }
  assert (numbered_rows = (pre ++ [(length pre, (key, sim))]) ++ l) as Hpre'
    by (rewrite Hpre, <- app_assoc; done).
  destruct (Z.eqb_spec sim 0) as [->|Hne].
  - cbn. specialize (IH _ pairs Hpre' Hlt). rewrite omap_app in IH. cbn in IH.
    by rewrite app_nil_r in IH.
  - cbn. set (slot := length (omap entry_of pre)).
    rewrite (for_each_walks d _ _ Hd (index_of_holds d (omap entry_of numbered_rows))).
    rewrite walk_pushes, omap_lookups by done.
    assert (drop (slot + 1) (omap entry_of numbered_rows) = omap entry_of l) as ->.
    { rewrite Hpre', omap_app, drop_app_length'; [done|].
      rewrite omap_app, length_app. unfold entry_of at 2. cbn.
      apply Z.eqb_neq in Hne as ->. cbn. done. }
    rewrite candidates_of_entries, scan_from_rows, Hpre', Nat.add_1_r, drop_app_length'
      by (rewrite length_app; cbn; lia).
    set (found := omap (candidate key sim) l).
    destruct (Nat.leb_spec MAX_DUP_PAIRS (length (take MAX_DUP_PAIRS (pairs ++ found)))) as [Hle|Hgt].
    + rewrite length_take in Hle.
      by rewrite (app_assoc pairs found), (take_app_le (pairs ++ found)) by lia.
    + rewrite length_take in Hgt.
      assert (take MAX_DUP_PAIRS (pairs ++ found) = pairs ++ found) as -> by (apply take_ge; lia).
      rewrite app_assoc. specialize (IH _ (pairs ++ found) Hpre' ltac:(lia)).
      rewrite omap_app, length_app in IH. unfold entry_of at 3 in IH. cbn in IH.
      apply Z.eqb_neq in Hne. rewrite Hne in IH. cbn in IH. rewrite Nat.add_1_r in IH. rewrite <- Hpre'. exact IH.
Qed.

Lemma map_snd_imap_pair : map snd numbered_rows = rows.
Proof.
  apply list_eq. intros i. rewrite list_lookup_fmap, list_lookup_imap. by destruct (rows !! i).
Qed.
End pairs.

(** The near-duplicate report is the all-pairs scan: through the banded index it lists the
    pairs of fingerprinted rows within the distance, in the scan's order up to the cap, then
    sorted by distance with ties in that order - though rows without a fingerprint make index
    slots and row numbers differ. *)
Theorem duplicate_pairs_is_the_scan rows d (Hd : 0 ≤ d < 2 ^ 32 - 1) :
  banded_duplicate_pairs rows d
  = order_by (λ p q, DupPair.distance p <=? DupPair.distance q)
      (take MAX_DUP_PAIRS (all_pairs rows d)).
Proof.
  unfold banded_duplicate_pairs. rewrite (index_rows_spec rows d). f_equal.
  pose proof (pairs_walk_scan rows d Hd [] (imap pair rows) [] eq_refl) as Hw.
  cbn [omap list_omap length] in Hw. rewrite map_snd_imap_pair in Hw. rewrite Hw by (apply Nat.ltb_lt; by vm_compute).
  cbn [app]. f_equal. unfold all_pairs. f_equal. clear.
  apply list_eq. intros i. rewrite list_lookup_fmap, !list_lookup_imap. by destruct (rows !! i).
Qed.

(** ** Witnesses *)

Module FeedDemo.
#[local] Existing Instances BatchDemo.render BatchDemo.parse BatchDemo.eqb BatchDemo.sha
  BatchDemo.alnum BatchDemo.lower.

Definition put (k : string) (now : timestamp) (w : Data.t) : Data.t :=
  (upsert_stamped "app" "ds" k (JString "one") now None (Some Provenance.empty) w).1.
Definition w1 : Data.t := put "a" 10 (Data.mk [] []).
Definition w2 : Data.t := put "b" 20 w1.
Definition w3 : Data.t := put "c" 30 w2.

(** Polled between the commits with pages of one, the drain hands out each key once. *)
Lemma forward_drain_exactly_once_witness :
  let pages := drain_polls "app" (Some "ds"%string) None None 1 [w1; w3; w3; w3] None in
  map (map Revision.key) pages = [["a"]; ["b"]; ["c"]; []]%string
  ∧ concat pages = map revision_of (Data.revisions w3).
Proof.
  cbn zeta. split; [by vm_compute|].
  destruct (forward_drain_exactly_once "app" (Some "ds"%string) None None 1 [w1; w3; w3; w3] w3)
    as [_ H].
  - done.
  - repeat (constructor; [by eexists; vm_compute|]). constructor.
  - done.
  - vm_compute. by repeat constructor.
  - specialize (H [] ltac:(by vm_compute) ltac:(done)). rewrite H. by vm_compute.
Defined.

(** The drain is at the revision stamped 20; one stamped 15 commits behind it. *)
Lemma late_commit_is_skipped_witness :
  ∃ row, RevisionRow.key row = "late"%string
    ∧ Data.revisions (put "late" 15 w2) = Data.revisions w2 ++ [row]
    ∧ row ∉ feed_rows "app" (Some "ds"%string) None (Some (20, 2)) 10 None Asc (put "late" 15 w2).
Proof.
  edestruct (late_commit_is_skipped "app" "ds" "late" (JString "one") 15 None
    (Some Provenance.empty) w2 (put "late" 15 w2) New (20, 2)) as (row & Hrow & Hid & Hskip).
  - by vm_compute.
  - done.
  - by vm_compute.
  - exists row. split_and!; [by injection Hid|done|]. by apply Hskip.
Defined.

Lemma duplicate_pairs_is_the_scan_witness :
  banded_duplicate_pairs [("a", 5); ("b", 0); ("c", 7); ("d", 5)]%string 1
  = [DupPair.mk "a" "d" 0; DupPair.mk "a" "c" 1; DupPair.mk "c" "d" 1].
Proof. rewrite duplicate_pairs_is_the_scan by lia. by vm_compute. Defined.
End FeedDemo.
