(* ===== verification/Robots.v ===== *)
(** * Robots: the addresses a crawl may ask for

    The URL identities of the crawler, and its reading of [robots.txt]: the parser, the
    pattern matcher and the verdict ([crates/core/src/crawl.rs]).  The [url] crate is a
    parameter: the class below lists the accessors and setters the crawler calls; then what
    they guarantee. *)

From stdpp Require Import gmap pretty.
From Stdlib Require Import Floats.SpecFloat.
From S2P Require Import Prelude Sql Float64 Filters.

(** [url::Url] *)
Class UrlLib := {
  Url : Type;
  url_parse : string → option Url;
  scheme : Url → string;
  host_str : Url → option string;
  port : Url → option N;
  url_path : Url → string;
  url_query : Url → option string;
  query_pairs : Url → list (string * string);
  set_fragment_none : Url → Url;
  set_query : option string → Url → Url;
  set_path : string → Url → Url;
  url_to_string : Url → string }.

(** ** Canonical addresses *)

Definition TRACKING_PARAMS : list string :=
  ["utm_source"; "utm_medium"; "utm_campaign"; "utm_term"; "utm_content"; "gclid"; "fbclid";
   "msclkid"; "mc_cid"; "mc_eid"; "ref"; "ref_src"]%string.

(** The byte-wise order of pairs ([Vec<(String, String)>::sort]). *)
Definition pair_le (a b : string * string) : bool :=
  String.ltb a.1 b.1 || (String.eqb a.1 b.1 && String.leb a.2 b.2).

Definition kept_pairs (pairs : list (string * string)) : list (string * string) :=
  order_by pair_le
    (List.filter (λ kv, negb (existsb (String.eqb kv.1) TRACKING_PARAMS)) pairs).
Definition query_item (kv : string * string) : string :=
  if String.eqb kv.2 "" then kv.1 else (kv.1 +:+ "=" +:+ kv.2)%string.
Definition canonical_query (pairs : list (string * string)) : option string :=
  match kept_pairs pairs with
  | [] => None
  | kept => Some (String.concat "&" (map query_item kept))
  end.

(** [trim_end_matches('/')] *)
Fixpoint trim_end_slashes (s : string) : string :=
  match s with
  | EmptyString => EmptyString
  | String a s =>
      match trim_end_slashes s with
      | EmptyString => if Ascii.eqb a "/" then EmptyString else String a EmptyString
      | t => String a t
      end
  end.
Definition ends_with (suffix s : string) : bool := is_some (strip_suffix suffix s).

Section urls.
Context `{UrlLib}.

Definition canonicalize (url : Url) : string :=
  let url := set_fragment_none url in
  let url := set_query (canonical_query (query_pairs url)) url in
  let path := url_path url in
  let url :=
    if (1 <? String.length path)%nat && ends_with "/" path
    then set_path (trim_end_slashes path) url else url in
  url_to_string url.
Definition canonicalize_str (url : string) : string :=
  match url_parse url with Some u => canonicalize u | None => url end.

Definition host_of (url : string) : option string := u ← url_parse url; host_str u.

Definition is_http (u : Url) : bool :=
  String.eqb (scheme u) "http" || String.eqb (scheme u) "https".
Definition origin_of (url : string) : option string :=
  u ← url_parse url;
  if is_http u then
    host ← host_str u;
    Some (match port u with
          | Some p => scheme u +:+ "://" +:+ host +:+ ":" +:+ pretty p
          | None => scheme u +:+ "://" +:+ host
          end)%string
  else None.
Definition robots_url (page_url : string) : option string :=
  (λ o, o +:+ "/robots.txt")%string <$> origin_of page_url.
End urls.

(** ** The pattern matcher

    [path[pos..]] is carried as the text that remains. *)

Fixpoint match_segs (first : bool) (segs : list string) (rest : string) : option string :=
  match segs with
  | [] => Some rest
  | EmptyString :: segs => match_segs false segs rest
  | seg :: segs =>
      if first then rest ← strip_prefix seg rest; match_segs false segs rest
      else '(_, rest) ← split_once seg rest; match_segs false segs rest
  end.

Definition robots_match_len (pattern path : string) : option nat :=
  let stripped := strip_suffix "$" pattern in
  let pat := default pattern stripped in
  rest ← match_segs true (split_on "*" pat) path;
  if is_some stripped && negb (ends_with "*" pat) && negb (String.eqb rest "")
  then None else Some (String.length pat).

(** ** The rules of a site *)

Module RobotRules.
Record t : Type := mk {
  rules : list (bool * string); crawl_delay : option f64; sitemaps : list string }.
#[global] Instance eta_rules : Eta t := λ r, mk (rules r) (crawl_delay r) (sitemaps r).
Definition allow_all : t := mk [] None [].
End RobotRules.

(** [str::lines] *)
Definition strip_cr (s : string) : string :=
  default s (strip_suffix (String "013"%char EmptyString) s).
Fixpoint lines_of (parts : list string) : list string :=
  match parts with
  | [] => []
  | [last] => if String.eqb last "" then [] else [last]
  | p :: parts => strip_cr p :: lines_of parts
  end.
Definition lines (s : string) : list string := lines_of (split_on "010" s).

(** [raw.split('#').next()] *)
Definition before_comment (raw : string) : string :=
  match split_once "#" raw with Some (l, _) => l | None => raw end.

(** One line: the rules so far, and whether the current group is the [*] one. *)
Definition parse_line (acc : RobotRules.t * bool) (raw : string) : RobotRules.t * bool :=
  let '(rules, in_star_group) := acc in
  match split_once ":" (str_trim (before_comment raw)) with
  | None => acc
  | Some (key, value) =>
      let key := ascii_lower (str_trim key) in
      let value := str_trim value in
      let given := negb (String.eqb value "") in
      if String.eqb key "user-agent" then (rules, String.eqb value "*")
      else if String.eqb key "disallow" && in_star_group && given then
        (rules <| RobotRules.rules ::= λ rs, rs ++ [(false, value)] |>, in_star_group)
      else if String.eqb key "allow" && in_star_group && given then
        (rules <| RobotRules.rules ::= λ rs, rs ++ [(true, value)] |>, in_star_group)
      else if String.eqb key "crawl-delay" && in_star_group then
        (rules <| RobotRules.crawl_delay :=
           (d ← parse_f64 value; if f64_gt d f64_zero then Some d else None) |>, in_star_group)
      else if String.eqb key "sitemap" && given then
        (rules <| RobotRules.sitemaps ::= λ ss, ss ++ [value] |>, in_star_group)
      else acc
  end.
Definition parse_robots (text : string) : RobotRules.t :=
  (foldl parse_line (RobotRules.allow_all, false) (lines text)).1.

(** The best match so far: its length, and whether it allows. *)
Definition best_match (path : string) (best : option (nat * bool)) (rule : bool * string) :
    option (nat * bool) :=
  let '(is_allow, pattern) := rule in
  match robots_match_len pattern path with
  | None => best
  | Some len =>
      let better :=
        match best with
        | None => true
        | Some (blen, ballow) => (blen <? len)%nat || ((len =? blen)%nat && is_allow && negb ballow)
        end in
      if better then Some (len, is_allow) else best
  end.
Definition path_allowed (rules : RobotRules.t) (path : string) : bool :=
  default true (snd <$> foldl (best_match path) None (RobotRules.rules rules)).

Definition robots_path `{UrlLib} (url : string) : string :=
  match url_parse url with
  | Some u =>
      match url_query u with Some q => (url_path u +:+ "?" +:+ q)%string | None => url_path u end
  | None => "/"
  end.
Definition allowed `{UrlLib} (rules : RobotRules.t) (url : string) : bool :=
  path_allowed rules (robots_path url).

(** ** What a pattern means *)

(** [glob p s]: the pattern matches the whole of [s], [*] standing for any run. *)
Inductive glob : string → string → Prop :=
| glob_nil : glob EmptyString EmptyString
| glob_char a p s : a ≠ "*"%char → glob p s → glob (String a p) (String a s)
| glob_skip p s : glob p s → glob (String "*" p) s
| glob_run p a s : glob (String "*" p) s → glob (String "*" p) (String a s).

(** Patterns match from the start of the path; a final [$] anchors the match to its end. *)
Definition robots_matches (pattern path : string) : Prop :=
  match strip_suffix "$" pattern with
  | Some pat => glob pat path
  | None => ∃ s rest, path = (s +:+ rest)%string ∧ glob pattern s
  end.

Example robots_match_examples :
  robots_match_len "/private" "/private/x" = Some 8%nat
  ∧ robots_match_len "/*.pdf$" "/a/b.pdf" = Some 6%nat
  ∧ robots_match_len "/*.pdf$" "/a/b.pdf?x" = None
  ∧ robots_match_len "*" "/x" = Some 1%nat
  ∧ robots_match_len "/a*b*c" "/a-b-d" = None.
Proof. repeat split; vm_compute; reflexivity. Qed.
Example parse_robots_example :
  RobotRules.rules
    (parse_robots ("User-agent: *" +:+ String "010" "Disallow: /a # no" +:+ String "010" "Allow: /a/b"))
  = [(false, "/a"); (true, "/a/b")]%string.
Proof. vm_compute. reflexivity. Qed.

(** ** Splitting text *)

Lemma strip_prefix_inv p s r : strip_prefix p s = Some r → s = (p +:+ r)%string.
Proof.
  revert s. induction p as [|a p IH]; intros s; cbn; [by intros [= ->]|].
  destruct s as [|b s]; [done|]. destruct (Ascii.eqb_spec a b) as [->|]; [|done].
  intros Hr. apply IH in Hr as ->. done.
Qed.

Lemma split_once_inv sep s l r : split_once sep s = Some (l, r) → s = (l +:+ sep +:+ r)%string.
Proof.
  revert l r. induction s as [|a s IH]; intros l r; cbn [split_once];
    destruct (strip_prefix sep _) as [rest|] eqn:E.
  - intros [= <- <-]. by apply strip_prefix_inv in E.
  - done.
  - intros [= <- <-]. by apply strip_prefix_inv in E.
  - destruct (split_once sep s) as [[l' r']|]; cbn; [|done]. intros [= <- <-].
    by rewrite (IH l' r').
Qed.

Lemma suffixes_nest p q r r' :
  (p +:+ r = q +:+ r')%string → (String.length q ≤ String.length p)%nat →
  ∃ y, r' = (y +:+ r)%string.
Proof.
  revert p. induction q as [|b q IH]; intros [|a p] E Hl; cbn in *; try lia.
  - by exists EmptyString.
  - exists (String a p). done.
  - injection E as -> E. apply (IH p); [exact E|lia].
Qed.

Lemma string_length_app s t :
  String.length (s +:+ t) = (String.length s + String.length t)%nat.
Proof. induction s as [|a s IH]; [done|]. cbn. by rewrite <- IH. Qed.

(** The occurrence found is the leftmost one. *)
Lemma split_once_leftmost sep x rest :
  ∃ l r y, split_once sep (x +:+ sep +:+ rest) = Some (l, r) ∧ r = (y +:+ rest)%string.
Proof.
  induction x as [|a x IH].
  - change (EmptyString +:+ sep +:+ rest)%string with (sep +:+ rest)%string.
    exists EmptyString, rest, EmptyString. split; [|done].
    pose proof (strip_prefix_app sep rest) as Hs.
    destruct (sep +:+ rest)%string; cbn [split_once]; by rewrite Hs.
  - change (String a x +:+ sep +:+ rest)%string with (String a (x +:+ sep +:+ rest)).
    destruct IH as (l & r & y & Hs & ->). cbn [split_once].
    destruct (strip_prefix sep (String a (x +:+ sep +:+ rest))) as [rest'|] eqn:E.
    + exists EmptyString, rest'. apply strip_prefix_inv in E.
      destruct (suffixes_nest (String a x +:+ sep) sep rest rest') as [z ->]; [| |by exists z].
      * rewrite string_append_assoc. exact E.
      * rewrite string_length_app. cbn. lia.
    + rewrite Hs. cbn. by eexists _, _, y.
Qed.

(** ** Patterns as segments between stars *)

(** [s] is a run, the first segment, a run, the next one, .., and then [r]. *)
Fixpoint upto (segs : list string) (s r : string) : Prop :=
  match segs with
  | [] => s = r
  | seg :: segs => ∃ x rest, s = (x +:+ seg +:+ rest)%string ∧ upto segs rest r
  end.

(** The whole pattern: its first segment at the start of the text. *)
Definition upto_from (segs : list string) (s r : string) : Prop :=
  match segs with
  | [] => s = r
  | seg :: segs => ∃ rest, s = (seg +:+ rest)%string ∧ upto segs rest r
  end.

Lemma upto_more segs x s r : segs ≠ [] → upto segs s r → upto segs (x +:+ s)%string r.
Proof.
  destruct segs as [|seg segs]; [done|]. intros _ (y & rest & -> & H).
  exists (x +:+ y)%string, rest. split; [by rewrite !string_append_assoc|done].
Qed.

Lemma match_segs_sound segs s r : match_segs false segs s = Some r → upto segs s r.
Proof.
  revert s. induction segs as [|seg segs IH]; intros s; cbn [match_segs]; [by intros [= ->]|].
  destruct seg as [|a seg].
  - intros H. exists EmptyString, s. split; [done|by apply IH].
  - destruct (split_once _ s) as [[l rest]|] eqn:E; cbn; [|done]. intros H.
    apply split_once_inv in E. exists l, rest. split; [done|by apply IH].
Qed.

(** Greedy finds a match whenever there is one, and leaves at least as much. *)
Lemma match_segs_complete segs s r :
  upto segs s r → ∃ y, match_segs false segs s = Some (y +:+ r)%string.
Proof.
  revert s r. induction segs as [|seg segs IH]; intros s r; cbn [upto match_segs].
  { intros ->. by exists EmptyString. }
  intros (x & rest & -> & H). destruct seg as [|a seg].
  - destruct (decide (segs = [])) as [->|Hne]; [by cbn in *; subst; exists x|].
    apply IH. by apply upto_more.
  - destruct (split_once_leftmost (String a seg) x rest) as (l & r' & y & -> & ->). cbn.
    destruct (decide (segs = [])) as [->|Hne]; [by cbn in *; subst; exists y|].
    apply IH. by apply upto_more.
Qed.

Lemma match_first_sound segs s r : match_segs true segs s = Some r → upto_from segs s r.
Proof.
  destruct segs as [|seg segs]; cbn [match_segs upto_from]; [by intros [= ->]|].
  destruct seg as [|a seg].
  - intros H. exists s. split; [done|by apply match_segs_sound].
  - destruct (strip_prefix _ s) as [rest|] eqn:E; cbn; [|done]. intros H.
    apply strip_prefix_inv in E. exists rest. split; [done|by apply match_segs_sound].
Qed.

Lemma match_first_complete segs s r :
  upto_from segs s r → ∃ y, match_segs true segs s = Some (y +:+ r)%string.
Proof.
  destruct segs as [|seg segs]; cbn [match_segs upto_from]; [intros ->; by exists EmptyString|].
  intros (rest & -> & H). destruct seg as [|a seg]; [by apply match_segs_complete|].
  rewrite strip_prefix_app. cbn. by apply match_segs_complete.
Qed.

Lemma split_on_cons c a p :
  a ≠ c → ∃ seg segs, split_on c p = seg :: segs ∧ split_on c (String a p) = String a seg :: segs.
Proof.
  intros Ha. cbn. rewrite (proj2 (Ascii.eqb_neq a c) Ha).
  assert (split_on c p ≠ []) as Hne.
  { destruct p as [|b p]; cbn; [done|]. destruct (Ascii.eqb b c); [done|].
    by destruct (split_on c p). }
  destruct (split_on c p) as [|seg segs]; [done|]. by eexists _, _.
Qed.

Lemma glob_upto_from p s r :
  (∃ w, s = (w +:+ r)%string ∧ glob p w) ↔ upto_from (split_on "*" p) s r.
Proof.
  split.
  - intros (w & -> & Hg). induction Hg as [|a p w Ha Hg IH|p w Hg IH|p a w Hg IH].
    + by exists r.
    + destruct (split_on_cons "*" a p Ha) as (seg & segs & Ep & ->). rewrite Ep in IH.
      destruct IH as (rest & E & H). exists rest. split; [|done].
      change (String a (w +:+ r) = String a (seg +:+ rest))%string. by rewrite E.
    + cbn. exists (w +:+ r)%string. split; [done|].
      destruct (split_on "*" p) as [|seg segs]; [by cbn in IH|].
      destruct IH as (rest & E & H). by exists EmptyString, rest.
    + cbn in IH |- *. destruct IH as (rest & E & H). eexists. split; [done|].
      change (w +:+ r = rest)%string in E. subst rest.
      refine (upto_more _ (String a EmptyString) (w +:+ r) r _ H). clear.
      destruct p as [|b p]; cbn; [done|].
      destruct (Ascii.eqb b "*"); [done|]. by destruct (split_on "*" p).
  - revert s. induction p as [|a p IH]; intros s.
    + cbn. intros (rest & -> & ->). exists EmptyString. split; [done|constructor].
    + destruct (decide (a = "*"%char)) as [->|Ha].
      * cbn. intros (rest & E & H). change (s = rest) in E. subst rest.
        assert (∃ x s', s = (x +:+ s')%string ∧ upto_from (split_on "*" p) s' r) as (x & s' & -> & H').
        { destruct (split_on "*" p) as [|seg segs]; [by exists EmptyString, s|].
          destruct H as (x & rest & -> & H). exists x, (seg +:+ rest)%string.
          split; [done|by exists rest]. }
        apply IH in H' as (w & -> & Hg). exists (x +:+ w)%string.
        split; [by rewrite string_append_assoc|]. clear H. induction x as [|b x IHx]; [by apply glob_skip|].
        exact (glob_run _ b _ IHx).
      * destruct (split_on_cons "*" a p Ha) as (seg & segs & Ep & ->).
        intros (rest & -> & H). destruct (IH (seg +:+ rest)%string) as (w & E & Hg).
        { rewrite Ep. by exists rest. }
        exists (String a w). split; [|by constructor].
        change (String a (seg +:+ rest) = String a (w +:+ r))%string. by rewrite E.
Qed.

(** A pattern that ends in a star leaves nothing over. *)
Lemma upto_last segs s r : last segs = Some EmptyString → upto segs s r → upto segs s EmptyString.
Proof.
  revert s. induction segs as [|seg segs IH]; intros s Hl; [done|].
  intros (x & rest & -> & H). destruct segs as [|seg' segs].
  - injection Hl as ->. cbn in H. subst r. exists (x +:+ rest)%string, EmptyString.
    split; [|done]. by rewrite string_append_nil.
  - exists x, rest. split; [done|]. by apply IH.
Qed.

Lemma split_on_ne c p : split_on c p ≠ [].
Proof.
  destruct p as [|b p]; cbn; [done|]. destruct (Ascii.eqb b c); [done|]. by destruct (split_on c p).
Qed.

Lemma split_on_snoc c p :
  split_on c (p +:+ String c EmptyString) = split_on c p ++ [EmptyString].
Proof.
  induction p as [|a p IH].
  - change (EmptyString +:+ String c EmptyString)%string with (String c EmptyString).
    cbn [split_on]. by rewrite Ascii.eqb_refl.
  - change (String a p +:+ String c EmptyString)%string
      with (String a (p +:+ String c EmptyString)).
    cbn [split_on]. rewrite IH. destruct (Ascii.eqb a c); [done|].
    pose proof (split_on_ne c p). by destruct (split_on c p).
Qed.

Lemma upto_from_last segs s r :
  last segs = Some EmptyString → upto_from segs s r → upto_from segs s EmptyString ∨ length segs = 1%nat.
Proof.
  destruct segs as [|seg segs]; [done|]. destruct segs as [|seg' segs]; [by right|].
  intros Hl (rest & -> & H). left. exists rest. split; [done|]. by eapply upto_last.
Qed.

Lemma ends_with_inv suffix p : ends_with suffix p = true → ∃ q, p = (q +:+ suffix)%string.
Proof.
  unfold ends_with, strip_suffix.
  destruct (strip_prefix (String.rev suffix) (String.rev p)) as [q|] eqn:E; [|done]. intros _.
  apply strip_prefix_inv in E. exists (String.rev q).
  rewrite <- (string_rev_rev p), E, string_rev_append. by rewrite string_rev_rev.
Qed.

(** ** The matcher *)

Lemma star_end_matches pat path rest :
  ends_with "*" pat = true → upto_from (split_on "*" pat) path rest → glob pat path.
Proof.
  intros [q ->]%ends_with_inv Hu.
  assert (upto_from (split_on "*" (q +:+ "*")) path EmptyString) as Hg.
  { rewrite split_on_snoc in Hu |- *.
    edestruct upto_from_last as [H|H]; [|exact Hu|exact H|]; [by rewrite last_snoc|].
    rewrite length_app in H. pose proof (split_on_ne "*" q).
    destruct (split_on "*" q); [done|cbn in H; lia]. }
  apply glob_upto_from in Hg as (w & -> & Hg). by rewrite string_append_nil.
Qed.

Lemma anchored_match pat path :
  glob pat path → ends_with "*" pat = true ∨ split_on "*" pat = [pat] →
  ∃ y, match_segs true (split_on "*" pat) path = Some y
    ∧ (ends_with "*" pat = true ∨ y = EmptyString).
Proof.
  intros Hm Hc. assert (upto_from (split_on "*" pat) path EmptyString) as Hu.
  { apply glob_upto_from. exists path. by rewrite string_append_nil. }
  destruct Hc as [Hc|Hc].
  - destruct (match_first_complete _ _ _ Hu) as [y Hy]. exists (y +:+ EmptyString)%string.
    split; [done|by left].
  - rewrite Hc in Hu |- *. destruct Hu as (rest & -> & H). change (rest = EmptyString) in H. subst rest.
    exists EmptyString. split; [|by right].
    destruct pat as [|a pat]; cbn [match_segs]; [done|]. by rewrite strip_prefix_app.
Qed.

Lemma glob_php : robots_matches "/*.php$" "/a.php.php".
Proof.
  unfold robots_matches.
  assert (strip_suffix "$" "/*.php$" = Some "/*.php"%string) as -> by by vm_compute.
  apply glob_char; [done|]. do 5 apply glob_run. apply glob_skip.
  do 4 (apply glob_char; [done|]). apply glob_nil.
Qed.

(** The robots.txt matcher is sound for the meaning of a pattern - the star stands for any
    run, a final dollar anchors the end - and reports the pattern's length; it is complete for
    patterns without the anchor, and for anchored ones that have no star or end in one.  With a
    star before the anchored end it is not: it takes the leftmost occurrence of the last
    segment, so [/*.php$] does not match [/a.php.php]. *)
Theorem robots_matcher_exact pattern path :
  let pat := default pattern (strip_suffix "$" pattern) in
  (∀ n, robots_match_len pattern path = Some n →
     robots_matches pattern path ∧ n = String.length pat)
  ∧ (robots_matches pattern path →
       strip_suffix "$" pattern = None ∨ ends_with "*" pat = true ∨ split_on "*" pat = [pat] →
       robots_match_len pattern path = Some (String.length pat))
  ∧ (robots_matches "/*.php$" "/a.php.php" ∧ robots_match_len "/*.php$" "/a.php.php" = None).
Proof.
  intros pat. split_and!; [| |by apply glob_php|by vm_compute].
  - intros n. unfold robots_match_len, robots_matches. subst pat.
    destruct (strip_suffix "$" pattern) as [pat|]; cbn [from_option id is_some andb].
    + destruct (match_segs true (split_on "*" pat) path) as [rest|] eqn:Em; cbn [mbind option_bind];
        [|intros [=]].
      apply match_first_sound in Em. destruct (ends_with "*" pat) eqn:Ee; cbn [negb andb].
      * intros [= <-]. split; [|done]. by eapply star_end_matches.
      * destruct (String.eqb_spec rest EmptyString) as [->|]; cbn [negb andb]; [|intros [=]]. intros [= <-].
        split; [|done]. apply glob_upto_from in Em as (w & -> & Hg). by rewrite string_append_nil.
    + destruct (match_segs _ _ _) as [rest|] eqn:Em; cbn [mbind option_bind]; [|done].
      intros [= <-]. split; [|done].
      apply match_first_sound, glob_upto_from in Em as (w & -> & Hg). by exists w, rest.
  - intros Hm Hc. unfold robots_match_len, robots_matches in *. subst pat.
    destruct (strip_suffix "$" pattern) as [pat|]; cbn [from_option id is_some andb] in *.
    + apply anchored_match in Hm; [|naive_solver]. destruct Hm as (y & -> & Hy).
      cbn [mbind option_bind]. destruct Hy as [->| ->]; [done|by rewrite andb_false_r].
    + destruct Hm as (w & rest & -> & Hg).
      assert (upto_from (split_on "*" pattern) (w +:+ rest) rest) as Hu.
      { apply glob_upto_from. by exists w. }
      by destruct (match_first_complete _ _ _ Hu) as [y ->].
Qed.

(** ** The verdict *)

(** The lengths of the rules that match, each with what it says. *)
Definition matching (rules : list (bool * string)) (path : string) : list (nat * bool) :=
  omap (λ rule, (λ len, (len, rule.1)) <$> robots_match_len rule.2 path) rules.

(** The best match of a prefix of the rules, against the matches it has. *)
Definition is_best (best : option (nat * bool)) (ms : list (nat * bool)) : Prop :=
  match best with
  | None => ms = []
  | Some (n, a) =>
      (n, a) ∈ ms ∧ ∀ m b, (m, b) ∈ ms → (m < n)%nat ∨ m = n ∧ (a = true ∨ b = false)
  end.

Lemma best_match_spec path rules best ms :
  is_best best ms → is_best (foldl (best_match path) best rules) (ms ++ matching rules path).
Proof.
  revert best ms. induction rules as [|[allow pattern] rules IH]; intros best ms Hb;
    [by rewrite app_nil_r|].
  unfold matching. cbn [omap list_omap foldl best_match fst snd].
  destruct (robots_match_len pattern path) as [len|]; cbn [fmap option_fmap option_map];
    [|by apply IH].
  rewrite (cons_middle _ ms), app_assoc. apply IH. destruct best as [[n a]|]; cbn in Hb.
  - destruct Hb as [Hin Hmax].
    assert (∀ m b, (m, b) ∈ ms ++ [(len, allow)] ↔ (m, b) ∈ ms ∨ m = len ∧ b = allow) as Hel.
    { intros m b. rewrite elem_of_app, list_elem_of_singleton.
      by split; intros [?|H]; [left|right; injection H|left|right; destruct H as [-> ->]]. }
    destruct ((n <? len)%nat || ((len =? n)%nat && allow && negb a)) eqn:E.
    + split; [apply Hel; by right|]. intros m b [Hm|[-> ->]]%Hel;
        [|right; split; [done|by destruct allow; [left|right]]].
      apply orb_true_iff in E as [E%Nat.ltb_lt|[[->%Nat.eqb_eq ->]%andb_true_iff _]%andb_true_iff].
      * destruct (Hmax m b Hm) as [?|[? _]]; lia.
      * destruct (Hmax m b Hm) as [?|[-> _]]; [by left|right]. split; [done|by left].
    + split; [apply Hel; by left|]. intros m b [Hm|[-> ->]]%Hel; [by apply Hmax|].
      apply orb_false_iff in E as [E1%Nat.ltb_ge E2].
      destruct (Nat.eqb_spec len n) as [->|]; [right; split; [done|]|left; lia].
      destruct allow, a; cbn in E2; try done; by auto.
  - subst ms. cbn. split; [by left|]. intros m b [[= -> ->]|?%not_elem_of_nil]%elem_of_cons.
    { right. split; [done|by destruct allow; [left|right]]. }
    done.
Qed.

(** The longest matching rule decides: a path is refused exactly when some [Disallow]
    rule matches it and every [Allow] rule that matches is strictly shorter, and no matching
    rule is longer; an equally long [Allow] wins and a path no rule matches is allowed, in
    whatever order the file lists them. *)
Theorem robots_longest_match_decides rules path :
  path_allowed rules path = false
  ↔ ∃ n, (n, false) ∈ matching (RobotRules.rules rules) path
      ∧ ∀ m allow, (m, allow) ∈ matching (RobotRules.rules rules) path →
          (m ≤ n)%nat ∧ (allow = true → (m < n)%nat).
Proof.
  unfold path_allowed. pose proof (best_match_spec path (RobotRules.rules rules) None [] eq_refl) as Hb.
  cbn [app] in Hb. destruct (foldl _ _ _) as [[n a]|]; cbn in Hb |- *.
  - destruct Hb as [Hin Hmax]. split.
    + intros ->. exists n. split; [done|]. intros m b Hm.
      destruct (Hmax m b Hm) as [?|[-> [? | ->]]]; split; intros; (lia || done).
    + intros (n' & Hin' & Hmax'). destruct a; [|done].
      destruct (Hmax' _ _ Hin) as [_ Hlt]. specialize (Hlt eq_refl).
      destruct (Hmax _ _ Hin') as [?|[? _]]; lia.
  - rewrite Hb. split; [done|]. by intros (n & ?%not_elem_of_nil & _).
Qed.

(** ** What the parser and the canonical form lose *)

(** A group that names a second agent after [*] is not read as a group for [*]. *)
Lemma shared_group_is_dropped :
  RobotRules.rules
    (parse_robots ("User-agent: *" +:+ String "010" "User-agent: other" +:+ String "010" "Disallow: /"))
  = [].
Proof. vm_compute. reflexivity. Qed.

(** The canonical form decodes the query pairs and joins them without encoding them again,
    so two different addresses can share one: a value holding an ampersand reads like two
    parameters, and the crawl asks for the one it was not given. *)
Theorem canonical_form_conflates `{UrlLib} u v :
  query_pairs (set_fragment_none u) = [("q", "a&z")]%string →
  query_pairs (set_fragment_none v) = [("q", "a"); ("z", "")]%string →
  (∀ q, set_query q (set_fragment_none u) = set_query q (set_fragment_none v)) →
  canonicalize u = canonicalize v.
Proof.
  intros Hu Hv Hq. unfold canonicalize.
  assert (canonical_query (query_pairs (set_fragment_none u))
          = canonical_query (query_pairs (set_fragment_none v))) as -> by (rewrite Hu, Hv; vm_compute; reflexivity).
  by rewrite Hq.
Qed.
