(* ===== verification/Frontier.v ===== *)
(** * Frontier: the crawler's host-fair queue

    The bounded, deduplicated frontier that hands out addresses round-robin across
    hosts under a per-host page budget ([Frontier] in [crates/core/src/crawl.rs]).  Its
    hash maps are finite maps; where the code walks one, the order is arbitrary and the
    theorems do not depend on it: fairness and host budgets, at the end. *)

From stdpp Require Import gmap.
From S2P Require Import Prelude Robots.

Definition MAX_FRONTIER : Z := 100000.

(** An address and its depth. *)
Abbreviation item := (string * Z)%type.

Module Frontier.
Record t : Type := mk {
  per_host : gmap string (list item); order : list string; seen : gset string; dropped : Z;
  len : Z; taken : gmap string Z; max_pages_per_host : option Z; skipped_host_budget : Z }.
#[global] Instance eta_frontier : Eta t := λ f,
  mk (per_host f) (order f) (seen f) (dropped f) (len f) (taken f) (max_pages_per_host f)
    (skipped_host_budget f).
Definition new (max_pages_per_host : option Z) : t :=
  mk ∅ [] ∅ 0 0 ∅ (n ← max_pages_per_host; if 0 <? n then Some n else None) 0.
End Frontier.
Abbreviation frontier := Frontier.t.

Section frontier.
Context `{UrlLib}.
Implicit Types (f : frontier) (url host : string) (depth : Z).

(** [host_of(&url).unwrap_or_default()] *)
Definition host_key url : string := default EmptyString (host_of url).

Definition queue_of f host : list item := default [] (Frontier.per_host f !! host).

Definition enqueue url depth f : frontier :=
  let host := host_key url in
  let q := queue_of f host in
  let was_empty := match q with [] => true | _ => false end in
  f <| Frontier.per_host ::= <[host := q ++ [(url, depth)]]> |>
    <| Frontier.len ::= Z.add 1 |>
    <| Frontier.order ::= λ order,
         if was_empty && negb (bool_decide (host ∈ order)) then order ++ [host] else order |>.

Definition push url depth f : frontier :=
  if bool_decide (url ∈ Frontier.seen f) then f
  else if MAX_FRONTIER <=? Z.of_nat (size (Frontier.seen f))
  then f <| Frontier.dropped ::= Z.add 1 |>
  else enqueue url depth (f <| Frontier.seen ::= union {[url]} |>).

Definition over_budget f host : bool :=
  match Frontier.max_pages_per_host f with
  | Some cap => cap <=? default 0 (Frontier.taken f !! host)
  | None => false
  end.

(** The host leaves the rotation with its backlog, counted. *)
Definition drop_backlog f host : frontier :=
  match Frontier.per_host f !! host with
  | Some q =>
      f <| Frontier.per_host ::= delete host |>
        <| Frontier.skipped_host_budget ::= Z.add (Z.of_nat (length q)) |>
        <| Frontier.len ::= λ n, n - Z.of_nat (length q) |>
  | None => f
  end.

(** Its next address is handed out; it goes to the back if it has more. *)
Definition hand_out f host (rest : list item) : frontier :=
  let f := f <| Frontier.len ::= λ n, n - 1 |>
             <| Frontier.taken ::= λ taken, <[host := default 0 (taken !! host) + 1]> taken |> in
  match rest with
  | [] => f <| Frontier.per_host ::= delete host |>
  | _ => f <| Frontier.per_host ::= <[host := rest]> |> <| Frontier.order ::= λ o, o ++ [host] |>
  end.

(** [for _ in 0..self.order.len()] *)
Fixpoint pop_rounds (rounds : nat) f : frontier * option item :=
  match rounds, Frontier.order f with
  | O, _ | _, [] => (f, None)
  | S rounds, host :: order =>
      let f := f <| Frontier.order := order |> in
      if over_budget f host then pop_rounds rounds (drop_backlog f host)
      else
        match Frontier.per_host f !! host with
        | None => pop_rounds rounds f
        | Some [] => pop_rounds rounds (f <| Frontier.per_host ::= delete host |>)
        | Some (next :: rest) => (hand_out f host rest, Some next)
        end
  end.
Definition pop f : frontier * option item := pop_rounds (length (Frontier.order f)) f.

(** The budget of the matching pop is refunded. *)
Definition requeue url depth f : frontier :=
  let host := host_key url in
  enqueue url depth
    (f <| Frontier.taken ::= λ taken,
            match taken !! host with
            | Some c => <[host := Z.max (c - 1) 0]> taken
            | None => taken
            end |>).

Definition queued_in (per_host : gmap string (list item)) : list item :=
  concat (map snd (map_to_list per_host)).
Definition queued f : list item := queued_in (Frontier.per_host f).

(** The dedup check is bypassed: the seen set is authoritative. *)
Definition restore (queue : list item) (seen : list string) (taken : gmap string Z) f : frontier :=
  foldl (λ f it, enqueue it.1 it.2 f)
    (f <| Frontier.seen := list_to_set seen |> <| Frontier.taken := taken |>) queue.
End frontier.

(** ** The queued addresses of a map of queues *)

Lemma queued_lookup (m : gmap string (list item)) h q :
  m !! h = Some q → queued_in m ≡ₚ q ++ queued_in (delete h m).
Proof.
  intros Hh. unfold queued_in. rewrite <- (map_to_list_delete m h q Hh). done.
Qed.

Lemma queued_insert (m : gmap string (list item)) h q :
  queued_in (<[h := q]> m) ≡ₚ q ++ queued_in (delete h m).
Proof.
  rewrite (queued_lookup (<[h := q]> m) h q) by apply lookup_insert_eq.
  by rewrite delete_insert_eq.
Qed.

Lemma queued_default (m : gmap string (list item)) h :
  queued_in m ≡ₚ default [] (m !! h) ++ queued_in (delete h m).
Proof.
  destruct (m !! h) as [q|] eqn:E; cbn; [by apply queued_lookup|]. by rewrite delete_id.
Qed.

Lemma elem_of_queued_in (m : gmap string (list item)) it :
  it ∈ queued_in m ↔ ∃ h q, m !! h = Some q ∧ it ∈ q.
Proof.
  unfold queued_in. rewrite list_elem_of_In, in_concat. split.
  - intros (q & Hq & Hit). apply in_map_iff in Hq as ([h q'] & <- & Hin).
    apply list_elem_of_In in Hin, Hit. apply elem_of_map_to_list in Hin. by exists h, q'.
  - intros (h & q & Hm & Hit). exists q. split; [|by apply list_elem_of_In].
    apply in_map_iff. exists (h, q). split; [done|].
    by apply list_elem_of_In, elem_of_map_to_list.
Qed.

Section frontier.
Context `{UrlLib}.
Implicit Types (f : frontier) (url host : string) (depth : Z) (it : item).

(** ** The rotation *)

(** The hosts in rotation are those with a queue, once each; every queue holds addresses of
    its own host; the length is the number of them. *)
Record rotation f : Prop := {
  rot_nodup : NoDup (Frontier.order f);
  rot_dom : ∀ h, h ∈ Frontier.order f ↔ is_Some (Frontier.per_host f !! h);
  rot_queue : ∀ h q, Frontier.per_host f !! h = Some q →
    q ≠ [] ∧ Forall (λ it, host_key it.1 = h) q;
  rot_len : Frontier.len f = Z.of_nat (length (queued f));
  rot_taken : ∀ h c, Frontier.taken f !! h = Some c → 0 ≤ c }.

Lemma rotation_new cap : rotation (Frontier.new cap).
Proof.
  split; cbn; try done; [constructor|]. intros h. rewrite lookup_empty.
  split; [by intros ?%not_elem_of_nil|by intros [? [=]]].
Qed.

Lemma queued_host f it :
  rotation f → it ∈ queued f → host_key it.1 ∈ Frontier.order f.
Proof.
  intros Hr (h & q & Hh & Hit)%elem_of_queued_in. apply (rot_dom _ Hr).
  destruct (rot_queue _ Hr h q Hh) as [_ Hq]. rewrite Forall_forall in Hq.
  by rewrite (Hq _ Hit), Hh.
Qed.

Lemma queue_elem f h q : Frontier.per_host f !! h = Some q → ∀ it, it ∈ q → it ∈ queued f.
Proof. intros Hh it Hit. apply elem_of_queued_in. by exists h, q. Qed.

(** ** Enqueueing *)

Lemma queued_enqueue f url depth : queued (enqueue url depth f) ≡ₚ (url, depth) :: queued f.
Proof.
  unfold queued, enqueue. cbn. rewrite queued_insert, (queued_default (Frontier.per_host f) (host_key url)).
  unfold queue_of. rewrite <- app_assoc. cbn [app]. by rewrite <- Permutation_middle.
Qed.

Lemma enqueue_order f url depth :
  ∃ l, Frontier.order (enqueue url depth f) = Frontier.order f ++ l.
Proof.
  unfold enqueue. cbn. case_if; [by eexists|]. exists []. by rewrite app_nil_r.
Qed.

Lemma rotation_enqueue f url depth : rotation f → rotation (enqueue url depth f).
Proof.
  intros [Hn Hd Hq Hl Ht]. split; [| | | |exact Ht].
  - unfold enqueue. cbn. case_if; [|done]. breflect_in Heqb. apply NoDup_app. split_and!; [done| |repeat constructor; set_solver].
    destruct Heqb as [_ Hni]. intros h Hh ->%list_elem_of_singleton. done.
  - intros h. unfold enqueue, queue_of. cbn.
    destruct (decide (h = host_key url)) as [->|Hne].
    + rewrite lookup_insert_eq. split; [by eexists|]. intros _.
      destruct (Frontier.per_host f !! host_key url) as [q|] eqn:E; cbn.
      * destruct (Hq _ _ E) as [Hq' _]. destruct q; [done|]. apply Hd. by rewrite E.
      * rewrite bool_decide_eq_false_2; [apply elem_of_app; right; by left|].
        intros Hin%Hd. rewrite E in Hin. by destruct Hin.
    + rewrite lookup_insert_ne by done. rewrite <- Hd. case_if; [|done].
      rewrite elem_of_app, list_elem_of_singleton. naive_solver.
  - intros h q. unfold enqueue, queue_of. cbn.
    destruct (decide (h = host_key url)) as [->|Hne].
    + rewrite lookup_insert_eq. intros [= <-]. split; [by destruct (default [] _)|].
      apply Forall_app. split; [|repeat constructor].
      destruct (Frontier.per_host f !! host_key url) as [q|] eqn:E; cbn; [|constructor].
      by destruct (Hq _ _ E).
    + rewrite lookup_insert_ne by done. apply Hq.
  - rewrite queued_enqueue. cbn [length]. unfold enqueue. cbn. lia.
Qed.

(** ** One pop, round by round *)

Inductive pop_result f : frontier → option item → Prop :=
| pop_empty : Frontier.order f = [] → pop_result f f None
| pop_full host order f' r :
    Frontier.order f = host :: order → over_budget f host = true →
    pop_result (drop_backlog (f <| Frontier.order := order |>) host) f' r →
    pop_result f f' r
| pop_hands host order next rest :
    Frontier.order f = host :: order → over_budget f host = false →
    Frontier.per_host f !! host = Some (next :: rest) →
    pop_result f (hand_out (f <| Frontier.order := order |>) host rest) (Some next).

Lemma rotation_drop f host order :
  rotation f → Frontier.order f = host :: order →
  rotation (drop_backlog (f <| Frontier.order := order |>) host)
  ∧ Frontier.order (drop_backlog (f <| Frontier.order := order |>) host) = order.
Proof.
  intros [Hn Hd Hq Hl Ht] Ho. rewrite Ho in Hn, Hd. apply NoDup_cons in Hn as [Hni Hn].
  destruct (proj1 (Hd host) ltac:(by left)) as [q Hh].
  unfold drop_backlog. cbn. rewrite Hh. split; [|done]. split; cbn; [| | | |exact Ht].
  - done.
  - intros h. destruct (decide (h = host)) as [->|Hne].
    + rewrite lookup_delete_eq. split; [done|by intros [? [=]]].
    + rewrite lookup_delete_ne by done. rewrite <- Hd, elem_of_cons. naive_solver.
  - intros h q'. rewrite lookup_delete_Some. intros [_ E]. by apply Hq.
  - unfold queued in *. rewrite (queued_lookup _ _ _ Hh), length_app in Hl. cbn. lia.
Qed.

Lemma rotation_hand f host order next rest :
  rotation f → Frontier.order f = host :: order →
  Frontier.per_host f !! host = Some (next :: rest) →
  rotation (hand_out (f <| Frontier.order := order |>) host rest).
Proof.
  intros [Hn Hd Hq Hl Ht] Ho Hh. rewrite Ho in Hn, Hd. apply NoDup_cons in Hn as [Hni Hn].
  destruct (Hq _ _ Hh) as [_ Hall]. apply Forall_cons in Hall as [_ Hall].
  unfold queued in Hl. rewrite (queued_lookup _ _ _ Hh) in Hl. cbn [length app] in Hl.
  assert (∀ h c, <[host := default 0 (Frontier.taken f !! host) + 1]> (Frontier.taken f) !! h = Some c → 0 ≤ c) as Ht'.
  { intros h c. destruct (decide (h = host)) as [->|Hne]; [|rewrite lookup_insert_ne by done; apply Ht].
    rewrite lookup_insert_eq. intros [= <-].
    destruct (Frontier.taken f !! host) as [c0|] eqn:E; cbn; [|lia]. specialize (Ht _ _ E). lia. }
  destruct rest as [|it rest]; unfold hand_out; split; cbn; try exact Ht'; clear Ht Ht'.
  - done.
  - intros h. destruct (decide (h = host)) as [->|Hne].
    + rewrite lookup_delete_eq. split; [done|by intros [? [=]]].
    + rewrite lookup_delete_ne by done. rewrite <- Hd, elem_of_cons. naive_solver.
  - intros h q'. rewrite lookup_delete_Some. intros [_ E]. by apply Hq.
  - cbn [app] in Hl. unfold queued. cbn. lia.
  - apply NoDup_app. split_and!; [done| |repeat constructor; set_solver].
    intros h Hh' ->%list_elem_of_singleton. done.
  - intros h. destruct (decide (h = host)) as [->|Hne].
    + rewrite lookup_insert_eq. split; [by eexists|]. intros _. apply elem_of_app. right. by left.
    + rewrite lookup_insert_ne by done. rewrite <- Hd, elem_of_app, !elem_of_cons, elem_of_nil.
      naive_solver.
  - intros h q'. destruct (decide (h = host)) as [->|Hne].
    + rewrite lookup_insert_eq. by intros [= <-].
    + rewrite lookup_insert_ne by done. apply Hq.
  - unfold queued. cbn. rewrite queued_insert. rewrite !length_app in *. cbn in *. lia.
Qed.

Lemma pop_rounds_result n f :
  rotation f → length (Frontier.order f) = n →
  pop_result f (pop_rounds n f).1 (pop_rounds n f).2.
Proof.
  revert f. induction n as [|n IH]; intros f Hr Hn.
  - apply nil_length_inv in Hn. by constructor.
  - destruct (Frontier.order f) as [|host order] eqn:Ho; [done|]. injection Hn as Hn.
    cbn [pop_rounds]. rewrite Ho. change (over_budget (f <| Frontier.order := order |>) host)
      with (over_budget f host). destruct (over_budget f host) eqn:Hb.
    + destruct (rotation_drop f host order Hr Ho) as [Hr' Ho'].
      eapply pop_full; [done|done|]. apply IH; [done|by rewrite Ho'].
    + destruct (proj1 (rot_dom _ Hr host)) as [q Hh]; [rewrite Ho; by left|].
      change (Frontier.per_host (f <| Frontier.order := order |>)) with (Frontier.per_host f).
      rewrite Hh. destruct (rot_queue _ Hr _ _ Hh) as [Hne _].
      destruct q as [|next rest]; [done|]. by eapply pop_hands.
Qed.

Lemma pop_spec f : rotation f → pop_result f (pop f).1 (pop f).2.
Proof. intros Hr. by apply pop_rounds_result. Qed.
End frontier.

(** ** What a pop does *)

Section effects.
Context `{UrlLib}.
Implicit Types (f : frontier) (h : string) (it : item) (r : option item).

Definition popped_list r : list item := match r with Some it => [it] | None => [] end.

(** The account of a pop: nothing vanishes but the backlog of hosts over their budget. *)
Record pop_account f f' r : Prop := {
  pa_rotation : rotation f';
  pa_seen : Frontier.seen f' = Frontier.seen f;
  pa_cap : Frontier.max_pages_per_host f' = Frontier.max_pages_per_host f;
  pa_taken : Frontier.taken f' = match r with
    | Some it => <[host_key it.1 := default 0 (Frontier.taken f !! host_key it.1) + 1]>
                   (Frontier.taken f)
    | None => Frontier.taken f end;
  pa_budget : ∀ it, r = Some it → over_budget f (host_key it.1) = false;
  pa_queued : ∃ dropped, queued f ≡ₚ popped_list r ++ dropped ++ queued f'
    ∧ Forall (λ it, over_budget f (host_key it.1) = true) dropped;
  pa_none : r = None → queued f' = [] }.

Lemma rotation_empty f : rotation f → Frontier.order f = [] → queued f = [].
Proof.
  intros Hr Ho. destruct (queued f) as [|it l] eqn:E; [done|]. exfalso.
  assert (host_key it.1 ∈ Frontier.order f) as Hin.
  { apply queued_host; [done|]. rewrite E. by left. }
  rewrite Ho in Hin. by apply not_elem_of_nil in Hin.
Qed.

Lemma pop_result_account f f' r : rotation f → pop_result f f' r → pop_account f f' r.
Proof.
  intros Hr Hp. induction Hp as [f Ho|f host order f' r Ho Hb Hp IH|f host order next rest Ho Hb Hh].
  - split; try done; [|by intros _; apply rotation_empty].
    exists []. split; [done|constructor].
  - destruct (rotation_drop f host order Hr Ho) as [Hr' Ho'].
    destruct (proj1 (rot_dom _ Hr host)) as [q Hh]; [rewrite Ho; by left|].
    unfold drop_backlog in *. cbn in *. rewrite Hh in *.
    destruct (IH Hr') as [P1 P2 P3 P4 P5 (dropped & P6 & P7) P8]. cbn in *.
    split; try done. exists (q ++ dropped). split.
    + unfold queued in *. cbn in P6. rewrite (queued_lookup _ _ _ Hh), P6.
      rewrite !app_assoc. do 2 f_equiv. apply Permutation_app_comm.
    + apply Forall_app. split; [|done]. destruct (rot_queue _ Hr _ _ Hh) as [_ Hq].
      eapply Forall_impl; [exact Hq|]. by intros it ->.
  - destruct (rot_queue _ Hr _ _ Hh) as [_ Hq]. apply Forall_cons in Hq as [Hn _]. cbn in Hn.
    split.
    + by eapply rotation_hand.
    + by destruct rest.
    + by destruct rest.
    + rewrite Hn. by destruct rest.
    + by intros it [= <-]; rewrite Hn.
    + exists []. split; [|constructor]. cbn. unfold queued. rewrite (queued_lookup _ _ _ Hh).
      destruct rest as [|it rest]; unfold hand_out; cbn; [done|]. by rewrite queued_insert.
    + done.
Qed.

Lemma pop_accounts f : rotation f → pop_account f (pop f).1 (pop f).2.
Proof. intros Hr. apply pop_result_account; [done|]. by apply pop_spec. Qed.

(** ** Waiting *)

(** [h] waits behind [n] hosts, with budget left. *)
Definition waits f h (n : nat) : Prop :=
  (∃ l l', Frontier.order f = l ++ h :: l' ∧ (length l ≤ n)%nat) ∧ over_budget f h = false.

Lemma pop_result_serves f f' r h n :
  rotation f → pop_result f f' r → waits f h n →
  (∃ it, r = Some it ∧ host_key it.1 = h)
  ∨ (0 < n)%nat ∧ waits f' h (n - 1) ∧ is_Some r.
Proof.
  intros Hr Hp. revert n. induction Hp as [f Ho|f host order f' r Ho Hb Hp IH|f host order next rest Ho Hb Hh];
    intros n [(l & l' & Hl & Hn) Hbh].
  - rewrite Ho in Hl. by destruct l.
  - destruct (rotation_drop f host order Hr Ho) as [Hr' Ho'].
    destruct l as [|x l]; rewrite Ho in Hl; cbn in Hl; injection Hl as -> Hl; [by rewrite Hb in Hbh|].
    destruct (IH Hr' (n - 1)%nat) as [?|(Hlt & [(k & k' & Hk & Hlk) Hbk] & Hsome)].
    + split; [exists l, l'; split; [by rewrite Ho'|cbn in Hn; lia]|].
      unfold drop_backlog. cbn. by destruct (Frontier.per_host f !! x).
    + by left.
    + right. split; [lia|]. split; [|done]. split; [|done]. exists k, k'. split; [done|]. lia.
  - destruct (rot_queue _ Hr _ _ Hh) as [_ Hq]. apply Forall_cons in Hq as [Hnext _]. cbn in Hnext.
    destruct l as [|x l]; rewrite Ho in Hl; cbn in Hl; injection Hl as -> Hl; [left; by exists next|].
    right. cbn in Hn. split; [lia|]. split; [|done].
    assert (x ≠ h) as Hne.
    { intros ->. pose proof (rot_nodup _ Hr) as Hnd. rewrite Ho, Hl in Hnd.
      apply NoDup_cons in Hnd as [Hni _]. apply Hni, elem_of_app. right. by left. }
    split.
    + destruct rest; unfold hand_out; cbn; rewrite Hl.
      * exists l, l'. split; [done|lia].
      * exists l, (l' ++ [x]). split; [by rewrite <- app_assoc|lia].
    + destruct rest; unfold hand_out, over_budget in *; cbn in *; by rewrite lookup_insert_ne by done.
Qed.

(** The operations of the loop on its frontier. *)
Inductive op : Type := Push (url : string) (depth : Z) | Pop | Requeue (url : string) (depth : Z).
Definition run_op (o : op) f : frontier * list item :=
  match o with
  | Push url depth => (push url depth f, [])
  | Requeue url depth => (requeue url depth f, [])
  | Pop => let '(f, r) := pop f in (f, popped_list r)
  end.
Fixpoint run_ops (os : list op) f : frontier * list item :=
  match os with
  | [] => (f, [])
  | o :: os => let '(f, out) := run_op o f in let '(f, out') := run_ops os f in (f, out ++ out')
  end.
Definition pops (os : list op) : nat :=
  length (List.filter (λ o, match o with Pop => true | _ => false end) os).

Lemma rotation_push f url depth : rotation f → rotation (push url depth f).
Proof.
  intros Hr. unfold push. case_if; [done|]. case_if; [by destruct Hr|].
  apply rotation_enqueue. by destruct Hr.
Qed.
Lemma rotation_requeue f url depth : rotation f → rotation (requeue url depth f).
Proof.
  intros [Hn Hd Hq Hl Ht]. apply rotation_enqueue. split; try done. cbn. intros h c.
  destruct (Frontier.taken f !! host_key url) as [c0|] eqn:E; [|apply Ht].
  destruct (decide (h = host_key url)) as [->|Hne]; [|rewrite lookup_insert_ne by done; apply Ht].
  rewrite lookup_insert_eq. intros [= <-]. lia.
Qed.

Lemma waits_push f url depth h n : waits f h n → waits (push url depth f) h n.
Proof.
  intros [(l & l' & Hl & Hn) Hb]. unfold push. case_if; [by split; [exists l, l'|]|].
  case_if; [by split; [exists l, l'|]|]. split; [|done].
  destruct (enqueue_order (f <| Frontier.seen ::= union {[url]} |>) url depth) as [l2 ->].
  exists l, (l' ++ l2). cbn. rewrite Hl, <- app_assoc. done.
Qed.

Lemma waits_requeue f url depth h n : rotation f → waits f h n → waits (requeue url depth f) h n.
Proof.
  intros Hr [(l & l' & Hl & Hn) Hb]. unfold requeue. split.
  - match goal with |- context [enqueue url depth ?g] =>
      destruct (enqueue_order g url depth) as [l2 ->] end.
    exists l, (l' ++ l2). cbn. rewrite Hl, <- app_assoc. done.
  - unfold over_budget in *. cbn. destruct (Frontier.max_pages_per_host f) as [cap|]; [|done].
    destruct (Frontier.taken f !! host_key url) as [c|] eqn:E; [|done].
    destruct (decide (h = host_key url)) as [->|Hne]; [|by rewrite lookup_insert_ne by done].
    rewrite lookup_insert_eq. rewrite E in Hb. apply (rot_taken _ Hr) in E.
    cbn in *. apply Z.leb_gt in Hb. apply Z.leb_gt. lia.
Qed.

Lemma waits_weaken f h n n' : (n ≤ n')%nat → waits f h n → waits f h n'.
Proof. intros Hle [(l & l' & Hl & Hn) Hb]. split; [|done]. exists l, l'. split; [done|lia]. Qed.

Lemma run_ops_serve os f h n :
  rotation f → waits f h n → (n < pops os)%nat →
  ∃ it, it ∈ (run_ops os f).2 ∧ host_key it.1 = h.
Proof.
  revert f n. induction os as [|o os IH]; intros f n Hr Hw Hn; [cbn in Hn; lia|].
  destruct o as [url depth| |url depth]; cbn [run_ops run_op].
  - specialize (IH (push url depth f) n (rotation_push _ _ _ Hr) (waits_push _ _ _ _ _ Hw) Hn).
    by destruct (run_ops os (push url depth f)).
  - pose proof (pop_accounts f Hr) as [Hr' _ _ _ _ _ _].
    pose proof (pop_result_serves _ _ _ h n Hr (pop_spec f Hr) Hw) as Hs.
    destruct (pop f) as [f' r]; cbn [fst snd] in *.
    destruct Hs as [(it & -> & Hit)|(Hpos & Hw' & _)].
    + exists it. split; [|done]. destruct (run_ops os f') as [f'' out]. by left.
    + destruct (IH f' (n - 1)%nat Hr' Hw') as (it & Hin & Hit).
      { unfold pops in Hn |- *. cbn in Hn. lia. }
      exists it. split; [|done]. destruct (run_ops os f') as [f'' out]. cbn in *.
      apply elem_of_app. by right.
  - specialize (IH (requeue url depth f) n (rotation_requeue _ _ _ Hr) (waits_requeue _ _ _ _ _ Hr Hw) Hn).
    by destruct (run_ops os (requeue url depth f)).
Qed.
End effects.

(** No host starves: a host in the rotation with [n] hosts ahead of it and budget left is
    served within the next [n + 1] pops, whatever is discovered, delayed and put back between
    them - so a large site cannot hold up the others. *)
Theorem no_host_starves `{UrlLib} os f h n :
  rotation f → waits f h n → (n < pops os)%nat →
  ∃ it, it ∈ (run_ops os f).2 ∧ host_key it.1 = h.
Proof. apply run_ops_serve. Qed.

(** ** Where every address is *)

Section places.
Context `{UrlLib}.
Implicit Types (f : frontier) (u : string) (e : list string).

(** Every address seen is queued, or in [e], and nowhere twice. *)
Definition placed f e : Prop :=
  NoDup (e ++ map fst (queued f)) ∧ ∀ u, u ∈ Frontier.seen f ↔ u ∈ e ++ map fst (queued f).

Lemma placed_perm f e e' : e ≡ₚ e' → placed f e → placed f e'.
Proof.
  intros Hp [Hn Hs]. split; [by rewrite <- Hp|]. intros u. by rewrite Hs, Hp.
Qed.

Lemma placed_queued f f' e e' :
  e' ++ map fst (queued f') ≡ₚ e ++ map fst (queued f) → Frontier.seen f' = Frontier.seen f →
  placed f e → placed f' e'.
Proof. intros Hp Hs [Hn Hu]. split; [by rewrite Hp|]. intros u. by rewrite Hs, Hp. Qed.

Lemma placed_push f e u depth : placed f e → placed (push u depth f) e.
Proof.
  intros [Hn Hs]. unfold push. case_if; [by split|]. case_if; [by split|]. breflect_in Heqb.
  rewrite Hs in Heqb.
  assert (map fst (queued (enqueue u depth (f <| Frontier.seen ::= union {[u]} |>)))
          ≡ₚ u :: map fst (queued f)) as Hq.
  { pose proof (queued_enqueue (f <| Frontier.seen ::= union {[u]} |>) u depth) as Hq.
    apply (Permutation_map fst) in Hq. exact Hq. }
  split.
  - rewrite Hq, <- Permutation_middle. by constructor.
  - intros u'. rewrite Hq, <- Permutation_middle, elem_of_cons, <- Hs.
    unfold enqueue. cbn. set_solver.
Qed.

Lemma placed_pop f e : rotation f → placed f e →
  ∃ dropped, placed (pop f).1 (e ++ map fst (popped_list (pop f).2) ++ dropped)
    ∧ Forall (λ u, over_budget f (host_key u) = true) dropped.
Proof.
  intros Hr Hp. destruct (pop_accounts f Hr) as [_ Hseen _ _ _ (dropped & Hq & Hd) _].
  exists (map fst dropped). split; [|by apply Forall_fmap].
  eapply placed_queued; [|exact Hseen|exact Hp].
  apply (Permutation_map fst) in Hq. rewrite !map_app in Hq. by rewrite Hq, <- !app_assoc.
Qed.

Lemma placed_requeue f e u depth : placed f (u :: e) → placed (requeue u depth f) e.
Proof.
  intros Hp. unfold requeue.
  match goal with |- context [enqueue u depth ?g] => pose proof (queued_enqueue g u depth) as Hq end.
  apply (Permutation_map fst) in Hq. apply (placed_queued f _ (u :: e) e); [|done|exact Hp].
  rewrite Hq. cbn. by rewrite <- Permutation_middle.
Qed.

Lemma placed_twice f e e' u : placed f (e ++ u :: e') → u ∈ e ++ e' → False.
Proof.
  intros [Hn _] Hin. rewrite <- app_assoc in Hn. apply NoDup_app in Hn as (_ & Hd & Hn).
  apply NoDup_cons in Hn as [Hni _]. apply elem_of_app in Hin as [Hin|Hin].
  - apply (Hd _ Hin). by left.
  - apply Hni, elem_of_app. by left.
Qed.

(** ** Restoring a checkpoint *)

Lemma restore_account cap queue seen taken :
  (∀ h c, taken !! h = Some c → 0 ≤ c) →
  let f := restore queue seen taken (Frontier.new cap) in
  rotation f ∧ queued f ≡ₚ queue ∧ Frontier.seen f = list_to_set seen ∧ Frontier.taken f = taken
  ∧ Frontier.max_pages_per_host f = Frontier.max_pages_per_host (Frontier.new cap).
Proof.
  intros Ht. unfold restore. cbn zeta.
  set (f0 := (Frontier.new cap) <| Frontier.seen := list_to_set seen |> <| Frontier.taken := taken |>).
  assert (rotation f0) as Hr.
  { destruct (rotation_new cap) as [R1 R2 R3 R4 _]. by split. }
  assert (∀ f, rotation f →
    let f' := foldl (λ f it, enqueue it.1 it.2 f) f queue in
    rotation f' ∧ queued f' ≡ₚ queue ++ queued f ∧ Frontier.seen f' = Frontier.seen f
    ∧ Frontier.taken f' = Frontier.taken f
    ∧ Frontier.max_pages_per_host f' = Frontier.max_pages_per_host f) as Hall.
  { clear. induction queue as [|[u d] queue IH]; intros f Hr; cbn; [done|].
    destruct (IH _ (rotation_enqueue f u d Hr)) as (R & Q & S & T & M). split_and!; [done| |done..].
    rewrite Q, queued_enqueue. by rewrite <- Permutation_middle. }
  destruct (Hall f0 Hr) as (R & Q & S & T & M). split_and!; [done| |done..].
  rewrite Q. cbn. unfold queued. cbn. by rewrite app_nil_r.
Qed.

(** ** A host over its budget is never served again *)

Definition requeues (h : string) (o : op) : bool :=
  match o with Requeue url _ => String.eqb (host_key url) h | _ => false end.

(** A host over its budget stays so, and no pop serves it. *)
Lemma pop_keeps_full f h :
  rotation f → over_budget f h = true →
  over_budget (pop f).1 h = true ∧ ∀ it, (pop f).2 = Some it → host_key it.1 ≠ h.
Proof.
  intros Hr Hb. destruct (pop_accounts f Hr) as [_ _ Hcap Htaken Hbudget _ _].
  destruct (pop f) as [f' r]. cbn [fst snd] in *.
  assert (∀ it, r = Some it → host_key it.1 ≠ h) as Hne.
  { intros it Hit Heq. specialize (Hbudget it Hit). by rewrite Heq, Hb in Hbudget. }
  split; [|done]. unfold over_budget in *. rewrite Hcap, Htaken.
  destruct r as [it|]; [|done]. specialize (Hne it eq_refl).
  destruct (Frontier.max_pages_per_host f); [|done]. by rewrite lookup_insert_ne by done.
Qed.

Lemma requeue_keeps_full f h url depth :
  host_key url ≠ h → over_budget (requeue url depth f) h = over_budget f h.
Proof.
  intros Hne. unfold requeue, over_budget. cbn. destruct (Frontier.max_pages_per_host f); [|done].
  destruct (Frontier.taken f !! host_key url); [|done]. by rewrite lookup_insert_ne.
Qed.

Lemma push_keeps_full f h url depth : over_budget (push url depth f) h = over_budget f h.
Proof. unfold push. case_if; [done|]. by case_if. Qed.

Lemma full_host_stays os f h :
  rotation f → over_budget f h = true → forallb (λ o, negb (requeues h o)) os = true →
  Forall (λ it : item, host_key it.1 ≠ h) (run_ops os f).2.
Proof.
  revert f. induction os as [|o os IH]; intros f Hr Hb; [constructor|].
  cbn [forallb]. intros [Ho Hos]%andb_true_iff.
  destruct o as [url depth| |url depth]; cbn [run_ops run_op].
  - specialize (IH (push url depth f) (rotation_push _ _ _ Hr)). rewrite push_keeps_full in IH.
    destruct (run_ops os (push url depth f)) as [f' out]. by apply IH.
  - destruct (pop_keeps_full f h Hr Hb) as [Hb' Hne].
    pose proof (pa_rotation _ _ _ (pop_accounts f Hr)) as Hr'.
    destruct (pop f) as [f' r]. cbn [fst snd] in *. specialize (IH f' Hr' Hb' Hos).
    destruct (run_ops os f') as [f'' out]. cbn in *. apply Forall_app. split; [|done].
    destruct r as [it|]; repeat constructor. by apply Hne.
  - cbn in Ho. apply negb_true_iff, String.eqb_neq in Ho.
    specialize (IH (requeue url depth f) (rotation_requeue _ _ _ Hr)).
    rewrite requeue_keeps_full in IH by done.
    destruct (run_ops os (requeue url depth f)) as [f' out]. by apply IH.
Qed.
End places.
