(* ===== verification/Materiality.v ===== *)
(** * Materiality: is this change news?

    The one verdict of [crates/core/src/materiality.rs]: a signal (two records, two bodies
    of text or two fingerprints) and a sensitivity (declared noise paths and two distance
    bounds) give a significance, a distance and a weight. *)

From stdpp Require Import gmap pretty.
From S2P Require Import Prelude Float64 Json Filters Simhash Records ChangePlan.

Definition COSMETIC_AT_OR_BELOW : Z := 3.
Definition STRUCTURAL_AT_OR_ABOVE : Z := 16.

Inductive Significance : Type := Cosmetic | Material | Structural.
Definition significance_as_str (s : Significance) : string :=
  match s with Cosmetic => "cosmetic" | Material => "material" | Structural => "structural" end.
Definition is_news (s : Significance) : bool := match s with Cosmetic => false | _ => true end.

Module Sensitivity.
Record t : Type := mk {
  noise : list string; cosmetic_at_or_below : Z; structural_at_or_above : Z }.
#[global] Instance eta_sensitivity : Eta t := λ s,
  mk (noise s) (cosmetic_at_or_below s) (structural_at_or_above s).
Definition default : t := mk [] COSMETIC_AT_OR_BELOW STRUCTURAL_AT_OR_ABOVE.
(** [cosmetic + 1] in 32 bits. *)
Definition new (cosmetic structural : Z) : t :=
  mk [] cosmetic (Z.max structural (wrap_u32 (cosmetic + 1))).
Definition with_noise (paths : list string) (s : t) : t := s <| noise := DerivedPaths_new paths |>.
Definition derived_paths (s : t) : DerivedPaths := DerivedPaths_new (noise s).
Definition strip (s : t) (value : Json) : Json := hash_input (DerivedPaths_new (noise s)) value.
End Sensitivity.

Module Signal.
Record t : Type := mk {
  previous : option Json; current : option Json; previous_sim : option Z; current_sim : Z;
  moved_hint : option (list string) }.
#[global] Instance eta_signal : Eta t := λ s,
  mk (previous s) (current s) (previous_sim s) (current_sim s) (moved_hint s).
Definition records (previous current : Json) : t := mk (Some previous) (Some current) None 0 None.
Definition first_sighting : t := mk None None None 0 None.
Definition bodies `{UnicodeAlphanumeric, Unicode} (previous current : string) : t :=
  mk None None (Some (simhash previous)) (simhash current) None.
Definition fingerprints (previous_sim : option Z) (current_sim : Z) : t :=
  mk None None (s ← previous_sim; if s =? 0 then None else Some s) current_sim None.
Definition moved (paths : list string) (s : t) : t := s <| moved_hint := Some paths |>.
End Signal.

Module Verdict.
Record t : Type := mk {
  significance : Significance; distance : option Z; weight : f64; moved_paths : list string;
  noise_paths_moved : list string; reason : string }.
End Verdict.

Section judging.
Context `{JsonEq}.

(** The arm of [collect_moved] that compares wholesale. *)
Definition moved_leaf (previous current : Json) (prefix : string) : list string :=
  if json_eqb previous current then []
  else [if String.eqb prefix "" then "<record>" else prefix]%string.

Fixpoint collect_moved (previous : Json) (current : Json) (prefix : string) : list string :=
  match previous, current with
  | JObject a, JObject b =>
      let subs := map (λ '(k, v), (k, collect_moved v)) a in
      flat_map (λ key,
        let path := sub_path prefix key in
        match map_get key subs, map_get key b with
        | Some below, Some y => below y path
        | _, _ => [path]
        end) (union_keys a b)
  | _, _ => moved_leaf previous current prefix
  end.

(** The substantive paths, and the declared noise. *)
Definition partition_moved (previous current : Json) (s : Sensitivity.t) :
    list string * list string :=
  let moved := collect_moved previous current EmptyString in
  let is_noise path := existsb (String.eqb path) (Sensitivity.noise s) in
  (List.filter (λ p, negb (is_noise p)) moved, List.filter is_noise moved).

Definition ramp (distance : Z) (s : Sensitivity.t) : f64 :=
  if distance <=? Sensitivity.cosmetic_at_or_below s then f64_zero
  else
    let span := Sensitivity.structural_at_or_above s - Sensitivity.cosmetic_at_or_below s in
    f64_min (f64_div (f64_of_Z (distance - Sensitivity.cosmetic_at_or_below s)) (f64_of_Z span))
      (f64_of_Z 1).

Definition show (n : Z) : string := pretty n.

(** Gate 2: the magnitude. *)
Definition by_magnitude (distance : Z) (s : Sensitivity.t) : Significance * string :=
  let ceiling := show (Sensitivity.cosmetic_at_or_below s) in
  let bound := show (Sensitivity.structural_at_or_above s) in
  let moved := ("the fingerprint moved " +:+ show distance +:+ " bit(s)")%string in
  if distance <=? Sensitivity.cosmetic_at_or_below s then
    (Cosmetic, moved +:+ " — at or below the cosmetic ceiling of " +:+ ceiling)%string
  else if Sensitivity.structural_at_or_above s <=? distance then
    (Structural, moved +:+ " — at or above " +:+ bound
                 +:+ ", so this may not be the same document")%string
  else
    (Material, moved +:+ ", between the cosmetic ceiling of " +:+ ceiling
               +:+ " and the structural bound of " +:+ bound)%string.

Definition judge `{JsonRender, UnicodeAlphanumeric, Unicode} (signal : Signal.t) (s : Sensitivity.t) :
    Verdict.t :=
  let '(previous_sim, current_sim, moved_paths, noise_paths_moved) :=
    match Signal.previous signal, Signal.current signal with
    | Some previous, Some current =>
        let '(moved, noise_moved) := partition_moved previous current s in
        (Some (simhash_value (Sensitivity.strip s previous)),
         simhash_value (Sensitivity.strip s current), moved, noise_moved)
    | _, _ =>
        (Signal.previous_sim signal, Signal.current_sim signal,
         default [] (Signal.moved_hint signal), [])
    end in
  match previous_sim with
  | None =>
      Verdict.mk Structural None (f64_of_Z 1) moved_paths noise_paths_moved
        "first sighting — no prior fingerprint to discount against"
  | Some previous_sim =>
      let distance := hamming previous_sim current_sim in
      let weight := ramp distance s in
      if is_some (Signal.previous signal) && match moved_paths with [] => true | _ => false end
      then
        let reason :=
          match noise_paths_moved with
          | [] => "nothing moved"
          | _ => "only declared-noise path(s) moved: " +:+ String.concat ", " noise_paths_moved
          end%string in
        Verdict.mk Cosmetic (Some distance) weight moved_paths noise_paths_moved reason
      else
        let '(significance, reason) := by_magnitude distance s in
        Verdict.mk significance (Some distance) weight moved_paths noise_paths_moved reason
  end.
End judging.
