(* ===== verification/Revisit.v ===== *)
(** * Revisit: when a crawler looks again

    The learned change cadence of a page, the due score it gives, and the one selection a
    revisit run and its preview share ([crates/core/src/crawl.rs]).  The exponential of the
    platform's math library is a parameter. *)

From stdpp Require Import gmap.
From Stdlib Require Import Floats.SpecFloat.
From S2P Require Import Prelude Sql Float64 Json Filters Simhash Records ChangePlan Materiality.
From S2P Require Import Robots.

(** [f64::exp] *)
Class MathLib := f64_exp : f64 → f64.

Definition CADENCE_EWMA_ALPHA : f64 := f64_of_decimal false 3 (-1).
Definition DEFAULT_CADENCE_PRIOR_SECS : f64 := f64_mul (f64_of_Z 7) (f64_of_Z 86400).

Module RevisitCadence.
Record t : Type := mk {
  checks : Z; changes : f64; last_checked_at : option Z; last_change_at : option Z;
  interval_secs : option f64 }.
#[global] Instance eta_cadence : Eta t := λ c,
  mk (checks c) (changes c) (last_checked_at c) (last_change_at c) (interval_secs c).
Definition default : t := mk 0 f64_zero None None None.
Definition first_seen (now : Z) : t := mk 1 f64_zero (Some now) (Some now) None.
Definition observe_unchanged (now : Z) (c : t) : t :=
  c <| checks ::= Z.add 1 |> <| last_checked_at := Some now |>.
(** The newest gap into the average. *)
Definition smoothed (gap : f64) (interval : option f64) : f64 :=
  match interval with
  | None => gap
  | Some p =>
      f64_add (f64_mul CADENCE_EWMA_ALPHA gap)
        (f64_mul (f64_sub (f64_of_Z 1) CADENCE_EWMA_ALPHA) p)
  end.
Definition observe_changed (now : Z) (weight : f64) (c : t) : t :=
  if f64_le weight f64_zero then observe_unchanged now c
  else
    let next := observe_unchanged now c in
    let next := next <| changes ::= λ m, f64_add m weight |> in
    let next :=
      match last_change_at c with
      | Some prev =>
          next <| interval_secs :=
            Some (smoothed (f64_of_Z (Z.max (now - prev) 1)) (interval_secs c)) |>
      | None => next
      end in
    next <| last_change_at := Some now |>.
End RevisitCadence.
Abbreviation Cadence := RevisitCadence.t.

(** An unknown old fingerprint grades as a full change. *)
Definition change_weight `{JsonEq, JsonRender, UnicodeAlphanumeric, Unicode} (old_simhash new_simhash : Z) : f64 :=
  Verdict.weight (judge (Signal.fingerprints (Some old_simhash) new_simhash) Sensitivity.default).

Definition usable (t : f64) : bool := is_finite t && f64_gt t f64_zero.

Definition due_score `{MathLib} (cadence : Cadence) (now_epoch : Z) (prior_interval_secs : f64) : f64 :=
  match RevisitCadence.last_checked_at cadence with
  | None => f64_of_Z 1
  | Some last_checked =>
      let interval :=
        default (if usable prior_interval_secs then prior_interval_secs
                 else DEFAULT_CADENCE_PRIOR_SECS)
          (t ← RevisitCadence.interval_secs cadence; if usable t then Some t else None) in
      let elapsed := f64_of_Z (Z.max (now_epoch - last_checked) 0) in
      f64_sub (f64_of_Z 1) (f64_exp (f64_div (SFopp elapsed) interval))
  end.

Module RevisitSeed.
Record t : Type := mk {
  url : string; etag : option string; last_modified : option string; simhash : Z;
  cadence : Cadence }.
Definition bare (url : string) (etag last_modified : option string) : t :=
  mk url etag last_modified 0 RevisitCadence.default.
End RevisitSeed.
Abbreviation Seed := RevisitSeed.t.

(** A seed and its due score. *)
Module ScoredSeed.
Record t : Type := mk { due_score : f64; seed : Seed }.
End ScoredSeed.

Module RevisitPlan.
Record t : Type := mk {
  scored : list ScoredSeed.t; would_fetch : nat; skipped_not_due : nat;
  skipped_over_budget : nat; cutoff_due_score : option f64; by_host : gmap string nat }.
Definition selected (p : t) : list ScoredSeed.t := take (would_fetch p) (scored p).
End RevisitPlan.

Section planning.
Context `{UrlLib, MathLib}.

(** The sum and the number of the usable intervals of each host. *)
Definition add_interval (sums : gmap string (f64 * Z)) (seed : Seed) : gmap string (f64 * Z) :=
  match (t ← RevisitCadence.interval_secs (RevisitSeed.cadence seed);
         if usable t then Some t else None) with
  | Some interval =>
      match host_of (RevisitSeed.url seed) with
      | Some host =>
          let '(sum, n) := default (f64_zero, 0) (sums !! host) in
          <[host := (f64_add sum interval, n + 1)]> sums
      | None => sums
      end
  | None => sums
  end.
Definition host_cadence_priors (seeds : list Seed) : gmap string f64 :=
  (λ '(sum, n), f64_div sum (f64_of_Z n)) <$> foldl add_interval ∅ seeds.

Definition prior_of (priors : gmap string f64) (seed : Seed) : f64 :=
  default DEFAULT_CADENCE_PRIOR_SECS
    (coalesce_opt (RevisitCadence.interval_secs (RevisitSeed.cadence seed))
       (h ← host_of (RevisitSeed.url seed); priors !! h)).
Definition score_seed (priors : gmap string f64) (now_epoch : Z) (seed : Seed) : ScoredSeed.t :=
  ScoredSeed.mk (due_score (RevisitSeed.cadence seed) now_epoch (prior_of priors seed)) seed.

(** Most-due first; ties, and scores that do not compare, by address. *)
Definition more_due (a b : ScoredSeed.t) : bool :=
  match SFcompare (ScoredSeed.due_score b) (ScoredSeed.due_score a) with
  | Some Lt => true
  | Some Gt => false
  | _ => String.leb (RevisitSeed.url (ScoredSeed.seed a)) (RevisitSeed.url (ScoredSeed.seed b))
  end.

Definition count_host (by_host : gmap string nat) (s : ScoredSeed.t) : gmap string nat :=
  match host_of (RevisitSeed.url (ScoredSeed.seed s)) with
  | Some host => <[host := S (default 0%nat (by_host !! host))]> by_host
  | None => by_host
  end.

Definition plan_revisit (seeds : list Seed) (min_due_score : f64) (budget : option nat)
    (now_epoch : Z) : RevisitPlan.t :=
  let priors := host_cadence_priors seeds in
  let scored := order_by more_due (map (score_seed priors now_epoch) seeds) in
  let due :=
    length (List.filter (λ s, f64_le min_due_score (ScoredSeed.due_score s)) scored) in
  let would_fetch := match budget with Some b => (due `min` b)%nat | None => due end in
  RevisitPlan.mk scored would_fetch (length scored - due) (due - would_fetch)
    (match would_fetch with
     | S last => ScoredSeed.due_score <$> scored !! last
     | O => None
     end)
    (foldl count_host ∅ (take would_fetch scored)).
End planning.
