(* ===== verification/Pages.v ===== *)
(** * Pages: one fetch of a crawl, and what is read off the body

    The outcome of a fetch attempt, the bot-wall classifier and the page parser
    ([crates/core/src/crawl.rs], [crates/core/src/fetcher.rs]).  The HTML parser and the
    resolution of a relative address are parameters. *)

From stdpp Require Import gmap.
From S2P Require Import Prelude Filters Simhash Robots.

(** ** Documents ([scraper]) *)

Class HtmlLib := {
  Document : Type;
  parse_document : string → Document;
  (** the [href] of every [a[href]], in document order *)
  hrefs : Document → list string;
  (** the text nodes of the first [title] *)
  title_text : Document → option (list string);
  (** every text node, with the names of the elements around it *)
  text_nodes : Document → list (string * list string) }.
(** [Url::join] *)
Class UrlJoin `{UrlLib} := url_join : Url → string → option Url.

(** [str::split_whitespace], then [join] on a blank *)
Fixpoint words_of (fuel : nat) (s word : string) : list string :=
  let flush := if String.eqb word "" then [] else [word] in
  match fuel with
  | O => flush
  | S fuel =>
      match strip_any white_space s, s with
      | Some rest, _ => flush ++ words_of fuel rest EmptyString
      | None, EmptyString => flush
      | None, String a rest => words_of fuel rest (word +:+ String a EmptyString)
      end
  end.
Definition split_whitespace (s : string) : list string := words_of (S (String.length s)) s EmptyString.

(** ** The page parser *)

Definition EXCERPT_CHARS : nat := 300.
Definition NON_CONTENT : list string :=
  ["script"; "style"; "noscript"; "template"; "head"; "title"]%string.

Module ParsedPage.
Record t : Type := mk {
  links : list string; title : option string; content_chars : Z; excerpt : string }.
End ParsedPage.

Section parsing.
Context `{UrlJoin, HtmlLib}.

Definition keep_link (base_url : Url) (same_domain : bool) (href : string) : option string :=
  joined ← url_join base_url href;
  if negb (is_http joined) then None
  else if same_domain && negb (bool_decide (host_str joined = host_str base_url)) then None
  else Some (canonicalize joined).
Definition extract_links (doc : Document) (base : string) (same_domain : bool) : list string :=
  match url_parse base with
  | Some base_url => omap (keep_link base_url same_domain) (hrefs doc)
  | None => []
  end.

Definition extract_title (doc : Document) : option string :=
  raw ← title_text doc;
  let title := String.concat " " (split_whitespace (String.concat "" raw)) in
  if String.eqb title "" then None else Some title.

Definition extract_text (doc : Document) : string :=
  String.concat " "
    (flat_map (λ '(text, ancestors),
       if existsb (λ name, existsb (String.eqb name) NON_CONTENT) ancestors then []
       else split_whitespace text) (text_nodes doc)).

Definition parse_page (html base : string) (same_domain : bool) : ParsedPage.t :=
  let doc := parse_document html in
  let text := chars (extract_text doc) in
  ParsedPage.mk (extract_links doc base same_domain) (extract_title doc)
    (Z.of_nat (length text)) (String.concat "" (take EXCERPT_CHARS text)).
End parsing.

(** ** The bot-wall classifier *)

Definition CHALLENGE_MARKERS : list string :=
  ["checking your browser"; "cf-browser-verification"; "just a moment"; "attention required";
   "enable javascript"; "please enable cookies"; "verify you are human"; "captcha";
   "ddos protection by"]%string.
Definition CHALLENGE_SCAN_CHARS : nat := 4096.

Definition challenge_marker `{Unicode} (body : string) : option string :=
  let head := to_lowercase (String.concat "" (take CHALLENGE_SCAN_CHARS (chars body))) in
  (λ m, "challenge marker: " +:+ quoted m)%string
    <$> List.find (λ m, contains m head) CHALLENGE_MARKERS.
Definition http_bot_wall `{Unicode} (status : Z) (body : string) : option string :=
  if status =? 403 then Some "challenge/block status 403"%string
  else if status =? 429 then Some "rate-limited status 429"%string
  else if status =? 503 then Some "unavailable/challenge status 503"%string
  else challenge_marker body.

(** ** One attempt *)

Module HttpResponse.
Record t : Type := mk { status : Z; headers : list (string * string); body : string }.
End HttpResponse.
Definition is_success (r : HttpResponse.t) : bool :=
  (200 <=? HttpResponse.status r) && (HttpResponse.status r <? 300).

(** The first header of the name in any case, unless empty. *)
Definition header_value (headers : list (string * string)) (name : string) : option string :=
  v ← snd <$> List.find (λ kv, String.eqb (ascii_lower kv.1) (ascii_lower name)) headers;
  if String.eqb v "" then None else Some v.

Module Fetched.
Record t : Type := mk {
  url : string; depth : Z; status : Z; body : string; links : list string;
  title : option string; content_chars : Z; excerpt : string; etag : option string;
  last_modified : option string }.
End Fetched.

Inductive CrawlFetch : Type :=
| Page (f : Fetched.t)
| Failed (url : string)
| BotWall (url reason : string)
| NotModified (url : string)
| Gone (url : string) (status : Z).

Definition fetch_outcome_url (fetch : CrawlFetch) : string :=
  match fetch with
  | Page f => Fetched.url f
  | Failed url | BotWall url _ | NotModified url | Gone url _ => url
  end.

(** The request sent: its validators, and whether the response cache is bypassed. *)
Module HttpRequest.
Record t : Type := mk {
  url : string; no_cache : bool; etag : option string; if_modified_since : option string }.
Definition get (url : string) : t := mk url false None None.
End HttpRequest.
Definition crawl_request (url : string) (conditional : option (option string * option string)) :
    HttpRequest.t :=
  match conditional with
  | Some (etag, last_modified) => HttpRequest.mk url true etag last_modified
  | None => HttpRequest.get url
  end.

(** [resp] is what the client answered, [None] for a transport failure. *)
Definition fetch_one `{UrlJoin, HtmlLib, Unicode} (url : string) (depth : Z) (same_domain : bool)
    (conditional : option (option string * option string)) (resp : option HttpResponse.t) :
    CrawlFetch :=
  match resp with
  | None => Failed url
  | Some resp =>
      let status := HttpResponse.status resp in
      if is_some conditional && (status =? 304) then NotModified url
      else if is_some conditional && ((status =? 404) || (status =? 410)) then Gone url status
      else
        match http_bot_wall status (HttpResponse.body resp) with
        | Some reason => BotWall url reason
        | None =>
            let parsed := parse_page (HttpResponse.body resp) url same_domain in
            Page (Fetched.mk url depth status (HttpResponse.body resp) (ParsedPage.links parsed)
                    (ParsedPage.title parsed) (ParsedPage.content_chars parsed)
                    (ParsedPage.excerpt parsed) (header_value (HttpResponse.headers resp) "etag")
                    (header_value (HttpResponse.headers resp) "last-modified"))
        end
  end.

(** Whatever the answer, the outcome is of the address that was asked for. *)
Lemma fetch_one_url `{UrlJoin, HtmlLib, Unicode} url depth same_domain cond resp :
  fetch_outcome_url (fetch_one url depth same_domain cond resp) = url.
Proof.
  unfold fetch_one. destruct resp as [resp|]; [|done].
  case_if; [done|]. case_if; [done|]. by destruct (http_bot_wall _ _).
Qed.
