(* ===== verification/CrawlState.v ===== *)
(** * CrawlState: what a crawl carries, and the checkpoint it leaves

    The configuration, the records and counters of a crawl, its near-duplicate gate, the
    address filter, the robots cache, the persisted frontier with its JSON form and the
    addresses a sitemap lists ([crates/core/src/crawl.rs]).  The [regex] crate is a parameter. *)

From stdpp Require Import gmap.
From S2P Require Import Prelude Sql Float64 Json Filters Simhash Records ChangePlan Robots.
From S2P Require Import Frontier Revisit Pages.

(** ** Page records *)

Module PageRecord.
Record t : Type := mk {
  url : string; title : option string; status : Z; content_chars : Z; simhash : Z;
  excerpt : string; artifact_path : string; depth : Z; etag : option string;
  last_modified : option string; gone : bool; unchanged : bool; cadence : option Cadence;
  links : list string }.
End PageRecord.
Definition gone_record (url : string) (status : Z) : PageRecord.t :=
  PageRecord.mk url None status 0 0 EmptyString EmptyString 0 None None true false None [].
Definition unchanged_record (url : string) (cadence : Cadence) : PageRecord.t :=
  PageRecord.mk url None 304 0 0 EmptyString EmptyString 0 None None false true (Some cadence) [].

(** ** The address filter *)

Class RegexLib := {
  Regex : Type;
  regex_new : string → result string Regex;
  is_match : Regex → string → bool }.

Module CrawlConfig.
Record t : Type := mk {
  seeds : list string; max_pages : Z; max_depth : Z; concurrency : Z;
  max_pages_per_host : option Z; same_domain : bool; dedup_distance : Z; respect_robots : bool;
  include_patterns : list string; exclude_patterns : list string; sitemap_seeds : bool;
  resume_state : option Json;
  revisit : bool; discover : bool; revisit_budget : option nat; min_due_score : f64 }.
End CrawlConfig.
Abbreviation Config := CrawlConfig.t.

Module UrlFilter.
Record t `{RegexLib} : Type := mk { include : list Regex; exclude : list Regex }.
#[global] Arguments mk {_}.
#[global] Arguments include {_}.
#[global] Arguments exclude {_}.
End UrlFilter.

Section filter.
Context `{RegexLib}.

(** The message of [Error::parse_from]. *)
Definition compile_pattern (p : string) : result string Regex :=
  match regex_new p with
  | Ok r => Ok r
  | Err e => Err ("bad url pattern '" +:+ p +:+ "': " +:+ e)%string
  end.
Definition compile_filter (cfg : Config) : result string UrlFilter.t :=
  include ← collect_ok compile_pattern (CrawlConfig.include_patterns cfg);
  exclude ← collect_ok compile_pattern (CrawlConfig.exclude_patterns cfg);
  Ok (UrlFilter.mk include exclude).

Definition allows (f : UrlFilter.t) (url : string) : bool :=
  match UrlFilter.include f with
  | [] => negb (existsb (λ re, is_match re url) (UrlFilter.exclude f))
  | include =>
      existsb (λ re, is_match re url) include
      && negb (existsb (λ re, is_match re url) (UrlFilter.exclude f))
  end.
End filter.

(** ** The near-duplicate gate *)

Module SimHashIndex.
Record t : Type := mk { inner : index unit; all : list Z }.
Definition new (distance : Z) : t := mk (new_index distance) [].
Definition insert (idx : t) (hash : Z) : t :=
  mk (insert_index (inner idx) hash tt) (all idx ++ [hash]).
Definition from_hashes (distance : Z) (hashes : list Z) : t := foldl insert (new distance) hashes.
Definition is_near_dup (idx : t) (hash : Z) : bool := Simhash.is_near_dup (inner idx) hash.
End SimHashIndex.

Definition dedup_applies (dedup_distance : Z) (known_page : bool) : bool :=
  (0 <? dedup_distance) && negb known_page.

(** What a revisit knows of a page. *)
Module KnownPage.
Record t : Type := mk {
  etag : option string; last_modified : option string; simhash : Z; cadence : Cadence }.
Definition of_seed (s : Seed) : t :=
  mk (RevisitSeed.etag s) (RevisitSeed.last_modified s) (RevisitSeed.simhash s)
    (RevisitSeed.cadence s).
End KnownPage.

Definition artifact_name `{Sha256} (url : string) : string :=
  ("page-" +:+ String.substring 0 32 (sha256_hex url) +:+ ".html")%string.

(** ** Counters *)

Module CrawlStats.
Record t : Type := mk {
  crawled : Z; kept : Z; skipped_duplicates : Z; skipped_robots : Z; skipped_filtered : Z;
  frontier_dropped : Z; skipped_host_budget : Z; sitemap_seeded : Z; failed : Z;
  failed_by_host : gmap string Z; skipped_botwall : Z; robots_fetch_failures : Z;
  robots_unverified_hosts : list string; checkpoint_errors : Z; resumed : bool;
  checkpoint_reset : bool; hosts : Z; frontier_remaining : Z; revisited : Z; unchanged_304 : Z;
  gone : Z; skipped_not_due : nat; skipped_over_budget : nat }.
#[global] Instance eta_stats : Eta t := λ s,
  mk (crawled s) (kept s) (skipped_duplicates s) (skipped_robots s) (skipped_filtered s)
    (frontier_dropped s) (skipped_host_budget s) (sitemap_seeded s) (failed s)
    (failed_by_host s) (skipped_botwall s) (robots_fetch_failures s)
    (robots_unverified_hosts s) (checkpoint_errors s) (resumed s) (checkpoint_reset s)
    (hosts s) (frontier_remaining s) (revisited s) (unchanged_304 s) (gone s)
    (skipped_not_due s) (skipped_over_budget s).
Definition new (resumed checkpoint_reset : bool) (not_due over_budget : nat) : t :=
  mk 0 0 0 0 0 0 0 0 0 ∅ 0 0 [] 0 resumed checkpoint_reset 0 0 0 0 0 not_due over_budget.
End CrawlStats.

Definition MAX_FAILED_HOSTS : nat := 20.
Definition MAX_UNVERIFIED_HOSTS : nat := 50.

(** Highest count first, ties by host. *)
Definition count_le (a b : string * Z) : bool :=
  (b.2 <? a.2) || ((a.2 =? b.2) && String.leb a.1 b.1).
Definition top_n_by_count (m : gmap string Z) (n : nat) : gmap string Z :=
  if (size m <=? n)%nat then m
  else list_to_map (take n (order_by count_le (map_to_list m))).

Definition unverified_hosts (audit : gset string) : list string :=
  take MAX_UNVERIFIED_HOSTS (order_by String.leb (elements audit)).

(** ** The checkpoint *)

Definition CHECKPOINT_VERSION : Z := 2.

Module CrawlCheckpoint.
Record t : Type := mk {
  version : Z; queue : list item; seen : list string; kept_hashes : list Z;
  taken : gmap string Z }.
End CrawlCheckpoint.

(** [serde_json::to_value] *)
Definition checkpoint_to_value (cp : CrawlCheckpoint.t) : Json :=
  json_object
    [("version", JUint (CrawlCheckpoint.version cp));
     ("queue", JArray (map (λ it : item, JArray [JString it.1; JUint it.2])
                         (CrawlCheckpoint.queue cp)));
     ("seen", JArray (map JString (CrawlCheckpoint.seen cp)));
     ("kept_hashes", JArray (map JUint (CrawlCheckpoint.kept_hashes cp)));
     ("taken", JObject (map_of_list (map (λ kv : string * Z, (kv.1, JUint kv.2))
                          (map_to_list (CrawlCheckpoint.taken cp)))))]%string.

(** [serde]'s derived reader: an unsigned integer of a width, a sequence, a pair. *)
Definition read_uint (max : Z) (v : Json) : option Z :=
  n ← as_u64 v; if n <=? max then Some n else None.
Definition u32_max : Z := 2 ^ 32 - 1.
Definition read_item (v : Json) : option item :=
  match v with
  | JArray [url; depth] => url ← as_str url; depth ← read_uint u32_max depth; Some (url, depth)
  | _ => None
  end.
Definition read_seq {A} (read : Json → option A) (v : Json) : option (list A) :=
  items ← as_array v; mapM read items.
Definition read_counts (v : Json) : option (gmap string Z) :=
  fields ← as_object v;
  kvs ← mapM (λ kv : string * Json, n ← read_uint u64_max kv.2; Some (kv.1, n)) fields;
  Some (list_to_map kvs).
(** A field with [#[serde(default)]], and one without. *)
Definition or_default {A} (read : Json → option A) (d : A) (v : option Json) : option A :=
  match v with Some v => read v | None => Some d end.

Definition read_fields (version queue seen kept_hashes taken : option Json) :
    option CrawlCheckpoint.t :=
  version ← or_default (read_uint u32_max) 0 version;
  queue ← queue ≫= read_seq read_item;
  seen ← seen ≫= read_seq as_str;
  kept_hashes ← kept_hashes ≫= read_seq (read_uint u64_max);
  taken ← or_default read_counts ∅ taken;
  Some (CrawlCheckpoint.mk version queue seen kept_hashes taken).
(** [serde_json::from_value::<Checkpoint>]: an object by field name, or an array by position. *)
Definition read_checkpoint (v : Json) : option CrawlCheckpoint.t :=
  match v with
  | JObject o =>
      read_fields (map_get "version" o) (map_get "queue" o) (map_get "seen" o)
        (map_get "kept_hashes" o) (map_get "taken" o)
  | JArray l =>
      if (5 <? length l)%nat then None
      else read_fields (l !! 0%nat) (l !! 1%nat) (l !! 2%nat) (l !! 3%nat) (l !! 4%nat)
  | _ => None
  end.

Inductive CheckpointLoad : Type :=
| NoCheckpoint
| Loaded (cp : CrawlCheckpoint.t)
| Incompatible.
Definition from_value (state : Json) : CheckpointLoad :=
  match state with
  | JNull => NoCheckpoint
  | _ =>
      match read_checkpoint state with
      | Some cp =>
          if CrawlCheckpoint.version cp =? CHECKPOINT_VERSION then Loaded cp else Incompatible
      | None => Incompatible
      end
  end.

(** Everything queued, and everything in flight. *)
Definition checkpoint_queue (f : frontier) (in_flight : gmap string Z) : list item :=
  queued f ++ map_to_list in_flight.
Definition checkpoint_of (f : frontier) (in_flight : gmap string Z) (kept_hashes : list Z) :
    CrawlCheckpoint.t :=
  CrawlCheckpoint.mk CHECKPOINT_VERSION (checkpoint_queue f in_flight)
    (elements (Frontier.seen f)) kept_hashes (Frontier.taken f).

(** ** The addresses a site lists

    The sitemap reader and the expansion of an origin's sitemaps into the frontier
    ([crates/core/src/crawl.rs]).  The [regex] crate is a parameter: the captures of a
    pattern in a text, each match with its groups. *)

(** [Regex::new(pattern)], [captures_iter(text)]: group [0] is the whole match. *)
Class RegexCaptures := captures_iter : string → string → list (list string).

Definition MAX_SITEMAPS_PER_HOST : nat := 10.
Definition MAX_SITEMAP_SEEDS : Z := 2000.

Module SitemapEntry.
Record t : Type := mk { loc : string; lastmod : option string }.
End SitemapEntry.

(** [str::replace]: the pieces between the needles, joined by the replacement. *)
Fixpoint replace_all (fuel : nat) (needle rep s : string) : string :=
  match fuel, split_once needle s with
  | S fuel, Some (before, after) => (before +:+ rep +:+ replace_all fuel needle rep after)%string
  | _, _ => s
  end.
Definition replace (needle rep s : string) : string := replace_all (String.length s) needle rep s.

Section sitemaps.
Context `{UrlLib, RegexLib, RegexCaptures}.

Definition block_re : string := "(?s)<(?:url|sitemap)\b[^>]*>(.*?)</(?:url|sitemap)>".
Definition loc_re : string := "<loc>\s*([^<]+?)\s*</loc>".
Definition lastmod_re : string := "<lastmod>\s*([^<]+?)\s*</lastmod>".

(** Group [1] of a match. *)
Definition group1 (captures : list string) : string := default EmptyString (captures !! 1%nat).
Definition decode_loc (captures : list string) : string := replace "&amp;" "&" (group1 captures).

Definition parse_sitemap_entries (xml : string) : list SitemapEntry.t :=
  let out := omap (λ block,
    let body := group1 block in
    loc ← head (captures_iter loc_re body);
    Some (SitemapEntry.mk (decode_loc loc)
            ((λ c, trim (group1 c)) <$> head (captures_iter lastmod_re body))))
    (captures_iter block_re xml) in
  match out with
  | [] => map (λ loc, SitemapEntry.mk (decode_loc loc) None) (captures_iter loc_re xml)
  | _ => out
  end.

(** [Option::cmp], the newest first and the undated last. *)
Definition newer_first (a b : SitemapEntry.t) : bool :=
  match SitemapEntry.lastmod a, SitemapEntry.lastmod b with
  | _, None => true
  | None, Some _ => false
  | Some x, Some y => String.leb y x
  end.

(** [fetch] is what a plain [GET] answers, [None] for a transport failure. *)
Definition fetch_ok (fetch : string → option HttpResponse.t) (url : string) : option string :=
  resp ← fetch url; if is_success resp then Some (HttpResponse.body resp) else None.

Definition sitemap_entries (fetch : string → option HttpResponse.t) (root : string) :
    list SitemapEntry.t :=
  match fetch_ok fetch root with
  | None => []
  | Some body =>
      let parsed := parse_sitemap_entries body in
      if contains "<sitemapindex" body then
        flat_map (λ sm, from_option parse_sitemap_entries [] (fetch_ok fetch (SitemapEntry.loc sm)))
          (take MAX_SITEMAPS_PER_HOST parsed)
      else parsed
  end.

(** The locations pushed, in order. *)
Definition sitemap_locs (fetch : string → option HttpResponse.t) (origin : string)
    (declared : list string) (filter : UrlFilter.t) (budget : Z) : list string :=
  let roots :=
    match declared with
    | [] => [(origin +:+ "/sitemap.xml")%string]
    | _ => take MAX_SITEMAPS_PER_HOST declared
    end in
  let entries :=
    List.filter (λ e, allows filter (SitemapEntry.loc e)) (flat_map (sitemap_entries fetch) roots) in
  map SitemapEntry.loc (take (Z.to_nat budget) (order_by newer_first entries)).
Definition seed_from_sitemaps (fetch : string → option HttpResponse.t) (origin : string)
    (declared : list string) (filter : UrlFilter.t) (budget : Z) (f : frontier) : frontier * Z :=
  let locs := sitemap_locs fetch origin declared filter budget in
  (foldl (λ f loc, push (canonicalize_str loc) 0 f) f locs, Z.of_nat (length locs)).
End sitemaps.
