(* ===== verification/Crawl.v ===== *)
(** * Crawl: the loop

    [crawl] of [crates/core/src/crawl.rs] as a transition function: the start (restore,
    seeds, the revisit selection), one turn of the loop (top up the fetches in flight, save
    a checkpoint when one is due, take one outcome) and the end of the run.  What the
    outside sees - the requests, the outcomes, the records handed to the sink, the
    checkpoints handed to theirs - is logged in order in the trace.  The scheduler's choices
    enter as inputs: which fetch ends first, what it answers, the clocks. *)

From stdpp Require Import gmap.
From Stdlib Require Import Floats.SpecFloat.
From S2P Require Import Prelude Sql Float64 Json Filters Simhash Records ChangePlan Materiality.
From S2P Require Import Robots Frontier Revisit Pages CrawlState.

Definition PAGE_SINK_STRIDE : nat := 50.
Definition MAX_CRAWL_DELAY : f64 := f64_of_Z 30.

(** What the outside sees of a run, in order. *)
Inductive Event : Type :=
| Requested (req : HttpRequest.t) (at_ : Z)
| Refused (url : string)
| Answered (fetch : CrawlFetch) (record : option PageRecord.t)
| Emitted (batch : list PageRecord.t)
| Saved (cp : CrawlCheckpoint.t) (force : bool).

(** A fetch in flight. *)
Module InFlight.
Record t : Type := mk {
  url : string; depth : Z; conditional : option (option string * option string) }.
End InFlight.

Module Crawl.
Record t : Type := mk {
  frontier_ : frontier; dedup : SimHashIndex.t; conditional : gmap string KnownPage.t;
  robots : gmap string RobotRules.t; audit : gset string; hosts : gset string;
  stats : CrawlStats.t; in_flight : list InFlight.t; in_flight_urls : gmap string Z;
  next_allowed : gmap string Z; sink_buf : list PageRecord.t; trace : list Event }.
#[global] Instance eta_crawl : Eta t := λ w,
  mk (frontier_ w) (dedup w) (conditional w) (robots w) (audit w) (hosts w) (stats w)
    (in_flight w) (in_flight_urls w) (next_allowed w) (sink_buf w) (trace w).
End Crawl.

(** The inputs of one turn: the monotonic clock read by read, whether a checkpoint is due
    and whether its sink took it, which fetch completes and with what, the wall clock. *)
Module Turn.
Record t : Type := mk {
  clock : nat → Z; due : bool; save_ok : bool; which : nat; resp : option HttpResponse.t;
  epoch : Z }.
End Turn.

Section crawl.
Context `{UrlJoin, HtmlLib, RegexLib, MathLib, Unicode, UnicodeAlphanumeric, Sha256}.
Context `{JsonRender, JsonEq, RegexCaptures}.
(** What a plain [GET] - a [robots.txt], a sitemap - answers, [None] for a transport failure;
    and the three seams: a page sink, a checkpoint sink, a directory for bodies. *)
Context (ask : string → option HttpResponse.t) (has_sink has_checkpointer has_dir : bool).
Context (cfg : Config) (filter : UrlFilter.t).
Implicit Types (w : Crawl.t).

Definition log (e : Event) w : Crawl.t := w <| Crawl.trace ::= λ t, t ++ [e] |>.

(** ** Robots *)

Definition robots_for (origin : string) w : Crawl.t * RobotRules.t :=
  match Crawl.robots w !! origin with
  | Some rules => (w, rules)
  | None =>
      let url := default (origin +:+ "/robots.txt")%string (robots_url origin) in
      let '(w, rules) :=
        match ask url with
        | Some resp =>
            (w, if is_success resp then parse_robots (HttpResponse.body resp)
                else RobotRules.allow_all)
        | None => (w <| Crawl.audit ::= union {[origin]} |>, RobotRules.allow_all)
        end in
      (w <| Crawl.robots ::= <[origin := rules]> |>, rules)
  end.

(** ** Topping up *)

Definition issue (url : string) (depth : Z) (now : Z) w : Crawl.t :=
  let cond :=
    if CrawlConfig.revisit cfg
    then (λ k, (KnownPage.etag k, KnownPage.last_modified k)) <$> Crawl.conditional w !! url
    else None in
  log (Requested (crawl_request url cond) now)
    (w <| Crawl.hosts ::= union {[host_key url]} |>
       <| Crawl.in_flight_urls ::= <[url := depth]> |>
       <| Crawl.in_flight ::= λ l, l ++ [InFlight.mk url depth cond] |>).

(** What one pass of the inner loop does. *)
Inductive TopUp : Type :=
| Drained (w : Crawl.t)
| Skipped (w : Crawl.t)
| Delayed (w : Crawl.t)
| Issued (w : Crawl.t).

(** The crawl delay and the verdict of the rules that govern the address, if they count. *)
Definition consult (url : string) w : Crawl.t * option f64 * bool :=
  match (if CrawlConfig.respect_robots cfg then origin_of url else None) with
  | Some origin =>
      let '(w, rules) := robots_for origin w in
      (w, RobotRules.crawl_delay rules, allowed rules url)
  | None => (w, None, true)
  end.

(** The address is put back inside its host's delay window, asked for otherwise. *)
Definition pace (url : string) (depth : Z) (now : Z) (crawl_delay : option f64) w : TopUp :=
  match crawl_delay with
  | Some delay =>
      let host := host_key url in
      if match Crawl.next_allowed w !! host with Some t => now <? t | None => false end then
        Delayed (w <| Crawl.frontier_ ::= requeue url depth |>)
      else
        Issued (issue url depth now
          (w <| Crawl.next_allowed ::=
                  <[host := now + from_secs_f64 (f64_min delay MAX_CRAWL_DELAY)]> |>))
  | None => Issued (issue url depth now w)
  end.

Definition take_next (now : Z) w : TopUp :=
  match pop (Crawl.frontier_ w) with
  | (f, None) => Drained (w <| Crawl.frontier_ := f |>)
  | (f, Some (url, depth)) =>
      let '(w, crawl_delay, may) := consult url (w <| Crawl.frontier_ := f |>) in
      if negb may then
        Skipped (log (Refused url) (w <| Crawl.stats ::= λ s,
                                            s <| CrawlStats.skipped_robots ::= Z.add 1 |> |>))
      else pace url depth now crawl_delay w
  end.

Fixpoint top_up (fuel : nat) (clock : nat → Z) (rotations : Z) w : Crawl.t :=
  match fuel with
  | O => w
  | S fuel =>
      if (Z.of_nat (length (Crawl.in_flight w))
            <? Z.min (Z.max (CrawlConfig.concurrency cfg) 1) 256)
         && (rotations <=? Frontier.len (Crawl.frontier_ w))
      then
        match take_next (clock fuel) w with
        | Drained w => w
        | Skipped w | Issued w => top_up fuel clock rotations w
        | Delayed w => top_up fuel clock (rotations + 1) w
        end
      else w
  end.
(** Each pass takes an address off the frontier for good or spends a rotation. *)
Definition top_up_fuel w : nat := S (S (2 * Z.to_nat (Frontier.len (Crawl.frontier_ w)))).

(** ** The sink and the checkpoint *)

Definition flush_page_sink w : Crawl.t :=
  match Crawl.sink_buf w with
  | [] => w
  | buf =>
      (if has_sink then log (Emitted buf) w else w) <| Crawl.sink_buf := [] |>
  end.

Definition save_checkpoint (force : bool) w : Crawl.t :=
  log (Saved (checkpoint_of (Crawl.frontier_ w) (Crawl.in_flight_urls w)
                (SimHashIndex.all (Crawl.dedup w))) force) w.
Definition flush_then_checkpoint (force save_ok : bool) w : Crawl.t :=
  let w := flush_page_sink w in
  if has_checkpointer then
    let w := save_checkpoint force w in
    if save_ok then w
    else w <| Crawl.stats ::= λ s, s <| CrawlStats.checkpoint_errors ::= Z.add 1 |> |>
  else w.

(** [sink_buf.push(record)], and the flush at the stride. *)
Definition buffer_record (r : PageRecord.t) w : Crawl.t :=
  let w := w <| Crawl.sink_buf ::= λ b, b ++ [r] |> in
  if (PAGE_SINK_STRIDE <=? length (Crawl.sink_buf w))%nat then flush_page_sink w else w.

(** The outcome, the record it made if a sink wants one, and the record's way to it. *)
Definition answer (fetch : CrawlFetch) (record : option PageRecord.t) w : Crawl.t :=
  let record := if has_sink then record else None in
  let w := log (Answered fetch record) w in
  match record with Some r => buffer_record r w | None => w end.

(** ** One outcome *)

Definition page_record (f : Fetched.t) (hash : Z) (epoch : Z) w : PageRecord.t :=
  let cadence :=
    match Crawl.conditional w !! Fetched.url f with
    | Some known =>
        RevisitCadence.observe_changed epoch (change_weight (KnownPage.simhash known) hash)
          (KnownPage.cadence known)
    | None => RevisitCadence.first_seen epoch
    end in
  PageRecord.mk (Fetched.url f) (Fetched.title f) (Fetched.status f) (Fetched.content_chars f)
    hash (Fetched.excerpt f) (if has_dir then artifact_name (Fetched.url f) else EmptyString)
    (Fetched.depth f) (Fetched.etag f) (Fetched.last_modified f) false false (Some cadence)
    (Fetched.links f).

Definition is_known (f : Fetched.t) w : bool :=
  CrawlConfig.revisit cfg && is_some (Crawl.conditional w !! Fetched.url f).
Definition duplicate (f : Fetched.t) w : bool :=
  dedup_applies (CrawlConfig.dedup_distance cfg) (is_known f w)
  && SimHashIndex.is_near_dup (Crawl.dedup w) (simhash (Fetched.body f)).

(** A discovered link is filtered or pushed one deeper. *)
Definition follow (depth : Z) w (link : string) : Crawl.t :=
  if allows filter link then w <| Crawl.frontier_ ::= push link (depth + 1) |>
  else w <| Crawl.stats ::= λ s, s <| CrawlStats.skipped_filtered ::= Z.add 1 |> |>.
Definition follow_links (f : Fetched.t) w : Crawl.t :=
  if (negb (CrawlConfig.revisit cfg) || CrawlConfig.discover cfg)
     && (Fetched.depth f <? CrawlConfig.max_depth cfg)
  then foldl (follow (Fetched.depth f)) w (Fetched.links f) else w.

Definition on_page (f : Fetched.t) (epoch : Z) w : Crawl.t :=
  let known_page := is_known f w in
  let w := w <| Crawl.stats ::= λ s,
             s <| CrawlStats.crawled ::= Z.add 1 |>
               <| CrawlStats.revisited ::= Z.add (if known_page then 1 else 0) |> |> in
  let hash := simhash (Fetched.body f) in
  let w :=
    if duplicate f w then
      answer (Page f) None
        (w <| Crawl.stats ::= λ s, s <| CrawlStats.skipped_duplicates ::= Z.add 1 |> |>)
    else
      answer (Page f) (Some (page_record f hash epoch w))
        (w <| Crawl.dedup ::= λ d, SimHashIndex.insert d hash |>
           <| Crawl.stats ::= λ s, s <| CrawlStats.kept ::= Z.add 1 |> |>) in
  follow_links f w.

Definition count_failure (url : string) (s : CrawlStats.t) : CrawlStats.t :=
  match host_of url with
  | Some host =>
      s <| CrawlStats.failed_by_host ::= λ m, <[host := default 0 (m !! host) + 1]> m |>
  | None => s
  end.

(** What the outcome does, and whether the page cap is looked at after it. *)
Definition on_fetch (fetch : CrawlFetch) (epoch : Z) w : Crawl.t * bool :=
  match fetch with
  | Failed url =>
      (answer fetch None
         (w <| Crawl.stats ::= λ s, count_failure url (s <| CrawlStats.failed ::= Z.add 1 |>) |>),
       false)
  | BotWall _ _ =>
      (answer fetch None (w <| Crawl.stats ::= λ s, s <| CrawlStats.skipped_botwall ::= Z.add 1 |> |>),
       false)
  | NotModified url =>
      (answer fetch
         ((λ known, unchanged_record url
                      (RevisitCadence.observe_unchanged epoch (KnownPage.cadence known)))
            <$> Crawl.conditional w !! url)
         (w <| Crawl.stats ::= λ s, s <| CrawlStats.revisited ::= Z.add 1 |>
                                      <| CrawlStats.unchanged_304 ::= Z.add 1 |> |>), false)
  | Gone url status =>
      (answer fetch (Some (gone_record url status))
         (w <| Crawl.stats ::= λ s, s <| CrawlStats.revisited ::= Z.add 1 |>
                                      <| CrawlStats.gone ::= Z.add 1 |> |>), false)
  | Page f => (on_page f epoch w, true)
  end.

(** ** The loop *)

(** One turn; [true] when the loop ends after it. *)
Definition turn (i : Turn.t) w : Crawl.t * bool :=
  let w := top_up (top_up_fuel w) (Turn.clock i) 0 w in
  let w := if has_checkpointer && Turn.due i then flush_then_checkpoint false (Turn.save_ok i) w else w in
  match Crawl.in_flight w with
  | [] => (w, Frontier.len (Crawl.frontier_ w) =? 0)
  | fs =>
      let n := (Turn.which i mod length fs)%nat in
      match fs !! n with
      | None => (w, true)
      | Some fl =>
          let fetch :=
            fetch_one (InFlight.url fl) (InFlight.depth fl) (CrawlConfig.same_domain cfg)
              (InFlight.conditional fl) (Turn.resp i) in
          let w := w <| Crawl.in_flight := delete n fs |>
                     <| Crawl.in_flight_urls ::= delete (fetch_outcome_url fetch) |> in
          let '(w, page) := on_fetch fetch (Turn.epoch i) w in
          (w, page && (CrawlConfig.max_pages cfg <=? CrawlStats.kept (Crawl.stats w)))
      end
  end.

(** The end of the run: the counters settled, the last save unthrottled. *)
Definition finish (save_ok : bool) w : Crawl.t :=
  let f := Crawl.frontier_ w in
  let w := w <| Crawl.stats ::= λ s,
             s <| CrawlStats.hosts := Z.of_nat (size (Crawl.hosts w)) |>
               <| CrawlStats.frontier_remaining :=
                    Frontier.len f + Z.of_nat (size (Crawl.in_flight_urls w)) |>
               <| CrawlStats.frontier_dropped := Frontier.dropped f |>
               <| CrawlStats.skipped_host_budget := Frontier.skipped_host_budget f |>
               <| CrawlStats.robots_fetch_failures := Z.of_nat (size (Crawl.audit w)) |>
               <| CrawlStats.robots_unverified_hosts := unverified_hosts (Crawl.audit w) |> |> in
  let w := flush_then_checkpoint true save_ok w in
  w <| Crawl.stats ::= λ s,
         s <| CrawlStats.failed_by_host ::= λ m, top_n_by_count m MAX_FAILED_HOSTS |> |>.

(** The turns of a run; it ends with [finish] or is cut short when the inputs end. *)
Fixpoint run (turns : list Turn.t) (save_ok : bool) w : Crawl.t * bool :=
  match turns with
  | [] => (w, false)
  | i :: turns =>
      match turn i w with
      | (w, true) => (finish save_ok w, true)
      | (w, false) => run turns save_ok w
      end
  end.

(** ** The start *)

Definition restored : frontier * SimHashIndex.t * bool * bool :=
  let fresh := Frontier.new (CrawlConfig.max_pages_per_host cfg) in
  let none := SimHashIndex.new (CrawlConfig.dedup_distance cfg) in
  match from_value <$> CrawlConfig.resume_state cfg with
  | Some (Loaded cp) =>
      (restore (CrawlCheckpoint.queue cp) (CrawlCheckpoint.seen cp) (CrawlCheckpoint.taken cp) fresh,
       SimHashIndex.from_hashes (CrawlConfig.dedup_distance cfg) (CrawlCheckpoint.kept_hashes cp),
       true, false)
  | Some Incompatible => (fresh, none, false, true)
  | _ => (fresh, none, false, false)
  end.

(** A known page the revisit selected. *)
Definition add_known (acc : frontier * gmap string KnownPage.t) (s : ScoredSeed.t) :
    frontier * gmap string KnownPage.t :=
  let seed := ScoredSeed.seed s in
  let url := canonicalize_str (RevisitSeed.url seed) in
  (push url 0 acc.1, <[url := KnownPage.of_seed seed]> acc.2).

(** The state before the sitemaps; [known] is what the page source hands over, [None]
    without one. *)
Definition plan_of (known : option (list Seed)) (epoch : Z) : option RevisitPlan.t :=
  if CrawlConfig.revisit cfg
  then (λ seeds, plan_revisit seeds (CrawlConfig.min_due_score cfg)
                   (CrawlConfig.revisit_budget cfg) epoch) <$> known
  else None.
Definition opened (known : option (list Seed)) (epoch : Z) : Crawl.t :=
  let '(f, dedup, resumed, reset) := restored in
  let f := foldl (λ f seed, push (canonicalize_str seed) 0 f) f (CrawlConfig.seeds cfg) in
  let plan := plan_of known epoch in
  let '(f, conditional) :=
    foldl add_known (f, ∅) (default [] (RevisitPlan.selected <$> plan)) in
  Crawl.mk f dedup conditional ∅ ∅ ∅
    (CrawlStats.new resumed reset (default 0%nat (RevisitPlan.skipped_not_due <$> plan))
       (default 0%nat (RevisitPlan.skipped_over_budget <$> plan)))
    [] ∅ ∅ [] [].

(** The origins of the seeds and of the selected pages, once each. *)
Definition seed_origins (known : option (list Seed)) (epoch : Z) : list string :=
  elements (list_to_set (C := gset string)
    (omap origin_of (CrawlConfig.seeds cfg
      ++ map (λ s, canonicalize_str (RevisitSeed.url (ScoredSeed.seed s)))
           (default [] (RevisitPlan.selected <$> plan_of known epoch))))).

(** The sitemaps of each origin, until the seeds they may add run out. *)
Fixpoint expand (origins : list string) w : Crawl.t :=
  match origins with
  | [] => w
  | origin :: origins =>
      let '(w, rules) := robots_for origin w in
      let budget := Z.max (MAX_SITEMAP_SEEDS - CrawlStats.sitemap_seeded (Crawl.stats w)) 0 in
      if budget =? 0 then w
      else
        let '(f, pushed) :=
          seed_from_sitemaps ask origin (RobotRules.sitemaps rules) filter budget (Crawl.frontier_ w) in
        expand origins
          (w <| Crawl.frontier_ := f |>
             <| Crawl.stats ::= λ s, s <| CrawlStats.sitemap_seeded ::= λ n, n + pushed |> |>)
  end.
Definition start (known : option (list Seed)) (epoch : Z) : Crawl.t :=
  let w := opened known epoch in
  if CrawlConfig.sitemap_seeds cfg then expand (seed_origins known epoch) w else w.
End crawl.
