(* ===== verification/CrawlSteps.v ===== *)
(** * CrawlSteps: the crawl as a small transition system

    Nine steps, one per effect the loop has on its state, and the simulation: every turn of
    the loop, and its end, is a sequence of them.  The invariants of the crawl are proved
    over the steps. *)

From stdpp Require Import gmap.
From Stdlib Require Import Floats.SpecFloat.
From S2P Require Import Prelude Sql Float64 Json Filters Simhash Records ChangePlan Materiality.
From S2P Require Import Robots Frontier Revisit Pages CrawlState Crawl.

(** ** Reading the trace *)

Definition asked (T : list Event) : list string :=
  omap (λ e, match e with Requested req _ => Some (HttpRequest.url req) | _ => None end) T.
Definition refused (T : list Event) : list string :=
  omap (λ e, match e with Refused url => Some url | _ => None end) T.
Definition answers (T : list Event) : list CrawlFetch :=
  omap (λ e, match e with Answered fetch _ => Some fetch | _ => None end) T.
Definition answered (T : list Event) : list string := map fetch_outcome_url (answers T).
Definition recorded (T : list Event) : list PageRecord.t :=
  omap (λ e, match e with Answered _ record => record | _ => None end) T.
Definition emitted (T : list Event) : list PageRecord.t :=
  flat_map (λ e, match e with Emitted batch => batch | _ => [] end) T.

Lemma asked_app T T' : asked (T ++ T') = asked T ++ asked T'.
Proof. apply omap_app. Qed.
Lemma refused_app T T' : refused (T ++ T') = refused T ++ refused T'.
Proof. apply omap_app. Qed.
Lemma answers_app T T' : answers (T ++ T') = answers T ++ answers T'.
Proof. apply omap_app. Qed.
Lemma answered_app T T' : answered (T ++ T') = answered T ++ answered T'.
Proof. unfold answered. by rewrite answers_app, map_app. Qed.
Lemma recorded_app T T' : recorded (T ++ T') = recorded T ++ recorded T'.
Proof. apply omap_app. Qed.
Lemma emitted_app T T' : emitted (T ++ T') = emitted T ++ emitted T'.
Proof. apply flat_map_app. Qed.
#[export] Hint Rewrite asked_app refused_app answers_app answered_app recorded_app emitted_app : trace.

(** What an outcome adds to the counters: one page is kept or a duplicate. *)
Record settles (fetch : CrawlFetch) (s s' : CrawlStats.t) : Prop := {
  st_crawled : CrawlStats.crawled s'
    = CrawlStats.crawled s + match fetch with Page _ => 1 | _ => 0 end;
  st_pages : CrawlStats.kept s' + CrawlStats.skipped_duplicates s'
    = CrawlStats.kept s + CrawlStats.skipped_duplicates s + match fetch with Page _ => 1 | _ => 0 end;
  st_failed : CrawlStats.failed s' = CrawlStats.failed s + match fetch with Failed _ => 1 | _ => 0 end;
  st_wall : CrawlStats.skipped_botwall s'
    = CrawlStats.skipped_botwall s + match fetch with BotWall _ _ => 1 | _ => 0 end;
  st_304 : CrawlStats.unchanged_304 s'
    = CrawlStats.unchanged_304 s + match fetch with NotModified _ => 1 | _ => 0 end;
  st_gone : CrawlStats.gone s' = CrawlStats.gone s + match fetch with Gone _ _ => 1 | _ => 0 end;
  st_robots : CrawlStats.skipped_robots s' = CrawlStats.skipped_robots s }.

(** Counters no outcome moves. *)
Record same_answers (s s' : CrawlStats.t) : Prop := {
  sa_crawled : CrawlStats.crawled s' = CrawlStats.crawled s;
  sa_kept : CrawlStats.kept s' = CrawlStats.kept s;
  sa_dups : CrawlStats.skipped_duplicates s' = CrawlStats.skipped_duplicates s;
  sa_failed : CrawlStats.failed s' = CrawlStats.failed s;
  sa_wall : CrawlStats.skipped_botwall s' = CrawlStats.skipped_botwall s;
  sa_304 : CrawlStats.unchanged_304 s' = CrawlStats.unchanged_304 s;
  sa_gone : CrawlStats.gone s' = CrawlStats.gone s;
  sa_robots : CrawlStats.skipped_robots s' = CrawlStats.skipped_robots s }.

Section steps.
Context `{UrlJoin, HtmlLib, RegexLib, MathLib, Unicode, UnicodeAlphanumeric, Sha256}.
Context `{JsonRender, JsonEq, RegexCaptures}.
Context (ask : string → option HttpResponse.t) (has_sink has_checkpointer has_dir : bool).
Context (cfg : Config) (filter : UrlFilter.t).
Implicit Types (w : Crawl.t) (url : string) (depth : Z).

(** The rules an origin answers with. *)
Definition rules_at (origin : string) : RobotRules.t :=
  match ask (default (origin +:+ "/robots.txt")%string (robots_url origin)) with
  | Some resp =>
      if is_success resp then parse_robots (HttpResponse.body resp) else RobotRules.allow_all
  | None => RobotRules.allow_all
  end.
(** The origin whose rules govern an address, when they are respected. *)
Definition governed url : option string :=
  if CrawlConfig.respect_robots cfg then origin_of url else None.
Definition delay_of url : option Duration :=
  origin ← governed url; delay ← RobotRules.crawl_delay (rules_at origin);
  Some (from_secs_f64 (f64_min delay MAX_CRAWL_DELAY)).
Definition may_ask url : bool :=
  match governed url with Some origin => allowed (rules_at origin) url | None => true end.

Definition free_at (url : string) (now : Z) w : Prop :=
  match Crawl.next_allowed w !! host_key url with Some t => t ≤ now | None => True end.

Inductive step : Crawl.t → Crawl.t → Prop :=
| step_drained w :
    (pop (Crawl.frontier_ w)).2 = None →
    step w (w <| Crawl.frontier_ := (pop (Crawl.frontier_ w)).1 |>)
| step_robots w origin : step w (robots_for ask origin w).1
| step_refuse w url depth s :
    (pop (Crawl.frontier_ w)).2 = Some (url, depth) → may_ask url = false →
    CrawlStats.skipped_robots s = CrawlStats.skipped_robots (Crawl.stats w) + 1 →
    same_answers (Crawl.stats w) (s <| CrawlStats.skipped_robots := CrawlStats.skipped_robots (Crawl.stats w) |>) →
    step w (log (Refused url) (w <| Crawl.frontier_ := (pop (Crawl.frontier_ w)).1 |>
                                 <| Crawl.stats := s |>))
| step_delay w url depth :
    (pop (Crawl.frontier_ w)).2 = Some (url, depth) →
    step w (w <| Crawl.frontier_ := requeue url depth (pop (Crawl.frontier_ w)).1 |>)
| step_issue w url depth now next :
    (pop (Crawl.frontier_ w)).2 = Some (url, depth) → may_ask url = true →
    match delay_of url with
    | Some d => free_at url now w ∧ next = <[host_key url := now + d]> (Crawl.next_allowed w)
    | None => next = Crawl.next_allowed w
    end →
    step w (issue cfg url depth now (w <| Crawl.frontier_ := (pop (Crawl.frontier_ w)).1 |>
                                       <| Crawl.next_allowed := next |>))
| step_flush w : step w (flush_page_sink has_sink w)
| step_save w force :
    Crawl.sink_buf w = [] → step w (save_checkpoint force w)
| step_answer w n fl fetch record dedup s :
    Crawl.in_flight w !! n = Some fl → fetch_outcome_url fetch = InFlight.url fl →
    (has_sink = false → record = None) → settles fetch (Crawl.stats w) s →
    step w (log (Answered fetch record)
              (w <| Crawl.in_flight := delete n (Crawl.in_flight w) |>
                 <| Crawl.in_flight_urls ::= delete (InFlight.url fl) |>
                 <| Crawl.stats := s |> <| Crawl.dedup := dedup |>
                 <| Crawl.sink_buf ::= λ b, b ++ option_list record |>))
| step_push w url depth : step w (w <| Crawl.frontier_ ::= push url depth |>)
| step_count w s : same_answers (Crawl.stats w) s → step w (w <| Crawl.stats := s |>).

Abbreviation steps := (rtc step).

(** ** The simulation *)

Lemma robots_for_rules origin w :
  (∀ o r, Crawl.robots w !! o = Some r → r = rules_at o) →
  (robots_for ask origin w).2 = rules_at origin.
Proof.
  intros Hc. unfold robots_for, rules_at. destruct (Crawl.robots w !! origin) as [r|] eqn:E.
  - by rewrite (Hc _ _ E).
  - by destruct (ask _).
Qed.

Lemma robots_for_frontier origin f w :
  (robots_for ask origin (w <| Crawl.frontier_ := f |>)).1
  = (robots_for ask origin w).1 <| Crawl.frontier_ := f |>.
Proof.
  unfold robots_for. cbn. destruct (Crawl.robots w !! origin); [done|]. by destruct (ask _).
Qed.

Lemma robots_for_cache origin w :
  (∀ o r, Crawl.robots w !! o = Some r → r = rules_at o) →
  ∀ o r, Crawl.robots (robots_for ask origin w).1 !! o = Some r → r = rules_at o.
Proof.
  intros Hc o r. pose proof (robots_for_rules origin w Hc) as Hr. revert Hr.
  unfold robots_for. destruct (Crawl.robots w !! origin) as [r0|] eqn:E; cbn; [intros _; apply Hc|].
  destruct (ask _) as [resp|]; cbn; intros Hr; (destruct (decide (o = origin)) as [->|Hne];
    [rewrite lookup_insert_eq; by intros [= <-]|rewrite lookup_insert_ne by done; apply Hc]).
Qed.

(** Reading an origin's rules changes the cache and the audit only. *)
Lemma robots_for_same origin w :
  let w' := (robots_for ask origin w).1 in
  Crawl.frontier_ w' = Crawl.frontier_ w ∧ Crawl.next_allowed w' = Crawl.next_allowed w
  ∧ Crawl.stats w' = Crawl.stats w ∧ Crawl.trace w' = Crawl.trace w
  ∧ Crawl.in_flight w' = Crawl.in_flight w ∧ Crawl.in_flight_urls w' = Crawl.in_flight_urls w
  ∧ Crawl.sink_buf w' = Crawl.sink_buf w.
Proof.
  unfold robots_for. cbn zeta. destruct (Crawl.robots w !! origin); [done|]. by destruct (ask _).
Qed.

(** What a pass leaves, whatever it did. *)
Definition top_up_state (t : TopUp) : Crawl.t :=
  match t with Drained w | Skipped w | Delayed w | Issued w => w end.

Definition cache_ok w : Prop := ∀ o r, Crawl.robots w !! o = Some r → r = rules_at o.

(** The state an address is judged in, and the verdict. *)
Lemma consult_rules url f w :
  cache_ok w →
  ∃ w1, steps w w1 ∧ Crawl.frontier_ w1 = Crawl.frontier_ w
    ∧ consult ask cfg url (w <| Crawl.frontier_ := f |>)
      = (w1 <| Crawl.frontier_ := f |>,
         origin ← governed url; RobotRules.crawl_delay (rules_at origin), may_ask url).
Proof.
  intros Hc. unfold consult, may_ask. fold (governed url).
  destruct (governed url) as [origin|]; cbn [mbind option_bind]; [|by exists w].
  exists (robots_for ask origin w).1. split; [apply rtc_once, step_robots|].
  pose proof (robots_for_same origin w) as (-> & _). split; [done|].
  assert (cache_ok (w <| Crawl.frontier_ := f |>)) as Hc' by exact Hc.
  pose proof (robots_for_rules origin _ Hc') as Hr.
  rewrite <- robots_for_frontier.
  destruct (robots_for ask origin (w <| Crawl.frontier_ := f |>)) as [w' r].
  cbn [snd] in Hr. by subst r.
Qed.

Lemma take_next_steps now w : cache_ok w → steps w (top_up_state (take_next ask cfg now w)).
Proof.
  intros Hc. unfold take_next. destruct (pop (Crawl.frontier_ w)) as [f [[url depth]|]] eqn:Ep;
    [|eapply rtc_l; [apply step_drained; by rewrite Ep|rewrite Ep; apply rtc_refl]].
  destruct (consult_rules url f w Hc) as (w1 & Hs & Hf & ->).
  etransitivity; [exact Hs|]. apply rtc_once. clear Hs.
  assert (pop (Crawl.frontier_ w1) = (f, Some (url, depth))) as Ep1 by by rewrite Hf.
  destruct (may_ask url) eqn:Hm; cbn [negb top_up_state].
  - destruct (origin ← governed url; RobotRules.crawl_delay (rules_at origin)) as [delay|] eqn:Ed;
      cbn [pace].
    + assert (delay_of url = Some (from_secs_f64 (f64_min delay MAX_CRAWL_DELAY))) as Hd.
      { unfold delay_of. destruct (governed url) as [o|]; [|done]. cbn in *. by rewrite Ed. }
      change (Crawl.next_allowed (w1 <| Crawl.frontier_ := f |>)) with (Crawl.next_allowed w1).
      destruct (match Crawl.next_allowed w1 !! host_key url with
                | Some t => now <? t | None => false end) eqn:Et; cbn [top_up_state].
      * pose proof (step_delay w1 url depth) as Hstep. rewrite Ep1 in Hstep. by apply Hstep.
      * pose proof (step_issue w1 url depth now
          (<[host_key url := now + from_secs_f64 (f64_min delay MAX_CRAWL_DELAY)]>
             (Crawl.next_allowed w1))) as Hstep.
        rewrite Ep1, Hd in Hstep. apply Hstep; [done|done|]. split; [|done]. unfold free_at.
        destruct (Crawl.next_allowed w1 !! host_key url); [by apply Z.ltb_ge|done].
    + pose proof (step_issue w1 url depth now (Crawl.next_allowed w1)) as Hstep.
      rewrite Ep1 in Hstep. apply Hstep; [done|done|].
      unfold delay_of. destruct (governed url) as [o|]; cbn in *; [by rewrite Ed|done].
  - pose proof (step_refuse w1 url depth
      ((Crawl.stats w1) <| CrawlStats.skipped_robots ::= Z.add 1 |>)) as Hstep.
    rewrite Ep1 in Hstep. apply Hstep; [done|done|cbn; lia|by split].
Qed.

(** ** The loop is a sequence of steps *)

Lemma step_cache w w' : step w w' → cache_ok w → cache_ok w'.
Proof.
  intros Hs Hc. destruct Hs; try exact Hc.
  - exact (robots_for_cache origin w Hc).
  - unfold flush_page_sink. destruct (Crawl.sink_buf w); [done|]. by destruct has_sink.
Qed.
Lemma steps_cache w w' : steps w w' → cache_ok w → cache_ok w'.
Proof. induction 1 as [|w w1 w' Hs _ IH]; [done|]. intros Hc. by eapply IH, step_cache. Qed.

Lemma top_up_steps fuel clock rotations w :
  cache_ok w → steps w (top_up ask cfg fuel clock rotations w).
Proof.
  revert rotations w. induction fuel as [|fuel IH]; intros rotations w Hc; [done|]. cbn [top_up].
  case_if; [|done]. pose proof (take_next_steps (clock fuel) w Hc) as Hs.
  pose proof (steps_cache _ _ Hs Hc) as Hc'.
  destruct (take_next ask cfg (clock fuel) w) as [w'|w'|w'|w']; cbn [top_up_state] in *;
    [exact Hs|etransitivity; [exact Hs|by apply IH]..].
Qed.

Lemma flushed w : Crawl.sink_buf (flush_page_sink has_sink w) = [].
Proof. unfold flush_page_sink. destruct (Crawl.sink_buf w) eqn:E; [done|]. by destruct has_sink. Qed.

Lemma checkpoint_steps force save_ok w :
  steps w (flush_then_checkpoint has_sink has_checkpointer force save_ok w).
Proof.
  unfold flush_then_checkpoint. eapply rtc_l; [apply step_flush|].
  destruct has_checkpointer; [|done].
  eapply rtc_l; [apply step_save, flushed|]. destruct save_ok; [done|].
  apply rtc_once. match goal with |- step ?w0 _ =>
    apply (step_count w0 ((Crawl.stats w0) <| CrawlStats.checkpoint_errors ::= Z.add 1 |>)) end.
  by split.
Qed.

(** A fetch leaves the flight: the state its outcome is settled in. *)
Definition landed (n : nat) (fl : InFlight.t) w : Crawl.t :=
  w <| Crawl.in_flight := delete n (Crawl.in_flight w) |>
    <| Crawl.in_flight_urls ::= delete (InFlight.url fl) |>.

Lemma answer_steps n fl fetch record w w' :
  Crawl.in_flight w !! n = Some fl → fetch_outcome_url fetch = InFlight.url fl →
  w' = (landed n fl w) <| Crawl.stats := Crawl.stats w' |> <| Crawl.dedup := Crawl.dedup w' |> →
  settles fetch (Crawl.stats w) (Crawl.stats w') →
  steps w (answer has_sink fetch record w').
Proof.
  intros Hn Hu Hw Hs. rewrite Hw. revert Hs. generalize (Crawl.stats w'), (Crawl.dedup w').
  clear Hw w'. intros s dedup Hs. unfold answer.
  set (record' := if has_sink then record else None).
  assert (has_sink = false → record' = None) as Hr by (unfold record'; by intros ->).
  clearbody record'. eapply rtc_l; [by eapply (step_answer w n fl fetch record' dedup s)|].
  destruct record' as [r|]; cbn [option_list].
  - unfold buffer_record. case_if; [|done]. apply rtc_once.
    match goal with |- step _ (flush_page_sink _ ?w1) => exact (step_flush w1) end.
  - match goal with |- rtc _ ?a ?b => replace a with b; [done|] end.
    cbn. by rewrite app_nil_r.
Qed.

Lemma follow_steps f w : steps w (follow_links cfg filter f w).
Proof.
  unfold follow_links. case_if; [|done]. generalize (Fetched.links f). intros links. clear Heqb.
  revert w. induction links as [|link links IH]; intros w; cbn; [done|].
  eapply rtc_l; [|apply IH]. unfold follow. case_if; [apply step_push|].
  apply (step_count w ((Crawl.stats w) <| CrawlStats.skipped_filtered ::= Z.add 1 |>)). by split.
Qed.

Lemma on_fetch_steps n fl fetch epoch w :
  Crawl.in_flight w !! n = Some fl → fetch_outcome_url fetch = InFlight.url fl →
  steps w (on_fetch has_sink has_dir cfg filter fetch epoch (landed n fl w)).1.
Proof.
  intros Hn Hu.
  pose proof (λ record w', answer_steps n fl fetch record w w' Hn Hu) as Ha.
  destruct fetch as [f|url|url reason|url|url status]; cbn [on_fetch fst].
  - unfold on_page. etransitivity; [|apply follow_steps].
    destruct (duplicate _ f _); apply Ha; try reflexivity; split; cbn; lia.
  - apply Ha; [reflexivity|]. unfold count_failure. cbn. destruct (host_of url); split; cbn; lia.
  - apply Ha; [reflexivity|]. split; cbn; lia.
  - apply Ha; [reflexivity|]. split; cbn; lia.
  - apply Ha; [reflexivity|]. split; cbn; lia.
Qed.

Lemma turn_steps i w : cache_ok w →
  steps w (turn ask has_sink has_checkpointer has_dir cfg filter i w).1.
Proof.
  intros Hc. unfold turn.
  set (w1 := top_up _ _ _ _ _ w). assert (steps w w1) as Hs1 by by apply top_up_steps.
  set (w2 := if has_checkpointer && Turn.due i then _ else w1).
  assert (steps w w2) as Hs2.
  { etransitivity; [exact Hs1|]. unfold w2. case_if; [apply checkpoint_steps|done]. }
  clearbody w2. clear Hs1 w1.
  destruct (Crawl.in_flight w2) as [|fl0 fs] eqn:Ef; [done|].
  destruct ((fl0 :: fs) !! _) as [fl|] eqn:En; [|done].
  set (fetch := fetch_one _ _ _ _ _).
  assert (fetch_outcome_url fetch = InFlight.url fl) as Hu by apply fetch_one_url.
  etransitivity; [exact Hs2|].
  rewrite <- Ef in En. rewrite <- Ef.
  pose proof (on_fetch_steps _ fl fetch (Turn.epoch i) w2 En Hu) as Hs.
  rewrite Hu. unfold landed in Hs.
  destruct (on_fetch _ _ _ _ fetch _ _) as [w3 page]. exact Hs.
Qed.

Lemma finish_steps save_ok w :
  steps w (finish has_sink has_checkpointer save_ok w).
Proof.
  unfold finish. eapply rtc_l.
  { apply (step_count w). shelve. }
  etransitivity; [apply checkpoint_steps|]. apply rtc_once.
  match goal with |- step ?w0 _ => apply (step_count w0) end. by split.
  Unshelve. by split.
Qed.

(** The expansion of the sitemaps is one too. *)
Lemma pushes_steps (g : string → string) locs w :
  steps w (w <| Crawl.frontier_ := foldl (λ f loc, push (g loc) 0 f) (Crawl.frontier_ w) locs |>).
Proof.
  revert w. induction locs as [|loc locs IH]; intros w; [by destruct w|].
  eapply rtc_l; [apply (step_push w (g loc) 0)|].
  exact (IH (w <| Crawl.frontier_ ::= push (g loc) 0 |>)).
Qed.
Lemma expand_steps origins w : steps w (expand ask filter origins w).
Proof.
  revert w. induction origins as [|origin origins IH]; intros w; [done|]. cbn [expand].
  eapply rtc_l; [apply (step_robots w origin)|].
  destruct (robots_for ask origin w) as [w1 rules]. cbn [fst]. case_if; [done|].
  unfold seed_from_sitemaps.
  set (locs := sitemap_locs _ _ _ _ _). cbn zeta.
  etransitivity; [apply (pushes_steps canonicalize_str locs)|].
  eapply rtc_l; [|apply IH].
  match goal with |- step ?w0 _ => apply (step_count w0
    ((Crawl.stats w1) <| CrawlStats.sitemap_seeded ::= λ n, n + Z.of_nat (length locs) |>)) end.
  by split.
Qed.
Lemma start_steps known epoch : steps (opened cfg known epoch) (start ask cfg filter known epoch).
Proof. unfold start. case_if; [apply expand_steps|done]. Qed.
End steps.

(** ** Every address of a crawl in one place

    The invariant that follows an address from the frontier to the flight and to its outcome,
    with the page budget of its host. *)

(** How many addresses of a host are in a list. *)
Definition of_host (h : string) `{UrlLib} (l : list string) : Z :=
  rows_affected (λ u, String.eqb (host_key u) h) l.

(** A property of every event of a trace, given those before it. *)
Definition trace_all (P : list Event → Event → Prop) (T : list Event) : Prop :=
  ∀ T1 e T2, T = T1 ++ e :: T2 → P T1 e.

Lemma trace_all_nil P : trace_all P [].
Proof. intros T1 e T2 H. by destruct T1. Qed.
Lemma trace_all_snoc P T e : trace_all P (T ++ [e]) ↔ trace_all P T ∧ P T e.
Proof.
  split.
  - intros Ha. split; [|by apply (Ha T e [])]. intros T1 e' T2 ->.
    apply (Ha T1 e' (T2 ++ [e])). by rewrite <- app_assoc.
  - intros [Ha He] T1 e' T2 HT. destruct T2 as [|x T2 _] using rev_ind.
    + by apply app_inj_tail in HT as [-> ->].
    + rewrite app_comm_cons, app_assoc in HT. apply app_inj_tail in HT as [HT _]. by eapply Ha.
Qed.

Section crawl.
Context `{UrlJoin, HtmlLib, RegexLib, MathLib, Unicode, UnicodeAlphanumeric, Sha256}.
Context `{JsonRender, JsonEq, RegexCaptures}.
Context (ask : string → option HttpResponse.t) (has_sink has_checkpointer has_dir : bool).
Context (cfg : Config) (filter : UrlFilter.t).
Implicit Types (w : Crawl.t) (url : string) (depth : Z).

Abbreviation step := (step ask has_sink cfg).
Abbreviation cap := (Frontier.max_pages_per_host (Frontier.new (CrawlConfig.max_pages_per_host cfg))).

Definition flying w : list string := map InFlight.url (Crawl.in_flight w).

(** ** Every address in one place *)

Record places (settled : list string) (taken0 : gmap string Z) w : Prop := {
  pl_rot : rotation (Crawl.frontier_ w);
  pl_cap : Frontier.max_pages_per_host (Crawl.frontier_ w) = cap;
  pl_placed : ∃ dropped,
    placed (Crawl.frontier_ w)
      (settled ++ flying w ++ answered (Crawl.trace w) ++ refused (Crawl.trace w) ++ dropped)
    ∧ Forall (λ u, over_budget (Crawl.frontier_ w) (host_key u) = true) dropped;
  pl_map : Crawl.in_flight_urls w
    = list_to_map (map (λ fl, (InFlight.url fl, InFlight.depth fl)) (Crawl.in_flight w));
  pl_asked : asked (Crawl.trace w) ≡ₚ flying w ++ answered (Crawl.trace w);
  pl_taken : ∀ h, default 0 (Frontier.taken (Crawl.frontier_ w) !! h)
    = default 0 (taken0 !! h) + of_host h (asked (Crawl.trace w) ++ refused (Crawl.trace w)) }.

(** Only the frontier, the fetches in flight and the trace matter. *)
Lemma places_same settled taken0 w w' :
  Crawl.frontier_ w' = Crawl.frontier_ w → Crawl.in_flight w' = Crawl.in_flight w →
  Crawl.in_flight_urls w' = Crawl.in_flight_urls w →
  asked (Crawl.trace w') = asked (Crawl.trace w) →
  answered (Crawl.trace w') = answered (Crawl.trace w) →
  refused (Crawl.trace w') = refused (Crawl.trace w) →
  places settled taken0 w → places settled taken0 w'.
Proof.
  intros Hf Hi Hu Ha Hn Hr [P1 P2 P3 P4 P5 P6].
  split; unfold flying in *; rewrite ?Hf, ?Hi, ?Hu, ?Ha, ?Hn, ?Hr; done.
Qed.

Lemma of_host_app h l l' : of_host h (l ++ l') = of_host h l + of_host h l'.
Proof. unfold of_host, rows_affected, select_where. rewrite List.filter_app, length_app. lia. Qed.
Lemma of_host_perm h l l' : l ≡ₚ l' → of_host h l = of_host h l'.
Proof.
  intros Hp. unfold of_host, rows_affected, select_where. f_equal.
  induction Hp as [|x l l' _ IH|x y l|l l' l'' _ IH1 _ IH2]; cbn; [done| | |congruence].
  - case_if; cbn; lia.
  - by destruct (String.eqb (host_key y) h), (String.eqb (host_key x) h).
Qed.
Lemma of_host_one h u : of_host h [u] = if String.eqb (host_key u) h then 1 else 0.
Proof. unfold of_host, rows_affected, select_where. cbn. by destruct (String.eqb _ _). Qed.

(** A pop that hands out an address: everything but where the address goes. *)
Lemma places_pop settled taken0 w url depth :
  places settled taken0 w → (pop (Crawl.frontier_ w)).2 = Some (url, depth) →
  let f := (pop (Crawl.frontier_ w)).1 in
  rotation f ∧ Frontier.max_pages_per_host f = cap
  ∧ (∃ dropped,
      placed f (settled ++ flying w ++ answered (Crawl.trace w) ++ refused (Crawl.trace w)
                ++ url :: dropped)
      ∧ Forall (λ u, over_budget f (host_key u) = true ∧ host_key url ≠ host_key u) dropped)
  ∧ ∀ h, default 0 (Frontier.taken f !! h)
      = default 0 (taken0 !! h) + of_host h (asked (Crawl.trace w) ++ refused (Crawl.trace w))
        + if String.eqb (host_key url) h then 1 else 0.
Proof.
  intros [P1 P2 (dropped & P3 & P3') P4 P5 P6] Hp. cbn zeta.
  pose proof (pop_accounts _ P1) as [Q1 Q2 Q3 Q4 Q5 _ _].
  destruct (placed_pop _ _ P1 P3) as (dropped' & P7 & P8). rewrite Hp in *. cbn [fst snd] in *.
  split_and!; [done|by rewrite Q3| |].
  - exists (dropped ++ dropped'). split.
    + eapply placed_perm; [|exact P7]. cbn [popped_list map app fst].
      rewrite <- !app_assoc. do 4 f_equiv. cbn. by rewrite <- Permutation_middle.
    + apply Forall_app. split; (eapply Forall_impl; [done|]); intros u Hu;
        destruct (pop_keeps_full _ _ P1 Hu) as [Hb Hne]; (split; [done|]); by apply (Hne (url, depth)).
  - intros h. rewrite Q4. cbn [fst]. destruct (String.eqb_spec (host_key url) h) as [->|Hne].
    + rewrite lookup_insert_eq. cbn. rewrite P6. lia.
    + rewrite lookup_insert_ne by done. rewrite P6. lia.
Qed.

Lemma crawl_request_url url cond : HttpRequest.url (crawl_request url cond) = url.
Proof. unfold crawl_request. by destruct cond as [[? ?]|]. Qed.

(** The refund of a requeue. *)
Lemma requeue_taken f url depth h :
  default 0 (Frontier.taken (requeue url depth f) !! h)
  = if String.eqb (host_key url) h
    then Z.max (default 0 (Frontier.taken f !! host_key url) - 1) 0
    else default 0 (Frontier.taken f !! h).
Proof.
  unfold requeue. cbn. destruct (String.eqb_spec (host_key url) h) as [<-|Hne].
  - destruct (Frontier.taken f !! host_key url) as [c|] eqn:E; [by rewrite lookup_insert_eq|].
    by rewrite E.
  - destruct (Frontier.taken f !! host_key url); [by rewrite lookup_insert_ne|done].
Qed.

Lemma flying_delete n fl w :
  Crawl.in_flight w !! n = Some fl →
  flying w ≡ₚ InFlight.url fl :: map InFlight.url (delete n (Crawl.in_flight w)).
Proof. intros Hn. unfold flying. by rewrite (delete_Permutation _ _ _ Hn) at 1. Qed.

Lemma list_to_map_delete n (l : list InFlight.t) fl :
  NoDup (map InFlight.url l) → l !! n = Some fl →
  list_to_map (M := gmap string Z)
    (map (λ fl, (InFlight.url fl, InFlight.depth fl)) (delete n l))
  = delete (InFlight.url fl)
      (list_to_map (map (λ fl, (InFlight.url fl, InFlight.depth fl)) l)).
Proof.
  intros Hnd Hn. pose proof (delete_Permutation _ _ _ Hn) as Hp.
  rewrite (Permutation_map InFlight.url Hp) in Hnd. apply NoDup_cons in Hnd as [Hni Hnd].
  assert (list_to_map (M := gmap string Z) (map (λ fl, (InFlight.url fl, InFlight.depth fl)) l)
          = list_to_map (map (λ fl, (InFlight.url fl, InFlight.depth fl)) (fl :: delete n l))) as ->.
  { apply list_to_map_proper.
    - rewrite <- list_fmap_compose. change (NoDup (map InFlight.url l)).
      rewrite (Permutation_map InFlight.url Hp). by constructor.
    - by apply Permutation_map. }
  cbn. rewrite delete_insert_id; [done|]. apply not_elem_of_list_to_map_1.
  rewrite <- list_fmap_compose. exact Hni.
Qed.

Lemma places_nodup settled taken0 w :
  places settled taken0 w →
  NoDup (settled ++ flying w ++ answered (Crawl.trace w) ++ refused (Crawl.trace w)).
Proof.
  intros [_ _ (dropped & [P3 _] & _) _ _ _]. rewrite <- !app_assoc in P3.
  rewrite !app_assoc in P3. apply NoDup_app in P3 as [P3 _]. apply NoDup_app in P3 as [P3 _].
  by rewrite <- !app_assoc in P3.
Qed.

Lemma places_drained settled taken0 w :
  (pop (Crawl.frontier_ w)).2 = None → places settled taken0 w →
  places settled taken0 (w <| Crawl.frontier_ := (pop (Crawl.frontier_ w)).1 |>).
Proof.
  intros Hp HP. destruct HP as [P1 P2 (dropped & P3 & P3') P4 P5 P6].
  pose proof (pop_accounts _ P1) as [Q1 Q2 Q3 Q4 Q5 _ _].
  destruct (placed_pop _ _ P1 P3) as (dropped' & P7 & P8). rewrite Hp in *. cbn [popped_list map app] in *.
  split; cbn; try done; [by rewrite Q3| |by rewrite Q4].
  exists (dropped ++ dropped'). split; [by rewrite <- !app_assoc in P7|].
  apply Forall_app. split; (eapply Forall_impl; [done|]); intros u Hu;
    by destruct (pop_keeps_full _ _ P1 Hu).
Qed.
Lemma places_refuse settled taken0 w url depth s :
  (pop (Crawl.frontier_ w)).2 = Some (url, depth) → places settled taken0 w →
  places settled taken0 (log (Refused url) (w <| Crawl.frontier_ := (pop (Crawl.frontier_ w)).1 |>
                                              <| Crawl.stats := s |>)).
Proof.
  intros Hp HP. destruct (places_pop _ _ _ _ _ HP Hp) as (Q1 & Q2 & (dropped & Q3 & Q4) & Q5).
  destruct HP as [P1 P2 _ P4 P5 P6]. split; unfold flying in *; cbn; autorewrite with trace; cbn;
    rewrite ?app_nil_r; try done.
  - exists dropped. split; [|eapply Forall_impl; [exact Q4|]; naive_solver].
    by rewrite <- !app_assoc.
  - intros h. rewrite Q5, !of_host_app, of_host_one. lia.
Qed.
Lemma places_delay settled taken0 w url depth :
  (pop (Crawl.frontier_ w)).2 = Some (url, depth) → places settled taken0 w →
  places settled taken0 (w <| Crawl.frontier_ := requeue url depth (pop (Crawl.frontier_ w)).1 |>).
Proof.
  intros Hp HP. destruct (places_pop _ _ _ _ _ HP Hp) as (Q1 & Q2 & (dropped & Q3 & Q4) & Q5).
  destruct HP as [P1 P2 _ P4 P5 P6]. split; cbn; try done.
  - by apply rotation_requeue.
  - exists dropped. split.
    + eapply placed_requeue, placed_perm; [|exact Q3]. rewrite !app_assoc.
      by rewrite Permutation_middle.
    + eapply Forall_impl; [exact Q4|]. intros u [Hu Hne]. by rewrite requeue_keeps_full.
  - intros h. transitivity (default 0 (Frontier.taken (Crawl.frontier_ w) !! h)); [|apply P6].
    etransitivity; [exact (requeue_taken _ url depth h)|].
    rewrite !Q5, <- !P6, String.eqb_refl.
    destruct (String.eqb_spec (host_key url) h) as [<-|_]; [|lia].
    destruct (Frontier.taken (Crawl.frontier_ w) !! _) as [c|] eqn:E; cbn; [|done].
    apply (rot_taken _ P1) in E. lia.
Qed.
Lemma places_issue settled taken0 w url depth now next :
  (pop (Crawl.frontier_ w)).2 = Some (url, depth) → places settled taken0 w →
  places settled taken0
    (issue cfg url depth now (w <| Crawl.frontier_ := (pop (Crawl.frontier_ w)).1 |>
                                <| Crawl.next_allowed := next |>)).
Proof.
  intros Hp HP. destruct (places_pop _ _ _ _ _ HP Hp) as (Q1 & Q2 & (dropped & Q3 & Q4) & Q5).
  pose proof (places_nodup _ _ _ HP) as Hnd.
  destruct HP as [P1 P2 _ P4 P5 P6]. unfold issue. split; unfold flying in *; cbn; autorewrite with trace;
    cbn; rewrite ?app_nil_r, ?map_app, ?crawl_request_url; try done.
  - exists dropped. split; [|eapply Forall_impl; [exact Q4|]; naive_solver].
    eapply placed_perm; [|exact Q3]. cbn. rewrite <- !app_assoc. cbn. f_equiv. f_equiv.
    rewrite !app_assoc. by rewrite Permutation_middle.
  - rewrite P4. rewrite list_to_map_app. cbn. rewrite <- insert_union_r; [by rewrite map_union_empty|].
    apply not_elem_of_list_to_map_1. rewrite <- list_fmap_compose.
    intros Hin. eapply placed_twice.
    + rewrite !app_assoc in Q3. exact Q3.
    + rewrite !elem_of_app. left. left. left. right. exact Hin.
  - rewrite P5. rewrite <- !app_assoc. f_equiv. apply Permutation_app_comm.
  - intros h. rewrite Q5, !of_host_app, of_host_one. lia.
Qed.
Lemma places_answer settled taken0 w n fl fetch record dedup s :
  Crawl.in_flight w !! n = Some fl → fetch_outcome_url fetch = InFlight.url fl →
  places settled taken0 w →
  places settled taken0
    (log (Answered fetch record)
       (w <| Crawl.in_flight := delete n (Crawl.in_flight w) |>
          <| Crawl.in_flight_urls ::= delete (InFlight.url fl) |>
          <| Crawl.stats := s |> <| Crawl.dedup := dedup |>
          <| Crawl.sink_buf ::= λ b, b ++ option_list record |>)).
Proof.
  intros Hn Hu HP. pose proof (places_nodup _ _ _ HP) as Hnd. pose proof (flying_delete _ _ _ Hn) as Hf.
  destruct HP as [P1 P2 (dropped & P3 & P3') P4 P5 P6].
  split; unfold flying in *; cbn; autorewrite with trace; cbn;
    rewrite ?map_app; cbn; rewrite ?app_nil_r, ?Hu; fold (answered (Crawl.trace w)); try done.
  - exists dropped. split; [|done]. eapply placed_perm; [|exact P3]. rewrite Hf. f_equiv.
    cbn. solve_Permutation.
  - rewrite P4. symmetry. apply list_to_map_delete; [|done].
    apply NoDup_app in Hnd as (_ & _ & Hnd). by apply NoDup_app in Hnd as [Hnd _].
  - rewrite P5, Hf. cbn. by rewrite app_assoc, <- Permutation_cons_append.
Qed.
Lemma places_push settled taken0 w url depth :
  places settled taken0 w → places settled taken0 (w <| Crawl.frontier_ ::= push url depth |>).
Proof.
  intros HP. destruct HP as [P1 P2 (dropped & P3 & P3') P4 P5 P6]. split; cbn; try done.
  - by apply rotation_push.
  - etransitivity; [|exact P2]. unfold push. case_if; [done|]. by case_if.
  - exists dropped. split; [by apply placed_push|].
    eapply Forall_impl; [exact P3'|]. intros u Hu. by rewrite push_keeps_full.
  - intros h. etransitivity; [|exact (P6 h)]. unfold push. case_if; [done|]. by case_if.
Qed.

Lemma places_step settled taken0 w w' : step w w' → places settled taken0 w → places settled taken0 w'.
Proof.
  intros Hs HP. destruct Hs as [w Hp|w origin|w url depth s Hp _ _ _|w url depth Hp|w url depth now next Hp _ _|w|w force _|w n fl fetch record dedup s Hn Hu _ _|w url depth|w s _].
  - by apply places_drained.
  - destruct (robots_for_same ask origin w) as (E1 & _ & _ & E4 & E5 & E6 & _).
    apply (places_same _ _ w); [done..| | | |done]; by rewrite E4.
  - by eapply places_refuse.
  - by apply places_delay.
  - by apply places_issue.
  - unfold flush_page_sink. destruct (Crawl.sink_buf w) as [|r b]; [done|].
    destruct has_sink; (apply (places_same _ _ w); [done..| | | |done]); cbn; autorewrite with trace; cbn;
      by rewrite ?app_nil_r.
  - unfold save_checkpoint. apply (places_same _ _ w); [done..| | | |done]; cbn; autorewrite with trace; cbn;
      by rewrite ?app_nil_r.
  - by apply places_answer.
  - by apply places_push.
  - by apply (places_same _ _ w).
Qed.
End crawl.
