(* ===== verification/CrawlInvariants.v ===== *)
(** * CrawlInvariants: records, budgets, delays and counters over the crawl's steps

    One invariant per concern, each preserved by every step of [CrawlSteps], and what holds
    where a run starts: fresh, or from a checkpoint. *)

From stdpp Require Import gmap.
From Stdlib Require Import Floats.SpecFloat.
From S2P Require Import Prelude Sql Float64 Json Filters Simhash Records ChangePlan Materiality.
From S2P Require Import Robots Frontier Revisit Pages CrawlState Crawl CrawlSteps.

(** A checkpoint a resume can start from: every queued address once, all of them seen. *)
Record cp_sound (cp : CrawlCheckpoint.t) : Prop := {
  cps_nodup : NoDup (map fst (CrawlCheckpoint.queue cp));
  cps_seen : ∀ u, u ∈ map fst (CrawlCheckpoint.queue cp) → u ∈ CrawlCheckpoint.seen cp;
  cps_taken : ∀ h c, CrawlCheckpoint.taken cp !! h = Some c → 0 ≤ c }.

Section crawl.
Context `{UrlJoin, HtmlLib, RegexLib, MathLib, Unicode, UnicodeAlphanumeric, Sha256}.
Context `{JsonRender, JsonEq, RegexCaptures}.
Context (ask : string → option HttpResponse.t) (has_sink has_checkpointer has_dir : bool).
Context (cfg : Config) (filter : UrlFilter.t).
Implicit Types (w : Crawl.t) (url : string) (depth : Z).

Abbreviation step := (step ask has_sink cfg).
Abbreviation steps := (rtc step).
Abbreviation cap := (Frontier.max_pages_per_host (Frontier.new (CrawlConfig.max_pages_per_host cfg))).

Lemma rtc_inv (P : Crawl.t → Prop) w w' :
  (∀ w w', step w w' → P w → P w') → steps w w' → P w → P w'.
Proof. intros Hp. induction 1 as [|w w1 w' Hs _ IH]; [done|]. intros Hw. by eapply IH, Hp. Qed.

(** ** The start *)

Definition settled_of (cp : CrawlCheckpoint.t) : list string :=
  elements (list_to_set (C := gset string) (CrawlCheckpoint.seen cp)
            ∖ list_to_set (map fst (CrawlCheckpoint.queue cp))).

(** What a run resumes from, if it does. *)
Definition resumed_from : option CrawlCheckpoint.t :=
  match from_value <$> CrawlConfig.resume_state cfg with Some (Loaded cp) => Some cp | _ => None end.
Definition resume_ok : Prop := match resumed_from with Some cp => cp_sound cp | None => True end.
Definition settled0 : list string := default [] (settled_of <$> resumed_from).
Definition taken0 : gmap string Z := default ∅ (CrawlCheckpoint.taken <$> resumed_from).
Definition seen0 : nat :=
  default 0%nat ((λ cp, size (list_to_set (C := gset string) (CrawlCheckpoint.seen cp))) <$> resumed_from).

(** What a frontier is when the loop starts. *)
Record opening (f : frontier) : Prop := {
  op_rot : rotation f;
  op_cap : Frontier.max_pages_per_host f = cap;
  op_placed : placed f settled0;
  op_taken : Frontier.taken f = taken0;
  op_seen : Z.of_nat (size (Frontier.seen f)) ≤ Z.max MAX_FRONTIER (Z.of_nat seen0) }.

Lemma restored_frontier :
  (restored cfg).1.1.1
  = match resumed_from with
    | Some cp => restore (CrawlCheckpoint.queue cp) (CrawlCheckpoint.seen cp) (CrawlCheckpoint.taken cp)
                   (Frontier.new (CrawlConfig.max_pages_per_host cfg))
    | None => Frontier.new (CrawlConfig.max_pages_per_host cfg)
    end.
Proof.
  unfold restored, resumed_from. destruct (CrawlConfig.resume_state cfg) as [v|]; [|done]. cbn [fmap option_fmap option_map].
  by destruct (from_value v).
Qed.

Lemma opening_restored : resume_ok → opening ((restored cfg).1.1.1).
Proof.
  rewrite restored_frontier. unfold resume_ok. destruct resumed_from as [cp|] eqn:E.
  - intros [Hn Hs Ht].
    destruct (restore_account (CrawlConfig.max_pages_per_host cfg) (CrawlCheckpoint.queue cp)
                (CrawlCheckpoint.seen cp) (CrawlCheckpoint.taken cp) Ht) as (R1 & R2 & R3 & R4 & R5).
    split; unfold settled0, taken0, seen0; rewrite ?E; cbn; [done|done| |done|rewrite R3; lia].
    assert (map fst (queued (restore (CrawlCheckpoint.queue cp) (CrawlCheckpoint.seen cp)
              (CrawlCheckpoint.taken cp) (Frontier.new (CrawlConfig.max_pages_per_host cfg))))
            ≡ₚ map fst (CrawlCheckpoint.queue cp)) as Hq by by rewrite R2.
    unfold placed. rewrite R3. setoid_rewrite Hq. unfold settled_of. split.
    + apply NoDup_app. split_and!; [apply NoDup_elements|set_solver|done].
    + intros u. specialize (Hs u). rewrite elem_of_app, elem_of_elements, elem_of_difference,
        !elem_of_list_to_set.
      destruct (decide (u ∈ map fst (CrawlCheckpoint.queue cp))); naive_solver.
  - intros _. split; unfold settled0, taken0, seen0; rewrite ?E; cbn; try done.
    + apply rotation_new.
    + split; cbn; [constructor|]. intros u. split; [by intros ?%not_elem_of_empty|].
      by intros ?%not_elem_of_nil.
Qed.

Lemma opening_push f url depth : opening f → opening (push url depth f).
Proof.
  intros [P1 P2 P3 P4 P5]. split; [by apply rotation_push| |by apply placed_push| |];
    unfold push; (case_if; [done|]); (case_if; [done|]); cbn; [done..|]. breflect_in Heqb.
  rewrite size_union by set_solver. rewrite size_singleton. lia.
Qed.

Lemma opening_pushes {A} (f : frontier) (g : A → string) l :
  opening f → opening (foldl (λ f x, push (g x) 0 f) f l).
Proof. revert f. induction l as [|x l IH]; intros f Hf; [done|]. cbn. by apply IH, opening_push. Qed.

Lemma opening_known acc l : opening acc.1 → opening (foldl add_known acc l).1.
Proof.
  revert acc. induction l as [|s l IH]; intros acc Ha; [done|]. cbn. by apply IH, opening_push.
Qed.

(** A run that has done nothing yet. *)
Record at_rest w : Prop := {
  as_robots : Crawl.robots w = ∅;
  as_flight : Crawl.in_flight w = [] ∧ Crawl.in_flight_urls w = ∅;
  as_trace : Crawl.sink_buf w = [] ∧ Crawl.trace w = [];
  as_stats : CrawlStats.crawled (Crawl.stats w) = 0 ∧ CrawlStats.kept (Crawl.stats w) = 0
    ∧ CrawlStats.skipped_duplicates (Crawl.stats w) = 0 ∧ CrawlStats.failed (Crawl.stats w) = 0
    ∧ CrawlStats.skipped_botwall (Crawl.stats w) = 0 ∧ CrawlStats.unchanged_304 (Crawl.stats w) = 0
    ∧ CrawlStats.gone (Crawl.stats w) = 0 ∧ CrawlStats.skipped_robots (Crawl.stats w) = 0 }.
Definition at_start w : Prop := at_rest w ∧ opening (Crawl.frontier_ w).

Lemma opened_at_rest known epoch : at_rest (opened cfg known epoch).
Proof.
  unfold opened. destruct (restored cfg) as [[[f dedup] resumed] reset].
  by destruct (foldl add_known _ _) as [f2 conditional].
Qed.

Lemma opened_at_start known epoch : resume_ok → at_start (opened cfg known epoch).
Proof.
  intros Hr%opening_restored. split; [apply opened_at_rest|]. unfold opened.
  destruct (restored cfg) as [[[f dedup] resumed] reset]. cbn [fst] in Hr.
  set (f1 := foldl _ f _).
  pose proof (opening_known (f1, ∅) (default [] (RevisitPlan.selected <$> plan_of cfg known epoch))
                (opening_pushes f canonicalize_str _ Hr)) as Hk.
  by destruct (foldl add_known (f1, ∅) _) as [f2 conditional].
Qed.

Lemma start_places w : at_start w → places cfg settled0 taken0 w.
Proof.
  intros [[Hr [Hf Hu] [Hb Ht] Hs] [P1 P2 P3 P4 P5]].
  split; unfold flying; rewrite ?Hf, ?Hu, ?Ht; try done.
  - exists []. split; [|constructor]. by rewrite !app_nil_r.
  - intros h. rewrite P4. rewrite Z.add_0_r. done.
Qed.

(** The whole run is a sequence of steps. *)
Lemma run_steps turns save_ok w :
  cache_ok ask w →
  steps w (run ask has_sink has_checkpointer has_dir cfg filter turns save_ok w).1.
Proof.
  revert w. induction turns as [|i turns IH]; intros w Hc; [done|]. cbn [run].
  pose proof (turn_steps ask has_sink has_checkpointer has_dir cfg filter i w Hc) as Hs.
  destruct (turn ask has_sink has_checkpointer has_dir cfg filter i w) as [w' []]; cbn [fst] in *.
  - etransitivity; [exact Hs|]. apply finish_steps.
  - etransitivity; [exact Hs|]. apply IH. by eapply steps_cache.
Qed.
Lemma rest_inv (P : Crawl.t → Prop) known epoch turns save_ok :
  (∀ w w', step w w' → P w → P w') → P (opened cfg known epoch) →
  P (run ask has_sink has_checkpointer has_dir cfg filter turns save_ok
       (start ask cfg filter known epoch)).1.
Proof.
  intros Hstep Hs. pose proof (start_steps ask has_sink cfg filter known epoch) as Hst.
  eapply rtc_inv; [exact Hstep|apply run_steps|by eapply rtc_inv].
  eapply steps_cache; [exact Hst|]. intros o r.
  rewrite (as_robots _ (opened_at_rest known epoch)). by rewrite lookup_empty.
Qed.
Lemma run_inv (P : Crawl.t → Prop) known epoch turns save_ok :
  (∀ w w', step w w' → P w → P w') → (∀ w, at_start w → P w) → resume_ok →
  P (run ask has_sink has_checkpointer has_dir cfg filter turns save_ok
       (start ask cfg filter known epoch)).1.
Proof. intros Hstep Hstart Hok. apply rest_inv; [done|]. by apply Hstart, opened_at_start. Qed.

(** ** Records *)

(** What is recorded is handed over or buffered, in order. *)
Definition buffered w : Prop :=
  recorded (Crawl.trace w) = emitted (Crawl.trace w) ++ Crawl.sink_buf w
  ∧ (has_sink = false → Crawl.sink_buf w = [] ∧ recorded (Crawl.trace w) = []).

Lemma buffered_step w w' : step w w' → buffered w → buffered w'.
Proof.
  intros Hs [Hb Hn].
  assert (∀ w', Crawl.sink_buf w' = Crawl.sink_buf w → recorded (Crawl.trace w') = recorded (Crawl.trace w) →
            emitted (Crawl.trace w') = emitted (Crawl.trace w) → buffered w') as Hsame.
  { intros w2 E1 E2 E3. unfold buffered. by rewrite E1, E2, E3. }
  destruct Hs as [w Hp|w origin|w url depth s Hp _ _ _|w url depth Hp|w url depth now next Hp _ _|w|w force Hbuf|w n fl fetch record dedup s Hfl Hu Hr _|w url depth|w s _];
    try by apply Hsame.
  - destruct (robots_for_same ask origin w) as (_ & _ & _ & E4 & _ & _ & E7).
    apply Hsame; by rewrite ?E4, ?E7.
  - apply Hsame; cbn; autorewrite with trace; cbn; by rewrite ?app_nil_r.
  - apply Hsame; cbn; autorewrite with trace; cbn; by rewrite ?app_nil_r.
  - unfold flush_page_sink. destruct (Crawl.sink_buf w) as [|r b] eqn:Eb; [by split; rewrite Eb|].
    destruct has_sink eqn:Ek; [|by destruct (Hn eq_refl)]. unfold buffered. cbn.
    autorewrite with trace. cbn. rewrite !app_nil_r. split; [done|congruence].
  - apply Hsame; cbn; autorewrite with trace; cbn; by rewrite ?app_nil_r.
  - unfold buffered. cbn. autorewrite with trace. cbn. rewrite Hb, app_nil_r. split.
    + destruct record; cbn; by rewrite <- app_assoc.
    + intros Hno. rewrite (Hr Hno). destruct (Hn Hno) as [E1 E2]. rewrite E1 in *. split; [done|].
      rewrite app_nil_r in Hb. rewrite <- Hb, E2. done.
Qed.

Lemma buffered_start w : at_rest w → buffered w.
Proof. intros [_ _ [Hb Ht] _]. unfold buffered. by rewrite Hb, Ht. Qed.

(** ** Page budgets *)

Record in_budget (f : frontier) : Prop := {
  ib_rot : rotation f;
  ib_cap : Frontier.max_pages_per_host f = cap;
  ib_taken : ∀ h c, cap = Some c →
    default 0 (Frontier.taken f !! h) ≤ Z.max c (default 0 (taken0 !! h));
  ib_seen : Z.of_nat (size (Frontier.seen f)) ≤ Z.max MAX_FRONTIER (Z.of_nat seen0) }.

Lemma in_budget_pop f : in_budget f → in_budget (pop f).1.
Proof.
  intros [B1 B2 B3 B4]. pose proof (pop_accounts f B1) as [Q1 Q2 Q3 Q4 Q5 _ _].
  split; [done|by rewrite Q3| |by rewrite Q2]. intros h c Hc. rewrite Q4.
  destruct (pop f).2 as [it|]; [|by apply B3].
  destruct (decide (h = host_key it.1)) as [->|Hne]; [|rewrite lookup_insert_ne by done; by apply B3].
  rewrite lookup_insert_eq. specialize (Q5 it eq_refl). unfold over_budget in Q5.
  rewrite B2, Hc in Q5. breflect_in Q5. cbn. lia.
Qed.

Lemma in_budget_requeue f url depth : in_budget f → in_budget (requeue url depth f).
Proof.
  intros [B1 B2 B3 B4]. split; [by apply rotation_requeue|done| |done].
  intros h c Hc. rewrite requeue_taken. specialize (B3 h c Hc).
  assert (0 ≤ default 0 (Frontier.taken f !! h)).
  { destruct (Frontier.taken f !! h) eqn:E; cbn; [|done]. by apply (rot_taken _ B1) in E. }
  destruct (String.eqb_spec (host_key url) h) as [<-|_]; lia.
Qed.

Lemma in_budget_push f url depth : in_budget f → in_budget (push url depth f).
Proof.
  intros [B1 B2 B3 B4]. split; [by apply rotation_push| | |];
    unfold push; (case_if; [done|]); (case_if; [done|]); cbn; [done..|]. breflect_in Heqb.
  rewrite size_union by set_solver. rewrite size_singleton. lia.
Qed.

Lemma budget_step w w' :
  step w w' → in_budget (Crawl.frontier_ w) → in_budget (Crawl.frontier_ w').
Proof.
  intros Hs HB. destruct Hs as [w Hp|w origin|w url depth s Hp _ _ _|w url depth Hp|w url depth now next Hp _ _|w|w force Hbuf|w n fl fetch record dedup s Hfl Hu Hr _|w url depth|w s _];
    cbn; try done; try by apply in_budget_pop.
  - by destruct (robots_for_same ask origin w) as (-> & _).
  - by apply in_budget_requeue, in_budget_pop.
  - unfold flush_page_sink. destruct (Crawl.sink_buf w); [done|]. by destruct has_sink.
  - by apply in_budget_push.
Qed.

Lemma budget_start w : at_start w → in_budget (Crawl.frontier_ w).
Proof. intros [_ [P1 P2 P3 P4 P5]]. split; [done|done| |done]. intros h c _. rewrite P4. lia. Qed.

(** ** What a step adds to the trace *)

Definition event_of w (es : list Event) w' : Prop :=
  match es with
  | [] | [Refused _] | [Answered _ _] | [Emitted _] => True
  | [Requested req now] =>
      may_ask ask cfg (HttpRequest.url req) = true
      ∧ match delay_of ask cfg (HttpRequest.url req) with
        | Some d => free_at (HttpRequest.url req) now w
            ∧ Crawl.next_allowed w' = <[host_key (HttpRequest.url req) := now + d]> (Crawl.next_allowed w)
        | None => Crawl.next_allowed w' = Crawl.next_allowed w
        end
  | [Saved cp _] => Crawl.sink_buf w = []
      ∧ cp = checkpoint_of (Crawl.frontier_ w) (Crawl.in_flight_urls w) (SimHashIndex.all (Crawl.dedup w))
  | _ => False
  end.

Lemma step_event w w' : step w w' →
  ∃ es, Crawl.trace w' = Crawl.trace w ++ es ∧ event_of w es w'
    ∧ match es with [Requested _ _] => True | _ => Crawl.next_allowed w' = Crawl.next_allowed w end.
Proof.
  intros Hs. destruct Hs as [w Hp|w origin|w url depth s Hp _ _ _|w url depth Hp|w url depth now next Hp Hm Hd|w|w force Hbuf|w n fl fetch record dedup s Hfl Hu Hr _|w url depth|w s _];
    try (by exists []; cbn; rewrite app_nil_r).
  - exists []. destruct (robots_for_same ask origin w) as (_ & E2 & _ & E4 & _). by rewrite app_nil_r.
  - by exists [Refused url].
  - eexists [Requested _ now]. split; [done|]. split; [|done]. cbn [event_of].
    rewrite crawl_request_url. split; [done|exact Hd].
  - unfold flush_page_sink. destruct (Crawl.sink_buf w) as [|r b]; [by exists []; rewrite app_nil_r|].
    destruct has_sink; [by exists [Emitted (r :: b)]|]. exists []. by rewrite app_nil_r.
  - by eexists [Saved _ force].
  - by exists [Answered fetch record].
Qed.

Lemma trace_all_step P w w' es :
  Crawl.trace w' = Crawl.trace w ++ es → event_of w es w' → trace_all P (Crawl.trace w) →
  (∀ e, es = [e] → P (Crawl.trace w) e) → trace_all P (Crawl.trace w').
Proof.
  intros -> He Ha Hn. destruct es as [|e [|e' es]]; [by rewrite app_nil_r| |by destruct e].
  apply trace_all_snoc. split; [done|by apply Hn].
Qed.

(** ** Politeness *)

Lemma requested_dec (es : list Event) :
  (∃ req now, es = [Requested req now]) ∨ ¬ ∃ req now, es = [Requested req now].
Proof.
  destruct es as [|[req now| | | |] [|? ?]]; try (right; by intros (? & ? & [=])).
  left. by exists req, now.
Qed.

(** The delay is nonnegative, so a host's next window never moves back. *)
(** A request is of an address the rules allow, after the delay of every request before it. *)
Definition polite (T1 : list Event) (e : Event) : Prop :=
  match e with
  | Requested req now =>
      may_ask ask cfg (HttpRequest.url req) = true
      ∧ ∀ req1 t1 d1 d, Requested req1 t1 ∈ T1 →
          host_key (HttpRequest.url req1) = host_key (HttpRequest.url req) →
          delay_of ask cfg (HttpRequest.url req1) = Some d1 →
          delay_of ask cfg (HttpRequest.url req) = Some d → t1 + d1 ≤ now
  | _ => True
  end.

Record paced w : Prop := {
  pc_next : ∀ req t d, Requested req t ∈ Crawl.trace w → delay_of ask cfg (HttpRequest.url req) = Some d →
    ∃ t', Crawl.next_allowed w !! host_key (HttpRequest.url req) = Some t' ∧ t + d ≤ t';
  pc_all : trace_all polite (Crawl.trace w) }.

Lemma delay_nonneg url d : delay_of ask cfg url = Some d → 0 ≤ d.
Proof.
  unfold delay_of. destruct (governed cfg url) as [o|]; [|done]. cbn.
  destruct (RobotRules.crawl_delay _); [|done]. intros [= <-]. apply from_secs_nonneg.
Qed.

Lemma paced_step w w' : step w w' → paced w → paced w'.
Proof.
  intros Hs [Pn Pa]. destruct (step_event w w' Hs) as (es & Ht & He & Hx).
  destruct (requested_dec es) as [(req & now & ->)|Hno].
  - cbn in He. destruct He as [Hm Hd]. split.
    + intros req1 t1 d1. rewrite Ht, elem_of_app, list_elem_of_singleton.
      destruct (delay_of ask cfg (HttpRequest.url req)) as [d|] eqn:Ed.
      * destruct Hd as [Hf ->]. intros [Hin|[= -> ->]] Hd1.
        -- destruct (Pn _ _ _ Hin Hd1) as (t' & Hl & Hle).
           destruct (decide (host_key (HttpRequest.url req1) = host_key (HttpRequest.url req))) as [Heq|Hne];
             [|rewrite lookup_insert_ne by done; by exists t'].
           rewrite Heq in *. rewrite lookup_insert_eq. eexists. split; [done|].
           unfold free_at in Hf. rewrite Hl in Hf. apply delay_nonneg in Ed. lia.
        -- rewrite Hd1 in Ed. injection Ed as ->. rewrite lookup_insert_eq. by eexists.
      * rewrite Hd. intros [Hin|[= -> ->]]; [by apply Pn|congruence].
    + apply (trace_all_step polite w w' _ Ht); [done|done|]. intros e [= <-]. cbn. split; [done|].
      intros req1 t1 d1 d Hin Heq Hd1 Hd2. rewrite Hd2 in Hd. destruct Hd as [Hf _].
      destruct (Pn _ _ _ Hin Hd1) as (t' & Hl & Hle). unfold free_at in Hf. rewrite <- Heq, Hl in Hf. lia.
  - assert (Crawl.next_allowed w' = Crawl.next_allowed w) as Hnext.
    { destruct es as [|[] [|? ?]]; try done. destruct Hno. by do 2 eexists. }
    split.
    + intros req t d. rewrite Ht, Hnext, elem_of_app. intros [Hin|Hin]; [by apply Pn|].
      destruct es as [|e0 [|? ?]]; [by apply not_elem_of_nil in Hin| |by destruct e0].
      apply list_elem_of_singleton in Hin as <-. destruct Hno. by do 2 eexists.
    + apply (trace_all_step polite w w' _ Ht); [done|done|]. intros e ->. destruct e; try done.
      destruct Hno. by do 2 eexists.
Qed.

Lemma paced_start w : at_rest w → paced w.
Proof.
  intros [_ _ [_ Ht] _]. split; rewrite Ht; [by intros ??? ?%not_elem_of_nil|apply trace_all_nil].
Qed.

(** ** Checkpoints *)

Definition full_in (cp : CrawlCheckpoint.t) url : bool :=
  match cap with
  | Some c => c <=? default 0 (CrawlCheckpoint.taken cp !! host_key url)
  | None => false
  end.

(** A checkpoint comes after the records it counts on; every address it marks as seen is
    queued, has its outcome, was refused, belongs to an earlier run or to a full host. *)
Definition buries_nothing (T1 : list Event) (e : Event) : Prop :=
  match e with
  | Saved cp _ =>
      recorded T1 = emitted T1
      ∧ cp_sound cp
      ∧ (∀ u, u ∈ CrawlCheckpoint.seen cp →
           u ∈ map fst (CrawlCheckpoint.queue cp) ∨ u ∈ answered T1 ∨ u ∈ refused T1
           ∨ u ∈ settled0 ∨ full_in cp u = true)
      ∧ ∀ u, u ∈ asked T1 → u ∈ answered T1 ∨ u ∈ map fst (CrawlCheckpoint.queue cp)
  | _ => True
  end.

Lemma checkpoint_queue_urls w :
  places cfg settled0 taken0 w →
  map fst (checkpoint_queue (Crawl.frontier_ w) (Crawl.in_flight_urls w))
  ≡ₚ map fst (queued (Crawl.frontier_ w)) ++ flying w.
Proof.
  intros HP. pose proof (places_nodup _ _ _ _ HP) as Hnd. destruct HP as [_ _ _ P4 _ _].
  unfold checkpoint_queue. rewrite map_app, P4. f_equiv.
  rewrite map_to_list_to_map.
  - by rewrite map_map.
  - rewrite <- list_fmap_compose. apply NoDup_app in Hnd as (_ & _ & Hnd).
    by apply NoDup_app in Hnd as [Hnd _].
Qed.

Lemma saved_well w force :
  places cfg settled0 taken0 w → buffered w → Crawl.sink_buf w = [] →
  buries_nothing (Crawl.trace w)
    (Saved (checkpoint_of (Crawl.frontier_ w) (Crawl.in_flight_urls w)
              (SimHashIndex.all (Crawl.dedup w))) force).
Proof.
  intros HP [Hb _] Hs. pose proof (checkpoint_queue_urls w HP) as Hq.
  destruct HP as [P1 P2 (dropped & [P3 P3'] & Pd) P4 P5 P6].
  set (q := map fst (checkpoint_queue (Crawl.frontier_ w) (Crawl.in_flight_urls w))) in *.
  assert (∀ u, u ∈ q → u ∈ Frontier.seen (Crawl.frontier_ w)) as Hqs.
  { intros u. rewrite Hq, P3', !elem_of_app. tauto. }
  split_and!; cbn [CrawlCheckpoint.seen CrawlCheckpoint.queue checkpoint_of].
  - by rewrite Hb, Hs, app_nil_r.
  - split; cbn; [|intros u Hu; by apply elem_of_elements, Hqs|exact (rot_taken _ P1)].
    fold q. rewrite Hq. 
    apply NoDup_app in P3 as (P3 & Pq & Pn). apply NoDup_app in P3 as (_ & _ & P3).
    apply NoDup_app in P3 as (P3 & _). apply NoDup_app. split_and!; [done| |done].
    intros u Hu Hf. apply (Pq u); [|done]. rewrite !elem_of_app. tauto.
  - intros u. rewrite elem_of_elements, P3', !elem_of_app. fold q. rewrite Hq, elem_of_app.
    intros [[Hu|[Hu|[Hu|[Hu|Hu]]]]|Hu]; try tauto. do 4 right. rewrite Forall_forall in Pd.
    specialize (Pd u Hu). unfold over_budget in Pd. rewrite P2 in Pd. exact Pd.
  - intros u. rewrite P5. fold q. rewrite Hq, !elem_of_app. tauto.
Qed.

Record books w : Prop := {
  bk_places : places cfg settled0 taken0 w;
  bk_buffered : buffered w;
  bk_saved : trace_all buries_nothing (Crawl.trace w) }.

Lemma books_step w w' : step w w' → books w → books w'.
Proof.
  intros Hs [B1 B2 B3]. destruct (step_event w w' Hs) as (es & Ht & He & _).
  split; [by eapply places_step|by eapply buffered_step|].
  apply (trace_all_step buries_nothing w w' es Ht He B3). intros e ->.
  destruct e; try done. cbn [event_of] in He. destruct He as [Hbuf ->]. by apply saved_well.
Qed.

Lemma books_start w : at_start w → books w.
Proof.
  intros Hw. split; [by apply start_places|by apply buffered_start, Hw|].
  destruct Hw as [[_ _ [_ ->] _] _]. apply trace_all_nil.
Qed.

(** ** Counters *)

Definition tally (p : CrawlFetch → bool) (T : list Event) : Z := rows_affected p (answers T).

(** The counters are the outcomes, kind by kind. *)
Record tallied w : Prop := {
  tl_crawled : CrawlStats.crawled (Crawl.stats w)
    = tally (λ f, match f with Page _ => true | _ => false end) (Crawl.trace w);
  tl_pages : CrawlStats.kept (Crawl.stats w) + CrawlStats.skipped_duplicates (Crawl.stats w)
    = CrawlStats.crawled (Crawl.stats w);
  tl_failed : CrawlStats.failed (Crawl.stats w)
    = tally (λ f, match f with Failed _ => true | _ => false end) (Crawl.trace w);
  tl_wall : CrawlStats.skipped_botwall (Crawl.stats w)
    = tally (λ f, match f with BotWall _ _ => true | _ => false end) (Crawl.trace w);
  tl_304 : CrawlStats.unchanged_304 (Crawl.stats w)
    = tally (λ f, match f with NotModified _ => true | _ => false end) (Crawl.trace w);
  tl_gone : CrawlStats.gone (Crawl.stats w)
    = tally (λ f, match f with Gone _ _ => true | _ => false end) (Crawl.trace w);
  tl_robots : CrawlStats.skipped_robots (Crawl.stats w) = Z.of_nat (length (refused (Crawl.trace w))) }.

Lemma rows_affected_app {A} (p : A → bool) l l' :
  rows_affected p (l ++ l') = rows_affected p l + rows_affected p l'.
Proof. unfold rows_affected, select_where. rewrite List.filter_app, length_app. lia. Qed.

Lemma rows_affected_one {A} (p : A → bool) x : rows_affected p [x] = if p x then 1 else 0.
Proof. unfold rows_affected, select_where. cbn. by destruct (p x). Qed.
Lemma answers_one fetch record : answers [Answered fetch record] = [fetch].
Proof. done. Qed.

Lemma tallied_step w w' : step w w' → tallied w → tallied w'.
Proof.
  intros Hs Hw.
  assert (∀ w', same_answers (Crawl.stats w) (Crawl.stats w') →
            answers (Crawl.trace w') = answers (Crawl.trace w) →
            refused (Crawl.trace w') = refused (Crawl.trace w) → tallied w') as Hsame.
  { intros w2 [S1 S2 S3 S4 S5 S6 S7 S8] E1 E2. destruct Hw as [T1 T2 T3 T4 T5 T6 T7].
    split; unfold tally; rewrite ?E1, ?E2, ?S1, ?S2, ?S3, ?S4, ?S5, ?S6, ?S7, ?S8; done. }
  destruct Hs as [w Hp|w origin|w url depth s Hp Hm Hn [S1 S2 S3 S4 S5 S6 S7 _]|w url depth Hp|w url depth now next Hp Hm Hd|w|w force Hbuf|w n fl fetch record dedup s Hfl Hu Hr [S1 S2 S3 S4 S5 S6 S7]|w url depth|w s Hsm];
    try by apply Hsame.
  - destruct (robots_for_same ask origin w) as (_ & _ & E3 & E4 & _).
    apply Hsame; rewrite ?E3, ?E4; done.
  - cbn in *. destruct Hw as [T1 T2 T3 T4 T5 T6 T7]. split; unfold tally in *; cbn;
      autorewrite with trace; cbn; rewrite ?app_nil_r, ?length_app; cbn; lia.
  - apply Hsame; cbn; [by split|..]; autorewrite with trace; cbn; by rewrite ?app_nil_r.
  - unfold flush_page_sink. destruct (Crawl.sink_buf w); [by apply Hsame|].
    destruct has_sink; (apply Hsame; cbn; [by split|..]; autorewrite with trace; cbn; by rewrite ?app_nil_r).
  - apply Hsame; cbn; [by split|..]; autorewrite with trace; cbn; by rewrite ?app_nil_r.
  - destruct Hw as [T1 T2 T3 T4 T5 T6 T7]. split; unfold tally in *; cbn;
      autorewrite with trace; rewrite ?app_nil_r, ?answers_one, ?rows_affected_app, ?rows_affected_one;
      destruct fetch; cbn [app refused omap list_omap length] in *; rewrite ?length_app; cbn; lia.
Qed.

Lemma tallied_start w : at_rest w → tallied w.
Proof.
  intros [_ _ [_ Ht] (S1 & S2 & S3 & S4 & S5 & S6 & S7 & S8)].
  split; rewrite ?Ht, ?S1, ?S2, ?S3, ?S4, ?S5, ?S6, ?S7, ?S8; done.
Qed.
End crawl.
