(* ===== verification/CrawlTheorems.v ===== *)
(** * CrawlTheorems: what a crawl asks for, hands over and leaves behind

    The theorems of the loop: one request per address within the budgets, in the time the
    site's rules give; nothing buried by a checkpoint, and what a resume makes of one; the
    counters; the end of the inner loop. *)

From stdpp Require Import gmap.
From Stdlib Require Import Floats.SpecFloat.
From S2P Require Import Prelude Sql Float64 Json Filters Simhash Records ChangePlan Materiality.
From S2P Require Import Robots Frontier Revisit Pages CrawlState Crawl CrawlSteps.
From S2P Require Import CrawlInvariants.

(** ** The inner loop, without fuel *)

Section topping.
Context `{UrlJoin, HtmlLib, RegexLib, MathLib, Unicode, UnicodeAlphanumeric, Sha256}.
Context `{JsonRender, JsonEq, RegexCaptures}.
Context (ask : string → option HttpResponse.t) (cfg : Config).
Implicit Types (w : Crawl.t).

Definition flight_cap : Z := Z.min (Z.max (CrawlConfig.concurrency cfg) 1) 256.
(** [while in_flight.len() < concurrency && rotations <= frontier.len] *)
Definition room (rotations : Z) w : bool :=
  (Z.of_nat (length (Crawl.in_flight w)) <? flight_cap)
  && (rotations <=? Frontier.len (Crawl.frontier_ w)).

(** The loop over the clock it reads, one reading a pass. *)
Inductive topped : list Z → Z → Crawl.t → Crawl.t → Prop :=
| topped_stop rotations w : room rotations w = false → topped [] rotations w w
| topped_drained now rotations w w' :
    room rotations w = true → take_next ask cfg now w = Drained w' → topped [now] rotations w w'
| topped_go now readings rotations w w1 w' :
    room rotations w = true →
    take_next ask cfg now w = Skipped w1 ∨ take_next ask cfg now w = Issued w1 →
    topped readings rotations w1 w' → topped (now :: readings) rotations w w'
| topped_wait now readings rotations w w1 w' :
    room rotations w = true → take_next ask cfg now w = Delayed w1 →
    topped readings (rotations + 1) w1 w' → topped (now :: readings) rotations w w'.

Lemma pop_len f url depth :
  rotation f → (pop f).2 = Some (url, depth) →
  rotation (pop f).1 ∧ Frontier.len (pop f).1 < Frontier.len f.
Proof.
  intros Hr Hp. pose proof (pop_accounts f Hr) as [Q1 _ _ _ _ (dropped & Q6 & _) _].
  split; [done|]. rewrite (rot_len _ Hr), (rot_len _ Q1), Q6, Hp. cbn. rewrite length_app. lia.
Qed.

Lemma requeue_len f url depth :
  Frontier.len (requeue url depth f) = Frontier.len f + 1.
Proof. unfold requeue, enqueue. cbn. lia. Qed.

(** Each pass takes an address off the frontier for good or puts it back. *)
Lemma take_next_len now w :
  rotation (Crawl.frontier_ w) →
  match take_next ask cfg now w with
  | Drained _ => True
  | Skipped w' => rotation (Crawl.frontier_ w') ∧ Frontier.len (Crawl.frontier_ w') < Frontier.len (Crawl.frontier_ w)
      ∧ Crawl.in_flight w' = Crawl.in_flight w
  | Delayed w' => rotation (Crawl.frontier_ w') ∧ Frontier.len (Crawl.frontier_ w') ≤ Frontier.len (Crawl.frontier_ w)
      ∧ Crawl.in_flight w' = Crawl.in_flight w
  | Issued w' => rotation (Crawl.frontier_ w') ∧ Frontier.len (Crawl.frontier_ w') < Frontier.len (Crawl.frontier_ w)
      ∧ length (Crawl.in_flight w') = S (length (Crawl.in_flight w))
  end.
Proof.
  intros Hr. unfold take_next. destruct (pop (Crawl.frontier_ w)) as [f [[url depth]|]] eqn:Ep; [|done].
  destruct (pop_len (Crawl.frontier_ w) url depth Hr) as [Hr' Hl]; [by rewrite Ep|].
  rewrite Ep in Hr', Hl. cbn [fst] in Hr', Hl.
  assert (∃ w1, (consult ask cfg url (w <| Crawl.frontier_ := f |>)).1.1 = w1
    ∧ Crawl.frontier_ w1 = f ∧ Crawl.in_flight w1 = Crawl.in_flight w) as (w1 & E & Hf & Hi).
  { eexists. split; [done|]. unfold consult.
    destruct (if CrawlConfig.respect_robots cfg then origin_of url else None) as [origin|]; [|done].
    destruct (robots_for_same ask origin (w <| Crawl.frontier_ := f |>)) as (E1 & _ & _ & _ & E5 & _).
    destruct (robots_for ask origin _) as [w' r]. done. }
  destruct (consult ask cfg url _) as [[w1' delay] may]. cbn in E. subst w1'.
  destruct may; cbn [negb]; [|cbn; rewrite Hf, Hi; done].
  assert (∀ w2, Crawl.frontier_ w2 = f → Crawl.in_flight w2 = Crawl.in_flight w →
    rotation (Crawl.frontier_ (issue cfg url depth now w2))
    ∧ Frontier.len (Crawl.frontier_ (issue cfg url depth now w2)) < Frontier.len (Crawl.frontier_ w)
    ∧ length (Crawl.in_flight (issue cfg url depth now w2)) = S (length (Crawl.in_flight w))) as Hiss.
  { intros w2 E2 E3. unfold issue. cbn. rewrite E2, E3, length_app. cbn. split_and!; [done|done|lia]. }
  destruct delay as [d|]; cbn [pace]; [case_if|]; [|by apply Hiss..].
  cbn. rewrite Hf, Hi. split_and!; [by apply rotation_requeue| |done].
  etransitivity; [apply Z.eq_le_incl, (requeue_len f url depth)|lia].
Qed.

Lemma top_up_topped fuel clock rotations w :
  rotation (Crawl.frontier_ w) →
  Z.max (2 * Frontier.len (Crawl.frontier_ w) - rotations + 1) 0 < Z.of_nat fuel →
  ∃ readings, topped readings rotations w (top_up ask cfg fuel clock rotations w)
    ∧ Z.of_nat (length readings) ≤ Z.max (2 * Frontier.len (Crawl.frontier_ w) - rotations + 1) 0.
Proof.
  revert rotations w. induction fuel as [|fuel IH]; intros rotations w Hr Hf; [lia|]. cbn [top_up].
  fold flight_cap. fold (room rotations w). destruct (room rotations w) eqn:Eroom;
    [|exists []; split; [by apply topped_stop|cbn; lia]].
  assert (rotations ≤ Frontier.len (Crawl.frontier_ w)) as Hrot.
  { unfold room in Eroom. breflect_in Eroom. lia. }
  assert (0 ≤ Frontier.len (Crawl.frontier_ w)) as Hlen by (rewrite (rot_len _ Hr); lia).
  pose proof (take_next_len (clock fuel) w Hr) as Hn.
  destruct (take_next ask cfg (clock fuel) w) as [w'|w'|w'|w'] eqn:Et.
  - exists [clock fuel]. split; [by apply topped_drained|cbn; lia].
  - destruct Hn as (Hr' & Hl & _). destruct (IH rotations w' Hr') as (rs & Ht & Hrs); [lia|].
    exists (clock fuel :: rs). split; [by eapply topped_go; [|left|]|cbn [length]; lia].
  - destruct Hn as (Hr' & Hl & _). destruct (IH (rotations + 1) w' Hr') as (rs & Ht & Hrs); [lia|].
    exists (clock fuel :: rs). split; [by eapply topped_wait|cbn [length]; lia].
  - destruct Hn as (Hr' & Hl & _). destruct (IH rotations w' Hr') as (rs & Ht & Hrs); [lia|].
    exists (clock fuel :: rs). split; [by eapply topped_go; [|right|]|cbn [length]; lia].
Qed.

(** The flight never outgrows its cap. *)
Lemma topped_flight readings rotations w w' :
  rotation (Crawl.frontier_ w) → topped readings rotations w w' →
  Z.of_nat (length (Crawl.in_flight w')) ≤ Z.max (Z.of_nat (length (Crawl.in_flight w))) flight_cap.
Proof.
  intros Hr Ht. induction Ht as [rotations w _|now rotations w w' _ Hn|now rs rotations w w1 w' Hroom Hn _ IH|now rs rotations w w1 w' Hroom Hn _ IH]; [lia| | |].
  - unfold take_next in Hn. destruct (pop _) as [f [[url depth]|]]; [|injection Hn as <-; cbn; lia].
    destruct (consult _ _ _ _) as [[w1 d] []]; cbn in Hn; [|done]. destruct d as [d|]; cbn in Hn; [|done].
    by destruct (match Crawl.next_allowed w1 !! host_key url with Some _ => _ | None => _ end).
  - pose proof (take_next_len now w Hr) as Hl. unfold room in Hroom. breflect_in Hroom.
    destruct Hn as [Hn|Hn]; rewrite Hn in Hl; destruct Hl as (Hr' & _ & Hi); specialize (IH Hr');
      rewrite Hi in IH; lia.
  - pose proof (take_next_len now w Hr) as Hl. rewrite Hn in Hl. destruct Hl as (Hr' & _ & Hi).
    specialize (IH Hr'). rewrite Hi in IH. lia.
Qed.
End topping.

(** ** The checkpoint on disk *)

Lemma list_to_map_get {V} (m : list (string * V)) k : (list_to_map m : gmap string V) !! k = map_get k m.
Proof.
  unfold map_get. induction m as [|[k' v] m IH]; [done|]. cbn.
  destruct (String.eqb_spec k' k) as [->|Hne]; [by rewrite lookup_insert_eq|].
  by rewrite lookup_insert_ne.
Qed.

Lemma mapM_inverse {A B} (f : A → B) (g : B → option A) (P : A → Prop) l :
  (∀ x, P x → g (f x) = Some x) → Forall P l → mapM g (map f l) = Some l.
Proof. intros Hg. induction 1 as [|x l Hx _ IH]; [done|]. cbn. by rewrite (Hg x Hx), IH. Qed.

(** Every number within the width the format gives it. *)
Record cp_widths (cp : CrawlCheckpoint.t) : Prop := {
  cpw_version : CrawlCheckpoint.version cp = CHECKPOINT_VERSION;
  cpw_depths : Forall (λ it : item, it.2 ≤ u32_max) (CrawlCheckpoint.queue cp);
  cpw_hashes : Forall (λ h, h ≤ u64_max) (CrawlCheckpoint.kept_hashes cp);
  cpw_taken : map_Forall (λ _ n, n ≤ u64_max) (CrawlCheckpoint.taken cp) }.

Lemma read_uint_le max n : n ≤ max → read_uint max (JUint n) = Some n.
Proof. intros Hn. unfold read_uint. cbn. by rewrite (proj2 (Z.leb_le n max)). Qed.

Lemma map_get_map {V W} (f : V → W) k (m : list (string * V)) :
  map_get k (map (λ kv : string * V, (kv.1, f kv.2)) m) = f <$> map_get k m.
Proof.
  unfold map_get. induction m as [|[k' v] m IH]; [done|]. cbn. destruct (String.eqb k' k); [done|exact IH].
Qed.

(** A map of counts survives the sorted object it is written as. *)
Lemma read_counts_write (m : gmap string Z) :
  map_Forall (λ _ n, n ≤ u64_max) m →
  read_counts (JObject (map_of_list (map (λ kv : string * Z, (kv.1, JUint kv.2)) (map_to_list m)))) = Some m.
Proof.
  intros Hm. set (l := map _ (map_to_list m)).
  assert (∀ k, map_get k (map_of_list l) = JUint <$> m !! k) as Hget.
  { intros k. rewrite map_get_map_of_list.
    - unfold l. rewrite map_get_map, <- list_to_map_get. by rewrite list_to_map_to_list.
    - unfold map_keys, l. rewrite map_map. apply (NoDup_fst_map_to_list m). }
  assert (∀ r, Forall (λ kv : string * Json, ∃ n, kv.2 = JUint n ∧ n ≤ u64_max) r →
    ∃ kvs, mapM (λ kv : string * Json, n ← read_uint u64_max kv.2; Some (kv.1, n)) r = Some kvs
      ∧ map (λ kv : string * Z, (kv.1, JUint kv.2)) kvs = r) as Hread.
  { induction 1 as [|[k v] r (n & Hn & Hle) _ (kvs & IH & Hm')]; [by exists []|]. cbn in Hn. subst v.
    exists ((k, n) :: kvs). cbn [mapM fst snd]. rewrite read_uint_le by done. cbn. rewrite IH. cbn.
    by rewrite Hm'. }
  destruct (Hread (map_of_list l)) as (kvs & Hk & Hkvs).
  { apply Forall_forall. intros [k v] Hin. apply map_get_elem in Hin; [|apply NoDup_map_of_list].
    rewrite Hget in Hin. apply fmap_Some in Hin as (n & Hn & ->). exists n. split; [done|]. by apply (Hm k). }
  unfold read_counts. cbn [as_object mbind option_bind]. rewrite Hk.
  cbn [mbind option_bind]. f_equal. apply (map_eq (M := gmap string)). intros k.
  rewrite list_to_map_get. specialize (Hget k). rewrite <- Hkvs, map_get_map in Hget.
  destruct (map_get k kvs), (m !! k); cbn in Hget; unfold JUint in Hget; congruence.
Qed.

Lemma read_members version queue seen kept taken queue' seen' kept' taken' :
  version ≤ u32_max → read_seq read_item queue' = Some queue → read_seq as_str seen' = Some seen →
  read_seq (read_uint u64_max) kept' = Some kept → read_counts taken' = Some taken →
  read_checkpoint (JObject (map_of_list
    [("version", JUint version); ("queue", queue'); ("seen", seen'); ("kept_hashes", kept');
     ("taken", taken')]%string))
  = Some (CrawlCheckpoint.mk version queue seen kept taken).
Proof.
  intros Hv Hq Hs Hk Ht. unfold read_checkpoint.
  rewrite !map_get_map_of_list by (apply (bool_decide_unpack _); vm_compute; exact I).
  unfold read_fields, map_get. cbn [List.find fst snd String.eqb Ascii.eqb Bool.eqb fmap option_fmap
    option_map or_default mbind option_bind].
  rewrite read_uint_le by done. cbn [mbind option_bind]. by rewrite Hq, Hs, Hk, Ht.
Qed.

(** A checkpoint reads back as it was written. *)
Lemma checkpoint_reads_back cp :
  cp_widths cp → from_value (checkpoint_to_value cp) = Loaded cp.
Proof.
  intros [Hv Hd Hh Ht]. destruct cp as [version queue seen kept taken]. cbn in Hv, Hd, Hh, Ht.
  unfold from_value, checkpoint_to_value, json_object.
  rewrite (read_members version queue seen kept taken); [cbn; by rewrite Hv|by subst|..|by apply read_counts_write].
  - unfold read_seq. cbn. apply (mapM_inverse _ _ (λ it : item, it.2 ≤ u32_max)); [|done].
    intros [u d] Hle. cbn [fst snd read_item as_str mbind option_bind].
    by rewrite read_uint_le.
  - unfold read_seq. cbn. by apply (mapM_inverse _ _ (λ _ : string, True)); [|apply Forall_true].
  - unfold read_seq. cbn. apply (mapM_inverse _ _ (λ h, h ≤ u64_max)); [|done]. intros h. apply read_uint_le.
Qed.

Lemma from_hashes_all distance hashes : SimHashIndex.all (SimHashIndex.from_hashes distance hashes) = hashes.
Proof.
  unfold SimHashIndex.from_hashes.
  assert (∀ idx, SimHashIndex.all (foldl SimHashIndex.insert idx hashes) = SimHashIndex.all idx ++ hashes) as Ha.
  { induction hashes as [|h hashes IH]; intros idx; cbn; [by rewrite app_nil_r|].
    rewrite IH. cbn. by rewrite <- app_assoc. }
  by rewrite Ha.
Qed.

(** C36: A resume continues the crawl: from the checkpoint a run saved, through the JSON it is
    stored as, the next one has every queued and in-flight address queued again, the same seen
    addresses, the same page budgets spent and the same fingerprints - as long as every number
    fits the width the format gives it. *)
Theorem resume_restores_the_crawl `{UrlLib} cfg f in_flight hashes :
  CrawlConfig.resume_state cfg = Some (checkpoint_to_value (checkpoint_of f in_flight hashes)) →
  cp_widths (checkpoint_of f in_flight hashes) → rotation f →
  let '(f', dedup, resumed, reset) := restored cfg in
  queued f' ≡ₚ queued f ++ map_to_list in_flight
  ∧ Frontier.seen f' = Frontier.seen f ∧ Frontier.taken f' = Frontier.taken f
  ∧ SimHashIndex.all dedup = hashes ∧ resumed = true ∧ reset = false.
Proof.
  intros Hs Hw Hr. unfold restored. rewrite Hs. cbn [fmap option_fmap option_map].
  rewrite (checkpoint_reads_back _ Hw).
  destruct (restore_account (CrawlConfig.max_pages_per_host cfg) (checkpoint_queue f in_flight)
              (elements (Frontier.seen f)) (Frontier.taken f) (rot_taken _ Hr)) as (R1 & R2 & R3 & R4 & R5).
  cbn [CrawlCheckpoint.queue CrawlCheckpoint.seen CrawlCheckpoint.taken CrawlCheckpoint.kept_hashes checkpoint_of].
  rewrite from_hashes_all. split_and!; [exact R2| |exact R4|done..]. rewrite R3. apply list_to_set_elements_L.
Qed.

Lemma of_host_nonneg `{UrlLib} h l : 0 ≤ of_host h l.
Proof. unfold of_host, rows_affected. lia. Qed.
Lemma of_host_in `{UrlLib} u l : u ∈ l → 1 ≤ of_host (host_key u) l.
Proof.
  intros (l1 & l2 & ->)%list_elem_of_split.
  rewrite of_host_app, (of_host_app _ [u] l2), of_host_one, String.eqb_refl.
  pose proof (of_host_nonneg (host_key u) l1). pose proof (of_host_nonneg (host_key u) l2). lia.
Qed.

(** ** The runs *)

Section runs.
Context `{UrlJoin, HtmlLib, RegexLib, MathLib, Unicode, UnicodeAlphanumeric, Sha256}.
Context `{JsonRender, JsonEq, RegexCaptures}.
Context (ask : string → option HttpResponse.t) (has_sink has_checkpointer has_dir : bool).
Context (cfg : Config) (filter : UrlFilter.t).
Context (turns : list Turn.t) (save_ok : bool).
Context (known : option (list Seed)) (epoch : Z).

(** What the run leaves behind. *)
Definition ran : Crawl.t :=
  (run ask has_sink has_checkpointer has_dir cfg filter turns save_ok (start ask cfg filter known epoch)).1.

Definition host_cap : option Z :=
  Frontier.max_pages_per_host (Frontier.new (CrawlConfig.max_pages_per_host cfg)).

Lemma ran_inv (P : Crawl.t → Prop) :
  (∀ w w', step ask has_sink cfg w w' → P w → P w') → (∀ w, at_start cfg w → P w) →
  resume_ok cfg → P ran.
Proof. exact (run_inv ask has_sink has_checkpointer has_dir cfg filter P known epoch turns save_ok). Qed.
Lemma ran_rest (P : Crawl.t → Prop) :
  (∀ w w', step ask has_sink cfg w w' → P w → P w') → (∀ w, at_rest w → P w) → P ran.
Proof.
  intros Hstep Hs.
  apply (rest_inv ask has_sink has_checkpointer has_dir cfg filter P known epoch turns save_ok Hstep).
  apply Hs, opened_at_rest.
Qed.
Lemma ran_places : resume_ok cfg → places cfg (settled0 cfg) (taken0 cfg) ran.
Proof. apply (ran_inv (places cfg (settled0 cfg) (taken0 cfg))); [apply places_step|apply start_places]. Qed.

(** The pages taken from a host with a budget, over the runs. *)
Lemma ran_budget h c : resume_ok cfg → host_cap = Some c →
  default 0 (taken0 cfg !! h) + of_host h (asked (Crawl.trace ran) ++ refused (Crawl.trace ran))
  ≤ Z.max c (default 0 (taken0 cfg !! h)).
Proof.
  intros Hok Hc. rewrite <- (pl_taken _ _ _ _ (ran_places Hok)).
  assert (in_budget cfg (Crawl.frontier_ ran)) as HB
    by (apply (ran_inv (λ w, in_budget cfg (Crawl.frontier_ w))); [apply budget_step|apply budget_start|done]).
  by apply (ib_taken _ _ HB).
Qed.
Lemma ran_seen : resume_ok cfg →
  Z.of_nat (size (Frontier.seen (Crawl.frontier_ ran))) ≤ Z.max MAX_FRONTIER (Z.of_nat (seen0 cfg)).
Proof.
  intros Hok. apply (ib_seen cfg).
  apply (ran_inv (λ w, in_budget cfg (Crawl.frontier_ w))); [apply budget_step|apply budget_start|done].
Qed.

(** C34: A crawl asks for an address at most once, and never for one an earlier run settled; the
    pages it takes from a host, with those the earlier runs took, stay within the host's
    budget; and it asks for no more addresses than the frontier may ever hold - whatever the
    sites answer and in whatever order the fetches end. *)
Theorem crawl_asks_once_in_budget :
  resume_ok cfg →
  NoDup (settled0 cfg ++ asked (Crawl.trace ran) ++ refused (Crawl.trace ran))
  ∧ (∀ h c, host_cap = Some c →
       default 0 (taken0 cfg !! h) + of_host h (asked (Crawl.trace ran) ++ refused (Crawl.trace ran))
       ≤ Z.max c (default 0 (taken0 cfg !! h)))
  ∧ Z.of_nat (length (settled0 cfg ++ asked (Crawl.trace ran))) ≤ Z.max MAX_FRONTIER (Z.of_nat (seen0 cfg)).
Proof.
  intros Hok. pose proof (ran_seen Hok) as B4. pose proof (ran_places Hok) as HP.
  pose proof (places_nodup _ _ _ _ HP) as Hnd.
  destruct HP as [_ _ (dropped & [P3 P3'] & _) _ P5 _].
  assert (settled0 cfg ++ asked (Crawl.trace ran) ++ refused (Crawl.trace ran)
          ≡ₚ settled0 cfg ++ flying ran ++ answered (Crawl.trace ran) ++ refused (Crawl.trace ran)) as Hp.
  { by rewrite P5, <- app_assoc. }
  rewrite <- Hp in Hnd. split_and!; [done|by intros; apply ran_budget|].
  assert (settled0 cfg ++ asked (Crawl.trace ran) ⊆+ elements (Frontier.seen (Crawl.frontier_ ran))) as Hsub.
  { apply NoDup_submseteq.
    - rewrite app_assoc in Hnd. by apply NoDup_app in Hnd as [Hnd _].
    - intros u. rewrite elem_of_elements, P3', P5, !elem_of_app. tauto. }
  apply submseteq_length in Hsub. unfold size, set_size in B4. cbn in B4. lia.
Qed.

(** A checkpoint buries no page: when it is saved, every record made so far is with the
    sink; every address it marks as seen is in its queue, has its outcome, was refused by the
    rules, is settled since an earlier run or belongs to a host over its budget; and every
    request without an outcome is in the queue again - so a resume can start from it. *)
Theorem checkpoint_buries_nothing :
  resume_ok cfg → trace_all (buries_nothing cfg) (Crawl.trace ran).
Proof.
  intros Hok. apply (bk_saved has_sink cfg).
  apply (ran_inv (books has_sink cfg)); [apply books_step|apply books_start|done].
Qed.


(** The counters of a run are its outcomes: a page per kept or duplicate page, and a count
    for each failure, wall, unchanged page, page gone and address refused. *)
Theorem crawl_books_balance : tallied ran.
Proof. apply (ran_rest tallied); [apply tallied_step|apply tallied_start]. Qed.

(** A host whose budget the checkpoint counts as spent is not asked again: an address of it
    that was in flight when the run was cut is queued in the checkpoint, but the resumed
    crawl never asks for it - the page the budget was spent on is lost. *)
Theorem spent_host_is_not_resumed cp c url :
  resumed_from cfg = Some cp → cp_sound cp → host_cap = Some c →
  c ≤ default 0 (CrawlCheckpoint.taken cp !! host_key url) →
  url ∉ asked (Crawl.trace ran).
Proof.
  intros Hr Hs Hc Hle Hin.
  assert (resume_ok cfg) as Hok by (unfold resume_ok; by rewrite Hr).
  pose proof (ran_budget (host_key url) c Hok Hc) as Hb.
  assert (taken0 cfg = CrawlCheckpoint.taken cp) as Ht by (unfold taken0; by rewrite Hr).
  apply of_host_in in Hin. pose proof (of_host_nonneg (host_key url) (refused (Crawl.trace ran))).
  rewrite Ht, of_host_app in Hb. lia.
Qed.
End runs.

(** The inner loop ends: with the fuel the model gives it, [top_up] is a run of the loop
    that reads the clock at most twice per queued address, and never puts more fetches in
    flight than the concurrency the configuration allows. *)
Theorem top_up_ends `{UrlJoin, HtmlLib, RegexLib, MathLib, Unicode, UnicodeAlphanumeric, Sha256}
    `{JsonRender, JsonEq, RegexCaptures} ask cfg clock w :
  rotation (Crawl.frontier_ w) →
  ∃ readings,
    topped ask cfg readings 0 w (top_up ask cfg (top_up_fuel w) clock 0 w)
    ∧ Z.of_nat (length readings) ≤ 2 * Frontier.len (Crawl.frontier_ w) + 1
    ∧ Z.of_nat (length (Crawl.in_flight (top_up ask cfg (top_up_fuel w) clock 0 w)))
        ≤ Z.max (Z.of_nat (length (Crawl.in_flight w))) (flight_cap cfg).
Proof.
  intros Hr. assert (0 ≤ Frontier.len (Crawl.frontier_ w)) as Hl by (rewrite (rot_len _ Hr); lia).
  destruct (top_up_topped ask cfg (top_up_fuel w) clock 0 w Hr) as (rs & Ht & Hn);
    [unfold top_up_fuel; lia|].
  exists rs. split_and!; [done|lia|]. by eapply topped_flight.
Qed.

(** ** A concrete crawl *)

Module CrawlDemo.
(** Addresses are [http://host/path]; a page is the addresses it links to. *)
Definition split_at_slash (s : string) : string * string :=
  match String.index 0 "/" s with
  | Some i => (String.substring 0 i s, String.substring i (String.length s - i) s)
  | None => (s, "/"%string)
  end.
Definition parse (s : string) : option (string * string) :=
  if String.prefix "http://" s then Some (split_at_slash (String.substring 7 (String.length s - 7) s))
  else None.
#[local] Instance url_lib : UrlLib := {|
  Url := string * string; url_parse := parse; scheme := λ _, "http"%string;
  host_str := λ u, Some u.1; port := λ _, None; url_path := λ u, u.2; url_query := λ _, None;
  query_pairs := λ _, []; set_fragment_none := λ u, u; set_query := λ _ u, u;
  set_path := λ p u, (u.1, p); url_to_string := λ u, ("http://" +:+ u.1 +:+ u.2)%string |}.
#[local] Instance join : UrlJoin := λ _ href, parse href.
#[local] Instance html : HtmlLib := {|
  Document := string; parse_document := λ s, s; hrefs := split_whitespace;
  title_text := λ _, None; text_nodes := λ d, [(d, [])] |}.
#[local] Instance regex : RegexLib := {|
  Regex := unit; regex_new := λ _, Ok tt; is_match := λ _ _, true |}.
#[local] Instance captures : RegexCaptures := λ _ _, [].
#[local] Instance exp : MathLib := λ x, x.
#[local] Instance lower : Unicode := λ s, s.
#[local] Instance alnum : UnicodeAlphanumeric := λ c, negb (String.eqb c " ").
#[local] Instance sha : Sha256 := λ s, s.
#[local] Instance render : JsonRender := λ _, ""%string.
#[local] Instance eqb : JsonEq := λ _ _, false.

(** Every site asks for five seconds between requests. *)
Definition site (_ : string) : option HttpResponse.t :=
  Some (HttpResponse.mk 200 [] ("User-agent: *" +:+ String "010" "Crawl-delay: 5")).
Definition config (resume : option Json) : Config :=
  CrawlConfig.mk ["http://a/1"; "http://b/1"]%string 10 3 4 (Some 1) false 0 true [] [] false resume
    false false None (f64_of_Z 0).
Definition all : UrlFilter.t := UrlFilter.mk [] [].
Definition page (links : string) : option HttpResponse.t := Some (HttpResponse.mk 200 [] links).
(** Both seeds in flight, a checkpoint, then the first ends with two links. *)
Definition turns : list Turn.t :=
  [Turn.mk (λ _, 0) true true 0 (page "http://a/2 http://c/1") 0;
   Turn.mk (λ _, 6 * 10 ^ 9) false true 0 None 0].
Definition first : Crawl.t := ran site true true false (config None) all turns true None 0.

(** The checkpoint of the first turn, with both seeds in its queue. *)
Definition saved : CrawlCheckpoint.t :=
  default (CrawlCheckpoint.mk 0 [] [] [] ∅)
    (head (omap (λ e, match e with Saved cp _ => Some cp | _ => None end) (Crawl.trace first))).
Definition next : Config := config (Some (checkpoint_to_value saved)).
Definition second : Crawl.t := ran site true true false next all turns true None 0.

Lemma fresh_ok : resume_ok (config None).
Proof. exact I. Qed.

Lemma crawl_asks_once_in_budget_witness :
  resume_ok (config None)
  ∧ asked (Crawl.trace first) = ["http://a/1"; "http://b/1"; "http://c/1"]%string
  ∧ (default 0 (taken0 (config None) !! "a"%string)
       + of_host "a" (asked (Crawl.trace first) ++ refused (Crawl.trace first))
     ≤ Z.max 1 (default 0 (taken0 (config None) !! "a"%string))).
Proof.
  split; [exact fresh_ok|]. split; [vm_compute; reflexivity|].
  destruct (crawl_asks_once_in_budget site true true false (config None) all turns true None 0 fresh_ok)
    as (_ & Hb & _). apply (Hb "a"%string 1). reflexivity.
Defined.

Lemma checkpoint_buries_nothing_witness :
  map fst (CrawlCheckpoint.queue saved) = ["http://a/1"; "http://b/1"]%string
  ∧ trace_all (buries_nothing (config None)) (Crawl.trace first).
Proof.
  split; [vm_compute; reflexivity|].
  exact (checkpoint_buries_nothing site true true false (config None) all turns true None 0 fresh_ok).
Defined.

(** Both seeds are in the checkpoint's queue, and the run that resumes from it asks for neither. *)
Lemma spent_host_is_not_resumed_witness :
  "http://a/1"%string ∈ map fst (CrawlCheckpoint.queue saved)
  ∧ "http://a/1"%string ∉ asked (Crawl.trace second).
Proof.
  split; [apply (bool_decide_unpack _); vm_compute; exact I|].
  apply (spent_host_is_not_resumed site true true false next all turns true None 0 saved 1).
  - vm_compute. reflexivity.
  - split; [apply (bool_decide_unpack _); vm_compute; exact I| |].
    + intros u Hu. exact Hu.
    + intros h c Hc. apply (bool_decide_unpack (map_Forall (λ _ c, 0 ≤ c) (CrawlCheckpoint.taken saved))
        ltac:(vm_compute; exact I) h c Hc).
  - reflexivity.
  - vm_compute. discriminate.
Defined.

Definition two_hosts : frontier :=
  push "http://b/1" 0 (push "http://a/2" 0 (push "http://a/1" 0 (Frontier.new (Some 1)))).
Lemma two_hosts_rotation : rotation two_hosts.
Proof. apply rotation_push, rotation_push, rotation_push, rotation_new. Qed.

Lemma resume_restores_the_crawl_witness :
  let cp := checkpoint_of two_hosts {["http://c/1"%string := 1]} [7] in
  let '(f', dedup, resumed, reset) := restored (config (Some (checkpoint_to_value cp))) in
  Frontier.seen f' = Frontier.seen two_hosts ∧ SimHashIndex.all dedup = [7] ∧ resumed = true.
Proof.
  pose proof (resume_restores_the_crawl
    (config (Some (checkpoint_to_value (checkpoint_of two_hosts {["http://c/1"%string := 1]} [7]))))
    two_hosts {["http://c/1"%string := 1]} [7] eq_refl) as Hr.
  cbn zeta. destruct (restored _) as [[[f' dedup] resumed] reset].
  destruct Hr as (_ & H1 & _ & H2 & H3 & _); [|exact two_hosts_rotation|by split_and!].
  split; [reflexivity|apply (bool_decide_unpack _); vm_compute; exact I..].
Defined.

Lemma top_up_ends_witness :
  rotation (Crawl.frontier_ (start site (config None) all None 0))
  ∧ Z.of_nat (length (Crawl.in_flight (top_up site (config None)
      (top_up_fuel (start site (config None) all None 0)) (λ _, 0) 0 (start site (config None) all None 0)))) ≤ 4.
Proof.
  assert (rotation (Crawl.frontier_ (start site (config None) all None 0))) as Hr
    by exact (op_rot _ _ (proj2 (opened_at_start site (config None) None 0 fresh_ok))).
  split; [exact Hr|].
  destruct (top_up_ends site (config None) (λ _, 0) _ Hr) as (_ & _ & _ & Hf). exact Hf.
Defined.

(** Two pops reach the second host. *)
Lemma no_host_starves_witness :
  ∃ it, it ∈ (run_ops [Pop; Pop] two_hosts).2 ∧ host_key it.1 = "b"%string.
Proof.
  apply (no_host_starves [Pop; Pop] two_hosts "b" 1 two_hosts_rotation); [|cbn; lia].
  split; [|reflexivity]. exists ["a"%string], []. split; [reflexivity|cbn; lia].
Defined.
End CrawlDemo.
