(* ===== verification/Triggers.v ===== *)
(** * Triggers: the edges of a reactive pipeline

    The data of an edge ([Trigger] in [crates/core/src/storage.rs]), the pure
    decisions of [crates/server/src/triggers.rs] (provenance, matching, binding,
    fan-out, plugin hooks, idempotency keys), and the create door of
    [crates/server/src/routes/triggers.rs]. *)

From stdpp Require Import pretty.
From S2P Require Import Prelude Float64 Json Errors Jobs Filters Records.

(** ** Rows *)

Module PluginHook.
Record t : Type := mk { plugin : string; params : Json; on_error : option string }.
End PluginHook.

Module TriggerPluginHooks.
Record t : Type := mk {
  predicate : option PluginHook.t; transform : option PluginHook.t;
  post_enqueue : option PluginHook.t }.
End TriggerPluginHooks.

Module Trigger.
Record t : Type := mk {
  id : string; name : option string; source_kind : string; source_app : string;
  source_dataset : option string; on_change : option string; on_status : option string;
  target_app : string; params : Json; budget_usd : option f64; priority : Z;
  max_attempts : Z; enabled : bool; created_at : timestamp; filters : option (list string);
  plugin_hooks : option TriggerPluginHooks.t; bind : option (list (string * Json));
  each : option string }.
#[global] Instance eta_trigger : Eta t := λ r,
  mk (id r) (name r) (source_kind r) (source_app r) (source_dataset r) (on_change r)
    (on_status r) (target_app r) (params r) (budget_usd r) (priority r) (max_attempts r)
    (enabled r) (created_at r) (filters r) (plugin_hooks r) (bind r) (each r).

Definition covers_dataset (r : t) (dataset : string) : bool :=
  match source_dataset r with
  | None => true
  | Some d => String.eqb d "*" || String.eqb d dataset
  end.
End Trigger.

Module NewTrigger.
Record t : Type := mk {
  name : option string; source_kind : string; source_app : string;
  source_dataset : option string; on_change : option string; on_status : option string;
  target_app : string; params : Json; budget_usd : option f64; priority : Z;
  max_attempts : Z; filters : option (list string); plugin_hooks : option TriggerPluginHooks.t;
  bind : option (list (string * Json)); each : option string }.
End NewTrigger.

(** [TriggersConfig] *)
Module TriggersConfig.
Record t : Type := mk { max_depth : Z; key_cap : nat; fan_out_cap : nat }.
Definition default : t := mk 8 200 50.
End TriggersConfig.

(** ** Provenance of a chain *)

Inductive FireDecision : Type :=
| DFire (depth : Z) (chain : list string)
| SkipCycle
| SkipDepth.

(** [as_u64().unwrap_or(0) as u32] and the strings of the chain. *)
Definition provenance (source_params : Json) : Z * list string :=
  let t := json_get "_trigger" source_params in
  let depth := wrap_u32 (default 0 (t ← t; d ← json_get "depth" t; as_u64 d)) in
  let chain := default [] (t ← t; c ← json_get "chain" t; as_array c) in
  (depth, omap as_str chain).

(** [depth + 1] wraps at 32 bits in a release build. *)
Definition decide (trigger_id : string) (source_params : Json) (cfg : TriggersConfig.t)
    : FireDecision :=
  let '(depth, chain) := provenance source_params in
  if existsb (λ id, String.eqb id trigger_id) chain then SkipCycle
  else if TriggersConfig.max_depth cfg <? wrap_u32 (depth + 1) then SkipDepth
  else DFire (wrap_u32 (depth + 1)) (chain ++ [trigger_id]).

(** ** Matching *)

Definition change_matches (on_change : option string) (change : string) : bool :=
  let filter := default "any"%string on_change in
  if String.eqb filter "any" then true
  else if String.eqb filter "fresh" then String.eqb change "new" || String.eqb change "changed"
  else String.eqb filter change.

Definition status_matches (on_status : option string) (status : string) : bool :=
  let filter := default "succeeded"%string on_status in
  if String.eqb filter "any" then
    match JobStatus.parse status with Some s => JobStatus.is_terminal s | None => false end
  else String.eqb filter status.

(** ** Params: the template, the envelope, the bindings *)

Definition object_or_empty (v : Json) : list (string * Json) := default [] (as_object v).

Definition merged_params (template trigger_obj : Json) : Json :=
  JObject (map_insert "_trigger" trigger_obj (object_or_empty template)).

Module BindMiss.
Record t : Type := mk { param : string; pointer : string; reason : string }.
Definition detail (m : t) : string :=
  ("bind '" +:+ param m +:+ "' -> '" +:+ pointer m +:+ "': " +:+ reason m
   +:+ " (pointers resolve against the {template, _trigger} view; POST /triggers/{id}/test shows it)")%string.
End BindMiss.

Definition BIND_RESERVED_PARAM : string := "_trigger".

Definition valid_pointer (p : string) : bool :=
  String.eqb p "" || is_some (strip_prefix "/" p).

Module Hop.
Record t : Type := mk { params : Json; index : option nat }.
Definition trigger_obj (h : t) : Json := default JNull (json_get "_trigger" (params h)).
End Hop.

Section hops.
Context `{JsonPointer}.

Definition resolve_bind (merged : Json) (b : string * Json) : result BindMiss.t (string * Json) :=
  let pointer := default EmptyString (as_str (snd b)) in
  match json_pointer pointer merged with
  | Some value => Ok (fst b, value)
  | None => Err (BindMiss.mk (fst b) pointer "resolved to nothing")
  end.

Definition bind_params (template trigger_obj : Json) (bind : option (list (string * Json)))
    : result BindMiss.t Json :=
  let merged := merged_params template trigger_obj in
  match bind with
  | None | Some [] => Ok merged
  | Some bind =>
      resolved ← collect_ok (resolve_bind merged) bind;
      Ok (match merged with
          | JObject map => JObject (foldl (λ m kv, map_insert (fst kv) (snd kv) m) map resolved)
          | v => v
          end)
  end.

Definition fan_out_obj (obj item : Json) (index total : nat) (truncated : bool) : Json :=
  JObject
    (map_insert "fan_out_truncated" (JBool truncated)
       (map_insert "fan_out_total" (JNat total)
          (map_insert "item_index" (JNat index)
             (map_insert "item" item (object_or_empty obj))))).

Definition each_miss (each reason : string) : BindMiss.t := BindMiss.mk "each" each reason.

Definition plan_hops (trigger : Trigger.t) (obj : Json) (cfg : TriggersConfig.t)
    : result BindMiss.t (list Hop.t) :=
  match Trigger.each trigger with
  | None | Some EmptyString =>
      params ← bind_params (Trigger.params trigger) obj (Trigger.bind trigger);
      Ok [Hop.mk params None]
  | Some each =>
      match json_pointer each (merged_params (Trigger.params trigger) obj) with
      | None => Err (each_miss each "resolved to nothing")
      | Some v =>
          match as_array v with
          | None => Err (each_miss each "resolved to a value that is not an array")
          | Some items =>
              let total := length items in
              let truncated := bool_decide (TriggersConfig.fan_out_cap cfg < total)%nat in
              collect_ok
                (λ '(index, item),
                   params ← bind_params (Trigger.params trigger)
                              (fan_out_obj obj item index total truncated) (Trigger.bind trigger);
                   Ok (Hop.mk params (Some index)))
                (imap (λ i item, (i, item)) (take (TriggersConfig.fan_out_cap cfg) items))
          end
      end
  end.
End hops.

(** ** Idempotency keys *)

Definition idempotency_key (trigger_id source_job_id : string) : string :=
  ("trig:" +:+ trigger_id +:+ ":" +:+ source_job_id)%string.

Inductive DatasetBatch : Type := Run | View (id : string).
Definition key_scope (batch : DatasetBatch) : string :=
  match batch with Run => EmptyString | View id => (":view:" +:+ id)%string end.
Definition dataset_idempotency_key (trigger_id source_job_id : string) (batch : DatasetBatch)
    (app dataset : string) : string :=
  (idempotency_key trigger_id source_job_id +:+ key_scope batch +:+ ":ds:" +:+ app +:+ "/"
   +:+ dataset)%string.

Definition fan_out_idempotency_key (base : string) (index : nat) : string :=
  (base +:+ ":i:" +:+ pretty index)%string.
Definition hop_idempotency_key (base : string) (index : option nat) : string :=
  match index with None => base | Some i => fan_out_idempotency_key base i end.

(** ** The [_trigger] envelopes *)

(** [Uuid]'s [Display] and [Serialize] is its crate's. *)
Class UuidText := uuid_text : Uuid → string.

Definition capped_keys (revs : list Revision.t) (cap : nat) : list string * bool :=
  let keys := map Revision.key (take cap revs) in
  (keys, bool_decide (length keys < length revs)%nat).

Definition chain_json (chain : list string) : Json := JArray (map JString chain).

Section envelopes.
Context `{UuidText}.

Definition dataset_trigger_obj (trigger : Trigger.t) (source_job : Job.t) (app dataset : string)
    (revs : list Revision.t) (depth : Z) (chain : list string) (cfg : TriggersConfig.t) : Json :=
  let '(keys, keys_truncated) := capped_keys revs (TriggersConfig.key_cap cfg) in
  json_object
    [("trigger_id", JString (Trigger.id trigger)); ("source_kind", JString "dataset");
     ("app", JString app); ("dataset", JString dataset);
     ("kind", JString (default "any"%string (Trigger.on_change trigger)));
     ("count", JNat (length revs)); ("keys", JArray (map JString keys));
     ("keys_truncated", JBool keys_truncated);
     ("source_job_id", JString (uuid_text (Job.id source_job)));
     ("depth", JUint depth); ("chain", chain_json chain)]%string.

Definition terminal_trigger_obj (trigger : Trigger.t) (source_job : Job.t) (depth : Z)
    (chain : list string) : Json :=
  let summary :=
    match Job.result source_job with
    | Some r =>
        json_object [("new", default JNull (json_get "new" r));
                     ("changed", default JNull (json_get "changed" r))]%string
    | None => JNull
    end in
  json_object
    [("trigger_id", JString (Trigger.id trigger)); ("source_kind", JString "job");
     ("app", JString (Job.app source_job));
     ("status", JString (JobStatus.as_str (Job.status source_job)));
     ("source_job_id", JString (uuid_text (Job.id source_job)));
     ("result_summary", summary); ("depth", JUint depth); ("chain", chain_json chain)]%string.
End envelopes.

Definition external_trigger_obj (trigger : Trigger.t) (source_id source_name event_id : string)
    (payload : Json) (depth : Z) (chain : list string) : Json :=
  json_object
    [("trigger_id", JString (Trigger.id trigger)); ("source_kind", JString "external");
     ("source_id", JString source_id); ("source_name", JString source_name);
     ("event_id", JString event_id); ("payload", payload); ("depth", JUint depth);
     ("chain", chain_json chain)]%string.

(** ** Plugin hooks *)

Definition predicate_verdict (out : Json) : option bool :=
  match out with
  | JBool b => Some b
  | JObject _ => json_get "pass" out ≫= as_bool
  | _ => None
  end.
Definition predicate_fail_default (on_error : option string) : bool :=
  negb (bool_decide (on_error = Some "skip"%string)).

Definition HOST_OWNED_KEYS : list string :=
  ["trigger_id"; "source_kind"; "source_job_id"; "event_id"; "source_id"; "depth"; "chain";
   "keys"; "keys_truncated"]%string.

Definition restamp_host_owned (original transformed : Json) : Json :=
  match transformed with
  | JObject out =>
      match original with
      | JObject orig =>
          JObject
            (foldl (λ out key, match map_get key orig with
                               | Some v => map_insert key v out
                               | None => map_remove key out
                               end) out HOST_OWNED_KEYS)
      | _ => JObject out
      end
  | _ => original
  end.

Inductive HookSlot : Type := Predicate | Transform | PostEnqueue.
Definition HookSlot_as_str (s : HookSlot) : string :=
  match s with
  | Predicate => "predicate" | Transform => "transform" | PostEnqueue => "post_enqueue"
  end.

Module HookIncident.
Record t : Type := mk { slot : HookSlot; plugin : string; outcome : string; detail : string }.
End HookIncident.

Module HookVerdict.
Record t : Type := mk { obj : option Json; incidents : list HookIncident.t }.
Definition clean (obj : Json) : t := mk (Some obj) [].
Definition stop_reason (v : t) : option string :=
  match obj v with
  | Some _ => None
  | None => HookIncident.detail <$> last (incidents v)
  end.
End HookVerdict.

Definition hook_failure_outcome (e : Error) : string :=
  match plugin_failure e with
  | Some Trap => "hook_trap"
  | Some MalformedOutput => "hook_malformed"
  | Some MissingExport => "hook_not_executable"
  | Some Unknown | Some Disabled => "plugin_missing"
  | Some Host | None => "hook_host_error"
  end.

Section hooks.
Context `{JsonRender}.
(** The plugin host: what its [n]-th call answers. *)
Context (run : nat → string → string → Json → result Error Json).

Definition unanswered (hook : PluginHook.t) (outcome why : string) : bool * list HookIncident.t :=
  let fire := predicate_fail_default (PluginHook.on_error hook) in
  (fire,
   [HookIncident.mk Predicate (PluginHook.plugin hook) outcome
      (why +:+ (if fire then " — on_error=fire, hop NOT gated"
                else " — on_error=skip, hop stopped"))%string]).

(** Whether the hop goes on, and what is recorded. *)
Definition run_predicate (n : nat) (hook : PluginHook.t) (obj : Json)
    : bool * list HookIncident.t :=
  let plugin := PluginHook.plugin hook in
  match run n plugin (json_render obj) (PluginHook.params hook) with
  | Ok out =>
      match predicate_verdict out with
      | Some true => (true, [])
      | Some false =>
          (false, [HookIncident.mk Predicate plugin "predicate_veto"
                     ("predicate plugin '" +:+ plugin +:+ "' returned pass=false")%string])
      | None =>
          unanswered hook "hook_malformed"
            ("predicate plugin '" +:+ plugin +:+ "' returned a malformed verdict (want {"
             +:+ quoted "pass" +:+ ": bool}): " +:+ json_render out)%string
      end
  | Err e => unanswered hook (hook_failure_outcome e) (error_display e)
  end.

Definition run_transform (n : nat) (hook : PluginHook.t) (obj : Json)
    : Json * list HookIncident.t :=
  let plugin := PluginHook.plugin hook in
  match run n plugin (json_render obj) (PluginHook.params hook) with
  | Ok (JObject _ as out) => (restamp_host_owned obj out, [])
  | Ok other =>
      (obj, [HookIncident.mk Transform plugin "hook_malformed"
               ("transform plugin '" +:+ plugin +:+ "' returned non-object output: "
                +:+ json_render other +:+ " — original envelope kept, hop NOT shaped")%string])
  | Err e =>
      (obj, [HookIncident.mk Transform plugin (hook_failure_outcome e)
               (error_display e +:+ " — original envelope kept, hop NOT shaped")%string])
  end.

Definition apply_plugin_hooks (n : nat) (trigger : Trigger.t) (obj : Json) : HookVerdict.t :=
  match Trigger.plugin_hooks trigger with
  | None => HookVerdict.clean obj
  | Some hooks =>
      let '(go, gated) :=
        match TriggerPluginHooks.predicate hooks with
        | Some hook => run_predicate n hook obj
        | None => (true, [])
        end in
      if negb go then HookVerdict.mk None gated
      else
        let '(obj, shaped) :=
          match TriggerPluginHooks.transform hooks with
          | Some hook => run_transform (S n) hook obj
          | None => (obj, [])
          end in
        HookVerdict.mk (Some obj) (gated ++ shaped)
  end.

Definition post_enqueue_envelope (obj : Json) (job_id : string) : Json :=
  JObject (map_insert "job_id" (JString job_id) (object_or_empty obj)).

Definition post_enqueue_hook (trigger : Trigger.t) : option PluginHook.t :=
  Trigger.plugin_hooks trigger ≫= TriggerPluginHooks.post_enqueue.
Definition post_enqueue_input (trigger : Trigger.t) (obj : Json) : option Json :=
  (λ _, obj) <$> post_enqueue_hook trigger.

Definition run_post_enqueue_hook (n : nat) (trigger : Trigger.t) (obj : option Json)
    (job_id : string) : list HookIncident.t :=
  match post_enqueue_hook trigger with
  | None => []
  | Some hook =>
      let plugin := PluginHook.plugin hook in
      match run n plugin (json_render (post_enqueue_envelope (default JNull obj) job_id))
              (PluginHook.params hook) with
      | Ok _ => []
      | Err e =>
          [HookIncident.mk PostEnqueue plugin (hook_failure_outcome e)
             (error_display e +:+ " — post_enqueue gates nothing, hop " +:+ job_id
              +:+ " unaffected")%string]
      end
  end.
End hooks.

(** ** The create door *)

Inductive DoorError : Type :=
| UnknownTarget (app : string)
| InvalidSourceKind (kind : string)
| InvalidOnChange (value : string)
| InvalidOnStatus (value : string)
| FieldNotForKind
| FiltersNotForKind
| BadFilter (e : FilterError)
| BadHook (kind : string)
| ReservedBind
| BindNotAString (param : string)
| BadPointer (param pointer : string)
| EachNotForJob
| BadBudget.

Definition validate_bind_entry (b : string * Json) : result DoorError unit :=
  if String.eqb (fst b) BIND_RESERVED_PARAM then Err ReservedBind
  else match as_str (snd b) with
       | None => Err (BindNotAString (fst b))
       | Some pointer =>
           if valid_pointer pointer then Ok tt else Err (BadPointer (fst b) pointer)
       end.
Definition validate_binding (bind : option (list (string * Json))) (each : option string)
    : result DoorError unit :=
  _ ← collect_ok validate_bind_entry (default [] bind);
  match each with
  | None | Some EmptyString => Ok tt
  | Some each => if valid_pointer each then Ok tt else Err (BadPointer "each" each)
  end.

Definition validate_hook (hook : PluginHook.t) (kind : string) (allow_on_error : bool)
    : result DoorError unit :=
  if String.eqb (str_trim (PluginHook.plugin hook)) "" then Err (BadHook kind)
  else match PluginHook.on_error hook with
       | None => Ok tt
       | Some v =>
           if negb allow_on_error then Err (BadHook kind)
           else if String.eqb v "fire" || String.eqb v "skip" then Ok tt
           else Err (BadHook kind)
       end.

(** [CreateTriggerBody] *)
Module CreateTriggerBody.
Record t : Type := mk {
  name : option string; source_kind : string; source_app : string;
  source_dataset : option string; on_change : option string; on_status : option string;
  target_app : string; params : option Json; budget_usd : option f64;
  priority : option Z; max_attempts : option Z; filters : option (list string);
  plugins : option TriggerPluginHooks.t; bind : option (list (string * Json));
  each : option string }.
End CreateTriggerBody.

Definition MAX_ATTEMPTS_CAP : Z := 20.

Definition validate_budget_usd (requested : option f64) : result DoorError (option f64) :=
  match requested with
  | None => Ok None
  | Some b => if is_finite b && f64_gt b f64_zero then Ok (Some b) else Err BadBudget
  end.

(** The fields one source kind admits, with its defaults. *)
Definition kind_fields (body : CreateTriggerBody.t)
    : result DoorError (option string * option string * option string) :=
  let kind := CreateTriggerBody.source_kind body in
  let source_dataset := CreateTriggerBody.source_dataset body in
  let on_change := CreateTriggerBody.on_change body in
  let on_status := CreateTriggerBody.on_status body in
  if String.eqb kind "dataset" then
    let change := default "fresh"%string on_change in
    if negb (existsb (String.eqb change) ["new"; "changed"; "removed"; "fresh"; "any"]%string)
    then Err (InvalidOnChange change)
    else if is_some on_status then Err FieldNotForKind
    else Ok (Some (default "*"%string source_dataset), Some change, None)
  else if String.eqb kind "job" then
    let status := default "succeeded"%string on_status in
    if negb (existsb (String.eqb status) ["succeeded"; "failed"; "any"]%string)
    then Err (InvalidOnStatus status)
    else if is_some source_dataset || is_some on_change then Err FieldNotForKind
    else Ok (None, None, Some status)
  else if String.eqb kind "external" then
    if is_some source_dataset || is_some on_change || is_some on_status
    then Err FieldNotForKind else Ok (None, None, None)
  else Err (InvalidSourceKind kind).

Definition door_filters (body : CreateTriggerBody.t) : result DoorError (option (list string)) :=
  match CreateTriggerBody.filters body with
  | None | Some [] => Ok None
  | Some f =>
      if negb (String.eqb (CreateTriggerBody.source_kind body) "external")
      then Err FiltersNotForKind
      else match parse_filters f with Ok _ => Ok (Some f) | Err e => Err (BadFilter e) end
  end.

Definition check_hook (hook : option PluginHook.t) (kind : string) (allow_on_error : bool)
    : result DoorError unit :=
  match hook with Some h => validate_hook h kind allow_on_error | None => Ok tt end.
Definition door_hooks (hooks : option TriggerPluginHooks.t)
    : result DoorError (option TriggerPluginHooks.t) :=
  match hooks with
  | None | Some (TriggerPluginHooks.mk None None None) => Ok None
  | Some h =>
      _ ← check_hook (TriggerPluginHooks.predicate h) "predicate" true;
      _ ← check_hook (TriggerPluginHooks.transform h) "transform" false;
      Ok (Some h)
  end.

Definition nonempty_text (s : option string) : option string :=
  match s with Some EmptyString => None | s => s end.
Definition nonempty_map (b : option (list (string * Json))) : option (list (string * Json)) :=
  match b with Some [] => None | b => b end.

(** What [POST /triggers] stores, or its refusal. *)
Definition create_trigger_door (registered : string → bool) (body : CreateTriggerBody.t)
    : result DoorError NewTrigger.t :=
  if negb (registered (CreateTriggerBody.target_app body))
  then Err (UnknownTarget (CreateTriggerBody.target_app body))
  else
    '(source_dataset, on_change, on_status) ← kind_fields body;
    filters ← door_filters body;
    plugin_hooks ← door_hooks (CreateTriggerBody.plugins body);
    _ ← validate_binding (CreateTriggerBody.bind body) (CreateTriggerBody.each body);
    let each := nonempty_text (CreateTriggerBody.each body) in
    if is_some each && String.eqb (CreateTriggerBody.source_kind body) "job" then Err EachNotForJob
    else
      budget_usd ← validate_budget_usd (CreateTriggerBody.budget_usd body);
      Ok (NewTrigger.mk (CreateTriggerBody.name body) (CreateTriggerBody.source_kind body)
            (CreateTriggerBody.source_app body) source_dataset on_change on_status
            (CreateTriggerBody.target_app body)
            (default (JObject []) (CreateTriggerBody.params body)) budget_usd
            (default 0 (CreateTriggerBody.priority body))
            (Z.min (Z.max (default 1 (CreateTriggerBody.max_attempts body)) 1) MAX_ATTEMPTS_CAP)
            filters plugin_hooks (nonempty_map (CreateTriggerBody.bind body)) each).
