(* ===== verification/TriggerFire.v ===== *)
(** * TriggerFire: the triggers table, its cache, and the hooks that fire hops

    The [triggers] and [trigger_runs] statements of [crates/core/src/storage.rs] with
    the generation counter, the evaluation-set cache and the IO half of
    [crates/server/src/triggers.rs].  The plugin host, the app registry, the schema
    validator, JSON pointers and UUID texts are parameters, and so is whether the
    load of an evaluation set fails. *)

From stdpp Require Import gmap strings.
From S2P Require Import Prelude Sql Float64 Json Errors Jobs JobQueue WorkflowEngine Filters.
From S2P Require Import Records Triggers.

(** ** The table *)

Abbreviation triggers := (list Trigger.t).

Definition is_trigger (id : string) (t : Trigger.t) : bool := String.eqb (Trigger.id t) id.
Definition get_trigger (id : string) (t : triggers) : option Trigger.t :=
  lookup_by Trigger.id id t.

Definition stored_filters (f : option (list string)) : option (list string) :=
  match f with Some [] => None | f => f end.
(** [max_attempts.max(1)], and empty filters, hooks and bindings stored as none. *)
Definition trigger_row (id : string) (now : timestamp) (t : NewTrigger.t) : Trigger.t :=
  Trigger.mk id (NewTrigger.name t) (NewTrigger.source_kind t) (NewTrigger.source_app t)
    (NewTrigger.source_dataset t) (NewTrigger.on_change t) (NewTrigger.on_status t)
    (NewTrigger.target_app t) (NewTrigger.params t) (NewTrigger.budget_usd t)
    (NewTrigger.priority t) (Z.max (NewTrigger.max_attempts t) 1) true now
    (stored_filters (NewTrigger.filters t))
    (match NewTrigger.plugin_hooks t with
     | Some (TriggerPluginHooks.mk None None None) => None
     | h => h
     end)
    (nonempty_map (NewTrigger.bind t)) (NewTrigger.each t).

Definition enabled_of (source_kind source_app : string) (t : Trigger.t) : bool :=
  String.eqb (Trigger.source_kind t) source_kind && String.eqb (Trigger.source_app t) source_app
  && Trigger.enabled t.
Definition enabled_triggers (source_kind source_app : string) (t : triggers) : triggers :=
  select_where (enabled_of source_kind source_app) t.
Definition enabled_external_triggers (source_id : string) (t : triggers) : triggers :=
  select_where
    (λ r, String.eqb (Trigger.source_kind r) "external"
          && (String.eqb (Trigger.source_app r) source_id || String.eqb (Trigger.source_app r) "*")
          && Trigger.enabled r) t.

Definition trigger_oldest (a b : Trigger.t) : bool := Trigger.created_at a <=? Trigger.created_at b.
Definition of_source (source_app : option string) (t : Trigger.t) : bool :=
  match source_app with None => true | Some a => String.eqb (Trigger.source_app t) a end.
Definition list_triggers (source_app : option string) (t : triggers) : triggers :=
  order_by trigger_oldest (select_where (of_source source_app) t).

Definition trigger_newest (a b : Trigger.t) : bool :=
  (Trigger.created_at b <? Trigger.created_at a)
  || ((Trigger.created_at a =? Trigger.created_at b) && String.leb (Trigger.id b) (Trigger.id a)).
Definition trigger_after (after : option (timestamp * string)) (t : Trigger.t) : bool :=
  match after with
  | None => true
  | Some (ts, id) =>
      (Trigger.created_at t <? ts)
      || ((Trigger.created_at t =? ts) && String.ltb (Trigger.id t) id)
  end.
Definition list_triggers_page (source_app : option string) (after : option (timestamp * string))
    (limit : Z) (t : triggers) : triggers :=
  sql_limit limit
    (order_by trigger_newest
       (select_where (λ r, of_source source_app r && trigger_after after r) t)).

Definition jobs_by_trigger (trigger_id : string) (limit : Z) (t : table) : table :=
  sql_limit limit
    (order_by newest_created
       (select_where (λ r, bool_decide (Job.trigger_id r = Some trigger_id)) t)).
Definition jobs_by_schedule (schedule_id : string) (limit : Z) (t : table) : table :=
  sql_limit limit
    (order_by newest_created
       (select_where (λ r, bool_decide (Job.schedule_id r = Some schedule_id)) t)).
Definition triggered_hops (job_id : string) (t : table) : table :=
  order_by (λ a b, Job.created_at a <=? Job.created_at b)
    (select_where (λ r, bool_decide (Job.source_job_id r = Some job_id)) t).

(** ** The decision ledger *)

Module NewTriggerRun.
Record t : Type := mk {
  trigger_id : string; outcome : string; source_kind : string; source_job_id : option string;
  dataset : option string; event_id : option string; job_id : option string;
  detail : option string }.
#[global] Instance eta_new_run : Eta t := λ r,
  mk (trigger_id r) (outcome r) (source_kind r) (source_job_id r) (dataset r) (event_id r)
    (job_id r) (detail r).
End NewTriggerRun.

Module TriggerRun.
Record t : Type := mk { id : string; run : NewTriggerRun.t; created_at : timestamp }.
End TriggerRun.
Abbreviation trigger_runs := (list TriggerRun.t).

Definition TRIGGER_SET_ID : string := "*".
Definition TRIGGER_OUTCOMES : list string :=
  ["fired"; "eval_set_error"; "no_change_match"; "status_mismatch"; "filter_miss"; "bad_filters";
   "predicate_veto"; "plugin_missing"; "hook_trap"; "hook_malformed"; "hook_not_executable";
   "hook_host_error"; "cycle"; "depth"; "target_unregistered"; "bad_params"; "bind_miss";
   "fan_out_empty"; "dedup"; "enqueue_failed"]%string.

Definition record_trigger_run (id : string) (now : timestamp) (run : NewTriggerRun.t)
    (t : trigger_runs) : trigger_runs * result Error string :=
  if is_some (lookup_by TriggerRun.id id t) then (t, Err unique_violation)
  else (t ++ [TriggerRun.mk id run now], Ok id).

Definition trigger_run_newest (a b : TriggerRun.t) : bool :=
  (TriggerRun.created_at b <? TriggerRun.created_at a)
  || ((TriggerRun.created_at a =? TriggerRun.created_at b)
      && String.leb (TriggerRun.id b) (TriggerRun.id a)).
Definition list_trigger_runs_page (trigger_id : string) (after : option (timestamp * string))
    (limit : Z) (t : trigger_runs) : trigger_runs :=
  sql_limit limit
    (order_by trigger_run_newest
       (select_where
          (λ r, String.eqb (NewTriggerRun.trigger_id (TriggerRun.run r)) trigger_id
                && match after with
                   | None => true
                   | Some (ts, id) =>
                       (TriggerRun.created_at r <? ts)
                       || ((TriggerRun.created_at r =? ts) && String.ltb (TriggerRun.id r) id)
                   end) t)).
Definition prune_trigger_runs (now : timestamp) (d : Z) (t : trigger_runs) : trigger_runs * Z :=
  let old (r : TriggerRun.t) := TriggerRun.created_at r <? now - days d in
  if d =? 0 then (t, 0) else (delete_where old t, rows_affected old t).

(** ** Evaluation sets and their cache *)

Inductive EvalScope : Type := EDataset (app : string) | EJob (app : string) | EExternal (src : string).
Definition scope_key (s : EvalScope) : string * string :=
  match s with
  | EDataset app => ("dataset", app)
  | EJob app => ("job", app)
  | EExternal src => ("external", src)
  end%string.
Definition load (s : EvalScope) (t : triggers) : triggers :=
  match s with
  | EDataset app => enabled_triggers "dataset" app t
  | EJob app => enabled_triggers "job" app t
  | EExternal src => enabled_external_triggers src t
  end.

(** A trigger with its filters parsed once; [None] when they no longer parse. *)
Module EvalTrigger.
Record t : Type := mk { trigger : Trigger.t; filters : option (list JsonFilter) }.
Definition new (trigger : Trigger.t) : t :=
  mk trigger
    (match Trigger.filters trigger with
     | None => Some []
     | Some specs => match parse_filters specs with Ok f => Some f | Err _ => None end
     end).
End EvalTrigger.
Abbreviation eval_triggers := (list EvalTrigger.t).

Definition prepare (s : EvalScope) (t : triggers) : eval_triggers :=
  map EvalTrigger.new (load s t).

Module CacheEntry.
Record t : Type := mk { generation : Z; set : list EvalTrigger.t }.
End CacheEntry.
Abbreviation eval_cache := (gmap (string * string) CacheEntry.t).

Definition cache_get (key : string * string) (generation : Z) (c : eval_cache)
    : option eval_triggers :=
  entry ← c !! key;
  if CacheEntry.generation entry =? generation then Some (CacheEntry.set entry) else None.

Definition cache_put (key : string * string) (generation : Z) (set : eval_triggers)
    (c : eval_cache) : eval_cache :=
  match c !! key with
  | Some existing =>
      if generation <? CacheEntry.generation existing then c
      else <[key := CacheEntry.mk generation set]> c
  | None => <[key := CacheEntry.mk generation set]> c
  end.

(** ** The state of the hooks *)

(** The tables, the generation counter, the cache and its counter, the deployment
    faults already reported, the plugin calls made, the wake-ups, the ids drawn. *)
Module Trig.
Record t : Type := mk {
  jobs : table; triggers : list Trigger.t; generation : Z; runs : trigger_runs;
  cache : eval_cache; db_loads : Z; reported : gset string; calls : nat; wakeups : nat;
  drawn : nat }.
#[global] Instance eta_trig : Eta t := λ w,
  mk (jobs w) (triggers w) (generation w) (runs w) (cache w) (db_loads w) (reported w) (calls w)
    (wakeups w) (drawn w).
End Trig.

(** Every mutation bumps the generation after its statement. *)
Definition bump_trigger_generation (w : Trig.t) : Trig.t :=
  w <| Trig.generation ::= λ g, wrap_u64 (g + 1) |>.

Definition create_trigger (id : string) (now : timestamp) (t : NewTrigger.t) (w : Trig.t)
    : Trig.t * result Error Trigger.t :=
  if is_some (get_trigger id (Trig.triggers w)) then (w, Err unique_violation)
  else
    let w := bump_trigger_generation
               (w <| Trig.triggers ::= λ l, l ++ [trigger_row id now t] |>) in
    (w, match get_trigger id (Trig.triggers w) with
        | Some t => Ok t
        | None => Err (Storage (SqlxOther "RowNotFound"))
        end).

Definition set_trigger_enabled (id : string) (enabled : bool) (w : Trig.t) : Trig.t * bool :=
  (bump_trigger_generation
     (w <| Trig.triggers ::= update_where (is_trigger id) (λ t, t <| Trigger.enabled := enabled |>) |>),
   0 <? rows_affected (is_trigger id) (Trig.triggers w)).

Definition delete_trigger (id : string) (w : Trig.t) : Trig.t * bool :=
  (bump_trigger_generation (w <| Trig.triggers ::= delete_where (is_trigger id) |>),
   0 <? rows_affected (is_trigger id) (Trig.triggers w)).

(** The part of a decision that is fixed for one source event. *)
Module Ctx.
Record t : Type := mk {
  source_kind : string; source_job_id : option string; dataset : option string;
  event_id : option string }.
Definition row (c : t) (trigger_id outcome : string) : NewTriggerRun.t :=
  NewTriggerRun.mk trigger_id outcome (source_kind c) (source_job_id c) (dataset c) (event_id c)
    None None.
End Ctx.

Definition is_static_hook_fact (outcome : string) : bool :=
  String.eqb outcome "plugin_missing" || String.eqb outcome "hook_not_executable".

Section fire.
Context `{JsonRender, Unicode, JsonPointer, UuidText}.
Context (registry : string → option App) (validate_params : Json → Json → option string)
  (run_plugin : nat → string → string → Json → result Error Json)
  (load_error : EvalScope → option Error)
  (new_v4 : nat → Uuid) (new_run_id : nat → string) (cfg : TriggersConfig.t) (now : timestamp).

(** [eval_set]: the generation is sampled before the load. *)
Definition eval_set (s : EvalScope) (w : Trig.t) : Trig.t * result Error eval_triggers :=
  let generation := Trig.generation w in
  match cache_get (scope_key s) generation (Trig.cache w) with
  | Some hit => (w, Ok hit)
  | None =>
      let w := w <| Trig.db_loads ::= Z.succ |> in
      match load_error s with
      | Some e => (w, Err e)
      | None =>
          let set := prepare s (Trig.triggers w) in
          (w <| Trig.cache ::= cache_put (scope_key s) generation set |>, Ok set)
      end
  end.

(** [record]: a ledger row that cannot be written is dropped. *)
Definition record_run (run : NewTriggerRun.t) (w : Trig.t) : Trig.t :=
  w <| Trig.runs := fst (record_trigger_run (new_run_id (Trig.drawn w)) now run (Trig.runs w)) |>
    <| Trig.drawn ::= S |>.

Definition with_detail (detail : string) (r : NewTriggerRun.t) : NewTriggerRun.t :=
  r <| NewTriggerRun.detail := Some detail |>.

Definition record_incident (trigger_id : string) (ctx : Ctx.t) (w : Trig.t) (inc : HookIncident.t)
    : Trig.t :=
  let row := with_detail (HookIncident.detail inc) (Ctx.row ctx trigger_id (HookIncident.outcome inc)) in
  if is_static_hook_fact (HookIncident.outcome inc) then
    let key := (trigger_id +:+ "|" +:+ HookIncident.plugin inc +:+ "|"
                +:+ HookIncident.outcome inc)%string in
    if bool_decide (key ∈ Trig.reported w) then w
    else record_run row (w <| Trig.reported ::= λ s, {[key]} ∪ s |>)
  else record_run row w.
Definition record_hook_incidents (trigger_id : string) (ctx : Ctx.t)
    (incidents : list HookIncident.t) (w : Trig.t) : Trig.t :=
  foldl (record_incident trigger_id ctx) w incidents.

(** ** One hop *)

Definition planned_hops (trigger : Trigger.t) (obj : Json) (ctx : Ctx.t) (w : Trig.t)
    : Trig.t * option (list Hop.t) :=
  match plan_hops trigger obj cfg with
  | Ok [] =>
      (record_run
         (with_detail ("each '" +:+ default EmptyString (Trigger.each trigger)
                       +:+ "' resolved to an empty array - zero hops")%string
            (Ctx.row ctx (Trigger.id trigger) "fan_out_empty")) w, None)
  | Ok hops => (w, Some hops)
  | Err miss =>
      (record_run (with_detail (BindMiss.detail miss) (Ctx.row ctx (Trigger.id trigger) "bind_miss")) w,
       None)
  end.

Definition hop_opts (trigger : Trigger.t) (source : option Uuid) (key : string) (params : Json)
    : Opts.t :=
  Opts.default <| Opts.params := params |>
    <| Opts.target_key := target_key_for registry (Trigger.target_app trigger) params |>
    <| Opts.max_attempts := Trigger.max_attempts trigger |>
    <| Opts.priority := Trigger.priority trigger |>
    <| Opts.budget_usd := Trigger.budget_usd trigger |>
    <| Opts.idempotency_key := Some key |>
    <| Opts.trigger_id := Some (Trigger.id trigger) |>
    <| Opts.source_job_id := uuid_text <$> source |>.

(** [enqueue_one_hop]; the loop of [fire_external_triggers] is the same body with no
    source job and no key on its fired row. *)
Definition enqueue_one_hop (trigger : Trigger.t) (source : option Uuid) (hop : Hop.t)
    (base_key : string) (ctx : Ctx.t) (w : Trig.t) : Trig.t * nat :=
  let row outcome := Ctx.row ctx (Trigger.id trigger) outcome in
  let key := hop_idempotency_key base_key (Hop.index hop) in
  let params_obj := post_enqueue_input trigger (Hop.trigger_obj hop) in
  let params := Hop.params hop in
  match validate_app_params registry validate_params (Trigger.target_app trigger) params with
  | Err msg => (record_run (with_detail msg (row "bad_params"%string)) w, O)
  | Ok _ =>
      let '(jobs, r) :=
        enqueue_dedup (new_v4 (Trig.drawn w)) now (Trigger.target_app trigger)
          (hop_opts trigger source key params) (Trig.jobs w) in
      let w := w <| Trig.jobs := jobs |> <| Trig.drawn ::= S |> in
      match r with
      | Ok (job, true) =>
          let hop_id := uuid_text (Job.id job) in
          let incidents :=
            run_post_enqueue_hook run_plugin (Trig.calls w) trigger params_obj hop_id in
          let w := record_hook_incidents (Trigger.id trigger) ctx incidents
                     (w <| Trig.calls ::= S |>) in
          (record_run
             ((row "fired"%string) <| NewTriggerRun.job_id := Some hop_id |>
                <| NewTriggerRun.detail := if is_some source then Some key else None |>) w, 1%nat)
      | Ok (_, false) => (record_run (with_detail key (row "dedup"%string)) w, O)
      | Err e => (record_run (with_detail (error_display e) (row "enqueue_failed"%string)) w, O)
      end
  end.

Fixpoint enqueue_hops (trigger : Trigger.t) (source : option Uuid) (hops : list Hop.t)
    (base_key : string) (ctx : Ctx.t) (w : Trig.t) (fired : nat) : Trig.t * nat :=
  match hops with
  | [] => (w, fired)
  | hop :: hops =>
      let '(w, n) := enqueue_one_hop trigger source hop base_key ctx w in
      enqueue_hops trigger source hops base_key ctx w (fired + n)
  end.

Definition enqueue_hop (trigger : Trigger.t) (source : option Uuid) (obj : Json) (key : string)
    (ctx : Ctx.t) (w : Trig.t) : Trig.t * nat :=
  let verdict := apply_plugin_hooks run_plugin (Trig.calls w) trigger obj in
  let w := record_hook_incidents (Trigger.id trigger) ctx (HookVerdict.incidents verdict)
             (w <| Trig.calls ::= λ n, (n + 2)%nat |>) in
  match HookVerdict.obj verdict with
  | None => (w, O)
  | Some obj =>
      if negb (is_some (registry (Trigger.target_app trigger))) then
        (record_run (with_detail (Trigger.target_app trigger)
                       (Ctx.row ctx (Trigger.id trigger) "target_unregistered")) w, O)
      else
        match planned_hops trigger obj ctx w with
        | (w, None) => (w, O)
        | (w, Some hops) => enqueue_hops trigger source hops key ctx w O
        end
  end.

(** ** One event *)

(** The guards of a chain, then the envelope and its hops. *)
Definition guarded_hop (trigger : Trigger.t) (source_params : Json) (source : option Uuid)
    (envelope : Z → list string → Json) (key : string) (ctx : Ctx.t) (w : Trig.t)
    : Trig.t * nat :=
  match decide (Trigger.id trigger) source_params cfg with
  | SkipCycle => (record_run (Ctx.row ctx (Trigger.id trigger) "cycle") w, O)
  | SkipDepth => (record_run (Ctx.row ctx (Trigger.id trigger) "depth") w, O)
  | DFire depth chain => enqueue_hop trigger source (envelope depth chain) key ctx w
  end.

Definition each_trigger {A} (step : A → Trig.t → Trig.t * nat) (l : list A) (w : Trig.t)
    : Trig.t * nat :=
  foldl (λ '(w, fired) t, let '(w, n) := step t w in (w, (fired + n)%nat)) (w, O) l.

Definition notify (r : Trig.t * nat) : Trig.t * nat :=
  let '(w, fired) := r in
  (if (0 <? fired)%nat then w <| Trig.wakeups ::= S |> else w, fired).

Definition eval_set_failed (ctx : Ctx.t) (e : Error) (w : Trig.t) : Trig.t :=
  record_run (with_detail (error_display e)
                (NewTriggerRun.mk TRIGGER_SET_ID "eval_set_error" (Ctx.source_kind ctx)
                   (Ctx.source_job_id ctx) None (Ctx.event_id ctx) None None)) w.

Definition dataset_step (job : Job.t) (batch : DatasetBatch) (app dataset : string)
    (revs : list Revision.t) (ctx : Ctx.t) (trigger : Trigger.t) (w : Trig.t) : Trig.t * nat :=
  let matching :=
    List.filter (λ r, change_matches (Trigger.on_change trigger) (Revision.change r)) revs in
  match matching with
  | [] => (record_run (Ctx.row ctx (Trigger.id trigger) "no_change_match") w, O)
  | _ =>
      guarded_hop trigger (Job.params job) (Some (Job.id job))
        (λ depth chain, dataset_trigger_obj trigger job app dataset matching depth chain cfg)
        (dataset_idempotency_key (Trigger.id trigger) (uuid_text (Job.id job)) batch app dataset)
        ctx w
  end.

(** The set of the previous pair is reused while the app stays the same. *)
Fixpoint dataset_pairs (job : Job.t) (batch : DatasetBatch)
    (pairs : list (string * string * list Revision.t)) (current : option (string * eval_triggers))
    (w : Trig.t) (fired : nat) : Trig.t * nat :=
  match pairs with
  | [] => (w, fired)
  | (app, dataset, revs) :: pairs =>
      let '(w, trigs) :=
        match current with
        | Some (loaded, set) =>
            if String.eqb loaded app then (w, Ok set) else eval_set (EDataset app) w
        | None => eval_set (EDataset app) w
        end in
      let ctx := Ctx.mk "dataset" (Some (uuid_text (Job.id job))) (Some dataset) None in
      match trigs with
      | Err e => dataset_pairs job batch pairs current (eval_set_failed ctx e w) fired
      | Ok set =>
          let '(w, n) :=
            each_trigger (dataset_step job batch app dataset revs ctx)
              (List.filter (λ t, Trigger.covers_dataset t dataset) (map EvalTrigger.trigger set)) w in
          dataset_pairs job batch pairs (Some (app, set)) w (fired + n)
      end
  end.

Definition pair_le (a b : string * string * list Revision.t) : bool :=
  let '(app1, ds1, _) := a in
  let '(app2, ds2, _) := b in
  String.ltb app1 app2 || (String.eqb app1 app2 && String.leb ds1 ds2).

(** [by_dataset]: the entries of the map, in any order. *)
Definition fire_dataset_triggers (job : Job.t) (batch : DatasetBatch)
    (by_dataset : list (string * string * list Revision.t)) (w : Trig.t) : Trig.t * nat :=
  notify (dataset_pairs job batch (order_by pair_le by_dataset) None w O).

Definition terminal_step (job : Job.t) (ctx : Ctx.t) (trigger : Trigger.t) (w : Trig.t)
    : Trig.t * nat :=
  if negb (status_matches (Trigger.on_status trigger) (JobStatus.as_str (Job.status job)))
  then (record_run (Ctx.row ctx (Trigger.id trigger) "status_mismatch") w, O)
  else
    guarded_hop trigger (Job.params job) (Some (Job.id job)) (terminal_trigger_obj trigger job)
      (idempotency_key (Trigger.id trigger) (uuid_text (Job.id job))) ctx w.

Definition fire_terminal_triggers (job : Job.t) (w : Trig.t) : Trig.t * nat :=
  let ctx := Ctx.mk "job" (Some (uuid_text (Job.id job))) None None in
  match eval_set (EJob (Job.app job)) w with
  | (w, Err e) => (eval_set_failed ctx e w, O)
  | (w, Ok set) => notify (each_trigger (terminal_step job ctx) (map EvalTrigger.trigger set) w)
  end.

Definition external_step (source_id source_name event_id : string) (payload : Json) (ctx : Ctx.t)
    (entry : EvalTrigger.t) (w : Trig.t) : Trig.t * nat :=
  let trigger := EvalTrigger.trigger entry in
  match EvalTrigger.filters entry with
  | None => (record_run (Ctx.row ctx (Trigger.id trigger) "bad_filters") w, O)
  | Some filters =>
      if negb (payload_matches filters payload)
      then (record_run (Ctx.row ctx (Trigger.id trigger) "filter_miss") w, O)
      else
        guarded_hop trigger JNull None
          (external_trigger_obj trigger source_id source_name event_id payload)
          (idempotency_key (Trigger.id trigger) event_id) ctx w
  end.

Definition fire_external_triggers (source_id source_name event_id : string) (payload : Json)
    (w : Trig.t) : Trig.t * nat :=
  let ctx := Ctx.mk "external" None None (Some event_id) in
  match eval_set (EExternal source_id) w with
  | (w, Err e) => (eval_set_failed ctx e w, O)
  | (w, Ok set) =>
      notify (each_trigger (external_step source_id source_name event_id payload ctx) set w)
  end.
End fire.
