(* ===== verification/HopTheorems.v ===== *)
(** * HopTheorems: what one trigger makes of one event

    Plugin hooks that fail open, fan-out plans, bindings read from one view, and
    idempotency keys that identify a hop. *)

From stdpp Require Import pretty.
From S2P Require Import Prelude Float64 Json Errors Jobs Filters Records Triggers TriggerFire.

#[local] Arguments map_get : simpl never.
#[local] Arguments restamp_host_owned : simpl never.
#[local] Arguments HOST_OWNED_KEYS : simpl never.

(** ** Objects with the same host-owned members *)

Definition same_host (a b : Json) : Prop := ∀ k, k ∈ HOST_OWNED_KEYS → json_get k a = json_get k b.

#[global] Instance same_host_equivalence : Equivalence same_host.
Proof.
  split; [by intros ? ? ?|intros a b H k Hk; by rewrite H|].
  intros a b c Hab Hbc k Hk. by rewrite Hab, Hbc.
Qed.

Lemma json_get_object k v : map_get k (object_or_empty v) = json_get k v.
Proof. by destruct v. Qed.

Lemma json_get_insert k k' v m :
  json_get k' (JObject (map_insert k v m))
    = if String.eqb k k' then Some v else json_get k' (JObject m).
Proof. apply map_get_insert. Qed.

Lemma map_get_foldl_insert {V} k (l m : list (string * V)) :
  k ∉ map_keys l → map_get k (foldl (λ m kv, map_insert (fst kv) (snd kv) m) m l) = map_get k m.
Proof.
  revert m. induction l as [|[k' v] l IH]; intros m Hk; [done|]. cbn.
  apply not_elem_of_cons in Hk as [Hne Hk]. rewrite IH by done. rewrite map_get_insert.
  by destruct (String.eqb_spec k' k) as [->|].
Qed.

Lemma map_get_foldl_insert_in {V} k v (l m : list (string * V)) :
  NoDup (map_keys l) → (k, v) ∈ l →
  map_get k (foldl (λ m kv, map_insert (fst kv) (snd kv) m) m l) = Some v.
Proof.
  revert m. induction l as [|[k' v'] l IH]; intros m Hnd Hin; [set_solver|].
  apply NoDup_cons in Hnd as [Hni Hnd]. cbn. apply elem_of_cons in Hin as [[= -> ->]|Hin].
  - rewrite map_get_foldl_insert by done. rewrite map_get_insert. by rewrite String.eqb_refl.
  - by apply IH.
Qed.

Lemma merged_trigger template obj : json_get "_trigger" (merged_params template obj) = Some obj.
Proof. unfold merged_params. rewrite json_get_insert. by rewrite String.eqb_refl. Qed.

Lemma restamp_same_host original transformed :
  is_Some (as_object original) → same_host (restamp_host_owned original transformed) original.
Proof.
  intros [orig Ho] k Hk. destruct original as [| | | | |fields]; try done. clear Ho orig.
  destruct transformed as [| | | | |out]; try done.
  assert (∀ ks out, map_get k
      (foldl (λ out key, match map_get key fields with
                         | Some v => map_insert key v out
                         | None => map_remove key out
                         end) out ks)
    = if bool_decide (k ∈ ks) then map_get k fields else map_get k out) as Hf.
  { clear. intros ks. induction ks as [|k' ks IH]; intros out; [done|]. cbn [foldl]. rewrite IH.
    destruct (base.decide (k ∈ ks)) as [Hin|Hni].
    - rewrite !bool_decide_true by set_solver. done.
    - assert (bool_decide (k ∈ ks) = false) as -> by (by apply bool_decide_eq_false_2).
      destruct (base.decide (k' = k)) as [->|Hne].
      + rewrite bool_decide_true by set_solver.
        destruct (map_get k fields) as [v|]; rewrite ?map_get_insert, ?map_get_remove;
          by rewrite String.eqb_refl.
      + rewrite bool_decide_false by set_solver.
        destruct (map_get k' fields) as [v|]; rewrite ?map_get_insert, ?map_get_remove;
          by destruct (String.eqb_spec k' k). }
  unfold restamp_host_owned. cbn [json_get]. rewrite Hf. by rewrite bool_decide_true.
Qed.

(** ** Hooks *)

Definition answer_verdict (answer : result Error Json) : option bool :=
  match answer with Ok out => predicate_verdict out | Err _ => None end.

Section hooks.
Context `{JsonRender} (run : nat → string → string → Json → result Error Json).

(** The answer of the predicate of [trigger] to an envelope. *)
Definition asks (n : nat) (trigger : Trigger.t) (obj : Json) (hook : PluginHook.t)
    (v : option bool) : Prop :=
  (Trigger.plugin_hooks trigger ≫= TriggerPluginHooks.predicate) = Some hook
  ∧ answer_verdict (run n (PluginHook.plugin hook) (json_render obj) (PluginHook.params hook)) = v.

Lemma run_predicate_spec n hook obj go inc :
  run_predicate run n hook obj = (go, inc) →
  let v := answer_verdict (run n (PluginHook.plugin hook) (json_render obj) (PluginHook.params hook)) in
  (go = false ↔ v = Some false ∨ (v = None ∧ PluginHook.on_error hook = Some "skip"%string))
  ∧ ((∃ i, i ∈ inc ∧ HookIncident.outcome i = "predicate_veto"%string) ↔ v = Some false)
  ∧ (v = None → inc ≠ []).
Proof.
  unfold run_predicate, unanswered, predicate_fail_default, answer_verdict.
  assert (∀ o e, ¬ ∃ i, i ∈ [HookIncident.mk Predicate (PluginHook.plugin hook) (hook_failure_outcome e) o]
                       ∧ HookIncident.outcome i = "predicate_veto"%string) as Hne.
  { intros o e (i & ->%list_elem_of_singleton & Ho). cbn in Ho. unfold hook_failure_outcome in Ho.
    by destruct (plugin_failure e) as [[]|]. }
  assert (negb (bool_decide (PluginHook.on_error hook = Some "skip"%string)) = false
          ↔ PluginHook.on_error hook = Some "skip"%string) as Hskip.
  { rewrite negb_false_iff. apply bool_decide_eq_true. }
  destruct (run _ _ _ _) as [out|e].
  - destruct (predicate_verdict out) as [[]|]; intros [= <- <-]; cbn zeta; split_and?; try done.
    + split; [done|]. by intros [?|[? _]].
    + split; [by intros (? & ?%not_elem_of_nil & _)|done].
    + split; [by left|done].
    + split; [done|]. intros _. eexists. split; [left|done].
    + rewrite Hskip. naive_solver.
    + split; [|done]. by intros (i & ->%list_elem_of_singleton & Ho).
  - intros [= <- <-]. cbn zeta. split_and?; try done.
    + rewrite Hskip. naive_solver.
    + split; [|done]. intros Hx. by apply Hne in Hx.
Qed.

Lemma run_transform_spec n hook obj obj' inc :
  run_transform run n hook obj = (obj', inc) → is_Some (as_object obj) →
  same_host obj' obj
  ∧ ((∀ out, run n (PluginHook.plugin hook) (json_render obj) (PluginHook.params hook) = Ok out →
      as_object out = None) → obj' = obj ∧ inc ≠ [])
  ∧ (∀ i, i ∈ inc → HookIncident.outcome i ≠ "predicate_veto"%string).
Proof.
  intros Hr Hobj. unfold run_transform in Hr.
  assert (∀ outcome detail,
    (obj, [HookIncident.mk Transform (PluginHook.plugin hook) outcome detail]) = (obj', inc) →
    outcome ≠ "predicate_veto"%string →
    same_host obj' obj ∧ (obj' = obj ∧ inc ≠ [])
    ∧ ∀ i, i ∈ inc → HookIncident.outcome i ≠ "predicate_veto"%string) as Hkept.
  { intros outcome detail [= <- <-] Hne. split; [reflexivity|]. split; [done|].
    by intros i ->%list_elem_of_singleton. }
  destruct (run _ _ _ _) as [out|e].
  - destruct out as [| | | | |out];
      try (apply Hkept in Hr as (? & ? & ?); [by split_and?|done]).
    injection Hr as <- <-. split; [by apply restamp_same_host|]. split.
    + intros Hn. by specialize (Hn _ eq_refl).
    + by intros i ?%not_elem_of_nil.
  - apply Hkept in Hr as (? & ? & ?); [by split_and?|].
    unfold hook_failure_outcome. by destruct (plugin_failure e) as [[]|].
Qed.

Lemma hooks_keep_host n trigger obj o :
  HookVerdict.obj (apply_plugin_hooks run n trigger obj) = Some o → is_Some (as_object obj) →
  same_host o obj.
Proof.
  unfold apply_plugin_hooks. intros Ho Hobj.
  destruct (Trigger.plugin_hooks trigger) as [hooks|]; [|by injection Ho as <-].
  destruct (match TriggerPluginHooks.predicate hooks with Some _ => _ | None => _ end) as [[] gated];
    [|done]. cbn [negb] in Ho.
  destruct (TriggerPluginHooks.transform hooks) as [t|]; [|by injection Ho as <-].
  destruct (run_transform run (S n) t obj) as [obj' shaped] eqn:Et. injection Ho as <-.
  by eapply run_transform_spec in Et as [? _].
Qed.

(** Plugin hooks fail open: a hop is stopped only when its predicate answered
    [pass=false], or did not answer under [on_error: skip]; only an answered refusal is
    recorded as a veto; what goes on carries the host-owned members (lineage and work
    scope) of the original envelope whatever the transform returned, and is the original
    itself when it returned no object. *)
Theorem hooks_fail_open n trigger obj (Hobj : is_Some (as_object obj)) :
  let v := apply_plugin_hooks run n trigger obj in
  (HookVerdict.obj v = None ↔
     ∃ hook verdict, asks n trigger obj hook verdict
       ∧ (verdict = Some false
          ∨ (verdict = None ∧ PluginHook.on_error hook = Some "skip"%string)))
  ∧ ((∃ i, i ∈ HookVerdict.incidents v ∧ HookIncident.outcome i = "predicate_veto"%string) ↔
     ∃ hook, asks n trigger obj hook (Some false))
  ∧ (∀ o, HookVerdict.obj v = Some o → same_host o obj)
  ∧ (∀ o, HookVerdict.obj v = Some o →
      (∀ hook out, Trigger.plugin_hooks trigger ≫= TriggerPluginHooks.transform = Some hook →
        run (S n) (PluginHook.plugin hook) (json_render obj) (PluginHook.params hook) = Ok out →
        as_object out = None) → o = obj).
Proof.
  unfold asks, apply_plugin_hooks. cbn zeta.
  destruct (Trigger.plugin_hooks trigger) as [hooks|]; cbn.
  2: { split_and!; [naive_solver|set_solver|naive_solver|naive_solver]. }
  destruct (TriggerPluginHooks.predicate hooks) as [p|] eqn:Ep.
  - destruct (run_predicate run n p obj) as [go gated] eqn:Er.
    apply run_predicate_spec in Er as (Hgo & Hveto & _). destruct go; cbn [negb].
    + destruct (TriggerPluginHooks.transform hooks) as [t|] eqn:Et.
      * destruct (run_transform run (S n) t obj) as [obj' shaped] eqn:Etr. cbn.
        apply run_transform_spec in Etr as (Hsame & Hkeep & Hno); [|done]. split_and!.
        -- split; [done|]. intros (? & ? & (<-%(inj Some) & <-) & Hs). naive_solver.
        -- split.
           ++ intros (i & [Hi|Hi]%elem_of_app & Ho); [naive_solver|by apply Hno in Hi].
           ++ intros (? & <-%(inj Some) & Hs). apply Hveto in Hs as (i & ? & ?). exists i.
              split; [apply elem_of_app; by left|done].
        -- by intros ? [= <-].
        -- intros ? [= <-] Hn. apply Hkeep. naive_solver.
      * cbn. rewrite app_nil_r. split_and!; naive_solver.
    + cbn. split_and!; naive_solver.
  - cbn. destruct (TriggerPluginHooks.transform hooks) as [t|] eqn:Et.
    + destruct (run_transform run (S n) t obj) as [obj' shaped] eqn:Etr. cbn.
      apply run_transform_spec in Etr as (Hsame & Hkeep & Hno); [|done]. split_and!.
      * naive_solver.
      * split; [|naive_solver]. intros (i & Hi & Ho). by apply Hno in Hi.
      * by intros ? [= <-].
      * intros ? [= <-] Hn. apply Hkeep. naive_solver.
    + cbn. split_and!; [naive_solver|set_solver|naive_solver|naive_solver].
Qed.
End hooks.

(** ** Bindings *)

(** The reserved name is never bound: what the create door guarantees. *)
Definition binds_safely (trigger : Trigger.t) : Prop :=
  BIND_RESERVED_PARAM ∉ map_keys (default [] (Trigger.bind trigger)).

Section plans.
Context `{JsonPointer}.

Lemma resolve_bind_Ok merged b r :
  resolve_bind merged b = Ok r →
  fst r = fst b ∧ json_pointer (default EmptyString (as_str (snd b))) merged = Some (snd r).
Proof.
  unfold resolve_bind. destruct (json_pointer _ merged) as [v|] eqn:E; [|done].
  by intros [= <-].
Qed.

(** Each bound param is what its pointer reads in the view built before any binding; every
    other member is the view's. *)
Lemma bind_params_spec template obj bind p :
  bind_params template obj bind = Ok p →
  NoDup (map_keys (default [] bind)) →
  (∀ k ptr, (k, ptr) ∈ default [] bind →
    json_get k p = json_pointer (default EmptyString (as_str ptr)) (merged_params template obj))
  ∧ (∀ k, k ∉ map_keys (default [] bind) → json_get k p = json_get k (merged_params template obj)).
Proof.
  intros Hb Hnd. destruct bind as [[|b bs]|]; cbn [default] in *;
    [injection Hb as <-; set_solver| |injection Hb as <-; set_solver].
  unfold bind_params in Hb. set (l := b :: bs) in *.
  destruct (collect_ok _ l) as [rs|] eqn:Ec; [|done].
  apply collect_ok_Forall2 in Ec.
  assert (map_keys rs = map_keys l) as Hkeys.
  { clear Hb Hnd. induction Ec as [|x y l' rs' Hxy Hall IH]; [done|].
    apply resolve_bind_Ok in Hxy as [Hx _]. unfold map_keys in *. cbn. by rewrite Hx, IH. }
  unfold merged_params in Hb at 2. injection Hb as <-. split.
  - intros k ptr Hin. apply list_elem_of_lookup in Hin as [i Hi].
    destruct (Forall2_lookup_l _ _ _ _ _ Ec Hi) as ([k' v] & Hr & Hok).
    apply resolve_bind_Ok in Hok as [Hk Hv]. cbn in Hk, Hv. subst k'. rewrite Hv.
    cbn [json_get]. apply map_get_foldl_insert_in; [by rewrite Hkeys|].
    by eapply list_elem_of_lookup_2.
  - intros k Hk. cbn [json_get merged_params]. rewrite map_get_foldl_insert; [done|].
    by rewrite Hkeys.
Qed.

Lemma bind_params_trigger template obj bind p :
  bind_params template obj bind = Ok p →
  BIND_RESERVED_PARAM ∉ map_keys (default [] bind) → json_get "_trigger" p = Some obj.
Proof.
  intros Hb Hr. destruct bind as [[|b bs]|]; cbn [default] in *;
    [injection Hb as <-; apply merged_trigger| |injection Hb as <-; apply merged_trigger].
  unfold bind_params in Hb. set (l := b :: bs) in *.
  destruct (collect_ok _ l) as [rs|] eqn:Ec; [|done].
  apply collect_ok_Forall2 in Ec.
  assert (map_keys rs = map_keys l) as Hkeys.
  { clear Hb Hr. induction Ec as [|x y l' rs' Hxy Hall IH]; [done|].
    apply resolve_bind_Ok in Hxy as [Hx _]. unfold map_keys in *. cbn. by rewrite Hx, IH. }
  unfold merged_params in Hb at 2. injection Hb as <-. cbn [json_get].
  rewrite map_get_foldl_insert by (by rewrite Hkeys). apply merged_trigger.
Qed.

(** ** Plans *)

Lemma fan_out_members obj item i total tr :
  let e := fan_out_obj obj item i total tr in
  same_host e obj ∧ json_get "item" e = Some item ∧ json_get "item_index" e = Some (JNat i)
  ∧ json_get "fan_out_total" e = Some (JNat total)
  ∧ json_get "fan_out_truncated" e = Some (JBool tr).
Proof.
  cbn zeta. unfold fan_out_obj. split.
  - intros k Hk. rewrite !json_get_insert. cbn [json_get]. rewrite json_get_object.
    unfold HOST_OWNED_KEYS in Hk. repeat (apply elem_of_cons in Hk as [->|Hk]; [done|]).
    by apply not_elem_of_nil in Hk.
  - rewrite !json_get_insert. done.
Qed.

Lemma plan_hops_single trigger obj cfg hops :
  plan_hops trigger obj cfg = Ok hops →
  Trigger.each trigger = None ∨ Trigger.each trigger = Some EmptyString →
  ∃ p, hops = [Hop.mk p None]
       ∧ bind_params (Trigger.params trigger) obj (Trigger.bind trigger) = Ok p.
Proof.
  unfold plan_hops. intros Hp [He|He]; rewrite He in Hp;
    (destruct (bind_params _ _ _) as [p|] eqn:E; cbn in Hp; [|done]);
    injection Hp as <-; eauto.
Qed.

Lemma plan_hops_each trigger obj cfg hops each :
  plan_hops trigger obj cfg = Ok hops → Trigger.each trigger = Some each → each ≠ ""%string →
  ∃ items,
    json_pointer each (merged_params (Trigger.params trigger) obj) = Some (JArray items)
    ∧ length hops = (TriggersConfig.fan_out_cap cfg `min` length items)%nat
    ∧ ∀ i hop, hops !! i = Some hop → ∃ item,
        items !! i = Some item ∧ Hop.index hop = Some i
        ∧ bind_params (Trigger.params trigger)
            (fan_out_obj obj item i (length items)
               (bool_decide (TriggersConfig.fan_out_cap cfg < length items)%nat))
            (Trigger.bind trigger) = Ok (Hop.params hop).
Proof.
  unfold plan_hops. intros Hp He Hne. rewrite He in Hp. destruct each as [|a each]; [done|].
  destruct (json_pointer _ _) as [v|] eqn:Ev; [|done].
  destruct v as [| | | |items|]; try done. cbn [as_array] in Hp.
  exists items. split; [done|]. apply collect_ok_Forall2 in Hp. split.
  - apply Forall2_length in Hp. rewrite length_imap, length_take in Hp. lia.
  - intros i hop Hi. destruct (Forall2_lookup_r _ _ _ _ _ Hp Hi) as ([j item] & Hx & Hok).
    rewrite list_lookup_imap in Hx. apply fmap_Some in Hx as (item' & Ht & [= -> ->]).
    apply lookup_take_Some in Ht as [Ht Hlt]. exists item'. split; [done|].
    destruct (bind_params _ _ _) as [p|] eqn:Eb; cbn in Hok; [|done].
    by injection Hok as <-.
Qed.

(** Every hop of a plan carries the host-owned members of its event's envelope. *)
Lemma plan_hops_host trigger obj cfg hops hop :
  plan_hops trigger obj cfg = Ok hops → binds_safely trigger → hop ∈ hops →
  ∃ e, json_get "_trigger" (Hop.params hop) = Some e ∧ same_host e obj.
Proof.
  intros Hp Hs Hin. destruct (Trigger.each trigger) as [each|] eqn:Ee.
  - destruct (base.decide (each = EmptyString)) as [->|Hne].
    + apply plan_hops_single in Hp as (p & -> & Hb); [|by right].
      apply list_elem_of_singleton in Hin as ->. exists obj. split; [|reflexivity].
      by eapply bind_params_trigger.
    + eapply plan_hops_each in Hp as (items & _ & _ & Hh); [|done|done].
      apply list_elem_of_lookup in Hin as [i Hi]. apply Hh in Hi as (item & _ & _ & Hb).
      eexists. split; [by eapply bind_params_trigger|]. apply fan_out_members.
  - apply plan_hops_single in Hp as (p & -> & Hb); [|by left].
    apply list_elem_of_singleton in Hin as ->. exists obj. split; [|reflexivity].
    by eapply bind_params_trigger.
Qed.

(** A fan-out plans one hop per element up to the cap, in order: each hop's envelope
    carries its element, its index, the exact total and whether the cap cut the list, over
    the host-owned members of the event; and each bound param is what its pointer reads in
    that hop's view, whatever the other bindings are. *)
Theorem fan_out_plans_every_element trigger obj cfg hops each
    (Hplan : plan_hops trigger obj cfg = Ok hops)
    (Heach : Trigger.each trigger = Some each) (Hne : each ≠ ""%string)
    (Hsafe : binds_safely trigger) (Hnd : NoDup (map_keys (default [] (Trigger.bind trigger)))) :
  ∃ items,
    json_pointer each (merged_params (Trigger.params trigger) obj) = Some (JArray items)
    ∧ length hops = (TriggersConfig.fan_out_cap cfg `min` length items)%nat
    ∧ ∀ i hop, hops !! i = Some hop → ∃ item e,
        items !! i = Some item ∧ Hop.index hop = Some i
        ∧ Hop.trigger_obj hop = e ∧ same_host e obj
        ∧ json_get "item" e = Some item ∧ json_get "item_index" e = Some (JNat i)
        ∧ json_get "fan_out_total" e = Some (JNat (length items))
        ∧ json_get "fan_out_truncated" e
          = Some (JBool (bool_decide (TriggersConfig.fan_out_cap cfg < length items)%nat))
        ∧ ∀ k ptr, (k, ptr) ∈ default [] (Trigger.bind trigger) →
            json_get k (Hop.params hop)
            = json_pointer (default EmptyString (as_str ptr))
                (merged_params (Trigger.params trigger) e).
Proof.
  eapply plan_hops_each in Hplan as (items & Hptr & Hlen & Hh); [|done|done].
  exists items. split_and!; [done|done|]. intros i hop Hi.
  apply Hh in Hi as (item & Hitem & Hidx & Hb). exists item.
  eexists (fan_out_obj obj item i (length items) _).
  assert (json_get "_trigger" (Hop.params hop) = Some _) as He by (by eapply bind_params_trigger).
  pose proof (fan_out_members obj item i (length items)
    (bool_decide (TriggersConfig.fan_out_cap cfg < length items)%nat)) as (? & ? & ? & ? & ?).
  split_and!; [done|done| |done..|].
  - unfold Hop.trigger_obj. by rewrite He.
  - by eapply bind_params_spec in Hb as [Hb _].
Qed.
End plans.

(** ** Keys *)

Definition without (c : Ascii.ascii) (s : string) : Prop :=
  all_chars (λ a, negb (Ascii.eqb c a)) s = true.

Lemma split_at c l r l' r' :
  without c l → without c l' →
  (l +:+ String c r = l' +:+ String c r')%string → l = l' ∧ r = r'.
Proof.
  intros Hl Hl' He.
  pose proof (split_once_app c EmptyString l r Hl) as H1.
  pose proof (split_once_app c EmptyString l' r' Hl') as H2.
  change (String c EmptyString +:+ r)%string with (String c r) in H1.
  change (String c EmptyString +:+ r')%string with (String c r') in H2.
  rewrite He, H2 in H1. by injection H1 as -> ->.
Qed.

Lemma pretty_N_go_plain x s : without ":" s → without ":" (pretty_N_go x s).
Proof.
  revert s. induction (N.lt_wf_0 x) as [x _ IH]; intros s Hs.
  destruct (base.decide (x = 0)%N) as [->|Hx]; [by rewrite pretty_N_go_0|].
  rewrite pretty_N_go_step by lia. apply IH; [apply N.div_lt; lia|].
  unfold without. cbn [all_chars]. apply andb_true_iff. split; [|done].
  assert (x `mod` 10 < 10)%N as Hd by (by apply N.mod_lt).
  assert (∃ d, d ∈ seq 0 10 ∧ (x `mod` 10)%N = N.of_nat d) as (d & Hin & ->).
  { generalize dependent (x `mod` 10)%N. intros d Hd. exists (N.to_nat d).
    rewrite elem_of_seq. lia. }
  cbn [seq] in Hin. repeat (apply elem_of_cons in Hin as [->|Hin]; [done|]).
  by apply not_elem_of_nil in Hin.
Qed.
Lemma pretty_nat_plain (n : nat) : without ":" (pretty n).
Proof.
  unfold pretty, pretty_nat, pretty, pretty_N. case_match; [done|]. by apply pretty_N_go_plain.
Qed.

Lemma fan_out_key_inj b b' i i' :
  fan_out_idempotency_key b i = fan_out_idempotency_key b' i' → b = b' ∧ i = i'.
Proof.
  unfold fan_out_idempotency_key. intros He%(f_equal String.rev).
  rewrite !string_rev_append, !string_append_assoc in He.
  change (String.rev ":i:") with (String ":"%char "i:") in He.
  assert (∀ n : nat, without ":" (String.rev (pretty n))) as Hp.
  { intros n. unfold without. rewrite all_chars_rev. apply pretty_nat_plain. }
  apply (split_at ":"%char _ ("i:" +:+ String.rev b)%string _ ("i:" +:+ String.rev b')%string)
    in He as [Hi Hb]; [|done|done].
  split.
  - injection Hb as Hb. rewrite <- (string_rev_rev b), <- (string_rev_rev b'). by f_equal.
  - apply (inj pretty). rewrite <- (string_rev_rev (pretty i)), <- (string_rev_rev (pretty i')).
    by f_equal.
Qed.

(** The key of a dataset hop identifies it: with ids free of colons and namespaces free
    of slashes, two hops of equal keys are the hop of one trigger, source job, batch,
    namespace, dataset and element. *)
Theorem hop_keys_identify_the_hop t s b app ds i t' s' b' app' ds' i'
    (Ht : without ":" t ∧ without ":" t') (Hs : without ":" s ∧ without ":" s')
    (Hb : ∀ id, b = View id ∨ b' = View id → without ":" id)
    (Ha : without "/" app ∧ without "/" app')
    (Hi : is_some i = is_some i')
    (Hkey : hop_idempotency_key (dataset_idempotency_key t s b app ds) i
            = hop_idempotency_key (dataset_idempotency_key t' s' b' app' ds') i') :
  t = t' ∧ s = s' ∧ b = b' ∧ app = app' ∧ ds = ds' ∧ i = i'.
Proof.
  assert (dataset_idempotency_key t s b app ds = dataset_idempotency_key t' s' b' app' ds' ∧ i = i')
    as [He ->].
  { destruct i as [i|], i' as [i'|]; try done. by apply fan_out_key_inj in Hkey as [-> ->]. }
  clear Hkey Hi. destruct Ht as [Ht Ht'], Hs as [Hs Hs'], Ha as [Ha Ha'].
  unfold dataset_idempotency_key, idempotency_key in He. rewrite !string_append_assoc in He.
  change ("trig:" +:+ ?x)%string with (String "t" (String "r" (String "i" (String "g" (String ":" x)))))
    in He. injection He as He.
  assert (∀ b x, (key_scope b +:+ ":ds:" +:+ x)%string
     = String ":" (match b with
                   | Run => "ds" +:+ String ":" x
                   | View id => "view" +:+ String ":" (id +:+ String ":" ("ds:" +:+ x))
                   end)%string) as Hrest.
  { intros [|id] x; [done|]. cbn [key_scope]. by rewrite string_append_assoc. }
  rewrite !Hrest in He.
  apply split_at in He as [-> He]; [|done|done]. apply split_at in He as [-> He]; [|done|done].
  assert (b = b' ∧ (app +:+ "/" +:+ ds = app' +:+ "/" +:+ ds')%string) as [-> Hx].
  { destruct b as [|v], b' as [|v']; apply split_at in He as [Htag He]; try done.
    apply split_at in He as [-> He]; [|by apply Hb; left|by apply Hb; right].
    by injection He as He. }
  by apply split_at in Hx as [-> ->].
Qed.

(** ** The door *)

Lemma collect_ok_tt {A} (f : A → result DoorError unit) l u :
  collect_ok f l = Ok u → ∀ x, x ∈ l → f x = Ok tt.
Proof.
  intros Hc%collect_ok_Forall2 x Hx. apply list_elem_of_lookup in Hx as [i Hi].
  destruct (Forall2_lookup_l _ _ _ _ _ Hc Hi) as ([] & _ & Hf). done.
Qed.

Lemma validate_binding_Ok bind each u :
  validate_binding bind each = Ok u →
  (∀ k v, (k, v) ∈ default [] bind →
    k ≠ BIND_RESERVED_PARAM ∧ ∃ p, v = JString p ∧ valid_pointer p = true)
  ∧ (∀ p, nonempty_text each = Some p → valid_pointer p = true).
Proof.
  unfold validate_binding. intros Hv.
  destruct (collect_ok _ _) as [us|] eqn:Ec; cbn in Hv; [|done]. split.
  - intros k v Hin. pose proof (collect_ok_tt _ _ _ Ec _ Hin) as He. unfold validate_bind_entry in He.
    cbn [fst snd] in He. destruct (String.eqb_spec k BIND_RESERVED_PARAM) as [|Hne]; [done|].
    split; [done|]. destruct v as [| | |p| |]; try done. cbn in He. exists p.
    by destruct (valid_pointer p).
  - destruct each as [[|a p]|]; cbn [nonempty_text]; [done| |done].
    intros p' [= <-]. by destruct (valid_pointer (String a p)).
Qed.

(** A trigger the create door accepts can always be evaluated: its filters parse, no
    binding touches the envelope, every pointer is one, a job trigger does not fan out, and
    its attempts and budget are within bounds. *)
Theorem accepted_triggers_evaluate registered body new id now
    (Hdoor : create_trigger_door registered body = Ok new) :
  let row := trigger_row id now new in
  registered (Trigger.target_app row) = true
  ∧ is_some (EvalTrigger.filters (EvalTrigger.new row)) = true
  ∧ binds_safely row
  ∧ (∀ k v, (k, v) ∈ default [] (Trigger.bind row) → ∃ p, v = JString p ∧ valid_pointer p = true)
  ∧ (∀ p, Trigger.each row = Some p →
      p ≠ ""%string ∧ valid_pointer p = true ∧ Trigger.source_kind row ≠ "job"%string)
  ∧ 1 ≤ Trigger.max_attempts row ≤ MAX_ATTEMPTS_CAP
  ∧ (∀ b, Trigger.budget_usd row = Some b → is_finite b = true ∧ f64_gt b f64_zero = true).
Proof.
  unfold create_trigger_door in Hdoor.
  destruct (registered _) eqn:Ereg; cbn [negb] in Hdoor; [|done].
  destruct (kind_fields body) as [[[ds oc] os]|] eqn:Ek; cbn in Hdoor; [|done].
  destruct (door_filters body) as [fs|] eqn:Ef; cbn in Hdoor; [|done].
  destruct (door_hooks _) as [hooks|]; cbn in Hdoor; [|done].
  destruct (validate_binding _ _) as [[]|] eqn:Eb; cbn in Hdoor; [|done].
  apply validate_binding_Ok in Eb as [Hbind Heach].
  destruct (is_some (nonempty_text _) && _) eqn:Ej; [done|].
  destruct (validate_budget_usd _) as [budget|] eqn:Ebu; cbn in Hdoor; [|done].
  injection Hdoor as <-. cbn zeta. unfold trigger_row. cbn.
  assert (∀ b, default [] (nonempty_map (nonempty_map b)) = default [] b) as Hmap
    by (by intros [[|? ?]|]).
  split_and!.
  - done.
  - unfold EvalTrigger.new. cbn. unfold door_filters in Ef.
    destruct (CreateTriggerBody.filters body) as [[|f l]|]; [by injection Ef as <-| |by injection Ef as <-].
    destruct (negb _); [done|]. destruct (parse_filters (f :: l)) eqn:Ep; [|done].
    injection Ef as <-. cbn [stored_filters]. by rewrite Ep.
  - unfold binds_safely. cbn. rewrite Hmap. intros Hin. apply list_elem_of_fmap in Hin as ([k v] & Hk & Hin).
    apply Hbind in Hin as [Hne _]. by subst.
  - rewrite Hmap. intros k v Hin. by apply Hbind in Hin as [_ ?].
  - intros p Hp. pose proof (Heach p Hp) as Hv. rewrite Hp in Ej. cbn in Ej.
    split; [|split; [done|by apply String.eqb_neq]].
    destruct (CreateTriggerBody.each body) as [[|a e]|]; try done. cbn in Hp. by injection Hp as <-.
  - unfold MAX_ATTEMPTS_CAP. lia.
  - unfold MAX_ATTEMPTS_CAP. lia.
  - intros b ->. unfold validate_budget_usd in Ebu.
    destruct (CreateTriggerBody.budget_usd body) as [b'|]; [|done].
    destruct (is_finite b' && f64_gt b' f64_zero) eqn:E; [|done]. injection Ebu as <-.
    by apply andb_true_iff in E.
Qed.

(** ** Concrete inputs *)

Module HopDemo.
#[local] Instance render : JsonRender := λ _, ""%string.
(** Pointers of one segment. *)
#[local] Instance pointer : JsonPointer := λ p v,
  match p with
  | EmptyString => Some v
  | String _ k => json_get k v
  end.
Definition hooked (on_error : option string) : Trigger.t :=
  Trigger.mk "t1" None "external" "ci" None None None "extractor"
    (JObject [("rows", JArray [JUint 1; JUint 2; JUint 3])]%string) None 0 1 true 0 None
    (Some (TriggerPluginHooks.mk (Some (PluginHook.mk "gate" (JObject []) on_error)) None None))
    (Some [("envelope", JString "/_trigger")]%string) (Some "/rows"%string).
Definition crash (n : nat) (plugin input : string) (params : Json) : result Error Json :=
  Err (Plugin "gate" Trap "unreachable").
Definition envelope : Json := external_trigger_obj (hooked None) "ci" "CI" "e1" JNull 1 ["t1"%string].
Definition cfg : TriggersConfig.t := TriggersConfig.mk 8 200 2.

Lemma hooks_fail_open_witness :
  HookVerdict.obj (apply_plugin_hooks crash 0 (hooked None) envelope) = Some envelope
  ∧ HookVerdict.obj (apply_plugin_hooks crash 0 (hooked (Some "skip"%string)) envelope) = None.
Proof.
  assert (∀ oe, is_Some (as_object envelope) ∧ oe = oe :> option string) as Hobj
    by (intros; split; [by eexists|done]).
  split; [vm_compute; reflexivity|].
  apply (hooks_fail_open crash 0 (hooked (Some "skip"%string)) envelope (proj1 (Hobj None))).
  exists (PluginHook.mk "gate" (JObject []) (Some "skip"%string)), None. repeat split. by right.
Defined.

Lemma fan_out_plans_every_element_witness :
  ∃ hops items, plan_hops (hooked None) envelope cfg = Ok hops
    ∧ json_pointer "/rows" (merged_params (Trigger.params (hooked None)) envelope) = Some (JArray items)
    ∧ length items = 3%nat ∧ length hops = 2%nat.
Proof.
  destruct (plan_hops (hooked None) envelope cfg) as [hops|m] eqn:E; [|vm_compute in E; discriminate].
  destruct (fan_out_plans_every_element (hooked None) envelope cfg hops "/rows" E eq_refl)
    as (items & Hp & Hl & _).
  - discriminate.
  - unfold binds_safely. vm_compute. intros Hx. inversion Hx as [|? ? ? Hy]; subst. inversion Hy.
  - vm_compute. constructor; [|constructor]. intros Hx. inversion Hx.
  - exists hops, items. split; [reflexivity|]. split; [exact Hp|].
    assert (length items = 3%nat) as Hi by (vm_compute in Hp; injection Hp as <-; reflexivity).
    split; [exact Hi|]. rewrite Hl, Hi. reflexivity.
Defined.

Lemma hop_keys_identify_the_hop_witness :
  hop_idempotency_key (dataset_idempotency_key "t1" "j1" Run "grants" "unified") (Some 1%nat)
    = "trig:t1:j1:ds:grants/unified:i:1"%string
  ∧ hop_idempotency_key (dataset_idempotency_key "t1" "j1" (View "v") "grants" "unified") (Some 1%nat)
    ≠ hop_idempotency_key (dataset_idempotency_key "t1" "j1" Run "grants" "unified") (Some 1%nat).
Proof.
  split; [vm_compute; reflexivity|]. intros Hk.
  destruct (hop_keys_identify_the_hop "t1" "j1" (View "v") "grants" "unified" (Some 1%nat)
    "t1" "j1" Run "grants" "unified" (Some 1%nat)) as (_ & _ & Hb & _);
    [by split|by split| |by split|done|exact Hk|discriminate].
  by intros id [[= <-]|?].
Defined.

Definition body : CreateTriggerBody.t :=
  CreateTriggerBody.mk None "external" "ci" None None None "extractor" None None None (Some 50)
    (Some ["$.action:eq:opened"]%string) None (Some [("url", JString "/_trigger/payload/url")]%string)
    (Some "/_trigger/payload/commits"%string).
Lemma accepted_triggers_evaluate_witness :
  ∃ new, create_trigger_door (λ _, true) body = Ok new
    ∧ is_some (EvalTrigger.filters (EvalTrigger.new (trigger_row "t2" 0 new))) = true
    ∧ binds_safely (trigger_row "t2" 0 new).
Proof.
  destruct (create_trigger_door (λ _, true) body) as [new|e] eqn:E; [|vm_compute in E; discriminate].
  exists new. split; [reflexivity|].
  destruct (accepted_triggers_evaluate (λ _, true) body new "t2" 0 E) as (_ & Hf & Hb & _).
  split; [exact Hf|exact Hb].
Defined.
End HopDemo.
