(* ===== verification/TriggerTheorems.v ===== *)
(** * TriggerTheorems: what firing an event does

    Every step of a firing appends jobs and ledger rows and nothing else
    ([effect]); from it: provenance grows along every chain and stays bounded, every
    edge of an event leaves a row, and the evaluation cache never serves a stale set. *)

From stdpp Require Import gmap strings pretty.
From S2P Require Import Prelude Sql Float64 Json Errors Jobs JobQueue QueueInvariants QueueTheorems.
From S2P Require Import WorkflowEngine Filters Records Triggers TriggerFire HopTheorems.

#[local] Arguments lookup_by : simpl never.
#[local] Arguments map_get : simpl never.
#[local] Arguments select_where : simpl never.
#[local] Arguments cache_put : simpl never.

(** ** Effects *)

(** Every entry of the current generation is the evaluation set of the current table. *)
Definition coherent (w : Trig.t) : Prop :=
  ∀ s entry, Trig.cache w !! scope_key s = Some entry →
    CacheEntry.generation entry = Trig.generation w →
    CacheEntry.set entry = prepare s (Trig.triggers w).

Definition ledger_fresh (new_run_id : nat → string) (w : Trig.t) : Prop :=
  ∀ n, (Trig.drawn w ≤ n)%nat → new_run_id n ∉ map TriggerRun.id (Trig.runs w).

Definition is_fired (r : NewTriggerRun.t) : bool := String.eqb (NewTriggerRun.outcome r) "fired".
Definition fired_rows (rows : list NewTriggerRun.t) : nat := length (List.filter is_fired rows).

Lemma fired_rows_app l1 l2 : fired_rows (l1 ++ l2) = (fired_rows l1 + fired_rows l2)%nat.
Proof. unfold fired_rows. by rewrite List.filter_app, length_app. Qed.

Section effects.
Context (new_run_id : nat → string) {Hinj : Inj (=) (=) new_run_id}.

(** From [w] to [w'], the jobs [P] describes and the ledger rows [rows] are appended; as
    many rows say [fired] as there are new jobs. *)
Record effect (P : Job.t → Prop) (w : Trig.t) (rows : list NewTriggerRun.t) (w' : Trig.t) : Prop := {
  eff_jobs : ∃ new, Trig.jobs w' = Trig.jobs w ++ new ∧ length new = fired_rows rows ∧ Forall P new;
  eff_rows : map TriggerRun.run (Trig.runs w') = map TriggerRun.run (Trig.runs w) ++ rows;
  eff_fresh : ledger_fresh new_run_id w';
  eff_table : Trig.triggers w' = Trig.triggers w;
  eff_coherent : coherent w → coherent w';
  eff_reported : Trig.reported w ⊆ Trig.reported w';
}.

Lemma effect_refl P w : ledger_fresh new_run_id w → effect P w [] w.
Proof. split; [exists []; by rewrite app_nil_r|by rewrite app_nil_r|done..]. Qed.

Lemma effect_trans P w1 rows1 w2 rows2 w3 :
  effect P w1 rows1 w2 → effect P w2 rows2 w3 → effect P w1 (rows1 ++ rows2) w3.
Proof.
  intros [(n1 & J1 & L1 & F1) R1 F T1 C1 S1] [(n2 & J2 & L2 & F2) R2 F' T2 C2 S2]. split.
  - exists (n1 ++ n2). rewrite J2, J1, app_assoc, length_app, fired_rows_app, L1, L2.
    split_and!; [done|done|by apply Forall_app].
  - by rewrite R2, R1, app_assoc.
  - done.
  - by rewrite T2, T1.
  - auto.
  - by transitivity (Trig.reported w2).
Qed.

Lemma effect_weaken (P Q : Job.t → Prop) w rows w' :
  (∀ j, P j → Q j) → effect P w rows w' → effect Q w rows w'.
Proof.
  intros HPQ [(n & J & L & F) R F' T C S]. split; try done. exists n. split_and!; [done|done|].
  by eapply Forall_impl.
Qed.

(** Writes outside the tables of the ledger and the jobs. *)
Lemma effect_aside P w w' :
  Trig.jobs w' = Trig.jobs w → Trig.runs w' = Trig.runs w → Trig.triggers w' = Trig.triggers w →
  Trig.generation w' = Trig.generation w → Trig.cache w' = Trig.cache w →
  Trig.reported w ⊆ Trig.reported w' → (Trig.drawn w ≤ Trig.drawn w')%nat →
  ledger_fresh new_run_id w → effect P w [] w'.
Proof.
  intros J R T G C S D F. split.
  - exists []. by rewrite app_nil_r.
  - by rewrite R, app_nil_r.
  - intros n Hn. rewrite R. apply F. lia.
  - done.
  - unfold coherent. by rewrite T, G, C.
  - done.
Qed.

Lemma effect_record P now run w :
  ledger_fresh new_run_id w → is_fired run = false →
  effect P w [run] (record_run new_run_id now run w).
Proof.
  intros F Hf. unfold record_run, record_trigger_run.
  assert (lookup_by TriggerRun.id (new_run_id (Trig.drawn w)) (Trig.runs w) = None) as ->
    by (by apply lookup_by_None, F).
  cbn. split; try done.
  - exists []. rewrite app_nil_r. unfold fired_rows. cbn. by rewrite Hf.
  - cbn. by rewrite map_app.
  - intros n Hn. cbn in *. rewrite map_app. cbn. rewrite elem_of_app, list_elem_of_singleton.
    intros [Hx|Hx]; [|apply (inj new_run_id) in Hx; lia]. revert Hx. apply F. lia.
Qed.

(** One new job and its [fired] row. *)
Lemma effect_fire (P : Job.t → Prop) now run job w :
  ledger_fresh new_run_id w → is_fired run = true → P job →
  effect P w [run] (record_run new_run_id now run (w <| Trig.jobs ::= λ t, t ++ [job] |>)).
Proof.
  intros F Hf HP. unfold record_run, record_trigger_run. cbn.
  assert (lookup_by TriggerRun.id (new_run_id (Trig.drawn w)) (Trig.runs w) = None) as ->
    by (by apply lookup_by_None, F).
  cbn. split; try done.
  - exists [job]. unfold fired_rows. cbn. rewrite Hf. split_and!; [done|done|by constructor].
  - cbn. by rewrite map_app.
  - intros n Hn. cbn in *. rewrite map_app. cbn. rewrite elem_of_app, list_elem_of_singleton.
    intros [Hx|Hx]; [|apply (inj new_run_id) in Hx; lia]. revert Hx. apply F. lia.
Qed.

(** ** Evaluation sets *)

Lemma scope_key_inj s s' : scope_key s = scope_key s' → s = s'.
Proof. by destruct s, s'; intros [= ->]. Qed.

Lemma cache_put_lookup k k' g set c entry :
  cache_put k g set c !! k' = Some entry →
  (k = k' ∧ entry = CacheEntry.mk g set) ∨ c !! k' = Some entry.
Proof.
  unfold cache_put.
  assert (<[k:=CacheEntry.mk g set]> c !! k' = Some entry →
          (k = k' ∧ entry = CacheEntry.mk g set) ∨ c !! k' = Some entry) as Hins.
  { rewrite lookup_insert_Some. intros [[-> <-]|[_ H]]; auto. }
  destruct (c !! k) as [old|]; [destruct (_ <? _)|]; auto.
Qed.

Lemma eval_set_effect P load_error s w w' r :
  ledger_fresh new_run_id w → eval_set load_error s w = (w', r) →
  effect P w [] w'
  ∧ (coherent w → match r with
                  | Ok set => set = prepare s (Trig.triggers w)
                  | Err e => load_error s = Some e
                  end).
Proof.
  intros F. unfold eval_set.
  destruct (cache_get _ _ _) as [hit|] eqn:Eg.
  - intros [= <- <-]. split; [by apply effect_refl|]. intros Hc. unfold cache_get in Eg.
    destruct (Trig.cache w !! scope_key s) as [entry|] eqn:El; cbn in Eg; [|done].
    destruct (CacheEntry.generation entry =? Trig.generation w) eqn:Eq; [|done].
    injection Eg as <-. apply Z.eqb_eq in Eq. by apply (Hc s entry).
  - destruct (load_error s) as [e|]; intros [= <- <-].
    + split; [|done]. apply effect_aside; cbn; try done; lia.
    + split; [|done]. split; try done.
      * exists []. by rewrite app_nil_r.
      * by rewrite app_nil_r.
      * intros Hc s' entry Hl Hg. cbn in *. apply cache_put_lookup in Hl as [[Hk ->]|Hl].
        -- by apply scope_key_inj in Hk as ->.
        -- by apply (Hc s' entry).
Qed.
End effects.

(** ** Hooks *)

Definition fault_key (trigger_id plugin outcome : string) : string :=
  (trigger_id +:+ "|" +:+ plugin +:+ "|" +:+ outcome)%string.

(** The predicate of [trigger] is a deployment fault already in the ledger, and its
    policy stops the hop. *)
Definition silenced (trigger : Trigger.t) (w : Trig.t) : Prop :=
  ∃ hook outcome,
    (Trigger.plugin_hooks trigger ≫= TriggerPluginHooks.predicate) = Some hook
    ∧ PluginHook.on_error hook = Some "skip"%string ∧ is_static_hook_fact outcome = true
    ∧ fault_key (Trigger.id trigger) (PluginHook.plugin hook) outcome ∈ Trig.reported w.

(** What a job owes to the trigger and envelope that fired it. *)
Definition hop_of (trigger : Trigger.t) (obj : Json) (j : Job.t) : Prop :=
  Job.trigger_id j = Some (Trigger.id trigger)
  ∧ (binds_safely trigger → ∃ e, json_get "_trigger" (Job.params j) = Some e ∧ same_host e obj).

Lemma failure_outcome_not_fired e : hook_failure_outcome e ≠ "fired"%string.
Proof. unfold hook_failure_outcome. by destruct (plugin_failure e) as [[]|]. Qed.

Section firing.
Context `{JsonRender, Unicode, JsonPointer, UuidText}.
Context (registry : string → option App) (validate_params : Json → Json → option string)
  (run_plugin : nat → string → string → Json → result Error Json)
  (load_error : EvalScope → option Error)
  (new_v4 : nat → Uuid) (new_run_id : nat → string) (cfg : TriggersConfig.t) (now : timestamp).
Context {Hinj : Inj (=) (=) new_run_id}.

Abbreviation effect := (effect new_run_id).
Abbreviation fresh := (ledger_fresh new_run_id).
Abbreviation rows_of id ctx :=
  (Forall (λ r, NewTriggerRun.trigger_id r = id ∧ NewTriggerRun.dataset r = Ctx.dataset ctx)).

Lemma incident_not_fired n trigger obj i :
  i ∈ HookVerdict.incidents (apply_plugin_hooks run_plugin n trigger obj) →
  HookIncident.outcome i ≠ "fired"%string.
Proof.
  unfold apply_plugin_hooks. destruct (Trigger.plugin_hooks trigger) as [hooks|]; cbn; [|set_solver].
  assert (∀ p go inc, run_predicate run_plugin n p obj = (go, inc) →
            ∀ i, i ∈ inc → HookIncident.outcome i ≠ "fired"%string) as Hp.
  { intros p go inc. unfold run_predicate, unanswered. repeat case_match; intros [= <- <-] i';
      try set_solver; intros ->%list_elem_of_singleton; cbn; try done;
      apply failure_outcome_not_fired. }
  assert (∀ t obj' inc, run_transform run_plugin (S n) t obj = (obj', inc) →
            ∀ i, i ∈ inc → HookIncident.outcome i ≠ "fired"%string) as Ht.
  { intros t obj' inc. unfold run_transform. repeat case_match; intros [= <- <-] i';
      try set_solver; intros ->%list_elem_of_singleton; cbn; try done;
      apply failure_outcome_not_fired. }
  destruct (TriggerPluginHooks.predicate hooks) as [p|].
  - destruct (run_predicate _ _ _ _) as [go gated] eqn:Ep. destruct go; cbn; [|by eapply Hp].
    destruct (TriggerPluginHooks.transform hooks) as [t|].
    + destruct (run_transform _ _ _ _) as [obj' shaped] eqn:Et. cbn.
      intros [Hi|Hi]%elem_of_app; [by eapply Hp|by eapply Ht].
    + cbn. rewrite app_nil_r. by eapply Hp.
  - cbn. destruct (TriggerPluginHooks.transform hooks) as [t|].
    + destruct (run_transform _ _ _ _) as [obj' shaped] eqn:Et. cbn. by eapply Ht.
    + set_solver.
Qed.

(** A stopped hop has an incident of its predicate; one that is a deployment fault is of a
    predicate whose policy is to skip. *)
Lemma stopped_incident n trigger obj :
  HookVerdict.obj (apply_plugin_hooks run_plugin n trigger obj) = None →
  ∃ hook i, (Trigger.plugin_hooks trigger ≫= TriggerPluginHooks.predicate) = Some hook
    ∧ i ∈ HookVerdict.incidents (apply_plugin_hooks run_plugin n trigger obj)
    ∧ HookIncident.plugin i = PluginHook.plugin hook
    ∧ (is_static_hook_fact (HookIncident.outcome i) = true →
       PluginHook.on_error hook = Some "skip"%string).
Proof.
  unfold apply_plugin_hooks. destruct (Trigger.plugin_hooks trigger) as [hooks|]; [|done]. cbn.
  destruct (TriggerPluginHooks.predicate hooks) as [p|]; cbn.
  2: { by destruct (TriggerPluginHooks.transform hooks); [destruct (run_transform _ _ _ _)|]. }
  destruct (run_predicate run_plugin n p obj) as [go gated] eqn:Ep. destruct go; cbn.
  { by destruct (TriggerPluginHooks.transform hooks); [destruct (run_transform _ _ _ _)|]. }
  intros _. exists p. unfold run_predicate, unanswered, predicate_fail_default in Ep.
  assert (∀ outcome why,
    (negb (bool_decide (PluginHook.on_error p = Some "skip"%string)),
     [HookIncident.mk Predicate (PluginHook.plugin p) outcome why]) = (false, gated) →
    ∃ i, Some p = Some p ∧ i ∈ gated ∧ HookIncident.plugin i = PluginHook.plugin p
      ∧ (is_static_hook_fact (HookIncident.outcome i) = true →
         PluginHook.on_error p = Some "skip"%string)) as Hun.
  { intros outcome why [= Hs <-]. apply negb_false_iff, bool_decide_eq_true in Hs.
    eexists. split; [done|]. split; [left|done]. }
  destruct (run_plugin _ _ _ _) as [out|e]; [|by eapply Hun].
  destruct (predicate_verdict out) as [[]|]; [done| |by eapply Hun].
  injection Ep as <-. eexists. split; [done|]. split; [left|done].
Qed.

Lemma record_incident_effect P trigger_id ctx w i :
  fresh w → HookIncident.outcome i ≠ "fired"%string →
  ∃ rows, effect P w rows (record_incident new_run_id now trigger_id ctx w i)
    ∧ rows_of trigger_id ctx rows
    ∧ (rows = [] →
       is_static_hook_fact (HookIncident.outcome i) = true
       ∧ fault_key trigger_id (HookIncident.plugin i) (HookIncident.outcome i)
         ∈ Trig.reported (record_incident new_run_id now trigger_id ctx w i)).
Proof.
  intros F Hf. unfold record_incident.
  set (row := with_detail _ _).
  assert (is_fired row = false) as Hrow by (by apply String.eqb_neq).
  destruct (is_static_hook_fact _) eqn:Es; [|exists [row]; split_and!; [by apply effect_record|by repeat constructor|done]].
  fold (fault_key trigger_id (HookIncident.plugin i) (HookIncident.outcome i)).
  set (key := fault_key _ _ _). case_bool_decide as Hin.
  { exists []. split_and!; [by apply effect_refl|constructor|done]. }
  exists [row]. split_and!; [|by repeat constructor|done].
  set (w1 := w <| Trig.reported ::= λ s, {[key]} ∪ s |>).
  assert (effect P w [] w1) as E1 by (apply effect_aside; cbn; try done; set_solver).
  change [row] with ([] ++ [row]). eapply effect_trans; [exact E1|].
  apply effect_record; [done|by eapply eff_fresh|done].
Qed.

Lemma record_hook_incidents_effect P trigger_id ctx l w :
  fresh w → (∀ i, i ∈ l → HookIncident.outcome i ≠ "fired"%string) →
  let w' := record_hook_incidents new_run_id now trigger_id ctx l w in
  ∃ rows, effect P w rows w' ∧ rows_of trigger_id ctx rows
    ∧ (rows = [] → ∀ i, i ∈ l →
       is_static_hook_fact (HookIncident.outcome i) = true
       ∧ fault_key trigger_id (HookIncident.plugin i) (HookIncident.outcome i) ∈ Trig.reported w').
Proof.
  unfold record_hook_incidents. revert w. induction l as [|i l IH]; intros w F Hl; cbn.
  { exists []. split_and!; [by apply effect_refl|constructor|set_solver]. }
  destruct (record_incident_effect P trigger_id ctx w i F) as (r1 & E1 & T1 & S1);
    [by apply Hl; left|].
  destruct (IH (record_incident new_run_id now trigger_id ctx w i)) as (r2 & E2 & T2 & S2);
    [by eapply eff_fresh|by intros; apply Hl; right|].
  exists (r1 ++ r2). split_and!; [by eapply effect_trans|by apply Forall_app|].
  intros [-> ->]%app_nil i' [->|Hi]%elem_of_cons; [|by apply S2].
  destruct (S1 eq_refl) as [? Hin]. split; [done|]. by apply (eff_reported _ _ _ _ _ E2).
Qed.

(** ** Hops *)

(** An effect of one trigger: its rows name it, and it returns how many hops it fired. *)
Definition trigger_effect (P : Job.t → Prop) (id : string) (ctx : Ctx.t) (w : Trig.t)
    (r : Trig.t * nat) : Prop :=
  ∃ rows, effect P w rows (fst r) ∧ rows_of id ctx rows ∧ snd r = fired_rows rows ∧ rows ≠ [].

Abbreviation enqueue_one_hop := (enqueue_one_hop registry validate_params run_plugin new_v4 new_run_id now).
Abbreviation enqueue_hops := (enqueue_hops registry validate_params run_plugin new_v4 new_run_id now).
Abbreviation enqueue_hop := (enqueue_hop registry validate_params run_plugin new_v4 new_run_id cfg now).
Abbreviation guarded_hop := (guarded_hop registry validate_params run_plugin new_v4 new_run_id cfg now).

Lemma record_only P id ctx w outcome detail :
  fresh w → outcome ≠ "fired"%string →
  trigger_effect P id ctx w
    (record_run new_run_id now (with_detail detail (Ctx.row ctx id outcome)) w, O).
Proof.
  intros F Ho. eexists [_]. split; [apply effect_record; [done|done|by apply String.eqb_neq]|].
  split; [by repeat constructor|]. split; [|done]. unfold fired_rows, is_fired. cbn.
  by apply String.eqb_neq in Ho as ->.
Qed.
Lemma record_plain P id ctx w outcome :
  fresh w → outcome ≠ "fired"%string →
  trigger_effect P id ctx w (record_run new_run_id now (Ctx.row ctx id outcome) w, O).
Proof.
  intros F Ho. eexists [_]. split; [apply effect_record; [done|done|by apply String.eqb_neq]|].
  split; [by repeat constructor|]. split; [|done]. unfold fired_rows, is_fired. cbn.
  by apply String.eqb_neq in Ho as ->.
Qed.

Lemma trigger_effect_after P id ctx w w1 r :
  effect P w [] w1 → trigger_effect P id ctx w1 r → trigger_effect P id ctx w r.
Proof.
  intros E (rows & E1 & T & N & Hne). exists rows. split_and!; [|done..].
  change rows with ([] ++ rows). by eapply effect_trans.
Qed.

Lemma post_hook_not_fired n trigger obj job_id i :
  i ∈ run_post_enqueue_hook run_plugin n trigger obj job_id → HookIncident.outcome i ≠ "fired"%string.
Proof.
  unfold run_post_enqueue_hook. repeat case_match; try set_solver.
  intros ->%list_elem_of_singleton. apply failure_outcome_not_fired.
Qed.

(** The ledger writes of a hop and its table are independent. *)
Lemma record_incidents_set_jobs id ctx inc w t :
  record_hook_incidents new_run_id now id ctx inc (w <| Trig.jobs := t |>)
  = (record_hook_incidents new_run_id now id ctx inc w) <| Trig.jobs := t |>
  ∧ Trig.jobs (record_hook_incidents new_run_id now id ctx inc w) = Trig.jobs w.
Proof.
  unfold record_hook_incidents. revert w. induction inc as [|i inc IH]; intros w; [done|].
  cbn [foldl].
  assert (record_incident new_run_id now id ctx (w <| Trig.jobs := t |>) i
          = (record_incident new_run_id now id ctx w i) <| Trig.jobs := t |>
          ∧ Trig.jobs (record_incident new_run_id now id ctx w i) = Trig.jobs w) as [-> Hj].
  { unfold record_incident, record_run. destruct w. cbn.
    destruct (is_static_hook_fact _); [|done]. by destruct (bool_decide _). }
  destruct (IH (record_incident new_run_id now id ctx w i)) as [-> ->]. by rewrite Hj.
Qed.

Lemma enqueue_one_hop_effect trigger source hop obj base_key ctx w :
  fresh w →
  (binds_safely trigger → ∃ e, json_get "_trigger" (Hop.params hop) = Some e ∧ same_host e obj) →
  trigger_effect (hop_of trigger obj) (Trigger.id trigger) ctx w
    (enqueue_one_hop trigger source hop base_key ctx w).
Proof.
  intros F Hhop. unfold TriggerFire.enqueue_one_hop.
  destruct (validate_app_params _ _ _ _) as [[]|msg]; [|by apply record_only].
  set (opts := hop_opts _ _ _ _ _).
  destruct (enqueue_dedup _ _ _ opts (Trig.jobs w)) as [jobs r] eqn:E.
  apply enqueue_dedup_as_cases in E.
  set (w1 := w <| Trig.jobs := jobs |> <| Trig.drawn ::= S |>).
  destruct r as [[job []]|e].
  - destruct E as [Hjobs Hjob].
    set (wj := w <| Trig.drawn ::= S |> <| Trig.calls ::= S |>).
    assert (effect (hop_of trigger obj) w [] wj) as E0 by (apply effect_aside; cbn; try done; lia).
    set (inc := run_post_enqueue_hook _ _ _ _ _).
    destruct (record_hook_incidents_effect (hop_of trigger obj) (Trigger.id trigger) ctx inc wj)
      as (rows & E1 & T1 & _);
      [by eapply eff_fresh|by intros i; apply post_hook_not_fired|].
    destruct (record_incidents_set_jobs (Trigger.id trigger) ctx inc wj jobs) as [Hset Hj2].
    change (wj <| Trig.jobs := jobs |>) with (w1 <| Trig.calls ::= S |>) in Hset. rewrite Hset.
    change (Trig.jobs wj) with (Trig.jobs w) in Hj2.
    set (w2 := record_hook_incidents _ _ _ _ _ wj) in *.
    set (row := _ <| NewTriggerRun.job_id := _ |> <| NewTriggerRun.detail := _ |>).
    assert (hop_of trigger obj job) as HP by (subst job; split; [done|exact Hhop]).
    pose proof (effect_fire new_run_id (hop_of trigger obj) now row job w2
      (eff_fresh _ _ _ _ _ E1) eq_refl HP) as E2.
    assert (w2 <| Trig.jobs := jobs |> = w2 <| Trig.jobs ::= λ t, t ++ [job] |>) as ->.
    { unfold upd. cbn. by rewrite Hj2, <- Hjobs. }
    exists (([] ++ rows) ++ [row]). cbn [fst snd]. split; [|split; [|split]].
    + eapply effect_trans; [by eapply effect_trans|exact E2].
    + apply Forall_app. split; [done|by repeat constructor].
    + rewrite !fired_rows_app. assert (fired_rows rows = 0)%nat as ->; [|done].
      destruct E1 as [(new & Hn & Hlen & _) _ _ _ _ _]. rewrite <- Hlen.
      change (Trig.jobs wj) with (Trig.jobs w) in Hn. rewrite Hj2 in Hn.
      rewrite <- (app_nil_r (Trig.jobs w)) in Hn at 1. by apply app_inv_head in Hn as <-.
    + by destruct rows.
  - destruct E as [-> _].
    eapply trigger_effect_after; [apply (effect_aside _ _ w w1); cbn; try done; lia|].
    apply record_only; [|done]. intros k Hk. apply F. cbn in Hk. lia.
  - subst jobs.
    eapply trigger_effect_after; [apply (effect_aside _ _ w w1); cbn; try done; lia|].
    apply record_only; [|done]. intros k Hk. apply F. cbn in Hk. lia.
Qed.

Lemma enqueue_hops_effect trigger source obj hops base_key ctx w fired :
  fresh w →
  (∀ hop, hop ∈ hops → binds_safely trigger →
    ∃ e, json_get "_trigger" (Hop.params hop) = Some e ∧ same_host e obj) →
  ∃ rows, effect (hop_of trigger obj) w rows (fst (enqueue_hops trigger source hops base_key ctx w fired))
    ∧ rows_of (Trigger.id trigger) ctx rows
    ∧ snd (enqueue_hops trigger source hops base_key ctx w fired) = (fired + fired_rows rows)%nat
    ∧ (hops ≠ [] → rows ≠ []).
Proof.
  revert w fired. induction hops as [|hop hops IH]; intros w fired F Hh.
  { exists []. split; [by apply effect_refl|]. split; [constructor|]. split; [cbn; lia|done]. }
  cbn [TriggerFire.enqueue_hops].
  destruct (enqueue_one_hop_effect trigger source hop obj base_key ctx w F) as (r1 & E1 & T1 & N1 & Hne);
    [by apply Hh; left|].
  destruct (enqueue_one_hop trigger source hop base_key ctx w) as [w1 n]. cbn [fst snd] in *.
  destruct (IH w1 (fired + n)%nat) as (r2 & E2 & T2 & N2 & _);
    [by eapply eff_fresh|by intros hop' Hin; apply Hh; right|].
  exists (r1 ++ r2). split; [by eapply effect_trans|]. split; [by apply Forall_app|].
  split; [rewrite fired_rows_app; lia|]. intros _. by destruct r1.
Qed.

(** An effect of one edge: some row names it, unless its deployment fault is already
    recorded. *)
Definition edge_effect (P : Job.t → Prop) (trigger : Trigger.t) (ctx : Ctx.t) (w : Trig.t)
    (r : Trig.t * nat) : Prop :=
  ∃ rows, effect P w rows (fst r) ∧ rows_of (Trigger.id trigger) ctx rows ∧ snd r = fired_rows rows
    ∧ (rows = [] → silenced trigger (fst r)).

Lemma trigger_edge_effect P trigger ctx w r :
  trigger_effect P (Trigger.id trigger) ctx w r → edge_effect P trigger ctx w r.
Proof. intros (rows & ? & ? & ? & ?). by exists rows. Qed.

Lemma edge_effect_after P trigger ctx w rows0 w1 r :
  effect P w rows0 w1 → rows_of (Trigger.id trigger) ctx rows0 → fired_rows rows0 = O →
  edge_effect P trigger ctx w1 r → edge_effect P trigger ctx w r.
Proof.
  intros E0 T0 N0 (rows & E1 & T1 & N1 & S1). exists (rows0 ++ rows).
  split; [by eapply effect_trans|]. split; [by apply Forall_app|].
  split; [rewrite fired_rows_app; lia|]. intros [_ ?]%app_nil; auto.
Qed.

Lemma enqueue_hop_effect trigger source obj key ctx w :
  fresh w → is_Some (as_object obj) →
  edge_effect (hop_of trigger obj) trigger ctx w (enqueue_hop trigger source obj key ctx w).
Proof.
  intros F Hobj. unfold TriggerFire.enqueue_hop.
  set (verdict := apply_plugin_hooks _ _ _ _).
  set (w0 := w <| Trig.calls ::= λ n, (n + 2)%nat |>).
  assert (effect (hop_of trigger obj) w [] w0) as E0 by (apply effect_aside; cbn; done || lia).
  destruct (record_hook_incidents_effect (hop_of trigger obj) (Trigger.id trigger) ctx
    (HookVerdict.incidents verdict) w0) as (rows & E1 & T1 & S1);
    [by eapply eff_fresh|by intros i; apply incident_not_fired|].
  set (w1 := record_hook_incidents _ _ _ _ _ w0) in *.
  assert (fired_rows rows = O) as N1.
  { destruct E1 as [(new & Hn & Hlen & _) _ _ _ _ _]. rewrite <- Hlen.
    destruct (record_incidents_set_jobs (Trigger.id trigger) ctx (HookVerdict.incidents verdict) w0
      (Trig.jobs w0)) as [_ Hj]. fold w1 in Hj. rewrite Hj in Hn.
    rewrite <- (app_nil_r (Trig.jobs w0)) in Hn at 1. by apply app_inv_head in Hn as <-. }
  assert (effect (hop_of trigger obj) w ([] ++ rows) w1) as E by (by eapply effect_trans).
  cbn [app] in E.
  destruct (HookVerdict.obj verdict) as [obj'|] eqn:Eo.
  - eapply edge_effect_after; [exact E|exact T1|exact N1|]. apply trigger_edge_effect.
    assert (same_host obj' obj) as Hsame by (by eapply hooks_keep_host).
    destruct (negb _); [apply record_only; [by eapply eff_fresh|done]|].
    unfold planned_hops. destruct (plan_hops trigger obj' cfg) as [hops|miss] eqn:Ep.
    + destruct hops as [|hop hops]; [apply record_only; [by eapply eff_fresh|done]|].
      destruct (enqueue_hops_effect trigger source obj (hop :: hops) key ctx w1 0)
        as (r2 & E2 & T2 & N2 & Hne); [by eapply eff_fresh| |].
      { intros hop' Hin Hs. destruct (plan_hops_host _ _ _ _ _ Ep Hs Hin) as (e & He & Hh).
        exists e. split; [done|]. by transitivity obj'. }
      exists r2. split_and!; [done|done|done|by apply Hne].
    + apply record_only; [by eapply eff_fresh|done].
  - exists rows. cbn [fst snd]. split; [done|]. split; [done|]. split; [done|]. intros ->.
    destruct (stopped_incident _ _ _ Eo) as (hook & i & Hp & Hi & Hpl & Hskip).
    destruct (S1 eq_refl i Hi) as [Hst Hin]. exists hook, (HookIncident.outcome i).
    rewrite <- Hpl. split_and!; [done|by apply Hskip|done|done].
Qed.

(** ** The guards *)

(** What a fired job carries of the chain it continues. *)
Definition extends_chain (source_params : Json) (tid : string) (j : Job.t) : Prop :=
  let '(depth, chain) := provenance source_params in
  tid ∉ chain ∧ provenance (Job.params j) = (wrap_u32 (depth + 1), chain ++ [tid])
  ∧ wrap_u32 (depth + 1) ≤ TriggersConfig.max_depth cfg.

Definition continues (source_params : Json) (trigger : Trigger.t) (j : Job.t) : Prop :=
  Job.trigger_id j = Some (Trigger.id trigger)
  ∧ (binds_safely trigger → extends_chain source_params (Trigger.id trigger) j).

Lemma omap_chain chain : omap as_str (map JString chain) = chain.
Proof. induction chain as [|a l IH]; [done|]. cbn. by rewrite IH. Qed.

Lemma wrap_wrap_u32 z : wrap_u32 (wrap_u32 z) = wrap_u32 z.
Proof. unfold wrap_u32. by rewrite Z.mod_mod by done. Qed.

(** An envelope states its depth and chain. *)
Definition states (obj : Json) (depth : Z) (chain : list string) : Prop :=
  is_Some (as_object obj) ∧ json_get "depth" obj = Some (JUint depth)
  ∧ json_get "chain" obj = Some (chain_json chain).

Lemma provenance_of_hop params e obj depth chain :
  json_get "_trigger" params = Some e → same_host e obj → states obj depth chain →
  provenance params = (wrap_u32 depth, chain).
Proof.
  intros Ht Hs (_ & Hd & Hc). unfold provenance. rewrite Ht. cbn.
  rewrite (Hs "depth"%string), (Hs "chain"%string), Hd, Hc by (repeat constructor).
  cbn. by rewrite omap_chain.
Qed.

Lemma guarded_hop_effect trigger params source envelope key ctx w :
  fresh w → (∀ depth chain, states (envelope depth chain) depth chain) →
  edge_effect (continues params trigger) trigger ctx w
    (guarded_hop trigger params source envelope key ctx w).
Proof.
  intros F Henv. unfold TriggerFire.guarded_hop, decide, continues, extends_chain.
  destruct (provenance params) as [depth chain].
  destruct (existsb _ chain) eqn:Ec; [by apply trigger_edge_effect, record_plain|].
  destruct (_ <? _) eqn:Ed; [by apply trigger_edge_effect, record_plain|].
  destruct (enqueue_hop_effect trigger source (envelope (wrap_u32 (depth + 1)) (chain ++ [Trigger.id trigger]))
    key ctx w F) as (rows & E & T & N & S); [apply Henv|].
  exists rows. split; [|done]. eapply effect_weaken; [|exact E].
  intros j [Hid Hj]. split; [done|]. intros Hs. destruct (Hj Hs) as (e & He & Hh).
  split_and!.
  - intros Hin. apply not_true_iff_false in Ec. apply Ec, existsb_exists.
    exists (Trigger.id trigger). rewrite <- list_elem_of_In. by rewrite String.eqb_refl.
  - rewrite (provenance_of_hop _ _ _ _ _ He Hh (Henv _ _)). by rewrite wrap_wrap_u32.
  - by apply Z.ltb_ge in Ed.
Qed.

Lemma dataset_envelope_states trigger job app ds revs depth chain :
  states (dataset_trigger_obj trigger job app ds revs depth chain cfg) depth chain.
Proof. split_and!; [by eexists|done|done]. Qed.
Lemma terminal_envelope_states trigger job depth chain :
  states (terminal_trigger_obj trigger job depth chain) depth chain.
Proof. split_and!; [by eexists|done|done]. Qed.
Lemma external_envelope_states trigger src name ev payload depth chain :
  states (external_trigger_obj trigger src name ev payload depth chain) depth chain.
Proof. split_and!; [by eexists|done|done]. Qed.

(** ** Events *)

Inductive event : Type :=
| OnDataset (job : Job.t) (batch : DatasetBatch) (by_dataset : list (string * string * list Revision.t))
| OnTerminal (job : Job.t)
| OnExternal (source_id source_name event_id : string) (payload : Json).

Definition event_params (e : event) : Json :=
  match e with OnDataset job _ _ | OnTerminal job => Job.params job | OnExternal _ _ _ _ => JNull end.

Definition fire_event (e : event) (w : Trig.t) : Trig.t * nat :=
  match e with
  | OnDataset job batch by_dataset =>
      fire_dataset_triggers registry validate_params run_plugin load_error new_v4 new_run_id cfg now
        job batch by_dataset w
  | OnTerminal job =>
      fire_terminal_triggers registry validate_params run_plugin load_error new_v4 new_run_id cfg now
        job w
  | OnExternal source_id source_name event_id payload =>
      fire_external_triggers registry validate_params run_plugin load_error new_v4 new_run_id cfg now
        source_id source_name event_id payload w
  end.

(** The edges of an event: the triggers it must decide on, with the dataset concerned. *)
Definition edge (e : event) (w : Trig.t) (t : Trigger.t) (ds : option string) : Prop :=
  match e with
  | OnDataset _ _ by_dataset => ∃ app d revs,
      (app, d, revs) ∈ by_dataset ∧ ds = Some d ∧ t ∈ load (EDataset app) (Trig.triggers w)
      ∧ Trigger.covers_dataset t d = true
  | OnTerminal job => t ∈ load (EJob (Job.app job)) (Trig.triggers w) ∧ ds = None
  | OnExternal src _ _ _ => t ∈ load (EExternal src) (Trig.triggers w) ∧ ds = None
  end.

(** What an event did to the tables, for the triggers [T] it read. *)
Definition decided (rows : list NewTriggerRun.t) (w' : Trig.t) (t : Trigger.t) (ds : option string)
    : Prop :=
  (∃ r, r ∈ rows ∧ NewTriggerRun.trigger_id r = Trigger.id t ∧ NewTriggerRun.dataset r = ds)
  ∨ silenced t w'.
Definition set_failed (rows : list NewTriggerRun.t) : Prop :=
  ∃ r, r ∈ rows ∧ NewTriggerRun.trigger_id r = TRIGGER_SET_ID
       ∧ NewTriggerRun.outcome r = "eval_set_error"%string.

Lemma silenced_mono t w w' : Trig.reported w ⊆ Trig.reported w' → silenced t w → silenced t w'.
Proof. intros Hs (h & o & ? & ? & ? & ?). exists h, o. split_and!; auto. Qed.

Lemma decided_mono rows rows' w w' t ds :
  (∀ r, r ∈ rows → r ∈ rows') → Trig.reported w ⊆ Trig.reported w' →
  decided rows w t ds → decided rows' w' t ds.
Proof.
  intros Hr Hs [(r & Hin & ? & ?)|Hsil]; [left; exists r; auto|right; by eapply silenced_mono].
Qed.

(** Edges decided one after the other. *)
Lemma each_trigger_effect {A} (tr : A → Trigger.t) (ctx : Ctx.t) params
    (step : A → Trig.t → Trig.t * nat) l w :
  fresh w →
  (∀ x w, x ∈ l → fresh w → edge_effect (continues params (tr x)) (tr x) ctx w (step x w)) →
  ∃ rows, effect (λ j, ∃ x, x ∈ l ∧ continues params (tr x) j) w rows (fst (each_trigger step l w))
    ∧ snd (each_trigger step l w) = fired_rows rows
    ∧ ∀ x, x ∈ l → decided rows (fst (each_trigger step l w)) (tr x) (Ctx.dataset ctx).
Proof.
  intros F Hstep. unfold each_trigger.
  set (fold := foldl _).
  assert (∀ l w k, fresh w →
    (∀ x w, x ∈ l → fresh w → edge_effect (continues params (tr x)) (tr x) ctx w (step x w)) →
    ∃ rows, effect (λ j, ∃ x, x ∈ l ∧ continues params (tr x) j) w rows (fst (fold (w, k) l))
      ∧ snd (fold (w, k) l) = (k + fired_rows rows)%nat
      ∧ ∀ x, x ∈ l → decided rows (fst (fold (w, k) l)) (tr x) (Ctx.dataset ctx)) as Hfold.
  { clear F Hstep l w. induction l as [|x l IH]; intros w k F Hstep.
    { exists []. split; [by apply effect_refl|]. split; [cbn; lia|set_solver]. }
    destruct (Hstep x w ltac:(left) F) as (r1 & E1 & T1 & N1 & S1).
    unfold fold in *. cbn [foldl]. destruct (step x w) as [w1 n]. cbn [fst snd] in *.
    destruct (IH w1 (k + n)%nat) as (r2 & E2 & N2 & D2);
      [by eapply eff_fresh|by intros; apply Hstep; [right|]|].
    exists (r1 ++ r2). split; [|split; [rewrite fired_rows_app; lia|]].
    - eapply effect_trans; (eapply effect_weaken; [|eassumption]); cbn.
      + intros j Hj. exists x. split; [left|done].
      + intros j (y & ? & ?). exists y. split; [by right|done].
    - intros y [->|Hy]%elem_of_cons.
      + destruct r1 as [|r r1].
        * right. eapply silenced_mono; [by eapply eff_reported|by apply S1].
        * left. inversion T1 as [|? ? [Hid Hds] _]; subst. exists r. by split_and!; [left|..].
      + eapply decided_mono; [| |by apply D2]; [|done].
        intros r Hr. apply elem_of_app. by right. }
  by apply (Hfold l w O).
Qed.

Lemma load_elem s t (l : list Trigger.t) : t ∈ load s l → t ∈ l.
Proof. by destruct s; intros [? _]%elem_of_select. Qed.

(** What an event owes: [params] continued by a trigger of the table. *)
Abbreviation owes w params := (λ j, ∃ t, t ∈ Trig.triggers w ∧ continues params t j).

Lemma notify_effect P w rows r :
  effect P w rows (fst r) → effect P w rows (fst (notify r)).
Proof.
  destruct r as [w' n]. cbn [fst notify]. intros E. destruct (0 <? n)%nat; [|exact E].
  destruct E. by split.
Qed.
Lemma notify_snd r : snd (notify r) = snd r.
Proof. by destruct r. Qed.
Lemma notify_reported r : Trig.reported (fst (notify r)) = Trig.reported (fst r).
Proof. destruct r as [w n]. cbn [fst notify]. by destruct (0 <? n)%nat. Qed.

Lemma decided_notify rows r t ds : decided rows (fst r) t ds → decided rows (fst (notify r)) t ds.
Proof. apply decided_mono; [done|]. by rewrite notify_reported. Qed.

Lemma eval_set_failed_effect P ctx e w :
  fresh w → effect P w [with_detail (error_display e)
    (NewTriggerRun.mk TRIGGER_SET_ID "eval_set_error" (Ctx.source_kind ctx) (Ctx.source_job_id ctx)
       None (Ctx.event_id ctx) None None)] (eval_set_failed new_run_id now ctx e w).
Proof. intros F. unfold eval_set_failed. by apply effect_record; [exact Hinj|..]. Qed.

Lemma dataset_step_effect job batch app d revs src t w :
  let ctx := Ctx.mk "dataset" src (Some d) None in
  fresh w →
  edge_effect (continues (Job.params job) t) t ctx w
    (dataset_step registry validate_params run_plugin new_v4 new_run_id cfg now job batch app d revs
       ctx t w).
Proof.
  intros ctx F. unfold dataset_step.
  destruct (List.filter _ revs); [by apply trigger_edge_effect, record_plain|].
  apply guarded_hop_effect; [done|]. intros. apply dataset_envelope_states.
Qed.

Lemma terminal_step_effect job ctx t w :
  fresh w →
  edge_effect (continues (Job.params job) t) t ctx w
    (terminal_step registry validate_params run_plugin new_v4 new_run_id cfg now job ctx t w).
Proof.
  intros F. unfold terminal_step. destruct (negb _); [by apply trigger_edge_effect, record_plain|].
  apply guarded_hop_effect; [done|]. intros. apply terminal_envelope_states.
Qed.

Lemma external_step_effect src name ev payload ctx entry w :
  fresh w →
  edge_effect (continues JNull (EvalTrigger.trigger entry)) (EvalTrigger.trigger entry) ctx w
    (external_step registry validate_params run_plugin new_v4 new_run_id cfg now src name ev payload
       ctx entry w).
Proof.
  intros F. unfold external_step.
  destruct (EvalTrigger.filters entry); [|by apply trigger_edge_effect, record_plain].
  destruct (negb _); [by apply trigger_edge_effect, record_plain|].
  apply guarded_hop_effect; [done|]. intros. apply external_envelope_states.
Qed.

Lemma prepare_triggers s l : map EvalTrigger.trigger (prepare s l) = load s l.
Proof. unfold prepare. rewrite map_map. apply map_id. Qed.

(** An event's effect for the table it read: every owed edge is decided, or a set failed
    to load. *)
Definition event_effect (e : event) (w : Trig.t) (r : Trig.t * nat) : Prop :=
  ∃ rows, effect (owes w (event_params e)) w rows (fst r) ∧ snd r = fired_rows rows
    ∧ (set_failed rows ∨ ∀ t ds, edge e w t ds → decided rows (fst r) t ds).

Lemma dataset_pairs_effect job batch pairs current w fired :
  fresh w → coherent w →
  (∀ app set, current = Some (app, set) → set = prepare (EDataset app) (Trig.triggers w)) →
  let r := dataset_pairs registry validate_params run_plugin load_error new_v4 new_run_id cfg now
             job batch pairs current w fired in
  ∃ rows, effect (owes w (Job.params job)) w rows (fst r) ∧ snd r = (fired + fired_rows rows)%nat
    ∧ (set_failed rows ∨ ∀ app d revs t, (app, d, revs) ∈ pairs →
         t ∈ load (EDataset app) (Trig.triggers w) → Trigger.covers_dataset t d = true →
         decided rows (fst r) t (Some d)).
Proof.
  revert current w fired. induction pairs as [|[[app d] revs] pairs IH]; intros current w fired F C Hc.
  { exists []. split; [by apply effect_refl|]. split; [cbn; lia|right; set_solver]. }
  cbn [dataset_pairs].
  set (ctx := Ctx.mk "dataset" _ (Some d) None).
  destruct (match current with Some _ => _ | None => _ end) as [w1 trigs] eqn:Ee.
  assert (effect (owes w (Job.params job)) w [] w1 ∧ Trig.triggers w1 = Trig.triggers w ∧ coherent w1
          ∧ ∀ set, trigs = Ok set → set = prepare (EDataset app) (Trig.triggers w))
    as (E1 & T1 & C1 & Hset).
  { assert (eval_set load_error (EDataset app) w = (w1, trigs) ∨
            (w1 = w ∧ trigs = Ok (prepare (EDataset app) (Trig.triggers w)))) as [Hev|[-> ->]].
    { destruct current as [[app' set]|]; [|by left]. destruct (String.eqb_spec app' app) as [->|];
        [|by left]. injection Ee as <- <-. right. by rewrite (Hc app set). }
    - apply (eval_set_effect new_run_id (owes w (Job.params job))) in Hev as [E Hr]; [|done].
      split_and!; [done|by eapply eff_table|by eapply eff_coherent|]. intros set ->. by apply Hr.
    - split_and!; [by apply effect_refl|done|done|naive_solver]. }
  destruct trigs as [set|e].
  - specialize (Hset set eq_refl) as ->. rewrite prepare_triggers.
    set (l := List.filter _ _). set (step := dataset_step _ _ _ _ _ _ _ _ _ _ _ _ _).
    destruct (each_trigger_effect (λ t, t) ctx (Job.params job) step l w1)
      as (r2 & E2 & N2 & D2); [by eapply eff_fresh|by intros; apply dataset_step_effect|].
    destruct (each_trigger step l w1) as [w2 n]. cbn [fst snd] in *.
    assert (effect (owes w (Job.params job)) w r2 w2) as E12.
    { change r2 with ([] ++ r2). eapply effect_trans; [exact E1|].
      eapply effect_weaken; [|exact E2]. intros j (t & Ht & Hj). exists t. split; [|done].
      apply elem_of_select in Ht as [Ht _]. by apply load_elem in Ht. }
    destruct (IH (Some (app, prepare (EDataset app) (Trig.triggers w))) w2 (fired + n)%nat)
      as (r3 & E3 & N3 & D3).
    { by eapply eff_fresh. }
    { by eapply eff_coherent. }
    { intros ? ? [= <- <-]. by rewrite (eff_table _ _ _ _ _ E12). }
    rewrite (eff_table _ _ _ _ _ E12) in E3, D3.
    exists (r2 ++ r3). split; [by eapply effect_trans|]. split; [rewrite fired_rows_app; lia|].
    destruct D3 as [(r & Hr & Hr')|D3]; [left; exists r; split; [apply elem_of_app; by right|done]|].
    right. intros app' d' revs' t [[= -> -> ->]|Hin]%elem_of_cons Ht Hcov.
    + eapply decided_mono; [| |apply D2, elem_of_select; by split]; [|by eapply eff_reported].
      intros r Hr. apply elem_of_app. by left.
    + eapply decided_mono; [| |by eapply D3]; [|done]. intros r Hr. apply elem_of_app. by right.
  - pose proof (eval_set_failed_effect (owes w (Job.params job)) ctx e w1 (eff_fresh _ _ _ _ _ E1)) as E2.
    set (row := with_detail _ _) in *.
    assert (effect (owes w (Job.params job)) w ([] ++ [row]) (eval_set_failed new_run_id now ctx e w1))
      as E12 by (by eapply effect_trans).
    set (w2 := eval_set_failed _ _ _ _ _) in *.
    destruct (IH current w2 fired) as (r3 & E3 & N3 & _).
    { by eapply eff_fresh. }
    { by eapply eff_coherent. }
    { intros ? ? Hcur. rewrite (eff_table _ _ _ _ _ E12). by apply Hc. }
    rewrite (eff_table _ _ _ _ _ E12) in E3.
    exists (([] ++ [row]) ++ r3). split; [by eapply effect_trans|]. split; [exact N3|].
    left. exists row. split; [left|done].
Qed.

Lemma fire_event_effect e w : fresh w → coherent w → event_effect e w (fire_event e w).
Proof.
  intros F C. destruct e as [job batch by_dataset|job|src name ev payload]; cbn [fire_event].
  - unfold fire_dataset_triggers.
    destruct (dataset_pairs_effect job batch (order_by pair_le by_dataset) None w 0 F C)
      as (rows & E & N & D); [done|].
    exists rows. split; [by apply notify_effect|]. split; [by rewrite notify_snd|].
    destruct D as [D|D]; [by left|right]. intros t ds (app & d & revs & Hin & -> & Ht & Hcov).
    apply decided_notify. eapply D; [by apply elem_of_order_by|done|done].
  - unfold fire_terminal_triggers. set (ctx := Ctx.mk "job" _ None None).
    destruct (eval_set load_error (EJob (Job.app job)) w) as [w1 r] eqn:Ev.
    apply (eval_set_effect new_run_id (owes w (Job.params job))) in Ev as [E1 Hr]; [|done].
    specialize (Hr C). destruct r as [set|e].
    + subst set. rewrite prepare_triggers.
      destruct (each_trigger_effect (λ t, t) ctx (Job.params job)
        (terminal_step registry validate_params run_plugin new_v4 new_run_id cfg now job ctx)
        (load (EJob (Job.app job)) (Trig.triggers w)) w1) as (rows & E2 & N & D);
        [by eapply eff_fresh|by intros; apply terminal_step_effect|].
      exists ([] ++ rows). split; [|split; [by rewrite notify_snd|]].
      * apply notify_effect. eapply effect_trans; [exact E1|]. eapply effect_weaken; [|exact E2].
        intros j (t & Ht & Hj). exists t. split; [by apply load_elem in Ht|done].
      * right. intros t ds [Ht ->]. by apply decided_notify, D.
    + pose proof (eval_set_failed_effect (owes w (Job.params job)) ctx e w1 (eff_fresh _ _ _ _ _ E1)) as E2.
      eexists ([] ++ [_]). split; [eapply effect_trans; [exact E1|exact E2]|]. split; [done|].
      left. eexists. split; [left|done].
  - unfold fire_external_triggers. set (ctx := Ctx.mk "external" None None _).
    destruct (eval_set load_error (EExternal src) w) as [w1 r] eqn:Ev.
    apply (eval_set_effect new_run_id (owes w JNull)) in Ev as [E1 Hr]; [|done].
    specialize (Hr C). destruct r as [set|e].
    + subst set.
      destruct (each_trigger_effect EvalTrigger.trigger ctx JNull
        (external_step registry validate_params run_plugin new_v4 new_run_id cfg now src name ev
           payload ctx) (prepare (EExternal src) (Trig.triggers w)) w1) as (rows & E2 & N & D);
        [by eapply eff_fresh|by intros; apply external_step_effect|].
      exists ([] ++ rows). split; [|split; [by rewrite notify_snd|]].
      * apply notify_effect. eapply effect_trans; [exact E1|]. eapply effect_weaken; [|exact E2].
        intros j (x & Hx & Hj). exists (EvalTrigger.trigger x). split; [|done].
        apply (load_elem (EExternal src)). rewrite <- prepare_triggers.
        by apply list_elem_of_fmap_2.
      * right. intros t ds [Ht ->]. rewrite <- prepare_triggers in Ht.
        apply list_elem_of_fmap in Ht as (x & -> & Hx).
        by apply decided_notify, D.
    + pose proof (eval_set_failed_effect (owes w JNull) ctx e w1 (eff_fresh _ _ _ _ _ E1)) as E2.
      eexists ([] ++ [_]). split; [eapply effect_trans; [exact E1|exact E2]|]. split; [done|].
      left. eexists. split; [left|done].
Qed.


(** What one firing adds to the jobs. *)
Lemma new_jobs_continue e w j :
  fresh w → coherent w → j ∈ Trig.jobs (fst (fire_event e w)) → j ∉ Trig.jobs w →
  ∃ t, t ∈ Trig.triggers w ∧ continues (event_params e) t j.
Proof.
  intros F C Hin Hni. destruct (fire_event_effect e w F C) as (rows & E & _ & _).
  destruct (eff_jobs _ _ _ _ _ E) as (new & Hj & _ & HP). rewrite Hj in Hin.
  apply elem_of_app in Hin as [?|Hin]; [done|]. rewrite Forall_forall in HP. by apply HP.
Qed.
End firing.

(** ** Cascades *)

Section cascade.
Context `{JsonRender, Unicode, JsonPointer, UuidText} (cfg : TriggersConfig.t).

(** The params of a job and the triggers that led to it from a job no trigger fired; each
    firing has its own host, registry, clock and ids. *)
Inductive fired_chain : Json → list string → Prop :=
| chain_root p : provenance p = (0, []) → fired_chain p []
| chain_hop p ids registry validate_params run_plugin load_error new_v4 new_run_id now e w j tid :
    fired_chain p ids →
    Inj (=) (=) new_run_id → ledger_fresh new_run_id w → coherent w →
    Forall binds_safely (Trig.triggers w) → event_params e = p →
    j ∈ Trig.jobs (fst (fire_event registry validate_params run_plugin load_error new_v4
                          new_run_id cfg now e w)) →
    j ∉ Trig.jobs w → Job.trigger_id j = Some tid →
    fired_chain (Job.params j) (ids ++ [tid]).

(** C17: A cascade ends: along any chain of trigger-fired jobs, each job's provenance is
    exactly the triggers that led to it, no trigger occurs twice, and the chain is no longer
    than [max_depth] - whatever transforms, bindings and fan-outs shape the hops. *)
Theorem cascade_is_bounded p ids
    (Hdepth : 0 ≤ TriggersConfig.max_depth cfg < 2 ^ 32 - 1) (Hchain : fired_chain p ids) :
  provenance p = (Z.of_nat (length ids), ids) ∧ NoDup ids
  ∧ Z.of_nat (length ids) ≤ TriggersConfig.max_depth cfg.
Proof.
  induction Hchain as [p Hp|p ids registry vp rp le nv nr now e w j tid Hc IH Hinj F C Hs He Hin Hni Htid].
  - split_and!; [done|constructor|cbn; lia].
  - destruct IH as (Hp & Hnd & Hlen).
    edestruct new_jobs_continue as (t & Ht & Hid & Hext); [exact Hinj|exact F|exact C|exact Hin|exact Hni|].
    rewrite Htid in Hid. injection Hid as ->. rewrite Forall_forall in Hs.
    specialize (Hext (Hs t Ht)). unfold extends_chain in Hext. rewrite He, Hp in Hext.
    destruct Hext as (Hnew & Hprov & Hle). rewrite wrap_u32_small in Hprov, Hle by lia.
    rewrite Hprov, length_app. cbn. split_and!.
    + f_equal. lia.
    + apply NoDup_app. split_and!; [done|set_solver|apply NoDup_singleton].
    + lia.
Qed.
End cascade.

(** ** A concrete pipeline *)

Module Demo.
#[local] Instance render : JsonRender := λ _, ""%string.
#[local] Instance fold : Unicode := λ s, s.
(** Pointers of one segment. *)
#[local] Instance pointer : JsonPointer := λ p v,
  match p with
  | EmptyString => Some v
  | String _ k => json_get k v
  end.
#[local] Instance uuid : UuidText := λ u, pretty u.

Definition registry (app : string) : option App :=
  if String.eqb app "extractor" then Some (mkApp JNull None (λ _, None)) else None.
Definition edge_trigger : Trigger.t :=
  Trigger.mk "t1" None "job" "crawler" None None None "extractor" (JObject []) None 0 1 true 0
    None None (Some [("from", JString "/_trigger")]) None.
Definition source : Job.t :=
  (new_row 7 "crawler" Opts.default None 0) <| Job.status := Succeeded |>.
Definition world : Trig.t := Trig.mk [source] [edge_trigger] 0 [] ∅ 0 ∅ 0 0 0.
Abbreviation fired :=
  (fire_event registry (λ _ _, None) (λ _ _ _ _, Ok JNull) (λ _, None) (λ n, 100 + Z.of_nat n)
     pretty TriggersConfig.default 5 (OnTerminal source) world).
Definition hop : Job.t := Eval vm_compute in List.last (Trig.jobs (fst fired)) source.

Lemma world_fresh : ledger_fresh pretty world.
Proof. intros n _. apply not_elem_of_nil. Qed.
Lemma world_coherent : coherent world.
Proof. intros s entry Hl. cbn in Hl. by rewrite lookup_empty in Hl. Qed.


Lemma cascade_is_bounded_witness :
  fired_chain TriggersConfig.default (Job.params hop) ["t1"%string]
  ∧ provenance (Job.params hop) = (1, ["t1"%string]).
Proof.
  assert (fired_chain TriggersConfig.default (Job.params hop) ["t1"%string]) as Hc.
  { eapply (chain_hop _ _ [] registry (λ _ _, None) (λ _ _ _ _, Ok JNull) (λ _, None)
      (λ n, 100 + Z.of_nat n) pretty 5 (OnTerminal source) world).
    - by apply (chain_root _ (Job.params source)).
    - apply _.
    - exact world_fresh.
    - exact world_coherent.
    - repeat constructor. vm_compute. intros Hx. inversion Hx; subst. by inversion H1.
    - reflexivity.
    - vm_compute. right. left.
    - vm_compute. intros Hx. inversion Hx; subst. by inversion H1.
    - reflexivity. }
  split; [exact Hc|].
  apply (cascade_is_bounded TriggersConfig.default (Job.params hop) ["t1"%string]); [|exact Hc].
  by vm_compute.
Defined.
End Demo.
