(* ===== verification/TriggerCache.v ===== *)
(** * TriggerCache: the evaluation cache under concurrent mutations

    Lookups of [eval_set] and mutations of the [triggers] table interleave at their
    database statements: a mutation commits, then bumps the generation; a lookup samples
    the generation, loads, then stores under the sampled generation.  Firing itself is
    modelled sequentially in [TriggerFire]; this file is about the interleavings. *)

From stdpp Require Import gmap strings.
From S2P Require Import Prelude Sql Json Records Triggers TriggerFire TriggerTheorems.

#[local] Arguments cache_put : simpl never.

(** A lookup in flight: its scope, the generation it sampled, what it has loaded. *)
Module Lookup.
Record t : Type := mk { scope : EvalScope; sampled : Z; loaded : option (list EvalTrigger.t) }.
End Lookup.

(** [versions]: every table committed so far, oldest first; the last one is current.
    [inflight]: the versions whose mutation has committed and not yet bumped.  [completed]:
    the newest version whose mutation has returned. *)
Module Shared.
Record t : Type := mk {
  versions : list (list Trigger.t); inflight : list nat; completed : nat; generation : Z;
  cache : eval_cache; lookups : list Lookup.t }.
#[global] Instance eta_shared : Eta t := λ s,
  mk (versions s) (inflight s) (completed s) (generation s) (cache s) (lookups s).
Definition current (s : t) : nat := Nat.pred (length (versions s)).
Definition table (s : t) : list Trigger.t := default [] (versions s !! current s).
Definition initial (l : list Trigger.t) : t := mk [l] [] 0 0 ∅ [].
End Shared.

(** One database statement, or one access to the shared counter and map.  The counter does
    not wrap: that takes [2^64] mutations. *)
Inductive cache_step : Shared.t → Shared.t → Prop :=
| commit s table :
    cache_step s (s <| Shared.inflight ::= λ l, l ++ [length (Shared.versions s)] |>
                    <| Shared.versions ::= λ l, l ++ [table] |>)
| bump s v :
    v ∈ Shared.inflight s → Shared.generation s < u64_max →
    cache_step s (s <| Shared.inflight ::= List.filter (λ u, negb (u =? v)%nat) |>
                    <| Shared.completed ::= Nat.max v |>
                    <| Shared.generation ::= λ g, wrap_u64 (g + 1) |>)
| sample s scope :
    cache_get (scope_key scope) (Shared.generation s) (Shared.cache s) = None →
    cache_step s (s <| Shared.lookups ::= λ l,
                      l ++ [Lookup.mk scope (Shared.generation s) None] |>)
| load_set s i scope g :
    Shared.lookups s !! i = Some (Lookup.mk scope g None) →
    cache_step s (s <| Shared.lookups ::=
                      <[i := Lookup.mk scope g (Some (prepare scope (Shared.table s)))]> |>)
| store s i scope g set :
    Shared.lookups s !! i = Some (Lookup.mk scope g (Some set)) →
    cache_step s (s <| Shared.cache ::= cache_put (scope_key scope) g set |>).

Inductive cache_reachable (l : list Trigger.t) : Shared.t → Prop :=
| reach_initial : cache_reachable l (Shared.initial l)
| reach_step s s' : cache_reachable l s → cache_step s s' → cache_reachable l s'.

(** A stamped set is that of some version; stamped with the current generation, it is no
    older than any mutation that has returned. *)
Definition stamped (s : Shared.t) (scope : EvalScope) (g : Z) (set : list EvalTrigger.t) : Prop :=
  g ≤ Shared.generation s
  ∧ ∃ v table, Shared.versions s !! v = Some table ∧ set = prepare scope table
      ∧ (g = Shared.generation s → (Shared.completed s ≤ v)%nat).

Record cache_inv (s : Shared.t) : Prop := {
  ci_generation : 0 ≤ Shared.generation s ≤ u64_max;
  ci_versions : (Shared.completed s < length (Shared.versions s))%nat;
  ci_inflight : ∀ v, v ∈ Shared.inflight s → (v < length (Shared.versions s))%nat;
  ci_all : ∀ v, (v < length (Shared.versions s))%nat → v ∈ Shared.inflight s ∨ (v ≤ Shared.completed s)%nat;
  ci_lookups : ∀ i scope g r, Shared.lookups s !! i = Some (Lookup.mk scope g r) →
    g ≤ Shared.generation s ∧ ∀ set, r = Some set → stamped s scope g set;
  ci_cache : ∀ scope e, Shared.cache s !! scope_key scope = Some e →
    stamped s scope (CacheEntry.generation e) (CacheEntry.set e);
}.

(** What keeps stamps: more versions at the same counters, or a larger generation. *)
Lemma stamped_mono s s' scope g set :
  stamped s scope g set →
  (∀ v t, Shared.versions s !! v = Some t → Shared.versions s' !! v = Some t) →
  (Shared.generation s' = Shared.generation s ∧ Shared.completed s' = Shared.completed s)
  ∨ Shared.generation s < Shared.generation s' →
  stamped s' scope g set.
Proof.
  intros (Hg & v & t & Hv & Hs & Hc) Hver [[Eg Ec]|Hlt].
  - split; [lia|]. exists v, t. split_and!; [by apply Hver|done|]. rewrite Eg, Ec. done.
  - split; [lia|]. exists v, t. split_and!; [by apply Hver|done|lia].
Qed.

Lemma cache_inv_shift s s' :
  cache_inv s → Shared.lookups s' = Shared.lookups s → Shared.cache s' = Shared.cache s →
  (∀ v t, Shared.versions s !! v = Some t → Shared.versions s' !! v = Some t) →
  (Shared.generation s' = Shared.generation s ∧ Shared.completed s' = Shared.completed s)
  ∨ Shared.generation s < Shared.generation s' →
  0 ≤ Shared.generation s' ≤ u64_max →
  (Shared.completed s' < length (Shared.versions s'))%nat →
  (∀ v, v ∈ Shared.inflight s' → (v < length (Shared.versions s'))%nat) →
  (∀ v, (v < length (Shared.versions s'))%nat → v ∈ Shared.inflight s' ∨ (v ≤ Shared.completed s')%nat) →
  cache_inv s'.
Proof.
  intros [G V I A L C] El Ec Hver Hgen G' V' I' A'. split; try done.
  - rewrite El. intros i scope g r Hi. destruct (L i scope g r Hi) as [Hle Hs]. split; [lia|].
    intros set Hr. eapply stamped_mono; eauto.
  - rewrite Ec. intros scope e He. eapply stamped_mono; eauto.
Qed.

Lemma cache_step_inv s s' : cache_inv s → cache_step s s' → cache_inv s'.
Proof.
  intros Hinv Hstep. pose proof Hinv as [G V I A L C].
  destruct Hstep as [s table|s v Hv Hg|s scope Hm|s i scope g Hi|s i scope g set Hi].
  - apply (cache_inv_shift s); cbn; rewrite ?length_app; cbn; try done; try lia.
    + intros v t Hv. by apply lookup_app_l_Some.
    + intros v [Hv| ->%list_elem_of_singleton]%elem_of_app; [apply I in Hv; lia|lia].
    + intros v Hv. destruct (base.decide (v = length (Shared.versions s))) as [->|Hne].
      * left. apply elem_of_app. right. by left.
      * destruct (A v) as [?|?]; [lia|left; apply elem_of_app; by left|by right].
  - assert (wrap_u64 (Shared.generation s + 1) = Shared.generation s + 1) as Hw
      by (unfold wrap_u64; apply Z.mod_small; unfold u64_max in *; lia).
    pose proof (I v Hv) as Hlt.
    apply (cache_inv_shift s); cbn; rewrite ?Hw; try done; try lia.
    + intros u Hu. apply elem_of_select in Hu as [Hu _]. by apply I.
    + intros u Hu. destruct (base.decide (u = v)) as [->|Hne]; [right; lia|].
      destruct (A u Hu) as [Hin|?]; [left|right; lia]. apply elem_of_select. split; [done|].
      by apply negb_true_iff, Nat.eqb_neq.
  - split; try done. intros j scope' g r Hj. cbn in *.
    apply lookup_app_Some in Hj as [Hj|[_ Hj]]; [by apply (L j)|].
    apply list_lookup_singleton_Some in Hj as [_ [= <- <- <-]]. done.
  - split; try done. intros j scope' g' r Hj. cbn in *.
    destruct (L i scope g None Hi) as [Hle _].
    destruct (base.decide (i = j)) as [<-|Hne].
    + rewrite list_lookup_insert_eq in Hj by (by eapply lookup_lt_Some).
      injection Hj as <- <- <-. split; [done|]. intros set [= <-]. split; [done|].
      exists (Shared.current s), (Shared.table s). unfold Shared.table, Shared.current.
      destruct (lookup_lt_is_Some_2 (Shared.versions s) (Nat.pred (length (Shared.versions s))))
        as [t Ht]; [lia|].
      rewrite Ht. cbn. split_and!; [done|done|lia].
    + rewrite list_lookup_insert_ne in Hj by done. by apply (L j).
  - split; try done. intros scope' e He. cbn in *. apply cache_put_lookup in He as [[Hk ->]|He].
    + apply scope_key_inj in Hk as ->. destruct (L i _ _ _ Hi) as [_ Hs]. by apply Hs.
    + by apply C.
Qed.

Lemma cache_reachable_inv l s : cache_reachable l s → cache_inv s.
Proof.
  induction 1 as [|s s' _ IH Hstep]; [|by eapply cache_step_inv].
  split; cbn; try done; try lia; try set_solver.
Qed.

(** C18: The evaluation cache never serves a stale set: in every interleaving of lookups and
    mutations, a hit at the current generation is the evaluation set of some version of the
    table no older than any mutation that has returned; when none is in flight, it is the set
    of the current table. *)
Theorem eval_cache_coherent l s scope set
    (Hreach : cache_reachable l s)
    (Hhit : cache_get (scope_key scope) (Shared.generation s) (Shared.cache s) = Some set) :
  (∃ v table, Shared.versions s !! v = Some table ∧ set = prepare scope table
     ∧ (Shared.completed s ≤ v)%nat)
  ∧ (Shared.inflight s = [] → set = prepare scope (Shared.table s)).
Proof.
  apply cache_reachable_inv in Hreach as [G V I A L C].
  unfold cache_get in Hhit.
  destruct (Shared.cache s !! scope_key scope) as [e|] eqn:Ee; cbn in Hhit; [|done].
  destruct (CacheEntry.generation e =? Shared.generation s) eqn:Eg; [|done].
  injection Hhit as <-. apply Z.eqb_eq in Eg.
  destruct (C scope e Ee) as (_ & v & t & Hv & Hset & Hc). specialize (Hc Eg).
  split; [by exists v, t|]. intros Hnone.
  assert (v = Shared.current s) as ->.
  { apply lookup_lt_Some in Hv. unfold Shared.current.
    destruct (A (Nat.pred (length (Shared.versions s)))) as [Hin|Hle]; [lia| |lia].
    rewrite Hnone in Hin. by apply not_elem_of_nil in Hin. }
  rewrite Hset. unfold Shared.table. by rewrite Hv.
Qed.

(** A set loaded before a mutation and stored after it is not served. *)
Lemma eval_cache_coherent_witness :
  let t := Demo.edge_trigger in
  ∃ s, cache_reachable [t] s
    ∧ cache_get ("job", "crawler")%string (Shared.generation s) (Shared.cache s) = Some []
    ∧ Shared.table s = []
    ∧ (Shared.inflight s = [] → [] = prepare (EJob "crawler") (Shared.table s)).
Proof.
  set (t := Demo.edge_trigger).
  assert (∃ s, cache_reachable [t] s
    ∧ cache_get ("job", "crawler")%string (Shared.generation s) (Shared.cache s) = Some []
    ∧ Shared.table s = []) as (s & Hr & Hg & Ht).
  { eexists. split.
    - eapply reach_step. { eapply reach_step. { eapply reach_step. { eapply reach_step.
      { eapply reach_step. { eapply reach_step. { eapply reach_step. { apply reach_initial. }
        (* a lookup samples and loads *) by apply (sample _ (EJob "crawler")). }
        by apply (load_set _ 0 (EJob "crawler") 0). }
        (* the trigger is deleted *) by apply (commit _ []). }
        by apply (bump _ 1); [left|]. }
        (* another lookup *) by apply (sample _ (EJob "crawler")). }
        by apply (load_set _ 1 (EJob "crawler") 1). }
      by apply (store _ 1 (EJob "crawler") 1 []).
    - split; reflexivity. }
  exists s. split_and!; [exact Hr|exact Hg|exact Ht|].
  exact (proj2 (eval_cache_coherent [t] s (EJob "crawler") [] Hr Hg)).
Defined.
