(* ===== verification/Schedules.v ===== *)
(** * Schedules: the schedules table and its decision ledger

    The [schedules] and [schedule_runs] statements of
    [crates/core/src/storage.rs]: the rows an operator or a reconciler keeps, and
    one ledger row per decision of the scheduler. *)

From S2P Require Import Prelude Sql Float64 Json Errors Jobs JobQueue.

Module Schedule.
Record t : Type := mk {
  id : string;
  app : string;
  cron : string;
  params : Json;
  enabled : bool;
  priority : Z;
  timezone : option string;
  misfire_policy : string;
  max_attempts : option Z;
  budget_usd : option f64;
  managed_by : option string;
  last_run : option timestamp;
  last_skipped_at : option timestamp;
  skipped_count : Z;
  created_at : timestamp;
}.
#[global] Instance eta_schedule : Eta t := λ s,
  mk (id s) (app s) (cron s) (params s) (enabled s) (priority s) (timezone s)
    (misfire_policy s) (max_attempts s) (budget_usd s) (managed_by s) (last_run s)
    (last_skipped_at s) (skipped_count s) (created_at s).
End Schedule.
Abbreviation schedules := (list Schedule.t).

Module NewSchedule.
Record t : Type := mk {
  app : string; cron : string; params : Json; priority : Z; timezone : option string;
  misfire_policy : string; max_attempts : option Z; budget_usd : option f64 }.
End NewSchedule.

Definition is_schedule (id : string) (s : Schedule.t) : bool := String.eqb (Schedule.id s) id.

(** [WHERE id = ? AND managed_by = ?]: the ownership fence. *)
Definition managed_row (id tag : string) (s : Schedule.t) : bool :=
  is_schedule id s && bool_decide (Schedule.managed_by s = Some tag).

Definition get_schedule (id : string) (t : schedules) : option Schedule.t :=
  lookup_by Schedule.id id t.

(** ** Rows *)

Definition insert_schedule (id : string) (now : timestamp) (s : NewSchedule.t) (t : schedules)
    : option schedules :=
  if is_some (get_schedule id t) then None
  else Some (t ++ [Schedule.mk id (NewSchedule.app s) (NewSchedule.cron s)
                     (NewSchedule.params s) true (NewSchedule.priority s)
                     (NewSchedule.timezone s) (NewSchedule.misfire_policy s)
                     (NewSchedule.max_attempts s) (NewSchedule.budget_usd s) None None None 0
                     now]).

Definition create_schedule (id : string) (now : timestamp) (s : NewSchedule.t) (t : schedules)
    : schedules * result Error Schedule.t :=
  match insert_schedule id now s t with
  | None => (t, Err unique_violation)
  | Some t' =>
      (t', match get_schedule id t' with
           | Some s => Ok s
           | None => Err (Storage (SqlxOther "RowNotFound"))
           end)
  end.

(** A row whose remaining columns take the table's defaults. *)
Definition default_row (id app cron : string) (params : Json) (enabled : bool)
    (managed_by : option string) (now : timestamp) : Schedule.t :=
  Schedule.mk id app cron params enabled 0 None "fire_once" None None managed_by None None 0 now.

(** [INSERT .. ON CONFLICT(id) DO UPDATE SET .. WHERE managed_by = excluded.managed_by];
    the boolean is [rows_affected() > 0]. *)
Definition upsert_fenced (row : Schedule.t) (tag : string) (set : Schedule.t → Schedule.t)
    (t : schedules) : schedules * bool :=
  if is_some (get_schedule (Schedule.id row) t)
  then (update_where (managed_row (Schedule.id row) tag) set t,
        0 <? rows_affected (managed_row (Schedule.id row) tag) t)
  else (t ++ [row], true).

(** [ON CONFLICT(id) DO NOTHING] *)
Definition seed_schedule (app cron : string) (now : timestamp) (t : schedules) : schedules :=
  let id := ("static-" +:+ app)%string in
  if is_some (get_schedule id t) then t
  else t ++ [default_row id app cron (JObject []) true None now].

Definition by_app (a b : Schedule.t) : bool := String.leb (Schedule.app a) (Schedule.app b).
Definition list_schedules (t : schedules) : schedules := order_by by_app t.

Definition schedule_newest (a b : Schedule.t) : bool :=
  (Schedule.created_at b <? Schedule.created_at a)
  || ((Schedule.created_at a =? Schedule.created_at b)
      && String.leb (Schedule.id b) (Schedule.id a)).
Definition schedule_after (after : option (timestamp * string)) (s : Schedule.t) : bool :=
  match after with
  | None => true
  | Some (ts, id) =>
      (Schedule.created_at s <? ts)
      || ((Schedule.created_at s =? ts) && String.ltb (Schedule.id s) id)
  end.
Definition list_schedules_page (after : option (timestamp * string)) (limit : Z) (t : schedules)
    : schedules :=
  sql_limit limit (order_by schedule_newest (select_where (schedule_after after) t)).

(** An [UPDATE .. WHERE id = ?] and whether the row existed. *)
Definition set_schedule (id : string) (f : Schedule.t → Schedule.t) (t : schedules)
    : schedules * bool :=
  (update_where (is_schedule id) f t, 0 <? rows_affected (is_schedule id) t).

Definition set_schedule_enabled (id : string) (enabled : bool) : schedules → schedules * bool :=
  set_schedule id (λ s, s <| Schedule.enabled := enabled |>).
Definition set_schedule_budget (id : string) (budget_usd : option f64)
    : schedules → schedules * bool :=
  set_schedule id (λ s, s <| Schedule.budget_usd := budget_usd |>).

Definition touch_schedule (id : string) (when : timestamp) (t : schedules) : schedules :=
  update_where (is_schedule id) (λ s, s <| Schedule.last_run := Some when |>) t.

Definition record_schedule_skip (id : string) (when : timestamp) (missed : nat) (t : schedules)
    : schedules :=
  update_where (is_schedule id)
    (λ s, s <| Schedule.last_skipped_at := Some when |>
            <| Schedule.skipped_count ::= λ n, n + Z.of_nat missed |>) t.

Definition delete_schedule (id : string) (t : schedules) : schedules * bool :=
  (delete_where (is_schedule id) t, 0 <? rows_affected (is_schedule id) t).

(** ** Rows owned by a reconciler *)

Definition create_managed_schedule (app cron tag : string) (now : timestamp) (t : schedules)
    : schedules * result Error Schedule.t :=
  let id := ("catalog-" +:+ app)%string in
  let '(t', _) :=
    upsert_fenced (default_row id app cron (JObject []) true (Some tag) now) tag
      (λ s, s <| Schedule.cron := cron |> <| Schedule.enabled := true |>) t in
  (t', match get_schedule id t' with
       | Some s => Ok s
       | None => Err (Storage (SqlxOther "RowNotFound"))
       end).

Definition set_managed_schedule_cron (id cron tag : string) (t : schedules) : schedules * bool :=
  (update_where (managed_row id tag)
     (λ s, s <| Schedule.cron := cron |> <| Schedule.enabled := true |>) t,
   0 <? rows_affected (managed_row id tag) t).

Definition upsert_managed_schedule (id app cron : string) (params : Json) (enabled : bool)
    (tag : string) (now : timestamp) : schedules → schedules * bool :=
  upsert_fenced (default_row id app cron params enabled (Some tag) now) tag
    (λ s, s <| Schedule.cron := cron |> <| Schedule.params := params |>
            <| Schedule.enabled := enabled |>).

Definition set_managed_schedule_enabled (id : string) (enabled : bool) (tag : string)
    (t : schedules) : schedules * bool :=
  (update_where (managed_row id tag) (λ s, s <| Schedule.enabled := enabled |>) t,
   0 <? rows_affected (managed_row id tag) t).

(** ** The decision ledger *)

(** The [detail] of a row: an error's text, the retired dataset, or
    ["collapsed {n} missed firings"]. *)
Inductive RunDetail : Type :=
| DetailText (text : string)
| DetailError (e : Error)
| Collapsed (n : nat).

(** [NewScheduleRun] *)
Module ScheduleRun.
Record t : Type := mk {
  schedule_id : string;
  outcome : string;
  reason : option string;
  due_at : option timestamp;
  job_id : option Uuid;
  missed : nat;
  detail : option RunDetail;
}.
#[global] Instance eta_run : Eta t := λ r,
  mk (schedule_id r) (outcome r) (reason r) (due_at r) (job_id r) (missed r) (detail r).
Definition default : t := mk "" "" None None None 0 None.
End ScheduleRun.

(** A stored row: its key, its fields, its instant. *)
Module RunRow.
Record t : Type := mk { id : string; run : ScheduleRun.t; created_at : timestamp }.
#[global] Instance eta_row : Eta t := λ r, mk (id r) (run r) (created_at r).
End RunRow.
Abbreviation schedule_runs := (list RunRow.t).

Definition SCHEDULE_PASS_ID : string := "*".
Definition SCHEDULE_PASS_HEARTBEAT_ID : string := "scheduler-pass".
Definition SCHEDULE_OUTCOME_PASS : string := "pass".

Definition record_schedule_run (id : string) (now : timestamp) (run : ScheduleRun.t)
    (t : schedule_runs) : schedule_runs * result Error string :=
  if is_some (lookup_by RunRow.id id t) then (t, Err unique_violation)
  else (t ++ [RunRow.mk id run now], Ok id).

Definition run_newest (a b : RunRow.t) : bool :=
  (RunRow.created_at b <? RunRow.created_at a)
  || ((RunRow.created_at a =? RunRow.created_at b) && String.leb (RunRow.id b) (RunRow.id a)).
Definition list_schedule_runs_page (schedule_id : string) (after : option (timestamp * string))
    (limit : Z) (t : schedule_runs) : schedule_runs :=
  sql_limit limit
    (order_by run_newest
       (select_where
          (λ r, String.eqb (ScheduleRun.schedule_id (RunRow.run r)) schedule_id
                && match after with
                   | None => true
                   | Some (ts, id) =>
                       (RunRow.created_at r <? ts)
                       || ((RunRow.created_at r =? ts) && String.ltb (RunRow.id r) id)
                   end) t)).

(** [DELETE .. WHERE created_at < ? AND schedule_id <> '*'] *)
Definition prunable_run (cutoff : timestamp) (r : RunRow.t) : bool :=
  (RunRow.created_at r <? cutoff)
  && negb (String.eqb (ScheduleRun.schedule_id (RunRow.run r)) SCHEDULE_PASS_ID).
Definition prune_schedule_runs (now : timestamp) (d : Z) (t : schedule_runs)
    : schedule_runs * Z :=
  if d =? 0 then (t, 0)
  else (delete_where (prunable_run (now - days d)) t, rows_affected (prunable_run (now - days d)) t).

(** [ON CONFLICT(id) DO UPDATE SET created_at = excluded.created_at] *)
Definition mark_schedule_pass (at_ : timestamp) (t : schedule_runs) : schedule_runs :=
  if is_some (lookup_by RunRow.id SCHEDULE_PASS_HEARTBEAT_ID t) then
    update_where (λ r, String.eqb (RunRow.id r) SCHEDULE_PASS_HEARTBEAT_ID)
      (λ r, r <| RunRow.created_at := at_ |>) t
  else t ++ [RunRow.mk SCHEDULE_PASS_HEARTBEAT_ID
               (ScheduleRun.mk SCHEDULE_PASS_ID SCHEDULE_OUTCOME_PASS None None None 0 None) at_].

Definition schedule_pass_heartbeat (t : schedule_runs) : option timestamp :=
  RunRow.created_at <$> lookup_by RunRow.id SCHEDULE_PASS_HEARTBEAT_ID t.
