(* ===== verification/Scheduler.v ===== *)
(** * Scheduler: the cron reconcile pass of [crates/server/src/scheduler.rs]

    What a tick decides about one schedule ([decide]), the one admission verdict
    ([admission_of]), the step that acts on both ([reconcile_one]) and the pass over the
    table ([reconcile]).  The cron and time zone libraries are an interface
    ([CronLib]).  A panicking app and a failing database are not modelled; the
    refusal of an enqueue is. *)

From S2P Require Import Prelude Sql Float64 Json Errors Jobs JobQueue WorkflowEngine Schedules.
From S2P Require Import SourceHealth.

(** What the scheduler asks of the [cron] and [chrono-tz] crates: a parser (or its
    error's text), zones, and the first firing strictly after an instant, which is
    what one step of [CronSchedule::after] yields. *)
Class CronLib := {
  Cron : Type;
  parse_cron : string → result string Cron;
  Tz : Type;
  UTC : Tz;
  tz_of_name : string → option Tz;
  cron_next : Cron → Tz → timestamp → option timestamp;
}.

Definition DEFAULT_SCHEDULE_MAX_ATTEMPTS : Z := 3.
Definition MAX_MISFIRE_SCAN : nat := Z.to_nat 10000.
Definition COLLAPSE_LOG_CAP : nat := 64.

(** ** The due decision *)

Inductive Action : Type :=
| Idle
| Fire (collapsed : nat)
| Skip (missed : nat)
| SkipThenFire (missed : nat).

Definition misfire_cutoff (last_pass : option timestamp) (now : timestamp) (grace : Z) : timestamp :=
  default (now - grace) last_pass.

Definition schedule_reference (s : Schedule.t) : timestamp :=
  match Schedule.last_run s, Schedule.last_skipped_at s with
  | Some a, Some b => Z.max a b
  | Some a, None | None, Some a => a
  | None, None => Schedule.created_at s
  end.

Definition run_holds_slot (status : option JobStatus) : bool :=
  match status with Some Queued | Some Running | Some Waiting => true | _ => false end.

Section due.
Context `{CronLib}.

Definition parse_tz (name : option string) : Tz := default UTC (name ≫= tz_of_name).

Definition project_next_run (s : Schedule.t) : option timestamp :=
  match parse_cron (Schedule.cron s) with
  | Err _ => None
  | Ok cron => cron_next cron (parse_tz (Schedule.timezone s)) (schedule_reference s)
  end.

Definition pending_firing (cron : Cron) (tz : Tz) (reference : timestamp) : option timestamp :=
  cron_next cron tz reference.

(** [for fire in cron.after(from) { if fire > bound { break } n += 1; if n >= cap { break } }] *)
Fixpoint count_firings (cap : nat) (cron : Cron) (tz : Tz) (from bound : timestamp) : nat :=
  match cap with
  | O => O
  | S cap =>
      match cron_next cron tz from with
      | Some fire => if bound <? fire then O else S (count_firings cap cron tz fire bound)
      | None => O
      end
  end.

Definition collapse_count (cron : Cron) (tz : Tz) (reference now : timestamp) : nat :=
  match cron_next cron tz reference with
  | Some first => count_firings COLLAPSE_LOG_CAP cron tz first now
  | None => O
  end.

Definition missed_count (cron : Cron) (tz : Tz) (reference cutoff now : timestamp) : nat :=
  count_firings MAX_MISFIRE_SCAN cron tz reference (Z.min cutoff now).

Definition has_due_on_time_firing (cron : Cron) (tz : Tz) (reference cutoff now : timestamp)
    : bool :=
  match cron_next cron tz (Z.max reference cutoff) with
  | Some fire => fire <=? now
  | None => false
  end.

Definition decide_action (cron : Cron) (tz : Tz) (reference now : timestamp) (misfire_skip : bool)
    (cutoff : timestamp) : Action :=
  match cron_next cron tz reference with
  | Some fire =>
      if fire <=? now then
        if negb misfire_skip then Fire (collapse_count cron tz reference now)
        else
          let missed := missed_count cron tz reference cutoff now in
          if (missed =? 0)%nat then Fire (collapse_count cron tz reference now)
          else if has_due_on_time_firing cron tz reference cutoff now then SkipThenFire missed
          else Skip missed
      else Idle
  | None => Idle
  end.
End due.

(** ** Liveness of the loop *)

Definition STALE_PASS_TICKS : Z := 4.
Definition STALE_PASS_FLOOR_SECS : Z := 60.
Definition pass_is_stale (last_pass_at : option timestamp) (now : timestamp) (tick_secs : Z) : bool :=
  match last_pass_at with
  | None => true
  | Some last =>
      seconds (Z.max (Z.max tick_secs 1 * STALE_PASS_TICKS) STALE_PASS_FLOOR_SECS) <? now - last
  end.

(** ** Retirement and the live row *)

Definition RETIRABLE_APP : string := "extractor".
Definition EXTRACTOR_DEFAULT_DATASET : string := "extracted".
Definition retirement_dataset (app : string) (params : Json) : option string :=
  if String.eqb app RETIRABLE_APP
  then Some (default EXTRACTOR_DEFAULT_DATASET (json_get "dataset" params ≫= as_str))
  else None.
Definition schedule_blocked_by_retirement (app : string) (params : Json) (stored : SourceState)
    : bool :=
  is_some (retirement_dataset app params) && bool_decide (stored = Retired).

Definition still_firable (fresh : option Schedule.t) : bool :=
  match fresh with Some s => Schedule.enabled s | None => false end.
Definition firing_budget (fresh : option Schedule.t) (snapshot : Schedule.t) : option f64 :=
  match fresh with Some live => Schedule.budget_usd live | None => Schedule.budget_usd snapshot end.

(** ** Admission *)

Inductive ScheduleAdmission : Type :=
| Disabled
| InvalidCron
| UnregisteredApp
| InvalidParams (reason : string)
| RetiredSource (dataset : string)
| Overlapping
| AdmittedRun (params : Json).

Definition health (v : ScheduleAdmission) : string :=
  match v with
  | Disabled => "disabled"
  | InvalidCron => "invalid_cron"
  | UnregisteredApp => "unregistered_app"
  | InvalidParams _ => "invalid_params"
  | RetiredSource _ => "retired"
  | Overlapping => "overlapping"
  | AdmittedRun _ => "ok"
  end.

Inductive StepOutcome : Type := OIdle | Fired | Skipped | SkippedAndFired | Held | Refused.

(** The tables a pass reads and writes, the worker wake-ups, and how many ids were
    drawn. *)
Module Sched.
Record t : Type := mk {
  schedules : list Schedule.t; runs : schedule_runs; jobs : table; health : Health.t;
  wakeups : nat; drawn : nat }.
#[global] Instance eta_sched : Eta t := λ w,
  mk (schedules w) (runs w) (jobs w) (health w) (wakeups w) (drawn w).
End Sched.

(** [PassTally] *)
Module Tally.
Record t : Type := mk {
  considered : nat; fired : nat; skipped : nat; held : nat; refused : nat; failed : nat;
  stopped_early : bool }.
#[global] Instance eta_tally : Eta t := λ r,
  mk (considered r) (fired r) (skipped r) (held r) (refused r) (failed r) (stopped_early r).
Definition default : t := mk 0 0 0 0 0 0 false.
End Tally.

Section pass.
Context `{CronLib}.
Context (registry : string → option App) (validate_params : Json → Json → option string)
  (new_v4 : nat → Uuid) (new_run_id : nat → string) (resilience : Cfg.t).

Definition schedule_params (app : string) (params : Json) : Json :=
  let defaults := match registry app with Some app => default_params app | None => JNull end in
  let over :=
    match params with
    | JNull | JObject [] => None
    | _ => Some params
    end in
  merge_params defaults over.

Definition validate_schedule_params (app : string) (params : Json) : result string Json :=
  let effective := schedule_params app params in
  match validate_app_params registry validate_params app effective with
  | Err message => Err message
  | Ok _ => Ok effective
  end.

(** The newest firing of a schedule. *)
Definition latest_run (schedule_id : string) (w : Sched.t) : option Uuid * bool :=
  let latest := latest_job_for_schedule schedule_id (Sched.jobs w) in
  (fst <$> latest, run_holds_slot (snd <$> latest)).

Definition admission_of (s : Schedule.t) (w : Sched.t) : ScheduleAdmission :=
  if negb (Schedule.enabled s) then Disabled
  else if negb (is_some (project_next_run s)) then InvalidCron
  else if negb (is_some (registry (Schedule.app s))) then UnregisteredApp
  else match validate_schedule_params (Schedule.app s) (Schedule.params s) with
  | Err reason => InvalidParams reason
  | Ok params =>
      let overlap :=
        if snd (latest_run (Schedule.id s) w) then Overlapping else AdmittedRun params in
      match retirement_dataset (Schedule.app s) params with
      | Some dataset =>
          if schedule_blocked_by_retirement (Schedule.app s) params
               (SourceHealth.state resilience (Schedule.app s) dataset (Sched.health w))
          then RetiredSource dataset
          else overlap
      | None => overlap
      end
  end.

(** ** Writes *)

(** A row that cannot be written is dropped. *)
Definition record_decision (now : timestamp) (run : ScheduleRun.t) (w : Sched.t) : Sched.t :=
  w <| Sched.runs := fst (record_schedule_run (new_run_id (Sched.drawn w)) now run (Sched.runs w)) |>
    <| Sched.drawn ::= S |>.

Definition refusal (schedule_id reason : string) (due_at : option timestamp) : ScheduleRun.t :=
  ScheduleRun.default <| ScheduleRun.schedule_id := schedule_id |>
    <| ScheduleRun.outcome := "refused"%string |> <| ScheduleRun.reason := Some reason |>
    <| ScheduleRun.due_at := due_at |>.

Definition skip_row (schedule_id reason : string) (due_at : option timestamp) (missed : nat)
    (detail : option RunDetail) : ScheduleRun.t :=
  ScheduleRun.mk schedule_id "skipped" (Some reason) due_at None missed detail.

Definition skip_schedule (id : string) (now : timestamp) (missed : nat) (w : Sched.t) : Sched.t :=
  w <| Sched.schedules ::= record_schedule_skip id now missed |>.

Definition firing_opts (s : Schedule.t) (fresh : option Schedule.t) (params : Json) : Opts.t :=
  Opts.default <| Opts.params := params |>
    <| Opts.max_attempts := default DEFAULT_SCHEDULE_MAX_ATTEMPTS (Schedule.max_attempts s) |>
    <| Opts.priority := Schedule.priority s |>
    <| Opts.schedule_id := Some (Schedule.id s) |>
    <| Opts.target_key := target_key_for registry (Schedule.app s) params |>
    <| Opts.budget_usd := firing_budget fresh s |>.

(** The enqueue, [last_run], the wake-up and the ledger row of a firing. *)
Definition fire (now : timestamp) (s : Schedule.t) (params : Json) (reason : string)
    (due_at : option timestamp) (collapsed missed : nat) (w : Sched.t)
    : Sched.t * result Error StepOutcome :=
  let fresh := get_schedule (Schedule.id s) (Sched.schedules w) in
  if negb (still_firable fresh) then
    (record_decision now (refusal (Schedule.id s) (health Disabled) due_at) w, Ok Refused)
  else
    let '(jobs, r) :=
      enqueue (new_v4 (Sched.drawn w)) now (Schedule.app s) (firing_opts s fresh params)
        (Sched.jobs w) in
    let w := w <| Sched.jobs := jobs |> <| Sched.drawn ::= S |> in
    match r with
    | Err e => (w, Err e)
    | Ok job =>
        let w := w <| Sched.schedules ::= touch_schedule (Schedule.id s) now |>
                   <| Sched.wakeups ::= S |> in
        let w := record_decision now
                   (ScheduleRun.mk (Schedule.id s) "fired" (Some reason) due_at (Some (Job.id job)) 0
                      (if (0 <? collapsed)%nat then Some (Collapsed collapsed) else None)) w in
        if (missed =? 0)%nat then (w, Ok Fired)
        else
          let w := skip_schedule (Schedule.id s) now missed w in
          (record_decision now (skip_row (Schedule.id s) reason due_at missed None) w,
           Ok SkippedAndFired)
    end.

(** ** One schedule *)

(** What follows a due decision: the verdict, then the misfire policy, the overlap
    guard and the firing. *)
Definition step_due (s : Schedule.t) (cron : Cron) (now : timestamp) (missed collapsed : nat)
    (fires : bool) (w : Sched.t) : Sched.t * result Error StepOutcome :=
  let due_at := pending_firing cron (parse_tz (Schedule.timezone s)) (schedule_reference s) in
  let verdict := admission_of s w in
  let reason := health verdict in
  let refuse (detail : option RunDetail) :=
    (record_decision now ((refusal (Schedule.id s) reason due_at)
                            <| ScheduleRun.detail := detail |>) w, Ok Refused) in
  let admitted (params : option Json) :=
    if negb fires then
      (record_decision now (skip_row (Schedule.id s) reason due_at missed None)
         (skip_schedule (Schedule.id s) now missed w), Ok Skipped)
    else
      match params with
      | None =>
          (record_decision now
             (ScheduleRun.mk (Schedule.id s) "held" (Some reason) due_at
                (fst (latest_run (Schedule.id s) w)) 0 None) w, Ok Held)
      | Some params => fire now s params reason due_at collapsed missed w
      end in
  match verdict with
  | Disabled | InvalidCron | UnregisteredApp => refuse None
  | InvalidParams detail => refuse (Some (DetailText detail))
  | RetiredSource dataset =>
      let eaten := (missed + collapsed + if fires then 1 else 0)%nat in
      (record_decision now (skip_row (Schedule.id s) reason due_at eaten (Some (DetailText dataset)))
         (skip_schedule (Schedule.id s) now eaten w), Ok Skipped)
  | Overlapping => admitted None
  | AdmittedRun params => admitted (Some params)
  end.

Definition reconcile_one (s : Schedule.t) (cron : Cron) (cutoff now : timestamp) (w : Sched.t)
    : Sched.t * result Error StepOutcome :=
  let misfire_skip := String.eqb (Schedule.misfire_policy s) "skip" in
  match decide_action cron (parse_tz (Schedule.timezone s)) (schedule_reference s) now
          misfire_skip cutoff with
  | Idle => (w, Ok OIdle)
  | Fire collapsed => step_due s cron now O collapsed true w
  | Skip missed => step_due s cron now missed O false w
  | SkipThenFire missed => step_due s cron now missed O true w
  end.

(** ** The pass *)

Definition absorb (r : result Error StepOutcome) (t : Tally.t) : Tally.t :=
  let t := t <| Tally.considered ::= S |> in
  match r with
  | Ok OIdle => t
  | Ok Fired => t <| Tally.fired ::= S |>
  | Ok Skipped => t <| Tally.skipped ::= S |>
  | Ok SkippedAndFired => t <| Tally.skipped ::= S |> <| Tally.fired ::= S |>
  | Ok Held => t <| Tally.held ::= S |>
  | Ok Refused => t <| Tally.refused ::= S |>
  | Err _ => t <| Tally.failed ::= S |>
  end.
Definition acted (t : Tally.t) : bool :=
  (0 <? Tally.fired t + Tally.skipped t + Tally.held t + Tally.refused t + Tally.failed t)%nat
  || Tally.stopped_early t.

(** The parsed expressions kept across ticks. *)
Abbreviation cron_cache := (list (string * Cron)).
Definition cached (cron : string) (cache : cron_cache) : cron_cache * result string Cron :=
  match map_get cron cache with
  | Some c => (cache, Ok c)
  | None =>
      match parse_cron cron with
      | Ok c => (map_insert cron c cache, Ok c)
      | Err e => (cache, Err e)
      end
  end.

(** One row of the pass: its expression, its step, its ledger row when it failed. *)
Definition reconcile_row (s : Schedule.t) (cutoff now : timestamp) (cache : cron_cache)
    (w : Sched.t) : cron_cache * Sched.t * result Error StepOutcome :=
  let '(cache, cron) := cached (Schedule.cron s) cache in
  match cron with
  | Err e =>
      (cache,
       record_decision now ((refusal (Schedule.id s) (health InvalidCron) None)
                              <| ScheduleRun.detail := Some (DetailText e) |>) w,
       Ok Refused)
  | Ok cron =>
      let '(w, outcome) := reconcile_one s cron cutoff now w in
      (cache,
       match outcome with
       | Ok _ => w
       | Err e =>
           record_decision now
             (ScheduleRun.default <| ScheduleRun.schedule_id := Schedule.id s |>
                <| ScheduleRun.outcome := "failed"%string |>
                <| ScheduleRun.detail := Some (DetailError e) |>) w
       end, outcome)
  end.

(** [cancelled i]: the shutdown token has fired when the pass reaches the [i]-th
    enabled row. *)
Fixpoint reconcile_rows (cancelled : nat → bool) (i : nat) (rows : list Schedule.t)
    (cutoff now : timestamp) (cache : cron_cache) (w : Sched.t) (t : Tally.t)
    : cron_cache * Sched.t * Tally.t :=
  match rows with
  | [] => (cache, w, t)
  | s :: rows =>
      if negb (Schedule.enabled s) then reconcile_rows cancelled i rows cutoff now cache w t
      else if cancelled i then (cache, w, t <| Tally.stopped_early := true |>)
      else
        let '(cache, w, outcome) := reconcile_row s cutoff now cache w in
        reconcile_rows cancelled (S i) rows cutoff now cache w (absorb outcome t)
  end.

Definition reconcile (cancelled : nat → bool) (tick_secs : Z) (last_pass : option timestamp)
    (now : timestamp) (cache : cron_cache) (w : Sched.t) : cron_cache * Sched.t * Tally.t :=
  let grace := seconds (Z.max tick_secs 1 * 2) in
  let cutoff := misfire_cutoff last_pass now grace in
  reconcile_rows cancelled 0 (list_schedules (Sched.schedules w)) cutoff now cache w Tally.default.

(** The pass and its heartbeat, the scheduler's part of [tick_once]. *)
Definition tick (cancelled : nat → bool) (tick_secs : Z) (last_pass : option timestamp)
    (now : timestamp) (cache : cron_cache) (w : Sched.t) : cron_cache * Sched.t * Tally.t :=
  let '(cache, w, t) := reconcile cancelled tick_secs last_pass now cache w in
  (cache, w <| Sched.runs ::= mark_schedule_pass now |>, t).
End pass.
