(* ===== verification/SchedulerTheorems.v ===== *)
(** * SchedulerTheorems: what a pass does to each firing

    The due decision against the set of firings, what one step leaves behind, no
    schedule stacking runs, and the pass that no failing row stops. *)

From S2P Require Import Prelude Sql Float64 Json Errors Jobs JobQueue WorkflowEngine Schedules.
From S2P Require Import QueueInvariants QueueTheorems SourceHealth Scheduler.

#[local] Arguments lookup_by : simpl never.
#[local] Arguments update_where : simpl never.
#[local] Arguments select_where : simpl never.

(** The documented behaviour of [CronSchedule::after(r).next()]: the earliest
    firing strictly later than [r]. *)
Class CronLaws `{CronLib} := {
  fires_at : Cron → Tz → timestamp → Prop;
  cron_next_spec c tz r :
    match cron_next c tz r with
    | Some f => fires_at c tz f ∧ r < f ∧ ∀ g, fires_at c tz g → r < g → f ≤ g
    | None => ∀ g, fires_at c tz g → g ≤ r
    end;
}.

(** ** The decision *)

(** [n] is the number of instants that satisfy [P], or [cap] when there are as many. *)
Definition counts (P : timestamp → Prop) (cap n : nat) : Prop :=
  ∃ l, StronglySorted Z.lt l ∧ length l = n ∧ (n ≤ cap)%nat
       ∧ (∀ g, g ∈ l → P g) ∧ ((n < cap)%nat → ∀ g, P g → g ∈ l).

Section decision.
Context `{CronLaws} (cron : Cron) (tz : Tz).

Definition pending (reference now g : timestamp) : Prop :=
  fires_at cron tz g ∧ reference < g ≤ now.

Lemma count_firings_spec cap from bound :
  counts (pending from bound) cap (count_firings cap cron tz from bound).
Proof.
  unfold counts, pending. revert from. induction cap as [|cap IH]; intros from.
  { exists []. split_and!; [constructor|done|done|set_solver|cbn; lia]. }
  cbn [count_firings]. pose proof (cron_next_spec cron tz from) as Hn.
  destruct (cron_next cron tz from) as [f|].
  - destruct Hn as (Hf & Hlt & Hmin). destruct (bound <? f) eqn:Eb; breflect_in Eb.
    + exists []. split_and!; [constructor|done|lia|set_solver|].
      intros _ g [Hg Hb]. specialize (Hmin g Hg). lia.
    + destruct (IH f) as (l & Hs & Hl & Hc & Hin & Hall). exists (f :: l). split_and!.
      * constructor; [done|]. apply Forall_forall. intros g Hg. apply Hin in Hg. lia.
      * cbn. lia.
      * lia.
      * intros g [->|Hg]%elem_of_cons; [split; [done|lia]|]. apply Hin in Hg as [? ?].
        split; [done|lia].
      * intros Hcap g [Hg Hb]. destruct (decide (g = f)) as [->|Hne]; [left|].
        right. apply Hall; [lia|]. specialize (Hmin g Hg). split; [done|lia].
  - exists []. split_and!; [constructor|done|lia|set_solver|].
    intros _ g [Hg Hb]. specialize (Hn g Hg). lia.
Qed.

Lemma counts_pos P cap n : counts P cap n → (0 < n)%nat → ∃ g, P g.
Proof. intros ([|g l] & _ & Hl & _ & Hin & _) Hn; [cbn in Hl; lia|]. exists g. apply Hin. left. Qed.
Lemma counts_zero P cap : counts P cap 0 → (0 < cap)%nat → ∀ g, ¬ P g.
Proof.
  intros ([|? l] & _ & Hl & _ & _ & Hall) Hc g Hg; [|done].
  specialize (Hall Hc g Hg). by apply not_elem_of_nil in Hall.
Qed.

(** Each firing is classified on its own: with [pending] the firings after the reference
    and up to now, a tick is idle exactly when there is none, [fire_once] runs once and counts
    the rest, and [skip] advances past exactly the firings a previous pass had its chance at
    (all of them, up to the scan cap) and still runs if one is on time. *)
Theorem decide_classifies_each_firing reference now misfire_skip cutoff :
  match decide_action cron tz reference now misfire_skip cutoff with
  | Idle => ∀ g, ¬ pending reference now g
  | Fire collapsed =>
      (∃ first, pending reference now first ∧ (∀ g, pending reference now g → first ≤ g)
        ∧ counts (λ g, pending reference now g ∧ g ≠ first) COLLAPSE_LOG_CAP collapsed)
      ∧ (misfire_skip = true → ∀ g, pending reference now g → cutoff < g)
  | Skip missed =>
      misfire_skip = true ∧ (0 < missed)%nat
      ∧ counts (λ g, pending reference now g ∧ g ≤ cutoff) MAX_MISFIRE_SCAN missed
      ∧ ∀ g, pending reference now g → g ≤ cutoff
  | SkipThenFire missed =>
      misfire_skip = true ∧ (0 < missed)%nat
      ∧ counts (λ g, pending reference now g ∧ g ≤ cutoff) MAX_MISFIRE_SCAN missed
      ∧ ∃ g, pending reference now g ∧ cutoff < g
  end.
Proof.
  unfold decide_action, collapse_count. pose proof (cron_next_spec cron tz reference) as Hn.
  destruct (cron_next cron tz reference) as [f|]; cycle 1.
  { intros g [Hg Hb]. specialize (Hn g Hg). lia. }
  destruct Hn as (Hf & Hlt & Hmin). destruct (f <=? now) eqn:En; breflect_in En; cycle 1.
  { intros g [Hg Hb]. specialize (Hmin g Hg). lia. }
  assert (∃ first, pending reference now first ∧ (∀ g, pending reference now g → first ≤ g)
    ∧ counts (λ g, pending reference now g ∧ g ≠ first) COLLAPSE_LOG_CAP
        (count_firings COLLAPSE_LOG_CAP cron tz f now)) as Hfire.
  { exists f. split; [by split; [|lia]|]. split; [intros g [Hg Hb]; apply Hmin; [done|lia]|].
    destruct (count_firings_spec COLLAPSE_LOG_CAP f now) as (l & Hs & Hl & Hc & Hin & Hall).
    exists l. split_and!; try done.
    - intros g Hg. apply Hin in Hg as [? ?]. split; [by split; [|lia]|lia].
    - intros Hcap g [[Hg Hb] Hne]. apply Hall; [done|]. specialize (Hmin g Hg). split; [done|lia]. }
  destruct misfire_skip; cbn [negb]; [|by split].
  unfold missed_count.
  pose proof (count_firings_spec MAX_MISFIRE_SCAN reference (Z.min cutoff now)) as Hm.
  set (missed := count_firings MAX_MISFIRE_SCAN cron tz reference (Z.min cutoff now)) in *.
  assert (∀ g, pending reference (Z.min cutoff now) g
               ↔ pending reference now g ∧ g ≤ cutoff) as Heq
    by (intros g; unfold pending; intuition lia).
  destruct (missed =? 0)%nat eqn:E0.
  { apply Nat.eqb_eq in E0. rewrite E0 in Hm. split; [done|]. intros _ g Hg.
    pose proof (counts_zero _ _ Hm ltac:(unfold MAX_MISFIRE_SCAN; lia) g) as Hno.
    rewrite Heq in Hno. apply Z.nle_gt. tauto. }
  apply Nat.eqb_neq in E0.
  assert (counts (λ g, pending reference now g ∧ g ≤ cutoff) MAX_MISFIRE_SCAN missed) as Hm'.
  { destruct Hm as (l & ? & ? & ? & Hin & Hall). exists l. split_and!; try done.
    - intros g Hg. by apply Heq, Hin.
    - intros Hc g Hg. by apply Hall, Heq. }
  unfold has_due_on_time_firing.
  pose proof (cron_next_spec cron tz (Z.max reference cutoff)) as Hn2.
  destruct (cron_next cron tz (Z.max reference cutoff)) as [f2|].
  - destruct Hn2 as (Hf2 & Hlt2 & Hmin2). destruct (f2 <=? now) eqn:E2; breflect_in E2.
    + split_and!; [done|lia|done|]. exists f2. split; [by split; [|lia]|lia].
    + split_and!; [done|lia|done|]. intros g [Hg Hb]. apply Z.nlt_ge. intros Hc.
      specialize (Hmin2 g Hg). lia.
  - split_and!; [done|lia|done|]. intros g [Hg Hb]. apply Z.nlt_ge. intros Hc.
    specialize (Hn2 g Hg). lia.
Qed.

Lemma decide_classifies_counts reference now misfire_skip cutoff :
  match decide_action cron tz reference now misfire_skip cutoff with
  | Skip missed | SkipThenFire missed => (0 < missed)%nat
  | Idle | Fire _ => True
  end.
Proof.
  unfold decide_action. repeat case_match; try done; simplify_eq;
    match goal with H : (_ =? 0)%nat = false |- _ => apply Nat.eqb_neq in H; lia end.
Qed.

(** A reference at or past now leaves nothing due. *)
Lemma decide_settled reference now misfire_skip cutoff :
  now ≤ reference → decide_action cron tz reference now misfire_skip cutoff = Idle.
Proof.
  intros Hle. unfold decide_action. pose proof (cron_next_spec cron tz reference) as Hn.
  destruct (cron_next cron tz reference) as [f|]; [|done].
  destruct Hn as (_ & Hlt & _). by rewrite (proj2 (Z.leb_gt f now)) by lia.
Qed.
End decision.

(** ** One step *)

Lemma get_schedule_update id f t :
  (∀ s, Schedule.id (f s) = Schedule.id s) →
  get_schedule id (update_where (is_schedule id) f t) = f <$> get_schedule id t.
Proof.
  intros Hf. unfold get_schedule. rewrite (lookup_by_update Schedule.id) by done.
  destruct (lookup_by Schedule.id id t) as [s|] eqn:E; [|done]. cbn.
  apply lookup_by_Some in E as [_ He]. unfold is_schedule. by rewrite He, String.eqb_refl.
Qed.

Lemma touch_schedule_get id now t :
  get_schedule id (touch_schedule id now t)
    = (λ s, s <| Schedule.last_run := Some now |>) <$> get_schedule id t.
Proof. by apply get_schedule_update. Qed.

Lemma record_skip_get id now missed t :
  get_schedule id (record_schedule_skip id now missed t)
    = (λ s, s <| Schedule.last_skipped_at := Some now |>
              <| Schedule.skipped_count ::= λ n, n + Z.of_nat missed |>) <$> get_schedule id t.
Proof. by apply get_schedule_update. Qed.

(** An enqueue without an idempotency key. *)
Lemma enqueue_plain id now app opts t t' r :
  Opts.idempotency_key opts = None → enqueue id now app opts t = (t', r) →
  match r with
  | Ok job => t' = t ++ [new_row id app opts None now] ∧ job = new_row id app opts None now
  | Err _ => t' = t
  end.
Proof.
  intros Hk. unfold enqueue, enqueue_dedup.
  destruct (enqueue_dedup_as id now app opts None t) as [t1 r1] eqn:E. intros [= <- <-].
  apply enqueue_dedup_as_cases in E. destruct r1 as [[job []]|e]; [by destruct E as [-> ->]| |exact E].
  destruct E as [_ [? Hs]]. by rewrite Hk in Hs.
Qed.

Section step.
Context `{CronLaws} (registry : string → option App)
  (validate_params : Json → Json → option string) (new_v4 : nat → Uuid)
  (new_run_id : nat → string) (resilience : Cfg.t).

Abbreviation reconcile_one := (reconcile_one registry validate_params new_v4 new_run_id resilience).
Abbreviation step_due := (step_due registry validate_params new_v4 new_run_id resilience).
Abbreviation fire := (fire registry new_v4 new_run_id).
Abbreviation admission_of := (admission_of registry validate_params resilience).

(** The row of a schedule after a step that acted at [now]. *)
Definition advanced (fired : bool) (eaten : nat) (now : timestamp) (live : Schedule.t) : Schedule.t :=
  let live := if fired then live <| Schedule.last_run := Some now |> else live in
  if (eaten =? 0)%nat && fired then live
  else live <| Schedule.last_skipped_at := Some now |>
            <| Schedule.skipped_count ::= λ n, n + Z.of_nat eaten |>.

Lemma advanced_reference fired eaten now live : now ≤ schedule_reference (advanced fired eaten now live).
Proof.
  unfold advanced, schedule_reference.
  destruct fired, (eaten =? 0)%nat, live as [????????????? ? ?]; cbn;
    repeat case_match; simplify_eq; lia.
Qed.

(** What an outcome says about the tables. *)
Definition accounts (s live : Schedule.t) (now : timestamp) (w w' : Sched.t)
    (r : result Error StepOutcome) : Prop :=
  let queued :=
    ∃ job, Sched.jobs w' = Sched.jobs w ++ [job]
      ∧ Job.app job = Schedule.app s ∧ Job.schedule_id job = Some (Schedule.id s)
      ∧ Job.status job = Queued ∧ Job.attempts job = 0 ∧ Job.created_at job = now
      ∧ Job.budget_usd job = Schedule.budget_usd live ∧ Schedule.enabled live = true
      ∧ admission_of s w = AdmittedRun (Job.params job)
      ∧ snd (latest_run (Schedule.id s) w) = false in
  let row f n := get_schedule (Schedule.id s) (Sched.schedules w') = Some (advanced f n now live) in
  match r with
  | Ok Fired => queued ∧ row true O
  | Ok SkippedAndFired => queued ∧ ∃ n, (0 < n)%nat ∧ row true n
  | Ok Skipped => Sched.jobs w' = Sched.jobs w ∧ ∃ n, (0 < n)%nat ∧ row false n
  | Ok OIdle | Ok Held | Ok Refused | Err _ =>
      Sched.jobs w' = Sched.jobs w ∧ Sched.schedules w' = Sched.schedules w
  end.

Lemma admitted_free s w params :
  admission_of s w = AdmittedRun params → snd (latest_run (Schedule.id s) w) = false.
Proof.
  unfold Scheduler.admission_of. intros Ha.
  destruct (latest_run (Schedule.id s) w) as [holder []]; [|done].
  exfalso. cbn in Ha. repeat case_match; done.
Qed.

Lemma fire_accounts s live now params reason due_at collapsed missed w w' r :
  get_schedule (Schedule.id s) (Sched.schedules w) = Some live →
  admission_of s w = AdmittedRun params →
  fire now s params reason due_at collapsed missed w = (w', r) → accounts s live now w w' r.
Proof.
  intros Hlive Ha. unfold Scheduler.fire. rewrite Hlive. cbn [still_firable].
  destruct (Schedule.enabled live) eqn:Een; cbn [negb]; [|by intros [= <- <-]].
  destruct (enqueue _ _ _ _ _) as [jobs [job|e]] eqn:Eq;
    apply enqueue_plain in Eq; try done; [|intros [= <- <-]; by split].
  destruct Eq as [-> ->].
  assert (∀ w2, Sched.jobs w2 = Sched.jobs w ++ [new_row (new_v4 (Sched.drawn w)) (Schedule.app s)
            (firing_opts registry s (Some live) params) None now] →
    ∃ job, Sched.jobs w2 = Sched.jobs w ++ [job]
      ∧ Job.app job = Schedule.app s ∧ Job.schedule_id job = Some (Schedule.id s)
      ∧ Job.status job = Queued ∧ Job.attempts job = 0 ∧ Job.created_at job = now
      ∧ Job.budget_usd job = Schedule.budget_usd live ∧ Schedule.enabled live = true
      ∧ admission_of s w = AdmittedRun (Job.params job)
      ∧ snd (latest_run (Schedule.id s) w) = false) as Hq.
  { intros w2 Hw2. eexists. split; [exact Hw2|]. split_and!; try done.
    by eapply admitted_free. }
  destruct (missed =? 0)%nat eqn:Em; intros [= <- <-]; (split; [by apply Hq|]).
  - cbn. rewrite touch_schedule_get, Hlive. by unfold advanced.
  - exists missed. apply Nat.eqb_neq in Em. split; [lia|]. cbn.
    rewrite record_skip_get, touch_schedule_get, Hlive. unfold advanced.
    by rewrite (proj2 (Nat.eqb_neq missed 0)).
Qed.

Lemma step_due_accounts s cron live now missed collapsed fires w w' r :
  get_schedule (Schedule.id s) (Sched.schedules w) = Some live →
  (fires = false → (0 < missed)%nat) →
  step_due s cron now missed collapsed fires w = (w', r) → accounts s live now w w' r.
Proof.
  intros Hlive Hpos. unfold Scheduler.step_due.
  assert (∀ n, (0 < n)%nat → ∀ run, accounts s live now w
            (record_decision new_run_id now run (skip_schedule (Schedule.id s) now n w))
            (Ok Skipped)) as Hskip.
  { intros n Hn run. split; [done|]. exists n. split; [done|]. cbn.
    rewrite record_skip_get, Hlive. unfold advanced. by rewrite andb_false_r. }
  destruct (Scheduler.admission_of _ _ _ s w) eqn:Ea; try (by intros [= <- <-]).
  - intros [= <- <-]. apply Hskip. destruct fires; [lia|]. specialize (Hpos eq_refl). lia.
  - destruct fires; intros [= <- <-]; [done|]. by apply Hskip, Hpos.
  - destruct fires; cbn [negb]; [by apply fire_accounts|]. intros [= <- <-]. by apply Hskip, Hpos.
Qed.

Lemma reconcile_one_accounts s cron cutoff now w w' r live :
  get_schedule (Schedule.id s) (Sched.schedules w) = Some live →
  reconcile_one s cron cutoff now w = (w', r) → accounts s live now w w' r.
Proof.
  intros Hlive. unfold Scheduler.reconcile_one.
  pose proof (decide_classifies_counts cron (parse_tz (Schedule.timezone s)) (schedule_reference s) now
                (String.eqb (Schedule.misfire_policy s) "skip") cutoff) as Hd.
  destruct (decide_action _ _ _ _ _ _); [by intros [= <- <-]|..]; by apply step_due_accounts.
Qed.

(** A firing is run, skipped or kept, never lost and never doubled.  A step that ran
    appended one queued job, with the live row's budget and admitted parameters, while no
    newest run of the schedule was open, and moved [last_run]; a step that skipped moved only
    the skip columns; either way nothing more is due at that instant, under any policy.  Every
    other step, failed ones included, leaves jobs and schedules as they were, so the firing
    stays due. *)
Theorem step_settles_or_keeps_due s cron cutoff now w w' r live :
  get_schedule (Schedule.id s) (Sched.schedules w) = Some live →
  reconcile_one s cron cutoff now w = (w', r) →
  accounts s live now w w' r
  ∧ (r = Ok Fired ∨ r = Ok Skipped ∨ r = Ok SkippedAndFired →
     ∃ live', get_schedule (Schedule.id s) (Sched.schedules w') = Some live'
       ∧ ∀ tz misfire_skip cutoff',
           decide_action cron tz (schedule_reference live') now misfire_skip cutoff' = Idle).
Proof.
  intros Hlive Hr. pose proof (reconcile_one_accounts _ _ _ _ _ _ _ _ Hlive Hr) as Ha.
  split; [done|]. intros Hact.
  assert (∃ f n, get_schedule (Schedule.id s) (Sched.schedules w') = Some (advanced f n now live))
    as (f & n & Hg).
  { destruct Hact as [-> | [-> | ->]]; destruct Ha as [_ Ha];
      [by eexists _, _|destruct Ha as (n & _ & Ha); by eexists _, _..]. }
  exists (advanced f n now live). split; [done|]. intros. apply decide_settled, advanced_reference.
Qed.

(** ** No schedule stacks runs *)

(** A schedule deleted since the pass read it. *)
Lemma reconcile_one_gone s cron cutoff now w w' r :
  get_schedule (Schedule.id s) (Sched.schedules w) = None →
  reconcile_one s cron cutoff now w = (w', r) →
  Sched.jobs w' = Sched.jobs w ∧ r ≠ Ok Fired ∧ r ≠ Ok SkippedAndFired.
Proof.
  intros Hl. unfold Scheduler.reconcile_one, Scheduler.step_due, Scheduler.fire.
  rewrite Hl. cbn [still_firable negb]. repeat case_match; intros [= <- <-]; by split_and!.
Qed.

(** What a step does to the jobs, whether or not the schedule's row is still there. *)
Lemma reconcile_one_jobs s cron cutoff now w w' r :
  reconcile_one s cron cutoff now w = (w', r) →
  Sched.jobs w' = Sched.jobs w
  ∨ ∃ job, Sched.jobs w' = Sched.jobs w ++ [job] ∧ Job.schedule_id job = Some (Schedule.id s)
           ∧ Job.created_at job = now ∧ snd (latest_run (Schedule.id s) w) = false.
Proof.
  intros Hr. destruct (get_schedule (Schedule.id s) (Sched.schedules w)) as [live|] eqn:Hl.
  - pose proof (reconcile_one_accounts _ _ _ _ _ _ _ _ Hl Hr) as Ha. unfold accounts in Ha.
    destruct r as [[]|]; naive_solver.
  - left. by apply (reconcile_one_gone _ _ _ _ _ _ _ Hl) in Hr as [? _].
Qed.
End step.

Definition open_job (r : Job.t) : bool := negb (JobStatus.is_terminal (Job.status r)).
Lemma run_holds_slot_open st : run_holds_slot (Some st) = negb (JobStatus.is_terminal st).
Proof. by destruct st. Qed.
Definition of_schedule (sid : string) (r : Job.t) : bool :=
  bool_decide (Job.schedule_id r = Some sid).

(** Jobs move on, but a closed one is not re-opened, and none changes hands. *)
Definition moves_on (r r' : Job.t) : Prop :=
  Job.schedule_id r' = Job.schedule_id r ∧ Job.created_at r' = Job.created_at r
  ∧ (open_job r' = true → open_job r = true).

(** The passes of a scheduler, at increasing instants and with whatever snapshot each
    holds, interleaved with everything else that happens to the jobs. *)
Inductive scheduled `{CronLib} (registry : string → option App)
    (validate_params : Json → Json → option string) (new_v4 : nat → Uuid)
    (new_run_id : nat → string) (resilience : Cfg.t) : timestamp → Sched.t → Prop :=
| scheduled_start T w :
    Forall (λ r, Job.schedule_id r = None) (Sched.jobs w) →
    scheduled registry validate_params new_v4 new_run_id resilience T w
| scheduled_step T w s cron cutoff now w' r :
    scheduled registry validate_params new_v4 new_run_id resilience T w → T < now →
    reconcile_one registry validate_params new_v4 new_run_id resilience s cron cutoff now w = (w', r) →
    scheduled registry validate_params new_v4 new_run_id resilience now w'
| scheduled_jobs T w jobs :
    scheduled registry validate_params new_v4 new_run_id resilience T w →
    Forall2 moves_on (Sched.jobs w) jobs →
    scheduled registry validate_params new_v4 new_run_id resilience T (w <| Sched.jobs := jobs |>)
| scheduled_enqueue T w job :
    scheduled registry validate_params new_v4 new_run_id resilience T w → Job.schedule_id job = None →
    scheduled registry validate_params new_v4 new_run_id resilience T
      (w <| Sched.jobs ::= λ t, t ++ [job] |>).

(** In table order, a schedule's jobs are older first and all but the last closed. *)
Record unstacked (T : timestamp) (js : list Job.t) : Prop := {
  un_sorted : StronglySorted (λ a b, Job.created_at a < Job.created_at b) js;
  un_times : Forall (λ r, Job.created_at r ≤ T) js;
  un_closed : ∀ l r, js = l ++ [r] → Forall (λ r, open_job r = false) l;
}.

Lemma unstacked_head T js :
  unstacked T js → head (order_by newest_first js) = last js.
Proof.
  intros [Hs _ _]. destruct js as [|r l] using rev_ind; [done|].
  rewrite order_by_snoc, last_snoc; [done|]. intros x Hx.
  assert (Job.created_at x < Job.created_at r) as Hlt.
  { eapply (StronglySorted_app_1_elem_of _ _ _ x r Hs); [done|left]. }
  unfold newest_first. breflect. lia.
Qed.

Lemma unstacked_open T js : unstacked T js → rows_affected open_job js ≤ 1.
Proof.
  intros [_ _ Hc]. destruct js as [|r l] using rev_ind; [done|].
  specialize (Hc l r eq_refl). unfold rows_affected, select_where.
  rewrite List.filter_app, length_app.
  assert (List.filter open_job l = []) as ->.
  { apply (select_where_none open_job). intros x Hx. by eapply Forall_forall in Hc. }
  cbn. case_if; cbn; lia.
Qed.

Lemma unstacked_later T T' js : unstacked T js → T ≤ T' → unstacked T' js.
Proof. intros [? Ht ?] HT. split; try done. eapply Forall_impl; [exact Ht|]. cbn. lia. Qed.

Lemma unstacked_moves T js js' : unstacked T js → Forall2 moves_on js js' → unstacked T js'.
Proof.
  intros [Hs Ht Hc] Hm. split.
  - clear Hc Ht. induction Hm as [|r r' l l' Hr Hm IH]; [constructor|].
    inversion Hs as [|?? Hsl Hall]; subst. constructor; [by apply IH|].
    destruct Hr as (_ & -> & _). clear -Hm Hall. induction Hm as [|x x' l l' (_ & Hx & _) Hm IH];
      [constructor|]. inversion Hall; subst. constructor; [by rewrite Hx|by apply IH].
  - clear Hs Hc. induction Hm as [|r r' l l' (_ & Hr & _) Hm IH]; [constructor|].
    inversion Ht; subst. constructor; [by rewrite Hr|by apply IH].
  - intros l' r' ->. apply Forall2_app_inv_r in Hm as (l & lr & Hl & Hr & ->).
    apply Forall2_cons_inv_r in Hr as (r & lr' & Hrr & Hnil & ->).
    apply Forall2_nil_inv_r in Hnil as ->. specialize (Hc l r eq_refl). clear -Hl Hc.
    induction Hl as [|x x' l l' (_ & _ & Hx) Hl IH]; [constructor|]. inversion Hc; subst.
    constructor; [|by apply IH]. destruct (open_job x'); [|done]. by rewrite Hx in *.
Qed.

Lemma select_moves sid l l' :
  Forall2 moves_on l l' →
  Forall2 moves_on (select_where (of_schedule sid) l) (select_where (of_schedule sid) l').
Proof.
  unfold select_where. induction 1 as [|r r' l l' Hr Hl IH]; [constructor|]. cbn.
  assert (of_schedule sid r' = of_schedule sid r) as ->
    by (unfold of_schedule; by destruct Hr as (-> & _)).
  destruct (of_schedule sid r); [by constructor|done].
Qed.

Lemma select_snoc {A} (p : A → bool) t r :
  select_where p (t ++ [r]) = select_where p t ++ if p r then [r] else [].
Proof. unfold select_where. by rewrite List.filter_app. Qed.

Lemma scheduled_unstacked `{CronLaws} registry validate_params new_v4 new_run_id resilience T w sid :
  scheduled registry validate_params new_v4 new_run_id resilience T w →
  unstacked T (select_where (of_schedule sid) (Sched.jobs w)).
Proof.
  induction 1 as [T w Hj|T w s cron cutoff now w' r Hs IH Hlt Hr|T w jobs Hs IH Hm|T w job Hs IH Hj].
  - rewrite select_where_none; [split; [constructor|constructor|]|].
    + by intros [|??] ? ?.
    + intros r Hr. eapply Forall_forall in Hj; [|exact Hr]. unfold of_schedule. cbn in Hj.
      by rewrite Hj.
  - destruct (reconcile_one_jobs _ _ _ _ _ _ _ _ _ _ _ _ Hr) as [->|(job & -> & Hid & Hat & Hfree)].
    { eapply unstacked_later; [exact IH|lia]. }
    rewrite select_snoc. unfold of_schedule at 2. rewrite Hid.
    destruct (decide (Schedule.id s = sid)) as [<-|Hne]; cycle 1.
    { rewrite bool_decide_eq_false_2 by congruence. rewrite app_nil_r.
      eapply unstacked_later; [exact IH|lia]. }
    rewrite bool_decide_eq_true_2 by done.
    unfold latest_run, latest_job_for_schedule in Hfree. cbn in Hfree.
    change (λ r, bool_decide (Job.schedule_id r = Some (Schedule.id s)))
      with (of_schedule (Schedule.id s)) in Hfree.
    rewrite (unstacked_head T) in Hfree by done.
    destruct IH as [Hsrt Ht Hc]. split.
    + apply StronglySorted_app. split_and!; [|done|repeat constructor].
      intros x y Hx ->%list_elem_of_singleton. eapply Forall_forall in Ht; [|exact Hx].
      cbn in Ht. lia.
    + apply Forall_app. split; [|repeat constructor; lia].
      eapply Forall_impl; [exact Ht|]. cbn. lia.
    + intros l x [<- _]%app_inj_tail.
      destruct (select_where (of_schedule (Schedule.id s)) (Sched.jobs w)) as [|y l'] eqn:El
        using rev_ind; [constructor|]. clear IHl'. rewrite last_snoc in Hfree.
      cbn [fmap option_fmap option_map snd] in Hfree. rewrite run_holds_slot_open in Hfree.
      apply Forall_app. split; [by eapply Hc|]. repeat constructor. exact Hfree.
  - cbn. eapply unstacked_moves; [exact IH|]. by apply select_moves.
  - cbn. rewrite select_snoc. unfold of_schedule at 2. rewrite Hj, bool_decide_eq_false_2 by done.
    by rewrite app_nil_r.
Qed.


(** ** The pass *)

Section passes.
Context `{CronLaws} (registry : string → option App)
  (validate_params : Json → Json → option string) (new_v4 : nat → Uuid)
  (new_run_id : nat → string) (resilience : Cfg.t).

Abbreviation row := (reconcile_row registry validate_params new_v4 new_run_id resilience).
Abbreviation rows := (reconcile_rows registry validate_params new_v4 new_run_id resilience).
Abbreviation reconcile := (reconcile registry validate_params new_v4 new_run_id resilience).

(** A cache that answers what the parser would. *)
Definition coherent (cache : list (string * Cron)) : Prop :=
  ∀ k c, map_get k cache = Some c → parse_cron k = Ok c.

Lemma cached_coherent cron cache :
  coherent cache →
  coherent (fst (cached cron cache)) ∧ snd (cached cron cache) = parse_cron cron.
Proof.
  intros Hc. unfold cached. destruct (map_get cron cache) as [c|] eqn:E.
  { split; [done|]. symmetry. by apply Hc. }
  destruct (parse_cron cron) as [c|e] eqn:Ep; [|done]. split; [|done].
  intros k c'. cbn [fst]. rewrite map_get_insert. case_if; [|by apply Hc].
  apply String.eqb_eq in Heqb as <-. intros [= <-]. done.
Qed.

(** A row of the pass, without the cache. *)
Definition plain_row (s : Schedule.t) (cutoff now : timestamp) (w : Sched.t)
    : Sched.t * result Error StepOutcome :=
  let '(_, w, r) := row s cutoff now [] w in (w, r).

Lemma row_plain s cutoff now cache w :
  coherent cache →
  row s cutoff now cache w
    = (fst (cached (Schedule.cron s) cache), fst (plain_row s cutoff now w),
       snd (plain_row s cutoff now w)).
Proof.
  intros Hc. unfold plain_row, reconcile_row.
  pose proof (cached_coherent (Schedule.cron s) cache Hc) as [_ H1].
  pose proof (cached_coherent (Schedule.cron s) [] ltac:(done)) as [_ H2].
  destruct (cached _ cache) as [c1 r1], (cached _ []) as [c2 r2]. cbn in *. subst.
  destruct (parse_cron _) as [c|e]; [|done]. by destruct (reconcile_one _ _ _ _ _ _ _ _ _ _).
Qed.

Lemma plain_row_jobs s cutoff now w w' r :
  plain_row s cutoff now w = (w', r) →
  length (Sched.jobs w')
    = (length (Sched.jobs w)
       + match r with Ok Fired | Ok SkippedAndFired => 1 | _ => 0 end)%nat.
Proof.
  unfold plain_row, reconcile_row. destruct (cached _ []) as [? [c|e]]; [|intros [= <- <-]; cbn; lia].
  destruct (reconcile_one _ _ _ _ _ _ _ _ _ _) as [w1 r1] eqn:E. intros Heq.
  assert (Sched.jobs w' = Sched.jobs w1 ∧ r = r1) as [-> ->]
    by (destruct r1; by inversion Heq).
  destruct (get_schedule (Schedule.id s) (Sched.schedules w)) as [live|] eqn:Hl.
  - pose proof (reconcile_one_accounts _ _ _ _ _ _ _ _ _ _ _ _ _ Hl E) as Ha. unfold accounts in Ha.
    destruct r1 as [[]|]; destruct Ha as [Ha _]; try (rewrite Ha; cbn; lia);
      destruct Ha as (job & -> & _); rewrite length_app; cbn; lia.
  - apply reconcile_one_gone in E as (-> & H1 & H2); [|done].
    destruct r1 as [[]|]; done || lia.
Qed.

Definition enabled_rows (l : list Schedule.t) : nat := length (List.filter Schedule.enabled l).

Lemma enabled_rows_perm l l' : l ≡ₚ l' → enabled_rows l = enabled_rows l'.
Proof.
  unfold enabled_rows. induction 1; cbn; repeat case_if; cbn; congruence.
Qed.

Lemma rows_account cancelled l : ∀ i cutoff now cache w t cache' w' t',
  coherent cache → rows cancelled i l cutoff now cache w t = (cache', w', t') →
  coherent cache'
  ∧ rows cancelled i l cutoff now [] w t = (fst (fst (rows cancelled i l cutoff now [] w t)), w', t')
  ∧ (length (Sched.jobs w') + Tally.fired t = length (Sched.jobs w) + Tally.fired t')%nat
  ∧ ((∀ j, cancelled j = false) →
     Tally.considered t' = (Tally.considered t + enabled_rows l)%nat
     ∧ Tally.stopped_early t' = Tally.stopped_early t).
Proof.
  assert (∀ l i cutoff now c1 c2 w t, coherent c1 → coherent c2 →
    let '(_, w1, t1) := rows cancelled i l cutoff now c1 w t in
    let '(_, w2, t2) := rows cancelled i l cutoff now c2 w t in w1 = w2 ∧ t1 = t2) as Hindep.
  { clear l. induction l as [|s l IH]; intros i cutoff now c1 c2 w t H1 H2; [done|].
    cbn [reconcile_rows]. destruct (Schedule.enabled s); cbn [negb]; [|by apply IH].
    destruct (cancelled i); [done|]. rewrite !row_plain by done. apply IH; by apply cached_coherent. }
  induction l as [|s l IH]; intros i cutoff now cache w t cache' w' t' Hc Hr.
  { cbn in Hr. inversion Hr; subst. split_and!; try done. }
  assert (coherent cache' ∧ (length (Sched.jobs w') + Tally.fired t
            = length (Sched.jobs w) + Tally.fired t')%nat
    ∧ ((∀ j, cancelled j = false) →
       Tally.considered t' = (Tally.considered t + enabled_rows (s :: l))%nat
       ∧ Tally.stopped_early t' = Tally.stopped_early t)) as (H1 & H2 & H3).
  { cbn [reconcile_rows] in Hr. unfold enabled_rows. cbn [List.filter].
    destruct (Schedule.enabled s); cbn [negb] in Hr; cycle 1.
    { by apply IH in Hr as (? & _ & ? & ?). }
    destruct (cancelled i) eqn:Ei.
    { inversion Hr; subst. split_and!; [done|cbn; lia|]. intros Hno. by rewrite Hno in Ei. }
    rewrite row_plain in Hr by done.
    destruct (plain_row s cutoff now w) as [w1 r1] eqn:Ep. cbn [fst snd] in Hr.
    apply plain_row_jobs in Ep. apply IH in Hr as (? & _ & Hj & Hall); [|by apply cached_coherent].
    split; [done|]. split.
    - revert Hj. rewrite Ep. destruct r1 as [[]|]; cbn; lia.
    - intros Hno. destruct (Hall Hno) as [-> ->]. unfold enabled_rows. split.
      + destruct r1 as [[]|]; cbn; lia.
      + by destruct r1 as [[]|]. }
  split_and!; try done. pose proof (Hindep (s :: l) i cutoff now [] cache w t ltac:(done) Hc) as Hi.
  rewrite Hr in Hi. destruct (rows _ _ _ _ _ [] _ _) as [[c2 w2] t2]. by destruct Hi as [-> ->].
Qed.

(** A pass gives every enabled schedule its step, whatever the steps before it answered
    (refusals and failed enqueues are counted, never propagated), enqueues exactly as many jobs
    as it reports fired, and neither its effects nor its tally depend on what the expression
    cache holds, as long as the cache answers what the parser would, which the pass keeps. *)
Theorem pass_reaches_every_schedule cancelled tick_secs last_pass now cache w cache' w' t :
  coherent cache →
  reconcile cancelled tick_secs last_pass now cache w = (cache', w', t) →
  coherent cache'
  ∧ (∃ cold, reconcile cancelled tick_secs last_pass now [] w = (cold, w', t))
  ∧ length (Sched.jobs w') = (length (Sched.jobs w) + Tally.fired t)%nat
  ∧ ((∀ i, cancelled i = false) →
     Tally.considered t = enabled_rows (Sched.schedules w) ∧ Tally.stopped_early t = false).
Proof.
  intros Hc Hr. unfold Scheduler.reconcile in *. apply rows_account in Hr as (H1 & H2 & H3 & H4); [|done].
  split_and!; [done|by eexists|cbn in H3; lia|].
  intros Hno. destruct (H4 Hno) as [-> ->]. cbn. split; [|done].
  apply enabled_rows_perm, order_by_perm.
Qed.
End passes.

(** ** Witnesses: a cron library whose expressions are periods *)

#[local] Instance demo_cron : CronLib := {|
  Cron := positive;
  parse_cron s := if String.eqb s "bad" then Err "not a cron" else Ok 10%positive;
  Tz := unit; UTC := tt; tz_of_name _ := None;
  cron_next c _ r := Some ((r / Zpos c + 1) * Zpos c) |}.

#[local] Program Instance demo_laws : CronLaws := {| fires_at c _ g := (g mod Zpos c = 0)%Z |}.
Next Obligation.
  intros c tz r. cbn. pose proof (Z.div_mod r (Zpos c)) as Hr.
  pose proof (Z.mod_pos_bound r (Zpos c)) as Hb. split_and!.
  - apply Z.mod_mul. lia.
  - nia.
  - intros g Hg Hlt. pose proof (Z.div_mod g (Zpos c)) as Hg2. rewrite Hg in Hg2.
    assert (r / Zpos c < g / Zpos c) by nia. nia.
Qed.

Definition demo_app : App := mkApp (JObject []) None (λ _, None).
Definition demo_registry (app : string) : option App :=
  if String.eqb app "extractor" then None else Some demo_app.
Definition demo_schedule (id app policy : string) : Schedule.t :=
  (default_row id app "every 10" (JObject []) true None 0) <| Schedule.misfire_policy := policy |>.
Definition demo_sched : Sched.t :=
  Sched.mk [demo_schedule "s1" "shop" "fire_once"; demo_schedule "s2" "extractor" "fire_once"]
    [] [] (Health.mk [] []) 0 0.
Definition demo_res : Cfg.t := Cfg.mk false false f64_zero f64_zero 3 [] [].
Abbreviation demo_step :=
  (reconcile_one demo_registry (λ _ _, None) (λ n, Z.of_nat n) (λ n, "r"%string) demo_res).

Lemma decide_classifies_each_firing_witness :
  decide_action (H:=demo_cron) 10%positive tt 5 42 true 25 = SkipThenFire 2
  ∧ counts (λ g, pending (H:=demo_cron) 10%positive tt 5 42 g ∧ g ≤ 25) MAX_MISFIRE_SCAN 2.
Proof.
  split; [by vm_compute|].
  pose proof (decide_classifies_each_firing (H:=demo_cron) 10%positive tt 5 42 true 25) as Hd.
  assert (decide_action (H:=demo_cron) 10%positive tt 5 42 true 25 = SkipThenFire 2) as He
    by by vm_compute.
  rewrite He in Hd. by destruct Hd as (_ & _ & Hd & _).
Defined.

Definition demo_s1 : Schedule.t := demo_schedule "s1" "shop" "fire_once".
Definition demo_fired : Sched.t := fst (demo_step demo_s1 10%positive 0 12 demo_sched).
Lemma demo_step_fired : demo_step demo_s1 10%positive 0 12 demo_sched = (demo_fired, Ok Fired).
Proof. by vm_compute. Qed.
Lemma demo_s1_live : get_schedule "s1" (Sched.schedules demo_sched) = Some demo_s1.
Proof. by vm_compute. Qed.

Lemma step_settles_or_keeps_due_witness :
  demo_step demo_s1 10%positive 0 12 demo_sched = (demo_fired, Ok Fired)
  ∧ accounts demo_registry (λ _ _, None) demo_res demo_s1 demo_s1 12 demo_sched demo_fired (Ok Fired).
Proof.
  split; [exact demo_step_fired|].
  exact (proj1 (step_settles_or_keeps_due _ _ _ _ _ demo_s1 _ _ _ _ _ _ _ demo_s1_live
                  demo_step_fired)).
Defined.


Lemma pass_reaches_every_schedule_witness :
  let '(cache, w, t) :=
    reconcile demo_registry (λ _ _, None) (λ n, Z.of_nat n) (λ n, "r"%string) demo_res
      (λ _, false) 15 None 12 [] demo_sched in
  Tally.fired t = 1%nat ∧ Tally.refused t = 1%nat ∧ length (Sched.jobs w) = 1%nat
  ∧ Tally.considered t = 2%nat.
Proof.
  destruct (reconcile _ _ _ _ _ _ _ _ _ _ _) as [[cache w] t] eqn:E.
  assert (Tally.fired t = 1%nat ∧ Tally.refused t = 1%nat) as [Hf Hr].
  { change t with (snd (cache, w, t)). rewrite <- E. by vm_compute. }
  assert (coherent (H:=demo_cron) []) as Hcold by done.
  epose proof (pass_reaches_every_schedule _ _ _ _ _ _ _ _ _ _ _ _ _ _ Hcold E) as Hp.
  destruct Hp
    as (_ & _ & Hj & Hc).
  destruct (Hc (λ _, eq_refl)) as [Hc1 _]. rewrite Hj, Hc1, Hf. by split_and!.
Defined.
