(* ===== verification/Vcr.v ===== *)
(** * Vcr: which runs a cassette can stand for

    The replay grades of [crates/core/src/vcr.rs] - a fact about an app's code - with the
    refusal and the stamp they decide, and the record and replay parameters a job is enqueued
    with ([vcr_params] of [crates/server/src/worker.rs]). *)

From S2P Require Import Prelude Sql Float64 Json Errors Jobs Triggers.

Inductive ReplayFidelity : Type := Full | Partial | Unreplayable.
Definition fidelity_as_str (f : ReplayFidelity) : string :=
  match f with Full => "full" | Partial => "partial" | Unreplayable => "unreplayable" end.

Definition REPLAY_BYPASS_APPS : list (string * ReplayFidelity * string) :=
  ([
   ("extractor", Partial,
      "its `archive` mode pulls the Wayback CDX index and each snapshot body through " +:+
      "the raw HTTP client (an archive read must not escalate to a live render); its " +:+
      "`urls` and dataset modes go through the chokepoint and do replay");
   ("transact", Unreplayable,
      "a transact run IS a browser session — navigate, fill, capture evidence — driven " +:+
      "straight off `engines.browser`, with no `FetchOutcome` to record; replaying it " +:+
      "would open a live Chrome against the live page");
   ("crawl", Unreplayable,
      "the crawler owns its own frontier, robots and concurrency and meters itself per " +:+
      "host, so every page it fetches goes through its own metering client");
   ("ca-grants", Unreplayable,
      "the CKAN datastore API: a POST with a JSON body, which the tiered fetcher never " +:+
      "issues — and it is the app's whole payload");
   ("census-bfs", Unreplayable,
      "the Census BFS API: raw JSON, and the app's whole payload");
   ("census-density", Unreplayable,
      "the Census CBP API: raw JSON, and the app's whole payload");
   ("census-nesd", Unreplayable,
      "the Census NESD API: raw JSON, and the app's whole payload");
   ("census-nonemp", Unreplayable,
      "the Census nonemployer API: raw JSON, and the app's whole payload");
   ("cms-fee-schedule", Unreplayable,
      "the CMS release ZIP, pulled as capped bytes — binary, not a document");
   ("cordis", Unreplayable,
      "the CORDIS API: raw JSON, and the app's whole payload");
   ("eu-sedia", Unreplayable,
      "the SEDIA search API: a POST with a JSON body");
   ("grants-gov", Unreplayable,
      "the Search2 API: a POST with a JSON body, walked page by page");
   ("hackernews", Unreplayable,
      "fetches its page off the raw HTTP client — it predates the chokepoint, and the " +:+
      "migration is banked rather than done (see the raw-engine inventory)");
   ("mpsv-ciselniky", Unreplayable,
      "the four MPSV codebook documents: raw JSON, and the app's whole payload");
   ("mpsv-ispv", Unreplayable,
      "the ISPV wage API: raw JSON, and the app's whole payload");
   ("mpsv-vpm", Unreplayable,
      "a ~188 MB bulk feed under a per-request timeout, plus an ARES company lookup — " +:+
      "both raw APIs");
   ("peer", Unreplayable,
      "conditional GET (`etag`) over a peer node's change feed; the tiered request " +:+
      "carries no validator, so the 304 path a mirror walks exists only raw");
   ("smlouvy-dump-watch", Unreplayable,
      "the contract-registry dump, fetched raw")])%string.

Definition bypass_row (app : string) : option (string * ReplayFidelity * string) :=
  List.find (λ row, String.eqb row.1.1 app) REPLAY_BYPASS_APPS.
Definition replay_fidelity (app : string) : ReplayFidelity :=
  match bypass_row app with Some row => row.1.2 | None => Full end.
Definition replay_bypass_reason (app : string) : option string := snd <$> bypass_row app.

Definition refuse_replay (app : string) : option Error :=
  match replay_fidelity app with
  | Full | Partial => None
  | Unreplayable =>
      Some (BadRequest
        ("app " +:+ quoted app +:+ " cannot be replayed: " +:+
         default "it drives engines outside the chokepoint" (replay_bypass_reason app) +:+
         " — a `replay_of` run of it would drive live engines while its result claimed to come " +:+
         "from recorded bytes. Record/replay covers what goes through AppContext::fetch / " +:+
         "AppContext::research")%string)
  end.

Section vcr.
Context `{UuidText, JsonRender}.
(** [Uuid::parse_str], with the error's text *)
Context (parse_uuid : string → result string Uuid).

Definition replay_stamp (app : string) (replay_of : Uuid) (unreadable_lines : Z) :
    list (string * Json) :=
  let stamp := map_insert "vcr_replay_of" (JString (uuid_text replay_of)) [] in
  let stamp := map_insert "vcr_replay_fidelity" (JString (fidelity_as_str (replay_fidelity app))) stamp in
  let stamp :=
    match replay_bypass_reason app with
    | Some why => map_insert "vcr_replay_bypass" (JString why) stamp
    | None => stamp
    end in
  if 0 <? unreadable_lines then map_insert "vcr_cassette_unreadable_lines" (JUint unreadable_lines) stamp
  else stamp.

(** The parameters: whether to record, and which run to replay. *)
Definition vcr_params (params : Json) : result string (bool * option Uuid) :=
  let record := default false (json_get "record" params ≫= as_bool) in
  replay_of ←
    match json_get "replay_of" params with
    | None | Some JNull => Ok None
    | Some (JString s) =>
        match parse_uuid s with
        | Ok id => Ok (Some id)
        | Err e => Err ("vcr: replay_of is not a job uuid (" +:+ quoted s +:+ "): " +:+ e)%string
        end
    | Some other => Err ("vcr: replay_of must be a job-id string, got " +:+ json_render other)%string
    end;
  if record && is_some replay_of then
    Err "vcr: a job cannot both record and replay — a replay's cassette IS the record"%string
  else Ok (record, replay_of).
End vcr.
