(* ===== verification/Yields.v ===== *)
(** * Yields: what a finished run says it produced, and the schedules it declares

    [extract_yields] of [crates/core/src/costs.rs] and the [job_yield] table of [storage.rs];
    the schedule requests of [app.rs]. *)

From S2P Require Import Prelude Sql Float64 Json Jobs.

Definition MAX_YIELD_ENTRIES : nat := 16.
Definition MAX_YIELD_DEPTH : nat := 3.

Module YieldEntry.
Record t : Type := mk {
  dataset : string; new : option Z; changed : option Z; unchanged : option Z; removed : option Z }.
End YieldEntry.

(** A non-negative integer, or an array counted by length. *)
Definition yield_count (v : option Json) : option Z :=
  v ← v;
  match v with
  | JNumber _ => n ← as_i64 v; if 0 <=? n then Some n else None
  | JArray a =>
      let n := Z.of_nat (length a) in if n <=? i64_max then Some n else None
  | _ => None
  end.

(** [levels] is what is left of the depth: the walk returns below it. *)
Fixpoint walk_yields (levels : nat) (v : Json) (path : string) (out : list YieldEntry.t) :
    list YieldEntry.t :=
  match levels with
  | O => out
  | S levels =>
      if (MAX_YIELD_ENTRIES <=? length out)%nat then out
      else
        match v with
        | JObject obj =>
            let new := yield_count (map_get "new" obj) in
            let changed := yield_count (map_get "changed" obj) in
            let out :=
              if is_some new || is_some changed then
                out ++ [YieldEntry.mk path new changed (yield_count (map_get "unchanged" obj))
                          (yield_count (map_get "removed" obj))]
              else out in
            foldl (λ out (kv : string * Json),
              match kv.2 with
              | JObject _ =>
                  let child_path :=
                    if String.eqb path "" then kv.1 else (path +:+ "." +:+ kv.1)%string in
                  walk_yields levels kv.2 child_path out
              | _ => out
              end) out obj
        | _ => out
        end
  end.
Definition extract_yields (result : Json) : list YieldEntry.t :=
  walk_yields (S MAX_YIELD_DEPTH) result "" [].

Module JobYield.
Record t : Type := mk {
  job_id : Uuid; app : string; entry : YieldEntry.t; created_at : timestamp }.
End JobYield.

(** One row an entry, in order. *)
Definition record_job_yield (now : timestamp) (job_id : Uuid) (app : string)
    (entries : list YieldEntry.t) (t : list JobYield.t) : list JobYield.t :=
  t ++ map (λ e, JobYield.mk job_id app e now) entries.

(** The walk adds at most one entry a call, so the ceiling holds. *)
Lemma walk_yields_bound levels v path out :
  (length out ≤ MAX_YIELD_ENTRIES)%nat →
  (length (walk_yields levels v path out) ≤ MAX_YIELD_ENTRIES)%nat.
Proof.
  revert v path out. induction levels as [|levels IH]; intros v path out Ho; [done|]. cbn [walk_yields].
  destruct (Nat.leb_spec MAX_YIELD_ENTRIES (length out)) as [|Hlt]; [done|].
  destruct v as [| | | | |obj]; try done.
  match goal with |- context [foldl _ ?o _] => set (out' := o) end.
  assert (length out' ≤ MAX_YIELD_ENTRIES)%nat as Ho'.
  { unfold out'. case_if; [rewrite length_app; cbn; lia|lia]. }
  clearbody out'. clear Ho Hlt out. revert out' Ho'.
  induction obj as [|[k c] obj IHo]; intros out Ho; [done|]. cbn [foldl fst snd].
  apply IHo. destruct c; try done. by apply IH.
Qed.
Lemma extract_yields_bound result : (length (extract_yields result) ≤ MAX_YIELD_ENTRIES)%nat.
Proof. apply walk_yields_bound. cbn. lia. Qed.

(** ** Schedules an app declares

    [schedule_request] and [apply_schedule_requests] of [crates/core/src/app.rs], and the
    canonical JSON of [mesh.rs] they hash. *)

From S2P Require Import Errors Records Schedules Scheduler.

Fixpoint sort_keys (v : Json) : Json :=
  match v with
  | JObject map => JObject (map_of_list (List.map (λ kv : string * Json, (kv.1, sort_keys kv.2)) map))
  | JArray items => JArray (List.map sort_keys items)
  | other => other
  end.
Definition canonical_json `{JsonRender} (v : Json) : string := json_render (sort_keys v).

Module ScheduleRequest.
Record t : Type := mk { id : string; app : string; cron : string; params : Json; managed_by : string }.
End ScheduleRequest.

Definition app_managed_by (requested_by : string) : string := ("app:" +:+ requested_by)%string.

Module ScheduleRequestOutcome.
Record t : Type := mk { created : Z; rejected : list string; not_owned : Z; over_cap : Z }.
#[global] Instance eta_outcome : Eta t := λ o, mk (created o) (rejected o) (not_owned o) (over_cap o).
End ScheduleRequestOutcome.

Section requests.
Context `{JsonRender, Sha256, CronLib}.

(** A trimmed, non-empty string member. *)
Definition text_member (key : string) (body : Json) : option string :=
  s ← json_get key body ≫= as_str;
  let s := str_trim s in
  if String.eqb s "" then None else Some s.

Definition newline : string := String "010" EmptyString.
(** The first eight bytes of the hash, in hex. *)
Definition request_digest (requested_by app cron : string) (params : Json) : string :=
  String.substring 0 16
    (sha256_hex (requested_by +:+ newline +:+ app +:+ newline +:+ cron +:+ newline +:+
                 canonical_json params)%string).

Definition schedule_request (requested_by : string) (body : Json) :
    result string ScheduleRequest.t :=
  match text_member "app" body with
  | None => Err "a schedule request needs a non-empty 'app'"%string
  | Some app =>
      match text_member "cron" body with
      | None => Err ("the schedule request for '" +:+ app +:+ "' has no 'cron'")%string
      | Some cron =>
          match parse_cron cron with
          | Err e =>
              Err ("the schedule request for '" +:+ app +:+ "' has an invalid cron: " +:+ e)%string
          | Ok _ =>
              params ←
                match json_get "params" body with
                | None | Some JNull => Ok (JObject [])
                | Some (JObject o) => Ok (JObject o)
                | Some _ =>
                    Err ("the schedule request for '" +:+ app +:+ "' has non-object params")%string
                end;
              Ok (ScheduleRequest.mk
                    ("app-" +:+ requested_by +:+ "-" +:+ request_digest requested_by app cron params)
                    app cron params (app_managed_by requested_by))
          end
      end
  end.

(** [write] says whether the store takes the write of a request ([Err] its error's text). *)
Definition apply_request (now : timestamp) (write : string → result string ()) (requested_by : string)
    (acc : schedules * ScheduleRequestOutcome.t) (body : Json) :
    schedules * ScheduleRequestOutcome.t :=
  let '(t, out) := acc in
  match schedule_request requested_by body with
  | Err why => (t, out <| ScheduleRequestOutcome.rejected ::= λ l, l ++ [why] |>)
  | Ok req =>
      match write (ScheduleRequest.id req) with
      | Err e =>
          (t, out <| ScheduleRequestOutcome.rejected ::=
                λ l, l ++ [("schedule write failed: " +:+ e)%string] |>)
      | Ok _ =>
          let '(t, mine) :=
            upsert_managed_schedule (ScheduleRequest.id req) (ScheduleRequest.app req)
              (ScheduleRequest.cron req) (ScheduleRequest.params req) true
              (ScheduleRequest.managed_by req) now t in
          (t, if mine then out <| ScheduleRequestOutcome.created ::= Z.add 1 |>
              else out <| ScheduleRequestOutcome.not_owned ::= Z.add 1 |>)
      end
  end.
Definition apply_schedule_requests (now : timestamp) (write : string → result string ())
    (requested_by : string) (requests : list Json) (cap : nat) (t : schedules) :
    schedules * ScheduleRequestOutcome.t :=
  foldl (apply_request now write requested_by)
    (t, ScheduleRequestOutcome.mk 0 [] 0 (Z.of_nat (length requests - cap))) (take cap requests).
End requests.
