(* ===== verification/Worker.v ===== *)
(** * Worker: from a claim to a verdict and its announcement

    [crates/server/src/worker.rs] up to the fan-out: the refusals before a run, the durable
    checkpoint handed to it, what each outcome does to the queue, and who hears of it; the
    executor's report, the reaper's tick and the claim loop with its caps.  The app's run is
    an input (its outcome), the world between the two halves of a run is anyone's. *)

From stdpp Require Import gmap pretty.
From S2P Require Import Prelude Sql Float64 Json Errors Requeue Jobs JobQueue Checkpoints Cancel Triggers.
From S2P Require Import Records Schedules Scheduler Vcr Yields.

(** What the rest of the system sees of the worker, in order. *)
Inductive Effect : Type :=
| Published (id : Uuid) (app kind : string) (payload : option Json)
| Terminal (job : Job.t)    (** the terminal event, webhooks, triggers and barrier of [finalize] *)
| Notified                  (** the worker is woken *)
| FannedOut (id : Uuid) (attempt : Z).

(** The calls of the store: any of them can fail. *)
Inductive StoreCall : Type :=
| SGet | SComplete | SFail | SFailPermanently | SReset | SCancelRunning | SAwaitInput
| SClear | SLoad | SBump | SYield | SExpire | SReap.

Module Work.
Record t : Type := mk {
  jobs : table; saved : checkpoints; schedules : Schedules.schedules; yields : list JobYield.t;
  noted : list (Uuid * CancelKind); effects : list Effect }.
#[global] Instance eta_work : Eta t := λ w,
  mk (jobs w) (saved w) (schedules w) (yields w) (noted w) (effects w).
End Work.

Definition emit (e : Effect) (w : Work.t) : Work.t := w <| Work.effects ::= λ l, l ++ [e] |>.
Definition publish (job : Job.t) (kind : string) (payload : option Json) : Work.t → Work.t :=
  emit (Published (Job.id job) (Job.app job) kind payload).

(** ** Outcomes *)

Inductive Outcome : Type :=
| Finished (r : result Error Json)
| Panicked (error : string)
| TimedOut
| Cancelled.

Definition PANIC_ERROR_PREFIX : string := "panicked: ".
(** [msg] is the payload when it is a string. *)
Definition panic_error (msg location : option string) : string :=
  let msg := default "<non-string panic payload>"%string msg in
  match location with
  | Some loc => (PANIC_ERROR_PREFIX +:+ msg +:+ " (at " +:+ loc +:+ ")")%string
  | None => (PANIC_ERROR_PREFIX +:+ msg)%string
  end.

Module CheckpointFailures.
Record t : Type := mk { stale_lineage : Z; storage_error : Z }.
Definition total (f : t) : Z := stale_lineage f + storage_error f.
End CheckpointFailures.
Definition CHECKPOINT_FAILURES_KEY : string := "checkpoint_failures".
Definition checkpoint_failure_stamp (f : CheckpointFailures.t) : option Json :=
  if CheckpointFailures.total f =? 0 then None
  else Some (json_object
    [("stale_lineage", JUint (CheckpointFailures.stale_lineage f));
     ("storage_error", JUint (CheckpointFailures.storage_error f));
     ("total", JUint (CheckpointFailures.total f))]%string).
(** The result, with the tally where it has a place for it. *)
Definition carry_checkpoint_failures (result : Json) (f : CheckpointFailures.t) : Json * option Json :=
  match checkpoint_failure_stamp f with
  | None => (result, None)
  | Some block =>
      match result with
      | JObject map => (JObject (map_insert CHECKPOINT_FAILURES_KEY block map), None)
      | _ => (result, Some block)
      end
  end.

Definition terminal_failure_reason `{JsonRender} (err : Error) (app : string) (cost_paused : bool) :
    string :=
  match err with
  | BudgetExhausted _ =>
      if cost_paused then
        ("paused by governance: a DataHub `cost:pause` tag on " +:+ app +:+
         "'s datasets holds this app's paid work, so the job ran with a $0 Claude budget and " +:+
         "refused the first metered call. Nothing was spent and no budget was exhausted — clear " +:+
         "the tag (the next governance poll releases the pause) and re-run.")%string
      else error_display err
  | other => error_display other
  end.

(** Zero waits for ever. *)
Definition waiting_deadline (now : timestamp) (expiry_secs : Z) : option timestamp :=
  if 0 <? expiry_secs then Some (now + seconds expiry_secs) else None.

(** A park on an approval is a transaction that waits. *)
Definition park_domain_events (app : string) (request : Json) : list (string * string * string) :=
  match json_get "transaction_id" request ≫= as_str with
  | Some tx => [("transaction.pending"%string, app, tx)]
  | None => []
  end.

(** What a run was started with. *)
Module Started.
Record t : Type := mk {
  restored : option Json; replay_of : option Uuid; cassette_unreadable : Z;
  (** a recording run, and whether it resumes *)
  recording : option bool }.
End Started.

Definition WAITING_EXPIRED_REASON : string := "awaited input not provided before waiting_expires_at".

(** ** The configuration a pass reads *)
Module WorkerConfig.
Record t : Type := mk {
  job_timeout_secs : Z; max_resume_failures : Z; max_app_schedules_per_run : nat;
  expiry_secs : Z; expire_batch : Z; stale_after_secs : Z }.
End WorkerConfig.

Section worker.
Context `{JsonRender, JsonParse, UuidText, Sha256, CronLib}.
Context (cfg : WorkerConfig.t) (registered : string → bool).
Context (parse_uuid : string → result string Uuid).
(** [Cassette::load]: the unreadable lines of the recorded run, or the error's text. *)
Context (cassette : string → Uuid → result string Z).
(** Which calls the store answers during this pass. *)
Context (up : StoreCall → bool).
Implicit Types (w : Work.t) (job : Job.t) (id : Uuid).

(** ** The end of a job *)

Definition clear (id : Uuid) w : Work.t :=
  if up SClear then w <| Work.saved ::= clear_checkpoint id |> else w.

(** The row is read afresh. *)
Definition finalize (id : Uuid) w : Work.t :=
  if up SGet then
    match get id (Work.jobs w) with
    | None => w
    | Some job =>
        emit (Terminal job)
          (match Job.status job with Failed | Jobs.Cancelled => clear id w | _ => w end)
    end
  else w.

(** ** Before the run *)

Definition load_restore job w : Work.t * option Json :=
  let max := WorkerConfig.max_resume_failures cfg in
  if max <=? 0 then (w, None)
  else if up SLoad then
    match load_checkpoint (Job.id job) (Work.saved w) with
    | Some (checkpoint, failures) =>
        if max <=? failures then (clear (Job.id job) w, None)
        else
          ((if up SBump then w <| Work.saved ::= λ t, (bump_checkpoint_resumes (Job.id job) t).1 |>
            else w), Some checkpoint)
    | None => (w, None)
    end
  else (w, None).

(** A job that cannot run fails at once. *)
Definition refuse (now : timestamp) (msg : string) job w : Work.t :=
  finalize (Job.id job)
    (if up SFailPermanently
     then w <| Work.jobs ::= λ t, (fail_permanently now (Job.id job) (Job.attempts job) msg t).1 |>
     else w).

(** The run a job replays: its cassette's unreadable lines, or why it cannot. *)
Definition resolve_replay job (replay_of : option Uuid) : result string Z :=
  match replay_of with
  | None => Ok 0
  | Some id =>
      match refuse_replay (Job.app job) with
      | Some refusal => Err (error_display refusal)
      | None => cassette (Job.app job) id
      end
  end.

(** [execute] up to the run: the job is refused, or started. *)
Definition begin (now : timestamp) job w : Work.t * option Started.t :=
  if negb (registered (Job.app job)) then (refuse now "app not registered" job w, None)
  else
    match vcr_params parse_uuid (Job.params job) with
    | Err msg => (refuse now msg job w, None)
    | Ok (vcr_record, replay_of) =>
        match resolve_replay job replay_of with
        | Err reason => (refuse now reason job w, None)
        | Ok unreadable =>
            let '(w, restored) := load_restore job w in
            (w, Some (Started.mk restored replay_of unreadable
                        (if is_some replay_of then None
                         else if vcr_record then Some (is_some restored) else None)))
        end
    end.

(** ** The verdict *)

(** The three failing arms: retried, superseded, or failed for good. *)
Definition fail_run (now : timestamp) (reason : FailReason) job w : Work.t :=
  if up SFail then
    let '(t, verdict) := fail now (Job.id job) (Job.attempts job) reason (Work.jobs w) in
    let w := w <| Work.jobs := t |> in
    match verdict with
    | Some Queued => emit Notified w
    | None => w
    | Some _ => finalize (Job.id job) w
    end
  else finalize (Job.id job) w.

(** A result that landed: its checkpoint is spent, its yield recorded. *)
Definition landed (now : timestamp) (result : Json) job w : Work.t :=
  let w := clear (Job.id job) w in
  let yields := extract_yields result in
  match yields with
  | [] => w
  | _ =>
      if up SYield
      then w <| Work.yields ::= record_job_yield now (Job.id job) (Job.app job) yields |> else w
  end.
Definition complete_run (now : timestamp) (result : Json) job w : Work.t * bool :=
  if up SComplete then
    let '(t, ok) := complete now (Job.id job) (Job.attempts job) result (Work.jobs w) in
    if ok then (emit (FannedOut (Job.id job) (Job.attempts job)) (landed now result job (w <| Work.jobs := t |>)), true)
    else (w, false)
  else (w, false).

(** The result as it is stored: the replay's stamp, the checkpoints that did not land. *)
Definition stamped (s : Started.t) (failures : CheckpointFailures.t) job (result : Json) : Json :=
  let result :=
    match Started.replay_of s, result with
    | Some replay_id, JObject map =>
        JObject (foldl (λ m (kv : string * Json), map_insert kv.1 kv.2 m) map
                   (replay_stamp (Job.app job) replay_id (Started.cassette_unreadable s)))
    | _, _ => result
    end in
  (carry_checkpoint_failures result failures).1.

Definition suspend_run (now : timestamp) job w : Work.t :=
  if up SReset then
    match reset now (Job.id job) (Work.jobs w) with
    | (t, Some _) => publish job "queued" None (w <| Work.jobs := t |>)
    | (t, None) => w <| Work.jobs := t |>
    end
  else w.
Definition cancel_run (now : timestamp) job w : Work.t :=
  if up SCancelRunning then
    match cancel_running now (Job.id job) (Job.attempts job) (Work.jobs w) with
    | (t, true) => publish job "cancelled" None (clear (Job.id job) (w <| Work.jobs := t |>))
    | (t, false) => w <| Work.jobs := t |>
    end
  else w.
Definition park_run (now : timestamp) (request : Json) job w : Work.t :=
  if up SAwaitInput then
    match await_input now (Job.id job) (Job.attempts job) request
            (waiting_deadline now (WorkerConfig.expiry_secs cfg)) (Work.jobs w) with
    | (t, true) =>
        foldl (λ w '(kind, app, _), emit (Published (Job.id job) app kind (Some request)) w)
          (publish job "waiting" (Some request) (w <| Work.jobs := t |>))
          (park_domain_events (Job.app job) request)
    | (t, false) => w <| Work.jobs := t |>
    end
  else w.
Definition refuse_retry (now : timestamp) (reason : string) job w : Work.t :=
  if up SFailPermanently then
    match fail_permanently now (Job.id job) (Job.attempts job) reason (Work.jobs w) with
    | (t, true) => finalize (Job.id job) (w <| Work.jobs := t |>)
    | (t, false) => w <| Work.jobs := t |>
    end
  else finalize (Job.id job) w.

(** The schedules a finished run asked for ([write]: what the store says to each). *)
Definition declare_schedules (now : timestamp) (write : string → result string ()) job
    (requests : list Json) w : Work.t :=
  match requests with
  | [] => w
  | _ =>
      w <| Work.schedules ::= λ t,
             (apply_schedule_requests now write (Job.app job) requests
                (WorkerConfig.max_app_schedules_per_run cfg) t).1 |>
  end.

(** [execute] after the run. *)
Definition conclude (now : timestamp) (s : Started.t) (failures : CheckpointFailures.t)
    (write : string → result string ()) (requests : list Json) (shutting_down cost_paused : bool)
    (o : Outcome) job w : Work.t :=
  match o with
  | Cancelled =>
      let '(noted, kind) := resolve_cancel (Job.id job) shutting_down (Work.noted w) in
      let w := w <| Work.noted := noted |> in
      match kind with
      | ShutdownSuspend => suspend_run now job w
      | User => cancel_run now job w
      end
  | Finished (Ok result) =>
      (complete_run now (stamped s failures job result) job
         (declare_schedules now write job requests w)).1
  | Finished (Err e) =>
      match awaited_request e with
      | Some request => park_run now request job w
      | None =>
          if is_terminal_for_job e
          then refuse_retry now (terminal_failure_reason e (Job.app job) cost_paused) job w
          else fail_run now (Typed e) job w
      end
  | Panicked error => fail_run now (Text error) job w
  | TimedOut =>
      fail_run now
        (Text ("timed out after " +:+ pretty (WorkerConfig.job_timeout_secs cfg) +:+ "s")%string) job w
  end.

(** ** The executor's report *)

Inductive Report : Type := RSucceeded | RQueued | RFailed | RStale.
Definition finish_from_executor (now : timestamp) (outcome : result string Json) job w :
    Work.t * Report :=
  match outcome with
  | Ok result =>
      let '(w, ok) := complete_run now result job w in (w, if ok then RSucceeded else RStale)
  | Err error =>
      if up SFail then
        let '(t, verdict) := fail now (Job.id job) (Job.attempts job) (Text error) (Work.jobs w) in
        let w := w <| Work.jobs := t |> in
        match verdict with
        | Some Queued => (emit Notified w, RQueued)
        | None => (w, RStale)
        | Some _ => (finalize (Job.id job) w, RFailed)
        end
      else (w, RStale)
  end.

(** ** The reaper's tick *)

Definition expire_waiting_once (now : timestamp) w : Work.t :=
  let cap := WorkerConfig.expire_batch cfg in
  if cap <=? 0 then w
  else if up SExpire then
    let '(t, expired) := expire_waiting now WAITING_EXPIRED_REASON cap (Work.jobs w) in
    foldl (λ w '(id, _), finalize id w) (w <| Work.jobs := t |>) expired
  else w.

Definition after_reap w (verdict : Uuid * string * JobStatus) : Work.t :=
  match verdict with
  | (id, app, Queued) => emit Notified (emit (Published id app "queued" None) w)
  | (id, _, _) => finalize id w
  end.
(** [clock] and [over_budget] are those of the recovery sweep. *)
Definition reap_once (clock : nat → timestamp) (over_budget : nat → bool) (now : timestamp) w : Work.t :=
  let w := expire_waiting_once now w in
  let stale := WorkerConfig.stale_after_secs cfg in
  if stale =? 0 then w
  else if up SReap then
    let '(t, reaped) := reap_stale clock over_budget now stale (Work.jobs w) in
    foldl after_reap (w <| Work.jobs := t |>) reaped
  else w.
End worker.
