(* ===== verification/ClaimLoop.v ===== *)
(** * ClaimLoop: claiming under the caps, and shutting down

    The loop of [run] in [crates/server/src/worker.rs]: the permits, the per-app counts it
    blocks apps with, the limiter of its outage reports and the windows of the drain. *)

From stdpp Require Import gmap.
From S2P Require Import Prelude Sql Float64 Json Requeue Jobs JobQueue QueueInvariants QueueTheorems.

(** ** Outages *)

(** Monotonic instants are nanoseconds. *)
Definition CLAIM_OUTAGE_REPORT_EVERY : Duration := 300 * 10 ^ 9.

Module ClaimOutage.
Record t : Type := mk { consecutive : Z; last_report : option Z }.
Definition default : t := mk 0 None.
(** [seen] is when the age of the last report is read, [now] when a report is stamped. *)
Definition failed (seen now : Z) (o : t) : t * bool :=
  let due :=
    match last_report o with
    | None => true
    | Some at_ => CLAIM_OUTAGE_REPORT_EVERY <=? seen - at_
    end in
  (mk (consecutive o + 1) (if due then Some now else last_report o), due).
Definition recovered (o : t) : t * Z := (mk 0 None, consecutive o).
End ClaimOutage.

(** The reports of an outage whose failures come at these times. *)
Fixpoint outage_reports (times : list (Z * Z)) (o : ClaimOutage.t) : list Z :=
  match times with
  | [] => []
  | (seen, now) :: times =>
      let '(o, due) := ClaimOutage.failed seen now o in
      (if due then [now] else []) ++ outage_reports times o
  end.

(** ** The drain *)

(** Its two windows, in seconds: the clean finish and the grace to suspend. *)
Definition suspend_grace (total_secs : Z) : Z :=
  Z.min (Z.min (Z.max (total_secs / 5) 1) 10) (Z.max total_secs 1).
Definition clean_window (total_secs : Z) : Z := Z.max (total_secs - suspend_grace total_secs) 0.

(** ** The pool *)

Module Pool.
Record t : Type := mk {
  jobs : table; counts : gmap string Z; running : list Job.t; permits : Z }.
#[global] Instance eta_pool : Eta t := λ p, mk (jobs p) (counts p) (running p) (permits p).
End Pool.

Section loop.
Context `{Sqlite}.
Context (app_concurrency : gmap string Z) (default_app_concurrency : Z) (aging : f64).
Implicit Types (p : Pool.t) (app : string).

Definition app_limit app : Z := default default_app_concurrency (app_concurrency !! app).
(** Apps at or above their limit (0 is no limit); the order of the counts does not matter. *)
Definition blocked_apps (counts : gmap string Z) : list string :=
  omap (λ '(app, n), if (0 <? app_limit app) && (app_limit app <=? n) then Some app else None)
    (map_to_list counts).

(** One pass: a permit is held for as long as the claimed job runs. *)
Definition claim_pass (now : timestamp) p : Pool.t :=
  if Pool.permits p <=? 0 then p
  else
    match claim_next now (blocked_apps (Pool.counts p)) aging (Pool.jobs p) with
    | (t, None) => p <| Pool.jobs := t |>
    | (t, Some job) =>
        p <| Pool.jobs := t |>
          <| Pool.counts ::= λ m, <[Job.app job := default 0 (m !! Job.app job) + 1]> m |>
          <| Pool.running ::= λ l, l ++ [job] |> <| Pool.permits ::= λ n, n - 1 |>
    end.

(** The end of the [i]-th task. *)
Definition task_ends (i : nat) p : Pool.t :=
  match Pool.running p !! i with
  | None => p
  | Some job =>
      p <| Pool.counts ::= λ m,
             match m !! Job.app job with
             | Some n => <[Job.app job := Z.max (n - 1) 0]> m
             | None => m
             end |>
        <| Pool.running := delete i (Pool.running p) |> <| Pool.permits ::= λ n, n + 1 |>
  end.

Inductive pool_step : Pool.t → Pool.t → Prop :=
| ps_claim now p : pool_step p (claim_pass now p)
| ps_end i p : pool_step p (task_ends i p)
| ps_queue t p : pool_step p (p <| Pool.jobs := t |>).

(** ** The caps *)

Definition running_of app p : Z := rows_affected (λ j, String.eqb (Job.app j) app) (Pool.running p).

Record capped (concurrency : Z) p : Prop := {
  cp_permits : Pool.permits p + Z.of_nat (length (Pool.running p)) = concurrency;
  cp_room : 0 ≤ Pool.permits p;
  cp_counts : ∀ app, default 0 (Pool.counts p !! app) = running_of app p;
  cp_limit : ∀ app, 0 < app_limit app → running_of app p ≤ app_limit app }.

Lemma elem_of_blocked app counts :
  app ∈ blocked_apps counts ↔ ∃ n, counts !! app = Some n ∧ 0 < app_limit app ∧ app_limit app ≤ n.
Proof.
  unfold blocked_apps. rewrite list_elem_of_omap. split.
  - intros ([app' n] & Hin & Hx). apply elem_of_map_to_list in Hin.
    cbn in Hx. revert Hx. case_if; [|done]. intros [= <-]. breflect_in Heqb. exists n. naive_solver.
  - intros (n & Hn & H0 & Hle). exists (app, n). split; [by apply elem_of_map_to_list|].
    rewrite (proj2 (Z.ltb_lt _ _)) by done. by rewrite (proj2 (Z.leb_le _ _)).
Qed.

Lemma claim_not_blocked now blocked t t' job :
  claim_next now blocked aging t = (t', Some job) → Job.app job ∉ blocked.
Proof.
  intros Hc. pose proof (claim_by_spec (λ t, order_by (claim_before aging now)
    (select_where (claimable now blocked t) t)) (claim_row now) t) as Hs.
  unfold claim_next in Hc. rewrite Hc in Hs. destruct Hs as (r & l & Hp & -> & _).
  assert (r ∈ order_by (claim_before aging now) (select_where (claimable now blocked t) t)) as Hr
    by (rewrite Hp; by left).
  autorewrite with sql in Hr. rewrite claimable_spec in Hr. naive_solver.
Qed.

Lemma running_app app (l : list Job.t) job :
  rows_affected (λ j, String.eqb (Job.app j) app) (l ++ [job])
  = rows_affected (λ j, String.eqb (Job.app j) app) l + if String.eqb (Job.app job) app then 1 else 0.
Proof.
  unfold rows_affected, select_where. rewrite List.filter_app, length_app. cbn.
  destruct (String.eqb (Job.app job) app); cbn; lia.
Qed.
Lemma running_delete app (l : list Job.t) i job :
  l !! i = Some job →
  rows_affected (λ j, String.eqb (Job.app j) app) l
  = rows_affected (λ j, String.eqb (Job.app j) app) (delete i l)
    + if String.eqb (Job.app job) app then 1 else 0.
Proof.
  intros Hi. rewrite <- (take_drop_middle l i job Hi) at 1. rewrite delete_take_drop.
  unfold rows_affected, select_where. rewrite !List.filter_app, !length_app. cbn [List.filter].
  destruct (String.eqb (Job.app job) app); cbn [length]; lia.
Qed.

Lemma capped_step concurrency p p' : pool_step p p' → capped concurrency p → capped concurrency p'.
Proof.
  intros Hs Hc. destruct Hs as [now p|i p|t p].
  - unfold claim_pass. destruct (Z.leb_spec (Pool.permits p) 0) as [|Hroom]; [done|].
    destruct (claim_next now _ aging _) as [t [job|]] eqn:Ec; [|by destruct Hc].
    apply claim_not_blocked in Ec. rewrite elem_of_blocked in Ec. destruct Hc as [C1 C2 C3 C4].
    split; cbn; [rewrite length_app; cbn; lia|lia| |]; intros app; unfold running_of; cbn; rewrite running_app.
    + destruct (String.eqb_spec (Job.app job) app) as [<-|Hne].
      * rewrite lookup_insert_eq. cbn. by rewrite C3.
      * rewrite lookup_insert_ne by done. rewrite C3. unfold running_of. lia.
    + intros Hl. destruct (String.eqb_spec (Job.app job) app) as [<-|Hne];
        [|pose proof (C4 app Hl); unfold running_of in *; lia].
      specialize (C3 (Job.app job)). unfold running_of in C3. rewrite <- C3.
      destruct (Pool.counts p !! Job.app job) as [n|] eqn:En; cbn in *; [|lia].
      destruct (Z.lt_ge_cases n (app_limit (Job.app job))); [lia|]. exfalso. apply Ec. by exists n.
  - unfold task_ends. destruct (Pool.running p !! i) as [job|] eqn:Ei; [|done].
    destruct Hc as [C1 C2 C3 C4]. pose proof (lookup_lt_Some _ _ _ Ei) as Hi.
    split; cbn; [rewrite length_delete by done; lia|lia| |]; intros app; unfold running_of; cbn;
      pose proof (running_delete app _ _ _ Ei) as Hd; pose proof (C3 app) as Hc; unfold running_of in Hc.
    + destruct (String.eqb_spec (Job.app job) app) as [Heq|Hne].
      * subst app. assert (0 ≤ rows_affected (λ j, String.eqb (Job.app j) (Job.app job)) (delete i (Pool.running p)))
          by (unfold rows_affected; lia).
        destruct (Pool.counts p !! Job.app job) as [n|] eqn:En; [rewrite lookup_insert_eq|rewrite En];
          cbn in *; lia.
      * destruct (Pool.counts p !! Job.app job); [rewrite lookup_insert_ne by done|]; lia.
    + intros Hl. specialize (C4 app Hl). unfold running_of in C4. destruct (String.eqb _ _); lia.
  - by destruct Hc.
Qed.

(** The caps hold: from an idle pool, whatever is claimed, ends or happens to the queue in
    between, the loop never runs more jobs than its concurrency, nor more of an app than the
    app's limit. *)
Theorem caps_hold concurrency t p :
  0 ≤ concurrency → rtc pool_step (Pool.mk t ∅ [] concurrency) p →
  Z.of_nat (length (Pool.running p)) ≤ concurrency
  ∧ ∀ app, 0 < app_limit app → running_of app p ≤ app_limit app.
Proof.
  intros Hc Hs. assert (capped concurrency p) as [C1 C2 C3 C4].
  { assert (capped concurrency (Pool.mk t ∅ [] concurrency)) as H0.
    { split; cbn; [lia|done| |]; intros app; [by rewrite lookup_empty|].
      unfold running_of, rows_affected. cbn. lia. }
    revert H0. induction Hs as [|p0 p1 p2 Hs _ IH]; [done|]. intros H0. by eapply IH, capped_step. }
  split; [lia|exact C4].
Qed.
End loop.

(** ** The limiter *)

Lemma sorted_last_after (t : Z) (l : list Z) :
  StronglySorted Z.le (t :: l) → t ≤ default t (last l).
Proof.
  revert t. induction l as [|x l IH]; intros t Hs; [done|].
  apply StronglySorted_inv in Hs as [Hs Hf]. apply Forall_cons in Hf as [Htx _].
  specialize (IH x Hs). destruct l as [|y l]; [done|]. cbn [last] in *.
  destruct (last (y :: l)) eqn:E; [cbn in *; lia|]. by apply last_None in E.
Qed.

Lemma outage_spacing times : ∀ n t,
  Forall (λ r : Z * Z, r.1 ≤ r.2) times → StronglySorted Z.le (t :: map snd times) →
  Z.of_nat (length (outage_reports times (ClaimOutage.mk n (Some t)))) * CLAIM_OUTAGE_REPORT_EVERY
    ≤ default t (last (map snd times)) - t.
Proof.
  induction times as [|[seen now] times IH]; intros n t Hseen Hs; [cbn; lia|].
  apply Forall_cons in Hseen as [Hle Hseen]. cbn [map snd fst] in *.
  apply StronglySorted_inv in Hs as [Hs Hf]. apply Forall_cons in Hf as [Htn Hf].
  assert (default t (last (now :: map snd times)) = default now (last (map snd times))) as ->.
  { destruct times as [|r times]; [done|]. cbn [map last].
    destruct (last _) eqn:E; [done|]. by apply last_None in E. }
  cbn [outage_reports]. unfold ClaimOutage.failed. cbn [ClaimOutage.last_report ClaimOutage.consecutive].
  destruct (Z.leb_spec CLAIM_OUTAGE_REPORT_EVERY (seen - t)) as [Hd|Hd]; cbn [app length].
  - specialize (IH (n + 1) now Hseen Hs). lia.
  - assert (StronglySorted Z.le (t :: map snd times)) as Hs'
      by (constructor; [by apply StronglySorted_inv in Hs as [? _]|done]).
    specialize (IH (n + 1) t Hseen Hs').
    destruct (last (map snd times)) eqn:E; cbn in *; lia.
Qed.

(** A lasting outage is reported at its first failure, and then at most once every five
    minutes, however often the claim fails. *)
Theorem outage_reports_are_spaced times :
  times ≠ [] → Forall (λ r : Z * Z, r.1 ≤ r.2) times → StronglySorted Z.le (map snd times) →
  let reports := outage_reports times ClaimOutage.default in
  reports ≠ [] ∧
  (Z.of_nat (length reports) - 1) * CLAIM_OUTAGE_REPORT_EVERY
    ≤ default 0 (last (map snd times)) - default 0 (head (map snd times)).
Proof.
  intros Hne Hseen Hs reports. subst reports. destruct times as [|[seen now] times]; [done|].
  apply Forall_cons in Hseen as [_ Hseen].
  pose proof (outage_spacing times 1 now Hseen Hs) as Ho.
  split; [done|].
  change (outage_reports ((seen, now) :: times) ClaimOutage.default)
    with (now :: outage_reports times (ClaimOutage.mk 1 (Some now))).
  cbn [length map snd head default from_option]. rewrite Nat2Z.inj_succ.
  assert (default 0 (last (now :: map snd times)) = default now (last (map snd times))) as ->.
  { destruct times as [|r times]; [done|]. cbn [map last].
    destruct (last _) eqn:E; [done|]. by apply last_None in E. }
  cbn [id]. lia.
Qed.

(** ** Witnesses *)

#[local] Instance demo_julian : Sqlite := λ t, f64_of_Z t.
Definition demo_opts : Opts.t := Opts.default <| Opts.max_attempts := 2 |>.
Definition demo_queue : table :=
  [new_row 1 "shop" demo_opts None 0; new_row 2 "shop" demo_opts None 1; new_row 3 "news" demo_opts None 2].
Abbreviation demo_pass := (claim_pass {["shop"%string := 1]} 0 f64_zero 9).

(** Two passes claim a job of each app: the second shop job waits for the first. *)
Lemma caps_hold_witness :
  let p := demo_pass (demo_pass (Pool.mk demo_queue ∅ [] 3)) in
  map Job.id (Pool.running p) = [1; 3] ∧ running_of "shop" p ≤ 1.
Proof.
  split; [vm_compute; reflexivity|].
  refine (proj2 (caps_hold {["shop"%string := 1]} 0 f64_zero 3 demo_queue _ _ _) "shop"%string _);
    [lia| |vm_compute; reflexivity].
  eapply rtc_l; [apply ps_claim|]. apply rtc_once, ps_claim.
Defined.

Lemma outage_reports_demo :
  outage_reports [(0, 0); (100 * 10 ^ 9, 100 * 10 ^ 9); (301 * 10 ^ 9, 302 * 10 ^ 9)] ClaimOutage.default
  = [0; 302 * 10 ^ 9].
Proof. vm_compute. reflexivity. Qed.
