(* ===== verification/WorkerTheorems.v ===== *)
(** * WorkerTheorems: what a worker pass does to the queue, and who hears of it

    Every pass of [Worker] is a sequence of the queue's own statements, whatever the store
    answers, so the guarantees of the queue survive the worker; results fan out once; a
    superseded attempt is silent; and what a failure announces. *)

From stdpp Require Import gmap pretty.
From S2P Require Import Prelude Sql Float64 Jitter Json Errors Requeue Jobs JobQueue.
From S2P Require Import QueueInvariants QueueTheorems Checkpoints Cancel Triggers.
From S2P Require Import Records Schedules Scheduler Vcr Yields Worker.

Create HintDb worker.

(** ** What announcing leaves alone *)

Section frames.
Context (up : StoreCall → bool).
Implicit Types (w : Work.t) (job : Job.t).

Lemma clear_jobs id w : Work.jobs (clear up id w) = Work.jobs w.
Proof. unfold clear. by case_if. Qed.
Lemma clear_effects id w : Work.effects (clear up id w) = Work.effects w.
Proof. unfold clear. by case_if. Qed.
Lemma finalize_jobs id w : Work.jobs (finalize up id w) = Work.jobs w.
Proof.
  unfold finalize. case_if; [|done]. destruct (get id _) as [job|]; [|done].
  cbn. destruct (Job.status job); by rewrite ?clear_jobs.
Qed.
Lemma finalize_effects id w :
  Work.effects (finalize up id w)
  = Work.effects w ++ (if up SGet then match get id (Work.jobs w) with
                                      | Some job => [Terminal job] | None => [] end else []).
Proof.
  unfold finalize. destruct (up SGet); [|by rewrite app_nil_r].
  destruct (get id _) as [job|]; [|by rewrite app_nil_r].
  cbn. destruct (Job.status job); by rewrite ?clear_effects.
Qed.
Lemma landed_jobs now result job w : Work.jobs (landed up now result job w) = Work.jobs w.
Proof.
  unfold landed. destruct (extract_yields result); [by rewrite clear_jobs|].
  case_if; cbn; by rewrite clear_jobs.
Qed.
Lemma landed_effects now result job w : Work.effects (landed up now result job w) = Work.effects w.
Proof.
  unfold landed. destruct (extract_yields result); [by rewrite clear_effects|].
  case_if; cbn; by rewrite clear_effects.
Qed.
End frames.
#[export] Hint Rewrite clear_jobs clear_effects finalize_jobs finalize_effects
  landed_jobs landed_effects : worker.

(** ** A pass is a run of statements *)

Section passes.
Context `{JsonRender, Sqlite}.

(** The queue gets from [t] to [t'] by its own statements, none left pending. *)
Definition queue_run (t t' : table) : Prop := ∀ p, ∃ ops, run ops (mkSys t p) = mkSys t' p.

#[global] Instance queue_run_preorder : PreOrder queue_run.
Proof.
  split.
  - intros t p. by exists [].
  - intros t1 t2 t3 H1 H2 p. destruct (H1 p) as [o1 E1], (H2 p) as [o2 E2].
    exists (o1 ++ o2). unfold run in *. by rewrite foldl_app, E1.
Qed.

Lemma queue_run_op o t t' : (∀ p, exec o (mkSys t p) = mkSys t' p) → queue_run t t'.
Proof. intros He p. exists [o]. apply He. Qed.

Lemma fail_run_ops now id attempt reason t : queue_run t (fail now id attempt reason t).1.
Proof.
  intros p. unfold fail. destruct (get id t) as [job|] eqn:Eg; [|by exists []].
  destruct (fail_plan job attempt reason) as [plan|] eqn:Ep; [|by exists []].
  exists [OpFailRead id attempt reason; OpFailWrite now (length p)].
  cbn [run foldl exec jobs]. rewrite Eg, Ep. cbn [upd exec pending jobs eta eta_sys].
  unfold upd. cbn [jobs pending]. rewrite lookup_app_r, Nat.sub_diag by done. cbn.
  rewrite delete_middle, app_nil_r. done.
Qed.

Lemma recovery_run_ops clock over_budget rows : ∀ i reason sweep t,
  queue_run t (issue_recovery_verdicts clock over_budget i rows reason sweep t).1.
Proof.
  induction rows as [|job rows IH]; intros i reason sweep t; [done|]. cbn.
  case_if; [done|]. pose proof (fail_run_ops (clock i) (Job.id job) (Job.attempts job) (Text reason) t) as Hf.
  destruct (fail _ _ _ _ t) as [t' verdict]. etrans; [exact Hf|apply IH].
Qed.

Lemma reap_run_ops clock over_budget now stale t :
  queue_run t (reap_stale clock over_budget now stale t).1.
Proof.
  unfold reap_stale. set (rows := sql_limit _ _).
  pose proof (recovery_run_ops clock over_budget rows 0 RECOVERY_REASON_LEASE Sweep.default t) as Hr.
  by destruct (issue_recovery_verdicts _ _ _ rows _ _ t).
Qed.

(** Each verdict of the worker is one statement. *)
Lemma op_complete now id attempt r t : queue_run t (complete now id attempt r t).1.
Proof. by apply (queue_run_op (OpComplete now id attempt r)). Qed.
Lemma op_fail_permanently now id attempt e t : queue_run t (fail_permanently now id attempt e t).1.
Proof. by apply (queue_run_op (OpFailPermanently now id attempt e)). Qed.
Lemma op_reset now id t : queue_run t (reset now id t).1.
Proof. by apply (queue_run_op (OpReset now id)). Qed.
Lemma op_cancel_running now id attempt t : queue_run t (cancel_running now id attempt t).1.
Proof. by apply (queue_run_op (OpCancelRunning now id attempt)). Qed.
Lemma op_await_input now id attempt req ex t : queue_run t (await_input now id attempt req ex t).1.
Proof. by apply (queue_run_op (OpAwaitInput now id attempt req ex)). Qed.
Lemma op_expire_waiting now reason cap t : queue_run t (expire_waiting now reason cap t).1.
Proof. by apply (queue_run_op (OpExpireWaiting now reason cap)). Qed.

Context (cfg : WorkerConfig.t) (up : StoreCall → bool).
Implicit Types (w : Work.t) (job : Job.t).

#[local] Arguments fail : simpl never.
#[local] Arguments complete : simpl never.
#[local] Arguments fail_permanently : simpl never.
#[local] Arguments cancel_running : simpl never.
#[local] Arguments await_input : simpl never.
#[local] Arguments reset : simpl never.
#[local] Arguments finalize : simpl never.
#[local] Arguments clear : simpl never.
#[local] Arguments landed : simpl never.

Lemma fail_run_queue now reason job w :
  queue_run (Work.jobs w) (Work.jobs (fail_run up now reason job w)).
Proof.
  unfold fail_run. case_if; [|by autorewrite with worker].
  pose proof (fail_run_ops now (Job.id job) (Job.attempts job) reason (Work.jobs w)) as Hf.
  destruct (fail _ _ _ _ _) as [t [[]|]]; cbn in *; autorewrite with worker; exact Hf.
Qed.
Lemma complete_run_queue now result job w :
  queue_run (Work.jobs w) (Work.jobs (complete_run up now result job w).1).
Proof.
  unfold complete_run. case_if; [|done].
  pose proof (op_complete now (Job.id job) (Job.attempts job) result (Work.jobs w)) as Hc.
  destruct (complete _ _ _ _ _) as [t []]; cbn; autorewrite with worker; done.
Qed.
Lemma refuse_queue now msg job w : queue_run (Work.jobs w) (Work.jobs (refuse up now msg job w)).
Proof. unfold refuse. autorewrite with worker. case_if; [apply op_fail_permanently|done]. Qed.
Lemma refuse_retry_queue now reason job w :
  queue_run (Work.jobs w) (Work.jobs (refuse_retry up now reason job w)).
Proof.
  unfold refuse_retry. case_if; [|by autorewrite with worker].
  pose proof (op_fail_permanently now (Job.id job) (Job.attempts job) reason (Work.jobs w)) as Hc.
  destruct (fail_permanently _ _ _ _ _) as [t []]; cbn; autorewrite with worker; exact Hc.
Qed.
Lemma suspend_run_queue now job w : queue_run (Work.jobs w) (Work.jobs (suspend_run up now job w)).
Proof.
  unfold suspend_run. case_if; [|done]. pose proof (op_reset now (Job.id job) (Work.jobs w)) as Hc.
  by destruct (reset _ _ _) as [t []].
Qed.
Lemma cancel_run_queue now job w : queue_run (Work.jobs w) (Work.jobs (cancel_run up now job w)).
Proof.
  unfold cancel_run. case_if; [|done].
  pose proof (op_cancel_running now (Job.id job) (Job.attempts job) (Work.jobs w)) as Hc.
  destruct (cancel_running _ _ _ _) as [t []]; cbn; autorewrite with worker; exact Hc.
Qed.
Lemma park_run_queue now request job w :
  queue_run (Work.jobs w) (Work.jobs (park_run cfg up now request job w)).
Proof.
  unfold park_run. case_if; [|done].
  pose proof (op_await_input now (Job.id job) (Job.attempts job) request
    (waiting_deadline now (WorkerConfig.expiry_secs cfg)) (Work.jobs w)) as Hc.
  destruct (await_input _ _ _ _ _ _) as [t []]; [|exact Hc]. cbn [fst] in Hc.
  unfold park_domain_events. by destruct (json_get "transaction_id" request ≫= as_str).
Qed.

(** The passes themselves. *)
Context `{JsonParse, UuidText, Sha256, CronLib}.

Lemma load_restore_jobs job w : Work.jobs (load_restore cfg up job w).1 = Work.jobs w.
Proof.
  unfold load_restore. case_if; [done|]. case_if; [|done].
  destruct (load_checkpoint _ _) as [[checkpoint failures]|]; [|done].
  case_if; cbn; [by rewrite clear_jobs|by case_if].
Qed.
Lemma load_restore_effects job w : Work.effects (load_restore cfg up job w).1 = Work.effects w.
Proof.
  unfold load_restore. case_if; [done|]. case_if; [|done].
  destruct (load_checkpoint _ _) as [[checkpoint failures]|]; [|done].
  case_if; cbn; [by rewrite clear_effects|by case_if].
Qed.
Lemma declare_jobs now write job requests w :
  Work.jobs (declare_schedules cfg now write job requests w) = Work.jobs w.
Proof. by destruct requests. Qed.
Lemma declare_effects now write job requests w :
  Work.effects (declare_schedules cfg now write job requests w) = Work.effects w.
Proof. by destruct requests. Qed.

Lemma begin_queue registered parse_uuid cassette now job w :
  queue_run (Work.jobs w)
    (Work.jobs (begin cfg registered parse_uuid cassette up now job w).1).
Proof.
  unfold begin. case_if; [apply refuse_queue|].
  destruct (vcr_params parse_uuid (Job.params job)) as [[record replay_of]|msg]; [|apply refuse_queue].
  destruct (resolve_replay cassette job replay_of) as [n|reason]; [|apply refuse_queue].
  pose proof (load_restore_jobs job w) as Hl. destruct (load_restore cfg up job w) as [w' restored].
  cbn in *. by rewrite Hl.
Qed.

Lemma conclude_queue now s failures write requests shutting_down cost_paused o job w :
  queue_run (Work.jobs w)
    (Work.jobs (conclude cfg up now s failures write requests shutting_down cost_paused o job w)).
Proof.
  unfold conclude. destruct o as [[result|e]|error| |].
  - rewrite <- (declare_jobs now write job requests w) at 1. apply complete_run_queue.
  - destruct (awaited_request e); [apply park_run_queue|]. case_if; [apply refuse_retry_queue|apply fail_run_queue].
  - apply fail_run_queue.
  - apply fail_run_queue.
  - destruct (resolve_cancel _ _ _) as [noted kind]. set (w' := w <| Work.noted := noted |>).
    change (Work.jobs w) with (Work.jobs w'). destruct kind; [apply cancel_run_queue|apply suspend_run_queue].
Qed.

Lemma executor_queue now outcome job w :
  queue_run (Work.jobs w) (Work.jobs (finish_from_executor up now outcome job w).1).
Proof.
  unfold finish_from_executor. destruct outcome as [result|error].
  - pose proof (complete_run_queue now result job w) as Hc. by destruct (complete_run _ _ _ _ _).
  - case_if; [|done].
    pose proof (fail_run_ops now (Job.id job) (Job.attempts job) (Text error) (Work.jobs w)) as Hf.
    destruct (fail _ _ _ _ _) as [t [[]|]]; cbn in *; autorewrite with worker; exact Hf.
Qed.

Lemma after_reap_jobs l w : Work.jobs (foldl (after_reap up) w l) = Work.jobs w.
Proof.
  revert w. induction l as [|[[id app] st] l IH]; intros w; [done|]. cbn. rewrite IH.
  by destruct st; autorewrite with worker.
Qed.
Lemma finalize_all_jobs (l : list (Uuid * string)) w :
  Work.jobs (foldl (λ w '(id, _), finalize up id w) w l) = Work.jobs w.
Proof. revert w. induction l as [|[id app] l IH]; intros w; [done|]. cbn. rewrite IH. apply finalize_jobs. Qed.

Lemma expire_queue now w : queue_run (Work.jobs w) (Work.jobs (expire_waiting_once cfg up now w)).
Proof.
  unfold expire_waiting_once. case_if; [done|]. case_if; [|done].
  pose proof (op_expire_waiting now WAITING_EXPIRED_REASON (WorkerConfig.expire_batch cfg) (Work.jobs w)) as Hx.
  destruct (expire_waiting _ _ _ _) as [t expired]. cbn in Hx.
  rewrite finalize_all_jobs. exact Hx.
Qed.
Lemma reap_queue clock over_budget now w :
  queue_run (Work.jobs w) (Work.jobs (reap_once cfg up clock over_budget now w)).
Proof.
  unfold reap_once. pose proof (expire_queue now w) as Hx.
  set (w1 := expire_waiting_once cfg up now w) in *. case_if; [done|]. case_if; [|done].
  pose proof (reap_run_ops clock over_budget now (WorkerConfig.stale_after_secs cfg) (Work.jobs w1)) as Hr.
  destruct (reap_stale _ _ _ _ _) as [t reaped]. rewrite after_reap_jobs. etrans; [exact Hx|exact Hr].
Qed.

(** ** Fan-outs *)

Definition fanned (l : list Effect) : list (Uuid * Z) :=
  omap (λ e, match e with FannedOut id attempt => Some (id, attempt) | _ => None end) l.
Definition quiet w w' : Prop := fanned (Work.effects w') = fanned (Work.effects w).

Lemma quiet_finalize id w w' : quiet w w' → quiet w (finalize up id w').
Proof.
  unfold quiet, fanned. intros <-. rewrite finalize_effects, omap_app.
  destruct (up SGet); [|by rewrite app_nil_r].
  by destruct (get id (Work.jobs w')); rewrite app_nil_r.
Qed.
Lemma quiet_emit e w w' :
  (∀ id attempt, e ≠ FannedOut id attempt) → quiet w w' → quiet w (emit e w').
Proof.
  unfold quiet, fanned. intros He Hw. cbn. rewrite omap_app, Hw.
  destruct e; cbn; [by rewrite app_nil_r..|]. by edestruct He.
Qed.
Lemma quiet_clear id w w' : quiet w w' → quiet w (clear up id w').
Proof. unfold quiet. by rewrite clear_effects. Qed.
Lemma quiet_fail_run now reason job w : quiet w (fail_run up now reason job w).
Proof.
  unfold fail_run. case_if; [|by apply quiet_finalize].
  destruct (fail _ _ _ _ _) as [t [[]|]]; [by apply quiet_emit|by apply quiet_finalize..|done].
Qed.
Lemma quiet_refuse_retry now reason job w : quiet w (refuse_retry up now reason job w).
Proof.
  unfold refuse_retry. case_if; [|by apply quiet_finalize].
  destruct (fail_permanently _ _ _ _ _) as [t []]; [by apply quiet_finalize|done].
Qed.
Lemma quiet_refuse now msg job w : quiet w (refuse up now msg job w).
Proof. unfold refuse. case_if; by apply quiet_finalize. Qed.
Lemma quiet_suspend now job w : quiet w (suspend_run up now job w).
Proof.
  unfold suspend_run. case_if; [|done]. destruct (reset _ _ _) as [t [r|]]; [|done]. by apply quiet_emit.
Qed.
Lemma quiet_cancel now job w : quiet w (cancel_run up now job w).
Proof.
  unfold cancel_run. case_if; [|done]. destruct (cancel_running _ _ _ _) as [t []]; [|done].
  apply quiet_emit; [done|]. by apply quiet_clear.
Qed.
Lemma quiet_park now request job w : quiet w (park_run cfg up now request job w).
Proof.
  unfold park_run. case_if; [|done]. destruct (await_input _ _ _ _ _ _) as [t []]; [|done].
  unfold park_domain_events. destruct (json_get "transaction_id" request ≫= as_str); cbn [foldl];
    repeat (apply quiet_emit; [done|]); done.
Qed.
Lemma quiet_reap clock over_budget now w : quiet w (reap_once cfg up clock over_budget now w).
Proof.
  assert (∀ (l : list (Uuid * string)) w', quiet w w' →
            quiet w (foldl (λ w '(id, _), finalize up id w) w' l)) as Hfin.
  { induction l as [|[id app] l IH]; intros w' Hw; [done|]. cbn. apply IH.
    by apply quiet_finalize. }
  assert (∀ l w', quiet w w' → quiet w (foldl (after_reap up) w' l)) as Hreap.
  { induction l as [|[[id app] st] l IH]; intros w' Hw; [done|]. cbn. apply IH.
    destruct st; [by repeat (apply quiet_emit; [done|])|by apply quiet_finalize..]. }
  assert (quiet w (expire_waiting_once cfg up now w)) as Hx.
  { unfold expire_waiting_once. case_if; [done|]. case_if; [|done].
    destruct (expire_waiting _ _ _ _) as [t expired]. by apply Hfin. }
  unfold reap_once. case_if; [done|]. case_if; [|done].
  destruct (reap_stale _ _ _ _ _) as [t reaped]. by apply Hreap.
Qed.
Lemma quiet_begin registered parse_uuid cassette now job w :
  quiet w (begin cfg registered parse_uuid cassette up now job w).1.
Proof.
  unfold begin. case_if; [apply quiet_refuse|].
  destruct (vcr_params parse_uuid (Job.params job)) as [[record replay_of]|msg]; [|apply quiet_refuse].
  destruct (resolve_replay cassette job replay_of) as [n|reason]; [|apply quiet_refuse].
  pose proof (load_restore_effects job w) as Hl. destruct (load_restore cfg up job w) as [w' restored].
  unfold quiet. cbn in *. by rewrite Hl.
Qed.

(** A pass fans nothing out, or the one result whose completion it landed. *)
Definition fans_landed w w' : Prop :=
  quiet w w' ∨ ∃ now id attempt result,
    fanned (Work.effects w') = fanned (Work.effects w) ++ [(id, attempt)]
    ∧ (complete now id attempt result (Work.jobs w)).2 = true
    ∧ Work.jobs w' = (complete now id attempt result (Work.jobs w)).1.

Lemma complete_fans now result job w : fans_landed w (complete_run up now result job w).1.
Proof.
  unfold complete_run. case_if; [|by left].
  destruct (complete _ _ _ _ _) as [t []] eqn:Ec; cbn; [|by left].
  right. exists now, (Job.id job), (Job.attempts job), result. rewrite Ec. split_and!; [|done|].
  - unfold fanned. cbn. by rewrite landed_effects, omap_app.
  - cbn. by rewrite landed_jobs.
Qed.
Lemma conclude_fans now s failures write requests shutting_down cost_paused o job w :
  fans_landed w (conclude cfg up now s failures write requests shutting_down cost_paused o job w).
Proof.
  unfold conclude. destruct o as [[result|e]|error| |].
  - pose proof (complete_fans now (stamped s failures job result) job
      (declare_schedules cfg now write job requests w)) as Hc.
    unfold fans_landed, quiet in *. by rewrite declare_jobs, declare_effects in Hc.
  - left. destruct (awaited_request e); [apply quiet_park|].
    case_if; [apply quiet_refuse_retry|apply quiet_fail_run].
  - left. apply quiet_fail_run.
  - left. apply quiet_fail_run.
  - left. destruct (resolve_cancel _ _ _) as [noted kind]. set (w' := w <| Work.noted := noted |>).
    change (quiet w' (match kind with User => cancel_run up now job w' | ShutdownSuspend => suspend_run up now job w' end)).
    destruct kind; [apply quiet_cancel|apply quiet_suspend].
Qed.
Lemma executor_fans now outcome job w : fans_landed w (finish_from_executor up now outcome job w).1.
Proof.
  unfold finish_from_executor. destruct outcome as [result|error].
  - pose proof (complete_fans now result job w) as Hc. by destruct (complete_run _ _ _ _ _).
  - left. case_if; [|done].
    destruct (fail _ _ _ _ _) as [t [[]|]]; [by apply quiet_emit|by apply quiet_finalize..|done].
Qed.
End passes.

(** ** The worker in the world *)

Section world.
Context `{JsonRender, JsonParse, UuidText, Sha256, CronLib, Sqlite}.

(** A worker's pass, whatever its configuration and the store's answers, or any statement of
    the queue by anyone else: another worker, a door, an executor's claim. *)
Inductive worker_step : Work.t * list (Uuid * Z * FailPlan) → Work.t * list (Uuid * Z * FailPlan) → Prop :=
| ws_begin cfg registered parse_uuid cassette up now job w p :
    worker_step (w, p) ((begin cfg registered parse_uuid cassette up now job w).1, p)
| ws_conclude cfg up now s failures write requests shutting_down cost_paused o job w p :
    worker_step (w, p)
      (conclude cfg up now s failures write requests shutting_down cost_paused o job w, p)
| ws_executor up now outcome job w p :
    worker_step (w, p) ((finish_from_executor up now outcome job w).1, p)
| ws_reap cfg up clock over_budget now w p :
    worker_step (w, p) (reap_once cfg up clock over_budget now w, p)
| ws_queue o w p :
    worker_step (w, p)
      (w <| Work.jobs := jobs (exec o (mkSys (Work.jobs w) p)) |>,
       pending (exec o (mkSys (Work.jobs w) p))).

Definition sys_of (s : Work.t * list (Uuid * Z * FailPlan)) : sys := mkSys (Work.jobs s.1) s.2.
Definition idle (saved : checkpoints) (schedules : Schedules.schedules) : Work.t :=
  Work.mk [] saved schedules [] [] [].

(** Every step is a run of the queue's statements. *)
Lemma step_runs s s' : worker_step s s' → ∃ ops, run ops (sys_of s) = sys_of s'.
Proof.
  destruct 1 as [cfg reg pu cas up now job w p|cfg up now st f wr rq sd cp o job w p
                |up now outcome job w p|cfg up clock ob now w p|o w p].
  - apply begin_queue.
  - apply conclude_queue.
  - apply executor_queue.
  - apply reap_queue.
  - exists [o]. unfold sys_of. cbn. by destruct (exec o _).
Qed.
Lemma step_fans s s' : worker_step s s' → fans_landed s.1 s'.1.
Proof.
  destruct 1; cbn; [left; apply quiet_begin|apply conclude_fans|apply executor_fans|left; apply quiet_reap|by left].
Qed.
Lemma steps_reachable s s' : rtc worker_step s s' → reachable (sys_of s) → reachable (sys_of s').
Proof.
  induction 1 as [|s1 s2 s3 Hs _ IH]; [done|]. intros Hr. apply IH.
  destruct (step_runs _ _ Hs) as [ops <-]. by apply reachable_run.
Qed.


Definition fans_settled (s : Work.t * list (Uuid * Z * FailPlan)) : Prop :=
  NoDup (fanned (Work.effects s.1))
  ∧ ∀ id attempt, (id, attempt) ∈ fanned (Work.effects s.1) → settled id attempt (Work.jobs s.1).

Lemma fans_settled_step s s' :
  worker_step s s' → reachable (sys_of s) → fans_settled s → fans_settled s'.
Proof.
  intros Hs Hr [Hnd Hset]. destruct (step_runs _ _ Hs) as [ops Hops].
  assert (∀ id attempt, settled id attempt (Work.jobs s.1) → settled id attempt (Work.jobs s'.1)) as Hkeep.
  { intros id attempt Hse. pose proof (settled_run ops (sys_of s) id attempt Hr Hse) as Hx.
    by rewrite Hops in Hx. }
  destruct (step_fans _ _ Hs) as [Hq|(now & id & attempt & result & Hf & Hl & Hj)].
  - unfold quiet in Hq. split; rewrite Hq; [done|]. intros id attempt Hin. by apply Hkeep, Hset.
  - assert ((id, attempt) ∉ fanned (Work.effects s.1)) as Hni.
    { intros Hin. apply Hset in Hin.
      pose proof (settled_blocks id attempt _ (inv_ids _ (reachable_inv _ Hr)) Hin) as H0'.
      unfold complete, guarded in Hl. cbn in Hl. cbn in H0'. by rewrite H0' in Hl. }
    split; rewrite Hf.
    + apply NoDup_app. split_and!; [done| |by apply NoDup_singleton].
      intros x Hx ->%list_elem_of_singleton. done.
    + intros id' attempt' [Hin|[= -> ->]%list_elem_of_singleton]%elem_of_app; [by apply Hkeep, Hset|].
      rewrite Hj. apply guarded_lands_settles; [|exact Hl]. intros r Hrun _. evolve constructor.
Qed.

(** A result fans out once: whatever crashes, is reaped, re-claimed or reported twice, no
    attempt of a job has its search documents, hooks and triggers derived a second time, and
    each attempt that fanned out is over. *)
Theorem results_fan_out_once saved schedules w p :
  rtc worker_step (idle saved schedules, []) (w, p) →
  NoDup (fanned (Work.effects w))
  ∧ ∀ id attempt, (id, attempt) ∈ fanned (Work.effects w) →
      rows_affected (running_at id attempt) (Work.jobs w) = 0.
Proof.
  intros Hs. assert (fans_settled (w, p) ∧ reachable (sys_of (w, p))) as [[Hnd Hset] Hr].
  { assert (fans_settled (idle saved schedules, []) ∧ reachable (sys_of (idle saved schedules, []))) as H0'.
    { split; [|constructor]. split; [constructor|]. intros id attempt Hin. by apply not_elem_of_nil in Hin. }
    revert H0'. induction Hs as [|s1 s2 s3 Hs _ IH]; [done|]. intros [Hf Hr]. apply IH. split.
    - by eapply fans_settled_step.
    - eapply steps_reachable; [by apply rtc_once|done]. }
  split; [done|]. intros id attempt Hin. apply settled_blocks; [|by apply Hset].
  apply (inv_ids _ (reachable_inv _ Hr)).
Qed.
End world.

(** ** A superseded attempt *)

Section superseded.
Context `{JsonRender, UuidText, Sha256, CronLib}.
Context (cfg : WorkerConfig.t) (up : StoreCall → bool).
Implicit Types (w : Work.t) (job : Job.t).

(** No row runs this attempt any more. *)
Definition superseded job (t : table) : Prop := rows_affected (running_at (Job.id job) (Job.attempts job)) t = 0.

Lemma superseded_guarded job f t :
  superseded job t → guarded (running_at (Job.id job) (Job.attempts job)) f t = (t, false).
Proof.
  intros Hs. unfold guarded. rewrite Hs. f_equal. apply update_where_none. by apply rows_affected_0.
Qed.
Lemma superseded_fail job now reason t :
  superseded job t → fail now (Job.id job) (Job.attempts job) reason t = (t, None).
Proof.
  intros Hs. unfold fail. destruct (get _ t) as [r|]; [|done].
  destruct (fail_plan r _ reason) as [[]|]; [| |done]; unfold fail_apply, fail_permanently_because;
    by rewrite superseded_guarded.
Qed.

(** What a pass of a superseded attempt leaves as it was: all that is stored but the schedules
    a finished run asked for, and what was announced. *)
Definition silent w w' : Prop :=
  Work.jobs w' = Work.jobs w ∧ Work.saved w' = Work.saved w ∧ Work.yields w' = Work.yields w
  ∧ Work.effects w' = Work.effects w.

(** The task was stopped by the drain, and no cancel was granted against its job. *)
Definition suspends (o : Outcome) (shutting_down : bool) job w : bool :=
  match o with
  | Worker.Cancelled =>
      match (resolve_cancel (Job.id job) shutting_down (Work.noted w)).2 with
      | ShutdownSuspend => true
      | User => false
      end
  | _ => false
  end.

(** C6: A superseded attempt is silent: when the row has moved on and the store answers,
    whatever the stale task ends in changes no job, checkpoint or yield and announces nothing.
    A shutdown's suspend is the exception, and no fence holds it: it requeues the row at
    whatever attempt it runs, and announces that. *)
Theorem superseded_attempt_is_silent now s failures write requests shutting_down cost_paused o job w :
  superseded job (Work.jobs w) → (∀ c, up c = true) →
  let w' := conclude cfg up now s failures write requests shutting_down cost_paused o job w in
  (suspends o shutting_down job w = false → silent w w')
  ∧ (suspends o shutting_down job w = true → ∀ live, get (Job.id job) (Work.jobs w) = Some live → Job.status live = Running →
       get (Job.id job) (Work.jobs w') = Some (rearm now live)
       ∧ Work.effects w' = Work.effects w ++ [Published (Job.id job) (Job.app job) "queued" None]).
Proof.
  intros Hs Hup w'. unfold suspends. split.
  - intros Hn. subst w'. unfold conclude. destruct o as [[result|e]|error| |].
    + unfold complete_run. rewrite Hup. unfold complete.
      rewrite superseded_guarded by (by rewrite declare_jobs). cbn. by destruct requests.
    + destruct (awaited_request e) as [request|].
      { unfold park_run. rewrite Hup. unfold await_input. by rewrite superseded_guarded. }
      case_if.
      * unfold refuse_retry. rewrite Hup. unfold fail_permanently, fail_permanently_because.
        by rewrite superseded_guarded.
      * unfold fail_run. by rewrite Hup, superseded_fail.
    + unfold fail_run. by rewrite Hup, superseded_fail.
    + unfold fail_run. by rewrite Hup, superseded_fail.
    + destruct (resolve_cancel _ _ _) as [noted kind]. cbn in Hn.
      destruct kind; [|done]. unfold cancel_run. rewrite Hup. unfold cancel_running.
      by rewrite (superseded_guarded job).
  - destruct o; try done. subst w'. unfold conclude.
    destruct (resolve_cancel _ _ _) as [noted []]; [done|]. intros _ live Hlive Hrun.
    unfold suspend_run. rewrite Hup. unfold reset.
    set (w1 := w <| Work.noted := noted |>). change (Work.jobs w) with (Work.jobs w1) in Hlive.
    set (q := λ r, by_id (Job.id job) r && JobStatus.eqb (Job.status r) Running).
    assert (q live = true) as Hq.
    { unfold q, JobStatus.eqb. rewrite (get_id _ _ _ Hlive). cbn. by apply bool_decide_eq_true. }
    rewrite (guarded_get_hit (Job.id job) q (rearm now) (Work.jobs w1) live Hlive Hq) by done. split; [|done].
    change (get (Job.id job) (update_where q (rearm now) (Work.jobs w1)) = Some (rearm now live)).
    rewrite get_update, Hlive by done. cbn -[q]. by rewrite Hq.
Qed.
End superseded.

(** ** What a failure announces *)

Section announcing.
Context `{JsonRender}.
Context (up : StoreCall → bool).
Implicit Types (w : Work.t) (job : Job.t).

Lemma fail_lands now reason job t r :
  get (Job.id job) t = Some r → running_at (Job.id job) (Job.attempts job) r = true →
  ∃ t' r' st, fail now (Job.id job) (Job.attempts job) reason t = (t', Some st)
    ∧ get (Job.id job) t' = Some r' ∧ Job.status r' = st ∧ Job.error r' = Some (reason_text reason)
    ∧ (st = Queued ∨ st = Failed).
Proof.
  intros Hg Hr. pose proof Hr as (_ & Hs & Ha)%running_at_spec.
  unfold fail, fail_plan. rewrite Hg. unfold JobStatus.eqb.
  rewrite Ha, (bool_decide_true (Job.status r = Running)), Z.eqb_refl by done. cbn [negb orb].
  match goal with |- context [match ?v with Never _ => _ | After _ _ => _ end] => destruct v as [delay why|why] end;
    [case_if|]; unfold fail_apply, fail_permanently_because;
    match goal with |- context [guarded _ ?f t] =>
      destruct (guarded_landed (Job.id job) _ f t r Hg Hr ltac:(done)) as [Hl Hr'];
      rewrite (surjective_pairing (guarded _ f t)), Hl end;
    (eexists _, _, _; split_and!; [reflexivity|exact Hr'|done|done|auto]).
Qed.

(** C7: What a failure announces.  With the store up, the running attempt's failure is either
    queued again, and only the worker is woken, or failed for good, and the row that was
    written is the one announced, its checkpoint gone.  When the write itself fails and the
    row can still be read, a job that is still running is announced as over. *)
Theorem failure_announcements now reason job w r :
  get (Job.id job) (Work.jobs w) = Some r → running_at (Job.id job) (Job.attempts job) r = true →
  let w' := fail_run up now reason job w in
  (up SFail = true → up SGet = true → up SClear = true →
     ∃ r', get (Job.id job) (Work.jobs w') = Some r' ∧ Job.error r' = Some (reason_text reason)
       ∧ ((Job.status r' = Queued ∧ Work.effects w' = Work.effects w ++ [Notified]
           ∧ Work.saved w' = Work.saved w)
          ∨ (Job.status r' = Failed ∧ Work.effects w' = Work.effects w ++ [Terminal r']
             ∧ Work.saved w' = clear_checkpoint (Job.id job) (Work.saved w))))
  ∧ (up SFail = false → up SGet = true →
     Work.jobs w' = Work.jobs w ∧ Job.status r = Running
     ∧ Work.effects w' = Work.effects w ++ [Terminal r]).
Proof.
  intros Hg Hr w'. subst w'. unfold fail_run. split.
  - intros -> Hget Hclear.
    destruct (fail_lands now reason job (Work.jobs w) r Hg Hr) as (t' & r' & st & -> & Hg' & <- & He & Hst).
    exists r'. destruct Hst as [Hst|Hst]; rewrite Hst; [by split_and!; [..|left]|].
    unfold finalize. rewrite Hget. cbn [Work.jobs upd]. unfold upd. cbn [Work.jobs].
    rewrite Hg', Hst. unfold clear. rewrite Hclear. split_and!; [exact Hg'|done|right; by split_and!].
  - intros -> Hget. pose proof Hr as (_ & Hs & _)%running_at_spec. unfold finalize. by rewrite Hget, Hg, Hs.
Qed.
End announcing.

(** ** Resuming *)

Section resuming.
Context `{JsonParse}.
Context (cfg : WorkerConfig.t).
Implicit Types (w : Work.t) (job : Job.t).

(** The checkpoints the attempts of a job that never save are handed, one attempt for each
    answer of the store. *)
Fixpoint handed_out (ups : list (StoreCall → bool)) job w : list Json :=
  match ups with
  | [] => []
  | up :: ups =>
      let '(w, restored) := load_restore cfg up job w in
      option_list restored ++ handed_out ups job w
  end.

(** How often the job's checkpoint can still be handed out. *)
Definition restores_left job w : Z :=
  from_option (λ c, Z.max 0 (WorkerConfig.max_resume_failures cfg - Checkpoint.resume_failures c)) 0
    (lookup_by Checkpoint.job_id (Job.id job) (Work.saved w)).

Lemma lookup_cleared id t : lookup_by Checkpoint.job_id id (clear_checkpoint id t) = None.
Proof.
  apply lookup_by_None. intros Hin. apply list_elem_of_In, in_map_iff in Hin as (c & Hc & Hin).
  apply list_elem_of_In, elem_of_delete in Hin as [_ Hn]. unfold of_job in Hn.
  by rewrite Hc, Z.eqb_refl in Hn.
Qed.

Lemma load_restore_left up job w :
  up SBump = true →
  let '(w', restored) := load_restore cfg up job w in
  0 ≤ restores_left job w' ∧
  restores_left job w' + (if restored then 1 else 0) ≤ restores_left job w.
Proof.
  intros Hup. unfold load_restore. assert (0 ≤ restores_left job w) as H0
    by (unfold restores_left; destruct (lookup_by _ _ _); cbn; lia).
  case_if; [lia|]. destruct (up SLoad); [|lia].
  unfold load_checkpoint. destruct (lookup_by _ _ _) as [c|] eqn:El; cbn [mbind option_bind]; [|lia].
  destruct (json_parse _) as [v|]; cbn [mbind option_bind]; [|lia].
  destruct (Z.leb_spec (WorkerConfig.max_resume_failures cfg) (Checkpoint.resume_failures c)) as [Hle|Hlt].
  - unfold clear. destruct (up SClear); [|lia].
    assert (restores_left job (w <| Work.saved ::= clear_checkpoint (Job.id job) |>) = 0) as ->; [|lia].
    unfold restores_left. cbn -[lookup_by clear_checkpoint]. by rewrite lookup_cleared.
  - rewrite Hup. assert (restores_left job w = WorkerConfig.max_resume_failures cfg - Checkpoint.resume_failures c)
      as -> by (unfold restores_left; rewrite El; cbn; lia).
    unfold restores_left. cbn -[update_where lookup_by].
    rewrite lookup_by_update, El by done. cbn. apply lookup_by_Some in El as [_ Hid].
    unfold of_job. rewrite Hid, Z.eqb_refl. cbn. lia.
Qed.

(** A checkpoint that kills its job is dropped: as long as restores are counted, attempts
    that save nothing are handed the stored checkpoint at most [max_resume_failures] times in
    all, what was handed out before included, and the first attempt is handed it if any are
    left and the store answers. *)
Theorem restores_are_bounded ups job w :
  (∀ up, up ∈ ups → up SBump = true) →
  Z.of_nat (length (handed_out ups job w)) ≤ restores_left job w
  ∧ (0 < WorkerConfig.max_resume_failures cfg → 0 < restores_left job w → ∀ up, up SLoad = true →
       (load_restore cfg up job w).2 = fst <$> load_checkpoint (Job.id job) (Work.saved w)).
Proof.
  intros Hups. split.
  - revert w. induction ups as [|up ups IH]; intros w;
      [unfold restores_left; destruct (lookup_by _ _ _); cbn; lia|].
    cbn [handed_out]. pose proof (load_restore_left up job w (Hups up ltac:(left))) as Hl.
    destruct (load_restore cfg up job w) as [w' restored]. destruct Hl as [_ Hl].
    specialize (IH ltac:(intros u Hu; apply Hups; by right) w').
    rewrite length_app. destruct restored; cbn -[Z.of_nat handed_out restores_left] in *; lia.
  - unfold restores_left, load_restore, load_checkpoint. intros Hmax Hl up Hup. rewrite Hup.
    destruct (lookup_by _ _ _) as [c|] eqn:El; cbn [from_option] in Hl; [|lia].
    rewrite (proj2 (Z.leb_gt _ _)) by lia.
    cbn [mbind option_bind]. destruct (json_parse _) as [v|]; cbn [mbind option_bind]; [|done].
    by rewrite (proj2 (Z.leb_gt _ _)) by lia.
Qed.
End resuming.

(** ** A concrete worker *)

Module WorkerDemo.
#[local] Instance render : JsonRender := λ _, "{}"%string.
#[local] Instance parse : JsonParse := λ _, Some JNull.
#[local] Instance uuid : UuidText := λ u, pretty u.
#[local] Instance sha : Sha256 := λ s, s.
#[local] Instance julian : Sqlite := λ t, f64_of_Z t.
#[local] Instance cron : CronLib := {|
  Cron := positive; parse_cron _ := Ok 10%positive; Tz := unit; UTC := tt; tz_of_name _ := None;
  cron_next c _ r := Some ((r / Zpos c + 1) * Zpos c) |}.

Definition cfg : WorkerConfig.t := WorkerConfig.mk 60 2 5 0 10 30.
Definition no_failures : CheckpointFailures.t := CheckpointFailures.mk 0 0.
Definition started : Started.t := Started.mk None None 0 None.
Definition opts : Opts.t := Opts.default <| Opts.max_attempts := 2 |>.
Definition row : Job.t := claim_row 5 (new_row 1 "shop" opts None 0).
(** A task's end, the store answering the calls of [up]. *)
Definition ends (up : StoreCall → bool) (o : Outcome) (job : Job.t) (s : Work.t * list (Uuid * Z * FailPlan)) :=
  (conclude cfg up 9 started no_failures (λ _, Ok tt) [] false false o job s.1, s.2).
Definition done_ok : Outcome := Finished (Ok (JObject [])).
Definition claimed : Work.t := (idle [] []) <| Work.jobs := [row] |>.

Lemma claimed_reached : rtc worker_step (idle [] [], []) (claimed, []).
Proof.
  eapply rtc_l; [apply (ws_queue (OpEnqueue 1 0 "shop" opts None))|].
  eapply rtc_l; [apply (ws_queue (OpClaim 5 [] f64_zero))|].
  match goal with |- rtc _ ?s _ => replace s with (claimed, [] : list (Uuid * Z * FailPlan)) end; [done|].
  vm_compute. reflexivity.
Qed.

(** The task reports its result twice, and is reaped in between. *)
Definition reaps (s : Work.t * list (Uuid * Z * FailPlan)) :=
  (reap_once cfg (λ _, true) (λ _, 100) (λ _, false) 100000000 s.1, s.2).
Lemma ends_step up o job s : worker_step s (ends up o job s).
Proof. destruct s. apply ws_conclude. Qed.
Lemma reaps_step s : worker_step s (reaps s).
Proof. destruct s. apply ws_reap. Qed.
Definition twice : Work.t * list (Uuid * Z * FailPlan) :=
  ends (λ _, true) done_ok row (reaps (ends (λ _, true) done_ok row (claimed, []))).
Lemma twice_reached : rtc worker_step (idle [] [], []) twice.
Proof.
  etrans; [apply claimed_reached|]. eapply rtc_l; [apply ends_step|]. eapply rtc_l; [apply reaps_step|].
  apply rtc_once, ends_step.
Qed.


Lemma results_fan_out_once_witness :
  NoDup (fanned (Work.effects twice.1)) ∧ fanned (Work.effects twice.1) = [(1, 1)].
Proof.
  split; [|vm_compute; reflexivity].
  apply (results_fan_out_once [] [] twice.1 twice.2).
  rewrite <- surjective_pairing. exact twice_reached.
Defined.

(** Attempt 1 was reaped and an executor runs attempt 2 when the drain stops its old task. *)
Definition reclaimed : Work.t := (idle [] []) <| Work.jobs := [claim_row 7 row] |>.
Lemma superseded_attempt_is_silent_witness :
  let suspended := conclude cfg (λ _, true) 9 started no_failures (λ _, Ok tt) [] true false
                     Worker.Cancelled row reclaimed in
  silent reclaimed (conclude cfg (λ _, true) 9 started no_failures (λ _, Ok tt) [] false false
                      done_ok row reclaimed)
  ∧ get 1 (Work.jobs suspended) = Some (rearm 9 (claim_row 7 row)).
Proof.
  intros suspended. assert (superseded row (Work.jobs reclaimed)) as Hs by (vm_compute; reflexivity).
  split.
  - exact (proj1 (superseded_attempt_is_silent cfg (λ _, true) 9 started no_failures (λ _, Ok tt) [] false
             false done_ok row reclaimed Hs (λ _, eq_refl)) eq_refl).
  - exact (proj1 (proj2 (superseded_attempt_is_silent cfg (λ _, true) 9 started no_failures (λ _, Ok tt) []
             true false Worker.Cancelled row reclaimed Hs (λ _, eq_refl)) eq_refl (claim_row 7 row)
             eq_refl eq_refl)).
Defined.

Lemma failure_announcements_witness :
  Work.effects (fail_run (λ c, match c with SFail => false | _ => true end) 9 (Text "boom") row claimed)
  = [Terminal row].
Proof.
  exact (proj2 (proj2 (proj2 (failure_announcements (λ c, match c with SFail => false | _ => true end) 9
           (Text "boom") row claimed row eq_refl eq_refl) eq_refl eq_refl))).
Defined.

Definition checkpointed : Work.t := idle [Checkpoint.mk 1 "{}" 1 0 3] [].
Lemma restores_are_bounded_witness :
  Z.of_nat (length (handed_out cfg [(λ _, true); (λ _, true); (λ _, true); (λ _, true)] row checkpointed)) ≤ 2.
Proof.
  apply (restores_are_bounded cfg [(λ _, true); (λ _, true); (λ _, true); (λ _, true)] row checkpointed).
  intros up Hup. repeat (apply elem_of_cons in Hup as [->|Hup]; [reflexivity|]). by apply not_elem_of_nil in Hup.
Defined.
End WorkerDemo.
