(* ===== verification/Catalog.v ===== *)
(** * Catalog: the declared sources and their contracts

    [crates/core/src/catalog.rs]: the rows of the catalog, their closed vocabularies, the
    module pin, the declared data contract and its evaluation, what enforcement can be
    observed to do, and the plan that reconciles the schedules table with the catalog; then
    the doors of [crates/server/src/scheduler.rs] and [routes/query.rs] that apply it.  The
    TOML reader is a parameter. *)

From stdpp Require Import pretty.
From S2P Require Import Prelude Sql Float64 Json Errors Jobs JobQueue Schedules.

Definition CATALOG_MANAGED_BY : string := "catalog".

(** ** Contracts *)

Module ContractRange.
Record t : Type := mk { min : option f64; max : option f64 }.
End ContractRange.

Module Contract.
Record t : Type := mk {
  required_fields : list string;
  types : list (string * string);
  ranges : list (string * ContractRange.t);
  max_row_delta_pct : option f64;
  max_staleness_hours : option Z }.
Definition default : t := mk [] [] [] None None.
End Contract.

Inductive ContractVerdict : Type := Pass | Warn | Block.
Definition verdict_as_str (v : ContractVerdict) : string :=
  match v with Pass => "pass" | Warn => "warn" | Block => "block" end.

(** The texts of [evaluate], with what they interpolate. *)
Inductive Violation : Type :=
| MissingField (field : string) (missing records : nat)
| WrongType (field expected : string) (bad records : nat)
| OutOfRange (field : string) (range : ContractRange.t) (out records : nat)
| MassDelete (pct : f64) (total : nat) (max_pct : f64).

Definition from_violations {V} (violations : list V) (enforce : bool) : ContractVerdict :=
  match violations, enforce with
  | [], _ => Pass
  | _, true => Block
  | _, false => Warn
  end.

Definition json_type_matches (v : Json) (expected : string) : bool :=
  match v with
  | JString _ => String.eqb expected "string"
  | JNumber _ => String.eqb expected "number"
  | JBool _ => String.eqb expected "bool" || String.eqb expected "boolean"
  | JArray _ => String.eqb expected "array"
  | JObject _ => String.eqb expected "object"
  | JNull => false
  end.

Definition is_null (v : Json) : bool := match v with JNull => true | _ => false end.
(** [Iterator::count] of a filter. *)
Definition count_of {A} (p : A → bool) (l : list A) : nat := length (List.filter p l).

Definition missing_field (field : string) (r : Json) : bool :=
  match json_get field r with Some v => is_null v | None => true end.
Definition wrong_type (field expected : string) (r : Json) : bool :=
  match json_get field r with
  | Some v => negb (is_null v) && negb (json_type_matches v expected)
  | None => false
  end.
Definition out_of_range (field : string) (range : ContractRange.t) (r : Json) : bool :=
  match json_get field r ≫= as_f64 with
  | Some n =>
      match ContractRange.min range with Some lo => f64_lt n lo | None => false end
      || match ContractRange.max range with Some hi => f64_gt n hi | None => false end
  | None => false
  end.
(** [removed as f64 / total as f64 * 100.0] *)
Definition removal_pct (removed total : nat) : f64 :=
  f64_mul (f64_div (f64_of_Z (Z.of_nat removed)) (f64_of_Z (Z.of_nat total))) (f64_of_Z 100).

Definition evaluate (c : Contract.t) (records : list Json) (removed : nat) : list Violation :=
  let n := length records in
  omap (λ field,
          let missing := count_of (missing_field field) records in
          if (0 <? missing)%nat then Some (MissingField field missing n) else None)
    (Contract.required_fields c)
  ++ omap (λ '(field, expected),
             let bad := count_of (wrong_type field expected) records in
             if (0 <? bad)%nat then Some (WrongType field expected bad n) else None)
       (Contract.types c)
  ++ omap (λ '(field, range),
             let out := count_of (out_of_range field range) records in
             if (0 <? out)%nat then Some (OutOfRange field range out n) else None)
       (Contract.ranges c)
  ++ match Contract.max_row_delta_pct c with
     | Some max_pct =>
         let total := (n + removed)%nat in
         let pct := removal_pct removed total in
         if (0 <? removed)%nat && (0 <? total)%nat && f64_gt pct max_pct
         then [MassDelete pct total max_pct] else []
     | None => []
     end.

(** ** Sources *)

Module Source.
Record t : Type := mk {
  id : string; app : string; market : string; name : string; url : string; category : string;
  engine : string; access : string; cadence : string; cron : string; status : string;
  confidence : Z; dataset : string; notes : string; module_sha256 : string;
  contract : option Contract.t }.
#[global] Instance eta_source : Eta t := λ s,
  mk (id s) (app s) (market s) (name s) (url s) (category s) (engine s) (access s) (cadence s)
    (cron s) (status s) (confidence s) (dataset s) (notes s) (module_sha256 s) (contract s).
End Source.
Abbreviation catalog := (list Source.t).

Definition STATUSES : list string := ["live"; "planned"; "blocked"].
Definition CADENCES : list string :=
  ["one-time"; "on-demand"; "daily"; "weekly"; "monthly"; "quarterly"; "annual"].
Definition ENGINES : list string := ["http"; "browser"; "claude"; "bulk"; "wasm"].
Definition ACCESS_KINDS : list string := ["key-free"; "api-key"; "bulk"; "scrape"].
Definition CATEGORIES : list string :=
  ["open-calls"; "awarded-history"; "registry"; "labor-market"; "market-stats"].
Definition MAX_CONFIDENCE : Z := 5.
Definition WASM_ENGINE : string := "wasm".
Definition SHA256_HEX_LEN : nat := 64.

Definition is_ascii_hexdigit (a : Ascii.ascii) : bool :=
  in_range 48 57 a || in_range 65 70 a || in_range 97 102 a.
Definition is_sha256_hex (value : string) : bool :=
  (String.length value =? SHA256_HEX_LEN)%nat && all_chars is_ascii_hexdigit value.

(** What a row got wrong, with what its text interpolates. *)
Inductive Finding : Type :=
| NotInVocabulary (id field value : string) (allowed : list string)
| PinMissing (id : string)
| PinMalformed (id hash : string)
| PinUnread (id engine : string)
| ConfidenceRange (id : string) (confidence : Z).

Definition wasm_pin_finding (id engine module_sha256 : string) : option Finding :=
  let engine := str_trim engine in
  let hash := str_trim module_sha256 in
  if String.eqb engine WASM_ENGINE then
    if String.eqb hash "" then Some (PinMissing id)
    else if negb (is_sha256_hex hash) then Some (PinMalformed id hash)
    else None
  else if String.eqb hash "" then None else Some (PinUnread id engine).

Inductive ModulePin : Type := Unpinned | Match | Mismatch.
Definition ascii_lower (a : Ascii.ascii) : Ascii.ascii :=
  if in_range 65 90 a then Ascii.ascii_of_N (Ascii.N_of_ascii a + 32) else a.
Fixpoint lower_ascii (s : string) : string :=
  match s with EmptyString => EmptyString | String a s => String (ascii_lower a) (lower_ascii s) end.
Definition eq_ignore_ascii_case (a b : string) : bool := String.eqb (lower_ascii a) (lower_ascii b).
Definition module_pin (expected : option string) (actual : string) : ModulePin :=
  match str_trim <$> expected with
  | None | Some EmptyString => Unpinned
  | Some expected =>
      if eq_ignore_ascii_case expected (str_trim actual) then Match else Mismatch
  end.

Definition is_scheduled (s : Source.t) : bool := negb (String.eqb (str_trim (Source.cron s)) "").
Definition DAY : Z := 86400.
Definition cadence_secs (s : Source.t) : option Z :=
  let cadence := str_trim (Source.cadence s) in
  if String.eqb cadence "daily" then Some DAY
  else if String.eqb cadence "weekly" then Some (7 * DAY)
  else if String.eqb cadence "monthly" then Some (31 * DAY)
  else if String.eqb cadence "quarterly" then Some (93 * DAY)
  else if String.eqb cadence "annual" then Some (366 * DAY)
  else None.
Definition freshness_window_secs (s : Source.t) (grace : Z) : option Z :=
  let cadence_window := (λ secs, secs * grace) <$> cadence_secs s in
  let contract_window :=
    (λ h, h * 3600) <$> (Source.contract s ≫= Contract.max_staleness_hours) in
  match cadence_window, contract_window with
  | Some c, Some k => Some (Z.min c k)
  | Some c, None => Some c
  | None, k => k
  end.

(** ** The catalog *)

Definition check (id field value : string) (allowed : list string) (optional : bool) : list Finding :=
  let v := str_trim value in
  if String.eqb v "" && optional then []
  else if existsb (String.eqb v) allowed then [] else [NotInVocabulary id field v allowed].
Definition source_findings (s : Source.t) : list Finding :=
  let id := if String.eqb (str_trim (Source.id s)) "" then "<no id>"%string else str_trim (Source.id s) in
  check id "status" (Source.status s) STATUSES false
  ++ check id "cadence" (Source.cadence s) CADENCES true
  ++ check id "engine" (Source.engine s) ENGINES true
  ++ check id "access" (Source.access s) ACCESS_KINDS true
  ++ check id "category" (Source.category s) CATEGORIES true
  ++ option_list (wasm_pin_finding id (Source.engine s) (Source.module_sha256 s))
  ++ if MAX_CONFIDENCE <? Source.confidence s then [ConfidenceRange id (Source.confidence s)] else [].
Definition vocabulary_findings (c : catalog) : list Finding := flat_map source_findings c.

(** [toml::from_str] *)
Class TomlCatalog := toml_catalog : string → result string catalog.
Inductive CatalogError : Type :=
| BadToml (e : string)
| BadVocabulary (findings : list Finding).
Definition parse `{TomlCatalog} (raw : string) : result CatalogError catalog :=
  match toml_catalog raw with
  | Err e => Err (BadToml e)
  | Ok c => match vocabulary_findings c with [] => Ok c | findings => Err (BadVocabulary findings) end
  end.

Definition live (c : catalog) : catalog := List.filter (λ s, String.eqb (Source.status s) "live") c.
Definition contract_for (app dataset : string) (c : catalog) : option (Source.t * Contract.t) :=
  head (omap (λ s, k ← Source.contract s; Some (s, k))
          (List.filter (λ s, String.eqb (Source.app s) app && String.eqb (Source.dataset s) dataset)
             (live c))).
Definition contracted (c : catalog) : catalog := List.filter (λ s, is_some (Source.contract s)) (live c).

(** A [BTreeSet] of strings: sorted, each once. *)
Definition string_set (l : list string) : list string := map_keys (map_of_list (map (λ s, (s, ())) l)).
Definition sourced_apps (c : catalog) : list string :=
  string_set (List.filter (λ a, negb (String.eqb a "")) (map Source.app (live c))).
Definition uncontracted_sources (c : catalog) : list string :=
  map Source.id (List.filter (λ s, negb (is_some (Source.contract s))) (live c)).
Definition member (s : string) (l : list string) : bool := existsb (String.eqb s) l.
Definition uncovered_apps (registered exempt sourced : list string) : list string :=
  string_set (List.filter (λ name, negb (member name sourced) && negb (member name exempt)) registered).

(** ** What enforcement can be observed to do *)

Module ContractsStatus.
Record t : Type := mk {
  enforce_configured : bool; enforce_observed : bool; catalog_ok : bool;
  catalog_error : option string; declared : nat; live_sources : nat;
  uncontracted_sources : option (list string); registered : option nat; sourced : option nat;
  uncovered_apps : option (list string); reason : option string }.
End ContractsStatus.

Definition of_with_apps (c : catalog) (enforce : bool) (registered exempt : list string) : ContractsStatus.t :=
  let declared := length (contracted c) in
  let live_sources := length (live c) in
  let uncovered :=
    match registered with [] => None | _ => Some (uncovered_apps registered exempt (sourced_apps c)) end in
  let covered := (λ u, (length registered - length u)%nat) <$> uncovered in
  let uncontracted := uncontracted_sources c in
  let qualifiers :=
    (if negb enforce
     then ["[contracts] enforce = false: verdicts are recorded and surfaced, nothing is gated"%string]
     else if (declared =? 0)%nat
     then ["no live catalog source declares a [source.contract] block"%string] else [])
    ++ (match uncontracted with
        | [] => []
        | _ => [(pretty (length uncontracted) +:+ " of " +:+ pretty live_sources
                 +:+ " live sources declare no [source.contract]")%string]
        end)
    ++ match uncovered with
       | Some ((_ :: _) as u) =>
           [(pretty (length u) +:+ " registered app(s) publish under no live catalog source: "
             +:+ String.concat ", " u)%string]
       | _ => []
       end in
  ContractsStatus.mk enforce enforce true None declared live_sources (Some uncontracted)
    (match registered with [] => None | _ => Some (length registered) end) covered uncovered
    (match qualifiers with [] => None | _ => Some (String.concat "; " qualifiers) end).
Definition of_catalog (c : catalog) (enforce : bool) : ContractsStatus.t := of_with_apps c enforce [] [].

Definition coverage_line (s : ContractsStatus.t) : string :=
  let apps :=
    match ContractsStatus.sourced s, ContractsStatus.registered s with
    | Some n, Some r => ("; " +:+ pretty (r - n)%nat +:+ " of " +:+ pretty r
                         +:+ " registered apps have no source row")%string
    | _, _ => ""%string
    end in
  (pretty (ContractsStatus.declared s) +:+ " of " +:+ pretty (ContractsStatus.live_sources s)
   +:+ " live sources contracted" +:+ apps)%string.
Definition unreadable (error : string) (enforce : bool) : ContractsStatus.t :=
  ContractsStatus.mk enforce false false (Some error) 0 0 None None None None
    (Some ("catalog unreadable (" +:+ error +:+ "): the publish seam skips contract evaluation for "
           +:+ "every job, so no contract is being checked")%string).
