(* ===== verification/Reconcile.v ===== *)
(** * Reconcile: schedules that follow a declaration

    The two reconcilers of the schedules table: the catalog's ([Catalog::reconcile_plan] of
    [crates/core/src/catalog.rs], applied by [scheduler.rs] and [routes/query.rs]) and the
    mesh's ([PeerConfig] of [config.rs], [peer_reconcile_plan] and its pass in
    [scheduler.rs]). *)

From stdpp Require Import pretty.
From S2P Require Import Prelude Sql Float64 Json Errors Jobs JobQueue Schedules Catalog.

(** ** The plan *)

Module PlanCreate.
Record t : Type := mk { source_id : string; app : string; cron : string }.
End PlanCreate.
Module PlanUpdate.
Record t : Type := mk {
  schedule_id : string; app : string; from_cron : string; to_cron : string; re_enable : bool }.
End PlanUpdate.
Module PlanDisable.
Record t : Type := mk { schedule_id : string; app : string; reason : string }.
End PlanDisable.
Module PlanOrphan.
Record t : Type := mk { schedule_id : string; app : string; reason : string }.
End PlanOrphan.

Module ReconcilePlan.
Record t : Type := mk {
  create : list PlanCreate.t; update : list PlanUpdate.t; disable : list PlanDisable.t;
  orphan : list PlanOrphan.t; covered_by_untagged : nat; in_sync : nat }.
#[global] Instance eta_plan : Eta t := λ p,
  mk (create p) (update p) (disable p) (orphan p) (covered_by_untagged p) (in_sync p).
Definition default : t := mk [] [] [] [] 0 0.
Definition is_empty (p : t) : bool :=
  match create p, update p, disable p, orphan p with [], [], [], [] => true | _, _, _, _ => false end.
Definition summary (p : t) : string :=
  ("create=" +:+ pretty (length (create p)) +:+ " update=" +:+ pretty (length (update p))
   +:+ " disable=" +:+ pretty (length (disable p)) +:+ " orphan=" +:+ pretty (length (orphan p))
   +:+ " covered_by_untagged=" +:+ pretty (covered_by_untagged p)
   +:+ " in_sync=" +:+ pretty (in_sync p))%string.
End ReconcilePlan.

Definition tagged (s : Schedule.t) : bool := bool_decide (Schedule.managed_by s = Some CATALOG_MANAGED_BY).

(** The first tagged schedule of each app, and the duplicates. *)
Definition take_managed (acc : list (string * Schedule.t) * list PlanOrphan.t) (s : Schedule.t) :
    list (string * Schedule.t) * list PlanOrphan.t :=
  let '(managed, orphans) := acc in
  if negb (tagged s) then acc
  else if is_some (map_get (Schedule.app s) managed)
  then (managed, orphans ++ [PlanOrphan.mk (Schedule.id s) (Schedule.app s)
                               "duplicate catalog-managed schedule for this app"])
  else (map_insert (Schedule.app s) s managed, orphans).
Definition managed_of (schedules : schedules) : list (string * Schedule.t) * list PlanOrphan.t :=
  foldl take_managed ([], []) schedules.

(** The first live source of each app that declares a cron. *)
Definition take_desired (desired : list (string * Source.t)) (src : Source.t) : list (string * Source.t) :=
  if negb (String.eqb (Source.app src) "") && is_scheduled src && negb (is_some (map_get (Source.app src) desired))
  then map_insert (Source.app src) src desired else desired.
Definition desired_of (c : catalog) : list (string * Source.t) := foldl take_desired [] (live c).

(** A hand-made or seeded schedule serves the app already. *)
Definition serves (app cron : string) (s : Schedule.t) : bool :=
  negb (is_some (Schedule.managed_by s)) && Schedule.enabled s && String.eqb (Schedule.app s) app
  && String.eqb (str_trim (Schedule.cron s)) cron.

Definition plan_desired (managed : list (string * Schedule.t)) (schedules : schedules)
    (plan : ReconcilePlan.t) (entry : string * Source.t) : ReconcilePlan.t :=
  let '(app, src) := entry in
  let want_cron := str_trim (Source.cron src) in
  match map_get app managed with
  | Some m =>
      if String.eqb (str_trim (Schedule.cron m)) want_cron && Schedule.enabled m
      then plan <| ReconcilePlan.in_sync ::= S |>
      else plan <| ReconcilePlan.update ::= λ l, l ++ [PlanUpdate.mk (Schedule.id m) app
                     (Schedule.cron m) want_cron (negb (Schedule.enabled m))] |>
  | None =>
      if existsb (serves app want_cron) schedules
      then plan <| ReconcilePlan.covered_by_untagged ::= S |>
      else plan <| ReconcilePlan.create ::= λ l, l ++ [PlanCreate.mk (Source.id src) app want_cron] |>
  end.

Definition disable_reason (c : catalog) (app : string) : string :=
  let status := default "?"%string
                  (Source.status <$> List.find (λ s, String.eqb (Source.app s) app) c) in
  if String.eqb status "live" then "source no longer declares a cron"
  else ("catalog status is '" +:+ status +:+ "'")%string.
Definition plan_managed (c : catalog) (desired : list (string * Source.t)) (plan : ReconcilePlan.t)
    (entry : string * Schedule.t) : ReconcilePlan.t :=
  let '(app, m) := entry in
  if is_some (map_get app desired) then plan
  else if existsb (λ s, negb (String.eqb (Source.app s) "") && String.eqb (Source.app s) app) c then
    if Schedule.enabled m
    then plan <| ReconcilePlan.disable ::= λ l, l ++ [PlanDisable.mk (Schedule.id m) app
                   (disable_reason c app)] |>
    else plan <| ReconcilePlan.in_sync ::= S |>
  else plan <| ReconcilePlan.orphan ::= λ l, l ++ [PlanOrphan.mk (Schedule.id m) app
                 "no catalog row for this app (row deleted?)"] |>.

Definition reconcile_plan (c : catalog) (schedules : schedules) : ReconcilePlan.t :=
  let '(managed, duplicates) := managed_of schedules in
  let desired := desired_of c in
  foldl (plan_managed c desired)
    (foldl (plan_desired managed schedules) (ReconcilePlan.default <| ReconcilePlan.orphan := duplicates |>)
       desired)
    managed.

Definition catalog_reconcile_plan (c : catalog) (t : schedules) : ReconcilePlan.t :=
  reconcile_plan c (list_schedules t).

(** ** Applying it *)

Module Applied.
Record t : Type := mk {
  created : nat; updated : nat; disabled : nat; orphans_untouched : nat; errors : list string }.
#[global] Instance eta_applied : Eta t := λ a,
  mk (created a) (updated a) (disabled a) (orphans_untouched a) (errors a).
End Applied.

Section apply.
Context `{JsonRender}.

Definition apply_create (now : timestamp) (acc : schedules * Applied.t) (c : PlanCreate.t) :
    schedules * Applied.t :=
  let '(t, a) := acc in
  match create_managed_schedule (PlanCreate.app c) (PlanCreate.cron c) CATALOG_MANAGED_BY now t with
  | (t, Ok _) => (t, a <| Applied.created ::= S |>)
  | (t, Err e) =>
      (t, a <| Applied.errors ::= λ l, l ++ [("create " +:+ PlanCreate.app c +:+ ": " +:+ error_display e)%string] |>)
  end.
Definition apply_update (acc : schedules * Applied.t) (u : PlanUpdate.t) : schedules * Applied.t :=
  let '(t, a) := acc in
  match set_managed_schedule_cron (PlanUpdate.schedule_id u) (PlanUpdate.to_cron u) CATALOG_MANAGED_BY t with
  | (t, true) => (t, a <| Applied.updated ::= S |>)
  | (t, false) =>
      (t, a <| Applied.errors ::= λ l, l ++ [("update " +:+ PlanUpdate.schedule_id u
             +:+ ": row missing or not catalog-managed (fence)")%string] |>)
  end.
Definition apply_disable (acc : schedules * Applied.t) (d : PlanDisable.t) : schedules * Applied.t :=
  let '(t, a) := acc in
  match set_managed_schedule_enabled (PlanDisable.schedule_id d) false CATALOG_MANAGED_BY t with
  | (t, true) => (t, a <| Applied.disabled ::= S |>)
  | (t, false) =>
      (t, a <| Applied.errors ::= λ l, l ++ [("disable " +:+ PlanDisable.schedule_id d
             +:+ ": row missing or not catalog-managed (fence)")%string] |>)
  end.

(** [apply_reconcile_plan]; other writers may come between its statements, which are these. *)
Definition apply_reconcile_plan (now : timestamp) (plan : ReconcilePlan.t) (t : schedules) :
    schedules * Applied.t :=
  foldl apply_disable
    (foldl apply_update
       (foldl (apply_create now) (t, Applied.mk 0 0 0 (length (ReconcilePlan.orphan plan)) [])
          (ReconcilePlan.create plan))
       (ReconcilePlan.update plan))
    (ReconcilePlan.disable plan).

(** The boot pass ([None]: the catalog could not be read). *)
Definition boot_reconcile (auto_reconcile : bool) (now : timestamp) (c : option catalog) (t : schedules) :
    schedules :=
  match c with
  | None => t
  | Some c =>
      let plan := catalog_reconcile_plan c t in
      if ReconcilePlan.is_empty plan then t
      else if auto_reconcile then (apply_reconcile_plan now plan t).1 else t
  end.

Definition MAX_UNFORCED_DISABLES : nat := 3.
Inductive ApplyError : Type := CatalogUnreadable | TooManyDisables (n : nat).
Definition catalog_reconcile_apply (force : option bool) (now : timestamp) (c : option catalog) (t : schedules) :
    schedules * result ApplyError (Applied.t * ReconcilePlan.t) :=
  match c with
  | None => (t, Err CatalogUnreadable)
  | Some c =>
      let plan := catalog_reconcile_plan c t in
      if (MAX_UNFORCED_DISABLES <? length (ReconcilePlan.disable plan))%nat && negb (default false force)
      then (t, Err (TooManyDisables (length (ReconcilePlan.disable plan))))
      else let '(t, applied) := apply_reconcile_plan now plan t in (t, Ok (applied, plan))
  end.

End apply.

(** ** Peers *)

Inductive PullStream : Type :=
| PullDataset (app dataset : string)
| Weather
| Recipes.
Definition stream_param (s : PullStream) : string :=
  match s with PullDataset _ _ => "datasets" | Weather => "weather" | Recipes => "recipes" end.
Definition slug (s : PullStream) : string :=
  match s with
  | PullDataset app dataset => ("datasets-" +:+ app +:+ "-" +:+ dataset)%string
  | Weather => "weather"
  | Recipes => "recipes"
  end.
Definition name_char (a : Ascii.ascii) : bool :=
  is_ascii_alphanumeric a || Ascii.eqb a "_"%char || Ascii.eqb a "-"%char || Ascii.eqb a "."%char.
Definition stream_name (s : string) : bool := negb (String.eqb s "") && all_chars name_char s.
Definition parse_pull (entry : string) : option PullStream :=
  let entry := str_trim entry in
  if String.eqb entry "weather" then Some Weather
  else if String.eqb entry "recipes" then Some Recipes
  else
    spec ← strip_prefix "datasets:" entry;
    '(app, dataset) ← split_once "/" spec;
    if stream_name app && stream_name dataset then Some (PullDataset app dataset) else None.

Definition PEER_DEFAULT_EVERY_SECS : Z := 900.
(** The product wraps in a release build. *)
Definition parse_every (every : string) : option Z :=
  let every := str_trim every in
  let timed (digits : string) (mult : Z) :=
    n ← parse_usize (str_trim digits); if 0 <? n then Some (wrap_u64 (n * mult)) else None in
  let init := String.substring 0 (String.length every - 1) every in
  match String.get (String.length every - 1) every with
  | None => Some PEER_DEFAULT_EVERY_SECS
  | Some "s"%char => timed init 1
  | Some "m"%char => timed init 60
  | Some "h"%char => timed init 3600
  | Some c => if is_some (digit_of c) then timed every 1 else None
  end.
Definition is_multiple_of (a b : Z) : bool := if b =? 0 then a =? 0 else a mod b =? 0.
Definition peer_cron (every_secs : Z) : option string :=
  if every_secs <? 60 then None
  else if every_secs <? 3600 then
    let minutes := every_secs / 60 in
    if negb (is_multiple_of every_secs 60) || negb (is_multiple_of 60 minutes) then None
    else Some ("0 */" +:+ pretty minutes +:+ " * * * *")%string
  else if every_secs <=? 86400 then
    let hours := every_secs / 3600 in
    if negb (is_multiple_of every_secs 3600) || negb (is_multiple_of 24 hours) then None
    else Some ("0 0 */" +:+ pretty hours +:+ " * * *")%string
  else None.

Module PeerConfig.
Record t : Type := mk {
  name : string; url : string; public_key : string; pull : list string; every : string;
  allow_unsigned : bool; max_penalty_secs : Z; api_key : option string; namespace : option string;
  enabled : bool }.
#[global] Instance eta_peer : Eta t := λ p,
  mk (name p) (url p) (public_key p) (pull p) (every p) (allow_unsigned p) (max_penalty_secs p)
    (api_key p) (namespace p) (enabled p).

Fixpoint replace_char (from : Ascii.ascii) (to : string) (s : string) : string :=
  match s with
  | EmptyString => EmptyString
  | String a s => if Ascii.eqb a from then (to +:+ replace_char from to s)%string else String a (replace_char from to s)
  end.
Definition trim_start_matches (p s : string) : string := strip_while (String.length s) [p] s.
Definition label (p : t) (index : nat) : string :=
  if negb (String.eqb (str_trim (name p)) "") then str_trim (name p)
  else
    let host := head (split_on "/"%char
                        (trim_start_matches "https://" (trim_start_matches "http://" (str_trim (url p))))) in
    match host with
    | Some EmptyString | None => ("peer" +:+ pretty index)%string
    | Some h => replace_char ":"%char "-" h
    end.
Definition every_secs (p : t) : option Z := parse_every (every p).
Definition streams (p : t) : result string (list PullStream) :=
  collect_ok (λ e, match parse_pull e with Some s => Ok s | None => Err e end) (pull p).

(** Why a row is refused, with what the text interpolates. *)
Inductive PeerError : Type :=
| UrlRequired | UrlScheme (url : string) | KeyNotHex | KeyLength (n : Z) | NoKey
| UnknownPull (entry : string) | BadEvery (every : string) | NoCron (every : string) (secs : Z).
Definition validate (p : t) : result PeerError () :=
  let key := str_trim (public_key p) in
  if String.eqb (str_trim (url p)) "" then Err UrlRequired
  else if negb (is_some (strip_prefix "http://" (url p)) || is_some (strip_prefix "https://" (url p)))
  then Err (UrlScheme (url p))
  else
    key_ok ←
      (if negb (String.eqb key "") then
         if negb (all_chars is_ascii_hexdigit key) then Err KeyNotHex
         else if negb (String.length key =? 64)%nat then Err (KeyLength (Z.of_nat (String.length key)))
         else Ok ()
       else if negb (allow_unsigned p) && match pull p with [] => false | _ => true end then Err NoKey
       else Ok ());
    match streams p with
    | Err bad => Err (UnknownPull bad)
    | Ok _ =>
        match every_secs p with
        | None => Err (BadEvery (every p))
        | Some secs => if is_some (peer_cron secs) then Ok key_ok else Err (NoCron (every p) secs)
        end
    end.
End PeerConfig.

Definition PEER_MANAGED_BY : string := "peer".
Definition peer_schedule_id (peer_label stream_slug : string) : string :=
  ("peer-" +:+ peer_label +:+ "-" +:+ stream_slug)%string.

Module PeerSchedule.
Record t : Type := mk { id : string; cron : string; params : Json; enabled : bool }.
End PeerSchedule.

(** [params[key] = v], when the text is not blank. *)
Definition with_text (key : string) (v : option string) (params : list (string * Json)) : list (string * Json) :=
  match v with
  | Some s => if String.eqb (str_trim s) "" then params else map_insert key (JString (str_trim s)) params
  | None => params
  end.
Definition peer_params (p : PeerConfig.t) (label : string) (stream : PullStream) : Json :=
  let params := map_of_list
    [("url", JString (str_trim (PeerConfig.url p))); ("peer_name", JString label);
     ("stream", JString (stream_param stream));
     ("public_key", JString (str_trim (PeerConfig.public_key p)));
     ("allow_unsigned", JBool (PeerConfig.allow_unsigned p));
     ("max_penalty_secs", JUint (PeerConfig.max_penalty_secs p))]%string in
  let params :=
    match stream with
    | PullDataset app dataset =>
        map_insert "datasets" (JArray [JString (app +:+ "/" +:+ dataset)%string]) params
    | _ => params
    end in
  JObject (with_text "api_key" (PeerConfig.api_key p) (with_text "namespace" (PeerConfig.namespace p) params)).

Definition peer_schedules (i : nat) (p : PeerConfig.t) : list PeerSchedule.t :=
  let label := PeerConfig.label p i in
  match PeerConfig.streams p, PeerConfig.every_secs p ≫= peer_cron with
  | Ok streams, Some cron =>
      map (λ s, PeerSchedule.mk (peer_schedule_id label (slug s)) cron (peer_params p label s)
                  (PeerConfig.enabled p)) streams
  | _, _ => []
  end.
Definition peer_reconcile_plan (peers : list PeerConfig.t) : list PeerSchedule.t :=
  concat (imap peer_schedules peers).

(** A peer-managed row the plan does not ask for. *)
Definition unwanted (wanted : list string) (s : Schedule.t) : bool :=
  bool_decide (Schedule.managed_by s = Some PEER_MANAGED_BY)
  && negb (bool_decide (Schedule.id s ∈ wanted)) && Schedule.enabled s.
Definition apply_peer_schedules (now : timestamp) (plan : list PeerSchedule.t) (t : schedules) : schedules :=
  let t := foldl (λ t row, (upsert_managed_schedule (PeerSchedule.id row) "peer" (PeerSchedule.cron row)
                              (PeerSchedule.params row) (PeerSchedule.enabled row) PEER_MANAGED_BY now t).1)
             t plan in
  foldl (λ t s, (set_managed_schedule_enabled (Schedule.id s) false PEER_MANAGED_BY t).1) t
    (List.filter (unwanted (map PeerSchedule.id plan)) (list_schedules t)).
Definition peer_boot_reconcile (now : timestamp) (peers : list PeerConfig.t) (t : schedules) : schedules :=
  match peer_reconcile_plan peers with
  | [] => t
  | plan => apply_peer_schedules now plan t
  end.
