(* ===== verification/ReconcileTheorems.v ===== *)
(** * ReconcileTheorems: a reconciler converges and keeps to its own rows

    Applying the catalog's plan leaves nothing to plan and no row of anyone else changed; the
    mesh's pass enables exactly what the peers ask for, unless no peer is left. *)

From stdpp Require Import pretty.
From S2P Require Import Prelude Sql Float64 Json Errors Jobs JobQueue Schedules Catalog Reconcile.

(** ** Trimming settles *)

Lemma string_length_append s t :
  String.length (s +:+ t)%string = (String.length s + String.length t)%nat.
Proof.
  induction s as [|a s IH]; [done|].
  change (S (String.length (s +:+ t)%string) = S (String.length s + String.length t)%nat). by rewrite IH.
Qed.
Lemma string_length_rev s : String.length (String.rev s) = String.length s.
Proof.
  induction s as [|a s IH]; [done|].
  change (String.rev (String a s)) with (String.rev_app s (String a EmptyString)).
  rewrite rev_app_rev, string_length_append, IH. cbn. lia.
Qed.

Lemma strip_prefix_Some p s r : strip_prefix p s = Some r → s = (p +:+ r)%string.
Proof.
  revert s. induction p as [|a p IH]; intros s Hs; cbn in Hs; [by injection Hs as ->|].
  destruct s as [|b s]; [done|]. destruct (Ascii.eqb a b) eqn:E; [|done].
  apply Ascii.eqb_eq in E as ->. apply IH in Hs as ->. done.
Qed.
Lemma strip_any_Some ps s r : strip_any ps s = Some r → ∃ p, p ∈ ps ∧ s = (p +:+ r)%string.
Proof.
  induction ps as [|p ps IH]; [done|]. cbn.
  destruct (strip_prefix p s) as [r'|] eqn:E.
  - intros [= ->]. exists p. split; [left|by apply strip_prefix_Some].
  - intros Hs. destruct (IH Hs) as (q & Hq & ->). exists q. split; [by right|done].
Qed.
Lemma strip_any_None ps s : strip_any ps s = None → ∀ p r, p ∈ ps → s ≠ (p +:+ r)%string.
Proof.
  induction ps as [|q ps IH]; cbn; intros Hs p r Hp; [by apply not_elem_of_nil in Hp|].
  destruct (strip_prefix q s) eqn:E; [done|].
  apply elem_of_cons in Hp as [->|Hp]; [|by apply IH].
  intros ->. by rewrite strip_prefix_app in E.
Qed.
Lemma strip_while_stops fuel ps s :
  "" ∉ ps → (String.length s ≤ fuel)%nat → strip_any ps (strip_while fuel ps s) = None.
Proof.
  intros Hne. revert s. induction fuel as [|fuel IH]; intros s Hl.
  - destruct s; [|cbn in Hl; lia]. cbn. destruct (strip_any ps "") as [r|] eqn:E; [|done].
    apply strip_any_Some in E as (p & Hp & He). destruct p; [done|done].
  - cbn. destruct (strip_any ps s) as [r|] eqn:E; [|done]. apply IH.
    apply strip_any_Some in E as (p & Hp & ->). destruct p as [|a p]; [done|].
    rewrite string_length_append in Hl. cbn in Hl. lia.
Qed.
Lemma strip_while_suffix fuel ps s : ∃ p, s = (p +:+ strip_while fuel ps s)%string.
Proof.
  revert s. induction fuel as [|fuel IH]; intros s; cbn; [by exists ""%string|].
  destruct (strip_any ps s) as [r|] eqn:E; [|by exists ""%string].
  apply strip_any_Some in E as (p & _ & ->). destruct (IH r) as [q Hq].
  exists (p +:+ q)%string. by rewrite string_append_assoc, <- Hq.
Qed.
Lemma strip_while_still fuel ps s : strip_any ps s = None → strip_while fuel ps s = s.
Proof. destruct fuel; [done|]. cbn. by intros ->. Qed.

Lemma str_trim_idemp s : str_trim (str_trim s) = str_trim s.
Proof.
  unfold str_trim at 2 3. set (h := strip_while (String.length s) white_space s).
  set (t := strip_while (String.length h) (map String.rev white_space) (String.rev h)).
  assert (strip_any white_space h = None) as Hh.
  { apply strip_while_stops; [|done]. apply (bool_decide_unpack _). by vm_compute. }
  assert (strip_any (map String.rev white_space) t = None) as Ht.
  { apply strip_while_stops; [|by rewrite string_length_rev]. apply (bool_decide_unpack _). by vm_compute. }
  destruct (strip_while_suffix (String.length h) (map String.rev white_space) (String.rev h)) as [q Hq].
  fold t in Hq. assert (strip_any white_space (String.rev t) = None) as Hr.
  { destruct (strip_any white_space (String.rev t)) as [r|] eqn:E; [|done]. exfalso.
    apply strip_any_Some in E as (p & Hp & He).
    apply (strip_any_None _ _ Hh p (r +:+ String.rev q)%string Hp).
    rewrite <- (string_rev_rev h), Hq, string_rev_append, He. by rewrite string_append_assoc. }
  unfold str_trim. rewrite (strip_while_still _ _ _ Hr), string_rev_rev.
  by rewrite (strip_while_still _ _ _ Ht).
Qed.

(** ** What the plan lists *)

#[local] Arguments map_get : simpl never.
#[local] Arguments map_insert : simpl never.

Definition mrow (app : string) (s : Schedule.t) : bool := tagged s && String.eqb (Schedule.app s) app.
Definition drow (app : string) (s : Source.t) : bool :=
  negb (String.eqb (Source.app s) "") && is_scheduled s && String.eqb (Source.app s) app.

Lemma managed_lookup l app m o :
  map_get app (foldl take_managed (m, o) l).1
  = match map_get app m with Some x => Some x | None => List.find (mrow app) l end.
Proof.
  revert m o. induction l as [|s l IH]; intros m o; [cbn -[map_get]; by destruct (map_get app m)|].
  cbn -[map_get map_insert]. unfold mrow at 1. destruct (tagged s) eqn:Et; cbn; [|apply IH].
  destruct (is_some (map_get (Schedule.app s) m)) eqn:Es; rewrite IH.
  - destruct (String.eqb_spec (Schedule.app s) app) as [<-|Hne]; [|done].
    by destruct (map_get (Schedule.app s) m).
  - rewrite map_get_insert. destruct (String.eqb_spec (Schedule.app s) app) as [<-|Hne]; [|done].
    by destruct (map_get (Schedule.app s) m).
Qed.
Lemma desired_lookup l app d :
  map_get app (foldl take_desired d l)
  = match map_get app d with Some x => Some x | None => List.find (drow app) l end.
Proof.
  revert d. induction l as [|s l IH]; intros d; [cbn -[map_get]; by destruct (map_get app d)|].
  cbn -[map_get take_desired]. rewrite IH. unfold take_desired, drow at 2.
  destruct (negb (String.eqb (Source.app s) "") && is_scheduled s) eqn:E; cbn; [|done].
  destruct (is_some (map_get (Source.app s) d)) eqn:Es; cbn.
  - destruct (String.eqb_spec (Source.app s) app) as [<-|Hne]; [|done].
    by destruct (map_get (Source.app s) d).
  - rewrite map_get_insert. destruct (String.eqb_spec (Source.app s) app) as [<-|Hne]; [|done].
    by destruct (map_get (Source.app s) d).
Qed.

(** Sorting by the app keeps the order of one app's rows. *)
Lemma by_app_total a b : by_app a b = true ∨ by_app b a = true.
Proof. unfold by_app. destruct (String.leb_total (Schedule.app a) (Schedule.app b)); auto. Qed.
Lemma string_leb_trans s t u :
  String.leb s t = true → String.leb t u = true → String.leb s u = true.
Proof.
  pose proof (string_ltb_trans s t u) as Ht. unfold String.ltb, String.leb in *.
  destruct (String.compare s t) eqn:E1; [apply string_compare_eq in E1 as ->; done| |done].
  destruct (String.compare t u) eqn:E2; [apply string_compare_eq in E2 as <-; by rewrite E1| |done].
  specialize (Ht eq_refl eq_refl). by destruct (String.compare s u).
Qed.
Lemma by_app_trans a b c : by_app a b = true → by_app b c = true → by_app a c = true.
Proof. unfold by_app. apply string_leb_trans. Qed.

Lemma find_head {A} (p : A → bool) l : List.find p l = head (List.filter p l).
Proof. induction l as [|x l IH]; [done|]. cbn. by destruct (p x). Qed.
Lemma order_by_flat {A} (le : A → A → bool) l :
  (∀ x y, x ∈ l → y ∈ l → le x y = true) → order_by le l = l.
Proof.
  induction l as [|x l IH]; intros Hle; [done|].
  change (insert_by le x (order_by le l) = x :: l).
  rewrite IH by (intros; apply Hle; by right). apply insert_by_head.
  apply Forall_forall. intros y Hy. apply Hle; [left|by right].
Qed.
Lemma find_listed app t : List.find (mrow app) (list_schedules t) = List.find (mrow app) t.
Proof.
  rewrite !find_head. unfold list_schedules.
  rewrite <- (filter_order_by by_app by_app_total by_app_trans), order_by_flat; [done|].
  intros x y [_ Hx]%elem_of_select [_ Hy]%elem_of_select. unfold mrow in Hx, Hy. breflect_in Hx.
  breflect_in Hy. destruct Hx as [_ Hx], Hy as [_ Hy]. unfold by_app. rewrite Hx, Hy.
  by destruct (String.leb_total app app).
Qed.
Lemma managed_get app t : map_get app (managed_of (list_schedules t)).1 = List.find (mrow app) t.
Proof. unfold managed_of. rewrite managed_lookup. cbn. apply find_listed. Qed.
Lemma desired_get app c : map_get app (desired_of c) = List.find (drow app) (live c).
Proof. unfold desired_of. by rewrite desired_lookup. Qed.

Lemma sorted_managed l : ∀ m o,
  StronglySorted (λ a b, String.ltb a b = true) (map_keys m) →
  StronglySorted (λ a b, String.ltb a b = true) (map_keys (foldl take_managed (m, o) l).1).
Proof.
  induction l as [|s l IH]; intros m o Hm; [done|]. cbn. case_if; [by apply IH|].
  case_if; [by apply IH|]. by apply IH, sorted_keys_insert.
Qed.
Lemma sorted_desired l : ∀ d,
  StronglySorted (λ a b, String.ltb a b = true) (map_keys d) →
  StronglySorted (λ a b, String.ltb a b = true) (map_keys (foldl take_desired d l)).
Proof.
  induction l as [|s l IH]; intros d Hd; [done|]. cbn. apply IH. unfold take_desired.
  case_if; [|done]. by apply sorted_keys_insert.
Qed.
Lemma managed_entry app m t :
  (app, m) ∈ (managed_of (list_schedules t)).1 ↔ List.find (mrow app) t = Some m.
Proof.
  rewrite <- managed_get. split; [|apply map_get_Some_elem].
  apply map_get_elem, sorted_NoDup_keys, sorted_managed. constructor.
Qed.
Lemma desired_entry app src c : (app, src) ∈ desired_of c ↔ List.find (drow app) (live c) = Some src.
Proof.
  rewrite <- desired_get. split; [|apply map_get_Some_elem].
  apply map_get_elem, sorted_NoDup_keys, sorted_desired. constructor.
Qed.

(** The three lists that are acted on. *)
Definition wants_create (managed : list (string * Schedule.t)) (sch : schedules) (e : string * Source.t) :
    option PlanCreate.t :=
  let want := str_trim (Source.cron e.2) in
  if is_some (map_get e.1 managed) || existsb (serves e.1 want) sch then None
  else Some (PlanCreate.mk (Source.id e.2) e.1 want).
Definition in_sync_with (want : string) (m : Schedule.t) : bool :=
  String.eqb (str_trim (Schedule.cron m)) want && Schedule.enabled m.
Definition wants_update (managed : list (string * Schedule.t)) (e : string * Source.t) : option PlanUpdate.t :=
  let want := str_trim (Source.cron e.2) in
  m ← map_get e.1 managed;
  if in_sync_with want m then None
  else Some (PlanUpdate.mk (Schedule.id m) e.1 (Schedule.cron m) want (negb (Schedule.enabled m))).
Definition cataloged (c : catalog) (app : string) : bool :=
  existsb (λ s, negb (String.eqb (Source.app s) "") && String.eqb (Source.app s) app) c.
Definition wants_disable (c : catalog) (desired : list (string * Source.t)) (e : string * Schedule.t) :
    option PlanDisable.t :=
  if is_some (map_get e.1 desired) || negb (cataloged c e.1) || negb (Schedule.enabled e.2) then None
  else Some (PlanDisable.mk (Schedule.id e.2) e.1 (disable_reason c e.1)).

Lemma plan_desired_lists managed sch l : ∀ p,
  let q := foldl (plan_desired managed sch) p l in
  ReconcilePlan.create q = ReconcilePlan.create p ++ omap (wants_create managed sch) l
  ∧ ReconcilePlan.update q = ReconcilePlan.update p ++ omap (wants_update managed) l
  ∧ ReconcilePlan.disable q = ReconcilePlan.disable p.
Proof.
  induction l as [|[app src] l IH]; intros p; cbn zeta; [by rewrite !app_nil_r|].
  cbn [foldl]. destruct (IH (plan_desired managed sch p (app, src))) as (-> & -> & ->).
  cbn [omap list_omap]. unfold plan_desired, wants_create at 2, wants_update at 2. cbn [fst snd].
  destruct (map_get app managed) as [m|]; cbn [is_some orb mbind option_bind].
  - fold (in_sync_with (str_trim (Source.cron src)) m). case_if; cbn; by rewrite <- ?app_assoc.
  - case_if; cbn; by rewrite <- ?app_assoc.
Qed.
Lemma plan_managed_lists c desired l : ∀ p,
  let q := foldl (plan_managed c desired) p l in
  ReconcilePlan.create q = ReconcilePlan.create p
  ∧ ReconcilePlan.update q = ReconcilePlan.update p
  ∧ ReconcilePlan.disable q = ReconcilePlan.disable p ++ omap (wants_disable c desired) l.
Proof.
  induction l as [|[app m] l IH]; intros p; cbn zeta; [by rewrite !app_nil_r|].
  cbn [foldl]. destruct (IH (plan_managed c desired p (app, m))) as (-> & -> & ->).
  cbn [omap list_omap]. unfold plan_managed, wants_disable at 2. cbn [fst snd]. fold (cataloged c app).
  destruct (is_some (map_get app desired)); cbn [orb]; [done|].
  destruct (cataloged c app); cbn [negb orb]; [|done].
  destruct (Schedule.enabled m); cbn; by rewrite <- ?app_assoc.
Qed.
Lemma plan_lists c t :
  let managed := (managed_of (list_schedules t)).1 in
  let p := catalog_reconcile_plan c t in
  ReconcilePlan.create p = omap (wants_create managed (list_schedules t)) (desired_of c)
  ∧ ReconcilePlan.update p = omap (wants_update managed) (desired_of c)
  ∧ ReconcilePlan.disable p = omap (wants_disable c (desired_of c)) managed.
Proof.
  cbn zeta. unfold catalog_reconcile_plan, reconcile_plan.
  destruct (managed_of (list_schedules t)) as [managed dups]. cbn [fst].
  set (p0 := ReconcilePlan.default <| ReconcilePlan.orphan := dups |>).
  destruct (plan_managed_lists c (desired_of c) managed
              (foldl (plan_desired managed (list_schedules t)) p0 (desired_of c))) as (-> & -> & ->).
  by destruct (plan_desired_lists managed (list_schedules t) (desired_of c) p0) as (-> & -> & ->).
Qed.

(** ** What applying it does *)

Section applying.
Context `{JsonRender}.
Implicit Types (t : schedules) (r : Schedule.t).
#[local] Arguments update_where : simpl never.
#[local] Arguments str_trim : simpl never.

Definition new_managed (now : timestamp) (c : PlanCreate.t) : Schedule.t :=
  default_row ("catalog-" +:+ PlanCreate.app c)%string (PlanCreate.app c) (PlanCreate.cron c) (JObject [])
    true (Some CATALOG_MANAGED_BY) now.
Definition step_update r (u : PlanUpdate.t) : Schedule.t :=
  if managed_row (PlanUpdate.schedule_id u) CATALOG_MANAGED_BY r
  then r <| Schedule.cron := PlanUpdate.to_cron u |> <| Schedule.enabled := true |> else r.
Definition step_disable r (d : PlanDisable.t) : Schedule.t :=
  if managed_row (PlanDisable.schedule_id d) CATALOG_MANAGED_BY r
  then r <| Schedule.enabled := false |> else r.

Lemma catalog_id_inj a b : ("catalog-" +:+ a)%string = ("catalog-" +:+ b)%string → a = b.
Proof. intros Hab. by apply (inj (String.append "catalog-")) in Hab. Qed.

Lemma creates_append now cs : ∀ t a,
  (∀ c, c ∈ cs → ("catalog-" +:+ PlanCreate.app c)%string ∉ map Schedule.id t) →
  NoDup (map PlanCreate.app cs) →
  (foldl (apply_create now) (t, a) cs).1 = t ++ map (new_managed now) cs.
Proof.
  induction cs as [|c cs IH]; intros t a Hids Hnd; [by rewrite app_nil_r|].
  cbn in Hnd. apply NoDup_cons in Hnd as [Hni Hnd].
  assert (∃ a', apply_create now (t, a) c = (t ++ [new_managed now c], a')) as [a' Ha].
  { unfold apply_create, create_managed_schedule, upsert_fenced. cbn [Schedule.id default_row].
    unfold get_schedule at 1. rewrite (proj2 (lookup_by_None Schedule.id t _) (Hids c ltac:(left))).
    cbn [is_some]. destruct (get_schedule _ _); by eexists. }
  cbn [foldl map]. rewrite Ha, IH; [by rewrite <- app_assoc| |done].
  intros c' Hc'. rewrite map_app, elem_of_app. intros [Hin|Hin]; [by apply (Hids c' ltac:(by right))|].
  cbn in Hin. apply list_elem_of_singleton, catalog_id_inj in Hin. apply Hni. rewrite <- Hin.
  by apply list_elem_of_In, in_map, list_elem_of_In.
Qed.

Lemma updates_rows us : ∀ t a, (foldl apply_update (t, a) us).1 = map (λ r, foldl step_update r us) t.
Proof.
  induction us as [|u us IH]; intros t a; [by rewrite List.map_id|].
  assert (∃ a', apply_update (t, a) u = (map (λ r, step_update r u) t, a')) as [a' Ha].
  { unfold apply_update, set_managed_schedule_cron. case_if; by eexists. }
  cbn [foldl]. rewrite Ha, IH, List.map_map. done.
Qed.
Lemma disables_rows ds : ∀ t a, (foldl apply_disable (t, a) ds).1 = map (λ r, foldl step_disable r ds) t.
Proof.
  induction ds as [|d ds IH]; intros t a; [by rewrite List.map_id|].
  assert (∃ a', apply_disable (t, a) d = (map (λ r, step_disable r d) t, a')) as [a' Ha].
  { unfold apply_disable, set_managed_schedule_enabled. case_if; by eexists. }
  cbn [foldl]. rewrite Ha, IH, List.map_map. done.
Qed.

(** What both kinds of step keep. *)
Definition keeps r r' : Prop :=
  Schedule.id r' = Schedule.id r ∧ Schedule.app r' = Schedule.app r
  ∧ Schedule.managed_by r' = Schedule.managed_by r.
Lemma keeps_updates us : ∀ r, keeps r (foldl step_update r us).
Proof.
  induction us as [|u us IH]; intros r; [done|]. cbn. destruct (IH (step_update r u)) as (H1 & H2 & H3).
  unfold step_update in *. unfold keeps. rewrite H1, H2, H3. by case_if.
Qed.
Lemma keeps_disables ds : ∀ r, keeps r (foldl step_disable r ds).
Proof.
  induction ds as [|d ds IH]; intros r; [done|]. cbn. destruct (IH (step_disable r d)) as (H1 & H2 & H3).
  unfold step_disable in *. unfold keeps. rewrite H1, H2, H3. by case_if.
Qed.

Lemma update_miss us : ∀ r, (∀ u, u ∈ us → PlanUpdate.schedule_id u ≠ Schedule.id r) → foldl step_update r us = r.
Proof.
  induction us as [|u us IH]; intros r Hu; [done|]. cbn. assert (step_update r u = r) as ->.
  { unfold step_update, managed_row, is_schedule. rewrite (proj2 (String.eqb_neq _ _)); [done|].
    intros He. by apply (Hu u ltac:(left)). }
  apply IH. intros u' Hu'. apply Hu. by right.
Qed.
Lemma disable_miss ds : ∀ r, (∀ d, d ∈ ds → PlanDisable.schedule_id d ≠ Schedule.id r) → foldl step_disable r ds = r.
Proof.
  induction ds as [|d ds IH]; intros r Hd; [done|]. cbn. assert (step_disable r d = r) as ->.
  { unfold step_disable, managed_row, is_schedule. rewrite (proj2 (String.eqb_neq _ _)); [done|].
    intros He. by apply (Hd d ltac:(left)). }
  apply IH. intros d' Hd'. apply Hd. by right.
Qed.
Lemma untagged_kept us ds r :
  tagged r = false → foldl step_disable (foldl step_update r us) ds = r.
Proof.
  intros Hr. assert (∀ id, managed_row id CATALOG_MANAGED_BY r = false) as Hm.
  { intros id. unfold managed_row. unfold tagged in Hr. rewrite Hr. apply andb_false_r. }
  assert (foldl step_update r us = r) as ->.
  { induction us as [|u us IH]; [done|]. cbn. unfold step_update at 2. by rewrite Hm. }
  induction ds as [|d ds IH]; [done|]. cbn. unfold step_disable at 2. by rewrite Hm.
Qed.

Lemma update_hit us k : ∀ r,
  tagged r = true → (∀ u, u ∈ us → PlanUpdate.schedule_id u = Schedule.id r → PlanUpdate.to_cron u = k) →
  (∃ u, u ∈ us ∧ PlanUpdate.schedule_id u = Schedule.id r) ∨ (Schedule.cron r = k ∧ Schedule.enabled r = true) →
  Schedule.cron (foldl step_update r us) = k ∧ Schedule.enabled (foldl step_update r us) = true.
Proof.
  induction us as [|u us IH]; intros r Ht Hk Hr.
  { destruct Hr as [(u & Hu & _)|Hr]; [by apply not_elem_of_nil in Hu|exact Hr]. }
  cbn. apply IH.
  - unfold step_update. by case_if.
  - intros u' Hu' He. apply Hk; [by right|]. rewrite He. unfold step_update. by case_if.
  - unfold step_update, managed_row, is_schedule. fold (tagged r). rewrite Ht, andb_true_r.
    destruct (String.eqb_spec (Schedule.id r) (PlanUpdate.schedule_id u)) as [He|He].
    + right. cbn. split; [|done]. apply Hk; [left|done].
    + destruct Hr as [(u' & Hu' & He')|Hr]; [|by right].
      apply elem_of_cons in Hu' as [->|Hu']; [by rewrite He' in He|]. left. by exists u'.
Qed.
Lemma disable_hit ds : ∀ r,
  tagged r = true →
  (∃ d, d ∈ ds ∧ PlanDisable.schedule_id d = Schedule.id r) ∨ Schedule.enabled r = false →
  Schedule.enabled (foldl step_disable r ds) = false.
Proof.
  induction ds as [|d ds IH]; intros r Ht Hr.
  { destruct Hr as [(d & Hd & _)|Hr]; [by apply not_elem_of_nil in Hd|exact Hr]. }
  cbn. apply IH; [unfold step_disable; by case_if|].
  unfold step_disable, managed_row, is_schedule. fold (tagged r). rewrite Ht, andb_true_r.
  destruct (String.eqb_spec (Schedule.id r) (PlanDisable.schedule_id d)) as [He|He]; [by right|].
  destruct Hr as [(d' & Hd' & He')|Hr]; [|by right].
  apply elem_of_cons in Hd' as [->|Hd']; [by rewrite He' in He|]. left. by exists d'.
Qed.

(** A row with an id the reconciler would create is one it created. *)
Definition well_named t : Prop :=
  ∀ r app, r ∈ t → Schedule.id r = ("catalog-" +:+ app)%string → mrow app r = true.

Lemma omap_none {A B} (f : A → option B) l : (∀ x, x ∈ l → f x = None) → omap f l = [].
Proof.
  induction l as [|x l IH]; intros Hf; [done|]. cbn. rewrite (Hf x) by left. apply IH.
  intros y Hy. apply Hf. by right.
Qed.

Section plan.
Context (c : catalog) (now : timestamp) (t : schedules).
Context (ids : NoDup (map Schedule.id t)) (named : well_named t).

Let managed := (managed_of (list_schedules t)).1.
Let desired := desired_of c.
Let cs := omap (wants_create managed (list_schedules t)) desired.
Let us := omap (wants_update managed) desired.
Let ds := omap (wants_disable c desired) managed.
Let final r := foldl step_disable (foldl step_update r us) ds.

Lemma elem_creates x :
  x ∈ cs ↔ ∃ app src, List.find (drow app) (live c) = Some src ∧ List.find (mrow app) t = None
    ∧ existsb (serves app (str_trim (Source.cron src))) (list_schedules t) = false
    ∧ x = PlanCreate.mk (Source.id src) app (str_trim (Source.cron src)).
Proof.
  unfold cs. rewrite list_elem_of_omap. split.
  - intros ([app src] & Hin & Hx). apply desired_entry in Hin. unfold wants_create in Hx. cbn [fst snd] in Hx.
    unfold managed in Hx. rewrite managed_get in Hx. destruct (List.find (mrow app) t) eqn:E; cbn in Hx; [done|].
    destruct (existsb _ _) eqn:Es; [done|]. injection Hx as <-. by exists app, src.
  - intros (app & src & Hd & Hm & Hs & ->). exists (app, src). split; [by apply desired_entry|].
    unfold wants_create. cbn [fst snd]. unfold managed. by rewrite managed_get, Hm, Hs.
Qed.
Lemma elem_updates u :
  u ∈ us → ∃ app src m, List.find (drow app) (live c) = Some src ∧ List.find (mrow app) t = Some m
    ∧ in_sync_with (str_trim (Source.cron src)) m = false
    ∧ PlanUpdate.schedule_id u = Schedule.id m ∧ PlanUpdate.to_cron u = str_trim (Source.cron src).
Proof.
  unfold us. rewrite list_elem_of_omap. intros ([app src] & Hin & Hx). apply desired_entry in Hin.
  unfold wants_update in Hx. cbn [fst snd] in Hx. unfold managed in Hx. rewrite managed_get in Hx.
  destruct (List.find (mrow app) t) as [m|] eqn:E; cbn in Hx; [|done].
  destruct (in_sync_with _ m) eqn:Es; [done|]. injection Hx as <-. by exists app, src, m.
Qed.
Lemma elem_disables d :
  d ∈ ds → ∃ app m, List.find (drow app) (live c) = None ∧ List.find (mrow app) t = Some m
    ∧ PlanDisable.schedule_id d = Schedule.id m.
Proof.
  unfold ds. rewrite list_elem_of_omap. intros ([app m] & Hin & Hx). apply managed_entry in Hin.
  unfold wants_disable in Hx. cbn [fst snd] in Hx. unfold desired in Hx. rewrite desired_get in Hx.
  destruct (List.find (drow app) (live c)) eqn:E; cbn in Hx; [done|].
  destruct (_ || _) in Hx; [done|]. injection Hx as <-.
  by exists app, m.
Qed.

Lemma find_mrow app m : List.find (mrow app) t = Some m → m ∈ t ∧ tagged m = true ∧ Schedule.app m = app.
Proof.
  intros [Hin Hm]%List.find_some. apply list_elem_of_In in Hin. unfold mrow in Hm. breflect_in Hm. tauto.
Qed.
(** Two rows of the plan with one id are one. *)
Lemma same_row app app' m m' :
  List.find (mrow app) t = Some m → List.find (mrow app') t = Some m' →
  Schedule.id m = Schedule.id m' → app = app' ∧ m = m'.
Proof.
  intros (H1 & _ & A1)%find_mrow (H2 & _ & A2)%find_mrow He.
  assert (m = m') as -> by (by apply (lookup_by_unique Schedule.id t)). split; congruence.
Qed.

Definition applied : schedules := (apply_reconcile_plan now (catalog_reconcile_plan c t) t).1.

Lemma applied_rows : applied = map final (t ++ map (new_managed now) cs).
Proof.
  unfold applied, apply_reconcile_plan. destruct (plan_lists c t) as (-> & -> & ->).
  fold managed desired cs us ds. set (a0 := Applied.mk _ _ _ _ _).
  pose proof (creates_append now cs t a0) as Hc.
  destruct (foldl (apply_create now) (t, a0) cs) as [t1 a1]. cbn in Hc. rewrite Hc.
  - pose proof (updates_rows us (t ++ map (new_managed now) cs) a1) as Hu.
    destruct (foldl apply_update (t ++ map (new_managed now) cs, a1) us) as [t2 a2]. cbn in Hu. subst t2.
    by rewrite disables_rows, List.map_map.
  - intros x (app & src & _ & Hm & _ & ->)%elem_creates Hin. cbn in Hin.
    apply list_elem_of_In, in_map_iff in Hin as (r & Hr & Hin).
    apply (List.find_none _ _ Hm) in Hin as Hf. rewrite (named r app) in Hf; [done|by apply list_elem_of_In|done].
  - assert (map PlanCreate.app cs = omap (λ e, PlanCreate.app <$> wants_create managed (list_schedules t) e) desired)
      as -> by (unfold cs; clear; induction desired as [|e l IH]; [done|]; cbn; destruct (wants_create _ _ e); cbn; by rewrite ?IH).
    assert (NoDup (map fst desired)) as Hnd.
    { apply (sorted_NoDup_keys desired). apply sorted_desired. constructor. }
    revert Hnd. clear. induction desired as [|[app src] l IH]; [constructor|]. cbn.
    intros [Hni Hnd]%NoDup_cons. unfold wants_create at 1. cbn [fst snd].
    case_if; cbn; [by apply IH|]. constructor; [|by apply IH].
    intros ([app' src'] & Hin & Hx)%list_elem_of_omap. apply Hni.
    unfold wants_create in Hx. cbn in Hx. destruct (is_some _ || _) in Hx; cbn in Hx; [done|].
    injection Hx as <-. change app' with (fst (app', src')). by apply list_elem_of_In, in_map, list_elem_of_In.
Qed.

Lemma keeps_final r : keeps r (final r).
Proof.
  unfold final. destruct (keeps_updates us r) as (A1 & A2 & A3).
  destruct (keeps_disables ds (foldl step_update r us)) as (B1 & B2 & B3). repeat split; congruence.
Qed.
Lemma mrow_final app r : mrow app (final r) = mrow app r.
Proof. destruct (keeps_final r) as (_ & H1 & H2). unfold mrow, tagged. by rewrite H1, H2. Qed.

Lemma find_map_app {A} (p : A → bool) l l' :
  List.find p (l ++ l') = match List.find p l with Some x => Some x | None => List.find p l' end.
Proof. induction l as [|x l IH]; [done|]. cbn. by destruct (p x). Qed.
Lemma find_applied app :
  List.find (mrow app) applied
  = final <$> (match List.find (mrow app) t with
               | Some m => Some m
               | None => List.find (mrow app) (map (new_managed now) cs)
               end).
Proof.
  rewrite applied_rows, <- find_map_app. generalize (t ++ map (new_managed now) cs). intros l.
  induction l as [|r l IH]; [done|]. cbn. rewrite mrow_final. by destruct (mrow app r).
Qed.

(** A created row is left as it was written. *)
Lemma final_new x : x ∈ cs → final (new_managed now x) = new_managed now x.
Proof.
  intros (app & src & _ & Hnone & _ & ->)%elem_creates. set (n := new_managed now _).
  assert (∀ app' m, List.find (mrow app') t = Some m → Schedule.id m ≠ Schedule.id n) as Hid.
  { intros app' m (Hin & _ & _)%find_mrow He. apply list_elem_of_In in Hin as Hin'.
    apply (List.find_none _ _ Hnone) in Hin'. by rewrite (named m app Hin He) in Hin'. }
  unfold final. rewrite (update_miss us n).
  - apply disable_miss. intros d (app' & m & _ & Hm & ->)%elem_disables. by apply (Hid app').
  - intros u (app' & src' & m & _ & Hm & _ & -> & _)%elem_updates. by apply (Hid app').
Qed.
Lemma find_new app m :
  List.find (mrow app) (map (new_managed now) cs) = Some m →
  ∃ src, List.find (drow app) (live c) = Some src
    ∧ m = new_managed now (PlanCreate.mk (Source.id src) app (str_trim (Source.cron src)))
    ∧ final m = m.
Proof.
  intros [Hin Hm]%List.find_some. apply in_map_iff in Hin as (x & <- & Hx). apply list_elem_of_In in Hx.
  pose proof (final_new x Hx) as Hfin. apply elem_creates in Hx as (app' & src & Hd & _ & _ & ->).
  unfold mrow in Hm. breflect_in Hm. destruct Hm as [_ Hm]. cbn in Hm. subst app'. by exists src.
Qed.

(** A desired app's managed row ends in sync. *)
Lemma desired_synced app src m :
  List.find (drow app) (live c) = Some src → List.find (mrow app) t = Some m →
  in_sync_with (str_trim (Source.cron src)) (final m) = true.
Proof.
  intros Hd Hm. pose proof (find_mrow app m Hm) as (Hin & Ht & _). unfold final.
  rewrite disable_miss.
  2:{ destruct (keeps_updates us m) as (-> & _). intros d (app' & m' & Hd' & Hm' & ->)%elem_disables He.
      destruct (same_row app' app m' m Hm' Hm He) as [-> _]. congruence. }
  destruct (in_sync_with (str_trim (Source.cron src)) m) eqn:Es.
  - rewrite update_miss; [done|]. intros u (app' & src' & m' & Hd' & Hm' & Hs' & -> & _)%elem_updates He.
    destruct (same_row app' app m' m Hm' Hm He) as [-> ->]. congruence.
  - destruct (update_hit us (str_trim (Source.cron src)) m) as [Hc He]; [done| | |].
    + intros u (app' & src' & m' & Hd' & Hm' & _ & -> & ->)%elem_updates He.
      destruct (same_row app' app m' m Hm' Hm He) as [-> ->]. congruence.
    + left. exists (PlanUpdate.mk (Schedule.id m) app (Schedule.cron m) (str_trim (Source.cron src)) (negb (Schedule.enabled m))).
      split; [|done]. unfold us. apply list_elem_of_omap. exists (app, src).
      split; [by apply desired_entry|]. unfold wants_update. cbn [fst snd]. unfold managed. by rewrite managed_get, Hm; cbn; rewrite Es.
    + unfold in_sync_with. rewrite Hc, He, str_trim_idemp. by rewrite String.eqb_refl.
Qed.
(** The managed row of an app the catalog no longer runs ends disabled. *)
Lemma undesired_disabled app m :
  List.find (drow app) (live c) = None → cataloged c app = true → List.find (mrow app) t = Some m →
  Schedule.enabled (final m) = false.
Proof.
  intros Hd Hc Hm. pose proof (find_mrow app m Hm) as (Hin & Ht & _). unfold final. rewrite (update_miss us m).
  2:{ intros u (app' & src' & m' & Hd' & Hm' & _ & -> & _)%elem_updates He.
      destruct (same_row app' app m' m Hm' Hm He) as [-> _]. congruence. }
  apply disable_hit; [done|]. destruct (Schedule.enabled m) eqn:Ee; [left|by right].
  exists (PlanDisable.mk (Schedule.id m) app (disable_reason c app)). split; [|done].
  unfold ds. apply list_elem_of_omap. exists (app, m). split; [by apply managed_entry|].
  unfold wants_disable. cbn [fst snd]. unfold desired. by rewrite desired_get, Hd, Hc, Ee.
Qed.

Lemma replan_empty :
  let plan := catalog_reconcile_plan c applied in
  ReconcilePlan.create plan = [] ∧ ReconcilePlan.update plan = [] ∧ ReconcilePlan.disable plan = [].
Proof.
  cbn zeta. destruct (plan_lists c applied) as (-> & -> & ->). split_and!; apply omap_none.
  - intros [app src] Hin. apply desired_entry in Hin as Hd. unfold wants_create. cbn [fst snd].
    rewrite managed_get, find_applied. destruct (List.find (mrow app) t) as [m|] eqn:Em; [done|].
    destruct (List.find (mrow app) (map _ cs)) eqn:En; [done|]. cbn [is_some fmap option_fmap option_map orb].
    destruct (existsb (serves app (str_trim (Source.cron src))) (list_schedules t)) eqn:Es.
    + apply existsb_exists in Es as (r & Hr & Hs). apply list_elem_of_In, elem_of_order_by in Hr.
      rewrite (proj2 (existsb_exists _ _)); [done|]. exists r. split; [|done].
      apply list_elem_of_In, elem_of_order_by. rewrite applied_rows, map_app. apply elem_of_app. left.
      apply list_elem_of_In, in_map_iff. exists r. split; [|by apply list_elem_of_In].
      apply untagged_kept. unfold serves in Hs. unfold tagged. by destruct (Schedule.managed_by r).
    + exfalso. assert (PlanCreate.mk (Source.id src) app (str_trim (Source.cron src)) ∈ cs) as Hx
        by (apply elem_creates; by exists app, src).
      apply list_elem_of_In, (in_map (new_managed now)) in Hx. apply (List.find_none _ _ En) in Hx.
      unfold mrow in Hx. cbn in Hx. by rewrite String.eqb_refl in Hx.
  - intros [app src] Hin. apply desired_entry in Hin as Hd. unfold wants_update. cbn [fst snd].
    rewrite managed_get, find_applied. destruct (List.find (mrow app) t) as [m|] eqn:Em; cbn.
    + by rewrite (desired_synced app src m Hd Em).
    + destruct (List.find (mrow app) (map _ cs)) as [n|] eqn:En; cbn; [|done].
      destruct (find_new app n En) as (src' & Hd' & Hn & ->). rewrite Hd in Hd'. injection Hd' as <-. subst n.
      unfold in_sync_with. cbn. by rewrite str_trim_idemp, String.eqb_refl.
  - intros [app m'] Hin. apply managed_entry in Hin. unfold wants_disable. cbn [fst snd]. rewrite desired_get.
    destruct (List.find (drow app) (live c)) as [src|] eqn:Hd; [done|]. cbn [is_some orb].
    destruct (cataloged c app) eqn:Hc; [|done]. cbn [negb orb]. rewrite find_applied in Hin.
    destruct (List.find (mrow app) t) as [m|] eqn:Em; cbn in Hin.
    + injection Hin as <-. by rewrite (undesired_disabled app m Hd Hc Em).
    + destruct (List.find (mrow app) (map _ cs)) as [n|] eqn:En; cbn in Hin; [|done].
      destruct (find_new app n En) as (src' & Hd' & _). congruence.
Qed.

Lemma others_kept : List.filter (λ s, negb (tagged s)) applied = List.filter (λ s, negb (tagged s)) t.
Proof.
  rewrite applied_rows, map_app, List.filter_app.
  assert (∀ l, List.filter (λ s, negb (tagged s)) (map final l) = List.filter (λ s, negb (tagged s)) l) as Hf.
  { induction l as [|r l IH]; [done|]. cbn. destruct (keeps_final r) as (_ & _ & Hm).
    assert (tagged (final r) = tagged r) as -> by (unfold tagged; by rewrite Hm).
    destruct (tagged r) eqn:E; cbn; [done|]. rewrite IH. f_equal. by apply untagged_kept. }
  rewrite !Hf. assert (List.filter (λ s, negb (tagged s)) (map (new_managed now) cs) = []) as ->.
  { generalize cs. induction cs0 as [|x l IH]; [done|]. exact IH. }
  apply app_nil_r.
Qed.
End plan.
End applying.

Section converges.
Context `{JsonRender}.

(** C15: The catalog reconcile converges and keeps to its own rows: after a plan is applied the
    next plan creates, updates and disables nothing and applying it changes nothing, and every
    schedule that is not tagged as the catalog's is as it was. *)
Theorem reconcile_converges c now now' t :
  NoDup (map Schedule.id t) → well_named t →
  let t' := (apply_reconcile_plan now (catalog_reconcile_plan c t) t).1 in
  let plan := catalog_reconcile_plan c t' in
  ReconcilePlan.create plan = [] ∧ ReconcilePlan.update plan = [] ∧ ReconcilePlan.disable plan = []
  ∧ (apply_reconcile_plan now' plan t').1 = t'
  ∧ List.filter (λ s, negb (tagged s)) t' = List.filter (λ s, negb (tagged s)) t.
Proof.
  intros Hids Hnamed t' plan. destruct (replan_empty c now t Hids Hnamed) as (Hc & Hu & Hd).
  split_and!; [done..| |by apply others_kept].
  change (applied c now t) with t' in *. fold plan in Hc, Hu, Hd. unfold apply_reconcile_plan.
  by rewrite Hc, Hu, Hd.
Qed.
End converges.


(** ** Peers *)

Section peers.
Implicit Types (t : schedules) (r : Schedule.t) (p : PeerSchedule.t).
#[local] Arguments update_where : simpl never.

Definition peer_row r : bool := bool_decide (Schedule.managed_by r = Some PEER_MANAGED_BY).
Abbreviation upsert now p :=
  (λ t, (upsert_managed_schedule (PeerSchedule.id p) "peer" (PeerSchedule.cron p) (PeerSchedule.params p)
           (PeerSchedule.enabled p) PEER_MANAGED_BY now t).1).

Lemma upsert_elem now p t r :
  r ∈ upsert now p t →
  (Schedule.id r = PeerSchedule.id p → peer_row r = true → Schedule.enabled r = PeerSchedule.enabled p)
  ∧ (Schedule.id r ≠ PeerSchedule.id p → r ∈ t).
Proof.
  unfold upsert_managed_schedule, upsert_fenced. cbn [Schedule.id default_row]. case_if; cbn [fst].
  - intros (x & Hx & ->)%elem_of_update. unfold managed_row, is_schedule. fold (peer_row x).
    destruct (String.eqb_spec (Schedule.id x) (PeerSchedule.id p)) as [He|He]; cbn [andb].
    + destruct (peer_row x) eqn:Ep; cbn; [by split|]. split; [by intros _ Hx'; rewrite Ep in Hx'|done].
    + by split.
  - intros [Hr| ->%list_elem_of_singleton]%elem_of_app; cbn; [|by split]. split; [|done].
    intros He _. exfalso. destruct (get_schedule (PeerSchedule.id p) t) eqn:Eg; [done|].
    unfold get_schedule in Eg. apply (proj1 (lookup_by_None Schedule.id t _) Eg).
    rewrite <- He. by apply list_elem_of_In, in_map, list_elem_of_In.
Qed.

Lemma upserts_elem now plan : ∀ t r,
  NoDup (map PeerSchedule.id plan) → r ∈ foldl (λ t p, upsert now p t) t plan →
  (Schedule.id r ∉ map PeerSchedule.id plan → r ∈ t)
  ∧ (∀ p, p ∈ plan → Schedule.id r = PeerSchedule.id p → peer_row r = true →
       Schedule.enabled r = PeerSchedule.enabled p).
Proof.
  induction plan as [|p plan IH]; intros t r Hnd Hr.
  { split; [done|]. intros p Hp. by apply not_elem_of_nil in Hp. }
  cbn in Hnd. apply NoDup_cons in Hnd as [Hni Hnd]. cbn in Hr. destruct (IH _ _ Hnd Hr) as [H1 H2]. split.
  - intros Hout. cbn in Hout. rewrite not_elem_of_cons in Hout. destruct Hout as [Hp Hout].
    by apply (upsert_elem now p t r (H1 Hout)).
  - intros q [->|Hq]%elem_of_cons He Hpr; [|by apply H2]. apply (upsert_elem now p t r); [|done..].
    apply H1. by rewrite He.
Qed.

Lemma disabled_elem (bad : list Schedule.t) : ∀ t r,
  r ∈ foldl (λ t s, (set_managed_schedule_enabled (Schedule.id s) false PEER_MANAGED_BY t).1) t bad →
  peer_row r = true →
  if bool_decide (Schedule.id r ∈ map Schedule.id bad) then Schedule.enabled r = false else r ∈ t.
Proof.
  induction bad as [|s bad IH]; intros t r Hr Hp; [exact Hr|]. cbn in Hr.
  specialize (IH _ _ Hr Hp). destruct (bool_decide (Schedule.id r ∈ map Schedule.id bad)) eqn:Eb.
  - rewrite bool_decide_eq_true_2; [done|]. apply bool_decide_eq_true in Eb. cbn. by right.
  - unfold set_managed_schedule_enabled in IH. cbn in IH. apply elem_of_update in IH as (x & Hx & ->).
    apply bool_decide_eq_false in Eb. unfold managed_row, is_schedule in *. fold (peer_row x) in *.
    destruct (String.eqb_spec (Schedule.id x) (Schedule.id s)) as [He|He]; cbn [andb] in *.
    + destruct (peer_row x) eqn:Ep; cbn in *; [|by rewrite Ep in Hp].
      rewrite bool_decide_eq_true_2; [done|]. rewrite He. left.
    + rewrite bool_decide_eq_false_2; [done|]. cbn. by rewrite not_elem_of_cons.
Qed.

(** What the peers' boot pass does: when some peer is scheduled, the peer-managed schedules
    that are enabled afterwards are exactly the enabled ones the configuration asks for.  When
    the last peer is removed from the configuration the pass returns before it looks at the
    table, and every schedule of the peers that are gone keeps firing. *)
Theorem peer_schedules_follow_config now peers t :
  let plan := peer_reconcile_plan peers in
  let t' := peer_boot_reconcile now peers t in
  NoDup (map PeerSchedule.id plan) →
  (plan ≠ [] → ∀ r, r ∈ t' → Schedule.managed_by r = Some PEER_MANAGED_BY →
     (Schedule.enabled r = true ↔
      ∃ p, p ∈ plan ∧ PeerSchedule.id p = Schedule.id r ∧ PeerSchedule.enabled p = true))
  ∧ (plan = [] → t' = t).
Proof.
  intros plan t' Hnd. subst t'. unfold peer_boot_reconcile. fold plan. split; [|by intros ->].
  intros Hne r Hr Hm. destruct plan as [|p0 plan0] eqn:Eplan; [done|]. rewrite <- Eplan in *. clear Eplan p0 plan0 Hne.
  unfold apply_peer_schedules in Hr. set (t1 := foldl _ t plan) in Hr.
  set (bad := List.filter (unwanted (map PeerSchedule.id plan)) (list_schedules t1)) in Hr.
  assert (peer_row r = true) as Hp by by apply bool_decide_eq_true.
  pose proof (disabled_elem bad t1 r Hr Hp) as Hd.
  assert (∀ s, s ∈ bad → Schedule.id s ∉ map PeerSchedule.id plan) as Hbad.
  { intros s [_ Hs]%elem_of_select. unfold unwanted in Hs. breflect_in Hs. tauto. }
  destruct (bool_decide (Schedule.id r ∈ map Schedule.id bad)) eqn:Eb.
  - rewrite Hd. split; [done|]. intros (p & Hin & He & _). exfalso.
    apply bool_decide_eq_true, list_elem_of_In, in_map_iff in Eb as (s & Hs & Hin').
    apply (Hbad s); [by apply list_elem_of_In|]. rewrite Hs, <- He. by apply list_elem_of_In, in_map, list_elem_of_In.
  - apply bool_decide_eq_false in Eb. destruct (upserts_elem now plan t r Hnd Hd) as [_ Hup]. split.
    + intros Hen. destruct (base.decide (Schedule.id r ∈ map PeerSchedule.id plan)) as [Hin|Hin].
      * apply list_elem_of_In, in_map_iff in Hin as (p & He & Hin). apply list_elem_of_In in Hin.
        exists p. split_and!; [done..|]. by rewrite <- (Hup p Hin).
      * exfalso. apply Eb. apply list_elem_of_In, in_map, list_elem_of_In, elem_of_select.
        split; [by apply elem_of_order_by|]. unfold unwanted. fold (peer_row r). rewrite Hp, Hen.
        by rewrite bool_decide_eq_false_2.
    + intros (p & Hin & He & Hen). by rewrite (Hup p Hin).
Qed.
End peers.

(** Two streams of one peer can share a schedule: the later one overwrites the earlier. *)
Lemma peer_slugs_collide :
  parse_pull "datasets:hn-top/stories" = Some (PullDataset "hn-top" "stories")
  ∧ parse_pull "datasets:hn/top-stories" = Some (PullDataset "hn" "top-stories")
  ∧ slug (PullDataset "hn-top" "stories") = slug (PullDataset "hn" "top-stories").
Proof. by vm_compute. Qed.

(** An exempt app with no source row is counted as sourced. *)
Lemma exempt_app_counts_as_sourced :
  ContractsStatus.sourced (of_with_apps [] true ["probe"%string] ["probe"%string]) = Some 1%nat.
Proof. by vm_compute. Qed.

(** The digest check takes upper case. *)
Lemma upper_case_digest :
  is_sha256_hex (String.concat "" (replicate 32 "AB"%string)) = true.
Proof. by vm_compute. Qed.

(** ** Witnesses *)

Module ReconcileDemo.
#[local] Instance render : JsonRender := λ _, "{}"%string.

Definition source (app status cron : string) : Source.t :=
  Source.mk app app "us" app "" "" "http" "" "daily" cron status 3 "d" "" "" None.
Definition declared : catalog :=
  [source "grants" "live" " 0 0 6 * * * "; source "census" "live" "0 0 7 * * *"; source "jobs" "blocked" ""].
Definition row (id app cron : string) (enabled : bool) (tag : option string) : Schedule.t :=
  default_row id app cron (JObject []) enabled tag 0.
(** One row drifted, one belongs to a blocked source, one is hand-made, one is missing. *)
Definition table : schedules :=
  [row "catalog-grants" "grants" "0 0 5 * * *" true (Some CATALOG_MANAGED_BY);
   row "catalog-jobs" "jobs" "0 0 1 * * *" true (Some CATALOG_MANAGED_BY);
   row "u1" "grants" "0 0 9 * * *" true None].

Lemma table_named : well_named table.
Proof.
  intros r app Hr Hid. unfold table in Hr.
  apply elem_of_cons in Hr as [->|Hr].
  { pose proof (catalog_id_inj "grants" app Hid) as <-. vm_compute. reflexivity. }
  apply elem_of_cons in Hr as [->|Hr].
  { pose proof (catalog_id_inj "jobs" app Hid) as <-. vm_compute. reflexivity. }
  apply list_elem_of_singleton in Hr as ->. discriminate Hid.
Qed.

Lemma reconcile_converges_witness :
  let t' := (apply_reconcile_plan 5 (catalog_reconcile_plan declared table) table).1 in
  map (λ s, (Schedule.id s, Schedule.cron s, Schedule.enabled s)) t'
  = [("catalog-grants", "0 0 6 * * *", true); ("catalog-jobs", "0 0 1 * * *", false);
     ("u1", "0 0 9 * * *", true); ("catalog-census", "0 0 7 * * *", true)]%string
  ∧ (apply_reconcile_plan 9 (catalog_reconcile_plan declared t') t').1 = t'.
Proof.
  cbn zeta. split; [vm_compute; reflexivity|].
  destruct (reconcile_converges declared 5 9 table) as (_ & _ & _ & Hfix & _).
  - apply (bool_decide_unpack _). vm_compute. exact I.
  - exact table_named.
  - exact Hfix.
Defined.

Definition peer : PeerConfig.t :=
  PeerConfig.mk "vps" "https://vps.example:8088" "" ["weather"; "datasets:hn/stories"]%string "1h" true 60 None None true.
Definition peer_table : schedules :=
  [row "peer-old-weather" "peer" "0 0 * * * *" true (Some PEER_MANAGED_BY); row "u2" "peer" "" true None].

Lemma peer_schedules_follow_config_witness :
  map (λ s, (Schedule.id s, Schedule.enabled s)) (peer_boot_reconcile 5 [peer] peer_table)
  = [("peer-old-weather", false); ("u2", true); ("peer-vps-weather", true);
     ("peer-vps-datasets-hn-stories", true)]%string
  ∧ peer_boot_reconcile 5 [] peer_table = peer_table.
Proof.
  split; [vm_compute; reflexivity|].
  refine (proj2 (peer_schedules_follow_config 5 [] peer_table _) eq_refl). constructor.
Defined.
End ReconcileDemo.
