(* ===== verification/Search.v ===== *)
(** * Search: what is indexed, and the standing queries over it

    The documents and hits of [crates/core/src/search.rs], the documents a run's result and
    revisions become ([search_docs], [dataset_docs_from_revisions] of
    [crates/server/src/worker.rs]), the [saved_searches] table of [storage.rs] and the
    views a saved search materializes ([datasets.rs]).  The index itself is a third-party
    engine: what is sent to it is modelled, what it answers is an argument. *)

From stdpp Require Import gmap pretty.
From S2P Require Import Prelude Sql Float64 Json Jobs JobQueue Costs Triggers.
From S2P Require Import SourceHealth Filters Simhash Records ChangePlan Datasets.

(** ** Documents *)

Module SearchDoc.
Record t : Type := mk {
  id : string; app : string; dataset : string; url : string; title : string; body : string;
  indexed_at : Z }.
End SearchDoc.

Definition dataset_id (app dataset key : string) : string :=
  (app +:+ ":" +:+ dataset +:+ ":" +:+ key)%string.

(** The first of [keys] that holds a string. *)
Definition pick (keys : list string) (rec : Json) : string :=
  default ""%string (head (omap (λ k, json_get k rec ≫= as_str) keys)).
Definition URL_KEYS : list string := ["_url"; "url"]%string.
Definition TITLE_KEYS : list string := ["title"; "name"; "headline"; "full_name"]%string.

(** Rows whose ids embed the job, and rows keyed by an address. *)
Definition JOB_RESULT_DATASET : string := "_job".
Definition JOB_RECORD_DATASET : string := "_records".

(** [DateTime::timestamp]: whole seconds, rounded down. *)
Definition timestamp_secs (t : timestamp) : Z := t / 10 ^ 6.

Section docs.
Context `{JsonRender, UuidText}.

Definition from_dataset_record (app dataset key : string) (rec : Json) (indexed_at : Z) : SearchDoc.t :=
  SearchDoc.mk (dataset_id app dataset key) app dataset (pick URL_KEYS rec) (pick TITLE_KEYS rec)
    (json_render rec) indexed_at.

Definition record_doc (app : string) (job_id : Uuid) (now : timestamp) (i : nat) (rec : Json) :
    SearchDoc.t :=
  let url := pick URL_KEYS rec in
  let '(id, dataset) :=
    if String.eqb url ""
    then ((app +:+ ":" +:+ uuid_text job_id +:+ ":" +:+ pretty i)%string, JOB_RESULT_DATASET)
    else ((app +:+ ":" +:+ url)%string, JOB_RECORD_DATASET) in
  SearchDoc.mk id app dataset url (pick TITLE_KEYS rec) (json_render rec) (timestamp_secs now).

Definition echo_indexing_delegated (result : Json) : bool := is_some (json_get "index_datasets" result).

Definition search_docs (app : string) (job_id : Uuid) (now : timestamp) (result : Json) :
    list SearchDoc.t :=
  let docs :=
    if echo_indexing_delegated result then []
    else flat_map (λ key, match json_get key result ≫= as_array with
                          | Some arr => imap (record_doc app job_id now) arr
                          | None => []
                          end) ["records"; "stories"; "items"]%string in
  match docs with
  | [] => [SearchDoc.mk (app +:+ ":" +:+ uuid_text job_id)%string app JOB_RESULT_DATASET "" app
             (json_render result) (timestamp_secs now)]
  | _ => docs
  end.
Definition sweeps_prior_job_snapshot (docs : list SearchDoc.t) : bool :=
  existsb (λ d, String.eqb (SearchDoc.dataset d) JOB_RESULT_DATASET) docs.

(** One revision of a window walked newest first: the first of a key is its final state. *)
Definition doc_step (app dataset : string) (acc : list SearchDoc.t * list string * gset string)
    (rev : Revision.t) : list SearchDoc.t * list string * gset string :=
  let '(docs, deletes, seen) := acc in
  if bool_decide (Revision.key rev ∈ seen) then acc
  else
    let seen := {[Revision.key rev]} ∪ seen in
    if String.eqb (Revision.change rev) "removed"
    then (docs, deletes ++ [dataset_id app dataset (Revision.key rev)], seen)
    else match Revision.data rev with
         | Some data =>
             (docs ++ [from_dataset_record app dataset (Revision.key rev) data
                         (timestamp_secs (Revision.created_at rev))], deletes, seen)
         | None => (docs, deletes, seen)
         end.
Definition dataset_docs_from_revisions (app dataset : string) (revs : list Revision.t) :
    list SearchDoc.t * list string :=
  (foldl (doc_step app dataset) ([], [], ∅) revs).1.
End docs.

(** ** Hits *)

Module SearchHit.
(** [score] is the [f32], widened. *)
Record t : Type := mk {
  id : string; app : string; dataset : string; url : string; title : string; score : f64;
  snippet : string }.
End SearchHit.

(** [s[n..]] *)
Definition skip (n : nat) (s : string) : string := String.substring n (String.length s - n) s.
Definition source_key (h : SearchHit.t) : string :=
  let id := SearchHit.id h in
  let app := String.length (SearchHit.app h) in
  let prefix_len := (app + String.length (SearchHit.dataset h) + 2)%nat in
  if (prefix_len <? String.length id)%nat
     && String.prefix (SearchHit.app h) id
     && String.prefix ":" (skip app id)
     && String.prefix (SearchHit.dataset h) (skip (app + 1) id)
     && String.prefix ":" (skip (prefix_len - 1) id)
  then skip prefix_len id else id.

(** [f64::round]: to the nearest integer, halves away from zero, the sign of zero kept. *)
Definition f64_round (x : f64) : f64 :=
  match x with
  | S754_finite s m e =>
      if 0 <=? e then x
      else
        let d := 2 ^ (- e) in
        let q := (2 * Z.pos m + d) / (2 * d) in
        if q =? 0 then S754_zero s
        else if s then SFopp (f64_of_Z q) else f64_of_Z q
  | _ => x
  end.
(** A non-finite float is [null]. *)
Definition json_f64 (x : f64) : Json := if is_finite x then JNumber (Float x) else JNull.

Definition materialize_value (h : SearchHit.t) : Json :=
  json_object
    [("title", JString (SearchHit.title h)); ("snippet", JString (SearchHit.snippet h));
     ("url", JString (SearchHit.url h));
     ("score", json_f64 (f64_div (f64_round (f64_mul (SearchHit.score h) (f64_of_Z 10))) (f64_of_Z 10)));
     ("source", json_object
        [("app", JString (SearchHit.app h)); ("dataset", JString (SearchHit.dataset h));
         ("key", JString (source_key h))])]%string.

(** The fields of a request the runner sets; the others are their defaults. *)
Module SearchRequest.
Record t : Type := mk { q : string; limit : nat; app : option string; dataset : option string }.
End SearchRequest.

(** ** Saved searches *)

Module SearchMaterialize.
Record t : Type := mk { app : string; dataset : string }.
End SearchMaterialize.
Module SavedSearch.
Record t : Type := mk {
  id : string; query : string; app : option string; dataset : option string; url : string;
  secret : option string; enabled : bool; materialize : option SearchMaterialize.t;
  created_at : timestamp }.
#[global] Instance eta_saved : Eta t := λ s,
  mk (id s) (query s) (app s) (dataset s) (url s) (secret s) (enabled s) (materialize s) (created_at s).
End SavedSearch.
Abbreviation saved_searches := (list SavedSearch.t).

Definition saved_is (id : string) (s : SavedSearch.t) : bool := String.eqb (SavedSearch.id s) id.
Definition get_saved_search (id : string) (t : saved_searches) : option SavedSearch.t :=
  lookup_by SavedSearch.id id t.
Definition create_saved_search (id : string) (now : timestamp) (query : string)
    (app dataset : option string) (url : string) (secret : option string)
    (materialize : option SearchMaterialize.t) (t : saved_searches) :
    saved_searches * option SavedSearch.t :=
  let t := t ++ [SavedSearch.mk id query app dataset url secret true materialize now] in
  (t, get_saved_search id t).
Definition list_saved_searches (enabled_only : bool) (t : saved_searches) : list SavedSearch.t :=
  order_by (λ a b, SavedSearch.created_at a <=? SavedSearch.created_at b)
    (select_where (λ s, negb enabled_only || SavedSearch.enabled s) t).

(** The keyset order of the page: newest first, then the greater id. *)
Definition saved_before (c : timestamp * string) (s : SavedSearch.t) : bool :=
  (SavedSearch.created_at s <? c.1)
  || ((SavedSearch.created_at s =? c.1) && String.ltb (SavedSearch.id s) c.2).
Definition saved_newest (a b : SavedSearch.t) : bool :=
  (SavedSearch.created_at b <? SavedSearch.created_at a)
  || ((SavedSearch.created_at b =? SavedSearch.created_at a)
      && String.leb (SavedSearch.id b) (SavedSearch.id a)).
Definition list_saved_searches_page (enabled_only : bool) (after : option (timestamp * string))
    (limit : Z) (t : saved_searches) : list SavedSearch.t :=
  sql_limit limit
    (order_by saved_newest
       (select_where (λ s, (negb enabled_only || SavedSearch.enabled s)
                           && match after with Some c => saved_before c s | None => true end) t)).
Definition set_saved_search_enabled (id : string) (on : bool) (t : saved_searches) : saved_searches * bool :=
  (update_where (saved_is id) (λ s, s <| SavedSearch.enabled := on |>) t,
   0 <? rows_affected (saved_is id) t).
(** Two statements: what was seen, then the search. *)
Definition forget_seen (id : string) (seen : list aged) : list aged :=
  delete_where (λ r, String.eqb (aged_key r).1 id) seen.
Definition delete_saved_search (id : string) (seen : list aged) (t : saved_searches) :
    list aged * saved_searches * bool :=
  (forget_seen id seen, delete_where (saved_is id) t, 0 <? rows_affected (saved_is id) t).

(** ** Views *)

Section views.
Context `{JsonRender, JsonParse, JsonEq, Sha256, UnicodeAlphanumeric, Unicode}.
Implicit Types (w : Data.t).

(** The keys hits point at, by their source pair: a [BTreeMap] of lists. *)
Fixpoint push_hit (app dataset key : string) (pairs : list (string * string * list string)) :
    list (string * string * list string) :=
  match pairs with
  | [] => [(app, dataset, [key])]
  | (a, d, keys) :: rest =>
      if String.eqb a app && String.eqb d dataset then (a, d, keys ++ [key]) :: rest
      else if String.ltb app a || (String.eqb app a && String.ltb dataset d)
      then (app, dataset, [key]) :: pairs
      else (a, d, keys) :: push_hit app dataset key rest
  end.
(** [SELECT key, trust .. WHERE app, dataset AND key IN (..)], a slice at a time. *)
Definition pair_trusts w (p : string * string * list string) :
    list (string * string * string * option string) :=
  let '(app, dataset, keys) := p in
  flat_map (λ slice,
    map (λ r, (app, dataset, RecordRow.key r, RecordRow.trust r))
      (select_where (λ r, record_in app dataset r && in_list slice (RecordRow.key r)) (Data.records w)))
    (chunks (rows_per_statement 1 2) keys).
Definition hit_source_trusts (hits : list SearchHit.t) w : list (option string) :=
  let by_pair := foldl (λ m h, push_hit (SearchHit.app h) (SearchHit.dataset h) (source_key h) m) [] hits in
  let found := flat_map (pair_trusts w) by_pair in
  map (λ h, mjoin (snd <$> last (List.filter
               (λ f, bool_decide (f.1 = (SearchHit.app h, SearchHit.dataset h, source_key h))) found)))
    hits.

Definition upsert_many_trusted (app dataset : string) (items : list (string * Json))
    (clock : nat → timestamp) (trust : option string) w : Data.t * result DbError UpsertSummary.t :=
  upsert_many_inner app dataset items clock trust None DerivedPaths_NONE w.

(** The parts of [UpsertSummary] a view adds up. *)
Definition extend_summary (summary part : UpsertSummary.t) : UpsertSummary.t :=
  UpsertSummary.mk (UpsertSummary.new summary ++ UpsertSummary.new part)
    (UpsertSummary.changed summary ++ UpsertSummary.changed part)
    (UpsertSummary.unchanged summary + UpsertSummary.unchanged part)
    (UpsertSummary.removed summary).
(** [clocks g] stamps the chunks of the [g]-th trust group. *)
Fixpoint upsert_groups (app dataset : string) (groups : list TrustGroup)
    (clocks : nat → nat → timestamp) (g : nat) (summary : UpsertSummary.t) w :
    Data.t * result DbError UpsertSummary.t :=
  match groups with
  | [] => (w, Ok summary)
  | (trust, group) :: groups =>
      match upsert_many_trusted app dataset group (clocks g) trust w with
      | (w, Err e) => (w, Err e)
      | (w, Ok part) => upsert_groups app dataset groups clocks (S g) (extend_summary summary part) w
      end
  end.

Definition materialize_search_hits (app dataset : string) (hits : list SearchHit.t) (cap : nat)
    (clocks : nat → nat → timestamp) (now : timestamp) w :
    Data.t * result DbError (UpsertSummary.t * list string) :=
  let hits := take (cap `max` 1) hits in
  let items := map (λ h, (SearchHit.id h, materialize_value h)) hits in
  let groups := group_by_trust items (hit_source_trusts hits w) in
  match upsert_groups app dataset groups clocks 0 UpsertSummary.default w with
  | (w, Err e) => (w, Err e)
  | (w, Ok summary) =>
      match detect_removed app dataset (map fst items) for_self_derived_snapshot now w with
      | (w, Err e) => (w, Err e)
      | (w, Ok removed) => (w, Ok (summary, removed))
      end
  end.
End views.
