(* ===== verification/Fanout.v ===== *)
(** * Fanout: what a landed result sets off

    [finalize_fanout] of [crates/server/src/worker.rs] and the stages it runs: the staleness
    fence, the search documents of the run, the health and contract gates over its deltas,
    the [dataset.changed] events and the triggers, the declared domain events, the saved
    searches with their alerts and views; and the placement of [fanout.rs].  What leaves the
    process is one entry of the trace each; datasets, trigger tables, alerted documents and
    contract verdicts are state.  The search engine's answers, the clocks and the trigger
    plugins are inputs; the health tables stay as they are while one fan-out runs. *)

From stdpp Require Import gmap pretty.
From S2P Require Import Prelude Sql Float64 Json Errors Jobs JobQueue Costs EventLog SourceHealth.
From S2P Require Import Filters Simhash Records ChangePlan Datasets WorkflowEngine Triggers TriggerFire.
From S2P Require Import Catalog Search.

(** ** Where a unit runs *)

Inductive Placement : Type := OffSlot | Inline.
Definition placement (concurrency inflight max_queued : nat) : Placement :=
  if (concurrency =? 0)%nat || (max_queued =? 0)%nat || (max_queued <=? inflight)%nat
  then Inline else OffSlot.

(** ** The fence, and what a run declares *)

Definition fanout_owns_outcome (row : option Job.t) (attempt : Z) : bool :=
  match row with
  | Some j => (Job.attempts j =? attempt) && JobStatus.eqb (Job.status j) Succeeded
  | None => false
  end.

Definition text_of (key : string) (v : Json) : option string := json_get key v ≫= as_str.
Definition index_dataset_specs (result : Json) : list (string * string) :=
  match json_get "index_datasets" result ≫= as_array with
  | Some specs => omap (λ s, a ← text_of "app" s; d ← text_of "dataset" s; Some (a, d)) specs
  | None => []
  end.
Definition run_indexed_apps (job_app : string) (index_specs : list (string * string)) : list string :=
  foldl (λ apps app, if negb (String.eqb app "") && negb (existsb (String.eqb app) apps)
                     then apps ++ [app] else apps) [] (job_app :: map fst index_specs).

Definition same_pair (p q : string * string) : bool := String.eqb p.1 q.1 && String.eqb p.2 q.2.
Definition undeclared_write_namespaces (observed : list (string * string)) (job_app : string)
    (declared_specs : list (string * string)) : list (string * string) :=
  order_by (λ p q, String.ltb p.1 q.1 || (String.eqb p.1 q.1 && String.leb p.2 q.2))
    (foldl (λ out p, if String.eqb p.1 job_app || existsb (same_pair p) declared_specs
                        || existsb (same_pair p) out
                     then out else out ++ [p]) [] observed).
(** [job_revision_counts]: its groups, by their pair. *)
Definition written_pairs (job_id : string) (w : Data.t) : list (string * string) :=
  map (λ r, (RevisionRow.app r, RevisionRow.dataset r))
    (select_where (λ r, bool_decide (Provenance.job_id (RevisionRow.provenance r) = Some job_id))
       (Data.revisions w)).

Definition search_covers_run (search_app : option string) (indexed_apps : list string) : bool :=
  match search_app with
  | None => true
  | Some app => existsb (String.eqb app) indexed_apps
  end.

(** An event as it is published: its kind, app, subject and payload. *)
Definition DomainEvent : Type := string * string * string * Json.
Definition result_domain_events (app : string) (result : Json) : list DomainEvent :=
  let subject :=
    default ""%string
      (match text_of "source" result with Some s => Some s | None => text_of "transaction_id" result end) in
  match json_get "events" result ≫= as_array with
  | Some kinds =>
      omap (λ kind, if String.eqb kind "" then None else Some (kind, app, subject, result))
        (omap as_str kinds)
  | None => []
  end
  ++ match json_get "submitted" result ≫= as_bool, text_of "transaction_id" result with
     | Some true, Some tx => [("transaction.submitted"%string, app, tx, result)]
     | _, _ => []
     end.

(** ** A batch: the run's revisions by their own app and dataset *)

Abbreviation batch := (list (string * string * list Revision.t)).
Fixpoint push_revision (rev : Revision.t) (by_dataset : batch) : batch :=
  match by_dataset with
  | [] => [(Revision.app rev, Revision.dataset rev, [rev])]
  | (app, dataset, revs) :: rest =>
      if String.eqb app (Revision.app rev) && String.eqb dataset (Revision.dataset rev)
      then (app, dataset, revs ++ [rev]) :: rest
      else (app, dataset, revs) :: push_revision rev rest
  end.
Definition group_by_app_dataset (changes : list Revision.t) : batch :=
  foldl (λ m rev, push_revision rev m) [] changes.
Definition entry_pair (e : string * string * list Revision.t) : string * string := e.1.

(** ** What is announced, in order *)

Inductive FanEffect : Type :=
| SnapshotSwept (app : string)
| DocsIndexed (docs : list SearchDoc.t)
| DocsDeleted (ids : list string)
| EventPublished (e : DomainEvent)
| WatchDispatched (watch : Watch.t) (body : Json)
| TriggersFired (scope : DatasetBatch) (by_dataset : batch)
| SearchMatched (search : SavedSearch.t) (job_id : Uuid) (matches : list SearchHit.t)
| LineageReported (specs : list (string * string))
| Announced (job_id : Uuid)   (** the terminal event, then the drain of the outbox *).

Module ContractOutcome.
Record t : Type := mk {
  verdict : ContractVerdict; violations : list Violation; records : nat; removed : nat;
  enforced : bool; job_id : Uuid; checked_at : timestamp }.
End ContractOutcome.

Module Fan.
(** [asked]: the queries sent to the search engine so far. *)
Record t : Type := mk {
  data : Data.t; trig : Trig.t; seen : list aged; verdicts : list (string * ContractOutcome.t);
  asked : nat; effects : list FanEffect }.
#[global] Instance eta_fan : Eta t := λ f,
  mk (data f) (trig f) (seen f) (verdicts f) (asked f) (effects f).
End Fan.
Definition tell (e : FanEffect) (f : Fan.t) : Fan.t := f <| Fan.effects ::= λ l, l ++ [e] |>.

(** What the configuration holds of it. *)
Module FanConfig.
Record t : Type := mk {
  health : SourceHealth.Cfg.t; contracts_enforce : bool; log_enabled : bool;
  max_materialize_results : nat; triggers : TriggersConfig.t }.
End FanConfig.

(** The instants one view reads: its mark, the chunks of its groups, its removals. *)
Module ViewClock.
Record t : Type := mk { mark : timestamp; chunks : nat → nat → timestamp; removal : timestamp }.
End ViewClock.

Section fanout.
Context `{JsonRender, JsonParse, JsonEq, JsonPointer, UuidText, Sha256, UnicodeAlphanumeric, Unicode}.
Context (registry : string → option App) (validate_params : Json → Json → option string)
  (run_plugin : nat → string → string → Json → result Error Json)
  (load_error : EvalScope → option Error)
  (new_v4 : nat → Uuid) (new_run_id : nat → string).
Context (cfg : FanConfig.t) (health : Health.t).
(** [Catalog::load] ([None]: unreadable), the enabled watches, the saved searches, the n-th
    answer of the search engine ([None]: it failed), a serialized instant. *)
Context (catalog_file : option catalog) (watches : list Watch.t) (searches : saved_searches)
  (query : nat → SearchRequest.t → option (list SearchHit.t)) (serialize_ts : timestamp → string).
Context (now : timestamp) (view_clock : nat → ViewClock.t).
Implicit Types (job : Job.t) (f : Fan.t).

Let hcfg := FanConfig.health cfg.

(** ** The gates *)

Definition suppress_unhealthy (by_dataset : batch) : batch :=
  if negb (enforcing_any hcfg) then by_dataset
  else List.filter (λ e, negb (SourceState.suppresses_pushes
                                 (enforced_state hcfg (entry_pair e).1 (entry_pair e).2 health))) by_dataset.

Abbreviation states := (list (string * string * SourceState)).
Definition state_at (app dataset : string) (s : states) : option SourceState :=
  snd <$> List.find (λ e, same_pair e.1 (app, dataset)) s.
Definition enforced_states (pairs : list (string * string)) : states :=
  if negb (enforcing_any hcfg) then []
  else foldl (λ out p, if is_some (state_at p.1 p.2 out) then out
                       else out ++ [(p, enforced_state hcfg p.1 p.2 health)]) [] pairs.
Definition pair_suppresses_pushes (s : states) (app dataset : string) : bool :=
  match state_at app dataset s with Some st => SourceState.suppresses_pushes st | None => false end.

Definition alertable_hits (hits : list SearchHit.t) (s : states) : list SearchHit.t :=
  List.filter (λ h, negb (pair_suppresses_pushes s (SearchHit.app h) (SearchHit.dataset h))) hits.

Definition view_delta_source (data : Json) : option (string * string) :=
  src ← json_get "source" data;
  app ← text_of "app" src; dataset ← text_of "dataset" src; Some (app, dataset).
Definition pushable_view_deltas (changes : list Revision.t) (sources : list (option (string * string)))
    (s : states) : list Revision.t * nat :=
  let held (src : option (string * string)) :=
    match src with Some (app, dataset) => pair_suppresses_pushes s app dataset | None => false end in
  (omap (λ '(rev, src), if held src then None else Some rev) (zip changes sources),
   length (List.filter (λ '(_, src), held src) (zip changes sources))).
Definition delta_source (w : Data.t) (rev : Revision.t) : option (string * string) :=
  match Revision.data rev with
  | Some data => view_delta_source data
  | None =>
      match get_record (Revision.app rev) (Revision.dataset rev) (Revision.key rev) w with
      | Some rec => view_delta_source (Record.data rec)
      | None => None
      end
  end.
Definition gate_view_deltas (w : Data.t) (changes : list Revision.t) : list Revision.t :=
  if negb (enforcing_any hcfg) then changes
  else
    let sources := map (delta_source w) changes in
    (pushable_view_deltas changes sources (enforced_states (omap id sources))).1.

Definition offender_le (a b : string * string * SourceState) : bool :=
  String.ltb a.1.1 b.1.1 || (String.eqb a.1.1 b.1.1 && String.leb a.1.2 b.1.2).
Definition echo_withheld_by (s : states) : option (string * string * SourceState) :=
  head (order_by offender_le (List.filter (λ e, SourceState.skips_search_index e.2) s)).
(** The sources this job was judged on, as [source_runs] lists them. *)
Definition judged_pairs job : list (string * string) :=
  omap (λ run, r ← source (SourceRun.source_id run) health; Some (SourceRow.app r, SourceRow.dataset r))
    (order_by (λ a b, String.leb (SourceRun.source_id a) (SourceRun.source_id b))
       (select_where (λ run, SourceRun.job_id run =? Job.id job) (Health.runs health))).
Definition echo_index_withheld job : bool :=
  if negb (enforcing_any hcfg) then false
  else is_some (echo_withheld_by (enforced_states (judged_pairs job))).

(** One contracted dataset of the batch: its verdict is recorded, a blocked one leaves. *)
Definition is_removed (r : Revision.t) : bool := String.eqb (Revision.change r) "removed".
Definition outcome_of (job : Job.t) (contract : Contract.t) (revs : list Revision.t) : ContractOutcome.t :=
  let records := omap Revision.data (List.filter (λ r, negb (is_removed r)) revs) in
  let removed := length (List.filter is_removed revs) in
  let violations := evaluate contract records removed in
  ContractOutcome.mk (from_violations violations (FanConfig.contracts_enforce cfg)) violations
    (length records) removed (FanConfig.contracts_enforce cfg) (Job.id job) now.
Definition contract_step job (c : catalog) (acc : Fan.t * batch) (e : string * string * list Revision.t) :
    Fan.t * batch :=
  let '(f, kept) := acc in
  let '(app, dataset, revs) := e in
  match contract_for app dataset c with
  | None => (f, kept ++ [e])
  | Some (_, contract) =>
      let outcome := outcome_of job contract revs in
      let f := f <| Fan.verdicts ::= map_insert (app +:+ "/" +:+ dataset)%string outcome |> in
      match ContractOutcome.verdict outcome with
      | Block => (f, kept)
      | Pass | Warn => (f, kept ++ [e])
      end
  end.
Definition enforce_contracts job (by_dataset : batch) f : Fan.t * batch :=
  match catalog_file with
  | None => (f, by_dataset)
  | Some c => foldl (contract_step job c) (f, []) by_dataset
  end.

(** ** Hooks *)

Definition json_int (n : Z) : Json := JNumber (if 0 <=? n then PosInt n else NegInt n).
Definition opt_text (s : option string) : Json := match s with Some s => JString s | None => JNull end.
Definition revision_json (r : Revision.t) : Json :=
  let p := Revision.provenance r in
  json_object
    [("app", JString (Revision.app r)); ("dataset", JString (Revision.dataset r));
     ("key", JString (Revision.key r)); ("revision", json_int (Revision.revision r));
     ("change", JString (Revision.change r)); ("data", default JNull (Revision.data r));
     ("diff", default JNull (Revision.diff r));
     ("created_at", JString (serialize_ts (Revision.created_at r)));
     ("trust", JString (Revision.trust r)); ("job_id", opt_text (Provenance.job_id p));
     ("source_url", opt_text (Provenance.source_url p));
     ("artifact_sha", opt_text (Provenance.artifact_sha p));
     ("rules_hash", opt_text (Provenance.rules_hash p))]%string.
Definition change_payload job (app dataset : string) (revs : list Revision.t) : Json :=
  json_object
    [("event", JString DATASET_CHANGED); ("job_id", JString (uuid_text (Job.id job)));
     ("app", JString app); ("dataset", JString dataset); ("count", JNat (length revs));
     ("changes", JArray (map revision_json revs))]%string.

Definition watch_covers_entry (watch : Watch.t) (app dataset : string) : bool :=
  String.eqb (Watch.app watch) app && Watch.covers watch dataset.
Definition with_watch_id (watch : Watch.t) (payload : Json) : Json :=
  match payload with
  | JObject map => JObject (map_insert "watch_id"%string (JString (Watch.id watch)) map)
  | _ => payload
  end.
Definition legacy_notify_watches (app dataset : string) (payload : Json) f : Fan.t :=
  foldl (λ f watch, tell (WatchDispatched watch (with_watch_id watch payload)) f) f
    (List.filter (λ w, watch_covers_entry w app dataset) (enabled_watches app watches)).
Definition notify_entry job f (e : string * string * list Revision.t) : Fan.t :=
  let '(app, dataset, revs) := e in
  let payload := change_payload job app dataset revs in
  if negb (FanConfig.log_enabled cfg) then legacy_notify_watches app dataset payload f
  else tell (EventPublished (DATASET_CHANGED, app, dataset, payload)) f.
Definition notify_watches job (by_dataset : batch) f : Fan.t :=
  foldl (notify_entry job) f (order_by pair_le by_dataset).

Definition fire_triggers job (scope : DatasetBatch) (by_dataset : batch) f : Fan.t :=
  tell (TriggersFired scope by_dataset)
    (f <| Fan.trig := (fire_dataset_triggers registry validate_params run_plugin load_error new_v4
                         new_run_id (FanConfig.triggers cfg) now job scope by_dataset (Fan.trig f)).1 |>).

Definition load_run_changes job (indexed_apps : list string) (w : Data.t) : list Revision.t :=
  flat_map (λ app, changes_since app None (Job.started_at job) 1000 None w) indexed_apps.

Definition hooks job (indexed_apps : list string) (result : Json) f : Fan.t :=
  match load_run_changes job indexed_apps (Fan.data f) with
  | [] => f
  | changes =>
      let by_dataset := suppress_unhealthy (group_by_app_dataset changes) in
      let '(f, by_dataset) := enforce_contracts job by_dataset f in
      let f := fire_triggers job Run by_dataset (notify_watches job by_dataset f) in
      foldl (λ f e, tell (EventPublished e) f) f (result_domain_events (Job.app job) result)
  end.

(** ** The index *)

Definition dataset_search_docs job (result : Json) (w : Data.t) : list SearchDoc.t * list string :=
  foldl (λ '(docs, deletes) '(app, dataset),
           if SourceState.skips_search_index (enforced_state hcfg app dataset health)
           then (docs, deletes)
           else
             let '(ds, dels) := dataset_docs_from_revisions app dataset
                                  (changes_since app (Some dataset) (Job.started_at job) 100000 None w) in
             (docs ++ ds, deletes ++ dels)) ([], []) (index_dataset_specs result).

Definition index_run job (result : Json) f : Fan.t :=
  let docs := if echo_index_withheld job then [] else search_docs (Job.app job) (Job.id job) now result in
  let f := if sweeps_prior_job_snapshot docs then tell (SnapshotSwept (Job.app job)) f else f in
  let '(dataset_docs, deletes) := dataset_search_docs job result (Fan.data f) in
  let f := tell (DocsIndexed (docs ++ dataset_docs)) f in
  match deletes with [] => f | _ => tell (DocsDeleted deletes) f end.

(** ** Saved searches *)

Definition ask (req : SearchRequest.t) f : Fan.t * option (list SearchHit.t) :=
  (f <| Fan.asked ::= S |>, query (Fan.asked f) req).

Definition materialize_saved_search job (search : SavedSearch.t) (mat : SearchMaterialize.t)
    (clock : ViewClock.t) f : Fan.t :=
  let cap := (FanConfig.max_materialize_results cfg `max` 1)%nat in
  let '(app, dataset) := (SearchMaterialize.app mat, SearchMaterialize.dataset mat) in
  match ask (SearchRequest.mk (SavedSearch.query search) cap (SavedSearch.app search)
               (SavedSearch.dataset search)) f with
  | (f, None) => f
  | (f, Some hits) =>
      match materialize_search_hits app dataset hits cap (ViewClock.chunks clock)
              (ViewClock.removal clock) (Fan.data f) with
      | (w, Err _) => f <| Fan.data := w |>
      | (w, Ok _) =>
          let f := f <| Fan.data := w |> in
          let changes :=
            gate_view_deltas w (changes_since app (Some dataset) (Some (ViewClock.mark clock))
                                  (Z.of_nat cap * 2) None w) in
          match changes with
          | [] => f
          | _ =>
              let by_dataset := suppress_unhealthy (group_by_app_dataset changes) in
              fire_triggers job (View (SavedSearch.id search)) by_dataset
                (notify_watches job by_dataset f)
          end
      end
  end.

(** The alerts of one search: each match it has never alerted on. *)
Definition alert_search job (search : SavedSearch.t) f : Fan.t :=
  match ask (SearchRequest.mk (SavedSearch.query search) 50 (SavedSearch.app search)
               (SavedSearch.dataset search)) f with
  | (f, None) => f
  | (f, Some hits) =>
      let s := enforced_states (map (λ h, (SearchHit.app h, SearchHit.dataset h)) hits) in
      let alertable := alertable_hits hits s in
      match map SearchHit.id alertable with
      | [] => f
      | ids =>
          let '(seen, unseen) := claim_unseen now (SavedSearch.id search) ids (Fan.seen f) in
          let f := f <| Fan.seen := seen |> in
          match unseen with
          | [] => f
          | _ =>
              tell (SearchMatched search (Job.id job)
                      (List.filter (λ h, bool_decide (SearchHit.id h ∈ unseen)) alertable)) f
          end
      end
  end.

Definition search_step job (indexed_apps : list string) f (i : nat) (search : SavedSearch.t) : Fan.t :=
  if negb (search_covers_run (SavedSearch.app search) indexed_apps) then f
  else
    let f := match SavedSearch.materialize search with
             | Some mat => materialize_saved_search job search mat (view_clock i) f
             | None => f
             end in
    alert_search job search f.
Definition notify_saved_searches job (indexed_apps : list string) f : Fan.t :=
  foldl (λ f '(i, search), search_step job indexed_apps f i search) f
    (imap pair (list_saved_searches true searches)).

(** ** One fan-out: [row] is the job as it is read back ([None]: the read failed) *)

Definition finalize_fanout (row : option (option Job.t)) job f : Fan.t :=
  match row with
  | None => f
  | Some row =>
      if negb (fanout_owns_outcome row (Job.attempts job)) then f
      else
        let result := default JNull (row ≫= Job.result) in
        let index_specs := index_dataset_specs result in
        let indexed_apps := run_indexed_apps (Job.app job) index_specs in
        let f := index_run job result f in
        let f := hooks job indexed_apps result f in
        let f := notify_saved_searches job indexed_apps f in
        tell (Announced (Job.id job)) (tell (LineageReported index_specs) f)
  end.
End fanout.
