(* ===== verification/FanoutTheorems.v ===== *)
(** * FanoutTheorems: who hears of a run, and what the index holds after it *)

From stdpp Require Import gmap.
From S2P Require Import Prelude Sql Float64 Json Errors Jobs JobQueue Costs EventLog SourceHealth.
From S2P Require Import Filters Simhash Records ChangePlan Datasets BatchTheorems DatasetTheorems.
From S2P Require Import WorkflowEngine Triggers TriggerFire Catalog Search Fanout.

(** ** Batches *)

Definition of_pair (app dataset : string) (r : Revision.t) : bool :=
  String.eqb (Revision.app r) app && String.eqb (Revision.dataset r) dataset.

Lemma of_pair_true app dataset r : of_pair app dataset r = true ↔ Revision.app r = app ∧ Revision.dataset r = dataset.
Proof. unfold of_pair. by rewrite andb_true_iff, !String.eqb_eq. Qed.

Lemma same_pair_true p q : same_pair p q = true ↔ p = q.
Proof. unfold same_pair. destruct p, q; cbn. rewrite andb_true_iff, !String.eqb_eq. naive_solver. Qed.

(** Each pair once, with its own revisions in order, and none without. *)
Definition groups (b : batch) (changes : list Revision.t) : Prop :=
  NoDup (map entry_pair b)
  ∧ ∀ app dataset revs, (app, dataset, revs) ∈ b ↔ revs = List.filter (of_pair app dataset) changes ∧ revs ≠ [].

Lemma push_revision_pairs rev b p :
  p ∈ map entry_pair (push_revision rev b)
  ↔ p ∈ map entry_pair b ∨ p = (Revision.app rev, Revision.dataset rev).
Proof.
  induction b as [|[[a d] rs] b IH]; cbn; [set_solver|].
  destruct (String.eqb a (Revision.app rev) && String.eqb d (Revision.dataset rev)) eqn:E; cbn.
  - apply andb_true_iff in E as [->%String.eqb_eq ->%String.eqb_eq]. set_solver.
  - rewrite !elem_of_cons, IH. naive_solver.
Qed.

Lemma push_revision_NoDup rev b : NoDup (map entry_pair b) → NoDup (map entry_pair (push_revision rev b)).
Proof.
  induction b as [|[[a d] rs] b IH]; cbn; intros Hn; [repeat constructor; set_solver|].
  apply NoDup_cons in Hn as [Hout Hn].
  destruct (String.eqb a (Revision.app rev) && String.eqb d (Revision.dataset rev)) eqn:E; cbn.
  - by constructor.
  - constructor; [|by apply IH]. rewrite push_revision_pairs. intros [?|He]; [done|].
    cbn in He. injection He as -> ->. by rewrite !String.eqb_refl in E.
Qed.

Lemma push_revision_elem rev b app dataset revs :
  NoDup (map entry_pair b) →
  (app, dataset, revs) ∈ push_revision rev b ↔
    if of_pair app dataset rev
    then (∃ rs, (app, dataset, rs) ∈ b ∧ revs = rs ++ [rev])
         ∨ ((app, dataset) ∉ map entry_pair b ∧ revs = [rev])
    else (app, dataset, revs) ∈ b.
Proof.
  unfold of_pair. induction b as [|[[a d] rs] b IH]; cbn; intros Hn.
  - rewrite list_elem_of_singleton. destruct (_ && _) eqn:E.
    + apply andb_true_iff in E as [->%String.eqb_eq ->%String.eqb_eq].
      split; [intros [= ->]; right; split; [set_solver|done]|].
      intros [(rs & []%elem_of_nil & _)|[_ ->]]; done.
    + split; [|by intros ?%elem_of_nil]. intros [= -> -> ->]. by rewrite !String.eqb_refl in E.
  - apply NoDup_cons in Hn as [Hout Hn]. specialize (IH Hn).
    destruct (String.eqb a (Revision.app rev) && String.eqb d (Revision.dataset rev)) eqn:E.
    + apply andb_true_iff in E as [->%String.eqb_eq ->%String.eqb_eq].
      rewrite elem_of_cons. destruct (_ && _) eqn:E'.
      * apply andb_true_iff in E' as [<-%String.eqb_eq <-%String.eqb_eq]. split.
        -- intros [[= ->]|Hin]; [left; exists rs; split; [by left|done]|].
           destruct Hout. apply list_elem_of_fmap. by exists (Revision.app rev, Revision.dataset rev, revs).
        -- intros [(rs' & [[= ->]|Hin]%elem_of_cons & ->)|[Hno _]]; [by left| |].
           ++ destruct Hout. apply list_elem_of_fmap. by exists (Revision.app rev, Revision.dataset rev, rs').
           ++ destruct Hno. by left.
      * rewrite elem_of_cons.
        split; (intros [[= -> -> ->]|?]; [by rewrite !String.eqb_refl in E'|by right]).
    + rewrite elem_of_cons, IH. destruct (_ && _) eqn:E'.
      * apply andb_true_iff in E' as [<-%String.eqb_eq <-%String.eqb_eq]. split.
        -- intros [[= <- <- ->]|[(rs' & Hin & ->)|[Hno ->]]].
           ++ by rewrite !String.eqb_refl in E.
           ++ left. exists rs'. split; [by right|done].
           ++ right. split; [|done]. intros [[= <- <-]|?]%elem_of_cons; [by rewrite !String.eqb_refl in E|done].
        -- intros [(rs' & [[= <- <- ->]|Hin]%elem_of_cons & ->)|[Hno ->]].
           ++ by rewrite !String.eqb_refl in E.
           ++ right. left. by exists rs'.
           ++ right. right. split; [|done]. intros Hin. apply Hno. by right.
      * by rewrite elem_of_cons.
Qed.

Lemma group_grows changes : ∀ b done_,
  groups b done_ → groups (foldl (λ m rev, push_revision rev m) b changes) (done_ ++ changes).
Proof.
  induction changes as [|rev changes IH]; intros b done_ [Hn Hb]; cbn; [by rewrite app_nil_r|].
  replace (done_ ++ rev :: changes) with ((done_ ++ [rev]) ++ changes) by by rewrite <- app_assoc.
  apply IH. split; [by apply push_revision_NoDup|]. intros app dataset revs.
  rewrite push_revision_elem by done. rewrite List.filter_app. cbn.
  destruct (of_pair app dataset rev) eqn:E; [|by rewrite app_nil_r, Hb].
  assert ((app, dataset) ∈ map entry_pair b ↔ List.filter (of_pair app dataset) done_ ≠ []) as Hin.
  { rewrite list_elem_of_fmap. split.
    - intros ([[a d] rs] & [= -> ->] & Hr). by apply Hb in Hr as [-> ?].
    - intros Hne. exists (app, dataset, List.filter (of_pair app dataset) done_). split; [done|]. by apply Hb. }
  split.
  - intros [(rs & [-> Hne]%Hb & ->)|[Hno ->]]; [split; [done|by destruct (List.filter _ _)]|].
    split; [|done]. destruct (List.filter _ done_) eqn:Ef; [done|]. destruct Hno. by apply Hin.
  - intros [-> _]. destruct (List.filter _ done_) as [|x l] eqn:Ef.
    + right. split; [|done]. by intros ?%Hin.
    + left. exists (x :: l). split; [|done]. apply Hb. by rewrite Ef.
Qed.

Lemma group_groups changes : groups (group_by_app_dataset changes) changes.
Proof.
  apply (group_grows changes [] []). split; [constructor|].
  intros. cbn. split; [by intros ?%elem_of_nil|by intros [-> ?]].
Qed.

(** ** Traces *)

(** A step that only appends entries that satisfy [P]. *)
Definition adds (P : FanEffect → Prop) (f f' : Fan.t) : Prop :=
  ∃ es, Fan.effects f' = Fan.effects f ++ es ∧ Forall P es.

Lemma adds_same P f f' : Fan.effects f' = Fan.effects f → adds P f f'.
Proof. intros He. exists []. by rewrite He, app_nil_r. Qed.
Lemma adds_refl P f : adds P f f.
Proof. by apply adds_same. Qed.
Lemma adds_trans P f1 f2 f3 : adds P f1 f2 → adds P f2 f3 → adds P f1 f3.
Proof.
  intros (a & Ha & HPa) (b & Hb & HPb). exists (a ++ b). rewrite Hb, Ha, app_assoc.
  split; [done|]. by apply Forall_app.
Qed.
Lemma adds_tell P e f : P e → adds P f (tell e f).
Proof. intros HP. exists [e]. split; [done|by constructor]. Qed.
Lemma adds_foldl {A} P (step : Fan.t → A → Fan.t) l : ∀ f,
  (∀ f x, x ∈ l → adds P f (step f x)) → adds P f (foldl step f l).
Proof.
  induction l as [|x l IH]; intros f Hs; cbn; [apply adds_refl|].
  eapply adds_trans; [apply Hs; by left|]. apply IH. intros f' y Hy. apply Hs. by right.
Qed.
Lemma adds_weaken (P Q : FanEffect → Prop) f f' : (∀ e, P e → Q e) → adds P f f' → adds Q f f'.
Proof. intros HPQ (es & He & HP). exists es. split; [done|]. by eapply Forall_impl. Qed.
#[local] Hint Resolve adds_refl adds_tell adds_same : core.

(** The (search, document) pairs a trace alerted on. *)
Definition alert_of (e : FanEffect) : list (string * string) :=
  match e with SearchMatched s _ hits => map (λ h, (SavedSearch.id s, SearchHit.id h)) hits | _ => [] end.
Definition alerts (f : Fan.t) : list (string * string) := flat_map alert_of (Fan.effects f).

(** ** Alerts *)

Definition seen_keys (f : Fan.t) : list (string * string) := map aged_key (Fan.seen f).

Lemma claim_unseen_spec now sid ids : ∀ t,
  let '(t', unseen) := claim_unseen now sid ids t in
  map aged_key t' = map aged_key t ++ map (pair sid) unseen
  ∧ NoDup unseen ∧ ∀ d, d ∈ unseen → d ∈ ids ∧ (sid, d) ∉ map aged_key t.
Proof.
  induction ids as [|d ids IH]; intros t; cbn [claim_unseen].
  { split_and!; [by rewrite app_nil_r|constructor|by intros ? ?%elem_of_nil]. }
  destruct (existsb _ t) eqn:E.
  - specialize (IH t). destruct (claim_unseen now sid ids t) as [t' unseen]. destruct IH as (Hk & Hn & Hu).
    split_and!; [done|done|]. intros d' Hd. destruct (Hu d' Hd). split; [by right|done].
  - specialize (IH (t ++ [mkAged (sid, d) now])).
    destruct (claim_unseen now sid ids (t ++ _)) as [t' unseen]. destruct IH as (Hk & Hn & Hu).
    assert ((sid, d) ∉ map aged_key t) as Hout.
    { intros (r & Hr & Hin)%list_elem_of_fmap. apply not_true_iff_false in E. destruct E.
      apply existsb_exists. exists r. split; [by apply list_elem_of_In|by apply bool_decide_eq_true]. }
    rewrite map_app in Hk. cbn in Hk. split_and!.
    + rewrite Hk. cbn. by rewrite <- app_assoc.
    + constructor; [|done]. intros Hd. destruct (Hu d Hd) as [_ Hno]. apply Hno. rewrite map_app. set_solver.
    + intros d' [->|Hd]%elem_of_cons; [split; [by left|done]|].
      destruct (Hu d' Hd) as [? Hno]. split; [by right|]. intros ?. apply Hno. rewrite map_app. set_solver.
Qed.

Section alerts.
Context (seen0 : list (string * string)).

(** Every alert was claimed, once, and was not there at the start. *)
Definition claimed (f : Fan.t) : Prop :=
  NoDup (alerts f) ∧ (∀ p, p ∈ seen0 → p ∈ seen_keys f)
  ∧ ∀ p, p ∈ alerts f → p ∈ seen_keys f ∧ p ∉ seen0.

Lemma claimed_keeps f f' : Fan.seen f' = Fan.seen f → adds (λ e, alert_of e = []) f f' → claimed f → claimed f'.
Proof.
  intros Hs (es & He & Hn) Hc.
  assert (alerts f' = alerts f) as Ha.
  { unfold alerts. rewrite He, flat_map_app. replace (flat_map alert_of es) with (@nil (string * string)).
    - by rewrite app_nil_r.
    - clear He. induction Hn as [|e es Hnil _ IH]; [done|]. cbn. rewrite Hnil. exact IH. }
  unfold claimed, seen_keys. by rewrite Ha, Hs.
Qed.

Lemma claimed_alert f now ids (s : SavedSearch.t) job_id hits :
  NoDup (map SearchHit.id hits) →
  claimed f →
  let '(seen, unseen) := claim_unseen now (SavedSearch.id s) ids (Fan.seen f) in
  (∀ d, d ∈ map SearchHit.id hits → d ∈ unseen) →
  claimed (tell (SearchMatched s job_id hits) (f <| Fan.seen := seen |>)).
Proof.
  intros Hn (Hnd & Hsub & Hin). pose proof (claim_unseen_spec now (SavedSearch.id s) ids (Fan.seen f)) as Hc.
  destruct (claim_unseen _ _ _ _) as [seen unseen]. destruct Hc as (Hk & Hnu & Hu). intros Hh.
  set (f' := tell _ _).
  assert (alerts f' = alerts f ++ map (λ h, (SavedSearch.id s, SearchHit.id h)) hits) as Ha.
  { unfold alerts, f'. cbn [tell]. change (Fan.effects (tell ?e ?g)) with (Fan.effects g ++ [e]).
    rewrite flat_map_app. cbn. by rewrite app_nil_r. }
  assert (seen_keys f' = seen_keys f ++ map (pair (SavedSearch.id s)) unseen) as Hkeys by exact Hk.
  assert (∀ p, p ∈ map (λ h, (SavedSearch.id s, SearchHit.id h)) hits →
    p.1 = SavedSearch.id s ∧ p.2 ∈ unseen) as Hnew.
  { intros p (h & -> & Hm)%list_elem_of_fmap. split; [done|]. apply Hh. cbn. apply list_elem_of_fmap. eauto. }
  split_and!.
  - rewrite Ha. apply NoDup_app. split_and!; [done| |].
    + intros p Hp Hp'. destruct (Hnew p Hp') as [E Hm]. destruct (Hin p Hp) as [Hp1 _].
      destruct (Hu _ Hm) as [_ Hno]. apply Hno. by rewrite <- E, <- surjective_pairing.
    + clear -Hn. induction hits as [|h hits IH]; cbn in *; [constructor|].
      apply NoDup_cons in Hn as [Hout Hn]. constructor; [|by apply IH].
      intros (h' & [= E] & Hin)%list_elem_of_fmap. apply Hout, list_elem_of_fmap. eauto.
  - intros p Hp. rewrite Hkeys. apply elem_of_app. left. by apply Hsub.
  - intros p. rewrite Ha, Hkeys, !elem_of_app. intros [Hp|Hp].
    + destruct (Hin p Hp). split; [by left|done].
    + destruct (Hnew p Hp) as [E Hm]. split.
      * right. apply list_elem_of_fmap. exists p.2. split; [by rewrite <- E, <- surjective_pairing|done].
      * intros Hs. apply Hsub in Hs. destruct (Hu _ Hm) as [_ Hno]. apply Hno.
        by rewrite <- E, <- surjective_pairing.
Qed.
End alerts.

Section gates.
Context `{JsonRender, JsonParse, JsonEq, JsonPointer, UuidText, Sha256, UnicodeAlphanumeric, Unicode}.
Context (registry : string → option App) (validate_params : Json → Json → option string)
  (run_plugin : nat → string → string → Json → result Error Json)
  (load_error : EvalScope → option Error)
  (new_v4 : nat → Uuid) (new_run_id : nat → string).
Context (cfg : FanConfig.t) (health : Health.t).
Context (catalog_file : option catalog) (watches : list Watch.t) (searches : saved_searches)
  (query : nat → SearchRequest.t → option (list SearchHit.t)) (serialize_ts : timestamp → string).
Context (now : timestamp) (view_clock : nat → ViewClock.t).
Implicit Types (job : Job.t) (f : Fan.t).

#[local] Abbreviation hcfg := (FanConfig.health cfg).
#[local] Abbreviation suppress := (suppress_unhealthy cfg health).
#[local] Abbreviation fire := (fire_triggers registry validate_params run_plugin load_error new_v4 new_run_id cfg now).
#[local] Abbreviation notify_all := (notify_watches cfg watches serialize_ts).
#[local] Abbreviation run_hooks :=
  (hooks registry validate_params run_plugin load_error new_v4 new_run_id cfg health catalog_file watches serialize_ts now).
#[local] Abbreviation run_fanout :=
  (finalize_fanout registry validate_params run_plugin load_error new_v4 new_run_id cfg health
     catalog_file watches searches query serialize_ts now view_clock).

(** The source may push: it is not armed, or its health does not suppress. *)
Definition trusted (app dataset : string) : Prop :=
  SourceState.suppresses_pushes (enforced_state hcfg app dataset health) = false.
(** The dataset's declared contract is enforced and these revisions violate it. *)
Definition blocked job (app dataset : string) (revs : list Revision.t) : Prop :=
  ∃ c s k, catalog_file = Some c ∧ contract_for app dataset c = Some (s, k)
    ∧ ContractOutcome.verdict (outcome_of cfg now job k revs) = Block.

Lemma disarmed_trusted app dataset : enforcing_any hcfg = false → trusted app dataset.
Proof.
  unfold trusted, enforced_state, armed, armed_source, enforcing_any, enforcement_armed,
    enforcement_armed_anywhere. intros Hd.
  destruct (Cfg.enabled hcfg); [|done]. cbn in *. apply orb_false_iff in Hd as [-> Hs].
  apply negb_false_iff, bool_decide_eq_true in Hs. by rewrite Hs.
Qed.

Lemma elem_of_suppress (b : batch) app dataset revs :
  (app, dataset, revs) ∈ suppress b ↔ (app, dataset, revs) ∈ b ∧ trusted app dataset.
Proof.
  unfold suppress_unhealthy. destruct (enforcing_any hcfg) eqn:E; cbn.
  - rewrite elem_of_filter_bool. cbn. by rewrite negb_true_iff.
  - split; [|tauto]. intros Hin. split; [done|by apply disarmed_trusted].
Qed.
Lemma suppress_NoDup (b : batch) : NoDup (map entry_pair b) → NoDup (map entry_pair (suppress b)).
Proof.
  intros Hn. unfold suppress_unhealthy. case_match; [done|]. by apply NoDup_select_keys.
Qed.

(** *** Contracts *)

Definition passes job (c : catalog) (e : string * string * list Revision.t) : bool :=
  match contract_for e.1.1 e.1.2 c with
  | Some (_, k) =>
      match ContractOutcome.verdict (outcome_of cfg now job k e.2) with Block => false | _ => true end
  | None => true
  end.
Definition quiet f f' : Prop :=
  Fan.effects f' = Fan.effects f ∧ Fan.data f' = Fan.data f ∧ Fan.seen f' = Fan.seen f.

Lemma contract_step_keeps job c f kept e :
  quiet f (contract_step cfg now job c (f, kept) e).1
  ∧ (contract_step cfg now job c (f, kept) e).2 = kept ++ if passes job c e then [e] else [].
Proof.
  destruct e as [[a d] rs]. unfold contract_step, passes, quiet. cbn [fst snd].
  destruct (contract_for a d c) as [[s k]|]; [|done].
  destruct (ContractOutcome.verdict _); cbn [fst snd]; by rewrite ?app_nil_r.
Qed.

Lemma contract_walk job c l : ∀ f kept,
  quiet f (foldl (contract_step cfg now job c) (f, kept) l).1
  ∧ (foldl (contract_step cfg now job c) (f, kept) l).2 = kept ++ List.filter (passes job c) l.
Proof.
  induction l as [|e l IH]; intros f kept; [cbn; by rewrite app_nil_r|]. cbn [foldl List.filter].
  destruct (contract_step_keeps job c f kept e) as [(He & Hd & Hs) Hk].
  destruct (contract_step cfg now job c (f, kept) e) as [f' kept'].
  destruct (IH f' kept') as [(He' & Hd' & Hs') ->]. cbn [fst snd] in *. subst kept'.
  split; [unfold quiet; by rewrite He', Hd', Hs'|]. rewrite <- app_assoc. by destruct (passes job c e).
Qed.

Lemma contracts_keep job (b : batch) f :
  let r := enforce_contracts cfg catalog_file now job b f in
  quiet f r.1
  ∧ (∀ app dataset revs, (app, dataset, revs) ∈ r.2 ↔ (app, dataset, revs) ∈ b ∧ ¬ blocked job app dataset revs)
  ∧ (NoDup (map entry_pair b) → NoDup (map entry_pair r.2)).
Proof.
  cbn. unfold enforce_contracts, blocked. destruct catalog_file as [c|].
  - destruct (contract_walk job c b f []) as [Hq ->]. cbn [app].
    split_and!; [done| |by apply NoDup_select_keys].
    intros app dataset revs. rewrite elem_of_filter_bool. apply and_iff_compat_l. unfold passes. cbn [fst snd].
    destruct (contract_for app dataset c) as [[s k]|] eqn:E.
    + destruct (ContractOutcome.verdict _) eqn:V; split; try done.
      * intros _ (? & ? & ? & [= <-] & E' & V'). congruence.
      * intros _ (? & ? & ? & [= <-] & E' & V'). congruence.
      * intros Hno. destruct Hno. by exists c, s, k.
    + split; [|done]. intros _ (? & ? & ? & [= <-] & E' & _). congruence.
  - split_and!; try done. intros app dataset revs. split; [|tauto]. intros Hin. split; [done|].
    by intros (? & ? & ? & ? & _).
Qed.

(** *** What one batch announces *)

Definition notice job (e : string * string * list Revision.t) : list FanEffect :=
  let payload := change_payload serialize_ts job e.1.1 e.1.2 e.2 in
  if FanConfig.log_enabled cfg then [EventPublished (DATASET_CHANGED, e.1.1, e.1.2, payload)]
  else map (λ w, WatchDispatched w (with_watch_id w payload))
         (List.filter (λ w, watch_covers_entry w e.1.1 e.1.2) (enabled_watches e.1.1 watches)).
Definition notices job (b : batch) : list FanEffect := flat_map (notice job) (order_by pair_le b).

Lemma tell_all {A} (g : A → FanEffect) l : ∀ f,
  let f' := foldl (λ f x, tell (g x) f) f l in
  Fan.effects f' = Fan.effects f ++ map g l ∧ Fan.data f' = Fan.data f ∧ Fan.seen f' = Fan.seen f.
Proof.
  induction l as [|x l IH]; intros f; cbn; [by rewrite app_nil_r|].
  destruct (IH (tell (g x) f)) as (-> & -> & ->). cbn. by rewrite <- app_assoc.
Qed.

Lemma notify_effects job b f :
  Fan.effects (notify_all job b f) = Fan.effects f ++ notices job b
  ∧ Fan.data (notify_all job b f) = Fan.data f ∧ Fan.seen (notify_all job b f) = Fan.seen f.
Proof.
  unfold notify_watches, notices. generalize (order_by pair_le b) as l. clear b.
  intros l. revert f. induction l as [|e l IH]; intros f; cbn; [by rewrite app_nil_r|].
  destruct (IH (notify_entry cfg watches serialize_ts job f e)) as (-> & -> & ->).
  destruct e as [[a d] rs]. unfold notify_entry, notice. cbn [fst snd].
  destruct (FanConfig.log_enabled cfg); cbn [negb]; [cbn; by rewrite <- app_assoc|].
  unfold legacy_notify_watches.
  destruct (tell_all (λ w, WatchDispatched w (with_watch_id w (change_payload serialize_ts job a d rs)))
    (List.filter (λ w, watch_covers_entry w a d) (enabled_watches a watches)) f) as (-> & -> & ->).
  by rewrite <- app_assoc.
Qed.

Lemma fire_effects job scope b f :
  Fan.effects (fire job scope b f) = Fan.effects f ++ [TriggersFired scope b]
  ∧ Fan.data (fire job scope b f) = Fan.data f ∧ Fan.seen (fire job scope b f) = Fan.seen f.
Proof. done. Qed.

Lemma hooks_spec job indexed_apps result f :
  let changes := load_run_changes job indexed_apps (Fan.data f) in
  let f' := run_hooks job indexed_apps result f in
  changes ≠ [] → ∃ b : batch,
    Fan.effects f'
    = Fan.effects f ++ notices job b ++ [TriggersFired Run b]
        ++ map EventPublished (result_domain_events (Job.app job) result)
    ∧ Fan.seen f' = Fan.seen f
    ∧ NoDup (map entry_pair b)
    ∧ ∀ app dataset revs, (app, dataset, revs) ∈ b ↔
        revs = List.filter (of_pair app dataset) changes ∧ revs ≠ []
        ∧ trusted app dataset ∧ ¬ blocked job app dataset revs.
Proof.
  cbv zeta. unfold hooks. destruct (load_run_changes job indexed_apps (Fan.data f)) as [|rev revs]; [done|].
  intros _. set (changes := rev :: revs). clearbody changes.
  destruct (group_groups changes) as [Hn Hg].
  destruct (contracts_keep job (suppress (group_by_app_dataset changes)) f) as ((He & _ & Hs) & Hb & Hd).
  destruct (enforce_contracts _ _ _ _ _ f) as [f1 b]. cbn [fst snd] in *. exists b.
  set (f2 := fire job Run b (notify_all job b f1)).
  destruct (tell_all EventPublished (result_domain_events (Job.app job) result) f2) as (He2 & _ & Hs2).
  destruct (notify_effects job b f1) as (Hne & _ & Hns). split_and!.
  - rewrite He2. unfold f2. rewrite (proj1 (fire_effects _ _ _ _)), Hne, He. by rewrite <- !app_assoc.
  - by rewrite Hs2, <- Hs, <- Hns.
  - by apply Hd, suppress_NoDup.
  - intros app dataset revs'. rewrite Hb, elem_of_suppress, Hg. tauto.
Qed.


(** *** Nothing leaves for a source that may not push *)

(** What each entry of the trace may carry. *)
Definition gated job (result : Json) (e : FanEffect) : Prop :=
  match e with
  | EventPublished ev =>
      ev ∈ result_domain_events (Job.app job) result
      ∨ ∃ app dataset payload, ev = (DATASET_CHANGED, app, dataset, payload) ∧ trusted app dataset
  | WatchDispatched watch _ =>
      ∃ dataset, watch_covers_entry watch (Watch.app watch) dataset = true ∧ trusted (Watch.app watch) dataset
  | TriggersFired scope b =>
      ∀ app dataset revs, (app, dataset, revs) ∈ b → trusted app dataset
        ∧ (scope ≠ Run → ∀ rev data src, rev ∈ revs → Revision.data rev = Some data →
             view_delta_source data = Some src → trusted src.1 src.2)
  | SearchMatched _ _ hits => ∀ h, h ∈ hits → trusted (SearchHit.app h) (SearchHit.dataset h)
  | DocsIndexed docs =>
      ∀ d, d ∈ docs →
        trusted (SearchDoc.app d) (SearchDoc.dataset d)
        ∨ (d ∈ search_docs (Job.app job) (Job.id job) now result
           ∧ ∀ p, p ∈ judged_pairs health job → trusted p.1 p.2)
  | _ => True
  end.

(** An entry that alerts on nothing, besides. *)
Definition silent job result e : Prop := gated job result e ∧ alert_of e = [].

Lemma state_at_app p q s t :
  state_at p.1 p.2 (s ++ [(q, t)])
  = match state_at p.1 p.2 s with Some x => Some x | None => if same_pair q p then Some t else None end.
Proof.
  destruct p as [a d]. unfold state_at. cbn [fst snd].
  induction s as [|e s IH]; cbn; [by destruct (same_pair q (a, d))|]. by destruct (same_pair e.1 (a, d)).
Qed.
Lemma state_at_mono p q s t x : state_at p.1 p.2 s = Some x → state_at p.1 p.2 (s ++ [(q, t)]) = Some x.
Proof. intros Hx. by rewrite state_at_app, Hx. Qed.

(** The states read for a list of pairs are those of each of its pairs. *)
Lemma enforced_states_at pairs p : p ∈ pairs → enforcing_any hcfg = true →
  state_at p.1 p.2 (enforced_states cfg health pairs) = Some (enforced_state hcfg p.1 p.2 health).
Proof.
  intros Hp Ha. unfold enforced_states. rewrite Ha. cbn [negb].
  set (step := λ (out : list (string * string * SourceState)) (q : string * string), _).
  assert (∀ out q x, state_at p.1 p.2 out = Some x → state_at p.1 p.2 (step out q) = Some x) as Hmono.
  { intros out q x Hx. unfold step. case_match; [done|]. by apply state_at_mono. }
  assert (∀ l out x, state_at p.1 p.2 out = Some x → state_at p.1 p.2 (foldl step out l) = Some x) as Hkeep.
  { intros l. induction l as [|q l IH]; intros out x Hx; [done|]. cbn. apply IH. by apply Hmono. }
  assert (∀ l out, (∀ x, state_at p.1 p.2 out = Some x → x = enforced_state hcfg p.1 p.2 health) → p ∈ l →
    state_at p.1 p.2 (foldl step out l) = Some (enforced_state hcfg p.1 p.2 health)) as Hgo.
  { induction l as [|q l IH]; intros out Hout Hin; [by apply elem_of_nil in Hin|]. cbn [foldl].
    destruct (base.decide (p = q)) as [<-|Hne].
    - apply Hkeep. unfold step. destruct (state_at p.1 p.2 out) as [x|] eqn:E; cbn [is_some].
      + rewrite E. by rewrite (Hout x eq_refl).
      + rewrite state_at_app, E. unfold same_pair. by rewrite !String.eqb_refl.
    - apply elem_of_cons in Hin as [?|Hin]; [done|]. apply IH; [|done].
      intros x. unfold step. destruct (is_some _); [apply Hout|].
      rewrite state_at_app. destruct (state_at p.1 p.2 out) as [y|] eqn:E.
      + intros [= <-]. by apply Hout.
      + case_match eqn:Es; [|done]. by apply same_pair_true in Es. }
  by apply Hgo.
Qed.

Lemma pair_trusted pairs p : p ∈ pairs →
  pair_suppresses_pushes (enforced_states cfg health pairs) p.1 p.2 = false → trusted p.1 p.2.
Proof.
  intros Hp. destruct (enforcing_any hcfg) eqn:E; [|intros _; by apply disarmed_trusted].
  unfold pair_suppresses_pushes. by rewrite (enforced_states_at _ _ Hp E).
Qed.

(** *** The stages *)

Lemma skips_suppresses st : SourceState.skips_search_index st = SourceState.suppresses_pushes st.
Proof. by destruct st. Qed.

Lemma echo_judged job p : echo_index_withheld cfg health job = false → p ∈ judged_pairs health job → trusted p.1 p.2.
Proof.
  unfold echo_index_withheld, echo_withheld_by. intros Hw Hp.
  destruct (enforcing_any hcfg) eqn:Ha; [|by apply disarmed_trusted]. cbn [negb] in Hw.
  pose proof (enforced_states_at _ _ Hp Ha) as Hs. unfold state_at in Hs.
  destruct (List.find _ _) as [e|] eqn:Ef in Hs; [|done]. cbn in Hs. injection Hs as Hs.
  apply find_some in Ef as [Hin _]. unfold trusted. rewrite <- Hs, <- skips_suppresses.
  destruct (SourceState.skips_search_index e.2) eqn:Ek; [|done]. exfalso.
  destruct (head _) eqn:Eh in Hw; [done|]. apply head_order_by_None in Eh.
  assert (e ∈ List.filter (λ e, SourceState.skips_search_index e.2) (enforced_states cfg health (judged_pairs health job))) as Hf.
  { apply elem_of_filter_bool. split; [by apply list_elem_of_In|done]. }
  rewrite Eh in Hf. by apply elem_of_nil in Hf.
Qed.

Lemma docs_of_pair app dataset revs d :
  d ∈ (dataset_docs_from_revisions app dataset revs).1 → SearchDoc.app d = app ∧ SearchDoc.dataset d = dataset.
Proof.
  unfold dataset_docs_from_revisions.
  assert (∀ l acc, (∀ d, d ∈ acc.1.1 → SearchDoc.app d = app ∧ SearchDoc.dataset d = dataset) →
    d ∈ (foldl (doc_step app dataset) acc l).1.1 → SearchDoc.app d = app ∧ SearchDoc.dataset d = dataset) as Hgo.
  { induction l as [|rev l IH]; intros [[docs dels] seen]; cbn [foldl]; [naive_solver|].
    intros Hacc. apply IH. unfold doc_step. cbn [fst] in *.
    case_match; [done|]. case_match; [done|]. case_match; [|done]. cbn [fst].
    intros d' [?| ->%list_elem_of_singleton]%elem_of_app; [by apply Hacc|done]. }
  apply Hgo. by intros ? ?%elem_of_nil.
Qed.

Lemma dataset_docs_trusted job result w d :
  d ∈ (dataset_search_docs cfg health job result w).1 → trusted (SearchDoc.app d) (SearchDoc.dataset d).
Proof.
  unfold dataset_search_docs. set (step := λ '(docs, deletes) '(app, dataset), _).
  assert (∀ l acc, (∀ d, d ∈ acc.1 → trusted (SearchDoc.app d) (SearchDoc.dataset d)) →
    d ∈ (foldl step acc l).1 → trusted (SearchDoc.app d) (SearchDoc.dataset d)) as Hgo.
  { induction l as [|[app dataset] l IH]; intros [docs dels]; cbn [foldl]; [naive_solver|].
    intros Hacc. apply IH. unfold step. cbn [fst] in *.
    destruct (SourceState.skips_search_index _) eqn:Es; [done|].
    destruct (dataset_docs_from_revisions _ _ _) as [ds dels'] eqn:Ed. cbn [fst].
    intros d' [?|Hd]%elem_of_app; [by apply Hacc|].
    apply (f_equal fst) in Ed. cbn in Ed. rewrite <- Ed in Hd. apply docs_of_pair in Hd as [-> ->].
    unfold trusted. by rewrite <- skips_suppresses. }
  apply Hgo. by intros ? ?%elem_of_nil.
Qed.

#[local] Hint Extern 1 (adds _ _ (tell _ _)) => apply adds_tell : core.

Lemma index_gated job result f : adds (silent job result) f (index_run cfg health now job result f).
Proof.
  unfold index_run.
  set (docs := if echo_index_withheld cfg health job then [] else search_docs _ _ _ _).
  set (f1 := if sweeps_prior_job_snapshot docs then _ else f).
  assert (adds (silent job result) f f1) as Hf1 by (unfold f1; case_match; [by apply adds_tell|apply adds_refl]).
  destruct (dataset_search_docs _ _ _ _ _) as [ds dels] eqn:Ed.
  eapply adds_trans; [exact Hf1|]. eapply (adds_trans _ _ (tell (DocsIndexed (docs ++ ds)) f1)).
  - apply adds_tell. split; [|done]. cbn. intros d [Hd|Hd]%elem_of_app.
    + right. unfold docs in Hd. destruct (echo_index_withheld cfg health job) eqn:E; [by apply elem_of_nil in Hd|].
      split; [done|]. intros p. by apply echo_judged.
    + left. apply (f_equal fst) in Ed. cbn in Ed. rewrite <- Ed in Hd. by apply dataset_docs_trusted in Hd.
  - case_match; [apply adds_refl|by apply adds_tell].
Qed.

Lemma notices_gated job result (b : batch) e :
  (∀ app dataset revs, (app, dataset, revs) ∈ b → trusted app dataset) →
  e ∈ notices job b → silent job result e.
Proof.
  intros Hb (x & Hx & He)%list_elem_of_In%in_flat_map. apply list_elem_of_In, elem_of_order_by in Hx.
  destruct x as [[a d] rs]. specialize (Hb _ _ _ Hx). unfold notice in He. cbn [fst snd] in He.
  destruct (FanConfig.log_enabled cfg).
  - destruct He as [<-|[]]. split; [|done]. cbn. right. eauto.
  - apply list_elem_of_In, list_elem_of_fmap in He as (w & -> & Hw). apply elem_of_filter_bool in Hw as [_ Hw].
    split; [|done]. cbn. exists d. unfold watch_covers_entry in *. apply andb_true_iff in Hw as [->%String.eqb_eq ->].
    by rewrite String.eqb_refl.
Qed.

Lemma hooks_gated job indexed_apps result f : adds (silent job result) f (run_hooks job indexed_apps result f).
Proof.
  pose proof (hooks_spec job indexed_apps result f) as Hsome. cbv zeta in Hsome.
  destruct (load_run_changes job indexed_apps (Fan.data f)) as [|x l] eqn:El.
  { unfold hooks. rewrite El. apply adds_refl. }
  destruct Hsome as (b & He & _ & _ & Hb); [done|].
  assert (∀ app dataset revs, (app, dataset, revs) ∈ b → trusted app dataset) as Ht
    by (intros app dataset revs Hin; apply Hb in Hin; tauto).
  eexists. split; [exact He|]. rewrite !Forall_app. split_and!.
  - apply Forall_forall. intros e. by apply notices_gated.
  - constructor; [|constructor]. split; [|done]. intros app dataset revs Hin. split; [by eapply Ht|done].
  - apply Forall_forall. intros e (ev & -> & Hin)%list_elem_of_fmap. split; [by left|done].
Qed.

Lemma omap_zip_elem {A B} (p : B → bool) (l : list A) : ∀ (k : list B) x,
  x ∈ omap (λ '(a, b), if p b then None else Some a) (zip l k) → ∃ i b, l !! i = Some x ∧ k !! i = Some b ∧ p b = false.
Proof.
  induction l as [|a l IH]; intros [|b k] x Hx; cbn in Hx; try by apply elem_of_nil in Hx.
  destruct (p b) eqn:E.
  - destruct (IH _ _ Hx) as (i & ? & ? & ? & ?). by exists (S i); eauto.
  - apply elem_of_cons in Hx as [->|Hx]; [by exists 0%nat, b|].
    destruct (IH _ _ Hx) as (i & ? & ? & ? & ?). by exists (S i); eauto.
Qed.

Lemma gated_deltas w changes rev data src :
  rev ∈ gate_view_deltas cfg health w changes → Revision.data rev = Some data →
  view_delta_source data = Some src → trusted src.1 src.2.
Proof.
  unfold gate_view_deltas. destruct (enforcing_any hcfg) eqn:Ha; [|intros; by apply disarmed_trusted].
  cbn [negb]. unfold pushable_view_deltas. cbn [fst]. intros Hin Hd Hs.
  destruct (omap_zip_elem _ _ _ _ Hin) as (i & o & Hl & Hk & Hp). cbv beta in Hp.
  rewrite list_lookup_fmap, Hl in Hk. cbn in Hk. injection Hk as <-.
  unfold delta_source in Hp. rewrite Hd, Hs in Hp. destruct src as [a d].
  apply (pair_trusted (omap id (map (delta_source w) changes)) (a, d)); [|exact Hp].
  apply list_elem_of_omap. exists (Some (a, d)). split; [|done].
  apply list_elem_of_fmap. exists rev. split; [|by eapply list_elem_of_lookup_2].
  unfold delta_source. by rewrite Hd, Hs.
Qed.

Lemma view_gated job result search mat clock f :
  adds (silent job result) f
    (materialize_saved_search registry validate_params run_plugin load_error new_v4 new_run_id cfg health
       watches query serialize_ts now job search mat clock f).
Proof.
  unfold materialize_saved_search. destruct (ask query _ f) as [f1 o] eqn:E.
  injection E as <- <-. destruct (query _ _) as [hits|]; [|by apply adds_same].
  destruct (materialize_search_hits _ _ _ _ _ _ _) as [w [r|]]; [|by apply adds_same].
  destruct (gate_view_deltas cfg health w _) as [|x l] eqn:Eg; [by apply adds_same|]. rewrite <- Eg.
  set (changes := gate_view_deltas cfg health w _) in *. set (b := suppress (group_by_app_dataset changes)).
  set (f2 := (f <| Fan.asked ::= S |>) <| Fan.data := w |>).
  eapply (adds_trans _ _ f2); [by apply adds_same|].
  assert (∀ app dataset revs, (app, dataset, revs) ∈ b →
    trusted app dataset ∧ ∀ rev, rev ∈ revs → rev ∈ changes) as Hb.
  { intros app dataset revs [Hin Ht]%elem_of_suppress. split; [done|].
    apply (proj2 (group_groups changes)) in Hin as [-> _]. intros rev. rewrite elem_of_filter_bool. tauto. }
  exists (notices job b ++ [TriggersFired (View (SavedSearch.id search)) b]). split.
  { change (fire_triggers _ _ _ _ _ _ _ _ _ _ _ _) with (fire job (View (SavedSearch.id search)) b (notify_all job b f2)).
    rewrite (proj1 (fire_effects _ _ _ _)), (proj1 (notify_effects _ _ _)). by rewrite <- app_assoc. }
  rewrite Forall_app. split.
  - apply Forall_forall. intros e. apply notices_gated. intros app dataset revs Hin. by apply Hb in Hin as [].
  - constructor; [|constructor]. split; [|done]. intros app dataset revs Hin.
    destruct (Hb _ _ _ Hin) as [Ht Hrevs].
    split; [done|]. intros _ rev data src Hr Hd Hs. eapply gated_deltas; [|exact Hd|exact Hs]. by apply Hrevs.
Qed.

Lemma alert_gated job result search f :
  adds (gated job result) f (alert_search cfg health query now job search f).
Proof.
  unfold alert_search. destruct (ask query _ f) as [f1 o] eqn:E. injection E as <- <-.
  destruct (query _ _) as [hits|]; [|by apply adds_same].
  set (alertable := alertable_hits _ _).
  assert (∀ h, h ∈ alertable → trusted (SearchHit.app h) (SearchHit.dataset h)) as Ht.
  { intros h [Hh Hp]%elem_of_filter_bool. apply negb_true_iff in Hp.
    eapply (pair_trusted _ (SearchHit.app h, SearchHit.dataset h)); [|exact Hp].
    apply list_elem_of_fmap. by exists h. }
  destruct (map SearchHit.id alertable) as [|i ids]; [by apply adds_same|].
  destruct (claim_unseen _ _ _ _) as [seen unseen]. destruct unseen as [|u us]; [by apply adds_same|].
  eapply adds_trans; [|apply adds_tell; intros h [Hh _]%elem_of_filter_bool; by apply Ht]. by apply adds_same.
Qed.

Lemma searches_gated job result indexed_apps f :
  adds (gated job result) f
    (notify_saved_searches registry validate_params run_plugin load_error new_v4 new_run_id cfg health
       watches searches query serialize_ts now view_clock job indexed_apps f).
Proof.
  apply adds_foldl. intros f' [i search] _. unfold search_step. case_match; [apply adds_refl|].
  eapply adds_trans; [|apply alert_gated].
  case_match; [eapply adds_weaken, view_gated; by intros ? []|apply adds_refl].
Qed.


(** *** What is alerted is touched by the alerts alone *)

Lemma index_seen job result f : Fan.seen (index_run cfg health now job result f) = Fan.seen f.
Proof.
  unfold index_run. destruct (dataset_search_docs _ _ _ _ _) as [ds dels].
  set (docs := if echo_index_withheld cfg health job then _ else _).
  destruct dels, (sweeps_prior_job_snapshot docs); done.
Qed.
Lemma hooks_seen job indexed_apps result f : Fan.seen (run_hooks job indexed_apps result f) = Fan.seen f.
Proof.
  pose proof (hooks_spec job indexed_apps result f) as Hsome. cbv zeta in Hsome.
  destruct (load_run_changes job indexed_apps (Fan.data f)) as [|x l] eqn:El.
  - unfold hooks. by rewrite El.
  - by destruct Hsome as (b & _ & ? & _).
Qed.
Lemma view_seen job search mat clock f :
  Fan.seen (materialize_saved_search registry validate_params run_plugin load_error new_v4 new_run_id cfg
              health watches query serialize_ts now job search mat clock f) = Fan.seen f.
Proof.
  unfold materialize_saved_search. destruct (ask query _ f) as [f1 o] eqn:E.
  injection E as <- <-. destruct (query _ _) as [hits|]; [|done].
  destruct (materialize_search_hits _ _ _ _ _ _ _) as [w [r|]]; [|done].
  destruct (gate_view_deltas cfg health w _) as [|x l] eqn:Eg; [done|].
  match goal with |- Fan.seen (fire_triggers _ _ _ _ _ _ _ _ _ _ ?b (notify_watches _ _ _ _ _ ?f2)) = _ =>
    change (Fan.seen (notify_all job b f2) = Fan.seen f); by destruct (notify_effects job b f2) as (_ & _ & ->)
  end.
Qed.

Lemma alert_claimed seen0 job search f
    (Hanswers : ∀ n req hits, query n req = Some hits → NoDup (map SearchHit.id hits)) :
  claimed seen0 f → claimed seen0 (alert_search cfg health query now job search f).
Proof.
  intros Hc. unfold alert_search. destruct (ask query _ f) as [f1 o] eqn:E. injection E as <- <-.
  destruct (query _ _) as [hits|] eqn:Eq; [|exact Hc].
  set (alertable := alertable_hits _ _). set (f1 := f <| Fan.asked ::= S |>).
  assert (NoDup (map SearchHit.id alertable)) as Hn by by eapply NoDup_select_keys, Hanswers.
  destruct (map SearchHit.id alertable) as [|i ids] eqn:Ei; [exact Hc|]. rewrite <- Ei in *.
  pose proof (claimed_alert seen0 f1 now (map SearchHit.id alertable) search (Job.id job)) as Ha.
  pose proof (claim_unseen_spec now (SavedSearch.id search) (map SearchHit.id alertable) (Fan.seen f1)) as Hspec.
  destruct (claim_unseen _ _ _ _) as [seen unseen]. destruct Hspec as (Hk & _ & _).
  destruct unseen as [|u us].
  - destruct Hc as (Hnd & Hsub & Hin). rewrite app_nil_r in Hk.
    assert (seen_keys (f1 <| Fan.seen := seen |>) = seen_keys f) as Hs by exact Hk.
    change (claimed seen0 (f1 <| Fan.seen := seen |>)). split; [done|].
    rewrite Hs. by split.
  - apply Ha; [by apply NoDup_select_keys|exact Hc|].
    intros d (h & -> & Hh)%list_elem_of_fmap. apply elem_of_filter_bool in Hh as [_ Hh].
    by apply bool_decide_eq_true in Hh.
Qed.

Lemma fanout_claimed seen0 row job f
    (Hanswers : ∀ n req hits, query n req = Some hits → NoDup (map SearchHit.id hits)) :
  claimed seen0 f → claimed seen0 (run_fanout row job f).
Proof.
  intros Hc. unfold finalize_fanout. destruct row as [row|]; [|done]. case_match; [done|]. cbv zeta.
  set (result := default JNull _). set (f1 := index_run _ _ _ _ _ f).
  assert (claimed seen0 f1) as Hc1.
  { eapply claimed_keeps; [apply index_seen| |exact Hc]. eapply adds_weaken, index_gated. by intros ? []. }
  set (f2 := hooks _ _ _ _ _ _ _ _ _ _ _ _ _ _ _ f1).
  assert (claimed seen0 f2) as Hc2.
  { eapply claimed_keeps; [apply hooks_seen| |exact Hc1]. eapply adds_weaken, hooks_gated. by intros ? []. }
  clearbody f1 f2. set (f3 := notify_saved_searches _ _ _ _ _ _ _ _ _ _ _ _ _ _ _ _ f2).
  assert (claimed seen0 f3) as Hc3.
  { unfold f3, notify_saved_searches. generalize (imap pair (list_saved_searches true searches)) as l. intros l.
    clear f3. revert f2 Hc2. induction l as [|[i search] l IH]; intros f2 Hc2; [done|]. cbn [foldl]. apply IH.
    unfold search_step. case_match; [done|]. apply alert_claimed; [done|].
    case_match; [|done]. eapply claimed_keeps; [apply view_seen| |exact Hc2].
    eapply adds_weaken, (view_gated job result). by intros ? []. }
  clearbody f3.
  eapply claimed_keeps; [| |exact Hc3]; [done|]. eapply adds_trans; by apply adds_tell.
Qed.
End gates.

Lemma StronglySorted_select {A} (R : A → A → Prop) p (l : list A) :
  StronglySorted R l → StronglySorted R (select_where p l).
Proof.
  induction 1 as [|x l Hs IH Hall]; cbn; [constructor|]. destruct (p x); [|done].
  constructor; [done|]. rewrite Forall_forall in *. intros y [Hy _]%elem_of_select. by apply Hall.
Qed.

(** ** The index after a run *)

(** An index by document id: [index] replaces, [delete_ids] forgets. *)
Abbreviation index := (gmap string SearchDoc.t).
Definition put (docs : list SearchDoc.t) (idx : index) : index :=
  foldl (λ m d, <[SearchDoc.id d := d]> m) idx docs.
Definition drop_ids (ids : list string) (idx : index) : index := foldl (λ m i, delete i m) idx ids.

Lemma drop_ids_lookup ids : ∀ idx i, drop_ids ids idx !! i = if bool_decide (i ∈ ids) then None else idx !! i.
Proof.
  induction ids as [|j ids IH]; intros idx i; [done|].
  change (drop_ids (j :: ids) idx) with (drop_ids ids (delete j idx)). rewrite IH.
  destruct (base.decide (i = j)) as [->|Hne].
  - rewrite lookup_delete_eq. rewrite (bool_decide_eq_true_2 (j ∈ j :: ids)) by by left. by case_bool_decide.
  - rewrite lookup_delete_ne by done. case_bool_decide as Hi; case_bool_decide as Hj; try done.
    + destruct Hj. by right.
    + apply elem_of_cons in Hj as [?|?]; done.
Qed.

(** The first revision of each key not yet seen. *)
Fixpoint firsts (revs : list Revision.t) (seen : gset string) : list Revision.t :=
  match revs with
  | [] => []
  | rev :: revs =>
      if bool_decide (Revision.key rev ∈ seen) then firsts revs seen
      else rev :: firsts revs ({[Revision.key rev]} ∪ seen)
  end.
Definition has_key (key : string) (r : Revision.t) : bool := String.eqb (Revision.key r) key.

Lemma firsts_spec revs : ∀ seen,
  NoDup (map Revision.key (firsts revs seen))
  ∧ ∀ r, r ∈ firsts revs seen ↔ Revision.key r ∉ seen ∧ List.find (has_key (Revision.key r)) revs = Some r.
Proof.
  induction revs as [|rev revs IH]; intros seen; cbn [firsts List.find].
  { split; [constructor|]. intros r. split; [by intros ?%elem_of_nil|by intros []]. }
  case_bool_decide as Hs.
  - destruct (IH seen) as [Hn He]. split; [done|]. intros r. rewrite He. unfold has_key at 2.
    destruct (String.eqb_spec (Revision.key rev) (Revision.key r)) as [E|]; [|done].
    rewrite E in Hs. by split; intros [].
  - destruct (IH ({[Revision.key rev]} ∪ seen)) as [Hn He]. split.
    + cbn. constructor; [|done]. intros (r & Hk & Hr)%list_elem_of_fmap. apply He in Hr as [Hr _]. set_solver.
    + intros r. rewrite elem_of_cons, He. unfold has_key at 2.
      destruct (String.eqb_spec (Revision.key rev) (Revision.key r)) as [E|E].
      * split.
        -- intros [->|[Hr _]]; [done|]. rewrite E in Hr. set_solver.
        -- intros [_ [= ->]]. by left.
      * split.
        -- intros [->|[Hr ?]]; [done|]. split; [set_solver|done].
        -- intros [Hr Hf]. right. split; [set_solver|done].
Qed.

Lemma skip_cancel n (s t : string) : (s +:+ t = s +:+ n → t = n)%string.
Proof. induction s as [|c s IH]; cbn; [done|]. intros [= ?]. by apply IH. Qed.
Lemma dataset_id_inj app dataset k k' : dataset_id app dataset k = dataset_id app dataset k' → k = k'.
Proof. unfold dataset_id. intros E. by do 4 apply skip_cancel in E. Qed.

Lemma omap_cons_eq {A B} (f : A → option B) x l :
  omap f (x :: l) = match f x with Some y => y :: omap f l | None => omap f l end.
Proof. done. Qed.
Lemma put_cons d docs idx : put (d :: docs) idx = put docs (<[SearchDoc.id d := d]> idx).
Proof. done. Qed.

Section follow.
Context `{JsonRender, JsonParse, JsonEq, Sha256, UnicodeAlphanumeric, Unicode}.
Context (app dataset : string).

Definition doc_of (rev : Revision.t) : option SearchDoc.t :=
  if String.eqb (Revision.change rev) "removed" then None
  else (λ data, from_dataset_record app dataset (Revision.key rev) data
                  (timestamp_secs (Revision.created_at rev))) <$> Revision.data rev.
Definition delete_of (rev : Revision.t) : option string :=
  if String.eqb (Revision.change rev) "removed" then Some (dataset_id app dataset (Revision.key rev)) else None.

Lemma docs_from_firsts revs : ∀ docs dels seen,
  (foldl (doc_step app dataset) (docs, dels, seen) revs).1
  = (docs ++ omap doc_of (firsts revs seen), dels ++ omap delete_of (firsts revs seen)).
Proof.
  induction revs as [|rev revs IH]; intros docs dels seen; cbn [foldl firsts]; [by rewrite !app_nil_r|].
  unfold doc_step at 2. case_bool_decide; [apply IH|].
  rewrite !omap_cons_eq. unfold doc_of at 1, delete_of at 1.
  destruct (String.eqb (Revision.change rev) "removed"); [|destruct (Revision.data rev)]; rewrite IH; cbn [fmap option_fmap option_map].
  - by rewrite <- app_assoc.
  - by rewrite <- app_assoc.
  - done.
Qed.

Lemma put_lookup (l : list Revision.t) : ∀ idx key,
  NoDup (map Revision.key l) →
  put (omap doc_of l) idx !! dataset_id app dataset key
  = match List.find (has_key key) l ≫= doc_of with Some d => Some d | None => idx !! dataset_id app dataset key end.
Proof.
  induction l as [|r l IH]; intros idx key Hn; [done|]. cbn [map] in Hn. apply NoDup_cons in Hn as [Hout Hn].
  assert (∀ d, doc_of r = Some d → SearchDoc.id d = dataset_id app dataset (Revision.key r)) as Hid.
  { unfold doc_of. intros d. case_match; [done|]. by intros (data & _ & ->)%fmap_Some. }
  assert (Revision.key r = key → List.find (has_key key) l = None) as Hnone.
  { intros <-. destruct (List.find _ l) as [x|] eqn:E; [|done]. apply find_some in E as [Hin Hk%String.eqb_eq].
    destruct Hout. apply list_elem_of_fmap. exists x. split; [done|by apply list_elem_of_In]. }
  cbn [List.find]. unfold has_key at 1. rewrite omap_cons_eq.
  destruct (String.eqb_spec (Revision.key r) key) as [E|E].
  - specialize (Hnone E). destruct (doc_of r) as [d|] eqn:Ed.
    + rewrite put_cons, IH, Hnone by done. cbn.
      rewrite (Hid d eq_refl), E. rewrite Ed. by rewrite lookup_insert_eq.
    + rewrite IH, Hnone by done. cbn. by rewrite Ed.
  - destruct (doc_of r) as [d|] eqn:Ed; [|by apply IH].
    rewrite put_cons, IH by done.
    rewrite lookup_insert_ne; [done|]. rewrite (Hid d eq_refl). by intros ?%dataset_id_inj.
Qed.

(** *** The window of a run *)

Definition in_window (since : timestamp) := in_feed app (Some dataset) (Some since) None.
Definition later (a b : RevisionRow.t) : bool := RevisionRow.created_at b <=? RevisionRow.created_at a.

Lemma in_window_true since r :
  in_window since r = true
  ↔ RevisionRow.app r = app ∧ RevisionRow.dataset r = dataset ∧ since < RevisionRow.created_at r.
Proof.
  unfold in_window, in_feed, trust_predicate. cbn. rewrite !andb_true_iff, !String.eqb_eq, Z.ltb_lt. naive_solver.
Qed.

Lemma sorted_first (l : list RevisionRow.t) key r x :
  StronglySorted (λ a b, later a b = true) l →
  List.find (λ y, String.eqb (RevisionRow.key y) key) l = Some r →
  x ∈ l → RevisionRow.key x = key → RevisionRow.created_at x ≤ RevisionRow.created_at r.
Proof.
  induction 1 as [|y l Hs IH Hall]; cbn; [done|]. intros Hf Hx Hk.
  apply elem_of_cons in Hx as [->|Hx].
  - rewrite Hk, String.eqb_refl in Hf. injection Hf as ->. lia.
  - destruct (String.eqb (RevisionRow.key y) key) eqn:E; [|by apply IH].
    injection Hf as ->. rewrite Forall_forall in Hall. specialize (Hall _ Hx). unfold later in Hall. lia.
Qed.

Lemma sorted_last {A} (lt : A → A → Prop) (l : list A) x z :
  StronglySorted lt l → last l = Some z → x ∈ l → x = z ∨ lt x z.
Proof.
  induction 1 as [|y l Hs IH Hall]; [done|]. intros Hl [->|Hx]%elem_of_cons.
  - destruct l as [|w l]; [left; cbn in Hl; by injection Hl as ->|]. right.
    rewrite Forall_forall in Hall. apply Hall. apply last_Some_elem_of. exact Hl.
  - apply IH; [|done]. by destruct l; [apply elem_of_nil in Hx|].
Qed.

(** The first revision a run's window holds of a key is the last of its history. *)
Lemma window_first since w key :
  rows_affected (in_window since) (Data.revisions w) ≤ 100000 →
  let history := select_where (revision_at app dataset key) (Data.revisions w) in
  StronglySorted (λ a b, RevisionRow.created_at a < RevisionRow.created_at b) history →
  List.find (has_key key) (changes_since app (Some dataset) (Some since) 100000 None w)
  = match last history with
    | Some l => if since <? RevisionRow.created_at l then Some (revision_of l) else None
    | None => None
    end.
Proof.
  intros Hfit history Hsorted. unfold changes_since. fold (in_window since). fold later.
  set (window := select_where (in_window since) (Data.revisions w)).
  assert (sql_limit 100000 (order_by later window) = order_by later window) as ->.
  { unfold sql_limit. cbn. apply take_ge. rewrite length_order_by. unfold rows_affected in Hfit. fold window in Hfit. lia. }
  assert (∀ l, List.find (has_key key) (map revision_of l)
             = revision_of <$> List.find (λ y, String.eqb (RevisionRow.key y) key) l) as ->.
  { induction l as [|y l IH]; [done|]. cbn. unfold has_key at 1. cbn. by destruct (String.eqb _ _). }
  assert (∀ x, x ∈ order_by later window ∧ RevisionRow.key x = key ↔ x ∈ history ∧ since < RevisionRow.created_at x) as Hin.
  { intros x. rewrite elem_of_order_by. unfold window, history. rewrite !elem_of_select, in_window_true.
    unfold revision_at, revision_in. rewrite !andb_true_iff, !String.eqb_eq. naive_solver. }
  assert (StronglySorted (λ a b, later a b = true) (order_by later window)) as Hdown.
  { apply order_by_sorted; unfold later; intros *; rewrite ?Z.leb_le; lia. }
  destruct (List.find _ (order_by later window)) as [r|] eqn:Ef.
  - pose proof (find_some _ _ Ef) as [Hr%list_elem_of_In Hk%String.eqb_eq].
    destruct (proj1 (Hin r) (conj Hr Hk)) as [Hh Hnew].
    destruct (last history) as [l|] eqn:El; [|apply last_None in El; rewrite El in Hh; by apply elem_of_nil in Hh].
    assert (l ∈ history) as Hlh by by apply last_Some_elem_of.
    destruct (sorted_last _ _ _ _ Hsorted El Hh) as [->|Hlt].
    + apply Z.ltb_lt in Hnew as ->. done.
    + assert (since < RevisionRow.created_at l) as Hl by lia.
      destruct (proj2 (Hin l) (conj Hlh Hl)) as [Hlw Hlk].
      pose proof (sorted_first _ _ _ _ Hdown Ef Hlw Hlk). lia.
  - destruct (last history) as [l|] eqn:El; [|done]. destruct (Z.ltb_spec since (RevisionRow.created_at l)) as [Hl|]; [|done].
    assert (l ∈ history) as Hlh by by apply last_Some_elem_of.
    destruct (proj2 (Hin l) (conj Hlh Hl)) as [Hlw Hlk].
    pose proof (find_none _ _ Ef l (proj1 (list_elem_of_In _ _) Hlw)) as Hno. cbv beta in Hno.
    by rewrite Hlk, String.eqb_refl in Hno.
Qed.

Lemma indexed_lookup revs idx key :
  let '(docs, deletes) := dataset_docs_from_revisions app dataset revs in
  drop_ids deletes (put docs idx) !! dataset_id app dataset key
  = match List.find (has_key key) revs with
    | Some rev =>
        if String.eqb (Revision.change rev) "removed" then None
        else match doc_of rev with Some d => Some d | None => idx !! dataset_id app dataset key end
    | None => idx !! dataset_id app dataset key
    end.
Proof.
  unfold dataset_docs_from_revisions. rewrite (docs_from_firsts revs [] [] ∅). cbn [Datatypes.app].
  destruct (firsts_spec revs ∅) as [Hn He]. rewrite drop_ids_lookup, put_lookup by done.
  assert (List.find (has_key key) (firsts revs ∅) = List.find (has_key key) revs) as ->.
  { destruct (List.find (has_key key) revs) as [r|] eqn:Ef.
    - pose proof (find_some _ _ Ef) as [_ Hk%String.eqb_eq].
      assert (r ∈ firsts revs ∅) as Hr by (apply He; split; [set_solver|by rewrite Hk]).
      destruct (List.find _ (firsts revs ∅)) as [r'|] eqn:Ef'.
      + pose proof (find_some _ _ Ef') as [Hr'%list_elem_of_In Hk'%String.eqb_eq].
        apply He in Hr' as [_ Hf']. rewrite Hk' in Hf'. congruence.
      + pose proof (find_none _ _ Ef' r (proj1 (list_elem_of_In _ _) Hr)) as Hno.
        unfold has_key in Hno. by rewrite Hk, String.eqb_refl in Hno.
    - destruct (List.find _ (firsts revs ∅)) as [r'|] eqn:Ef'; [|done].
      pose proof (find_some _ _ Ef') as [Hr'%list_elem_of_In Hk'%String.eqb_eq].
      apply He in Hr' as [_ Hf']. rewrite Hk' in Hf'. congruence. }
  assert (dataset_id app dataset key ∈ omap delete_of (firsts revs ∅)
          ↔ ∃ r, List.find (has_key key) revs = Some r ∧ String.eqb (Revision.change r) "removed" = true) as Hdel.
  { rewrite list_elem_of_omap. split.
    - intros (r & Hr & Hd). unfold delete_of in Hd. case_match eqn:Ec; [|done]. injection Hd as Hd%dataset_id_inj.
      apply He in Hr as [_ Hf]. rewrite Hd in Hf. eauto.
    - intros (r & Hf & Hc). pose proof (find_some _ _ Hf) as [_ Hk%String.eqb_eq]. exists r. split.
      + apply He. split; [set_solver|by rewrite Hk].
      + unfold delete_of. by rewrite Hc, Hk. }
  case_bool_decide as Hb.
  - apply Hdel in Hb as (r & -> & ->). done.
  - destruct (List.find _ revs) as [r|] eqn:Ef; [|done]. cbn.
    destruct (String.eqb _ "removed") eqn:Ec; [|done]. destruct Hb. apply Hdel. eauto.
Qed.

End follow.

(** ** Alerts over many runs *)

(** Fan-outs of any runs, under any configuration, and anything between them that leaves the
    alerted documents alone.  The engine answers with distinct documents. *)
Inductive fan_step `{JsonRender, JsonParse, JsonEq, JsonPointer, UuidText, Sha256, UnicodeAlphanumeric, Unicode} :
    Fan.t → Fan.t → Prop :=
| fan_out registry validate_params run_plugin load_error new_v4 new_run_id cfg health catalog_file watches
    searches query serialize_ts now view_clock row job f :
    (∀ n req hits, query n req = Some hits → NoDup (map SearchHit.id hits)) →
    fan_step f (finalize_fanout registry validate_params run_plugin load_error new_v4 new_run_id cfg health
                  catalog_file watches searches query serialize_ts now view_clock row job f)
| fan_world d t f : fan_step f (f <| Fan.data := d |> <| Fan.trig := t |>).

(** A saved search alerts on a document once: over any sequence of fan-outs - several source
    apps feeding one namespace, retries, the same query matching run after run - no (search,
    document) pair is sent twice, and none that had been alerted on before. *)
Theorem search_alerts_once
    `{JsonRender, JsonParse, JsonEq, JsonPointer, UuidText, Sha256, UnicodeAlphanumeric, Unicode} f0 f
    (Hfresh : Fan.effects f0 = []) (Hruns : rtc fan_step f0 f) :
  NoDup (alerts f) ∧ ∀ p, p ∈ alerts f → p ∉ seen_keys f0.
Proof.
  assert (claimed (seen_keys f0) f0) as Hc.
  { unfold claimed, alerts. rewrite Hfresh. cbn. split_and!; [constructor|done|by intros ? ?%elem_of_nil]. }
  assert (∀ a b, rtc fan_step a b → claimed (seen_keys f0) a → claimed (seen_keys f0) b) as Hgo.
  { induction 1 as [|a b c Hs _ IH]; [done|]. intros Ha. apply IH. destruct Hs; [by apply fanout_claimed|exact Ha]. }
  destruct (Hgo _ _ Hruns Hc) as (Hn & _ & Hp). split; [done|]. intros p Hin. by apply Hp.
Qed.

(** ** Small facts the code and its comments part on *)

(** What a result declares is published only when the run also changed a record. *)
Lemma declared_events_need_a_delta
    `{JsonRender, JsonParse, JsonEq, JsonPointer, UuidText, Sha256, UnicodeAlphanumeric, Unicode}
    registry validate_params run_plugin load_error new_v4 new_run_id cfg health catalog_file watches
    serialize_ts now job apps result f :
  load_run_changes job apps (Fan.data f) = [] →
  hooks registry validate_params run_plugin load_error new_v4 new_run_id cfg health catalog_file watches
    serialize_ts now job apps result f = f.
Proof. intros E. unfold hooks. by rewrite E. Qed.

Lemma elem_of_undeclared observed job_app declared p :
  p ∈ undeclared_write_namespaces observed job_app declared
  ↔ p ∈ observed ∧ p.1 ≠ job_app ∧ p ∉ declared.
Proof.
  unfold undeclared_write_namespaces. rewrite elem_of_order_by.
  assert (∀ q l, existsb (same_pair q) l = true ↔ q ∈ l) as Hin.
  { intros q l. rewrite existsb_exists. split.
    - intros (x & Hx & ->%same_pair_true). by apply list_elem_of_In.
    - intros Hq. exists q. split; [by apply list_elem_of_In|by apply same_pair_true]. }
  assert (∀ l out, p ∈ foldl (λ out p, if String.eqb p.1 job_app || existsb (same_pair p) declared
                                          || existsb (same_pair p) out
                                       then out else out ++ [p]) out l
            ↔ p ∈ out ∨ (p ∈ l ∧ p.1 ≠ job_app ∧ p ∉ declared)) as Hgo.
  { induction l as [|q l IH]; intros out; cbn [foldl]; [set_solver|]. rewrite IH, elem_of_cons.
    destruct (String.eqb_spec q.1 job_app) as [Hq|Hq]; cbn [orb]; [naive_solver|].
    destruct (existsb (same_pair q) declared) eqn:Ed; cbn [orb].
    { apply Hin in Ed. naive_solver. }
    apply not_true_iff_false in Ed. rewrite Hin in Ed.
    destruct (existsb (same_pair q) out) eqn:Eo.
    - apply Hin in Eo. naive_solver.
    - rewrite elem_of_app, list_elem_of_singleton. naive_solver. }
  rewrite Hgo. split; [intros [[]%elem_of_nil|]|]; auto.
Qed.

Module FanoutDemo.
#[local] Existing Instances BatchDemo.render BatchDemo.parse BatchDemo.eqb BatchDemo.sha
  BatchDemo.alnum BatchDemo.lower.
#[local] Instance pointer : JsonPointer := λ _ _, None.
#[local] Instance uuid : UuidText := λ _, "u"%string.

Definition hit : SearchHit.t := SearchHit.mk "app:ds:k" "app" "ds" "" "one" f64_zero "".
Definition search : SavedSearch.t := SavedSearch.mk "s1" "q" None None "http://x" None true None 0.
Definition job : Job.t :=
  (new_row 7 "app" Opts.default None 0) <| Job.status := Succeeded |> <| Job.started_at := Some 5 |>.
Definition cfg : FanConfig.t :=
  FanConfig.mk (SourceHealth.Cfg.mk false false f64_zero f64_zero 0 [] []) false true 10 TriggersConfig.default.
Definition idle : Fan.t := Fan.mk (Data.mk [] []) (Trig.mk [] [] 0 [] ∅ 0 ∅ 0 0 0) [] [] 0 [].
Definition round (f : Fan.t) : Fan.t :=
  finalize_fanout (λ _, None) (λ _ _, None) (λ _ _ _ _, Ok JNull) (λ _, None) (λ _, 0) (λ _, "r"%string)
    cfg (Health.mk [] []) None [] [search] (λ _ _, Some [hit]) (λ _, ""%string) 10
    (λ _, ViewClock.mk 0 (λ _ _, 0) 0) (Some (Some job)) job f.

Lemma search_alerts_once_witness :
  alerts (round (round idle)) = [("s1", "app:ds:k")]%string ∧ NoDup (alerts (round (round idle))).
Proof.
  split; [by vm_compute|].
  refine (proj1 (search_alerts_once idle (round (round idle)) eq_refl _)).
  assert (∀ f, fan_step f (round f)) as Hs.
  { intros f. apply fan_out. intros _ _ hits [= <-]. repeat constructor. by intros ?%elem_of_nil. }
  eapply rtc_l; [apply Hs|]. eapply rtc_l; [apply Hs|]. apply rtc_refl.
Defined.

(** The key was indexed by an earlier run, and removed by this one. *)
Definition stale : index := {["app:ds:k"%string := SearchDoc.mk "app:ds:k" "app" "ds" "" "" "old" 0]}.
Definition window_docs : list SearchDoc.t * list string :=
  dataset_docs_from_revisions "app" "ds" (changes_since "app" (Some "ds"%string) (Some 5) 100000 None DatasetDemo.removed).

(** A key twice in one batch: its revisions share a stamp, the window lists the older first,
    and the index keeps the superseded content. *)
Definition twice : Data.t :=
  (upsert_many_inner "app" "ds" [("k", JString "one"); ("k", JString "two")]%string (λ _, 10) None
     (Some Provenance.empty) DerivedPaths_NONE (Data.mk [] [])).1.
Lemma same_batch_indexes_the_older :
  map RecordRow.data (Data.records twice) = [quoted "two"]
  ∧ map SearchDoc.body
      (dataset_docs_from_revisions "app" "ds" (changes_since "app" (Some "ds") (Some 5) 100000 None twice)).1
    = [quoted "one"].
Proof. by vm_compute. Qed.
End FanoutDemo.
