(* ===== verification/EventBus.v ===== *)
(** * EventBus: the replay ring, the log's queue and the streams over both

    [crates/server/src/events.rs] (the bus: one sequence, a ring bounded by count and bytes,
    a bounded queue of rows owed to the durable log) and
    [crates/server/src/routes/events.rs] (resuming a client from the ring or the log, the
    live loops of the two streams, the log's page).  The broadcast channel is an input of a
    live loop: what it receives. *)

From S2P Require Import Prelude Sql Float64 Json Jobs JobQueue EventLog Triggers.

(** ** Events *)

Module JobStages.
Record t : Type := mk {
  attempt : Z; run_ms : option Z; index_ms : option Z; hooks_ms : option Z;
  alerts_ms : option Z; total_ms : option Z }.
End JobStages.

Module JobEvent.
Record t : Type := mk {
  job_id : Uuid; app : string; status : string; result : option Json; error : option string;
  stages : option JobStages.t; subject : option string }.
Definition new (job_id : Uuid) (app status : string) : t := mk job_id app status None None None None.
(** [Uuid::nil] *)
Definition nil_uuid : Uuid := 0.
Definition domain (kind app subject_id : string) (payload : Json) : t :=
  mk nil_uuid app kind (Some payload) None None (Some subject_id).
Definition external (event_id : Uuid) (source : string) (payload : Json) : t :=
  mk event_id source "external" (Some payload) None None None.
End JobEvent.

Definition PROGRESS_KIND : string := "job.progress".
Definition event_kind (event : JobEvent.t) : string :=
  let status := JobEvent.status event in
  if String.eqb status "external" then "external"
  else if contains "." status then status
  else ("job." +:+ status)%string.

(** [serde_json] on an [i64]. *)
Definition json_i64 (n : Z) : Json := JNumber (if 0 <=? n then PosInt n else NegInt n).
Definition json_opt {A} (f : A → Json) (o : option A) : Json := match o with Some a => f a | None => JNull end.
Definition stages_json (s : JobStages.t) : Json :=
  json_object
    [("attempt", json_i64 (JobStages.attempt s)); ("run_ms", json_opt json_i64 (JobStages.run_ms s));
     ("index_ms", json_opt json_i64 (JobStages.index_ms s)); ("hooks_ms", json_opt json_i64 (JobStages.hooks_ms s));
     ("alerts_ms", json_opt json_i64 (JobStages.alerts_ms s));
     ("total_ms", json_opt json_i64 (JobStages.total_ms s))]%string.
(** A field that is skipped when it is none. *)
Definition some_field {A} (key : string) (f : A → Json) (o : option A) : list (string * Json) :=
  match o with Some a => [(key, f a)] | None => [] end.

(** Reading a field back: [Err tt] refuses the whole value.  A missing or null field of an
    optional type is none. *)
Definition read_opt {A} (read : Json → option A) (o : option Json) : option (option A) :=
  match o with
  | None | Some JNull => Some None
  | Some v => Some <$> read v
  end.
Definition read_stages (v : Json) : option JobStages.t :=
  match v with
  | JObject _ =>
      attempt ← match json_get "attempt" v with None => Some 0 | Some a => as_i64 a end;
      run_ms ← read_opt as_i64 (json_get "run_ms" v);
      index_ms ← read_opt as_i64 (json_get "index_ms" v);
      hooks_ms ← read_opt as_i64 (json_get "hooks_ms" v);
      alerts_ms ← read_opt as_i64 (json_get "alerts_ms" v);
      total_ms ← read_opt as_i64 (json_get "total_ms" v);
      Some (JobStages.mk attempt run_ms index_ms hooks_ms alerts_ms total_ms)
  | _ => None
  end.

Section values.
Context `{UuidText} (parse_uuid : string → option Uuid).

Definition event_subject (event : JobEvent.t) : string :=
  default (uuid_text (JobEvent.job_id event)) (JobEvent.subject event).
(** [serde_json::to_value] *)
Definition event_value (e : JobEvent.t) : Json :=
  json_object
    ([("job_id", JString (uuid_text (JobEvent.job_id e))); ("app", JString (JobEvent.app e));
      ("status", JString (JobEvent.status e))]%string
     ++ some_field "result" id (JobEvent.result e) ++ some_field "error" JString (JobEvent.error e)
     ++ some_field "stages" stages_json (JobEvent.stages e)
     ++ some_field "subject" JString (JobEvent.subject e)).
(** [serde_json::from_value] of a row's payload. *)
Definition read_event (v : Json) : option JobEvent.t :=
  job_id ← (json_get "job_id" v ≫= as_str) ≫= parse_uuid;
  app ← json_get "app" v ≫= as_str;
  status ← json_get "status" v ≫= as_str;
  result ← read_opt Some (json_get "result" v);
  error ← read_opt as_str (json_get "error" v);
  stages ← read_opt read_stages (json_get "stages" v);
  subject ← read_opt as_str (json_get "subject" v);
  Some (JobEvent.mk job_id app status result error stages subject).
End values.

(** ** The bus *)

Abbreviation SeqEvent := (Z * JobEvent.t)%type.
Inductive Replay : Type := Reset_ | Events (events : list SeqEvent).

Module Buffered.
Record t : Type := mk { event : SeqEvent; bytes : Z }.
End Buffered.

Module Bus.
Record t : Type := mk {
  seq : Z; ring : list Buffered.t; ring_bytes : Z; capacity : nat; max_bytes : Z;
  pending : option (list NewEvent.t); pending_capacity : nat;
  dropped_before_persist : Z; lifecycle_dropped_before_persist : Z }.
#[global] Instance eta_bus : Eta t := λ b,
  mk (seq b) (ring b) (ring_bytes b) (capacity b) (max_bytes b) (pending b) (pending_capacity b)
    (dropped_before_persist b) (lifecycle_dropped_before_persist b).
Definition with_byte_budget (ring_capacity : nat) (max_bytes : Z) : t :=
  mk 0 [] 0 (ring_capacity `max` 1) max_bytes None 0 0 0.
Definition with_log (pending_capacity_ : nat) (b : t) : t :=
  b <| pending := Some [] |> <| pending_capacity := (pending_capacity_ `max` 1)%nat |>.
Definition logs (b : t) : bool := is_some (pending b).
Definition seed_seq (n : Z) (b : t) : t := b <| seq := Z.max (seq b) n |>.
Definition pending_len (b : t) : nat := match pending b with Some q => length q | None => O end.
End Bus.
Definition DEFAULT_MAX_RING_BYTES : Z := 32 * 1024 * 1024.

Definition is_progress_row (e : NewEvent.t) : bool := String.eqb (NewEvent.kind e) PROGRESS_KIND.
(** [iter().position] *)
Fixpoint position {A} (p : A → bool) (l : list A) : option nat :=
  match l with [] => None | x :: l => if p x then Some O else S <$> position p l end.
Definition count_dropped (b : Bus.t) : Bus.t := b <| Bus.dropped_before_persist ::= Z.succ |>.
Definition count_lifecycle (b : Bus.t) : Bus.t := b <| Bus.lifecycle_dropped_before_persist ::= Z.succ |>.

(** A full queue makes room: the oldest progress sample first, then the oldest row; [false]
    refuses an incoming progress sample.  Each round frees a place: one more than the length
    is enough. *)
Fixpoint make_room (fuel : nat) (is_progress : bool) (b : Bus.t) (q : list NewEvent.t) :
    Bus.t * list NewEvent.t * bool :=
  match fuel with
  | O => (b, q, true)
  | S fuel =>
      if (length q <? Bus.pending_capacity b)%nat then (b, q, true)
      else
        match position is_progress_row q with
        | Some i => make_room fuel is_progress (count_dropped b) (delete i q)
        | None =>
            if is_progress then (count_dropped b, q, false)
            else make_room fuel is_progress (count_dropped (count_lifecycle b)) (tail q)
        end
  end.

(** The ring past its count, or past its bytes with more than one event, sheds its oldest. *)
Fixpoint evict (fuel : nat) (b : Bus.t) : Bus.t :=
  match fuel with
  | O => b
  | S fuel =>
      if (Bus.capacity b <? length (Bus.ring b))%nat
         || ((Bus.max_bytes b <? Bus.ring_bytes b) && (1 <? length (Bus.ring b))%nat)
      then
        match Bus.ring b with
        | [] => evict fuel b
        | old :: ring => evict fuel (b <| Bus.ring := ring |> <| Bus.ring_bytes ::= λ n, n - Buffered.bytes old |>)
        end
      else b
  end.

Definition replay (after : Z) (b : Bus.t) : Replay :=
  match Bus.ring b with
  | [] => Events []
  | front :: _ =>
      if Z.min (after + 1) u64_max <? (Buffered.event front).1 then Reset_
      else Events (map Buffered.event (List.filter (λ e, after <? (Buffered.event e).1) (Bus.ring b)))
  end.

(** The three sections of [persist_pending]: the queue is taken, the batch is written (by the
    store, under no lock of the bus), and on a failure it goes back in front. *)
Definition take_pending (b : Bus.t) : Bus.t * list NewEvent.t :=
  match Bus.pending b with
  | Some q => (b <| Bus.pending := Some [] |>, q)
  | None => (b, [])
  end.
Definition put_back (batch : list NewEvent.t) (b : Bus.t) : Bus.t :=
  match Bus.pending b with
  | Some q =>
      let q := batch ++ q in
      let over := (length q - Bus.pending_capacity b)%nat in
      b <| Bus.pending := Some (drop over q) |>
        <| Bus.dropped_before_persist ::= λ n, n + Z.of_nat over |>
  | None => b
  end.
(** [None]: the store failed.  Otherwise the rows that landed. *)
Definition persist_pending (store_ok : bool) (now : timestamp) (b : Bus.t) (log : events) :
    Bus.t * events * option Z :=
  match take_pending b with
  | (b, []) => (b, log, Some 0)
  | (b, batch) =>
      if store_ok then let '(log, landed) := append_events now batch log in (b, log, Some landed)
      else (put_back batch b, log, None)
  end.

Section emit.
Context `{JsonRender, UuidText}.

Definition approx_bytes (event : JobEvent.t) : Z :=
  match JobEvent.result event with Some v => Z.of_nat (String.length (json_render v)) | None => 0 end.

Definition new_event (seq : Z) (event : JobEvent.t) : NewEvent.t :=
  NewEvent.mk seq (event_kind event) (JobEvent.app event) (event_subject event) (event_value event).
Definition queue_for_log (seq : Z) (event : JobEvent.t) (b : Bus.t) : Bus.t :=
  match Bus.pending b with
  | None => b
  | Some q =>
      let '(b, q, room) :=
        make_room (S (length q)) (String.eqb (event_kind event) PROGRESS_KIND) b q in
      b <| Bus.pending := Some (if room then q ++ [new_event seq event] else q) |>
  end.

Definition buffer (seq : Z) (event : JobEvent.t) (b : Bus.t) : Bus.t :=
  b <| Bus.seq := seq |> <| Bus.ring ::= λ l, l ++ [Buffered.mk (seq, event) (approx_bytes event)] |>
    <| Bus.ring_bytes ::= λ n, n + approx_bytes event |>.
(** One critical section of the ring's lock. *)
Definition emit (event : JobEvent.t) (b : Bus.t) : Bus.t * Z :=
  let seq := Bus.seq b + 1 in
  let b := queue_for_log seq event (buffer seq event b) in
  (evict (length (Bus.ring b)) b, seq).
End emit.

(** ** Resuming a client *)

Definition MAX_LOG_PAGE : Z := 500.
Definition MAX_LOG_RESUME : nat := 10000.

(** [str::parse] of the trimmed header into a [u64]. *)
Definition last_event_id (header : option string) : option Z := header ≫= (λ s, parse_usize (str_trim s)).

Section resume.
Context `{UuidText} (parse_uuid : string → option Uuid).

(** One page of the log, row by row: the cursor and the events so far, or the reset. *)
Fixpoint walk_page (page : events) (cursor : Z) (out : list SeqEvent) : option (Z * list SeqEvent) :=
  match page with
  | [] => Some (cursor, out)
  | record :: page =>
      if (match out with [] => true | _ => false end) && negb (EventRecord.seq record =? cursor + 1)
      then None
      else
        let cursor := EventRecord.seq record in
        let out := match read_event parse_uuid (EventRecord.payload record) with
                   | Some event => out ++ [(cursor, event)]
                   | None => out
                   end in
        if (MAX_LOG_RESUME <=? length out)%nat then None else walk_page page cursor out
  end.
(** [read_ok n]: the n-th read answers.  A page moves the cursor past its rows: one more
    round than there are rows is enough. *)
Fixpoint read_log (fuel n : nat) (read_ok : nat → bool) (want : Z) (cursor : Z) (out : list SeqEvent)
    (log : events) : option (list SeqEvent) :=
  match fuel with
  | O => Some out
  | S fuel =>
      if Z.of_nat (length out) <? want then
        if negb (read_ok n) then None
        else
          match events_after cursor None None MAX_LOG_PAGE log with
          | [] => Some out
          | page =>
              match walk_page page cursor out with
              | None => None
              | Some (cursor, out) => read_log fuel (S n) read_ok want cursor out log
              end
          end
      else Some out
  end.

Definition first_is (seq : Z) (events : list SeqEvent) : bool :=
  match events with (s, _) :: _ => s =? seq | [] => false end.
(** [Err latest]: the gap is gone. *)
Definition replay_or_log (store_ok : bool) (read_ok : nat → bool) (now : timestamp) (after : Z)
    (b : Bus.t) (log : events) : Bus.t * events * result Z (list SeqEvent) :=
  let latest := Bus.seq b in
  if latest <=? after then (b, log, Ok [])
  else
    let from_log :=
      if negb (Bus.logs b) then (b, log, Err latest)
      else
        let '(b, log, _) := persist_pending store_ok now b log in
        (b, log, match read_log (S (length log)) 0 read_ok (latest - after) after [] log with
                 | Some out => Ok out
                 | None => Err latest
                 end) in
    match replay after b with
    | Events events => if first_is (after + 1) events then (b, log, Ok events) else from_log
    | Reset_ => from_log
    end.
End resume.

(** What a client is sent. *)
Inductive Sse : Type :=
| SseEvent (seq : Z) (event : JobEvent.t)
| SseSnapshot (event : JobEvent.t)
| SseReset (latest : Z).

(** [recover] from [last], and [resume] from a client's own position. *)
Definition recover (keep : JobEvent.t → bool) (last : Z) (gap : result Z (list SeqEvent)) : list Sse * Z :=
  match gap with
  | Err latest => ([SseReset latest], latest)
  | Ok events =>
      (omap (λ '(seq, e), if keep e then Some (SseEvent seq e) else None) events,
       foldl (λ _ '(seq, _), seq) last events)
  end.
Definition resume (keep : JobEvent.t → bool) (after : option Z) (gap : Z → result Z (list SeqEvent)) :
    list Sse * Z :=
  match after with
  | None => ([], 0)
  | Some after => recover keep after (gap after)
  end.

(** What a subscriber receives; a lag is answered with the replay at that moment. *)
Inductive Received : Type :=
| Got (e : SeqEvent)
| Lagged (gap : Z → result Z (list SeqEvent))
| Closed.

(** The live loop of [stream_events]. *)
Fixpoint live_events (rx : list Received) (last_seq : Z) : list Sse :=
  match rx with
  | [] | Closed :: _ => []
  | Got (seq, event) :: rx =>
      if seq <=? last_seq then live_events rx last_seq else SseEvent seq event :: live_events rx seq
  | Lagged gap :: rx =>
      let '(out, last_seq) := recover (λ _, true) last_seq (gap last_seq) in
      out ++ live_events rx last_seq
  end.
Definition stream_events (after : option Z) (gap : Z → result Z (list SeqEvent)) (rx : list Received) :
    list Sse :=
  let '(initial, last_seq) := resume (λ _, true) after gap in
  initial ++ live_events rx last_seq.

Definition of_job (id : Uuid) (e : JobEvent.t) : bool := JobEvent.job_id e =? id.
Definition is_done (e : JobEvent.t) : bool :=
  match JobStatus.parse (JobEvent.status e) with Some s => JobStatus.is_terminal s | None => false end.
Fixpoint live_job (id : Uuid) (rx : list Received) (last_seq : Z) : list Sse :=
  match rx with
  | [] | Closed :: _ => []
  | Got (seq, event) :: rx =>
      if seq <=? last_seq then live_job id rx last_seq
      else if negb (of_job id event) then live_job id rx seq
      else SseEvent seq event :: if is_done event then [] else live_job id rx seq
  | Lagged gap :: rx =>
      let '(out, last_seq) := recover (of_job id) last_seq (gap last_seq) in
      out ++ live_job id rx last_seq
  end.
Definition snapshot_of (job : Job.t) : JobEvent.t :=
  JobEvent.mk (Job.id job) (Job.app job) (JobStatus.as_str (Job.status job)) (Job.result job)
    (Job.error job) None None.
(** [job]: the row read after the subscription, when the client resumes from nowhere. *)
Definition stream_job (id : Uuid) (after : option Z) (job : option Job.t)
    (gap : Z → result Z (list SeqEvent)) (rx : list Received) : list Sse :=
  let snapshot := match after with None => job | Some _ => None end in
  let '(replayed, last_seq) := resume (of_job id) after gap in
  replayed ++
    match snapshot with
    | Some job =>
        SseSnapshot (snapshot_of job)
        :: if JobStatus.is_terminal (Job.status job) then [] else live_job id rx last_seq
    | None => live_job id rx last_seq
    end.

(** ** The page of the log *)

Module EventLogPage.
Record t : Type := mk {
  events : EventLog.events; count : nat; next_after : option Z; latest_seq : Z; retained : Z; pending : nat }.
End EventLogPage.
Definition event_log (after limit : option Z) (kind app : option string) (store_ok : bool) (now : timestamp)
    (b : Bus.t) (log : events) : Bus.t * EventLog.events * option EventLogPage.t :=
  if negb (Bus.logs b) then (b, log, None)
  else
    let '(b, log, _) := persist_pending store_ok now b log in
    let limit := Z.min (Z.max (default 100 limit) 1) MAX_LOG_PAGE in
    let after := Z.max (default 0 after) 0 in
    let page := events_after after kind app limit log in
    let next_after := if Z.of_nat (length page) =? limit then EventRecord.seq <$> last page else None in
    (b, log, Some (EventLogPage.mk page (length page) next_after (Bus.seq b) (count_events log) (Bus.pending_len b))).

(** The sequence of a new process picks up at the log's. *)
Definition boot (b : Bus.t) (log : events) : Bus.t :=
  if Bus.logs b then Bus.seed_seq (max_event_seq log) b else b.
