(* ===== verification/EventBusTheorems.v ===== *)
(** * EventBusTheorems: no event lost unsaid

    The ring and the queue as the steps of their users: what a replay answers, where each
    emitted event is, what resuming from the log gives back, and where the bookkeeping of the
    code stops short of it. *)

From stdpp Require Import relations.
From S2P Require Import Prelude Sql Float64 Json Jobs JobQueue EventLog EventTheorems Triggers EventBus.

Section bus.
Context `{JsonRender, UuidText}.
Implicit Types (b : Bus.t) (h : list SeqEvent).

(** ** The ring *)

Fixpoint total (l : list Buffered.t) : Z :=
  match l with [] => 0 | e :: l => Buffered.bytes e + total l end.
Definition ring_events b : list SeqEvent := map Buffered.event (Bus.ring b).

(** The ring is the newest part of what was emitted, within its bounds. *)
Definition ring_ok (h : list SeqEvent) b : Prop :=
  (∃ old, h = old ++ ring_events b)
  ∧ (h ≠ [] → ring_events b ≠ [])
  ∧ (length (Bus.ring b) ≤ Bus.capacity b)%nat
  ∧ Bus.ring_bytes b = total (Bus.ring b)
  ∧ (Bus.ring_bytes b ≤ Bus.max_bytes b ∨ (length (Bus.ring b) ≤ 1)%nat).

Lemma perm_slot {A} (l q q' lost r : list A) x :
  q ++ [x] ≡ₚ q' ++ lost → ((l ++ q) ++ r) ++ [x] ≡ₚ (l ++ q') ++ lost ++ r.
Proof.
  intros Hq. by rewrite <- (app_assoc (l ++ q)), (Permutation_app_comm r), app_assoc, <- (app_assoc l q), Hq, !app_assoc.
Qed.
Lemma filter_map_swap {A B} (f : A → B) (p : B → bool) l :
  List.filter p (map f l) = map f (List.filter (λ x, p (f x)) l).
Proof. induction l as [|x l IH]; cbn; [done|]. rewrite IH. by destruct (p (f x)). Qed.
Lemma filter_false {A} (p : A → bool) l : (∀ x, x ∈ l → p x = false) → List.filter p l = [].
Proof.
  induction l as [|x l IH]; cbn; intros Hp; [done|]. rewrite (Hp x) by by left. apply IH. intros y Hy. apply Hp. by right.
Qed.
Lemma total_app l l' : total (l ++ l') = total l + total l'.
Proof. induction l as [|x l IH]; cbn; [done|]. rewrite IH. lia. Qed.

(** What eviction and queueing leave alone. *)
Definition same_shape b b' : Prop :=
  Bus.seq b' = Bus.seq b ∧ Bus.capacity b' = Bus.capacity b ∧ Bus.max_bytes b' = Bus.max_bytes b
  ∧ Bus.pending_capacity b' = Bus.pending_capacity b.
Lemma same_shape_refl b : same_shape b b.
Proof. by split_and!. Qed.
Lemma same_shape_trans b1 b2 b3 : same_shape b1 b2 → same_shape b2 b3 → same_shape b1 b3.
Proof. unfold same_shape. intuition congruence. Qed.

Lemma evict_spec fuel : ∀ b,
  (length (Bus.ring b) ≤ fuel)%nat → (1 ≤ Bus.capacity b)%nat → Bus.ring b ≠ [] → Bus.ring_bytes b = total (Bus.ring b) →
  let b' := evict fuel b in
  same_shape b b' ∧ (∃ old, Bus.ring b = old ++ Bus.ring b') ∧ Bus.ring b' ≠ []
  ∧ (length (Bus.ring b') ≤ Bus.capacity b')%nat ∧ Bus.ring_bytes b' = total (Bus.ring b')
  ∧ (Bus.ring_bytes b' ≤ Bus.max_bytes b' ∨ (length (Bus.ring b') ≤ 1)%nat).
Proof.
  induction fuel as [|fuel IH]; intros b Hl Hc Hne Hb.
  { destruct (Bus.ring b); [done|cbn in Hl; lia]. }
  cbn [evict]. destruct (_ || _) eqn:E.
  - destruct (Bus.ring b) as [|old ring] eqn:Er; [done|].
    set (b1 := b <| Bus.ring := ring |> <| Bus.ring_bytes ::= _ |>).
    assert (1 < length (old :: ring))%nat as Hmany.
    { apply orb_true_iff in E as [?%Nat.ltb_lt|[_ ?%Nat.ltb_lt]%andb_true_iff]; lia. }
    destruct (IH b1) as (Hs & (o & Ho) & Hr).
    { cbn. cbn in Hl. lia. } { done. } { cbn. by destruct ring; [cbn in Hmany; lia|]. }
    { cbn. rewrite Hb. cbn. lia. }
    split; [exact Hs|]. split_and!; try done; try apply Hr. exists (old :: o). cbn. f_equal. exact Ho.
  - apply orb_false_iff in E as [E1%Nat.ltb_ge E2].
    split; [apply same_shape_refl|]. split_and!; try done; [by exists []|].
    apply andb_false_iff in E2 as [?%Z.ltb_ge|?%Nat.ltb_ge]; lia.
Qed.

(** Eviction leaves the queue and its counters alone. *)
Lemma evict_same fuel : ∀ b,
  Bus.pending (evict fuel b) = Bus.pending b
  ∧ Bus.dropped_before_persist (evict fuel b) = Bus.dropped_before_persist b
  ∧ Bus.lifecycle_dropped_before_persist (evict fuel b) = Bus.lifecycle_dropped_before_persist b.
Proof.
  induction fuel as [|fuel IH]; intros b; cbn [evict]; [done|]. case_match; [|done].
  destruct (Bus.ring b); [apply IH|]. match goal with |- context [evict fuel ?b1] => exact (IH b1) end.
Qed.

Lemma make_room_shape fuel p : ∀ b q,
  let r := make_room fuel p b q in
  same_shape b r.1.1 ∧ Bus.ring r.1.1 = Bus.ring b ∧ Bus.ring_bytes r.1.1 = Bus.ring_bytes b
  ∧ Bus.pending r.1.1 = Bus.pending b.
Proof.
  induction fuel as [|fuel IH]; intros b q; cbn [make_room]; [by split_and!|].
  case_match; [by split_and!|]. case_match.
  - exact (IH (count_dropped b) (delete n q)).
  - case_match; [by split_and!|]. exact (IH (count_dropped (count_lifecycle b)) (tail q)).
Qed.

Lemma queue_shape seq e b :
  let b' := queue_for_log seq e b in
  same_shape b b' ∧ Bus.ring b' = Bus.ring b ∧ Bus.ring_bytes b' = Bus.ring_bytes b.
Proof.
  cbn. unfold queue_for_log. destruct (Bus.pending b) as [q|]; [|by split_and!].
  destruct (make_room_shape (S (length q)) (String.eqb (event_kind e) PROGRESS_KIND) b q) as (Hs & Hr & Hb & _).
  destruct (make_room _ _ _ _) as [[b' q'] room]. cbn [fst] in *. split; [exact Hs|]. split; [exact Hr|exact Hb].
Qed.

Lemma emit_ring h e b :
  (1 ≤ Bus.capacity b)%nat → ring_ok h b →
  ring_ok (h ++ [(Bus.seq b + 1, e)]) (emit e b).1 ∧ Bus.seq (emit e b).1 = Bus.seq b + 1
  ∧ Bus.capacity (emit e b).1 = Bus.capacity b ∧ Bus.pending_capacity (emit e b).1 = Bus.pending_capacity b.
Proof.
  intros Hcap ((old & Hh) & _ & _ & Hbytes & _). unfold emit.
  set (b1 := buffer (Bus.seq b + 1) e b).
  destruct (queue_shape (Bus.seq b + 1) e b1) as ((Hq & Hc & Hm & Hpc) & Hr & Hb).
  set (b2 := queue_for_log (Bus.seq b + 1) e b1) in *. cbn [fst].
  destruct (evict_spec (length (Bus.ring b2)) b2) as ((Hq' & Hc' & Hm' & Hpc') & (o & Ho) & Hne & Hrest).
  - done.
  - by rewrite Hc.
  - rewrite Hr. cbn. by destruct (Bus.ring b).
  - rewrite Hb, Hr. cbn. rewrite total_app, Hbytes. cbn. lia.
  - split_and!.
    + split_and!; try apply Hrest.
      * exists (old ++ map Buffered.event o). unfold ring_events. rewrite <- app_assoc, <- map_app, <- Ho, Hr.
        cbn. rewrite map_app, app_assoc. by rewrite Hh.
      * intros _. unfold ring_events. by destruct (Bus.ring (evict _ _)).
    + by rewrite Hq', Hq.
    + by rewrite Hc', Hc.
    + by rewrite Hpc', Hpc.
Qed.

(** ** Making room in the queue *)

Lemma position_Some {A} (p : A → bool) l i : position p l = Some i → ∃ x, l !! i = Some x ∧ p x = true.
Proof.
  revert i. induction l as [|x l IH]; intros i; cbn; [done|]. destruct (p x) eqn:E.
  - intros [= <-]. by exists x.
  - destruct (position p l) as [j|]; [|done]. intros [= <-]. by apply IH.
Qed.
Lemma position_None {A} (p : A → bool) l : position p l = None → ∀ x, x ∈ l → p x = false.
Proof.
  induction l as [|x l IH]; cbn; [by intros _ ? ?%elem_of_nil|]. destruct (p x) eqn:E; [done|].
  destruct (position p l); [done|]. intros _ y [->|Hy]%elem_of_cons; [done|by apply IH].
Qed.

Definition transitions (l : list NewEvent.t) : Z :=
  Z.of_nat (length (List.filter (λ e, negb (is_progress_row e)) l)).
Lemma transitions_app l l' : transitions (l ++ l') = transitions l + transitions l'.
Proof. unfold transitions. rewrite List.filter_app, length_app. lia. Qed.
Lemma transitions_perm l l' : l ≡ₚ l' → transitions l = transitions l'.
Proof.
  unfold transitions. induction 1; cbn; repeat case_match; cbn; lia.
Qed.
Lemma transitions_nonneg l : 0 ≤ transitions l.
Proof. unfold transitions. lia. Qed.

(** What makes room is shed and counted, by its class; only a progress sample is refused. *)
Lemma make_room_spec fuel p : ∀ b q, (length q < fuel)%nat → (1 ≤ Bus.pending_capacity b)%nat →
  let '(b', q', room) := make_room fuel p b q in
  ∃ lost, q ≡ₚ q' ++ lost
    ∧ sublist q' q
    ∧ (room = true → (length q' < Bus.pending_capacity b)%nat)
    ∧ (room = false → p = true ∧ (length q' ≤ length q)%nat)
    ∧ Bus.dropped_before_persist b'
      = Bus.dropped_before_persist b + Z.of_nat (length lost) + (if room then 0 else 1)
    ∧ Bus.lifecycle_dropped_before_persist b' = Bus.lifecycle_dropped_before_persist b + transitions lost.
Proof.
  induction fuel as [|fuel IH]; intros b q Hf Hc; [lia|]. cbn [make_room].
  destruct (Nat.ltb_spec (length q) (Bus.pending_capacity b)) as [Hl|Hl].
  { exists []. rewrite app_nil_r. unfold transitions. cbn. split_and!; try done; lia. }
  destruct (position is_progress_row q) as [i|] eqn:Ep.
  - destruct (position_Some _ _ _ Ep) as (x & Hx & Hpx).
    pose proof (delete_Permutation _ _ _ Hx) as Hperm. pose proof (Permutation_length Hperm) as Hlen. cbn in Hlen.
    specialize (IH (count_dropped b) (delete i q)).
    destruct (make_room fuel p (count_dropped b) (delete i q)) as [[b' q'] room].
    destruct IH as (lost & Hp' & Hsub & Hr & Hnr & Hd & Hld); [lia|done|].
    exists (x :: lost). split_and!; try done.
    + rewrite Hperm, Hp'. by rewrite Permutation_middle.
    + etrans; [exact Hsub|]. apply sublist_delete.
    + intros Hroom. destruct (Hnr Hroom). split; [done|lia].
    + rewrite Hd. cbn. lia.
    + rewrite Hld. unfold transitions. cbn. by rewrite Hpx.
  - pose proof (position_None _ _ Ep) as Hno. destruct p eqn:Ep'.
    + exists []. rewrite app_nil_r. unfold transitions. cbn. split_and!; try done; lia.
    + destruct q as [|x q]; [cbn in Hl; lia|]. cbn [tail].
      specialize (IH (count_dropped (count_lifecycle b)) q).
      destruct (make_room fuel false _ q) as [[b' q'] room].
      destruct IH as (lost & Hp' & Hsub & Hr & Hnr & Hd & Hld); [cbn in Hf; lia|done|].
      exists (x :: lost). split_and!; try done.
      * rewrite Hp'. by rewrite Permutation_middle.
      * by apply sublist_cons.
      * intros Hroom. by destruct (Hnr Hroom).
      * rewrite Hd. cbn. lia.
      * rewrite Hld. unfold transitions. cbn. rewrite (Hno x) by by left. cbn. lia.
Qed.
End bus.

(** ** The bus, its log and its flushers as one system *)

Module Sys.
(** [flight]: the batches taken off the queue and not yet written; [lost]: what was shed. *)
Record t : Type := mk {
  bus : Bus.t; log : events; flight : list (list NewEvent.t); emitted : list SeqEvent }.
End Sys.

Definition row (now : timestamp) (e : NewEvent.t) : EventRecord.t :=
  EventRecord.mk (NewEvent.seq e) (NewEvent.kind e) (NewEvent.app e) (NewEvent.subject_id e)
    (NewEvent.payload e) now.
Definition unrow (r : EventRecord.t) : NewEvent.t :=
  NewEvent.mk (EventRecord.seq r) (EventRecord.kind r) (EventRecord.app r) (EventRecord.subject_id r)
    (EventRecord.payload r).

Section system.
Context `{JsonRender, UuidText}.

Inductive bus_step : Sys.t → Sys.t → Prop :=
| step_emit e b log flight h :
    bus_step (Sys.mk b log flight h) (Sys.mk (emit e b).1 log flight (h ++ [(Bus.seq b + 1, e)]))
| step_take b log flight h :
    (take_pending b).2 ≠ [] →
    bus_step (Sys.mk b log flight h) (Sys.mk (take_pending b).1 log (flight ++ [(take_pending b).2]) h)
| step_land i batch now b log flight h :
    flight !! i = Some batch →
    bus_step (Sys.mk b log flight h) (Sys.mk b (append_events now batch log).1 (delete i flight) h)
| step_fail i batch b log flight h :
    flight !! i = Some batch →
    bus_step (Sys.mk b log flight h) (Sys.mk (put_back batch b) log (delete i flight) h).

(** A new process over what the log holds. *)
Definition fresh_bus (capacity pending_capacity : nat) (max_bytes : Z) : Bus.t :=
  Bus.with_log pending_capacity (Bus.with_byte_budget capacity max_bytes).
Definition start (capacity pending_capacity : nat) (max_bytes : Z) (log : events) : Sys.t :=
  Sys.mk (boot (fresh_bus capacity pending_capacity max_bytes) log) log [] [].

Section reached.
Context (log0 : events).
#[local] Abbreviation seq0 := (Z.max 0 (max_event_seq log0)).

Definition owed (h : list SeqEvent) : list NewEvent.t := map (λ '(s, e), new_event s e) h.
Definition queue (b : Bus.t) : list NewEvent.t := default [] (Bus.pending b).
(** Where the emitted events are. *)
Definition landed (s : Sys.t) : list NewEvent.t := map unrow (drop (length log0) (Sys.log s)).
Definition placed (s : Sys.t) : list NewEvent.t :=
  landed s ++ concat (Sys.flight s) ++ queue (Sys.bus s).

Definition counted (s : Sys.t) : Prop :=
  Bus.logs (Sys.bus s) = true
  ∧ (1 ≤ Bus.capacity (Sys.bus s))%nat ∧ (1 ≤ Bus.pending_capacity (Sys.bus s))%nat
  ∧ ring_ok (Sys.emitted s) (Sys.bus s)
  ∧ Bus.seq (Sys.bus s) = seq0 + Z.of_nat (length (Sys.emitted s))
  ∧ map fst (Sys.emitted s) = seqZ (seq0 + 1) (Z.of_nat (length (Sys.emitted s)))
  ∧ (∃ new, Sys.log s = log0 ++ new)
  ∧ (length (queue (Sys.bus s)) ≤ Bus.pending_capacity (Sys.bus s))%nat
  ∧ ∃ shed over, owed (Sys.emitted s) ≡ₚ placed s ++ shed ++ over
      ∧ Bus.dropped_before_persist (Sys.bus s) = Z.of_nat (length (shed ++ over))
      ∧ Bus.lifecycle_dropped_before_persist (Sys.bus s) = transitions shed.

Lemma owed_seqs h : map NewEvent.seq (owed h) = map fst h.
Proof. unfold owed. rewrite map_map. apply map_ext. by intros []. Qed.

Lemma placed_fresh s : counted s → NoDup (map NewEvent.seq (placed s))
  ∧ ∀ e, e ∈ placed s → seq0 < NewEvent.seq e.
Proof.
  intros (_ & _ & _ & _ & _ & Hseq & _ & _ & shed & over & Hp & _).
  assert (map NewEvent.seq (placed s) ++ map NewEvent.seq (shed ++ over) ≡ₚ seqZ (seq0 + 1) (Z.of_nat (length (Sys.emitted s)))) as Hm.
  { rewrite <- Hseq, <- owed_seqs, <- map_app. apply Permutation_map. by symmetry. }
  split.
  - pose proof (NoDup_seqZ (seq0 + 1) (Z.of_nat (length (Sys.emitted s)))) as Hn.
    rewrite <- Hm in Hn. by apply NoDup_app in Hn as [? _].
  - intros e He. assert (NewEvent.seq e ∈ seqZ (seq0 + 1) (Z.of_nat (length (Sys.emitted s)))) as Hin.
    { rewrite <- Hm. apply elem_of_app. left. by apply list_elem_of_fmap_2. }
    apply elem_of_seqZ in Hin. lia.
Qed.

Lemma append_fresh now batch : ∀ log,
  NoDup (map NewEvent.seq batch) → (∀ e, e ∈ batch → NewEvent.seq e ∉ map EventRecord.seq log) →
  (append_events now batch log).1 = log ++ map (row now) batch.
Proof.
  induction batch as [|e batch IH]; intros log Hn Hf; cbn [append_events map]; [by rewrite app_nil_r|].
  cbn [map] in Hn. apply NoDup_cons in Hn as [Hout Hn].
  unfold insert_event. rewrite (proj2 (lookup_by_None _ _ _)) by (apply Hf; by left). cbn [is_some].
  fold (row now e). specialize (IH (log ++ [row now e]) Hn).
  destruct (append_events now batch (log ++ [row now e])) as [t n]. cbn [fst] in *.
  rewrite IH; [by rewrite <- app_assoc|]. intros e' He'. rewrite map_app. cbn.
  intros [Hin|Hin%list_elem_of_singleton]%elem_of_app.
  - eapply Hf; [by right|exact Hin].
  - apply Hout. rewrite <- Hin. by apply list_elem_of_fmap_2.
Qed.
Lemma unrow_row now e : unrow (row now e) = e.
Proof. by destruct e. Qed.

Lemma max_seq_ge (t : events) r : r ∈ t → EventRecord.seq r ≤ max_event_seq t.
Proof.
  unfold max_event_seq, coalesce.
  assert (∀ l m, (match m with Some x => x | None => EventRecord.seq r end) ≤
            default 0 (foldl (λ m r, match m with
                          | Some x => Some (Z.max x (EventRecord.seq r))
                          | None => Some (EventRecord.seq r) end) (Some (match m with Some x => x | None => EventRecord.seq r end)) l)
          ∧ (∀ x, r ∈ l → EventRecord.seq r ≤ default 0 (foldl (λ m r, match m with
                          | Some x => Some (Z.max x (EventRecord.seq r))
                          | None => Some (EventRecord.seq r) end) (Some x) l))) as Hgo.
  { induction l as [|y l IH]; intros m; cbn.
    - split; [lia|]. intros x []%elem_of_nil.
    - split.
      + destruct (IH (Some (Z.max (match m with Some x => x | None => EventRecord.seq r end) (EventRecord.seq y)))) as [Hle _].
        cbn in Hle. lia.
      + intros x [->|Hin]%elem_of_cons; [|by apply (IH None)].
        destruct (IH (Some (Z.max x (EventRecord.seq y)))) as [Hle _]. cbn in Hle. lia. }
  intros Hin. destruct t as [|y t]; [by apply elem_of_nil in Hin|]. cbn.
  apply elem_of_cons in Hin as [->|Hin].
  - by destruct (Hgo t (Some (EventRecord.seq y))) as [? _].
  - by apply (Hgo t None).
Qed.

(** *** Each step keeps the account *)

Lemma queue_for_log_spec seq e b :
  Bus.logs b = true → (1 ≤ Bus.pending_capacity b)%nat →
  (length (queue b) ≤ Bus.pending_capacity b)%nat →
  let b' := queue_for_log seq e b in
  Bus.logs b' = true ∧ (length (queue b') ≤ Bus.pending_capacity b)%nat
  ∧ ∃ lost, queue b ++ [new_event seq e] ≡ₚ queue b' ++ lost
      ∧ sublist (queue b') (queue b ++ [new_event seq e])
      ∧ Bus.dropped_before_persist b' = Bus.dropped_before_persist b + Z.of_nat (length lost)
      ∧ Bus.lifecycle_dropped_before_persist b' = Bus.lifecycle_dropped_before_persist b + transitions lost.
Proof.
  unfold Bus.logs, queue_for_log, queue. destruct (Bus.pending b) as [q|] eqn:Eq; [|done]. intros _ Hc Hq.
  set (p := String.eqb (event_kind e) PROGRESS_KIND). cbn in Hq.
  pose proof (make_room_spec (S (length q)) p b q ltac:(lia) Hc) as Hspec.
  destruct (make_room (S (length q)) p b q) as [[b' q'] room].
  destruct Hspec as (lost & Hp & Hsub & Hr & Hnr & Hd & Hl). cbn.
  split; [done|]. destruct room.
  - split; [rewrite length_app; cbn; specialize (Hr eq_refl); lia|]. exists lost. split_and!.
    + rewrite Hp, <- !app_assoc. by rewrite (Permutation_app_comm lost).
    + by apply sublist_app.
    + lia.
    + done.
  - destruct (Hnr eq_refl) as [Hprog Hlen]. split; [lia|]. exists (lost ++ [new_event seq e]). split_and!.
    + by rewrite Hp, <- app_assoc.
    + by apply sublist_inserts_r.
    + rewrite length_app. cbn. lia.
    + rewrite transitions_app. unfold transitions at 2. cbn. unfold is_progress_row, new_event. cbn.
      fold p. rewrite Hprog. cbn. lia.
Qed.

Lemma emit_queue e b :
  Bus.logs b = true → (1 ≤ Bus.capacity b)%nat → (1 ≤ Bus.pending_capacity b)%nat →
  (length (queue b) ≤ Bus.pending_capacity b)%nat →
  let b' := (emit e b).1 in
  Bus.logs b' = true ∧ (length (queue b') ≤ Bus.pending_capacity b)%nat
  ∧ ∃ lost, queue b ++ [new_event (Bus.seq b + 1) e] ≡ₚ queue b' ++ lost
      ∧ sublist (queue b') (queue b ++ [new_event (Bus.seq b + 1) e])
      ∧ Bus.dropped_before_persist b' = Bus.dropped_before_persist b + Z.of_nat (length lost)
      ∧ Bus.lifecycle_dropped_before_persist b' = Bus.lifecycle_dropped_before_persist b + transitions lost.
Proof.
  intros Hlog Hcap Hpc Hq. unfold emit. set (seq := Bus.seq b + 1). set (b1 := buffer seq e b).
  pose proof (queue_for_log_spec seq e b1 Hlog Hpc Hq) as Hspec.
  destruct (evict_same (length (Bus.ring (queue_for_log seq e b1))) (queue_for_log seq e b1)) as (Hp & Hd & Hl).
  cbn [fst] in *. unfold Bus.logs, queue in *. rewrite Hp, Hd, Hl. exact Hspec.
Qed.

Lemma counted_emit e s :
  counted s →
  counted (Sys.mk (emit e (Sys.bus s)).1 (Sys.log s) (Sys.flight s)
             (Sys.emitted s ++ [(Bus.seq (Sys.bus s) + 1, e)])).
Proof.
  intros (Hlog & Hcap & Hpc & Hring & Hseq & Hseqs & Hnew & Hq & shed & over & Hp & Hd & Hl).
  destruct (emit_ring _ e _ Hcap Hring) as (Hring' & Hs' & Hc' & Hpc').
  destruct (emit_queue e _ Hlog Hcap Hpc Hq) as (Hlog' & Hq' & lost & Hperm & _ & Hd' & Hl').
  split_and!; cbn [Sys.bus Sys.log Sys.emitted]; try done.
  - by rewrite Hc'.
  - by rewrite Hpc'.
  - rewrite Hs', Hseq, length_app. cbn. lia.
  - rewrite map_app, Hseqs, length_app, Nat.add_1_r, seqZ_S.
    f_equal. apply (f_equal (λ x, [x])). cbn. lia.
  - by rewrite Hpc'.
  - exists (lost ++ shed), over. split_and!.
    + unfold owed in *. rewrite map_app, Hp. unfold placed. cbn [map Sys.bus Sys.flight].
      rewrite !(app_assoc (landed _)), <- (app_assoc lost). by apply perm_slot.
    + rewrite Hd', Hd, !length_app. lia.
    + rewrite Hl', Hl, transitions_app. lia.
Qed.

Lemma ring_ok_same h b b' :
  same_shape b b' → Bus.ring b' = Bus.ring b → Bus.ring_bytes b' = Bus.ring_bytes b → ring_ok h b → ring_ok h b'.
Proof. unfold ring_ok, ring_events. by intros (_ & -> & -> & _) -> ->. Qed.

Lemma take_pending_spec b : Bus.logs b = true →
  let b' := (take_pending b).1 in
  same_shape b b' ∧ Bus.ring b' = Bus.ring b ∧ Bus.ring_bytes b' = Bus.ring_bytes b ∧ Bus.logs b' = true
  ∧ (take_pending b).2 = queue b ∧ queue b' = []
  ∧ Bus.dropped_before_persist b' = Bus.dropped_before_persist b
  ∧ Bus.lifecycle_dropped_before_persist b' = Bus.lifecycle_dropped_before_persist b.
Proof. unfold Bus.logs, take_pending, queue, same_shape. by destruct (Bus.pending b). Qed.

Lemma put_back_spec batch b : Bus.logs b = true →
  let b' := put_back batch b in
  same_shape b b' ∧ Bus.ring b' = Bus.ring b ∧ Bus.ring_bytes b' = Bus.ring_bytes b ∧ Bus.logs b' = true
  ∧ (length (queue b') ≤ Bus.pending_capacity b)%nat
  ∧ ∃ over, batch ++ queue b = over ++ queue b'
    ∧ Bus.dropped_before_persist b' = Bus.dropped_before_persist b + Z.of_nat (length over)
    ∧ Bus.lifecycle_dropped_before_persist b' = Bus.lifecycle_dropped_before_persist b.
Proof.
  unfold Bus.logs, put_back, queue, same_shape. destruct (Bus.pending b) as [q|]; [|done]. intros _. cbn.
  set (over := (length (batch ++ q) - Bus.pending_capacity b)%nat).
  split_and!; try done; [rewrite length_drop; subst over; lia|].
  exists (take over (batch ++ q)). rewrite take_drop, length_take. split_and!; try done. subst over. lia.
Qed.

Lemma counted_take s : counted s →
  counted (Sys.mk (take_pending (Sys.bus s)).1 (Sys.log s)
             (Sys.flight s ++ [(take_pending (Sys.bus s)).2]) (Sys.emitted s)).
Proof.
  intros (Hlog & Hcap & Hpc & Hring & Hseq & Hseqs & Hnew & Hq & shed & over & Hp & Hd & Hl).
  destruct (take_pending_spec _ Hlog) as (Hs & Hr & Hb & Hlog' & Hbatch & Hq' & Hd' & Hl').
  pose proof Hs as (Hs1 & Hs2 & _ & Hs4).
  split_and!; cbn [Sys.bus Sys.log Sys.emitted]; try done; try congruence.
  - by eapply ring_ok_same.
  - rewrite Hq'. cbn. lia.
  - exists shed, over. rewrite Hd', Hl'. split_and!; try done. rewrite Hp. unfold placed, landed.
    cbn [Sys.bus Sys.flight Sys.log]. rewrite Hq', Hbatch, app_nil_r, concat_app. cbn. by rewrite app_nil_r.
Qed.

Lemma concat_delete {A} (ll : list (list A)) i l :
  ll !! i = Some l → concat ll ≡ₚ l ++ concat (delete i ll).
Proof. intros Hi. by rewrite (delete_Permutation _ _ _ Hi) at 1. Qed.

Lemma counted_fail i batch s : Sys.flight s !! i = Some batch → counted s →
  counted (Sys.mk (put_back batch (Sys.bus s)) (Sys.log s) (delete i (Sys.flight s)) (Sys.emitted s)).
Proof.
  intros Hi (Hlog & Hcap & Hpc & Hring & Hseq & Hseqs & Hnew & Hq & shed & over & Hp & Hd & Hl).
  destruct (put_back_spec batch _ Hlog) as (Hs & Hr & Hb & Hlog' & Hq' & over' & Ho & Hd' & Hl').
  pose proof Hs as (Hs1 & Hs2 & _ & Hs4).
  split_and!; cbn [Sys.bus Sys.log Sys.emitted]; try done; try congruence.
  - by eapply ring_ok_same.
  - exists shed, (over ++ over'). rewrite Hd', Hl', Hd. split_and!; try done; [|rewrite !length_app; lia].
    rewrite Hp. unfold placed, landed. cbn [Sys.bus Sys.flight Sys.log].
    rewrite (concat_delete _ _ _ Hi), (Permutation_app_comm batch), <- (app_assoc _ batch), Ho.
    rewrite (Permutation_app_comm over'), <- !app_assoc. do 3 f_equiv. by rewrite (Permutation_app_comm over'), <- app_assoc.
Qed.

Lemma counted_land i batch now s : Sys.flight s !! i = Some batch → counted s →
  counted (Sys.mk (Sys.bus s) (append_events now batch (Sys.log s)).1 (delete i (Sys.flight s)) (Sys.emitted s)).
Proof.
  intros Hi Hc. pose proof (placed_fresh s Hc) as [Hnd Hfresh].
  destruct Hc as (Hlog & Hcap & Hpc & Hring & Hseq & Hseqs & (new & Hnew) & Hq & shed & over & Hp & Hd & Hl).
  assert (placed s ≡ₚ landed s ++ batch ++ concat (delete i (Sys.flight s)) ++ queue (Sys.bus s)) as Hpl.
  { unfold placed. by rewrite (concat_delete _ _ _ Hi), <- !app_assoc. }
  assert (landed s = map unrow new) as Hland by (unfold landed; by rewrite Hnew, drop_app_length).
  rewrite append_fresh.
  - split_and!; cbn [Sys.bus Sys.log Sys.emitted]; try done.
    + exists (new ++ map (row now) batch). by rewrite Hnew, app_assoc.
    + exists shed, over. split_and!; try done. rewrite Hp, Hpl. f_equiv. unfold placed, landed.
      cbn [Sys.bus Sys.flight Sys.log]. rewrite Hnew, <- app_assoc, !drop_app_length, map_app, map_map.
      rewrite <- !app_assoc. rewrite (map_ext _ id (unrow_row now)), map_id. done.
  - rewrite Hpl, !map_app in Hnd. by apply NoDup_app in Hnd as (_ & _ & (? & _ & _)%NoDup_app).
  - intros e He Hin. assert (e ∈ placed s) as Hep.
    { rewrite Hpl. rewrite !elem_of_app. by right; left. }
    rewrite Hnew, map_app in Hin. apply elem_of_app in Hin as [Hin|Hin].
    + apply list_elem_of_fmap in Hin as (r & Hr & Hin). pose proof (max_seq_ge _ _ Hin). specialize (Hfresh _ Hep). lia.
    + rewrite Hpl, !map_app in Hnd. apply NoDup_app in Hnd as (_ & Hdis & _).
      apply (Hdis (NewEvent.seq e)).
      * rewrite Hland, map_map. exact Hin.
      * apply elem_of_app. left. by apply list_elem_of_fmap_2.
Qed.

Lemma counted_step s s' : bus_step s s' → counted s → counted s'.
Proof.
  destruct 1 as [| |i batch now b log flight h Hi|i batch b log flight h Hi]; intros Hc.
  - exact (counted_emit e _ Hc).
  - exact (counted_take _ Hc).
  - exact (counted_land i batch now (Sys.mk b log flight h) Hi Hc).
  - exact (counted_fail i batch (Sys.mk b log flight h) Hi Hc).
Qed.
Lemma counted_start capacity pending_capacity max_bytes : counted (start capacity pending_capacity max_bytes log0).
Proof.
  unfold start, boot, fresh_bus. cbn [Bus.logs Bus.with_log Bus.with_byte_budget Bus.pending is_some].
  split_and!; cbn; try done; try lia.
  - split_and!; cbn; try done; try lia. by exists [].
  - exists []. by rewrite app_nil_r.
  - exists [], []. unfold placed, landed. cbn. by rewrite drop_all.
Qed.
Lemma counted_reached capacity pending_capacity max_bytes s :
  rtc bus_step (start capacity pending_capacity max_bytes log0) s → counted s.
Proof.
  intros Hr. assert (∀ a, rtc bus_step a s → counted a → counted s) as Hgo.
  { clear Hr. induction 1 as [|a c d Hac Hcd IH]; [done|]. intros Ha. exact (IH (counted_step _ _ Hac Ha)). }
  exact (Hgo _ Hr (counted_start _ _ _)).
Qed.

(** The ring answers from where it starts. *)
Lemma replay_spec s after :
  counted s → Sys.emitted s ≠ [] → Bus.seq (Sys.bus s) ≤ u64_max →
  ∃ evicted, Sys.emitted s = evicted ++ ring_events (Sys.bus s)
    ∧ replay after (Sys.bus s)
      = if after <? seq0 + Z.of_nat (length evicted) then Reset_
        else Events (List.filter (λ e, after <? e.1) (Sys.emitted s)).
Proof.
  intros (_ & _ & _ & ((old & Hold) & Hne & _) & Hseq & Hseqs & _) Hem Hmax.
  exists old. split; [done|]. specialize (Hne Hem). unfold replay, ring_events in *.
  destruct (Bus.ring (Sys.bus s)) as [|front rest] eqn:Er; [done|].
  assert ((Buffered.event front).1 = seq0 + 1 + Z.of_nat (length old)) as Hfront.
  { assert (map fst (Sys.emitted s) !! length old = Some (Buffered.event front).1) as Hl.
    { rewrite Hold, map_app, lookup_app_r by (rewrite length_map; lia). by rewrite length_map, Nat.sub_diag. }
    rewrite Hseqs in Hl. apply lookup_seqZ in Hl as [-> _]. done. }
  assert ((Buffered.event front).1 ≤ Bus.seq (Sys.bus s)) as Hle.
  { rewrite Hfront, Hseq, Hold, length_app. cbn. lia. }
  rewrite Hfront in *. destruct (Z.ltb_spec after (seq0 + Z.of_nat (length old))) as [Ha|Ha].
  - by rewrite (proj2 (Z.ltb_lt _ _)) by lia.
  - rewrite (proj2 (Z.ltb_ge _ _)) by lia. f_equal. rewrite Hold, List.filter_app, filter_map_swap.
    rewrite <- (app_nil_l (map _ _)). f_equal. symmetry. apply filter_false. intros e He.
    assert (e.1 ∈ seqZ (seq0 + 1) (Z.of_nat (length old))) as Hin.
    { pose proof Hseqs as Hs. rewrite Hold, map_app, length_app, Nat2Z.inj_add, seqZ_app in Hs by lia.
      apply app_inj_1 in Hs as [<- _]; [by apply list_elem_of_fmap_2|]. rewrite length_map, length_seqZ. lia. }
    apply elem_of_seqZ in Hin. apply Z.ltb_ge. lia.
Qed.

(** *** Streams over a reached system *)

Lemma in_order_last (h : list SeqEvent) m after :
  map fst h = seqZ m (Z.of_nat (length h)) → m - 1 ≤ after →
  foldl (λ _ '(seq, _), seq) after (List.filter (λ e, after <? e.1) h)
  = Z.max after (m - 1 + Z.of_nat (length h)).
Proof.
  intros Hm Ha. induction h as [|[x e] h IH] using rev_ind; [cbn; lia|].
  rewrite map_app, length_app, Nat.add_1_r, seqZ_S in Hm. cbn in Hm. apply app_inj_2 in Hm as [Hm [= ->]]; [|done].
  rewrite List.filter_app, foldl_app, IH, length_app by done. cbn.
  destruct (Z.ltb_spec after (m + Z.of_nat (length h))); cbn; lia.
Qed.
Lemma in_order_first (h : list SeqEvent) : ∀ m after,
  map fst h = seqZ m (Z.of_nat (length h)) → m - 1 ≤ after < m - 1 + Z.of_nat (length h) →
  first_is (after + 1) (List.filter (λ e, after <? e.1) h) = true.
Proof.
  induction h as [|[x e] h IH]; intros m after Hm Ha; [cbn in Ha; lia|].
  cbn [length map fst] in Hm. rewrite seqZ_cons in Hm by lia. injection Hm as -> Hm.
  cbn [List.filter fst]. destruct (Z.ltb_spec after m).
  - cbn. apply Z.eqb_eq. lia.
  - apply (IH (Z.succ m)); [rewrite Hm; f_equal; lia|cbn in Ha; lia].
Qed.
Lemma in_order_split (h1 h2 : list SeqEvent) m : map fst (h1 ++ h2) = seqZ m (Z.of_nat (length (h1 ++ h2))) →
  map fst h1 = seqZ m (Z.of_nat (length h1))
  ∧ map fst h2 = seqZ (m + Z.of_nat (length h1)) (Z.of_nat (length h2)).
Proof.
  rewrite map_app, length_app, Nat2Z.inj_add, seqZ_app by lia. intros Heq.
  apply app_inj_1 in Heq; [done|]. by rewrite length_map, length_seqZ, Nat2Z.id.
Qed.
Lemma in_order_bounds (h : list SeqEvent) m : map fst h = seqZ m (Z.of_nat (length h)) →
  ∀ e, e ∈ h → m ≤ e.1 ≤ m - 1 + Z.of_nat (length h).
Proof.
  intros Hm e He. assert (e.1 ∈ seqZ m (Z.of_nat (length h))) as Hin by (rewrite <- Hm; by apply list_elem_of_fmap_2).
  apply elem_of_seqZ in Hin. lia.
Qed.

Lemma omap_map_Sse (h : list SeqEvent) :
  omap (λ '(seq, e), if (λ _, true) e then Some (SseEvent seq e) else None) h = map (λ e, SseEvent e.1 e.2) h.
Proof. induction h as [|[x e] h IH]; [done|]. cbn. f_equal. exact IH. Qed.

(** A subscriber that never lags is sent what follows its position, once. *)
Lemma live_got h : ∀ m last, map fst h = seqZ m (Z.of_nat (length h)) →
  live_events (map Got h) last
  = map (λ e, SseEvent e.1 e.2) (List.filter (λ e, last <? e.1) h).
Proof.
  induction h as [|[x e] h IH]; intros m last Hm; [done|].
  cbn [length map fst] in Hm. rewrite seqZ_cons in Hm by lia. injection Hm as -> Hm.
  replace (Z.pred (Z.of_nat (S (length h)))) with (Z.of_nat (length h)) in Hm by lia.
  cbn [map live_events List.filter fst]. destruct (Z.leb_spec m last) as [Hle|Hlt].
  - rewrite (proj2 (Z.ltb_ge _ _)) by lia. by apply (IH (Z.succ m)).
  - rewrite (proj2 (Z.ltb_lt _ _)) by lia. cbn. f_equal. rewrite (IH (Z.succ m)) by done. f_equal.
    apply filter_ext_in. intros a Ha%list_elem_of_In. pose proof (in_order_bounds _ _ Hm a Ha).
    rewrite !(proj2 (Z.ltb_lt _ _)) by lia. done.
Qed.

Lemma emitted_extends s s' : rtc bus_step s s' → ∃ more, Sys.emitted s' = Sys.emitted s ++ more.
Proof.
  induction 1 as [s|s1 s2 s3 Hs _ [more IH]]; [exists []; by rewrite app_nil_r|].
  rewrite IH. destruct Hs; cbn; [|by exists more..]. exists ((Bus.seq b + 1, e) :: more). by rewrite <- app_assoc.
Qed.

Section resumed.
Context (parse_uuid : string → option Uuid) (store_ok : bool) (read_ok : nat → bool) (now : timestamp).

(** What a client that asks at [s] is answered. *)
Definition gap_at (s : Sys.t) (after : Z) : result Z (list SeqEvent) :=
  (replay_or_log parse_uuid store_ok read_ok now after (Sys.bus s) (Sys.log s)).2.
(** Nothing is missing, or the next event is still in the ring. *)
Definition within_ring (after : Z) (b : Bus.t) : bool :=
  (Bus.seq b <=? after) || existsb (λ e, e.1 =? after + 1) (ring_events b).

Lemma gap_within_ring s after :
  counted s → Bus.seq (Sys.bus s) ≤ u64_max → within_ring after (Sys.bus s) = true →
  seq0 ≤ after ∧ gap_at s after = Ok (List.filter (λ e, after <? e.1) (Sys.emitted s)).
Proof.
  intros Hc Hmax Hin. pose proof Hc as (_ & _ & _ & _ & Hseq & Hseqs & _).
  unfold gap_at, replay_or_log, within_ring in *. destruct (Z.leb_spec (Bus.seq (Sys.bus s)) after) as [Hle|Hlt].
  - split; [lia|]. cbn. f_equal. symmetry. apply filter_false. intros e He.
    pose proof (in_order_bounds _ _ Hseqs e He). apply Z.ltb_ge. lia.
  - cbn in Hin. apply existsb_exists in Hin as (e & He%list_elem_of_In & Heq%Z.eqb_eq).
    destruct (replay_spec s after Hc) as (evicted & Hev & Hreplay); [|done|].
    { destruct Hc as (_ & _ & _ & ((old & ->) & _) & _). intros [_ Hnil]%app_eq_nil.
      rewrite Hnil in He. by apply elem_of_nil in He. }
    rewrite Hev in Hseqs. apply in_order_split in Hseqs as [Hold Hring].
    pose proof (in_order_bounds _ _ Hring e He) as Hb.
    rewrite Hreplay, (proj2 (Z.ltb_ge _ _)) by lia. split; [lia|].
    rewrite (in_order_first _ (seq0 + 1)); [done| |lia].
    by destruct Hc as (_ & _ & _ & _ & _ & Hs & _).
Qed.

Lemma resumed_stream_spec s s' subscribed after :
  counted s → counted s' → rtc bus_step s s' →
  (subscribed ≤ length (Sys.emitted s))%nat → Bus.seq (Sys.bus s) ≤ u64_max →
  within_ring after (Sys.bus s) = true →
  stream_events (Some after) (gap_at s) (map Got (drop subscribed (Sys.emitted s')))
  = map (λ e, SseEvent e.1 e.2) (List.filter (λ e, after <? e.1) (Sys.emitted s')).
Proof.
  intros Hc Hc' Hr Hsub Hmax Hin. destruct (gap_within_ring s after Hc Hmax Hin) as [Ha Hgap].
  destruct (emitted_extends _ _ Hr) as [more Hmore].
  pose proof Hc as (_ & _ & _ & _ & _ & Hseqs & _). pose proof Hc' as (_ & _ & _ & _ & _ & Hseqs' & _).
  unfold stream_events, resume, recover. rewrite Hgap. cbn [fst snd].
  rewrite (in_order_last _ (seq0 + 1)) by (done || lia).
  rewrite Hmore in Hseqs' |- *. pose proof (in_order_split _ _ _ Hseqs') as [_ Hm].
  pose proof Hseqs' as Hdrop. rewrite <- (take_drop subscribed (_ ++ more)) in Hdrop.
  apply in_order_split in Hdrop as [_ Hdrop]. rewrite (live_got _ _ _ Hdrop), drop_app_le by done.
  rewrite !List.filter_app, !map_app, app_assoc. f_equal.
  - rewrite (filter_false _ (drop _ _)).
    + cbn. rewrite app_nil_r, omap_map_Sse. done.
    + intros e He. assert (e ∈ Sys.emitted s) as Hes by (by eapply subseteq_drop).
      pose proof (in_order_bounds _ _ Hseqs e Hes). apply Z.ltb_ge. lia.
  - f_equal. apply filter_ext_in. intros e He%list_elem_of_In. pose proof (in_order_bounds _ _ Hm e He).
    destruct (Z.ltb_spec after e.1), (Z.ltb_spec (Z.max after (seq0 + 1 - 1 + Z.of_nat (length (Sys.emitted s)))) e.1); lia || done.
Qed.
End resumed.
End reached.
End system.

(** ** Resuming from the log *)

Section from_log.
Context (parse_uuid : string → option Uuid).

(** The event a row holds, when its payload still reads. *)
Definition logged (r : EventRecord.t) : option SeqEvent :=
  pair (EventRecord.seq r) <$> read_event parse_uuid (EventRecord.payload r).
Definition last_seq (cursor : Z) (rows : events) : Z :=
  match last rows with Some r => EventRecord.seq r | None => cursor end.

Lemma last_seq_cons cursor r rows : last_seq cursor (r :: rows) = last_seq (EventRecord.seq r) rows.
Proof. unfold last_seq. rewrite last_cons. by destruct (last rows). Qed.

Lemma walk_page_spec page : ∀ cursor out c out',
  walk_page parse_uuid page cursor out = Some (c, out') →
  c = last_seq cursor page ∧ out' = out ++ omap logged page
  ∧ (length out' < MAX_LOG_RESUME ∨ page = [])%nat
  ∧ match page with r :: _ => out = [] → EventRecord.seq r = cursor + 1 | [] => True end.
Proof.
  induction page as [|r page IH]; intros cursor out c out'; cbn [walk_page].
  { intros [= <- <-]. cbn. rewrite app_nil_r. split_and!; try done. by right. }
  destruct (_ && _) eqn:Eg; [done|].
  set (out1 := match read_event _ _ with Some event => _ | None => out end).
  assert (out1 = out ++ omap logged [r]) as Hout1.
  { subst out1. unfold logged. cbn. destruct (read_event _ _); cbn; [done|by rewrite app_nil_r]. }
  destruct (Nat.leb_spec MAX_LOG_RESUME (length out1)) as [|Hlt]; [done|]. intros Hw.
  destruct (IH _ _ _ _ Hw) as (-> & -> & Hm & _). rewrite last_seq_cons. split_and!; try done.
  - rewrite Hout1, <- app_assoc. f_equal. cbn. by destruct (logged r).
  - left. destruct Hm as [?| ->]; [done|]. cbn. by rewrite app_nil_r.
  - intros ->. apply negb_false_iff in Eg. by apply Z.eqb_eq.
Qed.

Lemma read_log_spec fuel log read_ok want : ∀ n cursor out out',
  NoDup (map EventRecord.seq log) → (length (pending_after cursor log) < fuel)%nat →
  read_log parse_uuid fuel n read_ok want cursor out log = Some out' →
  ∃ rows rest, pending_after cursor log = rows ++ rest ∧ out' = out ++ omap logged rows
    ∧ (rest = [] ∨ want ≤ Z.of_nat (length out'))
    ∧ match rows with r :: _ => out = [] → EventRecord.seq r = cursor + 1 | [] => True end.
Proof.
  induction fuel as [|fuel IH]; intros n cursor out out' Hnd Hf; cbn [read_log]; [lia|].
  destruct (Z.ltb_spec (Z.of_nat (length out)) want) as [Hlt|Hge].
  2:{ intros [= <-]. exists [], (pending_after cursor log). rewrite app_nil_r. split_and!; [done|done|by right|done]. }
  destruct (read_ok n); [|done]. cbn [negb].
  rewrite events_after_all by done. set (all := pending_after cursor log) in *. set (m := Z.to_nat MAX_LOG_PAGE).
  assert (0 < m)%nat as Hm by (subst m; unfold MAX_LOG_PAGE; lia).
  destruct (take m all) as [|r page] eqn:Et.
  { intros [= <-]. exists [], []. split_and!; [|cbn; by rewrite app_nil_r|by left|done].
    destruct all; [done|]. by destruct m; [lia|]. }
  destruct (walk_page _ _ _ _) as [[c out1]|] eqn:Ew; [|done].
  destruct (walk_page_spec _ _ _ _ _ Ew) as (-> & -> & _ & Hfirst). intros Hr.
  assert (∃ l0 x, r :: page = l0 ++ [x]) as (l0 & x & Hx).
  { destruct (exists_last (l := r :: page)) as (l' & x & Hx); [done|by exists l', x]. }
  assert (last_seq cursor (r :: page) = EventRecord.seq x) as Hl by (unfold last_seq; by rewrite Hx, last_snoc).
  assert (pending_after (EventRecord.seq x) log = drop m all) as Hrest.
  { apply (pending_after_suffix cursor log l0); [done|]. fold all. rewrite <- (take_drop m all) at 1.
    by rewrite Et, Hx, <- app_assoc. }
  rewrite Hl in Hr. apply IH in Hr as (rows & rest & Hp & -> & Hend & _); [|done|].
  - exists ((r :: page) ++ rows), rest. rewrite Hrest in Hp. split_and!; [| |done|exact Hfirst].
    + by rewrite <- app_assoc, <- Hp, <- Et, take_drop.
    + by rewrite omap_app, app_assoc.
  - rewrite Hrest, length_drop. assert (all ≠ []) by (by intros Ha; rewrite Ha in Et; destruct m).
    destruct all; [done|]. cbn in *. lia.
Qed.
End from_log.

(** ** The log reads its rows back *)

Definition stages_ok (s : JobStages.t) : Prop :=
  JobStages.attempt s ≤ i64_max
  ∧ Forall (λ o, match o with Some n => n ≤ i64_max | None => True end)
      [JobStages.run_ms s; JobStages.index_ms s; JobStages.hooks_ms s; JobStages.alerts_ms s; JobStages.total_ms s].

Lemma as_i64_json n : n ≤ i64_max → as_i64 (json_i64 n) = Some n.
Proof.
  intros Hn. unfold json_i64. destruct (Z.leb_spec 0 n); cbn; [|done]. by rewrite (proj2 (Z.leb_le _ _)).
Qed.
Lemma read_opt_i64 o : match o with Some n => n ≤ i64_max | None => True end →
  read_opt as_i64 (Some (json_opt json_i64 o)) = Some o.
Proof. destruct o as [n|]; [|done]. intros Hn. cbn [json_opt]. unfold read_opt, json_i64 at 1. rewrite as_i64_json by done. done. Qed.

Lemma json_get_fields k l : NoDup (map_keys l) → json_get k (json_object l) = map_get k l.
Proof. apply map_get_map_of_list. Qed.
(** A literal list of fields repeats no key. *)
Ltac solve_keys := apply (bool_decide_unpack _); vm_compute; exact I.

Lemma stages_round_trip s : stages_ok s → read_stages (stages_json s) = Some s.
Proof.
  destruct s as [a r i h al t]. intros (Ha & Hf). rewrite !Forall_cons in Hf. cbn in Ha, Hf.
  destruct Hf as (Hr & Hi & Hh & Hal & Ht & _).
  unfold read_stages, stages_json. unfold json_object at 1. cbv iota beta.
  rewrite !json_get_fields by solve_keys.
  cbn -[read_opt as_i64 json_i64 json_opt].
  rewrite as_i64_json by done. cbn -[read_opt as_i64 json_i64 json_opt]. by rewrite !read_opt_i64 by done.
Qed.

Section round_trip.
Context `{UuidText} (parse_uuid : string → option Uuid).

Lemma event_round_trip e :
  parse_uuid (uuid_text (JobEvent.job_id e)) = Some (JobEvent.job_id e) →
  match JobEvent.stages e with Some s => stages_ok s | None => True end →
  read_event parse_uuid (event_value e)
  = Some (JobEvent.mk (JobEvent.job_id e) (JobEvent.app e) (JobEvent.status e)
            (v ← JobEvent.result e; match v with JNull => None | _ => Some v end)
            (JobEvent.error e) (JobEvent.stages e) (JobEvent.subject e)).
Proof.
  destruct e as [id app status result error stages subject]. cbn [JobEvent.job_id JobEvent.stages JobEvent.app
    JobEvent.status JobEvent.result JobEvent.error JobEvent.subject]. intros Hid Hst.
  assert (match stages with Some s => read_stages (stages_json s) = Some s | None => True end) as Hs
    by (destruct stages; [by apply stages_round_trip|done]).
  unfold read_event, event_value.
  destruct result as [r|], error as [er|], stages as [st|], subject as [su|]; cbn [some_field Datatypes.app];
    rewrite !json_get_fields by solve_keys; cbn -[stages_json read_stages]; rewrite Hid; cbn -[stages_json read_stages];
    unfold read_opt; cbn -[stages_json read_stages]; try (rewrite Hs; cbn -[stages_json read_stages]);
    try destruct r; done.
Qed.
End round_trip.

(** ** The guarantees *)



(** What the log answers a resume with is a run of its rows after the
    position, in their order and starting at the very next one, each as the event it holds;
    it stops before the end of the log only when it has as many as were missing. *)
Theorem log_resume_is_exact parse_uuid read_ok want after log out :
  NoDup (map EventRecord.seq log) →
  read_log parse_uuid (S (length log)) 0 read_ok want after [] log = Some out →
  ∃ rows rest, pending_after after log = rows ++ rest ∧ out = omap (logged parse_uuid) rows
    ∧ (rest = [] ∨ want ≤ Z.of_nat (length out))
    ∧ match rows with r :: _ => EventRecord.seq r = after + 1 | [] => True end.
Proof.
  intros Hnd Hr. apply read_log_spec in Hr as (rows & rest & Hp & -> & Hend & Hf); [|done|].
  - exists rows, rest. split_and!; try done. destruct rows; [done|]. by apply Hf.
  - unfold pending_after. rewrite (Permutation_length (order_by_perm _ _)). apply Nat.lt_succ_r, filter_length_le.
Qed.

(** An event read back from its row in the log is the event that was
    published; only a result of JSON null comes back as no result. *)
Theorem logged_event_reads_back `{UuidText} parse_uuid e :
  parse_uuid (uuid_text (JobEvent.job_id e)) = Some (JobEvent.job_id e) →
  match JobEvent.stages e with Some s => stages_ok s | None => True end →
  read_event parse_uuid (event_value e)
  = Some (JobEvent.mk (JobEvent.job_id e) (JobEvent.app e) (JobEvent.status e)
            (v ← JobEvent.result e; match v with JNull => None | _ => Some v end)
            (JobEvent.error e) (JobEvent.stages e) (JobEvent.subject e)).
Proof. apply event_round_trip. Qed.

(** ** Concrete buses *)

Module BusDemo.
#[local] Instance render : JsonRender := λ _, "{}"%string.
#[local] Instance text : UuidText := λ n, if n =? 1 then "one"%string else "other"%string.
Definition parse (s : string) : option Uuid := Some (if String.eqb s "one" then 1 else 0).

Definition started : JobEvent.t := JobEvent.new 1 "app" "running".
Definition ended : JobEvent.t := JobEvent.new 1 "app" "succeeded".
Definition progressed : JobEvent.t := JobEvent.new 1 "app" "progress".

(** One event landed, the next in the queue. *)
Definition init : Sys.t := start 8 2 100 [].
Definition one : Sys.t := Sys.mk (emit started (Sys.bus init)).1 [] [] [(1, started)].
Definition flushing : Sys.t :=
  Sys.mk (take_pending (Sys.bus one)).1 [] [[new_event 1 started]] [(1, started)].
Definition landed_one : Sys.t := Sys.mk (Sys.bus flushing) [row 5 (new_event 1 started)] [] [(1, started)].
Definition two : Sys.t :=
  Sys.mk (emit ended (Sys.bus landed_one)).1 (Sys.log landed_one) [] [(1, started); (2, ended)].
Lemma init_one : bus_step init one.
Proof. exact (step_emit started (Sys.bus init) [] [] []). Defined.
Lemma one_flushing : bus_step one flushing.
Proof. exact (step_take (Sys.bus one) [] [] [(1, started)] ltac:(discriminate)). Defined.
Lemma flushing_landed : bus_step flushing landed_one.
Proof. exact (step_land 0 [new_event 1 started] 5 (Sys.bus flushing) [] [[new_event 1 started]] [(1, started)] eq_refl). Defined.
Lemma landed_two : bus_step landed_one two.
Proof. exact (step_emit ended (Sys.bus landed_one) (Sys.log landed_one) [] [(1, started)]). Defined.
Lemma reach_two : rtc bus_step init two.
Proof.
  exact (rtc_l _ _ _ _ init_one (rtc_l _ _ _ _ one_flushing (rtc_l _ _ _ _ flushing_landed
    (rtc_l _ _ _ _ landed_two (rtc_refl _ _))))).
Defined.

(** A transition lost to a failed flush leaves the lifecycle counter at zero: the batch goes
    back in front of a queue that is full again, and the oldest row of all is dropped. *)
Lemma failed_flush_hides_a_transition :
  let b := (emit started (fresh_bus 8 1 100)).1 in
  let '(b, batch) := take_pending b in
  let b := put_back batch (emit ended b).1 in
  Bus.dropped_before_persist b = 1 ∧ Bus.lifecycle_dropped_before_persist b = 0
  ∧ map NewEvent.seq (queue b) = [2].
Proof. vm_compute. by split_and!. Qed.

(** A log pruned past the client's position answers a resume with nothing and no reset. *)
Lemma pruned_log_is_no_reset :
  let b := Bus.seed_seq 7 (fresh_bus 8 8 100) in
  (replay_or_log parse true (λ _, true) 9 3 b []).2 = Ok [].
Proof. done. Qed.

(** A log pruned of every row starts the next process's sequence over, below the positions its
    clients and subscriptions hold. *)
Lemma pruned_log_restarts_the_sequence :
  let log := [EventRecord.mk 7 "job.running" "app" "one" JNull 0] in
  Bus.seq (boot (fresh_bus 8 8 100) log) = 7
  ∧ Bus.seq (boot (fresh_bus 8 8 100) (prune_events (days 40) 30 log).1) = 0.
Proof. vm_compute. by split. Qed.

(** The end of a job, replayed after a lag, does not end its stream: what follows is sent too,
    where the live loop stops at it. *)
Lemma replayed_end_keeps_the_stream_open :
  let gap := λ _ : Z, Ok [(1, ended)] : result Z (list SeqEvent) in
  live_job 1 [Lagged gap; Got (2, progressed)] 0 = [SseEvent 1 ended; SseEvent 2 progressed]
  ∧ live_job 1 [Got (1, ended); Got (2, progressed)] 0 = [SseEvent 1 ended].
Proof. by split. Qed.

(** A row shed from the middle of the log is skipped without a reset: only the first row of a
    replay is held against the position. *)
Lemma hole_in_the_log_is_skipped :
  let log := [row 5 (new_event 4 started); row 5 (new_event 6 ended)] in
  (replay_or_log parse true (λ _, true) 9 3 (Bus.seed_seq 6 (fresh_bus 8 8 100)) log).2
  = Ok [(4, started); (6, ended)].
Proof. by vm_compute. Qed.

(** A queue at its ceiling sheds a progress sample, not the older transition. *)
Lemma queue_sheds_by_class :
  let b := (emit progressed (emit started (fresh_bus 8 2 100)).1).1 in
  map NewEvent.seq (queue (emit ended b).1) = [1; 3].
Proof. by vm_compute. Qed.



Lemma log_resume_is_exact_witness :
  let log := [row 5 (new_event 2 ended); row 5 (new_event 1 started)] in
  ∃ rows rest, pending_after 0 log = rows ++ rest ∧ [(1, started); (2, ended)] = omap (logged parse) rows
    ∧ (rest = [] ∨ 2 ≤ 2) ∧ match rows with r :: _ => EventRecord.seq r = 0 + 1 | [] => True end.
Proof.
  intros log. refine (log_resume_is_exact parse (λ _, true) 2 0 log [(1, started); (2, ended)] _ eq_refl).
  apply (bool_decide_unpack _). vm_compute. exact I.
Defined.

Lemma logged_event_reads_back_witness :
  read_event parse (event_value started) = Some started.
Proof. exact (logged_event_reads_back parse started eq_refl I). Defined.
End BusDemo.
