(* ===== verification/Governor.v ===== *)
(** * Governor: per-host politeness

    [crates/core/src/governor.rs].  A host's requests claim slots spaced by the configured
    interval and the penalty learned from its refusals.  Each method takes the instants it
    reads; the sections that hold a host's entry are one function each, so that calls on
    other tasks come between them. *)

From stdpp Require Import gmap relations.
From S2P Require Import Prelude Float64 Jitter Filters.

(** An [Instant] is a number of nanoseconds. *)
Abbreviation Instant := Z (only parsing).

Definition DEFAULT_PENALTY_BASE_SECS : Z := 1.
Definition DEFAULT_PENALTY_CAP_SECS : Z := 300.
Definition DEFAULT_PENALTY_FLOOR_MS : Z := 100.
Definition MAX_HOSTS : nat := 4096.
Definition IDLE_TTL : Duration := from_secs 3600.
Definition EVICT_CHECK_EVERY : Z := 1024.

Definition from_millis (ms : Z) : Duration := ms * 10 ^ 6.

Module GovernorConfig.
Record t : Type := mk {
  enabled : bool; default_rps : f64; jitter_ms : Z; per_domain : list (string * f64);
  penalty_base_secs : Z; penalty_cap_secs : Z; penalty_floor_ms : Z }.
Definition default : t :=
  mk true (f64_of_Z 2) 250 [] DEFAULT_PENALTY_BASE_SECS DEFAULT_PENALTY_CAP_SECS DEFAULT_PENALTY_FLOOR_MS.
End GovernorConfig.

Module HostState.
Record t : Type := mk { next_slot : Instant; penalty : Duration; last_seen : Instant }.
#[global] Instance eta_host : Eta t := λ s, mk (next_slot s) (penalty s) (last_seen s).
Definition fresh (now : Instant) : t := mk now 0 now.
End HostState.

Module Governor.
Record t : Type := mk {
  enabled : bool; default_interval : Duration; per_domain : gmap string Duration;
  max_jitter : Duration; hosts : gmap string HostState.t; tick : Z; ops : Z;
  penalty_base : Duration; penalty_cap : Duration; penalty_floor : Duration }.
#[global] Instance eta_governor : Eta t := λ g,
  mk (enabled g) (default_interval g) (per_domain g) (max_jitter g) (hosts g) (tick g) (ops g)
    (penalty_base g) (penalty_cap g) (penalty_floor g).
End Governor.

(** [None]: [from_secs_f64] panics. *)
Definition interval (rps : f64) : option Duration :=
  if f64_le rps f64_zero then Some 0 else try_from_secs_f64 (f64_div (f64_of_Z 1) rps).

Section governor.
Context `{Unicode}.
Implicit Types (g : Governor.t) (now : Instant).

Definition new (cfg : GovernorConfig.t) : option Governor.t :=
  per_domain ← foldl (λ m '(host, rps), m ← m; d ← interval rps; Some (<[to_lowercase host := d]> m))
                 (Some ∅) (GovernorConfig.per_domain cfg);
  default_interval ← interval (GovernorConfig.default_rps cfg);
  Some (Governor.mk (GovernorConfig.enabled cfg) default_interval per_domain
          (from_millis (GovernorConfig.jitter_ms cfg)) ∅ 0 0
          (from_secs (GovernorConfig.penalty_base_secs cfg)) (from_secs (GovernorConfig.penalty_cap_secs cfg))
          (from_millis (GovernorConfig.penalty_floor_ms cfg))).

Definition base_of (host : string) g : Duration :=
  default (Governor.default_interval g) (Governor.per_domain g !! host).
(** [entry(..).or_insert_with(..)]; [host] is lower-cased already. *)
Definition entry (host : string) now g : HostState.t :=
  default (HostState.fresh now) (Governor.hosts g !! host).
Definition put (host : string) (s : HostState.t) g : Governor.t := g <| Governor.hosts ::= <[host := s]> |>.

(** *** Claiming a slot *)

(** Unlimited, without jitter and unpenalized: no spacing and no state. *)
Definition unspaced (host : string) g : bool :=
  (base_of host g =? 0) && (Governor.max_jitter g =? 0)
  && negb (match Governor.hosts g !! host with
           | Some s => negb (HostState.penalty s =? 0)
           | None => false
           end).
Definition claim (host : string) now g : Governor.t * Instant :=
  let s := entry host now g in
  let start := Z.max (HostState.next_slot s) now in
  (put host (s <| HostState.last_seen := now |>
               <| HostState.next_slot := start + (base_of host g + HostState.penalty s) |>) g, start).

(** One acquire in [EVICT_CHECK_EVERY] looks, and sweeps past [MAX_HOSTS]. *)
Definition idle now (s : HostState.t) : bool :=
  negb (Z.max 0 (now - HostState.last_seen s) <? IDLE_TTL) && (HostState.penalty s =? 0).
Definition sweep now g : Governor.t :=
  g <| Governor.hosts ::= filter (λ kv, idle now kv.2 = false) |>.
Definition maybe_evict now g : Governor.t :=
  let g' := g <| Governor.ops ::= λ n, wrap_u64 (n + 1) |> in
  if negb (Governor.ops g mod EVICT_CHECK_EVERY =? 0) then g'
  else if (size (Governor.hosts g) <=? MAX_HOSTS)%nat then g'
  else sweep now g'.

(** [lcg_fraction] as the double it is; the product of finite values never panics. *)
Definition lcg_f64 (n : Z) : f64 := f64_div (f64_of_Z (lcg_fraction n)) (f64_of_Z (2 ^ 31)).
Definition jitter g : Governor.t * Duration :=
  if Governor.max_jitter g =? 0 then (g, 0)
  else (g <| Governor.tick ::= λ n, wrap_u64 (n + 1) |>,
        default 0 (mul_f64 (Governor.max_jitter g) (lcg_f64 (Governor.tick g)))).

(** The instants: of the claim, of the sweep, and of the wake, when the caller goes on. *)
Definition acquire (host : string) (now evicting waking : Instant) g : Governor.t * Instant :=
  if negb (Governor.enabled g) then (g, now)
  else
    let host := to_lowercase host in
    if unspaced host g then (g, now)
    else
      let '(g, slot) := claim host now g in
      let '(g, j) := jitter (maybe_evict evicting g) in
      (g, Z.max (slot + j) waking).

Definition try_acquire (host : string) now g : Governor.t * bool :=
  if negb (Governor.enabled g) then (g, true)
  else
    let host := to_lowercase host in
    let s := entry host now g in
    if now <? HostState.next_slot s then (put host s g, false)
    else (put host (s <| HostState.last_seen := now |>
                      <| HostState.next_slot := now + base_of host g + HostState.penalty s |>) g, true).

(** *** Learning *)

Definition penalize (host : string) (retry_after : option Duration) now g : Governor.t :=
  if negb (Governor.enabled g) then g
  else
    let host := to_lowercase host in
    let s := entry host now g in
    let doubled := if HostState.penalty s =? 0 then Governor.penalty_base g
                   else saturating_mul_duration (HostState.penalty s) 2 in
    let next := Z.min (Z.max doubled (default 0 retry_after)) (Governor.penalty_cap g) in
    put host (s <| HostState.last_seen := now |> <| HostState.penalty := next |>
                <| HostState.next_slot ::= Z.max (now + next) |>) g.

Definition halve (floor : Duration) (p : Duration) : Duration := if p / 2 <? floor then 0 else p / 2.
Definition reward (host : string) now g : Governor.t :=
  let host := to_lowercase host in
  match Governor.hosts g !! host with
  | Some s =>
      if HostState.penalty s =? 0 then g
      else put host (s <| HostState.last_seen := now |>
                       <| HostState.penalty ::= halve (Governor.penalty_floor g) |>) g
  | None => g
  end.

Definition penalty (host : string) g : Duration :=
  match Governor.hosts g !! to_lowercase host with Some s => HostState.penalty s | None => 0 end.
(** The shards are walked in no promised order. *)
Definition snapshot_penalties g : list (string * Duration) :=
  omap (λ '(host, s), if HostState.penalty s =? 0 then None else Some (host, HostState.penalty s))
    (map_to_list (Governor.hosts g)).
Definition restore_penalty (host : string) (p : Duration) now g : Governor.t :=
  if p =? 0 then g
  else let host := to_lowercase host in
       put host ((entry host now g) <| HostState.penalty := p |>) g.
Definition raise_penalty (host : string) (p : Duration) now g : Governor.t * bool :=
  let p := Z.min p (Governor.penalty_cap g) in
  if p =? 0 then (g, false)
  else
    let host := to_lowercase host in
    let s := entry host now g in
    if p <=? HostState.penalty s then (put host s g, false)
    else (put host (s <| HostState.last_seen := now |> <| HostState.penalty := p |>) g, true).
Definition clear (host : string) g : Governor.t * bool :=
  (g <| Governor.hosts ::= delete (to_lowercase host) |>,
   is_some (Governor.hosts g !! to_lowercase host)).
End governor.

(** ** Slots keep their distance, and caution fades

    The governor as the steps of its callers on one host: what a claim may overtake, what a
    refusal pushes back, and how a learned penalty leaves. *)

Section governor.
Context `{Unicode}.
Implicit Types (g : Governor.t) (now : Instant).

(** ** One host over time *)

(** What bounds the slots to come: a claimed slot, or the instant of a refusal, and the
    spacing owed after it. *)
Inductive Mark : Type :=
| Granted (slot : Instant) (spacing : Duration)
| BackedOff (at_ : Instant) (spacing : Duration).
Definition until (m : Mark) : Instant :=
  match m with Granted at_ spacing | BackedOff at_ spacing => at_ + spacing end.

(** Durations are not negative. *)
Definition well_formed g : Prop :=
  0 ≤ Governor.default_interval g ∧ map_Forall (λ _ d, 0 ≤ d) (Governor.per_domain g)
  ∧ 0 ≤ Governor.penalty_base g ∧ 0 ≤ Governor.penalty_cap g
  ∧ map_Forall (λ _ s, 0 ≤ HostState.penalty s) (Governor.hosts g).

Definition spacing (host : string) now g : Duration :=
  base_of host g + HostState.penalty (entry host now g).

(** The governor, the clock its callers read, and the marks of [host], oldest first.
    [host] is lower-cased; steps on other hosts are the same functions under their name. *)
Abbreviation world := (Governor.t * Instant * list Mark)%type.
Section host.
Context (host : string).

Definition marked (h : string) (m : Mark) (l : list Mark) : list Mark :=
  if String.eqb h host then l ++ [m] else l.

Inductive gov_step : world → world → Prop :=
| step_claim h now g c l :
    c ≤ now →
    gov_step (g, c, l) ((claim h now g).1, now, marked h (Granted (claim h now g).2 (spacing h now g)) l)
| step_try h now g c l :
    c ≤ now → Governor.enabled g = true → (try_acquire h now g).2 = true →
    gov_step (g, c, l) ((try_acquire h now g).1, now,
                        marked (to_lowercase h) (Granted now (spacing (to_lowercase h) now g)) l)
| step_busy h now g c l :
    c ≤ now → (try_acquire h now g).2 = false → gov_step (g, c, l) ((try_acquire h now g).1, now, l)
| step_penalize h retry_after now g c l :
    c ≤ now → Governor.enabled g = true →
    let g' := penalize h retry_after now g in
    gov_step (g, c, l)
      (g', now, marked (to_lowercase h) (BackedOff now (HostState.penalty (entry (to_lowercase h) now g'))) l)
| step_reward h now g c l : c ≤ now → gov_step (g, c, l) (reward h now g, now, l)
| step_restore h p now g c l : c ≤ now → 0 ≤ p → gov_step (g, c, l) (restore_penalty h p now g, now, l)
| step_raise h p now g c l : c ≤ now → 0 ≤ p → gov_step (g, c, l) ((raise_penalty h p now g).1, now, l)
| step_clear h g c l : to_lowercase h ≠ host → gov_step (g, c, l) ((clear h g).1, c, l)
| step_jitter g c l : gov_step (g, c, l) ((jitter g).1, c, l)
| step_evict now g c l :
    c ≤ now →
    (∀ s, Governor.hosts g !! host = Some s → idle now s = true → HostState.next_slot s ≤ now) →
    gov_step (g, c, l) (maybe_evict now g, now, l).

Definition bounded (w : world) : Prop :=
  let '(g, c, l) := w in
  ∀ m, m ∈ l → match Governor.hosts g !! host with
               | Some s => until m ≤ HostState.next_slot s
               | None => until m ≤ c
               end.
Definition ordered (l : list Mark) : Prop :=
  ∀ l1 m l2 slot d l3, l = l1 ++ m :: l2 ++ Granted slot d :: l3 → until m ≤ slot.

Lemma elem_of_marked h m l x : x ∈ marked h m l → x ∈ l ∨ (h = host ∧ x = m).
Proof.
  unfold marked. destruct (String.eqb_spec h host) as [->|]; [|by left].
  intros [?|?%list_elem_of_singleton]%elem_of_app; [by left|by right].
Qed.

(** A state of [host] that only puts its next slot off keeps the marks. *)
Lemma bounded_put h now s l g c :
  c ≤ now → bounded (g, c, l) →
  (h = host → HostState.next_slot (entry host now g) ≤ HostState.next_slot s) →
  bounded (put h s g, now, l).
Proof.
  intros Hc Hb Hs m Hm. specialize (Hb m Hm). unfold put. cbn.
  destruct (decide (h = host)) as [->|Hne].
  - rewrite lookup_insert_eq. specialize (Hs eq_refl). unfold entry in Hs.
    destruct (Governor.hosts g !! host); cbn in Hs; lia.
  - rewrite lookup_insert_ne by done. destruct (Governor.hosts g !! host); [done|lia].
Qed.
Lemma bounded_same g g' c c' l :
  Governor.hosts g' = Governor.hosts g → c ≤ c' → bounded (g, c, l) → bounded (g', c', l).
Proof.
  intros Hh Hc Hb m Hm. specialize (Hb m Hm). rewrite Hh. destruct (Governor.hosts g !! host); [done|lia].
Qed.
Lemma bounded_more h m l g c :
  bounded (g, c, l) →
  (h = host → match Governor.hosts g !! host with Some s => until m ≤ HostState.next_slot s | None => False end) →
  bounded (g, c, marked h m l).
Proof.
  intros Hb Hm x [Hx|[Hh ->]]%elem_of_marked; [by apply Hb|]. specialize (Hm Hh).
  by destruct (Governor.hosts g !! host).
Qed.

Lemma base_nonneg h g : well_formed g → 0 ≤ base_of h g.
Proof.
  intros (Hd & Hp & _). unfold base_of. destruct (Governor.per_domain g !! h) eqn:E; [|done].
  exact (Hp _ _ E).
Qed.
Lemma entry_penalty_nonneg h now g : well_formed g → 0 ≤ HostState.penalty (entry h now g).
Proof.
  intros (_ & _ & _ & _ & Hh). unfold entry. destruct (Governor.hosts g !! h) eqn:E; [|done]. exact (Hh _ _ E).
Qed.
Lemma well_formed_put h s g : well_formed g → 0 ≤ HostState.penalty s → well_formed (put h s g).
Proof.
  intros (Hd & Hp & Hb & Hc & Hh) Hs. split_and!; try done. by apply map_Forall_insert_2.
Qed.

Lemma step_well_formed w w' : gov_step w w' → well_formed w.1.1 → well_formed w'.1.1.
Proof.
  destruct 1; cbn [fst]; intros Hw; try done.
  - by apply well_formed_put, entry_penalty_nonneg.
  - unfold try_acquire. destruct (Governor.enabled g); [|done]. cbn.
    case_match; by apply well_formed_put, entry_penalty_nonneg.
  - unfold try_acquire. destruct (Governor.enabled g); [|done]. cbn.
    case_match; by apply well_formed_put, entry_penalty_nonneg.
  - subst g'. unfold penalize. destruct (Governor.enabled g); [|done]. cbn. apply well_formed_put; [done|]. cbn.
    pose proof (entry_penalty_nonneg (to_lowercase h) now g Hw). destruct Hw as (_ & _ & Hb & Hc & _).
    case_match; unfold saturating_mul_duration, DURATION_MAX; lia.
  - unfold reward. case_match eqn:E; [|done]. case_match; [done|]. apply well_formed_put; [done|]. cbn.
    destruct Hw as (_ & _ & _ & _ & Hh). specialize (Hh _ _ E). cbn in Hh. unfold halve.
    case_match; [done|]. by apply Z.div_pos.
  - unfold restore_penalty. case_match; [done|]. by apply well_formed_put.
  - pose proof Hw as (_ & _ & _ & Hcap & _). unfold raise_penalty.
    repeat case_match; try done; apply well_formed_put; try done; [by apply entry_penalty_nonneg|cbn; lia].
  - destruct Hw as (Hd & Hp & Hb & Hcap & Hh). split_and!; try done. by apply map_Forall_delete.
  - unfold jitter. by case_match.
  - unfold maybe_evict. repeat case_match; try done.
    destruct Hw as (Hd & Hp & Hb & Hcap & Hh). split_and!; try done.
    intros h s Hs. apply map_lookup_filter_Some_1_1 in Hs. exact (Hh _ _ Hs).
Qed.

Definition safe (w : world) : Prop := well_formed w.1.1 ∧ bounded w ∧ ordered w.2.

Lemma ordered_more (h : string) m l :
  ordered l → (h = host → match m with Granted slot _ => ∀ x, x ∈ l → until x ≤ slot | BackedOff _ _ => True end) →
  ordered (marked h m l).
Proof.
  unfold marked. destruct (String.eqb_spec h host) as [->|]; [|done]. intros Ho Hm l1 x l2 slot d l3 Hl.
  destruct l3 as [|y l3 _] using rev_ind.
  - change (l ++ [m] = l1 ++ x :: l2 ++ [Granted slot d]) in Hl. rewrite app_comm_cons, app_assoc in Hl.
    apply app_inj_2 in Hl as [-> [= ->]]; [|done]. apply (Hm eq_refl). set_solver.
  - rewrite !app_comm_cons, !app_assoc in Hl. apply app_inj_2 in Hl as [-> _]; [|done].
    eapply (Ho l1 x l2 slot d l3). by rewrite <- !app_assoc.
Qed.

(** A claim at [now] is granted the first instant past every mark. *)
Lemma grant_ordered h now g c l slot d :
  c ≤ now → bounded (g, c, l) → ordered l →
  (h = host → slot = Z.max (HostState.next_slot (entry host now g)) now) →
  ordered (marked h (Granted slot d) l).
Proof.
  intros Hc Hb Ho Hs. apply ordered_more; [done|]. intros Hh x Hx. rewrite (Hs Hh). specialize (Hb x Hx).
  unfold entry. destruct (Governor.hosts g !! host); cbn; lia.
Qed.

Lemma step_safe w w' : gov_step w w' → safe w → safe w'.
Proof.
  intros Hstep (Hw & Hb & Ho). split; [by eapply step_well_formed|].
  destruct Hstep; cbn [fst snd] in *.
  - pose proof (base_nonneg h g Hw). pose proof (entry_penalty_nonneg h now g Hw). split.
    + apply bounded_more; [apply (bounded_put _ _ _ _ _ c); [done|done|cbn; intros ->; lia]|].
      intros ->. unfold put. cbn. rewrite lookup_insert_eq. cbn. unfold spacing. lia.
    + apply (grant_ordered h now g c); [done|done|done|]. by intros ->.
  - unfold try_acquire in *. rewrite H1 in *. cbn [negb] in *. set (host' := to_lowercase h) in *.
    pose proof (base_nonneg host' g Hw). pose proof (entry_penalty_nonneg host' now g Hw).
    destruct (Z.ltb_spec now (HostState.next_slot (entry host' now g))); [done|]. cbn [fst]. split.
    + apply bounded_more; [apply (bounded_put _ _ _ _ _ c); [done|done|cbn; intros Hh; rewrite <- Hh; lia]|].
      intros Hh. unfold put. cbn. rewrite Hh, lookup_insert_eq. cbn. unfold spacing. rewrite <- Hh. lia.
    + apply (grant_ordered host' now g c); [done|done|done|]. intros Hh. rewrite <- Hh. lia.
  - split; [|done]. unfold try_acquire in *. destruct (Governor.enabled g); [|by eapply bounded_same].
    cbn [negb] in *. destruct (now <? _); [|done]. apply (bounded_put _ _ _ _ _ c); [done|done|]. by intros ->.
  - subst g'. unfold penalize. rewrite H1. cbn [negb]. set (host' := to_lowercase h) in *. split.
    + apply bounded_more; [apply (bounded_put _ _ _ _ _ c); [done|done|cbn; intros Hh; rewrite <- Hh; lia]|].
      intros Hh. unfold put, entry. cbn. rewrite Hh, !lookup_insert_eq. cbn. lia.
    + by apply ordered_more.
  - split; [|done]. unfold reward. case_match eqn:E; [|by eapply bounded_same]. case_match; [by eapply bounded_same|].
    apply (bounded_put _ _ _ _ _ c); [done|done|]. cbn. intros <-. unfold entry. by rewrite E.
  - split; [|done]. unfold restore_penalty. case_match; [by eapply bounded_same|].
    apply (bounded_put _ _ _ _ _ c); [done|done|]. by intros <-.
  - split; [|done]. unfold raise_penalty. case_match; [by eapply bounded_same|].
    case_match; apply (bounded_put _ _ _ _ _ c); try done; by intros <-.
  - split; [|done]. intros m Hm. specialize (Hb m Hm). unfold clear. cbn. by rewrite lookup_delete_ne.
  - split; [|done]. unfold jitter. case_match; [done|]. by eapply bounded_same.
  - split; [|done]. unfold maybe_evict. case_match; [by eapply bounded_same|]. case_match; [by eapply bounded_same|].
    intros m Hm. specialize (Hb m Hm). unfold sweep. cbn.
    destruct (Governor.hosts g !! host) as [s|] eqn:E.
    + destruct (idle now s) eqn:Ei.
      * rewrite map_lookup_filter_None_2; [specialize (H1 s eq_refl Ei); lia|]. right. intros x Hx. cbn. congruence.
      * by rewrite (map_lookup_filter_Some_2 _ _ _ s).
    + rewrite map_lookup_filter_None_2; [lia|by left].
Qed.

Lemma steps_safe w w' : rtc gov_step w w' → safe w → safe w'.
Proof. induction 1; [done|]. intros Hs. eauto using step_safe. Qed.
Lemma safe_start g c : well_formed g → Governor.hosts g = ∅ → safe (g, c, []).
Proof.
  intros Hw Hh. split_and!; [done| |].
  - by intros m ?%elem_of_nil.
  - intros l1 m l2 slot d l3 Hl. by destruct l1.
Qed.
End host.

Lemma interval_nonneg rps d : interval rps = Some d → 0 ≤ d.
Proof. unfold interval. case_match; [by intros [= <-]|]. apply try_from_secs_nonneg. Qed.

Lemma new_well_formed cfg g :
  0 ≤ GovernorConfig.penalty_base_secs cfg → 0 ≤ GovernorConfig.penalty_cap_secs cfg →
  new cfg = Some g → well_formed g ∧ Governor.hosts g = ∅.
Proof.
  intros Hb Hc. unfold new. set (step := λ m p, _). 
  assert (∀ l m0 m, map_Forall (λ _ d, 0 ≤ d) m0 →
            foldl step (Some m0) l = Some m → map_Forall (λ _ d, 0 ≤ d) m) as Hfold.
  { induction l as [|[h rps] l IH]; cbn [foldl]; intros m0 m Hm0; [by intros [= <-]|].
    unfold step at 2. cbn. destruct (interval rps) as [d|] eqn:E; cbn.
    - apply IH. apply map_Forall_insert_2; [by eapply interval_nonneg|done].
    - intros Hf. exfalso. clear -Hf. induction l as [|[h rps] l IH]; [done|]. exact (IH Hf). }
  destruct (foldl step (Some ∅) _) as [m|] eqn:Em; [|done]. cbn.
  destruct (interval (GovernorConfig.default_rps cfg)) as [d|] eqn:Ed; [|done]. cbn. intros [= <-].
  split; [|done]. split_and!; cbn; try (unfold from_secs; lia).
  - by eapply interval_nonneg.
  - eapply Hfold; [|exact Em]. apply map_Forall_empty.
  - apply map_Forall_empty.
Qed.

(** ** Recovery *)

Lemma halve_le floor p : 0 ≤ p → 0 ≤ halve floor p ≤ p / 2.
Proof. intros Hp. unfold halve. pose proof (Z.div_pos p 2). case_match; lia. Qed.
Lemma halvings floor n : ∀ p, 0 ≤ p → p < 2 ^ Z.of_nat n → Nat.iter n (halve floor) p = 0.
Proof.
  induction n as [|n IH]; intros p Hp Hlt; [cbn in *; lia|].
  rewrite Nat.iter_succ_r. pose proof (halve_le floor p Hp) as Hh. apply IH; [lia|].
  rewrite Nat2Z.inj_succ, Z.pow_succ_r in Hlt by lia.
  pose proof (Z.div_lt_upper_bound p 2 (2 ^ Z.of_nat n)). lia.
Qed.

Lemma reward_entry host now g s :
  Governor.hosts g !! to_lowercase host = Some s →
  ∃ s', Governor.hosts (reward host now g) !! to_lowercase host = Some s'
    ∧ HostState.penalty s' = halve (Governor.penalty_floor g) (HostState.penalty s)
    ∧ HostState.next_slot s' = HostState.next_slot s
    ∧ Governor.penalty_floor (reward host now g) = Governor.penalty_floor g.
Proof.
  intros Hs. unfold reward. rewrite Hs. destruct (Z.eqb_spec (HostState.penalty s) 0) as [Hz|].
  - exists s. rewrite Hz. unfold halve. rewrite Z.div_0_l by done. by case_match.
  - eexists. unfold put. cbn. rewrite lookup_insert_eq. by split_and!.
Qed.
Lemma rewards_fade host nows : ∀ g s,
  Governor.hosts g !! to_lowercase host = Some s →
  ∃ s', Governor.hosts (foldl (λ g now, reward host now g) g nows) !! to_lowercase host = Some s'
    ∧ HostState.penalty s' = Nat.iter (length nows) (halve (Governor.penalty_floor g)) (HostState.penalty s).
Proof.
  induction nows as [|now nows IH]; intros g s Hs; cbn [foldl length]; [by exists s|].
  destruct (reward_entry host now g s Hs) as (s1 & H1 & Hp & _ & Hf).
  destruct (IH _ _ H1) as (s' & H' & Hp'). exists s'. split; [done|].
  by rewrite Nat.iter_succ_r, Hp', Hf, Hp.
Qed.

(** ** The guarantees *)

(** C29: A host's requests keep their distance: over any interleaving of claims, probes, refusals,
    rewards, restores, imports and sweeps, each granted slot comes at least the configured
    interval plus the penalty of the moment after every slot granted before it, and at least
    the penalty after every refusal before it.  A sweep must find the host's slot spent, and
    nobody clears the host. *)
Theorem slots_keep_their_distance cfg g host c0 g' c log l1 m l2 slot d l3 :
  0 ≤ GovernorConfig.penalty_base_secs cfg → 0 ≤ GovernorConfig.penalty_cap_secs cfg →
  new cfg = Some g → rtc (gov_step host) (g, c0, []) (g', c, log) →
  log = l1 ++ m :: l2 ++ Granted slot d :: l3 → until m ≤ slot.
Proof.
  intros Hb Hc Hn Hr. destruct (new_well_formed _ _ Hb Hc Hn) as [Hw Hh].
  destruct (steps_safe _ _ _ Hr (safe_start host g c0 Hw Hh)) as (_ & _ & Ho). apply Ho.
Qed.

(** A host recovers: whatever was learned or restored, as many healthy responses as the
    penalty has bits leave none of it. *)
Theorem rewards_clear_a_penalty host g nows :
  well_formed g → penalty host g < 2 ^ Z.of_nat (length nows) →
  penalty host (foldl (λ g now, reward host now g) g nows) = 0.
Proof.
  unfold penalty. intros (_ & _ & _ & _ & Hh).
  destruct (Governor.hosts g !! to_lowercase host) as [s|] eqn:Es.
  - destruct (rewards_fade host nows g s Es) as (s' & -> & ->). intros Hlt.
    apply halvings; [exact (Hh _ _ Es)|done].
  - intros _. assert (∀ l g1, Governor.hosts g1 !! to_lowercase host = None →
      Governor.hosts (foldl (λ g now, reward host now g) g1 l) !! to_lowercase host = None) as Hnone.
    { induction l as [|now l IH]; intros g1 H1; [done|]. cbn. apply IH. unfold reward. by rewrite H1. }
    by rewrite Hnone.
Qed.
End governor.

(** ** A concrete governor *)

Module GovernorDemo.
#[local] Instance lower : Unicode := λ s, s.
Definition cfg : GovernorConfig.t := GovernorConfig.default.
Definition fresh : Governor.t :=
  Governor.mk true (5 * 10 ^ 8) ∅ (25 * 10 ^ 7) ∅ 0 0 (10 ^ 9) (300 * 10 ^ 9) (10 ^ 8).
Lemma new_fresh : new cfg = Some fresh.
Proof. by vm_compute. Qed.
Definition once : Governor.t := (claim "h" 3 fresh).1.

Lemma slots_keep_their_distance_witness :
  (claim "h" 7 once).2 = 500000003 ∧ 3 + 500000000 ≤ 500000003.
Proof.
  split; [by vm_compute|].
  exact (slots_keep_their_distance cfg fresh "h" 0 (claim "h" 7 once).1 7 _ []
    (Granted 3 500000000) [] 500000003 500000000 [] ltac:(vm_compute; discriminate) ltac:(vm_compute; discriminate)
    new_fresh
    (rtc_l _ _ _ _ (step_claim "h" "h" 3 fresh 0 [] ltac:(discriminate))
      (rtc_once _ _ (step_claim "h" "h" 7 once 3 [Granted 3 500000000] ltac:(discriminate)))) eq_refl).
Defined.

Definition refused : Governor.t := penalize "h" (Some (from_secs 40)) 0 fresh.
Lemma refused_well_formed : well_formed refused.
Proof.
  split; [vm_compute; discriminate|]. split; [apply map_Forall_empty|].
  split; [vm_compute; discriminate|]. split; [vm_compute; discriminate|].
  apply map_Forall_insert_2; [vm_compute; discriminate|apply map_Forall_empty].
Qed.
Lemma rewards_clear_a_penalty_witness :
  penalty "h" refused = from_secs 40
  ∧ penalty "h" (foldl (λ g now, reward "h" now g) refused (repeat 5 36)) = 0.
Proof.
  split; [vm_compute; reflexivity|].
  refine (rewards_clear_a_penalty "h" refused (repeat 5 36) refused_well_formed _). vm_compute. reflexivity.
Defined.

(** A host whose interval outlasts [IDLE_TTL] loses it: the sweep looks at when the host was
    last seen, not at its next slot, and the next request goes out at once. *)
Lemma sweep_forgets_a_slot :
  let slow := fresh <| Governor.default_interval := from_secs 10000 |> in
  let g := (claim "h" 0 slow).1 in
  HostState.next_slot (entry "h" 0 g) = from_secs 10000
  ∧ (claim "h" (from_secs 3600) (sweep (from_secs 3600) g)).2 = from_secs 3600.
Proof. by vm_compute. Qed.

(** Jitter is added after the slot is claimed, so two requests can leave closer to each other
    than the interval. *)
Lemma jitter_narrows_the_interval :
  let '(g, first) := acquire "h" 0 0 0 (fresh <| Governor.tick := 2 |>) in
  let '(_, second) := acquire "h" 0 0 0 g in
  second - first < 5 * 10 ^ 8.
Proof. by vm_compute. Qed.
End GovernorDemo.
