(* ===== verification/TierMemory.v ===== *)
(** * TierMemory: what is remembered of a host

    [crates/core/src/tiers.rs]: the tier router's strikes and pins, the persisted politeness
    penalties and the host-weather merge; with the write-behind pass and the boot of
    [crates/server/src/state.rs] and the import and export of [routes/host_weather.rs]. *)

From stdpp Require Import gmap pretty.
From S2P Require Import Prelude Float64 Sql Jitter Filters Governor.

Definition STRIKE_LIMIT : Z := 3.
Definition WEATHER_IMPORT_PENALTY_CAP_MS : Z := 60000.
(** The first instant of year 0: no stored instant is older. *)
Definition NEVER_STALE : timestamp := -62167219200 * 10 ^ 6.
Definition PRUNE_BATCH : Z := 1000.
Definition PREFERRED_BROWSER : string := "browser".
Definition PREFERRED_API_RECIPE : string := "api_recipe".

Definition penalty_is_restorable (penalty_ms : Z) (penalty_updated_at : option timestamp)
    (cutoff : timestamp) : bool :=
  (0 <? penalty_ms) && match penalty_updated_at with Some at_ => cutoff <=? at_ | None => false end.

Inductive TierLesson : Type := HttpWorks | ApiRecipeWorks | HttpStrike | PageTierServed.
Definition tier_lesson (winner : string) (http_lost : bool) : TierLesson :=
  if String.eqb winner "http" then HttpWorks
  else if String.eqb winner PREFERRED_API_RECIPE then ApiRecipeWorks
  else if http_lost then HttpStrike else PageTierServed.

(** ** The table *)

Module HostProfile.
(** A row of [tier_memory], as [GET /hosts] reads it. *)
Record t : Type := mk {
  host : string; preferred_tier : option string; http_strikes : Z; penalty_ms : Z;
  observations : Z; updated_at : timestamp; penalty_updated_at : option timestamp }.
#[global] Instance eta_profile : Eta t := λ p,
  mk (host p) (preferred_tier p) (http_strikes p) (penalty_ms p) (observations p) (updated_at p)
    (penalty_updated_at p).
End HostProfile.
Abbreviation tier_memory := (list HostProfile.t).

Definition host_is (host : string) (p : HostProfile.t) : bool := String.eqb (HostProfile.host p) host.
(** [INSERT .. ON CONFLICT(host) DO UPDATE] *)
Definition upsert_host (new : HostProfile.t) (f : HostProfile.t → HostProfile.t) (t : tier_memory) : tier_memory :=
  if is_some (lookup_by HostProfile.host (HostProfile.host new) t)
  then update_where (host_is (HostProfile.host new)) f t else t ++ [new].
Definition set_preferred (v : option string) (p : HostProfile.t) : HostProfile.t :=
  p <| HostProfile.preferred_tier := v |>.

Section memory.
Context `{Unicode} (ttl_secs : Z).
Implicit Types (now : timestamp) (t : tier_memory).

Definition stale_cutoff now : timestamp := if ttl_secs =? 0 then NEVER_STALE else now - seconds ttl_secs.

Definition preferred (host : string) now t : option string :=
  match select_where (λ p, host_is (to_lowercase host) p && (stale_cutoff now <=? HostProfile.updated_at p)) t with
  | p :: _ => HostProfile.preferred_tier p
  | [] => None
  end.

Definition observed now (p : HostProfile.t) : HostProfile.t :=
  p <| HostProfile.updated_at := now |> <| HostProfile.observations ::= Z.succ |>.
(** The [CASE]s of the strike read the row as it was. *)
Definition strike (cutoff : timestamp) now (p : HostProfile.t) : HostProfile.t :=
  let stale := HostProfile.updated_at p <? cutoff in
  observed now p
    <| HostProfile.http_strikes := if stale then 1 else HostProfile.http_strikes p + 1 |>
    <| HostProfile.preferred_tier :=
         if stale then None
         else if STRIKE_LIMIT <=? HostProfile.http_strikes p + 1 then Some PREFERRED_BROWSER
         else HostProfile.preferred_tier p |>.
Definition record (host winner : string) (http_lost : bool) now t : tier_memory :=
  let host := to_lowercase host in
  match tier_lesson winner http_lost with
  | ApiRecipeWorks =>
      upsert_host (HostProfile.mk host (Some PREFERRED_API_RECIPE) 0 0 1 now None)
        (λ p, set_preferred (Some PREFERRED_API_RECIPE) (observed now p <| HostProfile.http_strikes := 0 |>)) t
  | PageTierServed =>
      update_where (λ p, host_is host p && bool_decide (HostProfile.preferred_tier p = Some PREFERRED_API_RECIPE))
        (λ p, set_preferred None p <| HostProfile.updated_at := now |>) t
  | HttpWorks =>
      upsert_host (HostProfile.mk host None 0 0 1 now None)
        (λ p, set_preferred None (observed now p <| HostProfile.http_strikes := 0 |>)) t
  | HttpStrike =>
      upsert_host (HostProfile.mk host None 1 0 1 now None) (strike (stale_cutoff now) now) t
  end.

Definition get (host : string) t : option HostProfile.t := lookup_by HostProfile.host (to_lowercase host) t.

Definition newest_host (a b : HostProfile.t) : bool :=
  (HostProfile.updated_at b <? HostProfile.updated_at a)
  || ((HostProfile.updated_at b =? HostProfile.updated_at a)
      && String.leb (HostProfile.host a) (HostProfile.host b)).
Definition list_page (after : option (timestamp * string)) (limit : Z) t : list HostProfile.t :=
  sql_limit limit
    (order_by newest_host
       (select_where (λ p, match after with
                           | None => true
                           | Some (at_, host) =>
                               (HostProfile.updated_at p <? at_)
                               || ((HostProfile.updated_at p =? at_) && String.ltb host (HostProfile.host p))
                           end) t)).
Definition forget (host : string) t : tier_memory * bool :=
  let p := host_is (to_lowercase host) in (delete_where p t, 0 <? rows_affected p t).

(** *** Penalties *)

Definition upsert_penalty now t (e : string * Z) : tier_memory :=
  let ms := Z.min e.2 i64_max in
  upsert_host (HostProfile.mk (to_lowercase e.1) None 0 ms 0 now (Some now))
    (λ p, p <| HostProfile.penalty_ms := ms |> <| HostProfile.penalty_updated_at := Some now |>) t.
Definition save_penalties (penalties : list (string * Z)) now t : tier_memory :=
  foldl (upsert_penalty now) t penalties.
Definition penalized (p : HostProfile.t) : bool := 0 <? HostProfile.penalty_ms p.
Definition persist_penalty_snapshot (snapshot : list (string * Z)) now t : tier_memory :=
  foldl (upsert_penalty now)
    (update_where penalized
       (λ p, p <| HostProfile.penalty_ms := 0 |> <| HostProfile.penalty_updated_at := Some now |>) t) snapshot.
Definition load_penalties now t : list (string * Z) :=
  map (λ p, (HostProfile.host p, Z.max (HostProfile.penalty_ms p) 0))
    (List.filter (λ p, penalty_is_restorable (HostProfile.penalty_ms p) (HostProfile.penalty_updated_at p)
                         (stale_cutoff now)) (select_where penalized t)).

Definition says_nothing (cutoff : timestamp) (p : HostProfile.t) : bool :=
  negb (is_some (HostProfile.preferred_tier p)) && (HostProfile.http_strikes p <=? 0)
  && (HostProfile.penalty_ms p <=? 0) && (HostProfile.updated_at p <? cutoff)
  && match HostProfile.penalty_updated_at p with Some at_ => at_ <? cutoff | None => true end.
Definition prune_stale now t : tier_memory * Z :=
  if ttl_secs =? 0 then (t, 0)
  else
    let doomed := map HostProfile.host (sql_limit PRUNE_BATCH (select_where (says_nothing (stale_cutoff now)) t)) in
    let p := λ p, existsb (String.eqb (HostProfile.host p)) doomed in
    (delete_where p t, rows_affected p t).

(** ** Host weather *)

Definition export_weather (min_observations : Z) t : list HostProfile.t :=
  order_by (λ a b, String.leb (HostProfile.host a) (HostProfile.host b))
    (select_where (λ p, min_observations <=? HostProfile.observations p) t).
End memory.

Module WeatherEntry.
Record t : Type := mk {
  host : string; preferred_tier : option string; http_strikes : Z; penalty_ms : Z; observations : Z;
  challenge_fingerprints : list string; updated_at : option timestamp }.
End WeatherEntry.
Module WeatherPlan.
Record t : Type := mk {
  host : string; adopt_pin : bool; raise_strikes : option Z; raise_penalty_ms : option Z; notes : list string }.
Definition is_noop (p : t) : bool :=
  negb (adopt_pin p) && negb (is_some (raise_strikes p)) && negb (is_some (raise_penalty_ms p)).
End WeatherPlan.

Section weather.
Context `{Unicode}.
Implicit Types (remote : WeatherEntry.t).

(** The pin, the strikes and the penalty, each with its notes. *)
Definition plan_pin (local_pinned remote_pinned : bool) (local_obs remote_obs : Z) : bool * list string :=
  if local_pinned then (false, ["local pin kept: imports never downgrade a local pin"%string])
  else if remote_pinned then
    let counts := ("(" +:+ pretty remote_obs +:+ " remote vs " +:+ pretty local_obs +:+ " local observations)")%string in
    if local_obs <? remote_obs then (true, [("remote pin adopted: better-observed " +:+ counts)%string])
    else (false, [("remote pin ignored: not better-observed " +:+ counts)%string])
  else (false, []).
Definition plan_strikes (adopt_pin local_pinned : bool) (local_strikes strikes : Z) : option Z * list string :=
  if adopt_pin || local_pinned then (None, [])
  else
    let capped := Z.max 0 (Z.min strikes (STRIKE_LIMIT - 1)) in
    (if local_strikes <? capped then Some capped else None,
     if capped <? strikes
     then [("remote strikes capped at " +:+ pretty capped +:+ " (pin threshold needs local confirmation)")%string]
     else []).
Definition plan_penalty (local_penalty penalty_ms : Z) : option Z * list string :=
  let stated := Z.max penalty_ms 0 in
  let capped := Z.min stated WEATHER_IMPORT_PENALTY_CAP_MS in
  let note := if capped <? stated
              then [("remote penalty capped at " +:+ pretty WEATHER_IMPORT_PENALTY_CAP_MS
                       +:+ "ms (import severity cap)")%string] else [] in
  if local_penalty <? capped then (Some capped, note)
  else (None, note ++ (if 0 <? capped
                       then ["remote penalty ignored: local penalty is already as strict"%string] else [])).

Definition plan_weather_import (local : option HostProfile.t) (live_penalty_ms : Z) remote : WeatherPlan.t :=
  let local_pinned := match local with Some l => is_some (HostProfile.preferred_tier l) | None => false end in
  let remote_pinned := bool_decide (WeatherEntry.preferred_tier remote = Some PREFERRED_BROWSER) in
  let '(adopt_pin, notes1) :=
    plan_pin local_pinned remote_pinned (from_option HostProfile.observations 0 local)
      (WeatherEntry.observations remote) in
  let '(strikes, notes2) :=
    plan_strikes adopt_pin local_pinned (from_option HostProfile.http_strikes 0 local)
      (WeatherEntry.http_strikes remote) in
  let local_penalty := Z.max live_penalty_ms (from_option (λ l, Z.max (HostProfile.penalty_ms l) 0) 0 local) in
  let '(penalty, notes3) := plan_penalty local_penalty (WeatherEntry.penalty_ms remote) in
  WeatherPlan.mk (to_lowercase (WeatherEntry.host remote)) adopt_pin strikes penalty (notes1 ++ notes2 ++ notes3).

Definition raised (strikes : Z) (now : timestamp) (p : HostProfile.t) : HostProfile.t :=
  p <| HostProfile.http_strikes ::= Z.max strikes |> <| HostProfile.updated_at := now |>.
Definition apply_weather (plan : WeatherPlan.t) (now : timestamp) (t : tier_memory) : tier_memory :=
  let host := WeatherPlan.host plan in
  if WeatherPlan.adopt_pin plan then
    upsert_host (HostProfile.mk host (Some PREFERRED_BROWSER) STRIKE_LIMIT 0 0 now None)
      (λ p, set_preferred (Some PREFERRED_BROWSER) (raised STRIKE_LIMIT now p)) t
  else
    match WeatherPlan.raise_strikes plan with
    | Some strikes =>
        upsert_host (HostProfile.mk host None strikes 0 0 now None) (raised strikes now) t
    | None => t
    end.

(** ** The memory and the governor together *)

Definition as_millis (d : Duration) : Z := d / 10 ^ 6.
Definition persist_host_penalties (g : Governor.t) (now : timestamp) (t : tier_memory) : tier_memory :=
  persist_penalty_snapshot
    (map (λ '(host, p), (host, Z.min (as_millis p) u64_max)) (snapshot_penalties g)) now t.
(** The boot: what was saved and has not aged goes back to the governor. *)
Definition restore_host_penalties (ttl_secs : Z) (now : timestamp) (at_ : Instant) (t : tier_memory)
    (g : Governor.t) : Governor.t :=
  foldl (λ g '(host, ms), restore_penalty host (from_millis ms) at_ g) g (load_penalties ttl_secs now t).

Definition DEFAULT_MIN_OBSERVATIONS : Z := 3.
Definition MAX_IMPORT_ENTRIES : nat := 10000.
(** The entries of an export; [None]: the floor is refused. *)
Definition export_entries (min_observations : option Z) (g : Governor.t) (t : tier_memory) :
    option (list WeatherEntry.t) :=
  let floor := default DEFAULT_MIN_OBSERVATIONS min_observations in
  if floor <? 0 then None
  else Some (map (λ p, WeatherEntry.mk (HostProfile.host p) (HostProfile.preferred_tier p)
                         (HostProfile.http_strikes p)
                         (Z.max (HostProfile.penalty_ms p)
                            (Z.min (as_millis (penalty (HostProfile.host p) g)) i64_max))
                         (HostProfile.observations p) [] (Some (HostProfile.updated_at p)))
               (export_weather floor t)).

Inductive ImportRefusal : Type := TooManyEntries (n : nat) | EmptyHost.
(** The dry run: the plans that would change something, and how many entries would not. *)
Fixpoint plan_bundle (g : Governor.t) (t : tier_memory) (entries : list WeatherEntry.t)
    (seen : gset string) (actions : list WeatherPlan.t) (noops : nat) :
    result ImportRefusal (list WeatherPlan.t * nat) :=
  match entries with
  | [] => Ok (actions, noops)
  | e :: entries =>
      let host := to_lowercase (str_trim (WeatherEntry.host e)) in
      if String.eqb host "" then Err EmptyHost
      else if bool_decide (host ∈ seen) then plan_bundle g t entries seen actions (S noops)
      else
        let seen := {[host]} ∪ seen in
        let plan := plan_weather_import (get host t) (Z.min (as_millis (penalty host g)) u64_max) e in
        if WeatherPlan.is_noop plan then plan_bundle g t entries seen actions (S noops)
        else plan_bundle g t entries seen (actions ++ [plan]) noops
  end.
Definition apply_plan (now : timestamp) (at_ : Instant) (acc : Governor.t * tier_memory * list (string * Z))
    (plan : WeatherPlan.t) : Governor.t * tier_memory * list (string * Z) :=
  let '(g, t, penalties) := acc in
  let t := apply_weather plan now t in
  match WeatherPlan.raise_penalty_ms plan with
  | Some ms => ((raise_penalty (WeatherPlan.host plan) (from_millis ms) at_ g).1, t,
                penalties ++ [(WeatherPlan.host plan, ms)])
  | None => (g, t, penalties)
  end.
Definition import_entries (apply : bool) (now : timestamp) (at_ : Instant) (entries : list WeatherEntry.t)
    (g : Governor.t) (t : tier_memory) : Governor.t * tier_memory * result ImportRefusal (list WeatherPlan.t * nat) :=
  if (MAX_IMPORT_ENTRIES <? length entries)%nat then (g, t, Err (TooManyEntries (length entries)))
  else
    match plan_bundle g t entries ∅ [] 0 with
    | Err e => (g, t, Err e)
    | Ok (actions, noops) =>
        if apply then
          let '(g, t, penalties) := foldl (apply_plan now at_) (g, t, []) actions in
          (g, save_penalties penalties now t, Ok (actions, noops))
        else (g, t, Ok (actions, noops))
    end.
End weather.
