(* ===== verification/TierMemoryTheorems.v ===== *)
(** * TierMemoryTheorems: pins are earned, imports only add caution

    One row per host under every writer; what a browser pin says of the host's history; what
    an imported bundle may change; and a restart that brings the learned penalties back. *)

From stdpp Require Import gmap pretty.
From S2P Require Import Prelude Float64 Sql Jitter Filters Governor TierMemory.

Abbreviation row := (lookup_by HostProfile.host).

(** ** Rows under the table's statements *)

Section rows.
Implicit Types (t : tier_memory) (f : HostProfile.t → HostProfile.t).

Lemma row_upsert new f t h :
  (∀ p, HostProfile.host (f p) = HostProfile.host p) →
  row h (upsert_host new f t)
    = if decide (h = HostProfile.host new) then Some (from_option f new (row h t)) else row h t.
Proof.
  intros Hf. unfold upsert_host. destruct (row (HostProfile.host new) t) as [p|] eqn:Hp; cbn [is_some].
  - rewrite lookup_by_update by done. unfold host_is.
    case_decide as Hh; destruct (row h t) as [q|] eqn:Hq; simplify_eq; cbn; [| |done].
    + apply lookup_by_Some in Hp as [_ ->]. by rewrite String.eqb_refl.
    + apply lookup_by_Some in Hq as [_ Hq]. case_if; [|done]. breflect. congruence.
  - rewrite lookup_by_app. unfold lookup_by at 2. cbn [List.find].
    case_decide as Hh; [subst h; rewrite Hp; by rewrite bool_decide_true|].
    rewrite bool_decide_false by done. by destruct (row h t).
Qed.

Lemma NoDup_upsert new f t :
  (∀ p, HostProfile.host (f p) = HostProfile.host p) →
  NoDup (map HostProfile.host t) → NoDup (map HostProfile.host (upsert_host new f t)).
Proof.
  intros Hf Hnd. unfold upsert_host.
  destruct (row (HostProfile.host new) t) eqn:Hp; cbn [is_some].
  - by rewrite map_update_where.
  - apply lookup_by_None in Hp. rewrite map_app. apply NoDup_app. split; [done|].
    split; [|apply NoDup_singleton]. intros x Hx Hx'. apply list_elem_of_singleton in Hx'. by subst.
Qed.

Lemma row_delete p t h :
  NoDup (map HostProfile.host t) →
  row h (delete_where p t) = match row h t with Some r => if p r then None else Some r | None => None end.
Proof.
  intros Hnd. destruct (row h t) as [r|] eqn:Hr.
  - destruct (lookup_by_Some _ _ _ _ Hr) as [Hin <-]. case_if.
    + apply lookup_by_None. intros (r' & He & Hr')%list_elem_of_fmap.
      apply elem_of_delete in Hr' as [Hr' Hp']. rewrite (lookup_by_unique _ _ _ _ Hnd Hin Hr') in Heqb by done.
      congruence.
    + apply lookup_by_elem; [by apply NoDup_select_keys|]. by apply elem_of_delete.
  - apply lookup_by_None in Hr. apply lookup_by_None.
    intros (r' & -> & Hr')%list_elem_of_fmap. apply elem_of_delete in Hr' as [Hr' _].
    apply Hr, list_elem_of_fmap. by exists r'.
Qed.
End rows.

(** ** What a host's row remembers *)

Section history.
Context `{Unicode} (ttl_secs : Z).
Implicit Types (t : tier_memory) (now : timestamp).

(** Everything that writes the table but an import and the operator's clock. *)
Inductive memory_event : Type :=
| Recorded (host winner : string) (http_lost : bool) (now : timestamp)
| Forgotten (host : string)
| PenaltiesSaved (penalties : list (string * Z)) (now : timestamp)
| SnapshotPersisted (snapshot : list (string * Z)) (now : timestamp)
| Pruned (now : timestamp).
Definition memory_apply t (ev : memory_event) : tier_memory :=
  match ev with
  | Recorded host winner lost now => record ttl_secs host winner lost now t
  | Forgotten host => (forget host t).1
  | PenaltiesSaved l now => save_penalties l now t
  | SnapshotPersisted l now => persist_penalty_snapshot l now t
  | Pruned now => (prune_stale ttl_secs now t).1
  end.
Definition event_time (ev : memory_event) : timestamp :=
  match ev with
  | Forgotten _ => NEVER_STALE
  | Recorded _ _ _ now | PenaltiesSaved _ now | SnapshotPersisted _ now | Pruned now => now
  end.

(** The http losses of [host] since its last win, or since it was forgotten. *)
Definition streak_step (host : string) (n : Z) (ev : memory_event) : Z :=
  match ev with
  | Recorded h winner lost _ =>
      if String.eqb (to_lowercase h) host then
        match tier_lesson winner lost with
        | HttpStrike => n + 1
        | PageTierServed => n
        | HttpWorks | ApiRecipeWorks => 0
        end
      else n
  | Forgotten h => if String.eqb (to_lowercase h) host then 0 else n
  | _ => n
  end.
Definition streak (host : string) (evs : list memory_event) : Z := foldl (streak_step host) 0 evs.

Definition one_row t : Prop := NoDup (map HostProfile.host t).
Definition browser_pinned (p : HostProfile.t) : Prop := HostProfile.preferred_tier p = Some PREFERRED_BROWSER.

(** A row against the losses of its host's streak, with and without ageing. *)
Definition earned (n : Z) (p : HostProfile.t) : Prop :=
  0 ≤ HostProfile.http_strikes p ≤ n ∧ (browser_pinned p → STRIKE_LIMIT ≤ HostProfile.http_strikes p).
Definition exact (n : Z) (o : option HostProfile.t) : Prop :=
  match o with
  | Some p => HostProfile.http_strikes p = n ∧ NEVER_STALE ≤ HostProfile.updated_at p
              ∧ (browser_pinned p ↔ STRIKE_LIMIT ≤ n) ∧ 0 ≤ n
  | None => n = 0
  end.

Lemma upsert_penalty_row now t e h :
  row h (upsert_penalty now t e)
    = if decide (h = to_lowercase e.1)
      then Some (from_option (λ p, p <| HostProfile.penalty_ms := Z.min e.2 i64_max |>
                                     <| HostProfile.penalty_updated_at := Some now |>)
                   (HostProfile.mk (to_lowercase e.1) None 0 (Z.min e.2 i64_max) 0 now (Some now)) (row h t))
      else row h t.
Proof. unfold upsert_penalty. by rewrite row_upsert. Qed.

(** A fold of penalty writes keeps what each write keeps. *)
Lemma penalties_keep (P : tier_memory → Prop) now l t :
  (∀ t e, P t → P (upsert_penalty now t e)) → P t → P (foldl (upsert_penalty now) t l).
Proof. intros Hstep. revert t. induction l as [|e l IH]; intros t Ht; [done|]. apply IH, Hstep, Ht. Qed.

Lemma memory_one_row t ev : one_row t → one_row (memory_apply t ev).
Proof.
  unfold one_row. intros Ht.
  assert (∀ now t e, NoDup (map HostProfile.host t) →
                     NoDup (map HostProfile.host (upsert_penalty now t e))) as Hup
    by (intros; unfold upsert_penalty; by apply NoDup_upsert).
  destruct ev; cbn.
  - unfold record. destruct (tier_lesson _ _); try (by apply NoDup_upsert). by rewrite map_update_where.
  - by apply NoDup_select_keys.
  - apply (penalties_keep (λ t, NoDup (map HostProfile.host t))); [apply Hup|done].
  - apply (penalties_keep (λ t, NoDup (map HostProfile.host t))); [apply Hup|]. by rewrite map_update_where.
  - unfold prune_stale. case_if; [done|]. by apply NoDup_select_keys.
Qed.
Lemma history_one_row evs : ∀ t, one_row t → one_row (foldl memory_apply t evs).
Proof. induction evs as [|ev evs IH]; intros t Ht; [done|]. by apply IH, memory_one_row. Qed.

Lemma preferred_row host now t :
  one_row t →
  preferred ttl_secs host now t
    = match row (to_lowercase host) t with
      | Some p => if stale_cutoff ttl_secs now <=? HostProfile.updated_at p
                  then HostProfile.preferred_tier p else None
      | None => None
      end.
Proof.
  intros Hnd. unfold preferred.
  destruct (select_where _ t) as [|p l] eqn:Hs.
  - destruct (row (to_lowercase host) t) as [p|] eqn:Hp; [|done]. case_if; [|done].
    destruct (lookup_by_Some _ _ _ _ Hp) as [Hin Hk]. exfalso.
    assert (p ∈ select_where (λ p, host_is (to_lowercase host) p
                                   && (stale_cutoff ttl_secs now <=? HostProfile.updated_at p)) t) as Hbad.
    { apply elem_of_select. split; [done|]. unfold host_is. by rewrite Hk, String.eqb_refl, Heqb. }
    rewrite Hs in Hbad. by apply not_elem_of_nil in Hbad.
  - assert (p ∈ select_where (λ p, host_is (to_lowercase host) p
                                   && (stale_cutoff ttl_secs now <=? HostProfile.updated_at p)) t) as Hin
      by (rewrite Hs; left).
    apply elem_of_select in Hin as [Hin [Hh Hc]%andb_true_iff]. unfold host_is in Hh.
    apply String.eqb_eq in Hh. rewrite <- Hh, (lookup_by_elem _ _ _ Hnd Hin). by rewrite Hc.
Qed.

(** *** One event on one host's row *)

(** What a lesson makes of a host's row. *)
Definition lesson_row (lesson : TierLesson) (host : string) now (o : option HostProfile.t) :
    option HostProfile.t :=
  match lesson with
  | ApiRecipeWorks =>
      Some (from_option (λ p, set_preferred (Some PREFERRED_API_RECIPE)
                                (observed now p <| HostProfile.http_strikes := 0 |>))
              (HostProfile.mk host (Some PREFERRED_API_RECIPE) 0 0 1 now None) o)
  | HttpWorks =>
      Some (from_option (λ p, set_preferred None (observed now p <| HostProfile.http_strikes := 0 |>))
              (HostProfile.mk host None 0 0 1 now None) o)
  | HttpStrike =>
      Some (from_option (strike (stale_cutoff ttl_secs now) now) (HostProfile.mk host None 1 0 1 now None) o)
  | PageTierServed =>
      (λ p, if bool_decide (HostProfile.preferred_tier p = Some PREFERRED_API_RECIPE)
            then set_preferred None p <| HostProfile.updated_at := now |> else p) <$> o
  end.

Lemma record_row host winner lost now t h :
  row h (record ttl_secs host winner lost now t)
    = if String.eqb (to_lowercase host) h
      then lesson_row (tier_lesson winner lost) h now (row h t) else row h t.
Proof.
  unfold record. destruct (tier_lesson winner lost); rewrite ?row_upsert by done;
    cbn [HostProfile.host lesson_row];
    try (case_decide as Hd; [subst h; by rewrite String.eqb_refl|case_if; [breflect; congruence|done]]).
  rewrite lookup_by_update by done. case_if; breflect; subst.
  - destruct (row (to_lowercase host) t) as [p|] eqn:Hp; [|done]. cbn.
    apply lookup_by_Some in Hp as [_ Hp]. unfold host_is. by rewrite Hp, String.eqb_refl.
  - destruct (row h t) as [p|] eqn:Hp; [|done]. cbn.
    apply lookup_by_Some in Hp as [_ Hp]. unfold host_is. rewrite Hp.
    destruct (String.eqb_spec h (to_lowercase host)); [congruence|done].
Qed.

Definition earned_row (n : Z) (o : option HostProfile.t) : Prop :=
  0 ≤ n ∧ match o with Some p => earned n p | None => True end.

Lemma penalty_fields_kept (P : option HostProfile.t → Prop) now t e h :
  (∀ p v w, P (Some p) → P (Some (p <| HostProfile.penalty_ms := v |> <| HostProfile.penalty_updated_at := w |>))) →
  (P None → ∀ ms, P (Some (HostProfile.mk h None 0 ms 0 now (Some now)))) →
  P (row h t) → P (row h (upsert_penalty now t e)).
Proof.
  intros Hsome Hnone Ht. rewrite upsert_penalty_row. case_decide as Hd; [|done]. subst h.
  destruct (row (to_lowercase e.1) t) as [p|]; cbn; [by apply Hsome|by apply Hnone].
Qed.

(** Penalty writes touch neither strikes nor pin. *)
Lemma penalties_row (P : option HostProfile.t → Prop) now l t h :
  (∀ p v w, P (Some p) → P (Some (p <| HostProfile.penalty_ms := v |> <| HostProfile.penalty_updated_at := w |>))) →
  (P None → ∀ ms, P (Some (HostProfile.mk h None 0 ms 0 now (Some now)))) →
  P (row h t) → P (row h (save_penalties l now t)) ∧ P (row h (persist_penalty_snapshot l now t)).
Proof.
  intros Hsome Hnone Ht.
  assert (∀ t, P (row h t) → P (row h (foldl (upsert_penalty now) t l))) as Hfold.
  { intros t' Ht'. apply (penalties_keep (λ t, P (row h t))); [|done].
    intros t0 e H0. by apply penalty_fields_kept. }
  split; apply Hfold; [done|]. rewrite lookup_by_update by done.
  destruct (row h t) as [p|]; cbn; [|done]. case_if; [by apply Hsome|done].
Qed.

Lemma earned_step t ev h n :
  one_row t → earned_row n (row h t) → earned_row (streak_step h n ev) (row h (memory_apply t ev)).
Proof.
  intros Hnd [Hn Ht]. destruct ev as [host winner lost now|host|l now|l now|now];
    cbn [streak_step memory_apply forget fst].
  - rewrite record_row. case_if; [|done]. unfold STRIKE_LIMIT, earned_row in *.
    destruct (tier_lesson winner lost); cbn; (split; [lia|]).
    + by destruct (row h t); cbn; unfold earned, browser_pinned; cbn; split.
    + by destruct (row h t); cbn; unfold earned, browser_pinned; cbn; split.
    + destruct (row h t) as [p|]; cbn; [|unfold earned, browser_pinned; cbn; split; [lia|done]].
      destruct Ht as [Hs Hp]. unfold earned, strike, browser_pinned, STRIKE_LIMIT in *. cbn.
      repeat case_if; breflect; split; (lia || done || (intros Hb; specialize (Hp Hb); lia)).
    + destruct (row h t) as [p|]; cbn; [|done]. case_if; [|done].
      destruct Ht as [Hs _]. by unfold earned, browser_pinned; cbn.
  - rewrite row_delete by done. unfold host_is. destruct (row h t) as [p|] eqn:Hp.
    + apply lookup_by_Some in Hp as [_ Hp]. rewrite Hp.
      rewrite (String.eqb_sym h). case_if; by split.
    + unfold earned_row. case_if; split; (done || lia).
  - apply (penalties_row (earned_row n)); [| |by split].
    + intros p v w [_ Hp]. by split.
    + intros _ ms. split; [done|]. unfold earned, browser_pinned. cbn. split; [lia|done].
  - apply (penalties_row (earned_row n)); [| |by split].
    + intros p v w [_ Hp]. by split.
    + intros _ ms. split; [done|]. unfold earned, browser_pinned. cbn. split; [lia|done].
  - unfold prune_stale. case_if; [by split|]. cbn [fst]. rewrite row_delete by done.
    split; [done|]. destruct (row h t); [|done]. case_if; done.
Qed.

Lemma earned_history evs h : ∀ t n,
  one_row t → earned_row n (row h t) →
  earned_row (foldl (streak_step h) n evs) (row h (foldl memory_apply t evs)).
Proof.
  induction evs as [|ev evs IH]; intros t n Hnd Ht; [done|]. cbn.
  apply IH; [by apply memory_one_row|by apply earned_step].
Qed.

(** *** Without ageing *)

Ltac close_exact := split_and!; intros; first [done | lia | tauto | intuition (congruence || lia)].

Lemma exact_step t ev h n :
  ttl_secs = 0 → NEVER_STALE ≤ event_time ev → one_row t →
  exact n (row h t) → exact (streak_step h n ev) (row h (memory_apply t ev)).
Proof.
  intros Httl Htime Hnd Ht. destruct ev as [host winner lost now|host|l now|l now|now];
    cbn [streak_step memory_apply forget fst event_time] in *.
  - rewrite record_row. case_if; [|done]. unfold STRIKE_LIMIT in *.
    destruct (tier_lesson winner lost); cbn.
    + by destruct (row h t); cbn; unfold browser_pinned; cbn; close_exact.
    + by destruct (row h t); cbn; unfold browser_pinned; cbn; close_exact.
    + unfold stale_cutoff. rewrite Httl. cbn.
      destruct (row h t) as [p|]; cbn in *; [|by subst; unfold browser_pinned; cbn; close_exact].
      destruct Ht as (Hs & Hu & Hp & Hn). unfold strike, browser_pinned, STRIKE_LIMIT in *. cbn.
      replace (HostProfile.updated_at p <? NEVER_STALE) with false by (symmetry; breflect; lia).
      case_if; breflect; close_exact.
    + destruct (row h t) as [p|]; cbn in *; [|done].
      destruct Ht as (Hs & Hu & Hp & Hn). case_if; [|done]. breflect. unfold browser_pinned in *. cbn.
      rewrite Heqb0 in Hp. assert (Some PREFERRED_API_RECIPE ≠ Some PREFERRED_BROWSER) by done. close_exact.
  - rewrite row_delete by done. unfold host_is. destruct (row h t) as [p|] eqn:Hp.
    + apply lookup_by_Some in Hp as [_ Hp]. rewrite Hp. rewrite (String.eqb_sym h). by case_if.
    + cbn in Ht. subst n. by case_if.
  - apply (penalties_row (exact n)); [..|done].
    + intros p v w Hp. exact Hp.
    + intros Hnone ms. cbn in Hnone. subst n. cbn. unfold browser_pinned, STRIKE_LIMIT. cbn. close_exact.
  - apply (penalties_row (exact n)); [..|done].
    + intros p v w Hp. exact Hp.
    + intros Hnone ms. cbn in Hnone. subst n. cbn. unfold browser_pinned, STRIKE_LIMIT. cbn. close_exact.
  - unfold prune_stale. by rewrite Httl.
Qed.

Lemma exact_history evs h : ∀ t n,
  ttl_secs = 0 → Forall (λ ev, NEVER_STALE ≤ event_time ev) evs → one_row t → exact n (row h t) →
  exact (foldl (streak_step h) n evs) (row h (foldl memory_apply t evs)).
Proof.
  induction evs as [|ev evs IH]; intros t n Httl Htimes Hnd Ht; [done|]. cbn.
  apply Forall_cons in Htimes as [Htime Htimes].
  apply IH; [done|done|by apply memory_one_row|by apply exact_step].
Qed.

End history.

(** ** Imports only add caution *)

Section imports.
Context `{Unicode}.
Implicit Types (t : tier_memory) (g : Governor.t) (now : timestamp) (e : WeatherEntry.t) (plan : WeatherPlan.t).

(** A better-observed bundle says the host needs a browser. *)
Definition better_pinned (p : HostProfile.t) e : Prop :=
  WeatherEntry.preferred_tier e = Some PREFERRED_BROWSER
  ∧ HostProfile.observations p < WeatherEntry.observations e.

(** [cur] is [orig] with caution added, by the entries [l]. *)
Record more_cautious (l : list WeatherEntry.t) (orig cur : HostProfile.t) : Prop := {
  mc_observations : HostProfile.observations cur = HostProfile.observations orig;
  mc_pin : is_Some (HostProfile.preferred_tier orig) →
           HostProfile.preferred_tier cur = HostProfile.preferred_tier orig;
  mc_adopted : HostProfile.preferred_tier cur ≠ HostProfile.preferred_tier orig →
               HostProfile.preferred_tier cur = Some PREFERRED_BROWSER
               ∧ ∃ e, e ∈ l ∧ to_lowercase (WeatherEntry.host e) = HostProfile.host orig ∧ better_pinned orig e;
  mc_strikes : HostProfile.http_strikes orig ≤ HostProfile.http_strikes cur;
  mc_below : HostProfile.http_strikes orig < HostProfile.http_strikes cur →
             HostProfile.preferred_tier cur = HostProfile.preferred_tier orig →
             HostProfile.http_strikes cur < STRIKE_LIMIT;
  mc_penalty : HostProfile.penalty_ms orig ≤ HostProfile.penalty_ms cur }.

(** What a plan made against [orig] may say. *)
Record plan_sound (l : list WeatherEntry.t) (orig : option HostProfile.t) plan : Prop := {
  ps_pin : WeatherPlan.adopt_pin plan = true →
           from_option HostProfile.preferred_tier None orig = None
           ∧ ∃ e, e ∈ l ∧ to_lowercase (WeatherEntry.host e) = WeatherPlan.host plan
                  ∧ WeatherEntry.preferred_tier e = Some PREFERRED_BROWSER
                  ∧ from_option HostProfile.observations 0 orig < WeatherEntry.observations e;
  ps_strikes : ∀ s, WeatherPlan.raise_strikes plan = Some s → s < STRIKE_LIMIT;
  ps_penalty : ∀ ms, WeatherPlan.raise_penalty_ms plan = Some ms →
               0 < ms ≤ WEATHER_IMPORT_PENALTY_CAP_MS
               ∧ from_option HostProfile.penalty_ms 0 orig < ms }.

Lemma plan_penalty_sound local ms c :
  0 ≤ local → (plan_penalty local ms).1 = Some c → local < c ≤ WEATHER_IMPORT_PENALTY_CAP_MS.
Proof. unfold plan_penalty. case_if; cbn; intros ? [= <-]; breflect; lia. Qed.

Lemma plan_weather_import_sound l orig live e :
  e ∈ l → 0 ≤ live → plan_sound l orig (plan_weather_import orig live e).
Proof.
  intros He Hlive. unfold plan_weather_import.
  destruct (plan_pin _ _ _ _) as [adopt n1] eqn:Hpin.
  destruct (plan_strikes _ _ _ _) as [strikes n2] eqn:Hstrikes.
  destruct (plan_penalty _ _) as [pen n3] eqn:Hpen. split; cbn.
  - intros ->. unfold plan_pin in Hpin. destruct orig as [p|]; cbn in *.
    + destruct (HostProfile.preferred_tier p) eqn:Hp; cbn in Hpin; [done|]. split; [done|].
      revert Hpin. repeat case_if; try done. breflect. intros _. by exists e.
    + split; [done|]. revert Hpin. repeat case_if; try done. breflect. intros _. by exists e.
  - intros s ->. unfold plan_strikes in Hstrikes. revert Hstrikes.
    case_if; [done|]. intros [= Hs Hn]. revert Hs. case_if; [|done]. intros [= <-]. unfold STRIKE_LIMIT. lia.
  - intros ms ->.
    assert (0 ≤ Z.max live (from_option (λ l, Z.max (HostProfile.penalty_ms l) 0) 0 orig)) as Hpos by lia.
    pose proof (plan_penalty_sound _ (WeatherEntry.penalty_ms e) ms Hpos) as Hsound.
    rewrite Hpen in Hsound. specialize (Hsound eq_refl). destruct orig; cbn in *; lia.
Qed.

(** Every planned action comes from an entry, against the row its trimmed name finds. *)
Lemma plan_bundle_spec g t entries : ∀ seen actions noops actions' noops',
  plan_bundle g t entries seen actions noops = Ok (actions', noops') →
  ∀ plan, plan ∈ actions' → plan ∈ actions ∨
    ∃ e live, e ∈ entries ∧ (0 ≤ penalty (to_lowercase (str_trim (WeatherEntry.host e))) g → 0 ≤ live)
              ∧ plan = plan_weather_import (get (to_lowercase (str_trim (WeatherEntry.host e))) t) live e.
Proof.
  induction entries as [|e entries IH]; intros seen actions noops actions' noops' Hok plan Hplan; cbn in Hok.
  { simplify_eq. by left. }
  revert Hok. repeat case_if; intros Hok; [done|..].
  1,2: destruct (IH _ _ _ _ _ Hok _ Hplan) as [?|(e' & live & He' & ?)]; [by left|];
       right; exists e', live; split; [by right|done].
  destruct (IH _ _ _ _ _ Hok _ Hplan) as [Hin|(e' & live & He' & ?)].
  - apply elem_of_app in Hin as [?|Heq%list_elem_of_singleton]; [by left|]. subst plan. right.
    eexists e, _. split; [by left|]. split; [|done]. intros Hp.
    apply Z.min_glb; [|done]. apply Z.div_pos; [done|lia].
  - right. exists e', live. split; [by right|done].
Qed.

(** *** Applying the plans *)

Section applied.
Context (entries : list WeatherEntry.t) (g0 : Governor.t) (t0 : tier_memory).
Context (lower_idem : ∀ s, to_lowercase (to_lowercase s) = to_lowercase s).

Definition planned plan : Prop :=
  plan_sound entries (row (WeatherPlan.host plan) t0) plan
  ∧ to_lowercase (WeatherPlan.host plan) = WeatherPlan.host plan.

Record caution_added (acc : Governor.t * tier_memory * list (string * Z)) : Prop := {
  ca_rows : ∀ h p, row h t0 = Some p → ∃ cur, row h acc.1.2 = Some cur ∧ more_cautious entries p cur;
  ca_governor : ∀ h, penalty h g0 ≤ penalty h acc.1.1;
  ca_capped : ∀ h, penalty h g0 < penalty h acc.1.1 →
              penalty h acc.1.1 ≤ from_millis WEATHER_IMPORT_PENALTY_CAP_MS;
  ca_saves : ∀ h ms, (h, ms) ∈ acc.2 →
             to_lowercase h = h ∧ 0 < ms ≤ WEATHER_IMPORT_PENALTY_CAP_MS
             ∧ ∀ p, row h t0 = Some p → HostProfile.penalty_ms p < ms }.

Lemma more_cautious_refl p : more_cautious entries p p.
Proof. by split; try lia. Qed.

Lemma apply_weather_row plan now t h :
  row h (apply_weather plan now t)
    = if decide (h = WeatherPlan.host plan) then
        if WeatherPlan.adopt_pin plan then
          Some (from_option (λ p, set_preferred (Some PREFERRED_BROWSER) (raised STRIKE_LIMIT now p))
                  (HostProfile.mk h (Some PREFERRED_BROWSER) STRIKE_LIMIT 0 0 now None) (row h t))
        else match WeatherPlan.raise_strikes plan with
             | Some s => Some (from_option (raised s now) (HostProfile.mk h None s 0 0 now None) (row h t))
             | None => row h t
             end
      else row h t.
Proof.
  unfold apply_weather. destruct (WeatherPlan.adopt_pin plan), (WeatherPlan.raise_strikes plan);
    rewrite ?row_upsert by done; cbn [HostProfile.host]; case_decide; subst; done.
Qed.

Lemma apply_weather_cautious plan now t orig cur :
  planned plan → HostProfile.host orig = WeatherPlan.host plan →
  row (WeatherPlan.host plan) t0 = Some orig → more_cautious entries orig cur →
  row (WeatherPlan.host plan) t = Some cur →
  ∃ cur', row (WeatherPlan.host plan) (apply_weather plan now t) = Some cur' ∧ more_cautious entries orig cur'.
Proof.
  intros [[Hpin Hstrikes _] _] Hhost Horig Hcur Ht. rewrite Horig in Hpin. cbn in Hpin.
  rewrite apply_weather_row, decide_True, Ht by done. cbn [from_option].
  destruct Hcur as [Hobs Hkeep Hadopt Hmore Hbelow Hpen].
  destruct (WeatherPlan.adopt_pin plan).
  - destruct (Hpin eq_refl) as (Hnone & e & He & Heh & Hepin & Heobs). eexists. split; [done|]. split; cbn.
    + done.
    + rewrite Hnone. by intros [].
    + intros _. split; [done|]. exists e. by rewrite Hhost.
    + lia.
    + intros _. by rewrite Hnone.
    + done.
  - destruct (WeatherPlan.raise_strikes plan) as [s|]; [|by exists cur].
    specialize (Hstrikes s eq_refl). eexists. split; [done|]. split; cbn; try done.
    + lia.
    + intros Hlt Hsame. destruct (Z.max_spec s (HostProfile.http_strikes cur)) as [[? ->]|[? ->]]; [|done].
      apply Hbelow; [lia|done].
Qed.

Lemma raise_penalty_caution h ms at_ g :
  0 < ms ≤ WEATHER_IMPORT_PENALTY_CAP_MS → ∀ k,
  penalty k g ≤ penalty k (raise_penalty h (from_millis ms) at_ g).1
  ∧ (penalty k g < penalty k (raise_penalty h (from_millis ms) at_ g).1 →
     penalty k (raise_penalty h (from_millis ms) at_ g).1 ≤ from_millis WEATHER_IMPORT_PENALTY_CAP_MS).
Proof.
  intros Hms k. unfold raise_penalty, penalty. case_if; [cbn; lia|].
  assert (∀ s, Governor.hosts (put (to_lowercase h) s g) !! to_lowercase k
               = if decide (to_lowercase h = to_lowercase k) then Some s
                 else Governor.hosts g !! to_lowercase k) as Hput.
  { intros s. cbn. case_decide as Hd; [by rewrite Hd, lookup_insert_eq|by rewrite lookup_insert_ne]. }
  case_if; cbn [fst]; rewrite Hput; case_decide as Hd; try lia; rewrite <- ?Hd; unfold entry in *;
    destruct (Governor.hosts g !! to_lowercase h) as [s|]; cbn in *; breflect; unfold from_millis in *; lia.
Qed.

Lemma apply_plan_caution plan now at_ acc :
  planned plan → caution_added acc → caution_added (apply_plan now at_ acc plan).
Proof.
  intros Hplan [Hrows Hgov Hcap Hsaves]. destruct acc as [[g t] saves]. cbn in *.
  assert (∀ h p, row h t0 = Some p → ∃ cur, row h (apply_weather plan now t) = Some cur
                                           ∧ more_cautious entries p cur) as Hrows'.
  { intros h p Hp. destruct (Hrows h p Hp) as (cur & Hcur & Hmc).
    destruct (decide (h = WeatherPlan.host plan)) as [->|Hne].
    - destruct (lookup_by_Some _ _ _ _ Hp) as [_ Hk]. by apply (apply_weather_cautious plan now t p cur).
    - rewrite apply_weather_row, decide_False by done. by exists cur. }
  destruct Hplan as [[_ _ Hpen] Hlower]. unfold apply_plan.
  destruct (WeatherPlan.raise_penalty_ms plan) as [ms|] eqn:Hms; [|by split].
  destruct (Hpen ms eq_refl) as [Hbound Hlocal].
  split; cbn [fst snd]; [done|..].
  - intros h. destruct (raise_penalty_caution (WeatherPlan.host plan) ms at_ g Hbound h). specialize (Hgov h). lia.
  - intros h Hlt. destruct (raise_penalty_caution (WeatherPlan.host plan) ms at_ g Hbound h) as [Hle Hc].
    destruct (decide (penalty h g < penalty h (raise_penalty (WeatherPlan.host plan) (from_millis ms) at_ g).1))
      as [Hr|Hr]; [by apply Hc|]. specialize (Hcap h). lia.
  - intros h m [Hin|Hin]%elem_of_app; [by apply Hsaves|].
    apply list_elem_of_singleton in Hin as [= -> ->]. split_and!; try done; try lia.
    intros p Hp. rewrite Hp in Hlocal. exact Hlocal.
Qed.

Lemma apply_plans_caution now at_ plans : ∀ acc,
  Forall planned plans → caution_added acc → caution_added (foldl (apply_plan now at_) acc plans).
Proof.
  induction plans as [|plan plans IH]; intros acc Hplans Hacc; [done|].
  apply Forall_cons in Hplans as [Hplan Hplans]. cbn [foldl]. by apply IH, apply_plan_caution.
Qed.

Lemma save_caution now g t saves :
  caution_added (g, t, saves) → ∀ h p, row h t0 = Some p →
  ∃ cur, row h (save_penalties saves now t) = Some cur ∧ more_cautious entries p cur.
Proof.
  intros [Hrows _ _ Hsaves] h p Hp. cbn [fst snd] in Hrows, Hsaves. destruct (Hrows h p Hp) as (cur & Hcur & Hmc).
  clear Hrows. unfold save_penalties. revert t cur Hcur Hmc.
  induction saves as [|[k ms] saves IH]; intros t cur Hcur Hmc; [by exists cur|].
  destruct (Hsaves k ms ltac:(left)) as (Hk & Hms & Hmore). cbn [foldl].
  destruct (decide (h = k)) as [->|Hne].
  - eapply (IH ltac:(by intros; apply Hsaves; right) (upsert_penalty now t (k, ms)));
      [rewrite upsert_penalty_row; cbn [fst snd]; by rewrite Hk, decide_True, Hcur|].
    specialize (Hmore p Hp). destruct Hmc. split; cbn; try done.
    unfold i64_max, WEATHER_IMPORT_PENALTY_CAP_MS in *. lia.
  - apply (IH ltac:(by intros; apply Hsaves; right) _ cur); [|done].
    rewrite upsert_penalty_row, decide_False; [done|]. cbn. by rewrite Hk.
Qed.

Lemma bundle_planned actions noops :
  (∀ h, 0 ≤ penalty h g0) →
  Forall (λ e, str_trim (WeatherEntry.host e) = WeatherEntry.host e) entries →
  plan_bundle g0 t0 entries ∅ [] 0 = Ok (actions, noops) → Forall planned actions.
Proof.
  intros Hpos Htrim Hok. apply Forall_forall. intros plan Hplan.
  destruct (plan_bundle_spec _ _ _ _ _ _ _ _ Hok plan Hplan) as [Hin|(e & live & He & Hlive & ->)];
    [by apply not_elem_of_nil in Hin|].
  rewrite (proj1 (Forall_forall _ _) Htrim e He) in *. unfold planned, get. rewrite lower_idem.
  assert (∀ o, WeatherPlan.host (plan_weather_import o live e) = to_lowercase (WeatherEntry.host e)) as Hh.
  { intros o. unfold plan_weather_import. by destruct (plan_pin _ _ _ _), (plan_strikes _ _ _ _), (plan_penalty _ _). }
  rewrite !Hh, lower_idem. split; [|done]. by apply plan_weather_import_sound; [|apply Hlive, Hpos].
Qed.

Lemma import_caution apply now at_ g t r :
  (∀ h, 0 ≤ penalty h g0) →
  Forall (λ e, str_trim (WeatherEntry.host e) = WeatherEntry.host e) entries →
  import_entries apply now at_ entries g0 t0 = (g, t, r) → caution_added (g, t, []).
Proof.
  intros Hpos Htrim. unfold import_entries.
  assert (caution_added (g0, t0, [])) as Hstart.
  { split; cbn; try (intros; lia).
    - intros h p Hp. exists p. split; [done|]. apply more_cautious_refl.
    - intros h ms Hin. by apply not_elem_of_nil in Hin. }
  case_if; [by intros [= <- <- _]|].
  destruct (plan_bundle _ _ _ _ _ _) as [[actions noops]|err] eqn:Hplan; [|by intros [= <- <- _]].
  destruct apply; [|by intros [= <- <- _]].
  pose proof (apply_plans_caution now at_ actions _ (bundle_planned _ _ Hpos Htrim Hplan) Hstart) as Hacc.
  destruct (foldl _ _ actions) as [[g' t'] saves] eqn:Hfold. intros [= <- <- _].
  pose proof (save_caution now _ _ _ Hacc) as Hsave. destruct Hacc as [_ Hgov Hcap _].
  split; cbn in *; [exact Hsave|done|done|]. intros h ms Hin. by apply not_elem_of_nil in Hin.
Qed.
End applied.
End imports.

(** ** Penalties across a restart *)

Section restart.
Context `{Unicode} (ttl_secs : Z).
Implicit Types (t : tier_memory) (g : Governor.t) (now : timestamp).

(** The keys are the lower-cased names the methods put there. *)
Definition lower_keyed g : Prop := map_Forall (λ host _, to_lowercase host = host) (Governor.hosts g).
Definition learned (host : string) g : Duration :=
  from_option HostState.penalty 0 (Governor.hosts g !! host).

(** What the saved row of a host must carry. *)
Definition saved now (ms : Z) (o : option HostProfile.t) : Prop :=
  match o with
  | Some p => HostProfile.penalty_ms p = Z.min ms i64_max ∧ HostProfile.penalty_updated_at p = Some now
  | None => False
  end.

Lemma upserts_row now l h : ∀ t,
  NoDup l.*1 → Forall (λ e, to_lowercase e.1 = e.1) l →
  match (list_to_map l : gmap string Z) !! h with
  | Some ms => saved now ms (row h (foldl (upsert_penalty now) t l))
  | None => row h (foldl (upsert_penalty now) t l) = row h t
  end.
Proof.
  induction l as [|[k ms] l IH]; intros t Hnd Hlow; [done|].
  apply NoDup_cons in Hnd as [Hk Hnd]. apply Forall_cons in Hlow as [Hlk Hlow]. cbn [fst] in Hk, Hlk.
  specialize (IH (upsert_penalty now t (k, ms)) Hnd Hlow). rewrite list_to_map_cons. cbn [foldl].
  destruct (decide (h = k)) as [->|Hne].
  - rewrite lookup_insert_eq. assert ((list_to_map l : gmap string Z) !! k = None) as Hnone
      by by apply not_elem_of_list_to_map_1.
    rewrite Hnone in IH. rewrite IH, upsert_penalty_row. cbn [fst snd].
    rewrite Hlk, decide_True by done. by destruct (row k t).
  - rewrite lookup_insert_ne by done.
    destruct (_ !! h); [done|]. rewrite IH, upsert_penalty_row. cbn [fst]. by rewrite Hlk, decide_False.
Qed.

(** The snapshot as a finite map. *)
Definition snapshot_ms g : list (string * Z) :=
  map (λ '(host, p), (host, Z.min (as_millis p) u64_max)) (snapshot_penalties g).
Lemma elem_of_snapshot g h ms :
  (h, ms) ∈ snapshot_ms g ↔
    learned h g ≠ 0 ∧ ms = Z.min (as_millis (learned h g)) u64_max.
Proof.
  unfold snapshot_ms, snapshot_penalties, learned. rewrite list_elem_of_fmap. split.
  - intros ([k p] & [= -> ->] & Hin). apply list_elem_of_omap in Hin as ([k' s] & Hin & Hs).
    apply elem_of_map_to_list in Hin. revert Hs. case_if; [done|]. intros [= -> <-]. rewrite Hin. cbn.
    by breflect.
  - intros [Hne ->]. destruct (Governor.hosts g !! h) as [s|] eqn:Hs; cbn in *; [|done].
    exists (h, HostState.penalty s). split; [done|]. apply list_elem_of_omap. exists (h, s).
    split; [by apply elem_of_map_to_list|]. case_if; [by breflect|done].
Qed.
Lemma NoDup_snapshot g : NoDup (snapshot_ms g).*1.
Proof.
  unfold snapshot_ms, snapshot_penalties.
  pose proof (NoDup_fst_map_to_list (Governor.hosts g)) as Hnd. revert Hnd.
  induction (map_to_list (Governor.hosts g)) as [|[k s] l IH]; [constructor|].
  cbn. intros [Hk Hnd]%NoDup_cons. case_if; [by apply IH|]. cbn. apply NoDup_cons. split; [|by apply IH].
  intros ([k' ms] & Hk' & Hin)%list_elem_of_fmap. cbn in Hk'. subst k'. apply Hk.
  apply list_elem_of_fmap in Hin as ([k' p] & [= <- _] & Hin).
  apply list_elem_of_omap in Hin as ([k' s'] & Hin & Hs). revert Hs. case_if; [done|].
  intros [= -> _]. apply list_elem_of_fmap. by exists (k, s').
Qed.

(** *** What is saved, what is loaded, what is restored *)

Lemma persisted_row g now t h :
  lower_keyed g →
  let o := row h (persist_host_penalties g now t) in
  if decide (learned h g = 0) then from_option HostProfile.penalty_ms 0 o ≤ 0
  else saved now (Z.min (as_millis (learned h g)) u64_max) o.
Proof.
  intros Hlow. cbn zeta. unfold persist_host_penalties, persist_penalty_snapshot.
  assert (Forall (λ e, to_lowercase e.1 = e.1) (snapshot_ms g)) as Hlower.
  { apply Forall_forall. intros [k ms] [Hne _]%elem_of_snapshot. cbn. unfold learned in Hne.
    destruct (Governor.hosts g !! k) as [s|] eqn:Hs; [exact (Hlow k s Hs)|done]. }
  fold (snapshot_ms g). set (t' := update_where _ _ t).
  pose proof (upserts_row now (snapshot_ms g) h t' (NoDup_snapshot g) Hlower) as Hrow.
  destruct (_ !! h) as [ms|] eqn:Hms.
  - apply elem_of_list_to_map_2 in Hms. apply elem_of_snapshot in Hms as [Hne ->].
    by rewrite decide_False.
  - apply not_elem_of_list_to_map_2 in Hms. rewrite Hrow. case_decide as Hz.
    + unfold t'. rewrite lookup_by_update by done. destruct (row h t) as [p|]; cbn; [|done].
      unfold penalized. case_if; cbn; breflect; lia.
    + exfalso. apply Hms. apply list_elem_of_fmap.
      exists (h, Z.min (as_millis (learned h g)) u64_max). split; [done|]. by apply elem_of_snapshot.
Qed.

Lemma elem_of_load now t h ms :
  one_row t →
  (h, ms) ∈ load_penalties ttl_secs now t ↔
    ∃ p, row h t = Some p ∧ 0 < HostProfile.penalty_ms p ∧ ms = HostProfile.penalty_ms p
         ∧ ∃ at_, HostProfile.penalty_updated_at p = Some at_ ∧ stale_cutoff ttl_secs now ≤ at_.
Proof.
  intros Hnd. unfold load_penalties. rewrite list_elem_of_fmap. split.
  - intros (p & [= -> ->] & [Hin Hr]%elem_of_filter_bool). apply elem_of_select in Hin as [Hin _].
    exists p. split; [by apply lookup_by_elem|]. unfold penalty_is_restorable in Hr.
    destruct (HostProfile.penalty_updated_at p) as [at_|]; breflect; [|lia].
    split_and!; [lia|lia|]. exists at_. split; [done|]. lia.
  - intros (p & Hp & Hpos & -> & at_ & Hat & Hc). destruct (lookup_by_Some _ _ _ _ Hp) as [Hin <-].
    exists p. split; [f_equal; lia|]. apply elem_of_filter_bool. split.
    + apply elem_of_select. split; [done|]. unfold penalized. breflect. lia.
    + unfold penalty_is_restorable. rewrite Hat. breflect. lia.
Qed.

Lemma restores_learned at_ (l : list (string * Z)) host : ∀ g,
  Forall (λ e, to_lowercase e.1 = e.1 ∧ 0 < e.2) l →
  let g' := foldl (λ g '(h, ms), restore_penalty h (from_millis ms) at_ g) g l in
  (host ∉ l.*1 → learned host g' = learned host g)
  ∧ (∀ ms, (∀ m, (host, m) ∈ l → m = ms) → host ∈ l.*1 → learned host g' = from_millis ms).
Proof.
  induction l as [|[k m] l IH]; intros g Hl; cbn zeta.
  { split; [done|]. intros ms _ Hin. by apply not_elem_of_nil in Hin. }
  apply Forall_cons in Hl as [[Hk Hm] Hl]. cbn [fst snd] in Hk, Hm. cbn [foldl].
  assert (learned host (restore_penalty k (from_millis m) at_ g)
          = if decide (host = k) then from_millis m else learned host g) as Hstep.
  { unfold restore_penalty, learned, from_millis. case_if; breflect; [lia|]. rewrite Hk. cbn.
    case_decide as Hd; [by rewrite Hd, lookup_insert_eq|by rewrite lookup_insert_ne]. }
  destruct (IH (restore_penalty k (from_millis m) at_ g) Hl) as [IHout IHin]. split.
  - intros [Hne Hni]%not_elem_of_cons. cbn in Hne. rewrite IHout by done. rewrite Hstep. by rewrite decide_False.
  - intros ms Hall Hin. cbn [fmap list_fmap fst] in Hin. destruct (decide (host ∈ l.*1)) as [Hl'|Hl'].
    + apply IHin; [|done]. intros m' Hm'. apply Hall. by right.
    + rewrite IHout by done. rewrite Hstep. apply elem_of_cons in Hin as [->|?]; [|done].
      rewrite decide_True by done. rewrite (Hall m); [done|left].
Qed.

Lemma persisted_one_row g now t : one_row t → one_row (persist_host_penalties g now t).
Proof. intros Ht. exact (memory_one_row ttl_secs t (SnapshotPersisted (snapshot_ms g) now) Ht). Qed.

Lemma restart_learned g now t later at_ g1 host :
  well_formed g → lower_keyed g → one_row t → Governor.hosts g1 = ∅ →
  stale_cutoff ttl_secs later ≤ now →
  learned host (restore_host_penalties ttl_secs later at_ (persist_host_penalties g now t) g1)
    = from_millis (Z.min (as_millis (learned host g)) i64_max).
Proof.
  intros Hwf Hlow Ht Hempty Hfresh. set (t' := persist_host_penalties g now t).
  assert (one_row t') as Ht' by by apply persisted_one_row.
  assert (∀ h, 0 ≤ learned h g) as Hpos.
  { intros h. unfold learned. destruct Hwf as (_ & _ & _ & _ & Hpen).
    destruct (Governor.hosts g !! h) as [s|] eqn:Hs; [exact (Hpen h s Hs)|done]. }
  assert (∀ h ms, (h, ms) ∈ load_penalties ttl_secs later t' ↔
                  0 < ms ∧ ms = Z.min (as_millis (learned h g)) i64_max ∧ learned h g ≠ 0) as Hload.
  { intros h ms. rewrite elem_of_load by done. pose proof (persisted_row g now t h Hlow) as Hrow.
    cbn zeta in Hrow. fold t' in Hrow. case_decide as Hz; split.
    - intros (p & Hp & Hp0 & _). rewrite Hp in Hrow. cbn in Hrow. lia.
    - tauto.
    - intros (p & Hp & Hp0 & -> & _). rewrite Hp in Hrow. destruct Hrow as [Hv _]. rewrite Hv in *.
      unfold u64_max, i64_max in *. split_and!; [lia|lia|done].
    - intros (Hms & Heq & _). destruct (row h t') as [p|]; [|done]. destruct Hrow as [Hv Hat].
      exists p. split; [done|]. rewrite Hv. unfold u64_max, i64_max in *. split_and!; try lia.
      by exists now. }
  unfold restore_host_penalties.
  destruct (restores_learned at_ (load_penalties ttl_secs later t') host g1) as [Hout Hin].
  { apply Forall_forall. intros [h ms] (Hms & _ & Hne)%Hload. split; [|done]. cbn. unfold learned in Hne.
    destruct (Governor.hosts g !! h) as [s|] eqn:Hs; [exact (Hlow h s Hs)|done]. }
  destruct (decide (host ∈ (load_penalties ttl_secs later t').*1)) as [Hd|Hd].
  - apply (Hin (Z.min (as_millis (learned host g)) i64_max)); [|done]. by intros m (_ & -> & _)%Hload.
  - assert (learned host g1 = 0) as Hzero by (unfold learned; by rewrite Hempty, lookup_empty).
    rewrite Hout, Hzero by done.
    assert (Z.min (as_millis (learned host g)) i64_max ≤ 0) as Hle.
    { destruct (Z_le_gt_dec (Z.min (as_millis (learned host g)) i64_max) 0) as [|Hgt]; [done|]. exfalso. apply Hd.
      apply list_elem_of_fmap. exists (host, Z.min (as_millis (learned host g)) i64_max). split; [done|].
      apply Hload. split_and!; [lia|done|]. intros Hz. rewrite Hz in Hgt. by vm_compute in Hgt. }
    assert (0 ≤ as_millis (learned host g)) as Hnonneg
      by (apply Z.div_pos; [apply Hpos|lia]).
    assert (Z.min (as_millis (learned host g)) i64_max = 0) as -> by (unfold i64_max in *; lia). done.
Qed.
End restart.

(** ** The guarantees *)

Section guarantees.
Context `{Unicode}.
Implicit Types (t : tier_memory) (g : Governor.t) (now : timestamp).


(** C32: A restart keeps what was learned: the penalties a write-behind pass saves are the ones the
    next boot gives its governor, to the millisecond, as long as the boot comes within the
    ageing horizon; and a host without one gets none back, whatever the table still said. *)
Theorem penalties_survive_a_restart ttl_secs cfg g now t later at_ g1 host :
  well_formed g → lower_keyed g → one_row t → new cfg = Some g1 →
  stale_cutoff ttl_secs later ≤ now →
  penalty host (restore_host_penalties ttl_secs later at_ (persist_host_penalties g now t) g1)
    = from_millis (Z.min (as_millis (penalty host g)) i64_max).
Proof.
  intros Hwf Hlow Ht Hnew Hfresh.
  assert (Governor.hosts g1 = ∅) as Hempty.
  { unfold new in Hnew. destruct (foldl _ _ _); [|done]. cbn in Hnew.
    destruct (interval _); [|done]. cbn in Hnew. by simplify_eq. }
  pose proof (restart_learned ttl_secs g now t later at_ g1 (to_lowercase host) Hwf Hlow Ht Hempty Hfresh) as Hl.
  unfold learned in Hl. unfold penalty.
  destruct (Governor.hosts g !! to_lowercase host), (Governor.hosts (restore_host_penalties _ _ _ _ _) !! _);
    exact Hl.
Qed.
End guarantees.

(** ** Concrete hosts *)

Module TierDemo.
#[local] Instance lower : Unicode := ascii_lower.
Definition g0 : Governor.t := GovernorDemo.fresh.
Definition refused : Governor.t := penalize "h" (Some (from_secs 40)) 0 g0.

Definition losses : list memory_event :=
  [Recorded "H" "browser" true 10; Recorded "h" "claude" true 20; PenaltiesSaved [("h"%string, 5)] 25;
   Recorded "h" "browser" false 27; Recorded "h" "browser" true 30].

Lemma lower_twice (s : string) : ascii_lower (ascii_lower s) = ascii_lower s.
Proof.
  induction s as [|a s IH]; [reflexivity|]. cbn [ascii_lower]. rewrite IH. f_equal.
  destruct a as [[] [] [] [] [] [] [] []]; reflexivity.
Qed.
Lemma penalized_well_formed : well_formed refused.
Proof.
  split; [vm_compute; discriminate|]. split; [apply map_Forall_empty|].
  split; [vm_compute; discriminate|]. split; [vm_compute; discriminate|].
  apply map_Forall_insert_2; [vm_compute; discriminate|apply map_Forall_empty].
Qed.

(** A peer that pins, strikes and slows everything. *)
Definition known : tier_memory := [HostProfile.mk "h" None 1 7000 4 50 (Some 50)].
Definition bundle : list WeatherEntry.t :=
  [WeatherEntry.mk "H" (Some PREFERRED_BROWSER) 9 100000000 5 [] None].

Lemma penalties_survive_a_restart_witness :
  penalty "h" (restore_host_penalties 3600 (seconds 3600) 0 (persist_host_penalties refused 100 known) g0)
    = from_secs 40.
Proof.
  refine (penalties_survive_a_restart 3600 GovernorConfig.default refused 100 known (seconds 3600) 0 g0 "h"
            penalized_well_formed _ _ GovernorDemo.new_fresh _).
  - apply map_Forall_insert_2; [reflexivity|apply map_Forall_empty].
  - apply NoDup_singleton.
  - vm_compute. discriminate.
Defined.

(** The lookups of an import trim the name, the writes do not: the caution lands on a row
    nothing reads. *)
Lemma blanks_lose_the_import :
  let '(_, t, r) := import_entries true 60 0 [WeatherEntry.mk " x" (Some PREFERRED_BROWSER) 0 0 5 [] None] g0 [] in
  is_ok r = true ∧ get "x" t = None ∧ is_Some (get " x" t).
Proof. vm_compute. by eauto. Qed.

(** A page tier served and http lost: the strike keeps the [api_recipe] pin. *)
Lemma a_strike_keeps_the_recipe_pin :
  let t := record 0 "h" PREFERRED_API_RECIPE false 10 [] in
  preferred 0 "h" 30 (record 0 "h" "browser" true 20 t) = Some PREFERRED_API_RECIPE
  ∧ preferred 0 "h" 30 (record 0 "h" "browser" false 20 t) = None.
Proof. by vm_compute. Qed.
End TierDemo.
