(* ===== verification/Recipes.v ===== *)
(** * Recipes: the JSON API behind a page

    [crates/core/src/recipes.rs]: the discovery pass that scores a page's captured calls, the
    replay's verdict, the strike ladder, and the table behind [RecipeStore].  The columns
    [params] and [json_paths] hold the values their JSON texts spell. *)

From stdpp Require Import gmap.
From S2P Require Import Prelude Float64 Sql Json Filters Robots Errors.

Definition MIN_OVERLAP_SCORE : f64 := f64_div (f64_of_Z 1) (f64_of_Z 4).
Definition MIN_MATCHED_VALUES : nat := 3.
Definition MIN_VALUE_LEN : nat := 3.
Definition MAX_PAYLOAD_LEAVES : Z := 20000.

Module ApiRecipe.
Record t : Type := mk {
  id : string; host : string; url_template : string; params : Json; json_paths : list string;
  score : f64; validated : bool }.
End ApiRecipe.

(** [url::form_urlencoded::byte_serialize] *)
Class FormUrlEncoded := byte_serialize : string → string.

(** [str::replace] of a pattern that is not empty *)
Fixpoint replace_all (fuel : nat) (pat by_ s : string) : string :=
  match fuel with
  | O => s
  | S fuel =>
      match split_once pat s with
      | Some (l, r) => (l +:+ by_ +:+ replace_all fuel pat by_ r)%string
      | None => s
      end
  end.
Definition str_replace (pat by_ s : string) : string := replace_all (S (String.length s)) pat by_ s.

Section replay.
Context `{FormUrlEncoded, JsonRender, Unicode}.

Definition replay_url (r : ApiRecipe.t) : option string :=
  let url :=
    match ApiRecipe.params r with
    | JObject fields =>
        foldl (λ url '(k, v),
                 let raw := match v with JString s => s | other => json_render other end in
                 str_replace ("{" +:+ k +:+ "}") (byte_serialize raw) url)
          (ApiRecipe.url_template r) fields
    | _ => ApiRecipe.url_template r
    end in
  if contains "{" url then None else Some url.

(** ** Leaves *)

Definition normalize_leaf (v : Json) : option string :=
  s ← match v with
      | JString s => Some (to_lowercase (str_trim s))
      | JNumber n => Some (json_render (JNumber n))
      | _ => None
      end;
  if (MIN_VALUE_LEN <=? String.length s)%nat then Some s else None.

(** The normalized leaves of an extracted record, as a [BTreeSet]. *)
Fixpoint collect_extracted_leaves (v : Json) (out : gset string) : gset string :=
  match v with
  | JObject fields => foldl (λ out kv, collect_extracted_leaves kv.2 out) out fields
  | JArray items => foldl (λ out child, collect_extracted_leaves child out) out items
  | leaf => match normalize_leaf leaf with Some s => {[s]} ∪ out | None => out end
  end.

Fixpoint collect_payload_leaves (v : Json) (path : string) (out : list (string * string)) :
    list (string * string) :=
  if MAX_PAYLOAD_LEAVES <=? Z.of_nat (length out) then out
  else
    match v with
    | JObject fields =>
        foldl (λ out kv, collect_payload_leaves kv.2 (path +:+ "." +:+ kv.1) out) out fields
    | JArray items => foldl (λ out child, collect_payload_leaves child (path +:+ "[*]") out) out items
    | leaf => match normalize_leaf leaf with Some s => out ++ [(path, s)] | None => out end
    end.

Definition payload_overlaps (json_paths : list string) (payload : Json) : bool :=
  match json_paths with
  | [] => false
  | _ =>
      let present := (collect_payload_leaves payload "$" []).*1 in
      existsb (λ p, existsb (String.eqb p) present) json_paths
  end.

(** [None]: the replay proved the recipe. *)
Definition replay_reason (is_success : bool) (parsed : option Json) (json_paths : list string) : option string :=
  if negb is_success then Some "non-success status"%string
  else
    match parsed with
    | None => Some "non-JSON payload"%string
    | Some v =>
        if payload_overlaps json_paths v then None else Some "payload lost the expected field paths"%string
    end.
End replay.
Definition VALIDATED_REASON : string := "replay matched the expected field paths".

(** ** The lifecycle *)

Definition DEFAULT_RETIRE_AFTER : Z := 10.

Inductive RecipeState : Type := Candidate | Validated | Retired.
#[global] Instance RecipeState_eq_dec : EqDecision RecipeState.
Proof. solve_decision. Defined.
Module RecipeState.
Definition of_ (validated retired : bool) : RecipeState :=
  if retired then Retired else if validated then Validated else Candidate.
Definition as_str (s : RecipeState) : string :=
  match s with Candidate => "candidate" | Validated => "validated" | Retired => "retired" end.
Definition parse (raw : string) : option RecipeState :=
  let raw := ascii_lower (str_trim raw) in
  if String.eqb raw "candidate" then Some Candidate
  else if String.eqb raw "validated" then Some Validated
  else if String.eqb raw "retired" then Some Retired
  else None.
End RecipeState.

Inductive StrikeVerdict : Type := Noted | Unvalidated | RetiredByStrikes.
Definition strike_verdict (validated : bool) (failures unvalidate_after retire_after : Z) : StrikeVerdict :=
  if validated then
    if (0 <? unvalidate_after) && (unvalidate_after <=? failures) then Unvalidated else Noted
  else if (0 <? retire_after) && (retire_after <=? failures) then RetiredByStrikes
  else Noted.

(** ** Discovery *)

Module CapturedCall.
Record t : Type := mk { url : string; body : Json }.
End CapturedCall.

Section discovery.
Context `{UrlLib, JsonRender, Unicode}.

Definition recipe_host_of (url : string) : option string :=
  u ← url_parse url; to_lowercase <$> host_str u.
Definition template_url (url : string) : option (string * Json) :=
  parsed ← url_parse url;
  let base := url_to_string (set_fragment_none (set_query None parsed)) in
  match query_pairs parsed with
  | [] => Some (base, JObject [])
  | pairs =>
      Some ((base +:+ "?" +:+ String.concat "&" (map (λ kv, (kv.1 +:+ "={" +:+ kv.1 +:+ "}")) pairs))%string,
            json_object (map (λ kv, (kv.1, JString kv.2)) pairs))
  end.

Definition score_call (wanted : gset string) (call : CapturedCall.t) : option ApiRecipe.t :=
  let need := Nat.min MIN_MATCHED_VALUES (size wanted) in
  let hits := List.filter (λ leaf, bool_decide (leaf.2 ∈ wanted))
                (collect_payload_leaves (CapturedCall.body call) "$" []) in
  let matched := length (remove_dups hits.*2) in
  let score := f64_div (f64_of_Z (Z.of_nat matched)) (f64_of_Z (Z.of_nat (size wanted))) in
  if (matched <? need)%nat || f64_lt score MIN_OVERLAP_SCORE then None
  else
    host ← recipe_host_of (CapturedCall.url call);
    '(url_template, params) ← template_url (CapturedCall.url call);
    Some (ApiRecipe.mk "" host url_template params (order_by String.leb (remove_dups hits.*1)) score false).

(** Stable: an equal score keeps the order of capture. *)
Definition better (a b : ApiRecipe.t) : bool := negb (f64_lt (ApiRecipe.score a) (ApiRecipe.score b)).
Definition recipe_key (r : ApiRecipe.t) : string * string := (ApiRecipe.host r, ApiRecipe.url_template r).
Definition first_of_each (l : list ApiRecipe.t) : list ApiRecipe.t :=
  (foldl (λ '(kept, seen) r,
            if bool_decide (recipe_key r ∈ seen) then (kept, seen)
            else (kept ++ [r], {[recipe_key r]} ∪ seen)) ([], (∅ : gset (string * string))) l).1.

Definition discover_recipes (network : list CapturedCall.t) (extracted : list Json) : list ApiRecipe.t :=
  let wanted := foldl (λ out v, collect_extracted_leaves v out) ∅ extracted in
  if bool_decide (size wanted = 0%nat) then []
  else first_of_each (order_by better (omap (score_call wanted) network)).
End discovery.

(** ** The table *)

Module RecipeRow.
Record t : Type := mk {
  id : string; host : string; url_template : string; params : Json; json_paths : list string;
  score : f64; validated : bool; discovered_at : timestamp; last_seen_at : timestamp;
  consecutive_failures : Z; retired_at : option timestamp; last_failure_at : option timestamp;
  validation_reason : option string; validated_at : option timestamp }.
#[global] Instance eta_recipe : Eta t := λ r,
  mk (id r) (host r) (url_template r) (params r) (json_paths r) (score r) (validated r) (discovered_at r)
    (last_seen_at r) (consecutive_failures r) (retired_at r) (last_failure_at r) (validation_reason r)
    (validated_at r).
Definition state (r : t) : RecipeState := RecipeState.of_ (validated r) (is_some (retired_at r)).
End RecipeRow.
Abbreviation api_recipes := (list RecipeRow.t).

Definition recipe_is (id : string) (r : RecipeRow.t) : bool := String.eqb (RecipeRow.id r) id.
Definition same_endpoint (a : ApiRecipe.t) (r : RecipeRow.t) : bool :=
  String.eqb (RecipeRow.host r) (ApiRecipe.host a)
  && String.eqb (RecipeRow.url_template r) (ApiRecipe.url_template a).

(** The recipe refreshes the endpoint's row; [fresh] is the new row's [Uuid]. *)
Definition upsert (fresh : string) (now : timestamp) (a : ApiRecipe.t) (t : api_recipes) : api_recipes * string :=
  let id := if String.eqb (ApiRecipe.id a) "" then fresh else ApiRecipe.id a in
  match List.find (same_endpoint a) t with
  | Some r =>
      (update_where (same_endpoint a)
         (λ r, r <| RecipeRow.params := ApiRecipe.params a |> <| RecipeRow.json_paths := ApiRecipe.json_paths a |>
                 <| RecipeRow.score := ApiRecipe.score a |> <| RecipeRow.last_seen_at := now |>) t,
       RecipeRow.id r)
  | None =>
      (t ++ [RecipeRow.mk id (ApiRecipe.host a) (ApiRecipe.url_template a) (ApiRecipe.params a)
               (ApiRecipe.json_paths a) (ApiRecipe.score a) false now now 0 None None None None], id)
  end.

Definition by_score (a b : RecipeRow.t) : bool :=
  f64_gt (RecipeRow.score a) (RecipeRow.score b)
  || (negb (f64_lt (RecipeRow.score a) (RecipeRow.score b))
      && pair_le (RecipeRow.host a, RecipeRow.url_template a) (RecipeRow.host b, RecipeRow.url_template b)).
Definition list_recipes (host : option string) (state : option RecipeState) (limit : Z) (t : api_recipes) : api_recipes :=
  sql_limit limit (order_by by_score
    (select_where (λ r, match host with Some h => String.eqb (RecipeRow.host r) h | None => true end
                        && match state with
                           | Some s => bool_decide (RecipeRow.state r = s)
                           | None => true
                           end) t)).
Definition get_recipe (id : string) (t : api_recipes) : option RecipeRow.t := lookup_by RecipeRow.id id t.

Definition retire (id : string) (now : timestamp) (t : api_recipes) : api_recipes * bool :=
  if existsb (recipe_is id) t then
    (update_where (λ r, recipe_is id r && negb (is_some (RecipeRow.retired_at r)))
       (λ r, r <| RecipeRow.retired_at := Some now |>) t, true)
  else (t, false).
Definition revive (id : string) (t : api_recipes) : api_recipes * option RecipeRow.t :=
  if 0 <? rows_affected (recipe_is id) t then
    let t := update_where (recipe_is id)
               (λ r, r <| RecipeRow.retired_at := None |> <| RecipeRow.consecutive_failures := 0 |>
                       <| RecipeRow.last_failure_at := None |> <| RecipeRow.validated := false |>) t in
    (t, get_recipe id t)
  else (t, None).
Definition set_validated (id : string) (validated : bool) (t : api_recipes) : api_recipes * bool :=
  (update_where (recipe_is id) (λ r, r <| RecipeRow.validated := validated |>) t,
   0 <? rows_affected (recipe_is id) t).

(** *** The source the fetcher reads *)

Definition b2z (b : bool) : Z := if b then 1 else 0.
Definition best_first (a b : RecipeRow.t) : bool :=
  (b2z (RecipeRow.validated b) <? b2z (RecipeRow.validated a))
  || ((b2z (RecipeRow.validated a) =? b2z (RecipeRow.validated b))
      && (f64_gt (RecipeRow.score a) (RecipeRow.score b)
          || (negb (f64_lt (RecipeRow.score a) (RecipeRow.score b))
              && String.leb (RecipeRow.url_template a) (RecipeRow.url_template b)))).
Definition as_recipe (r : RecipeRow.t) : ApiRecipe.t :=
  ApiRecipe.mk (RecipeRow.id r) (RecipeRow.host r) (RecipeRow.url_template r) (RecipeRow.params r)
    (RecipeRow.json_paths r) (RecipeRow.score r) (RecipeRow.validated r).
Definition selectable (host : string) (include_unvalidated : bool) (r : RecipeRow.t) : bool :=
  String.eqb (RecipeRow.host r) host && negb (is_some (RecipeRow.retired_at r))
  && (RecipeRow.validated r || include_unvalidated).
Definition best_for_host (host : string) (include_unvalidated : bool) (t : api_recipes) : option ApiRecipe.t :=
  as_recipe <$> head (order_by best_first (select_where (selectable host include_unvalidated) t)).

Definition proved (validate : bool) (now : timestamp) (r : RecipeRow.t) : RecipeRow.t :=
  r <| RecipeRow.consecutive_failures := 0 |> <| RecipeRow.last_failure_at := None |>
    <| RecipeRow.validated ::= λ v, if validate then true else v |>
    <| RecipeRow.validation_reason := Some VALIDATED_REASON |> <| RecipeRow.validated_at := Some now |>.
Definition record_success (id : string) (validate : bool) (now : timestamp) (t : api_recipes) : api_recipes :=
  update_where (recipe_is id) (proved validate now) t.

Definition struck (now : timestamp) (reason : string) (r : RecipeRow.t) : RecipeRow.t :=
  r <| RecipeRow.consecutive_failures ::= Z.succ |> <| RecipeRow.last_failure_at := Some now |>
    <| RecipeRow.validation_reason := Some reason |> <| RecipeRow.validated_at := Some now |>.
Definition record_failure (retire_after : Z) (id : string) (unvalidate_after : Z) (reason : string) (now : timestamp)
    (t : api_recipes) : api_recipes * bool :=
  match returning (recipe_is id) (struck now reason) t with
  | [] => (t, false)
  | r :: _ =>
      let t := update_where (recipe_is id) (struck now reason) t in
      match strike_verdict (RecipeRow.validated r) (RecipeRow.consecutive_failures r) unvalidate_after retire_after with
      | Noted => (t, false)
      | Unvalidated =>
          (update_where (recipe_is id)
             (λ r, r <| RecipeRow.validated := false |> <| RecipeRow.consecutive_failures := 0 |>) t, true)
      | RetiredByStrikes =>
          (update_where (λ r, recipe_is id r && negb (is_some (RecipeRow.retired_at r)))
             (λ r, r <| RecipeRow.retired_at := Some now |>) t, false)
      end
  end.
