(* ===== verification/Markdown.v ===== *)
(** * Markdown: the visible text of a page

    [crates/core/src/markdown.rs]: the walk that counts, or collects, what a reader would see,
    which decides whether a fetched page is content enough.  The parser gives the tree; the
    Markdown document itself is a function the fetcher only hands on. *)

From S2P Require Import Prelude Simhash.

(** A node of the parsed tree, as far as the walk looks at it. *)
Inductive Dom : Type :=
| Text (text : string)
| Element (name : string) (children : list Dom)
| OtherNode (children : list Dom).

Class HtmlTree := parse_tree : string → Dom.
(** [html_to_markdown] *)
Class ToMarkdown := html_to_markdown : string → string.

Definition SKIP : list string :=
  ["script"; "style"; "noscript"; "template"; "svg"; "canvas"; "iframe"; "head"; "nav"; "header";
   "footer"; "aside"; "form"; "button"; "input"; "select"; "textarea"; "figure"; "figcaption"]%string.

Module TextAcc.
(** [out] is kept whether or not the caller reads it. *)
Record t : Type := mk { cap : Z; count : Z; prev_ws : bool; out : list string }.
#[global] Instance eta_acc : Eta t := λ a, mk (cap a) (count a) (prev_ws a) (out a).
Definition new (cap : Z) : t := mk cap 0 true [].
Definition finished (a : t) : bool := cap a <=? count a.
End TextAcc.

Definition is_whitespace (ch : string) : bool := existsb (String.eqb ch) white_space.
Definition push (a : TextAcc.t) (ch : string) : TextAcc.t :=
  if is_whitespace ch then
    if TextAcc.prev_ws a then a
    else a <| TextAcc.prev_ws := true |> <| TextAcc.count ::= Z.succ |> <| TextAcc.out ::= λ o, o ++ [" "%string] |>
  else a <| TextAcc.prev_ws := false |> <| TextAcc.count ::= Z.succ |> <| TextAcc.out ::= λ o, o ++ [ch] |>.
Definition push_until (a : TextAcc.t) (ch : string) : TextAcc.t :=
  if TextAcc.finished a then a else push a ch.

Fixpoint walk_visible_text (node : Dom) (a : TextAcc.t) : TextAcc.t :=
  if TextAcc.finished a then a
  else
    match node with
    | Text text => foldl push_until a (chars text)
    | Element name children =>
        if existsb (String.eqb name) SKIP then a
        else foldl (λ a child, walk_visible_text child a) a children
    | OtherNode children => foldl (λ a child, walk_visible_text child a) a children
    end.

Definition text_len_capped `{HtmlTree} (html : string) (cap : Z) : Z :=
  if cap =? 0 then 0
  else TextAcc.count (walk_visible_text (parse_tree html) (TextAcc.new cap)).
Definition visible_text_capped (doc : Dom) (cap : Z) : string :=
  if cap =? 0 then EmptyString
  else String.concat "" (TextAcc.out (walk_visible_text doc (TextAcc.new cap))).

(** ** The count, the text and the cap agree *)

Definition agrees (a : TextAcc.t) : Prop :=
  TextAcc.count a = Z.of_nat (length (TextAcc.out a)) ∧ 0 ≤ TextAcc.count a ≤ TextAcc.cap a.
Lemma push_agrees a ch :
  agrees a → agrees (push_until a ch) ∧ TextAcc.cap (push_until a ch) = TextAcc.cap a.
Proof.
  unfold agrees, push_until, push, TextAcc.finished. intros [Hc Hb].
  case_if; [done|]. breflect. repeat case_if; cbn; rewrite ?length_app; cbn; repeat split; lia || done.
Qed.
Lemma pushes_agree l : ∀ a,
  agrees a → agrees (foldl push_until a l) ∧ TextAcc.cap (foldl push_until a l) = TextAcc.cap a.
Proof.
  induction l as [|ch l IH]; intros a Ha; [done|]. cbn.
  destruct (push_agrees a ch Ha) as [H1 H2]. destruct (IH _ H1) as [H3 H4]. by rewrite H4.
Qed.

(** The walk by induction on the tree. *)
Definition walks_well (d : Dom) : Prop := ∀ a,
  agrees a → agrees (walk_visible_text d a)
             ∧ TextAcc.cap (walk_visible_text d a) = TextAcc.cap a.
Lemma walks_children l : Forall walks_well l → ∀ a, agrees a →
  agrees (foldl (λ a child, walk_visible_text child a) a l)
  ∧ TextAcc.cap (foldl (λ a child, walk_visible_text child a) a l) = TextAcc.cap a.
Proof.
  induction 1 as [|d l Hd Hl IH]; intros a Ha; [done|]. cbn.
  destruct (Hd a Ha) as [H1 H2]. destruct (IH _ H1) as [H3 H4]. by rewrite H4.
Qed.
Fixpoint walk_agrees (d : Dom) : walks_well d.
Proof.
  assert (∀ l, Forall walks_well l) as Hall.
  { fix IH 1. intros [|d' l]; [by constructor|]. constructor; [apply walk_agrees|apply IH]. }
  intros a Ha. destruct d as [text|name children|children]; cbn [walk_visible_text];
    (destruct (TextAcc.finished a); [by split|]).
  - by apply pushes_agree.
  - case_if; [by split|]. by apply walks_children.
  - by apply walks_children.
Qed.
