(* ===== verification/Fetcher.v ===== *)
(** * Fetcher: the ladder of tiers

    [crates/core/src/fetcher.rs], with the header readers of [engine.rs] it lifts provenance
    with.  The engines are other crates: each is a function of its request and of the shared
    governor, which it may move, answering after a latency.  A fetch threads what the code
    keeps in locals and behind [Arc]s, and a list of the calls it made. *)

From stdpp Require Import gmap pretty.
From S2P Require Import Prelude Float64 Json Filters Simhash Robots Errors Jobs Pages Governor Recipes Markdown.

(** ** Requests and answers *)

Inductive FetchStrategy : Type := Http_ | Browser_ | Auto | AutoWithResearch.
#[global] Instance FetchStrategy_eq_dec : EqDecision FetchStrategy.
Proof. solve_decision. Defined.

Inductive PageAction : Type :=
| ScrollBottom
| ScrollBy (pixels : Z)
| Click (selector : string)
| TypeText (selector text : string)
| WaitForSelector (selector : string) (timeout_ms : option Z)
| WaitMs (ms : Z)
| Repeat (times : Z) (steps : list PageAction) (until_selector_count_stable : option string).

Module FetchRequest.
Record t : Type := mk {
  url : string; strategy : FetchStrategy; wait_for_selector : option string; actions : list PageAction;
  min_content_chars : option Z; research_prompt : option string; max_budget_usd : option f64;
  skip_http : bool; to_markdown : bool; no_cache : bool; ttl_override : option Z;
  profile : option string; archive_max_age : option Z; use_recipes : bool }.
#[global] Instance eta_request : Eta t := λ r,
  mk (url r) (strategy r) (wait_for_selector r) (actions r) (min_content_chars r) (research_prompt r)
    (max_budget_usd r) (skip_http r) (to_markdown r) (no_cache r) (ttl_override r) (profile r)
    (archive_max_age r) (use_recipes r).
Definition new (url : string) : t :=
  mk url Auto None [] None None None false false false None None None false.
End FetchRequest.

(** The fields of an [HttpRequest] the ladder sets; the others keep [get]'s. *)
Module TierRequest.
Record t : Type := mk {
  url : string; no_cache : bool; ttl_override : option Z; profile : option string;
  archive_max_age : option Z }.
End TierRequest.
(** The headers in the map's own order. *)
Module TierResponse.
Record t : Type := mk {
  status : Z; headers : list (string * string); body : string; cache_hit : bool }.
Definition is_success (r : t) : bool := (200 <=? status r) && (status r <? 300).
End TierResponse.
Module RenderRequest.
Record t : Type := mk {
  url : string; wait_for_selector : option string; actions : list PageAction;
  profile : option string; capture_network : bool }.
End RenderRequest.
Module RenderedPage.
Record t : Type := mk { html : string; network : list CapturedCall.t }.
End RenderedPage.
Module ResearchRequest.
Record t : Type := mk {
  prompt : string; append_system_prompt : option string; max_turns : option Z; timeout_secs : option Z;
  role : option string; model : option string; effort : option string; max_budget_usd : option f64;
  resume_session : option string; json_schema : option Json; job_id : option Uuid;
  use_case : option string }.
#[global] Instance eta_research : Eta t := λ r,
  mk (prompt r) (append_system_prompt r) (max_turns r) (timeout_secs r) (role r) (model r) (effort r)
    (max_budget_usd r) (resume_session r) (json_schema r) (job_id r) (use_case r).
Definition new (prompt : string) : t := mk prompt None None None None None None None None None None None.
End ResearchRequest.
Module ResearchOutput.
Record t : Type := mk {
  text : string; json : option Json; cost_usd : option f64; duration_ms : option Z; num_turns : option Z;
  session_id : option string; model : option string }.
#[global] Instance eta_research_output : Eta t := λ o,
  mk (text o) (json o) (cost_usd o) (duration_ms o) (num_turns o) (session_id o) (model o).
End ResearchOutput.

(** ** Provenance *)

Definition FETCHED_VIA_HEADER : string := "x-pumper-fetched-via".
Definition SNAPSHOT_TS_HEADER : string := "x-pumper-snapshot-ts".
Definition ANONYMOUS_PROFILE_HEADER : string := "x-pumper-anonymous-profile".
Definition REMOTE_NODE_HEADER : string := "x-pumper-remote-node".
Definition EGRESS_TRAIL_PREFIX : string := "egress via remote node ".

Module SnapshotProvenance.
Record t : Type := mk { via : string; captured_at : option string }.
Definition note (p : t) : string :=
  match captured_at p with
  | Some ts => "served from " +:+ via p +:+ " snapshot captured " +:+ ts
  | None => "served from " +:+ via p +:+ " snapshot (capture time unknown)"
  end%string.
End SnapshotProvenance.

Definition header_is (name header : string) : bool := String.eqb (ascii_lower name) (ascii_lower header).
(** The last header of either name that says something. *)
Definition snapshot_provenance (headers : list (string * string)) : option SnapshotProvenance.t :=
  let '(via, captured_at) :=
    foldl (λ '(via, captured_at) '(name, value),
             let value := str_trim value in
             if String.eqb value "" then (via, captured_at)
             else if header_is name FETCHED_VIA_HEADER then (Some value, captured_at)
             else if header_is name SNAPSHOT_TS_HEADER then (via, Some value)
             else (via, captured_at)) (None, None) headers in
  via ← via; Some (SnapshotProvenance.mk via captured_at).
(** The first header of the name that says something. *)
Definition marker (header : string) (headers : list (string * string)) : option string :=
  str_trim ∘ snd <$>
    List.find (λ kv, header_is kv.1 header && negb (String.eqb (str_trim kv.2) "")) headers.
Definition anonymous_profile (headers : list (string * string)) : option string :=
  marker ANONYMOUS_PROFILE_HEADER headers.
Definition remote_egress (headers : list (string * string)) : option string :=
  marker REMOTE_NODE_HEADER headers.
Definition anonymous_profile_note (profile : string) : string :=
  "profile '" +:+ profile +:+ "' had no stored session: this fetch went out ANONYMOUS " +:+
  "(a mistyped profile name looks exactly like this)".
Definition egress_note (node : string) : string := EGRESS_TRAIL_PREFIX +:+ node.
Definition http_tier_detail (why served_by anonymous : option string) : option string :=
  match option_list why ++ option_list (egress_note <$> served_by)
          ++ option_list (anonymous_profile_note <$> anonymous) with
  | [] => None
  | parts => Some (String.concat "; " parts)
  end.

(** ** The trace *)

Inductive FetchTier : Type := TierApiRecipe | TierArchive | TierHttp | TierBrowser | TierClaude.
#[global] Instance FetchTier_eq_dec : EqDecision FetchTier.
Proof. solve_decision. Defined.
Definition tier_as_str (t : FetchTier) : string :=
  match t with
  | TierApiRecipe => "api_recipe" | TierArchive => "archive" | TierHttp => "http"
  | TierBrowser => "browser" | TierClaude => "claude"
  end.
Inductive TierVerdict : Type := VOk | VThin | VBlocked | VError | VSkippedByRouter.
#[global] Instance TierVerdict_eq_dec : EqDecision TierVerdict.
Proof. solve_decision. Defined.

Module TierTrace.
Record t : Type := mk {
  tier : FetchTier; verdict : TierVerdict; http_status : option Z; content_chars : option Z;
  cache_hit : option bool; latency_ms : Z; cost_usd : option f64; detail : option string }.
End TierTrace.

Module FetchOutcome.
Record t : Type := mk {
  url : string; engine : string; status : option Z; html : option string; markdown : option string;
  text : option string; escalations : list string; trace : list TierTrace.t; cost_usd : option f64;
  snapshot : option SnapshotProvenance.t; network : list CapturedCall.t }.
#[global] Instance eta_outcome : Eta t := λ o,
  mk (url o) (engine o) (status o) (html o) (markdown o) (text o) (escalations o) (trace o) (cost_usd o)
    (snapshot o) (network o).
End FetchOutcome.

(** An http attempt that was made and lost. *)
Definition lost (v : TierVerdict) : bool :=
  match v with VThin | VBlocked | VError => true | VOk | VSkippedByRouter => false end.
Definition http_lost (trace : list TierTrace.t) : bool :=
  existsb (λ t, bool_decide (TierTrace.tier t = TierHttp) && lost (TierTrace.verdict t)) trace.
Definition capture_on_escalation (xray skip_http : bool) (trace : list TierTrace.t) : bool :=
  xray && (skip_http || http_lost trace).
Definition recipes_consulted (use_recipes enabled xray : bool) (strategy : FetchStrategy) : bool :=
  (use_recipes || enabled || xray) && negb (bool_decide (strategy = Browser_)).
Definition escalating (strategy : FetchStrategy) : bool :=
  match strategy with Auto | AutoWithResearch => true | _ => false end.
Definition http_tier_attempted (strategy : FetchStrategy) (skip_http : bool) : bool :=
  bool_decide (strategy = Http_) || (negb skip_http && escalating strategy).
Definition browser_failure_falls_back_to_http (strategy : FetchStrategy) (skip_http : bool)
    (verdict : TierVerdict) : bool :=
  bool_decide (verdict = VError) && escalating strategy && negb (http_tier_attempted strategy skip_http).

Definition attempted_tiers (trace : list TierTrace.t) : string :=
  match foldl (λ names t, let name := tier_as_str (TierTrace.tier t) in
                          if existsb (String.eqb name) names then names else names ++ [name]) [] trace with
  | [] => "none"
  | names => String.concat ", " names
  end.
Definition ladder_exhausted (url : string) (trace : list TierTrace.t) (escalations : list string)
    (claude_spend : option ClaudeSpend) : Error :=
  let message := ("all fetch tiers exhausted for " +:+ url +:+ " (attempted: " +:+ attempted_tiers trace
                    +:+ "): " +:+ String.concat "; " escalations)%string in
  match claude_spend with
  | Some spend => if is_some (ClaudeSpend.ledger_event spend) then Claude message spend else App message
  | None => App message
  end.

(** ** The engines, the recipes and the state *)

Inductive EngineCall : Type :=
| ToRecipeApi (r : TierRequest.t)
| ToArchive (r : TierRequest.t)
| ToHttp (remote : bool) (r : TierRequest.t)
| ToBrowser (r : RenderRequest.t)
| ToClaude (r : ResearchRequest.t).

Abbreviation answer A := (Governor.t → Governor.t * Z * result Error A).
Class Engines := {
  http_client : TierRequest.t → answer TierResponse.t;
  remote_client : option (TierRequest.t → answer TierResponse.t);
  archive_client : option (TierRequest.t → answer TierResponse.t);
  browser_client : RenderRequest.t → answer RenderedPage.t;
  claude_client : ResearchRequest.t → answer ResearchOutput.t }.

(** What the ladder asks of a recipe source; [recipe_source]: whether one is wired. *)
Class RecipeSource (R : Type) := {
  recipe_source : bool;
  source_best : string → bool → R → result Error (option ApiRecipe.t);
  source_success : string → bool → R → R * result Error unit;
  source_failure : string → Z → string → R → R * result Error bool }.

(** [RecipeStore] answers it, when its statements do. *)
Definition store_source (retire_after : Z) (now : timestamp) : RecipeSource api_recipes := {|
  recipe_source := true;
  source_best host include t := Ok (best_for_host host include t);
  source_success id validate t := (record_success id validate now t, Ok tt);
  source_failure id unvalidate_after reason t :=
    let '(t, demoted) := record_failure retire_after id unvalidate_after reason now t in (t, Ok demoted) |}.

Module FetcherConfig.
Record t : Type := mk {
  recipes_enabled : bool; recipes_auto_validate : bool; recipes_max_failures : Z;
  min_content_chars : Z; xray : bool }.
End FetcherConfig.

Module Ladder.
Record t {R : Type} : Type := mk {
  escalations : list string; trace : list TierTrace.t; governor : Governor.t; recipes : R;
  peer_served : Z; local_fallback : Z; calls : list EngineCall }.
Arguments t : clear implicits.
#[global] Instance eta_ladder {R} : Eta (t R) := λ s,
  mk R (escalations s) (trace s) (governor s) (recipes s) (peer_served s) (local_fallback s) (calls s).
End Ladder.

(** The instants the browser tier's politeness reads. *)
Module Clock.
Record t : Type := mk { acquiring : Instant; evicting : Instant; waking : Instant; settling : Instant }.
End Clock.

Section fetcher.
Context `{Engines, UrlLib, Unicode, HtmlTree, ToMarkdown, JsonRender, JsonParse, FormUrlEncoded}.
Context {R : Type} `{!RecipeSource R} (cfg : FetcherConfig.t).
Implicit Types (s : Ladder.t R) (req : FetchRequest.t).

Definition say (line : string) s : Ladder.t R := s <| Ladder.escalations ::= λ l, l ++ [line] |>.
Definition traced (t : TierTrace.t) s : Ladder.t R := s <| Ladder.trace ::= λ l, l ++ [t] |>.
Definition call {A} (c : EngineCall) (client : answer A) s : Ladder.t R * Z * result Error A :=
  let '(g, latency_ms, answer) := client (Ladder.governor s) in
  (s <| Ladder.governor := g |> <| Ladder.calls ::= λ l, l ++ [c] |>, latency_ms, answer).

Definition outcome (engine : string) req (status : option Z) (html : string) (markdown : option string)
    (snapshot : option SnapshotProvenance.t) s : FetchOutcome.t :=
  FetchOutcome.mk (FetchRequest.url req) engine status (Some html)
    (if FetchRequest.to_markdown req then markdown else None) None (Ladder.escalations s) (Ladder.trace s)
    None snapshot [].

(** [Err]: the failure is pumper's own and ends the ladder. *)
Definition trace_tier_error (tier : FetchTier) (name : string) (err : Error) (latency_ms : Z) s :
    Ladder.t R * result Error unit :=
  let s := say (name +:+ " tier failed: " +:+ error_display err) s in
  let s := traced (TierTrace.mk tier VError None None None latency_ms None (Some (error_display err))) s in
  (s, if is_router_failure err then Err err else Ok tt).

Definition host_of_request req : option string :=
  u ← url_parse (FetchRequest.url req); to_lowercase <$> host_str u.

(** *** The recipe tier *)

Definition auto_validate : bool := FetcherConfig.recipes_auto_validate cfg || FetcherConfig.xray cfg.
Definition chars_count (text : string) : Z := Z.of_nat (length (chars text)).

Definition try_recipe req s : Ladder.t R * option FetchOutcome.t :=
  if negb recipe_source then (s, None)
  else
    match host_of_request req with
    | None => (s, None)
    | Some host =>
        match source_best host auto_validate (Ladder.recipes s) with
        | Err e => (say ("api_recipe tier failed: recipe lookup: " +:+ error_display e) s, None)
        | Ok None => (s, None)
        | Ok (Some recipe) =>
            match replay_url recipe with
            | None => (s, None)
            | Some api_url =>
                let api_req := TierRequest.mk api_url (FetchRequest.no_cache req) (FetchRequest.ttl_override req)
                                 (FetchRequest.profile req) None in
                let '(s, latency_ms, answer) := call (ToRecipeApi api_req) (http_client api_req) s in
                match answer with
                | Ok resp =>
                    let parsed := json_parse (TierResponse.body resp) in
                    let chars := Some (chars_count (TierResponse.body resp)) in
                    let hit := Some (TierResponse.cache_hit resp) in
                    let status := Some (TierResponse.status resp) in
                    match replay_reason (TierResponse.is_success resp) parsed (ApiRecipe.json_paths recipe) with
                    | None =>
                        let validate := auto_validate && negb (ApiRecipe.validated recipe) in
                        let '(r, recorded) := source_success (ApiRecipe.id recipe) validate (Ladder.recipes s) in
                        let s := s <| Ladder.recipes := r |> in
                        let s := match recorded with
                                 | Err e => say ("api_recipe tier: recording success failed: " +:+ error_display e) s
                                 | Ok _ => s
                                 end in
                        let s := traced (TierTrace.mk TierApiRecipe VOk status chars hit latency_ms None
                                           (Some ("recipe " +:+ ApiRecipe.id recipe)%string)) s in
                        (s, Some (FetchOutcome.mk (FetchRequest.url req) "api_recipe" status None None
                                    (Some (TierResponse.body resp)) (Ladder.escalations s) (Ladder.trace s)
                                    None None []))
                    | Some why =>
                        let '(r, recorded) :=
                          source_failure (ApiRecipe.id recipe) (FetcherConfig.recipes_max_failures cfg) why
                            (Ladder.recipes s) in
                        let demoted := match recorded with Ok d => d | Err _ => false end in
                        let s := say ("api_recipe tier thin: status " +:+ pretty (TierResponse.status resp)
                                        +:+ ", " +:+ why +:+ if demoted then " (recipe un-validated)" else "")
                                   (s <| Ladder.recipes := r |>) in
                        (traced (TierTrace.mk TierApiRecipe VThin status chars hit latency_ms None (Some why)) s,
                         None)
                    end
                | Err e =>
                    let '(r, _) :=
                      source_failure (ApiRecipe.id recipe) (FetcherConfig.recipes_max_failures cfg)
                        "replay failed" (Ladder.recipes s) in
                    ((trace_tier_error TierApiRecipe "api_recipe" e latency_ms (s <| Ladder.recipes := r |>)).1, None)
                end
            end
        end
    end.

(** *** The archive tier *)

Definition archive_snapshot (headers : list (string * string)) : SnapshotProvenance.t :=
  default (SnapshotProvenance.mk (tier_as_str TierArchive) None) (snapshot_provenance headers).
(** The Markdown the caller wants, and the count the decision reads. *)
Definition markdown_of req (html : string) : option string :=
  if FetchRequest.to_markdown req then Some (html_to_markdown html) else None.
Definition text_length (markdown : option string) (needs_count : bool) (html : string) (min_chars : Z) : option Z :=
  match markdown with
  | Some md => Some (chars_count md)
  | None => if needs_count then Some (text_len_capped html min_chars) else None
  end.
Definition at_least (min_chars : Z) (text_len : option Z) : bool :=
  match text_len with Some n => min_chars <=? n | None => true end.
Definition shown (text_len : option Z) : string := pretty (default 0 text_len).

Definition try_archive req (min_chars : Z) s : Ladder.t R * result Error (option FetchOutcome.t) :=
  match FetchRequest.archive_max_age req, archive_client with
  | Some age, Some archive =>
      if bool_decide (FetchRequest.strategy req = Browser_) then (s, Ok None)
      else
        let arch_req := TierRequest.mk (FetchRequest.url req) (FetchRequest.no_cache req)
                          (FetchRequest.ttl_override req) None (Some age) in
        let '(s, latency_ms, answer) := call (ToArchive arch_req) (archive arch_req) s in
        match answer with
        | Ok resp =>
            let body := TierResponse.body resp in
            let status := TierResponse.status resp in
            let wall := http_bot_wall status body in
            let markdown := markdown_of req body in
            let text_len := text_length markdown true body min_chars in
            let entry verdict detail :=
              TierTrace.mk TierArchive verdict (Some status) text_len (Some (TierResponse.cache_hit resp))
                latency_ms None detail in
            if negb (is_some wall) && TierResponse.is_success resp && at_least min_chars text_len then
              let snapshot := archive_snapshot (TierResponse.headers resp) in
              let s := traced (entry VOk (Some (SnapshotProvenance.note snapshot))) s in
              (s, Ok (Some (outcome "archive" req (Some status) body markdown (Some snapshot) s)))
            else
              match wall with
              | Some reason =>
                  let s := say ("archive tier blocked: archived challenge page (" +:+ reason +:+ ")") s in
                  (traced (entry VBlocked (Some reason)) s, Ok None)
              | None =>
                  let s := say ("archive tier thin: status " +:+ pretty status +:+ ", " +:+ shown text_len
                                  +:+ " chars of text") s in
                  (traced (entry VThin None) s, Ok None)
              end
        | Err e =>
            let '(s, ended) := trace_tier_error TierArchive "archive" e latency_ms s in
            (s, match ended with Ok _ => Ok None | Err e => Err e end)
        end
  | _, _ => (s, Ok None)
  end.

(** *** The http tier *)

Definition egress_recorded (served_by : option string) s : Ladder.t R :=
  if is_some served_by then s <| Ladder.peer_served ::= λ n, wrap_u64 (n + 1) |>
  else s <| Ladder.local_fallback ::= λ n, wrap_u64 (n + 1) |>.
(** What the headers say of a live answer, said once each in the trail. *)
Definition attributed req (resp : TierResponse.t) s : Ladder.t R * option string * option string :=
  let remote := is_some remote_client in
  let served_by := if remote then remote_egress (TierResponse.headers resp) else None in
  let s := if remote then egress_recorded served_by s else s in
  let s := match served_by with Some node => say (egress_note node) s | None => s end in
  let anonymous := if is_some (FetchRequest.profile req)
                   then anonymous_profile (TierResponse.headers resp) else None in
  let s := match anonymous with Some name => say (anonymous_profile_note name) s | None => s end in
  (s, served_by, anonymous).

Definition try_http_tier req (min_chars : Z) s : Ladder.t R * result Error (option FetchOutcome.t) :=
  let http_req := TierRequest.mk (FetchRequest.url req) (FetchRequest.no_cache req)
                    (FetchRequest.ttl_override req) (FetchRequest.profile req) None in
  let live_http := default http_client remote_client in
  let '(s, latency_ms, answer) := call (ToHttp (is_some remote_client) http_req) (live_http http_req) s in
  match answer with
  | Ok resp =>
      let '(s, served_by, anonymous) := attributed req resp s in
      let body := TierResponse.body resp in
      let status := TierResponse.status resp in
      let needs_count := escalating (FetchRequest.strategy req) in
      let wall := if needs_count then http_bot_wall status body else None in
      let markdown := markdown_of req body in
      let text_len := text_length markdown needs_count body min_chars in
      let entry verdict detail :=
        TierTrace.mk TierHttp verdict (Some status) text_len (Some (TierResponse.cache_hit resp)) latency_ms None
          (http_tier_detail detail served_by anonymous) in
      let enough := negb (is_some wall) && TierResponse.is_success resp && at_least min_chars text_len in
      if enough || bool_decide (FetchRequest.strategy req = Http_) then
        let s := traced (entry VOk None) s in
        (s, Ok (Some (outcome "http" req (Some status) body markdown None s)))
      else
        match wall with
        | Some reason =>
            let s := say ("http tier blocked: " +:+ reason +:+ " (status " +:+ pretty status +:+ ")") s in
            (traced (entry VBlocked (Some reason)) s, Ok None)
        | None =>
            let s := say ("http tier thin: status " +:+ pretty status +:+ ", " +:+ shown text_len
                            +:+ " chars of text") s in
            (traced (entry VThin None) s, Ok None)
        end
  | Err e =>
      if bool_decide (FetchRequest.strategy req = Http_) then (s, Err e)
      else
        let '(s, ended) := trace_tier_error TierHttp "http" e latency_ms s in
        (s, match ended with Ok _ => Ok None | Err e => Err e end)
  end.

(** *** The browser tier *)

Definition governed (host : option string) (f : string → Governor.t → Governor.t) s : Ladder.t R :=
  match host with Some host => s <| Ladder.governor ::= f host |> | None => s end.

Definition try_browser (clock : Clock.t) req (min_chars : Z) s : Ladder.t R * result Error (option FetchOutcome.t) :=
  if bool_decide (FetchRequest.strategy req = Http_) then (s, Ok None)
  else
    let render :=
      RenderRequest.mk (FetchRequest.url req) (FetchRequest.wait_for_selector req) (FetchRequest.actions req)
        (FetchRequest.profile req)
        (capture_on_escalation (FetcherConfig.xray cfg) (FetchRequest.skip_http req) (Ladder.trace s)) in
    let host := host_of_request req in
    let s := governed host (λ host g,
               (acquire host (Clock.acquiring clock) (Clock.evicting clock) (Clock.waking clock) g).1) s in
    let '(s, latency_ms, answer) := call (ToBrowser render) (browser_client render) s in
    match answer with
    | Ok page =>
        let html := RenderedPage.html page in
        let needs_count := bool_decide (FetchRequest.strategy req = AutoWithResearch) in
        let wall := if needs_count then challenge_marker html else None in
        let markdown := markdown_of req html in
        let text_len := text_length markdown needs_count html min_chars in
        let entry verdict detail := TierTrace.mk TierBrowser verdict None text_len None latency_ms None detail in
        let enough := negb (is_some wall) && at_least min_chars text_len in
        if enough || negb needs_count then
          let s := governed host (λ host g, reward host (Clock.settling clock) g) s in
          let s := traced (entry VOk None) s in
          (s, Ok (Some ((outcome "browser" req None html markdown None s)
                          <| FetchOutcome.network := RenderedPage.network page |>)))
        else
          match wall with
          | Some reason =>
              let s := governed host (λ host g, penalize host None (Clock.settling clock) g) s in
              let s := say ("browser tier blocked: " +:+ reason) s in
              (traced (entry VBlocked (Some reason)) s, Ok None)
          | None =>
              let s := say ("browser tier thin: " +:+ shown text_len +:+ " chars of text") s in
              (traced (entry VThin None) s, Ok None)
          end
    | Err e =>
        if bool_decide (FetchRequest.strategy req = Browser_) then (s, Err e)
        else
          let '(s, ended) := trace_tier_error TierBrowser "browser" e latency_ms s in
          match ended with
          | Err e => (s, Err e)
          | Ok _ =>
              if browser_failure_falls_back_to_http (FetchRequest.strategy req) (FetchRequest.skip_http req) VError
              then
                try_http_tier req min_chars
                  (say ("http tier un-skipped: browser engine failed, retrying the tier the " +:+
                        "router had skipped") s)
              else (s, Ok None)
          end
    end.

(** *** The Claude tier *)

Definition research_prompt_of req : string :=
  default
    ("Fetch " +:+ FetchRequest.url req +:+ " and extract its main textual content as clean Markdown. " +:+
     "Use the `mcp__pumper__fetch` tool if it is available to you — it goes " +:+
     "through this host's own governed, cached, cost-metered fetcher — and " +:+
     "otherwise fetch it however you can. Respond with only the content, no " +:+
     "commentary.")%string (FetchRequest.research_prompt req).

(** The outcome, or what the failed call spent; [Err] ends the ladder. *)
Definition try_claude req s : Ladder.t R * result Error (option FetchOutcome.t * option ClaudeSpend) :=
  if negb (bool_decide (FetchRequest.strategy req = AutoWithResearch)) then (s, Ok (None, None))
  else
    let research := (ResearchRequest.new (research_prompt_of req))
                      <| ResearchRequest.max_budget_usd := FetchRequest.max_budget_usd req |> in
    let '(s, latency_ms, answer) := call (ToClaude research) (claude_client research) s in
    match answer with
    | Ok out =>
        let text := ResearchOutput.text out in
        let s := traced (TierTrace.mk TierClaude VOk None (Some (chars_count text)) None latency_ms
                           (ResearchOutput.cost_usd out) None) s in
        (s, Ok (Some (FetchOutcome.mk (FetchRequest.url req) "claude" None None
                        (if FetchRequest.to_markdown req then Some text else None) (Some text)
                        (Ladder.escalations s) (Ladder.trace s) (ResearchOutput.cost_usd out) None []), None))
    | Err e =>
        let '(s, ended) := trace_tier_error TierClaude "claude" e latency_ms s in
        (s, match ended with Ok _ => Ok (None, claude_spend e) | Err e => Err e end)
    end.

(** *** The ladder *)

Definition fetch_tiers (clock : Clock.t) req s : Ladder.t R * result Error FetchOutcome.t :=
  let min_chars := default (FetcherConfig.min_content_chars cfg) (FetchRequest.min_content_chars req) in
  let '(s, won) :=
    if recipes_consulted (FetchRequest.use_recipes req) (FetcherConfig.recipes_enabled cfg)
         (FetcherConfig.xray cfg) (FetchRequest.strategy req)
    then try_recipe req s else (s, None) in
  match won with
  | Some out => (s, Ok out)
  | None =>
      let '(s, won) := try_archive req min_chars s in
      match won with
      | Err e => (s, Err e)
      | Ok (Some out) => (s, Ok out)
      | Ok None =>
          let '(s, won) :=
            if http_tier_attempted (FetchRequest.strategy req) (FetchRequest.skip_http req)
            then try_http_tier req min_chars s else (s, Ok None) in
          match won with
          | Err e => (s, Err e)
          | Ok (Some out) => (s, Ok out)
          | Ok None =>
              let '(s, won) := try_browser clock req min_chars s in
              match won with
              | Err e => (s, Err e)
              | Ok (Some out) => (s, Ok out)
              | Ok None =>
                  let '(s, won) := try_claude req s in
                  match won with
                  | Err e => (s, Err e)
                  | Ok (Some out, _) => (s, Ok out)
                  | Ok (None, spend) =>
                      (s, Err (ladder_exhausted (FetchRequest.url req) (Ladder.trace s) (Ladder.escalations s) spend))
                  end
              end
          end
      end
  end.

(** A fetch starts with nothing in its locals. *)
Definition fetch (clock : Clock.t) req (g : Governor.t) (recipes : R) (peer_served local_fallback : Z) :
    Ladder.t R * result Error FetchOutcome.t :=
  fetch_tiers clock req (Ladder.mk R [] [] g recipes peer_served local_fallback []).
End fetcher.
