(* ===== verification/FetcherTheorems.v ===== *)
(** * FetcherTheorems: one winner, no tier twice, no money lost

    Each tier's attempt as a step of the ladder: the calls it made, the trace entries it left
    and what it answered; and what the composition of the steps promises a caller. *)

From stdpp Require Import gmap pretty.
From S2P Require Import Prelude Float64 Json Filters Simhash Robots Errors Pages Governor Recipes Markdown.
From S2P Require Import Fetcher.

Definition call_tier (c : EngineCall) : FetchTier :=
  match c with
  | ToRecipeApi _ => TierApiRecipe | ToArchive _ => TierArchive | ToHttp _ _ => TierHttp
  | ToBrowser _ => TierBrowser | ToClaude _ => TierClaude
  end.
Definition entry_lost (t : TierTrace.t) : Prop := lost (TierTrace.verdict t) = true.

(** What an outcome says of itself agrees with the tier that won. *)
Definition provenance_sound (w : TierTrace.t) (out : FetchOutcome.t) : Prop :=
  FetchOutcome.engine out = tier_as_str (TierTrace.tier w)
  ∧ (is_Some (FetchOutcome.snapshot out) ↔ TierTrace.tier w = TierArchive)
  ∧ (FetchOutcome.network out ≠ [] → TierTrace.tier w = TierBrowser)
  ∧ (is_Some (FetchOutcome.cost_usd out) → TierTrace.tier w = TierClaude).

Section ladder.
Context `{Engines, UrlLib, Unicode, HtmlTree, ToMarkdown, JsonRender, JsonParse, FormUrlEncoded}.
Context {R : Type} `{!RecipeSource R} (cfg : FetcherConfig.t).
Implicit Types (s : Ladder.t R) (req : FetchRequest.t) (cs : list EngineCall) (ts : list TierTrace.t).

(** [s'] is [s] after the calls [cs], with the entries [ts]. *)
Definition moved s cs ts s' : Prop :=
  Ladder.calls s' = Ladder.calls s ++ cs ∧ Ladder.trace s' = Ladder.trace s ++ ts.
(** Entries that all lost, one per call. *)
Definition climbed cs ts : Prop :=
  map call_tier cs = map TierTrace.tier ts ∧ Forall entry_lost ts.
(** The entries of a win: the last one won, and the outcome carries the whole trace. *)
Definition winning s' cs ts (out : FetchOutcome.t) : Prop :=
  map call_tier cs = map TierTrace.tier ts ∧ FetchOutcome.trace out = Ladder.trace s'
  ∧ ∃ pre w, ts = pre ++ [w] ∧ TierTrace.verdict w = VOk ∧ Forall entry_lost pre ∧ provenance_sound w out.
(** A refusal: of an explicit strategy's only engine, or pumper's own failure. *)
Definition refused (explicit : bool) ts (e : Error) : Prop :=
  Forall entry_lost ts ∧ (explicit = true ∨ is_router_failure e = true).

Definition stepped (explicit : bool) s s' cs ts (r : result Error (option FetchOutcome.t)) : Prop :=
  moved s cs ts s' ∧
  match r with
  | Ok (Some out) => winning s' cs ts out
  | Ok None => climbed cs ts
  | Err e => refused explicit ts e
  end.

Lemma moved_refl s : moved s [] [] s.
Proof. split; by rewrite app_nil_r. Qed.
Lemma moved_trans s1 cs1 ts1 s2 cs2 ts2 s3 :
  moved s1 cs1 ts1 s2 → moved s2 cs2 ts2 s3 → moved s1 (cs1 ++ cs2) (ts1 ++ ts2) s3.
Proof. intros [E1 E2] [E3 E4]. split; by rewrite ?E3, ?E4, ?E1, ?E2, app_assoc. Qed.
Lemma climbed_app cs1 ts1 cs2 ts2 : climbed cs1 ts1 → climbed cs2 ts2 → climbed (cs1 ++ cs2) (ts1 ++ ts2).
Proof. intros [E1 E2] [E3 E4]. split; [by rewrite !map_app, E1, E3|by apply Forall_app]. Qed.
Lemma climbed_winning s' cs1 ts1 cs2 ts2 out :
  climbed cs1 ts1 → winning s' cs2 ts2 out → winning s' (cs1 ++ cs2) (ts1 ++ ts2) out.
Proof.
  intros [E1 E2] (E3 & E4 & pre & w & -> & Hv & Hpre & Hp). split; [by rewrite !map_app, E1, E3, map_app|].
  split; [done|]. exists (ts1 ++ pre), w. split; [by rewrite app_assoc|].
  split; [done|]. split; [by apply Forall_app|done].
Qed.
Lemma climbed_stepped explicit s1 cs1 ts1 s2 cs2 ts2 s3 r :
  moved s1 cs1 ts1 s2 → climbed cs1 ts1 → stepped explicit s2 s3 cs2 ts2 r →
  stepped explicit s1 s3 (cs1 ++ cs2) (ts1 ++ ts2) r.
Proof.
  intros Hm Hc [Hm' Hr]. split; [by eapply moved_trans|].
  destruct r as [[out|]|e]; [by apply climbed_winning|by apply climbed_app|].
  destruct Hr as [Hl He]. split; [|done]. destruct Hc as [_ Hc]. by apply Forall_app.
Qed.
Lemma stepped_still explicit s : stepped explicit s s [] [] (Ok None).
Proof. split; [apply moved_refl|]. by split. Qed.

Lemma call_moved {A} c (client : answer A) s :
  ∃ s', call c client s = (s', (client (Ladder.governor s)).1.2, (client (Ladder.governor s)).2)
        ∧ moved s [c] [] s'.
Proof.
  unfold call. destruct (client (Ladder.governor s)) as [[g l] a]. eexists. split; [done|].
  split; cbn; [done|by rewrite app_nil_r].
Qed.
Lemma trace_tier_error_moved tier name e l s :
  ∃ w, moved s [] [w] (trace_tier_error tier name e l s).1 ∧ TierTrace.tier w = tier ∧ entry_lost w
       ∧ (trace_tier_error tier name e l s).2 = if is_router_failure e then Err e else Ok tt.
Proof. eexists. split; [split; cbn; [by rewrite app_nil_r|done]|]. done. Qed.

(** Whatever else a tier writes down, its entry comes last. *)
Lemma traced_moved s cs s1 s' w :
  moved s cs [] s1 → Ladder.calls s' = Ladder.calls s1 → Ladder.trace s' = Ladder.trace s1 →
  moved s cs [w] (traced w s').
Proof. intros [Hc Ht] E1 E2. rewrite app_nil_r in Ht. split; cbn; by rewrite ?E1, ?E2, ?Hc, ?Ht. Qed.

(** One call and its one entry. *)
Ltac one_lost := split; [reflexivity|by apply Forall_singleton].
Ltac one_won w := split; [reflexivity|split; [reflexivity|]];
  exists [], w; split; [reflexivity|]; split; [reflexivity|]; split; [done|].

Lemma try_recipe_stepped req s :
  ∃ cs ts, stepped false s (try_recipe cfg req s).1 cs ts (Ok (try_recipe cfg req s).2)
           ∧ (cs = [] ∨ ∃ r, cs = [ToRecipeApi r]).
Proof.
  unfold try_recipe.
  assert (∀ line, stepped false s (say line s) [] [] (Ok None)) as Hsay.
  { intros line. split; [|by split]. split; cbn; by rewrite app_nil_r. }
  assert (∃ cs ts, stepped false s s cs ts (Ok None) ∧ (cs = [] ∨ ∃ r, cs = [ToRecipeApi r])) as Hstill.
  { exists [], []. split; [apply stepped_still|by left]. }
  destruct recipe_source; [|exact Hstill]. cbn [negb].
  destruct (host_of_request req) as [host|]; [|exact Hstill].
  destruct (source_best _ _ _) as [[recipe|]|e]; [|exact Hstill|exists [], []; split; [apply Hsay|by left]].
  destruct (replay_url recipe) as [api_url|]; [|exact Hstill].
  set (api_req := TierRequest.mk _ _ _ _ _).
  destruct (call_moved (ToRecipeApi api_req) (http_client api_req) s) as (s1 & -> & Hm1).
  destruct (http_client api_req (Ladder.governor s)) as [[g l] [resp|e]]; cbn [fst snd].
  - destruct (replay_reason _ _ _) as [why|].
    + destruct (source_failure _ _ _ _) as [r rec]. eexists [_], [_]. split; [|by right; eexists].
      split; [by eapply traced_moved|one_lost].
    + destruct (source_success _ _ _) as [r rec]. cbn [fst snd]. eexists [_], [_]. split; [|by right; eexists].
      split.
      * by destruct rec; eapply traced_moved.
      * split; [reflexivity|]. split; [reflexivity|]. eexists [], _. split; [reflexivity|].
        split; [reflexivity|]. split; [done|]. split; [reflexivity|]. cbn.
        split_and!; [split; [by intros []|done]|done|by intros []].
  - destruct (source_failure _ _ _ _) as [r rec]. cbn [fst snd]. eexists [_], [_]. split; [|by right; eexists].
    split; [by eapply traced_moved|one_lost].
Qed.

(** An outcome minted by [outcome] is sound for a live tier, and with a snapshot for the archive. *)
Lemma outcome_sound engine req status html md snapshot s w :
  engine = tier_as_str (TierTrace.tier w) → (is_Some snapshot ↔ TierTrace.tier w = TierArchive) →
  provenance_sound w (outcome engine req status html md snapshot s).
Proof. intros -> Hs. split; [done|]. split; [done|]. split; [done|]. by intros []. Qed.

Lemma one_winning s s1 s' c w out :
  moved s [c] [] s1 → Ladder.calls s' = Ladder.calls s1 → Ladder.trace s' = Ladder.trace s1 →
  call_tier c = TierTrace.tier w → TierTrace.verdict w = VOk →
  FetchOutcome.trace out = Ladder.trace (traced w s') → provenance_sound w out →
  stepped false s (traced w s') [c] [w] (Ok (Some out)).
Proof.
  intros Hm Hc Ht Htier Hv Hout Hp. split; [by eapply traced_moved|].
  split; [cbn; by rewrite Htier|]. split; [done|]. by exists [], w.
Qed.
Lemma one_losing explicit s s1 s' c w :
  moved s [c] [] s1 → Ladder.calls s' = Ladder.calls s1 → Ladder.trace s' = Ladder.trace s1 →
  call_tier c = TierTrace.tier w → entry_lost w →
  stepped explicit s (traced w s') [c] [w] (Ok None).
Proof.
  intros Hm Hc Ht Htier Hl. split; [by eapply traced_moved|].
  split; [cbn; by rewrite Htier|]. by apply Forall_singleton.
Qed.
Lemma winning_weaken explicit s s' cs ts out :
  stepped false s s' cs ts (Ok (Some out)) → stepped explicit s s' cs ts (Ok (Some out)).
Proof. done. Qed.
(** An engine's error, traced: a loss, or the end when it is pumper's own. *)
Lemma error_stepped explicit s s1 c tier name e l :
  moved s [c] [] s1 → call_tier c = tier →
  let '(s', ended) := trace_tier_error tier name e l s1 in
  ∃ w, moved s [c] [w] s' ∧ TierTrace.tier w = tier ∧ entry_lost w
       ∧ stepped explicit s s' [c] [w] (match ended with Ok _ => Ok None | Err e => Err e end).
Proof.
  intros Hm Hc. unfold trace_tier_error. set (w := TierTrace.mk _ _ _ _ _ _ _ _). exists w.
  assert (moved s [c] [w] (traced w (say (name +:+ " tier failed: " +:+ error_display e) s1))) as Hmoved
    by by eapply traced_moved.
  split; [done|]. split; [done|]. split; [done|]. split; [done|].
  destruct (is_router_failure e) eqn:He.
  - split; [by apply Forall_singleton|by right].
  - split; [cbn; by rewrite Hc|by apply Forall_singleton].
Qed.

Lemma try_archive_stepped req min_chars s :
  ∃ cs ts, stepped false s (try_archive req min_chars s).1 cs ts (try_archive req min_chars s).2
           ∧ (cs = [] ∨ ∃ r, cs = [ToArchive r]).
Proof.
  assert (∃ cs ts, stepped false s s cs ts (Ok None) ∧ (cs = [] ∨ ∃ r, cs = [ToArchive r])) as Hstill.
  { exists [], []. split; [apply stepped_still|by left]. }
  unfold try_archive. destruct (FetchRequest.archive_max_age req) as [age|]; [|exact Hstill].
  destruct archive_client as [archive|]; [|exact Hstill]. case_if; [exact Hstill|].
  set (arch_req := TierRequest.mk _ _ _ _ _).
  destruct (call_moved (ToArchive arch_req) (archive arch_req) s) as (s1 & -> & Hm).
  destruct (archive arch_req (Ladder.governor s)) as [[g l] [resp|e]]; cbn [fst snd].
  - case_if; [|destruct (http_bot_wall _ _) as [reason|]]; cbn [fst snd]; eexists [_], [_];
      (split; [|by right; eexists]).
    + eapply one_winning; [done..|]. by apply outcome_sound; split; eauto.
    + by eapply one_losing.
    + by eapply one_losing.
  - pose proof (error_stepped false s s1 (ToArchive arch_req) TierArchive "archive" e l Hm eq_refl) as He.
    destruct (trace_tier_error _ _ _ _ _) as [s' ended]. destruct He as (w & _ & _ & _ & He).
    exists [ToArchive arch_req], [w]. split; [exact He|by right; eexists].
Qed.

Lemma attributed_kept req resp s :
  let '(s', _, _) := attributed req resp s in
  Ladder.calls s' = Ladder.calls s ∧ Ladder.trace s' = Ladder.trace s.
Proof.
  unfold attributed, egress_recorded.
  destruct (is_some remote_client), (remote_egress (TierResponse.headers resp)),
    (is_some (FetchRequest.profile req)), (anonymous_profile (TierResponse.headers resp)); done.
Qed.

Lemma try_http_stepped req min_chars s :
  ∃ r w, let cs := [ToHttp (is_some remote_client) r] in
  stepped (bool_decide (FetchRequest.strategy req = Http_)) s (try_http_tier req min_chars s).1 cs
    w (try_http_tier req min_chars s).2
  ∧ (is_ok (try_http_tier req min_chars s).2 = true → ∃ t, w = [t] ∧ TierTrace.tier t = TierHttp).
Proof.
  unfold try_http_tier. set (http_req := TierRequest.mk _ _ _ _ _). exists http_req.
  set (explicit := bool_decide (FetchRequest.strategy req = Http_)). cbn zeta.
  destruct (call_moved (ToHttp (is_some remote_client) http_req) (default http_client remote_client http_req) s)
    as (s1 & -> & Hm).
  destruct (default http_client remote_client http_req (Ladder.governor s)) as [[g l] [resp|e]]; cbn [fst snd].
  - pose proof (attributed_kept req resp s1) as Hkept.
    destruct (attributed req resp s1) as [[s2 served_by] anonymous]. destruct Hkept as [Hc Ht].
    case_if; [|destruct (if escalating _ then http_bot_wall _ _ else None) as [reason|]]; cbn [fst snd];
      eexists [_].
    + split; [apply winning_weaken; eapply one_winning; [done..|]; by apply outcome_sound; split; [intros []|]
            |intros _; eexists; by split].
    + split; [by eapply one_losing|intros _; eexists; by split].
    + split; [by eapply one_losing|intros _; eexists; by split].
  - subst explicit. case_if.
    + exists []. split; [|done]. split; [done|]. split; [done|by left].
    + pose proof (error_stepped false s s1 (ToHttp (is_some remote_client) http_req) TierHttp "http" e l Hm eq_refl)
        as He.
      destruct (trace_tier_error _ _ _ _ _) as [s' ended]. destruct He as (w & _ & Hw & _ & He).
      exists [w]. split; [exact He|]. intros _. by exists w.
Qed.

Lemma stepped_weaken (e1 e2 : bool) s s' cs ts r :
  (e1 = true → e2 = true) → stepped e1 s s' cs ts r → stepped e2 s s' cs ts r.
Proof.
  intros He [Hm Hr]. split; [done|]. destruct r as [[out|]|e]; [done|done|].
  destruct Hr as [Hl [Hx|Hx]]; split; [done|left; by apply He|done|by right].
Qed.
Lemma governed_kept host f s :
  Ladder.calls (governed host f s) = Ladder.calls s ∧ Ladder.trace (governed host f s) = Ladder.trace s.
Proof. by destruct host. Qed.
Lemma call_governed {A} c (client : answer A) host f s :
  ∃ s', call c client (governed host f s)
          = (s', (client (Ladder.governor (governed host f s))).1.2, (client (Ladder.governor (governed host f s))).2)
        ∧ moved s [c] [] s'.
Proof.
  destruct (call_moved c client (governed host f s)) as (s' & Hs & Hc & Ht). exists s'. split; [done|].
  destruct (governed_kept host f s) as [E1 E2]. split; [by rewrite Hc, E1|by rewrite Ht, E2].
Qed.

(** What the browser tier called, and what a fall through it leaves untried. *)
Definition browser_calls req (fell : bool) cs : Prop :=
  (cs = [] ∧ FetchRequest.strategy req = Http_)
  ∨ (FetchRequest.strategy req ≠ Http_ ∧ ∃ r, cs = [ToBrowser r]
     ∧ (fell = true → FetchRequest.strategy req = Auto → FetchRequest.skip_http req = false))
  ∨ (escalating (FetchRequest.strategy req) = true ∧ FetchRequest.skip_http req = true
     ∧ ∃ r b r', cs = [ToBrowser r; ToHttp b r']).

Lemma try_browser_stepped clock req min_chars s :
  let res := try_browser cfg clock req min_chars s in
  ∃ cs ts, stepped (negb (escalating (FetchRequest.strategy req))) s res.1 cs ts res.2
           ∧ browser_calls req (match res.2 with Ok None => true | _ => false end) cs.
Proof.
  cbn zeta. unfold try_browser. case_if.
  { breflect. exists [], []. split; [apply stepped_still|by left]. }
  breflect. set (host := host_of_request req). set (render := RenderRequest.mk _ _ _ _ _).
  match goal with |- context [call _ _ (governed host ?f s)] =>
    destruct (call_governed (ToBrowser render) (browser_client render) host f s) as (s1 & -> & Hm);
    set (g0 := Ladder.governor (governed host f s)) end.
  destruct (browser_client render g0) as [[g l] [page|e]]; cbn [fst snd].
  - case_if.
    + cbn [fst snd]. eexists [_], [_].
      split; [|by right; left; split; [done|]; eexists].
      destruct (governed_kept host (λ host g, reward host (Clock.settling clock) g) s1) as [E1 E2].
      apply winning_weaken. eapply one_winning; [exact Hm|exact E1|exact E2|done|done|done|].
      split; [done|]. split; [split; [by intros []|done]|]. split; [done|by intros []].
    + assert (FetchRequest.strategy req ≠ Auto) as Hna.
      { intros Ha. rewrite Ha in Heqb0. cbn in Heqb0. by rewrite orb_true_r in Heqb0. }
      destruct (if bool_decide _ then challenge_marker _ else None) as [reason|]; cbn [fst snd]; eexists [_], [_].
      * split; [|by right; left; split; [done|]; eexists].
        destruct (governed_kept host (λ host g, penalize host None (Clock.settling clock) g) s1) as [E1 E2].
        eapply one_losing; [exact Hm|exact E1|exact E2|done|done].
      * split; [by eapply one_losing|]. right. left. split; [done|]. by eexists.
  - case_if; cbn [fst snd].
    + breflect. exists [ToBrowser render], []. split; [|by right; left; split; [done|]; eexists].
      split; [done|]. split; [done|]. left. by rewrite Heqb0.
    + breflect. pose proof (error_stepped (negb (escalating (FetchRequest.strategy req))) s s1 (ToBrowser render)
                              TierBrowser "browser" e l Hm eq_refl) as He.
      destruct (trace_tier_error _ _ _ _ _) as [s' ended]. destruct He as (w & Hmw & Hw & Hlw & He).
      destruct ended as [[]|e']; cbn [fst snd].
      * assert (escalating (FetchRequest.strategy req) = true) as Hesc
          by (destruct (FetchRequest.strategy req); done).
        unfold browser_failure_falls_back_to_http, http_tier_attempted. rewrite Hesc.
        rewrite (bool_decide_false (FetchRequest.strategy req = Http_)) by done.
        destruct (FetchRequest.skip_http req) eqn:Hskip; cbn.
        -- set (line := String.append _ _). destruct (try_http_stepped req min_chars (say line s')) as (r & ts & Hh & _).
           exists ([ToBrowser render] ++ [ToHttp (is_some remote_client) r]), ([w] ++ ts). split.
           ++ eapply climbed_stepped; [exact Hmw|by destruct He as [_ He]|].
              apply (stepped_weaken (bool_decide (FetchRequest.strategy req = Http_)));
                [intros Hx; by breflect|].
              destruct Hh as [[Hc Ht] Hr]. split; [by split|exact Hr].
           ++ right. right. split; [done|]. split; [done|]. by eexists _, _, _.
        -- exists [ToBrowser render], [w]. split; [exact He|]. right. left. split; [done|]. by eexists.
      * exists [ToBrowser render], [w]. split; [exact He|]. right. left. split; [done|]. by eexists.
Qed.

Lemma try_claude_stepped req s :
  let res := try_claude req s in
  ∃ cs ts, stepped false s res.1 cs ts (match res.2 with Ok (won, _) => Ok won | Err e => Err e end)
           ∧ map call_tier cs
               = (if bool_decide (FetchRequest.strategy req = AutoWithResearch) then [TierClaude] else [])
           ∧ (∀ ce, (∀ r g, (claude_client r g).2 = Err ce) → cs ≠ [] →
                res.2 = if is_router_failure ce then Err ce else Ok (None, claude_spend ce)).
Proof.
  cbn zeta. unfold try_claude.
  destruct (bool_decide (FetchRequest.strategy req = AutoWithResearch)); cbn [negb].
  2: { exists [], []. split; [apply stepped_still|by split]. }
  set (research := upd _ _ _).
  destruct (call_moved (ToClaude research) (claude_client research) s) as (s1 & -> & Hm).
  set (g0 := Ladder.governor s). destruct (claude_client research g0) as [[g l] [out|e]] eqn:Hans; cbn [fst snd].
  - eexists [ToClaude research], [_]. split.
    + eapply one_winning; [exact Hm|done..|].
      split; [done|]. split; [split; [by intros []|done]|]. by split.
    + split; [done|]. intros ce Hce. specialize (Hce research g0). rewrite Hans in Hce. done.
  - pose proof (error_stepped false s s1 (ToClaude research) TierClaude "claude" e l Hm eq_refl) as He.
    unfold trace_tier_error in *. destruct He as (w & _ & _ & _ & He).
    exists [ToClaude research], [w]. split_and!.
    + by destruct (is_router_failure e).
    + done.
    + intros ce Hce _. specialize (Hce research g0). rewrite Hans in Hce. injection Hce as <-.
      cbn [snd]. by destruct (is_router_failure e).
Qed.

(** The tiers a request may climb, in order. *)
Definition ladder_of req : list FetchTier :=
  let strategy := FetchRequest.strategy req in
  let attempted := http_tier_attempted strategy (FetchRequest.skip_http req) in
  [TierApiRecipe; TierArchive] ++ (if attempted then [TierHttp] else [])
  ++ (if bool_decide (strategy = Http_) then []
      else TierBrowser :: (if escalating strategy && negb attempted then [TierHttp] else []))
  ++ (if bool_decide (strategy = AutoWithResearch) then [TierClaude] else []).

Lemma browser_calls_in_ladder req fell cs :
  browser_calls req fell cs →
  map call_tier cs `sublist_of`
    (if bool_decide (FetchRequest.strategy req = Http_) then []
     else TierBrowser :: (if escalating (FetchRequest.strategy req)
                             && negb (http_tier_attempted (FetchRequest.strategy req) (FetchRequest.skip_http req))
                          then [TierHttp] else [])).
Proof.
  intros [[-> Hs]|[(Hs & r & -> & _)|(Hs & Hk & r & b & r' & ->)]].
  - apply sublist_nil_l.
  - rewrite bool_decide_false by done. cbn. apply sublist_skip, sublist_nil_l.
  - rewrite bool_decide_false by (by destruct (FetchRequest.strategy req)).
    unfold http_tier_attempted. rewrite Hs, Hk, bool_decide_false by (by destruct (FetchRequest.strategy req)).
    cbn. reflexivity.
Qed.

(** What the ladder comes to, given what it has climbed. *)
Definition ladder_done req s s' (r : result Error FetchOutcome.t) : Prop :=
  ∃ cs ts, moved s cs ts s' ∧ map call_tier cs `sublist_of` ladder_of req
           ∧ match r with
             | Ok out => winning s' cs ts out
             | Err e => Forall entry_lost ts
                        ∧ (FetchRequest.strategy req = Auto → is_router_failure e = false →
                           TierHttp ∈ map TierTrace.tier ts ∧ TierBrowser ∈ map TierTrace.tier ts)
             end.

(** A tier that ends the ladder, after what was climbed. *)
Lemma stepped_done explicit req s s1 s' cs1 ts1 cs2 ts2 r out :
  moved s cs1 ts1 s1 → climbed cs1 ts1 → stepped explicit s1 s' cs2 ts2 r →
  (explicit = true → FetchRequest.strategy req ≠ Auto) →
  (r = Ok (Some out) ∨ ∃ e, r = Err e) →
  map call_tier (cs1 ++ cs2) `sublist_of` ladder_of req →
  ladder_done req s s' (match r with Ok _ => Ok out | Err e => Err e end).
Proof.
  intros Hm Hc Hs He Hr Hsub. destruct (climbed_stepped _ _ _ _ _ _ _ _ _ Hm Hc Hs) as [Hm' Hr'].
  exists (cs1 ++ cs2), (ts1 ++ ts2). split; [done|]. split; [done|].
  destruct Hr as [->|(e & ->)]; [done|]. destruct Hr' as [Hl Hx]. split; [done|].
  intros Ha Hn. exfalso. destruct Hx as [Hx|Hx]; [by apply He|congruence].
Qed.

Lemma recipe_phase req s :
  let res := if recipes_consulted (FetchRequest.use_recipes req) (FetcherConfig.recipes_enabled cfg)
                  (FetcherConfig.xray cfg) (FetchRequest.strategy req)
             then try_recipe cfg req s else (s, None) in
  ∃ cs ts, stepped false s res.1 cs ts (Ok res.2) ∧ map call_tier cs `sublist_of` [TierApiRecipe].
Proof.
  cbn zeta. case_if.
  - destruct (try_recipe_stepped req s) as (cs & ts & Hs & Hc). exists cs, ts. split; [done|].
    destruct Hc as [->|(r & ->)]; [apply sublist_nil_l|reflexivity].
  - exists [], []. split; [apply stepped_still|apply sublist_nil_l].
Qed.
Lemma http_phase req min_chars s :
  let attempted := http_tier_attempted (FetchRequest.strategy req) (FetchRequest.skip_http req) in
  let res := if attempted then try_http_tier req min_chars s else (s, Ok None) in
  ∃ cs ts, stepped (bool_decide (FetchRequest.strategy req = Http_)) s res.1 cs ts res.2
           ∧ map call_tier cs = if attempted then [TierHttp] else [].
Proof.
  cbn zeta. case_if.
  - destruct (try_http_stepped req min_chars s) as (r & ts & Hs & _). by eexists _, ts.
  - exists [], []. split; [apply stepped_still|done].
Qed.

Lemma exhausted_done req s cs ts s' spend :
  moved s cs ts s' → climbed cs ts → map call_tier cs `sublist_of` ladder_of req →
  (FetchRequest.strategy req = Auto → TierHttp ∈ map call_tier cs ∧ TierBrowser ∈ map call_tier cs) →
  ladder_done req s s'
    (Err (ladder_exhausted (FetchRequest.url req) (Ladder.trace s') (Ladder.escalations s') spend)).
Proof.
  intros Hm [Hc Hl] Hsub Hauto. exists cs, ts. split; [done|]. split; [done|]. split; [done|].
  intros Ha _. rewrite <- Hc. by apply Hauto.
Qed.

(** Parts that follow the ladder's parts follow the ladder. *)
Lemma in_ladder req (lr la lh lb lc : list FetchTier) :
  lr `sublist_of` [TierApiRecipe] → la `sublist_of` [TierArchive] →
  lh `sublist_of` (if http_tier_attempted (FetchRequest.strategy req) (FetchRequest.skip_http req)
                   then [TierHttp] else []) →
  lb `sublist_of`
    (if bool_decide (FetchRequest.strategy req = Http_) then []
     else TierBrowser :: (if escalating (FetchRequest.strategy req)
                             && negb (http_tier_attempted (FetchRequest.strategy req) (FetchRequest.skip_http req))
                          then [TierHttp] else [])) →
  lc `sublist_of` (if bool_decide (FetchRequest.strategy req = AutoWithResearch) then [TierClaude] else []) →
  (((lr ++ la) ++ lh) ++ lb) ++ lc `sublist_of` ladder_of req.
Proof.
  intros Hr Ha Hh Hb Hc. rewrite <- !app_assoc. unfold ladder_of. cbn zeta.
  change ([TierApiRecipe; TierArchive] ++ ?l) with ([TierApiRecipe] ++ [TierArchive] ++ l).
  by repeat (apply sublist_app; [assumption|]).
Qed.

Lemma fetch_tiers_done clock req s :
  ladder_done req s (fetch_tiers cfg clock req s).1 (fetch_tiers cfg clock req s).2.
Proof.
  unfold fetch_tiers. set (min_chars := default _ _). set (any := outcome "" req None "" None None s).
  destruct (recipe_phase req s) as (cr & tr & Hr & Hcr). revert Hr.
  destruct (if recipes_consulted _ _ _ _ then _ else _) as [s1 [out|]]; cbn [fst snd]; intros Hr.
  { apply (stepped_done false req s s s1 [] [] cr tr _ out (moved_refl s) (conj eq_refl (Forall_nil_2 _)) Hr);
      [done|by left|]. pose proof (in_ladder req (map call_tier cr) [] [] [] [] Hcr) as Hin.
    rewrite !app_nil_r in Hin. apply Hin; apply sublist_nil_l. }
  destruct Hr as [Hm1 Hc1].
  destruct (try_archive_stepped req min_chars s1) as (ca & ta & Ha & Hca').
  assert (map call_tier ca `sublist_of` [TierArchive]) as Hca
    by (destruct Hca' as [->|(r & ->)]; [apply sublist_nil_l|reflexivity]).
  assert (map call_tier (cr ++ ca) `sublist_of` ladder_of req) as Hsub2.
  { pose proof (in_ladder req _ _ [] [] [] Hcr Hca) as Hin. rewrite !app_nil_r in Hin. rewrite map_app.
    apply Hin; apply sublist_nil_l. }
  destruct (try_archive req min_chars s1) as [s2 [[out|]|e]]; cbn [fst snd] in *.
  { by apply (stepped_done false req s s1 s2 cr tr ca ta _ out Hm1 Hc1 Ha); [|left|]. }
  2: { by apply (stepped_done false req s s1 s2 cr tr ca ta _ any Hm1 Hc1 Ha); [|right; eexists|]. }
  destruct (climbed_stepped _ _ _ _ _ _ _ _ _ Hm1 Hc1 Ha) as [Hm2 Hc2].
  destruct (http_phase req min_chars s2) as (ch & th & Hh & Hch). cbn zeta in Hh, Hch. revert Hh.
  assert (map call_tier ((cr ++ ca) ++ ch) `sublist_of` ladder_of req) as Hsub3.
  { rewrite !map_app. pose proof (in_ladder req _ _ (map call_tier ch) [] [] Hcr Hca) as Hin.
    rewrite !app_nil_r in Hin. apply Hin; [by rewrite Hch|apply sublist_nil_l..]. }
  destruct (if http_tier_attempted _ _ then try_http_tier req min_chars s2 else _) as [s3 [[out|]|e]]; cbn [fst snd]; intros Hh.
  { by apply (stepped_done (bool_decide (FetchRequest.strategy req = Http_)) req s s2 s3 _ _ ch th _ out Hm2 Hc2 Hh);
      [intros Hx; breflect; congruence|left|]. }
  2: { by apply (stepped_done (bool_decide (FetchRequest.strategy req = Http_)) req s s2 s3 _ _ ch th _ any Hm2 Hc2 Hh);
      [intros Hx; breflect; congruence|right; eexists|]. }
  destruct (climbed_stepped _ _ _ _ _ _ _ _ _ Hm2 Hc2 Hh) as [Hm3 Hc3].
  destruct (try_browser_stepped clock req min_chars s3) as (cb & tb & Hb & Hcb). cbn zeta in Hb, Hcb.
  pose proof (browser_calls_in_ladder _ _ _ Hcb) as Hcb'.
  assert (map call_tier (((cr ++ ca) ++ ch) ++ cb) `sublist_of` ladder_of req) as Hsub4.
  { rewrite !map_app. pose proof (in_ladder req _ _ (map call_tier ch) (map call_tier cb) [] Hcr Hca) as Hin.
    rewrite app_nil_r in Hin. apply Hin; [by rewrite Hch|exact Hcb'|apply sublist_nil_l]. }
  destruct (try_browser cfg clock req min_chars s3) as [s4 [[out|]|e]]; cbn [fst snd] in *.
  { apply (stepped_done (negb (escalating (FetchRequest.strategy req))) req s s3 s4 _ _ cb tb _ out Hm3 Hc3 Hb);
      [by intros Hx Ha'; rewrite Ha' in Hx|by left|done]. }
  2: { apply (stepped_done (negb (escalating (FetchRequest.strategy req))) req s s3 s4 _ _ cb tb _ any Hm3 Hc3 Hb);
      [by intros Hx Ha'; rewrite Ha' in Hx|right; by eexists|done]. }
  destruct (climbed_stepped _ _ _ _ _ _ _ _ _ Hm3 Hc3 Hb) as [Hm4 Hc4].
  destruct (try_claude_stepped req s4) as (cc & tc & Hc & Hcc & _).
  assert (map call_tier ((((cr ++ ca) ++ ch) ++ cb) ++ cc) `sublist_of` ladder_of req) as Hsub5.
  { rewrite !map_app. apply in_ladder; [done|done|by rewrite Hch|exact Hcb'|by rewrite Hcc]. }
  destruct (try_claude req s4) as [s5 [[[out|] spend]|e]]; cbn [fst snd] in *.
  { by apply (stepped_done false req s s4 s5 _ _ cc tc _ out Hm4 Hc4 Hc); [|left|]. }
  2: { by apply (stepped_done false req s s4 s5 _ _ cc tc _ any Hm4 Hc4 Hc); [|right; eexists|]. }
  destruct (climbed_stepped _ _ _ _ _ _ _ _ _ Hm4 Hc4 Hc) as [Hm5 Hc5].
  apply (exhausted_done req s _ _ s5 spend Hm5 Hc5 Hsub5).
  intros Hauto. rewrite !map_app, !elem_of_app, Hch. unfold http_tier_attempted. rewrite Hauto.
  destruct Hcb as [[_ Hx]|[(_ & r & -> & Hfell)|(_ & Hskip & r & b & r' & ->)]].
  - congruence.
  - rewrite (Hfell eq_refl Hauto). cbn. set_solver.
  - cbn. set_solver.
Qed.

(** *** The money of the paid tier *)

Definition asked_claude (cs : list EngineCall) : Prop := TierClaude ∈ map call_tier cs.
Lemma not_asked_moved s cs ts s' (l : list FetchTier) :
  moved s cs ts s' → map call_tier cs `sublist_of` l → TierClaude ∉ l →
  ¬ asked_claude (Ladder.calls s) → ¬ asked_claude (Ladder.calls s').
Proof.
  intros [Hc _] Hsub Hl Hs. unfold asked_claude in *. rewrite Hc, map_app, elem_of_app. intros [Hx|Hx]; [done|].
  apply Hl. by eapply elem_of_submseteq, sublist_submseteq.
Qed.

(** A Claude call that failed decides what the fetch answers. *)
Lemma failed_claude_ends clock req s ce :
  (∀ r g, (claude_client r g).2 = Err ce) → ¬ asked_claude (Ladder.calls s) →
  let res := fetch_tiers cfg clock req s in
  asked_claude (Ladder.calls res.1) →
  res.2 = Err (if is_router_failure ce then ce
               else ladder_exhausted (FetchRequest.url req) (Ladder.trace res.1) (Ladder.escalations res.1)
                      (claude_spend ce)).
Proof.
  intros Hce Hs0. cbn zeta. unfold fetch_tiers. set (min_chars := default _ _).
  destruct (recipe_phase req s) as (cr & tr & [Hm1 _] & Hcr). cbn zeta in Hm1. revert Hm1.
  destruct (if recipes_consulted _ _ _ _ then try_recipe cfg req s else _) as [s1 [out|]]; cbn [fst snd]; intros Hm1;
    pose proof (not_asked_moved _ _ _ _ _ Hm1 Hcr ltac:(set_solver) Hs0) as Hs1; [done|].
  destruct (try_archive_stepped req min_chars s1) as (ca & ta & [Hm2 _] & Hca).
  assert (map call_tier ca `sublist_of` [TierArchive]) as Hca'
    by (destruct Hca as [->|(r & ->)]; [apply sublist_nil_l|reflexivity]).
  destruct (try_archive req min_chars s1) as [s2 [[out|]|e]]; cbn [fst snd] in *;
    pose proof (not_asked_moved _ _ _ _ _ Hm2 Hca' ltac:(set_solver) Hs1) as Hs2; [done| |done].
  destruct (http_phase req min_chars s2) as (ch & th & [Hm3 _] & Hch). cbn zeta in Hm3, Hch. revert Hm3.
  assert (map call_tier ch `sublist_of` [TierHttp]) as Hch'
    by (rewrite Hch; case_if; [done|apply sublist_nil_l]).
  destruct (if http_tier_attempted _ _ then try_http_tier req min_chars s2 else _) as [s3 [[out|]|e]];
    cbn [fst snd]; intros Hm3;
    pose proof (not_asked_moved _ _ _ _ _ Hm3 Hch' ltac:(set_solver) Hs2) as Hs3; [done| |done].
  destruct (try_browser_stepped clock req min_chars s3) as (cb & tb & [Hm4 _] & Hcb). cbn zeta in Hm4, Hcb.
  assert (map call_tier cb `sublist_of` [TierBrowser; TierHttp]) as Hcb'.
  { destruct Hcb as [[-> _]|[(_ & r & -> & _)|(_ & _ & r & b & r' & ->)]];
      [apply sublist_nil_l|apply sublist_skip, sublist_nil_l|reflexivity]. }
  destruct (try_browser cfg clock req min_chars s3) as [s4 [[out|]|e]]; cbn [fst snd] in *;
    pose proof (not_asked_moved _ _ _ _ _ Hm4 Hcb' ltac:(set_solver) Hs3) as Hs4; [done| |done].
  destruct (try_claude_stepped req s4) as (cc & tc & [Hm5 _] & _ & Hspend). cbn zeta in Hm5, Hspend.
  specialize (Hspend ce Hce). destruct (decide (cc = [])) as [->|Hne].
  - destruct Hm5 as [Hc5 _]. rewrite app_nil_r in Hc5.
    destruct (try_claude req s4) as [s5 [[[out|] spend]|e]]; cbn [fst snd] in *; rewrite Hc5; done.
  - specialize (Hspend Hne). destruct (try_claude req s4) as [s5 won]. cbn [fst snd] in *. subst won.
    intros _. by destruct (is_router_failure ce).
Qed.

(** Claude is asked for an [AutoWithResearch] fetch only, and with its ceiling. *)
Definition told req s : Prop :=
  ∀ r, ToClaude r ∈ Ladder.calls s →
    FetchRequest.strategy req = AutoWithResearch ∧ ResearchRequest.max_budget_usd r = FetchRequest.max_budget_usd req.
Lemma told_moved req s cs ts s' (l : list FetchTier) :
  moved s cs ts s' → map call_tier cs `sublist_of` l → TierClaude ∉ l → told req s → told req s'.
Proof.
  intros [Hc _] Hsub Hl Hs r Hr. rewrite Hc, elem_of_app in Hr. destruct Hr as [Hr|Hr]; [by apply Hs|].
  destruct Hl. eapply elem_of_submseteq, sublist_submseteq; [|exact Hsub].
  apply list_elem_of_fmap. by exists (ToClaude r).
Qed.
Lemma try_claude_told req s : told req s → told req (try_claude req s).1.
Proof.
  intros Hs. unfold try_claude. destruct (bool_decide_reflect (FetchRequest.strategy req = AutoWithResearch)) as [Ha|];
    cbn [negb]; [|exact Hs].
  set (research := upd _ _ _). destruct (call_moved (ToClaude research) (claude_client research) s) as (s1 & -> & Hm).
  assert (told req s1) as Ht.
  { destruct Hm as [Hc _]. intros r Hr. rewrite Hc, elem_of_app in Hr. destruct Hr as [Hr|Hr]; [by apply Hs|].
    apply list_elem_of_singleton in Hr. by injection Hr as ->. }
  by destruct (claude_client research (Ladder.governor s)) as [[g l] [out|e]].
Qed.
Lemma fetch_tiers_told clock req s : told req s → told req (fetch_tiers cfg clock req s).1.
Proof.
  intros Hs. unfold fetch_tiers. set (min_chars := default _ _).
  destruct (recipe_phase req s) as (cr & tr & [Hm1 _] & Hcr). cbn zeta in Hm1. revert Hm1.
  destruct (if recipes_consulted _ _ _ _ then try_recipe cfg req s else _) as [s1 [out|]]; cbn [fst snd]; intros Hm1;
    pose proof (told_moved _ _ _ _ _ _ Hm1 Hcr ltac:(set_solver) Hs) as Hs1; [done|].
  destruct (try_archive_stepped req min_chars s1) as (ca & ta & [Hm2 _] & Hca).
  assert (map call_tier ca `sublist_of` [TierArchive]) as Hca'
    by (destruct Hca as [->|(r & ->)]; [apply sublist_nil_l|reflexivity]).
  destruct (try_archive req min_chars s1) as [s2 [[out|]|e]]; cbn [fst snd] in *;
    pose proof (told_moved _ _ _ _ _ _ Hm2 Hca' ltac:(set_solver) Hs1) as Hs2; [done| |done].
  destruct (http_phase req min_chars s2) as (ch & th & [Hm3 _] & Hch). cbn zeta in Hm3, Hch. revert Hm3.
  assert (map call_tier ch `sublist_of` [TierHttp]) as Hch'
    by (rewrite Hch; case_if; [done|apply sublist_nil_l]).
  destruct (if http_tier_attempted _ _ then try_http_tier req min_chars s2 else _) as [s3 [[out|]|e]];
    cbn [fst snd]; intros Hm3;
    pose proof (told_moved _ _ _ _ _ _ Hm3 Hch' ltac:(set_solver) Hs2) as Hs3; [done| |done].
  destruct (try_browser_stepped clock req min_chars s3) as (cb & tb & [Hm4 _] & Hcb). cbn zeta in Hm4, Hcb.
  assert (map call_tier cb `sublist_of` [TierBrowser; TierHttp]) as Hcb'.
  { destruct Hcb as [[-> _]|[(_ & r & -> & _)|(_ & _ & r & b & r' & ->)]];
      [apply sublist_nil_l|apply sublist_skip, sublist_nil_l|reflexivity]. }
  destruct (try_browser cfg clock req min_chars s3) as [s4 [[out|]|e]]; cbn [fst snd] in *;
    pose proof (told_moved _ _ _ _ _ _ Hm4 Hcb' ltac:(set_solver) Hs3) as Hs4; [done| |done].
  pose proof (try_claude_told req s4 Hs4) as Hs5.
  by destruct (try_claude req s4) as [s5 [[[out|] spend]|e]].
Qed.
Lemma fetch_told clock req g recipes peer_served local_fallback :
  told req (fetch cfg clock req g recipes peer_served local_fallback).1.
Proof. apply fetch_tiers_told. intros r Hr. by apply not_elem_of_nil in Hr. Qed.

Lemma ladder_of_NoDup req : NoDup (ladder_of req).
Proof.
  unfold ladder_of, http_tier_attempted.
  destruct (FetchRequest.strategy req), (FetchRequest.skip_http req); cbn;
    repeat (apply NoDup_cons; split; [set_solver|]); apply NoDup_nil_2.
Qed.

Lemma fetch_calls clock req g recipes peer_served local_fallback :
  NoDup (map call_tier (Ladder.calls (fetch cfg clock req g recipes peer_served local_fallback).1)).
Proof.
  unfold fetch. set (s0 := Ladder.mk R [] [] g recipes peer_served local_fallback []).
  destruct (fetch_tiers_done clock req s0) as (cs & ts & [Hc _] & Hsub & _). rewrite Hc.
  eapply sublist_NoDup; [apply (ladder_of_NoDup req)|exact Hsub].
Qed.

(** ** The guarantees *)


(** C23: Money spent is money reported: when the Claude tier was asked and failed after spending,
    the fetch fails with an error that carries exactly that spend to the ledger. *)
Theorem failed_spend_reaches_the_caller clock req g recipes peer_served local_fallback ce spend event s' r :
  (∀ research g, (claude_client research g).2 = Err ce) →
  claude_spend ce = Some spend → ClaudeSpend.ledger_event spend = Some event →
  fetch cfg clock req g recipes peer_served local_fallback = (s', r) →
  TierClaude ∈ map call_tier (Ladder.calls s') →
  ∃ e, r = Err e ∧ claude_spend e = Some spend.
Proof.
  intros Hce Hspend Hevent Hf Hasked. unfold fetch in Hf.
  pose proof (failed_claude_ends clock req (Ladder.mk R [] [] g recipes peer_served local_fallback []) ce Hce
                ltac:(apply not_elem_of_nil)) as Hend.
  cbn zeta in Hend. rewrite Hf in Hend. cbn [fst snd] in Hend. rewrite (Hend Hasked). eexists. split; [done|].
  case_if; [done|]. unfold ladder_exhausted. by rewrite Hspend, Hevent.
Qed.
End ladder.

(** ** A concrete ladder *)

Module FetcherDemo.
#[local] Instance lower : Unicode := ascii_lower.
#[local] Instance urls : UrlLib := {|
  Url := string; url_parse := Some; scheme _ := "http"%string; host_str _ := Some "h"%string; port _ := None;
  url_path u := u; url_query _ := None; query_pairs _ := []; set_fragment_none u := u; set_query _ u := u;
  set_path _ u := u; url_to_string u := u |}.
#[local] Instance tree : HtmlTree := Text.
#[local] Instance to_md : ToMarkdown := λ s, s.
#[local] Instance render : JsonRender := λ _, EmptyString.
#[local] Instance parse : JsonParse := λ _, None.
#[local] Instance form : FormUrlEncoded := λ s, s.
#[local] Instance source : RecipeSource api_recipes := store_source DEFAULT_RETIRE_AFTER 0.
Definition clock : Clock.t := Clock.mk 0 0 0 0.
Definition cfg : FetcherConfig.t := FetcherConfig.mk false false 3 5 false.
Definition timed_out : Error := claude_spent Timeout (Some (f64_of_Z 2)) "timed out".
#[local] Instance engines : Engines := {|
  http_client _ g := (g, 7, Ok (TierResponse.mk 200 [] "thin" false));
  remote_client := None; archive_client := None;
  browser_client _ g := (g, 9, Ok (RenderedPage.mk "captcha" []));
  claude_client _ g := (g, 11, Err timed_out) |}.
Definition research : FetchRequest.t := (FetchRequest.new "u") <| FetchRequest.strategy := AutoWithResearch |>.

Lemma failed_spend_reaches_the_caller_witness :
  let '(s', r) := fetch cfg clock research GovernorDemo.fresh ([] : api_recipes) 0 0 in
  map call_tier (Ladder.calls s') = [TierHttp; TierBrowser; TierClaude]
  ∧ ∃ e, r = Err e ∧ claude_spend e = Some (mkClaudeSpend (Some (f64_of_Z 2)) Timeout).
Proof.
  destruct (fetch cfg clock research GovernorDemo.fresh ([] : api_recipes) 0 0) as [s' r] eqn:Hf.
  assert (map call_tier (Ladder.calls s') = [TierHttp; TierBrowser; TierClaude]) as Hcalls
    by (vm_compute in Hf; injection Hf as <- <-; reflexivity).
  split; [exact Hcalls|].
  refine (failed_spend_reaches_the_caller cfg clock research GovernorDemo.fresh [] 0 0 timed_out
            (mkClaudeSpend (Some (f64_of_Z 2)) Timeout) _ s' r (λ _ _, eq_refl) eq_refl eq_refl Hf _).
  rewrite Hcalls. right. right. left.
Defined.
End FetcherDemo.
