(* ===== verification/Cassette.v ===== *)
(** * Cassette: recording a run, and answering from the recording

    [crates/core/src/vcr.rs]: the entries of a cassette, the recorder with its caps, and the
    loader a replay resolves against.  The file is its lines; an entry's line is [serde_json]'s.
    Whether a file operation worked is an argument of the step that makes it. *)

From stdpp Require Import gmap pretty.
From S2P Require Import Prelude Float64 Json Errors Jobs Records Triggers Simhash Robots Filters Fetcher.

Definition CASSETTE_VERSION : Z := 1.
Definition ENTRY_CAP_BYTES : Z := 4 * 1024 * 1024.
Definition TOTAL_CAP_BYTES : Z := 128 * 1024 * 1024.
Definition METHOD_GET : string := "GET".
Definition METHOD_RESEARCH : string := "RESEARCH".
Definition NUL : string := String "000"%char EmptyString.

Module CassetteEntry.
Record t : Type := mk {
  v : Z; url : string; method : string; req_hash : string; status : option Z;
  headers : list (string * string); engine : string; body : option Json; detail : option string;
  recorded_truncated : bool }.
#[global] Instance eta_entry : Eta t := λ e,
  mk (v e) (url e) (method e) (req_hash e) (status e) (headers e) (engine e) (body e) (detail e)
    (recorded_truncated e).
End CassetteEntry.

(** The line of an entry, and the entry of a line. *)
Class CassetteCodec := {
  entry_line : CassetteEntry.t → string;
  read_line : string → option CassetteEntry.t }.

(** The lines on disk; [None]: no file. *)
Abbreviation cassette_file := (option (list string)).
Definition file_bytes (f : cassette_file) : Z :=
  foldr (λ l n, Z.of_nat (String.length l) + 1 + n) 0 (default [] f).

Inductive CassetteStart : Type := Fresh | Resume.
Module Recorder.
Record t : Type := mk { entry_cap : Z; total_cap : Z; start : CassetteStart; written : option Z }.
#[global] Instance eta_recorder : Eta t := λ r, mk (entry_cap r) (total_cap r) (start r) (written r).
Definition with_caps_starting (entry_cap total_cap : Z) (start : CassetteStart) : t :=
  mk (Z.max entry_cap 1) (Z.max total_cap 1) start None.
Definition new : t := with_caps_starting ENTRY_CAP_BYTES TOTAL_CAP_BYTES Fresh.
Definition resuming : t := with_caps_starting ENTRY_CAP_BYTES TOTAL_CAP_BYTES Resume.
End Recorder.
Module Cassette.
Record t : Type := mk { replay_of : Uuid; entries : gmap string CassetteEntry.t; unreadable : Z }.
End Cassette.

Section cassette.
Context `{Sha256, CassetteCodec, UuidText}.
Implicit Types (entry : CassetteEntry.t) (replay_of : Uuid).

Definition req_hash (method key : string) : string := sha256_hex (method +:+ NUL +:+ key).

Definition string_field (k : string) (v : option string) : list (string * Json) :=
  match v with Some s => [(k, JString s)] | None => [] end.
Definition fetch_entry (o : FetchOutcome.t) : CassetteEntry.t :=
  CassetteEntry.mk CASSETTE_VERSION (FetchOutcome.url o) METHOD_GET (req_hash METHOD_GET (FetchOutcome.url o))
    (FetchOutcome.status o)
    (match FetchOutcome.snapshot o with
     | Some p =>
         map_of_list ((FETCHED_VIA_HEADER, SnapshotProvenance.via p)
                        :: (match SnapshotProvenance.captured_at p with
                            | Some ts => [(SNAPSHOT_TS_HEADER, ts)]
                            | None => []
                            end))
     | None => []
     end)
    (FetchOutcome.engine o)
    (Some (json_object (string_field "html" (FetchOutcome.html o) ++ string_field "markdown" (FetchOutcome.markdown o)
                          ++ string_field "text" (FetchOutcome.text o))))
    None false.
Definition research_entry (key : string) (req : ResearchRequest.t) (out : ResearchOutput.t) : CassetteEntry.t :=
  CassetteEntry.mk CASSETTE_VERSION EmptyString METHOD_RESEARCH (req_hash METHOD_RESEARCH key) None [] "claude"
    (Some (json_object (("text"%string, JString (ResearchOutput.text out))
                          :: match ResearchOutput.json out with Some j => [("json"%string, j)] | None => [] end)))
    (Some (String.concat "" (take 120 (chars (ResearchRequest.prompt req))))) false.

Definition body_str (field : string) entry : option string :=
  b ← CassetteEntry.body entry; v ← json_get field b; Json.as_str v.
Definition display_of entry : string :=
  if String.eqb (CassetteEntry.url entry) "" then default "<request>"%string (CassetteEntry.detail entry)
  else CassetteEntry.url entry.

Definition is_hex_digest (s : string) : bool :=
  (String.length s =? 64)%nat && all_chars (λ a, in_range 48 57 a || in_range 97 102 a) s.
(** [None]: the entry is intact. *)
Definition entry_defect entry : option string :=
  let named := (CassetteEntry.method entry +:+ " " +:+ display_of entry)%string in
  if (CassetteEntry.v entry =? 0) || (CASSETTE_VERSION <? CassetteEntry.v entry) then
    Some ("entry for " +:+ named +:+ " declares cassette format v" +:+ pretty (CassetteEntry.v entry)
            +:+ ", but this build understands up to v" +:+ pretty CASSETTE_VERSION)%string
  else if negb (is_hex_digest (CassetteEntry.req_hash entry)) then
    Some ("entry for " +:+ named +:+ " carries a req_hash that is not a sha256 digest ("
            +:+ quoted (CassetteEntry.req_hash entry) +:+ ")")%string
  else if String.eqb (CassetteEntry.method entry) METHOD_GET then
    let computed := req_hash METHOD_GET (CassetteEntry.url entry) in
    if String.eqb computed (CassetteEntry.req_hash entry) then None
    else
      Some ("entry for GET " +:+ CassetteEntry.url entry +:+ " is filed under req_hash "
              +:+ CassetteEntry.req_hash entry +:+ " but its own method+url hash to " +:+ computed
              +:+ " — it would be served for a request it is not a recording of")%string
  else None.

(** ** Back to an answer *)

Definition truncated_miss entry replay_of : Error :=
  ReplayMiss ("recorded response for " +:+ CassetteEntry.method entry +:+ " " +:+ display_of entry +:+ " in job "
                +:+ uuid_text replay_of +:+ "'s cassette was truncated at "
                +:+ "record time (over the size cap) — its body is gone and cannot be replayed").
Definition engine_tier (s : string) : option FetchTier :=
  List.find (λ t, String.eqb (tier_as_str t) s) [TierApiRecipe; TierArchive; TierHttp; TierBrowser; TierClaude].

Definition to_fetch_outcome entry replay_of : result Error FetchOutcome.t :=
  match engine_tier (CassetteEntry.engine entry) with
  | None =>
      Err (ReplayMiss ("cassette entry for " +:+ CassetteEntry.url entry +:+ " names unknown engine "
                         +:+ quoted (CassetteEntry.engine entry)))
  | Some tier =>
      if negb (is_some (CassetteEntry.body entry)) then Err (truncated_miss entry replay_of)
      else
        Ok (FetchOutcome.mk (CassetteEntry.url entry) (tier_as_str tier) (CassetteEntry.status entry)
              (body_str "html" entry) (body_str "markdown" entry) (body_str "text" entry) []
              [TierTrace.mk tier VOk (CassetteEntry.status entry) None None 0 None
                 (Some ("vcr replay of job " +:+ uuid_text replay_of)%string)]
              None (snapshot_provenance (CassetteEntry.headers entry)) [])
  end.
Definition to_research_output entry replay_of : result Error ResearchOutput.t :=
  match CassetteEntry.body entry with
  | None => Err (truncated_miss entry replay_of)
  | Some body =>
      Ok (ResearchOutput.mk (default EmptyString (body_str "text" entry)) (json_get "json" body)
            (Some f64_zero) (Some 0) None None None)
  end.

(** ** Recording *)

(** [removable]: the earlier attempt's file could be deleted. *)
Definition ensure_started (removable : bool) (r : Recorder.t) (f : cassette_file) : Recorder.t * cassette_file :=
  if is_some (Recorder.written r) then (r, f)
  else
    match Recorder.start r with
    | Fresh => (r <| Recorder.written := Some 0 |>, if removable then None else f)
    | Resume => (r <| Recorder.written := Some (file_bytes f) |>, f)
    end.
(** [appendable]: the write reached the file. *)
Definition record_entry (removable appendable : bool) entry (r : Recorder.t) (f : cassette_file) :
    Recorder.t * cassette_file :=
  let '(r, f) := ensure_started removable r f in
  let so_far := default 0 (Recorder.written r) in
  let size := Z.of_nat (String.length (entry_line entry)) in
  let entry :=
    if (Recorder.entry_cap r <? size) || (Recorder.total_cap r <? so_far + size)
    then entry <| CassetteEntry.body := None |> <| CassetteEntry.recorded_truncated := true |> else entry in
  let line := entry_line entry in
  if appendable then
    (r <| Recorder.written := Some (so_far + (Z.of_nat (String.length line) + 1)) |>, Some (default [] f ++ [line]))
  else (r, f).

(** ** Loading *)

(** The first recording of a request wins. *)
Definition or_insert entry (m : gmap string CassetteEntry.t) : gmap string CassetteEntry.t :=
  match m !! CassetteEntry.req_hash entry with
  | Some _ => m
  | None => <[CassetteEntry.req_hash entry := entry]> m
  end.
Fixpoint load_lines (path : string) replay_of (n : nat) (lines : list string)
    (entries : gmap string CassetteEntry.t) (unreadable : Z) : result Error (gmap string CassetteEntry.t * Z) :=
  match lines with
  | [] => Ok (entries, unreadable)
  | line :: lines =>
      if String.eqb (str_trim line) "" then load_lines path replay_of (S n) lines entries unreadable
      else
        match read_line line with
        | None => load_lines path replay_of (S n) lines entries (unreadable + 1)
        | Some entry =>
            match entry_defect entry with
            | Some defect =>
                Err (ReplayMiss ("job " +:+ uuid_text replay_of +:+ "'s cassette at " +:+ path
                                   +:+ " is not trustworthy: line " +:+ pretty (S n) +:+ " " +:+ defect))
            | None => load_lines path replay_of (S n) lines (or_insert entry entries) unreadable
            end
        end
  end.
(** [why]: what the file system said of a file it could not read. *)
Definition load (path why : string) replay_of (f : cassette_file) : result Error Cassette.t :=
  match f with
  | None =>
      Err (ReplayMiss ("job " +:+ uuid_text replay_of +:+ " has no cassette at " +:+ path +:+ " (" +:+ why
                         +:+ ") — was it enqueued with record: true?"))
  | Some lines =>
      '(entries, unreadable) ← load_lines path replay_of 0 lines ∅ 0;
      if bool_decide (entries = ∅) then
        Err (ReplayMiss ("job " +:+ uuid_text replay_of +:+ "'s cassette at " +:+ path
                           +:+ " holds no readable entries (" +:+ pretty unreadable +:+ " unreadable line(s))"))
      else Ok (Cassette.mk replay_of entries unreadable)
  end.

Definition resolve (method key display : string) (c : Cassette.t) : result Error CassetteEntry.t :=
  match Cassette.entries c !! req_hash method key with
  | None =>
      Err (ReplayMiss ("no recorded response for " +:+ method +:+ " " +:+ display +:+ " in job "
                         +:+ uuid_text (Cassette.replay_of c) +:+ "'s cassette ("
                         +:+ pretty (size (Cassette.entries c))
                         +:+ " entries) — replay never falls through to a live fetch"))
  | Some entry =>
      if CassetteEntry.recorded_truncated entry || negb (is_some (CassetteEntry.body entry))
      then Err (truncated_miss entry (Cassette.replay_of c)) else Ok entry
  end.
End cassette.

Inductive Vcr : Type := VcrOff | VcrRecord | VcrReplay (c : Cassette.t).

(** ** A recorded run replays as itself

    What the recorder wrote is what the loader serves: each request gets the first answer it was
    recorded with, or the typed miss of an entry over the caps; and a cassette whose entries
    disagree with themselves is refused. *)

Section recording.
Context `{Sha256, CassetteCodec, UuidText}.
Context (digest_law : ∀ s, is_hex_digest (sha256_hex s) = true).
Implicit Types (o : FetchOutcome.t) (os : list FetchOutcome.t) (e : CassetteEntry.t).

Definition marker_of e : CassetteEntry.t :=
  e <| CassetteEntry.body := None |> <| CassetteEntry.recorded_truncated := true |>.
Definition entry_for o e : Prop := e = fetch_entry o ∨ e = marker_of (fetch_entry o).
Definition line_bytes o : Z := Z.of_nat (String.length (entry_line (fetch_entry o))) + 1.

(** A run records its fetches in order, every write landing. *)
Definition record_run os (rf : Recorder.t * cassette_file) : Recorder.t * cassette_file :=
  foldl (λ '(r, f) o, record_entry true true (fetch_entry o) r f) rf os.

(** The file after a prefix of the run. *)
Definition holds (r : Recorder.t) (f : cassette_file) os : Prop :=
  ∃ es, f = Some (map entry_line es) ∧ Forall2 entry_for os es
        ∧ (Forall (λ o, line_bytes o ≤ Recorder.entry_cap r) os →
           foldr (λ o n, line_bytes o + n) 0 os ≤ Recorder.total_cap r →
           es = map fetch_entry os
           ∧ Recorder.written r = Some (foldr (λ o n, line_bytes o + n) 0 os)).
Definition fresh_start (r : Recorder.t) : Prop := Recorder.start r = Fresh ∧ Recorder.written r = None.
Definition recorded r f os : Prop := (os = [] ∧ fresh_start r) ∨ (is_some (Recorder.written r) = true ∧ holds r f os).

Lemma sum_bytes_app os o :
  foldr (λ o n, line_bytes o + n) 0 (os ++ [o]) = foldr (λ o n, line_bytes o + n) 0 os + line_bytes o.
Proof. induction os as [|o' os IH]; cbn; [lia|]. rewrite IH. lia. Qed.
Lemma line_bytes_pos o : 0 < line_bytes o.
Proof. unfold line_bytes. lia. Qed.

(** The recorder's start, and what the file says before the first write. *)
Lemma started r f os :
  recorded r f os →
  let '(r1, f1) := ensure_started true r f in
  is_some (Recorder.written r1) = true ∧ Recorder.entry_cap r1 = Recorder.entry_cap r
  ∧ Recorder.total_cap r1 = Recorder.total_cap r
  ∧ ∃ es, default [] f1 = map entry_line es ∧ Forall2 entry_for os es
          ∧ (Forall (λ o, line_bytes o ≤ Recorder.entry_cap r) os →
             foldr (λ o n, line_bytes o + n) 0 os ≤ Recorder.total_cap r →
             es = map fetch_entry os
             ∧ Recorder.written r1 = Some (foldr (λ o n, line_bytes o + n) 0 os)).
Proof.
  unfold ensure_started. intros [[-> [Hs Hw]]|[Hw (es & -> & Hes)]].
  - rewrite Hw. cbn. rewrite Hs. split; [done|]. split; [done|]. split; [done|]. exists []. by repeat split.
  - rewrite Hw. split; [done|]. split; [done|]. split; [done|]. by exists es.
Qed.

Lemma record_step r f os o :
  recorded r f os →
  let '(r', f') := record_entry true true (fetch_entry o) r f in
  recorded r' f' (os ++ [o]) ∧ Recorder.entry_cap r' = Recorder.entry_cap r
  ∧ Recorder.total_cap r' = Recorder.total_cap r.
Proof.
  intros Hr. pose proof (started r f os Hr) as Hst. unfold record_entry.
  destruct (ensure_started true r f) as [r1 f1]. destruct Hst as (Hw & He & Ht & es & Hf & Hes & Hexact).
  set (big := (Recorder.entry_cap r1 <? _) || _). set (e := if big then _ else _).
  split; [|by split]. right. split; [done|].
  exists (es ++ [e]). split; [by rewrite Hf, map_app|]. split.
  { apply Forall2_app; [done|]. apply Forall2_cons. split; [|by apply Forall2_nil]. unfold e, entry_for. destruct big; [by right|by left]. }
  cbn. rewrite He, Ht. intros Hcaps Htotal. apply Forall_app in Hcaps as [Hcaps Ho].
  apply Forall_cons in Ho as [Ho _]. rewrite sum_bytes_app in Htotal. pose proof (line_bytes_pos o).
  destruct Hexact as [-> Hwr]; [done|lia|].
  assert (big = false) as Hbig.
  { unfold big. rewrite Hwr, He, Ht. cbn. pose proof (eq_refl (line_bytes o)) as Hb.
    unfold line_bytes at 1 in Hb. breflect. split; lia. }
  unfold e. rewrite Hbig, map_app, sum_bytes_app, Hwr. split; [done|]. cbn. f_equal.
Qed.

Lemma run_recorded os : ∀ r f os0,
  recorded r f os0 →
  let '(r', f') := record_run os (r, f) in
  recorded r' f' (os0 ++ os) ∧ Recorder.entry_cap r' = Recorder.entry_cap r
  ∧ Recorder.total_cap r' = Recorder.total_cap r.
Proof.
  induction os as [|o os IH]; intros r f os0 Hr; cbn; [by rewrite app_nil_r|].
  pose proof (record_step r f os0 o Hr) as Hstep.
  destruct (record_entry true true (fetch_entry o) r f) as [r1 f1]. destruct Hstep as (Hr1 & He & Ht).
  specialize (IH r1 f1 (os0 ++ [o]) Hr1). unfold record_run in IH. destruct (foldl _ (r1, f1) os) as [r' f'].
  rewrite <- app_assoc in IH. cbn in IH. by rewrite <- He, <- Ht.
Qed.

(** *** Loading what was recorded *)

Lemma entry_for_hash o e :
  entry_for o e → CassetteEntry.req_hash e = req_hash METHOD_GET (FetchOutcome.url o).
Proof. by intros [->| ->]. Qed.
Lemma entry_for_intact o e : entry_for o e → entry_defect e = None.
Proof.
  intros He. unfold entry_defect.
  assert (CassetteEntry.v e = 1 ∧ CassetteEntry.method e = METHOD_GET
          ∧ CassetteEntry.url e = FetchOutcome.url o) as (-> & -> & Hu) by by destruct He as [->| ->].
  cbn. rewrite (entry_for_hash o e He), Hu. unfold req_hash at 1. rewrite digest_law. cbn.
  by rewrite String.eqb_refl.
Qed.

(** [serde_json] reads back the line it wrote, and the line is not blank. *)
Definition readable e : Prop := read_line (entry_line e) = Some e ∧ str_trim (entry_line e) ≠ EmptyString.
Lemma load_intact path job es : ∀ n m u,
  Forall (λ e, entry_defect e = None ∧ readable e) es →
  load_lines path job n (map entry_line es) m u = Ok (foldl (λ m e, or_insert e m) m es, u).
Proof.
  induction es as [|e es IH]; intros n m u Hes; [done|]. apply Forall_cons in Hes as [(He & Hread & Hline) Hes].
  cbn [map load_lines]. case_if; [by breflect|]. rewrite Hread, He. by apply IH.
Qed.

Lemma or_insert_keeps e m h x : m !! h = Some x → or_insert e m !! h = Some x.
Proof.
  intros Hx. unfold or_insert. destruct (m !! CassetteEntry.req_hash e) eqn:E; [done|].
  rewrite lookup_insert_ne; [done|]. intros Heq. rewrite Heq in E. congruence.
Qed.
Lemma inserts_keep es h x : ∀ m, m !! h = Some x → foldl (λ m e, or_insert e m) m es !! h = Some x.
Proof. induction es as [|e es IH]; intros m Hx; [done|]. cbn. by apply IH, or_insert_keeps. Qed.
Lemma first_wins es1 e es2 m h :
  CassetteEntry.req_hash e = h → Forall (λ e', CassetteEntry.req_hash e' ≠ h) es1 → m !! h = None →
  foldl (λ m e, or_insert e m) m (es1 ++ e :: es2) !! h = Some e.
Proof.
  intros He. revert m. induction es1 as [|e1 es1 IH]; intros m Hes Hm; cbn.
  - apply inserts_keep. unfold or_insert. rewrite He, Hm. by rewrite lookup_insert_eq.
  - apply Forall_cons in Hes as [He1 Hes]. apply IH; [done|]. unfold or_insert.
    destruct (m !! CassetteEntry.req_hash e1); [done|]. by rewrite lookup_insert_ne.
Qed.

(** What a replay makes of a recorded outcome. *)
Definition replayed (job : Uuid) (tier : FetchTier) o : FetchOutcome.t :=
  FetchOutcome.mk (FetchOutcome.url o) (FetchOutcome.engine o) (FetchOutcome.status o) (FetchOutcome.html o)
    (FetchOutcome.markdown o) (FetchOutcome.text o) []
    [TierTrace.mk tier VOk (FetchOutcome.status o) None None 0 None
       (Some ("vcr replay of job " +:+ uuid_text job)%string)]
    None (FetchOutcome.snapshot o) [].
(** A provenance as [snapshot_provenance] makes them: nothing blank, nothing to trim. *)
Definition says_something (v : string) : Prop := str_trim v = v ∧ v ≠ EmptyString.
Definition clean_snapshot (p : SnapshotProvenance.t) : Prop :=
  says_something (SnapshotProvenance.via p)
  ∧ from_option says_something True (SnapshotProvenance.captured_at p).

Lemma engine_tier_str t : engine_tier (tier_as_str t) = Some t.
Proof. by destruct t. Qed.
Lemma provenance_read v ts :
  says_something v → from_option says_something True ts →
  snapshot_provenance ((FETCHED_VIA_HEADER, v)
                         :: (match ts with Some ts => [(SNAPSHOT_TS_HEADER, ts)] | None => [] end))
    = Some (SnapshotProvenance.mk v ts).
Proof.
  intros [Hv Hne] Hts. apply String.eqb_neq in Hne. unfold snapshot_provenance. cbn [foldl].
  rewrite Hv, Hne. change (header_is FETCHED_VIA_HEADER FETCHED_VIA_HEADER) with true. cbn [andb].
  destruct ts as [ts|]; [|reflexivity]. destruct Hts as [Ht Hte]. apply String.eqb_neq in Hte. cbn [foldl].
  rewrite Ht, Hte. change (header_is SNAPSHOT_TS_HEADER FETCHED_VIA_HEADER) with false.
  by change (header_is SNAPSHOT_TS_HEADER SNAPSHOT_TS_HEADER) with true.
Qed.
Lemma snapshot_roundtrip o :
  from_option clean_snapshot True (FetchOutcome.snapshot o) →
  snapshot_provenance (CassetteEntry.headers (fetch_entry o)) = FetchOutcome.snapshot o.
Proof.
  unfold fetch_entry. cbn [CassetteEntry.headers].
  destruct (FetchOutcome.snapshot o) as [[via ts]|]; [|done]. intros [Hv Ht].
  cbn [SnapshotProvenance.via SnapshotProvenance.captured_at from_option] in *.
  rewrite <- (provenance_read via ts Hv Ht). by destruct ts.
Qed.
Lemma fetch_entry_roundtrip job tier o :
  FetchOutcome.engine o = tier_as_str tier →
  from_option clean_snapshot True (FetchOutcome.snapshot o) →
  to_fetch_outcome (fetch_entry o) job = Ok (replayed job tier o).
Proof.
  intros He Hs. unfold to_fetch_outcome. rewrite snapshot_roundtrip by done.
  change (CassetteEntry.engine (fetch_entry o)) with (FetchOutcome.engine o).
  rewrite He, engine_tier_str. unfold replayed. rewrite He.
  unfold body_str. cbn [fetch_entry CassetteEntry.body is_some negb CassetteEntry.url CassetteEntry.status].
  destruct (FetchOutcome.html o), (FetchOutcome.markdown o), (FetchOutcome.text o); reflexivity.
Qed.

Lemma run_loads path why job l1 o l2 :
  (∀ o' e, o' ∈ l1 ++ o :: l2 → entry_for o' e → readable e) →
  Forall (λ o', req_hash METHOD_GET (FetchOutcome.url o') ≠ req_hash METHOD_GET (FetchOutcome.url o)) l1 →
  ∃ c e, load path why job (record_run (l1 ++ o :: l2) (Recorder.new, None)).2 = Ok c
         ∧ Cassette.replay_of c = job
         ∧ Cassette.entries c !! req_hash METHOD_GET (FetchOutcome.url o) = Some e ∧ entry_for o e
         ∧ (Forall (λ o, line_bytes o ≤ ENTRY_CAP_BYTES) (l1 ++ o :: l2) →
            foldr (λ o n, line_bytes o + n) 0 (l1 ++ o :: l2) ≤ TOTAL_CAP_BYTES → e = fetch_entry o).
Proof.
  intros Hread Hfirst. set (os := l1 ++ o :: l2) in *.
  assert (recorded Recorder.new None []) as Hstart by by left.
  pose proof (run_recorded os Recorder.new None [] Hstart) as Hrun.
  destruct (record_run os (Recorder.new, None)) as [r f]. destruct Hrun as (Hrec & Hec & Htc). cbn [app snd] in *.
  destruct Hrec as [[Hbad _]|[_ (es & -> & Hes & Hexact)]]; [by destruct l1|].
  rewrite Hec, Htc in Hexact.
  assert (Forall (λ e, entry_defect e = None ∧ readable e) es) as Hintact.
  { apply Forall_forall. intros e He. apply list_elem_of_lookup in He as [i Hi].
    destruct (Forall2_lookup_r _ _ _ _ _ Hes Hi) as (o' & Ho' & Hfor).
    split; [by eapply entry_for_intact|]. eapply Hread; [|exact Hfor]. by apply list_elem_of_lookup_2 in Ho'. }
  apply Forall2_app_inv_l in Hes as (es1 & es2' & Hes1 & Hes2 & Hsplit).
  apply Forall2_cons_inv_l in Hes2 as (e & es2 & He & Hes2 & ->).
  assert (foldl (λ m e, or_insert e m) ∅ es !! req_hash METHOD_GET (FetchOutcome.url o) = Some e) as Hlook.
  { rewrite Hsplit. apply first_wins; [by apply entry_for_hash| |apply lookup_empty].
    clear -Hes1 Hfirst. induction Hes1 as [|o' e' l1 es1 He' _ IH]; [constructor|].
    apply Forall_cons in Hfirst as [Ho' Hfirst]. constructor; [by rewrite (entry_for_hash o' e')|by apply IH]. }
  exists (Cassette.mk job (foldl (λ m e, or_insert e m) ∅ es) 0), e. split_and!; try done.
  - unfold load. rewrite load_intact by done. cbn. rewrite bool_decide_false; [done|].
    intros Hempty. rewrite Hempty, lookup_empty in Hlook. done.
  - intros Hcaps Htotal. destruct (Hexact Hcaps Htotal) as [Heq _]. unfold os in Heq.
    rewrite Hsplit, map_app in Heq. apply app_inj_1 in Heq as [_ Heq]; [by injection Heq|].
    rewrite length_map. symmetry. by eapply Forall2_length.
Qed.
End recording.

(** ** The guarantees *)

Section guarantees.
Context `{Sha256, CassetteCodec, UuidText}.

(** C33: A recorded fetch replays as itself: after any recorded run, loading its cassette and asking
    for an address answers the first outcome recorded for it - body, status, engine and archive
    provenance - at no cost and with nothing live behind it, or, when its entry went over a cap,
    with the typed miss of a truncated entry; within the caps it is never a miss. *)
Theorem recorded_fetch_replays path why job l1 o l2 tier display :
  (∀ o' e, o' ∈ l1 ++ o :: l2 → entry_for o' e → readable e) →
  (∀ s, is_hex_digest (sha256_hex s) = true) →
  Forall (λ o', req_hash METHOD_GET (FetchOutcome.url o') ≠ req_hash METHOD_GET (FetchOutcome.url o)) l1 →
  FetchOutcome.engine o = tier_as_str tier → from_option clean_snapshot True (FetchOutcome.snapshot o) →
  let os := l1 ++ o :: l2 in
  ∃ c, load path why job (record_run os (Recorder.new, None)).2 = Ok c
       ∧ let answer := (entry ← resolve METHOD_GET (FetchOutcome.url o) display c; to_fetch_outcome entry job) in
         (answer = Ok (replayed job tier o) ∨ answer = Err (truncated_miss (marker_of (fetch_entry o)) job))
         ∧ (Forall (λ o, line_bytes o ≤ ENTRY_CAP_BYTES) os →
            foldr (λ o n, line_bytes o + n) 0 os ≤ TOTAL_CAP_BYTES → answer = Ok (replayed job tier o)).
Proof.
  intros Hread Hdigest Hfirst He Hs. cbn zeta.
  destruct (run_loads Hdigest path why job l1 o l2 Hread Hfirst) as (c & e & Hc & Hjob & Hlook & Hfor & Hcaps).
  exists c. split; [exact Hc|]. unfold resolve. rewrite Hlook, Hjob. split.
  - destruct Hfor as [->| ->]; [left|by right]. cbn [mbind result_bind].
    exact (fetch_entry_roundtrip job tier o He Hs).
  - intros H1' H2'. rewrite (Hcaps H1' H2'). exact (fetch_entry_roundtrip job tier o He Hs).
Qed.
End guarantees.

(** ** A concrete cassette *)

Module CassetteDemo.
#[local] Instance uuid : UuidText := λ _, "job"%string.
(** Not a digest, but one of the right shape for each text that starts differently. *)
Definition digits : string := "000000000000000000000000000000000000000000000000000000000000000".
#[local] Instance sha : Sha256 := λ s, (digits +:+ if contains "two" s then "2" else "1")%string.
Lemma digest_shape s : is_hex_digest (sha256_hex s) = true.
Proof. unfold sha256_hex, sha. by destruct (contains "two" s). Qed.

Definition page : FetchOutcome.t :=
  FetchOutcome.mk "one" "http" (Some 200) (Some "<p>1</p>"%string) None None ["egress"%string] [] None None [].
Definition other : FetchOutcome.t :=
  FetchOutcome.mk "two" "archive" (Some 200) (Some "<p>2</p>"%string) None None [] [] None
    (Some (SnapshotProvenance.mk "archive" (Some "2019"%string))) [].

#[local] Instance codec : CassetteCodec := {|
  entry_line e :=
    (if String.eqb (CassetteEntry.url e) "one" then "1" else "2")
      +:+ (if is_some (CassetteEntry.body e) then "full" else "cut");
  read_line l :=
    List.find (λ e, String.eqb l ((if String.eqb (CassetteEntry.url e) "one" then "1" else "2")
                                    +:+ (if is_some (CassetteEntry.body e) then "full" else "cut")))
      [fetch_entry page; marker_of (fetch_entry page); fetch_entry other; marker_of (fetch_entry other)] |}.
Lemma recorded_fetch_replays_witness :
  ∃ c, load "cassette.ndjson" "gone" 7 (record_run [page; other; page] (Recorder.new, None)).2 = Ok c
       ∧ (entry ← resolve METHOD_GET "two" "two" c; to_fetch_outcome entry 7) = Ok (replayed 7 TierArchive other).
Proof.
  destruct (recorded_fetch_replays "cassette.ndjson" "gone" 7 [page] other [page] TierArchive "two") as (c & Hc & _ & Hall).
  - intros o e Ho He. apply elem_of_cons in Ho as [->|Ho];
      [|apply elem_of_cons in Ho as [->|Ho]; [|apply list_elem_of_singleton in Ho as ->]];
      destruct He as [->| ->]; (split; [reflexivity|vm_compute; discriminate]).
  - exact digest_shape.
  - apply Forall_cons. split; [vm_compute; discriminate|]. apply Forall_nil. exact I.
  - reflexivity.
  - split; [split; [vm_compute; reflexivity|discriminate]|split; [vm_compute; reflexivity|discriminate]].
  - exists c. split; [exact Hc|]. apply Hall.
    + repeat (apply Forall_cons; split; [vm_compute; discriminate|]). apply Forall_nil. exact I.
    + vm_compute. discriminate.
Defined.

(** An entry labelled with another method keeps its lie: only [GET] entries are checked against
    their own address, and [resolve] does not look at the method, so it answers a fetch of a
    page it is no recording of. *)
Definition forged : CassetteEntry.t :=
  (fetch_entry other) <| CassetteEntry.method := METHOD_RESEARCH |>
    <| CassetteEntry.req_hash := req_hash METHOD_GET "one" |>.
Lemma forged_entry_is_served :
  entry_defect forged = None
  ∧ resolve METHOD_GET "one" "one" (Cassette.mk 7 (or_insert forged ∅) 0) = Ok forged
  ∧ CassetteEntry.url forged = "two"%string.
Proof. by vm_compute. Qed.
End CassetteDemo.
