(* ===== verification/Caches.v ===== *)
(** * Caches: answers kept instead of asked for again

    [crates/core/src/cache.rs]: the HTTP response cache with its revalidation log, the
    freshness model folded from it and the row cap, and the cache of paid research answers. *)

From stdpp Require Import gmap pretty.
From S2P Require Import Prelude Float64 Sql Json Filters Jitter Records Simhash Robots Errors Jobs Fetcher.

(** ** Requests and responses *)

Inductive HttpMethod : Type := Get | Post.
#[global] Instance HttpMethod_eq_dec : EqDecision HttpMethod.
Proof. solve_decision. Defined.

Module WebRequest.
(** An [HttpRequest]; the headers in the map's own order. *)
Record t : Type := mk {
  url : string; method : HttpMethod; headers : list (string * string); body : option string;
  no_cache : bool; ttl_override : option Z; etag : option string; if_modified_since : option string;
  max_body_bytes : option Z; timeout_secs : option Z; proxy : option string; profile : option string;
  archive_max_age : option Z }.
#[global] Instance eta_web : Eta t := λ r,
  mk (url r) (method r) (headers r) (body r) (no_cache r) (ttl_override r) (etag r) (if_modified_since r)
    (max_body_bytes r) (timeout_secs r) (proxy r) (profile r) (archive_max_age r).
Definition get (url : string) : t := mk url Get [] None false None None None None None None None None.
End WebRequest.
Module WebResponse.
Record t : Type := mk {
  status : Z; headers : list (string * string); body : string; final_url : string; cache_hit : bool }.
#[global] Instance eta_response : Eta t := λ r,
  mk (status r) (headers r) (body r) (final_url r) (cache_hit r).
Definition is_success (r : t) : bool := (200 <=? status r) && (status r <? 300).
End WebResponse.

(** ** Time *)

(** The instants [chrono] can hold, in microseconds; beyond them [+] and [-] panic. *)
Definition DATE_MIN : timestamp := -8334601228800 * 10 ^ 6.
Definition DATE_MAX : timestamp := 8210266876799 * 10 ^ 6 + 999999.
Definition date_checked (t : timestamp) : option timestamp :=
  if (DATE_MIN <=? t) && (t <=? DATE_MAX) then Some t else None.
(** [chrono::Duration::from_std(d).ok()], in microseconds. *)
Definition from_std (d : Duration) : option Z :=
  if d / 10 ^ 6 <=? i64_max then Some (d / 10 ^ 3) else None.
(** [now + from_std(ttl).unwrap_or(fallback)]; [None]: a panic. *)
Definition expiry (now : timestamp) (ttl : Duration) (fallback : Z) : option timestamp :=
  date_checked (now + default fallback (from_std ttl)).
Definition hours (n : Z) : Z := n * 3600 * 10 ^ 6.

(** ** The response cache *)

Definition EVICT_MAX_PER_PASS : Z := 5000.
Definition FRESHNESS_MAX_ROWS : Z := 50000.

Module CacheRow.
Record t : Type := mk {
  key : string; url : string; status : Z; headers : list (string * string); body : string;
  final_url : string; created_at : timestamp; expires_at : timestamp }.
#[global] Instance eta_cache_row : Eta t := λ r,
  mk (key r) (url r) (status r) (headers r) (body r) (final_url r) (created_at r) (expires_at r).
Definition response (r : t) : WebResponse.t :=
  WebResponse.mk (status r) (headers r) (body r) (final_url r) true.
End CacheRow.
Module Revalidation.
Record t : Type := mk { key : string; checked_at : timestamp; changed : bool }.
End Revalidation.
Module HttpCache.
Record t : Type := mk {
  enabled : bool; default_ttl : Duration; max_rows : Z; rows : list CacheRow.t; log : list Revalidation.t }.
#[global] Instance eta_cache : Eta t := λ c, mk (enabled c) (default_ttl c) (max_rows c) (rows c) (log c).
End HttpCache.
Module StaleEntry.
Record t : Type := mk { response : WebResponse.t; etag : option string; last_modified : option string }.
End StaleEntry.

Definition NUL_BYTE : string := String "000"%char EmptyString.
Definition SOH_BYTE : string := String "001"%char EmptyString.
Definition method_debug (m : HttpMethod) : string := match m with Get => "Get" | Post => "Post" end.
Definition key_is (key : string) (r : CacheRow.t) : bool := String.eqb (CacheRow.key r) key.

Section cache.
Context `{Sha256}.
Implicit Types (c : HttpCache.t) (now : timestamp) (req : WebRequest.t).

Definition cache_key req : string :=
  sha256_hex
    (method_debug (WebRequest.method req) +:+ NUL_BYTE +:+ WebRequest.url req +:+ NUL_BYTE
       +:+ default EmptyString (WebRequest.body req) +:+ NUL_BYTE
       +:+ String.concat "" (map (λ kv, kv.1 +:+ SOH_BYTE +:+ kv.2 +:+ NUL_BYTE)
                               (order_by pair_le (WebRequest.headers req)))
       +:+ NUL_BYTE +:+ default EmptyString (WebRequest.proxy req)).

(** [None]: the subtraction panics. *)
Definition cache_get (key : string) (max_age : option Duration) now c : option (option WebResponse.t) :=
  if negb (HttpCache.enabled c) then Some None
  else
    min_created ← match max_age ≫= from_std with
                  | Some d => t ← date_checked (now - d); Some (Some t)
                  | None => Some None
                  end;
    Some (CacheRow.response <$>
            head (select_where (λ r, key_is key r && (now <? CacheRow.expires_at r)
                                     && match min_created with
                                        | Some m => m <? CacheRow.created_at r
                                        | None => true
                                        end) (HttpCache.rows c))).
Definition stored_header (name : string) (headers : list (string * string)) : option string :=
  snd <$> List.find (λ kv, header_is kv.1 name) headers.
Definition get_stale (key : string) c : option StaleEntry.t :=
  if negb (HttpCache.enabled c) then None
  else
    r ← lookup_by CacheRow.key key (HttpCache.rows c);
    Some (StaleEntry.mk (CacheRow.response r) (stored_header "etag" (CacheRow.headers r))
            (stored_header "last-modified" (CacheRow.headers r))).

Definition record_revalidation (key : string) (changed : bool) now c : HttpCache.t :=
  if negb (HttpCache.enabled c) then c
  else c <| HttpCache.log ::= λ l, l ++ [Revalidation.mk key now changed] |>.
Definition refresh (key : string) (ttl : Duration) now c : option HttpCache.t :=
  if negb (HttpCache.enabled c) then Some c
  else
    expires ← expiry now ttl (hours 1);
    Some (record_revalidation key false now
            (c <| HttpCache.rows ::= update_where (key_is key)
                    (λ r, r <| CacheRow.expires_at := expires |> <| CacheRow.created_at := now |>) |>)).
Definition prune_revalidations (retention_days : Z) now c : HttpCache.t * Z :=
  let cutoff := now - days (Z.max retention_days 1) in
  let p := λ r, Revalidation.checked_at r <? cutoff in
  (c <| HttpCache.log ::= delete_where p |>, rows_affected p (HttpCache.log c)).

Definition put (key url : string) (resp : WebResponse.t) (ttl : Duration) now c : option HttpCache.t :=
  if negb (HttpCache.enabled c) || negb (WebResponse.is_success resp) then Some c
  else
    expires ← expiry now ttl (hours 1);
    let row := CacheRow.mk key url (WebResponse.status resp) (WebResponse.headers resp) (WebResponse.body resp)
                 (WebResponse.final_url resp) now expires in
    Some (c <| HttpCache.rows ::= λ rows,
            if existsb (key_is key) rows
            then update_where (key_is key) (λ r, row <| CacheRow.url := CacheRow.url r |>) rows
            else rows ++ [row] |>).
Definition purge_expired now c : HttpCache.t * Z :=
  let p := λ r, CacheRow.expires_at r <=? now in
  (c <| HttpCache.rows ::= delete_where p |>, rows_affected p (HttpCache.rows c)).

(** Least recently confirmed first. *)
Definition older_row (a b : CacheRow.t) : bool :=
  (CacheRow.created_at a <? CacheRow.created_at b)
  || ((CacheRow.created_at a =? CacheRow.created_at b) && String.leb (CacheRow.key a) (CacheRow.key b)).
Definition evict_over_cap c : HttpCache.t * Z :=
  if HttpCache.max_rows c =? 0 then (c, 0)
  else
    let over := Z.of_nat (length (HttpCache.rows c)) - Z.min (HttpCache.max_rows c) i64_max in
    if over <=? 0 then (c, 0)
    else
      let doomed := map CacheRow.key (sql_limit (Z.min over EVICT_MAX_PER_PASS)
                                        (order_by older_row (HttpCache.rows c))) in
      let p := λ r, existsb (String.eqb (CacheRow.key r)) doomed in
      (c <| HttpCache.rows ::= delete_where p |>, rows_affected p (HttpCache.rows c)).
End cache.

(** ** Freshness *)

Definition EWMA_ALPHA : f64 := f64_div (f64_of_Z 3) (f64_of_Z 10).
Definition ewma_update (prev : option f64) (gap_secs : f64) : f64 :=
  match prev with
  | None => gap_secs
  | Some p => f64_add (f64_mul EWMA_ALPHA gap_secs) (f64_mul (f64_sub (f64_of_Z 1) EWMA_ALPHA) p)
  end.

Module KeyFreshness.
Record t : Type := mk {
  key : string; url : string; checks : Z; changes : Z; last_checked_at : timestamp;
  last_change_at : option timestamp; interval_secs : option f64; predicted_next_change : timestamp;
  due_in_secs : f64 }.
End KeyFreshness.
Module FreshnessFold.
Record t : Type := mk {
  key : string; url : string; checks : Z; changes : Z; last_checked_at : option timestamp;
  last_change_at : option timestamp; ewma_secs : option f64 }.
#[global] Instance eta_fold : Eta t := λ f,
  mk (key f) (url f) (checks f) (changes f) (last_checked_at f) (last_change_at f) (ewma_secs f).
Definition new (key url : string) : t := mk key url 0 0 None None None.
End FreshnessFold.

(** [num_seconds], [num_milliseconds]: whole units, towards zero. *)
Definition num_seconds (micros : Z) : Z := Z.quot micros (10 ^ 6).
Definition num_milliseconds (micros : Z) : Z := Z.quot micros (10 ^ 3).
Definition observe_check (at_ : timestamp) (changed : bool) (f : FreshnessFold.t) : FreshnessFold.t :=
  let f := f <| FreshnessFold.checks ::= Z.succ |> <| FreshnessFold.last_checked_at := Some at_ |> in
  if changed then
    let f := f <| FreshnessFold.changes ::= Z.succ |> in
    let f := match FreshnessFold.last_change_at f with
             | Some prev =>
                 let gap := f64_of_Z (Z.max (num_seconds (at_ - prev)) 1) in
                 f <| FreshnessFold.ewma_secs ::= λ e, Some (ewma_update e gap) |>
             | None => f
             end in
    f <| FreshnessFold.last_change_at := Some at_ |>
  else f.
(** The magnitude of a positive double, as [as i64] truncates it. *)
Definition secs_of_f64 (x : f64) : Z := Z.min (f64_trunc x) i64_max.
Definition finish (now : timestamp) (prior_secs : f64) (f : FreshnessFold.t) : KeyFreshness.t :=
  let last_checked_at := default now (FreshnessFold.last_checked_at f) in
  let interval := f64_max (default prior_secs (FreshnessFold.ewma_secs f)) (f64_of_Z 1) in
  let anchor := default last_checked_at (FreshnessFold.last_change_at f) in
  let predicted := anchor + seconds (secs_of_f64 interval) in
  KeyFreshness.mk (FreshnessFold.key f) (FreshnessFold.url f) (FreshnessFold.checks f) (FreshnessFold.changes f)
    last_checked_at (FreshnessFold.last_change_at f) (FreshnessFold.ewma_secs f) predicted
    (f64_div (f64_of_Z (num_milliseconds (predicted - now))) (f64_of_Z 1000)).

(** The log against the stored entries, by key and time, cut at the row bound. *)
Definition by_key_time (a b : string * string * timestamp * bool) : bool :=
  String.ltb a.1.1.1 b.1.1.1 || (String.eqb a.1.1.1 b.1.1.1 && (a.1.2 <=? b.1.2)).
Definition logged_rows (c : HttpCache.t) : list (string * string * timestamp * bool) :=
  sql_limit FRESHNESS_MAX_ROWS
    (order_by by_key_time
       (flat_map (λ r, map (λ h, (Revalidation.key r, CacheRow.url h, Revalidation.checked_at r,
                                  Revalidation.changed r))
                         (select_where (key_is (Revalidation.key r)) (HttpCache.rows c))) (HttpCache.log c))).
Definition fold_row (now : timestamp) (prior_secs : f64)
    (acc : list KeyFreshness.t * option FreshnessFold.t) (row : string * string * timestamp * bool) :
    list KeyFreshness.t * option FreshnessFold.t :=
  let '(key, url, at_, changed) := row in
  let '(out, cur) := acc in
  let '(out, f) :=
    match cur with
    | Some f => if String.eqb (FreshnessFold.key f) key then (out, f)
                else (out ++ [finish now prior_secs f], FreshnessFold.new key url)
    | None => (out, FreshnessFold.new key url)
    end in
  (out, Some (observe_check at_ changed f)).
Definition due_first (a b : KeyFreshness.t) : bool :=
  negb (f64_gt (KeyFreshness.due_in_secs a) (KeyFreshness.due_in_secs b)).
Definition freshness (now : timestamp) (limit : nat) (c : HttpCache.t) : list KeyFreshness.t :=
  let prior_secs := f64_max (as_secs_f64 (HttpCache.default_ttl c)) (f64_of_Z 60) in
  let '(out, cur) := foldl (fold_row now prior_secs) ([], None) (logged_rows c) in
  take limit (order_by due_first (out ++ option_list (finish now prior_secs <$> cur))).

(** ** Research answers *)

Module ResearchRow.
Record t : Type := mk {
  key : string; text : string; json : option Json; cost_usd : option f64; created_at : timestamp;
  expires_at : timestamp }.
End ResearchRow.
Module ResearchCache.
Record t : Type := mk { ttl : Duration; rows : list ResearchRow.t }.
#[global] Instance eta_research_cache : Eta t := λ c, mk (ttl c) (rows c).
Definition enabled (c : t) : bool := negb (ttl c =? 0).
End ResearchCache.

Section research.
Context `{Sha256, JsonRender}.
Definition research_key (req : ResearchRequest.t) : string :=
  sha256_hex
    (String.concat "" (map (λ part, part +:+ NUL_BYTE)
       [ResearchRequest.prompt req; default EmptyString (ResearchRequest.append_system_prompt req);
        default EmptyString (ResearchRequest.role req); default EmptyString (ResearchRequest.model req);
        default EmptyString (ResearchRequest.effort req)])
     +:+ from_option pretty EmptyString (ResearchRequest.max_turns req) +:+ NUL_BYTE
     +:+ from_option json_render EmptyString (ResearchRequest.json_schema req)).
Definition research_key_with (req : ResearchRequest.t) (fingerprint : string) : string :=
  if String.eqb fingerprint "" then research_key req
  else sha256_hex (research_key req +:+ NUL_BYTE +:+ fingerprint).

Definition research_get (key : string) (now : timestamp) (c : ResearchCache.t) : option ResearchOutput.t :=
  if negb (ResearchCache.enabled c) then None
  else
    (λ r, ResearchOutput.mk (ResearchRow.text r) (ResearchRow.json r) (ResearchRow.cost_usd r) None None None None)
      <$> head (select_where (λ r, String.eqb (ResearchRow.key r) key && (now <? ResearchRow.expires_at r))
                  (ResearchCache.rows c)).
(** [None]: the addition panics. *)
Definition research_put (key : string) (out : ResearchOutput.t) (now : timestamp) (c : ResearchCache.t) :
    option ResearchCache.t :=
  if negb (ResearchCache.enabled c) || String.eqb (ResearchOutput.text out) "" then Some c
  else
    expires ← expiry now (ResearchCache.ttl c) (hours 24);
    let row := ResearchRow.mk key (ResearchOutput.text out) (ResearchOutput.json out) (ResearchOutput.cost_usd out)
                 now expires in
    Some (c <| ResearchCache.rows ::= λ rows,
            if existsb (λ r, String.eqb (ResearchRow.key r) key) rows
            then update_where (λ r, String.eqb (ResearchRow.key r) key) (λ _, row) rows
            else rows ++ [row] |>).
Definition research_purge (now : timestamp) (c : ResearchCache.t) : ResearchCache.t * Z :=
  let p := λ r, ResearchRow.expires_at r <=? now in
  (c <| ResearchCache.rows ::= delete_where p |>, rows_affected p (ResearchCache.rows c)).
End research.
