(* ===== verification/HttpEngine.v ===== *)
(** * HttpEngine: asking over HTTP

    [crates/engine-http/src/lib.rs], with the profile names of [engine.rs]: the cookie jars of
    the session profiles and their write-behind, the pool of clients, the attempts of one
    request under its budget, and the cache in front of them.  The network is a function of
    what was sent; the clocks are arguments. *)

From stdpp Require Import gmap pretty.
From S2P Require Import Prelude Float64 Jitter Json Filters Records Simhash Errors Robots Governor Fetcher Caches.

(** ** Session profiles *)

Definition PROFILE_NAME_MAX_LEN : Z := 64.
Definition name_char (c : string) : bool :=
  match c with
  | String a EmptyString => is_ascii_alphanumeric a || Ascii.eqb a "-"%char || Ascii.eqb a "_"%char
  | _ => false
  end.
Definition validate_profile_name (name : string) : result Error unit :=
  if String.eqb name "" then Err (Profile "name must not be empty")
  else if PROFILE_NAME_MAX_LEN <? Z.of_nat (String.length name) then
    Err (Profile ("name '" +:+ name +:+ "' is longer than " +:+ pretty PROFILE_NAME_MAX_LEN +:+ " chars"))
  else
    match List.find (λ c, negb (name_char c)) (chars name) with
    | Some bad =>
        Err (Profile ("name '" +:+ name +:+ "' contains '" +:+ bad
                        +:+ "'; only ASCII letters, digits, '-' and '_' are allowed"))
    | None => Ok tt
    end.
Definition require_safe_profile_name (name : string) : result Error unit :=
  match validate_profile_name name with
  | Ok _ => Ok tt
  | Err (Profile why) => Err (BadRequest ("profile " +:+ why))
  | Err other => Err other
  end.

(** ** Cookie jars *)

(** [cookie_store]: a jar, what one response's headers leave in it, what it sends, and its
    JSON form, which may fail to be written or read. *)
Class CookieLib := {
  Cookies : Type;
  no_cookies : Cookies;
  cookie_count : Cookies → Z;
  store_response_cookies : list string → string → Cookies → Cookies;
  get_request_values : string → Cookies → list (string * string);
  jar_json : Cookies → result string string;
  read_jar : string → option Cookies }.

Definition MAX_SAVE_RETRIES : Z := 5.
Definition should_retry_save (consecutive_failures : Z) : bool := consecutive_failures <? MAX_SAVE_RETRIES.
Inductive SaveDecision : Type := SaveWrite | NothingToPersist | WouldClobber.
Definition save_decision (cookies_in_memory : Z) (jar_on_disk : bool) : SaveDecision :=
  if cookies_in_memory =? 0 then if jar_on_disk then WouldClobber else NothingToPersist else SaveWrite.

(** What opening the file of a jar gives; [Missing] stands for a missing path too. *)
Inductive Opened : Type := Contents (text : string) | Missing | Unreadable (display : string).

Section jars.
Context `{CookieLib}.

(** A corrupt or missing jar is an empty one. *)
Definition load_jar (path : string) (opened : Opened) : result Error Cookies :=
  match opened with
  | Contents text => Ok (default no_cookies (read_jar text))
  | Missing => Ok no_cookies
  | Unreadable e => Err (Profile ("opening " +:+ path +:+ ": " +:+ e))
  end.
Definition jar_is_empty (jar : Cookies) : bool := cookie_count jar =? 0.
(** [None]: the jar sends no header. *)
Definition cookie_header (url : string) (jar : Cookies) : option string :=
  match get_request_values url jar with
  | [] => None
  | values => Some (String.concat "; " (map (λ '(name, value), (name +:+ "=" +:+ value)%string) values))
  end.
End jars.

(** *** The write-behind of one jar

    The tasks of a jar, at the places where they touch what they share: its cookies, its
    file and the two flags.  A fetch applies what it received, then, if it was answered,
    marks the jar dirty and arms the flusher unless one is armed. *)
Module Flush.
Section flush.
Context `{CookieLib}.

Inductive Task : Type :=
(** [touch], from the response to each of its two flags *)
| Touching
| Arming
(** [flush_loop], asleep or in one of the places of a turn *)
| Sleeping (consecutive_failures : Z)
| Deciding (consecutive_failures : Z)
| Serializing (consecutive_failures : Z)
| Writing (consecutive_failures : Z) (buf : string)
| Retiring (consecutive_failures : Z)
| Rechecking (consecutive_failures : Z)
| Rearming (consecutive_failures : Z).

Record t : Type := mk {
  store : Cookies; file : option string; dirty : bool; flushing : bool; tasks : list Task;
  abandoned : bool }.
#[global] Instance eta_flush : Eta t := λ s,
  mk (store s) (file s) (dirty s) (flushing s) (tasks s) (abandoned s).
(** The jar as it was opened. *)
Definition opened (jar : Cookies) (file : option string) : t := mk jar file false false [] false.

Definition saved (buf : string) (s : t) : t * Task :=
  (s <| file := Some buf |> <| abandoned := false |>, Sleeping 0).
(** A failed save puts the flag back, or is given up. *)
Definition save_failed (n : Z) (s : t) : t * Task :=
  let n := n + 1 in
  (if should_retry_save n then s <| dirty := true |> else s <| abandoned := true |>, Sleeping n).

(** One turn of a task between two others': what becomes of it, and what it starts.  [wrote]:
    whether the file system took the write. *)
Definition turn (wrote : bool) (task : Task) (s : t) : t * list Task :=
  let keep '(s, task) := (s, [task]) in
  match task with
  | Touching => (s <| dirty := true |>, [Arming])
  | Arming => (s <| flushing := true |>, if flushing s then [] else [Sleeping 0])
  | Sleeping n => (s <| dirty := false |>, [if dirty s then Deciding n else Retiring n])
  | Deciding n =>
      match save_decision (cookie_count (store s)) (is_some (file s)) with
      | SaveWrite => (s, [Serializing n])
      | NothingToPersist | WouldClobber => (s, [Sleeping 0])
      end
  | Serializing n =>
      match jar_json (store s) with
      | Ok buf => (s, [Writing n buf])
      | Err _ => keep (save_failed n s)
      end
  | Writing n buf => keep (if wrote then saved buf s else save_failed n s)
  | Retiring n => (s <| flushing := false |>, [Rechecking n])
  | Rechecking n => (s, if dirty s then [Rearming n] else [])
  | Rearming n => (s <| flushing := true |>, if flushing s then [] else [Sleeping n])
  end.

(** What happens next: a response or a redirect on the way to one brings cookies, or the task
    at a place takes its turn. *)
Inductive Event : Type :=
| Received (answered : bool) (set_cookies : list string) (url : string)
| Turn (place : nat) (wrote : bool).
Definition step (ev : Event) (s : t) : t :=
  match ev with
  | Received answered headers url =>
      s <| store ::= store_response_cookies headers url |>
        <| tasks ::= λ l, l ++ if answered then [Touching] else [] |>
  | Turn i wrote =>
      match tasks s !! i with
      | None => s
      | Some task =>
          let '(s', started) := turn wrote task s in
          s' <| tasks := take i (tasks s) ++ started ++ drop (S i) (tasks s) |>
      end
  end.
(** [set_cookies], and [touch] without a pause. *)
Definition receive (headers : list string) (url : string) (s : t) : t :=
  s <| store ::= store_response_cookies headers url |>.
Definition touch (s : t) : t :=
  let '(s, _) := turn true Touching s in
  let '(s, started) := turn true Arming s in
  s <| tasks ::= λ l, l ++ started |>.
End flush.
End Flush.

(** ** Clients *)

Definition MAX_POOLED_CLIENTS : nat := 8.
Definition UNIT_SEPARATOR : string := String "031"%char EmptyString.
Definition pool_key (proxy profile : option string) : string :=
  default EmptyString proxy +:+ UNIT_SEPARATOR +:+ default EmptyString profile.

(** A [reqwest::Client] is what it was built with. *)
Module Client.
Record t : Type := mk { proxy : option string; profile : option string }.
End Client.
(** [Proxy::all] and [build()]: what each refuses. *)
Class ClientBuilder := {
  proxy_all : string → option CauseValue;
  builder_build : Client.t → option CauseValue }.

Module HttpConfig.
Record t : Type := mk {
  timeout_secs : Z; retries : Z; total_budget_secs : Z; max_body_bytes : Z;
  retryable_statuses : list Z; proxy : option string }.
Definition default : t := mk 30 3 300 (16 * 1024 * 1024) [429; 502; 503; 504] None.
End HttpConfig.

Module Engine.
Record t `{CookieLib} : Type := mk {
  governor : Governor.t; cache : HttpCache.t; clients : gmap string Client.t; order : list string;
  jars : gmap string Flush.t }.
#[global] Instance eta_engine `{CookieLib} : Eta t := λ e,
  mk _ (governor e) (cache e) (clients e) (order e) (jars e).
End Engine.

Section clients.
Context `{CookieLib, ClientBuilder} (cfg : HttpConfig.t) (profiles_dir : string) (on_disk : string → Opened).
Implicit Types (e : Engine.t).

Definition build_client (proxy profile : option string) : result Error Client.t :=
  let client := Client.mk proxy profile in
  match proxy, proxy ≫= proxy_all with
  | Some url, Some cause =>
      Err (http_from ("invalid proxy '" +:+ url +:+ "': " +:+ dyn_display (error cause)) cause)
  | _, _ =>
      match builder_build client with
      | Some cause => Err (http_from (dyn_display (error cause)) cause)
      | None => Ok client
      end
  end.

Definition pool_get (key : string) e : Engine.t * option Client.t :=
  match Engine.clients e !! key with
  | Some client => (e <| Engine.order ::= λ o, lru_touch o key |>, Some client)
  | None => (e, None)
  end.
Definition pool_insert (key : string) (client : Client.t) (cap : nat) e : Engine.t :=
  let '(order, evicted) := lru_touch_evict (Engine.order e) key cap in
  e <| Engine.order := order |>
    <| Engine.clients ::= λ m, foldl (λ m k, delete k m) (<[key := client]> m) evicted |>.

Definition cookies_path (name : string) : string := profiles_dir +:+ "/" +:+ name +:+ "/cookies.json".
Definition file_of (opened : Opened) : option string :=
  match opened with Contents text => Some text | _ => None end.
Definition jar_for (name : string) e : Engine.t * result Error unit :=
  match require_safe_profile_name name with
  | Err err => (e, Err err)
  | Ok _ =>
      match Engine.jars e !! name with
      | Some _ => (e, Ok tt)
      | None =>
          match load_jar (cookies_path name) (on_disk name) with
          | Err err => (e, Err err)
          | Ok jar => (e <| Engine.jars ::= <[name := Flush.opened jar (file_of (on_disk name))]> |>, Ok tt)
          end
      end
  end.

Definition client_for (req : WebRequest.t) e : Engine.t * result Error Client.t :=
  let proxy := match WebRequest.proxy req with Some p => Some p | None => HttpConfig.proxy cfg end in
  let pooled e :=
    let key := pool_key proxy (WebRequest.profile req) in
    let '(e, found) := pool_get key e in
    match found with
    | Some client => (e, Ok client)
    | None =>
        match build_client proxy (WebRequest.profile req) with
        | Err err => (e, Err err)
        | Ok client => (pool_insert key client MAX_POOLED_CLIENTS e, Ok client)
        end
    end in
  match WebRequest.profile req with
  | Some name =>
      let '(e, opened) := jar_for name e in
      match opened with Err err => (e, Err err) | Ok _ => pooled e end
  | None =>
      if bool_decide (proxy = HttpConfig.proxy cfg) then (e, Ok (Client.mk (HttpConfig.proxy cfg) None))
      else pooled e
  end.
End clients.

(** ** What is sent and what comes back *)

Module Outgoing.
Record t : Type := mk {
  url : string; method : HttpMethod; headers : list (string * string); body : option string;
  timeout : Duration; client : Client.t; cookies : option string }.
End Outgoing.

Module TransportPredicates.
Record t : Type := mk {
  builder : bool; connect : bool; timeout : bool; redirect : bool; body : bool; decode : bool;
  request : bool }.
End TransportPredicates.
(** A [reqwest::Error] *)
Module WireError.
Record t : Type := mk { predicates : TransportPredicates.t; error : DynError }.
End WireError.
(** A [reqwest::Response]: its headers in order, names in lower case and values in bytes; its
    body in chunks, which may break off. *)
Module Reply.
Record t : Type := mk {
  status : Z; url : string; headers : list (string * string); chunks : list string;
  broken : option WireError.t }.
End Reply.
(** The cookies set on the way, hop by hop, and the outcome. *)
Module Exchange.
Record t : Type := mk { hops : list (list string * string); reply : result WireError.t Reply.t }.
End Exchange.

(** [encoding_rs], with [String::from_utf8_lossy] *)
Class EncodingLib := {
  Encoding : Type;
  for_label : string → option Encoding;
  for_bom : string → option Encoding;
  decode : Encoding → string → string;
  utf8_lossy : string → string }.
(** [chrono]'s two readers of an HTTP date *)
Class HttpDates := {
  imf_fixdate : string → option timestamp;
  rfc2822 : string → option timestamp }.
(** [std]'s [DefaultHasher], whose algorithm is not specified *)
Class DefaultHasher := finish_hash : string → Z.

Definition reqwest_cause (e : WireError.t) : CauseValue :=
  mkCause "reqwest::error::Error" (WireError.error e).
Definition wire_display (e : WireError.t) : string := dyn_display (WireError.error e).
Definition transport_is_deterministic (p : TransportPredicates.t) : bool := TransportPredicates.builder p.
Definition deterministic_transport_error (url : string) (e : WireError.t) : option Error :=
  if transport_is_deterministic (WireError.predicates e) then
    Some (BadRequest (url +:+ " cannot be requested at all: " +:+ wire_display e
                        +:+ ". The URL is unparseable or its scheme is not "
                        +:+ "http(s) — a pure function of the request, so no retry can change it."))
  else None.
Definition transport_error (url : string) (e : WireError.t) : Error :=
  default (http_from (wire_display e) (reqwest_cause e)) (deterministic_transport_error url e).

(** *** Bodies *)

Definition would_exceed_cap (current_len chunk_len cap : Z) : bool := cap <? current_len + chunk_len.
Fixpoint read_bytes_capped (chunks : list string) (broken : option WireError.t) (cap : Z) (url buf : string) :
    result Error string :=
  match chunks with
  | [] => match broken with Some e => Err (http_from (wire_display e) (reqwest_cause e)) | None => Ok buf end
  | chunk :: chunks =>
      if would_exceed_cap (Z.of_nat (String.length buf)) (Z.of_nat (String.length chunk)) cap then
        Err (http ("response body from " +:+ url +:+ " exceeds max_body_bytes cap of " +:+ pretty cap +:+ " bytes"))
      else read_bytes_capped chunks broken cap url (buf +:+ chunk)
  end.

Definition DOUBLE_QUOTE : string := String "034"%char EmptyString.
(** [str::trim_matches] with the two quotes *)
Definition trim_quotes (s : string) : string :=
  let quotes := [DOUBLE_QUOTE; "'"%string] in
  let s := strip_while (String.length s) quotes s in
  String.rev (strip_while (String.length s) quotes (String.rev s)).
Definition charset_param (param : string) : option string :=
  '(k, v) ← split_once "=" param;
  if header_is (str_trim k) "charset" then
    let v := trim_quotes (str_trim v) in
    if String.eqb v "" then None else Some v
  else None.
Definition charset_from_content_type (content_type : string) : option string :=
  head (omap charset_param (drop 1 (split_on ";"%char content_type))).

(** Each byte as the character of its number, in UTF-8. *)
Fixpoint latin1 (s : string) : string :=
  match s with
  | EmptyString => EmptyString
  | String a s =>
      let n := Ascii.N_of_ascii a in
      ((if (n <? 128)%N then String a EmptyString else utf8 [192 + n / 64; 128 + n mod 64]%N) +:+ latin1 s)%string
  end.
Definition str_trim_start (s : string) : string := strip_while (String.length s) white_space s.
Definition ends_label (a : Ascii.ascii) : bool :=
  existsb (Ascii.eqb a) ["034"; "'"; " "; ";"; "/"; ">"]%char.
Fixpoint label_prefix (s : string) : string :=
  match s with
  | EmptyString => EmptyString
  | String a s => if ends_label a then EmptyString else String a (label_prefix s)
  end.
Definition charset_from_meta (head : string) : option string :=
  '(_, after) ← split_once "charset" (ascii_lower (latin1 (String.substring 0 1024 head)));
  after ← strip_prefix "=" (str_trim_start after);
  let after := str_trim_start after in
  let after := default after (strip_any [DOUBLE_QUOTE; "'"%string] after) in
  let label := str_trim (label_prefix after) in
  if String.eqb label "" then None else Some label.

Section decoding.
Context `{EncodingLib}.
Definition decode_body (buf : string) (header_charset : option string) : string :=
  let declared := match header_charset ≫= for_label with
                  | Some enc => Some enc
                  | None => charset_from_meta buf ≫= for_label
                  end in
  match declared with
  | Some enc => decode enc buf
  | None => match for_bom buf with Some enc => decode enc buf | None => utf8_lossy buf end
  end.
Definition read_body_capped (r : Reply.t) (cap : Z) (url : string) (header_charset : option string) :
    result Error string :=
  buf ← read_bytes_capped (Reply.chunks r) (Reply.broken r) cap url EmptyString;
  Ok (decode_body buf header_charset).
End decoding.

(** *** Clocks of one request *)

Definition RETRY_BASE_MS : Z := 500.
Definition RETRY_JITTER_FRAC : f64 := f64_div (f64_of_Z 1) (f64_of_Z 4).
Definition MIN_ATTEMPT_BUDGET : Duration := from_secs 1.
Definition RETRY_AFTER_MAX_SECS : Z := 600.

Definition per_attempt_timeout (req_timeout_secs : option Z) (cfg_timeout_secs : Z) : Duration :=
  from_secs (default cfg_timeout_secs req_timeout_secs).
Definition fetch_budget (total_budget_secs : Z) (per_attempt : Duration) : option Duration :=
  if 0 <? total_budget_secs then Some (Z.max (from_secs total_budget_secs) per_attempt) else None.
Definition saturating_duration_since (later earlier : Instant) : Duration := Z.max 0 (later - earlier).
Definition remaining (deadline : option Instant) (now : Instant) : option Duration :=
  (λ d, saturating_duration_since d now) <$> deadline.
Definition capped_retry_sleep (delay : Duration) (left_ : option Duration) : option Duration :=
  match left_ with
  | None => Some delay
  | Some left_ => if delay + MIN_ATTEMPT_BUDGET <=? left_ then Some delay else None
  end.
Definition attempt_timeout (per_attempt : Duration) (left_ : option Duration) : option Duration :=
  match left_ with
  | None => Some per_attempt
  | Some left_ => if MIN_ATTEMPT_BUDGET <=? left_ then Some (Z.min per_attempt left_) else None
  end.
Definition budget_exhausted (url : string) (elapsed : Duration) (attempts : Z) (budget : option Duration)
    (last_error : string) (stated : option Duration) : Error :=
  let why := if String.eqb last_error "" then "no attempt completed"%string
             else ("last error: " +:+ last_error)%string in
  let message :=
    (url +:+ " exhausted its end-to-end fetch budget ([http] total_budget_secs = "
       +:+ pretty (from_option as_secs 0 budget) +:+ "s) after " +:+ f64_fixed 1 (as_secs_f64 elapsed)
       +:+ "s and " +:+ pretty attempts +:+ " attempt(s) — " +:+ why)%string in
  match stated with Some wait => http_after message wait | None => http message end.

(** [Hash for str] ends a string with 0xff; a [u32] is its four bytes. *)
Definition jitter_seed `{DefaultHasher} (url : string) (attempt : Z) : Z :=
  finish_hash (url +:+ utf8 [255%N] +:+
               utf8 (map (λ i, Z.to_N (Z.land (Z.shiftr attempt (8 * i)) 255)) [0; 1; 2; 3]))%string.
(** The product of finite values never panics. *)
Definition retry_delay (attempt : Z) (retry_after : option Duration) (base_ms seed : Z) : Duration :=
  let exp := Z.min (Z.max (attempt - 1) 0) 20 in
  let backoff := from_millis (saturating_mul_u64 base_ms (saturating_pow_u64 2 exp)) in
  let floor := Z.max backoff (default 0 retry_after) in
  floor + default 0 (mul_f64 floor (f64_mul RETRY_JITTER_FRAC (lcg_f64 seed))).

Section dates.
Context `{HttpDates}.
Definition parse_http_date (raw : string) : option timestamp :=
  match imf_fixdate raw with Some naive => Some naive | None => rfc2822 raw end.
Definition retry_after_value (raw : string) (now : timestamp) : option Duration :=
  match parse_usize raw with
  | Some secs => Some (from_secs (Z.min secs RETRY_AFTER_MAX_SECS))
  | None =>
      when_ ← parse_http_date raw;
      let secs := num_seconds (when_ - now) in
      if secs <=? 0 then Some 0 else Some (from_secs (Z.min secs RETRY_AFTER_MAX_SECS))
  end.
(** [HeaderMap::get], and [HeaderValue::to_str]: visible ASCII and tabs only. *)
Definition header_get (name : string) (headers : list (string * string)) : option string :=
  snd <$> List.find (λ kv, String.eqb kv.1 name) headers.
Definition to_str (value : string) : option string :=
  if all_chars (λ a, in_range 32 126 a || Ascii.eqb a "009"%char) value then Some value else None.
Definition retry_after (r : Reply.t) (now : timestamp) : option Duration :=
  raw ← header_get "retry-after" (Reply.headers r) ≫= to_str;
  retry_after_value (str_trim raw) now.
End dates.

Definition mark_anonymous_profile (headers : list (string * string)) (profile : option string)
    (jar_was_empty : bool) : list (string * string) :=
  let headers := List.filter (λ kv, negb (header_is kv.1 ANONYMOUS_PROFILE_HEADER)) headers in
  match profile with
  | Some name => if jar_was_empty then map_insert ANONYMOUS_PROFILE_HEADER name headers else headers
  | None => headers
  end.

(** ** One request and its attempts *)

(** What an attempt meets: the instants it reads, in order, the network, and the time the
    [Retry-After] of its answer is held against. *)
Module Attempt.
Record t : Type := mk {
  retrying : Instant; giving_up : Instant; acquiring : Instant; evicting : Instant; waking : Instant;
  asking : Instant; out_of_budget : Instant; wire : Outgoing.t → Exchange.t; dated : timestamp;
  settling : Instant }.
End Attempt.

(** The instants of the cache's reads and writes. *)
Module Moments.
Record t : Type := mk { getting : timestamp; refreshing : timestamp; logging : timestamp; putting : timestamp }.
End Moments.

(** What a request does to the outside, in order. *)
Inductive Act : Type :=
| Slept (delay : Duration)
| Asked (at_ : Instant) (out : Outgoing.t) (got : Exchange.t).

Section send.
Context `{CookieLib, ClientBuilder, EncodingLib, HttpDates, DefaultHasher, UrlLib, Unicode}.
Context (cfg : HttpConfig.t) (profiles_dir : string) (on_disk : string → Opened).
Implicit Types (e : Engine.t) (req : WebRequest.t) (env : Attempt.t) (acts : list Act).

Definition in_jar (profile : option string) (f : Flush.t → Flush.t) e : Engine.t :=
  match profile with Some name => e <| Engine.jars ::= alter f name |> | None => e end.
Definition jar_of (profile : option string) e : option Flush.t :=
  name ← profile; Engine.jars e !! name.
Definition on_host (host : option string) (f : string → Governor.t → Governor.t) e : Engine.t :=
  match host with Some host => e <| Engine.governor ::= f host |> | None => e end.
Definition host_of_url req : option string := u ← url_parse (WebRequest.url req); host_str u.

Definition build_request req (client : Client.t) (timeout : Duration) e : Outgoing.t :=
  Outgoing.mk (WebRequest.url req) (WebRequest.method req)
    (WebRequest.headers req
       ++ option_list ((λ v, ("if-none-match"%string, v)) <$> WebRequest.etag req)
       ++ option_list ((λ v, ("if-modified-since"%string, v)) <$> WebRequest.if_modified_since req))
    (WebRequest.body req) timeout client
    (jar_of (WebRequest.profile req) e ≫= cookie_header (WebRequest.url req) ∘ Flush.store).
(** The cookies of every hop are in the jar before the caller sees the answer. *)
Definition receive_hops (profile : option string) (hops : list (list string * string)) e : Engine.t :=
  in_jar profile (λ jar, foldl (λ jar '(headers, url), Flush.receive headers url jar) jar hops) e.

(** Only a refusal slows a host down, only a success speeds it up. *)
Definition teach (host : option string) (status : Z) (ra : option Duration) (now : Instant) e : Engine.t :=
  if (status =? 429) || (status =? 503) then on_host host (λ host g, penalize host ra now g) e
  else if (200 <=? status) && (status <? 300) then on_host host (λ host g, reward host now g) e
  else e.

Definition response_of req (r : Reply.t) (sent_anonymous : bool) : result Error WebResponse.t :=
  let cap := default (HttpConfig.max_body_bytes cfg) (WebRequest.max_body_bytes req) in
  let headers := map_of_list (map (λ kv, (kv.1, utf8_lossy kv.2)) (Reply.headers r)) in
  let headers := mark_anonymous_profile headers (WebRequest.profile req) sent_anonymous in
  let charset := (header_get "content-type" (Reply.headers r) ≫= to_str) ≫= charset_from_content_type in
  body ← read_body_capped r cap (WebRequest.url req) charset;
  Ok (WebResponse.mk (Reply.status r) headers body (Reply.url r) false).

Definition per_attempt_of req : Duration :=
  per_attempt_timeout (WebRequest.timeout_secs req) (HttpConfig.timeout_secs cfg).
Definition space (env : Attempt.t) req e : Engine.t :=
  on_host (host_of_url req)
    (λ host g, (acquire host (Attempt.acquiring env) (Attempt.evicting env) (Attempt.waking env) g).1) e.
(** What is sent, what comes back, and whether it went out without a cookie of its profile. *)
Definition exchange (timeout : Duration) (client : Client.t) env req e : Engine.t * Outgoing.t * Exchange.t * bool :=
  let sent_anonymous := match jar_of (WebRequest.profile req) e with
                        | Some jar => jar_is_empty (Flush.store jar)
                        | None => false
                        end in
  let out := build_request req client timeout e in
  let got := Attempt.wire env out in
  (receive_hops (WebRequest.profile req) (Exchange.hops got) e, out, got, sent_anonymous).

(** The attempts that are left; [attempt] counts from zero. *)
Fixpoint attempts (started : Instant) (deadline : option Instant) (budget : option Duration)
    (client : Client.t) (envs : list Attempt.t) (attempt : Z) req (last_error : string)
    (last_retry_after : option Duration) acts e : Engine.t * list Act * result Error WebResponse.t :=
  let retries := HttpConfig.retries cfg in
  let exhausted now :=
    Err (budget_exhausted (WebRequest.url req) (saturating_duration_since now started) attempt budget
           last_error last_retry_after) in
  match envs with
  | [] =>
      (e, acts, Err (http (WebRequest.url req +:+ " failed after " +:+ pretty (wrap_u32 (retries + 1))
                             +:+ " attempts: " +:+ last_error)))
  | env :: envs =>
      let slept :=
        if 0 <? attempt then
          capped_retry_sleep
            (retry_delay attempt last_retry_after RETRY_BASE_MS (jitter_seed (WebRequest.url req) attempt))
            (remaining deadline (Attempt.retrying env))
        else Some 0 in
      match slept with
      | None => (e, acts, exhausted (Attempt.giving_up env))
      | Some delay =>
          let acts := if 0 <? attempt then acts ++ [Slept delay] else acts in
          let e := space env req e in
          match attempt_timeout (per_attempt_of req) (remaining deadline (Attempt.asking env)) with
          | None => (e, acts, exhausted (Attempt.out_of_budget env))
          | Some timeout =>
              let '(e, out, got, sent_anonymous) := exchange timeout client env req e in
              let acts := acts ++ [Asked (Attempt.asking env) out got] in
              match Exchange.reply got with
              | Ok r =>
                  let e := in_jar (WebRequest.profile req) Flush.touch e in
                  let status := Reply.status r in
                  let ra := retry_after r (Attempt.dated env) in
                  let e := teach (host_of_url req) status ra (Attempt.settling env) e in
                  if existsb (Z.eqb status) (HttpConfig.retryable_statuses cfg) && (attempt <? retries) then
                    attempts started deadline budget client envs (attempt + 1) req
                      ("status " +:+ pretty status) ra acts e
                  else (e, acts, response_of req r sent_anonymous)
              | Err err =>
                  match deterministic_transport_error (WebRequest.url req) err with
                  | Some terminal => (e, acts, Err terminal)
                  | None =>
                      attempts started deadline budget client envs (attempt + 1) req (wire_display err)
                        last_retry_after acts e
                  end
              end
          end
      end
  end.

(** [envs] has what each attempt would meet; no more than [retries + 1] are made. *)
Definition send (started : Instant) (envs : nat → Attempt.t) req e :
    Engine.t * list Act * result Error WebResponse.t :=
  let '(e, client) := client_for cfg profiles_dir on_disk req e in
  match client with
  | Err err => (e, [], Err err)
  | Ok client =>
      let budget := fetch_budget (HttpConfig.total_budget_secs cfg) (per_attempt_of req) in
      let deadline := (λ b, started + b) <$> budget in
      attempts started deadline budget client (map envs (seq 0 (S (Z.to_nat (HttpConfig.retries cfg)))))
        0 req EmptyString None [] e
  end.

(** ** The cache in front *)

Definition cacheable req : bool :=
  bool_decide (WebRequest.method req = Get) && negb (is_some (WebRequest.body req))
  && negb (WebRequest.no_cache req) && negb (is_some (WebRequest.profile req)).

Context `{Sha256} (started : Instant) (envs : nat → Attempt.t) (at_ : Moments.t).

Definition ttl_of req e : Duration :=
  default (HttpCache.default_ttl (Engine.cache e)) (from_secs <$> WebRequest.ttl_override req).
Definition with_cache e (c : option HttpCache.t) : option Engine.t :=
  c ← c; Some (e <| Engine.cache := c |>).

(** An answer that ran: what was done, and the verdict; [None]: a panic of the date arithmetic. *)
Definition fetch_uncached (key : option string) (ttl : Duration) req e :
    option (Engine.t * list Act * result Error WebResponse.t) :=
  let '(e, acts, answer) := send started envs req e in
  match answer with
  | Err err => Some (e, acts, Err err)
  | Ok resp =>
      match key with
      | Some key =>
          if WebResponse.status resp =? 304 then Some (e, acts, Ok resp)
          else
            e ← with_cache e (put key (WebRequest.url req) resp ttl (Moments.putting at_) (Engine.cache e));
            Some (e, acts, Ok resp)
      | None => Some (e, acts, Ok resp)
      end
  end.

(** A stored entry with a validator is asked about instead of fetched again. *)
Definition revalidate (key : string) (ttl : Duration) (stale : StaleEntry.t) req e :
    option (Engine.t * list Act * result Error WebResponse.t) :=
  let cond := req <| WebRequest.etag := StaleEntry.etag stale |>
                  <| WebRequest.if_modified_since := StaleEntry.last_modified stale |> in
  let '(e, acts, answer) := send started envs cond e in
  match answer with
  | Err err => Some (e, acts, Err err)
  | Ok resp =>
      if WebResponse.status resp =? 304 then
        e ← with_cache e (refresh key ttl (Moments.refreshing at_) (Engine.cache e));
        Some (e, acts, Ok ((StaleEntry.response stale) <| WebResponse.cache_hit := true |>))
      else
        let e := if WebResponse.is_success resp
                 then e <| Engine.cache ::= record_revalidation key true (Moments.logging at_) |> else e in
        e ← with_cache e (put key (WebRequest.url req) resp ttl (Moments.putting at_) (Engine.cache e));
        Some (e, acts, Ok resp)
  end.
Definition revalidable (key : string) req e : option StaleEntry.t :=
  if is_some (WebRequest.etag req) || is_some (WebRequest.if_modified_since req) then None
  else
    stale ← get_stale key (Engine.cache e);
    if is_some (StaleEntry.etag stale) || is_some (StaleEntry.last_modified stale) then Some stale else None.

Definition fetch req e : option (Engine.t * list Act * result Error WebResponse.t) :=
  let ttl := ttl_of req e in
  if cacheable req then
    let key := cache_key req in
    hit ← cache_get key (from_secs <$> WebRequest.ttl_override req) (Moments.getting at_) (Engine.cache e);
    match hit with
    | Some hit => Some (e, [], Ok hit)
    | None =>
        match revalidable key req e with
        | Some stale => revalidate key ttl stale req e
        | None => fetch_uncached (Some key) ttl req e
        end
    end
  else fetch_uncached None ttl req e.

(** One attempt, in bytes, past the cache. *)
Definition fetch_bytes (env : Attempt.t) req e : Engine.t * list Act * result Error string :=
  let '(e, client) := client_for cfg profiles_dir on_disk req e in
  match client with
  | Err err => (e, [], Err err)
  | Ok client =>
      let cap := default (HttpConfig.max_body_bytes cfg) (WebRequest.max_body_bytes req) in
      let '(e, out, got, _) := exchange (per_attempt_of req) client env req (space env req e) in
      let acts := [Asked (Attempt.asking env) out got] in
      match Exchange.reply got with
      | Err err => (e, acts, Err (transport_error (WebRequest.url req) err))
      | Ok r =>
          let e := in_jar (WebRequest.profile req) Flush.touch e in
          let status := Reply.status r in
          let e := teach (host_of_url req) status (retry_after r (Attempt.dated env)) (Attempt.settling env) e in
          if negb ((200 <=? status) && (status <? 300)) then
            (e, acts, Err (http (WebRequest.url req +:+ " returned status " +:+ pretty status
                                   +:+ " (fetch_bytes requires a 2xx body)")))
          else (e, acts, read_bytes_capped (Reply.chunks r) (Reply.broken r) cap (WebRequest.url req) EmptyString)
      end
  end.
End send.
