(* ===== verification/HttpTheorems.v ===== *)
(** * HttpTheorems: what the HTTP engine promises

    A profile's cookies reach its file however its tasks interleave; one request keeps to its
    attempts, its budget and the waits it is told; the cache never holds a session's answer. *)

From stdpp Require Import gmap pretty.
From S2P Require Import Prelude Sql Float64 Jitter Json Filters Records Simhash Errors Robots Governor Fetcher Caches.
From S2P Require Import HttpEngine.

(** ** No login is stranded *)

Section flush.
Context `{CookieLib} (jar0 : Cookies) (file0 : option string).
Implicit Types (s : Flush.t) (task : Flush.Task).
Import Flush.

(** The task that holds [flushing]; the others have let go of it or never had it. *)
Definition owner task : bool :=
  match task with
  | Sleeping _ | Deciding _ | Serializing _ | Writing _ _ | Retiring _ => true
  | Touching | Arming | Rechecking _ | Rearming _ => false
  end.
Definition owners (l : list Task) : nat := length (List.filter owner l).
Arguments owners : simpl never.

(** The file holds the jar, or the jar has nothing to hold, or neither has moved. *)
Definition current (jar : Cookies) (on_file : option string) : Prop :=
  cookie_count jar = 0
  ∨ (∃ buf, jar_json jar = Ok buf ∧ on_file = Some buf)
  ∨ (jar = jar0 ∧ on_file = file0).
(** A task that will see to the cookies the file lacks. *)
Definition tends (jar : Cookies) task : Prop :=
  match task with
  | Touching | Deciding _ | Serializing _ => True
  | Writing _ buf => jar_json jar = Ok buf
  | _ => False
  end.
(** A buffer that has fallen behind the jar is written again. *)
Definition rewritten (jar : Cookies) (again : Prop) task : Prop :=
  match task with
  | Writing _ buf => jar_json jar = Ok buf ∨ again
  | _ => True
  end.
Definition marked s : Prop := dirty s = true ∨ Touching ∈ tasks s.
Record tended s : Prop := {
  tended_owner : owners (tasks s) = if flushing s then 1%nat else 0%nat;
  tended_store : current (store s) (file s) ∨ dirty s = true ∨ abandoned s = true ∨ Exists (tends (store s)) (tasks s);
  tended_dirty : dirty s = true → Exists (λ t, t ≠ Touching) (tasks s);
  tended_writes : Forall (rewritten (store s) (marked s)) (tasks s) }.

Lemma owners_app l1 l2 : owners (l1 ++ l2) = (owners l1 + owners l2)%nat.
Proof. unfold owners. by rewrite List.filter_app, length_app. Qed.
Lemma owners_cons t l : owners (t :: l) = ((if owner t then 1 else 0) + owners l)%nat.
Proof. unfold owners. cbn. by destruct (owner t). Qed.
Lemma no_owner l : owners l = 0%nat → Forall (λ t, owner t = false) l.
Proof.
  unfold owners. intros H0. apply Forall_forall. intros t Ht. destruct (owner t) eqn:E; [|done].
  apply nil_length_inv in H0. assert (t ∈ List.filter owner l) as Hin.
  { apply elem_of_filter_bool. by split. }
  rewrite H0 in Hin. by apply not_elem_of_nil in Hin.
Qed.
Lemma an_owner l : owners l = 1%nat → Exists (λ t, t ≠ Touching) l.
Proof.
  unfold owners. intros H1. destruct (List.filter owner l) as [|t l'] eqn:E; [done|].
  apply Exists_exists. exists t. assert (t ∈ l ∧ owner t = true) as [Ht Ho].
  { assert (t ∈ List.filter owner l) as Hin by (rewrite E; left). apply elem_of_filter_bool in Hin. tauto. }
  split; [done|]. by intros ->.
Qed.

Lemma rewritten_weaken jar (P Q : Prop) l : (P → Q) → Forall (rewritten jar P) l → Forall (rewritten jar Q) l.
Proof. intros HPQ Hl. apply (Forall_impl _ _ _ Hl). intros []; cbn; tauto. Qed.
Lemma rewritten_none jar P l : Forall (λ t, owner t = false) l → Forall (rewritten jar P) l.
Proof. intros Hl. apply (Forall_impl _ _ _ Hl). by intros []. Qed.

Lemma tended_received headers url s : tended s → tended (step (Received true headers url) s).
Proof.
  intros [Ho Hs Hd Hw]. constructor; cbn [step] in *; cbn.
  - rewrite owners_app. change (owners [Touching]) with 0%nat. by rewrite Ho, Nat.add_0_r.
  - do 3 right. apply Exists_app. right. by constructor.
  - intros Hdirty. apply Exists_app. left. by apply Hd.
  - apply Forall_forall. intros t _. destruct t; try done. cbn. right. right.
    apply elem_of_app. right. by left.
Qed.

(** A task's turn, with the tasks before and after it. *)
Definition turned (s' : Flush.t) (l started r : list Task) : Flush.t := s' <| tasks := l ++ started ++ r |>.
Ltac split_tasks :=
  repeat (rewrite ?owners_app, ?Exists_app, ?Forall_app, ?elem_of_app, ?Exists_cons, ?Exists_nil, ?Forall_cons,
            ?Forall_nil in * ).

Ltac naive := repeat split; try done; cbn in *; first [tauto | naive_solver].

(** The others, while one task has its turn. *)
Lemma only_owner l task r n :
  owner task = true → (owners (l ++ [task] ++ r) = if n : bool then 1 else 0)%nat →
  n = true ∧ owners l = 0%nat ∧ owners r = 0%nat.
Proof.
  intros Ht. cbn [app]. rewrite owners_app, owners_cons, Ht. destruct n; lia.
Qed.
Lemma owner_turn wrote s l task r s' started :
  tasks s = l ++ [task] ++ r → turn wrote task s = (s', started) → owner task = true → tended s →
  tended (turned s' l started r).
Proof.
  intros Ht Hturn Hown [Ho Hs Hd Hw]. rewrite Ht in Ho, Hs, Hd, Hw.
  destruct (only_owner _ _ _ _ Hown Ho) as (Hf & Hl & Hr).
  pose proof (no_owner _ Hl) as Hnl. pose proof (no_owner _ Hr) as Hnr.
  split_tasks. destruct Hw as (_ & [Hw _] & _).
  assert (∃ t, started = [t] ∧ t ≠ Touching ∧ (owner t = flushing s')
          ∧ rewritten (store s') False t
          ∧ (current (store s') (file s') ∨ dirty s' = true ∨ abandoned s' = true ∨ tends (store s') t
             ∨ Exists (tends (store s')) l ∨ Exists (tends (store s')) r)) as (t & -> & Hne & Hot & Hrw & Hst).
  { destruct task as [| |n|n|n|n buf|n| |]; try done; cbn [turn] in Hturn.
    - destruct (dirty s) eqn:E; simplify_eq; eexists; (split; [done|]); cbn; rewrite ?Hf; naive.
    - unfold save_decision in Hturn. destruct (Z.eqb_spec (cookie_count (store s)) 0) as [Hc|Hc].
      + destruct (is_some (file s)); simplify_eq; eexists; (split; [done|]); cbn; rewrite ?Hf; unfold current; naive.
      + simplify_eq. eexists. split; [done|]. cbn. rewrite Hf. naive.
    - destruct (jar_json (store s)) as [buf|e] eqn:Ej.
      + simplify_eq. eexists. split; [done|]. cbn. rewrite Hf. naive.
      + unfold save_failed in Hturn. destruct (should_retry_save _); simplify_eq; eexists; (split; [done|]); cbn;
          rewrite ?Hf; naive.
    - destruct wrote; unfold saved, save_failed in Hturn.
      + simplify_eq. eexists. split; [done|]. cbn. rewrite Hf. unfold current. cbn in Hw.
        (do 3 (split; [done|])). destruct Hw as [Hw|[Hw|Hw]]; [naive|naive|].
        assert (Touching ∈ l ∨ Touching ∈ r) as [Hin|Hin] by (rewrite Ht in Hw; set_solver);
          do 4 right; [left|right]; apply Exists_exists; by exists Touching.
      + destruct (should_retry_save _); simplify_eq; eexists; (split; [done|]); cbn; rewrite ?Hf; naive.
    - simplify_eq. eexists. split; [done|]. cbn. naive. }
  constructor; cbn.
  - rewrite owners_app, owners_cons, Hl, Hr, Hot. by destruct (flushing s').
  - split_tasks. tauto.
  - intros _. split_tasks. tauto.
  - split_tasks. split; [by apply rewritten_none|]. split; [|by apply rewritten_none].
    destruct t; try done. cbn in Hrw |- *. tauto.
Qed.

(** The flag taken by the one that finds it down. *)
Lemma flag_taken s l task r n :
  tasks s = l ++ [task] ++ r → owner task = false → task ≠ Touching → tended s → ¬ tends (store s) task →
  tended (turned (s <| flushing := true |>) l (if flushing s then [] else [Sleeping n]) r).
Proof.
  intros Ht Hown Hne [Ho Hs Hd Hw] Hnt. rewrite Ht in Ho, Hs, Hd, Hw. unfold marked in Hw. rewrite Ht in Hw.
  assert (owners l + owners r = if flushing s then 1 else 0)%nat as Hlr.
  { rewrite <- Ho. cbn [app]. by rewrite owners_app, owners_cons, Hown. }
  split_tasks. constructor; cbn.
  - destruct (flushing s); cbn [app]; rewrite owners_app, ?owners_cons; cbn; lia.
  - split_tasks. tauto.
  - intros _. destruct (flushing s); cbn [app].
    + apply an_owner. by rewrite owners_app.
    + split_tasks. right. by left.
  - destruct Hw as (Hwl & _ & Hwr). unfold marked. cbn.
    assert (dirty s = true ∨ Touching ∈ l ++ [task] ++ r →
            dirty s = true ∨ Touching ∈ l ++ (if flushing s then [] else [Sleeping n]) ++ r) as Hkeep.
    { rewrite !elem_of_app, list_elem_of_singleton. naive_solver. }
    rewrite !Forall_app. split; [|split]; [exact (rewritten_weaken _ _ _ _ Hkeep Hwl)| |exact (rewritten_weaken _ _ _ _ Hkeep Hwr)].
    destruct (flushing s); [by apply Forall_nil|by apply Forall_singleton].
Qed.
Lemma peer_turn wrote s l task r s' started :
  tasks s = l ++ [task] ++ r → turn wrote task s = (s', started) → owner task = false → tended s →
  tended (turned s' l started r).
Proof.
  intros Ht Hturn Hown Hs. destruct task as [| | | | | | |n|n]; try done; cbn [turn] in Hturn; simplify_eq.
  - destruct Hs as [Ho Hs Hd Hw]. rewrite Ht in Ho, Hw. unfold marked in Hw. rewrite Ht in Hw.
    constructor; cbn.
    + cbn [app] in Ho. rewrite owners_app, owners_cons in *. exact Ho.
    + naive.
    + intros _. split_tasks. right. by left.
    + split_tasks. unfold marked. cbn. destruct Hw as (Hwl & _ & Hwr).
      split; [|split]; [eapply rewritten_weaken, Hwl|done|eapply rewritten_weaken, Hwr]; by left.
  - apply (flag_taken _ _ _ _ _ Ht); [done|done|exact Hs|tauto].
  - destruct Hs as [Ho Hs Hd Hw]. rewrite Ht in Ho, Hs, Hd, Hw. unfold marked in Hw. rewrite Ht in Hw.
    cbn [app] in Ho. rewrite owners_app, owners_cons in Ho. split_tasks. constructor; cbn.
    + destruct (dirty _); cbn [app]; by rewrite owners_app, ?owners_cons.
    + split_tasks. naive.
    + intros Hdirty. rewrite Hdirty. cbn [app]. split_tasks. right. by left.
    + destruct Hw as (Hwl & _ & Hwr). unfold marked. cbn.
      rewrite !Forall_app. split; [|split]; [eapply rewritten_weaken, Hwl| |eapply rewritten_weaken, Hwr].
      1,3: rewrite !elem_of_app, list_elem_of_singleton; naive_solver.
      destruct (dirty _); [by apply Forall_singleton|by apply Forall_nil].
  - apply (flag_taken _ _ _ _ _ Ht); [done|done|exact Hs|tauto].
Qed.

Definition responded (ev : Event) : Prop := match ev with Received answered _ _ => answered = true | Turn _ _ => True end.
Lemma tended_step ev s : responded ev → tended s → tended (step ev s).
Proof.
  destruct ev as [answered headers url|i wrote].
  - intros ->. apply tended_received.
  - intros _ Hs. cbn [step]. destruct (tasks s !! i) as [task|] eqn:Hi; [|done].
    destruct (turn wrote task s) as [s' started] eqn:Hturn.
    pose proof (take_drop_middle _ _ _ Hi) as Ht. symmetry in Ht.
    destruct (owner task) eqn:Ho; [by eapply owner_turn|by eapply peer_turn].
Qed.
Lemma tended_opened : tended (opened jar0 file0).
Proof.
  constructor; cbn; [done| |done|by apply Forall_nil]. left. unfold current. tauto.
Qed.
Lemma tended_run evs : Forall responded evs → tended (foldl (λ s ev, step ev s) (opened jar0 file0) evs).
Proof.
  induction evs as [|ev evs IH] using rev_ind; [intros _; apply tended_opened|].
  rewrite Forall_app, Forall_singleton, foldl_app. intros [Hevs Hev]. cbn. by apply tended_step, IH.
Qed.

End flush.

(** A jar that counts its cookies. *)
Module FlushDemo.
#[local] Instance counted : CookieLib := {|
  Cookies := list string; no_cookies := []; cookie_count l := Z.of_nat (length l);
  store_response_cookies headers _ l := l ++ headers; get_request_values _ l := map (λ c, (c, c)) l;
  jar_json l := Ok (String.concat "," l); read_jar s := Some [s] |}.
Definition turns (l : list (nat * bool)) : list Flush.Event := map (λ '(i, wrote), Flush.Turn i wrote) l.
(** Two logins whose touches overlap, and a first write that fails. *)
Definition logins : list Flush.Event :=
  [Flush.Received true ["a"%string] "u"] ++ turns [(0%nat, true); (0%nat, true)]
  ++ [Flush.Received true ["b"%string] "u"] ++ turns [(1%nat, true)]
  ++ turns (replicate 4 (0%nat, false)) ++ turns [(1%nat, true)] ++ turns (replicate 8 (0%nat, true)).
Definition after (evs : list Flush.Event) : Flush.t := foldl (λ s ev, Flush.step ev s) (Flush.opened [] None) evs.


(** A redirect sets a cookie and the request then fails: nothing marks the jar. *)
Lemma broken_request_keeps_no_login :
  let s := after [Flush.Received false ["a"%string] "u"] in
  Flush.tasks s = [] ∧ Flush.store s = ["a"%string] ∧ Flush.file s = None.
Proof. vm_compute. done. Qed.
End FlushDemo.

(** ** One request keeps to its attempts, its budget and the waits it is told *)

Definition asks (acts : list Act) : nat :=
  length (List.filter (λ a, match a with Asked _ _ _ => true | Slept _ => false end) acts).
Arguments asks : simpl never.
Lemma asks_app l1 l2 : asks (l1 ++ l2) = (asks l1 + asks l2)%nat.
Proof. unfold asks. by rewrite List.filter_app, length_app. Qed.
Lemma asks_slept d l : asks (Slept d :: l) = asks l.
Proof. done. Qed.
Lemma asks_asked at_ out got l : asks (Asked at_ out got :: l) = S (asks l).
Proof. done. Qed.

(** The ask at a place is the first of a list, or lies behind it. *)
Lemma asked_place pre (a : Act) rest l1 at_ out got l2 :
  asks pre = 0%nat → pre ++ a :: rest = l1 ++ Asked at_ out got :: l2 →
  (∃ l, l1 = pre ++ a :: l ∧ rest = l ++ Asked at_ out got :: l2)
  ∨ (l1 = pre ∧ a = Asked at_ out got ∧ rest = l2).
Proof.
  revert l1. induction pre as [|p pre IH]; intros l1 Hpre Heq; cbn in Heq.
  - destruct l1 as [|x l1]; cbn in Heq; simplify_eq; [by right|]. left. by exists l1.
  - destruct l1 as [|x l1]; cbn in Heq; [by simplify_eq|]. injection Heq as <- Heq.
    destruct p; [|done]. destruct (IH l1 Hpre Heq) as [(l & -> & ->)|(-> & -> & ->)]; [|by right].
    left. by exists l.
Qed.

(** The wait before attempt [k], doubling from half a second. *)
Definition backoff (k : nat) : Duration := from_millis (RETRY_BASE_MS * 2 ^ Z.min (Z.of_nat k - 1) 20).
Lemma retry_delay_floor k ra seed :
  (0 < k)%nat →
  backoff k ≤ retry_delay (Z.of_nat k) ra RETRY_BASE_MS seed
  ∧ ∀ w, ra = Some w → w ≤ retry_delay (Z.of_nat k) ra RETRY_BASE_MS seed.
Proof.
  intros Hk. unfold retry_delay.
  rewrite (Z.max_l (Z.of_nat k - 1) 0) by lia. set (x := Z.min (Z.of_nat k - 1) 20).
  assert (0 ≤ x ≤ 20) by lia.
  assert (2 ^ x ≤ 1048576) by (change 1048576 with (2 ^ 20); apply Z.pow_le_mono_r; lia).
  assert (0 ≤ 2 ^ x) by (apply Z.pow_nonneg; lia). assert (u64_max = 18446744073709551615) as Hmax by done.
  unfold saturating_mul_u64, saturating_pow_u64.
  rewrite (Z.min_l (2 ^ x)) by lia. rewrite (Z.min_l (_ * _)) by (unfold RETRY_BASE_MS; lia).
  set (fl := Z.max (from_millis (RETRY_BASE_MS * 2 ^ x)) (default 0 ra)).
  assert (0 ≤ default 0 (mul_f64 fl (f64_mul RETRY_JITTER_FRAC (lcg_f64 seed)))).
  { destruct (mul_f64 _ _) as [d|] eqn:E; [|done]. apply (try_from_secs_nonneg _ _ E). }
  assert (backoff k ≤ fl) by (unfold backoff; fold x; unfold fl; lia).
  split; [lia|]. intros w ->. cbn in fl. lia.
Qed.

Section send.
Context `{CookieLib, ClientBuilder, EncodingLib, HttpDates, DefaultHasher, UrlLib, Unicode}.
Context (cfg : HttpConfig.t) (profiles_dir : string) (on_disk : string → Opened).
Context (started : Instant) (envs : nat → Attempt.t).
Implicit Types (req : WebRequest.t) (e : Engine.t).
#[local] Notation retries := (Z.to_nat (HttpConfig.retries cfg)).

Definition in_time (deadline : option Instant) (at_ : Instant) (timeout : Duration) : Prop :=
  match deadline with Some d => at_ + timeout ≤ d | None => True end.
(** The wait the answer of attempt [k] states. *)
Definition told (k : nat) (got : Exchange.t) : option Duration :=
  match Exchange.reply got with Ok rep => retry_after rep (Attempt.dated (envs k)) | Err _ => None end.
Definition retryable (got : Exchange.t) : Prop :=
  ∃ rep, Exchange.reply got = Ok rep ∧ existsb (Z.eqb (Reply.status rep)) (HttpConfig.retryable_statuses cfg) = true.
Definition waited (k : nat) (stated : option Duration) (d : Duration) : Prop :=
  backoff k ≤ d ∧ ∀ w, stated = Some w → w ≤ d.

Record orderly_ask (deadline : option Instant) req (r : result Error WebResponse.t) (k : nat) at_ out got
    (later : list Act) : Prop := {
  ask_time : at_ = Attempt.asking (envs k) ∧ Outgoing.timeout out ≤ per_attempt_of cfg req
             ∧ in_time deadline at_ (Outgoing.timeout out);
  ask_next : match later with
             | [] => True
             | Slept d :: _ => waited (S k) (told k got) d
             | Asked _ _ _ :: _ => False
             end;
  ask_told : ∀ w err, told k got = Some w → retryable got → (k < retries)%nat → asks later = 0%nat →
                      r = Err err → stated_retry_after err = Some w }.

Lemma budget_exhausted_stated url elapsed n budget last stated :
  stated_retry_after (budget_exhausted url elapsed n budget last stated) = stated.
Proof. unfold budget_exhausted. by destruct stated. Qed.
Lemma capped_retry_sleep_Some delay left_ d : capped_retry_sleep delay left_ = Some d → d = delay.
Proof. unfold capped_retry_sleep. destruct left_; [destruct (_ <=? _)|]; by intros [=]. Qed.
Lemma attempt_timeout_in_time per_attempt deadline now timeout :
  attempt_timeout per_attempt (remaining deadline now) = Some timeout →
  timeout ≤ per_attempt ∧ in_time deadline now timeout.
Proof.
  unfold attempt_timeout, remaining, in_time. destruct deadline as [d|]; cbn; [|by intros [= <-]].
  destruct (Z.leb_spec MIN_ATTEMPT_BUDGET (saturating_duration_since d now)) as [Hle|]; [|done].
  intros [= <-]. unfold saturating_duration_since, MIN_ATTEMPT_BUDGET, from_secs in *. lia.
Qed.

(** What the attempts from [k] on do. *)
Record orderly (deadline : option Instant) req (k : nat) (lra : option Duration) (n : nat) (acts : list Act)
    (r : result Error WebResponse.t) : Prop := {
  orderly_count : (asks acts ≤ n)%nat;
  orderly_head : match acts with
                 | [] => True
                 | Slept d :: _ => (0 < k)%nat ∧ waited k lra d
                 | Asked _ _ _ :: _ => k = 0%nat
                 end;
  orderly_none : (0 < n)%nat → asks acts = 0%nat → ∀ err, r = Err err → stated_retry_after err = lra;
  orderly_asks : ∀ l1 at_ out got l2, acts = l1 ++ Asked at_ out got :: l2 →
                   orderly_ask deadline req r (k + asks l1) at_ out got l2 }.

(** What comes before the ask of attempt [k]. *)
Definition opens (k : nat) (lra : option Duration) (pre : list Act) : Prop :=
  (pre = [] ∧ k = 0%nat) ∨ ∃ d, pre = [Slept d] ∧ (0 < k)%nat ∧ waited k lra d.
Lemma opens_asks k lra pre : opens k lra pre → asks pre = 0%nat.
Proof. by intros [[-> _]|(d & -> & _)]. Qed.
Lemma orderly_stopped deadline req k lra n pre err :
  opens k lra pre ∨ pre = [] → stated_retry_after err = lra → orderly deadline req k lra n pre (Err err).
Proof.
  intros Hpre Herr. assert (asks pre = 0%nat) as Hz by (destruct Hpre as [Hpre| ->]; [by eapply opens_asks|done]).
  constructor; [lia| |by intros _ _ ? [= <-]|].
  - destruct Hpre as [[[-> _]|(d & -> & Hk & Hd)]| ->]; done.
  - intros l1 ???? ->. rewrite asks_app, asks_asked in Hz. lia.
Qed.
Lemma orderly_asked deadline req k lra n pre at_ out got rest r :
  opens k lra pre → orderly_ask deadline req r k at_ out got rest → (asks rest ≤ n)%nat →
  (∀ l1 at_ out got l2, rest = l1 ++ Asked at_ out got :: l2 →
     orderly_ask deadline req r (S k + asks l1) at_ out got l2) →
  orderly deadline req k lra (S n) (pre ++ Asked at_ out got :: rest) r.
Proof.
  intros Hpre Hask Hn Hrest. pose proof (opens_asks _ _ _ Hpre) as Hz.
  constructor.
  - rewrite asks_app, asks_asked. lia.
  - by destruct Hpre as [[-> ->]|(d & -> & Hk & Hd)].
  - rewrite asks_app, asks_asked. lia.
  - intros l1 at1 out1 got1 l2 Heq. destruct (asked_place _ _ _ _ _ _ _ _ Hz Heq) as [(l & -> & Hl)|(-> & Ha & ->)].
    + rewrite asks_app, asks_asked, Hz. replace (k + (0 + S (asks l)))%nat with (S k + asks l)%nat by lia. by apply Hrest.
    + rewrite Hz, Nat.add_0_r. by simplify_eq.
Qed.
(** The attempts go on after an ask. *)
Lemma orderly_goes_on deadline req k lra lra' n pre at_ out got rest r :
  opens k lra pre → (S k + n = S retries)%nat →
  at_ = Attempt.asking (envs k) ∧ Outgoing.timeout out ≤ per_attempt_of cfg req ∧ in_time deadline at_ (Outgoing.timeout out) →
  (∀ w, told k got = Some w → lra' = Some w) →
  orderly deadline req (S k) lra' n rest r →
  orderly deadline req k lra (S n) (pre ++ Asked at_ out got :: rest) r.
Proof.
  intros Hpre Hkn Htime Htold [Hc Hh Hnone Hasks]. apply orderly_asked; [done| |done|exact Hasks].
  constructor; [exact Htime| |].
  - destruct rest as [|[d|] rest]; [done| |lia]. destruct Hh as (_ & Hb & Hw). split; [exact Hb|].
    intros w Hw1. by apply Hw, Htold.
  - intros w err Hw _ Hlt Hz Hr. rewrite (Hnone ltac:(lia) Hz err Hr). by apply Htold.
Qed.

Lemma attempts_orderly deadline budget client req n : ∀ k le lra acts e e' acts' r,
  (k + n = S retries)%nat →
  attempts cfg started deadline budget client (map envs (seq k n)) (Z.of_nat k) req le lra acts e = (e', acts', r) →
  ∃ new, acts' = acts ++ new ∧ orderly deadline req k lra n new r.
Proof.
  induction n as [|n IH]; intros k le lra acts e e' acts' r Hkn Hrun; cbn [map seq attempts] in Hrun.
  - simplify_eq. exists []. split; [by rewrite app_nil_r|]. constructor; [done|done|lia|].
    intros l1 ???? Hl. by destruct l1.
  - destruct (if 0 <? Z.of_nat k then _ else _) as [delay|] eqn:Hslept.
    2: { simplify_eq. exists []. split; [by rewrite app_nil_r|]. apply orderly_stopped; [by right|].
         apply budget_exhausted_stated. }
    assert (∃ pre, opens k lra pre ∧ (if 0 <? Z.of_nat k then acts ++ [Slept delay] else acts) = acts ++ pre)
      as (pre & Hpre & Hacts).
    { revert Hslept. destruct (Z.ltb_spec 0 (Z.of_nat k)) as [Hk|Hk]; intros Hslept.
      - exists [Slept delay]. split; [|done]. right. exists delay. split; [done|]. split; [lia|].
        apply capped_retry_sleep_Some in Hslept as ->. apply retry_delay_floor. lia.
      - exists []. split; [left; split; [done|lia]|by rewrite app_nil_r]. }
    rewrite Hacts in Hrun.
    destruct (attempt_timeout _ _) as [timeout|] eqn:Htimeout.
    2: { simplify_eq. exists pre. split; [done|]. apply orderly_stopped; [by left|apply budget_exhausted_stated]. }
    destruct (exchange _ _ _ _ _) as [[[e1 out] got] anonymous] eqn:Hex.
    assert (Outgoing.timeout out = timeout) as Hout by (unfold exchange in Hex; by simplify_eq).
    pose proof (attempt_timeout_in_time _ _ _ _ Htimeout) as Htime. rewrite <- Hout in Htime.
    replace (Z.of_nat k + 1) with (Z.of_nat (S k)) in Hrun by lia.
    assert (∀ r, (∀ w err, told k got = Some w → retryable got → (k < retries)%nat → r = Err err → False) →
      orderly deadline req k lra (S n) (pre ++ [Asked (Attempt.asking (envs k)) out got]) r) as Hlast.
    { intros r1 Hr1. apply orderly_asked; [done| |apply Nat.le_0_l|].
      - constructor; [done|done|]. intros. exfalso. by eapply Hr1.
      - intros l1 ???? Hl. by destruct l1. }
    destruct (Exchange.reply got) as [rep|err] eqn:Hrep.
    + destruct (existsb _ _ && _) eqn:Hagain.
      * apply IH in Hrun as (new & -> & Hnew); [|lia].
        exists (pre ++ Asked (Attempt.asking (envs k)) out got :: new). split; [by rewrite <- !app_assoc|].
        eapply orderly_goes_on; [done|lia|done| |exact Hnew]. intros w. unfold told. by rewrite Hrep.
      * simplify_eq. exists (pre ++ [Asked (Attempt.asking (envs k)) out got]). split; [by rewrite <- app_assoc|].
        apply Hlast. intros w err _ (rep1 & Hrep1 & Hin) Hlt _. rewrite Hrep1 in Hrep. simplify_eq.
        rewrite Hin in Hagain. cbn in Hagain. breflect_in Hagain. lia.
    + destruct (deterministic_transport_error _ _) as [terminal|].
      * simplify_eq. exists (pre ++ [Asked (Attempt.asking (envs k)) out got]). split; [by rewrite <- app_assoc|].
        apply Hlast. intros w err1 Htold. unfold told in Htold. by rewrite Hrep in Htold.
      * apply IH in Hrun as (new & -> & Hnew); [|lia].
        exists (pre ++ Asked (Attempt.asking (envs k)) out got :: new). split; [by rewrite <- !app_assoc|].
        eapply orderly_goes_on; [done|lia|done| |exact Hnew]. intros w. unfold told. by rewrite Hrep.
Qed.

(** *** The cache and the jars a request touches *)

Lemma cache_on_host host f e : Engine.cache (on_host host f e) = Engine.cache e.
Proof. by destruct host. Qed.
Lemma cache_in_jar profile f e : Engine.cache (in_jar profile f e) = Engine.cache e.
Proof. by destruct profile. Qed.
Lemma cache_teach host status ra now e : Engine.cache (teach host status ra now e) = Engine.cache e.
Proof. unfold teach. repeat case_if; by rewrite ?cache_on_host. Qed.
Lemma cache_exchange timeout client env req e e' out got anonymous :
  exchange timeout client env req e = (e', out, got, anonymous) →
  Engine.cache e' = Engine.cache e ∧ (WebRequest.profile req = None → Outgoing.cookies out = None).
Proof.
  unfold exchange, receive_hops, build_request. intros [= <- <- <- <-]. rewrite cache_in_jar. split; [done|].
  cbn. by intros ->.
Qed.
Lemma cache_client_for req e :
  Engine.cache (client_for cfg profiles_dir on_disk req e).1 = Engine.cache e.
Proof.
  assert (∀ proxy profile e, Engine.cache (
    let key := pool_key proxy profile in
    let '(e, found) := pool_get key e in
    match found with
    | Some client => (e, Ok client)
    | None => match build_client proxy profile with
              | Err err => (e, Err err)
              | Ok client => (pool_insert key client MAX_POOLED_CLIENTS e, Ok client)
              end
    end).1 = Engine.cache e) as Hpool.
  { intros proxy profile e0. unfold pool_get. cbn zeta. destruct (Engine.clients e0 !! _); [done|].
    destruct (build_client _ _); [|done]. unfold pool_insert. by destruct (lru_touch_evict _ _ _). }
  unfold client_for. destruct (WebRequest.profile req) as [name|] eqn:Hp.
  - unfold jar_for. destruct (require_safe_profile_name name); [|done].
    destruct (Engine.jars e !! name); [apply Hpool|].
    destruct (load_jar _ _); [|done]. by rewrite Hpool.
  - case_if; [done|apply Hpool].
Qed.

(** An answer is what the last exchange gave, asked without a session when there is none. *)
Record answered req (acts : list Act) (resp : WebResponse.t) : Prop := mk_answered {
  answered_by : ∃ l at_ out got rep,
    acts = l ++ [Asked at_ out got] ∧ Exchange.reply got = Ok rep ∧ WebResponse.status resp = Reply.status rep
    ∧ (WebRequest.profile req = None → Outgoing.cookies out = None);
  answered_live : WebResponse.cache_hit resp = false }.
Lemma response_of_status req rep anonymous resp :
  response_of cfg req rep anonymous = Ok resp →
  WebResponse.status resp = Reply.status rep ∧ WebResponse.cache_hit resp = false.
Proof. unfold response_of. destruct (read_body_capped _ _ _ _); [|done]. by intros [= <-]. Qed.
Lemma attempts_answer deadline budget client req es : ∀ k le lra acts e e' acts' r,
  attempts cfg started deadline budget client es k req le lra acts e = (e', acts', r) →
  Engine.cache e' = Engine.cache e ∧ ∀ resp, r = Ok resp → answered req acts' resp.
Proof.
  induction es as [|env es IH]; intros k le lra acts e e' acts' r Hrun; cbn [attempts] in Hrun; [by simplify_eq|].
  destruct (if 0 <? k then _ else _) as [delay|]; [|by simplify_eq].
  destruct (attempt_timeout _ _) as [timeout|]; [|simplify_eq; by unfold space; rewrite cache_on_host].
  destruct (exchange _ _ _ _ _) as [[[e1 out] got] anonymous] eqn:Hex.
  apply cache_exchange in Hex as [Hc Hcookies]. unfold space in Hc. rewrite cache_on_host in Hc. rewrite <- Hc.
  destruct (Exchange.reply got) as [rep|err] eqn:Hrep.
  - destruct (_ && _).
    + apply IH in Hrun. by rewrite cache_teach, cache_in_jar in Hrun.
    + simplify_eq. rewrite cache_teach, cache_in_jar. split; [done|]. intros resp Hresp.
      apply response_of_status in Hresp as [Hst Hhit]. constructor; [|done]. by eexists _, _, _, _, _.
  - destruct (deterministic_transport_error _ _); [by simplify_eq|]. by apply IH in Hrun.
Qed.
Lemma send_answer req e e' acts r :
  send cfg profiles_dir on_disk started envs req e = (e', acts, r) →
  Engine.cache e' = Engine.cache e ∧ ∀ resp, r = Ok resp → answered req acts resp.
Proof.
  unfold send. intros Hsend. pose proof (cache_client_for req e) as Hc.
  destruct (client_for _ _ _ req e) as [e1 [client|err]]; cbn in Hc; [|by simplify_eq].
  apply attempts_answer in Hsend. by rewrite Hc in Hsend.
Qed.

(** C27: One request keeps its word: it asks at most [retries + 1] times; no ask outlives the
    attempt's timeout or, under a budget, the deadline set when the request began; a further
    ask comes only after a sleep that is no shorter than the doubling backoff and than the
    wait the refusal stated; and when no ask follows a refusal that stated a wait, the error
    carries the wait. *)
Theorem a_request_keeps_its_word req e e' acts r :
  send cfg profiles_dir on_disk started envs req e = (e', acts, r) →
  let deadline := (λ b, started + b) <$> fetch_budget (HttpConfig.total_budget_secs cfg) (per_attempt_of cfg req) in
  (asks acts ≤ S retries)%nat
  ∧ ∀ l1 at_ out got l2, acts = l1 ++ Asked at_ out got :: l2 → orderly_ask deadline req r (asks l1) at_ out got l2.
Proof.
  unfold send. intros Hsend. destruct (client_for _ _ _ req e) as [e1 [client|err]].
  - apply (attempts_orderly _ _ _ _ (S retries) 0) in Hsend as (new & -> & [Hc _ _ Hasks]); [|lia].
    split; [exact Hc|]. intros l1 at_ out got l2. apply Hasks.
  - simplify_eq. split; [apply Nat.le_0_l|]. intros l1 ???? Hl. by destruct l1.
Qed.
End send.

(** ** The cache keeps sessions out *)

Definition same_content (a b : CacheRow.t) : Prop :=
  CacheRow.key a = CacheRow.key b ∧ CacheRow.response a = CacheRow.response b.
Definition holds (resp : WebResponse.t) (row : CacheRow.t) : Prop :=
  CacheRow.response row = resp <| WebResponse.cache_hit := true |>.

Lemma record_revalidation_rows key changed now c :
  HttpCache.rows (record_revalidation key changed now c) = HttpCache.rows c.
Proof. unfold record_revalidation. by case_if. Qed.
Lemma refresh_rows key ttl now c c' row :
  refresh key ttl now c = Some c' → row ∈ HttpCache.rows c' → ∃ row0, row0 ∈ HttpCache.rows c ∧ same_content row row0.
Proof.
  unfold refresh. destruct (negb _).
  { intros [= <-] Hrow. by exists row. }
  destruct (expiry _ _ _) as [expires|]; [|done]. intros [= <-]. rewrite record_revalidation_rows. cbn.
  intros (row0 & Hin & Heq)%elem_of_update. exists row0. split; [done|]. rewrite Heq. by destruct (key_is _ _).
Qed.
Lemma put_rows `{Sha256} key url resp ttl now c c' row :
  put key url resp ttl now c = Some c' → row ∈ HttpCache.rows c' →
  row ∈ HttpCache.rows c ∨ (WebResponse.is_success resp = true ∧ CacheRow.key row = key ∧ holds resp row).
Proof.
  unfold put. destruct (negb (HttpCache.enabled c) || negb (WebResponse.is_success resp)) eqn:Hskip.
  { intros [= <-]. by left. }
  breflect_in Hskip. destruct Hskip as [_ Hok]. destruct (expiry _ _ _) as [expires|]; [|done].
  intros [= <-]. cbn. case_if.
  - intros (row0 & Hin & Heq)%elem_of_update. rewrite Heq. destruct (key_is key row0); [|by left].
    right. done.
  - rewrite elem_of_app, list_elem_of_singleton. intros [?| ->]; [by left|by right].
Qed.

Section fetch.
Context `{CookieLib, ClientBuilder, EncodingLib, HttpDates, DefaultHasher, UrlLib, Unicode, Sha256}.
Context (cfg : HttpConfig.t) (profiles_dir : string) (on_disk : string → Opened).
Context (started : Instant) (envs : nat → Attempt.t) (at_ : Moments.t).
Implicit Types (req : WebRequest.t) (e : Engine.t).

(** A row the fetch stored: the success it was just given, asked for without a session. *)
Definition stored_now req (acts : list Act) (r : result Error WebResponse.t) (row : CacheRow.t) : Prop :=
  CacheRow.key row = cache_key req ∧ WebRequest.profile req = None
  ∧ ∃ resp l asked out got rep,
      r = Ok resp ∧ WebResponse.is_success resp = true ∧ holds resp row
      ∧ acts = l ++ [Asked asked out got] ∧ Exchange.reply got = Ok rep ∧ Reply.status rep = WebResponse.status resp
      ∧ Outgoing.cookies out = None.
Definition kept_or_stored req e (acts : list Act) (r : result Error WebResponse.t) (row : CacheRow.t) : Prop :=
  (∃ row0, row0 ∈ HttpCache.rows (Engine.cache e) ∧ same_content row row0) ∨ stored_now req acts r row.
(** Why a stored row may be served: it is within its life and the caller's, or the server has
    just said that it still holds. *)
Definition fresh_enough req (row : CacheRow.t) : Prop :=
  Moments.getting at_ < CacheRow.expires_at row
  ∧ ∀ secs d, WebRequest.ttl_override req = Some secs → from_std (from_secs secs) = Some d →
      Moments.getting at_ - d < CacheRow.created_at row.
Definition confirmed (acts : list Act) : Prop :=
  ∃ l asked out got rep, acts = l ++ [Asked asked out got] ∧ Exchange.reply got = Ok rep ∧ Reply.status rep = 304.

Lemma kept req e acts r row : row ∈ HttpCache.rows (Engine.cache e) → kept_or_stored req e acts r row.
Proof. intros Hrow. left. by exists row. Qed.
Lemma cacheable_anonymous req : cacheable req = true → WebRequest.profile req = None.
Proof. unfold cacheable. intros Hc. breflect_in Hc. destruct Hc as [_ Hp]. by destruct (WebRequest.profile req). Qed.

Lemma fetch_uncached_rows key ttl req e e' acts r :
  from_option (λ k, k = cache_key req ∧ WebRequest.profile req = None) True key →
  fetch_uncached cfg profiles_dir on_disk started envs at_ key ttl req e = Some (e', acts, r) →
  (key = None → Engine.cache e' = Engine.cache e)
  ∧ (∀ row, row ∈ HttpCache.rows (Engine.cache e') → kept_or_stored req e acts r row)
  ∧ ∀ resp, r = Ok resp → WebResponse.cache_hit resp = false.
Proof.
  unfold fetch_uncached. intros Hkey. destruct (send _ _ _ _ _ req e) as [[e1 acts1] answer] eqn:Hsend.
  apply send_answer in Hsend as [Hc Hans]. rewrite <- Hc.
  destruct answer as [resp|err].
  2: { intros [= <- <- <-]. split; [done|]. split; [|done]. intros row. rewrite Hc. apply kept. }
  destruct (Hans resp eq_refl) as [(l & asked & out & got & rep & Hacts & Hrep & Hst & Hck) Hlive].
  assert (∀ resp0 : WebResponse.t, Ok (E := Error) resp = Ok resp0 → WebResponse.cache_hit resp0 = false) as Hhit
    by (by intros ? [= <-]).
  destruct key as [key|].
  2: { intros [= <- <- <-]. split; [done|]. split; [|done]. intros row. rewrite Hc. apply kept. }
  destruct Hkey as [-> Hp]. case_if.
  { intros [= <- <- <-]. split; [done|]. split; [|done]. intros row. rewrite Hc. apply kept. }
  unfold with_cache. destruct (put _ _ _ _ _ _) as [c|] eqn:Hput; [|done]. intros [= <- <- <-].
  split; [done|]. split; [|done]. cbn. intros row Hrow.
  destruct (put_rows _ _ _ _ _ _ _ _ Hput Hrow) as [Hold|(Hok & Hk & Hh)]; [rewrite Hc in Hold; by apply kept|].
  right. split; [done|]. split; [done|]. exists resp, l, asked, out, got, rep. auto 10.
Qed.

Lemma revalidate_rows ttl stale req e e' acts r :
  WebRequest.profile req = None →
  revalidate cfg profiles_dir on_disk started envs at_ (cache_key req) ttl stale req e = Some (e', acts, r) →
  (∀ row, row ∈ HttpCache.rows (Engine.cache e') → kept_or_stored req e acts r row)
  ∧ ∀ resp, r = Ok resp → WebResponse.cache_hit resp = true →
      resp = (StaleEntry.response stale) <| WebResponse.cache_hit := true |> ∧ confirmed acts.
Proof.
  unfold revalidate. intros Hp. destruct (send _ _ _ _ _ _ e) as [[e1 acts1] answer] eqn:Hsend.
  apply send_answer in Hsend as [Hc Hans].
  destruct answer as [resp|err].
  2: { intros [= <- <- <-]. split; [|done]. intros row. rewrite Hc. apply kept. }
  destruct (Hans resp eq_refl) as [(l & asked & out & got & rep & Hacts & Hrep & Hst & Hck) Hlive].
  unfold with_cache. destruct (Z.eqb_spec (WebResponse.status resp) 304) as [H304|H304].
  - destruct (refresh _ _ _ _) as [c|] eqn:Hr; [|done]. intros [= <- <- <-]. split.
    + cbn. intros row Hrow. left. rewrite Hc in Hr. by eapply refresh_rows.
    + intros ? [= <-] _. split; [done|]. exists l, asked, out, got, rep. by rewrite <- Hst.
  - destruct (put _ _ _ _ _ _) as [c|] eqn:Hput; [|done]. intros [= <- <- <-]. split.
    + cbn. intros row Hrow.
      destruct (put_rows _ _ _ _ _ _ _ _ Hput Hrow) as [Hold|(Hok & Hk & Hh)].
      * assert (row ∈ HttpCache.rows (Engine.cache e)) as Hin; [|by apply kept].
        rewrite <- Hc. revert Hold. case_if; cbn; by rewrite ?record_revalidation_rows.
      * right. split; [done|]. split; [done|]. exists resp, l, asked, out, got, rep. auto 10.
    + intros ? [= <-] Hhit. by rewrite Hhit in Hlive.
Qed.

Lemma cache_get_hit key max_age now c hit :
  cache_get key max_age now c = Some (Some hit) →
  ∃ row, row ∈ HttpCache.rows c ∧ CacheRow.key row = key ∧ hit = CacheRow.response row
         ∧ now < CacheRow.expires_at row ∧ ∀ age d, max_age = Some age → from_std age = Some d → now - d < CacheRow.created_at row.
Proof.
  unfold cache_get. case_if; [done|]. destruct (max_age ≫= from_std) as [d|] eqn:Hage.
  - unfold date_checked. destruct (_ && _); [|done]. cbn. intros [= Hh].
    destruct (select_where _ _) as [|row l] eqn:Hsel; [done|]. cbn in Hh. simplify_eq.
    assert (row ∈ row :: l) as Hin by left. rewrite <- Hsel in Hin. apply elem_of_select in Hin as [Hin Hp].
    breflect_in Hp. unfold key_is in Hp. breflect_in Hp. destruct Hp as [[Hk He] Hm]. exists row. repeat split; try done.
    intros age d' -> Hd'. cbn in Hage. rewrite Hd' in Hage. by simplify_eq.
  - cbn. intros [= Hh]. destruct (select_where _ _) as [|row l] eqn:Hsel; [done|]. cbn in Hh. simplify_eq.
    assert (row ∈ row :: l) as Hin by left. rewrite <- Hsel in Hin. apply elem_of_select in Hin as [Hin Hp].
    breflect_in Hp. unfold key_is in Hp. breflect_in Hp. destruct Hp as [[Hk He] _]. exists row. repeat split; try done.
    intros age d' -> Hd'. cbn in Hage. by rewrite Hd' in Hage.
Qed.
Lemma revalidable_row key req e stale :
  revalidable key req e = Some stale →
  ∃ row, row ∈ HttpCache.rows (Engine.cache e) ∧ CacheRow.key row = key ∧ StaleEntry.response stale = CacheRow.response row.
Proof.
  unfold revalidable, get_stale. case_if; [done|]. case_if; [done|].
  destruct (lookup_by _ _ _) as [row|] eqn:Hl; [|done]. cbn. case_if; [|done]. intros [= <-].
  apply lookup_by_Some in Hl as [Hin Hk]. by exists row.
Qed.

(** C28: The cache keeps sessions out: a fetch leaves in the cache only what was there, its
    content unchanged, and the success it was itself just given, under the request's own key
    and asked for with no profile's cookies; so a 304 or an error page never replaces a stored
    body, and a profiled fetch leaves the cache alone.  An answer from the cache goes only to
    a fetch with no profile, is the content stored under the request's key, and is either
    within the entry's life and the age the caller allows or just confirmed by a 304. *)
Theorem the_cache_keeps_sessions_out req e e' acts r :
  fetch cfg profiles_dir on_disk started envs at_ req e = Some (e', acts, r) →
  (is_some (WebRequest.profile req) → Engine.cache e' = Engine.cache e)
  ∧ (∀ row, row ∈ HttpCache.rows (Engine.cache e') → kept_or_stored req e acts r row)
  ∧ ∀ resp, r = Ok resp → WebResponse.cache_hit resp = true →
      WebRequest.profile req = None
      ∧ ∃ row, row ∈ HttpCache.rows (Engine.cache e) ∧ CacheRow.key row = cache_key req
               ∧ resp = CacheRow.response row ∧ (acts = [] ∧ fresh_enough req row ∨ confirmed acts).
Proof.
  unfold fetch. destruct (cacheable req) eqn:Hcache.
  2: { intros Hf. apply fetch_uncached_rows in Hf as (Hc & Hrows & Hlive); [|done].
       split; [by intros _; apply Hc|]. split; [exact Hrows|]. intros resp Hr Hhit. by rewrite (Hlive resp Hr) in Hhit. }
  pose proof (cacheable_anonymous _ Hcache) as Hp. rewrite Hp.
  destruct (cache_get _ _ _ _) as [[hit|]|] eqn:Hget; [| |done]; cbn.
  - intros [= <- <- <-]. split; [done|]. split; [intros row; apply kept|]. intros ? [= <-] _. split; [done|].
    apply cache_get_hit in Hget as (row & Hin & Hk & -> & He & Hm). exists row. repeat split; try done.
    left. split; [done|]. split; [done|]. intros secs d Hs Hd. eapply Hm; [by rewrite Hs|done].
  - destruct (revalidable _ _ _) as [stale|] eqn:Hst; intros Hf; (split; [done|]).
    + apply revalidate_rows in Hf as [Hrows Hhit]; [|done]. split; [exact Hrows|]. intros resp Hr Hh. split; [done|].
      destruct (Hhit resp Hr Hh) as [-> Hconf]. destruct (revalidable_row _ _ _ _ Hst) as (row & Hin & Hk & Heq).
      exists row. rewrite Heq. auto.
    + apply fetch_uncached_rows in Hf as (_ & Hrows & Hlive); [|by split]. split; [exact Hrows|].
      intros resp Hr Hhit. by rewrite (Hlive resp Hr) in Hhit.
Qed.
End fetch.

(** ** A concrete engine *)

(** A server that refuses twice, stating a wait the second time, then answers. *)
Module HttpDemo.
#[local] Existing Instance FlushDemo.counted.
#[local] Instance builder : ClientBuilder := {| proxy_all _ := None; builder_build _ := None |}.
#[local] Instance encodings : EncodingLib := {|
  Encoding := unit; for_label _ := None; for_bom _ := None; decode _ s := s; utf8_lossy s := s |}.
#[local] Instance dates : HttpDates := {| imf_fixdate _ := None; rfc2822 _ := None |}.
#[local] Instance hasher : DefaultHasher := λ _, 7.
#[local] Instance urls : UrlLib := {|
  Url := string; url_parse := Some; scheme _ := "https"%string; host_str := Some; port _ := None;
  url_path u := u; url_query _ := None; query_pairs _ := []; set_fragment_none u := u; set_query _ u := u;
  set_path _ u := u; url_to_string u := u |}.
#[local] Instance lower : Unicode := ascii_lower.
#[local] Instance digest : Sha256 := λ s, s.

Definition governor : Governor.t :=
  Governor.mk false 0 ∅ 0 ∅ 0 0 (from_secs 1) (from_secs 300) (from_millis 100).
Definition engine : Engine.t :=
  Engine.mk _ governor (HttpCache.mk true (from_secs 3600) 0 [] []) ∅ [] ∅.
Definition reply (status : Z) (headers : list (string * string)) (body : string) : Outgoing.t → Exchange.t :=
  λ _, Exchange.mk [] (Ok (Reply.mk status "u" headers [body] None)).
Definition at_second (n : Z) (wire : Outgoing.t → Exchange.t) : Attempt.t :=
  Attempt.mk (from_secs n) (from_secs n) (from_secs n) (from_secs n) (from_secs n) (from_secs n) (from_secs n)
    wire (seconds n) (from_secs n).
Definition envs (k : nat) : Attempt.t :=
  match k with
  | 0%nat => at_second 0 (reply 503 [] "busy")
  | 1%nat => at_second 1 (reply 429 [("retry-after", "2")]%string "slow down")
  | _ => at_second 4 (reply 200 [] "page")
  end.
Definition moments : Moments.t := Moments.mk 0 0 0 (seconds 4).
Definition page : WebRequest.t := WebRequest.get "u".
Definition sent := send HttpConfig.default "profiles" (λ _, Missing) 0 envs page engine.
Definition fetched := fetch HttpConfig.default "profiles" (λ _, Missing) 0 envs moments page engine.

(** Three asks, the second wait no shorter than the two seconds it was told. *)
Definition waits (acts : list Act) : list Duration :=
  omap (λ a, match a with Slept d => Some d | Asked _ _ _ => None end) acts.
Lemma three_attempts :
  asks sent.1.2 = 3%nat ∧ match waits sent.1.2 with [d1; d2] => backoff 1 ≤ d1 ∧ from_secs 2 ≤ d2 | _ => False end.
Proof. vm_compute. repeat split; discriminate. Qed.
Lemma a_request_keeps_its_word_witness :
  (asks sent.1.2 ≤ 4)%nat
  ∧ ∀ l1 at_ out got l2, sent.1.2 = l1 ++ Asked at_ out got :: l2 →
      orderly_ask HttpConfig.default envs (Some (from_secs 300)) page sent.2 (asks l1) at_ out got l2.
Proof.
  assert (sent = (sent.1.1, sent.1.2, sent.2)) as Hsent by (destruct sent as [[??]?]; reflexivity).
  pose proof (a_request_keeps_its_word HttpConfig.default "profiles" (λ _, Missing) 0 envs page engine sent.1.1 sent.1.2 sent.2 Hsent)
    as [Hcount Hasks].
  split; [exact Hcount|]. intros l1 at_ out got l2 Hl. exact (Hasks l1 at_ out got l2 Hl).
Defined.

(** The page is stored for the next caller. *)
Lemma the_cache_keeps_sessions_out_witness :
  ∃ e' acts r row, fetched = Some (e', acts, r) ∧ row ∈ HttpCache.rows (Engine.cache e')
                   ∧ stored_now page acts r row.
Proof.
  destruct fetched as [[[e' acts] r]|] eqn:Hf; [|by vm_compute in Hf].
  assert (∃ row, HttpCache.rows (Engine.cache e') = [row]) as [row Hrow].
  { assert (from_option (λ x, HttpCache.rows (Engine.cache x.1.1)) [] fetched = HttpCache.rows (Engine.cache e')) as <-
      by by rewrite Hf.
    eexists. vm_compute. reflexivity. }
  exists e', acts, r, row. split; [done|]. split; [rewrite Hrow; left|].
  unfold fetched in Hf.
  pose proof (the_cache_keeps_sessions_out HttpConfig.default "profiles" (λ _, Missing) 0 envs moments page engine
                e' acts r Hf) as (_ & Hrows & _).
  assert (row ∈ HttpCache.rows (Engine.cache e')) as Hin by (rewrite Hrow; left).
  pose proof (Hrows row Hin) as Hkept. unfold kept_or_stored in Hkept.
  assert (HttpCache.rows (Engine.cache engine) = []) as Hempty by reflexivity. rewrite Hempty in Hkept.
  destruct Hkept as [(row0 & Hold & _)|Hstored]; [|exact Hstored].
  destruct (not_elem_of_nil _ Hold).
Defined.
End HttpDemo.
