(* ===== verification/Metered.v ===== *)
(** * Metered: the chokepoint every paid call goes through

    [AppContext::fetch] and [AppContext::research] of [crates/core/src/app.rs]: a cassette or
    a live call, the learned route, the ceiling, the ledger row and its in-memory mirror; then
    what they guarantee. *)

From stdpp Require Import gmap pretty.
From S2P Require Import Prelude Sql Float64 Json Filters Records Simhash Errors Robots Jobs JobQueue Costs Triggers.
From S2P Require Import Governor TierMemory Recipes Markdown Fetcher FetcherTheorems Cassette Caches.

(** ** The learned route *)

Definition BROWSER_PIN_REASON : string := "learned host preference (persistent http losses)".
Definition RECIPE_PIN_REASON : string := "learned host preference (a validated recipe last served this host)".
Inductive RouterPin : Type := NoPin | StartAtBrowser | ConsultRecipes.
Definition router_pin (preferred : option string) (strategy : FetchStrategy) (skip_http use_recipes : bool) : RouterPin :=
  if bool_decide (preferred = Some PREFERRED_BROWSER) && (negb skip_http && escalating strategy) then StartAtBrowser
  else if bool_decide (preferred = Some PREFERRED_API_RECIPE)
          && (negb use_recipes && negb (bool_decide (strategy = Browser_))) then ConsultRecipes
  else NoPin.

(** ** The ceiling *)

Definition budget_is_exhausted (remaining : option f64) : bool :=
  match remaining with Some r => f64_le r f64_zero | None => false end.
Definition clamp_to_headroom (ceiling : option f64) (remaining : f64) : f64 :=
  match ceiling with Some b => f64_min b remaining | None => remaining end.
Definition dollars (budget_usd : option f64) : string := f64_fixed 2 (default f64_zero budget_usd).
Definition claude_tier_skip_note (budget_usd : option f64) (verdict : BudgetVerdict) : string :=
  match verdict with
  | Unpriceable n =>
      "claude tier skipped: job budget of $" +:+ dollars budget_usd +:+ " is unpriceable ("
        +:+ pretty n +:+ " call(s) with an unreadable bill, none readable)"
  | _ => "claude tier skipped: job budget of $" +:+ dollars budget_usd +:+ " exhausted"
  end%string.
Definition budget_exhausted_error (budget_usd : option f64) : Error :=
  BudgetExhausted ("job budget of $" +:+ dollars budget_usd
                     +:+ " exhausted — aborting before further metered spend").
Definition budget_unpriceable_error (budget_usd : option f64) (uncertain_calls : Z) : Error :=
  BudgetExhausted ("job budget of $" +:+ dollars budget_usd +:+ " is unpriceable: " +:+ pretty uncertain_calls
     +:+ " metered call(s) have an unreadable bill and none has a readable one, so this job's "
     +:+ "spend cannot be bounded — refusing further metered spend rather than reading that "
     +:+ "blindness as headroom. Find why the bill is unreadable "
     +:+ "(GET /jobs/{id}/costs names the calls); raising the budget cannot help").

(** ** Receipts *)

Definition fetch_cost_detail (o : FetchOutcome.t) : option string :=
  match option_list (SnapshotProvenance.note <$> FetchOutcome.snapshot o) ++ FetchOutcome.escalations o with
  | [] => None
  | parts => Some (String.concat "; " parts)
  end.
Definition success_spend_event (cost_usd : option f64) : f64 * SpendCertainty * option string :=
  match cost_usd with
  | Some cost => (cost, Billed, None)
  | None => (f64_zero, Unmetered, Some "cost_unreported"%string)
  end.
Definition skipped_by_router (tier : FetchTier) (why : string) : TierTrace.t :=
  TierTrace.mk tier VSkippedByRouter None None None 0 None (Some why).

(** ** The context of a job and what it shares *)

Module AppContext.
Record t : Type := mk {
  job_id : Uuid; app : string; budget_usd : option f64; vcr : Vcr; fetcher : FetcherConfig.t; tier_ttl_secs : Z }.
End AppContext.

Module Shared.
Record t {R : Type} : Type := mk {
  spent_usd : SpentTotal.t; cost_rows : cost_events; tiers : tier_memory; governor : Governor.t; recipes : R;
  peer_served : Z; local_fallback : Z; research_cache : ResearchCache.t; recorder : Recorder.t;
  cassette : cassette_file; calls : list EngineCall }.
Arguments t : clear implicits.
#[global] Instance eta_shared {R} : Eta (t R) := λ w,
  mk R (spent_usd w) (cost_rows w) (tiers w) (governor w) (recipes w) (peer_served w) (local_fallback w)
    (research_cache w) (recorder w) (cassette w) (calls w).
End Shared.

(** The clocks of one call, and which of its best-effort writes and reads work. *)
Module Moment.
Record t : Type := mk {
  routing : timestamp; clock : Clock.t; learning : timestamp; metering : timestamp; caching : timestamp;
  storing : timestamp;
  routes : bool; learns : bool; meters : bool; cache_error : option SqlxError; caches : bool; removable : bool; appendable : bool }.
End Moment.

Section metered.
Context `{Engines, UrlLib, Unicode, HtmlTree, ToMarkdown, JsonRender, JsonParse, FormUrlEncoded}.
Context `{Sha256, CassetteCodec, UuidText}.
Context {R : Type} `{!RecipeSource R} (answer_fingerprint : ResearchRequest.t → string) (jobs : table).
Context (cx : AppContext.t).
Implicit Types (w : Shared.t R) (now : Moment.t).

(** The mirror first, and whether or not the row lands. *)
Definition meter_with_certainty now (engine : string) (url : option string) (cost_usd : f64)
    (certainty : SpendCertainty) (detail : option string) w : Shared.t R :=
  let w := w <| Shared.spent_usd ::= SpentTotal.add_call cost_usd certainty |> in
  if Moment.meters now then
    w <| Shared.cost_rows ::=
      Costs.record (Moment.metering now) (AppContext.job_id cx) (AppContext.app cx) engine url cost_usd certainty
        detail jobs |>
  else w.
Definition meter now (engine : string) (url : option string) (cost_usd : f64) (detail : option string) w : Shared.t R :=
  meter_with_certainty now engine url cost_usd (SpendCertainty.from_amount cost_usd) detail w.
Definition meter_failed_spend now (e : Error) (url : option string) w : Shared.t R :=
  match claude_spend e ≫= ClaudeSpend.ledger_event with
  | None => w
  | Some (cost, certainty, detail) => meter_with_certainty now "claude" url cost certainty (Some detail) w
  end.

Definition verdict w : BudgetVerdict := SpentTotal.verdict (AppContext.budget_usd cx) (Shared.spent_usd w).
Definition remaining_budget_usd w : option f64 :=
  match verdict w with Unlimited => None | Headroom remaining => Some remaining | Unpriceable _ => Some f64_zero end.
Definition require_budget w : result Error (option f64) :=
  match verdict w with
  | Unpriceable n => Err (budget_unpriceable_error (AppContext.budget_usd cx) n)
  | _ =>
      if budget_is_exhausted (remaining_budget_usd w)
      then Err (budget_exhausted_error (AppContext.budget_usd cx)) else Ok (remaining_budget_usd w)
  end.

Definition learn_tier now (host winner : string) (lost : bool) w : Shared.t R :=
  if Moment.learns now
  then w <| Shared.tiers ::= TierMemory.record (AppContext.tier_ttl_secs cx) host winner lost (Moment.learning now) |>
  else w.
Definition record_in_cassette now (entry : CassetteEntry.t) w : Shared.t R :=
  match AppContext.vcr cx with
  | VcrRecord =>
      let '(r, f) := record_entry (Moment.removable now) (Moment.appendable now) entry (Shared.recorder w)
                       (Shared.cassette w) in
      w <| Shared.recorder := r |> <| Shared.cassette := f |>
  | _ => w
  end.

(** ** Fetching *)

(** The request as the pin of its host leaves it, with the two notes. *)
Definition routed now (host : option string) (req : FetchRequest.t) w :
    FetchRequest.t * option string * option string :=
  let preferred := host ≫= λ host,
    if Moment.routes now
    then TierMemory.preferred (AppContext.tier_ttl_secs cx) host (Moment.routing now) (Shared.tiers w) else None in
  match host with
  | None => (req, None, None)
  | Some _ =>
      match router_pin preferred (FetchRequest.strategy req) (FetchRequest.skip_http req) (FetchRequest.use_recipes req) with
      | StartAtBrowser =>
          (req <| FetchRequest.skip_http := true |>,
           Some ("http tier skipped: " +:+ BROWSER_PIN_REASON)%string, None)
      | ConsultRecipes =>
          (req <| FetchRequest.use_recipes := true |>, None,
           Some ("api_recipe tier consulted: " +:+ RECIPE_PIN_REASON)%string)
      | NoPin => (req, None, None)
      end
  end.
(** Without headroom the paid tier is dropped; with some, it is clamped to it. *)
Definition governed_by_budget (req : FetchRequest.t) w : FetchRequest.t * option string :=
  if bool_decide (FetchRequest.strategy req = AutoWithResearch) then
    match remaining_budget_usd w with
    | Some r =>
        if f64_le r f64_zero then
          (req <| FetchRequest.strategy := Auto |>,
           Some (claude_tier_skip_note (AppContext.budget_usd cx) (verdict w)))
        else (req <| FetchRequest.max_budget_usd ::= λ c, Some (clamp_to_headroom c r) |>, None)
    | None => (req, None)
    end
  else (req, None).
Definition annotated (tier_note recipe_note budget_note : option string) (o : FetchOutcome.t) : FetchOutcome.t :=
  let noted (t : option TierTrace.t) (note : option string) (o : FetchOutcome.t) :=
    match note with
    | Some note => o <| FetchOutcome.trace ::= λ l, l ++ option_list t |> <| FetchOutcome.escalations ::= λ l, l ++ [note] |>
    | None => o
    end in
  noted (Some (skipped_by_router TierClaude "job budget exhausted")) budget_note
    (noted None recipe_note (noted (Some (skipped_by_router TierHttp BROWSER_PIN_REASON)) tier_note o)).

Definition run_ladder now (req : FetchRequest.t) w : Shared.t R * result Error FetchOutcome.t :=
  let '(s, r) := Fetcher.fetch (AppContext.fetcher cx) (Moment.clock now) req (Shared.governor w) (Shared.recipes w)
                   (Shared.peer_served w) (Shared.local_fallback w) in
  (w <| Shared.governor := Ladder.governor s |> <| Shared.recipes := Ladder.recipes s |>
     <| Shared.peer_served := Ladder.peer_served s |> <| Shared.local_fallback := Ladder.local_fallback s |>
     <| Shared.calls ::= λ l, l ++ Ladder.calls s |>, r).
Definition settle now (host : option string) (url : string) (o : FetchOutcome.t) w : Shared.t R :=
  let w := match host with
           | Some host => learn_tier now host (FetchOutcome.engine o) (http_lost (FetchOutcome.trace o)) w
           | None => w
           end in
  let w := meter now (FetchOutcome.engine o) (Some url) (default f64_zero (FetchOutcome.cost_usd o))
             (fetch_cost_detail o) w in
  record_in_cassette now (fetch_entry o) w.

Definition fetch now (req : FetchRequest.t) w : Shared.t R * result Error FetchOutcome.t :=
  match AppContext.vcr cx with
  | VcrReplay c =>
      let url := FetchRequest.url req in
      match (entry ← resolve METHOD_GET url url c; to_fetch_outcome entry (Cassette.replay_of c)) with
      | Err e => (w, Err e)
      | Ok o => (meter now (FetchOutcome.engine o) (Some url) f64_zero (Some "vcr_replay"%string) w, Ok o)
      end
  | _ =>
      let host := host_of_request req in
      let '(req, tier_note, recipe_note) := routed now host req w in
      let '(req, budget_note) := governed_by_budget req w in
      let url := FetchRequest.url req in
      let '(w, answer) := run_ladder now req w in
      match answer with
      | Err e => (meter_failed_spend now e (Some url) w, Err e)
      | Ok o =>
          let o := annotated tier_note recipe_note budget_note o in
          (settle now host url o w, Ok o)
      end
  end.

(** ** Research *)

Definition ask_claude (req : ResearchRequest.t) w : Shared.t R * result Error ResearchOutput.t :=
  let '(g, _, answer) := claude_client req (Shared.governor w) in
  (w <| Shared.governor := g |> <| Shared.calls ::= λ l, l ++ [ToClaude req] |>, answer).
(** [None]: a panic of the date arithmetic. *)
Definition cache_answer now (key : option string) (out : ResearchOutput.t) w : option (Shared.t R) :=
  match key with
  | Some key =>
      c ← research_put key out (Moment.storing now) (Shared.research_cache w);
      Some (if Moment.caches now then w <| Shared.research_cache := c |> else w)
  | None => Some w
  end.
Definition research_live now (key : option string) (req : ResearchRequest.t) w :
    option (Shared.t R * result Error ResearchOutput.t) :=
  match require_budget w with
  | Err e => Some (w, Err e)
  | Ok remaining =>
      let req := match remaining with
                 | Some r => req <| ResearchRequest.max_budget_usd ::= λ c, Some (clamp_to_headroom c r) |>
                 | None => req
                 end in
      let '(w, answer) := ask_claude req w in
      match answer with
      | Err e => Some (meter_failed_spend now e None w, Err e)
      | Ok out =>
          let '(cost, certainty, detail) := success_spend_event (ResearchOutput.cost_usd out) in
          let w := meter_with_certainty now "claude" None cost certainty detail w in
          w ← cache_answer now key out w;
          Some (record_in_cassette now (research_entry (research_key req) req out) w, Ok out)
      end
  end.
Definition research now (req : ResearchRequest.t) w : option (Shared.t R * result Error ResearchOutput.t) :=
  match AppContext.vcr cx with
  | VcrReplay c =>
      let head := String.concat "" (take 120 (chars (ResearchRequest.prompt req))) in
      match (entry ← resolve METHOD_RESEARCH (research_key req) head c;
             to_research_output entry (Cassette.replay_of c)) with
      | Err e => Some (w, Err e)
      | Ok out => Some (meter now "claude" None f64_zero (Some "vcr_replay"%string) w, Ok out)
      end
  | _ =>
      let req := req <| ResearchRequest.job_id := Some (AppContext.job_id cx) |> in
      let cacheable := negb (is_some (ResearchRequest.resume_session req))
                       && ResearchCache.enabled (Shared.research_cache w) in
      let key := if cacheable then Some (research_key_with req (answer_fingerprint req)) else None in
      match key, Moment.cache_error now with
      | Some _, Some e => Some (w, Err (Storage e))
      | _, _ =>
          match key ≫= λ key, research_get key (Moment.caching now) (Shared.research_cache w) with
          | Some hit =>
              let detail := match ResearchOutput.cost_usd hit with
                            | Some c => ("cache_hit (saved ~$" +:+ f64_fixed 4 c +:+ ")")%string
                            | None => "cache_hit"%string
                            end in
              let w := meter now "claude" None f64_zero (Some detail) w in
              let hit := hit <| ResearchOutput.cost_usd := Some f64_zero |> in
              Some (record_in_cassette now (research_entry (research_key req) req hit) w, Ok hit)
          | None => research_live now key req w
          end
      end
  end.
End metered.

(** ** What the chokepoint guarantees *)

Inductive Call : Type := Fetches (req : FetchRequest.t) | Researches (req : ResearchRequest.t).

Section guarantees.
Context `{Engines, UrlLib, Unicode, HtmlTree, ToMarkdown, JsonRender, JsonParse, FormUrlEncoded}.
Context `{Sha256, CassetteCodec, UuidText}.
Context {R : Type} `{!RecipeSource R} (answer_fingerprint : ResearchRequest.t → string) (jobs : table).
Context (cx : AppContext.t).
Implicit Types (w : Shared.t R) (now : Moment.t) (rows : cost_events).

Definition answer_cost {A} (cost : A → option f64) (r : result Error A) : result Error (option f64) :=
  match r with Ok o => Ok (cost o) | Err e => Err e end.
Definition perform now (c : Call) w : option (Shared.t R * result Error (option f64)) :=
  match c with
  | Fetches req =>
      let '(w, r) := fetch jobs cx now req w in Some (w, answer_cost FetchOutcome.cost_usd r)
  | Researches req =>
      '(w, r) ← research answer_fingerprint jobs cx now req w;
      Some (w, answer_cost ResearchOutput.cost_usd r)
  end.
Fixpoint performs (l : list (Moment.t * Call)) w : option (Shared.t R * list (result Error (option f64))) :=
  match l with
  | [] => Some (w, [])
  | (now, c) :: l =>
      '(w, r) ← perform now c w;
      '(w, rs) ← performs l w;
      Some (w, r :: rs)
  end.

(** The rows a call owes: one with the cost it answered, or what its failure spent. *)
Definition paid (e : CostEvent.t) : f64 * SpendCertainty := (CostEvent.cost_usd e, CostEvent.spend_certainty e).
Definition receipt (r : result Error (option f64)) rows : Prop :=
  match r with
  | Ok cost => ∃ row, rows = [row] ∧ CostEvent.cost_usd row = default f64_zero cost
  | Err e => map paid rows = option_list (fst <$> (claude_spend e ≫= ClaudeSpend.ledger_event))
  end ∧ Forall (λ e, Costs.of_job (AppContext.job_id cx) e = true) rows.

Definition metered now w rows w' : Prop :=
  Shared.spent_usd w' = foldl Costs.meter (Shared.spent_usd w) rows
  ∧ Shared.cost_rows w' = Shared.cost_rows w ++ (if Moment.meters now then rows else []).
(** What neither spends nor calls. *)
Definition quiet w w' : Prop :=
  Shared.spent_usd w' = Shared.spent_usd w ∧ Shared.cost_rows w' = Shared.cost_rows w
  ∧ Shared.calls w' = Shared.calls w.

Lemma metered_none now w : metered now w [] w.
Proof. split; [done|]. case_if; by rewrite app_nil_r. Qed.
Lemma metered_quiet now w0 w1 rows w2 w3 :
  Shared.spent_usd w1 = Shared.spent_usd w0 → Shared.cost_rows w1 = Shared.cost_rows w0 →
  metered now w1 rows w2 → quiet w2 w3 → metered now w0 rows w3.
Proof. intros E1 E2 [M1 M2] (E3 & E4 & _). split; by rewrite ?E3, ?E4, ?M1, ?M2, ?E1, ?E2. Qed.
Lemma quiet_refl w : quiet w w.
Proof. done. Qed.
Lemma quiet_trans w1 w2 w3 : quiet w1 w2 → quiet w2 w3 → quiet w1 w3.
Proof. intros (E1 & E2 & E3) (E4 & E5 & E6). split_and!; congruence. Qed.

Lemma meter_with_certainty_metered now engine url cost certainty detail w :
  let w' := meter_with_certainty jobs cx now engine url cost certainty detail w in
  Shared.calls w' = Shared.calls w
  ∧ ∃ row, metered now w [row] w' ∧ paid row = (cost, certainty)
           ∧ Costs.of_job (AppContext.job_id cx) row = true.
Proof.
  cbn zeta. unfold meter_with_certainty. split; [by case_if|].
  exists (CostEvent.mk (AppContext.job_id cx) (AppContext.app cx) engine url cost certainty detail
            (Moment.metering now) (JobQueue.get (AppContext.job_id cx) jobs ≫= Job.principal_id)).
  split; [|split; [done|apply Z.eqb_refl]]. unfold metered.
  destruct (Moment.meters now); cbn; by rewrite ?app_nil_r.
Qed.
Lemma meter_receipt now engine url cost detail w answered :
  default f64_zero answered = cost →
  let w' := meter jobs cx now engine url cost detail w in
  Shared.calls w' = Shared.calls w ∧ ∃ rows, metered now w rows w' ∧ receipt (Ok answered) rows.
Proof.
  intros Hc. cbn zeta. unfold meter.
  destruct (meter_with_certainty_metered now engine url cost (SpendCertainty.from_amount cost) detail w)
    as (E & row & Hm & Hp & Hj).
  split; [exact E|]. exists [row]. split; [exact Hm|]. split; [|by apply Forall_singleton].
  exists row. injection Hp as -> _. by rewrite Hc.
Qed.
Lemma meter_failed_receipt now e url w :
  let w' := meter_failed_spend jobs cx now e url w in
  Shared.calls w' = Shared.calls w ∧ ∃ rows, metered now w rows w' ∧ receipt (Err e) rows.
Proof.
  cbn zeta. unfold meter_failed_spend, receipt.
  destruct (claude_spend e ≫= ClaudeSpend.ledger_event) as [[[cost certainty] detail]|].
  - destruct (meter_with_certainty_metered now "claude" url cost certainty (Some detail) w) as (E & row & Hm & Hp & Hj).
    split; [exact E|]. exists [row]. split; [exact Hm|]. split; [cbn; by rewrite Hp|by apply Forall_singleton].
  - split; [done|]. exists []. split; [apply metered_none|done].
Qed.
Lemma unpaid_receipt now e w : claude_spend e = None → metered now w [] w ∧ receipt (Err e) [].
Proof. intros E. split; [apply metered_none|]. unfold receipt. by rewrite E. Qed.

Lemma record_in_cassette_quiet now entry w : quiet w (record_in_cassette cx now entry w).
Proof.
  unfold record_in_cassette. destruct (AppContext.vcr cx); [done| |done].
  by destruct (record_entry _ _ _ _ _) as [r f].
Qed.
Lemma learn_tier_quiet now host winner lost w : quiet w (learn_tier cx now host winner lost w).
Proof. unfold learn_tier. by case_if. Qed.
Lemma cache_answer_quiet now key out w w' : cache_answer now key out w = Some w' → quiet w w'.
Proof.
  unfold cache_answer. destruct key as [key|]; [|by intros [= <-]].
  destruct (research_put _ _ _ _); [|done]. cbn. intros [= <-]. by case_if.
Qed.
Lemma replay_misses method key display c e :
  resolve method key display c = Err e → claude_spend e = None.
Proof.
  unfold resolve. destruct (Cassette.entries c !! _) as [entry|]; [case_if|]; by intros [= <-].
Qed.
Lemma replayed_fetch_misses entry id e : to_fetch_outcome entry id = Err e → claude_spend e = None.
Proof.
  unfold to_fetch_outcome. destruct (engine_tier _); [case_if|]; [|done|]; by intros [= <-].
Qed.
Lemma replayed_research_misses entry id e : to_research_output entry id = Err e → claude_spend e = None.
Proof. unfold to_research_output. destruct (CassetteEntry.body entry); [done|]. by intros [= <-]. Qed.
Lemma require_budget_misses w e : require_budget cx w = Err e → claude_spend e = None.
Proof. unfold require_budget. destruct (verdict cx w); [| |by intros [= <-]]; case_if; [by intros [= <-]|done..|by intros [= <-]|done]. Qed.

(** *** Under the ceiling *)

(** What the ceiling says before the call lets it cost so much at most. *)
Definition allowed w (ceiling : option f64) : Prop :=
  match verdict cx w with
  | Unlimited => True
  | Headroom h => f64_le h f64_zero = false ∧ ∃ b, ceiling = Some b ∧ f64_le b h = true
  | Unpriceable _ => False
  end.
Lemma headroom_is_number w h : verdict cx w = Headroom h → is_nan h = false.
Proof.
  unfold verdict, SpentTotal.verdict, budget_verdict. destruct (AppContext.budget_usd cx); [|done]. case_if; [|done].
  destruct (JobSpend.charged_usd _ _); [|done]. intros [= <-]. by apply f64_max_zero.
Qed.
Lemma clamped_allowed w r ceiling :
  remaining_budget_usd cx w = Some r → f64_le r f64_zero = false → allowed w (Some (clamp_to_headroom ceiling r)).
Proof.
  unfold remaining_budget_usd, allowed. pose proof (headroom_is_number w) as Hh.
  destruct (verdict cx w) as [|h|n]; [done| |]; intros [= <-] Hr; [|done].
  split; [done|]. eexists. split; [done|]. specialize (Hh h eq_refl).
  destruct ceiling as [b|]; cbn; [by apply f64_min_le_r|by apply f64_le_refl].
Qed.
Lemma unlimited_allowed w ceiling : remaining_budget_usd cx w = None → allowed w ceiling.
Proof. unfold remaining_budget_usd, allowed. by destruct (verdict cx w). Qed.
Lemma governed_allowed req w :
  let req' := (governed_by_budget cx req w).1 in
  FetchRequest.strategy req' = AutoWithResearch → allowed w (FetchRequest.max_budget_usd req').
Proof.
  cbn zeta. unfold governed_by_budget. case_bool_decide; cbn; [|done].
  destruct (remaining_budget_usd cx w) as [r|] eqn:Hr; cbn; [|intros _; by apply unlimited_allowed].
  destruct (f64_le r f64_zero) eqn:Hz; cbn; [done|]. intros _. by apply clamped_allowed.
Qed.

(** What a call asked the engines for. *)
Definition within w (new : list EngineCall) : Prop :=
  (∀ req, ToClaude req ∈ new → allowed w (ResearchRequest.max_budget_usd req)) ∧ NoDup (map call_tier new).
Lemma within_nil w : within w [].
Proof. split; [|by apply NoDup_nil_2]. intros req Hr. by apply not_elem_of_nil in Hr. Qed.

Lemma run_ladder_within now req w :
  (FetchRequest.strategy req = AutoWithResearch → allowed w (FetchRequest.max_budget_usd req)) →
  let w' := (run_ladder cx now req w).1 in
  ∃ new, Shared.calls w' = Shared.calls w ++ new ∧ within w new
         ∧ Shared.spent_usd w' = Shared.spent_usd w ∧ Shared.cost_rows w' = Shared.cost_rows w.
Proof.
  intros Hall. cbn zeta. unfold run_ladder.
  pose proof (fetch_told (AppContext.fetcher cx) (Moment.clock now) req (Shared.governor w) (Shared.recipes w)
                (Shared.peer_served w) (Shared.local_fallback w)) as Htold.
  pose proof (fetch_calls (AppContext.fetcher cx) (Moment.clock now) req (Shared.governor w) (Shared.recipes w)
                (Shared.peer_served w) (Shared.local_fallback w)) as Hnodup.
  destruct (Fetcher.fetch _ _ _ _ _ _ _) as [s r]. cbn in *. eexists. split; [done|]. split; [|done].
  split; [|done]. intros c Hc. destruct (Htold c Hc) as [Hs ->]. by apply Hall.
Qed.

(** The account of a call: what it asked, and what it left in the ledger. *)
Definition accounted now w (r : result Error (option f64)) w' : Prop :=
  (∃ new, Shared.calls w' = Shared.calls w ++ new ∧ within w new
          ∧ (∀ c, AppContext.vcr cx = VcrReplay c → new = []))
  ∧ ∃ rows, metered now w rows w' ∧ receipt r rows.

Lemma idle_accounted now w r w' :
  Shared.calls w' = Shared.calls w → (∃ rows, metered now w rows w' ∧ receipt r rows) → accounted now w r w'.
Proof.
  intros Hc Hrows. split; [|done]. exists []. rewrite app_nil_r. split; [done|]. split; [apply within_nil|done].
Qed.
Lemma refused_accounted now w e : claude_spend e = None → accounted now w (Err e) w.
Proof. intros E. apply idle_accounted; [done|]. exists []. by apply unpaid_receipt. Qed.
Lemma asked_accounted now w w1 w2 w3 r new :
  (∀ c, AppContext.vcr cx ≠ VcrReplay c) → within w new →
  Shared.calls w1 = Shared.calls w ++ new → Shared.spent_usd w1 = Shared.spent_usd w →
  Shared.cost_rows w1 = Shared.cost_rows w →
  Shared.calls w2 = Shared.calls w1 → (∃ rows, metered now w1 rows w2 ∧ receipt r rows) → quiet w2 w3 →
  accounted now w r w3.
Proof.
  intros Hvcr Hin Hc Hs Hr Hc2 (rows & Hm & Hrec) Hq. split.
  - exists new. split; [|split; [exact Hin|by intros c Hx; destruct (Hvcr c)]].
    destruct Hq as (_ & _ & ->). by rewrite Hc2.
  - exists rows. split; [|exact Hrec]. by eapply metered_quiet.
Qed.

Lemma replayed_fetch_accounted now c req w :
  AppContext.vcr cx = VcrReplay c →
  let '(w', r) := fetch jobs cx now req w in accounted now w (answer_cost FetchOutcome.cost_usd r) w'.
Proof.
  intros Hvcr. unfold fetch. rewrite Hvcr.
  destruct (resolve _ _ _ _) as [entry|e] eqn:Hr; cbn; [|by apply refused_accounted, (replay_misses _ _ _ _ _ Hr)].
  destruct (to_fetch_outcome _ _) as [o|e] eqn:Ho; [|by apply refused_accounted, (replayed_fetch_misses _ _ _ Ho)].
  assert (FetchOutcome.cost_usd o = None) as Hcost
    by (revert Ho; unfold to_fetch_outcome; destruct (engine_tier _); [case_if|]; [done|by intros [= <-]|done]).
  destruct (meter_receipt now (FetchOutcome.engine o) (Some (FetchRequest.url req)) f64_zero (Some "vcr_replay"%string)
              w (FetchOutcome.cost_usd o)) as (E & Hm); [by rewrite Hcost|].
  by apply idle_accounted.
Qed.
Lemma settle_accounted now host url o w :
  let w' := settle jobs cx now host url o w in
  ∃ w2, Shared.calls w2 = Shared.calls w
        ∧ (∃ rows, metered now w rows w2 ∧ receipt (Ok (FetchOutcome.cost_usd o)) rows) ∧ quiet w2 w'.
Proof.
  cbn zeta. unfold settle. set (w1 := match host with Some h => learn_tier _ _ _ _ _ _ | None => w end).
  assert (quiet w w1) as Hq by (subst w1; destruct host; [apply learn_tier_quiet|apply quiet_refl]).
  destruct (meter_receipt now (FetchOutcome.engine o) (Some url) (default f64_zero (FetchOutcome.cost_usd o))
              (fetch_cost_detail o) w1 (FetchOutcome.cost_usd o) eq_refl) as (E & rows & Hm & Hrec).
  eexists. split; [|split; [|apply record_in_cassette_quiet]].
  - rewrite E. apply Hq.
  - exists rows. split; [|exact Hrec]. destruct Hq as (E1 & E2 & _). by eapply metered_quiet.
Qed.
Lemma annotated_cost a b c o : FetchOutcome.cost_usd (annotated a b c o) = FetchOutcome.cost_usd o.
Proof. by destruct a, b, c. Qed.

Lemma fetch_accounted now req w :
  let '(w', r) := fetch jobs cx now req w in accounted now w (answer_cost FetchOutcome.cost_usd r) w'.
Proof.
  destruct (AppContext.vcr cx) as [| |c] eqn:Hvcr; [| |by apply (replayed_fetch_accounted now c)].
  all: assert (∀ c, AppContext.vcr cx ≠ VcrReplay c) as Hlive by (intros c; by rewrite Hvcr).
  all: unfold fetch; rewrite Hvcr; cbn zeta; destruct (routed _ _ _ _ _) as [[req1 tier_note] recipe_note].
  all: pose proof (governed_allowed req1 w) as Hgov; cbn zeta in Hgov.
  all: destruct (governed_by_budget cx req1 w) as [req2 budget_note]; cbn [fst] in Hgov.
  all: destruct (run_ladder_within now req2 w Hgov) as (new & Hc & Hin & Hs & Hr).
  all: destruct (run_ladder cx now req2 w) as [w1 [o|e]]; cbn [fst answer_cost] in *.
  all: try rewrite <- (annotated_cost tier_note recipe_note budget_note o).
  all: try (destruct (settle_accounted now (host_of_request req) (FetchRequest.url req2)
              (annotated tier_note recipe_note budget_note o) w1) as (w2 & Hc2 & Hm & Hq);
            by eapply asked_accounted).
  all: destruct (meter_failed_receipt now e (Some (FetchRequest.url req2)) w1) as [Hc2 Hm].
  all: eapply asked_accounted; [done..|apply quiet_refl].
Qed.

Lemma required_allowed w remaining (req : ResearchRequest.t) :
  require_budget cx w = Ok remaining →
  allowed w (ResearchRequest.max_budget_usd
    match remaining with
    | Some r => req <| ResearchRequest.max_budget_usd ::= λ c, Some (clamp_to_headroom c r) |>
    | None => req
    end).
Proof.
  unfold require_budget, budget_is_exhausted. intros Hr.
  assert (remaining_budget_usd cx w = remaining
          ∧ match remaining with Some r => f64_le r f64_zero = false | None => True end) as [Hrem Hz].
  { revert Hr. unfold remaining_budget_usd. destruct (verdict cx w) as [|h|n]; [by intros [= <-]| |done].
    destruct (f64_le h f64_zero) eqn:Hh; [done|]. by intros [= <-]. }
  destruct remaining as [r|]; cbn; [by apply clamped_allowed|by apply unlimited_allowed].
Qed.
Lemma success_receipt now cost w :
  let '(amount, certainty, detail) := success_spend_event cost in
  let w' := meter_with_certainty jobs cx now "claude" None amount certainty detail w in
  Shared.calls w' = Shared.calls w ∧ ∃ rows, metered now w rows w' ∧ receipt (Ok cost) rows.
Proof.
  assert (∀ amount certainty detail, default f64_zero cost = amount →
    let w' := meter_with_certainty jobs cx now "claude" None amount certainty detail w in
    Shared.calls w' = Shared.calls w ∧ ∃ rows, metered now w rows w' ∧ receipt (Ok cost) rows) as Hgen.
  { intros amount certainty detail Ha.
    destruct (meter_with_certainty_metered now "claude" None amount certainty detail w) as (E & row & Hm & Hp & Hj).
    split; [exact E|]. exists [row]. split; [exact Hm|]. split; [|by apply Forall_singleton].
    exists row. injection Hp as -> _. by rewrite Ha. }
  unfold success_spend_event. destruct cost as [cost|]; by apply Hgen.
Qed.

Lemma research_live_accounted now key req w w' r :
  (∀ c, AppContext.vcr cx ≠ VcrReplay c) →
  research_live jobs cx now key req w = Some (w', r) →
  accounted now w (answer_cost ResearchOutput.cost_usd r) w'.
Proof.
  intros Hlive. unfold research_live. destruct (require_budget cx w) as [remaining|e] eqn:Hb.
  2: { intros [= <- <-]. by apply refused_accounted, (require_budget_misses w). }
  pose proof (required_allowed w remaining req Hb) as Hall.
  set (req' := match remaining with Some _ => _ | None => _ end) in *.
  assert (within w [ToClaude req']) as Hin.
  { split; [|by apply NoDup_singleton]. intros c Hc. apply list_elem_of_singleton in Hc. by injection Hc as ->. }
  unfold ask_claude. destruct (claude_client req' (Shared.governor w)) as [[g l] [out|e]]; cbn [fst snd].
  all: set (w1 := upd Shared.calls _ _).
  - pose proof (success_receipt now (ResearchOutput.cost_usd out) w1) as Hm.
    destruct (success_spend_event (ResearchOutput.cost_usd out)) as [[amount certainty] detail].
    destruct Hm as [Hc2 Hm]. cbn zeta in *. set (w2 := meter_with_certainty _ _ _ _ _ _ _ _ _) in *.
    destruct (cache_answer now key out w2) as [w3|] eqn:Hput; cbn; [|done].
    intros [= <- <-]. apply (asked_accounted now w w1 w2 _ _ [ToClaude req'] Hlive Hin eq_refl eq_refl eq_refl Hc2 Hm).
    eapply quiet_trans; [by eapply cache_answer_quiet|apply record_in_cassette_quiet].
  - intros [= <- <-]. destruct (meter_failed_receipt now e None w1) as [Hc2 Hm].
    exact (asked_accounted now w w1 _ _ _ [ToClaude req'] Hlive Hin eq_refl eq_refl eq_refl Hc2 Hm (quiet_refl _)).
Qed.
Lemma cache_hit_accounted now detail entry out w :
  accounted now w (answer_cost ResearchOutput.cost_usd (Ok (out <| ResearchOutput.cost_usd := Some f64_zero |>)))
    (record_in_cassette cx now entry (meter jobs cx now "claude" None f64_zero (Some detail) w)).
Proof.
  destruct (meter_receipt now "claude" None f64_zero (Some detail) w (Some f64_zero) eq_refl) as (E & rows & Hm & Hrec).
  pose proof (record_in_cassette_quiet now entry (meter jobs cx now "claude" None f64_zero (Some detail) w)) as Hq.
  apply idle_accounted; [destruct Hq as (_ & _ & ->); exact E|].
  exists rows. split; [by eapply metered_quiet|exact Hrec].
Qed.
Lemma research_accounted now req w w' r :
  research answer_fingerprint jobs cx now req w = Some (w', r) →
  accounted now w (answer_cost ResearchOutput.cost_usd r) w'.
Proof.
  unfold research. destruct (AppContext.vcr cx) as [| |c] eqn:Hvcr.
  3: { destruct (resolve _ _ _ _) as [entry|e] eqn:Hr; cbn;
         [|intros [= <- <-]; by apply refused_accounted, (replay_misses _ _ _ _ _ Hr)].
       destruct (to_research_output _ _) as [out|e] eqn:Ho; intros [= <- <-];
         [|by apply refused_accounted, (replayed_research_misses _ _ _ Ho)].
       assert (default f64_zero (ResearchOutput.cost_usd out) = f64_zero) as Hcost
         by (revert Ho; unfold to_research_output; by destruct (CassetteEntry.body entry); [intros [= <-]|]).
       destruct (meter_receipt now "claude" None f64_zero (Some "vcr_replay"%string) w _ Hcost) as (E & Hm).
       by apply idle_accounted. }
  all: assert (∀ c, AppContext.vcr cx ≠ VcrReplay c) as Hlive by (intros c; by rewrite Hvcr).
  all: cbn zeta; set (req' := upd ResearchRequest.job_id _ _); set (key := if _ : bool then Some _ else None).
  all: assert (∀ e, Some (w, Err (Storage e)) = Some (w', r) →
         accounted now w (answer_cost ResearchOutput.cost_usd r) w') as Hstore
         by (intros e [= <- <-]; by apply refused_accounted).
  all: destruct (key ≫= _) as [hit|];
    [|destruct key, (Moment.cache_error now); solve [apply Hstore|by apply research_live_accounted]].
  all: assert (∀ detail entry, Some (record_in_cassette cx now entry
         (meter jobs cx now "claude" None f64_zero (Some detail) w),
         Ok (hit <| ResearchOutput.cost_usd := Some f64_zero |>)) = Some (w', r) →
         accounted now w (answer_cost ResearchOutput.cost_usd r) w') as Hhit
         by (intros detail entry [= <- <-]; by apply cache_hit_accounted).
  all: destruct key, (Moment.cache_error now); solve [apply Hstore|by apply Hhit].
Qed.

Lemma perform_accounted now c w w' r : perform now c w = Some (w', r) → accounted now w r w'.
Proof.
  destruct c as [req|req]; cbn.
  - pose proof (fetch_accounted now req w) as Hf. destruct (fetch _ _ _ _ _) as [w1 r1]. by intros [= <- <-].
  - destruct (research _ _ _ _ _ _) as [[w1 r1]|] eqn:Hr; cbn; [|done]. intros [= <- <-].
    by eapply research_accounted.
Qed.

Fixpoint kept (moments : list Moment.t) (rowss : list cost_events) : cost_events :=
  match moments, rowss with
  | now :: moments, rows :: rowss => (if Moment.meters now then rows else []) ++ kept moments rowss
  | _, _ => []
  end.
Lemma kept_all moments rowss :
  Forall (λ now, Moment.meters now = true) moments → length moments = length rowss → kept moments rowss = concat rowss.
Proof.
  intros Hall. revert rowss. induction Hall as [|now moments Hnow _ IH]; intros [|rows rowss] Hl; [done..|].
  cbn. rewrite Hnow, IH; [done|by injection Hl].
Qed.
Lemma performs_receipts l w w' rs :
  performs l w = Some (w', rs) →
  ∃ rowss, Forall2 receipt rs rowss ∧ length rowss = length l
    ∧ Shared.spent_usd w' = foldl Costs.meter (Shared.spent_usd w) (concat rowss)
    ∧ Shared.cost_rows w' = Shared.cost_rows w ++ kept l.*1 rowss.
Proof.
  revert w rs. induction l as [|[now c] l IH]; intros w rs; cbn.
  { intros [= -> <-]. exists []. split; [done|]. split; [done|]. cbn. by rewrite app_nil_r. }
  destruct (perform now c w) as [[w1 r]|] eqn:Hp; cbn; [|done].
  destruct (performs l w1) as [[w2 rs']|] eqn:Hl; cbn; [|done]. intros [= -> <-].
  destruct (IH _ _ Hl) as (rowss & Hrec & Hlen & Hs & Hc).
  destruct (perform_accounted _ _ _ _ _ Hp) as (_ & rows & (Hs1 & Hc1) & Hr).
  exists (rows :: rowss). split; [by constructor|]. split; [cbn; by rewrite Hlen|].
  cbn. rewrite Hs, Hc, Hs1, Hc1, foldl_app, app_assoc. by split.
Qed.

(** C24: The ceiling governs the model: whatever a call does, the engines it asks are asked at most
    once a tier; the model is asked only while the job has headroom, and with a ceiling of its
    own no larger than that headroom - never when the job's bills are unpriceable - and a replay
    asks nothing at all. *)
Theorem the_ceiling_governs_the_model now c w w' r :
  perform now c w = Some (w', r) →
  ∃ new, Shared.calls w' = Shared.calls w ++ new ∧ NoDup (map call_tier new)
    ∧ (∀ cassette, AppContext.vcr cx = VcrReplay cassette → new = [])
    ∧ ∀ req, ToClaude req ∈ new →
        match verdict cx w with
        | Unlimited => True
        | Headroom h =>
            f64_le h f64_zero = false
            ∧ ∃ b, ResearchRequest.max_budget_usd req = Some b ∧ f64_le b h = true
        | Unpriceable _ => False
        end.
Proof.
  intros Hp. destruct (perform_accounted _ _ _ _ _ Hp) as ((new & Hc & [Hall Hn] & Hr) & _).
  exists new. by split_and!.
Qed.

(** C25: Every call leaves its receipt: a call that answers leaves one row with the cost it answered, a
    call that failed leaves exactly what the failure spent, and the running total advances by
    those rows whether or not the ledger could be written.  So when it could, the ceiling reads
    after any sequence of calls what a fresh read of the whole ledger would tell it. *)
Theorem every_call_leaves_its_receipt l w w' rs :
  performs l w = Some (w', rs) →
  ∃ rowss, Forall2 receipt rs rowss
    ∧ Shared.spent_usd w' = foldl Costs.meter (Shared.spent_usd w) (concat rowss)
    ∧ Shared.cost_rows w' = Shared.cost_rows w ++ kept l.*1 rowss
    ∧ ∀ policy,
        Shared.spent_usd w = SpentTotal.from_spend (JobSpend.from_events (Shared.cost_rows w)) policy →
        Forall (λ now, Moment.meters now = true) l.*1 →
        (∀ e, e ∈ Shared.cost_rows w' → reported e = true) →
        verdict cx w' = budget_verdict (AppContext.budget_usd cx) (JobSpend.from_events (Shared.cost_rows w')) policy.
Proof.
  intros Hp. destruct (performs_receipts _ _ _ _ Hp) as (rowss & Hrec & Hlen & Hs & Hc). exists rowss.
  split_and!; [done..|]. intros policy Hseed Hall. rewrite kept_all in Hc; [|done|by rewrite length_fmap].
  rewrite Hc. intros Hrep. unfold verdict. rewrite Hs, Hseed.
  by destruct (running_total_mirrors_ledger policy (AppContext.budget_usd cx) (Shared.cost_rows w) (concat rowss) Hrep)
    as (_ & -> & _).
Qed.
End guarantees.

(** ** A job of three dollars *)

Module MeterDemo.
#[local] Instance lower : Unicode := ascii_lower.
#[local] Instance urls : UrlLib := FetcherDemo.urls.
#[local] Instance tree : HtmlTree := Text.
#[local] Instance to_md : ToMarkdown := λ s, s.
#[local] Instance render : JsonRender := λ _, EmptyString.
#[local] Instance parse : JsonParse := λ _, None.
#[local] Instance form : FormUrlEncoded := λ s, s.
#[local] Instance uuid : UuidText := CassetteDemo.uuid.
#[local] Instance sha : Sha256 := CassetteDemo.sha.
#[local] Instance codec : CassetteCodec := CassetteDemo.codec.
#[local] Instance source : RecipeSource api_recipes := FetcherDemo.source.
#[local] Instance engines : Engines := FetcherDemo.engines.

Definition cx : AppContext.t := AppContext.mk 1 "demo" (Some (f64_of_Z 3)) VcrOff FetcherDemo.cfg 3600.
Definition start : Shared.t api_recipes :=
  Shared.mk _ (SpentTotal.from_spend (JobSpend.from_events []) WindowMean) [] [] GovernorDemo.fresh [] 0 0
    (ResearchCache.mk 0 []) Recorder.new None [].
Definition now : Moment.t := Moment.mk 0 FetcherDemo.clock 0 0 0 0 true true true None true true true.
Definition asked : Call := Researches (ResearchRequest.new "why").
Definition three_calls : list (Moment.t * Call) :=
  [(now, asked); (now, Fetches FetcherDemo.research); (now, asked)].

(** Two killed runs spend four dollars of three; the third call is refused. *)
Example the_third_is_refused :
  match performs (λ _, EmptyString) [] cx three_calls start with
  | Some (w, rs) =>
      map (λ r, match r with Err (BudgetExhausted _) => true | _ => false end) rs = [false; false; true]
      ∧ map paid (Shared.cost_rows w) = [(f64_of_Z 2, Billed); (f64_of_Z 2, Billed)]
      ∧ verdict cx w = Headroom f64_zero
  | None => False
  end.
Proof. vm_compute. done. Qed.

Lemma the_ceiling_governs_the_model_witness :
  ∃ w' r, perform (λ _, EmptyString) [] cx now asked start = Some (w', r)
  ∧ ∃ new, Shared.calls w' = Shared.calls start ++ new ∧ NoDup (map call_tier new).
Proof.
  destruct (perform (λ _, EmptyString) [] cx now asked start) as [[w' r]|] eqn:Hp; [|vm_compute in Hp; discriminate].
  exists w', r. split; [reflexivity|].
  destruct (the_ceiling_governs_the_model (λ _, EmptyString) [] cx now asked start w' r Hp) as (new & Hc & Hn & _).
  exists new. split; [exact Hc|exact Hn].
Defined.

Lemma every_call_leaves_its_receipt_witness :
  ∃ w' rs rowss, performs (λ _, EmptyString) [] cx three_calls start = Some (w', rs) ∧ Forall2 (receipt cx) rs rowss.
Proof.
  destruct (performs (λ _, EmptyString) [] cx three_calls start) as [[w' rs]|] eqn:Hp; [|vm_compute in Hp; discriminate].
  pose proof (every_call_leaves_its_receipt (λ _, EmptyString) [] cx three_calls start w' rs Hp) as (rowss & Hr & _).
  exists w', rs, rowss. split; [reflexivity|exact Hr].
Defined.
End MeterDemo.

(** ** An answer nobody priced

    The model answers without a price: [research] writes down that it could not read the bill,
    [fetch] writes down that there was none, and the ceiling counts the call as free. *)
Module UnpricedDemo.
#[local] Existing Instances MeterDemo.lower MeterDemo.urls MeterDemo.tree MeterDemo.to_md MeterDemo.render
  MeterDemo.parse MeterDemo.form MeterDemo.uuid MeterDemo.sha MeterDemo.codec MeterDemo.source.
#[local] Instance engines : Engines := {|
  http_client _ g := (g, 7, Ok (TierResponse.mk 200 [] "thin" false));
  remote_client := None; archive_client := None;
  browser_client _ g := (g, 9, Ok (RenderedPage.mk "captcha" []));
  claude_client _ g := (g, 11, Ok (ResearchOutput.mk "answer" None None None None None None)) |}.

Example an_unpriced_answer_is_free :
  map (λ c, match performs (λ _, EmptyString) [] MeterDemo.cx [(MeterDemo.now, c)] MeterDemo.start with
            | Some (w, _) => map paid (Shared.cost_rows w)
            | None => []
            end)
    [MeterDemo.asked; Fetches FetcherDemo.research]
  = [[(f64_zero, Unmetered)]; [(f64_zero, Free)]].
Proof. vm_compute. done. Qed.
End UnpricedDemo.
