(* ===== verification/Transactions.v ===== *)
(** * Transactions: the approval ledger and the one irreversible click

    [crates/core/src/transactions.rs] with the digest and the guard of [engine.rs], the doors
    of [routes/transactions.rs] (and of [mcp/mod.rs], which runs the same statements), and the
    [transact] app with the commit of [engine-browser]: a dry run stages evidence, an approval
    releases the parked job, the resumed attempt clicks.  Each statement of the store and each
    pass over the page is a place where another task may come between; the tasks are a
    transition system over the ledger.  Then what it guarantees, and what it does not. *)

From stdpp Require Import gmap pretty.
From S2P Require Import Prelude Sql Json Filters Errors Records Fetcher HttpEngine.

(** ** The reviewed surface *)

Inductive StepOutcome : Type := StepOk | SelectorMissing | ActionFailed | StepPartial.
#[global] Instance StepOutcome_eq_dec : EqDecision StepOutcome.
Proof. solve_decision. Defined.

Module FilledField.
Record t : Type := mk {
  selector : string; value : option string; found : bool; redacted : bool; value_len : option Z;
  truncated : bool }.
End FilledField.
Module SubmitTarget.
Record t : Type := mk {
  selector : string; found : option bool; visible : option bool; enabled : option bool;
  tag : option string; label : option string }.
End SubmitTarget.

Definition SOH : string := String "001"%char EmptyString.
Definition STX : string := String "002"%char EmptyString.
Definition opt_bool (v : option bool) : string :=
  match v with Some true => "yes" | Some false => "no" | None => "unknown" end.
Definition bool_text (b : bool) : string := if b then "true" else "false".
Definition field_row (f : FilledField.t) : string :=
  String.concat SOH
    ["f"; FilledField.selector f; bool_text (FilledField.found f); bool_text (FilledField.redacted f);
     default EmptyString (pretty <$> FilledField.value_len f)]%string.
Definition target_row (t : option SubmitTarget.t) : string :=
  match t with
  | Some t =>
      String.concat SOH
        ["t"; SubmitTarget.selector t; opt_bool (SubmitTarget.found t); opt_bool (SubmitTarget.visible t);
         opt_bool (SubmitTarget.enabled t); default EmptyString (SubmitTarget.tag t);
         default EmptyString (SubmitTarget.label t)]%string
  | None => String.concat SOH ["t"; "none"]%string
  end.
(** What a reviewer looked at: never a value. *)
Definition evidence_digest `{Sha256} (submit_target : option SubmitTarget.t) (filled : list FilledField.t) : string :=
  sha256_hex (String.concat STX (target_row submit_target :: order_by String.leb (map field_row filled))).

Inductive CommitRefusal : Type := ProbeMismatch (approved observed : string).
Definition commit_refusal_message (r : CommitRefusal) : string :=
  let 'ProbeMismatch approved observed := r in
  ("submit blocked: probe_mismatch. The page approved for submission hashed to " +:+ approved
     +:+ "; re-probed immediately before the click it hashes to " +:+ observed
     +:+ ". The submit target or a filled field changed after review, so the approved action is "
     +:+ "no longer the action that would run. Nothing was submitted. Re-run the dry run "
     +:+ "to capture fresh evidence and approve that.")%string.
Definition commit_guard (approved_sha observed_sha : string) : result CommitRefusal unit :=
  if String.eqb approved_sha observed_sha then Ok tt else Err (ProbeMismatch approved_sha observed_sha).

(** ** A row and its decisions *)

Inductive TransactionState : Type := Pending | Approved | Submitted | Rejected | Expired.
#[global] Instance TransactionState_eq_dec : EqDecision TransactionState.
Proof. solve_decision. Defined.
Definition state_as_str (s : TransactionState) : string :=
  match s with
  | Pending => "pending" | Approved => "approved" | Submitted => "submitted" | Rejected => "rejected"
  | Expired => "expired"
  end.
Definition state_parse (s : string) : option TransactionState :=
  List.find (λ st, String.eqb s (state_as_str st)) [Pending; Approved; Submitted; Rejected; Expired].
Definition is_terminal (s : TransactionState) : bool :=
  match s with Submitted | Rejected | Expired => true | Pending | Approved => false end.

Module Transaction.
Record t : Type := mk {
  id : string; idempotency_key : string; app : string; job_id : option string; profile : option string;
  state : TransactionState; evidence_sha : string; approved_by : option string;
  approved_at : option timestamp; submitted_at : option timestamp; receipt_path : option string;
  created_at : timestamp; updated_at : timestamp }.
#[global] Instance eta_transaction : Eta t := λ r,
  mk (id r) (idempotency_key r) (app r) (job_id r) (profile r) (state r) (evidence_sha r) (approved_by r)
    (approved_at r) (submitted_at r) (receipt_path r) (created_at r) (updated_at r).
End Transaction.
Abbreviation ledger := (list Transaction.t).

Inductive ApprovalRefusal : Type :=
| LiveDisabled
| NotPending (s : TransactionState)
| DeadlinePassed
| EvidenceMismatch (on_row quoted : string)
| DailyCapReached (cap used : Z).

Definition approve_decision (allow_live : bool) (state : TransactionState) (expires_at : option timestamp)
    (now : timestamp) (row_evidence_sha : string) (quoted_evidence_sha : option string)
    (submitted_today : Z) (daily_cap : option Z) : result ApprovalRefusal unit :=
  if negb allow_live then Err LiveDisabled
  else if negb (bool_decide (state = Pending)) then Err (NotPending state)
  else if (match expires_at with Some deadline => deadline <=? now | None => false end) then Err DeadlinePassed
  else
    match quoted_evidence_sha with
    | Some quoted =>
        if String.eqb quoted row_evidence_sha then Ok tt else Err (EvidenceMismatch row_evidence_sha quoted)
    | None => Ok tt
    end ≫= λ _ : unit,
    match daily_cap with
    | Some cap =>
        if (0 <? cap) && (cap <=? submitted_today) then Err (DailyCapReached cap submitted_today) else Ok tt
    | None => Ok tt
    end.
Definition reject_decision (state : TransactionState) : result ApprovalRefusal unit :=
  if bool_decide (state = Pending) then Ok tt else Err (NotPending state).

(** The TTL stays within what [chrono] adds without a panic. *)
Module TransactConfig.
Record t : Type := mk {
  allow_live : bool; approval_ttl_secs : Z; max_submits_per_profile_per_day : Z; list_limit : Z }.
Definition default : t := mk false (24 * 60 * 60) 10 100.
Definition ttl_micros (c : t) : Z := approval_ttl_secs c * 10 ^ 6.
Definition approval_deadline (c : t) (created_at : timestamp) : option timestamp :=
  if 0 <? approval_ttl_secs c then Some (created_at + ttl_micros c) else None.
Definition daily_cap (c : t) : option Z :=
  if 0 <? max_submits_per_profile_per_day c then Some (max_submits_per_profile_per_day c) else None.
End TransactConfig.

(** ** The statements *)

Module NewTransaction.
Record t : Type := mk {
  idempotency_key : string; app : string; job_id : option string; profile : option string; evidence_sha : string }.
End NewTransaction.

Definition get_tx (id : string) (t : ledger) : option Transaction.t := lookup_by Transaction.id id t.
Definition by_key (key : string) (t : ledger) : option Transaction.t := lookup_by Transaction.idempotency_key key t.
Definition in_state (id : string) (s : TransactionState) (r : Transaction.t) : bool :=
  String.eqb (Transaction.id r) id && bool_decide (Transaction.state r = s).
(** A guarded [UPDATE] and whether it landed. *)
Definition guarded_tx (p : Transaction.t → bool) (f : Transaction.t → Transaction.t) (t : ledger) : ledger * bool :=
  (update_where p f t, 0 <? rows_affected p t).

Definition refresh_pending (now : timestamp) (id : string) (new : NewTransaction.t) (t : ledger) : ledger :=
  update_where (in_state id Pending)
    (λ r, r <| Transaction.job_id := NewTransaction.job_id new |>
            <| Transaction.profile := NewTransaction.profile new |>
            <| Transaction.evidence_sha := NewTransaction.evidence_sha new |>
            <| Transaction.updated_at := now |>) t.
(** [None]: the primary key or the unique index refuses the row. *)
Definition insert_pending (now : timestamp) (id : string) (new : NewTransaction.t) (t : ledger) : option ledger :=
  if existsb (λ r, String.eqb (Transaction.id r) id
                   || String.eqb (Transaction.idempotency_key r) (NewTransaction.idempotency_key new)) t
  then None
  else
    Some (t ++ [Transaction.mk id (NewTransaction.idempotency_key new) (NewTransaction.app new)
                  (NewTransaction.job_id new) (NewTransaction.profile new) Pending
                  (NewTransaction.evidence_sha new) None None None None now now]).
Definition mark_approved (now : timestamp) (id : string) (by_ : option string) (t : ledger) : ledger * bool :=
  guarded_tx (in_state id Pending)
    (λ r, r <| Transaction.state := Approved |> <| Transaction.approved_by := by_ |>
            <| Transaction.approved_at := Some now |> <| Transaction.updated_at := now |>) t.
Definition mark_rejected (now : timestamp) (id : string) (by_ : option string) (t : ledger) : ledger * bool :=
  guarded_tx (in_state id Pending)
    (λ r, r <| Transaction.state := Rejected |> <| Transaction.approved_by := by_ |>
            <| Transaction.approved_at := Some now |> <| Transaction.updated_at := now |>) t.
Definition mark_submitted (now : timestamp) (id : string) (receipt_path : string) (t : ledger) : ledger * bool :=
  guarded_tx (in_state id Approved)
    (λ r, r <| Transaction.state := Submitted |> <| Transaction.submitted_at := Some now |>
            <| Transaction.receipt_path := Some receipt_path |> <| Transaction.updated_at := now |>) t.
Definition stale (cutoff : timestamp) (r : Transaction.t) : bool :=
  bool_decide (Transaction.state r = Pending) && (Transaction.created_at r <=? cutoff).
Definition expire_stale (cfg : TransactConfig.t) (now : timestamp) (t : ledger) : ledger * Z :=
  if TransactConfig.approval_ttl_secs cfg =? 0 then (t, 0)
  else
    let p := stale (now - TransactConfig.ttl_micros cfg) in
    (update_where p (λ r, r <| Transaction.state := Expired |> <| Transaction.updated_at := now |>) t,
     rows_affected p t).
Definition submitted_by (profile : option string) (since : timestamp) (r : Transaction.t) : bool :=
  bool_decide (Transaction.state r = Submitted) && bool_decide (Transaction.profile r = profile)
  && match Transaction.submitted_at r with Some at_ => since <=? at_ | None => false end.
Definition submitted_since (profile : option string) (since : timestamp) (t : ledger) : Z :=
  rows_affected (submitted_by profile since) t.
Definition list_tx (state : option TransactionState) (limit : Z) (t : ledger) : ledger :=
  sql_limit limit
    (order_by (λ a b, Transaction.created_at b <=? Transaction.created_at a)
       (select_where (λ r, match state with Some s => bool_decide (Transaction.state r = s) | None => true end) t)).

(** ** The flow a job carries *)

Module TransactRequest.
Record t : Type := mk {
  url : string; profile : option string; steps : list PageAction; submit_action : PageAction; submit : bool;
  idempotency_key : string; wait_for_selector : option string; confirm_selector : option string }.
End TransactRequest.

Definition TRANSACT_FIELDS : list string :=
  ["url"; "profile"; "steps"; "submit_action"; "submit"; "idempotency_key"; "wait_for_selector";
   "confirm_selector"; "extra_wait_ms"; "max_body_bytes"]%string.
Definition unknown_transact_fields (params : Json) : list string :=
  match params with
  | JObject fields =>
      List.filter (λ k, negb (String.prefix "_" k) && negb (existsb (String.eqb k) TRANSACT_FIELDS)) (map fst fields)
  | _ => []
  end.
Definition validate_request (req : TransactRequest.t) : result Error unit :=
  if String.eqb (str_trim (TransactRequest.idempotency_key req)) "" then
    Err (Transact ("idempotency_key must be a non-empty caller-chosen key: it is recorded with the "
      +:+ "evidence bundle and will dedup live submissions in the next slice"))
  else
    match TransactRequest.profile req with
    | Some profile => require_safe_profile_name profile
    | None => Ok tt
    end.
(** The selectors a flow types into, once each, inside its repeats too. *)
Fixpoint walk_step (out : list string) (step : PageAction) : list string :=
  match step with
  | TypeText selector _ => if existsb (String.eqb selector) out then out else out ++ [selector]
  | Repeat _ steps _ => foldl walk_step out steps
  | _ => out
  end.
Definition fill_selectors (req : TransactRequest.t) : list string := foldl walk_step [] (TransactRequest.steps req).

(** What one pass over the page answers: the outcome of each action it reached. *)
Definition reached_submit (steps : list PageAction) (outcomes : list StepOutcome) : bool :=
  (length outcomes =? S (length steps))%nat.
Definition submit_outcome (steps : list PageAction) (outcomes : list StepOutcome) : StepOutcome :=
  if reached_submit steps outcomes then default StepPartial (outcomes !! length steps) else StepPartial.
Definition submitted (steps : list PageAction) (outcomes : list StepOutcome) : bool :=
  reached_submit steps outcomes && bool_decide (submit_outcome steps outcomes = StepOk).

(** ** The tasks, and the places where they touch what they share *)

Inductive Task : Type :=
(** a read of the ledger, which sweeps first *)
| Sweep
(** the approve door *)
| ApproveSweep (id : string) (quoted by_ : option string)
| ApproveRead (id : string) (quoted by_ : option string)
| ApproveDecide (row : Transaction.t) (quoted by_ : option string)
| ApproveMark (row : Transaction.t) (by_ : option string)
| ApproveResume (row : Transaction.t)
(** the reject door *)
| RejectRead (id : string) (by_ : option string)
| RejectMark (row : Transaction.t) (by_ : option string)
(** a staging run, after its dry run *)
| StageRead (new : NewTransaction.t)
| StageRefresh (id : string) (new : NewTransaction.t)
| StageInsert (new : NewTransaction.t)
| StageReadBack (id : string) (new : NewTransaction.t) (gone : string)
(** a commit: the row, the page, the click, the receipt *)
| CommitRead (req : TransactRequest.t)
| CommitCheck (row : Transaction.t) (req : TransactRequest.t)
| CommitSubmit (row : Transaction.t) (req : TransactRequest.t) (observed : string)
| CommitSave (row : Transaction.t)
| CommitMark (row : Transaction.t).

Inductive Note : Type :=
| Grants (id evidence_sha : string) (quoted : option string)
| Resumes (job_id : option string) (transaction_id evidence_sha : string)
| WasRejected (id : string)
| Refuses (id : string) (why : ApprovalRefusal)
| NotFound (id : string)
| Parks (transaction_id evidence_sha : string)
| Resolved (transaction_id : string) (s : TransactionState)
| Clicked (transaction_id evidence_sha : string)
| Landed (transaction_id : string)
(** the attempt ended, in an error or without a word, with the click behind it *)
| Lost (transaction_id : string)
| FailsWith (e : Error).

(** What a task meets at its place: the clock, read twice by a decision; whether the store
    answers; a fresh id; what each pass over the page answers. *)
Module Env.
Record t : Type := mk {
  now : timestamp; later : timestamp; stored : result Error unit; fresh_id : string;
  page : result Error (option SubmitTarget.t * list FilledField.t);
  (** the click's own pass: whether the action ran, and what the pass answered *)
  ran : bool; outcomes : result Error (list StepOutcome);
  artifacts : result Error unit }.
End Env.

Module World.
Record t : Type := mk { rows : ledger; tasks : list Task; notes : list Note }.
#[global] Instance eta_world : Eta t := λ w, mk (rows w) (tasks w) (notes w).
Definition init : t := mk [] [] [].
End World.

Section tasks.
Context `{Sha256} (cfg : TransactConfig.t).
Implicit Types (w : World.t) (env : Env.t).

Definition note (n : Note) w : World.t := w <| World.notes ::= λ l, l ++ [n] |>.
Definition CAP_WINDOW_HOURS : Z := 24.
Definition cap_since (now : timestamp) : timestamp := now - CAP_WINDOW_HOURS * 3600 * 10 ^ 6.

Definition decide_approval env (row : Transaction.t) (quoted : option string) (t : ledger) :
    result ApprovalRefusal unit :=
  approve_decision (TransactConfig.allow_live cfg) (Transaction.state row)
    (TransactConfig.approval_deadline cfg (Transaction.created_at row)) (Env.later env)
    (Transaction.evidence_sha row) quoted
    (submitted_since (Transaction.profile row) (cap_since (Env.now env)) t) (TransactConfig.daily_cap cfg).

Definition lost_race (id : string) w : World.t :=
  match get_tx id (World.rows w) with
  | Some now => note (Refuses id (NotPending (Transaction.state now))) w
  | None => note (NotFound id) w
  end.
Definition not_approved (row : Transaction.t) : Error :=
  Transact ("transaction " +:+ Transaction.id row +:+ " is '" +:+ state_as_str (Transaction.state row)
    +:+ "', not 'approved': this run was resumed without an approval "
    +:+ "that the ledger recognises, so nothing was submitted. Approve through "
    +:+ "POST /transactions/" +:+ Transaction.id row +:+ "/approve, which is the only door that can move a row to "
    +:+ "'approved'.").
Definition nothing_staged (key : string) : Error :=
  Transact ("no transaction is staged for idempotency_key '" +:+ key +:+ "', so there is no approval to "
    +:+ "act on. A resume cannot mint one: the ledger is the only thing that can release an "
    +:+ "irreversible action.").

(** The click's pass: it leaves a click on the page when the action ran, whatever it answers;
    an answer that reports the action done is true. *)
Definition clicked env (req : TransactRequest.t) : bool :=
  Env.ran env
  || match Env.outcomes env with Ok outcomes => submitted (TransactRequest.steps req) outcomes | Err _ => false end.
Definition submit_turn env (row : Transaction.t) (req : TransactRequest.t) (observed : string) w :
    World.t * list Task :=
  let w := if clicked env req then note (Clicked (Transaction.id row) observed) w else w in
  let lose w := if clicked env req then note (Lost (Transaction.id row)) w else w in
  match Env.outcomes env with
  | Err e => (lose (note (FailsWith e) w), [])
  | Ok outcomes =>
      if submitted (TransactRequest.steps req) outcomes then (w, [CommitSave row])
      else (* the receipt says it did not run; the row stays approved *)
        (lose w, [])
  end.

(** One turn of a task: what becomes of the ledger, what is said, and where the task goes on. *)
Definition turn env (task : Task) w : World.t * list Task :=
  let now := Env.now env in
  match task with
  | CommitCheck row req =>
      match Env.page env with
      | Err e => (note (FailsWith e) w, [])
      | Ok (target, fields) =>
          let observed := evidence_digest target fields in
          match commit_guard (Transaction.evidence_sha row) observed with
          | Err refusal => (note (FailsWith (Transact (commit_refusal_message refusal))) w, [])
          | Ok _ => (w, [CommitSubmit row req observed])
          end
      end
  | CommitSubmit row req observed => submit_turn env row req observed w
  | CommitSave row =>
      match Env.artifacts env with
      | Ok _ => (w, [CommitMark row])
      | Err e => (note (Lost (Transaction.id row)) (note (FailsWith e) w), [])
      end
  | ApproveResume row =>
      (note (Resumes (Transaction.job_id row) (Transaction.id row) (Transaction.evidence_sha row)) w, [])
  | CommitMark row =>
      match Env.stored env with
      | Err e => (note (Lost (Transaction.id row)) (note (FailsWith e) w), [])
      | Ok _ =>
          let '(t, landed) := mark_submitted now (Transaction.id row) "receipt.json" (World.rows w) in
          (note (if landed then Landed (Transaction.id row) else Lost (Transaction.id row))
             (w <| World.rows := t |>), [])
      end
  | _ =>
      match Env.stored env with
      | Err e => (note (FailsWith e) w, [])
      | Ok _ =>
          match task with
          | Sweep => (w <| World.rows := (expire_stale cfg now (World.rows w)).1 |>, [])
          | ApproveSweep id quoted by_ =>
              (w <| World.rows := (expire_stale cfg now (World.rows w)).1 |>, [ApproveRead id quoted by_])
          | ApproveRead id quoted by_ =>
              match get_tx id (World.rows w) with
              | Some row => (w, [ApproveDecide row quoted by_])
              | None => (note (NotFound id) w, [])
              end
          | ApproveDecide row quoted by_ =>
              match decide_approval env row quoted (World.rows w) with
              | Ok _ => (note (Grants (Transaction.id row) (Transaction.evidence_sha row) quoted) w,
                         [ApproveMark row by_])
              | Err why => (note (Refuses (Transaction.id row) why) w, [])
              end
          | ApproveMark row by_ =>
              let '(t, landed) := mark_approved now (Transaction.id row) by_ (World.rows w) in
              let w := w <| World.rows := t |> in
              if landed then (w, [ApproveResume row]) else (lost_race (Transaction.id row) w, [])
          | RejectRead id by_ =>
              match get_tx id (World.rows w) with
              | None => (note (NotFound id) w, [])
              | Some row =>
                  match reject_decision (Transaction.state row) with
                  | Ok _ => (w, [RejectMark row by_])
                  | Err why => (note (Refuses id why) w, [])
                  end
              end
          | RejectMark row by_ =>
              let '(t, landed) := mark_rejected now (Transaction.id row) by_ (World.rows w) in
              let w := w <| World.rows := t |> in
              if landed then (note (WasRejected (Transaction.id row)) w, [])
              else (lost_race (Transaction.id row) w, [])
          | StageRead new =>
              match by_key (NewTransaction.idempotency_key new) (World.rows w) with
              | Some existing =>
                  if bool_decide (Transaction.state existing = Pending)
                  then (w, [StageRefresh (Transaction.id existing) new])
                  else (note (Resolved (Transaction.id existing) (Transaction.state existing)) w, [])
              | None => (w, [StageInsert new])
              end
          | StageRefresh id new =>
              (w <| World.rows ::= refresh_pending now id new |>, [StageReadBack id new "transaction vanished mid-stage"])
          | StageInsert new =>
              match insert_pending now (Env.fresh_id env) new (World.rows w) with
              | Some t => (w <| World.rows := t |>, [StageReadBack (Env.fresh_id env) new "transaction vanished after insert"])
              | None => (note (FailsWith (Storage (Database (Some "2067"%string) "UNIQUE constraint failed"))) w, [])
              end
          | StageReadBack id new gone =>
              match get_tx id (World.rows w) with
              | None => (note (FailsWith (Parse gone None)) w, [])
              | Some row =>
                  if bool_decide (Transaction.state row = Pending)
                  then (note (Parks (Transaction.id row) (NewTransaction.evidence_sha new)) w, [])
                  else (note (Resolved (Transaction.id row) (Transaction.state row)) w, [])
              end
          | CommitRead req =>
              match by_key (TransactRequest.idempotency_key req) (World.rows w) with
              | None => (note (FailsWith (nothing_staged (TransactRequest.idempotency_key req))) w, [])
              | Some row =>
                  if bool_decide (Transaction.state row = Approved) then (w, [CommitCheck row req])
                  else (note (FailsWith (not_approved row)) w, [])
              end
          | _ => (w, [])
          end
      end
  end.

(** A task past its click that is cut short loses the click. *)
Definition cut (task : Task) w : World.t :=
  match task with
  | CommitSave row | CommitMark row => note (Lost (Transaction.id row)) w
  | _ => w
  end.
Inductive Event : Type :=
| Begins (task : Task)
| Turn (place : nat) (env : Env.t)
| Cut (place : nat).
(** The places a task starts from: the doors, a read, and the two halves of a run. *)
Definition starts (task : Task) : bool :=
  match task with
  | Sweep | ApproveSweep _ _ _ | RejectRead _ _ | StageRead _ | CommitRead _ => true
  | _ => false
  end.
Definition step (ev : Event) w : World.t :=
  match ev with
  | Begins task => if starts task then w <| World.tasks ::= λ l, l ++ [task] |> else w
  | Turn i env =>
      match World.tasks w !! i with
      | None => w
      | Some task =>
          let '(w', next) := turn env task w in
          w' <| World.tasks := take i (World.tasks w) ++ next ++ drop (S i) (World.tasks w) |>
      end
  | Cut i =>
      match World.tasks w !! i with
      | None => w
      | Some task => (cut task w) <| World.tasks := take i (World.tasks w) ++ drop (S i) (World.tasks w) |>
      end
  end.
Definition run (evs : list Event) w : World.t := foldl (λ w ev, step ev w) w evs.

(** A run of the app: which half it begins, once its parameters are in order.  [staged]: the
    transaction its dry run describes. *)
Definition run_transact (params : Json) (req : TransactRequest.t) (resumed_input : option Json) (staged : NewTransaction.t) : result Error (option Task) :=
  match unknown_transact_fields params with
  | _ :: _ as unknown => Err (Transact ("unknown transact params " +:+ String.concat ", " unknown))
  | [] =>
      _ ← validate_request req;
      if TransactRequest.submit req && is_some resumed_input then Ok (Some (CommitRead req))
      else Ok (if TransactRequest.submit req then Some (StageRead staged) else None)
  end.
End tasks.

(** ** What the ledger guarantees *)

(** [r'] is [r] later: of the same transaction, no state left but along the lifecycle, and no
    evidence changed once someone decided. *)
Definition advances (r r' : Transaction.t) : Prop :=
  Transaction.id r' = Transaction.id r ∧ Transaction.idempotency_key r' = Transaction.idempotency_key r
  ∧ Transaction.created_at r' = Transaction.created_at r
  ∧ match Transaction.state r, Transaction.state r' with
    | Pending, Pending => True
    | Pending, (Approved | Rejected | Expired) | Approved, Submitted =>
        Transaction.evidence_sha r' = Transaction.evidence_sha r
    | _, _ => r' = r
    end.
Definition settled (s : TransactionState) : bool := match s with Approved | Submitted => true | _ => false end.

Lemma advances_refl r : advances r r.
Proof. unfold advances. by destruct (Transaction.state r). Qed.
Lemma advances_terminal r r' : advances r r' → is_terminal (Transaction.state r) = true → r' = r.
Proof. intros (_ & _ & _ & Ha). by destruct (Transaction.state r). Qed.
Lemma advances_settled r r' :
  advances r r' → settled (Transaction.state r) = true →
  settled (Transaction.state r') = true ∧ Transaction.evidence_sha r' = Transaction.evidence_sha r.
Proof.
  intros (_ & _ & _ & Ha). destruct (Transaction.state r) eqn:E; try done; intros _;
    destruct (Transaction.state r') eqn:E'; try done; subst r'; split; first [congruence|done].
Qed.

#[local] Arguments mark_approved : simpl never.
#[local] Arguments mark_rejected : simpl never.
#[local] Arguments mark_submitted : simpl never.
#[local] Arguments expire_stale : simpl never.
#[local] Arguments refresh_pending : simpl never.
#[local] Arguments insert_pending : simpl never.

(** The ledger after one step: its rows, each moved on, and at most one more. *)
Definition grows (t t' : ledger) : Prop :=
  ∃ kept fresh, t' = kept ++ fresh ∧ Forall2 advances t kept
    ∧ (fresh = [] ∨ ∃ r, fresh = [r] ∧ Transaction.state r = Pending
         ∧ Transaction.id r ∉ map Transaction.id t
         ∧ Transaction.idempotency_key r ∉ map Transaction.idempotency_key t).

Lemma Forall2_advances_refl t : Forall2 advances t t.
Proof. induction t; constructor; [apply advances_refl|done]. Qed.
Lemma grows_refl t : grows t t.
Proof. exists t, []. rewrite app_nil_r. split; [done|]. split; [apply Forall2_advances_refl|by left]. Qed.
Lemma grows_update p f t : (∀ r, p r = true → advances r (f r)) → grows t (update_where p f t).
Proof.
  intros Hf. exists (update_where p f t), []. rewrite app_nil_r. split; [done|]. split; [|by left].
  induction t as [|r t IH]; constructor; [|exact IH]. destruct (p r) eqn:E; [by apply Hf|apply advances_refl].
Qed.
Lemma in_state_spec id s r : in_state id s r = true ↔ Transaction.id r = id ∧ Transaction.state r = s.
Proof. unfold in_state. by rewrite andb_true_iff, String.eqb_eq, bool_decide_eq_true. Qed.

Ltac advance_tac := apply grows_update; intros ? Hp; apply in_state_spec in Hp as [? E]; unfold advances; cbn; by rewrite ?E.
Lemma refresh_grows now id new t : grows t (refresh_pending now id new t).
Proof. advance_tac. Qed.
Lemma approved_grows now id by_ t : grows t (mark_approved now id by_ t).1.
Proof. advance_tac. Qed.
Lemma rejected_grows now id by_ t : grows t (mark_rejected now id by_ t).1.
Proof. advance_tac. Qed.
Lemma submitted_grows now id path t : grows t (mark_submitted now id path t).1.
Proof. advance_tac. Qed.
Lemma expire_grows cfg now t : grows t (expire_stale cfg now t).1.
Proof.
  unfold expire_stale. case_if; [apply grows_refl|]. apply grows_update. intros r Hp.
  unfold stale in Hp. breflect. unfold advances. cbn. destruct Hp as [E _]. by rewrite E.
Qed.
Lemma insert_grows now id new t t' : insert_pending now id new t = Some t' → grows t t'.
Proof.
  unfold insert_pending. case_if; [done|]. intros [= <-]. eexists t, [_]. split; [done|].
  split; [apply Forall2_advances_refl|]. right. eexists. split; [done|]. split; [done|].
  cbn. assert (∀ r, r ∈ t → Transaction.id r ≠ id
                             ∧ Transaction.idempotency_key r ≠ NewTransaction.idempotency_key new) as Hno.
  { intros r Hr. rewrite <- not_true_iff_false, existsb_exists in Heqb. split; intros E; apply Heqb; exists r;
      (split; [by apply list_elem_of_In|]); rewrite orb_true_iff, !String.eqb_eq; auto. }
  split; rewrite list_elem_of_fmap; intros (r & E & Hr); destruct (Hno r Hr); congruence.
Qed.

Section guarantees.
Context `{Sha256} (cfg : TransactConfig.t).
Implicit Types (w : World.t) (env : Env.t) (t : ledger).

Lemma lost_race_rows id w : World.rows (lost_race id w) = World.rows w ∧ World.tasks (lost_race id w) = World.tasks w.
Proof. unfold lost_race. by destruct (get_tx id (World.rows w)). Qed.

Lemma turn_grows env task w :
  grows (World.rows w) (World.rows (turn cfg env task w).1) ∧ World.tasks (turn cfg env task w).1 = World.tasks w.
Proof.
  assert (grows (World.rows w) (World.rows w)) as Hr by apply grows_refl.
  destruct task; cbn; try (destruct (Env.stored env) as [[]|e]; [|by split]);
    try (split; [apply expire_grows|done]).
  - by destruct (get_tx id (World.rows w)).
  - by destruct (decide_approval _ _ _ _ _) as [[]|why].
  - destruct (mark_approved _ _ _ _) as [t landed] eqn:E. pose proof (approved_grows (Env.now env) (Transaction.id row) by_ (World.rows w)) as Hg.
    rewrite E in Hg. destruct landed; [by split|].
    cbn [fst]. match goal with |- context [lost_race ?i ?w] => destruct (lost_race_rows i w) as [-> ->] end. by split.
  - by split.
  - destruct (get_tx id (World.rows w)) as [row|]; [|by split]. by destruct (reject_decision _) as [[]|why].
  - destruct (mark_rejected _ _ _ _) as [t landed] eqn:E. pose proof (rejected_grows (Env.now env) (Transaction.id row) by_ (World.rows w)) as Hg.
    rewrite E in Hg. destruct landed; [by split|].
    cbn [fst]. match goal with |- context [lost_race ?i ?w] => destruct (lost_race_rows i w) as [-> ->] end. by split.
  - destruct (by_key _ _) as [row|]; [|by split]. by case_if.
  - split; [apply refresh_grows|done].
  - destruct (insert_pending _ _ _ _) as [t|] eqn:E; [|by split]. split; [by eapply insert_grows|done].
  - destruct (get_tx id (World.rows w)) as [row|]; [|by split]. by case_if.
  - destruct (by_key _ _) as [row|]; [|by split]. by case_if.
  - destruct (Env.page env) as [[target fields]|e]; [|by split]. by destruct (commit_guard _ _) as [[]|why].
  - unfold submit_turn. destruct (clicked env req), (Env.outcomes env) as [outcomes|e]; cbn; try case_if; done.
  - by destruct (Env.artifacts env) as [[]|e].
  - destruct (mark_submitted _ _ _ _) as [t landed] eqn:E. pose proof (submitted_grows (Env.now env) (Transaction.id row) "receipt.json" (World.rows w)) as Hg.
    rewrite E in Hg. by split.
Qed.
Lemma step_grows ev w : grows (World.rows w) (World.rows (step cfg ev w)).
Proof.
  destruct ev as [task|i env|i]; cbn.
  - case_if; apply grows_refl.
  - destruct (World.tasks w !! i) as [task|]; [|apply grows_refl].
    pose proof (turn_grows env task w) as [Hg _]. by destruct (turn cfg env task w).
  - destruct (World.tasks w !! i) as [[]|]; apply grows_refl.
Qed.

(** *** Who is granted, what is held *)

Definition granted (id : string) w : Prop := ∃ e q, Grants id e q ∈ World.notes w.
(** The ledger still has the row as a commit read it. *)
Definition held (id evidence : string) t : Prop :=
  ∃ r, r ∈ t ∧ Transaction.id r = id ∧ Transaction.evidence_sha r = evidence
       ∧ settled (Transaction.state r) = true.
Definition holds (row : Transaction.t) t : Prop := held (Transaction.id row) (Transaction.evidence_sha row) t.
Definition task_ok w (task : Task) : Prop :=
  match task with
  | ApproveMark row _ => granted (Transaction.id row) w
  | CommitCheck row _ | CommitSave row | CommitMark row => holds row (World.rows w)
  | CommitSubmit row _ observed => holds row (World.rows w) ∧ observed = Transaction.evidence_sha row
  | _ => True
  end.
Definition note_ok w (n : Note) : Prop :=
  match n with
  | Clicked id evidence => held id evidence (World.rows w)
  | Grants _ evidence quoted =>
      TransactConfig.allow_live cfg = true ∧ ∀ q, quoted = Some q → q = evidence
  | _ => True
  end.
Definition settled_granted w : Prop :=
  ∀ r, r ∈ World.rows w → settled (Transaction.state r) = true → granted (Transaction.id r) w.

(** Later: the rows moved on, and more was said. *)
Definition later w w' : Prop :=
  grows (World.rows w) (World.rows w') ∧ ∀ n, n ∈ World.notes w → n ∈ World.notes w'.

Lemma grows_held t t' id evidence : grows t t' → held id evidence t → held id evidence t'.
Proof.
  intros (kept & fresh & -> & Hall & _) (r & Hr & Hid & He & Hs).
  apply list_elem_of_lookup in Hr as (i & Hi). destruct (Forall2_lookup_l _ _ _ _ _ Hall Hi) as (r' & Hr' & Ha).
  exists r'. split; [apply elem_of_app; left; by eapply list_elem_of_lookup_2|].
  destruct (advances_settled _ _ Ha Hs) as [-> ->]. destruct Ha as (-> & _). done.
Qed.
Lemma granted_later id w w' : later w w' → granted id w → granted id w'.
Proof. intros [_ Hn] (e & q & Hg). exists e, q. by apply Hn. Qed.
Lemma task_ok_later w w' task : later w w' → task_ok w task → task_ok w' task.
Proof.
  intros Hl. destruct task; cbn; try done; try (by apply granted_later).
  all: unfold holds; try (intros Hh; by eapply grows_held; [apply Hl|]).
  intros [Hh ->]. split; [by eapply grows_held; [apply Hl|]|done].
Qed.
Lemma note_ok_later w w' n : later w w' → note_ok w n → note_ok w' n.
Proof. intros Hl. destruct n; cbn; try done. intros Hh. by eapply grows_held; [apply Hl|]. Qed.

(** Only [mark_approved] settles a row. *)
Definition unsettling t t' : Prop :=
  ∀ r', r' ∈ t' → settled (Transaction.state r') = true →
    ∃ r, r ∈ t ∧ Transaction.id r = Transaction.id r' ∧ settled (Transaction.state r) = true.
Lemma unsettling_refl t : unsettling t t.
Proof. intros r Hr Hs. by exists r. Qed.
Lemma unsettling_update p f t :
  (∀ r, p r = true → settled (Transaction.state (f r)) = true →
     Transaction.id (f r) = Transaction.id r ∧ settled (Transaction.state r) = true) →
  unsettling t (update_where p f t).
Proof.
  intros Hf r' Hr Hs. apply elem_of_update in Hr as (r & Hr & ->). destruct (p r) eqn:E; [|by exists r].
  destruct (Hf r E Hs) as [Hid Hset]. by exists r.
Qed.
Lemma unsettling_granted w w' :
  (∀ n, n ∈ World.notes w → n ∈ World.notes w') → unsettling (World.rows w) (World.rows w') →
  settled_granted w → settled_granted w'.
Proof.
  intros Hn Hu Hg r' Hr Hs. destruct (Hu r' Hr Hs) as (r & Hr0 & <- & Hs0).
  destruct (Hg r Hr0 Hs0) as (e & q & Hin). exists e, q. by apply Hn.
Qed.
Ltac unsettle_tac :=
  apply unsettling_update; intros ? Hp; unfold stale in Hp; breflect;
  rewrite ?in_state_spec in Hp; destruct Hp as [H1 H2]; cbn; rewrite ?H1, ?H2; done.
Lemma expire_unsettling now t : unsettling t (expire_stale cfg now t).1.
Proof. unfold expire_stale. case_if; [apply unsettling_refl|]. unsettle_tac. Qed.
Lemma rejected_unsettling now id by_ t : unsettling t (mark_rejected now id by_ t).1.
Proof. unsettle_tac. Qed.
Lemma refresh_unsettling now id new t : unsettling t (refresh_pending now id new t).
Proof. unsettle_tac. Qed.
Lemma submitted_unsettling now id path t : unsettling t (mark_submitted now id path t).1.
Proof. unsettle_tac. Qed.
Lemma insert_unsettling now id new t t' : insert_pending now id new t = Some t' → unsettling t t'.
Proof.
  unfold insert_pending. case_if; [done|]. intros [= <-] r. rewrite elem_of_app, list_elem_of_singleton.
  intros [Hr| ->]; [|done]. intros Hs. by exists r.
Qed.
Lemma approved_granted now id by_ w w' :
  World.rows w' = (mark_approved now id by_ (World.rows w)).1 →
  (∀ n, n ∈ World.notes w → n ∈ World.notes w') →
  granted id w → settled_granted w → settled_granted w'.
Proof.
  intros Hr Hn Hid Hg r. rewrite Hr. unfold mark_approved, guarded_tx. cbn. intros Hin Hs.
  assert (granted (Transaction.id r) w) as (e & q & Hq); [|exists e, q; by apply Hn].
  apply elem_of_update in Hin as (r0 & Hr0 & ->). destruct (in_state id Pending r0) eqn:E; [|by apply Hg].
  apply in_state_spec in E as [E _]. cbn. by rewrite E.
Qed.

Definition turned w w' (next : list Task) : Prop :=
  ∃ said, World.notes w' = World.notes w ++ said ∧ Forall (note_ok w') said ∧ Forall (task_ok w') next
          ∧ settled_granted w'.

Lemma decided_ok env row quoted t u :
  decide_approval cfg env row quoted t = Ok u →
  TransactConfig.allow_live cfg = true ∧ ∀ q, quoted = Some q → q = Transaction.evidence_sha row.
Proof.
  unfold decide_approval, approve_decision. destruct (TransactConfig.allow_live cfg); [|done]. cbn [negb].
  case_if; [done|]. destruct (match _ with Some _ => _ | None => false end); [done|].
  intros Hd. split; [done|]. intros q ->. destruct (String.eqb_spec q (Transaction.evidence_sha row)); [done|].
  by cbn in Hd.
Qed.
(** A turn that only says what needs no proof and leaves the ledger. *)
Lemma turned_quiet w said next :
  Forall (note_ok w) said → Forall (task_ok w) next → settled_granted w →
  turned w (w <| World.notes ::= λ l, l ++ said |>) next.
Proof.
  intros Hs Hn Hg. exists said. split; [done|]. split; [|split].
  - eapply Forall_impl; [exact Hs|]. intros n. by destruct n.
  - eapply Forall_impl; [exact Hn|]. intros task. destruct task; cbn; try done. intros (e & q & Hq).
    exists e, q. cbn. apply elem_of_app. by left.
  - apply (unsettling_granted w); [|apply unsettling_refl|exact Hg]. intros n Hin. cbn. apply elem_of_app. by left.
Qed.
Lemma turned_still w next : Forall (task_ok w) next → settled_granted w → turned w w next.
Proof. intros Hn Hg. exists []. rewrite app_nil_r. by split_and!. Qed.
Lemma turned_rows w t said next :
  unsettling (World.rows w) t → settled_granted w → Forall (λ n, ∀ w, note_ok w n) said →
  Forall (λ task, ∀ w, task_ok w task) next →
  turned w (w <| World.rows := t |> <| World.notes ::= λ l, l ++ said |>) next.
Proof.
  intros Hu Hg Hs Hn. exists said. split; [done|]. split; [by eapply Forall_impl; [exact Hs|]; auto|].
  split; [by eapply Forall_impl; [exact Hn|]; auto|].
  apply (unsettling_granted w); [|exact Hu|exact Hg]. intros n Hin. cbn. apply elem_of_app. by left.
Qed.
Lemma world_says_nothing w : w <| World.notes ::= λ l, l ++ [] |> = w.
Proof. destruct w as [r k n]. cbn. unfold upd. cbn. by rewrite app_nil_r. Qed.
Lemma lost_race_says id w : ∃ n, lost_race id w = note n w ∧ ∀ w', note_ok w' n.
Proof. unfold lost_race. destruct (get_tx id (World.rows w)); eexists; by split. Qed.

Lemma approve_turned env row by_ w :
  task_ok w (ApproveMark row by_) → settled_granted w →
  let '(w', next) := turn cfg env (ApproveMark row by_) w in turned w w' next.
Proof.
  intros Hok Hg. cbn. destruct (Env.stored env) as [[]|e]; [|by apply turned_quiet; [repeat constructor|constructor|]].
  pose proof (approved_granted (Env.now env) (Transaction.id row) by_ w) as Ha.
  destruct (mark_approved _ _ _ _) as [t landed]. cbn in Ha. destruct landed.
  - exists []. rewrite app_nil_r. split; [done|]. split; [constructor|]. split; [repeat constructor|].
    exact (Ha (w <| World.rows := t |>) eq_refl (λ _ Hn, Hn) Hok Hg).
  - destruct (lost_race_says (Transaction.id row) (w <| World.rows := t |>)) as (n & Hrace & Hn).
    cbn in Hrace. rewrite Hrace.
    exists [n]. split; [done|]. split; [by apply Forall_singleton|]. split; [constructor|].
    refine (Ha (note n (w <| World.rows := t |>)) eq_refl _ Hok Hg). intros n' Hin. cbn. apply elem_of_app. by left.
Qed.
Lemma submit_turned env row req observed w :
  task_ok w (CommitSubmit row req observed) → settled_granted w →
  let '(w', next) := submit_turn env row req observed w in turned w w' next.
Proof.
  intros [Hh ->] Hg. unfold submit_turn.
  assert (∀ said next, Forall (note_ok w) said → Forall (task_ok w) next →
            turned w (w <| World.notes ::= λ l, l ++ said |>) next) as Hq by (intros; by apply turned_quiet).
  set (c := Clicked _ _). assert (note_ok w c) as Hc by exact Hh.
  unfold note. destruct (clicked env req), (Env.outcomes env) as [outcomes|e]; [case_if| |case_if|].
  - by apply (Hq [c] [CommitSave row]); repeat constructor.
  - replace (upd _ _ (upd _ _ w)) with (w <| World.notes ::= λ l, l ++ [c; Lost (Transaction.id row)] |>)
      by (destruct w; cbn; unfold upd; cbn; by rewrite <- !app_assoc).
    by apply (Hq [c; Lost (Transaction.id row)] []); repeat constructor.
  - replace (upd _ _ (upd _ _ (upd _ _ w)))
      with (w <| World.notes ::= λ l, l ++ [c; FailsWith e; Lost (Transaction.id row)] |>)
      by (destruct w; cbn; unfold upd; cbn; by rewrite <- !app_assoc).
    by apply (Hq [c; FailsWith e; Lost (Transaction.id row)] []); repeat constructor.
  - by apply turned_still; repeat constructor.
  - by apply turned_still; repeat constructor.
  - by apply (Hq [FailsWith e] []); repeat constructor.
Qed.

(** A turn that says one thing that needs no proof. *)
Lemma turned_note n w next :
  (∀ w, note_ok w n) → Forall (task_ok w) next → settled_granted w → turned w (note n w) next.
Proof. intros Hn Hk Hg. apply (turned_quiet w [n] next); [by apply Forall_singleton|done|done]. Qed.
(** A turn that writes, and goes on to a place that holds nothing. *)
Lemma turned_write w t next :
  unsettling (World.rows w) t → settled_granted w → Forall (λ task, ∀ w, task_ok w task) next →
  turned w (w <| World.rows := t |>) next.
Proof.
  intros Hu Hg Hn. pose proof (turned_rows w t [] next Hu Hg (Forall_nil_2 _) Hn) as Ht.
  by rewrite world_says_nothing in Ht.
Qed.
Lemma turned_write_note w t n :
  unsettling (World.rows w) t → settled_granted w → (∀ w, note_ok w n) →
  turned w (note n (w <| World.rows := t |>)) [].
Proof. intros Hu Hg Hn. apply (turned_rows w t [n] []); [done|done|by apply Forall_singleton|constructor]. Qed.

Lemma note_note a b w : note b (note a w) = w <| World.notes ::= λ l, l ++ [a; b] |>.
Proof. destruct w as [r k n]. unfold note, upd. cbn. by rewrite <- app_assoc. Qed.
Lemma mark_turned env row w :
  settled_granted w → let '(w', next) := turn cfg env (CommitMark row) w in turned w w' next.
Proof.
  intros Hg. cbn. destruct (Env.stored env) as [[]|e].
  - pose proof (submitted_unsettling (Env.now env) (Transaction.id row) "receipt.json" (World.rows w)) as Hu.
    destruct (mark_submitted _ _ _ _) as [t landed]. apply turned_write_note; [exact Hu|done|by destruct landed].
  - rewrite note_note. apply turned_quiet; [repeat constructor|constructor|done].
Qed.
Lemma reject_turned env row by_ w :
  settled_granted w → let '(w', next) := turn cfg env (RejectMark row by_) w in turned w w' next.
Proof.
  intros Hg. cbn. destruct (Env.stored env) as [[]|e]; [|by apply turned_note].
  pose proof (rejected_unsettling (Env.now env) (Transaction.id row) by_ (World.rows w)) as Hu.
  destruct (mark_rejected _ _ _ _) as [t landed]. destruct landed; [by apply turned_write_note|].
  destruct (lost_race_says (Transaction.id row) (w <| World.rows := t |>)) as (n & Hrace & Hn). cbn in Hrace.
  rewrite Hrace. by apply turned_write_note.
Qed.
Lemma commit_read_turned env req w :
  settled_granted w → let '(w', next) := turn cfg env (CommitRead req) w in turned w w' next.
Proof.
  intros Hg. cbn. destruct (Env.stored env) as [[]|e]; [|by apply turned_note].
  destruct (by_key _ _) as [row|] eqn:Hrow; [|by apply turned_note]. case_if; [|by apply turned_note].
  apply turned_still; [|done]. apply Forall_singleton. apply lookup_by_Some in Hrow as [Hin _]. breflect.
  exists row. by rewrite Heqb.
Qed.

Lemma turn_turned env task w :
  task_ok w task → settled_granted w → let '(w', next) := turn cfg env task w in turned w w' next.
Proof.
  intros Hok Hg. destruct task;
    try (by apply approve_turned); try (by apply submit_turned); try (by apply mark_turned);
    try (by apply reject_turned); try (by apply commit_read_turned);
    cbn; try (destruct (Env.stored env) as [[]|e]; [|by apply turned_note]).
  - by apply turned_write; [apply expire_unsettling| |].
  - by apply turned_write; [apply expire_unsettling| |repeat constructor].
  - destruct (get_tx id (World.rows w)) as [row|]; [by apply turned_still; [repeat constructor|]|by apply turned_note].
  - destruct (decide_approval _ _ _ _ _) as [u|why] eqn:Hd; [|by apply turned_note].
    exists [Grants (Transaction.id row) (Transaction.evidence_sha row) quoted]. split; [done|].
    split; [by apply Forall_singleton, (decided_ok _ _ _ _ _ Hd)|]. split.
    + apply Forall_singleton. eexists _, _. cbn. apply elem_of_app. right. by apply list_elem_of_singleton.
    + apply (unsettling_granted w); [|apply unsettling_refl|exact Hg]. intros n Hin. apply elem_of_app. by left.
  - by apply turned_note.
  - destruct (get_tx id (World.rows w)) as [row|]; [|by apply turned_note].
    destruct (reject_decision _) as [[]|why]; [by apply turned_still; [repeat constructor|]|by apply turned_note].
  - destruct (by_key _ _) as [row|]; [|by apply turned_still; [repeat constructor|]].
    case_if; [by apply turned_still; [repeat constructor|]|by apply turned_note].
  - by apply turned_write; [apply refresh_unsettling| |repeat constructor].
  - destruct (insert_pending _ _ _ _) as [t|] eqn:Ht; [|by apply turned_note].
    by apply turned_write; [eapply insert_unsettling| |repeat constructor].
  - destruct (get_tx id (World.rows w)) as [row|]; [|by apply turned_note]. case_if; by apply turned_note.
  - destruct (Env.page env) as [[target fields]|e]; [|by apply turned_note].
    unfold commit_guard. destruct (String.eqb_spec (Transaction.evidence_sha row) (evidence_digest target fields));
      [|by apply turned_note].
    apply turned_still; [|done]. apply Forall_singleton. by split.
  - destruct (Env.artifacts env) as [[]|e].
    + apply turned_still; [by apply Forall_singleton|done].
    + rewrite note_note. apply turned_quiet; [repeat constructor|constructor|done].
Qed.
End guarantees.
